(* ===== verification/_CoqProject ===== *)
-Q . S2P
Prelude.v
Text.v
Paths.v
Model.v
Codec.v
CodecProps.v
Lookup.v
Convert.v
ConvertProps.v
Flatten.v
FlattenProps.v
Diff.v
DiffProps.v
SyncDelta.v
ThreeWay.v
Reconcile.v
Negotiate.v
HubStore.v
Hub.v
HubProps.v
HubTheorems.v
WorkContract.v
AgentContract.v
WorkReducer.v
WorkReducerProps.v
WorkBatch.v
WorkScopeProps.v
WorkTheorems.v
WorkStatus.v
WorkShape.v
Scope.v
ScopeProps.v
RunnerStore.v
RunnerSession.v
RunnerProps.v
RunnerTheorems.v
RunnerCycle.v
LaunchTheorems.v
RunnerFinish.v
FinishTheorems.v
Backoff.v
Traversal.v
Signals.v
SignalsProps.v
IntegratorContract.v
Integrator.v
IntegratorSelection.v
IntegratorProps.v
IntegratorTheorems.v
IntegratorSafety.v
ResolutionContract.v
ResolutionIdentity.v
ResolutionStore.v
Designation.v
DesignationProps.v
Resolution.v
ResolutionProps.v
ResolutionInvariant.v
ResolutionOps.v
ResolutionRecovery.v
ResolutionTheorems.v
SnapshotDiff.v
SnapshotDiffProps.v
Prepared.v
PreparedProps.v
TreeState.v
TreeStateProps.v
Reachability.v
ReachabilityProps.v
ObjectStore.v
ObjectStoreProps.v
StoreViews.v
SnapshotViews.v
Snapshots.v
SnapshotProps.v
PruneProps.v
Land.v
LandProps.v
ReconcileProps.v
SnapshotSamples.v
