(* ===== verification/Prelude.v ===== *)
(** * FeanorFS: a verification development

    FeanorFS synchronizes end-to-end encrypted workspaces between machines and agents.  Clients
    scan a directory, compare it with the state they last agreed on and with the state of a hub,
    and exchange files, trees and snapshots; agents talk to each other through signals, which
    are snapshots that change no file.  This development models the parts of the Rust sources
    that decide what is exchanged, stored and accepted, as executable functions, and proves what
    makes each part correct.

    ** The parts and the files that model them

    Shared ground
    - Prelude.v (this file): results and errors, loops, machine integers, bytes, sorting, the
      order of a [HashMap]; the tactics [inv_ok] and friends; lemmas all files share.
    - Text.v: UTF-8 strings, splitting and joining, prefixes; the class [Unicode] stands for the
      unicode-normalization crate and [to_lowercase].
    - Paths.v: common/src/lib.rs and hub_contract.rs: portable paths, object ids, manifests,
      sizes; the class [Blake3] stands for the hash.
    - Model.v: the data of lib.rs and tree.rs: file states, trees, snapshots, changes.

    Objects
    - Codec.v, CodecProps.v: tree_codec.rs, the canonical binary form of trees and snapshots.
    - Lookup.v: paths through stored trees, the abstract content of a root.
    - Convert.v, ConvertProps.v: tree_convert.rs, building trees from flat file states and
      recorded conflicts.
    - Flatten.v, FlattenProps.v: tree_convert.rs, flattening a stored tree.
    - Diff.v, DiffProps.v: tree_diff.rs, the changes between two roots.

    Snapshots and the object store
    - SnapshotDiff.v, SnapshotDiffProps.v: agent-core/src/snapshot_diff.rs, comparing two stored
      roots, or a stored root with trees that were not uploaded.
    - Prepared.v, PreparedProps.v: prepared_tree.rs, renaming the trees of a bundle to the ids of
      their ciphertexts, children first.
    - TreeState.v, TreeStateProps.v, Reachability.v, ReachabilityProps.v: objects.rs, loading the
      files and conflicts of a root, and the manifest of a snapshot.
    - ObjectStore.v, ObjectStoreProps.v, PruneProps.v: objects.rs, upload_registry.rs and
      object_gc.rs: sealing, caching, uploading and reading objects, manifests, pruning.
    - StoreViews.v, SnapshotViews.v: the store refines a directory from ids to contents; the leaves
      of a written snapshot.
    - Snapshots.v, SnapshotProps.v: snapshot.rs: refs, publishing with compare-and-swap, resolving
      conflicts, comparing a snapshot with a view.
    - Land.v, LandProps.v: agent/diff.rs, land.rs, land/publish.rs, land/materialize.rs, refresh.rs
      and the end of sync_pass/mod.rs: what agents and sync passes publish.
    - SnapshotSamples.v: concrete workspaces for these theorems.

    Synchronization
    - SyncDelta.v: sync_delta.rs, the last-writer-wins protocol.
    - ThreeWay.v: three_way.rs, edits made on both sides.
    - Reconcile.v, ReconcileProps.v: tree_reconcile.rs and the gate of conflicts.rs, which turn
      local, remote and agreed states into a plan and stop conflicting paths; the theorems are about
      plans read from the snapshot store.
    - Negotiate.v: sync_pass/negotiate.rs, structural validation of plans, rollbacks.

    The hub
    - HubStore.v: durable.rs, hub_state.rs and its submodules: the persisted state, its
      operations, migration.
    - Hub.v: hub.rs and the routes under hub/, as programs over atomic store operations, with
      locks, faults of the disk, and the interleaving of requests as a step relation.
    - HubProps.v, HubTheorems.v: a rely-guarantee argument for every route and its consequences.

    Agents
    - WorkContract.v: work_contract.rs: work profiles, their validation and canonical form, scope
      overlap, the transition rules.
    - AgentContract.v: the message envelope of agent_contract.rs.
    - WorkReducer.v: work.rs: the projection of work profiles onto tasks and proposals.
    - WorkReducerProps.v, WorkBatch.v, WorkScopeProps.v, WorkTheorems.v: provenance of every
      record, batches and bounds, dependency search and overlap, and the theorems on runs.
    - WorkStatus.v, WorkShape.v: the rendered view of the projection, and that all its records
      stay well formed.
    - Scope.v, ScopeProps.v: agent/scope.rs, which request is accepted work.
    - RunnerStore.v, RunnerSession.v: agent/runner/contract.rs, store.rs, admission.rs and
      session.rs: the durable state of an agent runner, its validation, every operation on it,
      and histories of calls.
    - RunnerProps.v, RunnerTheorems.v: the job queue that state implements, and the theorems on
      histories.
    - RunnerCycle.v, LaunchTheorems.v: client/src/cli/agent_runner/inbox.rs and cycle.rs, one
      cycle of the worker up to the process it starts, and what a launch stands for.
    - RunnerFinish.v, FinishTheorems.v: process.rs, remote.rs and the rest of cycle.rs: how the
      process ended, the search for the reply that ends the request, the blocked reply in its
      place.
    - Backoff.v: client/src/backoff.rs, the retry delays.
    - Traversal.v: traversal.rs, the bounded walk of the snapshot graph, and the reachability
      check of messages.rs.
    - Signals.v, SignalsProps.v: messages.rs and signal_index.rs: reading signals.

    Automatic conflict resolution
    - IntegratorContract.v: integrator_contract.rs: candidates, eligibility, the ranking, digests
      and profiles.
    - Integrator.v: integrator.rs, the dispatcher: assign, offer, observe, resume, revoke, as
      programs that ask an environment questions; a call may fail, with or without effect, and
      the process may stop at any of them.
    - IntegratorSelection.v, IntegratorProps.v, IntegratorTheorems.v, IntegratorSafety.v: the
      selection, the invariant of the dispatcher, that every operation keeps it, and the theorems
      on histories.
    - ResolutionContract.v, ResolutionIdentity.v: resolution_contract.rs: identities of conflicts,
      jobs, results and answers with their validation, and what the fingerprint identifies.
    - Designation.v, DesignationProps.v: integrator.rs, who resolves a conflict.
    - ResolutionStore.v, Resolution.v: resolution.rs with the guarded publication of snapshot.rs:
      the job store, and every operation of the engine, in the same style as the dispatcher;
      other clients move the head between any two steps.
    - ResolutionProps.v, ResolutionInvariant.v, ResolutionOps.v, ResolutionRecovery.v,
      ResolutionTheorems.v: the store, the invariant of the engine, that every operation keeps it,
      that recovery returns, and the theorems on histories.

    Records, enums and functions keep the names of the source; a function that the source writes
    as one loop body is split into the definitions that its blocks make up.

    ** What the theorems show

    - Objects: decoders accept exactly the canonical encodings and invert the encoders; the tree
      built from a flat view holds exactly that view, in whatever order the map is read;
      flattening and diffing a root return exactly the leaves and the differing leaves of the
      stored trees, and end on every store.
    - Snapshots: whatever the cache, the registry and the hub go through, a read returns what was
      written under the id, and a snapshot loads as the view it was written from; the manifest
      lists exactly what a snapshot needs, and pruning keeps what refs and recent manifests list;
      comparing reports exactly the differing leaves.  Resolving, landing and the end of a sync
      pass replace exactly the head they were computed from, by a stated function of its leaves,
      the agent's files and their common base, whatever others publish meanwhile.
    - Synchronization: the last-writer-wins delta converges; concurrent edits are detected
      exactly; a plan overwrites or deletes only what has the leaf of the last synced snapshot; the
      differences it neither plans nor blocks are characterised exactly, and they are paths where
      that snapshot records a conflict or another size; a hub that lost its state is refilled; plans
      are rejected exactly when the two directions collide.
    - The hub: for every interleaving of requests and every pattern of failed writes the state
      stays well-formed, heads move only by the compare-and-swap the request asked for, manifests
      never change, a migration fence excludes other writers, downloads are authentic, and
      without failed writes every published object is present.
    - Work: whatever is delivered, a proposal is decided only by its coordinator and moved on
      only by its author; the projection has unique tasks and proposals, within the bounds the code
      keeps; batches end, settle or keep every message up to the cap of pending ones, and do not
      depend on the order of delivery; the dependency search is exact; overlap is complete.
    - Runners: the state file implements a job queue, one whole step or none for each call, also
      where its write fails before or after the commit; over any history of calls a request is
      launched at most once within the memory of completed requests and never lost, the cursor
      is committed only at an empty queue, and a restart pins what may have run.  An enforced
      runner starts a process only for work that its coordinator accepted, and nothing it admits
      is refused at the launch checkpoint.  Once a request is started, and while its state can be
      written, the cycle ends it or pins it, or fails for want of the startup wrapper; at most one
      blocked reply can be published.
    - Retry delays: defined, capped, monotone, within the jitter.
    - Signals: the walk decides reachability; a read without a cursor reset is exactly the
      difference of two reachable sets.
    - The dispatcher: the ranking is exact, neutral and repeatable; over any history with any
      failures an assignment is offered along its ranking, nobody is asked twice, no request is
      published twice, and completion rests on a signed reply.
    - Resolution: an owner is designated exactly from the eligible authors; over any history a
      job is completed only if its candidate, sealed and uploaded, was published over the very
      conflict it was prepared for, and at most once; the store always validates, moves only along the transition table,
      and loses no unfinished job; recovery settles every uncertain publication.
    - Deviations: theorems of kind error exhibit behaviour that departs from what a comment or a
      document says, on concrete inputs: a blob removed under a published head, the eviction of
      the wrong task, a narrowing that widens, deliveries that do not converge, a waiting runner
      that cannot ask for attention, an approval that was never given, a publication that is
      forgotten or declared stale, a designation that panics, a landing that replaces a recorded
      conflict or its resolution.

    ** Bounds and fuel

    Loops that are not structural run under [iterate k], at most [2 ^ k] iterations: [2 ^ 22] for
    flattening, loading, diffing and renaming trees, above the work-item limit of the code;
    [2 ^ 23] for the manifest; [2 ^ 129] for the bounded
    walk, above the square of any [usize] budget; [2 ^ 16] for the walks of a signal read, above
    three times the scan bound of 10000.  The termination theorems show these are enough.  The
    passes of a work batch have one more unit of fuel than there are candidates, and the
    dependency search one per dependency; both are proved sufficient.  [usize] is 64 bits wide;
    integers keep the width and the overflow behaviour of the source.  A work batch returns
    [None] where the code would panic.

    ** Parameters

    [Unicode], [Blake3], [Wire] and the JSON classes [WorkJson], [MessageJson], [IntegratorJson]
    and [ResolutionJson] stand for crates; [HashOrder] for the iteration order of hash maps; [Sealing] for the encryption of a resolved
    file; [SnapshotReader] and [SnapshotLoader] are the interfaces through which reconciliation and
    the walks read the object store (what the theorems on plans ask of the first, [LeafReader], is
    proved of the store).  No injectivity of the hash is assumed except
    where a statement says so.  The runner's state file is the value it decodes to, with the
    length of its encoding as a parameter; outcomes of locks, reads, writes and the clock are arguments.
    Statements about signals, work runs and launches assume what content
    addressing gives: an id determines its message, and the snapshot graph has no cycle.  Those
    about the dispatcher assume that random ids drawn in a history are distinct and that a profile
    it writes parses again; those about resolution that the ids of the snapshots it writes are
    distinct and are not set as heads by others beforehand.  The dispatcher and the engine ask a
    stream of answers, one for each call, with the time, random bytes, failures and the moves of
    others; every theorem holds for all streams.  Sealing and unsealing ([pack], [unpack]) and the
    chunk lists of large files are arguments of the object store; its theorems assume that unsealing
    undoes sealing and that the objects of the run at hand do not collide (a directory from ids to
    contents exists), not that the hash is injective.  A failed write of a snapshot returns its
    error; the objects it may have left behind are not modelled.

    ** Not modelled

    Encryption and compression (thin calls of crates); directory scans, file materialization and
    conflict copies on disk, and large-file chunks; the HTTP client, the SQLite server, mesh networking and the tray
    (input and output); the migration of old state directories; sending of signals,
    history, and the command line (candidates for extension). *)
From Stdlib Require Import ZArith Lia Ascii Strings.Byte.
From stdpp Require Import sorting numbers strings gmap list_numbers list options.

Local Open Scope Z_scope.

(** ** Results of fallible code *)

(** Rust's [Result<A, E>]. *)
Inductive result (E A : Type) : Type :=
| Ok (a : A)
| Err (e : E).
Arguments Ok {E A} a.
Arguments Err {E A} e.

(** [anyhow::Result]: the error is the static part of the message; values the source
    interpolates into a message are left out. *)
Abbreviation Result := (result string).

#[global] Instance result_ret {E} : MRet (result E) := λ A a, Ok a.
#[global] Instance result_bind {E} : MBind (result E) :=
  λ A B f m, match m with Ok a => f a | Err e => Err e end.
#[global] Instance result_fmap {E} : FMap (result E) :=
  λ A B f m, match m with Ok a => Ok (f a) | Err e => Err e end.

(** [bail!] under a condition and [ensure!]. *)
Definition bail_if {E} (c : bool) (e : E) : result E unit := if c then Err e else Ok tt.
Definition ensure {E} (c : bool) (e : E) : result E unit := if c then Ok tt else Err e.

(** [Option::context] / [ok_or_else]. *)
Definition or_context {E A} (o : option A) (e : E) : result E A :=
  match o with Some a => Ok a | None => Err e end.

(** [map_err]. *)
Definition map_err {E F A} (f : E → F) (r : result E A) : result F A :=
  match r with Ok a => Ok a | Err e => Err (f e) end.

(** [unwrap_or]. *)
Definition unwrap_or {E A} (d : A) (r : result E A) : A := match r with Ok a => a | Err _ => d end.

Definition is_ok {E A} (r : result E A) : bool := match r with Ok _ => true | Err _ => false end.

(** A [for] loop whose body may fail: the state is threaded, the first error ends it. *)
Fixpoint try_fold {E S A} (f : S → A → result E S) (s : S) (l : list A) : result E S :=
  match l with
  | [] => Ok s
  | a :: l => s' ← f s a; try_fold f s' l
  end.

(** [collect::<Result<Vec<_>, _>>()]. *)
Fixpoint try_map {E A B} (f : A → result E B) (l : list A) : result E (list B) :=
  match l with
  | [] => Ok []
  | a :: l => b ← f a; bs ← try_map f l; Ok (b :: bs)
  end.

(** A [while] loop: one iteration either continues with a new state or ends with a result. *)
Inductive step (S R : Type) : Type :=
| More (s : S)
| Done (r : R).
Arguments More {S R} s.
Arguments Done {S R} r.

(** Up to [2 ^ k] iterations. *)
Fixpoint iterate {S R} (k : nat) (f : S → step S R) (s : S) : step S R :=
  match k with
  | O => f s
  | Datatypes.S k => match iterate k f s with More s' => iterate k f s' | Done r => Done r end
  end.

(** ** Machine integers

    [usize] is 64 bits wide on every target the project releases. *)
Definition U32_MAX : Z := 2 ^ 32 - 1.
Definition U64_MAX : Z := 2 ^ 64 - 1.
Definition I64_MAX : Z := 2 ^ 63 - 1.
Definition I64_MIN : Z := - 2 ^ 63.
Definition USIZE_MAX : Z := U64_MAX.

Definition is_u32 (z : Z) : bool := (0 <=? z) && (z <=? U32_MAX).
Definition is_u64 (z : Z) : bool := (0 <=? z) && (z <=? U64_MAX).
Definition is_i64 (z : Z) : bool := (I64_MIN <=? z) && (z <=? I64_MAX).

(** [usize::checked_add], [checked_sub] and [saturating_add]. *)
Definition checked_add (a b : Z) : option Z := if a + b <=? USIZE_MAX then Some (a + b) else None.
Definition checked_sub (a b : Z) : option Z := if b <=? a then Some (a - b) else None.
Definition saturating_add (a b : Z) : Z := Z.min (a + b) USIZE_MAX.

(** Lengths as the [usize] values they are in the source. *)
Definition zlen {A} (l : list A) : Z := Z.of_nat (length l).
Definition slen (s : string) : Z := Z.of_nat (String.length s).
Definition map_len {A} (m : gmap string A) : Z := Z.of_nat (size m).

(** ** Bytes *)
#[global] Instance byte_eq_decision : EqDecision byte := Byte.byte_eq_dec.
Definition byteZ (b : byte) : Z := Z.of_N (Byte.to_N b).
Definition Zbyte (z : Z) : byte := default x00 (Byte.of_N (Z.to_N (z mod 256))).

(** [to_le_bytes] of a [w]-byte integer and [from_le_bytes] (unsigned). *)
Fixpoint le_bytes (w : nat) (z : Z) : list byte :=
  match w with O => [] | S w => Zbyte z :: le_bytes w (z / 256) end.
Fixpoint le_value (l : list byte) : Z :=
  match l with [] => 0 | b :: l => byteZ b + 256 * le_value l end.

(** [as_bytes], and the string over given bytes. *)
Definition as_bytes (s : string) : list byte := String.list_byte_of_string s.
Definition of_bytes (l : list byte) : string := String.string_of_list_byte l.

(** ** Byte order on strings

    Rust orders [str] by its bytes. *)
Definition str_lt (a b : string) : Prop := String.le a b ∧ a ≠ b.
#[global] Instance str_lt_dec : RelDecision str_lt.
Proof. intros a b. unfold str_lt. apply _. Defined.

(** [slice::sort_by(|l, r| key(l).cmp(&key(r)))]: a stable sort, written as insertion. *)
Section sort_by.
Context {A : Type} (key : A → string).

Fixpoint insert_by (x : A) (l : list A) : list A :=
  match l with
  | [] => [x]
  | y :: l' => if decide (String.le (key x) (key y)) then x :: y :: l' else y :: insert_by x l'
  end.

Definition sort_by (l : list A) : list A := foldr insert_by [] l.
End sort_by.

(** [sort] / [sort_unstable] of a list of strings. *)
Definition sort_strings (l : list string) : list string := sort_by id l.

(** [Vec::dedup]: drop an element equal to its predecessor. *)
Fixpoint dedup (l : list string) : list string :=
  match l with
  | [] => []
  | x :: l' =>
      match dedup l' with
      | [] => [x]
      | y :: r => if decide (x = y) then y :: r else x :: y :: r
      end
  end.

(** Iteration of a [BTreeMap]: its entries in ascending key order. *)
Definition btree_entries {A} (m : gmap string A) : list (string * A) := sort_by fst (map_to_list m).
Definition btree_values {A} (m : gmap string A) : list A := snd <$> btree_entries m.

(** Iteration of a [HashMap]: its entries once each, in an order the language leaves open. *)
Class HashOrder := {
  hash_iter {A} : gmap string A → list (string * A);
  hash_iter_perm {A} (m : gmap string A) : hash_iter m ≡ₚ map_to_list m;
}.

(** [HashMap::from_iter]: a later entry replaces an earlier one. *)
Definition hash_collect {A} (l : list (string * A)) : gmap string A :=
  foldl (λ m kv, <[kv.1 := kv.2]> m) ∅ l.

(** [pair[0].k < pair[1].k] over [windows(2)]. *)
Fixpoint strictly_ascending (l : list string) : bool :=
  match l with
  | x :: ((y :: _) as l') => bool_decide (str_lt x y) && strictly_ascending l'
  | _ => true
  end.

(** ** Lemmas on results *)
Section result_lemmas.
Context {E : Type}.

Lemma Ok_inj {A} (a b : A) : Ok (E:=E) a = Ok b → a = b.
Proof. by intros [=]. Qed.

Lemma bind_Ok {A B} (m : result E A) (f : A → result E B) b :
  m ≫= f = Ok b ↔ ∃ a, m = Ok a ∧ f a = Ok b.
Proof. destruct m; simpl; naive_solver. Qed.

Lemma bind_Err {A B} (m : result E A) (f : A → result E B) e :
  m ≫= f = Err e ↔ m = Err e ∨ ∃ a, m = Ok a ∧ f a = Err e.
Proof. destruct m; simpl; naive_solver. Qed.

Lemma bind_run {A B} (m : result E A) (f : A → result E B) a : m = Ok a → m ≫= f = f a.
Proof. by intros ->. Qed.

Lemma fmap_Ok {A B} (m : result E A) (f : A → B) b :
  f <$> m = Ok b ↔ ∃ a, m = Ok a ∧ f a = b.
Proof. destruct m; simpl; naive_solver. Qed.

Lemma bail_if_Ok c (e : E) u : bail_if c e = Ok u ↔ c = false.
Proof. destruct c, u; simpl; naive_solver. Qed.

Lemma ensure_Ok c (e : E) u : ensure c e = Ok u ↔ c = true.
Proof. destruct c, u; simpl; naive_solver. Qed.

Lemma or_context_Ok {A} (o : option A) (e : E) a : or_context o e = Ok a ↔ o = Some a.
Proof. destruct o; simpl; naive_solver. Qed.

Lemma map_err_Ok {F A} (f : E → F) (r : result E A) a : map_err f r = Ok a ↔ r = Ok a.
Proof. destruct r; simpl; naive_solver. Qed.

Lemma is_ok_true {A} (r : result E A) : is_ok r = true ↔ ∃ a, r = Ok a.
Proof. destruct r; simpl; naive_solver. Qed.

Lemma is_ok_false {A} (r : result E A) : is_ok r = false ↔ ∃ e, r = Err e.
Proof. destruct r; simpl; naive_solver. Qed.

Lemma try_fold_app {S A} (f : S → A → result E S) s l1 l2 :
  try_fold f s (l1 ++ l2) = (s' ← try_fold f s l1; try_fold f s' l2).
Proof.
  revert s. induction l1 as [|a l1 IH]; intros s; simpl; [done|].
  destruct (f s a); simpl; auto.
Qed.

(** Rule for loops: an invariant kept by every successful iteration holds at the end. *)
Lemma try_fold_inv {S A} (P : S → Prop) (f : S → A → result E S) s l s' :
  (∀ s a s', a ∈ l → P s → f s a = Ok s' → P s') →
  P s → try_fold f s l = Ok s' → P s'.
Proof.
  revert s. induction l as [|a l IH]; intros s Hf Hs H; simpl in H; [naive_solver|].
  apply bind_Ok in H as (s1 & H1 & H2). eapply (IH s1); [|by eapply Hf; [left| |]|done].
  intros ??? ?. eapply Hf. by right.
Qed.

(** Progress of loops: if every iteration succeeds from a state with the invariant, the loop does. *)
Lemma try_fold_total {S A} (P : S → list A → Prop) (f : S → A → result E S) s l :
  (∀ s a l, P s (a :: l) → ∃ s', f s a = Ok s' ∧ P s' l) →
  P s l → ∃ s', try_fold f s l = Ok s' ∧ P s' [].
Proof.
  intros Hf. revert s. induction l as [|a l IH]; intros s Hs; simpl; [eauto|].
  destruct (Hf _ _ _ Hs) as (s1 & -> & Hs1); simpl. eauto.
Qed.

Lemma try_map_Ok {A B} (f : A → result E B) l bs :
  try_map f l = Ok bs ↔ Forall2 (λ a b, f a = Ok b) l bs.
Proof.
  revert bs. induction l as [|a l IH]; intros bs; simpl.
  { split; [intros [= <-]; constructor|by inversion 1]. }
  rewrite bind_Ok. setoid_rewrite bind_Ok. setoid_rewrite IH. split.
  - intros (b & Hb & bs' & Hbs & [= <-]). by constructor.
  - inversion 1; subst; naive_solver.
Qed.
End result_lemmas.

(** ** Lemmas on loops *)
Section iterate_lemmas.
Context {S R : Type} (f : S → step S R) (P : S → Prop).
Context (Hstep : ∀ s s', P s → f s = More s' → P s').

Lemma iterate_more k s s' : P s → iterate k f s = More s' → P s'.
Proof using Hstep.
  revert s s'. induction k as [|k IH]; intros s s' Hs; simpl; [by apply Hstep|].
  destruct (iterate k f s) as [s1|r] eqn:E; [|done]. apply IH. by eapply IH.
Qed.

(** What holds of every final state reached from an invariant state holds of the result. *)
Lemma iterate_inv (Q : R → Prop) k s r :
  (∀ s r, P s → f s = Done r → Q r) → P s → iterate k f s = Done r → Q r.
Proof using Hstep.
  intros Hdone. revert s. induction k as [|k IH]; intros s Hs; simpl; [by apply Hdone|].
  destruct (iterate k f s) as [s1|r1] eqn:E.
  - apply IH. by eapply iterate_more.
  - intros [= ->]. by eapply IH.
Qed.

(** A measure that every iteration decreases bounds the number of iterations. *)
Lemma iterate_measure (m : S → Z) k s s' :
  (∀ s s', P s → f s = More s' → m s' < m s) → P s → iterate k f s = More s' → m s' + 2 ^ Z.of_nat k ≤ m s.
Proof using Hstep.
  intros Hm. revert s s'. induction k as [|k IH]; intros s s' Hs Hi.
  { simpl in *. specialize (Hm _ _ Hs Hi). lia. }
  simpl in Hi. destruct (iterate k f s) as [s1|r1] eqn:E; [|done].
  pose proof (IH _ _ Hs E). pose proof (IH _ _ (iterate_more _ _ _ Hs E) Hi).
  rewrite Nat2Z.inj_succ, Z.pow_succ_r by lia. lia.
Qed.

Lemma iterate_done (m : S → Z) k s :
  (∀ s s', P s → f s = More s' → m s' < m s) → (∀ s, P s → 0 ≤ m s) → P s → m s < 2 ^ Z.of_nat k →
  ∃ r, iterate k f s = Done r.
Proof using Hstep.
  intros Hm Hpos Hs Hk. destruct (iterate k f s) as [s1|r1] eqn:E; [|eauto].
  pose proof (iterate_measure _ _ _ _ Hm Hs E). pose proof (Hpos _ (iterate_more _ _ _ Hs E)). lia.
Qed.
End iterate_lemmas.
#[global] Arguments iterate : simpl never.

(** Takes apart every hypothesis that says a piece of fallible code returned [Ok]. *)
Ltac inv_ok1 :=
  match goal with
  | H : Ok _ = Ok _ |- _ => injection H as H; try subst
  | H : Err _ = Ok _ |- _ => discriminate H
  | H : Ok _ = Err _ |- _ => discriminate H
  | H : mbind _ _ = Ok _ |- _ => apply bind_Ok in H as (? & ? & H); simpl in H
  | H : bail_if _ _ = Ok _ |- _ => apply bail_if_Ok in H
  | H : ensure _ _ = Ok _ |- _ => apply ensure_Ok in H
  | H : or_context _ _ = Ok _ |- _ => apply or_context_Ok in H
  | H : map_err _ _ = Ok _ |- _ => apply map_err_Ok in H
  | H : (let '(_, _) := ?x in _) = Ok _ |- _ => destruct x
  | x : unit |- _ => destruct x
  end.
Ltac inv_ok := repeat inv_ok1.

(** Turns boolean tests of the code into propositions. *)
Ltac to_prop1 :=
  match goal with
  | H : negb _ = true |- _ => apply negb_true_iff in H
  | H : negb _ = false |- _ => apply negb_false_iff in H
  | H : _ && _ = true |- _ => apply andb_true_iff in H as [? H]
  | H : _ || _ = false |- _ => apply orb_false_iff in H as [? H]
  | H : bool_decide _ = true |- _ => apply bool_decide_eq_true in H
  | H : bool_decide _ = false |- _ => apply bool_decide_eq_false in H
  | H : (_ <=? _) = true |- _ => apply Z.leb_le in H
  | H : (_ <=? _) = false |- _ => apply Z.leb_gt in H
  | H : (_ <? _) = true |- _ => apply Z.ltb_lt in H
  | H : (_ <? _) = false |- _ => apply Z.ltb_ge in H
  | H : (_ =? _) = true |- _ => apply Z.eqb_eq in H
  | H : (_ =? _) = false |- _ => apply Z.eqb_neq in H
  end.
Ltac to_prop := repeat to_prop1.

Lemma forallb_Forall {A} (f : A → bool) l : forallb f l = true ↔ Forall (λ x, f x = true) l.
Proof.
  induction l as [|x l IH]; simpl; [by split; [constructor|]|].
  rewrite andb_true_iff, Forall_cons, IH. done.
Qed.

Lemma existsb_Exists {A} (f : A → bool) l : existsb f l = true ↔ Exists (λ x, f x = true) l.
Proof.
  induction l as [|x l IH]; simpl; [by split; [|inversion 1]|].
  rewrite orb_true_iff, Exists_cons, IH. done.
Qed.

Lemma existsb_perm {A} (f : A → bool) l1 l2 : l1 ≡ₚ l2 → existsb f l1 = existsb f l2.
Proof.
  intros Hp. apply eq_true_iff_eq. rewrite !existsb_Exists, !Exists_exists.
  by setoid_rewrite Hp.
Qed.

(** ** Lemmas on machine integers *)
Lemma checked_add_Some a b c : checked_add a b = Some c ↔ a + b ≤ USIZE_MAX ∧ c = a + b.
Proof. unfold checked_add. destruct (Z.leb_spec (a + b) USIZE_MAX); naive_solver lia. Qed.

Lemma checked_sub_Some a b c : checked_sub a b = Some c ↔ b ≤ a ∧ c = a - b.
Proof. unfold checked_sub. destruct (Z.leb_spec b a); naive_solver lia. Qed.

Lemma zlen_nonneg {A} (l : list A) : 0 ≤ zlen l.
Proof. unfold zlen. lia. Qed.

Lemma slen_nonneg s : 0 ≤ slen s.
Proof. unfold slen. lia. Qed.

Lemma zlen_cons {A} (x : A) l : zlen (x :: l) = 1 + zlen l.
Proof. unfold zlen. simpl. lia. Qed.

Lemma zlen_app {A} (l1 l2 : list A) : zlen (l1 ++ l2) = zlen l1 + zlen l2.
Proof. unfold zlen. rewrite length_app. lia. Qed.

(** ** Lemmas on bytes *)
Lemma byteZ_bounds b : 0 ≤ byteZ b < 256.
Proof. unfold byteZ. pose proof (Byte.to_N_bounded b). lia. Qed.

Lemma Zbyte_byteZ b : Zbyte (byteZ b) = b.
Proof.
  unfold Zbyte. rewrite Z.mod_small by apply byteZ_bounds.
  unfold byteZ. by rewrite N2Z.id, Byte.of_to_N.
Qed.

Lemma byteZ_Zbyte z : byteZ (Zbyte z) = z mod 256.
Proof.
  unfold Zbyte, byteZ. pose proof (Z.mod_pos_bound z 256).
  destruct (Byte.of_N _) eqn:E; simpl.
  - apply Byte.to_of_N in E. rewrite E. lia.
  - apply Byte.of_N_None_iff in E. lia.
Qed.

Lemma length_le_bytes w z : length (le_bytes w z) = w.
Proof. revert z. induction w; simpl; auto. Qed.

Lemma le_value_bound l : 0 ≤ le_value l < 256 ^ zlen l.
Proof.
  induction l as [|b l IH]; [done|]. simpl. pose proof (byteZ_bounds b).
  rewrite zlen_cons, Z.pow_add_r by (pose proof (zlen_nonneg l); lia). lia.
Qed.

Lemma le_value_bytes w z : le_value (le_bytes w z) = z mod 256 ^ Z.of_nat w.
Proof.
  revert z. induction w as [|w IH]; intros z; [by rewrite Z.mod_1_r|].
  simpl le_bytes. simpl le_value. rewrite IH, byteZ_Zbyte, Nat2Z.inj_succ, Z.pow_succ_r by lia.
  rewrite Z.rem_mul_r by (try apply Z.pow_nonzero; lia). lia.
Qed.

Lemma le_bytes_value l : le_bytes (length l) (le_value l) = l.
Proof.
  induction l as [|b l IH]; [done|]. simpl. pose proof (byteZ_bounds b). f_equal.
  - unfold Zbyte. rewrite (Z.mul_comm 256), Z.mod_add by lia. apply Zbyte_byteZ.
  - rewrite (Z.mul_comm 256), Z.div_add, Z.div_small by lia. by rewrite Z.add_0_l.
Qed.

Lemma le_bytes_of_value w l : length l = w → le_bytes w (le_value l) = l.
Proof. intros <-. apply le_bytes_value. Qed.

Lemma as_of_bytes l : as_bytes (of_bytes l) = l.
Proof. apply String.list_byte_of_string_of_list_byte. Qed.

Lemma of_as_bytes s : of_bytes (as_bytes s) = s.
Proof. apply String.string_of_list_byte_of_string. Qed.

Lemma zlen_as_bytes s : zlen (as_bytes s) = slen s.
Proof.
  unfold zlen, slen, as_bytes, String.list_byte_of_string. rewrite length_map.
  f_equal. induction s; simpl; auto.
Qed.

(** ** Lemmas on the string order and sorting *)
Lemma str_lt_trans a b c : str_lt a b → str_lt b c → str_lt a c.
Proof.
  intros [H1 N1] [H2 N2]. split; [by etrans|]. intros ->.
  apply N2. by apply (anti_symm String.le).
Qed.

#[global] Instance str_lt_strict : StrictOrder str_lt.
Proof.
  split; [by intros a [_ ?]|]. intros a b c. apply str_lt_trans.
Qed.

Lemma str_lt_total a b : str_lt a b ∨ a = b ∨ str_lt b a.
Proof.
  unfold str_lt. destruct (decide (a = b)) as [->|]; [tauto|].
  destruct (total String.le a b); auto.
Qed.

Section sort_by_lemmas.
Context {A : Type} (key : A → string).
Implicit Types (x : A) (l : list A).

(** The order in which [sort_by] leaves its result. *)
Definition key_le x y : Prop := String.le (key x) (key y).
Definition key_lt x y : Prop := str_lt (key x) (key y).

Lemma key_le_trans : Transitive key_le.
Proof. intros x y z. unfold key_le. by etrans. Qed.
Lemma key_lt_trans : Transitive key_lt.
Proof. intros x y z. apply str_lt_trans. Qed.

Lemma insert_by_perm x l : insert_by key x l ≡ₚ x :: l.
Proof.
  induction l as [|y l IH]; simpl; [done|].
  case_decide; [done|]. by rewrite IH, Permutation_swap.
Qed.

Lemma sort_by_perm l : sort_by key l ≡ₚ l.
Proof. induction l as [|x l IH]; simpl; [done|]. by rewrite insert_by_perm, IH. Qed.

Lemma insert_by_sorted x l : StronglySorted key_le l → StronglySorted key_le (insert_by key x l).
Proof.
  induction 1 as [|y l Hl IH Hy]; simpl; [repeat constructor|].
  case_decide as Hxy.
  - constructor; [by constructor|]. constructor; [done|].
    eapply Forall_impl; [exact Hy|]. intros z Hz. by eapply key_le_trans; [exact Hxy|].
  - constructor; [done|]. rewrite insert_by_perm. constructor; [|done].
    unfold key_le. destruct (total String.le (key x) (key y)); [done|done].
Qed.

Lemma sort_by_sorted l : StronglySorted key_le (sort_by key l).
Proof. induction l; simpl; [constructor|]. by apply insert_by_sorted. Qed.

(** Keys without duplicates sort into one strictly ascending list. *)
Lemma sorted_le_lt l : NoDup (key <$> l) → StronglySorted key_le l → StronglySorted key_lt l.
Proof.
  intros Hnd Hs. induction Hs as [|x l Hs IH Hx]; [constructor|].
  apply NoDup_cons in Hnd as [Hni Hnd]. constructor; [by apply IH|].
  rewrite Forall_forall in Hx |- *. intros y Hy. split; [by apply Hx|].
  intros Heq. apply Hni. rewrite Heq. by apply list_elem_of_fmap_2.
Qed.

Lemma sorted_lt_unique l1 l2 :
  StronglySorted key_lt l1 → StronglySorted key_lt l2 → l1 ≡ₚ l2 → l1 = l2.
Proof.
  intros H1 H2 Hp. eapply StronglySorted_unique_strong; [|exact H1|exact H2|exact Hp].
  intros x1 x2 _ _ [H _] [H' N]. by destruct N; apply (anti_symm String.le).
Qed.

Lemma sort_by_lt l : NoDup (key <$> l) → StronglySorted key_lt (sort_by key l).
Proof.
  intros Hnd. apply sorted_le_lt; [|apply sort_by_sorted]. by rewrite sort_by_perm.
Qed.

Lemma sort_by_sorted_id l : StronglySorted key_lt l → NoDup (key <$> l) → sort_by key l = l.
Proof.
  intros Hs Hnd. apply sorted_lt_unique; [by apply sort_by_lt|done|apply sort_by_perm].
Qed.

(** Sorting does not depend on the order of its input when keys are distinct. *)
Lemma sort_by_permutation l1 l2 :
  NoDup (key <$> l1) → l1 ≡ₚ l2 → sort_by key l1 = sort_by key l2.
Proof.
  intros Hnd Hp. apply sorted_lt_unique; [by apply sort_by_lt| |].
  - apply sort_by_lt. by rewrite <-Hp.
  - by rewrite !sort_by_perm.
Qed.

Lemma sorted_lt_NoDup l : StronglySorted key_lt l → NoDup (key <$> l).
Proof.
  induction 1 as [|x l Hs IH Hx]; simpl; [constructor|]. apply NoDup_cons. split; [|done].
  intros (y & Heq & Hy)%list_elem_of_fmap. rewrite Forall_forall in Hx.
  destruct (Hx _ Hy) as [_ Hne]. by rewrite Heq in Hne.
Qed.

Lemma sorted_lt_fmap l : StronglySorted str_lt (key <$> l) ↔ StronglySorted key_lt l.
Proof.
  induction l as [|x l IH]; simpl; [by split; constructor|].
  split; intros [Hs Hx]%StronglySorted_inv; constructor; try by apply IH.
  - by rewrite Forall_fmap in Hx.
  - by rewrite Forall_fmap.
Qed.
End sort_by_lemmas.

Lemma strictly_ascending_sorted l : strictly_ascending l = true ↔ StronglySorted str_lt l.
Proof.
  split.
  - intros H. apply Sorted_StronglySorted; [intros ???; apply str_lt_trans|].
    induction l as [|x [|y l] IH]; [constructor|repeat constructor|].
    simpl in H. to_prop. constructor; [by apply IH|by constructor].
  - induction 1 as [|x [|y l] Hs IH Hx]; simpl; [done..|].
    rewrite Forall_cons in Hx. rewrite bool_decide_true by tauto. done.
Qed.

Lemma dedup_elem x l : x ∈ dedup l ↔ x ∈ l.
Proof.
  induction l as [|y l IH]; simpl; [done|].
  destruct (dedup l) as [|z r] eqn:E; [set_solver|]. case_decide; set_solver.
Qed.

(** Sorting then deduplicating gives the strictly ascending list of the elements. *)
Lemma dedup_sorted l : StronglySorted String.le l → StronglySorted str_lt (dedup l).
Proof.
  induction 1 as [|x l Hs IH Hx]; simpl; [constructor|].
  destruct (dedup l) as [|y r] eqn:E; [repeat constructor|].
  case_decide as Hxy; [done|]. constructor; [done|].
  rewrite Forall_forall in Hx |- *. intros z Hz. split.
  - apply Hx. apply dedup_elem. by rewrite E.
  - intros <-. apply StronglySorted_inv in IH as [_ Hr]. rewrite Forall_forall in Hr.
    apply elem_of_cons in Hz as [->|Hz]; [done|]. apply Hxy.
    apply (anti_symm String.le); [|by apply Hr].
    apply Hx, dedup_elem. rewrite E. by left.
Qed.

Lemma sorted_str_unique l1 l2 :
  StronglySorted str_lt l1 → StronglySorted str_lt l2 → (∀ x, x ∈ l1 ↔ x ∈ l2) → l1 = l2.
Proof.
  intros H1 H2 Hm. apply (sorted_lt_unique id); [done..|].
  apply NoDup_Permutation; [| |done].
  - rewrite <-(list_fmap_id l1). by apply (sorted_lt_NoDup id).
  - rewrite <-(list_fmap_id l2). by apply (sorted_lt_NoDup id).
Qed.

(** ** Lemmas on [BTreeMap] iteration *)
Section btree.
Context {A : Type}.
Implicit Types (m : gmap string A).

Lemma btree_entries_perm m : btree_entries m ≡ₚ map_to_list m.
Proof. apply sort_by_perm. Qed.

Lemma elem_of_btree_entries m k a : (k, a) ∈ btree_entries m ↔ m !! k = Some a.
Proof. rewrite btree_entries_perm. apply elem_of_map_to_list. Qed.

Lemma btree_entries_sorted m : StronglySorted (key_lt fst) (btree_entries m).
Proof. apply sort_by_lt, NoDup_fst_map_to_list. Qed.

Lemma btree_entries_NoDup m : NoDup (btree_entries m).*1.
Proof. rewrite btree_entries_perm. apply NoDup_fst_map_to_list. Qed.
End btree.

(** Two iteration orders, for evaluating examples. *)
Definition key_order : HashOrder := {|
  hash_iter _ m := btree_entries m;
  hash_iter_perm _ m := btree_entries_perm m;
|}.

Definition reverse_key_order : HashOrder.
Proof.
  refine {| hash_iter _ m := reverse (btree_entries m) |}.
  intros A m. by rewrite reverse_Permutation, btree_entries_perm.
Defined.

Section hash.
Context `{HashOrder} {A : Type}.
Implicit Types (m : gmap string A).

Lemma elem_of_hash_iter m k a : (k, a) ∈ hash_iter m ↔ m !! k = Some a.
Proof. rewrite hash_iter_perm. apply elem_of_map_to_list. Qed.

Lemma hash_iter_NoDup m : NoDup (hash_iter m).*1.
Proof. rewrite hash_iter_perm. apply NoDup_fst_map_to_list. Qed.

Lemma hash_collect_Some (l : list (string * A)) k a : hash_collect l !! k = Some a → (k, a) ∈ l.
Proof.
  unfold hash_collect. induction l as [|[k' a'] l IH] using rev_ind; [done|].
  rewrite foldl_app. simpl. intros [[-> ->]|[_ ?%IH]]%lookup_insert_Some; set_solver.
Qed.

Lemma hash_collect_is_Some (l : list (string * A)) k : is_Some (hash_collect l !! k) ↔ k ∈ l.*1.
Proof.
  split.
  - intros [a Ha%hash_collect_Some]. by apply (list_elem_of_fmap_2 fst) in Ha.
  - unfold hash_collect. induction l as [|[k' a'] l IH] using rev_ind; [by intros ?%elem_of_nil|].
    rewrite foldl_app, fmap_app, elem_of_app. simpl. rewrite lookup_insert_is_Some, list_elem_of_singleton.
    destruct (decide (k' = k)); naive_solver.
Qed.

Lemma NoDup_fst_inj (l : list (string * A)) k a b : NoDup l.*1 → (k, a) ∈ l → (k, b) ∈ l → a = b.
Proof.
  induction l as [|[k' a'] l IH]; intros Hnd; [by intros ?%elem_of_nil|].
  apply NoDup_cons in Hnd as [Hni Hnd]. simpl in Hni.
  intros [E1|H1]%elem_of_cons [E2|H2]%elem_of_cons; simplify_eq; [done| | |by eapply IH]; exfalso; apply Hni.
  - by apply (list_elem_of_fmap_2 fst) in H2.
  - by apply (list_elem_of_fmap_2 fst) in H1.
Qed.

Lemma hash_collect_NoDup (l : list (string * A)) k a :
  NoDup l.*1 → hash_collect l !! k = Some a ↔ (k, a) ∈ l.
Proof.
  intros Hnd. split; [apply hash_collect_Some|]. intros Hin.
  destruct (proj2 (hash_collect_is_Some l k)) as [a' Ha'].
  { by apply (list_elem_of_fmap_2 fst) in Hin. }
  rewrite Ha'. apply hash_collect_Some in Ha'. f_equal. by eapply NoDup_fst_inj.
Qed.
End hash.
