(* ===== verification/Text.v ===== *)
(** * Strings

    The part of Rust's [str] and [char] that the modelled sources use.  A Rust string is
    its UTF-8 bytes: a [string] here, one [ascii] per byte.  [len], [split], [contains],
    [starts_with], [cmp] and the ASCII case functions work on bytes; [chars] decodes.

    Two functions depend on the Unicode tables, which are not part of the repository: NFC
    normalisation (crate [unicode-normalization]) and [str::to_lowercase].  They are the
    class [Unicode]. *)
From Stdlib Require Import ZArith Lia Ascii Strings.Byte.
From stdpp Require Import sorting numbers strings gmap list_numbers list options.
From S2P Require Import Prelude.

Local Open Scope Z_scope.

Class Unicode := {
  nfc : string → string;
  to_lowercase : string → string;
}.

(** The two tables restricted to ASCII text, on which NFC is the identity. *)
Definition ascii_code (c : ascii) : Z := Z.of_N (N_of_ascii c).
Definition to_ascii_upper (c : ascii) : ascii :=
  if (97 <=? ascii_code c) && (ascii_code c <=? 122) then ascii_of_N (Z.to_N (ascii_code c - 32)) else c.
Definition to_ascii_lower (c : ascii) : ascii :=
  if (65 <=? ascii_code c) && (ascii_code c <=? 90) then ascii_of_N (Z.to_N (ascii_code c + 32)) else c.

Fixpoint str_map (f : ascii → ascii) (s : string) : string :=
  match s with EmptyString => EmptyString | String c s => String (f c) (str_map f s) end.

Definition to_ascii_uppercase : string → string := str_map to_ascii_upper.
Definition to_ascii_lowercase : string → string := str_map to_ascii_lower.
Definition eq_ignore_ascii_case (a b : string) : bool :=
  String.eqb (to_ascii_lowercase a) (to_ascii_lowercase b).

Definition ascii_unicode : Unicode := {| nfc := id; to_lowercase := to_ascii_lowercase |}.

(** [str::contains(char)] for an ASCII character, and [chars().all] over bytes. *)
Fixpoint contains_char (c : ascii) (s : string) : bool :=
  match s with EmptyString => false | String d s => bool_decide (c = d) || contains_char c s end.

Fixpoint all_chars (p : ascii → bool) (s : string) : bool :=
  match s with EmptyString => true | String c s => p c && all_chars p s end.

(** [str::split(char)]: one more part than separators, parts may be empty. *)
Fixpoint split (sep : ascii) (s : string) : list string :=
  match s with
  | EmptyString => [""]
  | String c s' =>
      if decide (c = sep) then "" :: split sep s'
      else match split sep s' with
           | [] => [String c ""]
           | p :: ps => String c p :: ps
           end
  end.

(** [join] of parts. *)
Definition join (sep : ascii) (l : list string) : string := String.concat (String sep "") l.

(** [starts_with], [strip_prefix], [strip_suffix]. *)
Fixpoint strip_prefix (p s : string) : option string :=
  match p, s with
  | EmptyString, _ => Some s
  | String a p', String b s' => if decide (a = b) then strip_prefix p' s' else None
  | String _ _, EmptyString => None
  end.

Definition starts_with (p s : string) : bool :=
  match strip_prefix p s with Some _ => true | None => false end.

Fixpoint strip_suffix (p s : string) : option string :=
  if decide (s = p) then Some ""
  else match s with
       | EmptyString => None
       | String c s' => String c <$> strip_suffix p s'
       end.

Fixpoint last_char (s : string) : option ascii :=
  match s with
  | EmptyString => None
  | String c EmptyString => Some c
  | String _ s' => last_char s'
  end.

(** [str::lines]: split after each newline, drop the newline and a carriage return before
    it; no line for the text after a final newline when that text is empty. *)
Definition newline : ascii := "010".
Definition carriage_return : string := String "013" "".
Definition strip_cr (l : string) : string := default l (strip_suffix carriage_return l).
Fixpoint lines_of (parts : list string) : list string :=
  match parts with
  | [] => []
  | [l] => if decide (l = "") then [] else [l]
  | l :: ls => strip_cr l :: lines_of ls
  end.
Definition lines (s : string) : list string := lines_of (split newline s).

(** ** UTF-8

    [str::from_utf8] accepts the well-formed byte sequences of the Unicode standard
    (table 3-7); [chars] decodes them to code points. *)
Definition in_range (lo hi b : Z) : bool := (lo <=? b) && (b <=? hi).
Definition is_cont (b : Z) : bool := in_range 0x80 0xBF b.

Definition utf8_lead3 (b0 b1 : Z) : bool :=
  ((b0 =? 0xE0) && in_range 0xA0 0xBF b1) ||
  (in_range 0xE1 0xEC b0 && is_cont b1) ||
  ((b0 =? 0xED) && in_range 0x80 0x9F b1) ||
  (in_range 0xEE 0xEF b0 && is_cont b1).

Definition utf8_lead4 (b0 b1 : Z) : bool :=
  ((b0 =? 0xF0) && in_range 0x90 0xBF b1) ||
  (in_range 0xF1 0xF3 b0 && is_cont b1) ||
  ((b0 =? 0xF4) && in_range 0x80 0x8F b1).

Fixpoint utf8_decode (l : list Z) : option (list Z) :=
  match l with
  | [] => Some []
  | b0 :: r0 =>
      if b0 <? 0x80 then cons b0 <$> utf8_decode r0
      else match r0 with
      | [] => None
      | b1 :: r1 =>
          if in_range 0xC2 0xDF b0 then
            if is_cont b1 then cons ((b0 - 0xC0) * 64 + (b1 - 0x80)) <$> utf8_decode r1 else None
          else match r1 with
          | [] => None
          | b2 :: r2 =>
              if utf8_lead3 b0 b1 then
                if is_cont b2
                then cons ((b0 - 0xE0) * 4096 + (b1 - 0x80) * 64 + (b2 - 0x80)) <$> utf8_decode r2
                else None
              else match r2 with
              | [] => None
              | b3 :: r3 =>
                  if utf8_lead4 b0 b1 && is_cont b2 && is_cont b3
                  then cons ((b0 - 0xF0) * 262144 + (b1 - 0x80) * 4096 + (b2 - 0x80) * 64 + (b3 - 0x80))
                         <$> utf8_decode r3
                  else None
              end
          end
      end
  end.

Definition from_utf8 (l : list byte) : option string :=
  match utf8_decode (byteZ <$> l) with Some _ => Some (of_bytes l) | None => None end.

(** Every Rust string satisfies this. *)
Definition is_utf8 (s : string) : bool :=
  match utf8_decode (byteZ <$> as_bytes s) with Some _ => true | None => false end.

Definition chars (s : string) : list Z := default [] (utf8_decode (byteZ <$> as_bytes s)).

(** [char::is_control]: general category Cc. *)
Definition is_control (c : Z) : bool := in_range 0 0x1F c || in_range 0x7F 0x9F c.

Lemma from_utf8_of s : is_utf8 s = true → from_utf8 (as_bytes s) = Some s.
Proof.
  unfold is_utf8, from_utf8. destruct (utf8_decode _); [|done]. by rewrite of_as_bytes.
Qed.

Lemma from_utf8_Some l s : from_utf8 l = Some s → as_bytes s = l ∧ is_utf8 s = true.
Proof.
  unfold is_utf8, from_utf8. destruct (utf8_decode (byteZ <$> l)) eqn:E; [|done].
  intros [= <-]. rewrite as_of_bytes, E. done.
Qed.

(** ** Lemmas on splitting and joining *)
#[global] Arguments String.append : simpl nomatch.

Lemma slen_app a b : slen (a +:+ b) = slen a + slen b.
Proof.
  unfold slen. enough (String.length (a +:+ b) = String.length a + String.length b)%nat by lia.
  induction a as [|c a IH]; simpl; lia.
Qed.

Lemma slen_String c s : slen (String c s) = 1 + slen s.
Proof. unfold slen. cbn [String.length]. lia. Qed.

Lemma slen_0 s : slen s = 0 → s = "".
Proof. unfold slen. destruct s; simpl; [done|lia]. Qed.

Lemma str_app_assoc (a b c : string) : (a +:+ b) +:+ c = a +:+ (b +:+ c).
Proof. induction a as [|x a IH]; simpl; [done|]. by rewrite IH. Qed.

Lemma str_app_nil_r (a : string) : a +:+ "" = a.
Proof. induction a as [|x a IH]; simpl; [done|]. by rewrite IH. Qed.

Section split_lemmas.
Context (sep : ascii).

Lemma split_not_nil s : split sep s ≠ [].
Proof. destruct s as [|c s]; simpl; [done|]. case_decide; [done|]. by destruct (split sep s). Qed.

Lemma join_cons p q ps : join sep (p :: q :: ps) = p +:+ String sep (join sep (q :: ps)).
Proof. done. Qed.

Lemma join_split s : join sep (split sep s) = s.
Proof.
  induction s as [|c s IH]; simpl; [done|]. pose proof (split_not_nil s) as Hn.
  destruct (split sep s) as [|p ps]; [done|]. case_decide as Hc.
  - rewrite join_cons, IH. by rewrite Hc.
  - rewrite <-IH. by destruct ps.
Qed.

Lemma split_no_sep s : contains_char sep s = false → split sep s = [s].
Proof.
  induction s as [|c s IH]; simpl; [done|]. intros [H1 H2]%orb_false_iff. to_prop.
  rewrite decide_False by congruence. by rewrite IH.
Qed.

Lemma split_app_sep a b : split sep (a +:+ String sep b) = split sep a ++ split sep b.
Proof.
  induction a as [|c a IH]; simpl; [by rewrite decide_True|].
  case_decide; simpl; rewrite IH; [done|].
  pose proof (split_not_nil a). by destruct (split sep a).
Qed.

Lemma split_parts s : Forall (λ p, contains_char sep p = false) (split sep s).
Proof.
  induction s as [|c s IH]; simpl; [by repeat constructor|].
  case_decide as Hc; [by constructor|].
  destruct (split sep s) as [|p ps]; repeat constructor; simpl;
    rewrite ?bool_decide_false by congruence; try done;
    inversion_clear IH; simpl; auto.
Qed.

Lemma split_join l :
  l ≠ [] → Forall (λ p, contains_char sep p = false) l → split sep (join sep l) = l.
Proof.
  induction l as [|p [|q ps] IH]; intros Hn HF; [done| |].
  - apply split_no_sep. by inversion HF.
  - rewrite join_cons, split_app_sep. inversion_clear HF as [|?? Hp HF'].
    rewrite IH by done. by rewrite split_no_sep.
Qed.

Lemma join_app l1 l2 : l1 ≠ [] → l2 ≠ [] → join sep (l1 ++ l2) = join sep l1 +:+ String sep (join sep l2).
Proof.
  induction l1 as [|p [|q ps] IH]; intros H1 H2; [done| |].
  - by destruct l2.
  - change ((p :: q :: ps) ++ l2) with (p :: q :: (ps ++ l2)).
    rewrite !join_cons, str_app_assoc. simpl. f_equal. f_equal. by apply IH.
Qed.

Lemma split_inj a b : split sep a = split sep b → a = b.
Proof. intros H. by rewrite <-(join_split a), H, join_split. Qed.

Lemma split_part_len s p : p ∈ split sep s → slen p ≤ slen s.
Proof.
  rewrite <-(join_split s) at 2. induction (split sep s) as [|q [|r l] IH]; [set_solver| |].
  - intros ->%list_elem_of_singleton. done.
  - rewrite join_cons, slen_app, slen_String. pose proof (slen_nonneg q).
    pose proof (slen_nonneg (join sep (r :: l))).
    intros [->|Hin]%elem_of_cons; [lia|]. specialize (IH Hin). lia.
Qed.

Lemma contains_char_app c a b : contains_char c (a +:+ b) = contains_char c a || contains_char c b.
Proof. induction a as [|d a IH]; simpl; [done|]. by rewrite IH, orb_assoc. Qed.

Lemma contains_char_join c l :
  c ≠ sep → contains_char c (join sep l) = existsb (contains_char c) l.
Proof.
  intros Hc. induction l as [|p [|q ps] IH]; [done|simpl; by rewrite orb_false_r|].
  rewrite join_cons, contains_char_app. simpl contains_char at 2.
  rewrite bool_decide_false by done. simpl in *. by rewrite IH.
Qed.
End split_lemmas.

Lemma strip_prefix_Some p s rest : strip_prefix p s = Some rest ↔ s = p +:+ rest.
Proof.
  revert s. induction p as [|c p IH]; intros s; simpl; [split; congruence|].
  destruct s as [|d s]; [done|]. case_decide as Hc; [|split; [done|congruence]].
  subst. rewrite IH. split; [by intros ->|by intros [= ->]].
Qed.

Lemma starts_with_iff p s : starts_with p s = true ↔ ∃ rest, s = p +:+ rest.
Proof.
  unfold starts_with. setoid_rewrite <-strip_prefix_Some. destruct (strip_prefix p s); naive_solver.
Qed.
