(* ===== verification/Paths.v ===== *)
(** * Paths, object ids, manifests and sizes

    The validation layer at the root of the crate [feanorfs-common] (common/src/lib.rs):
    portable workspace-relative paths, Blake3 object ids, reachability manifests, and the
    checked conversions of file sizes between SQLite's [i64] and [u64]. *)
From Stdlib Require Import ZArith Lia Ascii Strings.Byte.
From stdpp Require Import sorting numbers strings gmap list_numbers list options.
From S2P Require Import Prelude Text.

Local Open Scope Z_scope.

(** [blake3::hash(bytes).to_hex()]: the hash function of the crate [blake3]. *)
Class Blake3 := hash_bytes : list byte → string.

Definition slash : ascii := "/".
Definition backslash : ascii := "\".

(** [normalize_path]. *)
Definition normalize_path (path : string) : string :=
  str_map (λ c, if decide (c = backslash) then slash else c) path.

Definition WINDOWS_RESERVED : list string :=
  ["CON"; "PRN"; "AUX"; "NUL";
   "COM1"; "COM2"; "COM3"; "COM4"; "COM5"; "COM6"; "COM7"; "COM8"; "COM9";
   "COM¹"; "COM²"; "COM³";
   "LPT1"; "LPT2"; "LPT3"; "LPT4"; "LPT5"; "LPT6"; "LPT7"; "LPT8"; "LPT9";
   "LPT¹"; "LPT²"; "LPT³"; "CONIN$"; "CONOUT$"].

Definition is_windows_reserved_component (component : string) : bool :=
  let stem := default component (head (split "." component)) in
  bool_decide (to_ascii_uppercase stem ∈ WINDOWS_RESERVED).

Definition MAX_PORTABLE_COMPONENT_BYTES : Z := 255.
Definition MAX_PORTABLE_PATH_BYTES : Z := 4096.

(** The characters less-than, greater-than, colon, double quote, bar, question mark, star. *)
Definition FORBIDDEN_CHARS : list Z := [60; 62; 58; 34; 124; 63; 42].

(** The closure [is_safe_rel_path] applies to every component. *)
Definition is_safe_component (component : string) : bool :=
  negb (bool_decide (component = ""))
  && (slen component <=? MAX_PORTABLE_COMPONENT_BYTES)
  && negb (bool_decide (component = "."))
  && negb (bool_decide (component = ".."))
  && negb (eq_ignore_ascii_case component ".feanorfs")
  && negb (eq_ignore_ascii_case component ".git")
  && negb (eq_ignore_ascii_case component ".jj")
  && negb (bool_decide (last_char component = Some " "%char ∨ last_char component = Some "."%char))
  && negb (existsb (λ c, is_control c || bool_decide (c ∈ FORBIDDEN_CHARS)) (chars component))
  && negb (is_windows_reserved_component component).

Definition is_safe_rel_path `{Unicode} (path : string) : bool :=
  if bool_decide (path = "")
     || (MAX_PORTABLE_PATH_BYTES <? slen path)
     || starts_with "/" path
     || contains_char backslash path
     || negb (bool_decide (nfc path = path))
  then false
  else forallb is_safe_component (split slash path).

(** [is_valid_hash]: 64 lowercase hexadecimal digits. *)
Definition is_lower_hex (c : ascii) : bool :=
  in_range 48 57 (ascii_code c) || in_range 97 102 (ascii_code c).
Definition is_valid_hash (hash : string) : bool := (slen hash =? 64) && all_chars is_lower_hex hash.

(** ** File sizes *)
Inductive SizeConversionError :=
| CorruptMetadata (size : Z)
| UnsupportedSize (size : Z).

Definition file_size_from_db (size : Z) : result SizeConversionError Z :=
  if is_u64 size then Ok size else Err (CorruptMetadata size).
Definition file_size_to_db (size : Z) : result SizeConversionError Z :=
  if is_i64 size then Ok size else Err (UnsupportedSize size).

(** ** Manifests *)
Definition MANIFEST_MAX_ENTRIES : Z := 250000.

(** [slice::binary_search(..).is_ok()], which both callers use on a sorted slice. *)
Definition binary_search (l : list string) (x : string) : bool := bool_decide (x ∈ l).

Definition canonical_manifest_hash_list (snapshot_id : string) (hashes : list string)
    : Result (list string) :=
  ensure (is_valid_hash snapshot_id) "invalid snapshot id for manifest" ;;
  ensure (zlen hashes <=? MANIFEST_MAX_ENTRIES) "manifest exceeds object entries" ;;
  ensure (forallb is_valid_hash hashes) "manifest contains invalid object id" ;;
  ensure (existsb (String.eqb snapshot_id) hashes) "manifest does not contain its snapshot root" ;;
  Ok (dedup (sort_strings hashes)).

Definition push_manifest_line (hashes : list string) (hash : string) : Result (list string) :=
  ensure (zlen hashes <? MANIFEST_MAX_ENTRIES) "manifest exceeds object entries" ;;
  ensure (is_valid_hash hash) "manifest contains invalid object id" ;;
  Ok (hashes ++ [hash]).

Definition canonical_manifest_hashes (snapshot_id manifest : string) : Result (list string) :=
  ensure (is_valid_hash snapshot_id) "invalid snapshot id for manifest" ;;
  hashes ← try_fold push_manifest_line [] (lines manifest);
  let hashes := dedup (sort_strings hashes) in
  ensure (binary_search hashes snapshot_id) "manifest does not contain its snapshot root" ;;
  Ok hashes.

(** [validate_manifest_hashes] of common/src/hub_contract.rs. *)
Definition validate_manifest_hashes (snapshot_id : string) (hashes : list string) : Result unit :=
  ensure (is_valid_hash snapshot_id) "invalid snapshot id for manifest" ;;
  ensure (negb (bool_decide (hashes = []))) "manifest must not be empty" ;;
  ensure (zlen hashes <=? MANIFEST_MAX_ENTRIES) "manifest exceeds object entries" ;;
  ensure (forallb is_valid_hash hashes && strictly_ascending hashes)
    "manifest object ids must be canonical, sorted, and unique" ;;
  ensure (binary_search hashes snapshot_id) "manifest does not contain its snapshot root" ;;
  Ok tt.

(** ** Path resolution, the abstract meaning of a relative path

    A directory is the list of its components, innermost first; resolving a relative path
    walks its components the way a file system does. *)
Definition walk (dir : list string) (component : string) : list string :=
  if decide (component = "" ∨ component = ".") then dir
  else if decide (component = "..") then tail dir
  else component :: dir.
Definition resolve (dir : list string) (path : string) : list string :=
  foldl walk dir (split slash path).

(** ** Lemmas *)
Section lemmas.
Context `{Unicode}.

Lemma safe_component_facts c :
  is_safe_component c = true →
  c ≠ "" ∧ c ≠ "." ∧ c ≠ ".." ∧ slen c ≤ MAX_PORTABLE_COMPONENT_BYTES.
Proof. unfold is_safe_component. intros Hc. to_prop. auto. Qed.

Lemma is_safe_rel_path_true p :
  is_safe_rel_path p = true ↔
  p ≠ "" ∧ slen p ≤ MAX_PORTABLE_PATH_BYTES ∧ starts_with "/" p = false ∧
  contains_char backslash p = false ∧ nfc p = p ∧ Forall (λ c, is_safe_component c = true) (split slash p).
Proof.
  unfold is_safe_rel_path. rewrite <-forallb_Forall.
  destruct (_ || _ || _ || _ || _) eqn:E; split.
  - done.
  - intros (Hp & Hl & Hs & Hb & Hn & _). rewrite Hs, Hb, bool_decide_false in E by done.
    rewrite bool_decide_true in E by done. simpl in E. rewrite !orb_false_r in E. to_prop. lia.
  - intros HF. to_prop. repeat split; try done.
  - naive_solver.
Qed.

Lemma walk_safe dir c : is_safe_component c = true → walk dir c = c :: dir.
Proof.
  intros (? & ? & ? & _)%safe_component_facts. unfold walk.
  rewrite decide_False by tauto. by rewrite decide_False.
Qed.

Lemma walk_safe_list dir l :
  Forall (λ c, is_safe_component c = true) l → foldl walk dir l = reverse l ++ dir.
Proof.
  revert dir. induction l as [|c l IH]; intros dir HF; [done|]. inversion_clear HF.
  simpl. rewrite walk_safe, IH by done. by rewrite reverse_cons, <-app_assoc.
Qed.

(** NFC acts on each component of a path separately: the slash is a starter that takes part
    in no canonical composition or decomposition. *)
Definition nfc_componentwise : Prop := ∀ s, split slash (nfc s) = nfc <$> split slash s.

Lemma nfc_fixed_components (Hn : nfc_componentwise) s :
  nfc s = s ↔ Forall (λ c, nfc c = c) (split slash s).
Proof.
  split.
  - intros Hs. pose proof (Hn s) as He. rewrite Hs in He.
    revert He. induction (split slash s) as [|c l IH]; simpl; [constructor|].
    intros [= Hc Hl]. constructor; [done|]. by apply IH.
  - intros HF. apply (split_inj slash). rewrite (Hn s).
    induction HF as [|c l Hc HF IH]; [done|]. simpl. by f_equal.
Qed.

Lemma safe_component_no_leading_slash c s :
  is_safe_component c = true → contains_char slash c = false → starts_with "/" (c +:+ s) = false.
Proof.
  intros (Hne & _)%safe_component_facts Hs. destruct c as [|a c]; [done|].
  simpl in Hs. apply orb_false_iff in Hs as [Hs _]. to_prop. unfold starts_with. simpl.
  by rewrite decide_False.
Qed.

(** A non-empty list of safe, normalised components that stays within the path bound joins
    to a safe path. *)
Lemma safe_join (Hn : nfc_componentwise) l :
  l ≠ [] → slen (join slash l) ≤ MAX_PORTABLE_PATH_BYTES →
  Forall (λ c, contains_char slash c = false) l →
  Forall (λ c, contains_char backslash c = false) l →
  Forall (λ c, nfc c = c) l →
  Forall (λ c, is_safe_component c = true) l →
  is_safe_rel_path (join slash l) = true.
Proof.
  intros Hl Hlen Hs Hb Hfix HF. apply is_safe_rel_path_true.
  rewrite (split_join slash) by done. repeat split; try done.
  - destruct l as [|c l]; [done|]. inversion_clear HF as [|?? Hc _].
    apply safe_component_facts in Hc as (Hc & _). destruct c; [done|]. by destruct l.
  - destruct l as [|c l]; [done|]. inversion_clear HF as [|?? Hc _]. inversion_clear Hs.
    destruct l as [|d l].
    + rewrite <-(str_app_nil_r (join slash [c])). by apply safe_component_no_leading_slash.
    + rewrite join_cons. by apply safe_component_no_leading_slash.
  - rewrite contains_char_join by done. induction Hb as [|c l' Hc Hb IH]; [done|].
    simpl. rewrite Hc. clear -Hb. induction Hb as [|?? E ? IH]; [done|]. simpl. by rewrite E.
  - apply (nfc_fixed_components Hn). by rewrite split_join.
Qed.

(** What a safe path says of each of its components. *)
Lemma safe_path_components (Hn : nfc_componentwise) p c :
  is_safe_rel_path p = true → c ∈ split slash p →
  contains_char slash c = false ∧ contains_char backslash c = false ∧ nfc c = c ∧
  is_safe_component c = true.
Proof.
  intros (_ & _ & _ & Hb & Hnfc & HF)%is_safe_rel_path_true Hc.
  pose proof (split_parts slash p) as Hs. rewrite Forall_forall in HF, Hs.
  apply (nfc_fixed_components Hn) in Hnfc. rewrite Forall_forall in Hnfc.
  repeat split; auto. destruct (contains_char backslash c) eqn:E; [|done].
  rewrite <-(join_split slash p), contains_char_join in Hb by done.
  rewrite <-Hb. symmetry. apply existsb_Exists, Exists_exists. eauto.
Qed.

Lemma all_chars_not_contains (P : ascii → bool) c s :
  all_chars P s = true → P c = false → contains_char c s = false.
Proof.
  induction s as [|d s IH]; simpl; [done|]. intros [Hd Hs]%andb_true_iff Hc.
  rewrite IH by done. rewrite bool_decide_false by congruence. done.
Qed.

Lemma valid_hash_no_slash h : is_valid_hash h = true → split slash h = [h].
Proof.
  unfold is_valid_hash. intros [_ Hh]%andb_true_iff.
  apply split_no_sep. by eapply all_chars_not_contains.
Qed.

Lemma valid_hash_len h : is_valid_hash h = true → slen h = 64.
Proof. unfold is_valid_hash. intros. to_prop. done. Qed.

(** Sorted and deduplicated, a list of strings is determined by its elements. *)
Lemma sort_dedup_spec l :
  StronglySorted str_lt (dedup (sort_strings l)) ∧ ∀ x, x ∈ dedup (sort_strings l) ↔ x ∈ l.
Proof.
  split; [apply dedup_sorted, (sort_by_sorted id)|].
  intros x. rewrite dedup_elem. unfold sort_strings. by rewrite sort_by_perm.
Qed.

Lemma sort_dedup_length l : zlen (dedup (sort_strings l)) ≤ zlen l.
Proof.
  unfold zlen. apply inj_le. rewrite <-(Permutation_length (sort_by_perm id l)).
  unfold sort_strings. induction (sort_by id l) as [|x k IH]; simpl; [done|].
  destruct (dedup k) as [|y r]; simpl in *; [lia|]. case_decide; simpl; lia.
Qed.

Lemma push_manifest_lines l acc r :
  try_fold push_manifest_line acc l = Ok r ↔
  r = acc ++ l ∧ Forall (λ h, is_valid_hash h = true) l ∧
  (l = [] ∨ zlen (acc ++ l) ≤ MANIFEST_MAX_ENTRIES).
Proof.
  revert acc. induction l as [|h l IH]; intros acc; simpl.
  { rewrite app_nil_r. naive_solver. }
  split.
  - intros (x & Hx & Hf)%bind_Ok. unfold push_manifest_line in Hx. inv_ok. to_prop.
    apply IH in Hf as (-> & HF & Hl).
    rewrite <-app_assoc. split; [done|]. split; [by constructor|]. right.
    destruct Hl as [->|Hl]; [|by rewrite <-app_assoc in Hl].
    rewrite zlen_app, zlen_cons. unfold zlen at 2. simpl. lia.
  - intros (-> & HF & [?|Hl]); [done|]. inversion_clear HF as [|?? Hh HF'].
    rewrite zlen_app, zlen_cons in Hl. pose proof (zlen_nonneg l).
    assert (push_manifest_line acc h = Ok (acc ++ [h])) as ->.
    { unfold push_manifest_line. destruct (Z.ltb_spec (zlen acc) MANIFEST_MAX_ENTRIES); [|lia].
      simpl. by rewrite Hh. }
    simpl. apply IH. rewrite <-app_assoc. split; [done|]. split; [done|].
    right. simpl. rewrite zlen_app, zlen_cons. lia.
Qed.

Lemma canonical_manifest_Ok id m hs :
  canonical_manifest_hashes id m = Ok hs ↔
  is_valid_hash id = true ∧ Forall (λ h, is_valid_hash h = true) (lines m) ∧
  zlen (lines m) ≤ MANIFEST_MAX_ENTRIES ∧ id ∈ lines m ∧
  StronglySorted str_lt hs ∧ (∀ h, h ∈ hs ↔ h ∈ lines m).
Proof.
  unfold canonical_manifest_hashes, binary_search. split.
  - intros Hm. inv_ok. rename select (try_fold _ _ _ = _) into Hl.
    apply push_manifest_lines in Hl as (-> & HF & Hlen). rewrite app_nil_l in *. to_prop.
    destruct (sort_dedup_spec (lines m)) as [Hs He]. repeat split; try done; try naive_solver.
    destruct Hlen as [->|?]; done.
  - intros (Hid & HF & Hlen & Hin & Hs & He). rewrite Hid. simpl.
    rewrite (proj2 (push_manifest_lines (lines m) [] (lines m))) by (split_and!; auto). simpl.
    destruct (sort_dedup_spec (lines m)) as [Hs' He'].
    rewrite bool_decide_true by naive_solver. simpl. f_equal.
    apply sorted_str_unique; [done..|]. naive_solver.
Qed.

Lemma canonical_manifest_forms id m hs :
  canonical_manifest_hashes id m = Ok hs →
  validate_manifest_hashes id hs = Ok tt ∧
  canonical_manifest_hash_list id (lines m) = Ok hs ∧
  canonical_manifest_hash_list id hs = Ok hs.
Proof.
  intros Hm. assert (hs = dedup (sort_strings (lines m))) as Heq.
  { unfold canonical_manifest_hashes in Hm. inv_ok. rename select (try_fold _ _ _ = _) into Hl.
    by apply push_manifest_lines in Hl as [-> _]. }
  apply canonical_manifest_Ok in Hm as (Hid & HF & Hlen & Hin & Hs & He).
  assert (existsb (String.eqb id) hs = true) as Hex.
  { apply existsb_Exists, Exists_exists. exists id. rewrite He. by rewrite String.eqb_eq. }
  assert (forallb is_valid_hash hs = true) as Hvalid.
  { rewrite Forall_forall in HF. apply forallb_Forall, Forall_forall. naive_solver. }
  assert (zlen hs ≤ MANIFEST_MAX_ENTRIES) as Hlen'.
  { pose proof (sort_dedup_length (lines m)). subst hs. lia. }
  assert (dedup (sort_strings hs) = hs) as Hfix.
  { destruct (sort_dedup_spec hs) as [Hs' He']. by apply sorted_str_unique. }
  unfold validate_manifest_hashes, canonical_manifest_hash_list, binary_search.
  rewrite Hid, Hvalid, Hex, Hfix, !(proj2 (Z.leb_le _ _)) by done.
  rewrite (proj2 (strictly_ascending_sorted hs) Hs), (bool_decide_false (hs = []))
    by (intros Hnil; rewrite <-He, Hnil in Hin; by apply not_elem_of_nil in Hin).
  rewrite bool_decide_true by naive_solver.
  rewrite (proj2 (forallb_Forall _ (lines m)) HF). simpl. split_and!; [done| |done].
  rewrite (proj2 (existsb_Exists _ (lines m))); [by rewrite <-Heq|].
  apply Exists_exists. exists id. by rewrite String.eqb_eq.
Qed.

(** ** Properties *)

(** C40. A path accepted by [is_safe_rel_path] names something strictly below any directory
    it is resolved in, at exactly the components it spells; and it is the only accepted
    spelling of that place, so two accepted paths that resolve to the same place are equal. *)
Theorem safe_path_confined dir p q :
  is_safe_rel_path p = true → is_safe_rel_path q = true →
  resolve dir p = reverse (split slash p) ++ dir ∧ split slash p ≠ [] ∧
  (resolve dir p = resolve dir q → p = q).
Proof.
  intros (_ & _ & _ & _ & _ & HFp)%is_safe_rel_path_true (_ & _ & _ & _ & _ & HFq)%is_safe_rel_path_true.
  unfold resolve. rewrite !walk_safe_list by done. split; [done|].
  split; [apply split_not_nil|]. intros Heq%app_inv_tail.
  apply (split_inj slash). by apply (inj reverse).
Qed.

(** Accepted paths are closed under taking ancestors and remainders: wherever an accepted
    path is cut at a slash, both sides are accepted paths.  (NFC works component by
    component.) *)
Theorem safe_path_cut (Hn : nfc_componentwise) p l1 l2 :
  is_safe_rel_path p = true → split slash p = l1 ++ l2 →
  (l1 ≠ [] → is_safe_rel_path (join slash l1) = true) ∧
  (l2 ≠ [] → is_safe_rel_path (join slash l2) = true).
Proof.
  intros Hp Hs. pose proof (safe_path_components Hn p) as Hc.
  assert (slen p ≤ MAX_PORTABLE_PATH_BYTES) as Hlen
    by (apply is_safe_rel_path_true in Hp; tauto).
  assert (∀ l, l ≠ [] → (∀ c, c ∈ l → c ∈ split slash p) → slen (join slash l) ≤ slen p →
    is_safe_rel_path (join slash l) = true) as Hl.
  { intros l Hl Hin Hle. apply (safe_join Hn); [done|lia|..]; apply Forall_forall; intros c Hcl;
      specialize (Hc c Hp (Hin c Hcl)); tauto. }
  rewrite Hs in Hl. split; intros Hne; apply Hl; try done; try (intros c Hc0; apply elem_of_app; tauto).
  - rewrite <-(join_split slash p), Hs. destruct (decide (l2 = [])) as [->|].
    { by rewrite app_nil_r. }
    rewrite join_app, slen_app, slen_String by done. pose proof (slen_nonneg (join slash l2)). lia.
  - rewrite <-(join_split slash p), Hs. destruct (decide (l1 = [])) as [->|]; [done|].
    rewrite join_app, slen_app, slen_String by done. pose proof (slen_nonneg (join slash l1)). lia.
Qed.

(** An object id accepted by [is_valid_hash] is one plain path component: resolved in the
    blob directory it names an entry of that very directory. *)
Theorem valid_hash_confined dir h : is_valid_hash h = true → resolve dir h = h :: dir.
Proof.
  intros Hh. unfold resolve. rewrite valid_hash_no_slash by done. simpl.
  apply valid_hash_len in Hh. unfold walk.
  destruct (decide (h = "" ∨ h = ".")) as [[->| ->]|]; [done..|].
  by destruct (decide (h = "..")) as [->|].
Qed.

(** [canonical_manifest_hashes] accepts exactly the bodies whose lines are at most 250000
    valid object ids that include the snapshot itself, and returns the strictly ascending list
    of those ids. *)
Theorem canonical_manifest_hashes_spec id m hs :
  canonical_manifest_hashes id m = Ok hs ↔
  is_valid_hash id = true ∧ Forall (λ h, is_valid_hash h = true) (lines m) ∧
  zlen (lines m) ≤ MANIFEST_MAX_ENTRIES ∧ id ∈ lines m ∧
  StronglySorted str_lt hs ∧ (∀ h, h ∈ hs ↔ h ∈ lines m).
Proof. apply canonical_manifest_Ok. Qed.

(** What [canonical_manifest_hashes] returns for a manifest body passes the hub's
    [validate_manifest_hashes], equals what [canonical_manifest_hash_list] computes from the
    body's lines, and is a fixed point of it. *)
Theorem manifest_forms_agree id m hs :
  canonical_manifest_hashes id m = Ok hs →
  validate_manifest_hashes id hs = Ok tt ∧
  canonical_manifest_hash_list id (lines m) = Ok hs ∧
  canonical_manifest_hash_list id hs = Ok hs.
Proof. apply canonical_manifest_forms. Qed.
End lemmas.

(** Sizes cross the database boundary exactly: every size that can be stored is read back
    unchanged, a stored size reads back only if it is non-negative, and nothing saturates. *)
Theorem file_size_roundtrip (size : Z) :
  is_u64 size = true →
  (file_size_to_db size ≫= file_size_from_db = Ok size ↔ size ≤ I64_MAX) ∧
  (I64_MAX < size → file_size_to_db size = Err (UnsupportedSize size)).
Proof.
  intros Hu. unfold is_u64 in Hu. to_prop. unfold file_size_to_db, file_size_from_db, is_i64, is_u64.
  rewrite (proj2 (Z.leb_le I64_MIN size)) by (unfold I64_MIN; lia). simpl.
  destruct (Z.leb_spec size I64_MAX); simpl.
  - rewrite !(proj2 (Z.leb_le _ _)) by (unfold U64_MAX, I64_MAX in *; lia). simpl. naive_solver lia.
  - naive_solver lia.
Qed.

(** ** Witnesses *)
Definition hex_a : string := "aaaaaaaaaaaaaaaaaaaaaaaaaaaaaaaaaaaaaaaaaaaaaaaaaaaaaaaaaaaaaaaa".
Definition hex_b : string := "bbbbbbbbbbbbbbbbbbbbbbbbbbbbbbbbbbbbbbbbbbbbbbbbbbbbbbbbbbbbbbbb".

(** A checksum in place of Blake3, for evaluating examples. *)
Definition hex_digit (z : Z) : ascii := ascii_of_N (Z.to_N (if z <? 10 then 48 + z else 87 + z)).
Fixpoint hex_of (digits : nat) (z : Z) : string :=
  match digits with O => "" | S d => String (hex_digit (z mod 16)) (hex_of d (z / 16)) end.
Definition sample_blake3 : Blake3 := λ bytes,
  hex_of 64 (foldl (λ h b, (h * 257 + byteZ b + 1) mod 2 ^ 256) 7 bytes).

Lemma hex_of_lower n z : all_chars is_lower_hex (hex_of n z) = true ∧ String.length (hex_of n z) = n.
Proof.
  revert z. induction n as [|n IH]; intros z; [done|]. destruct (IH (z / 16)) as [Hl Hn]. split; [|simpl; by rewrite Hn].
  change (is_lower_hex (hex_digit (z mod 16)) && all_chars is_lower_hex (hex_of n (z / 16)) = true). rewrite Hl, andb_true_r.
  assert (0 ≤ z mod 16 < 16) as Hz by (apply Z.mod_pos_bound; lia).
  assert (z mod 16 ∈ seqZ 0 16) as Hin by (apply elem_of_seqZ; lia).
  assert (Forall (λ d, is_lower_hex (hex_digit d) = true) (seqZ 0 16)) as Hall by (vm_compute; repeat constructor).
  rewrite Forall_forall in Hall. by apply Hall.
Qed.

Lemma ascii_nfc_componentwise : @nfc_componentwise ascii_unicode.
Proof. intros s. simpl. by rewrite list_fmap_id. Qed.

Lemma safe_path_confined_witness :
  @resolve ["ws"] "src/main.rs" = ["main.rs"; "src"; "ws"].
Proof.
  destruct (@safe_path_confined ascii_unicode ["ws"] "src/main.rs" "a") as [H _];
    [vm_compute; reflexivity..|]. rewrite H. reflexivity.
Defined.

Lemma safe_path_cut_witness : @is_safe_rel_path ascii_unicode "src/cli" = true.
Proof.
  apply (@safe_path_cut ascii_unicode ascii_nfc_componentwise "src/cli/main.rs"
           ["src"; "cli"] ["main.rs"]); [vm_compute; reflexivity|reflexivity|discriminate].
Defined.

Lemma valid_hash_confined_witness : resolve ["blobs"] hex_a = [hex_a; "blobs"].
Proof. apply valid_hash_confined. vm_compute. reflexivity. Defined.

Lemma manifest_forms_agree_witness :
  validate_manifest_hashes hex_b [hex_a; hex_b] = Ok tt.
Proof.
  apply (manifest_forms_agree hex_b
           (hex_b +:+ String newline (hex_a +:+ String newline (hex_b +:+ String newline ""))) [hex_a; hex_b]).
  vm_compute. reflexivity.
Defined.

Lemma file_size_roundtrip_witness : file_size_to_db 4096 ≫= file_size_from_db = Ok 4096.
Proof. apply file_size_roundtrip; [reflexivity|vm_compute; discriminate]. Defined.
