(* ===== verification/Model.v ===== *)
(** * Shared data model

    The wire and object types of [feanorfs-common]: file states, sync responses and
    concurrent edits (common/src/lib.rs), canonical trees and snapshots (common/src/tree.rs).
    Field names carry a prefix because Rocq projections share one name space. *)
From Stdlib Require Import ZArith Lia.
From stdpp Require Import sorting numbers strings gmap list_numbers list options.
From S2P Require Import Prelude Text Paths.

Local Open Scope Z_scope.

(** ** File states and sync messages *)
Record FileState := mkFileState {
  fs_path : string;
  fs_hash : string;
  fs_size : Z;      (* u64 *)
  fs_mtime : Z;     (* i64 *)
  fs_deleted : bool;
  fs_mode : Z;      (* u32 *)
}.
#[global] Instance FileState_eq_dec : EqDecision FileState.
Proof. solve_decision. Defined.

Inductive ConflictKind := EditEdit | EditDelete | DeleteEdit.
#[global] Instance ConflictKind_eq_dec : EqDecision ConflictKind.
Proof. solve_decision. Defined.

Definition ConflictKind_from_db_str (s : string) : Result ConflictKind :=
  if decide (s = "edit_edit") then Ok EditEdit
  else if decide (s = "edit_delete") then Ok EditDelete
  else if decide (s = "delete_edit") then Ok DeleteEdit
  else Err "unknown conflict kind in db".

Definition ConflictKind_as_db_str (k : ConflictKind) : string :=
  match k with EditEdit => "edit_edit" | EditDelete => "edit_delete" | DeleteEdit => "delete_edit" end.

Record SyncResponse := mkSyncResponse {
  upload_required : list string;
  download_required : list FileState;
  delete_local : list string;
}.

Record ConcurrentEdit := mkConcurrentEdit {
  ce_path : string;
  ce_base : option FileState;
  ce_ours : option FileState;
  ce_theirs : option FileState;
  ce_original_file : option string;
  ce_local_file : option string;
  ce_cloud_file : option string;
  ce_kind : option ConflictKind;
  ce_local_available : bool;
  ce_cloud_available : bool;
  ce_is_binary : bool;
  ce_hint : option string;
  ce_proposed_file : option string;
  ce_proposal_clean : option bool;
}.

(** [is_some_and(|s| !s.deleted)]. *)
Definition is_live (o : option FileState) : bool :=
  match o with Some s => negb (fs_deleted s) | None => false end.

(** [filter(|s| !s.deleted)]. *)
Definition live (o : option FileState) : option FileState :=
  match o with Some s => if fs_deleted s then None else Some s | None => None end.

(** [ConcurrentEdit::new]. *)
Definition ConcurrentEdit_new (path : string) (base ours theirs : option FileState) : ConcurrentEdit :=
  mkConcurrentEdit path base ours theirs None None None None
    (is_live ours) (is_live theirs) false None None None.

(** ** Canonical trees *)
Definition EXECUTABLE_MODE : Z := 1.
Definition MAX_CANONICAL_OBJECT_BYTES : Z := 16 * 1024 * 1024.
Definition MAX_TREE_ENTRIES : Z := (MAX_CANONICAL_OBJECT_BYTES - 12) / 94.
Definition MAX_SNAPSHOT_PARENTS : Z := 2.
Definition MAX_SNAPSHOT_AUTHOR_BYTES : Z := 512.
Definition MAX_TREE_DEPTH : Z := 256.
Definition MAX_TREE_OBJECTS : Z := MANIFEST_MAX_ENTRIES.
Definition MAX_TREE_OUTPUT_PATHS : Z := MANIFEST_MAX_ENTRIES.
Definition MAX_TREE_WORK_ITEMS : Z := 8 * MANIFEST_MAX_ENTRIES.
Definition MAX_TREE_PATH_BYTES_TOTAL : Z := 64 * 1024 * 1024.

Record ConflictModes := mkConflictModes { cm_base : Z; cm_ours : Z; cm_theirs : Z }.
#[global] Instance ConflictModes_eq_dec : EqDecision ConflictModes.
Proof. solve_decision. Defined.
Definition ConflictModes_default : ConflictModes := mkConflictModes 0 0 0.
Definition ConflictModes_is_zero (m : ConflictModes) : bool :=
  (cm_base m =? 0) && (cm_ours m =? 0) && (cm_theirs m =? 0).

Inductive TreeEntryKind :=
| File
| Dir
| Conflict (base ours theirs : option string) (modes : ConflictModes).
#[global] Instance TreeEntryKind_eq_dec : EqDecision TreeEntryKind.
Proof. solve_decision. Defined.

Record TreeEntry := mkTreeEntry {
  te_name : string;
  te_kind : TreeEntryKind;
  te_hash : string;
  te_size : Z;   (* u64 *)
  te_mode : Z;   (* u32 *)
}.
#[global] Instance TreeEntry_eq_dec : EqDecision TreeEntry.
Proof. solve_decision. Defined.

Definition is_dir (e : TreeEntry) : bool := match te_kind e with Dir => true | _ => false end.

Record Tree := mkTree { tr_entries : list TreeEntry }.
#[global] Instance Tree_eq_dec : EqDecision Tree.
Proof. solve_decision. Defined.

Record Snapshot := mkSnapshot {
  sn_root : string;
  sn_parents : list string;
  sn_author : string;
  sn_created_at_ms : Z;   (* i64 *)
  sn_message : option string;
}.
#[global] Instance Snapshot_eq_dec : EqDecision Snapshot.
Proof. solve_decision. Defined.

Record TreeBundle := mkTreeBundle { tb_root : string; tb_trees : gmap string Tree }.

Inductive TreeChangeKind := Added | Modified | Deleted.
#[global] Instance TreeChangeKind_eq_dec : EqDecision TreeChangeKind.
Proof. solve_decision. Defined.

Record TreeChange := mkTreeChange {
  tc_path : string;
  tc_kind : TreeChangeKind;
  tc_before : option TreeEntry;
  tc_after : option TreeEntry;
}.
#[global] Instance TreeChange_eq_dec : EqDecision TreeChange.
Proof. solve_decision. Defined.

(** What two replicas must agree on for one path: nothing, or the content hash and the
    executable intent of a live file. *)
Definition view (o : option FileState) : option (string * Z) :=
  (λ s, (fs_hash s, fs_mode s)) <$> live o.
