(* ===== verification/Codec.v ===== *)
(** * Canonical object codec

    common/src/tree_codec.rs: the platform-independent bytes of trees and snapshots, their
    bounded decoder, and the validity checks.  The decoder's cursor is the list of bytes that
    remain; every read returns the value and the rest. *)
From Stdlib Require Import ZArith Lia Ascii Strings.Byte.
From stdpp Require Import sorting numbers strings gmap list_numbers list options.
From S2P Require Import Prelude Text Paths Model.

Local Open Scope Z_scope.

(** [AGENT_MESSAGE_MAX_ENCODED_BYTES] of agent_contract.rs, re-exported by tree.rs. *)
Definition MAX_SNAPSHOT_MESSAGE_BYTES : Z := 64 * 1024.

Definition TREE_MAGIC_V1 : list byte := as_bytes "FTR1".
Definition TREE_MAGIC_V2 : list byte := as_bytes "FTR2".
Definition SNAPSHOT_MAGIC : list byte := as_bytes "FSN1".

(** ** Encoding *)
Definition push_len (len : Z) : list byte := le_bytes 8 (Z.min len U64_MAX).
Definition push_string (value : string) : list byte := push_len (slen value) ++ as_bytes value.
Definition push_option_string (value : option string) : list byte :=
  match value with Some v => x01 :: push_string v | None => [x00] end.

Definition tree_uses_v2 (tree : Tree) : bool :=
  existsb (λ entry, match te_kind entry with
                    | Conflict _ _ _ modes => negb (ConflictModes_is_zero modes)
                    | _ => false
                    end) (tr_entries tree).

Definition encode_kind (uses_v2 : bool) (kind : TreeEntryKind) : list byte :=
  match kind with
  | File => [x00]
  | Dir => [x01]
  | Conflict base ours theirs modes =>
      x02 :: push_option_string base ++ push_option_string ours ++ push_option_string theirs
      ++ (if uses_v2
          then le_bytes 4 (cm_base modes) ++ le_bytes 4 (cm_ours modes) ++ le_bytes 4 (cm_theirs modes)
          else [])
  end.

Definition encode_entry (uses_v2 : bool) (entry : TreeEntry) : list byte :=
  push_string (te_name entry) ++ encode_kind uses_v2 (te_kind entry)
  ++ push_string (te_hash entry) ++ le_bytes 8 (te_size entry) ++ le_bytes 4 (te_mode entry).

Definition encode_tree (tree : Tree) : list byte :=
  let entries := sort_by te_name (tr_entries tree) in
  let uses_v2 := tree_uses_v2 tree in
  (if uses_v2 then TREE_MAGIC_V2 else TREE_MAGIC_V1)
  ++ push_len (zlen entries) ++ concat (encode_entry uses_v2 <$> entries).

Definition encode_snapshot (snapshot : Snapshot) : list byte :=
  SNAPSHOT_MAGIC ++ push_string (sn_root snapshot)
  ++ push_len (zlen (sn_parents snapshot)) ++ concat (push_string <$> sn_parents snapshot)
  ++ push_string (sn_author snapshot) ++ le_bytes 8 (sn_created_at_ms snapshot)
  ++ push_option_string (sn_message snapshot).

(** ** Lengths *)
Definition checked_len (total amount : Z) : Result Z :=
  or_context (checked_add total amount) "canonical object length overflow".

Definition option_string_len (value : option string) : Result Z :=
  match value with
  | Some v => or_context (checked_add 1 8 ≫= λ l, checked_add l (slen v)) "canonical option length overflow"
  | None => Ok 1
  end.

Definition add_entry_len (uses_v2 : bool) (length : Z) (entry : TreeEntry) : Result Z :=
  length ← checked_len length (8 + slen (te_name entry) + 1);
  length ← match te_kind entry with
           | Conflict base ours theirs _ =>
               l ← option_string_len base; length ← checked_len length l;
               l ← option_string_len ours; length ← checked_len length l;
               l ← option_string_len theirs; length ← checked_len length l;
               if uses_v2 then checked_len length 12 else Ok length
           | _ => Ok length
           end;
  checked_len length (8 + slen (te_hash entry) + 8 + 4).

Definition canonical_tree_len (tree : Tree) : Result Z :=
  try_fold (add_entry_len (tree_uses_v2 tree)) (4 + 8) (tr_entries tree).

Definition canonical_snapshot_len (snapshot : Snapshot) : Result Z :=
  length ← checked_len 4 (8 + slen (sn_root snapshot) + 8);
  length ← try_fold (λ length parent, checked_len length (8 + slen parent)) length (sn_parents snapshot);
  length ← checked_len length (8 + slen (sn_author snapshot) + 8);
  l ← option_string_len (sn_message snapshot);
  checked_len length l.

(** ** Validation *)
Definition validate_mode (mode : Z) : Result unit :=
  bail_if (negb (mode =? 0) && negb (mode =? EXECUTABLE_MODE)) "invalid portable mode".

Definition visible_leg (base ours theirs : option string) (modes : ConflictModes) : option (string * Z) :=
  match theirs, ours, base with
  | Some h, _, _ => Some (h, cm_theirs modes)
  | None, Some h, _ => Some (h, cm_ours modes)
  | None, None, Some h => Some (h, cm_base modes)
  | None, None, None => None
  end.

(** [[base, ours, theirs].into_iter().flatten()]. *)
Definition flatten_legs {A} (l : list (option A)) : list A := omap id l.

Definition is_none {A} (o : option A) : bool := match o with None => true | Some _ => false end.

Definition validate_kind (kind : TreeEntryKind) (hash : string) (size mode : Z) : Result unit :=
  match kind with
  | File => Ok tt
  | Dir =>
      bail_if (negb (mode =? 0)) "directory entries cannot be executable" ;;
      bail_if (negb (size =? 0)) "directory entries must have zero size"
  | Conflict base ours theirs modes =>
      try_fold (λ _ leg, bail_if (negb (is_valid_hash leg)) "conflict contains an invalid leg id") tt
        (flatten_legs [base; ours; theirs]) ;;
      try_fold (λ _ leg_mode, validate_mode leg_mode) tt [cm_base modes; cm_ours modes; cm_theirs modes] ;;
      bail_if (is_none base && negb (cm_base modes =? 0) || is_none ours && negb (cm_ours modes =? 0)
               || is_none theirs && negb (cm_theirs modes =? 0))
        "absent conflict legs cannot carry executable intent" ;;
      bail_if (negb (bool_decide (visible_leg base ours theirs modes = Some (hash, mode))))
        "conflict hash and mode must identify its visible leg"
  end.

Section unicode.
Context `{Unicode}.

Definition validate_entry (name : string) (kind : TreeEntryKind) (hash : string) (size mode : Z)
    : Result unit :=
  bail_if (negb (is_safe_rel_path name) || contains_char slash name) "invalid tree entry name" ;;
  validate_mode mode ;;
  bail_if (negb (is_valid_hash hash)) "tree entry contains an invalid object id" ;;
  validate_kind kind hash size mode.

Definition validate_tree_entry (sets : gset string * gset string) (entry : TreeEntry)
    : Result (gset string * gset string) :=
  let '(exact, portable) := sets in
  validate_entry (te_name entry) (te_kind entry) (te_hash entry) (te_size entry) (te_mode entry) ;;
  bail_if (bool_decide (te_name entry ∈ exact)) "tree entries are not unique" ;;
  bail_if (bool_decide (to_lowercase (te_name entry) ∈ portable))
    "tree entries collide under portable case folding" ;;
  Ok ({[te_name entry]} ∪ exact, {[to_lowercase (te_name entry)]} ∪ portable).

Definition validate_tree (tree : Tree) : Result unit :=
  bail_if (MAX_TREE_ENTRIES <? zlen (tr_entries tree)) "canonical tree contains too many entries" ;;
  len ← canonical_tree_len tree;
  bail_if (MAX_CANONICAL_OBJECT_BYTES <? len) "canonical tree exceeds object byte limit" ;;
  try_fold validate_tree_entry (∅, ∅) (tr_entries tree) ;;
  Ok tt.

Definition validate_snapshot (snapshot : Snapshot) : Result unit :=
  bail_if (MAX_SNAPSHOT_PARENTS <? zlen (sn_parents snapshot)) "snapshot contains too many parents" ;;
  len ← canonical_snapshot_len snapshot;
  bail_if (MAX_CANONICAL_OBJECT_BYTES <? len) "canonical snapshot exceeds object byte limit" ;;
  bail_if (negb (is_valid_hash (sn_root snapshot))
           || existsb (λ parent, negb (is_valid_hash parent)) (sn_parents snapshot))
    "snapshot contains an invalid object id" ;;
  bail_if (MAX_SNAPSHOT_AUTHOR_BYTES <? slen (sn_author snapshot)) "snapshot author exceeds byte limit" ;;
  bail_if (match sn_message snapshot with
           | Some message => MAX_SNAPSHOT_MESSAGE_BYTES <? slen message
           | None => false
           end) "snapshot message exceeds byte limit" ;;
  bail_if (negb (bool_decide (NoDup (sn_parents snapshot)))) "snapshot contains duplicate parents".

(** [ensure_sorted_unique]. *)
Definition ensure_sorted_unique (entries : list TreeEntry) : Result unit :=
  bail_if (negb (strictly_ascending (te_name <$> entries)))
    "tree entries are not canonically sorted and unique".

(** ** Decoding *)
Definition Decoder (A : Type) : Type := list byte → Result (A * list byte).

#[global] Instance Decoder_ret : MRet Decoder := λ A a b, Ok (a, b).
#[global] Instance Decoder_bind : MBind Decoder :=
  λ A B f m b, match m b with Ok (a, b') => f a b' | Err e => Err e end.
Definition lift {A} (r : Result A) : Decoder A := λ b, a ← r; Ok (a, b).

Definition take_bytes (len : Z) : Decoder (list byte) := λ remaining,
  if zlen remaining <? len then Err "truncated canonical object"
  else Ok (take (Z.to_nat len) remaining, drop (Z.to_nat len) remaining).

Definition expect_magic (expected : list byte) : Decoder unit :=
  m ← take_bytes (zlen expected);
  lift (bail_if (negb (bool_decide (m = expected))) "unsupported canonical object format").

Definition read_u8 : Decoder byte := l ← take_bytes 1; mret (default x00 (head l)).
Definition read_u32 : Decoder Z := l ← take_bytes 4; mret (le_value l).
Definition read_u64 : Decoder Z := l ← take_bytes 8; mret (le_value l).
Definition read_i64 : Decoder Z :=
  l ← take_bytes 8; let v := le_value l in mret (if 2 ^ 63 <=? v then v - 2 ^ 64 else v).
Definition read_len : Decoder Z :=
  v ← read_u64;
  lift (ensure (v <=? USIZE_MAX) "canonical length exceeds platform limits") ;;
  mret v.
Definition read_string : Decoder string :=
  len ← read_len;
  bytes ← take_bytes len;
  lift (or_context (from_utf8 bytes) "canonical string is not UTF-8").
Definition read_option_string : Decoder (option string) :=
  tag ← read_u8;
  match tag with
  | x00 => mret None
  | x01 => v ← read_string; mret (Some v)
  | _ => lift (Err "invalid option tag")
  end.
Definition finish (remaining : list byte) : Result unit :=
  bail_if (negb (bool_decide (remaining = []))) "trailing bytes in canonical object".

Definition decode_kind (uses_v2 : bool) : Decoder TreeEntryKind :=
  tag ← read_u8;
  match tag with
  | x00 => mret File
  | x01 => mret Dir
  | x02 =>
      base ← read_option_string;
      ours ← read_option_string;
      theirs ← read_option_string;
      modes ← (if uses_v2
               then b ← read_u32; o ← read_u32; t ← read_u32; mret (mkConflictModes b o t)
               else mret ConflictModes_default);
      mret (Conflict base ours theirs modes)
  | _ => lift (Err "unknown tree entry kind")
  end.

Definition decode_entry (uses_v2 : bool) : Decoder TreeEntry :=
  name ← read_string;
  kind ← decode_kind uses_v2;
  hash ← read_string;
  size ← read_u64;
  mode ← read_u32;
  lift (validate_entry name kind hash size mode) ;;
  mret (mkTreeEntry name kind hash size mode).

(** A [for _ in 0..count] loop that pushes what each iteration reads. *)
Fixpoint decode_many {A} (d : Decoder A) (count : nat) : Decoder (list A) :=
  match count with
  | O => mret []
  | S count => a ← d; l ← decode_many d count; mret (a :: l)
  end.

(** [bytes.starts_with(magic)]. *)
Definition has_magic (magic bytes : list byte) : bool := bool_decide (take (length magic) bytes = magic).

Definition decode_tree (bytes : list byte) : Result Tree :=
  bail_if (MAX_CANONICAL_OBJECT_BYTES <? zlen bytes) "canonical tree exceeds object byte limit" ;;
  '(uses_v2, remaining) ←
    (if has_magic TREE_MAGIC_V1 bytes then (expect_magic TREE_MAGIC_V1 ;; mret false) bytes
     else if has_magic TREE_MAGIC_V2 bytes then (expect_magic TREE_MAGIC_V2 ;; mret true) bytes
     else Err "unsupported canonical object format");
  '(count, remaining) ← read_len remaining;
  bail_if ((MAX_TREE_ENTRIES <? count) || (zlen remaining / 94 <? count))
    "canonical tree contains an impossible entry count" ;;
  '(entries, remaining) ← decode_many (decode_entry uses_v2) (Z.to_nat count) remaining;
  finish remaining ;;
  ensure_sorted_unique entries ;;
  let tree := mkTree entries in
  validate_tree tree ;;
  bail_if (uses_v2 && negb (tree_uses_v2 tree))
    "non-canonical FTR2 tree without executable conflict intent" ;;
  Ok tree.

Definition decode_snapshot (bytes : list byte) : Result Snapshot :=
  bail_if (MAX_CANONICAL_OBJECT_BYTES <? zlen bytes) "canonical snapshot exceeds object byte limit" ;;
  '(snapshot, remaining) ←
    (expect_magic SNAPSHOT_MAGIC ;;
     root ← read_string;
     parent_count ← read_len;
     lift (bail_if (MAX_SNAPSHOT_PARENTS <? parent_count) "snapshot contains too many parents") ;;
     parents ← decode_many read_string (Z.to_nat parent_count);
     author ← read_string;
     created_at_ms ← read_i64;
     message ← read_option_string;
     mret (mkSnapshot root parents author created_at_ms message)) bytes;
  finish remaining ;;
  validate_snapshot snapshot ;;
  Ok snapshot.

(** [Tree::id] and [Snapshot::id]. *)
Definition Tree_id `{Blake3} (tree : Tree) : string := hash_bytes (encode_tree tree).
Definition Snapshot_id `{Blake3} (snapshot : Snapshot) : string := hash_bytes (encode_snapshot snapshot).
End unicode.
