(* ===== verification/CodecProps.v ===== *)
(** * Canonical object codec: round trips and canonicity

    Each field of the wire format is an instance of [Codec]: reading what was written gives
    the value back, and whatever a reader accepts is the encoding of the value it returns.
    Trees and snapshots are composed from the fields. *)
From Stdlib Require Import ZArith Lia Ascii Strings.Byte.
From stdpp Require Import sorting numbers strings gmap list_numbers list options.
From S2P Require Import Prelude Text Paths Model Codec.

Local Open Scope Z_scope.

(** The contract between an encoder and a decoder on a domain of values. *)
Class Codec {A} (dom : A → Prop) (enc : A → list byte) (dec : Decoder A) : Prop := {
  codec_read a rest : dom a → dec (enc a ++ rest) = Ok (a, rest);
  codec_canonical b a rest : dec b = Ok (a, rest) → dom a ∧ b = enc a ++ rest;
}.

(** ** Running decoders *)
Lemma dec_bind_Ok {A B} (m : Decoder A) (f : A → Decoder B) b c r :
  (m ≫= f) b = Ok (c, r) ↔ ∃ a b', m b = Ok (a, b') ∧ f a b' = Ok (c, r).
Proof. unfold mbind, Decoder_bind. destruct (m b) as [[a b']|e]; naive_solver. Qed.

Lemma dec_bind_run {A B} (m : Decoder A) (f : A → Decoder B) b a b' :
  m b = Ok (a, b') → (m ≫= f) b = f a b'.
Proof. unfold mbind, Decoder_bind. by intros ->. Qed.

Lemma lift_Ok {A} (x : Result A) b a r : lift x b = Ok (a, r) ↔ x = Ok a ∧ r = b.
Proof. unfold lift. destruct x; simpl; naive_solver. Qed.

Lemma lift_run {A} (x : Result A) a b : x = Ok a → lift x b = Ok (a, b).
Proof. by intros ->. Qed.

Lemma ret_Ok {A} (a : A) b c r : mret (M:=Decoder) a b = Ok (c, r) ↔ c = a ∧ r = b.
Proof. unfold mret, Decoder_ret. naive_solver. Qed.

Ltac inv_dec1 :=
  match goal with
  | H : @mbind Decoder _ _ _ _ _ _ = Ok _ |- _ => apply dec_bind_Ok in H as (? & ? & ? & H)
  | H : lift _ _ = Ok _ |- _ => apply lift_Ok in H as [? ->]
  | H : @mret Decoder _ _ _ _ = Ok _ |- _ => apply ret_Ok in H as [? ?]; simplify_eq
  end.
Ltac inv_dec := repeat (inv_dec1 || inv_ok1).

(** Runs the next field of a decoder on a prefix written by its encoder. *)
Tactic Notation "run_field" "by" tactic3(tac) :=
  rewrite <-?app_assoc; erewrite dec_bind_run by (apply codec_read; tac).

Lemma take_bytes_run l r : take_bytes (zlen l) (l ++ r) = Ok (l, r).
Proof.
  unfold take_bytes. rewrite zlen_app. pose proof (zlen_nonneg r).
  destruct (Z.ltb_spec (zlen l + zlen r) (zlen l)); [lia|].
  unfold zlen. by rewrite Nat2Z.id, take_app_length, drop_app_length.
Qed.

Lemma take_bytes_Ok n b l r : 0 ≤ n → take_bytes n b = Ok (l, r) → zlen l = n ∧ b = l ++ r.
Proof.
  unfold take_bytes. intros Hn. destruct (Z.ltb_spec (zlen b) n); [done|].
  intros [= <- <-]. rewrite take_drop. unfold zlen in *. rewrite length_take. split; [lia|done].
Qed.

Lemma take_bytes_w (w : nat) l r : length l = w → take_bytes (Z.of_nat w) (l ++ r) = Ok (l, r).
Proof. intros <-. apply take_bytes_run. Qed.

(** ** Integer fields *)
Lemma read_u8_run b rest : read_u8 (b :: rest) = Ok (b, rest).
Proof. unfold read_u8. by rewrite (dec_bind_run _ _ _ _ _ (take_bytes_w 1 [b] rest eq_refl)). Qed.

Lemma read_u8_Ok b a rest : read_u8 b = Ok (a, rest) → b = a :: rest.
Proof.
  unfold read_u8. intros Hr. inv_dec.
  rename select (take_bytes _ _ = _) into Ht. apply take_bytes_Ok in Ht as [Hl ->]; [|done].
  destruct x as [|c [|d l]]; unfold zlen in Hl; simpl in *; [lia|done|lia].
Qed.

Lemma le_codec (w : nat) (dec : Decoder Z) :
  (∀ b, dec b = (l ← take_bytes (Z.of_nat w); mret (le_value l)) b) →
  Codec (λ z, 0 ≤ z < 256 ^ Z.of_nat w) (le_bytes w) dec.
Proof.
  intros Hdec. split.
  - intros z rest Hz. rewrite Hdec.
    rewrite (dec_bind_run _ _ _ _ _ (take_bytes_w w _ _ (length_le_bytes w z))).
    unfold mret, Decoder_ret. by rewrite le_value_bytes, Z.mod_small.
  - intros b z rest Hr. rewrite Hdec in Hr. inv_dec.
    rename select (take_bytes _ _ = _) into Ht. apply take_bytes_Ok in Ht as [Hl ->]; [|lia].
    rewrite <-Hl. split; [apply le_value_bound|]. f_equal. symmetry. apply le_bytes_of_value.
    unfold zlen in Hl. lia.
Qed.

#[global] Instance u32_codec : Codec (λ z, 0 ≤ z < 2 ^ 32) (le_bytes 4) read_u32.
Proof. by apply (le_codec 4). Qed.

#[global] Instance u64_codec : Codec (λ z, 0 ≤ z < 2 ^ 64) (le_bytes 8) read_u64.
Proof. by apply (le_codec 8). Qed.

Lemma le_bytes_wrap w z z' : z mod 256 ^ Z.of_nat w = z' mod 256 ^ Z.of_nat w → le_bytes w z = le_bytes w z'.
Proof.
  intros Hm. rewrite <-(le_bytes_of_value w (le_bytes w z)), <-(le_bytes_of_value w (le_bytes w z'))
    by apply length_le_bytes. by rewrite !le_value_bytes, Hm.
Qed.

#[global] Instance i64_codec : Codec (λ z, - 2 ^ 63 ≤ z < 2 ^ 63) (le_bytes 8) read_i64.
Proof.
  assert (256 ^ Z.of_nat 8 = 2 ^ 64) as H64 by done. split.
  - intros z rest Hz. unfold read_i64.
    rewrite (dec_bind_run _ _ _ _ _ (take_bytes_w 8 _ _ (length_le_bytes 8 z))).
    rewrite le_value_bytes, H64. unfold mret, Decoder_ret. do 2 f_equal.
    destruct (Z.ltb_spec z 0).
    + rewrite <-(Z.mod_add z 1 (2 ^ 64)), Z.mod_small by lia. case_match; to_prop; lia.
    + rewrite Z.mod_small by lia. case_match; to_prop; lia.
  - intros b z rest Hr. unfold read_i64 in Hr. inv_dec.
    rename select (take_bytes _ _ = _) into Ht. apply take_bytes_Ok in Ht as [Hl ->]; [|lia].
    pose proof (le_value_bound x) as Hb. rewrite Hl in Hb. change (256 ^ 8) with (2 ^ 64) in Hb.
    split; [case_match; to_prop; lia|]. f_equal.
    rewrite <-(le_bytes_of_value 8 x) at 1 by (unfold zlen in Hl; lia).
    case_match; [|done]. apply le_bytes_wrap. rewrite H64.
    by rewrite <-(Z.mod_add (le_value x - 2 ^ 64) 1), Z.mul_1_l, Z.sub_add.
Qed.

#[global] Instance len_codec : Codec (λ z, 0 ≤ z ≤ U64_MAX) push_len read_len.
Proof.
  split.
  - intros z rest Hz. unfold read_len, push_len. rewrite Z.min_l by lia.
    run_field by (unfold U64_MAX in *; lia).
    rewrite (dec_bind_run _ _ _ tt rest); [done|].
    apply lift_run, ensure_Ok, Z.leb_le. unfold USIZE_MAX. lia.
  - intros b z rest Hr. unfold read_len in Hr. inv_dec. to_prop.
    rename select (read_u64 _ = _) into Ht. apply codec_canonical in Ht as [Hz ->].
    unfold U64_MAX, push_len. split; [lia|]. unfold U64_MAX. by rewrite Z.min_l by lia.
Qed.

(** ** Text fields *)

(** What every in-memory Rust string satisfies. *)
Definition wf_str (s : string) : Prop := is_utf8 s = true ∧ slen s ≤ U64_MAX.

#[global] Instance string_codec : Codec wf_str push_string read_string.
Proof.
  split.
  - intros s rest [Hu Hl]. unfold read_string, push_string. run_field by (pose proof (slen_nonneg s); lia).
    rewrite <-zlen_as_bytes, (dec_bind_run _ _ _ _ _ (take_bytes_run _ _)).
    by rewrite from_utf8_of.
  - intros b s rest Hr. unfold read_string in Hr. inv_dec.
    rename select (read_len _ = _) into Hlen. apply codec_canonical in Hlen as [Hz ->].
    rename select (take_bytes _ _ = _) into Ht. apply take_bytes_Ok in Ht as [Hn ->]; [|lia].
    rename select (from_utf8 _ = _) into Hu. apply from_utf8_Some in Hu as [<- Hu].
    rewrite zlen_as_bytes in Hn. subst. unfold push_string. rewrite <-app_assoc. split; [|done].
    split; [done|lia].
Qed.

Lemma zlen_le_bytes w z : zlen (le_bytes w z) = Z.of_nat w.
Proof. unfold zlen. by rewrite length_le_bytes. Qed.

Lemma zlen_push_len z : zlen (push_len z) = 8.
Proof. unfold push_len. apply zlen_le_bytes. Qed.

Lemma zlen_push_string s : zlen (push_string s) = 8 + slen s.
Proof.
  unfold push_string. by rewrite zlen_app, zlen_push_len, zlen_as_bytes.
Qed.

#[local] Opaque le_bytes push_len push_string.

Definition wf_opt_str (o : option string) : Prop := ∀ s, o = Some s → wf_str s.

#[global] Instance option_string_codec : Codec wf_opt_str push_option_string read_option_string.
Proof.
  split.
  - intros [s|] rest Ho; unfold read_option_string; simpl;
      rewrite (dec_bind_run _ _ _ _ _ (read_u8_run _ _)); [|done].
    run_field by (by apply Ho). done.
  - intros b o rest Hr. unfold read_option_string in Hr. inv_dec.
    rename select (read_u8 _ = _) into Hu. apply read_u8_Ok in Hu as ->.
    destruct x; inv_dec; try done.
    rename select (read_string _ = _) into Hs. apply codec_canonical in Hs as [Hs ->].
    split; [|done]. by intros ? [= <-].
Qed.

(** ** Entries *)
Definition wf_modes (uses_v2 : bool) (m : ConflictModes) : Prop :=
  if uses_v2 then (0 ≤ cm_base m < 2 ^ 32) ∧ (0 ≤ cm_ours m < 2 ^ 32) ∧ (0 ≤ cm_theirs m < 2 ^ 32)
  else m = ConflictModes_default.

Definition wf_kind (uses_v2 : bool) (k : TreeEntryKind) : Prop :=
  match k with
  | Conflict b o t m => wf_opt_str b ∧ wf_opt_str o ∧ wf_opt_str t ∧ wf_modes uses_v2 m
  | _ => True
  end.

#[global] Instance kind_codec v2 : Codec (wf_kind v2) (encode_kind v2) (decode_kind v2).
Proof.
  split.
  - intros [| |b o t [mb mo mt]] rest Hk; unfold decode_kind; simpl;
      rewrite (dec_bind_run _ _ _ _ _ (read_u8_run _ _)); [done..|].
    destruct Hk as (Hb & Ho & Ht & Hm). do 3 run_field by done.
    destruct v2; simpl in Hm; simpl cm_base; simpl cm_ours; simpl cm_theirs.
    + rewrite (dec_bind_run _ _ _ (mkConflictModes mb mo mt) rest); [done|].
      do 3 run_field by tauto. done.
    + injection Hm as -> -> ->. done.
  - intros b k rest Hr. unfold decode_kind in Hr. inv_dec.
    rename select (read_u8 _ = _) into Hu. apply read_u8_Ok in Hu as ->.
    destruct x; inv_dec; try done.
    repeat match goal with
           | H : read_option_string _ = Ok _ |- _ => apply codec_canonical in H as [? ->]
           end.
    destruct v2; inv_dec.
    + repeat match goal with
             | H : read_u32 _ = Ok _ |- _ => apply codec_canonical in H as [? ->]
             end.
      simpl. rewrite <-!app_assoc. split; [tauto|done].
    + simpl. rewrite <-!app_assoc. split; [tauto|done].
Qed.

Section unicode.
Context `{Unicode}.

(** Typing of the fields of an entry (Rust's [String], [u64], [u32]), and validity. *)
Definition wf_entry (e : TreeEntry) : Prop :=
  wf_str (te_name e) ∧ wf_str (te_hash e) ∧ 0 ≤ te_size e < 2 ^ 64 ∧ 0 ≤ te_mode e < 2 ^ 32.

Definition entry_ok (v2 : bool) (e : TreeEntry) : Prop :=
  wf_entry e ∧ wf_kind v2 (te_kind e) ∧
  validate_entry (te_name e) (te_kind e) (te_hash e) (te_size e) (te_mode e) = Ok tt.

#[global] Instance entry_codec v2 : Codec (entry_ok v2) (encode_entry v2) (decode_entry v2).
Proof.
  split.
  - intros [n k h s m] rest ((Hn & Hh & Hs & Hm) & Hk & Hv). unfold decode_entry, encode_entry.
    simpl in *. do 5 run_field by done.
    by rewrite (dec_bind_run _ _ _ _ _ (lift_run _ _ _ Hv)).
  - intros b e rest Hr. unfold decode_entry in Hr. inv_dec.
    repeat match goal with
           | H : read_string _ = Ok _ |- _ => apply codec_canonical in H as [? ->]
           | H : read_u32 _ = Ok _ |- _ => apply codec_canonical in H as [? ->]
           | H : read_u64 _ = Ok _ |- _ => apply codec_canonical in H as [? ->]
           | H : decode_kind _ _ = Ok _ |- _ => apply codec_canonical in H as [? ->]
           end.
    unfold encode_entry. simpl. rewrite <-!app_assoc. split; [|done]. unfold entry_ok, wf_entry. simpl. tauto.
Qed.

(** ** Repetition *)
Lemma decode_many_run {A} (dom : A → Prop) enc dec `{!Codec dom enc dec} l rest :
  Forall dom l → decode_many dec (length l) (concat (enc <$> l) ++ rest) = Ok (l, rest).
Proof.
  induction 1 as [|a l Ha Hl IH]; [done|]. simpl. run_field by done.
  by rewrite (dec_bind_run _ _ _ _ _ IH).
Qed.

Lemma decode_many_Ok {A} (dom : A → Prop) enc dec `{!Codec dom enc dec} n b l rest :
  decode_many dec n b = Ok (l, rest) → length l = n ∧ Forall dom l ∧ b = concat (enc <$> l) ++ rest.
Proof.
  revert b l. induction n as [|n IH]; intros b l Hr; simpl in Hr; inv_dec; [done|].
  rename select (dec _ = _) into Ha. apply codec_canonical in Ha as [Ha ->].
  rename select (decode_many _ _ _ = _) into Hl. apply IH in Hl as (Hn & Hd & ->).
  simpl. rewrite <-app_assoc. split_and!; [by f_equal|by constructor|done].
Qed.

(** ** Valid object ids are well-formed strings *)
Lemma byteZ_of_ascii c : byteZ (byte_of_ascii c) = ascii_code c.
Proof. unfold byteZ, ascii_code. by destruct c as [[] [] [] [] [] [] [] []]. Qed.

Lemma lower_hex_ascii c : is_lower_hex c = true → ascii_code c < 128.
Proof. unfold is_lower_hex, in_range. intros [|]%orb_true_iff; to_prop; lia. Qed.

Lemma ascii_utf8 P s : (∀ c, P c = true → ascii_code c < 128) → all_chars P s = true → is_utf8 s = true.
Proof.
  intros HP Hs. unfold is_utf8.
  enough (is_Some (utf8_decode (byteZ <$> as_bytes s))) as [? ->] by done.
  induction s as [|c s IH]; [done|]. simpl in Hs. apply andb_true_iff in Hs as [Hc Hs].
  change (as_bytes (String c s)) with (byte_of_ascii c :: as_bytes s).
  rewrite fmap_cons, byteZ_of_ascii. cbn [utf8_decode].
  rewrite (proj2 (Z.ltb_lt _ _) (HP c Hc)). destruct (IH Hs) as [x ->]. by eexists.
Qed.

Lemma valid_hash_wf h : is_valid_hash h = true → wf_str h.
Proof.
  intros Hh. split; [|rewrite (valid_hash_len h) by done; done].
  unfold is_valid_hash in Hh. apply andb_true_iff in Hh as [_ Hh].
  eapply ascii_utf8; [apply lower_hex_ascii|done].
Qed.

(** ** Lengths *)
Hint Rewrite @zlen_app @zlen_cons zlen_le_bytes zlen_push_len zlen_push_string : zlen.

Lemma checked_len_Ok t a r : checked_len t a = Ok r ↔ t + a ≤ USIZE_MAX ∧ r = t + a.
Proof. unfold checked_len. by rewrite or_context_Ok, checked_add_Some. Qed.

Lemma checked_len_run t a : t + a ≤ USIZE_MAX → checked_len t a = Ok (t + a).
Proof. intros. by apply checked_len_Ok. Qed.

Lemma option_string_len_Ok o l : option_string_len o = Ok l → l = zlen (push_option_string o).
Proof.
  destruct o as [s|]; simpl; [|by intros [= <-]].
  intros Ho%or_context_Ok. change (checked_add 9 (slen s) = Some l) in Ho.
  apply checked_add_Some in Ho. autorewrite with zlen. lia.
Qed.

Lemma option_string_len_run o :
  zlen (push_option_string o) ≤ USIZE_MAX → option_string_len o = Ok (zlen (push_option_string o)).
Proof.
  destruct o as [s|]; simpl; [|done]. autorewrite with zlen. intros Hl. apply or_context_Ok.
  change (checked_add 9 (slen s) = Some (1 + (8 + slen s))). apply checked_add_Some. lia.
Qed.

Lemma add_entry_len_Ok v2 n e m :
  add_entry_len v2 n e = Ok m → m = n + zlen (encode_entry v2 e) ∧ m ≤ USIZE_MAX.
Proof.
  unfold add_entry_len, encode_entry. intros Ha. inv_ok. autorewrite with zlen.
  rewrite !checked_len_Ok in *. destruct (te_kind e) as [| |b o t md]; inv_ok; simpl; autorewrite with zlen.
  1-2: unfold zlen at 1; simpl; lia.
  rewrite !checked_len_Ok in *.
  repeat match goal with H : option_string_len _ = Ok _ |- _ => apply option_string_len_Ok in H end.
  destruct v2; inv_ok; rewrite ?checked_len_Ok in *; autorewrite with zlen; [lia|].
  unfold zlen at 4; simpl. lia.
Qed.

Lemma add_entry_len_run v2 n e :
  0 ≤ n → n + zlen (encode_entry v2 e) ≤ USIZE_MAX →
  add_entry_len v2 n e = Ok (n + zlen (encode_entry v2 e)).
Proof.
  unfold add_entry_len, encode_entry. intros Hn Ha. autorewrite with zlen in *.
  pose proof (slen_nonneg (te_name e)). pose proof (slen_nonneg (te_hash e)).
  pose proof (zlen_nonneg (encode_kind v2 (te_kind e))).
  rewrite checked_len_run by lia. simpl.
  destruct (te_kind e) as [| |b o t md]; simpl encode_kind in *.
  1-2: unfold zlen in Ha at 1; unfold zlen at 1; simpl in *; rewrite checked_len_run by lia; f_equal; lia.
  autorewrite with zlen in *.
  pose proof (zlen_nonneg (push_option_string b)). pose proof (zlen_nonneg (push_option_string o)).
  pose proof (zlen_nonneg (push_option_string t)).
  destruct v2; autorewrite with zlen in *; [|change (zlen []) with 0 in *];
    rewrite !option_string_len_run by lia; simpl;
    do 4 (rewrite checked_len_run by lia; simpl); rewrite ?checked_len_run by lia; f_equal; lia.
Qed.

Lemma entries_len_Ok v2 n l m :
  try_fold (add_entry_len v2) n l = Ok m → m = n + zlen (concat (encode_entry v2 <$> l)).
Proof.
  revert n. induction l as [|e l IH]; intros n Hf; simpl in Hf; inv_ok.
  - change (zlen (concat (encode_entry v2 <$> []))) with 0. lia.
  - rename select (add_entry_len _ _ _ = _) into He. apply add_entry_len_Ok in He as [-> _].
    apply IH in Hf. rewrite fmap_cons, concat_cons, zlen_app. lia.
Qed.

Lemma entries_len_run v2 n l :
  0 ≤ n → n + zlen (concat (encode_entry v2 <$> l)) ≤ USIZE_MAX →
  try_fold (add_entry_len v2) n l = Ok (n + zlen (concat (encode_entry v2 <$> l))).
Proof.
  revert n. induction l as [|e l IH]; intros n Hn Hl.
  - change (zlen (concat (encode_entry v2 <$> []))) with 0. simpl. f_equal. lia.
  - rewrite fmap_cons, concat_cons, zlen_app in *. simpl. pose proof (zlen_nonneg (encode_entry v2 e)).
    pose proof (zlen_nonneg (concat (encode_entry v2 <$> l))).
    rewrite add_entry_len_run by lia. simpl. rewrite IH by lia. f_equal. lia.
Qed.

Lemma encode_entries_len_perm v2 l1 l2 :
  l1 ≡ₚ l2 → zlen (concat (encode_entry v2 <$> l1)) = zlen (concat (encode_entry v2 <$> l2)).
Proof.
  induction 1; rewrite ?fmap_cons, ?concat_cons, ?zlen_app in *; lia.
Qed.

Lemma zlen_encode_tree t :
  zlen (encode_tree t) = 12 + zlen (concat (encode_entry (tree_uses_v2 t) <$> tr_entries t)).
Proof.
  unfold encode_tree. rewrite !zlen_app, zlen_push_len.
  rewrite (encode_entries_len_perm _ _ _ (sort_by_perm te_name (tr_entries t))).
  assert (zlen (if tree_uses_v2 t then TREE_MAGIC_V2 else TREE_MAGIC_V1) = 4) as ->
    by (by destruct (tree_uses_v2 t)). lia.
Qed.

(** ** Validation, declaratively *)
Definition entry_valid (e : TreeEntry) : Prop :=
  validate_entry (te_name e) (te_kind e) (te_hash e) (te_size e) (te_mode e) = Ok tt.

Record tree_valid (t : Tree) : Prop := {
  tv_count : zlen (tr_entries t) ≤ MAX_TREE_ENTRIES;
  tv_bytes : zlen (encode_tree t) ≤ MAX_CANONICAL_OBJECT_BYTES;
  tv_entries : Forall entry_valid (tr_entries t);
  tv_names : NoDup (te_name <$> tr_entries t);
  tv_folded : NoDup (to_lowercase ∘ te_name <$> tr_entries t);
}.

Lemma validate_entries_spec l (ex po : gset string) :
  (∃ r, try_fold validate_tree_entry (ex, po) l = Ok r) ↔
  Forall entry_valid l ∧
  (NoDup (te_name <$> l) ∧ ∀ e, e ∈ l → te_name e ∉ ex) ∧
  (NoDup (to_lowercase ∘ te_name <$> l) ∧ ∀ e, e ∈ l → to_lowercase (te_name e) ∉ po).
Proof.
  revert ex po. induction l as [|e l IH]; intros ex po.
  { split; [|by eauto]. intros _. split_and!; try constructor; set_solver. }
  rewrite !fmap_cons, !NoDup_cons, Forall_cons. unfold compose at 1. split.
  - intros [r Hr]. simpl in Hr. inv_ok. to_prop. rename select (validate_entry _ _ _ _ _ = _) into Hv.
    destruct (proj1 (IH _ _) (ex_intro _ r Hr)) as (HF & [Hn Hx] & [Hl Hp]).
    split_and!; try done; try (intros e' [->|He']%elem_of_cons; set_solver).
    + intros (e' & Heq & He')%list_elem_of_fmap. apply (Hx e' He'). set_solver.
    + intros (e' & Heq & He')%list_elem_of_fmap. apply (Hp e' He'). unfold compose in Heq. set_solver.
  - intros ((Hv & HF) & ([Hni Hn] & Hx) & ([Hli Hl] & Hp)). simpl. unfold entry_valid in Hv. rewrite Hv. simpl.
    rewrite !bool_decide_false by (first [apply Hx|apply Hp]; by left). simpl.
    apply IH. split_and!; try done; intros e' He'; apply not_elem_of_union.
    + split; [|by apply Hx; right]. rewrite elem_of_singleton. intros Heq. apply Hni.
      rewrite <-Heq. by apply list_elem_of_fmap_2.
    + split; [|by apply Hp; right]. rewrite elem_of_singleton. intros Heq. apply Hli.
      rewrite <-Heq. by apply (list_elem_of_fmap_2 (to_lowercase ∘ te_name)).
Qed.

Lemma validate_tree_spec t : validate_tree t = Ok tt ↔ tree_valid t.
Proof.
  pose proof (zlen_encode_tree t) as Hlen. unfold validate_tree, canonical_tree_len. split.
  - intros Hv. inv_ok. to_prop.
    rename select (try_fold (add_entry_len _) _ _ = _) into Hl. apply entries_len_Ok in Hl.
    rename select (try_fold validate_tree_entry _ _ = _) into Hf.
    destruct (proj1 (validate_entries_spec _ _ _) (ex_intro _ _ Hf)) as (HF & [Hn _] & [Hp _]).
    constructor; try done. rewrite Hlen. lia.
  - intros [Hc Hb HF Hn Hp]. rewrite Hlen in Hb.
    rewrite (bind_run _ _ tt) by (by apply bail_if_Ok, Z.ltb_ge).
    rewrite entries_len_run;
      [|lia|unfold MAX_CANONICAL_OBJECT_BYTES, USIZE_MAX, U64_MAX in *; lia].
    rewrite (bind_run _ _ _ eq_refl), (bind_run _ _ tt) by (by apply bail_if_Ok, Z.ltb_ge).
    destruct (proj2 (validate_entries_spec (tr_entries t) ∅ ∅)) as [r ->]; [|done].
    split_and!; try done; set_solver.
Qed.

Lemma tree_uses_v2_perm l1 l2 : l1 ≡ₚ l2 → tree_uses_v2 (mkTree l1) = tree_uses_v2 (mkTree l2).
Proof. intros Hp. apply (existsb_perm _ _ _ Hp). Qed.

Lemma encode_tree_perm l1 l2 :
  NoDup (te_name <$> l1) → l1 ≡ₚ l2 → encode_tree (mkTree l1) = encode_tree (mkTree l2).
Proof.
  intros Hn Hp. unfold encode_tree. simpl.
  by rewrite (sort_by_permutation te_name l1 l2 Hn Hp), (tree_uses_v2_perm l1 l2 Hp).
Qed.

Lemma tree_valid_perm l1 l2 : l1 ≡ₚ l2 → tree_valid (mkTree l1) → tree_valid (mkTree l2).
Proof.
  intros Hp [Hc Hb HF Hn Hl]. simpl in *. constructor; simpl.
  - unfold zlen in *. by rewrite <-Hp.
  - by rewrite <-(encode_tree_perm l1 l2).
  - by rewrite <-Hp.
  - by rewrite <-Hp.
  - by rewrite <-Hp.
Qed.

Lemma validate_mode_Ok m : validate_mode m = Ok tt ↔ m = 0 ∨ m = EXECUTABLE_MODE.
Proof.
  unfold validate_mode. rewrite bail_if_Ok, andb_false_iff, !negb_false_iff, !Z.eqb_eq. done.
Qed.

Lemma validate_legs_Ok l u :
  try_fold (λ _ leg, bail_if (negb (is_valid_hash leg)) "conflict contains an invalid leg id") tt l = Ok u →
  Forall (λ h, is_valid_hash h = true) l.
Proof.
  induction l as [|h l IH]; intros Hf; [constructor|]. simpl in Hf. inv_ok. to_prop.
  constructor; [done|]. by apply IH.
Qed.

Lemma flatten_legs_elem {A} (b o t : option A) (a : A) :
  a ∈ flatten_legs [b; o; t] ↔ b = Some a ∨ o = Some a ∨ t = Some a.
Proof. unfold flatten_legs. rewrite list_elem_of_omap. set_solver. Qed.

(** What validity says of the fields. *)
Lemma entry_valid_facts e :
  entry_valid e →
  is_safe_rel_path (te_name e) = true ∧ contains_char slash (te_name e) = false ∧
  (te_mode e = 0 ∨ te_mode e = EXECUTABLE_MODE) ∧ is_valid_hash (te_hash e) = true.
Proof.
  unfold entry_valid, validate_entry. intros Hv. inv_ok. to_prop.
  rename select (validate_mode _ = _) into Hm. by apply validate_mode_Ok in Hm.
Qed.

Lemma entry_valid_conflict e b o t m :
  entry_valid e → te_kind e = Conflict b o t m →
  (∀ h, h ∈ flatten_legs [b; o; t] → is_valid_hash h = true) ∧
  (cm_base m = 0 ∨ cm_base m = 1) ∧ (cm_ours m = 0 ∨ cm_ours m = 1) ∧ (cm_theirs m = 0 ∨ cm_theirs m = 1).
Proof.
  unfold entry_valid, validate_entry. intros Hv Hk. rewrite Hk in Hv. simpl in Hv. inv_ok.
  rename select (try_fold _ _ _ = _) into Hl. apply validate_legs_Ok in Hl.
  change (Forall (λ h, is_valid_hash h = true) (flatten_legs [b; o; t])) in Hl.
  rewrite Forall_forall in Hl. split; [done|].
  repeat match goal with H : validate_mode _ = _ |- _ => apply validate_mode_Ok in H end.
  unfold EXECUTABLE_MODE in *. tauto.
Qed.

Lemma safe_path_wf p : is_utf8 p = true → is_safe_rel_path p = true → wf_str p.
Proof.
  intros Hu (_ & Hl & _)%is_safe_rel_path_true. split; [done|].
  unfold MAX_PORTABLE_PATH_BYTES, U64_MAX in *. lia.
Qed.

(** Rust's types for the fields of an entry that validation does not already bound. *)
Definition wf_tree (t : Tree) : Prop :=
  Forall (λ e, is_utf8 (te_name e) = true ∧ is_u64 (te_size e) = true) (tr_entries t).

Lemma modes_zero m : ConflictModes_is_zero m = true → m = ConflictModes_default.
Proof.
  destruct m as [b o t]. unfold ConflictModes_is_zero. simpl. intros. to_prop. by subst.
Qed.

Lemma valid_entry_ok t e :
  wf_tree t → tree_valid t → e ∈ tr_entries t → entry_ok (tree_uses_v2 t) e.
Proof.
  intros Hwf [_ _ HF _ _] He. unfold wf_tree in Hwf. rewrite Forall_forall in HF, Hwf.
  specialize (HF e He). destruct (Hwf e He) as [Hu Hs]. unfold is_u64 in Hs. to_prop.
  destruct (entry_valid_facts e HF) as (Hn & _ & Hm & Hh).
  split_and!; try done.
  - split; [by apply safe_path_wf|]. split; [by apply valid_hash_wf|].
    unfold U64_MAX, EXECUTABLE_MODE in *. lia.
  - destruct (te_kind e) as [| |b o l m] eqn:Hk; [done..|].
    destruct (entry_valid_conflict e b o l m HF Hk) as (Hlegs & Hb & Ho & Ht). simpl.
    split_and!; try (intros h Hh'; apply valid_hash_wf, Hlegs, flatten_legs_elem; tauto).
    destruct (tree_uses_v2 t) eqn:Hv2; simpl; [lia|].
    apply modes_zero. destruct (ConflictModes_is_zero m) eqn:Hz; [done|].
    enough (tree_uses_v2 t = true) by congruence. unfold tree_uses_v2.
    apply existsb_Exists, Exists_exists. exists e. by rewrite Hk, Hz.
Qed.

Lemma encode_entry_min v2 e : entry_valid e → 94 ≤ zlen (encode_entry v2 e).
Proof.
  intros Hv. destruct (entry_valid_facts e Hv) as (Hn & _ & _ & Hh).
  unfold encode_entry. autorewrite with zlen. rewrite (valid_hash_len _ Hh).
  apply is_safe_rel_path_true in Hn as (Hn & _).
  assert (0 < slen (te_name e)).
  { pose proof (slen_nonneg (te_name e)). destruct (decide (slen (te_name e) = 0)) as [E|]; [|lia].
    by apply slen_0 in E. }
  assert (1 ≤ zlen (encode_kind v2 (te_kind e))).
  { destruct (te_kind e); simpl; rewrite zlen_cons.
    3: match goal with |- context [zlen ?l] => pose proof (zlen_nonneg l) end; lia.
    all: done. }
  lia.
Qed.

Lemma encode_entries_min v2 l :
  Forall entry_valid l → 94 * zlen l ≤ zlen (concat (encode_entry v2 <$> l)).
Proof.
  induction 1 as [|e l He Hl IH]; [done|].
  rewrite fmap_cons, concat_cons, zlen_app, zlen_cons. pose proof (encode_entry_min v2 e He). lia.
Qed.

(** ** Whole objects *)
Lemma expect_magic_run m rest : expect_magic m (m ++ rest) = Ok (tt, rest).
Proof.
  unfold expect_magic. rewrite (dec_bind_run _ _ _ _ _ (take_bytes_run _ _)).
  by rewrite bool_decide_true.
Qed.

Lemma expect_magic_Ok m b u rest : expect_magic m b = Ok (u, rest) → b = m ++ rest.
Proof.
  unfold expect_magic. intros Hr. inv_dec. to_prop. subst.
  rename select (take_bytes _ _ = _) into Ht. by apply take_bytes_Ok in Ht as [_ ->]; [|apply zlen_nonneg].
Qed.

(** The header of an encoded tree is read back. *)
Lemma read_tree_magic v2 rest :
  let bytes := (if v2 : bool then TREE_MAGIC_V2 else TREE_MAGIC_V1) ++ rest in
  (if has_magic TREE_MAGIC_V1 bytes then (expect_magic TREE_MAGIC_V1 ;; mret (M:=Decoder) false) bytes
   else if has_magic TREE_MAGIC_V2 bytes then (expect_magic TREE_MAGIC_V2 ;; mret (M:=Decoder) true) bytes
   else Err "unsupported canonical object format") = Ok (v2, rest).
Proof.
  destruct v2; cbv zeta.
  - replace (has_magic TREE_MAGIC_V1 (TREE_MAGIC_V2 ++ rest)) with false by done.
    replace (has_magic TREE_MAGIC_V2 (TREE_MAGIC_V2 ++ rest)) with true by done.
    by rewrite (dec_bind_run _ _ _ _ _ (expect_magic_run _ _)).
  - replace (has_magic TREE_MAGIC_V1 (TREE_MAGIC_V1 ++ rest)) with true by done.
    by rewrite (dec_bind_run _ _ _ _ _ (expect_magic_run _ _)).
Qed.

Lemma read_tree_magic_Ok bytes v2 rest :
  (if has_magic TREE_MAGIC_V1 bytes then (expect_magic TREE_MAGIC_V1 ;; mret (M:=Decoder) false) bytes
   else if has_magic TREE_MAGIC_V2 bytes then (expect_magic TREE_MAGIC_V2 ;; mret (M:=Decoder) true) bytes
   else Err "unsupported canonical object format") = Ok (v2, rest) →
  bytes = (if v2 : bool then TREE_MAGIC_V2 else TREE_MAGIC_V1) ++ rest.
Proof.
  intros Hr. repeat case_match; inv_dec; try done;
    rename select (expect_magic _ _ = _) into Hm;
    by apply expect_magic_Ok in Hm.
Qed.

Lemma decode_encoded t :
  wf_tree t → validate_tree t = Ok tt →
  decode_tree (encode_tree t) = Ok (mkTree (sort_by te_name (tr_entries t))).
Proof.
  intros Hwf Hv%validate_tree_spec. pose proof Hv as [Hc Hb HF Hn Hl].
  assert (sort_by te_name (tr_entries t) ≡ₚ tr_entries t) as Hp by apply sort_by_perm.
  unfold decode_tree. rewrite (bind_run _ _ tt) by (by apply bail_if_Ok, Z.ltb_ge).
  unfold encode_tree.
  rewrite (bind_run _ _ _ (read_tree_magic _ _)).
  assert (zlen (sort_by te_name (tr_entries t)) = zlen (tr_entries t)) as Hz by (unfold zlen; by rewrite Hp).
  pose proof (zlen_nonneg (tr_entries t)) as Hnn.
  rewrite (bind_run _ _ (zlen (tr_entries t), concat (encode_entry (tree_uses_v2 t) <$> sort_by te_name (tr_entries t)))).
  2: { rewrite Hz. apply codec_read. split; [done|]. by etrans; [exact Hc|vm_compute]. }
  rewrite (bind_run _ _ tt).
  2: { apply bail_if_Ok, orb_false_iff. split; apply Z.ltb_ge; [done|].
       rewrite (encode_entries_len_perm _ _ _ Hp). pose proof (encode_entries_min (tree_uses_v2 t) _ HF).
       apply Z.div_le_lower_bound; lia. }
  rewrite (bind_run _ _ (sort_by te_name (tr_entries t), [])).
  2: { rewrite <-Hz. unfold zlen. rewrite Nat2Z.id, <-(app_nil_r (concat _)).
       apply (decode_many_run (entry_ok (tree_uses_v2 t)) _ _), Forall_forall.
       intros e He. rewrite Hp in He. by apply valid_entry_ok. }
  rewrite (bind_run _ _ tt) by done.
  rewrite (bind_run _ _ tt).
  2: { apply bail_if_Ok, negb_false_iff, strictly_ascending_sorted.
       by apply sorted_lt_fmap, sort_by_lt. }
  rewrite (bind_run _ _ tt).
  2: { apply validate_tree_spec. apply (tree_valid_perm (tr_entries t)); [done|].
       by destruct t. }
  rewrite (tree_uses_v2_perm _ _ Hp). destruct t as [l]. simpl. by destruct (tree_uses_v2 _).
Qed.

(** Decoding the canonical bytes of a valid tree returns the tree with its entries in
    canonical (ascending name) order. *)
Theorem decode_encode_tree t :
  wf_tree t → validate_tree t = Ok tt →
  decode_tree (encode_tree t) = Ok (mkTree (sort_by te_name (tr_entries t))).
Proof. apply decode_encoded. Qed.

Lemma entries_ok_v1 l : Forall (entry_ok false) l → tree_uses_v2 (mkTree l) = false.
Proof.
  intros HF. destruct (tree_uses_v2 (mkTree l)) eqn:E; [|done].
  apply existsb_Exists, Exists_exists in E as (e & He & E). rewrite Forall_forall in HF.
  destruct (HF e He) as (_ & Hk & _). destruct (te_kind e); [done..|].
  destruct Hk as (_ & _ & _ & Hm). simpl in Hm. by subst.
Qed.

Lemma entries_ok_wf v2 l : Forall (entry_ok v2) l → wf_tree (mkTree l).
Proof.
  intros HF. unfold wf_tree. eapply Forall_impl; [exact HF|]. intros e ((Hn & _ & Hs & _) & _). split; [apply Hn|].
  unfold is_u64, U64_MAX. apply andb_true_iff. rewrite !Z.leb_le. lia.
Qed.

(** C30. The decoder accepts canonical bytes only: whatever it accepts is the encoding of the
    tree it returns, and that tree is valid and in canonical order. *)
Theorem decode_tree_canonical b t :
  decode_tree b = Ok t →
  encode_tree t = b ∧ validate_tree t = Ok tt ∧ wf_tree t ∧ StronglySorted (key_lt te_name) (tr_entries t).
Proof.
  unfold decode_tree. intros Hd. inv_ok. unfold finish, ensure_sorted_unique in *. inv_ok. to_prop. subst.
  rename select (read_len _ = _) into Hn. apply codec_canonical in Hn as [Hn ->].
  match goal with H : (if _ then _ else _) = Ok (?v, _) |- _ => rename v into v2; apply read_tree_magic_Ok in H as -> end.
  match goal with H : decode_many _ _ _ = Ok (?l, _) |- _ => rename l into entries, H into Hm end.
  apply (decode_many_Ok (entry_ok v2) (encode_entry v2) _) in Hm as (Hlen & Hok & ->).
  rename select (strictly_ascending _ = _) into Hs. apply strictly_ascending_sorted in Hs.
  apply (sorted_lt_fmap te_name) in Hs.
  rename select (validate_tree _ = _) into Hv. rename select (v2 && _ = false) into Hv2.
  split_and!; [|done|by eapply entries_ok_wf|done].
  assert (tree_uses_v2 (mkTree entries) = v2) as Hu.
  { destruct v2; [by apply negb_false_iff|by apply entries_ok_v1]. }
  unfold encode_tree. simpl. rewrite Hu, sort_by_sorted_id by (try apply sorted_lt_NoDup; done).
  rewrite app_nil_r. unfold zlen. by rewrite Hlen, Z2Nat.id by lia.
Qed.

(** ** Snapshots *)

(** Rust's types for the fields of a snapshot. *)
Definition wf_snapshot (s : Snapshot) : Prop :=
  wf_str (sn_root s) ∧ Forall wf_str (sn_parents s) ∧ wf_str (sn_author s) ∧
  - 2 ^ 63 ≤ sn_created_at_ms s < 2 ^ 63 ∧ wf_opt_str (sn_message s).

Record snapshot_valid (s : Snapshot) : Prop := {
  sv_count : zlen (sn_parents s) ≤ MAX_SNAPSHOT_PARENTS;
  sv_bytes : zlen (encode_snapshot s) ≤ MAX_CANONICAL_OBJECT_BYTES;
  sv_root : is_valid_hash (sn_root s) = true;
  sv_parents : Forall (λ p, is_valid_hash p = true) (sn_parents s);
  sv_author : slen (sn_author s) ≤ MAX_SNAPSHOT_AUTHOR_BYTES;
  sv_message : ∀ m, sn_message s = Some m → slen m ≤ MAX_SNAPSHOT_MESSAGE_BYTES;
  sv_unique : NoDup (sn_parents s);
}.

Lemma parents_len_Ok n l m :
  try_fold (λ n p, checked_len n (8 + slen p)) n l = Ok m → m = n + zlen (concat (push_string <$> l)).
Proof.
  revert n. induction l as [|p l IH]; intros n Hf; simpl in Hf; inv_ok.
  - change (zlen (concat (push_string <$> []))) with 0. lia.
  - rename select (checked_len _ _ = _) into Hc. apply checked_len_Ok in Hc as [_ ->].
    apply IH in Hf. rewrite fmap_cons, concat_cons, zlen_app, zlen_push_string. lia.
Qed.

Lemma parents_len_run n l :
  0 ≤ n → n + zlen (concat (push_string <$> l)) ≤ USIZE_MAX →
  try_fold (λ n p, checked_len n (8 + slen p)) n l = Ok (n + zlen (concat (push_string <$> l))).
Proof.
  revert n. induction l as [|p l IH]; intros n Hn Hl.
  - change (zlen (concat (push_string <$> []))) with 0. simpl. f_equal. lia.
  - rewrite fmap_cons, concat_cons, zlen_app, zlen_push_string in *. simpl.
    pose proof (slen_nonneg p). pose proof (zlen_nonneg (concat (push_string <$> l))).
    rewrite checked_len_run by lia. simpl. rewrite IH by lia. f_equal. lia.
Qed.

Lemma canonical_snapshot_len_Ok s n : canonical_snapshot_len s = Ok n → n = zlen (encode_snapshot s).
Proof.
  unfold canonical_snapshot_len. intros Hl. inv_ok.
  repeat match goal with H : checked_len _ _ = Ok _ |- _ => apply checked_len_Ok in H as [_ ->] end.
  rename select (try_fold _ _ _ = _) into Hf. apply parents_len_Ok in Hf as ->.
  rename select (option_string_len _ = _) into Ho. apply option_string_len_Ok in Ho as ->.
  unfold encode_snapshot. autorewrite with zlen. change (zlen SNAPSHOT_MAGIC) with 4. lia.
Qed.

Lemma canonical_snapshot_len_run s :
  zlen (encode_snapshot s) ≤ USIZE_MAX → canonical_snapshot_len s = Ok (zlen (encode_snapshot s)).
Proof.
  unfold encode_snapshot, canonical_snapshot_len. autorewrite with zlen. change (zlen SNAPSHOT_MAGIC) with 4.
  pose proof (slen_nonneg (sn_root s)). pose proof (slen_nonneg (sn_author s)).
  pose proof (zlen_nonneg (concat (push_string <$> sn_parents s))).
  pose proof (zlen_nonneg (push_option_string (sn_message s))). intros Hl.
  rewrite checked_len_run, (bind_run _ _ _ eq_refl), parents_len_run by lia.
  rewrite (bind_run _ _ _ eq_refl), checked_len_run, (bind_run _ _ _ eq_refl) by lia.
  rewrite option_string_len_run, (bind_run _ _ _ eq_refl), checked_len_run by lia. f_equal. lia.
Qed.

Lemma validate_snapshot_spec s : validate_snapshot s = Ok tt ↔ snapshot_valid s.
Proof.
  unfold validate_snapshot. split.
  - intros Hv. inv_ok. to_prop.
    rename select (canonical_snapshot_len _ = _) into Hl. apply canonical_snapshot_len_Ok in Hl as ->.
    rename select (existsb _ _ = false) into He.
    constructor; try done.
    + apply Forall_forall. intros p Hp. destruct (is_valid_hash p) eqn:E; [done|].
      enough (existsb (λ parent, negb (is_valid_hash parent)) (sn_parents s) = true) by congruence.
      apply existsb_Exists, Exists_exists. exists p. by rewrite E.
    + intros m Hm. rewrite Hm in *. by to_prop.
  - intros [Hc Hb Hr Hp Ha Hm Hu].
    rewrite canonical_snapshot_len_run by (unfold MAX_CANONICAL_OBJECT_BYTES, USIZE_MAX, U64_MAX in *; lia).
    rewrite (bind_run _ _ tt) by (by apply bail_if_Ok, Z.ltb_ge). rewrite (bind_run _ _ _ eq_refl).
    rewrite (bind_run _ _ tt) by (by apply bail_if_Ok, Z.ltb_ge).
    rewrite (bind_run _ _ tt).
    2: { apply bail_if_Ok. rewrite Hr. simpl. apply not_true_is_false. rewrite existsb_Exists, Exists_exists.
         intros (p & Hin & E). rewrite Forall_forall in Hp. by rewrite (Hp p Hin) in E. }
    rewrite (bind_run _ _ tt) by (by apply bail_if_Ok, Z.ltb_ge).
    rewrite (bind_run _ _ tt).
    2: { apply bail_if_Ok. destruct (sn_message s) as [m|]; [|done]. by apply Z.ltb_ge, Hm. }
    by rewrite bool_decide_true.
Qed.

(** Snapshot objects round trip: decoding the canonical bytes of a valid snapshot
    returns that snapshot. *)
Theorem decode_encode_snapshot s :
  wf_snapshot s → validate_snapshot s = Ok tt → decode_snapshot (encode_snapshot s) = Ok s.
Proof.
  intros (Hwr & Hwp & Hwa & Hwt & Hwm) Hv. pose proof Hv as [Hc Hb Hr Hp Ha Hm Hu]%validate_snapshot_spec.
  unfold decode_snapshot. rewrite (bind_run _ _ tt) by (by apply bail_if_Ok, Z.ltb_ge).
  rewrite (bind_run _ _ (s, [])); [|].
  { by rewrite (bind_run _ _ tt), Hv by done. }
  unfold encode_snapshot. rewrite (dec_bind_run _ _ _ _ _ (expect_magic_run _ _)).
  run_field by done. run_field by (pose proof (zlen_nonneg (sn_parents s)); split;
    [done|by etrans; [exact Hc|]]).
  erewrite (dec_bind_run _ _ _ tt) by (apply lift_run, bail_if_Ok; by apply Z.ltb_ge).
  erewrite dec_bind_run.
  2: { unfold zlen. rewrite Nat2Z.id. by apply (decode_many_run wf_str _ _). }
  do 2 run_field by done. rewrite <-(app_nil_r (push_option_string _)). run_field by done. by destruct s.
Qed.

(** The snapshot decoder accepts canonical bytes only: whatever it accepts is the encoding
    of the snapshot it returns, and that snapshot passes validation. *)
Theorem decode_snapshot_canonical b s :
  decode_snapshot b = Ok s → encode_snapshot s = b ∧ validate_snapshot s = Ok tt ∧ wf_snapshot s.
Proof.
  unfold decode_snapshot. intros Hd. inv_ok. unfold finish in *. inv_ok. to_prop. subst.
  rename select (_ = Ok (s, [])) into Hr. inv_dec.
  repeat match goal with
  | H : expect_magic _ _ = Ok _ |- _ => apply expect_magic_Ok in H as ->
  | H : decode_many _ _ _ = Ok _ |- _ =>
      apply (decode_many_Ok wf_str push_string _) in H as (Hlen & Hok & ->)
  | H : _ = Ok _ |- _ => apply codec_canonical in H as [? ->]
  end.
  split_and!; [|done|].
  - unfold encode_snapshot. simpl. rewrite ?app_nil_r. unfold zlen. by rewrite Hlen, Z2Nat.id by lia.
  - done.
Qed.

(** Content addressing is sound: two valid trees have the same canonical bytes exactly
    when they hold the same entries, in whatever order. *)
Theorem encode_tree_injective t1 t2 :
  wf_tree t1 → wf_tree t2 → validate_tree t1 = Ok tt → validate_tree t2 = Ok tt →
  encode_tree t1 = encode_tree t2 ↔ tr_entries t1 ≡ₚ tr_entries t2.
Proof.
  intros Hw1 Hw2 Hv1 Hv2. split.
  - intros He. pose proof (decode_encoded t1 Hw1 Hv1) as H1. rewrite He, decode_encoded in H1 by done.
    injection H1 as H1. by rewrite <-(sort_by_perm te_name (tr_entries t1)), <-H1, sort_by_perm.
  - intros Hp. apply validate_tree_spec in Hv1 as [_ _ _ Hn _].
    destruct t1, t2. by apply encode_tree_perm.
Qed.

(** [validate_tree] accepts exactly the trees with at most [MAX_TREE_ENTRIES] valid
    entries, whose canonical bytes fit the object limit, and whose names are unique both
    exactly and under portable case folding. *)
Theorem validate_tree_exact t :
  validate_tree t = Ok tt ↔
  zlen (tr_entries t) ≤ MAX_TREE_ENTRIES ∧ zlen (encode_tree t) ≤ MAX_CANONICAL_OBJECT_BYTES ∧
  Forall entry_valid (tr_entries t) ∧ NoDup (te_name <$> tr_entries t) ∧
  NoDup (to_lowercase ∘ te_name <$> tr_entries t).
Proof. rewrite validate_tree_spec. split; [by intros []|by intros (?&?&?&?&?)]. Qed.
End unicode.

(** ** Witnesses *)
Definition sample_tree : Tree := mkTree [
  mkTreeEntry "main.rs" File hex_a 42 1;
  mkTreeEntry "docs" Dir hex_b 0 0;
  mkTreeEntry "lib.rs" (Conflict (Some hex_b) (Some hex_a) None (mkConflictModes 0 1 0)) hex_a 7 1].

Definition sample_snapshot : Snapshot := mkSnapshot hex_a [hex_b] "agent-1" (-5) (Some "first").

Lemma sample_tree_wf : wf_tree sample_tree.
Proof. repeat constructor; vm_compute; reflexivity. Qed.

Lemma sample_tree_valid : @validate_tree ascii_unicode sample_tree = Ok tt.
Proof. vm_compute. reflexivity. Qed.

Lemma decode_encode_tree_witness :
  te_name <$> tr_entries (match @decode_tree ascii_unicode (encode_tree sample_tree) with
                          | Ok t => t | Err _ => mkTree [] end) = ["docs"; "lib.rs"; "main.rs"].
Proof.
  rewrite (@decode_encode_tree ascii_unicode sample_tree sample_tree_wf sample_tree_valid). reflexivity.
Defined.

Lemma decode_tree_canonical_witness :
  @validate_tree ascii_unicode (mkTree (sort_by te_name (tr_entries sample_tree))) = Ok tt.
Proof.
  apply (@decode_tree_canonical ascii_unicode (encode_tree sample_tree)). vm_compute. reflexivity.
Defined.

Lemma sample_snapshot_wf : wf_snapshot sample_snapshot.
Proof.
  split_and!; try (intros ? [= <-]); repeat constructor; vm_compute; done.
Qed.

Lemma decode_encode_snapshot_witness : decode_snapshot (encode_snapshot sample_snapshot) = Ok sample_snapshot.
Proof. apply decode_encode_snapshot; [exact sample_snapshot_wf|vm_compute; reflexivity]. Defined.

Lemma decode_snapshot_canonical_witness : validate_snapshot sample_snapshot = Ok tt.
Proof. apply (decode_snapshot_canonical (encode_snapshot sample_snapshot)). vm_compute. reflexivity. Defined.

Lemma encode_tree_injective_witness :
  encode_tree sample_tree = encode_tree (mkTree (rev (tr_entries sample_tree))).
Proof.
  apply (@encode_tree_injective ascii_unicode sample_tree).
  - exact sample_tree_wf.
  - repeat constructor; vm_compute; reflexivity.
  - exact sample_tree_valid.
  - vm_compute. reflexivity.
  - simpl. apply Permutation_rev.
Defined.
