(* ===== verification/Lookup.v ===== *)
(** * Reading a content-addressed tree store

    The meaning of a root id: a store resolves ids to trees, and a list of components leads
    from a root to at most one leaf entry.  The traversals of tree_convert.rs and tree_diff.rs
    are specified against this function. *)
From Stdlib Require Import ZArith Lia Ascii Strings.Byte.
From stdpp Require Import sorting numbers strings gmap list_numbers list options.
From S2P Require Import Prelude Text Paths Model Codec CodecProps.

Local Open Scope Z_scope.

(** The closures [fetch] of the sources, as functions of the id. *)
Abbreviation Fetch := (string → Result Tree).

(** A store backed by a map, as the callers build from a [TreeBundle]. *)
Definition fetch_from (trees : gmap string Tree) : Fetch :=
  λ hash, or_context (trees !! hash) "missing canonical tree".

Fixpoint find_entry (name : string) (entries : list TreeEntry) : option TreeEntry :=
  match entries with
  | [] => None
  | e :: es => if decide (te_name e = name) then Some e else find_entry name es
  end.

Fixpoint tree_lookup (fetch : Fetch) (hash : string) (parts : list string) : option TreeEntry :=
  match parts, fetch hash with
  | n :: rest, Ok tree =>
      match find_entry n (tr_entries tree), rest with
      | Some e, [] => if is_dir e then None else Some e
      | Some e, _ => if is_dir e then tree_lookup fetch (te_hash e) rest else None
      | None, _ => None
      end
  | _, _ => None
  end.

Lemma find_entry_Some n l e : find_entry n l = Some e → e ∈ l ∧ te_name e = n.
Proof.
  induction l as [|x l IH]; simpl; [done|]. case_decide as Hx.
  - intros [= <-]. split; [by left|done].
  - intros He%IH. split; [right; tauto|tauto].
Qed.

Lemma find_entry_elem l e : NoDup (te_name <$> l) → e ∈ l → find_entry (te_name e) l = Some e.
Proof.
  induction l as [|x l IH]; simpl; [by intros _ ?%elem_of_nil|].
  intros [Hni Hnd]%NoDup_cons [->|He]%elem_of_cons; [by rewrite decide_True|].
  rewrite decide_False; [by apply IH|]. intros Heq. apply Hni. rewrite Heq. by apply list_elem_of_fmap_2.
Qed.

Lemma find_entry_perm n l1 l2 : NoDup (te_name <$> l1) → l1 ≡ₚ l2 → find_entry n l1 = find_entry n l2.
Proof.
  intros Hnd Hp. assert (NoDup (te_name <$> l2)) as Hnd2 by (by rewrite <-Hp).
  destruct (find_entry n l1) as [e|] eqn:E1.
  - apply find_entry_Some in E1 as [He <-]. symmetry. apply find_entry_elem; [done|by rewrite <-Hp].
  - destruct (find_entry n l2) as [e|] eqn:E2; [|done]. apply find_entry_Some in E2 as [He <-].
    rewrite (find_entry_elem l1) in E1; [done..|]. by rewrite Hp.
Qed.

Lemma entry_name_unique l e1 e2 :
  NoDup (te_name <$> l) → e1 ∈ l → e2 ∈ l → te_name e1 = te_name e2 → e1 = e2.
Proof.
  intros Hnd H1 H2 Heq. pose proof (find_entry_elem l e1 Hnd H1) as E1.
  rewrite Heq, find_entry_elem in E1 by done. congruence.
Qed.

(** Two ways to descend. *)
Lemma tree_lookup_leaf fetch h t e :
  fetch h = Ok t → NoDup (te_name <$> tr_entries t) → e ∈ tr_entries t → is_dir e = false →
  tree_lookup fetch h [te_name e] = Some e.
Proof. intros Hf Hnd He Hd. simpl. by rewrite Hf, find_entry_elem, Hd. Qed.

Lemma tree_lookup_dir fetch h t e rest :
  fetch h = Ok t → NoDup (te_name <$> tr_entries t) → e ∈ tr_entries t → is_dir e = true → rest ≠ [] →
  tree_lookup fetch h (te_name e :: rest) = tree_lookup fetch (te_hash e) rest.
Proof. intros Hf Hnd He Hd Hr. simpl. rewrite Hf, find_entry_elem, Hd by done. by destruct rest. Qed.

Lemma tree_lookup_inv fetch h n rest e :
  tree_lookup fetch h (n :: rest) = Some e →
  ∃ t e', fetch h = Ok t ∧ e' ∈ tr_entries t ∧ te_name e' = n ∧
    ((rest = [] ∧ e' = e ∧ is_dir e = false) ∨ (rest ≠ [] ∧ is_dir e' = true ∧ tree_lookup fetch (te_hash e') rest = Some e)).
Proof.
  simpl. destruct (fetch h) as [t|]; [|done].
  destruct (find_entry n (tr_entries t)) as [e'|] eqn:Hf; [|done]. apply find_entry_Some in Hf as [He' <-].
  destruct rest as [|n2 rest]; intros Hl.
  - destruct (is_dir e') eqn:Hd; [done|]. simplify_eq. exists t, e. naive_solver.
  - destruct (is_dir e') eqn:Hd; [|done]. exists t, e'. naive_solver.
Qed.

(** The leaf found carries the last component as its name. *)
Lemma tree_lookup_name fetch h parts e : tree_lookup fetch h parts = Some e → last parts = Some (te_name e).
Proof.
  revert h. induction parts as [|n rest IH]; intros h; [done|].
  intros (t & e' & _ & _ & Hn & [(-> & -> & _)|(Hne & _ & Hl)])%tree_lookup_inv; [by rewrite <-Hn|].
  destruct rest; [done|]. by eapply IH.
Qed.

Lemma tree_lookup_not_dir fetch h parts e : tree_lookup fetch h parts = Some e → is_dir e = false.
Proof.
  revert h. induction parts as [|n rest IH]; intros h; [done|].
  intros (t & e' & _ & _ & Hn & [(-> & -> & ?)|(Hne & _ & Hl)])%tree_lookup_inv; [done|by eapply IH].
Qed.
