(* ===== verification/Convert.v ===== *)
(** * From flat file states to canonical trees

    The first half of common/src/tree_convert.rs: [flat_to_tree_with_conflicts] inserts every
    live file, then every conflict, into a vector of directory nodes that refer to each other
    by index, charging a budget, and [build_node] turns the nodes bottom-up into validated,
    content-addressed trees. *)
From Stdlib Require Import ZArith Lia Ascii Strings.Byte.
From stdpp Require Import sorting numbers strings gmap list_numbers list options.
From S2P Require Import Prelude Text Paths Model Codec CodecProps.

Local Open Scope Z_scope.

(** ** Nodes and budget *)
Record Node := mkNode {
  nd_files : gmap string FileState;
  nd_conflicts : gmap string TreeEntry;
  nd_directories : gmap string nat;
}.
Definition Node_default : Node := mkNode ∅ ∅ ∅.

Record TreeBudget := mkTreeBudget {
  work_items : Z;
  objects : Z;
  output_paths : Z;
  path_bytes : Z;
}.
Definition TreeBudget_new : TreeBudget := mkTreeBudget 1 1 0 0.

(** A counter moves by [amount] with [checked_add] and stays within [limit]. *)
Definition charge (counter amount limit : Z) (overflow exceeded : string) : Result Z :=
  n ← or_context (checked_add counter amount) overflow;
  bail_if (limit <? n) exceeded ;;
  Ok n.

Definition add_work (amount : Z) (b : TreeBudget) : Result TreeBudget :=
  n ← charge (work_items b) amount MAX_TREE_WORK_ITEMS
        "canonical tree work counter overflow" "canonical tree exceeds work items";
  Ok (mkTreeBudget n (objects b) (output_paths b) (path_bytes b)).

Definition add_directory (b : TreeBudget) : Result TreeBudget :=
  n ← charge (objects b) 1 MAX_TREE_OBJECTS
        "canonical tree object counter overflow" "canonical tree exceeds tree objects";
  add_work 1 (mkTreeBudget (work_items b) n (output_paths b) (path_bytes b)).

Definition add_output (b : TreeBudget) : Result TreeBudget :=
  n ← charge (output_paths b) 1 MAX_TREE_OUTPUT_PATHS
        "canonical tree output counter overflow" "canonical tree exceeds output paths";
  add_work 1 (mkTreeBudget (work_items b) (objects b) n (path_bytes b)).

Definition add_path (path : string) (b : TreeBudget) : Result TreeBudget :=
  n ← charge (path_bytes b) (slen path) MAX_TREE_PATH_BYTES_TOTAL
        "canonical tree path-byte counter overflow" "canonical tree paths exceed aggregate byte limit";
  Ok (mkTreeBudget (work_items b) (objects b) (output_paths b) n).

(** ** Conflict legs *)
Definition live_mode (state : option FileState) : Z :=
  match live state with Some s => fs_mode s | None => 0 end.
Definition live_hash (state : option FileState) : option string := fs_hash <$> live state.

(** [theirs], else [ours], else [base], each only while live. *)
Definition representative (c : ConcurrentEdit) : option FileState :=
  match live (ce_theirs c), live (ce_ours c), live (ce_base c) with
  | Some s, _, _ => Some s
  | None, Some s, _ => Some s
  | None, None, o => o
  end.

Definition conflict_entry (name : string) (c : ConcurrentEdit) (r : FileState) : TreeEntry :=
  mkTreeEntry name
    (Conflict (live_hash (ce_base c)) (live_hash (ce_ours c)) (live_hash (ce_theirs c))
       (mkConflictModes (live_mode (ce_base c)) (live_mode (ce_ours c)) (live_mode (ce_theirs c))))
    (fs_hash r) (fs_size r) (fs_mode r).

(** [contains_key]. *)
Definition has_key {A} (m : gmap string A) (k : string) : bool := bool_decide (is_Some (m !! k)).

(** ** Insertion

    The loop both insertions share: walk the components from node 0, creating missing
    directories, and hand the last component to [leaf].  The two callers differ in [leaf] and
    in the error texts. *)
Section insert_parts.
Context (traverses disappeared parent_disappeared : string).
Context (leaf : string → Node → TreeBudget → Result (Node * TreeBudget)).

Fixpoint insert_parts (parts : list string) (node_index : nat) (nodes : list Node) (budget : TreeBudget)
    : Result (list Node * TreeBudget) :=
  match parts with
  | [] => Ok (nodes, budget)
  | [part] =>
      node ← or_context (nodes !! node_index) disappeared;
      '(node, budget) ← leaf part node budget;
      Ok (<[node_index := node]> nodes, budget)
  | part :: rest =>
      node ← or_context (nodes !! node_index) disappeared;
      bail_if (has_key (nd_files node) part || has_key (nd_conflicts node) part) traverses ;;
      match nd_directories node !! part with
      | Some child_index => insert_parts rest child_index nodes budget
      | None =>
          budget ← add_directory budget;
          let child_index := length nodes in
          let nodes := nodes ++ [Node_default] in
          parent ← or_context (nodes !! node_index) parent_disappeared;
          let parent := mkNode (nd_files parent) (nd_conflicts parent)
                          (<[part := child_index]> (nd_directories parent)) in
          insert_parts rest child_index (<[node_index := parent]> nodes) budget
      end
  end.
End insert_parts.

Definition file_leaf (state : FileState) (part : string) (node : Node) (budget : TreeBudget)
    : Result (Node * TreeBudget) :=
  bail_if (has_key (nd_directories node) part || has_key (nd_conflicts node) part)
    "path is both file and directory" ;;
  budget ← (if has_key (nd_files node) part then Ok budget else add_output budget);
  Ok (mkNode (<[part := state]> (nd_files node)) (nd_conflicts node) (nd_directories node), budget).

Definition conflict_leaf (c : ConcurrentEdit) (r : FileState) (part : string) (node : Node)
    (budget : TreeBudget) : Result (Node * TreeBudget) :=
  bail_if (has_key (nd_directories node) part || has_key (nd_conflicts node) part)
    "conflict path collides with existing entry" ;;
  let replaced_file := has_key (nd_files node) part in
  budget ← (if negb replaced_file then add_output budget else Ok budget);
  Ok (mkNode (delete part (nd_files node)) (<[part := conflict_entry part c r]> (nd_conflicts node))
        (nd_directories node), budget).

Section unicode.
Context `{Unicode, Blake3}.

Definition validate_path (path : string) : Result unit :=
  bail_if (MAX_TREE_DEPTH <? zlen (split slash path)) "canonical tree path exceeds directory levels" ;;
  bail_if (negb (is_safe_rel_path path) || contains_char backslash path
           || existsb (λ part, bool_decide (part = "") || bool_decide (part = ".")) (split slash path))
    "invalid canonical tree path".

Definition insert_state (st : list Node * TreeBudget) (state : FileState) : Result (list Node * TreeBudget) :=
  let '(nodes, budget) := st in
  validate_path (fs_path state) ;;
  bail_if (negb (fs_mode state =? 0) && negb (fs_mode state =? EXECUTABLE_MODE)) "invalid portable mode" ;;
  insert_parts "path traverses file component" "canonical tree file node disappeared"
    "canonical tree file parent disappeared" (file_leaf state) (split slash (fs_path state)) 0 nodes budget.

Definition insert_conflict (st : list Node * TreeBudget) (conflict : ConcurrentEdit)
    : Result (list Node * TreeBudget) :=
  let '(nodes, budget) := st in
  validate_path (ce_path conflict) ;;
  try_fold (λ _ leg, bail_if (negb (bool_decide (fs_path leg = ce_path conflict)))
                       "conflict path does not match leg path") tt
    (flatten_legs [ce_base conflict; ce_ours conflict; ce_theirs conflict]) ;;
  r ← or_context (representative conflict) "conflict has no content leg";
  insert_parts "conflict path traverses file component" "canonical tree conflict node disappeared"
    "canonical tree conflict parent disappeared" (conflict_leaf conflict r)
    (split slash (ce_path conflict)) 0 nodes budget.

(** ** Building trees *)
Definition file_entry (name : string) (state : FileState) : TreeEntry :=
  mkTreeEntry name File (fs_hash state) (fs_size state) (fs_mode state).

Definition dir_entry (hashes : list (option string)) (d : string * nat) : Result TreeEntry :=
  hash ← or_context (hashes !! d.2 ≫= id) "canonical tree child was not built";
  Ok (mkTreeEntry d.1 Dir hash 0 0).

(** The tree of one node, from the hashes of its children. *)
Definition node_tree (hashes : list (option string)) (node : Node) : Result Tree :=
  directories ← try_map (dir_entry hashes) (btree_entries (nd_directories node));
  let tree := mkTree (sort_by te_name
    (((λ '(name, state), file_entry name state) <$> btree_entries (nd_files node))
     ++ btree_values (nd_conflicts node) ++ directories)) in
  validate_tree tree ;;
  Ok tree.

(** [while let Some(node) = nodes.pop()]: the nodes are given last first; the calls of
    [trees.insert] are collected in order. *)
Fixpoint build_loop (popped : list Node) (hashes : list (option string)) (inserts : list (string * Tree))
    : Result (list (option string) * list (string * Tree)) :=
  match popped with
  | [] => Ok (hashes, inserts)
  | node :: nodes =>
      let index := length nodes in
      tree ← node_tree hashes node;
      let hash := Tree_id tree in
      build_loop nodes (<[index := Some hash]> hashes) (inserts ++ [(hash, tree)])
  end.

Definition build_node (nodes : list Node) : Result (string * list (string * Tree)) :=
  '(hashes, inserts) ← build_loop (reverse nodes) (replicate (length nodes) None) [];
  root ← or_context (hashes !! 0%nat ≫= id) "canonical tree root was not built";
  Ok (root, inserts).

(** One iteration over [files]: an entry of the map is its key and its state. *)
Definition insert_file (st : list Node * TreeBudget) (kv : string * FileState) : Result (list Node * TreeBudget) :=
  let '(nodes, budget) := st in
  let '(path, state) := kv in
  bail_if (negb (bool_decide (path = fs_path state))) "flat tree key does not match embedded path" ;;
  validate_path (fs_path state) ;;
  if fs_deleted state then Ok (nodes, budget) else
  budget ← add_path (fs_path state) budget;
  budget ← add_work (zlen (split slash (fs_path state))) budget;
  insert_state (nodes, budget) state.

Definition overlay_conflict (st : list Node * TreeBudget) (conflict : ConcurrentEdit)
    : Result (list Node * TreeBudget) :=
  let '(nodes, budget) := st in
  budget ← add_path (ce_path conflict) budget;
  budget ← add_work (zlen (split slash (ce_path conflict))) budget;
  insert_conflict (nodes, budget) conflict.

(** The nodes after both loops.  [files] lists the entries of the [HashMap] in the order the
    iteration visits them. *)
Definition flat_nodes (files : list (string * FileState)) (conflicts : list ConcurrentEdit)
    : Result (list Node * TreeBudget) :=
  st ← try_fold insert_file ([Node_default], TreeBudget_new) files;
  try_fold overlay_conflict st conflicts.

(** The root and the sequence of [trees.insert] calls. *)
Definition flat_inserts (files : list (string * FileState)) (conflicts : list ConcurrentEdit)
    : Result (string * list (string * Tree)) :=
  '(nodes, _) ← flat_nodes files conflicts;
  build_node nodes.

Definition flat_to_tree_with_conflicts `{HashOrder} (files : gmap string FileState)
    (conflicts : list ConcurrentEdit) : Result TreeBundle :=
  '(root, inserts) ← flat_inserts (hash_iter files) conflicts;
  Ok (mkTreeBundle root (hash_collect inserts)).

Definition flat_to_tree `{HashOrder} (files : gmap string FileState) : Result TreeBundle :=
  flat_to_tree_with_conflicts files [].
End unicode.
