(* ===== verification/ConvertProps.v ===== *)
(** * The content of built trees

    The node vector of [flat_to_tree_with_conflicts] is a forest of indices; [Forest] names
    the directory each index stands for, [content] reads the vector as a map from component
    lists to leaf entries.  Insertion changes that map at one path, [build_node] stores trees
    whose [tree_lookup] is that map. *)
From Stdlib Require Import ZArith Lia Ascii Strings.Byte.
From stdpp Require Import sorting numbers strings gmap list_numbers list options.
From S2P Require Import Prelude Text Paths Model Codec CodecProps Lookup Convert.

Local Open Scope Z_scope.

(** ** The forest of nodes *)

(** Conflict entries carry the name they are stored under and hide no file. *)
Definition conflicts_ok (nd : Node) : Prop :=
  ∀ n e, nd_conflicts nd !! n = Some e → te_name e = n ∧ nd_files nd !! n = None ∧ is_dir e = false.

Record Forest (nodes : list Node) (paths : list (list string)) : Prop := {
  fo_len : length paths = length nodes;
  fo_nodup : NoDup paths;
  fo_root : paths !! 0%nat = Some [];
  fo_child i nd n c : nodes !! i = Some nd → nd_directories nd !! n = Some c →
    ∃ q, paths !! i = Some q ∧ paths !! c = Some (q ++ [n]);
  fo_parent c q n : paths !! c = Some (q ++ [n]) →
    ∃ i nd, paths !! i = Some q ∧ nodes !! i = Some nd ∧ nd_directories nd !! n = Some c;
  fo_conflicts i nd : nodes !! i = Some nd → conflicts_ok nd;
}.

Definition node_leaf (nd : Node) (n : string) : option TreeEntry :=
  match nd_files nd !! n with Some s => Some (file_entry n s) | None => nd_conflicts nd !! n end.

Definition content (nodes : list Node) (paths : list (list string)) (full : list string) (e : TreeEntry) : Prop :=
  ∃ i q n nd, full = q ++ [n] ∧ paths !! i = Some q ∧ nodes !! i = Some nd ∧ node_leaf nd n = Some e.

Lemma forest_index nodes paths i j q :
  Forest nodes paths → paths !! i = Some q → paths !! j = Some q → i = j.
Proof. intros HF Hi Hj. by eapply NoDup_lookup; [apply HF|..]. Qed.

Lemma forest_initial : Forest [Node_default] [[]].
Proof.
  constructor; [done|apply NoDup_singleton|done| | |].
  - intros [|i] nd n c Hi Hd; by simplify_list_eq.
  - intros [|c] q n Hc; simplify_list_eq. by destruct q.
  - intros [|i] nd Hi n e He; by simplify_list_eq.
Qed.

Lemma content_initial full e : ¬ content [Node_default] [[]] full e.
Proof.
  intros ([|i] & q & n & nd & -> & Hq & Hn & Hl); by simplify_list_eq.
Qed.

(** Giving node [i] a fresh child directory [part]. *)
Definition with_child (nodes : list Node) (i : nat) (nd : Node) (part : string) : list Node :=
  <[i := mkNode (nd_files nd) (nd_conflicts nd) (<[part := length nodes]> (nd_directories nd))]>
    (nodes ++ [Node_default]).

Lemma with_child_lookup nodes i nd part j nd' :
  nodes !! i = Some nd → with_child nodes i nd part !! j = Some nd' →
  (j = i ∧ nd' = mkNode (nd_files nd) (nd_conflicts nd) (<[part := length nodes]> (nd_directories nd))) ∨
  (j ≠ i ∧ nodes !! j = Some nd') ∨ (j = length nodes ∧ nd' = Node_default).
Proof.
  intros Hi Hj. unfold with_child in Hj. pose proof (lookup_lt_Some _ _ _ Hi).
  apply list_lookup_insert_Some in Hj as [(-> & <- & _)|[Hne Hj]]; [by left|right].
  apply lookup_app_Some in Hj as [Hj|[Hl Hj]]; [by left|right].
  apply list_lookup_singleton_Some in Hj as [Hz <-]. split; [lia|done].
Qed.

Lemma with_child_forest nodes paths i nd part q :
  Forest nodes paths → paths !! i = Some q → nodes !! i = Some nd → nd_directories nd !! part = None →
  Forest (with_child nodes i nd part) (paths ++ [q ++ [part]]).
Proof.
  intros HF Hq Hi Hd. pose proof HF as [Hlen Hnd Hr Hc Hp Hcf]. pose proof (lookup_lt_Some _ _ _ Hi).
  assert (∀ j p, paths !! j = Some p → (paths ++ [q ++ [part]]) !! j = Some p) as Hext.
  { intros j p Hj. by apply lookup_app_l_Some. }
  assert ((paths ++ [q ++ [part]]) !! length nodes = Some (q ++ [part])) as Hnew.
  { by rewrite <-Hlen, lookup_app_r, Nat.sub_diag. }
  constructor.
  - unfold with_child. rewrite length_insert, !length_app. simpl. lia.
  - apply NoDup_app. split_and!; [done| |apply NoDup_singleton].
    intros p Hin ->%list_elem_of_singleton. apply list_elem_of_lookup in Hin as [c Hc'].
    destruct (Hp _ _ _ Hc') as (j & nd' & Hj & Hn & Hdir).
    assert (j = i) as -> by (by eapply forest_index). by simplify_eq.
  - by apply Hext.
  - intros j nd' n c Hj Hdir. apply with_child_lookup in Hj as [[-> ->]|[[Hne Hj]|[-> ->]]]; [| | |done].
    + simpl in Hdir. destruct (decide (n = part)) as [->|Hne].
      * rewrite lookup_insert_eq in Hdir. simplify_eq. eauto.
      * rewrite lookup_insert_ne in Hdir by done. destruct (Hc _ _ _ _ Hi Hdir) as (? & ? & ?). eauto.
    + destruct (Hc _ _ _ _ Hj Hdir) as (? & ? & ?). eauto.
    + done.
  - intros c p n Hc'. unfold with_child. apply lookup_app_Some in Hc' as [Hc'|[Hl Hc']].
    + destruct (Hp _ _ _ Hc') as (j & nd' & Hj & Hn & Hdir). exists j.
      destruct (decide (j = i)) as [->|Hne].
      * simplify_eq. eexists. split; [by apply Hext|]. rewrite list_lookup_insert_eq
          by (rewrite length_app; lia). split; [done|]. simpl. rewrite lookup_insert_ne; [done|]. congruence.
      * exists nd'. split; [by apply Hext|]. rewrite list_lookup_insert_ne by done. split; [|done].
        by apply lookup_app_l_Some.
    + apply list_lookup_singleton_Some in Hc' as [Hz Heq]. apply app_inj_tail in Heq as [-> ->].
      exists i. eexists. split; [by apply Hext|]. rewrite list_lookup_insert_eq by (rewrite length_app; lia).
      split; [done|]. simpl. rewrite lookup_insert_eq. f_equal. lia.
  - intros j nd' Hj. apply with_child_lookup in Hj as [[-> ->]|[[Hne Hj]|[-> ->]]]; [| | |done].
    + apply (Hcf _ _ Hi).
    + by apply (Hcf j).
    + intros n e He. done.
Qed.

Lemma with_child_content nodes paths i nd part q full e :
  Forest nodes paths → paths !! i = Some q → nodes !! i = Some nd →
  content (with_child nodes i nd part) (paths ++ [q ++ [part]]) full e ↔ content nodes paths full e.
Proof.
  intros HF Hq Hi. pose proof (fo_len _ _ HF) as Hlen. pose proof (lookup_lt_Some _ _ _ Hi). split.
  - intros (j & p & n & nd' & -> & Hp & Hn & Hl).
    assert (j ≠ length nodes → paths !! j = Some p) as Hj.
    { intros Hne. apply lookup_app_Some in Hp as [?|[Hge Hp]]; [done|].
      apply list_lookup_singleton_Some in Hp as [Hz _]. lia. }
    apply with_child_lookup in Hn as [[-> ->]|[[Hne Hn]|[-> ->]]]; [| | |done].
    + exists i, p, n, nd. split_and!; try done. apply Hj. lia.
    + exists j, p, n, nd'. split_and!; try done. apply Hj. apply lookup_lt_Some in Hn. lia.
    + done.
  - intros (j & p & n & nd' & -> & Hp & Hn & Hl). exists j, p, n. unfold with_child.
    destruct (decide (j = i)) as [->|Hne].
    + simplify_eq. eexists. split; [done|]. split; [by apply lookup_app_l_Some|].
      rewrite list_lookup_insert_eq by (rewrite length_app; lia). done.
    + exists nd'. split; [done|]. split; [by apply lookup_app_l_Some|].
      rewrite list_lookup_insert_ne by done. split; [by apply lookup_app_l_Some|done].
Qed.

(** Replacing the leaf [part] of node [i]. *)
Record leaf_update (nd nd' : Node) (part : string) (e : TreeEntry) : Prop := {
  lu_dirs : nd_directories nd' = nd_directories nd;
  lu_free : nd_directories nd !! part = None;
  lu_here : node_leaf nd' part = Some e;
  lu_other n : n ≠ part → node_leaf nd' n = node_leaf nd n;
  lu_over e' : node_leaf nd part = Some e' → te_kind e' = File;
  lu_conflicts : conflicts_ok nd → conflicts_ok nd';
}.

Lemma insert_leaf_forest nodes paths i nd nd' part e :
  Forest nodes paths → nodes !! i = Some nd → leaf_update nd nd' part e → Forest (<[i := nd']> nodes) paths.
Proof.
  intros [Hlen Hnd Hr Hc Hp Hcs] Hi [Hdirs _ _ _ _ Hcf]. pose proof (lookup_lt_Some _ _ _ Hi). constructor; try done.
  - by rewrite length_insert.
  - intros j x n c [(-> & <- & _)|[Hne Hj]]%list_lookup_insert_Some Hdir; [rewrite Hdirs in Hdir|]; eauto.
  - intros c q n Hc'. destruct (Hp _ _ _ Hc') as (j & x & Hj & Hx & Hdir). exists j.
    destruct (decide (j = i)) as [->|Hne].
    + simplify_eq. exists nd'. rewrite list_lookup_insert_eq by done. by rewrite Hdirs.
    + exists x. by rewrite list_lookup_insert_ne.
  - intros j x [(-> & <- & _)|[Hne Hj]]%list_lookup_insert_Some; eauto.
Qed.

Lemma insert_leaf_content nodes paths i nd nd' q part e full e' :
  Forest nodes paths → nodes !! i = Some nd → paths !! i = Some q → leaf_update nd nd' part e →
  content (<[i := nd']> nodes) paths full e' ↔
  (full = q ++ [part] ∧ e' = e) ∨ (full ≠ q ++ [part] ∧ content nodes paths full e').
Proof.
  intros HF Hi Hq [_ _ Hhere Hother _ _]. pose proof (lookup_lt_Some _ _ _ Hi). split.
  - intros (j & p & n & x & -> & Hp & [(-> & <- & _)|[Hne Hx]]%list_lookup_insert_Some & Hl).
    + simplify_eq. destruct (decide (n = part)) as [->|Hn]; [left; naive_solver|right].
      split; [by intros [_ ?]%app_inj_tail|]. eexists _, _, n, nd. by rewrite <-Hother.
    + right. split; [|by exists j, p, n, x]. intros [-> ->]%app_inj_tail. by destruct Hne; eapply forest_index.
  - intros [[-> ->]|(Hne & j & p & n & x & -> & Hp & Hx & Hl)].
    + exists i, q, part, nd'. by rewrite list_lookup_insert_eq.
    + exists j, p, n. destruct (decide (j = i)) as [->|Hji].
      * simplify_eq. exists nd'. rewrite list_lookup_insert_eq by done. split_and!; try done.
        rewrite Hother; [done|]. by intros ->.
      * exists x. by rewrite list_lookup_insert_ne.
Qed.

(** What [insert_parts] does to the forest and its content. *)
Record inserted (nodes : list Node) (paths : list (list string)) (full : list string) (e : TreeEntry)
    (nodes' : list Node) (paths' : list (list string)) : Prop := {
  in_forest : Forest nodes' paths';
  in_content full' e' : content nodes' paths' full' e' ↔
    (full' = full ∧ e' = e) ∨ (full' ≠ full ∧ content nodes paths full' e');
  in_over e' : content nodes paths full e' → te_kind e' = File;
  in_old p : p ∈ paths → p ∈ paths';
  in_new p : p ∈ paths' → p ∈ paths ∨ ∃ r, r ≠ [] ∧ full = p ++ r;
}.

Section insert_parts.
Context (m1 m2 m3 : string) (leaf : string → Node → TreeBudget → Result (Node * TreeBudget)).
Context (entry : string → TreeEntry).
Context (Hleaf : ∀ part nd b nd' b', leaf part nd b = Ok (nd', b') → leaf_update nd nd' part (entry part)).

Lemma insert_parts_spec parts i nodes b nodes' b' paths q :
  insert_parts m1 m2 m3 leaf parts i nodes b = Ok (nodes', b') → parts ≠ [] →
  Forest nodes paths → paths !! i = Some q →
  ∃ paths', inserted nodes paths (q ++ parts) (entry (default "" (last parts))) nodes' paths'.
Proof using Hleaf.
  revert i nodes b paths q. induction parts as [|part rest IH]; intros i nodes b paths q Hins Hne HF Hq; [done|].
  destruct rest as [|part2 rest].
  - simpl in Hins. inv_ok. exists paths.
    rename select (leaf _ _ _ = _) into Hl. apply Hleaf in Hl. constructor; [by eapply insert_leaf_forest| | |by auto..].
    + intros. by eapply insert_leaf_content.
    + intros e' (j & q' & part' & nd & [<- <-]%app_inj_tail & Hp & Hn & He).
      assert (j = i) as -> by (by eapply forest_index). simplify_eq. by eapply lu_over.
  - cbn [insert_parts] in Hins. inv_ok. match goal with H : nodes !! i = Some ?x |- _ => rename H into Hi, x into nd end.
    destruct (nd_directories nd !! part) as [c|] eqn:Hd.
    + destruct (fo_child _ _ HF _ _ _ _ Hi Hd) as (q' & Hq' & Hc). simplify_eq.
      destruct (IH _ _ _ _ _ Hins ltac:(done) HF Hc) as [paths' Hin]. exists paths'.
      by rewrite <-(assoc_L (++)) in Hin.
    + inv_ok. rename select ((nodes ++ _) !! i = _) into Hi'.
      rewrite lookup_app_l in Hi' by (by eapply lookup_lt_Some). simplify_eq.
      pose proof (with_child_forest _ _ _ _ part _ HF Hq Hi Hd) as HF'.
      destruct (IH (length nodes) (with_child nodes i nd part) _ _ _ Hins ltac:(done) HF' ltac:(
        by rewrite <-(fo_len _ _ HF), lookup_app_r, Nat.sub_diag)) as [paths' Hin].
      rewrite <-(assoc_L (++)) in Hin. destruct Hin as [H1 H2 H5 H3 H4]. exists paths'. constructor; [done|..].
      * intros full' e'. rewrite H2. by rewrite (with_child_content _ _ _ _ _ _ _ _ HF Hq Hi).
      * intros e' He. apply H5. by rewrite (with_child_content _ _ _ _ _ _ _ _ HF Hq Hi).
      * intros p Hp. apply H3. set_solver.
      * intros p [[Hp| ->%list_elem_of_singleton]%elem_of_app|?]%H4; [by left| |by right]. right.
        exists (part2 :: rest). split; [done|]. by rewrite <-(assoc_L (++)).
Qed.
End insert_parts.

Lemma has_key_false {A} (m : gmap string A) k : has_key m k = false ↔ m !! k = None.
Proof. unfold has_key. rewrite bool_decide_eq_false, eq_None_not_Some. done. Qed.

Lemma file_leaf_update s part nd b nd' b' :
  file_leaf s part nd b = Ok (nd', b') → leaf_update nd nd' part (file_entry part s).
Proof.
  unfold file_leaf. intros Hl. inv_ok. rename select (_ || _ = false) into Hk.
  apply orb_false_iff in Hk as [Hd%has_key_false Hc%has_key_false].
  constructor; simpl; [done|done|unfold node_leaf; simpl; by rewrite lookup_insert_eq| | |].
  - intros n Hn. unfold node_leaf. simpl. by rewrite lookup_insert_ne.
  - intros e'. unfold node_leaf. rewrite Hc. by destruct (nd_files nd !! part); intros [= <-].
  - intros Hok n e He. simpl in *. destruct (decide (n = part)) as [->|Hn]; [congruence|].
    rewrite lookup_insert_ne by done. by apply Hok.
Qed.

Lemma conflict_leaf_update c r part nd b nd' b' :
  conflict_leaf c r part nd b = Ok (nd', b') → leaf_update nd nd' part (conflict_entry part c r).
Proof.
  unfold conflict_leaf. intros Hl. inv_ok. rename select (_ || _ = false) into Hk.
  apply orb_false_iff in Hk as [Hd%has_key_false Hc%has_key_false].
  constructor; simpl; [done|done|unfold node_leaf; simpl; by rewrite lookup_delete_eq, lookup_insert_eq| | |].
  - intros n Hn. unfold node_leaf. simpl. by rewrite lookup_delete_ne, lookup_insert_ne.
  - intros e'. unfold node_leaf. rewrite Hc. by destruct (nd_files nd !! part); intros [= <-].
  - intros Hok n e He. simpl in *. destruct (decide (n = part)) as [->|Hn].
    + rewrite lookup_insert_eq in He. simplify_eq. by rewrite lookup_delete_eq.
    + rewrite lookup_insert_ne in He by done. rewrite lookup_delete_ne by done. by apply Hok.
Qed.

(** ** The content after both loops *)
Definition last_component (path : string) : string := default "" (last (split slash path)).

(** Every directory but the root leads to some content. *)
Definition no_empty_dirs (nodes : list Node) (paths : list (list string)) : Prop :=
  ∀ p, p ∈ paths → p ≠ [] → ∃ r e, r ≠ [] ∧ content nodes paths (p ++ r) e.

Definition file_content (files : list (string * FileState)) (full : list string) (e : TreeEntry) : Prop :=
  ∃ p s, (p, s) ∈ files ∧ fs_deleted s = false ∧ full = split slash p ∧ e = file_entry (last_component p) s.

Definition conflict_content (conflicts : list ConcurrentEdit) (full : list string) (e : TreeEntry) : Prop :=
  ∃ c r, c ∈ conflicts ∧ full = split slash (ce_path c) ∧ representative c = Some r ∧
    e = conflict_entry (last_component (ce_path c)) c r.

Definition flat_content files conflicts full e : Prop :=
  conflict_content conflicts full e ∨
  (file_content files full e ∧ ∀ c, c ∈ conflicts → split slash (ce_path c) ≠ full).

Lemma inserted_no_empty nodes paths full e nodes' paths' :
  inserted nodes paths full e nodes' paths' → no_empty_dirs nodes paths → no_empty_dirs nodes' paths'.
Proof.
  intros [HF Hc _ Ho Hn] Hne p Hp Hp0. destruct (Hn p Hp) as [Hold|(r & Hr & ->)].
  - destruct (Hne p Hold Hp0) as (r & e1 & Hr & He1). destruct (decide (p ++ r = full)) as [Heq|Hf].
    + exists r, e. split; [done|]. apply Hc. by left.
    + exists r, e1. split; [done|]. apply Hc. by right.
  - exists r, e. split; [done|]. apply Hc. by left.
Qed.

(** The vector [nodes] holds exactly the leaves [R]. *)
Definition represents (nodes : list Node) (R : list string → TreeEntry → Prop) : Prop :=
  ∃ paths, Forest nodes paths ∧ no_empty_dirs nodes paths ∧ ∀ full e, content nodes paths full e ↔ R full e.

Lemma represents_iff nodes R R' : (∀ full e, R full e ↔ R' full e) → represents nodes R → represents nodes R'.
Proof. intros Hiff (paths & ? & ? & Hc). exists paths. setoid_rewrite Hc. auto. Qed.

Lemma represents_initial : represents [Node_default] (λ _ _, False).
Proof.
  exists [[]]. split; [apply forest_initial|]. split.
  - by intros p ->%list_elem_of_singleton.
  - intros full e. split; [apply content_initial|done].
Qed.

Section unicode.
Context `{Unicode, Blake3}.

(** One insertion overrides the content at its path, which held at most a file. *)
Lemma insert_parts_represents m1 m2 m3 leaf entry parts nodes b nodes' b' R :
  (∀ part nd b nd' b', leaf part nd b = Ok (nd', b') → leaf_update nd nd' part (entry part)) →
  insert_parts m1 m2 m3 leaf parts 0 nodes b = Ok (nodes', b') → parts ≠ [] → represents nodes R →
  (∀ e, R parts e → te_kind e = File) ∧
  represents nodes' (λ full e, (full = parts ∧ e = entry (default "" (last parts))) ∨ (full ≠ parts ∧ R full e)).
Proof.
  intros Hleaf Hins Hne (paths & HF & Hd & Hc).
  destruct (insert_parts_spec _ _ _ _ entry Hleaf _ _ _ _ _ _ _ _ Hins Hne HF (fo_root _ _ HF)) as [paths' Hin].
  simpl in Hin. pose proof Hin as [HF' Hc' Hov _ _]. setoid_rewrite Hc in Hc'. setoid_rewrite Hc in Hov.
  split; [done|]. exists paths'. split_and!; [done|by eapply inserted_no_empty|done].
Qed.

Lemma insert_file_represents nodes b p s nodes' b' R :
  insert_file (nodes, b) (p, s) = Ok (nodes', b') → represents nodes R →
  p = fs_path s ∧ validate_path p = Ok tt ∧
  represents nodes' (if fs_deleted s then R else
    λ full e, (full = split slash p ∧ e = file_entry (last_component p) s) ∨ (full ≠ split slash p ∧ R full e)).
Proof.
  unfold insert_file. intros Hi HR. inv_ok. to_prop. subst. split; [done|]. split; [done|].
  destruct (fs_deleted s); inv_ok; [done|]. unfold insert_state in Hi. inv_ok.
  by eapply (insert_parts_represents _ _ _ _ (λ part, file_entry part s));
    [intros ?????; apply file_leaf_update|exact Hi|apply split_not_nil|].
Qed.

Lemma overlay_represents nodes b c nodes' b' R :
  overlay_conflict (nodes, b) c = Ok (nodes', b') → represents nodes R →
  ∃ r, representative c = Some r ∧ validate_path (ce_path c) = Ok tt ∧
  (∀ e, R (split slash (ce_path c)) e → te_kind e = File) ∧
  represents nodes' (λ full e,
    (full = split slash (ce_path c) ∧ e = conflict_entry (last_component (ce_path c)) c r)
    ∨ (full ≠ split slash (ce_path c) ∧ R full e)).
Proof.
  unfold overlay_conflict, insert_conflict. intros Hi HR. inv_ok. eexists. do 2 (split; [done|]).
  eapply (insert_parts_represents _ _ _ _ (λ part, conflict_entry part c _));
    [intros ?????; apply conflict_leaf_update|done|apply split_not_nil|done].
Qed.

Lemma files_represent files nodes b :
  NoDup files.*1 → try_fold insert_file ([Node_default], TreeBudget_new) files = Ok (nodes, b) →
  represents nodes (file_content files).
Proof.
  revert nodes b. induction files as [|[p s] files IH] using rev_ind; intros nodes b Hnd Hf.
  { simpl in Hf. inv_ok. eapply represents_iff, represents_initial.
    intros full e. split; [done|]. by intros (? & ? & ?%elem_of_nil & _). }
  rewrite fmap_app, NoDup_app in Hnd. destruct Hnd as (Hnd & Hni & _).
  rewrite try_fold_app in Hf. simpl in Hf. inv_ok. destruct x as [nodes1 b1].
  rename select (insert_file _ _ = _) into Hins.
  eapply insert_file_represents in Hins as (-> & _ & HR); [|by eapply IH].
  eapply represents_iff; [|exact HR]. intros full e. unfold file_content. setoid_rewrite elem_of_app.
  destruct (fs_deleted s) eqn:Hdel.
  - split; [naive_solver|]. intros (p & s' & [?|[= -> ->]%list_elem_of_singleton] & Hl & ?); [by eauto|congruence].
  - split.
    + intros [[-> ->]|(Hne & p & s' & Hin & Hrest)]; [|naive_solver].
      eexists _, s. split; [right; by apply list_elem_of_singleton|]. done.
    + intros (p & s' & [Hin|[= -> ->]%list_elem_of_singleton] & Hl & -> & ->); [|by left].
      right. split; [|naive_solver]. intros Heq%split_inj. subst.
      apply (Hni (fs_path s)); [|simpl; by apply list_elem_of_singleton].
      by apply (list_elem_of_fmap_2 fst) in Hin.
Qed.

Lemma conflicts_represent files conflicts st nodes b :
  represents st.1 (file_content files) → try_fold overlay_conflict st conflicts = Ok (nodes, b) →
  NoDup (ce_path <$> conflicts) ∧ Forall (λ c, is_Some (representative c)) conflicts ∧
  represents nodes (flat_content files conflicts).
Proof.
  intros HR. revert nodes b. induction conflicts as [|c l IH] using rev_ind; intros nodes b Hf.
  { simpl in Hf. inv_ok. do 2 (split; [constructor|]). eapply represents_iff, HR.
    unfold flat_content, conflict_content. intros full e.
    split; [intros ?; right; set_solver|]. intros [(? & ? & ?%elem_of_nil & _)|[? _]]; done. }
  rewrite try_fold_app in Hf. simpl in Hf. inv_ok. destruct x as [nodes1 b1].
  destruct (IH _ _ ltac:(done)) as (Hnd & Hreps & HR1). clear IH.
  rename select (overlay_conflict _ _ = _) into Hins.
  eapply overlay_represents in Hins as (r & Hr & _ & Hov & HR2); [|exact HR1].
  assert (∀ c', c' ∈ l → split slash (ce_path c') ≠ split slash (ce_path c)) as Hfresh.
  { intros c' Hc' Heq. rewrite Forall_forall in Hreps. destruct (Hreps c' Hc') as [r' Hr'].
    assert (te_kind (conflict_entry (last_component (ce_path c')) c' r') = File); [|done].
    apply Hov. left. exists c', r'. by rewrite <-Heq. }
  split_and!; [| |eapply represents_iff; [|exact HR2]].
  - rewrite fmap_app, NoDup_app. split_and!; [done| |apply NoDup_singleton].
    intros p (c' & -> & Hc')%list_elem_of_fmap Hp. apply list_elem_of_singleton in Hp.
    by apply (Hfresh c' Hc'); rewrite Hp.
  - apply Forall_app. split; [done|]. by repeat econstructor.
  - intros full e. unfold flat_content, conflict_content. setoid_rewrite elem_of_app.
    setoid_rewrite list_elem_of_singleton. split.
    + intros [[-> ->]|(Hne & [(c' & r' & ?)|[Hf Hno]])].
      * left. exists c, r. auto.
      * left. exists c', r'. naive_solver.
      * right. split; [done|]. intros c' [?| ->]; [by apply Hno|done].
    + intros [(c' & r' & [Hc'| ->] & -> & Hr' & ->)|[Hf Hno]].
      * right. split; [by apply Hfresh|]. left. by exists c', r'.
      * simplify_eq. by left.
      * right. split; [intros ->; by apply (Hno c); [right|]|]. right. split; [done|]. intros c' ?. apply Hno. by left.
Qed.

Lemma flat_nodes_represent files conflicts nodes b :
  NoDup files.*1 → flat_nodes files conflicts = Ok (nodes, b) →
  NoDup (ce_path <$> conflicts) ∧ Forall (λ c, is_Some (representative c)) conflicts ∧
  represents nodes (flat_content files conflicts).
Proof.
  unfold flat_nodes. intros Hnd Hf. inv_ok. destruct x as [nodes1 b1].
  eapply conflicts_represent; [|exact Hf]. by eapply files_represent.
Qed.

(** ** Building *)
Definition hashes_extend (hs hs' : list (option string)) : Prop :=
  ∀ i h, hs !! i = Some (Some h) → hs' !! i = Some (Some h).

Lemma dir_entry_Ok hs d e :
  dir_entry hs d = Ok e ↔ ∃ h, hs !! d.2 = Some (Some h) ∧ e = mkTreeEntry d.1 Dir h 0 0.
Proof.
  unfold dir_entry. rewrite bind_Ok. setoid_rewrite or_context_Ok. split.
  - intros (h & Hh & [= <-]). exists h. by destruct (hs !! d.2) as [[?|]|]; simplify_eq/=.
  - intros (h & Hh & ->). exists h. by rewrite Hh.
Qed.

Lemma node_tree_extend hs hs' nd t : hashes_extend hs hs' → node_tree hs nd = Ok t → node_tree hs' nd = Ok t.
Proof.
  intros Hext Ht. unfold node_tree in *. apply bind_Ok in Ht as (ds & Hds & Ht).
  rewrite (bind_run _ _ ds); [done|]. apply try_map_Ok in Hds. apply try_map_Ok.
  eapply Forall2_impl; [exact Hds|]. intros d e (h & Hh & ->)%dir_entry_Ok. apply dir_entry_Ok. eauto.
Qed.

(** Node [i] has been turned into tree [t]. *)
Definition built (hashes : list (option string)) (inserts : list (string * Tree)) (i : nat) (nd : Node) : Prop :=
  ∃ t, node_tree hashes nd = Ok t ∧ hashes !! i = Some (Some (Tree_id t)) ∧ (Tree_id t, t) ∈ inserts.

Lemma build_loop_spec popped hs ins hs' ins' :
  build_loop popped hs ins = Ok (hs', ins') → (length popped ≤ length hs)%nat →
  (∀ i, (i < length popped)%nat → hs !! i = Some None) →
  hashes_extend hs hs' ∧ (∀ kt, kt ∈ ins → kt ∈ ins') ∧
  (∀ i nd, reverse popped !! i = Some nd → built hs' ins' i nd) ∧
  ∀ kt, kt ∈ ins' → kt ∈ ins ∨ ∃ i nd, reverse popped !! i = Some nd ∧ node_tree hs' nd = Ok kt.2.
Proof.
  revert hs ins. induction popped as [|nd0 popped IH]; intros hs ins Hb Hlen Hnone; simpl in Hb.
  { inv_ok. split_and!; [by intros ??|done| |by auto]. intros i nd Hi. by rewrite reverse_nil, lookup_nil in Hi. }
  inv_ok. rename select (node_tree _ _ = _) into Ht. simpl in *.
  destruct (IH _ _ Hb) as (Hext & Hins & Hall & Horig).
  { rewrite length_insert. lia. }
  { intros i Hi. rewrite list_lookup_insert_ne by lia. apply Hnone. lia. }
  assert (hashes_extend hs hs') as Hext'.
  { intros i h Hi. apply Hext. rewrite list_lookup_insert_ne; [done|]. intros <-.
    rewrite Hnone in Hi by lia. done. }
  split_and!; [done|set_solver| |].
  - intros i nd Hi. rewrite reverse_cons in Hi. apply lookup_app_Some in Hi as [Hi|[Hge Hi]]; [by apply Hall|].
    apply list_lookup_singleton_Some in Hi as [Hz <-]. rewrite length_reverse in *.
    assert (i = length popped) as -> by lia.
    eexists. split; [by eapply node_tree_extend|]. split.
    + apply Hext. apply list_lookup_insert_eq. lia.
    + apply Hins. set_solver.
  - intros kt Hkt. setoid_rewrite reverse_cons.
    destruct (Horig kt Hkt) as [[?| ->%list_elem_of_singleton]%elem_of_app|(i & nd & Hi & Hn)]; [by left|right..].
    + exists (length popped), nd0. split; [|by eapply node_tree_extend].
      by rewrite lookup_app_r, length_reverse, Nat.sub_diag by (by rewrite length_reverse).
    + exists i, nd. split; [by apply lookup_app_l_Some|done].
Qed.

Lemma build_loop_inserts popped hs ins hs' ins' :
  build_loop popped hs ins = Ok (hs', ins') →
  Forall (λ kt, kt.1 = Tree_id kt.2 ∧ validate_tree kt.2 = Ok tt) ins →
  Forall (λ kt, kt.1 = Tree_id kt.2 ∧ validate_tree kt.2 = Ok tt) ins'.
Proof.
  revert hs ins. induction popped as [|nd0 popped IH]; intros hs ins Hb Hall; simpl in Hb; inv_ok; [done|].
  eapply IH; [exact Hb|]. apply Forall_app. split; [done|]. constructor; [|constructor]. split; [done|].
  rename select (node_tree _ _ = _) into Ht. unfold node_tree in Ht. by inv_ok.
Qed.

Lemma build_node_spec nodes root ins :
  build_node nodes = Ok (root, ins) →
  Forall (λ kt, kt.1 = Tree_id kt.2 ∧ validate_tree kt.2 = Ok tt) ins ∧
  ∃ hashes, hashes !! 0%nat = Some (Some root) ∧
    (∀ i nd, nodes !! i = Some nd → built hashes ins i nd) ∧
    ∀ kt, kt ∈ ins → ∃ i nd, nodes !! i = Some nd ∧ node_tree hashes nd = Ok kt.2.
Proof.
  unfold build_node. intros Hb. inv_ok. rename select (build_loop _ _ _ = _) into Hl.
  split; [by eapply build_loop_inserts|].
  rename select (_ ≫= id = Some _) into Hroot.
  match type of Hroot with ?hs !! _ ≫= _ = _ => exists hs end.
  split; [by destruct (_ !! 0%nat) as [[?|]|]; simplify_eq/=|].
  destruct (build_loop_spec _ _ _ _ _ Hl) as (_ & _ & Hall & Horig).
  - by rewrite length_reverse, length_replicate.
  - intros i Hi. rewrite length_reverse in Hi. by apply lookup_replicate.
  - rewrite reverse_involutive in Hall, Horig. split; [done|].
    intros kt [?%elem_of_nil|?]%Horig; done.
Qed.

Lemma node_tree_entries hs nd t e :
  node_tree hs nd = Ok t → conflicts_ok nd →
  e ∈ tr_entries t ↔ node_leaf nd (te_name e) = Some e ∨
    ∃ c h, nd_directories nd !! te_name e = Some c ∧ hs !! c = Some (Some h) ∧
      e = mkTreeEntry (te_name e) Dir h 0 0.
Proof.
  unfold node_tree. intros Ht Hcf. inv_ok. rename select (try_map _ _ = _) into Hds. apply try_map_Ok in Hds.
  simpl. rewrite sort_by_perm, !elem_of_app. unfold btree_values. rewrite !list_elem_of_fmap. split.
  - intros [([n s] & -> & Hf%elem_of_btree_entries)|[([n e'] & -> & Hc%elem_of_btree_entries)|Hd]].
    + left. unfold node_leaf. simpl. by rewrite Hf.
    + left. destruct (Hcf _ _ Hc) as (Hn & Hf & _). simpl in *. unfold node_leaf. subst. by rewrite Hf.
    + right. apply list_elem_of_lookup in Hd as [i Hi]. destruct (Forall2_lookup_r _ _ _ _ _ Hds Hi) as ([n c] & Hn & He).
      apply dir_entry_Ok in He as (h & Hh & ->). apply list_elem_of_lookup_2, elem_of_btree_entries in Hn. eauto.
  - unfold node_leaf. intros [Hl|(c & h & Hd & Hh & ->)].
    + destruct (nd_files nd !! te_name e) as [s|] eqn:Hf.
      * left. exists (te_name e, s). split; [congruence|]. by apply elem_of_btree_entries.
      * right. left. exists (te_name e, e). split; [done|]. by apply elem_of_btree_entries.
    + right. right. simpl in Hd. apply elem_of_btree_entries, list_elem_of_lookup in Hd as [i Hi].
      destruct (Forall2_lookup_l _ _ _ _ _ Hds Hi) as (e' & Hn & He).
      apply dir_entry_Ok in He as (h' & Hh' & ->). simplify_eq/=. by eapply list_elem_of_lookup_2.
Qed.

Lemma node_tree_valid hs nd t : node_tree hs nd = Ok t → tree_valid t.
Proof. unfold node_tree. intros Ht. inv_ok. by apply validate_tree_spec. Qed.

Lemma node_leaf_name nd n e : conflicts_ok nd → node_leaf nd n = Some e → te_name e = n ∧ is_dir e = false.
Proof.
  unfold node_leaf. intros Hok. destruct (nd_files nd !! n); [by intros [= <-]|].
  intros He. by destruct (Hok _ _ He) as (? & _ & ?).
Qed.

(** Directories are closed under taking prefixes. *)
Lemma forest_prefix nodes paths j q n mid :
  Forest nodes paths → paths !! j = Some (q ++ n :: mid) → ∃ c, paths !! c = Some (q ++ [n]).
Proof.
  intros HF. revert j. induction mid as [|m mid IH] using rev_ind; intros j Hj; [eauto|].
  rewrite app_comm_cons, (assoc_L (++)) in Hj. destruct (fo_parent _ _ HF _ _ _ Hj) as (i & nd & Hi & _).
  by apply (IH i).
Qed.

(** No two different trees are stored under one id. *)
Definition collision_free (inserts : list (string * Tree)) : Prop :=
  ∀ k t1 t2, (k, t1) ∈ inserts → (k, t2) ∈ inserts → t1 = t2.

Lemma collect_lookup ins k t : collision_free ins → (k, t) ∈ ins → hash_collect ins !! k = Some t.
Proof.
  intros Hcf Hin. destruct (proj2 (hash_collect_is_Some ins k)) as [t' Ht'].
  { by apply (list_elem_of_fmap_2 fst) in Hin. }
  rewrite Ht'. f_equal. eapply Hcf; [by apply hash_collect_Some|done].
Qed.

(** The stored trees read back as the content of the nodes. *)
Lemma built_lookup nodes paths hashes ins i q h rest e :
  Forest nodes paths → collision_free ins → (∀ i nd, nodes !! i = Some nd → built hashes ins i nd) →
  paths !! i = Some q → hashes !! i = Some (Some h) → rest ≠ [] →
  tree_lookup (fetch_from (hash_collect ins)) h rest = Some e ↔ content nodes paths (q ++ rest) e.
Proof.
  intros HF Hcol Hall. revert i q h. induction rest as [|n rest IH]; intros i q h Hi Hh Hne; [done|].
  assert (is_Some (nodes !! i)) as [nd Hnd].
  { apply lookup_lt_is_Some. rewrite <-(fo_len _ _ HF). by apply lookup_lt_Some in Hi. }
  destruct (Hall _ _ Hnd) as (t & Ht & Hh' & Hin). simplify_eq.
  pose proof (node_tree_valid _ _ _ Ht) as [_ _ _ Hnames _].
  assert (fetch_from (hash_collect ins) (Tree_id t) = Ok t) as Hfetch.
  { unfold fetch_from. by rewrite (collect_lookup ins _ t). }
  pose proof (λ e, node_tree_entries _ _ _ e Ht (fo_conflicts _ _ HF _ _ Hnd)) as Hent.
  split.
  - intros (t' & e' & Hf & He' & <- & Hcase)%tree_lookup_inv. rewrite Hfetch in Hf. simplify_eq.
    apply Hent in He' as He''. destruct Hcase as [(-> & -> & Hd)|(Hr & Hd & Hl)].
    + destruct He'' as [Hl|(c & h & ? & ? & Heq)]; [|by rewrite Heq in Hd].
      by exists i, q, (te_name e), nd.
    + destruct He'' as [Hleaf|(c & h & Hdir & Hc & Heq)].
      * exfalso. unfold node_leaf in Hleaf. destruct (nd_files nd !! _); [injection Hleaf as Heq; by rewrite <-Heq in Hd|].
        by apply (fo_conflicts _ _ HF _ _ Hnd) in Hleaf as (_ & _ & ?); congruence.
      * rewrite Heq in Hl. simpl in Hl. destruct (fo_child _ _ HF _ _ _ _ Hnd Hdir) as (q' & Hq' & Hc'). simplify_eq.
        apply (IH _ _ _ Hc' Hc Hr) in Hl. by rewrite <-(assoc_L (++)) in Hl.
  - intros (j & p & n' & nd' & Heq & Hp & Hn' & Hleaf). destruct (decide (rest = [])) as [->|Hr].
    + apply app_inj_tail in Heq as [-> ->]. assert (j = i) as -> by (by eapply forest_index). simplify_eq.
      destruct (node_leaf_name _ _ _ (fo_conflicts _ _ HF _ _ Hnd) Hleaf) as [<- Hd].
      apply (tree_lookup_leaf _ _ t); [done..| |done]. apply Hent. by left.
    + destruct (exists_last Hr) as (mid & last & ->). rewrite app_comm_cons, (assoc_L (++)) in Heq.
      apply app_inj_tail in Heq as [<- ->].
      destruct (forest_prefix _ _ _ _ _ _ HF Hp) as (c & Hc).
      destruct (fo_parent _ _ HF _ _ _ Hc) as (i' & nd2 & Hi' & Hnd2 & Hdir).
      assert (i' = i) as -> by (by eapply forest_index). simplify_eq.
      assert (is_Some (nodes !! c)) as [ndc Hndc].
      { apply lookup_lt_is_Some. rewrite <-(fo_len _ _ HF). by apply lookup_lt_Some in Hc. }
      destruct (Hall _ _ Hndc) as (tc & _ & Hhc & _).
      assert (mkTreeEntry n Dir (Tree_id tc) 0 0 ∈ tr_entries t) as He by (apply Hent; right; eauto).
      etrans; [apply (tree_lookup_dir _ _ t _ (mid ++ [n']) Hfetch Hnames He); done|].
      apply (IH _ _ _ Hc Hhc Hr). rewrite <-(assoc_L (++)). 
      exists j, (q ++ n :: mid), n', nd'. by rewrite <-(assoc_L (++)).
Qed.

(** ** Independence of the iteration order *)

(** Every directory of one forest is a directory of another with the same content. *)
Lemma same_directories nodes1 paths1 nodes2 paths2 q :
  Forest nodes2 paths2 → no_empty_dirs nodes1 paths1 →
  (∀ full e, content nodes1 paths1 full e ↔ content nodes2 paths2 full e) →
  q ∈ paths1 → q ∈ paths2.
Proof.
  intros HF2 Hne Hc Hq. destruct q as [|n0 q0] eqn:Eq using rev_ind.
  { eapply list_elem_of_lookup_2, HF2. }
  clear IHq0. destruct (Hne _ Hq) as (r & e & Hr & He); [by destruct q0|].
  apply Hc in He as (j & p & n & nd & Heq & Hp & _).
  destruct (exists_last Hr) as (mid & x & ->). rewrite (assoc_L (++)) in Heq.
  apply app_inj_tail in Heq as [<- _]. rewrite <-(assoc_L (++)) in Hp. simpl in Hp.
  destruct (forest_prefix _ _ _ _ _ _ HF2 Hp) as [c Hc']. by eapply list_elem_of_lookup_2.
Qed.

Lemma node_tree_sorted hs nd t : node_tree hs nd = Ok t → StronglySorted (key_lt te_name) (tr_entries t).
Proof.
  intros Ht. pose proof (node_tree_valid _ _ _ Ht) as [_ _ _ Hn _]. unfold node_tree in Ht. inv_ok. simpl in *.
  apply sort_by_lt. by rewrite sort_by_perm in Hn.
Qed.

(** A tree in canonical order is determined by its set of entries. *)
Lemma sorted_tree_eq t1 t2 :
  StronglySorted (key_lt te_name) (tr_entries t1) → StronglySorted (key_lt te_name) (tr_entries t2) →
  (∀ e, e ∈ tr_entries t1 ↔ e ∈ tr_entries t2) → t1 = t2.
Proof.
  intros H1 H2 Hiff. destruct t1 as [l1], t2 as [l2]. f_equal. simpl in *.
  apply (sorted_lt_unique te_name); [done..|]. apply NoDup_Permutation; [| |done];
    by eapply NoDup_fmap_1, sorted_lt_NoDup.
Qed.

(** Entries of the tree of directory [q], read off the content and the hashes of children. *)
Lemma dir_entries nodes paths hashes i q nd t e :
  Forest nodes paths → paths !! i = Some q → nodes !! i = Some nd → node_tree hashes nd = Ok t →
  e ∈ tr_entries t ↔
    content nodes paths (q ++ [te_name e]) e ∨
    ∃ c h, paths !! c = Some (q ++ [te_name e]) ∧ hashes !! c = Some (Some h) ∧
      e = mkTreeEntry (te_name e) Dir h 0 0.
Proof.
  intros HF Hq Hnd Ht. rewrite (node_tree_entries _ _ _ e Ht (fo_conflicts _ _ HF _ _ Hnd)).
  apply Morphisms_Prop.or_iff_morphism.
  - split; [by exists i, q, (te_name e), nd|].
    intros (j & p & n & nd' & [<- <-]%app_inj_tail & Hp & Hn & He).
    assert (j = i) as -> by (by eapply forest_index). by simplify_eq.
  - split; intros (c & h & Hd & Hh & He); exists c, h; split_and!; try done.
    + destruct (fo_child _ _ HF _ _ _ _ Hnd Hd) as (q' & ? & ?). by simplify_eq.
    + destruct (fo_parent _ _ HF _ _ _ Hd) as (j & nd' & Hj & Hn & Hdir).
      assert (j = i) as -> by (by eapply forest_index). by simplify_eq.
Qed.

(** Everything the comparison of two builds needs to know of one of them. *)
Record Build (nodes : list Node) (paths : list (list string)) (hashes : list (option string))
    (ins : list (string * Tree)) : Prop := {
  bd_forest : Forest nodes paths;
  bd_full : no_empty_dirs nodes paths;
  bd_built i nd : nodes !! i = Some nd → built hashes ins i nd;
  bd_origin kt : kt ∈ ins → ∃ i nd, nodes !! i = Some nd ∧ node_tree hashes nd = Ok kt.2;
}.

Definition same_content nodes1 paths1 nodes2 paths2 : Prop :=
  ∀ full e, content nodes1 paths1 full e ↔ content nodes2 paths2 full e.

Lemma build_node_at nodes paths hashes ins i q :
  Build nodes paths hashes ins → paths !! i = Some q → ∃ nd, nodes !! i = Some nd.
Proof.
  intros HB Hi. apply lookup_lt_is_Some. rewrite <-(fo_len _ _ (bd_forest _ _ _ _ HB)).
  by apply lookup_lt_Some in Hi.
Qed.

(** One inclusion between the trees of directory [q], given that the children agree. *)
Lemma same_tree_incl nodes1 paths1 hashes1 ins1 nodes2 paths2 hashes2 ins2 q i1 i2 nd1 nd2 t1 t2 e :
  Build nodes1 paths1 hashes1 ins1 → Build nodes2 paths2 hashes2 ins2 →
  same_content nodes1 paths1 nodes2 paths2 →
  (∀ n c1 c2 h, paths1 !! c1 = Some (q ++ [n]) → paths2 !! c2 = Some (q ++ [n]) →
    hashes1 !! c1 = Some (Some h) → hashes2 !! c2 = Some (Some h)) →
  paths1 !! i1 = Some q → paths2 !! i2 = Some q → nodes1 !! i1 = Some nd1 → nodes2 !! i2 = Some nd2 →
  node_tree hashes1 nd1 = Ok t1 → node_tree hashes2 nd2 = Ok t2 →
  e ∈ tr_entries t1 → e ∈ tr_entries t2.
Proof.
  intros HB1 HB2 Hc Hch Hi1 Hi2 Hn1 Hn2 Ht1 Ht2.
  rewrite (dir_entries _ _ _ _ _ _ _ e (bd_forest _ _ _ _ HB1) Hi1 Hn1 Ht1).
  rewrite (dir_entries _ _ _ _ _ _ _ e (bd_forest _ _ _ _ HB2) Hi2 Hn2 Ht2).
  intros [He|(c & h & Hp & Hh & He)]; [left; by apply Hc|right].
  assert (q ++ [te_name e] ∈ paths2) as [c2 Hc2]%list_elem_of_lookup.
  { eapply same_directories; [apply HB2|apply HB1|done|]. by eapply list_elem_of_lookup_2. }
  exists c2, h. split_and!; [done|by eapply Hch|done].
Qed.

Lemma same_content_sym nodes1 paths1 nodes2 paths2 :
  same_content nodes1 paths1 nodes2 paths2 → same_content nodes2 paths2 nodes1 paths1.
Proof. intros Hc full e. by rewrite (Hc full e). Qed.

Lemma same_tree_at (k : nat) nodes1 paths1 hashes1 ins1 nodes2 paths2 hashes2 ins2 q i1 i2 nd1 nd2 t1 t2 :
  Build nodes1 paths1 hashes1 ins1 → Build nodes2 paths2 hashes2 ins2 →
  same_content nodes1 paths1 nodes2 paths2 →
  (∀ p, p ∈ paths1 → (length p < length q + k)%nat) →
  paths1 !! i1 = Some q → paths2 !! i2 = Some q → nodes1 !! i1 = Some nd1 → nodes2 !! i2 = Some nd2 →
  node_tree hashes1 nd1 = Ok t1 → node_tree hashes2 nd2 = Ok t2 → t1 = t2.
Proof.
  intros HB1 HB2 Hc. revert q i1 i2 nd1 nd2 t1 t2.
  induction k as [|k IH]; intros q i1 i2 nd1 nd2 t1 t2 Hk Hi1 Hi2 Hn1 Hn2 Ht1 Ht2.
  { exfalso. apply list_elem_of_lookup_2 in Hi1. apply Hk in Hi1. lia. }
  assert (∀ n c1 c2, paths1 !! c1 = Some (q ++ [n]) → paths2 !! c2 = Some (q ++ [n]) →
    ∃ h, hashes1 !! c1 = Some (Some h) ∧ hashes2 !! c2 = Some (Some h)) as Hch.
  { intros n c1 c2 Hc1 Hc2. destruct (build_node_at _ _ _ _ _ _ HB1 Hc1) as [nc1 Hnc1].
    destruct (build_node_at _ _ _ _ _ _ HB2 Hc2) as [nc2 Hnc2].
    destruct (bd_built _ _ _ _ HB1 _ _ Hnc1) as (tc1 & Htc1 & Hh1 & _).
    destruct (bd_built _ _ _ _ HB2 _ _ Hnc2) as (tc2 & Htc2 & Hh2 & _).
    assert (tc1 = tc2) as ->; [|by eauto].
    eapply (IH (q ++ [n])); [|eassumption..]. intros p Hp. rewrite length_app. simpl. specialize (Hk p Hp). lia. }
  apply sorted_tree_eq; [by eapply node_tree_sorted..|]. intros e. split.
  - eapply same_tree_incl; [exact HB1|exact HB2|exact Hc| |eassumption..].
    intros n c1 c2 h Hc1 Hc2 Hh. destruct (Hch _ _ _ Hc1 Hc2) as (h' & ? & ?). congruence.
  - eapply same_tree_incl; [exact HB2|exact HB1|by apply same_content_sym| |eassumption..].
    intros n c1 c2 h Hc1 Hc2 Hh. destruct (Hch _ _ _ Hc2 Hc1) as (h' & ? & ?). congruence.
Qed.

Lemma paths_bounded (paths : list (list string)) : ∃ k, ∀ p, p ∈ paths → (length p < k)%nat.
Proof.
  induction paths as [|p paths [k Hk]]; [exists 0%nat; by intros p ?%elem_of_nil|].
  exists (S (length p) `max` k)%nat. intros p' [->|Hp']%elem_of_cons; [lia|]. specialize (Hk p' Hp'). lia.
Qed.

Lemma same_build nodes1 paths1 hashes1 ins1 nodes2 paths2 hashes2 ins2 :
  Build nodes1 paths1 hashes1 ins1 → Build nodes2 paths2 hashes2 ins2 →
  same_content nodes1 paths1 nodes2 paths2 →
  hashes1 !! 0%nat = hashes2 !! 0%nat ∧ ∀ t, t ∈ ins1.*2 → t ∈ ins2.*2.
Proof.
  intros HB1 HB2 Hc. destruct (paths_bounded paths1) as [k Hk].
  pose proof (bd_forest _ _ _ _ HB1) as HF1. pose proof (bd_forest _ _ _ _ HB2) as HF2.
  assert (∀ q i1 i2 nd1 nd2 t1 t2, paths1 !! i1 = Some q → paths2 !! i2 = Some q →
    nodes1 !! i1 = Some nd1 → nodes2 !! i2 = Some nd2 →
    node_tree hashes1 nd1 = Ok t1 → node_tree hashes2 nd2 = Ok t2 → t1 = t2) as Heq.
  { intros q i1 i2 nd1 nd2 t1 t2. eapply same_tree_at; [exact HB1|exact HB2|exact Hc|].
    intros p Hp. specialize (Hk p Hp). instantiate (1 := k). lia. }
  split.
  - destruct (build_node_at _ _ _ _ _ _ HB1 (fo_root _ _ HF1)) as [n1 Hn1].
    destruct (build_node_at _ _ _ _ _ _ HB2 (fo_root _ _ HF2)) as [n2 Hn2].
    destruct (bd_built _ _ _ _ HB1 _ _ Hn1) as (t1 & Ht1 & -> & _).
    destruct (bd_built _ _ _ _ HB2 _ _ Hn2) as (t2 & Ht2 & -> & _).
    do 3 f_equal. by eapply Heq; [apply HF1|apply HF2|..].
  - intros t (kt & -> & Hin)%list_elem_of_fmap.
    destruct (bd_origin _ _ _ _ HB1 _ Hin) as (i1 & n1 & Hn1 & Ht1).
    assert (is_Some (paths1 !! i1)) as [q Hq].
    { apply lookup_lt_is_Some. rewrite (fo_len _ _ HF1). by apply lookup_lt_Some in Hn1. }
    assert (q ∈ paths2) as [i2 Hi2]%list_elem_of_lookup.
    { eapply same_directories; [done|apply HB1|done|by eapply list_elem_of_lookup_2]. }
    destruct (build_node_at _ _ _ _ _ _ HB2 Hi2) as [n2 Hn2].
    destruct (bd_built _ _ _ _ HB2 _ _ Hn2) as (t2 & Ht2 & _ & Hin2).
    rewrite (Heq _ _ _ _ _ _ _ Hq Hi2 Hn1 Hn2 Ht1 Ht2). by apply (list_elem_of_fmap_2 snd) in Hin2.
Qed.

(** ** The conversion *)
Lemma flat_inserts_build files conflicts root ins :
  NoDup files.*1 → flat_inserts files conflicts = Ok (root, ins) →
  Forall (λ kt, kt.1 = Tree_id kt.2 ∧ validate_tree kt.2 = Ok tt) ins ∧
  ∃ nodes paths hashes, Build nodes paths hashes ins ∧ hashes !! 0%nat = Some (Some root) ∧
    ∀ full e, content nodes paths full e ↔ flat_content files conflicts full e.
Proof.
  unfold flat_inserts. intros Hnd Hf. inv_ok. rename select (flat_nodes _ _ = _) into Hn.
  apply flat_nodes_represent in Hn as (_ & _ & paths & HF & Hne & Hc); [|done].
  apply build_node_spec in Hf as (Hins & hashes & Hroot & Hb & Ho). split; [done|]. by exists l, paths, hashes.
Qed.

(** A content-addressed map is determined by the trees put into it. *)
Lemma collect_eq (ins1 ins2 : list (string * Tree)) :
  (∀ kt, kt ∈ ins1 ↔ kt ∈ ins2) → collision_free ins1 → hash_collect ins1 = hash_collect ins2.
Proof.
  intros Hiff Hcf. assert (collision_free ins2) as Hcf2.
  { intros k t1 t2 H1%Hiff H2%Hiff. by eapply Hcf. }
  apply map_eq. intros k. apply option_eq. intros t. split; intros Ht%hash_collect_Some%Hiff;
    by apply collect_lookup.
Qed.

Lemma flat_content_perm files1 files2 conflicts full e :
  files1 ≡ₚ files2 → flat_content files1 conflicts full e ↔ flat_content files2 conflicts full e.
Proof. intros Hp. unfold flat_content, file_content. by setoid_rewrite Hp. Qed.

Lemma flat_inserts_lookup files conflicts root ins p e :
  NoDup files.*1 → flat_inserts files conflicts = Ok (root, ins) → collision_free ins →
  tree_lookup (fetch_from (hash_collect ins)) root (split slash p) = Some e ↔
  (∃ c r, c ∈ conflicts ∧ ce_path c = p ∧ representative c = Some r ∧ e = conflict_entry (last_component p) c r) ∨
  ((∃ s, (p, s) ∈ files ∧ fs_deleted s = false ∧ e = file_entry (last_component p) s) ∧
   ∀ c, c ∈ conflicts → ce_path c ≠ p).
Proof.
  intros Hnd Hf Hcf. apply flat_inserts_build in Hf as (HI & nodes & paths & hs & HB & Hr & Hc); [|done].
  pose proof (bd_forest _ _ _ _ HB) as HF.
  rewrite (built_lookup _ _ _ _ _ _ _ _ e HF Hcf (bd_built _ _ _ _ HB) (fo_root _ _ HF) Hr)
    by apply split_not_nil.
  simpl. rewrite Hc. unfold flat_content, conflict_content, file_content. split.
  - intros [(c & r & ? & Heq%split_inj & ? & ->)|((p' & s & ? & ? & Heq%split_inj & ->) & Hno)]; subst.
    + left. by exists c, r.
    + right. split; [by exists s|]. intros c Hin Heq. by apply (Hno c Hin); rewrite Heq.
  - intros [(c & r & ? & <- & ? & ->)|((s & ? & ? & ->) & Hno)].
    + left. by exists c, r.
    + right. split; [by exists p, s|]. intros c Hin Heq%split_inj. by apply (Hno c Hin).
Qed.

(** No two trees that a build stores share an id. *)
Definition no_collisions (o : HashOrder) (files : gmap string FileState) (conflicts : list ConcurrentEdit) : Prop :=
  ∀ root ins, flat_inserts (hash_iter files) conflicts = Ok (root, ins) → collision_free ins.

Lemma flat_to_tree_Ok (o : HashOrder) files conflicts bundle :
  flat_to_tree_with_conflicts files conflicts = Ok bundle ↔
  ∃ ins, flat_inserts (hash_iter files) conflicts = Ok (tb_root bundle, ins) ∧ tb_trees bundle = hash_collect ins.
Proof.
  unfold flat_to_tree_with_conflicts. rewrite bind_Ok. split.
  - intros ([root ins] & Hf & [= <-]). by exists ins.
  - intros (ins & Hf & Ht). eexists. split; [exact Hf|]. simpl. destruct bundle. by simpl in *; subst.
Qed.

(** Entries the two builds stored, from the trees they have in common. *)
Lemma inserts_incl (ins ins' : list (string * Tree)) :
  Forall (λ kt, kt.1 = Tree_id kt.2 ∧ validate_tree kt.2 = Ok tt) ins →
  Forall (λ kt, kt.1 = Tree_id kt.2 ∧ validate_tree kt.2 = Ok tt) ins' →
  (∀ t, t ∈ ins.*2 → t ∈ ins'.*2) → ∀ kt, kt ∈ ins → kt ∈ ins'.
Proof.
  rewrite !Forall_forall. intros Hk Hk' Hi [k t] Hin. pose proof (Hk _ Hin) as [Hkey _]. simpl in Hkey.
  apply (list_elem_of_fmap_2 snd) in Hin. apply Hi, list_elem_of_fmap in Hin as ([k' t'] & Ht & Hin'). simpl in Ht.
  pose proof (Hk' _ Hin') as [Hkey' _]. simpl in Hkey'. by subst.
Qed.

(** In a build no leaf has anything below it: both would be entries of one directory. *)
Lemma content_not_below nodes paths hashes ins full rest e1 e2 :
  Build nodes paths hashes ins → content nodes paths full e1 → content nodes paths (full ++ rest) e2 → rest = [].
Proof.
  intros HB (i & q & n & nd & -> & Hi & Hnd & Hl) (j & q2 & n2 & nd2 & Heq & Hj & _).
  destruct (decide (rest = [])) as [|Hr]; [done|]. exfalso. pose proof (bd_forest _ _ _ _ HB) as HF.
  destruct (exists_last Hr) as (mid & x & ->). rewrite (assoc_L (++)) in Heq. apply app_inj_tail in Heq as [<- _].
  rewrite <-(assoc_L (++)) in Hj. destruct (forest_prefix _ _ _ _ _ _ HF Hj) as [c Hc].
  destruct (bd_built _ _ _ _ HB _ _ Hnd) as (t & Ht & _). pose proof (node_tree_valid _ _ _ Ht) as [_ _ _ Hnames _].
  destruct (build_node_at _ _ _ _ _ _ HB Hc) as [ndc Hndc].
  destruct (bd_built _ _ _ _ HB _ _ Hndc) as (tc & _ & Hh & _).
  destruct (node_leaf_name _ _ _ (fo_conflicts _ _ HF _ _ Hnd) Hl) as [Hn Hd].
  assert (e1 ∈ tr_entries t) as He1.
  { apply (dir_entries _ _ _ _ _ _ _ _ HF Hi Hnd Ht). left. exists i, q, n, nd. by rewrite Hn. }
  assert (mkTreeEntry n Dir (Tree_id tc) 0 0 ∈ tr_entries t) as He2.
  { apply (dir_entries _ _ _ _ _ _ _ _ HF Hi Hnd Ht). right. eauto. }
  rewrite (entry_name_unique _ _ _ Hnames He1 He2) in Hd; [done|by rewrite Hn].
Qed.

(** [flat_to_tree] only accepts views that are trees: no live file lies below another live
    file's path. *)
Theorem flat_to_tree_no_collision (o : HashOrder) files bundle p q s1 s2 :
  flat_to_tree files = Ok bundle → files !! p = Some s1 → files !! q = Some s2 →
  fs_deleted s1 = false → fs_deleted s2 = false → ¬ ∃ rest, q = p +:+ String slash rest.
Proof.
  intros (ins & Hf & _)%flat_to_tree_Ok Hp Hq Hd1 Hd2 [rest ->].
  apply flat_inserts_build in Hf as (_ & nodes & paths & hs & HB & _ & Hc); [|apply hash_iter_NoDup].
  assert (∀ r s, files !! r = Some s → fs_deleted s = false →
    content nodes paths (split slash r) (file_entry (last_component r) s)) as Hlive.
  { intros r s Hr Hs. apply Hc. right. split; [|by intros c ?%elem_of_nil]. exists r, s.
    split_and!; [by apply elem_of_hash_iter|done..]. }
  pose proof (Hlive _ _ Hq Hd2) as Hc2. rewrite split_app_sep in Hc2.
  apply (content_not_below _ _ _ _ _ _ _ _ HB (Hlive _ _ Hp Hd1)) in Hc2. by apply split_not_nil in Hc2.
Qed.

(** The snapshot a workspace gets does not depend on the order in which the hash map of
    file states is iterated: under any two orders that both build, the root id is the same
    and, as long as the trees built do not collide under Blake3, so is the bundle. *)
Theorem flat_to_tree_order (o1 o2 : HashOrder) files conflicts b1 b2 :
  @flat_to_tree_with_conflicts _ _ o1 files conflicts = Ok b1 →
  @flat_to_tree_with_conflicts _ _ o2 files conflicts = Ok b2 →
  tb_root b1 = tb_root b2 ∧ (no_collisions o1 files conflicts → b1 = b2).
Proof.
  intros (ins1 & H1 & Ht1)%flat_to_tree_Ok (ins2 & H2 & Ht2)%flat_to_tree_Ok. pose proof H1 as Hrun.
  apply flat_inserts_build in H1 as (HI1 & nodes1 & paths1 & hs1 & HB1 & Hr1 & Hc1); [|apply hash_iter_NoDup].
  apply flat_inserts_build in H2 as (HI2 & nodes2 & paths2 & hs2 & HB2 & Hr2 & Hc2); [|apply hash_iter_NoDup].
  assert (same_content nodes1 paths1 nodes2 paths2) as Hc.
  { intros full e. rewrite Hc1, Hc2. apply flat_content_perm. by rewrite !hash_iter_perm. }
  destruct (same_build _ _ _ _ _ _ _ _ HB1 HB2 Hc) as [Hroot Hincl].
  destruct (same_build _ _ _ _ _ _ _ _ HB2 HB1 (same_content_sym _ _ _ _ Hc)) as [_ Hincl'].
  assert (tb_root b1 = tb_root b2) as Heq by congruence. split; [done|]. intros Hcf. specialize (Hcf _ _ Hrun).
  destruct b1, b2. simpl in *. subst. f_equal. apply collect_eq; [|done]. intros kt. split; by apply inserts_incl.
Qed.

(** C25. Functional correctness of [flat_to_tree_with_conflicts]: reading the bundle from its
    root finds, at every path, exactly the live file stored there or the conflict overlaid on
    it, and nothing else.  The trees built must not collide under Blake3. *)
Theorem flat_to_tree_content (o : HashOrder) files conflicts bundle p e :
  flat_to_tree_with_conflicts files conflicts = Ok bundle → no_collisions o files conflicts →
  tree_lookup (fetch_from (tb_trees bundle)) (tb_root bundle) (split slash p) = Some e ↔
  (∃ c r, c ∈ conflicts ∧ ce_path c = p ∧ representative c = Some r ∧ e = conflict_entry (last_component p) c r) ∨
  ((∃ s, files !! p = Some s ∧ fs_deleted s = false ∧ e = file_entry (last_component p) s) ∧
   ∀ c, c ∈ conflicts → ce_path c ≠ p).
Proof.
  intros (ins & Hf & ->)%flat_to_tree_Ok Hcf. specialize (Hcf _ _ Hf).
  rewrite (flat_inserts_lookup _ _ _ _ _ _ (hash_iter_NoDup _) Hf Hcf).
  setoid_rewrite elem_of_hash_iter. done.
Qed.
End unicode.

(** ** Witnesses *)
Definition live_file (path hash : string) (size mode : Z) : string * FileState :=
  (path, mkFileState path hash size 77 false mode).

Definition sample_files : gmap string FileState := hash_collect [
  live_file "src/main.rs" hex_a 42 1; live_file "README.md" hex_b 7 0;
  ("gone", mkFileState "gone" hex_a 1 5 true 0); live_file "src/bin/cli.rs" hex_b 9 0].

Definition sample_conflict : ConcurrentEdit :=
  ConcurrentEdit_new "README.md" None (Some (mkFileState "README.md" hex_a 3 1 false 0))
    (Some (mkFileState "README.md" hex_b 7 2 false 0)).

Definition sample_bundle (o : HashOrder) : TreeBundle :=
  unwrap_or (mkTreeBundle "" ∅)
    (@flat_to_tree_with_conflicts ascii_unicode sample_blake3 o sample_files [sample_conflict]).

Definition sample_inserts : string * list (string * Tree) :=
  unwrap_or ("", []) (@flat_inserts ascii_unicode sample_blake3 (@hash_iter key_order _ sample_files) [sample_conflict]).

Lemma sample_inserts_run :
  @flat_inserts ascii_unicode sample_blake3 (@hash_iter key_order _ sample_files) [sample_conflict] = Ok sample_inserts.
Proof. vm_compute. reflexivity. Qed.

Lemma sample_bundle_run o :
  o = key_order ∨ o = reverse_key_order →
  @flat_to_tree_with_conflicts ascii_unicode sample_blake3 o sample_files [sample_conflict] = Ok (sample_bundle o).
Proof. intros [-> | ->]; vm_compute; reflexivity. Qed.

(** Distinct ids leave nothing to collide. *)
Lemma collision_free_NoDup ins : NoDup ins.*1 → collision_free ins.
Proof. intros Hnd k t1 t2. by apply NoDup_fst_inj. Qed.

Lemma sample_inserts_NoDup : bool_decide (NoDup sample_inserts.2.*1) = true.
Proof. vm_compute. reflexivity. Qed.

Lemma sample_no_collisions : @no_collisions ascii_unicode sample_blake3 key_order sample_files [sample_conflict].
Proof.
  intros root ins Hf. rewrite sample_inserts_run in Hf. apply Ok_inj in Hf.
  apply collision_free_NoDup. change (NoDup (root, ins).2.*1). rewrite <-Hf.
  apply (bool_decide_eq_true_1 _), sample_inserts_NoDup.
Qed.

Lemma flat_to_tree_order_witness :
  tb_trees (sample_bundle key_order) = tb_trees (sample_bundle reverse_key_order).
Proof.
  destruct (@flat_to_tree_order ascii_unicode sample_blake3 key_order reverse_key_order sample_files
    [sample_conflict] (sample_bundle key_order) (sample_bundle reverse_key_order)) as [_ Heq].
  - apply sample_bundle_run. by left.
  - apply sample_bundle_run. by right.
  - rewrite (Heq sample_no_collisions). reflexivity.
Defined.

Lemma sample_file_run :
  sample_files !! "src/bin/cli.rs" = Some (live_file "src/bin/cli.rs" hex_b 9 0).2.
Proof. vm_compute. reflexivity. Qed.

Lemma flat_to_tree_content_witness :
  tree_lookup (fetch_from (tb_trees (sample_bundle key_order))) (tb_root (sample_bundle key_order))
    (split slash "src/bin/cli.rs") = Some (file_entry "cli.rs" (live_file "src/bin/cli.rs" hex_b 9 0).2).
Proof.
  apply (@flat_to_tree_content ascii_unicode sample_blake3 key_order sample_files [sample_conflict]
    (sample_bundle key_order) "src/bin/cli.rs").
  - apply sample_bundle_run. by left.
  - exact sample_no_collisions.
  - right. split.
    + exists (live_file "src/bin/cli.rs" hex_b 9 0).2. split; [exact sample_file_run|split; reflexivity].
    + intros c ->%list_elem_of_singleton. discriminate.
Defined.

Lemma flat_to_tree_no_collision_witness : ¬ ∃ rest, "src/bin/cli.rs" = "src/main.rs" +:+ String slash rest.
Proof.
  apply (@flat_to_tree_no_collision ascii_unicode sample_blake3 key_order sample_files
    (unwrap_or (mkTreeBundle "" ∅) (@flat_to_tree ascii_unicode sample_blake3 key_order sample_files))
    "src/main.rs" "src/bin/cli.rs" (live_file "src/main.rs" hex_a 42 1).2 (live_file "src/bin/cli.rs" hex_b 9 0).2);
    vm_compute; reflexivity.
Defined.
