(* ===== verification/Flatten.v ===== *)
(** * From canonical trees to flat file states

    The second half of common/src/tree_convert.rs: [tree_to_flat] walks the trees reachable
    from a root with an explicit stack, guarding against cycles, depth, and the four resource
    limits.  The stack is a list whose head is the next item to pop. *)
From Stdlib Require Import ZArith Lia Ascii Strings.Byte.
From stdpp Require Import sorting numbers strings gmap list_numbers list options.
From S2P Require Import Prelude Text Paths Model Codec CodecProps Lookup Convert.

Local Open Scope Z_scope.

Inductive FlattenWork :=
| Enter (hash prefix : string) (depth : Z)
| Exit (hash : string).

Definition pending_path_len (w : FlattenWork) : Z :=
  match w with Enter _ prefix _ => slen prefix | Exit _ => 0 end.

Record FlattenTraversal := mkFlatten {
  ft_active : gset string;
  ft_files : gmap string FileState;
  ft_work_items : Z;
  ft_objects : gset string;
  ft_constructed_path_bytes : Z;
  ft_pending_path_bytes : Z;
}.

Definition join_path (prefix name : string) : string :=
  if decide (prefix = "") then name else prefix +:+ "/" +:+ name.

Definition ft_add_work (amount : Z) (t : FlattenTraversal) : Result FlattenTraversal :=
  n ← charge (ft_work_items t) amount MAX_TREE_WORK_ITEMS
        "canonical tree work counter overflow" "canonical tree traversal exceeds work items";
  Ok (mkFlatten (ft_active t) (ft_files t) n (ft_objects t) (ft_constructed_path_bytes t) (ft_pending_path_bytes t)).

Definition record_constructed_path (path : string) (t : FlattenTraversal) : Result FlattenTraversal :=
  n ← charge (ft_constructed_path_bytes t) (slen path) MAX_TREE_PATH_BYTES_TOTAL
        "canonical tree constructed-path counter overflow"
        "canonical tree traversal exceeds aggregate path-byte limit";
  Ok (mkFlatten (ft_active t) (ft_files t) (ft_work_items t) (ft_objects t) n (ft_pending_path_bytes t)).

Definition reserve_pending_path (amount : Z) (t : FlattenTraversal) : Result FlattenTraversal :=
  n ← charge (ft_pending_path_bytes t) amount MAX_TREE_PATH_BYTES_TOTAL
        "canonical tree pending-path counter overflow"
        "canonical tree traversal exceeds pending path-byte limit";
  Ok (mkFlatten (ft_active t) (ft_files t) (ft_work_items t) (ft_objects t) (ft_constructed_path_bytes t) n).

Definition release_pending_path (amount : Z) (t : FlattenTraversal) : Result FlattenTraversal :=
  n ← or_context (checked_sub (ft_pending_path_bytes t) amount) "canonical tree pending-path counter underflow";
  Ok (mkFlatten (ft_active t) (ft_files t) (ft_work_items t) (ft_objects t) (ft_constructed_path_bytes t) n).

(** The file state a leaf entry stands for. *)
Definition entry_state (path : string) (e : TreeEntry) : FileState :=
  mkFileState path (te_hash e) (te_size e) 0 false (te_mode e).

Section unicode.
Context `{Unicode}.

(** The body of [for entry in tree.entries]. *)
Definition flatten_entry (prefix : string) (depth : Z) (st : FlattenTraversal * list FlattenWork)
    (entry : TreeEntry) : Result (FlattenTraversal * list FlattenWork) :=
  let '(t, directories) := st in
  let path := join_path prefix (te_name entry) in
  validate_path path ;;
  t ← record_constructed_path path t;
  if is_dir entry then
    t ← reserve_pending_path (slen path) t;
    Ok (t, directories ++ [Enter (te_hash entry) path (depth + 1)])
  else
    bail_if (MAX_TREE_OUTPUT_PATHS <=? map_len (ft_files t)) "canonical tree flat output exceeds paths" ;;
    Ok (mkFlatten (ft_active t) (<[path := entry_state path entry]> (ft_files t)) (ft_work_items t)
          (ft_objects t) (ft_constructed_path_bytes t) (ft_pending_path_bytes t), directories).

(** One iteration of [while let Some(work) = pending.pop()]. *)
Definition flatten_work (fetch : Fetch) (work : FlattenWork) (pending : list FlattenWork) (t : FlattenTraversal)
    : Result (list FlattenWork * FlattenTraversal) :=
  t ← release_pending_path (pending_path_len work) t;
  match work with
  | Exit hash =>
      bail_if (negb (bool_decide (hash ∈ ft_active t))) "canonical tree traversal lost active object" ;;
      Ok (pending, mkFlatten (ft_active t ∖ {[hash]}) (ft_files t) (ft_work_items t) (ft_objects t)
                     (ft_constructed_path_bytes t) (ft_pending_path_bytes t))
  | Enter hash prefix depth =>
      bail_if (MAX_TREE_DEPTH <? depth) "canonical tree exceeds directory levels" ;;
      bail_if (bool_decide (hash ∈ ft_active t)) "cycle in canonical tree" ;;
      let objects := {[hash]} ∪ ft_objects t in
      bail_if (negb (bool_decide (hash ∈ ft_objects t)) && (MAX_TREE_OBJECTS <? Z.of_nat (size objects)))
        "canonical tree exceeds distinct tree objects" ;;
      let t := mkFlatten ({[hash]} ∪ ft_active t) (ft_files t) (ft_work_items t) objects
                 (ft_constructed_path_bytes t) (ft_pending_path_bytes t) in
      tree ← fetch hash;
      validate_tree tree ;;
      bail_if ((0 <? depth) && bool_decide (tr_entries tree = []))
        "canonical tree contains a non-root empty directory" ;;
      t ← ft_add_work (saturating_add (zlen (tr_entries tree)) 1) t;
      '(t, directories) ← try_fold (flatten_entry prefix depth) (t, []) (tr_entries tree);
      Ok (directories ++ Exit hash :: pending, t)
  end.

Definition flatten_step (fetch : Fetch) (st : list FlattenWork * FlattenTraversal)
    : step (list FlattenWork * FlattenTraversal) (Result FlattenTraversal) :=
  match st.1 with
  | [] => Done (Ok st.2)
  | work :: pending =>
      match flatten_work fetch work pending st.2 with
      | Ok st' => More st'
      | Err e => Done (Err e)
      end
  end.

Definition FlattenTraversal_new : FlattenTraversal := mkFlatten ∅ ∅ 0 ∅ 0 0.

(** [FlattenTraversal::run]: [2 ^ 22] iterations are enough for every store. *)
Definition flatten_run (fetch : Fetch) (root : string) : Result FlattenTraversal :=
  match iterate 22 (flatten_step fetch) ([Enter root "" 0], FlattenTraversal_new) with
  | Done r => r
  | More _ => Err "traversal does not end"
  end.

Definition tree_to_flat (root : string) (fetch : Fetch) : Result (gmap string FileState) :=
  t ← flatten_run fetch root;
  Ok (ft_files t).
End unicode.

