(* ===== verification/FlattenProps.v ===== *)
(** * Expansion of canonical trees: termination and correctness

    [tree_to_flat] always ends, and when it succeeds its map is exactly what [tree_lookup]
    reads from the store. *)
From Stdlib Require Import ZArith Lia Ascii Strings.Byte.
From stdpp Require Import sorting numbers strings gmap list_numbers list options.
From S2P Require Import Prelude Text Paths Model Codec CodecProps Lookup Convert ConvertProps Flatten.

Local Open Scope Z_scope.

Lemma charge_Ok c a l o x n : charge c a l o x = Ok n ↔ n = c + a ∧ c + a ≤ USIZE_MAX ∧ c + a ≤ l.
Proof.
  unfold charge. rewrite bind_Ok. setoid_rewrite or_context_Ok. setoid_rewrite checked_add_Some. split.
  - intros (m & [Hm ->] & Hb). inv_ok. to_prop. done.
  - intros (-> & Hm & Hl). exists (c + a). split; [done|]. by rewrite (bind_run _ _ tt) by (by apply bail_if_Ok, Z.ltb_ge).
Qed.

Section unicode.
Context `{Unicode}.

#[local] Arguments flatten_entry : simpl never.

(** Reads off what a successful loop over the entries of one tree did. *)
Lemma flatten_entry_Ok prefix depth t ds e t' ds' :
  flatten_entry prefix depth (t, ds) e = Ok (t', ds') →
  let path := join_path prefix (te_name e) in
  validate_path path = Ok tt ∧
  ft_active t' = ft_active t ∧ ft_objects t' = ft_objects t ∧ ft_work_items t' = ft_work_items t ∧
  ds' = ds ++ (if is_dir e then [Enter (te_hash e) path (depth + 1)] else []) ∧
  ft_files t' = (if is_dir e then ft_files t else <[path := entry_state path e]> (ft_files t)).
Proof.
  unfold flatten_entry. intros Hf. inv_ok. cbv zeta. split; [done|].
  rename select (record_constructed_path _ _ = _) into Hr. unfold record_constructed_path in Hr. inv_ok.
  destruct (is_dir e); inv_ok; simpl; rewrite ?app_nil_r; [|done].
  rename select (reserve_pending_path _ _ = _) into Hr. unfold reserve_pending_path in Hr. by inv_ok.
Qed.

Definition dir_work (prefix : string) (depth : Z) (es : list TreeEntry) : list FlattenWork :=
  omap (λ e, if is_dir e then Some (Enter (te_hash e) (join_path prefix (te_name e)) (depth + 1)) else None) es.

Lemma flatten_entries_Ok prefix depth es t ds t' ds' :
  try_fold (flatten_entry prefix depth) (t, ds) es = Ok (t', ds') →
  Forall (λ e, validate_path (join_path prefix (te_name e)) = Ok tt) es ∧
  ft_active t' = ft_active t ∧ ft_objects t' = ft_objects t ∧ ft_work_items t' = ft_work_items t ∧
  ds' = ds ++ dir_work prefix depth es ∧
  ft_files t' = foldl (λ m e, if is_dir e then m else
    <[join_path prefix (te_name e) := entry_state (join_path prefix (te_name e)) e]> m) (ft_files t) es.
Proof.
  revert t ds. induction es as [|e es IH]; intros t ds Hf; simpl in Hf.
  { inv_ok. rewrite app_nil_r. by split. }
  inv_ok. destruct x as [t1 ds1]. rename select (flatten_entry _ _ _ _ = _) into He.
  apply flatten_entry_Ok in He as (Hv & Ha & Ho & Hw & -> & Hfi).
  apply IH in Hf as (HF & -> & -> & -> & -> & ->). rewrite Ha, Ho, Hw, Hfi. split_and!; [by constructor|done..| |].
  - simpl. destruct (is_dir e); by rewrite <-(assoc_L (++)).
  - done.
Qed.

Lemma dir_work_length prefix depth es : zlen (dir_work prefix depth es) ≤ zlen es.
Proof.
  unfold dir_work, omap. induction es as [|e es IH]; [done|]. simpl.
  destruct (is_dir e); rewrite ?zlen_cons; lia.
Qed.

(** ** Termination *)
Definition flatten_measure (st : list FlattenWork * FlattenTraversal) : Z :=
  2 * (MAX_TREE_WORK_ITEMS - ft_work_items st.2) + zlen st.1.

Definition work_bounded (st : list FlattenWork * FlattenTraversal) : Prop :=
  0 ≤ ft_work_items st.2 ≤ MAX_TREE_WORK_ITEMS.

Lemma flatten_step_bounds fetch st st' :
  work_bounded st → flatten_step fetch st = More st' →
  work_bounded st' ∧ flatten_measure st' < flatten_measure st.
Proof.
  destruct st as [[|w pending] t], st' as [pending' t']; unfold flatten_step; simpl; [done|].
  destruct (flatten_work fetch w pending t) as [[p1 t1]|] eqn:Hw; [|done]. intros Hb [= -> ->].
  unfold work_bounded, flatten_measure in *. simpl in *. unfold flatten_work in Hw. inv_ok.
  rename select (release_pending_path _ _ = _) into Hr. unfold release_pending_path in Hr. inv_ok.
  destruct w as [h pre d|h]; inv_ok; simpl in *; rewrite zlen_cons; [|lia].
  rename select (try_fold _ _ _ = _) into Hf.
  apply flatten_entries_Ok in Hf as (_ & _ & _ & -> & -> & _).
  rename select (ft_add_work _ _ = _) into Ha. unfold ft_add_work in Ha. inv_ok. simpl in *.
  rename select (charge _ _ _ _ _ = _) into Hc. apply charge_Ok in Hc as (-> & _ & Hc).
  match goal with t : Tree |- _ => rename t into tree end.
  pose proof (dir_work_length pre d (tr_entries tree)). pose proof (zlen_nonneg (tr_entries tree)).
  rewrite zlen_app, zlen_cons. unfold saturating_add in *.
  rewrite Z.min_l in * by (unfold USIZE_MAX, U64_MAX, MAX_TREE_WORK_ITEMS, MANIFEST_MAX_ENTRIES in *; lia).
  lia.
Qed.

(** [tree_to_flat] always ends, whatever the store returns: the traversal reaches a result
    or an error well within the [2 ^ 22] iterations of the model, because every object it opens
    is paid for from the bounded work budget. *)
Theorem flatten_terminates fetch root :
  ∃ r, iterate 22 (flatten_step fetch) ([Enter root "" 0], FlattenTraversal_new) = Done r.
Proof.
  apply (iterate_done _ work_bounded) with (m := flatten_measure).
  - intros s s' Hs Hst. by eapply flatten_step_bounds.
  - intros s s' Hs Hst. by eapply flatten_step_bounds.
  - intros [p t] Hs. unfold work_bounded, flatten_measure in *. simpl in *. pose proof (zlen_nonneg p). lia.
  - unfold work_bounded. simpl. unfold MAX_TREE_WORK_ITEMS, MANIFEST_MAX_ENTRIES. lia.
  - vm_compute. reflexivity.
Qed.

(** ** Correctness *)

(** Component lists that [join] and [split] translate faithfully. *)
Definition clean (parts : list string) : Prop :=
  Forall (λ c, c ≠ "" ∧ contains_char slash c = false) parts.

Lemma join_clean_empty parts : clean parts → join slash parts = "" → parts = [].
Proof.
  intros Hc Hj. destruct parts as [|p [|q l]]; [done| |].
  - inversion_clear Hc as [|?? [Hp _]]. done.
  - rewrite join_cons in Hj. by destruct p.
Qed.

Lemma join_path_clean parts n : clean parts → join_path (join slash parts) n = join slash (parts ++ [n]).
Proof.
  intros Hc. unfold join_path. case_decide as Hj.
  - by rewrite (join_clean_empty _ Hc Hj).
  - rewrite join_app; [done| |done]. by intros ->.
Qed.

Lemma split_clean parts : clean parts → parts ≠ [] → split slash (join slash parts) = parts.
Proof.
  intros Hc Hne. apply split_join; [done|]. eapply Forall_impl; [exact Hc|]. by intros c [_ ?].
Qed.

Lemma valid_entry_clean e : entry_valid e → te_name e ≠ "" ∧ contains_char slash (te_name e) = false.
Proof.
  intros (Hs & Hn & _)%entry_valid_facts. split; [|done]. by apply is_safe_rel_path_true in Hs as (? & _).
Qed.

Section run.
Context (fetch : Fetch) (root : string).

(** What a path of the flat view must hold. *)
Definition flat_target (p : string) (s : FileState) : Prop :=
  ∃ e, tree_lookup fetch root (split slash p) = Some e ∧ s = entry_state p e.

(** A stack item that stands for the directory [pp] of the store. *)
Definition stands_for (hash prefix : string) (pp : list string) : Prop :=
  prefix = join slash pp ∧ clean pp ∧
  ∀ rest, rest ≠ [] → tree_lookup fetch root (pp ++ rest) = tree_lookup fetch hash rest.

Record flatten_inv (st : list FlattenWork * FlattenTraversal) : Prop := {
  fi_sound p s : ft_files st.2 !! p = Some s → flat_target p s;
  fi_pending h pre d : Enter h pre d ∈ st.1 → ∃ pp, stands_for h pre pp;
  fi_complete parts e : tree_lookup fetch root parts = Some e →
    is_Some (ft_files st.2 !! join slash parts) ∨
    ∃ h pre d pp rest, Enter h pre d ∈ st.1 ∧ stands_for h pre pp ∧ rest ≠ [] ∧ parts = pp ++ rest;
}.

Lemma flatten_inv_initial : flatten_inv ([Enter root "" 0], FlattenTraversal_new).
Proof.
  assert (stands_for root "" []) as Hroot by (split_and!; [done|constructor|done]).
  constructor; simpl.
  - intros p s. by rewrite lookup_empty.
  - intros h pre d [= -> -> ->]%list_elem_of_singleton. eauto.
  - intros parts e He. right. exists root, "", 0, [], parts. split_and!; [by left|done| |done]. by intros ->.
Qed.

(** Names below a directory. *)
Lemma stands_for_child h pre pp t e :
  stands_for h pre pp → fetch h = Ok t → tree_valid t → e ∈ tr_entries t →
  clean (pp ++ [te_name e]) ∧ join_path pre (te_name e) = join slash (pp ++ [te_name e]) ∧
  (is_dir e = true → stands_for (te_hash e) (join_path pre (te_name e)) (pp ++ [te_name e])) ∧
  (is_dir e = false → flat_target (join_path pre (te_name e)) (entry_state (join_path pre (te_name e)) e)).
Proof.
  intros (-> & Hc & Hl) Hf [_ _ Hv Hn _] He. rewrite Forall_forall in Hv.
  assert (clean (pp ++ [te_name e])) as Hc'.
  { apply Forall_app. split; [done|]. constructor; [|constructor]. by apply valid_entry_clean, Hv. }
  rewrite join_path_clean by done. split_and!; [done|done| |].
  - intros Hd. split_and!; [done|done|]. intros rest Hr. rewrite <-(assoc_L (++)), Hl by done.
    by apply (tree_lookup_dir _ _ t).
  - intros Hd. exists e. split; [|done]. rewrite split_clean, Hl by (done || by destruct pp).
    by apply (tree_lookup_leaf _ _ t).
Qed.

(** The files written by one directory. *)
Lemma written_files pre es (m : gmap string FileState) :
  let m' := foldl (λ m e, if is_dir e then m else
    <[join_path pre (te_name e) := entry_state (join_path pre (te_name e)) e]> m) m es in
  (∀ p s, m' !! p = Some s → m !! p = Some s ∨
     ∃ e, e ∈ es ∧ is_dir e = false ∧ p = join_path pre (te_name e) ∧ s = entry_state p e) ∧
  (∀ p, is_Some (m !! p) → is_Some (m' !! p)) ∧
  (∀ e, e ∈ es → is_dir e = false → is_Some (m' !! join_path pre (te_name e))).
Proof.
  cbv zeta. revert m. induction es as [|e es IH]; intros m; simpl.
  { split_and!; [by auto|done|]. by intros e ?%elem_of_nil. }
  destruct (IH (if is_dir e then m else
    <[join_path pre (te_name e) := entry_state (join_path pre (te_name e)) e]> m)) as (H1 & H2 & H3).
  split_and!.
  - intros p s [Hp|(e' & He' & ?)]%H1; [|right; exists e'; split; [by right|done]].
    destruct (is_dir e) eqn:Hd; [by left|]. apply lookup_insert_Some in Hp as [[<- <-]|[_ ?]]; [|by left].
    right. exists e. split; [by left|done].
  - intros p Hp. apply H2. destruct (is_dir e); [done|]. rewrite lookup_insert_is_Some. destruct (decide (join_path pre (te_name e) = p)); auto.
  - intros e' [->|He']%elem_of_cons Hd; [|by apply H3]. apply H2. rewrite Hd. by rewrite lookup_insert_eq.
Qed.

Lemma dir_work_elem pre d es h pre' d' :
  Enter h pre' d' ∈ dir_work pre d es ↔
  ∃ e, e ∈ es ∧ is_dir e = true ∧ h = te_hash e ∧ pre' = join_path pre (te_name e) ∧ d' = d + 1.
Proof.
  unfold dir_work. rewrite list_elem_of_omap. split.
  - intros (e & He & Hw). destruct (is_dir e) eqn:Hd; [|done]. simplify_eq. eauto 10.
  - intros (e & He & Hd & -> & -> & ->). exists e. by rewrite Hd.
Qed.

(** One iteration that opens a directory, on the parts of the state the invariant reads. *)
Lemma flatten_enter_inv h pre d pending t tree es t' :
  flatten_inv (Enter h pre d :: pending, t) → fetch h = Ok tree → tree_valid tree → es ≡ₚ tr_entries tree →
  ft_files t' = foldl (λ m e, if is_dir e then m else
    <[join_path pre (te_name e) := entry_state (join_path pre (te_name e)) e]> m) (ft_files t) es →
  flatten_inv (dir_work pre d es ++ Exit h :: pending, t').
Proof.
  intros [Hs Hp Hc] Hf Hv Hes Hfiles. simpl in *.
  destruct (Hp h pre d) as [pp Hpp]; [by left|].
  destruct (written_files pre es (ft_files t)) as (H1 & H2 & H3).
  rewrite <-Hfiles in H1, H2, H3.
  pose proof (λ e He, stands_for_child _ _ _ _ e Hpp Hf Hv He) as Hchild. setoid_rewrite <-Hes in Hchild.
  assert (∀ h' pre' d', Enter h' pre' d' ∈ pending →
    Enter h' pre' d' ∈ dir_work pre d es ++ Exit h :: pending) as Hkeep by set_solver.
  constructor; simpl.
  - intros p s [?|(e & He & Hd & -> & ->)]%H1; [by apply Hs|]. by apply Hchild.
  - intros h' pre' d' [(e & He & Hd & -> & -> & ->)%dir_work_elem|[?|?]%elem_of_cons]%elem_of_app; [|done|].
    + eexists. by apply Hchild.
    + apply (Hp h' pre' d'). by right.
  - intros parts e He. destruct (Hc parts e He) as [?|(h' & pre' & d' & pp' & rest & Hin & Hst & Hr & ->)];
      [left; by apply H2|].
    apply elem_of_cons in Hin as [[= -> -> ->]|Hin]; [|right; exists h', pre', d', pp', rest; auto].
    destruct Hst as (-> & Hcl & Hlook). rewrite Hlook in He by done. destruct rest as [|n rest]; [done|].
    apply tree_lookup_inv in He as (t2 & e' & Hf' & He' & <- & Hcase). rewrite Hf in Hf'. simplify_eq. rewrite <-Hes in He'.
    assert (pp' = pp) as ->.
    { destruct Hpp as (Heq & Hcl' & _). destruct (decide (pp' = [])) as [->|Hn1].
      - symmetry. by apply join_clean_empty.
      - destruct (decide (pp = [])) as [->|Hn2]; [by apply join_clean_empty|].
        by rewrite <-(split_clean pp'), Heq, split_clean. }
    destruct (Hchild _ He') as (_ & Hjp & Hdir & _). destruct Hcase as [(-> & -> & Hd)|(Hne & Hd & Hl)].
    + left. rewrite <-Hjp. by apply H3.
    + right. eexists (te_hash e'), _, (d + 1), (pp ++ [te_name e']), rest.
      split_and!; [|by apply Hdir|done|by rewrite <-(assoc_L (++))].
      apply elem_of_app. left. apply dir_work_elem. eauto 10.
Qed.

(** Neither the order of the stack nor the counters matter. *)
Lemma flatten_inv_same l l' t t' :
  flatten_inv (l, t) → (∀ x, x ∈ l' ↔ x ∈ l) → ft_files t' = ft_files t → flatten_inv (l', t').
Proof.
  intros [Hs Hp Hc] Hl Hf. constructor; simpl in *; rewrite ?Hf; [done| |].
  - intros h pre d. rewrite Hl. apply Hp.
  - intros parts e He. setoid_rewrite Hl. by eapply Hc.
Qed.

Lemma flatten_step_inv st st' : flatten_inv st → flatten_step fetch st = More st' → flatten_inv st'.
Proof.
  destruct st as [[|w pending] t], st' as [pending' t']; unfold flatten_step; simpl; [done|].
  destruct (flatten_work fetch w pending t) as [[p1 t1]|] eqn:Hw; [|done]. intros HI [= -> ->].
  unfold flatten_work in Hw. inv_ok.
  rename select (release_pending_path _ _ = _) into Hr. unfold release_pending_path in Hr. inv_ok.
  destruct w as [h pre d|h]; inv_ok; simpl in *.
  - rename select (try_fold _ _ _ = _) into Hf. apply flatten_entries_Ok in Hf as (_ & _ & _ & _ & -> & Hfiles).
    rename select (ft_add_work _ _ = _) into Ha. unfold ft_add_work in Ha. inv_ok. simpl in Hfiles.
    eapply flatten_enter_inv; [exact HI|done|by apply validate_tree_spec|done|exact Hfiles].
  - destruct HI as [Hs Hp Hc]. constructor; simpl in *; [done| |].
    + intros h' pre d Hin. apply (Hp h' pre d). by right.
    + intros parts e [?|(h' & pre & d & pp & rest & [?|?]%elem_of_cons & ?)]%Hc; [by left|done|].
      right. by exists h', pre, d, pp, rest.
Qed.
End run.

(** C24. When [tree_to_flat] succeeds its map is exactly the flat view of the store: a path is
    mapped to a state if and only if the components of the path lead from the root to a leaf,
    and then the state carries the hash, size and mode of that leaf, mtime 0, not deleted. *)
Theorem tree_to_flat_correct fetch root files p s :
  tree_to_flat root fetch = Ok files →
  files !! p = Some s ↔
  ∃ e, tree_lookup fetch root (split slash p) = Some e ∧
    s = mkFileState p (te_hash e) (te_size e) 0 false (te_mode e).
Proof.
  unfold tree_to_flat, flatten_run. intros Hr.
  destruct (iterate 22 _ _) as [|[t|]] eqn:Hit; [done| |done]. simpl in Hr. inv_ok.
  assert (flatten_inv fetch root ([], t)) as [Hs _ Hc].
  { eapply (iterate_inv _ (flatten_inv fetch root)) with
      (Q := λ r, ∀ t, r = Ok t → flatten_inv fetch root ([], t)) in Hit;
      [|by apply flatten_step_inv| |apply flatten_inv_initial]; [by apply Hit|].
    intros [[|w pending] t1] r HI; unfold flatten_step; simpl; [|by destruct (flatten_work _ _ _ _); intros [= <-]].
    intros [= <-] ? [= <-]. done. }
  simpl in *. split; [apply Hs|]. intros (e & He & ->). change (ft_files t !! p = Some (entry_state p e)).
  destruct (Hc _ _ He) as [[s Hs']|(? & ? & ? & ? & ? & ?%elem_of_nil & _)]; [|done].
  rewrite join_split in Hs'. destruct (Hs _ _ Hs') as (e' & He' & ->). congruence.
Qed.
End unicode.

(** ** Witnesses *)
Definition sample_flat : gmap string FileState :=
  unwrap_or ∅ (@tree_to_flat ascii_unicode (tb_root (sample_bundle key_order)) (fetch_from (tb_trees (sample_bundle key_order)))).

Lemma tree_to_flat_correct_witness :
  sample_flat !! "src/main.rs" = Some (mkFileState "src/main.rs" hex_a 42 0 false 1).
Proof.
  apply (@tree_to_flat_correct ascii_unicode (fetch_from (tb_trees (sample_bundle key_order)))
    (tb_root (sample_bundle key_order))); [vm_compute; reflexivity|].
  exists (mkTreeEntry "main.rs" File hex_a 42 1). split; [vm_compute; reflexivity|reflexivity].
Defined.
