(* ===== verification/Diff.v ===== *)
(** * Differences between two canonical roots

    common/src/tree_diff.rs: [diff_trees] compares two roots with an explicit stack, skipping
    subtrees with equal ids.  The stack is a list whose head is the next item to pop. *)
From Stdlib Require Import ZArith Lia Ascii Strings.Byte.
From stdpp Require Import sorting numbers strings gmap list_numbers list options.
From S2P Require Import Prelude Text Paths Model Codec CodecProps Lookup Convert Flatten.

Local Open Scope Z_scope.

Inductive DiffSide := Before | After.
#[global] Instance DiffSide_eq_dec : EqDecision DiffSide.
Proof. solve_decision. Defined.

Inductive DiffWork :=
| Pair (before_hash after_hash prefix : string) (depth : Z)
| CollectDir (hash path : string) (kind : TreeChangeKind) (side : DiffSide) (depth : Z)
| DiffExit (hash : string) (side : DiffSide).

Definition diff_pending_path_len (w : DiffWork) : Z :=
  match w with
  | Pair _ _ prefix _ => slen prefix
  | CollectDir _ path _ _ _ => slen path
  | DiffExit _ _ => 0
  end.

Record DiffTraversal := mkDiff {
  df_before_active : gset string;
  df_after_active : gset string;
  df_objects : gset string;
  df_work_items : Z;
  df_constructed_path_bytes : Z;
  df_pending_path_bytes : Z;
  df_changes : list TreeChange;
}.
Definition DiffTraversal_new : DiffTraversal := mkDiff ∅ ∅ ∅ 0 0 0 [].

Definition df_active (side : DiffSide) (t : DiffTraversal) : gset string :=
  match side with Before => df_before_active t | After => df_after_active t end.
Definition df_set_active (side : DiffSide) (active : gset string) (t : DiffTraversal) : DiffTraversal :=
  match side with
  | Before => mkDiff active (df_after_active t) (df_objects t) (df_work_items t)
                (df_constructed_path_bytes t) (df_pending_path_bytes t) (df_changes t)
  | After => mkDiff (df_before_active t) active (df_objects t) (df_work_items t)
               (df_constructed_path_bytes t) (df_pending_path_bytes t) (df_changes t)
  end.
Definition df_set_changes (changes : list TreeChange) (t : DiffTraversal) : DiffTraversal :=
  mkDiff (df_before_active t) (df_after_active t) (df_objects t) (df_work_items t)
    (df_constructed_path_bytes t) (df_pending_path_bytes t) changes.
Definition df_set_pending (n : Z) (t : DiffTraversal) : DiffTraversal :=
  mkDiff (df_before_active t) (df_after_active t) (df_objects t) (df_work_items t)
    (df_constructed_path_bytes t) n (df_changes t).

Definition diff_enter (side : DiffSide) (hash : string) (depth : Z) (t : DiffTraversal) : Result DiffTraversal :=
  bail_if (MAX_TREE_DEPTH <? depth) "canonical tree diff exceeds directory levels" ;;
  bail_if (bool_decide (hash ∈ df_active side t)) "cycle in canonical tree" ;;
  Ok (df_set_active side ({[hash]} ∪ df_active side t) t).

Definition diff_exit (side : DiffSide) (hash : string) (t : DiffTraversal) : Result DiffTraversal :=
  bail_if (negb (bool_decide (hash ∈ df_active side t))) "canonical tree diff lost active object" ;;
  Ok (df_set_active side (df_active side t ∖ {[hash]}) t).

Definition diff_release (amount : Z) (t : DiffTraversal) : Result DiffTraversal :=
  n ← or_context (checked_sub (df_pending_path_bytes t) amount)
        "canonical tree diff pending-path counter underflow";
  Ok (df_set_pending n t).

Definition push_change (change : TreeChange) (t : DiffTraversal) : Result DiffTraversal :=
  bail_if (MAX_TREE_OUTPUT_PATHS <=? zlen (df_changes t)) "canonical tree diff exceeds output paths" ;;
  Ok (df_set_changes (df_changes t ++ [change]) t).

(** The traversal and the children queued so far. *)
Abbreviation DiffState := (DiffTraversal * list DiffWork)%type.

Definition queue_work (work : DiffWork) (st : DiffState) : Result DiffState :=
  n ← charge (df_pending_path_bytes st.1) (diff_pending_path_len work) MAX_TREE_PATH_BYTES_TOTAL
        "canonical tree diff pending-path counter overflow" "canonical tree diff exceeds pending path-byte limit";
  Ok (df_set_pending n st.1, st.2 ++ [work]).

Definition collect_or_change (entry : TreeEntry) (path : string) (kind : TreeChangeKind) (side : DiffSide)
    (depth : Z) (st : DiffState) : Result DiffState :=
  if is_dir entry then queue_work (CollectDir (te_hash entry) path kind side depth) st
  else
    t ← push_change (mkTreeChange path kind
          (if decide (kind = Deleted) then Some entry else None)
          (if decide (kind = Added) then Some entry else None)) st.1;
    Ok (t, st.2).

Section unicode.
Context `{Unicode}.

Definition validate_output_path (path : string) (depth : Z) : Result unit :=
  bail_if ((MAX_TREE_DEPTH <? depth) || negb (is_safe_rel_path path))
    "canonical tree diff produced an unsafe or oversized path".

Definition construct_path (prefix name : string) (depth : Z) (t : DiffTraversal)
    : Result (string * DiffTraversal) :=
  let path := join_path prefix name in
  validate_output_path path depth ;;
  n ← charge (df_constructed_path_bytes t) (slen path) MAX_TREE_PATH_BYTES_TOTAL
        "canonical tree diff constructed-path counter overflow"
        "canonical tree diff exceeds aggregate path-byte limit";
  Ok (path, mkDiff (df_before_active t) (df_after_active t) (df_objects t) (df_work_items t) n
              (df_pending_path_bytes t) (df_changes t)).

Definition fetch_tree (fetch : Fetch) (hash : string) (depth : Z) (t : DiffTraversal)
    : Result (Tree * DiffTraversal) :=
  let objects := {[hash]} ∪ df_objects t in
  bail_if (negb (bool_decide (hash ∈ df_objects t)) && (MAX_TREE_OBJECTS <? Z.of_nat (size objects)))
    "canonical tree diff exceeds distinct tree objects" ;;
  tree ← fetch hash;
  validate_tree tree ;;
  bail_if ((0 <? depth) && bool_decide (tr_entries tree = []))
    "canonical tree contains a non-root empty directory" ;;
  n ← charge (df_work_items t) (saturating_add (zlen (tr_entries tree)) 1) MAX_TREE_WORK_ITEMS
        "canonical tree diff work counter overflow" "canonical tree diff exceeds work items";
  Ok (tree, mkDiff (df_before_active t) (df_after_active t) objects n (df_constructed_path_bytes t)
              (df_pending_path_bytes t) (df_changes t)).

Definition fetch_entries (fetch : Fetch) (hash : string) (depth : Z) (t : DiffTraversal)
    : Result (gmap string TreeEntry * DiffTraversal) :=
  '(tree, t) ← fetch_tree fetch hash depth t;
  Ok (hash_collect ((λ entry, (te_name entry, entry)) <$> tr_entries tree), t).

(** The body of the loop over the union of the names of two directories. *)
Definition diff_name (before_entries after_entries : gmap string TreeEntry) (prefix : string) (depth : Z)
    (st : DiffState) (name : string) : Result DiffState :=
  '(path, t) ← construct_path prefix name (depth + 1) st.1;
  let st := (t, st.2) in
  match before_entries !! name, after_entries !! name with
  | Some left_entry, Some right_entry =>
      if decide (left_entry = right_entry) then Ok st
      else if is_dir left_entry && is_dir right_entry then
        queue_work (Pair (te_hash left_entry) (te_hash right_entry) path (depth + 1)) st
      else if is_dir left_entry || is_dir right_entry then
        st ← collect_or_change left_entry path Deleted Before (depth + 1) st;
        collect_or_change right_entry path Added After (depth + 1) st
      else
        t ← push_change (mkTreeChange path Modified (Some left_entry) (Some right_entry)) st.1;
        Ok (t, st.2)
  | Some left_entry, None => collect_or_change left_entry path Deleted Before (depth + 1) st
  | None, Some right_entry => collect_or_change right_entry path Added After (depth + 1) st
  | None, None => Ok st
  end.

(** [before_entries.keys().chain(after_entries.keys()).collect::<BTreeSet<_>>()]. *)
Definition union_names (before_entries after_entries : gmap string TreeEntry) : list string :=
  dedup (sort_strings ((btree_entries before_entries).*1 ++ (btree_entries after_entries).*1)).

Definition process_pair (fetch : Fetch) (pending : list DiffWork) (before_hash after_hash prefix : string)
    (depth : Z) (t : DiffTraversal) : Result (list DiffWork * DiffTraversal) :=
  if decide (before_hash = after_hash) then Ok (pending, t) else
  t ← diff_enter Before before_hash depth t;
  t ← diff_enter After after_hash depth t;
  '(before_entries, t) ← fetch_entries fetch before_hash depth t;
  '(after_entries, t) ← fetch_entries fetch after_hash depth t;
  '(t, children) ← try_fold (diff_name before_entries after_entries prefix depth) (t, [])
                     (union_names before_entries after_entries);
  Ok (children ++ DiffExit after_hash After :: DiffExit before_hash Before :: pending, t).

Definition collect_child (path : string) (kind : TreeChangeKind) (side : DiffSide) (depth : Z)
    (st : DiffState) (child : TreeEntry) : Result DiffState :=
  '(child_path, t) ← construct_path path (te_name child) (depth + 1) st.1;
  collect_or_change child child_path kind side (depth + 1) (t, st.2).

Definition process_collect_dir (fetch : Fetch) (pending : list DiffWork) (hash path : string)
    (kind : TreeChangeKind) (side : DiffSide) (depth : Z) (t : DiffTraversal)
    : Result (list DiffWork * DiffTraversal) :=
  t ← diff_enter side hash depth t;
  '(tree, t) ← fetch_tree fetch hash depth t;
  '(t, children) ← try_fold (collect_child path kind side depth) (t, []) (tr_entries tree);
  Ok (children ++ DiffExit hash side :: pending, t).

(** One iteration of [while let Some(work) = pending.pop()]. *)
Definition diff_work (fetch : Fetch) (work : DiffWork) (pending : list DiffWork) (t : DiffTraversal)
    : Result (list DiffWork * DiffTraversal) :=
  t ← diff_release (diff_pending_path_len work) t;
  match work with
  | Pair before_hash after_hash prefix depth => process_pair fetch pending before_hash after_hash prefix depth t
  | CollectDir hash path kind side depth => process_collect_dir fetch pending hash path kind side depth t
  | DiffExit hash side => t ← diff_exit side hash t; Ok (pending, t)
  end.

Definition diff_step (fetch : Fetch) (st : list DiffWork * DiffTraversal)
    : step (list DiffWork * DiffTraversal) (Result DiffTraversal) :=
  match st.1 with
  | [] => Done (Ok st.2)
  | work :: pending =>
      match diff_work fetch work pending st.2 with
      | Ok st' => More st'
      | Err e => Done (Err e)
      end
  end.

(** [DiffTraversal::run]: [2 ^ 22] iterations are enough for every store. *)
Definition diff_run (fetch : Fetch) (before after : string) : Result DiffTraversal :=
  match iterate 22 (diff_step fetch) ([Pair before after "" 0], DiffTraversal_new) with
  | Done r => r
  | More _ => Err "traversal does not end"
  end.

Definition diff_trees (before after : string) (fetch : Fetch) : Result (list TreeChange) :=
  if decide (before = after) then Ok [] else
  t ← diff_run fetch before after;
  Ok (sort_by tc_path (df_changes t)).
End unicode.
