(* ===== verification/DiffProps.v ===== *)
(** * Tree differences: termination and correctness

    [diff_trees] always ends, and when it succeeds it lists exactly the paths whose leaves
    differ between the two roots, once each, in ascending order. *)
From Stdlib Require Import ZArith Lia Ascii Strings.Byte.
From stdpp Require Import sorting numbers strings gmap list_numbers list options.
From S2P Require Import Prelude Text Paths Model Codec CodecProps Lookup Convert ConvertProps.
From S2P Require Import Flatten FlattenProps Diff.

Local Open Scope Z_scope.

(** ** What one name contributes *)

(** The leaf and the directory id of an entry, if it is one. *)
Definition leaf_of (o : option TreeEntry) : option TreeEntry :=
  match o with Some e => if is_dir e then None else Some e | None => None end.
Definition dir_of (o : option TreeEntry) : option string :=
  match o with Some e => if is_dir e then Some (te_hash e) else None | None => None end.

Definition leaf_change (path : string) (l r : option TreeEntry) : list TreeChange :=
  match l, r with
  | Some a, Some b => if decide (a = b) then [] else [mkTreeChange path Modified (Some a) (Some b)]
  | Some a, None => [mkTreeChange path Deleted (Some a) None]
  | None, Some b => [mkTreeChange path Added None (Some b)]
  | None, None => []
  end.

Definition child_work (path : string) (depth : Z) (l r : option TreeEntry) : list DiffWork :=
  if decide (l = r) then [] else
  match dir_of l, dir_of r with
  | Some a, Some b => [Pair a b path depth]
  | Some a, None => [CollectDir a path Deleted Before depth]
  | None, Some b => [CollectDir b path Added After depth]
  | None, None => []
  end.

(** What a piece of the traversal appended to the changes and the children; it may move the
    path counters but leaves everything else alone. *)
Record appended (st st' : DiffState) (cs : list TreeChange) (ws : list DiffWork) : Prop := {
  ap_changes : df_changes st'.1 = df_changes st.1 ++ cs;
  ap_children : st'.2 = st.2 ++ ws;
  ap_work : df_work_items st'.1 = df_work_items st.1;
}.

Lemma appended_nil st : appended st st [] [].
Proof. constructor; by rewrite ?app_nil_r. Qed.

Lemma appended_trans st1 st2 st3 cs1 ws1 cs2 ws2 :
  appended st1 st2 cs1 ws1 → appended st2 st3 cs2 ws2 → appended st1 st3 (cs1 ++ cs2) (ws1 ++ ws2).
Proof. intros [H1 H2 H3] [H4 H5 H6]. constructor; rewrite ?H4, ?H5, ?H6, ?H1, ?H2, ?H3; by rewrite ?app_assoc. Qed.

Lemma queue_work_Ok w st st' : queue_work w st = Ok st' → appended st st' [] [w].
Proof. unfold queue_work. intros Hq. inv_ok. constructor; simpl; by rewrite ?app_nil_r. Qed.

Lemma collect_or_change_Ok e path kind side depth st st' :
  collect_or_change e path kind side depth st = Ok st' → kind ≠ Modified →
  if is_dir e then appended st st' [] [CollectDir (te_hash e) path kind side depth]
  else appended st st' [mkTreeChange path kind (if decide (kind = Deleted) then Some e else None)
                                               (if decide (kind = Added) then Some e else None)] [].
Proof.
  unfold collect_or_change. intros Hc Hk. destruct (is_dir e); [by apply queue_work_Ok|].
  inv_ok. rename select (push_change _ _ = _) into Hp. unfold push_change in Hp. inv_ok.
  constructor; simpl; by rewrite ?app_nil_r.
Qed.

(** One side only. *)
Lemma collect_deleted e path depth st st' :
  collect_or_change e path Deleted Before depth st = Ok st' →
  appended st st' (leaf_change path (leaf_of (Some e)) None) (child_work path depth (Some e) None).
Proof.
  intros Hc%collect_or_change_Ok; [|done]. unfold child_work. rewrite decide_False by done. simpl.
  by destruct (is_dir e).
Qed.

Lemma collect_added e path depth st st' :
  collect_or_change e path Added After depth st = Ok st' →
  appended st st' (leaf_change path None (leaf_of (Some e))) (child_work path depth None (Some e)).
Proof.
  intros Hc%collect_or_change_Ok; [|done]. unfold child_work. rewrite decide_False by done. simpl.
  by destruct (is_dir e).
Qed.

Section unicode.
Context `{Unicode}.

Lemma construct_path_Ok prefix name depth t path t' :
  construct_path prefix name depth t = Ok (path, t') →
  path = join_path prefix name ∧ df_changes t' = df_changes t ∧ df_work_items t' = df_work_items t.
Proof. unfold construct_path. intros Hc. by inv_ok. Qed.

Lemma diff_name_Ok be ae prefix depth st name st' :
  diff_name be ae prefix depth st name = Ok st' →
  let path := join_path prefix name in
  appended st st' (leaf_change path (leaf_of (be !! name)) (leaf_of (ae !! name)))
    (child_work path (depth + 1) (be !! name) (ae !! name)).
Proof.
  unfold diff_name. intros Hd. cbv zeta. apply bind_Ok in Hd as ([path t] & Hp & Hd).
  apply construct_path_Ok in Hp as (-> & Hch & Hw).
  eapply (appended_trans _ (t, st.2) _ [] []); [constructor; simpl; by rewrite ?app_nil_r|].
  destruct (be !! name) as [l|], (ae !! name) as [r|]; [| by apply collect_deleted| by apply collect_added|].
  2: { simpl in Hd. inv_ok. apply appended_nil. }
  destruct (decide (l = r)) as [->|Hne].
  { inv_ok. unfold child_work. rewrite (decide_True (P := Some r = Some r)) by done. simpl.
    destruct (is_dir r); [apply appended_nil|]. simpl. rewrite decide_True by done. apply appended_nil. }
  unfold child_work. rewrite decide_False by congruence.
  destruct (is_dir l) eqn:Hl, (is_dir r) eqn:Hr; simpl andb in Hd; simpl orb in Hd; simpl; rewrite Hl, Hr; simpl.
  - by apply queue_work_Ok.
  - apply bind_Ok in Hd as (st1 & H1%collect_deleted & H2%collect_added).
    pose proof (appended_trans _ _ _ _ _ _ _ H1 H2) as Ha. unfold child_work in Ha. simpl in Ha. by rewrite Hl, Hr in Ha.
  - apply bind_Ok in Hd as (st1 & H1%collect_deleted & H2%collect_added).
    pose proof (appended_trans _ _ _ _ _ _ _ H1 H2) as Ha. unfold child_work in Ha. simpl in Ha. by rewrite Hl, Hr in Ha.
  - rewrite decide_False by done. apply bind_Ok in Hd as (t' & Hp & Hd). unfold push_change in Hp. inv_ok.
    constructor; simpl; by rewrite ?app_nil_r.
Qed.

(** The two loops, with the entries a name has on either side. *)
Lemma diff_names_Ok be ae prefix depth names st st' :
  try_fold (diff_name be ae prefix depth) st names = Ok st' →
  appended st st'
    (names ≫= λ n, leaf_change (join_path prefix n) (leaf_of (be !! n)) (leaf_of (ae !! n)))
    (names ≫= λ n, child_work (join_path prefix n) (depth + 1) (be !! n) (ae !! n)).
Proof.
  revert st. induction names as [|n names IH]; intros st Hf; cbn [try_fold] in Hf.
  { inv_ok. apply appended_nil. }
  apply bind_Ok in Hf as (st1 & Hd%diff_name_Ok & Hf%IH). by eapply appended_trans.
Qed.

Lemma collect_child_Ok path kind side depth st e st' :
  collect_child path kind side depth st e = Ok st' →
  ∃ t, df_changes t = df_changes st.1 ∧ df_work_items t = df_work_items st.1 ∧
    collect_or_change e (join_path path (te_name e)) kind side (depth + 1) (t, st.2) = Ok st'.
Proof.
  unfold collect_child. intros Hc. apply bind_Ok in Hc as ([p t] & Hp & Hc).
  apply construct_path_Ok in Hp as (-> & Hch & Hw). eauto.
Qed.

Lemma collect_children_deleted path depth es st st' :
  try_fold (collect_child path Deleted Before depth) st es = Ok st' →
  appended st st' (es ≫= λ e, leaf_change (join_path path (te_name e)) (leaf_of (Some e)) None)
    (es ≫= λ e, child_work (join_path path (te_name e)) (depth + 1) (Some e) None).
Proof.
  revert st. induction es as [|e es IH]; intros st Hf; cbn [try_fold] in Hf.
  { inv_ok. apply appended_nil. }
  apply bind_Ok in Hf as (st1 & (t & Hch & Hw & Hd%collect_deleted)%collect_child_Ok & Hf%IH).
  eapply appended_trans; [|exact Hf]. destruct Hd as [H1 H2 H3]. simpl in *.
  constructor; [by rewrite H1, Hch|done|by rewrite H3].
Qed.

Lemma collect_children_added path depth es st st' :
  try_fold (collect_child path Added After depth) st es = Ok st' →
  appended st st' (es ≫= λ e, leaf_change (join_path path (te_name e)) None (leaf_of (Some e)))
    (es ≫= λ e, child_work (join_path path (te_name e)) (depth + 1) None (Some e)).
Proof.
  revert st. induction es as [|e es IH]; intros st Hf; cbn [try_fold] in Hf.
  { inv_ok. apply appended_nil. }
  apply bind_Ok in Hf as (st1 & (t & Hch & Hw & Hd%collect_added)%collect_child_Ok & Hf%IH).
  eapply appended_trans; [|exact Hf]. destruct Hd as [H1 H2 H3]. simpl in *.
  constructor; [by rewrite H1, Hch|done|by rewrite H3].
Qed.

(** ** One iteration *)

(** The directories a stack item compares, on either side, and its path. *)
Definition sources (w : DiffWork) : option (option string * option string * string * Z) :=
  match w with
  | Pair b a prefix d => Some (Some b, Some a, prefix, d)
  | CollectDir h path _ Before d => Some (Some h, None, path, d)
  | CollectDir h path _ After d => Some (None, Some h, path, d)
  | DiffExit _ _ => None
  end.

(** The traversal only queues deletions on the old side and additions on the new one. *)
Definition wf_work (w : DiffWork) : Prop :=
  match w with
  | CollectDir _ _ kind Before _ => kind = Deleted
  | CollectDir _ _ kind After _ => kind = Added
  | _ => True
  end.

(** [E] gives the entries of directory [o] of the store, of none if there is no directory. *)
Definition entries_of (fetch : Fetch) (o : option string) (E : string → option TreeEntry) : Prop :=
  match o with
  | Some h => ∃ t, fetch h = Ok t ∧ tree_valid t ∧ ∀ n, E n = find_entry n (tr_entries t)
  | None => ∀ n, E n = None
  end.

(** What opening [w] does. *)
Record opened (fetch : Fetch) (w : DiffWork) (cs : list TreeChange) (ws : list DiffWork) : Prop := {
  op_sources : ∃ l r path d E1 E2 names, sources w = Some (l, r, path, d) ∧
    entries_of fetch l E1 ∧ entries_of fetch r E2 ∧ NoDup names ∧
    (∀ n, n ∈ names ↔ is_Some (E1 n) ∨ is_Some (E2 n)) ∧
    cs = (names ≫= λ n, leaf_change (join_path path n) (leaf_of (E1 n)) (leaf_of (E2 n))) ∧
    ws = (names ≫= λ n, child_work (join_path path n) (d + 1) (E1 n) (E2 n));
}.

Lemma child_work_length path d l r : zlen (child_work path d l r) ≤ 1.
Proof. unfold child_work. by repeat case_match. Qed.

Lemma bind_length_le {A B} (f : A → list B) l : (∀ a, zlen (f a) ≤ 1) → zlen (l ≫= f) ≤ zlen l.
Proof.
  intros Hf. induction l as [|a l IH]; [done|]. rewrite bind_cons, zlen_app, zlen_cons.
  specialize (Hf a). lia.
Qed.

Lemma collect_find (l : list TreeEntry) n :
  NoDup (te_name <$> l) → hash_collect ((λ e, (te_name e, e)) <$> l) !! n = find_entry n l.
Proof.
  intros Hnd. apply option_eq. intros e. rewrite hash_collect_NoDup.
  - rewrite list_elem_of_fmap. split.
    + intros (e' & [= -> ->] & He). by apply find_entry_elem.
    + intros [He <-]%find_entry_Some. eauto.
  - by rewrite <-list_fmap_compose.
Qed.

Lemma union_names_spec be ae :
  NoDup (union_names be ae) ∧ ∀ n, n ∈ union_names be ae ↔ is_Some (be !! n) ∨ is_Some (ae !! n).
Proof.
  unfold union_names. split.
  - rewrite <-(list_fmap_id (dedup _)). apply (sorted_lt_NoDup id), dedup_sorted, (sort_by_sorted id).
  - intros n. rewrite dedup_elem. unfold sort_strings. rewrite sort_by_perm, elem_of_app, !list_elem_of_fmap.
    split.
    + intros [([k e] & -> & He%elem_of_btree_entries)|([k e] & -> & He%elem_of_btree_entries)]; eauto.
    + intros [[e He]|[e He]]; [left|right]; exists (n, e); (split; [done|by apply elem_of_btree_entries]).
Qed.

Lemma btree_length (m : gmap string TreeEntry) : length (btree_entries m) = size m.
Proof. rewrite (Permutation_length (btree_entries_perm m)). apply length_map_to_list. Qed.

Lemma union_names_length be ae : zlen (union_names be ae) ≤ map_len be + map_len ae.
Proof.
  unfold union_names. etrans; [apply sort_dedup_length|]. rewrite zlen_app. unfold zlen, map_len.
  rewrite !length_fmap, !btree_length. lia.
Qed.

Lemma fetch_tree_Ok fetch h d t tree t' :
  fetch_tree fetch h d t = Ok (tree, t') →
  fetch h = Ok tree ∧ tree_valid tree ∧ df_changes t' = df_changes t ∧
  df_work_items t' = df_work_items t + zlen (tr_entries tree) + 1 ∧ df_work_items t' ≤ MAX_TREE_WORK_ITEMS.
Proof.
  unfold fetch_tree. intros Hf. inv_ok. rename select (charge _ _ _ _ _ = _) into Hc.
  apply charge_Ok in Hc as (-> & Hc1 & Hc2). simpl. split_and!; [done|by apply validate_tree_spec|done|..].
  all: rename select (validate_tree _ = _) into Hv; apply validate_tree_spec in Hv as [Hn _ _ _ _].
  all: assert (MAX_TREE_ENTRIES + 1 ≤ USIZE_MAX) by (by vm_compute).
  all: unfold saturating_add in *; rewrite Z.min_l in * by lia; lia.
Qed.

Lemma collect_size (l : list TreeEntry) :
  map_len (hash_collect ((λ e, (te_name e, e)) <$> l)) ≤ zlen l.
Proof.
  unfold hash_collect, map_len, zlen. induction l as [|e l IH] using rev_ind; [done|].
  rewrite fmap_app, foldl_app, length_app. cbn [list_fmap foldl length fst snd fmap].
  match goal with |- context [<[_ := _]> ?m] => set (m0 := m) in * end.
  rewrite map_size_insert. destruct (m0 !! te_name e); unfold id; lia.
Qed.

Lemma diff_enter_Ok side h d t t' :
  diff_enter side h d t = Ok t' → df_changes t' = df_changes t ∧ df_work_items t' = df_work_items t.
Proof. unfold diff_enter. intros He. inv_ok. by destruct side. Qed.

Lemma diff_release_Ok n t t' :
  diff_release n t = Ok t' → df_changes t' = df_changes t ∧ df_work_items t' = df_work_items t.
Proof. unfold diff_release. intros Hr. by inv_ok. Qed.

(** The effect of one iteration on the stack and the changes. *)
Definition iteration (fetch : Fetch) (w : DiffWork) (pending : list DiffWork) (t : DiffTraversal)
    (pending' : list DiffWork) (t' : DiffTraversal) : Prop :=
  (∃ cs ws exits, opened fetch w cs ws ∧ df_changes t' = df_changes t ++ cs ∧
     pending' = ws ++ exits ++ pending ∧ Forall (λ x, sources x = None) exits) ∨
  (df_changes t' = df_changes t ∧ pending' = pending ∧
     ∀ l r path d, sources w = Some (l, r, path, d) → l = r).

(** Opening an item is paid for from the work budget. *)
Definition work_paid (pending : list DiffWork) (t : DiffTraversal) (pending' : list DiffWork) (t' : DiffTraversal) : Prop :=
  zlen pending' + 2 * df_work_items t < zlen pending + 1 + 2 * df_work_items t' ∧
  df_work_items t ≤ df_work_items t' ∧
  (df_work_items t ≤ MAX_TREE_WORK_ITEMS → df_work_items t' ≤ MAX_TREE_WORK_ITEMS).

Lemma process_pair_Ok fetch pending b a prefix d t pending' t' :
  process_pair fetch pending b a prefix d t = Ok (pending', t') →
  iteration fetch (Pair b a prefix d) pending t pending' t' ∧ work_paid pending t pending' t'.
Proof.
  unfold process_pair. case_decide as Hba.
  { intros [= <- <-]. split; [|unfold work_paid; lia]. right. split_and!; [done..|]. intros ???? [= <- <- _ _]. by rewrite Hba. }
  intros Hp. apply bind_Ok in Hp as (t1 & [Hc1 Hw1]%diff_enter_Ok & Hp).
  apply bind_Ok in Hp as (t2 & [Hc2 Hw2]%diff_enter_Ok & Hp).
  apply bind_Ok in Hp as ([be t3] & Hb & Hp). apply bind_Ok in Hp as ([ae t4] & Ha & Hp).
  apply bind_Ok in Hp as ([t5 ws] & Hf%diff_names_Ok & Hp). inv_ok.
  unfold fetch_entries in Hb, Ha. apply bind_Ok in Hb as ([tb tb'] & Hb & [= <- <-]).
  apply bind_Ok in Ha as ([ta ta'] & Ha & [= <- <-]).
  apply fetch_tree_Ok in Hb as (Hfb & Hvb & Hcb & Hwb & Hmb). apply fetch_tree_Ok in Ha as (Hfa & Hva & Hca & Hwa & Hma).
  destruct Hf as [Hch Hws Hwk]. simpl in *.
  set (be := hash_collect ((λ e, (te_name e, e)) <$> tr_entries tb)) in *.
  set (ae := hash_collect ((λ e, (te_name e, e)) <$> tr_entries ta)) in *.
  destruct (union_names_spec be ae) as [Hnd Hn]. split.
  - left. eexists _, ws, [DiffExit a After; DiffExit b Before]. split_and!; [|by rewrite Hch, Hca, Hcb, Hc2, Hc1|done|by repeat constructor].
    constructor. exists (Some b), (Some a), prefix, d, (be !!.), (ae !!.), (union_names be ae). split_and!; try done.
    + exists tb. split_and!; [done|done|]. intros n. by apply collect_find, Hvb.
    + exists ta. split_and!; [done|done|]. intros n. by apply collect_find, Hva.
  - unfold work_paid. rewrite zlen_app, !zlen_cons, Hws.
    pose proof (bind_length_le (λ n, child_work (join_path prefix n) (d + 1) (be !! n) (ae !! n)) (union_names be ae)
      (λ n, child_work_length _ _ _ _)).
    pose proof (union_names_length be ae).
    assert (map_len be ≤ zlen (tr_entries tb)) by apply collect_size.
    assert (map_len ae ≤ zlen (tr_entries ta)) by apply collect_size.
    pose proof (zlen_nonneg (tr_entries tb)). pose proof (zlen_nonneg (tr_entries ta)). lia.
Qed.

(** Walking the entries of one tree is walking their names. *)
Lemma bind_names {B} (es : list TreeEntry) (f : string → option TreeEntry → list B) :
  NoDup (te_name <$> es) →
  (es ≫= λ e, f (te_name e) (Some e)) = ((te_name <$> es) ≫= λ n, f n (find_entry n es)).
Proof.
  intros Hnd. assert (∀ e, e ∈ es → find_entry (te_name e) es = Some e) as Hf
    by (intros; by apply find_entry_elem).
  revert Hf. generalize es at 1 3 5 as l. induction l as [|e l IH]; intros Hf; [done|].
  rewrite fmap_cons, !bind_cons, Hf by (by left). f_equal. apply IH. intros e' He'. apply Hf. by right.
Qed.

Lemma process_collect_Ok fetch pending h path kind side d t pending' t' :
  process_collect_dir fetch pending h path kind side d t = Ok (pending', t') →
  wf_work (CollectDir h path kind side d) →
  iteration fetch (CollectDir h path kind side d) pending t pending' t' ∧ work_paid pending t pending' t'.
Proof.
  unfold process_collect_dir. intros Hp Hwf. apply bind_Ok in Hp as (t1 & [Hc1 Hw1]%diff_enter_Ok & Hp).
  apply bind_Ok in Hp as ([tree t2] & (Hfe & Hv & Hc2 & Hw2 & Hm)%fetch_tree_Ok & Hp).
  apply bind_Ok in Hp as ([t3 ws] & Hf & Hp). inv_ok. pose proof (zlen_nonneg (tr_entries tree)).
  assert (∀ f, (∀ e, zlen (f e) ≤ 1) → ws = (tr_entries tree ≫= f) → df_work_items t' = df_work_items t2 →
    work_paid pending t (ws ++ DiffExit h side :: pending) t') as Hpaid.
  { intros f Hf1 -> Hwk. unfold work_paid. rewrite zlen_app, zlen_cons.
    pose proof (bind_length_le f (tr_entries tree) Hf1). lia. }
  assert (∀ n, n ∈ te_name <$> tr_entries tree ↔ is_Some (find_entry n (tr_entries tree))) as Hn.
  { intros n. rewrite list_elem_of_fmap. split.
    - intros (e & -> & He). rewrite find_entry_elem; [eauto|apply Hv|done].
    - intros [e [He <-]%find_entry_Some]. eauto. }
  destruct side; simpl in Hwf; subst kind.
  - apply collect_children_deleted in Hf as [Hch Hws Hwk]. simpl in *. split; [|by eapply Hpaid; [|exact Hws|]; intros; [apply child_work_length|]].
    left. eexists _, ws, [DiffExit h Before]. split_and!; [|by rewrite Hch, Hc2, Hc1|done|by repeat constructor].
    constructor. exists (Some h), None, path, d, (λ n, find_entry n (tr_entries tree)), (λ _, None), (te_name <$> tr_entries tree).
    split_and!; [done|by exists tree|done|apply Hv|intros n; rewrite Hn; split; [by left|by intros [?|[]]]|..].
    + apply (bind_names _ (λ n o, leaf_change (join_path path n) (leaf_of o) None)), Hv.
    + rewrite Hws. apply (bind_names _ (λ n o, child_work (join_path path n) (d + 1) o None)), Hv.
  - apply collect_children_added in Hf as [Hch Hws Hwk]. simpl in *. split; [|by eapply Hpaid; [|exact Hws|]; intros; [apply child_work_length|]].
    left. eexists _, ws, [DiffExit h After]. split_and!; [|by rewrite Hch, Hc2, Hc1|done|by repeat constructor].
    constructor. exists None, (Some h), path, d, (λ _, None), (λ n, find_entry n (tr_entries tree)), (te_name <$> tr_entries tree).
    split_and!; [done|done|by exists tree|apply Hv|intros n; rewrite Hn; split; [by right|by intros [[]|?]]|..].
    + apply (bind_names _ (λ n o, leaf_change (join_path path n) None (leaf_of o))), Hv.
    + rewrite Hws. apply (bind_names _ (λ n o, child_work (join_path path n) (d + 1) None o)), Hv.
Qed.

Lemma diff_work_Ok fetch w pending t pending' t' :
  diff_work fetch w pending t = Ok (pending', t') → wf_work w →
  iteration fetch w pending t pending' t' ∧ work_paid pending t pending' t'.
Proof.
  unfold diff_work. intros Hw Hwf. apply bind_Ok in Hw as (t1 & [Hc1 Hw1]%diff_release_Ok & Hw).
  assert (∀ p' t', iteration fetch w pending t1 p' t' ∧ work_paid pending t1 p' t' →
    iteration fetch w pending t p' t' ∧ work_paid pending t p' t') as Hlift.
  { intros p' t2. unfold iteration, work_paid. by rewrite Hc1, Hw1. }
  apply Hlift. destruct w as [b a prefix d|h path kind side d|h side].
  - by apply process_pair_Ok.
  - by apply process_collect_Ok.
  - apply bind_Ok in Hw as (t2 & He & Hw). inv_ok. unfold diff_exit in He. inv_ok.
    split; [right; split_and!; [by destruct side|done|done]|]. unfold work_paid. destruct side; simpl; lia.
Qed.

Lemma child_work_wf path d l r : Forall wf_work (child_work path d l r).
Proof. unfold child_work. repeat case_match; by repeat constructor. Qed.

Lemma opened_wf fetch w cs ws : opened fetch w cs ws → Forall wf_work ws.
Proof.
  intros [(l & r & path & d & E1 & E2 & names & _ & _ & _ & _ & _ & _ & ->)]. apply Forall_forall.
  intros w' (n & Hw' & _)%list_elem_of_bind. by eapply Forall_forall, Hw'; apply child_work_wf.
Qed.

Lemma iteration_wf fetch w pending t pending' t' :
  iteration fetch w pending t pending' t' → Forall wf_work pending → Forall wf_work pending'.
Proof.
  intros [(cs & ws & exits & Ho & _ & -> & He)|(_ & -> & _)] Hp; [|done].
  rewrite !Forall_app. split_and!; [by eapply opened_wf| |done].
  eapply Forall_impl; [exact He|]. intros [| h p k [] d|] Hs; done.
Qed.

(** ** Termination *)
Definition diff_bounded (st : list DiffWork * DiffTraversal) : Prop :=
  Forall wf_work st.1 ∧ 0 ≤ df_work_items st.2 ≤ MAX_TREE_WORK_ITEMS.

Definition diff_measure (st : list DiffWork * DiffTraversal) : Z :=
  2 * (MAX_TREE_WORK_ITEMS - df_work_items st.2) + zlen st.1.

Lemma diff_step_More fetch st st' :
  diff_step fetch st = More st' → ∃ w pending, st.1 = w :: pending ∧ diff_work fetch w pending st.2 = Ok st'.
Proof.
  destruct st as [[|w pending] t]; unfold diff_step; simpl; [done|].
  destruct (diff_work fetch w pending t) eqn:E; [|done]. intros [= ->]. eauto.
Qed.

Lemma diff_step_bounds fetch st st' :
  diff_bounded st → diff_step fetch st = More st' → diff_bounded st' ∧ diff_measure st' < diff_measure st.
Proof.
  intros [Hwf Hb] (w & pending & Hst & Hw)%diff_step_More. destruct st as [p t], st' as [p' t']. simpl in *. subst p.
  apply Forall_cons in Hwf as [Hw0 Hwf]. apply diff_work_Ok in Hw as [Hit (H1 & H2 & H3)]; [|done].
  unfold diff_bounded, diff_measure. simpl. rewrite zlen_cons. split_and!; [by eapply iteration_wf|lia|lia|lia].
Qed.

Lemma diff_bounded_initial before after : diff_bounded ([Pair before after "" 0], DiffTraversal_new).
Proof. split; [by repeat constructor|]. simpl. unfold MAX_TREE_WORK_ITEMS, MANIFEST_MAX_ENTRIES. lia. Qed.

(** [diff_trees] always ends, whatever the store returns: the traversal reaches a result or
    an error within the [2 ^ 22] iterations of the model. *)
Theorem diff_terminates fetch before after :
  ∃ r, iterate 22 (diff_step fetch) ([Pair before after "" 0], DiffTraversal_new) = Done r.
Proof.
  apply (iterate_done _ diff_bounded) with (m := diff_measure).
  - intros s s' Hs Hst. by eapply diff_step_bounds.
  - intros s s' Hs Hst. by eapply diff_step_bounds.
  - intros [p t] [_ Hs]. unfold diff_measure in *. simpl in *. pose proof (zlen_nonneg p). lia.
  - apply diff_bounded_initial.
  - vm_compute. reflexivity.
Qed.

(** ** Correctness *)

(** The parts of a path, [[]] for the root. *)
Definition path_parts (path : string) : list string := if decide (path = "") then [] else split slash path.

Lemma path_parts_join pp : clean pp → path_parts (join slash pp) = pp.
Proof.
  intros Hc. unfold path_parts. case_decide as Hj; [by rewrite (join_clean_empty _ Hc Hj)|].
  apply split_clean; [done|]. by intros ->.
Qed.

(** [w] still has to visit the paths strictly below its own. *)
Definition covers (w : DiffWork) (parts : list string) : Prop :=
  match sources w with
  | Some (_, _, path, _) => path_parts path `prefix_of` parts ∧ path_parts path ≠ parts
  | None => False
  end.
#[local] Instance covers_dec w parts : Decision (covers w parts).
Proof. unfold covers. repeat case_match; apply _. Defined.

Lemma leaf_change_path path l r c : c ∈ leaf_change path l r → tc_path c = path.
Proof. unfold leaf_change. repeat case_match; set_solver. Qed.

Lemma leaf_change_length path l r : (length (leaf_change path l r) ≤ 1)%nat.
Proof. unfold leaf_change. repeat case_match; simpl; lia. Qed.

Lemma leaf_change_nonempty path l r : l ≠ r → ∃ c, c ∈ leaf_change path l r.
Proof.
  intros Hne. destruct l as [a|], r as [b|]; simpl; try done; [|by eexists; left..].
  rewrite decide_False by congruence. by eexists; left.
Qed.

Lemma child_work_sources path d l r w :
  w ∈ child_work path d l r → sources w = Some (dir_of l, dir_of r, path, d).
Proof. unfold child_work. repeat case_match; try set_solver; by intros ->%list_elem_of_singleton. Qed.

(** Counting over the names of a directory. *)
Lemma filter_bind_length {A B} (P : B → Prop) `{!∀ b, Decision (P b)} (f : A → list B) l :
  length (filter P (l ≫= f)) = sum_list_with (λ a, length (filter P (f a))) l.
Proof.
  induction l as [|a l IH]; [done|]. rewrite bind_cons, filter_app, length_app, IH. done.
Qed.

Lemma sum_list_with_add {A} (f g : A → nat) l :
  (sum_list_with f l + sum_list_with g l)%nat = sum_list_with (λ a, f a + g a)%nat l.
Proof. induction l as [|a l IH]; simpl; [done|]. rewrite <-IH. lia. Qed.

Lemma sum_list_with_zero {A} (f : A → nat) l : (∀ a, a ∈ l → f a = 0%nat) → sum_list_with f l = 0%nat.
Proof.
  intros Hl. induction l as [|a l IH]; simpl; [done|].
  rewrite (Hl a), IH; [done| |by left]. intros b Hb. apply Hl. by right.
Qed.

Lemma sum_list_with_one {A} (f : A → nat) (x : A) l :
  NoDup l → (∀ a, a ∈ l → f a ≠ 0%nat → a = x) → (∀ a, f a ≤ 1)%nat → (sum_list_with f l ≤ 1)%nat.
Proof.
  intros Hnd Hx H1. induction Hnd as [|a l Hni Hnd IH]; simpl; [lia|].
  destruct (decide (f a = 0)%nat) as [H0|H0].
  - rewrite H0. apply IH. intros b Hb. apply Hx. by right.
  - rewrite sum_list_with_zero; [specialize (H1 a); lia|]. intros b Hb.
    destruct (decide (f b = 0)%nat) as [|Hb0]; [done|]. destruct Hni.
    rewrite (Hx a), <-(Hx b); [done|by right|done|by left|done].
Qed.

Lemma filter_none {A} (P : A → Prop) `{!∀ a, Decision (P a)} l : (∀ a, a ∈ l → ¬ P a) → length (filter P l) = 0%nat.
Proof.
  intros Hl. destruct (filter P l) as [|a l'] eqn:E; [done|].
  assert (a ∈ filter P l) as [Ha Hin]%list_elem_of_filter by (rewrite E; by left). by destruct (Hl a Hin).
Qed.

Lemma filter_length_le {A} (P : A → Prop) `{!∀ a, Decision (P a)} l : (length (filter P l) ≤ length l)%nat.
Proof. apply length_filter. Qed.

Section run.
Context (fetch : Fetch) (before after : string).

Definition lookup_opt (o : option string) (rest : list string) : option TreeEntry :=
  match o with Some h => tree_lookup fetch h rest | None => None end.

(** The change [diff_trees] must report at a path, if any. *)
Definition change_at (path : string) : list TreeChange :=
  leaf_change path (tree_lookup fetch before (split slash path)) (tree_lookup fetch after (split slash path)).

(** A stack item that compares what the two roots have under [pp]. *)
Definition compares (l r : option string) (path : string) (pp : list string) : Prop :=
  path = join slash pp ∧ clean pp ∧
  ∀ rest, rest ≠ [] → tree_lookup fetch before (pp ++ rest) = lookup_opt l rest ∧
                      tree_lookup fetch after (pp ++ rest) = lookup_opt r rest.

(** How often a path is reported or still to be visited. *)
Definition visits (parts : list string) (st : list DiffWork * DiffTraversal) : nat :=
  length (filter (λ c, tc_path c = join slash parts) (df_changes st.2)) +
  length (filter (λ w, covers w parts) st.1).

Record diff_inv (st : list DiffWork * DiffTraversal) : Prop := {
  di_wf : Forall wf_work st.1;
  di_sound c : c ∈ df_changes st.2 → c ∈ change_at (tc_path c) ∧ clean (split slash (tc_path c));
  di_pending w l r path d : w ∈ st.1 → sources w = Some (l, r, path, d) → ∃ pp, compares l r path pp;
  di_complete parts : tree_lookup fetch before parts ≠ tree_lookup fetch after parts →
    (∃ c, c ∈ df_changes st.2 ∧ tc_path c = join slash parts) ∨ ∃ w, w ∈ st.1 ∧ covers w parts;
  di_once parts : clean parts → parts ≠ [] → (visits parts st ≤ 1)%nat;
}.

Lemma entries_lookup o E n rest :
  entries_of fetch o E → lookup_opt o (n :: rest) =
  match rest with [] => leaf_of (E n) | _ => lookup_opt (dir_of (E n)) rest end.
Proof.
  destruct o as [h|]; simpl; [|intros ->; by destruct rest]. intros (t & Hf & _ & HE). rewrite Hf, HE.
  destruct (find_entry n (tr_entries t)) as [e|], rest; simpl; try done. by destruct (is_dir e).
Qed.

Lemma entries_clean o E n e : entries_of fetch o E → E n = Some e → n ≠ "" ∧ contains_char slash n = false.
Proof.
  destruct o as [h|]; simpl; [|by intros ->]. intros (t & _ & [_ _ Hv _ _] & HE) He. rewrite HE in He.
  apply find_entry_Some in He as [He <-]. rewrite Forall_forall in Hv. by apply valid_entry_clean, Hv.
Qed.

(** The names of an opened item, placed below its path. *)
Section opened.
Context (l r : option string) (path : string) (pp : list string) (E1 E2 : string → option TreeEntry) (names : list string).
Context (Hcmp : compares l r path pp) (HE1 : entries_of fetch l E1) (HE2 : entries_of fetch r E2).
Context (Hn : ∀ n, n ∈ names ↔ is_Some (E1 n) ∨ is_Some (E2 n)).

Lemma name_clean n : n ∈ names → clean (pp ++ [n]) ∧ join_path path n = join slash (pp ++ [n]).
Proof using Hcmp HE1 HE2 Hn.
  intros Hin. destruct Hcmp as (-> & Hc & _). rewrite join_path_clean by done. split; [|done].
  apply Forall_app. split; [done|]. constructor; [|constructor].
  apply Hn in Hin as [[e He]|[e He]]; [by apply (entries_clean _ _ _ _ HE1 He)|by apply (entries_clean _ _ _ _ HE2 He)].
Qed.

Lemma name_lookup n rest :
  tree_lookup fetch before (pp ++ n :: rest) =
    match rest with [] => leaf_of (E1 n) | _ => lookup_opt (dir_of (E1 n)) rest end ∧
  tree_lookup fetch after (pp ++ n :: rest) =
    match rest with [] => leaf_of (E2 n) | _ => lookup_opt (dir_of (E2 n)) rest end.
Proof using Hcmp HE1 HE2.
  destruct Hcmp as (_ & _ & Hl). destruct (Hl (n :: rest)) as [-> ->]; [done|].
  by rewrite (entries_lookup _ _ _ _ HE1), (entries_lookup _ _ _ _ HE2).
Qed.

Lemma name_change n c :
  n ∈ names → c ∈ leaf_change (join_path path n) (leaf_of (E1 n)) (leaf_of (E2 n)) →
  c ∈ change_at (tc_path c) ∧ clean (split slash (tc_path c)).
Proof using Hcmp HE1 HE2 Hn.
  intros Hin Hc. destruct (name_clean n Hin) as [Hcl Hj]. rewrite (leaf_change_path _ _ _ _ Hc).
  unfold change_at. rewrite Hj in *. rewrite split_clean by (done || by destruct pp). split; [|done].
  by destruct (name_lookup n []) as [-> ->].
Qed.

Lemma name_child n d w l' r' path' d' :
  n ∈ names → w ∈ child_work (join_path path n) d (E1 n) (E2 n) → sources w = Some (l', r', path', d') →
  compares l' r' path' (pp ++ [n]).
Proof using Hcmp HE1 HE2 Hn.
  intros Hin Hw%child_work_sources Hs. rewrite Hw in Hs. simplify_eq. destruct (name_clean n Hin) as [Hcl Hj].
  split_and!; [done|done|]. intros rest Hr. rewrite <-(assoc_L (++)). simpl.
  destruct (name_lookup n rest) as [-> ->]. by destruct rest.
Qed.

(** A difference below an opened item shows up as a change or below a child. *)
Lemma name_complete n rest d :
  tree_lookup fetch before (pp ++ n :: rest) ≠ tree_lookup fetch after (pp ++ n :: rest) →
  n ∈ names ∧
  ((rest = [] ∧ ∃ c, c ∈ leaf_change (join_path path n) (leaf_of (E1 n)) (leaf_of (E2 n)) ∧ tc_path c = join slash (pp ++ [n])) ∨
   (∃ w, w ∈ child_work (join_path path n) d (E1 n) (E2 n) ∧ covers w (pp ++ n :: rest))).
Proof using Hcmp HE1 HE2 Hn.
  destruct (name_lookup n rest) as [-> ->]. intros Hne.
  assert (n ∈ names) as Hin.
  { apply Hn. destruct (E1 n); [by eauto|]. destruct (E2 n); [by eauto|]. by destruct rest. }
  split; [done|]. destruct (name_clean n Hin) as [Hcl Hj]. destruct rest as [|n2 rest].
  - left. split; [done|]. destruct (leaf_change_nonempty (join_path path n) _ _ Hne) as [c Hc]. exists c.
    split; [done|]. by rewrite (leaf_change_path _ _ _ _ Hc).
  - right. assert (∃ w, w ∈ child_work (join_path path n) d (E1 n) (E2 n)) as [w Hw].
    { unfold child_work. rewrite decide_False by congruence.
      destruct (dir_of (E1 n)), (dir_of (E2 n)); try (by eexists; left). done. }
    exists w. split; [done|]. unfold covers. rewrite (child_work_sources _ _ _ _ _ Hw), Hj, path_parts_join by done.
    split.
    + exists (n2 :: rest). by rewrite <-(assoc_L (++)).
    + intros Heq%(f_equal length). rewrite !length_app in Heq. simpl in Heq. lia.
Qed.

(** Opening an item visits a path at most once, and only a path the item covered. *)
Lemma name_visits w d parts :
  NoDup names → clean parts → sources w = Some (l, r, path, d) →
  (length (filter (λ c, tc_path c = join slash parts)
     (names ≫= λ n, leaf_change (join_path path n) (leaf_of (E1 n)) (leaf_of (E2 n)))) +
   length (filter (λ w, covers w parts)
     (names ≫= λ n, child_work (join_path path n) (d + 1) (E1 n) (E2 n))) ≤
   length (filter (λ w, covers w parts) [w]))%nat.
Proof using Hcmp HE1 HE2 Hn.
  intros Hnd Hcl Hs. rewrite !filter_bind_length, sum_list_with_add. set (f := λ n, (_ + _)%nat).
  assert (∀ n, n ∈ names → f n ≠ 0%nat → ∃ rest, parts = pp ++ n :: rest) as Hf.
  { intros n Hin Hnz. destruct (name_clean n Hin) as [Hc Hj]. unfold f in Hnz.
    destruct (filter _ (leaf_change _ _ _)) as [|c lc] eqn:Ec.
    - destruct (filter _ (child_work _ _ _ _)) as [|w' lw] eqn:Ew; [done|].
      assert (w' ∈ filter (λ w, covers w parts) (child_work (join_path path n) (d + 1) (E1 n) (E2 n))) as
        [Hcov Hw']%list_elem_of_filter by (rewrite Ew; by left).
      unfold covers in Hcov. rewrite (child_work_sources _ _ _ _ _ Hw'), Hj, path_parts_join in Hcov by done.
      destruct Hcov as [[k ->] _]. exists k. by rewrite <-(assoc_L (++)).
    - assert (c ∈ filter (λ c, tc_path c = join slash parts) (leaf_change (join_path path n) (leaf_of (E1 n)) (leaf_of (E2 n)))) as
        [Hp Hc']%list_elem_of_filter by (rewrite Ec; by left).
      rewrite (leaf_change_path _ _ _ _ Hc'), Hj in Hp. exists [].
      rewrite <-(path_parts_join parts Hcl), <-Hp. by rewrite path_parts_join. }
  assert (∀ n, (f n ≤ 1)%nat) as Hf1.
  { intros n. unfold f.
    pose proof (filter_length_le (λ c, tc_path c = join slash parts) (leaf_change (join_path path n) (leaf_of (E1 n)) (leaf_of (E2 n)))).
    pose proof (filter_length_le (λ w, covers w parts) (child_work (join_path path n) (d + 1) (E1 n) (E2 n))).
    pose proof (leaf_change_length (join_path path n) (leaf_of (E1 n)) (leaf_of (E2 n))).
    pose proof (child_work_length (join_path path n) (d + 1) (E1 n) (E2 n)). unfold zlen in *.
    destruct (filter _ (leaf_change _ _ _)) as [|c lc] eqn:Ec; [simpl; lia|].
    rewrite (filter_none (λ w, covers w parts)); [simpl in *; lia|]. intros w' Hw' Hcov.
    assert (c ∈ filter (λ c, tc_path c = join slash parts) (leaf_change (join_path path n) (leaf_of (E1 n)) (leaf_of (E2 n)))) as
        [Hp Hc']%list_elem_of_filter by (rewrite Ec; by left).
    rewrite (leaf_change_path _ _ _ _ Hc') in Hp. unfold covers in Hcov.
    rewrite (child_work_sources _ _ _ _ _ Hw'), Hp, path_parts_join in Hcov by done. by destruct Hcov. }
  destruct (decide (covers w parts)) as [Hcov|Hcov].
  - rewrite filter_cons_True by done. unfold covers in Hcov. rewrite Hs in Hcov.
    destruct Hcmp as (Hpath & Hcpp & _). rewrite Hpath, path_parts_join in Hcov by done.
    destruct Hcov as [[rest ->] Hne]. destruct rest as [|n rest]; [by rewrite app_nil_r in Hne|]. simpl.
    apply (sum_list_with_one f n); [done| |done]. intros n' Hin Hnz. destruct (Hf n' Hin Hnz) as [rest' Heq].
    by apply (app_inv_head pp) in Heq as [= -> _].
  - rewrite filter_cons_False by done. simpl.
    rewrite sum_list_with_zero; [lia|]. intros n Hin.
    destruct (decide (f n = 0)%nat) as [|Hnz]; [done|]. destruct Hcov.
    destruct (Hf n Hin Hnz) as [rest ->]. unfold covers. rewrite Hs.
    destruct Hcmp as (-> & Hcpp & _). rewrite path_parts_join by done. split; [by eexists|].
    intros Heq%(f_equal length). rewrite length_app in Heq. simpl in Heq. lia.
Qed.
End opened.

Lemma diff_inv_initial : before ≠ after → diff_inv ([Pair before after "" 0], DiffTraversal_new).
Proof.
  intros Hne. constructor; simpl.
  - by repeat constructor.
  - by intros c ?%elem_of_nil.
  - intros w l r path d ->%list_elem_of_singleton [= <- <- <- <-]. exists []. by split_and!; [|constructor|].
  - intros parts Hp. right. exists (Pair before after "" 0). split; [by left|]. split; [apply prefix_nil|].
    intros <-. done.
  - intros parts _ _. unfold visits. simpl. apply (filter_length_le _ [_]).
Qed.

Lemma diff_opened_inv w pending t t' cs ws exits :
  diff_inv (w :: pending, t) → opened fetch w cs ws → df_changes t' = df_changes t ++ cs →
  Forall (λ x, sources x = None) exits → diff_inv (ws ++ exits ++ pending, t').
Proof.
  intros [Hwf Hs Hp Hc Ho] Hop Hch Hex. pose proof (opened_wf _ _ _ _ Hop) as Hws.
  destruct Hop as [(l & r & path & d & E1 & E2 & names & Hsrc & HE1 & HE2 & Hnd & Hn & -> & ->)].
  destruct (Hp w l r path d) as [pp Hcmp]; [by left|done|]. simpl in *.
  pose proof (proj1 (Forall_forall _ _) Hex) as Hex'. simpl in Hex'. constructor; simpl.
  - rewrite !Forall_app. apply Forall_cons in Hwf as [_ Hwf]. split_and!; [done| |done].
    eapply Forall_impl; [exact Hex|]. intros [| h p k [] d'|] He; done.
  - intros c. rewrite Hch, elem_of_app. intros [?|(n & Hcn & Hin)%list_elem_of_bind]; [by apply Hs|].
    by eapply name_change.
  - intros w' l' r' path' d'. rewrite !elem_of_app. intros [(n & Hw & Hin)%list_elem_of_bind|[He|He]] Hs'.
    + eexists. by eapply name_child.
    + rewrite (Hex' _ He) in Hs'. done.
    + eapply Hp; [by right|done].
  - intros parts Hne. destruct (Hc parts Hne) as [(c & Hin & Hpath)|(w' & Hin & Hcov)].
    + left. exists c. rewrite Hch, elem_of_app. auto.
    + apply elem_of_cons in Hin as [->|Hin].
      2: { right. exists w'. rewrite !elem_of_app. auto. }
      unfold covers in Hcov. rewrite Hsrc in Hcov. pose proof Hcmp as (Hpath & Hcl & _).
      rewrite Hpath, path_parts_join in Hcov by done. destruct Hcov as [[rest ->] Hr].
      destruct rest as [|n rest]; [by rewrite app_nil_r in Hr|].
      destruct (name_complete _ _ _ _ _ _ _ Hcmp HE1 HE2 Hn n rest (d + 1) Hne) as [Hin [(-> & c & Hcc & Hcp)|(w2 & Hw2 & Hcov2)]].
      * left. exists c. split; [|done]. rewrite Hch, elem_of_app. right. apply list_elem_of_bind. eauto.
      * right. exists w2. split; [|done]. rewrite elem_of_app. left. apply list_elem_of_bind. eauto.
  - intros parts Hcl Hne. specialize (Ho parts Hcl Hne). unfold visits in *. simpl in *.
    pose proof (name_visits _ _ _ _ _ _ _ Hcmp HE1 HE2 Hn w d parts Hnd Hcl Hsrc) as Hv.
    rewrite Hch, !filter_app, !length_app in *. rewrite (filter_none (λ w, covers w parts) exits).
    2: { intros x Hx. unfold covers. rewrite (Hex' x Hx). tauto. }
    change (w :: pending) with ([w] ++ pending) in Ho. rewrite filter_app, length_app in Ho. lia.
Qed.

(** An item that compares a directory with itself has nothing to visit. *)
Lemma diff_skip_inv w pending t t' :
  diff_inv (w :: pending, t) → df_changes t' = df_changes t →
  (∀ l r path d, sources w = Some (l, r, path, d) → l = r) → diff_inv (pending, t').
Proof.
  intros [Hwf Hs Hp Hc Ho] Hch Hsame. simpl in *. constructor; simpl; rewrite ?Hch.
  - by apply Forall_cons in Hwf as [_ ?].
  - done.
  - intros w' l r path d Hin. apply Hp. by right.
  - intros parts Hne. destruct (Hc parts Hne) as [?|(w' & [->|Hin]%elem_of_cons & Hcov)]; [by left| |right; eauto].
    exfalso. unfold covers in Hcov. destruct (sources w) as [[[[l r] path] d]|] eqn:Hsrc; [|done].
    destruct (Hp w l r path d) as (pp & -> & Hcl & Hl); [by left|done|].
    rewrite path_parts_join in Hcov by done. destruct Hcov as [[rest ->] Hr].
    rewrite (Hsame _ _ _ _ eq_refl) in Hl. destruct (Hl rest) as [H1 H2]; [intros ->; by rewrite app_nil_r in Hr|]. congruence.
  - intros parts Hcl Hne. specialize (Ho parts Hcl Hne). unfold visits in *. simpl in *. rewrite Hch in *.
    change (w :: pending) with ([w] ++ pending) in Ho. rewrite filter_app, length_app in Ho. lia.
Qed.

Lemma diff_step_inv st st' : diff_inv st → diff_step fetch st = More st' → diff_inv st'.
Proof.
  intros HI (w & pending & Hst & Hw)%diff_step_More. destruct st as [p t], st' as [p' t']. simpl in *. subst p.
  pose proof (proj1 (Forall_cons _ _ _) (di_wf _ HI)) as [Hwf _].
  apply diff_work_Ok in Hw as [[(cs & ws & exits & Ho & Hch & -> & He)|(Hch & -> & Hsame)] _]; [| |done].
  - by eapply diff_opened_inv.
  - by eapply diff_skip_inv.
Qed.
End run.

(** What a reported change says: the leaf of its path differs between the two roots. *)
Definition describes (fetch : Fetch) (before after : string) (c : TreeChange) : Prop :=
  tc_before c = tree_lookup fetch before (split slash (tc_path c)) ∧
  tc_after c = tree_lookup fetch after (split slash (tc_path c)) ∧
  tc_before c ≠ tc_after c ∧
  tc_kind c = match tc_before c, tc_after c with
              | Some _, Some _ => Modified
              | Some _, None => Deleted
              | None, _ => Added
              end.

Lemma change_at_describes fetch before after c :
  c ∈ change_at fetch before after (tc_path c) ↔ describes fetch before after c.
Proof.
  unfold change_at, describes. destruct c as [path kind b a]. simpl.
  destruct (tree_lookup fetch before _) as [l|], (tree_lookup fetch after _) as [r|]; simpl.
  - case_decide as Hlr; [subst; split; [by intros ?%elem_of_nil|]|].
    { intros (-> & -> & ? & _). done. }
    rewrite list_elem_of_singleton. split; [intros [= -> -> ->]; naive_solver|]. by intros (-> & -> & _ & ->).
  - rewrite list_elem_of_singleton. split; [intros [= -> -> ->]; naive_solver|]. by intros (-> & -> & _ & ->).
  - rewrite list_elem_of_singleton. split; [intros [= -> -> ->]; naive_solver|]. by intros (-> & -> & _ & ->).
  - split; [by intros ?%elem_of_nil|]. by intros (-> & -> & ? & _).
Qed.

Lemma diff_run_inv fetch before after t :
  before ≠ after → diff_run fetch before after = Ok t → diff_inv fetch before after ([], t).
Proof.
  intros Hne. unfold diff_run. destruct (iterate 22 _ _) as [|r] eqn:Hit; [done|]. intros ->.
  eapply (iterate_inv _ (diff_inv fetch before after)) with
    (Q := λ r, ∀ t, r = Ok t → diff_inv fetch before after ([], t)) in Hit;
    [|by apply diff_step_inv| |by apply diff_inv_initial]; [by apply Hit|].
  intros [[|w pending] t1] r HI; unfold diff_step; simpl; [|by destruct (diff_work _ _ _ _); intros [= <-]].
  intros [= <-] ? [= <-]. done.
Qed.

Lemma diff_changes_NoDup fetch before after t :
  diff_inv fetch before after ([], t) → NoDup (tc_path <$> df_changes t).
Proof.
  intros [_ Hs _ _ Ho]. simpl in *. unfold visits in Ho. simpl in Ho.
  induction (df_changes t) as [|c cs IH]; [constructor|]. simpl. apply NoDup_cons. split.
  - intros (c' & Heq & Hin)%list_elem_of_fmap. destruct (Hs c) as [_ Hcl]; [by left|].
    specialize (Ho (split slash (tc_path c)) Hcl (split_not_nil _ _)). rewrite join_split in Ho.
    rewrite filter_cons_True in Ho by done. simpl in Ho.
    assert (length (filter (λ c0, tc_path c0 = tc_path c) cs) ≠ 0%nat); [|lia].
    intros Hz%nil_length_inv. assert (c' ∈ filter (λ c0, tc_path c0 = tc_path c) cs) as Hf
      by (by apply list_elem_of_filter). rewrite Hz in Hf. by apply elem_of_nil in Hf.
  - apply IH; [intros; apply Hs; by right|]. intros parts Hcl Hne. specialize (Ho parts Hcl Hne).
    rewrite filter_cons in Ho. case_decide; simpl in Ho; lia.
Qed.

(** When [diff_trees] succeeds it lists exactly the paths whose leaves differ between the
    two roots, once each in ascending order, and every change carries the leaf before and
    after and the matching kind; skipping subtrees with equal ids loses nothing. *)
Theorem diff_trees_correct fetch before after changes :
  diff_trees before after fetch = Ok changes →
  StronglySorted (key_lt tc_path) changes ∧
  (∀ c, c ∈ changes → describes fetch before after c) ∧
  (∀ p, tree_lookup fetch before (split slash p) ≠ tree_lookup fetch after (split slash p) →
     ∃ c, c ∈ changes ∧ tc_path c = p).
Proof.
  unfold diff_trees. case_decide as Hne.
  { intros [= <-]. subst. split_and!; [constructor|by intros c ?%elem_of_nil|done]. }
  intros Hd. inv_ok. rename select (diff_run _ _ _ = _) into Hr. apply diff_run_inv in Hr; [|done].
  split_and!.
  - by eapply sort_by_lt, diff_changes_NoDup.
  - intros c. rewrite sort_by_perm. intros [Hc _]%(di_sound _ _ _ _ Hr). by apply change_at_describes.
  - intros p Hp. destruct (di_complete _ _ _ _ Hr _ Hp) as [(c & Hin & Hc)|(w & ?%elem_of_nil & _)]; [|done].
    exists c. rewrite sort_by_perm. by rewrite join_split in Hc.
Qed.
End unicode.

(** ** Witnesses *)
Definition sample_trees : gmap string Tree := tb_trees (sample_bundle key_order).
Definition empty_root : string := @Tree_id sample_blake3 (mkTree []).
Definition sample_store : Fetch := fetch_from (<[empty_root := mkTree []]> sample_trees).

Definition sample_changes : list TreeChange :=
  unwrap_or [] (@diff_trees ascii_unicode empty_root (tb_root (sample_bundle key_order)) sample_store).

Lemma diff_trees_correct_witness :
  tc_path <$> sample_changes = ["README.md"; "src/bin/cli.rs"; "src/main.rs"] ∧
  StronglySorted (key_lt tc_path) sample_changes.
Proof.
  split; [vm_compute; reflexivity|].
  apply (@diff_trees_correct ascii_unicode sample_store empty_root (tb_root (sample_bundle key_order))).
  vm_compute. reflexivity.
Defined.
