(* ===== verification/SyncDelta.v ===== *)
(** * Last-writer-wins sync delta

    common/src/sync_delta.rs: what a client must upload, download and delete, from the file
    states of both sides. *)
From Stdlib Require Import ZArith Lia Ascii.
From stdpp Require Import sorting numbers strings gmap list_numbers list options.
From S2P Require Import Prelude Text Paths Model.

Local Open Scope Z_scope.

Definition push_upload (path : string) (r : SyncResponse) : SyncResponse :=
  mkSyncResponse (upload_required r ++ [path]) (download_required r) (delete_local r).
Definition push_download (f : FileState) (r : SyncResponse) : SyncResponse :=
  mkSyncResponse (upload_required r) (download_required r ++ [f]) (delete_local r).
Definition push_delete (path : string) (r : SyncResponse) : SyncResponse :=
  mkSyncResponse (upload_required r) (download_required r) (delete_local r ++ [path]).

Section unicode.
Context `{Unicode, HashOrder}.

(** The states with portable paths, by path; the last state of a path counts. *)
Definition safe_map (files : list FileState) : gmap string FileState :=
  hash_collect ((λ f, (fs_path f, f)) <$> filter (λ f, is_safe_rel_path (fs_path f) = true) files).

(** The body of the loop over the client's files. *)
Definition client_step (server_map : gmap string FileState) (r : SyncResponse) (kv : string * FileState)
    : SyncResponse :=
  let '(path, client_file) := kv in
  match server_map !! path with
  | Some server_file =>
      if fs_mtime server_file <? fs_mtime client_file then push_upload path r
      else if fs_mtime client_file <? fs_mtime server_file then
        if fs_deleted server_file then push_delete path r else push_download server_file r
      else if negb (eqb (fs_deleted client_file) (fs_deleted server_file))
              || (negb (fs_deleted client_file)
                  && (negb (bool_decide (fs_hash client_file = fs_hash server_file))
                      || negb (fs_mode client_file =? fs_mode server_file)))
      then push_upload path r
      else r
  | None => push_upload path r
  end.

(** The body of the loop over the server's files. *)
Definition server_step (client_map : gmap string FileState) (r : SyncResponse) (kv : string * FileState)
    : SyncResponse :=
  let '(path, server_file) := kv in
  if negb (bool_decide (is_Some (client_map !! path))) && negb (fs_deleted server_file)
  then push_download server_file r else r.

Definition compute_sync_delta (client_files server_files : list FileState) : SyncResponse :=
  let server_map := safe_map server_files in
  let client_map := safe_map client_files in
  let r := foldl (client_step server_map) (mkSyncResponse [] [] []) (hash_iter client_map) in
  foldl (server_step client_map) r (hash_iter server_map).

(** ** What each side does with the answer

    The replicas as maps: the client sends the states of [upload_required], takes the states
    of [download_required], and drops its copy of [delete_local] in favour of the tombstone. *)
Definition apply_to_server (client_map server_map : gmap string FileState) (r : SyncResponse)
    : gmap string FileState :=
  foldl (λ m p, match client_map !! p with Some f => <[p := f]> m | None => m end) server_map (upload_required r).

Definition apply_to_client (client_map server_map : gmap string FileState) (r : SyncResponse)
    : gmap string FileState :=
  foldl (λ m p, match server_map !! p with Some f => <[p := f]> m | None => m end)
    (foldl (λ m f, <[fs_path f := f]> m) client_map (download_required r)) (delete_local r).

(** ** The decision per path *)
Inductive action := Upload | Download (f : FileState) | DeleteLocal | Nothing.

Definition decide_client (client_file : FileState) (server : option FileState) : action :=
  match server with
  | Some server_file =>
      if fs_mtime server_file <? fs_mtime client_file then Upload
      else if fs_mtime client_file <? fs_mtime server_file then
        if fs_deleted server_file then DeleteLocal else Download server_file
      else if bool_decide (view (Some client_file) = view (Some server_file)) then Nothing else Upload
  | None => Upload
  end.

Definition decide_path (client server : option FileState) : action :=
  match client, server with
  | Some c, s => decide_client c s
  | None, Some s => if fs_deleted s then Nothing else Download s
  | None, None => Nothing
  end.

Definition push_action (path : string) (a : action) (r : SyncResponse) : SyncResponse :=
  match a with
  | Upload => push_upload path r
  | Download f => push_download f r
  | DeleteLocal => push_delete path r
  | Nothing => r
  end.

Lemma client_step_action server_map r path c :
  client_step server_map r (path, c) = push_action path (decide_client c (server_map !! path)) r.
Proof.
  unfold client_step, decide_client. destruct (server_map !! path) as [s|]; [|done].
  destruct (fs_mtime s <? fs_mtime c); [done|]. destruct (fs_mtime c <? fs_mtime s); [by destruct (fs_deleted s)|].
  unfold view, live. destruct (fs_deleted c), (fs_deleted s); simpl; [done..|].
  destruct (decide (fs_hash c = fs_hash s)) as [Hh|Hh].
  - rewrite (bool_decide_true (fs_hash c = _)) by done. simpl.
    destruct (Z.eqb_spec (fs_mode c) (fs_mode s)); simpl;
      [rewrite bool_decide_true by congruence|rewrite bool_decide_false by congruence]; done.
  - rewrite (bool_decide_false (fs_hash c = _)) by done. simpl. by rewrite bool_decide_false by congruence.
Qed.

Lemma server_step_action client_map r path s :
  client_map !! path = None →
  server_step client_map r (path, s) = push_action path (decide_path None (Some s)) r.
Proof.
  intros Hc. unfold server_step. rewrite Hc. rewrite bool_decide_false by (by intros []). simpl.
  by destruct (fs_deleted s).
Qed.

Lemma safe_map_facts files p f : safe_map files !! p = Some f → fs_path f = p ∧ is_safe_rel_path p = true ∧ f ∈ files.
Proof.
  intros Hin%hash_collect_Some. apply list_elem_of_fmap in Hin as (g & [= -> ->] & [? ?]%list_elem_of_filter). done.
Qed.

(** The actions of a run, in the order the two loops take them. *)
Definition actions (client_map server_map : gmap string FileState) : list (string * action) :=
  ((λ kv, (kv.1, decide_client kv.2 (server_map !! kv.1))) <$> hash_iter client_map) ++
  ((λ kv, (kv.1, decide_path None (Some kv.2))) <$>
     filter (λ kv, client_map !! kv.1 = None) (hash_iter server_map)).

Lemma actions_elem client_map server_map p a :
  a ≠ Nothing → (p, a) ∈ actions client_map server_map ↔ decide_path (client_map !! p) (server_map !! p) = a.
Proof.
  intros Ha. unfold actions. rewrite elem_of_app, !list_elem_of_fmap. split.
  - intros [([k c] & [= -> ->] & Hc%elem_of_hash_iter)|([k s] & [= -> ->] & [Hn Hs%elem_of_hash_iter]%list_elem_of_filter)];
      simpl in *; [by rewrite Hc|by rewrite Hn, Hs].
  - destruct (client_map !! p) as [c|] eqn:Hc; [|destruct (server_map !! p) as [s|] eqn:Hs; [|naive_solver]]; intros <-.
    + left. exists (p, c). simpl. split; [done|by apply elem_of_hash_iter].
    + right. exists (p, s). split; [done|]. apply list_elem_of_filter. by rewrite elem_of_hash_iter.
Qed.

Lemma actions_NoDup client_map server_map : NoDup (actions client_map server_map).*1.
Proof.
  unfold actions. rewrite fmap_app, NoDup_app, <-!list_fmap_compose. split_and!.
  - apply hash_iter_NoDup.
  - intros p ([k c] & -> & Hc%elem_of_hash_iter)%list_elem_of_fmap
      ([k' s] & Heq & [Hn _]%list_elem_of_filter)%list_elem_of_fmap. simpl in *. congruence.
  - pose proof (hash_iter_NoDup server_map) as Hnd. induction (hash_iter server_map) as [|[k s] l IH]; [constructor|].
    apply NoDup_cons in Hnd as [Hni Hnd]. rewrite filter_cons. case_decide; [|by apply IH]. simpl.
    apply NoDup_cons. split; [|by apply IH]. intros ([k' s'] & Hk & [_ Hin]%list_elem_of_filter)%list_elem_of_fmap.
    apply Hni. simpl in *. subst. by apply (list_elem_of_fmap_2 fst) in Hin.
Qed.

Definition uploads (l : list (string * action)) : list string :=
  omap (λ pa, match pa.2 with Upload => Some pa.1 | _ => None end) l.
Definition downloads (l : list (string * action)) : list FileState :=
  omap (λ pa, match pa.2 with Download f => Some f | _ => None end) l.
Definition deletes (l : list (string * action)) : list string :=
  omap (λ pa, match pa.2 with DeleteLocal => Some pa.1 | _ => None end) l.

Lemma push_actions l r :
  foldl (λ r pa, push_action pa.1 pa.2 r) r l =
  mkSyncResponse (upload_required r ++ uploads l) (download_required r ++ downloads l) (delete_local r ++ deletes l).
Proof.
  revert r. induction l as [|[p a] l IH]; intros r; simpl.
  { rewrite !app_nil_r. by destruct r. }
  rewrite IH. destruct a; simpl; by rewrite <-?app_assoc.
Qed.

Lemma compute_sync_delta_actions client_files server_files :
  let l := actions (safe_map client_files) (safe_map server_files) in
  compute_sync_delta client_files server_files = mkSyncResponse (uploads l) (downloads l) (deletes l).
Proof.
  cbv zeta. unfold compute_sync_delta. set (cm := safe_map client_files). set (sm := safe_map server_files).
  assert (∀ l r, foldl (client_step sm) r l =
    foldl (λ r pa, push_action pa.1 pa.2 r) r ((λ kv, (kv.1, decide_client kv.2 (sm !! kv.1))) <$> l)) as Hc.
  { induction l as [|[p c] l IH]; intros r; [done|]. cbn [foldl]. by rewrite IH, client_step_action. }
  assert (∀ l r, foldl (server_step cm) r l =
    foldl (λ r pa, push_action pa.1 pa.2 r) r
      ((λ kv, (kv.1, decide_path None (Some kv.2))) <$> filter (λ kv, cm !! kv.1 = None) l)) as Hs.
  { induction l as [|[p c] l IH]; intros r; [done|]. cbn [foldl]. rewrite IH, filter_cons. case_decide as Hn.
    - by rewrite server_step_action.
    - f_equal. unfold server_step. simpl in Hn. rewrite bool_decide_true; [done|]. by apply not_eq_None_Some. }
  rewrite Hc, Hs, <-foldl_app, push_actions. done.
Qed.

(** Which list a path lands in. *)
Lemma delta_upload cf sf p :
  p ∈ upload_required (compute_sync_delta cf sf) ↔ decide_path (safe_map cf !! p) (safe_map sf !! p) = Upload.
Proof.
  rewrite compute_sync_delta_actions. simpl. unfold uploads. rewrite list_elem_of_omap, <-actions_elem by done. split.
  - intros ([k a] & Hin & Ha). destruct a; by simplify_eq/=.
  - intros Hin. by exists (p, Upload).
Qed.

Lemma delta_delete cf sf p :
  p ∈ delete_local (compute_sync_delta cf sf) ↔ decide_path (safe_map cf !! p) (safe_map sf !! p) = DeleteLocal.
Proof.
  rewrite compute_sync_delta_actions. simpl. unfold deletes. rewrite list_elem_of_omap, <-actions_elem by done. split.
  - intros ([k a] & Hin & Ha). destruct a; by simplify_eq/=.
  - intros Hin. by exists (p, DeleteLocal).
Qed.

Lemma decide_download c s f : decide_path c s = Download f → s = Some f ∧ fs_deleted f = false.
Proof.
  destruct c as [c|], s as [s|]; simpl; try done; repeat case_match; naive_solver.
Qed.

Lemma delta_download cf sf f :
  f ∈ download_required (compute_sync_delta cf sf) ↔
  decide_path (safe_map cf !! fs_path f) (safe_map sf !! fs_path f) = Download f.
Proof.
  rewrite compute_sync_delta_actions. simpl. unfold downloads. rewrite list_elem_of_omap, <-actions_elem by done. split.
  - intros ([k a] & Hin & Ha). destruct a; simplify_eq/=. pose proof Hin as Hd.
    apply actions_elem, decide_download in Hd as [Hs _]; [|done]. apply safe_map_facts in Hs as (-> & _). done.
  - intros Hin. by exists (fs_path f, Download f).
Qed.

(** ** Applying the answer *)
Lemma copy_lookup (src m : gmap string FileState) l p :
  foldl (λ m p, match src !! p with Some f => <[p := f]> m | None => m end) m l !! p =
  if decide (p ∈ l) then (match src !! p with Some f => Some f | None => m !! p end) else m !! p.
Proof.
  revert m. induction l as [|q l IH]; intros m; cbn [foldl]; [by rewrite decide_False by set_solver|].
  rewrite IH. destruct (decide (p = q)) as [->|Hne].
  - rewrite (decide_True (P := q ∈ q :: l)) by set_solver.
    destruct (src !! q); case_decide; rewrite ?lookup_insert_eq; done.
  - rewrite (decide_ext (p ∈ l) (p ∈ q :: l)) by set_solver.
    destruct (src !! q); rewrite ?lookup_insert_ne by done; done.
Qed.

Lemma store_lookup (m : gmap string FileState) l p :
  foldl (λ m f, <[fs_path f := f]> m) m l !! p =
  match hash_collect ((λ f, (fs_path f, f)) <$> l) !! p with Some f => Some f | None => m !! p end.
Proof.
  unfold hash_collect. induction l as [|f l IH] using rev_ind; simpl; [done|].
  rewrite fmap_app, !foldl_app. simpl. destruct (decide (fs_path f = p)) as [<-|Hne].
  - by rewrite !lookup_insert_eq.
  - rewrite !lookup_insert_ne by done. apply IH.
Qed.

Section apply.
Context (cf sf : list FileState).
Let cm := safe_map cf.
Let sm := safe_map sf.
Let r := compute_sync_delta cf sf.

Lemma server_after p :
  apply_to_server cm sm r !! p =
  match decide_path (cm !! p) (sm !! p) with Upload => cm !! p | _ => sm !! p end.
Proof.
  subst cm sm r. unfold apply_to_server. rewrite copy_lookup. pose proof (delta_upload cf sf p) as Hu.
  case_decide as Hin.
  - rewrite (proj1 Hu Hin). destruct (safe_map cf !! p) eqn:Hc; [done|].
    apply Hu in Hin. simpl in Hin. by repeat case_match.
  - destruct (decide_path _ _); try done. by destruct Hin; apply Hu.
Qed.

Lemma downloaded p :
  hash_collect ((λ f, (fs_path f, f)) <$> download_required r) !! p =
  match decide_path (cm !! p) (sm !! p) with Download f => Some f | _ => None end.
Proof.
  subst cm sm r. assert (∀ f, hash_collect ((λ f, (fs_path f, f)) <$> download_required (compute_sync_delta cf sf)) !! p = Some f →
    decide_path (safe_map cf !! p) (safe_map sf !! p) = Download f) as Hsome.
  { intros f Hf%hash_collect_Some. apply list_elem_of_fmap in Hf as (g & [= -> ->] & Hg). by apply delta_download. }
  destruct (decide_path (safe_map cf !! p) (safe_map sf !! p)) as [|f| |] eqn:Hd.
  1,3,4: destruct (hash_collect _ !! p) eqn:E; [by specialize (Hsome _ eq_refl)|done].
  destruct (proj2 (hash_collect_is_Some ((λ f, (fs_path f, f)) <$> download_required (compute_sync_delta cf sf)) p)) as [g Hg].
  - rewrite <-list_fmap_compose. apply list_elem_of_fmap. exists f.
    destruct (decide_download _ _ _ Hd) as [Hs _]. apply safe_map_facts in Hs as (Hp & _). split; [done|].
    apply delta_download. by rewrite Hp.
  - rewrite Hg. apply Hsome in Hg. congruence.
Qed.

Lemma client_after p :
  apply_to_client cm sm r !! p =
  match decide_path (cm !! p) (sm !! p) with Download _ | DeleteLocal => sm !! p | _ => cm !! p end.
Proof.
  unfold apply_to_client. rewrite copy_lookup, store_lookup, downloaded. subst cm sm r.
  pose proof (delta_delete cf sf p) as Hdel. case_decide as Hin.
  - rewrite (proj1 Hdel Hin). apply Hdel in Hin. destruct (safe_map sf !! p) eqn:Hs; [done|].
    by destruct (safe_map cf !! p); simpl in Hin.
  - destruct (decide_path _ _) as [|f| |] eqn:Hd; try done.
    + symmetry. by apply decide_download in Hd as [-> _].
    + by destruct Hin; apply Hdel.
Qed.
End apply.

Lemma decide_nothing c s : decide_path c s = Nothing → view c = view s.
Proof.
  destruct c as [c|], s as [s|]; simpl; try done.
  - repeat case_match; intros; simplify_eq. by to_prop.
  - unfold view. simpl. by destruct (fs_deleted s).
Qed.

(** Nothing is left to do for a path both sides agree on, state and clock. *)
Lemma decide_same o : decide_path o o = Nothing.
Proof.
  destruct o as [f|]; simpl; [|done]. by rewrite Z.ltb_irrefl, bool_decide_true.
Qed.

(** One exchange brings the two replicas together: after the client has sent, taken and
    deleted what [compute_sync_delta] says, both sides agree on every path. *)
Theorem sync_delta_converges cf sf p :
  let r := compute_sync_delta cf sf in
  view (apply_to_client (safe_map cf) (safe_map sf) r !! p) =
  view (apply_to_server (safe_map cf) (safe_map sf) r !! p).
Proof.
  cbv zeta. rewrite client_after, server_after.
  destruct (decide_path (safe_map cf !! p) (safe_map sf !! p)) eqn:Hd; try done. by apply decide_nothing.
Qed.

(** And it brings them to rest: run on the two replicas after the exchange,
    [compute_sync_delta] asks for nothing more. *)
Theorem sync_delta_settles cf sf cf' sf' :
  let r := compute_sync_delta cf sf in
  safe_map cf' = apply_to_client (safe_map cf) (safe_map sf) r →
  safe_map sf' = apply_to_server (safe_map cf) (safe_map sf) r →
  compute_sync_delta cf' sf' = mkSyncResponse [] [] [].
Proof.
  cbv zeta. intros Hc Hs.
  assert (∀ p, decide_path (safe_map cf' !! p) (safe_map sf' !! p) = Nothing) as Hno.
  { intros p. rewrite Hc, Hs, client_after, server_after.
    destruct (decide_path (safe_map cf !! p) (safe_map sf !! p)) eqn:Hd; try apply decide_same. done. }
  assert (∀ p, p ∉ upload_required (compute_sync_delta cf' sf')) as Hu.
  { intros p. by rewrite delta_upload, Hno. }
  assert (∀ f, f ∉ download_required (compute_sync_delta cf' sf')) as Hd.
  { intros f. by rewrite delta_download, Hno. }
  assert (∀ p, p ∉ delete_local (compute_sync_delta cf' sf')) as Hl.
  { intros p. by rewrite delta_delete, Hno. }
  destruct (compute_sync_delta cf' sf') as [u d l]. simpl in *.
  f_equal; by apply elem_of_nil_inv.
Qed.

Lemma NoDup_omap_keys (g : string * action → option string) (l : list (string * action)) :
  NoDup l.*1 → (∀ pa q, pa ∈ l → g pa = Some q → q = pa.1) → NoDup (omap g l).
Proof.
  induction l as [|pa l IH]; intros Hnd Hg; [constructor|]. apply NoDup_cons in Hnd as [Hni Hnd]. simpl.
  assert (NoDup (omap g l)) as Hl by (apply IH; [done|]; intros; eapply Hg; [by right|done]).
  destruct (g pa) as [q|] eqn:E; [|done]. apply NoDup_cons. split; [|done].
  intros (pa' & Hin & Hq)%list_elem_of_omap. apply Hni.
  rewrite <-(Hg pa q), (Hg pa' q) by (done || by constructor). by apply list_elem_of_fmap_2.
Qed.

Lemma delta_paths_NoDup cf sf :
  NoDup (upload_required (compute_sync_delta cf sf)) ∧
  NoDup (fs_path <$> download_required (compute_sync_delta cf sf)) ∧
  NoDup (delete_local (compute_sync_delta cf sf)).
Proof.
  rewrite compute_sync_delta_actions. simpl. pose proof (actions_NoDup (safe_map cf) (safe_map sf)) as Hnd.
  split_and!; [by apply NoDup_omap_keys; [|intros [p []] q ? [=]]| |by apply NoDup_omap_keys; [|intros [p []] q ? [=]]].
  unfold downloads. rewrite list_fmap_omap. apply NoDup_omap_keys; [done|].
  intros [p a] q Hin Hq. destruct a as [|f| |]; simplify_eq/=.
  apply actions_elem, decide_download in Hin as [Hs _]; [|done]. by apply safe_map_facts in Hs as (-> & _).
Qed.

(** The answer never asks the client to give up newer work or to touch an unsafe path:
    a download or deletion is only requested for a portable path on which the client has no
    state or a strictly older one, and no path is asked for twice or in two ways. *)
Theorem sync_delta_safe cf sf :
  let r := compute_sync_delta cf sf in
  let paths := upload_required r ++ (fs_path <$> download_required r) ++ delete_local r in
  NoDup paths ∧
  (∀ p, p ∈ paths → is_safe_rel_path p = true) ∧
  (∀ p, p ∈ (fs_path <$> download_required r) ++ delete_local r →
     ∃ s, safe_map sf !! p = Some s ∧ ∀ c, safe_map cf !! p = Some c → fs_mtime c < fs_mtime s).
Proof.
  cbv zeta. assert (∀ p, p ∈ fs_path <$> download_required (compute_sync_delta cf sf) ↔
    ∃ f, decide_path (safe_map cf !! p) (safe_map sf !! p) = Download f) as Hdown.
  { intros p. rewrite list_elem_of_fmap. setoid_rewrite delta_download. split.
    - intros (f & -> & Hf). eauto.
    - intros (f & Hf). exists f. destruct (decide_download _ _ _ Hf) as [Hs _].
      by apply safe_map_facts in Hs as (<- & _). }
  split_and!.
  - destruct (delta_paths_NoDup cf sf) as (Hu & Hd & Hl). rewrite !NoDup_app. split_and!; try done.
    + intros p. rewrite elem_of_app, delta_upload, Hdown, delta_delete. intros Hup [[f Hf]|Hf]; congruence.
    + intros p. rewrite delta_delete, Hdown. intros [f Hf]. congruence.
  - intros p. rewrite !elem_of_app, delta_upload, Hdown, delta_delete. intros Hp.
    assert (is_Some (safe_map cf !! p) ∨ is_Some (safe_map sf !! p)) as [[f Hf]|[f Hf]];
      [|by apply safe_map_facts in Hf as (_ & ? & _)..].
    destruct (safe_map cf !! p), (safe_map sf !! p); naive_solver.
  - intros p. rewrite !elem_of_app, Hdown, delta_delete. intros Hp.
    destruct (safe_map cf !! p) as [c|], (safe_map sf !! p) as [s|]; simpl in Hp.
    + exists s. split; [done|]. intros ? [= <-]. repeat case_match; to_prop; naive_solver.
    + naive_solver.
    + by exists s.
    + naive_solver.
Qed.
End unicode.

(** ** Witnesses *)
Definition sample_client : list FileState := [
  mkFileState "a" hex_a 1 10 false 0; mkFileState "b" hex_a 1 20 false 0; mkFileState "c" hex_a 1 5 false 0].
Definition sample_server : list FileState := [
  mkFileState "a" hex_b 1 11 true 0; mkFileState "b" hex_b 1 20 false 0; mkFileState "d" hex_b 1 5 false 1].

Lemma sync_delta_settles_witness :
  @compute_sync_delta ascii_unicode key_order
    [mkFileState "a" hex_b 1 11 true 0; mkFileState "b" hex_a 1 20 false 0; mkFileState "c" hex_a 1 5 false 0;
     mkFileState "d" hex_b 1 5 false 1]
    [mkFileState "a" hex_b 1 11 true 0; mkFileState "b" hex_a 1 20 false 0; mkFileState "c" hex_a 1 5 false 0;
     mkFileState "d" hex_b 1 5 false 1] = mkSyncResponse [] [] [].
Proof.
  apply (@sync_delta_settles ascii_unicode key_order sample_client sample_server).
  - vm_compute. reflexivity.
  - vm_compute. reflexivity.
Defined.
