(* ===== verification/ThreeWay.v ===== *)
(** * Three-way conflict detection

    common/src/three_way.rs: which paths both sides changed since their common base, and how
    the conflict is classified. *)
From Stdlib Require Import ZArith Lia Ascii.
From stdpp Require Import sorting numbers strings gmap list_numbers list options.
From S2P Require Import Prelude Text Paths Model.

Local Open Scope Z_scope.

(** [Option::is_some_and(|s| s.deleted)]. *)
Definition is_deleted (o : option FileState) : bool :=
  match o with Some s => fs_deleted s | None => false end.

Definition classify_conflict_kind (base : FileState) (ours theirs : option FileState) (their_deleted : bool)
    : ConflictKind :=
  let we_deleted := bool_decide (ours = None) || is_deleted ours in
  let they_deleted := their_deleted || is_deleted theirs in
  if we_deleted && negb they_deleted && negb (fs_deleted base) then DeleteEdit
  else if negb we_deleted && they_deleted && negb (fs_deleted base) then EditDelete
  else EditEdit.

Definition theirs_state (path : string) (their_changed : gmap string FileState) (their_deleted : bool)
    : option FileState :=
  match their_changed !! path with
  | Some s => Some s
  | None => if their_deleted then Some (mkFileState path "" 0 0 true 0) else None
  end.

Definition same_content (left right : option FileState) : bool :=
  match left, right with
  | Some l, Some r =>
      eqb (fs_deleted l) (fs_deleted r)
      && (fs_deleted l || (bool_decide (fs_hash l = fs_hash r) && (fs_mode l =? fs_mode r)))
  | None, None => true
  | Some s, None | None, Some s => fs_deleted s
  end.

Section detect.
Context (base local their_changed : gmap string FileState) (their_deleted already_pending : gset string).

(** What the loop pushes for one path it sees for the first time. *)
Definition detect_path (path : string) : option (ConcurrentEdit * ConflictKind) :=
  let ours := local !! path in
  match base !! path with
  | Some base_entry =>
      let we_changed := negb (same_content ours (Some base_entry)) in
      let server_changed := bool_decide (is_Some (their_changed !! path)) || bool_decide (path ∈ their_deleted) in
      if we_changed && server_changed then
        let theirs := theirs_state path their_changed (bool_decide (path ∈ their_deleted)) in
        if same_content ours theirs then None
        else Some (ConcurrentEdit_new path (Some base_entry) ours theirs,
                   classify_conflict_kind base_entry ours (their_changed !! path) (bool_decide (path ∈ their_deleted)))
      else None
  | None =>
      if bool_decide (path ∈ already_pending) then
        match ours, their_changed !! path with
        | Some o, Some t =>
            if negb (same_content (Some o) (Some t))
            then Some (ConcurrentEdit_new path None (Some o) (Some t), EditEdit) else None
        | _, _ => None
        end
      else
        match ours, their_changed !! path with
        | Some our_state, Some their_state =>
            if negb (same_content (Some our_state) (Some their_state)) then
              let kind := if fs_deleted our_state && negb (fs_deleted their_state) then DeleteEdit
                          else if negb (fs_deleted our_state) && fs_deleted their_state then EditDelete
                          else EditEdit in
              Some (ConcurrentEdit_new path None (Some our_state) (Some their_state), kind)
            else None
        | _, _ => None
        end
  end.

Definition detect_step (st : list (ConcurrentEdit * ConflictKind) * gset string) (path : string)
    : list (ConcurrentEdit * ConflictKind) * gset string :=
  let '(out, seen) := st in
  if bool_decide (path ∈ seen) then (out, seen)
  else (match detect_path path with Some c => out ++ [c] | None => out end, {[path]} ∪ seen).

Definition detect_concurrent_edits (candidate_paths : list string) : list (ConcurrentEdit * ConflictKind) :=
  (foldl detect_step ([], ∅) candidate_paths).1.
End detect.

Definition conflict_candidate_paths (response : SyncResponse) (already_pending : list string) : list string :=
  (fs_path <$> download_required response) ++ upload_required response ++ delete_local response
  ++ already_pending.

(** ** Lemmas *)
Lemma same_content_view l r : same_content l r = true ↔ view l = view r.
Proof.
  unfold same_content, view. destruct l as [l|], r as [r|]; simpl; [|by destruct (fs_deleted _); simpl..|done].
  destruct (fs_deleted l), (fs_deleted r); simpl; [done..|].
  rewrite andb_true_iff, bool_decide_eq_true, Z.eqb_eq. split; [by intros [-> ->]|by intros [= -> ->]].
Qed.

Lemma same_content_false l r : same_content l r = false ↔ view l ≠ view r.
Proof. rewrite <-not_true_iff_false, same_content_view. done. Qed.

Section lemmas.
Context (base local their_changed : gmap string FileState) (their_deleted already_pending : gset string).
Let detect := detect_path base local their_changed their_deleted already_pending.
Let run := detect_concurrent_edits base local their_changed their_deleted already_pending.

Lemma detect_path_path p c k : detect p = Some (c, k) → ce_path c = p.
Proof. unfold detect, detect_path. cbv zeta. repeat case_match; intros [=]; by subst. Qed.

Lemma detect_loop l out seen :
  NoDup (ce_path ∘ fst <$> out) → (∀ c, c ∈ out → ce_path c.1 ∈ seen ∧ detect (ce_path c.1) = Some c) →
  let st := foldl (detect_step base local their_changed their_deleted already_pending) (out, seen) l in
  NoDup (ce_path ∘ fst <$> st.1) ∧
  ∀ c, c ∈ st.1 ↔ c ∈ out ∨ (ce_path c.1 ∈ l ∧ ce_path c.1 ∉ seen ∧ detect (ce_path c.1) = Some c).
Proof.
  cbv zeta. revert out seen. induction l as [|p l IH]; intros out seen Hnd Hout; cbn [foldl].
  { split; [done|]. intros c. simpl. set_solver. }
  unfold detect_step at 2 4. fold (detect p). case_bool_decide as Hp.
  { destruct (IH out seen Hnd Hout) as [H1 H2]. split; [done|]. intros c. rewrite H2. set_solver. }
  destruct (detect p) as [[c0 k0]|] eqn:Hd.
  - pose proof (detect_path_path _ _ _ Hd) as Hc0. destruct (IH (out ++ [(c0, k0)]) ({[p]} ∪ seen)) as [H1 H2].
    + rewrite fmap_app. apply NoDup_app. split_and!; [done| |apply NoDup_singleton].
      intros q (c & -> & Hc)%list_elem_of_fmap Hq%list_elem_of_singleton. apply Hp. simpl in Hq. unfold compose in Hq.
      destruct (Hout _ Hc) as [? _]. simpl in *. congruence.
    + intros c [Hc| ->%list_elem_of_singleton]%elem_of_app; [destruct (Hout _ Hc); set_solver|].
      simpl. rewrite Hc0. set_solver.
    + split; [done|]. intros c. rewrite H2, elem_of_app, list_elem_of_singleton, elem_of_cons. split.
      * intros [[?| ->]|(? & ? & ?)]; [by left|right; simpl; rewrite Hc0; auto|right; set_solver].
      * intros [?|([Heq|?] & ? & Hdc)]; [by auto| |].
        -- left. right. rewrite Heq in Hdc. congruence.
        -- destruct (decide (ce_path c.1 = p)) as [Heq|]; [left; right; rewrite Heq in Hdc; congruence|right; set_solver].
  - destruct (IH out ({[p]} ∪ seen)) as [H1 H2]; [done|intros c Hc; destruct (Hout _ Hc); set_solver|].
    split; [done|]. intros c. rewrite H2, elem_of_cons. split; [set_solver|].
    intros [?|([Heq|?] & ? & Hdc)]; [by left|rewrite Heq in Hdc; congruence|]. right.
    split_and!; [done| |done]. intros [Hx%elem_of_singleton|]%elem_of_union; [rewrite Hx in Hdc; congruence|done].
Qed.

Lemma run_elem l c k : (c, k) ∈ run l ↔ ce_path c ∈ l ∧ detect (ce_path c) = Some (c, k).
Proof.
  unfold run, detect_concurrent_edits. destruct (detect_loop l [] ∅) as [_ H2]; [constructor|set_solver|].
  rewrite H2. simpl. set_solver.
Qed.

(** The cloud's state of a path as the conflict records it. *)
Definition theirs (p : string) : option FileState :=
  theirs_state p their_changed (bool_decide (p ∈ their_deleted)).

(** Both sides moved away from their common base, and from each other. *)
Definition diverged (p : string) : Prop :=
  match base !! p with
  | Some b => view (local !! p) ≠ view (Some b) ∧ is_Some (theirs p)
  | None => is_Some (local !! p) ∧ is_Some (their_changed !! p)
  end ∧ view (local !! p) ≠ view (theirs p).

Lemma theirs_changed p t : their_changed !! p = Some t → theirs p = Some t.
Proof. unfold theirs, theirs_state. by intros ->. Qed.

Lemma detect_spec p :
  is_Some (detect p) ↔ diverged p.
Proof.
  unfold detect, detect_path, diverged. cbv zeta. destruct (base !! p) as [b|].
  - destruct (same_content (local !! p) (Some b)) eqn:Hb; simpl.
    { apply same_content_view in Hb. split; [by intros []|naive_solver]. }
    apply same_content_false in Hb.
    assert (bool_decide (is_Some (their_changed !! p)) || bool_decide (p ∈ their_deleted) = true ↔ is_Some (theirs p)) as Hsc.
    { unfold theirs, theirs_state. rewrite orb_true_iff, !bool_decide_eq_true.
      destruct (their_changed !! p) as [t|]; [split; eauto|]. case_bool_decide; split; eauto; by intros [?|?]. }
    destruct (_ || _) eqn:Hor.
    + fold (theirs p). destruct (same_content (local !! p) (theirs p)) eqn:Hs.
      * apply same_content_view in Hs. split; [by intros []|naive_solver].
      * apply same_content_false in Hs. split; [intros _|by eauto]. split; [|done]. split; [done|]. by apply Hsc.
    + split; [by intros []|]. intros [[_ Ht%Hsc] _]. done.
  - destruct (local !! p) as [o|]; [|case_bool_decide; split; [by intros []|by intros [[[] _] _]|by intros []|by intros [[[] _] _]]].
    destruct (their_changed !! p) as [t|] eqn:Ht;
      [|case_bool_decide; split; [by intros []|by intros [[_ []] _]|by intros []|by intros [[_ []] _]]].
    rewrite (theirs_changed p t Ht). destruct (same_content (Some o) (Some t)) eqn:Hs; simpl.
    + apply same_content_view in Hs. case_bool_decide; split; try (by intros []); naive_solver.
    + apply same_content_false in Hs. case_bool_decide; split; eauto.
Qed.

Lemma detect_legs p c k : detect p = Some (c, k) → c = ConcurrentEdit_new p (base !! p) (local !! p) (theirs p).
Proof.
  unfold detect, detect_path, theirs, theirs_state. cbv zeta.
  destruct (base !! p) as [b|]; [repeat case_match; intros [=]; by subst|].
  destruct (local !! p), (their_changed !! p); repeat case_match; intros [=]; by subst.
Qed.
End lemmas.

Lemma detected_elem base local their_changed their_deleted already_pending candidates p :
  p ∈ (ce_path ∘ fst <$> detect_concurrent_edits base local their_changed their_deleted already_pending candidates) ↔
  p ∈ candidates ∧ diverged base local their_changed their_deleted p.
Proof.
  pose proof (run_elem base local their_changed their_deleted already_pending candidates) as Hrun.
  rewrite list_elem_of_fmap, <-(detect_spec _ _ _ _ already_pending). split.
  - intros ([c k] & -> & [Hin Hd]%Hrun). unfold compose. simpl. eauto.
  - intros (Hin & [c k] & Hd). exists (c, k). pose proof (detect_path_path _ _ _ _ _ _ _ _ Hd) as Hc.
    unfold compose. simpl. rewrite Hc. split; [done|]. apply Hrun. by rewrite Hc.
Qed.

(** [detect_concurrent_edits] reports exactly the candidate paths on which both sides moved
    away from the base and from each other, each once, and every report carries the base,
    local and cloud states of its path. *)
Theorem detect_concurrent_edits_exact base local their_changed their_deleted already_pending candidates :
  let out := detect_concurrent_edits base local their_changed their_deleted already_pending candidates in
  NoDup (ce_path ∘ fst <$> out) ∧
  (∀ p, p ∈ (ce_path ∘ fst <$> out) ↔
     p ∈ candidates ∧ diverged base local their_changed their_deleted p) ∧
  (∀ c k, (c, k) ∈ out →
     c = ConcurrentEdit_new (ce_path c) (base !! ce_path c) (local !! ce_path c)
           (theirs their_changed their_deleted (ce_path c))).
Proof.
  cbv zeta. split_and!.
  - by apply (detect_loop base local their_changed their_deleted already_pending candidates [] ∅);
      [constructor|set_solver].
  - intros p. apply detected_elem.
  - intros c k [_ Hd]%run_elem. by eapply detect_legs.
Qed.

(** Classification: against a live base, a reported conflict is delete/edit exactly when
    only the local side deleted the file, edit/delete exactly when only the cloud did, and
    edit/edit when both sides still have it. *)
Theorem conflict_kind_correct base local their_changed their_deleted already_pending candidates c k b :
  (∀ p s, their_changed !! p = Some s → fs_deleted s = false → p ∉ their_deleted) →
  (c, k) ∈ detect_concurrent_edits base local their_changed their_deleted already_pending candidates →
  base !! ce_path c = Some b → fs_deleted b = false →
  k = match view (local !! ce_path c), view (theirs their_changed their_deleted (ce_path c)) with
      | None, _ => DeleteEdit
      | Some _, None => EditDelete
      | Some _, Some _ => EditEdit
      end.
Proof.
  intros Hdis [_ Hd]%run_elem Hb Hlive. set (p := ce_path c) in *.
  assert (diverged base local their_changed their_deleted p) as [_ Hne].
  { apply (detect_spec _ _ _ _ already_pending). eauto. }
  assert (k = classify_conflict_kind b (local !! p) (their_changed !! p) (bool_decide (p ∈ their_deleted))) as ->.
  { unfold detect_path in Hd. cbv zeta in Hd. rewrite Hb in Hd. repeat case_match; naive_solver. }
  assert (bool_decide (local !! p = None) || is_deleted (local !! p) = bool_decide (view (local !! p) = None)) as Hwe.
  { unfold view. destruct (local !! p) as [o|]; [|done]. rewrite bool_decide_false by done. simpl. by destruct (fs_deleted o). }
  assert (is_Some (theirs their_changed their_deleted p) →
    bool_decide (p ∈ their_deleted) || is_deleted (their_changed !! p) =
    bool_decide (view (theirs their_changed their_deleted p) = None)) as Hthey.
  { unfold theirs, theirs_state, view. destruct (their_changed !! p) as [t|] eqn:Ht.
    - intros _. simpl. destruct (fs_deleted t) eqn:Hdt; [by rewrite orb_true_r|].
      by rewrite bool_decide_false by (by eapply Hdis).
    - destruct (bool_decide (p ∈ their_deleted)); [done|by intros [? [=]]]. }
  unfold classify_conflict_kind. rewrite Hwe, Hthey, Hlive.
  - destruct (view (local !! p)), (view (theirs _ _ p)); repeat case_bool_decide; done.
  - pose proof (proj1 (detect_spec base local their_changed their_deleted already_pending p)) as Hdv.
    destruct Hdv as [Hdv _]; [eauto|]. rewrite Hb in Hdv. tauto.
Qed.

(** ** Witness *)
Lemma conflict_kind_correct_witness :
  let base := mkFileState "a" hex_a 1 1 false 0 in
  let ours := mkFileState "a" hex_b 1 1 false 0 in
  let edit := ConcurrentEdit_new "a" (Some base) (Some ours) (Some (mkFileState "a" "" 0 0 true 0)) in
  (edit, EditDelete) ∈ detect_concurrent_edits {["a" := base]} {["a" := ours]} ∅ {["a"]} ∅ ["a"; "a"] ∧
  EditDelete = match view (({["a" := ours]} : gmap string FileState) !! "a"), view (theirs ∅ {["a"]} "a") with
               | None, _ => DeleteEdit
               | Some _, None => EditDelete
               | Some _, Some _ => EditEdit
               end.
Proof.
  cbv zeta. split; [vm_compute; left|].
  apply (conflict_kind_correct {["a" := mkFileState "a" hex_a 1 1 false 0]}
    {["a" := mkFileState "a" hex_b 1 1 false 0]} ∅ {["a"]} ∅ ["a"; "a"]
    (ConcurrentEdit_new "a" (Some (mkFileState "a" hex_a 1 1 false 0)) (Some (mkFileState "a" hex_b 1 1 false 0))
       (Some (mkFileState "a" "" 0 0 true 0))) EditDelete (mkFileState "a" hex_a 1 1 false 0)).
  - intros p s Hs. rewrite lookup_empty in Hs. discriminate Hs.
  - vm_compute. left.
  - vm_compute. reflexivity.
  - reflexivity.
Defined.
