(* ===== verification/Reconcile.v ===== *)
(** * Reconciliation and the conflict gate

    agent-core/src/tree_reconcile.rs decides what a sync pass uploads, downloads and deletes
    from the snapshot both sides last agreed on; agent-core/src/conflicts.rs finds the paths
    both sides changed and takes them out of the plan.  The snapshot store, the hub client and
    the conflict database they read are the record [SnapshotReader] and plain arguments. *)
From Stdlib Require Import ZArith Lia Ascii.
From stdpp Require Import sorting numbers strings gmap list_numbers list options.
From S2P Require Import Prelude Text Paths Model SyncDelta ThreeWay.

Local Open Scope Z_scope.

Record Reconciliation := mkReconciliation {
  rc_base : gmap string FileState;
  rc_response : SyncResponse;
}.

(** ** tree_reconcile.rs *)

(** [same_content] of tree_reconcile.rs, on states already filtered to live ones. *)
Definition same_live (l r : option FileState) : bool :=
  match l, r with
  | Some l, Some r => bool_decide (fs_hash l = fs_hash r) && (fs_mode l =? fs_mode r)
  | None, None => true
  | _, _ => false
  end.

Section reconcile_sets.
Context (local_changed remote_changed : gset string) (local remote : gmap string FileState).

(** The body of [for path in paths]. *)
Definition reconcile_path (response : SyncResponse) (path : string) : SyncResponse :=
  let local_state := live (local !! path) in
  let remote_state := live (remote !! path) in
  if same_live local_state remote_state then response else
  match bool_decide (path ∈ local_changed), bool_decide (path ∈ remote_changed) with
  | true, false => push_upload path response
  | false, true =>
      match remote_state with
      | Some state => push_download state response
      | None => push_delete path response
      end
  | true, true | false, false => response
  end.

(** The set is walked in some order; the three lists are sorted afterwards. *)
Definition reconcile_sets (base : gmap string FileState) : Reconciliation :=
  let paths := elements (local_changed ∪ remote_changed) in
  let response := foldl reconcile_path (mkSyncResponse [] [] []) paths in
  mkReconciliation base
    (mkSyncResponse (sort_strings (upload_required response))
       (sort_by fs_path (download_required response)) (sort_strings (delete_local response))).
End reconcile_sets.

(** The state of a changed path before the change. *)
Definition before_state (change : TreeChange) : option (string * FileState) :=
  (λ entry, (tc_path change,
     mkFileState (tc_path change) (te_hash entry) (te_size entry) 0 false (te_mode entry))) <$> tc_before change.

Definition changed_paths (changes : list TreeChange) : gset string := list_to_set (tc_path <$> changes).

Definition reconcile_changes (local_changes remote_changes : list TreeChange) (local remote : gmap string FileState)
    : Reconciliation :=
  let base := hash_collect (omap before_state (local_changes ++ remote_changes)) in
  reconcile_sets (changed_paths local_changes) (changed_paths remote_changes) local remote base.

(** What the snapshot engine answers to a reconciliation. *)
Record SnapshotReader := mkSnapshotReader {
  last_synced_id : option string;
  load_files : string → Result (gmap string FileState);
  diff_file_view : string → gmap string FileState → Result (list TreeChange);
}.

Definition reconcile `{HashOrder} (snapshots : SnapshotReader) (format_version : Z) (server_head : option string)
    (local remote : gmap string FileState) : Result Reconciliation :=
  match last_synced_id snapshots with
  | None => Ok (reconcile_sets (dom local) (dom remote) local remote ∅)
  | Some base_id =>
      let restored_hub := if 3 <=? format_version then bool_decide (server_head = None)
                          else bool_decide (remote = ∅) in
      restored ← (if restored_hub then
                    base_files ← load_files snapshots base_id;
                    Ok (if bool_decide (base_files = ∅) then None else
                      let uploads := fst <$> filter (λ kv, fs_deleted kv.2 = false) (hash_iter local) in
                      Some (mkReconciliation base_files
                        (mkSyncResponse (dedup (sort_strings uploads)) [] [])))
                  else Ok None);
      match restored with
      | Some r => Ok r
      | None =>
          local_changes ← diff_file_view snapshots base_id local;
          remote_changes ← diff_file_view snapshots base_id remote;
          Ok (reconcile_changes local_changes remote_changes local remote)
      end
  end.

(** ** conflicts.rs *)

(** [same_content] of conflicts.rs. *)
Definition same_content_live (l r : option FileState) : bool := same_live (live l) (live r).

Definition file_changed_since (base : option FileState) (current : FileState) : bool :=
  match base with
  | None => true
  | Some base =>
      negb (bool_decide (fs_hash current = fs_hash base)) || negb (eqb (fs_deleted current) (fs_deleted base))
      || negb (fs_mode current =? fs_mode base)
  end.

Definition paths_case_collide (a b : string) : bool := negb (String.eqb a b) && eq_ignore_ascii_case a b.

Definition filter_blocked_paths (response : SyncResponse) (blocked : gset string) : SyncResponse :=
  mkSyncResponse (filter (λ p, p ∉ blocked) (upload_required response))
    (filter (λ f, fs_path f ∉ blocked) (download_required response))
    (filter (λ p, p ∉ blocked) (delete_local response)).

Section gate.
Context `{Unicode, HashOrder}.

Definition detect_workspace_conflicts_with_server_view (last_synced local_files : gmap string FileState)
    (response : SyncResponse) (already_pending : gset string) (server_files : gmap string FileState)
    : list (ConcurrentEdit * ConflictKind) :=
  let their_changed := hash_collect
    (filter (λ kv, same_content_live (Some kv.2) (last_synced !! kv.1) = false) (hash_iter server_files)) in
  let their_deleted := fst <$>
    filter (λ kv, fs_deleted kv.2 = false ∧ server_files !! kv.1 = None) (hash_iter last_synced) in
  let candidates := conflict_candidate_paths response (elements already_pending)
    ++ (hash_iter their_changed).*1 ++ their_deleted in
  filter (λ e, is_safe_rel_path (ce_path e.1) = true)
    (detect_concurrent_edits last_synced local_files their_changed (list_to_set their_deleted) already_pending candidates).

Definition case_conflict_paths (download_paths : list FileState) (local_paths : gmap string FileState) : list string :=
  omap (λ remote, if existsb (paths_case_collide (fs_path remote)) (hash_iter local_paths).*1
                  then Some (fs_path remote) else None) download_paths.

(** The conflict for a download whose path differs from a local one only in case. *)
Definition case_conflict (last local_files : gmap string FileState) (response : SyncResponse)
    (pending : gset string) (remote_path : string) : option (ConcurrentEdit * ConflictKind) :=
  if bool_decide (remote_path ∈ pending) then None else
  match find (λ f, String.eqb (fs_path f) remote_path) (download_required response) with
  | None => None
  | Some remote =>
      match find (λ p, paths_case_collide p remote_path) (hash_iter local_files).*1 with
      | None => None
      | Some local_key =>
          match local_files !! local_key with
          | None => None
          | Some local =>
              Some (ConcurrentEdit_new remote_path (last !! remote_path) (Some local) (Some remote), EditEdit)
          end
      end
  end.

(** The two scans at the end of the gate: a path of the plan not seen yet on which both sides
    changed is a conflict, with the local state as base when there is none. *)
Definition late_conflict (last : gmap string FileState) (pending : gset string) (path : string)
    (local remote : option FileState)
    (st : list (ConcurrentEdit * ConflictKind) * gset string) : list (ConcurrentEdit * ConflictKind) * gset string :=
  let '(detected, seen) := st in
  if bool_decide (path ∈ pending) then st
  else if bool_decide (path ∈ seen) then st
  else
    let seen := {[path]} ∪ seen in
    match local, remote with
    | Some l, Some r =>
        if same_content_live (Some l) (Some r) then (detected, seen)
        else if file_changed_since (last !! path) l && file_changed_since (last !! path) r then
          let base := match last !! path with Some b => Some b | None => Some l end in
          (detected ++ [(ConcurrentEdit_new path base (Some l) (Some r), EditEdit)], seen)
        else (detected, seen)
    | _, _ => (detected, seen)
    end.

Definition gate_conflicts (last local_files server_files : gmap string FileState) (response : SyncResponse)
    (pending : gset string) : list (ConcurrentEdit * ConflictKind) :=
  let detected := detect_workspace_conflicts_with_server_view last local_files response pending server_files in
  let detected := detected ++ omap (case_conflict last local_files response pending)
                                (case_conflict_paths (download_required response) local_files) in
  let seen := list_to_set (ce_path ∘ fst <$> detected) in
  let st := foldl (λ st remote, late_conflict last pending (fs_path remote)
                     (local_files !! fs_path remote) (Some remote) st)
              (detected, seen) (download_required response) in
  let needs_upload_collision_scan := existsb (λ path, bool_decide (is_Some (local_files !! path))
                                                 && bool_decide (last !! path = None)) (upload_required response) in
  (if needs_upload_collision_scan
   then foldl (λ st path, late_conflict last pending path (local_files !! path) (server_files !! path) st)
          st (upload_required response)
   else st).1.

(** [negotiate_sync_with_conflict_gate] on the views it has loaded: [corrupted] are the paths
    of overwritten placeholders, looked up only when conflicts are registered. *)
Definition negotiate_sync_with_conflict_gate (snapshots : SnapshotReader) (format_version : Z)
    (server_head : option string) (local_files server_files : gmap string FileState)
    (pending : gset string) (register : bool) (corrupted : list string) : Result (SyncResponse * gset string) :=
  reconciled ← reconcile snapshots format_version server_head local_files server_files;
  let all_detected := gate_conflicts (rc_base reconciled) local_files server_files (rc_response reconciled) pending in
  let blocked := pending ∪ (if register then list_to_set corrupted else ∅) in
  let blocked := blocked ∪ list_to_set (ce_path ∘ fst <$> all_detected) in
  Ok (filter_blocked_paths (rc_response reconciled) blocked, blocked).
End gate.
