(* ===== verification/Negotiate.v ===== *)
(** * Validation of a sync plan

    agent-core/src/sync_pass/negotiate.rs: a plan must not change the same hierarchy from both
    sides, and its result must still be a tree.  agent-core/src/sync_pass/mod.rs:
    [promote_rollback_restores] turns downloads of stale states into uploads. *)
From Stdlib Require Import ZArith Lia Ascii.
From stdpp Require Import sorting numbers strings gmap list_numbers list options.
From S2P Require Import Prelude Text Paths Model Codec Convert.

Local Open Scope Z_scope.

(** [path.match_indices('/')], as the prefixes [&path[..index]]. *)
Fixpoint slash_prefixes (path : string) : list string :=
  match path with
  | EmptyString => []
  | String c rest => (if decide (c = slash) then [""] else []) ++ (String c <$> slash_prefixes rest)
  end.

(** Iteration of a [BTreeSet<String>]. *)
Definition btree_set (s : gset string) : list string := sort_strings (elements s).

(** [paths.range(low..).next()]. *)
Definition range_first (paths : gset string) (low : string) : option string :=
  find (λ p, String.leb low p) (btree_set paths).

Definition related_path (paths : gset string) (path : string) : option string :=
  if bool_decide (path ∈ paths) then Some path else
  match find (λ ancestor, bool_decide (ancestor ∈ paths)) (slash_prefixes path) with
  | Some ancestor => Some ancestor
  | None =>
      let descendant_prefix := path +:+ "/" in
      match range_first paths descendant_prefix with
      | Some candidate => if starts_with descendant_prefix candidate then Some candidate else None
      | None => None
      end
  end.

Definition validate_cross_direction_structure (response : SyncResponse) : Result unit :=
  let remote_changes : gset string :=
    list_to_set ((fs_path <$> download_required response) ++ delete_local response) in
  try_fold (λ _ local_path,
    match related_path remote_changes local_path with
    | Some _ => Err "concurrent file/directory conflict; reconcile the hierarchy explicitly before syncing"
    | None => Ok tt
    end) tt (upload_required response).

(** The local files once the deletions and downloads of a plan are applied. *)
Definition projected_files (local_files : gmap string FileState) (response : SyncResponse) : gmap string FileState :=
  foldl (λ m f, <[fs_path f := f]> m) (foldl (λ m p, delete p m) local_files (delete_local response))
    (download_required response).

Section unicode.
Context `{Unicode, Blake3, HashOrder}.

Definition validate_local_projection (local_files : gmap string FileState) (response : SyncResponse) : Result unit :=
  flat_to_tree (projected_files local_files response) ;;
  Ok tt.
End unicode.

(** ** Rollback protection *)
Section rollback.
Context (local_files last_synced : gmap string FileState).

Definition is_rollback (remote : FileState) : bool :=
  match last_synced !! fs_path remote with
  | None => false
  | Some b =>
      negb (fs_deleted b) && (fs_mtime remote <? fs_mtime b) && negb (bool_decide (fs_hash remote = fs_hash b))
      && match local_files !! fs_path remote with
         | Some l => negb (fs_deleted l) && bool_decide (fs_hash l = fs_hash b)
         | None => false
         end
  end.

Definition promote_rollback_restores (response : SyncResponse) : SyncResponse :=
  let restore_paths := fs_path <$> filter (λ r, is_rollback r = true) (download_required response) in
  mkSyncResponse (dedup (sort_strings (upload_required response ++ restore_paths)))
    (filter (λ r, is_rollback r = false) (download_required response)) (delete_local response).
End rollback.

(** ** Lemmas on prefixes *)

(** [b] lies below the directory [a]. *)
Definition below (a b : string) : Prop := ∃ rest, b = a +:+ "/" +:+ rest.

Lemma elem_of_slash_prefixes a path : a ∈ slash_prefixes path ↔ below a path.
Proof.
  revert a. induction path as [|c path IH]; intros a; simpl.
  { split; [by intros ?%elem_of_nil|]. intros [rest Hr]. by destruct a. }
  rewrite elem_of_app, list_elem_of_fmap. split.
  - intros [Ha|(a' & -> & [rest ->]%IH)]; [|by exists rest].
    case_decide as Hc; [|by apply elem_of_nil in Ha]. apply list_elem_of_singleton in Ha as ->. subst. by exists path.
  - intros [rest Hr]. destruct a as [|c' a]; simpl in Hr; injection Hr as -> ->.
    + left. rewrite decide_True by done. by left.
    + right. exists a. split; [done|]. apply IH. by exists rest.
Qed.

Lemma leb_prefix p s : String.leb p (p +:+ s) = true.
Proof.
  unfold String.leb. induction p as [|c p IH]; simpl; [by destruct s|].
  unfold Ascii.compare. by rewrite N.compare_refl.
Qed.

(** Byte order keeps strings with a common prefix together. *)
Lemma leb_between p x rest :
  String.leb p x = true → String.leb x (p +:+ rest) = true → ∃ rest', x = p +:+ rest'.
Proof.
  unfold String.leb. revert x. induction p as [|c p IH]; intros x H1 H2; simpl in *; [by exists x|].
  destruct x as [|d x]; [done|]. simpl in *. unfold Ascii.compare in *.
  rewrite (N.compare_antisym (N_of_ascii d)) in H1.
  destruct (N_of_ascii d ?= N_of_ascii c)%N eqn:Hc; simpl in *; [|done|done].
  apply N.compare_eq_iff in Hc. assert (d = c) as ->.
  { by rewrite <-(ascii_N_embedding d), Hc, ascii_N_embedding. }
  destruct (IH x) as [rest' ->]; [done|done|]. by exists rest'.
Qed.

Lemma leb_le a b : String.leb a b = true ↔ String.le a b.
Proof. unfold String.le. by destruct (String.leb a b). Qed.

Lemma find_sorted l low :
  StronglySorted String.le l →
  match find (λ p, String.leb low p) l with
  | Some c => c ∈ l ∧ String.le low c ∧ ∀ q, q ∈ l → String.le low q → String.le c q
  | None => ∀ q, q ∈ l → ¬ String.le low q
  end.
Proof.
  induction 1 as [|x l Hs IH Hx]; simpl; [by intros q ?%elem_of_nil|].
  destruct (String.leb low x) eqn:Hlow.
  - split_and!; [by left|by apply leb_le|]. rewrite Forall_forall in Hx.
    intros q [->|Hq]%elem_of_cons _; [done|by apply Hx].
  - assert (¬ String.le low x) as Hno by (rewrite <-leb_le; congruence).
    destruct (find _ l) as [c|].
    + destruct IH as (H1 & H2 & H3). split_and!; [by right|done|]. intros q [->|Hq]%elem_of_cons Hle; [done|by apply H3].
    + intros q [->|Hq]%elem_of_cons; [done|by apply IH].
Qed.

Lemma range_first_spec paths low :
  match range_first paths low with
  | Some c => c ∈ paths ∧ String.le low c ∧ ∀ q, q ∈ paths → String.le low q → String.le c q
  | None => ∀ q, q ∈ paths → ¬ String.le low q
  end.
Proof.
  unfold range_first.
  assert (∀ q, q ∈ paths ↔ q ∈ btree_set paths) as Hl.
  { intros q. unfold btree_set, sort_strings. by rewrite sort_by_perm, elem_of_elements. }
  assert (StronglySorted String.le (btree_set paths)) as Hs by apply (sort_by_sorted id).
  pose proof (find_sorted _ low Hs) as Hf. destruct (find _ _) as [c|].
  - destruct Hf as (H1 & H2 & H3). split_and!; [by apply Hl|done|]. intros q Hq%Hl. by apply H3.
  - intros q Hq%Hl. by apply Hf.
Qed.

(** The paths of a set that the hierarchy of [path] touches. *)
Definition related (path q : string) : Prop := q = path ∨ below q path ∨ below path q.

Lemma find_Some_elem {A} (f : A → bool) l a : find f l = Some a → a ∈ l ∧ f a = true.
Proof.
  induction l as [|x l IH]; simpl; [done|]. destruct (f x) eqn:E.
  - intros [= <-]. split; [by left|done].
  - intros [? ?]%IH. split; [by right|done].
Qed.

Lemma find_None_elem {A} (f : A → bool) l a : find f l = None → a ∈ l → f a = false.
Proof.
  induction l as [|x l IH]; simpl; [by intros _ ?%elem_of_nil|]. destruct (f x) eqn:E; [done|].
  intros Hn [->|?]%elem_of_cons; [done|by apply IH].
Qed.

Lemma descendant_below path q : (∃ rest, q = (path +:+ "/") +:+ rest) ↔ below path q.
Proof. unfold below. by setoid_rewrite str_app_assoc. Qed.

Lemma related_path_spec paths path :
  match related_path paths path with
  | Some q => q ∈ paths ∧ related path q
  | None => ∀ q, q ∈ paths → ¬ related path q
  end.
Proof.
  unfold related_path, related. case_bool_decide as Hp; [by auto|].
  destruct (find _ (slash_prefixes path)) as [a|] eqn:Ha.
  { apply find_Some_elem in Ha as [Hin Ha]. apply elem_of_slash_prefixes in Hin.
    apply bool_decide_eq_true in Ha. auto. }
  assert (∀ q, q ∈ paths → ¬ below q path) as Hanc.
  { intros q Hq Hb%elem_of_slash_prefixes. apply (find_None_elem _ _ _ Ha) in Hb. by apply bool_decide_eq_false in Hb. }
  pose proof (range_first_spec paths (path +:+ "/")) as Hr.
  destruct (range_first paths (path +:+ "/")) as [c|].
  - destruct Hr as (Hc & Hle & Hmin). destruct (starts_with (path +:+ "/") c) eqn:Hsw.
    + apply starts_with_iff, descendant_below in Hsw. auto.
    + intros q Hq [->|[Hb|Hb]]; [done|by apply (Hanc q)|]. apply descendant_below in Hb as [rest ->].
      assert (∃ rest', c = (path +:+ "/") +:+ rest') as Hsw'%starts_with_iff; [|congruence].
      eapply leb_between; [by apply leb_le|]. apply leb_le, Hmin; [done|]. apply leb_le, leb_prefix.
  - intros q Hq [->|[Hb|Hb]]; [done|by apply (Hanc q)|]. apply descendant_below in Hb as [rest ->].
    apply (Hr _ Hq). apply leb_le, leb_prefix.
Qed.

(** A plan passes [validate_cross_direction_structure] exactly when no path it uploads is,
    contains, or lies inside a path the hub changes; the ordered-set lookups find every such
    pair. *)
Theorem cross_direction_exact response :
  validate_cross_direction_structure response = Ok tt ↔
  ∀ u q, u ∈ upload_required response →
    q ∈ (fs_path <$> download_required response) ++ delete_local response → ¬ related u q.
Proof.
  unfold validate_cross_direction_structure. cbv zeta. set (remote := list_to_set _ : gset string).
  assert (∀ q, q ∈ (fs_path <$> download_required response) ++ delete_local response ↔ q ∈ remote) as Hr.
  { intros q. unfold remote. by rewrite elem_of_list_to_set. }
  setoid_rewrite Hr. induction (upload_required response) as [|u us IH]; cbn [try_fold].
  { split; [by intros _ u q ?%elem_of_nil|done]. }
  pose proof (related_path_spec remote u) as Hs. destruct (related_path remote u) as [q|].
  - split; [done|]. intros Hno. destruct Hs as [Hq Hrel]. by destruct (Hno u q ltac:(by left) Hq).
  - etrans; [exact IH|]. split.
    + intros Hno u' q [->|Hu]%elem_of_cons; [apply Hs|by apply Hno].
    + intros Hno u' q Hu. apply Hno. by right.
Qed.

(** Rollback protection: exactly the downloads that would replace a live local file still
    equal to the agreed state by an older, different state become uploads of that path; every
    other part of the plan is kept. *)
Theorem promote_rollback_exact local last response :
  let r := promote_rollback_restores local last response in
  (∀ f, f ∈ download_required r ↔ f ∈ download_required response ∧ is_rollback local last f = false) ∧
  (∀ p, p ∈ upload_required r ↔ p ∈ upload_required response ∨
     ∃ f, f ∈ download_required response ∧ fs_path f = p ∧ is_rollback local last f = true) ∧
  delete_local r = delete_local response ∧
  (∀ f, is_rollback local last f = true → ∃ l b, local !! fs_path f = Some l ∧ last !! fs_path f = Some b ∧
     fs_hash l = fs_hash b ∧ fs_hash f ≠ fs_hash b ∧ fs_mtime f < fs_mtime b).
Proof.
  cbv zeta. unfold promote_rollback_restores. simpl. split_and!; [| |done|].
  - intros f. rewrite list_elem_of_filter. tauto.
  - intros p. rewrite dedup_elem. unfold sort_strings. rewrite sort_by_perm, elem_of_app, list_elem_of_fmap.
    setoid_rewrite list_elem_of_filter. split; intros [?|(f & ? & ?)]; auto; right; exists f; naive_solver.
  - intros f. unfold is_rollback. destruct (last !! fs_path f) as [b|]; [|done].
    destruct (local !! fs_path f) as [l|]; [|by rewrite andb_false_r]. intros Hr. to_prop. eauto 10.
Qed.
