(* ===== verification/HubStore.v ===== *)
(** * The store of the in-process hub

    agent-core/src/durable.rs (locked replacement of a JSON file), agent-core/src/hub_state.rs,
    hub_state/store.rs and hub_state/migration.rs: the metadata of every workspace, the
    operations on it, and the export and import used when a hub moves to another machine.

    The state file is represented by the value it parses to. *)
From Stdlib Require Import ZArith Lia Ascii Strings.Byte.
From stdpp Require Import sorting numbers strings gmap list_numbers list options.
From S2P Require Import Prelude Text Paths.

Local Open Scope Z_scope.

(** ** Locked replacement of a file *)

(** How a crash-durable replacement ends: renamed and synced, failed before the rename, or
    renamed with the directory sync failing afterwards. *)
Inductive Commit := Committed | NotCommitted | SyncFailed.

(** The two classes of errors [commit_durability_is_uncertain] tells apart. *)
Inductive HubError :=
| Failed (message : string)
| CommitDurabilityUncertain.

Definition commit_durability_is_uncertain (e : HubError) : bool :=
  match e with CommitDurabilityUncertain => true | Failed _ => false end.

(** [atomic_overwrite]: the result and the content left at the destination. *)
Definition atomic_overwrite {T} (c : Commit) (old new : T) : result HubError unit * T :=
  match c with
  | NotCommitted => (Err (Failed "commit atomic write"), old)
  | SyncFailed => (Err CommitDurabilityUncertain, new)
  | Committed => (Ok tt, new)
  end.

(** [DurableJson::with_read]: the read itself may fail. *)
Definition with_read {T R} (c : Commit) (f : T → result HubError R) (state : T) : result HubError R :=
  match c with Committed => f state | _ => Err (Failed "read state file") end.

(** [DurableJson::with_write]: a closure that fails leaves the file alone. *)
Definition with_write {T R} (c : Commit) (f : T → result HubError R * T) (state : T)
    : result HubError R * T :=
  match f state with
  | (Err e, _) => (Err e, state)
  | (Ok r, state') =>
      match atomic_overwrite c state state' with
      | (Ok _, file) => (Ok r, file)
      | (Err e, file) => (Err e, file)
      end
  end.

(** ** Hub state *)
Definition CURRENT_HUB_SCHEMA : Z := 1.

Record ManifestV1 := mkManifestV1 {
  mf_hashes : list string;
  mf_created_at_ms : Z;   (* i64 *)
}.

Record LegacyFileV1 := mkLegacyFileV1 {
  lf_hash : string;
  lf_size : Z;      (* i64 *)
  lf_mtime : Z;     (* i64 *)
  lf_mode : Z;      (* u32 *)
  lf_deleted : bool;
}.

Record WorkspaceMetaV1 := mkWorkspaceMetaV1 {
  ws_format_version : Z;   (* u32 *)
  ws_head : option string;
  ws_manifests : gmap string ManifestV1;
  ws_files : gmap string LegacyFileV1;
  ws_migration_fence : option string;
  ws_fence_locked_at : Z;  (* i64 *)
}.
#[global] Instance ManifestV1_eq_dec : EqDecision ManifestV1.
Proof. solve_decision. Defined.
#[global] Instance LegacyFileV1_eq_dec : EqDecision LegacyFileV1.
Proof. solve_decision. Defined.
#[global] Instance WorkspaceMetaV1_eq_dec : EqDecision WorkspaceMetaV1.
Proof. solve_decision. Defined.

Definition WorkspaceMetaV1_default : WorkspaceMetaV1 := mkWorkspaceMetaV1 2 None ∅ ∅ None 0.

Record HubStateV1 := mkHubStateV1 {
  hs_schema_version : Z;   (* u32 *)
  hs_workspaces : gmap string WorkspaceMetaV1;
}.
Definition HubStateV1_default : HubStateV1 := mkHubStateV1 CURRENT_HUB_SCHEMA ∅.

Inductive FormatWrite := Applied | MissingManifestHead.
Inductive ManifestWriteOutcome := Stored | Unchanged | Conflict | Capacity.
Inductive MigrationWriteOutcome := Acquired | LockedByOther.

(** The schema check of [HubDb::open]. *)
Definition check_schema (state : HubStateV1) : result HubError unit :=
  if hs_schema_version state =? 0 then Err (Failed "hub_state.json has invalid schema version 0")
  else if CURRENT_HUB_SCHEMA <? hs_schema_version state
  then Err (Failed "hub_state.json schema version is newer than supported")
  else Ok tt.

(** [workspaces.entry(id).or_default()], and the write through the reference it returns. *)
Definition entry_or_default (state : HubStateV1) (id : string) : WorkspaceMetaV1 :=
  default WorkspaceMetaV1_default (hs_workspaces state !! id).
Definition put_workspace (state : HubStateV1) (id : string) (w : WorkspaceMetaV1) : HubStateV1 :=
  mkHubStateV1 (hs_schema_version state) (<[id := w]> (hs_workspaces state)).

Definition with_files (w : WorkspaceMetaV1) (files : gmap string LegacyFileV1) : WorkspaceMetaV1 :=
  mkWorkspaceMetaV1 (ws_format_version w) (ws_head w) (ws_manifests w) files
    (ws_migration_fence w) (ws_fence_locked_at w).
Definition with_head (w : WorkspaceMetaV1) (head : option string) : WorkspaceMetaV1 :=
  mkWorkspaceMetaV1 (ws_format_version w) head (ws_manifests w) (ws_files w)
    (ws_migration_fence w) (ws_fence_locked_at w).
Definition with_manifests (w : WorkspaceMetaV1) (manifests : gmap string ManifestV1) : WorkspaceMetaV1 :=
  mkWorkspaceMetaV1 (ws_format_version w) (ws_head w) manifests (ws_files w)
    (ws_migration_fence w) (ws_fence_locked_at w).
Definition with_fence (w : WorkspaceMetaV1) (fence : option string) (at_ms : Z) : WorkspaceMetaV1 :=
  mkWorkspaceMetaV1 (ws_format_version w) (ws_head w) (ws_manifests w) (ws_files w) fence at_ms.
Definition with_format (w : WorkspaceMetaV1) (version : Z) : WorkspaceMetaV1 :=
  mkWorkspaceMetaV1 version (ws_head w) (ws_manifests w) (ws_files w)
    (ws_migration_fence w) (ws_fence_locked_at w).

(** ** Queries *)
Definition list_workspaces (state : HubStateV1) : list string :=
  sort_strings (fst <$> filter (λ kv,
    is_Some (ws_head (kv.2))
    ∨ existsb (λ file, negb (lf_deleted file)) (btree_values (ws_files (kv.2))) = true)
    (btree_entries (hs_workspaces state))).

Definition get_files (state : HubStateV1) (workspace_id : string) : list (string * LegacyFileV1) :=
  match hs_workspaces state !! workspace_id with Some w => btree_entries (ws_files w) | None => [] end.

Definition get_format (state : HubStateV1) (workspace_id : string) : Z :=
  match hs_workspaces state !! workspace_id with Some w => ws_format_version w | None => 2 end.

Definition get_head (state : HubStateV1) (workspace_id : string) : option string :=
  hs_workspaces state !! workspace_id ≫= ws_head.

Definition get_migration_fence (state : HubStateV1) (workspace_id : string) : option string :=
  hs_workspaces state !! workspace_id ≫= ws_migration_fence.

(** The test shared by [manifest_exists] and [set_format]. *)
Definition has_manifest (w : WorkspaceMetaV1) (snapshot_id : string) : bool :=
  match ws_manifests w !! snapshot_id with
  | Some manifest => is_ok (canonical_manifest_hash_list snapshot_id (mf_hashes manifest))
  | None => false
  end.

Definition manifest_exists (state : HubStateV1) (workspace_id snapshot_id : string) : bool :=
  match hs_workspaces state !! workspace_id with
  | Some w => has_manifest w snapshot_id
  | None => false
  end.

(** ** Updates: the closures passed to [with_write] *)
Definition upsert_file (workspace_id path : string) (file : LegacyFileV1) (state : HubStateV1)
    : result HubError unit * HubStateV1 :=
  let w := entry_or_default state workspace_id in
  (Ok tt, put_workspace state workspace_id (with_files w (<[path := file]> (ws_files w)))).

Definition tombstone_existing_file (workspace_id path hash : string) (mtime : Z) (state : HubStateV1)
    : result HubError bool * HubStateV1 :=
  match hs_workspaces state !! workspace_id with
  | Some w =>
      match ws_files w !! path with
      | Some _ =>
          (Ok true, put_workspace state workspace_id
                      (with_files w (<[path := mkLegacyFileV1 hash 0 mtime 0 true]> (ws_files w))))
      | None => (Ok false, state)
      end
  | None => (Ok false, state)
  end.

Definition set_format (workspace_id : string) (version : Z) (state : HubStateV1)
    : result HubError FormatWrite * HubStateV1 :=
  let w := entry_or_default state workspace_id in
  if (3 <=? version) && negb (match ws_head w with Some head => has_manifest w head | None => false end)
  then (Ok MissingManifestHead, put_workspace state workspace_id w)
  else
    let w := with_format w version in
    let w := if 3 <=? version then with_fence (with_files w ∅) None 0 else w in
    (Ok Applied, put_workspace state workspace_id w).

Definition swap_head (workspace_id : string) (expected : option string) (new : string) (state : HubStateV1)
    : result HubError (option string) * HubStateV1 :=
  let w := entry_or_default state workspace_id in
  let current := ws_head w in
  (Ok current,
   put_workspace state workspace_id (if decide (expected = current) then with_head w (Some new) else w)).

Definition store_manifest (now : Z) (workspace_id snapshot_id : string) (hashes : list string)
    (state : HubStateV1) : result HubError ManifestWriteOutcome * HubStateV1 :=
  let w := entry_or_default state workspace_id in
  match ws_manifests w !! snapshot_id with
  | Some existing =>
      (Ok (if decide (mf_hashes existing = hashes) then Unchanged else Conflict),
       put_workspace state workspace_id w)
  | None =>
      (Ok Stored, put_workspace state workspace_id
                    (with_manifests w (<[snapshot_id := mkManifestV1 hashes now]> (ws_manifests w))))
  end.

Definition begin_migration (now : Z) (workspace_id token : string) (state : HubStateV1)
    : result HubError MigrationWriteOutcome * HubStateV1 :=
  let w := entry_or_default state workspace_id in
  if 3 <=? ws_format_version w then (Ok Acquired, put_workspace state workspace_id w)
  else
    match ws_migration_fence w with
    | Some existing =>
        (Ok (if decide (existing = token) then Acquired else LockedByOther), put_workspace state workspace_id w)
    | None => (Ok Acquired, put_workspace state workspace_id (with_fence w (Some token) now))
    end.

(** ** Migration of a hub *)
Record MigrationHubFile := mkMigrationHubFile {
  mg_hash : string;
  mg_size : Z;     (* u64 *)
  mg_mtime : Z;    (* i64 *)
  mg_mode : Z;     (* u32 *)
  mg_deleted : bool;
}.
Record MigrationHubManifest := mkMigrationHubManifest {
  mm_hashes : list string;
  mm_created_at_ms : Z;
}.
Record MigrationHubFence := mkMigrationHubFence {
  fn_token : string;
  fn_locked_at : Z;
}.
Record MigrationHubWorkspace := mkMigrationHubWorkspace {
  mw_format_version : Z;
  mw_head : option string;
  mw_manifests : gmap string MigrationHubManifest;
  mw_files : gmap string MigrationHubFile;
  mw_migration_fence : option MigrationHubFence;
}.
Record MigrationHubState := mkMigrationHubState {
  mh_workspaces : gmap string MigrationHubWorkspace;
}.

Definition size_error (e : SizeConversionError) : HubError :=
  match e with
  | CorruptMetadata _ => Failed "corrupt file size metadata"
  | UnsupportedSize _ => Failed "unsupported file size"
  end.

(** [iter().map(f).collect::<Result<BTreeMap<_, _>, _>>()]: keys in ascending order, the
    first error ends the traversal. *)
Definition try_collect {E A B} (f : A → result E B) (m : gmap string A) : result E (gmap string B) :=
  l ← try_map (λ kv, b ← f (kv.2); Ok (kv.1, b)) (btree_entries m);
  Ok (list_to_map l).

Definition import_file (file : MigrationHubFile) : result HubError LegacyFileV1 :=
  size ← map_err size_error (file_size_to_db (mg_size file));
  Ok (mkLegacyFileV1 (mg_hash file) size (mg_mtime file) (mg_mode file) (mg_deleted file)).
Definition import_manifest (m : MigrationHubManifest) : ManifestV1 :=
  mkManifestV1 (mm_hashes m) (mm_created_at_ms m).
Definition import_workspace (w : MigrationHubWorkspace) : result HubError WorkspaceMetaV1 :=
  files ← try_collect import_file (mw_files w);
  Ok (mkWorkspaceMetaV1 (mw_format_version w) (mw_head w) (import_manifest <$> mw_manifests w) files
        (fn_token <$> mw_migration_fence w)
        (match mw_migration_fence w with Some fence => fn_locked_at fence | None => 0 end)).

(** The loop inserts the workspaces one by one into the cleared map; the closure's error
    drops the whole replacement. *)
Definition replace_from_migration (source : MigrationHubState) (state : HubStateV1)
    : result HubError unit * HubStateV1 :=
  match try_collect import_workspace (mh_workspaces source) with
  | Ok ws => (Ok tt, mkHubStateV1 (hs_schema_version state) ws)
  | Err e => (Err e, state)
  end.

Definition export_file (file : LegacyFileV1) : result HubError MigrationHubFile :=
  size ← map_err size_error (file_size_from_db (lf_size file));
  Ok (mkMigrationHubFile (lf_hash file) size (lf_mtime file) (lf_mode file) (lf_deleted file)).
Definition export_manifest (m : ManifestV1) : MigrationHubManifest :=
  mkMigrationHubManifest (mf_hashes m) (mf_created_at_ms m).
Definition export_workspace (w : WorkspaceMetaV1) : result HubError MigrationHubWorkspace :=
  files ← try_collect export_file (ws_files w);
  Ok (mkMigrationHubWorkspace (ws_format_version w) (ws_head w) (export_manifest <$> ws_manifests w) files
        ((λ token, mkMigrationHubFence token (ws_fence_locked_at w)) <$> ws_migration_fence w)).

Definition export_for_migration (state : HubStateV1) : result HubError MigrationHubState :=
  ws ← try_collect export_workspace (hs_workspaces state);
  Ok (mkMigrationHubState ws).

(** ** Lemmas on the collection of maps *)
Section try_collect.
Context {E A B : Type} (f : A → result E B).
Implicit Types (m : gmap string A) (n : gmap string B).

Lemma try_collect_rows m l :
  try_map (λ kv, b ← f (kv.2); Ok (kv.1, b)) (btree_entries m) = Ok l →
  l.*1 = (btree_entries m).*1 ∧ ∀ k b, (k, b) ∈ l ↔ ∃ a, m !! k = Some a ∧ f a = Ok b.
Proof.
  intros Hl%try_map_Ok. setoid_rewrite <-elem_of_btree_entries. revert Hl.
  induction 1 as [|[k a] [k' b] rows l Hf Hl IH]; [split; [done|set_solver]|].
  simpl in Hf. inv_ok. destruct IH as [IH1 IH2]. simpl. split; [by f_equal|].
  intros q b'. rewrite elem_of_cons, IH2. setoid_rewrite elem_of_cons. split.
  - intros [[= -> ->]|(a' & ? & ?)]; eauto.
  - intros (a' & [[= -> ->]|?] & Ha); [left; congruence|eauto].
Qed.

Lemma try_collect_Ok m n :
  try_collect f m = Ok n ↔ ∀ k, match m !! k, n !! k with
                                | Some a, Some b => f a = Ok b
                                | None, None => True
                                | _, _ => False
                                end.
Proof.
  split.
  - unfold try_collect. intros (l & Hl & [= <-])%bind_Ok k. apply try_collect_rows in Hl as [Hk Hl].
    assert (NoDup l.*1) as Hnd by (rewrite Hk; apply btree_entries_NoDup).
    destruct (list_to_map l !! k) as [b|] eqn:Hb.
    + apply elem_of_list_to_map_2, Hl in Hb as (a & -> & Ha). done.
    + destruct (m !! k) as [a|] eqn:Ha; [|done]. apply not_elem_of_list_to_map in Hb. apply Hb.
      rewrite Hk. apply elem_of_btree_entries in Ha. by apply (list_elem_of_fmap_2 fst) in Ha.
  - intros Hrel. unfold try_collect.
    destruct (try_map _ _) as [l|e] eqn:Hl; simpl.
    + apply try_collect_rows in Hl as [Hk Hl]. f_equal. apply map_eq. intros k.
      assert (NoDup l.*1) as Hnd by (rewrite Hk; apply btree_entries_NoDup).
      apply option_eq. intros b. rewrite <-elem_of_list_to_map, Hl by done.
      specialize (Hrel k). destruct (m !! k) as [a|], (n !! k) as [b'|]; try done.
      * split; [intros (? & [= <-] & ?)|intros [= <-]]; [congruence|eauto].
      * split; [by intros (? & ? & _)|done].
    + exfalso. cut (∃ l, try_map (λ kv, b ← f (kv.2); Ok (kv.1, b)) (btree_entries m) = Ok l).
      { intros [? ?]. congruence. }
      clear Hl e. assert (∀ kv, kv ∈ btree_entries m → ∃ b, f (kv.2) = Ok b) as Hin.
      { intros [k a] Hka%elem_of_btree_entries. specialize (Hrel k). rewrite Hka in Hrel.
        destruct (n !! k); naive_solver. }
      induction (btree_entries m) as [|kv rows IH]; simpl; [eauto|].
      destruct (Hin kv) as [b ->]; [left|]. simpl.
      destruct IH as [l ->]; [set_solver|]. simpl. eauto.
Qed.
End try_collect.

(** Collecting with [f] and then with [g] is the identity where [g] undoes [f]. *)
Lemma try_collect_inverse {E A B} (f : A → result E B) (g : B → result E A) (m : gmap string A) n :
  (∀ k a b, m !! k = Some a → f a = Ok b → g b = Ok a) →
  try_collect f m = Ok n → try_collect g n = Ok m.
Proof.
  rewrite !try_collect_Ok. intros Hg Hf k. specialize (Hf k). specialize (Hg k).
  destruct (m !! k), (n !! k); naive_solver.
Qed.

Lemma try_collect_total {E A B} (f : A → result E B) (m : gmap string A) :
  (∀ k a, m !! k = Some a → ∃ b, f a = Ok b) → ∃ n, try_collect f m = Ok n.
Proof.
  intros Hm. exists (omap (λ a, match f a with Ok b => Some b | Err _ => None end) m).
  apply try_collect_Ok. intros k. rewrite lookup_omap. specialize (Hm k).
  destruct (m !! k) as [a|]; simpl; [|done]. destruct (Hm a) as [b ->]; done.
Qed.

(** ** Round trip of a migrated hub *)

(** What the schema of the state file says of a row, and what every hub operation keeps: a
    lock time is only recorded together with a fence. *)
Definition fence_recorded (w : WorkspaceMetaV1) : Prop :=
  ws_migration_fence w = None → ws_fence_locked_at w = 0.

Definition exportable (state : HubStateV1) : Prop :=
  ∀ id w, hs_workspaces state !! id = Some w →
    fence_recorded w ∧ ∀ path file, ws_files w !! path = Some file → 0 ≤ lf_size file ≤ I64_MAX.

Lemma import_export_file file :
  0 ≤ lf_size file ≤ I64_MAX → ∃ g, export_file file = Ok g ∧ import_file g = Ok file.
Proof.
  intros Hs. unfold export_file, import_file, file_size_from_db, file_size_to_db, is_u64, is_i64.
  destruct file as [hash size mtime mode del]; simpl in *.
  assert (I64_MAX ≤ U64_MAX) by done. assert (I64_MIN ≤ 0) by done.
  destruct (Z.leb_spec 0 size); [|lia]. destruct (Z.leb_spec size U64_MAX); [|lia]. simpl.
  eexists; split; [done|]. simpl.
  destruct (Z.leb_spec I64_MIN size); [|lia]. by destruct (Z.leb_spec size I64_MAX); [|lia].
Qed.

Lemma import_export_workspace w :
  fence_recorded w → (∀ path file, ws_files w !! path = Some file → 0 ≤ lf_size file ≤ I64_MAX) →
  ∃ g, export_workspace w = Ok g ∧ import_workspace g = Ok w.
Proof.
  intros Hf Hs. destruct w as [v h ms fs fence at_ms]. simpl in *.
  destruct (try_collect_total export_file fs) as [gs Hgs].
  { intros k a Hk. destruct (import_export_file a) as (g & ? & ?); eauto. }
  unfold export_workspace, import_workspace. simpl. rewrite Hgs. simpl.
  eexists; split; [done|]. simpl.
  rewrite (try_collect_inverse export_file import_file fs gs); [simpl| |done].
  - rewrite <-map_fmap_compose. do 2 f_equal.
    + rewrite <-(map_fmap_id ms) at 2. apply map_fmap_ext. by intros k [??] _.
    + by destruct fence.
    + unfold fence_recorded in Hf. simpl in Hf. destruct fence; [done|]. by rewrite Hf.
  - intros k a b Hk Hb. destruct (import_export_file a) as (g & Hg & ?); eauto. congruence.
Qed.

(** Moving a hub: exporting a hub's metadata always succeeds and importing it into another
    hub, whatever that hub held, reproduces every workspace exactly, with its format, head,
    manifests, legacy rows and migration fence. *)
Theorem migration_roundtrip (state other : HubStateV1) (H : exportable state) :
  ∃ m, export_for_migration state = Ok m ∧
       replace_from_migration m other = (Ok tt, mkHubStateV1 (hs_schema_version other) (hs_workspaces state)).
Proof.
  destruct (try_collect_total export_workspace (hs_workspaces state)) as [ws Hws].
  { intros k w Hk. destruct (H _ _ Hk) as [Hf Hs].
    destruct (import_export_workspace w Hf Hs) as (g & ? & _). eauto. }
  exists (mkMigrationHubState ws). unfold export_for_migration, replace_from_migration.
  rewrite Hws. simpl. split; [done|].
  rewrite (try_collect_inverse export_workspace import_workspace (hs_workspaces state)); try done.
  intros k w g Hk Hg. destruct (H _ _ Hk) as [Hf Hs].
  destruct (import_export_workspace w Hf Hs) as (g' & ? & ?). congruence.
Qed.

Definition sample_hub_state : HubStateV1 :=
  mkHubStateV1 1 {[ "ws" := mkWorkspaceMetaV1 2 (Some hex_a)
                              {[ hex_a := mkManifestV1 [hex_a; hex_b] 7 ]}
                              {[ "a/b" := mkLegacyFileV1 hex_b 12 5 420 false ]} (Some hex_b) 9 ]}.

Lemma migration_roundtrip_witness :
  exportable sample_hub_state ∧
  ∃ m, export_for_migration sample_hub_state = Ok m ∧
       replace_from_migration m HubStateV1_default = (Ok tt, sample_hub_state).
Proof.
  assert (exportable sample_hub_state) as H.
  { intros id w Hw. cbn [sample_hub_state hs_workspaces] in Hw.
    apply lookup_singleton_Some in Hw as [<- <-]. split; [done|].
    intros path file Hf. cbn [ws_files] in Hf. apply lookup_singleton_Some in Hf as [<- <-]. simpl. unfold I64_MAX. lia. }
  split; [done|]. exact (migration_roundtrip sample_hub_state HubStateV1_default H).
Defined.
