(* ===== verification/Hub.v ===== *)
(** * The in-process hub

    agent-core/src/hub.rs, hub/http.rs and the three route files: a request is a program over
    the atomic operations of the store, and several requests run interleaved under the
    publication lock of the hub. *)
From Stdlib Require Import ZArith Lia Ascii Strings.Byte.
From stdpp Require Import sorting numbers strings gmap list_numbers list options.
From S2P Require Import Prelude Text Paths Model SyncDelta HubStore.

Local Open Scope Z_scope.

(** ** Requests and responses *)
Record SyncRequest := mkSyncRequest {
  sr_workspace_id : string;
  sr_files : list FileState;
}.
Record SwapHeadRequest := mkSwapHeadRequest {
  sh_workspace_id : string;
  sh_expected : option string;
  sh_new : string;
}.
Record HeadResponse := mkHeadResponse {
  hr_snapshot_id : option string;
  hr_wait_supported : bool;
}.

(** A body before serialization. *)
Inductive Body :=
| BodyEmpty
| BodyText (text : string)
| BodyBytes (data : list byte)
| BodyHead (head : HeadResponse)
| BodyFormat (format_version : Z)
| BodyWorkspaces (ids : list string)
| BodyDelta (delta : SyncResponse).

Record Response := mkResponse {
  rs_status : Z;
  rs_body : Body;
}.

Definition OK : Z := 200.
Definition BAD_REQUEST : Z := 400.
Definition UNAUTHORIZED : Z := 401.
Definition NOT_FOUND : Z := 404.
Definition CONFLICT : Z := 409.
Definition PRECONDITION_FAILED : Z := 412.
Definition PAYLOAD_TOO_LARGE : Z := 413.
Definition LOCKED : Z := 423.
Definition UPGRADE_REQUIRED : Z := 426.
Definition INTERNAL_SERVER_ERROR : Z := 500.
Definition INSUFFICIENT_STORAGE : Z := 507.

Definition MAX_BODY_BYTES : Z := 100 * 1024 * 1024.
Definition MAX_MANIFEST_BYTES : Z := 64 * 1024 * 1024.
Definition MAX_HEAD_WAIT_MS : Z := 30000.
Definition SUPPORTED_FORMAT_VERSION : Z := 3.
Definition is_supported_format_version (version : Z) : bool := version =? SUPPORTED_FORMAT_VERSION.

(** The crates that read the wire format: [serde_json] on the two JSON request bodies, and
    [form_urlencoded] on the query, collected into a [HashMap]. *)
Class Wire := {
  parse_swap_head : list byte → option SwapHeadRequest;
  parse_sync : list byte → option SyncRequest;
  parse_query : string → gmap string string;
}.

(** ** Integers in query parameters: [str::parse::<u32>], [u64] and [i64] *)
Definition digit_value (c : ascii) : option Z :=
  if in_range 48 57 (ascii_code c) then Some (ascii_code c - 48) else None.
Fixpoint digits_value (acc : Z) (s : string) : option Z :=
  match s with
  | EmptyString => Some acc
  | String c s => d ← digit_value c; digits_value (10 * acc + d) s
  end.
Definition parse_digits (s : string) : option Z := if decide (s = "") then None else digits_value 0 s.
Definition parse_unsigned (max : Z) (s : string) : option Z :=
  z ← parse_digits (default s (strip_prefix "+" s)); if z <=? max then Some z else None.
Definition parse_u32 : string → option Z := parse_unsigned U32_MAX.
Definition parse_u64 : string → option Z := parse_unsigned U64_MAX.
Definition parse_i64 (s : string) : option Z :=
  z ← (match strip_prefix "-" s with
       | Some digits => Z.opp <$> parse_digits digits
       | None => parse_digits (default s (strip_prefix "+" s))
       end);
  if is_i64 z then Some z else None.

(** [str::contains] with a string pattern. *)
Fixpoint contains_str (p s : string) : bool :=
  starts_with p s || match s with EmptyString => false | String _ s' => contains_str p s' end.

(** ** Programs over the store

    Each operation of [HubDb], each file-system call on the blob directory and each access to
    the table of head waiters is one atomic step: the first take the lock of the state file,
    the last the mutex of the table. *)
Inductive FsError := NotFound | OtherError (message : string).

Inductive hubE : Type → Type :=
| ListWorkspaces : hubE (result HubError (list string))
| GetFiles (workspace_id : string) : hubE (result HubError (list (string * LegacyFileV1)))
| UpsertFile (workspace_id path : string) (file : LegacyFileV1) : hubE (result HubError unit)
| TombstoneExistingFile (workspace_id path hash : string) (mtime : Z) : hubE (result HubError bool)
| GetFormat (workspace_id : string) : hubE (result HubError Z)
| SetFormat (workspace_id : string) (version : Z) : hubE (result HubError FormatWrite)
| GetHead (workspace_id : string) : hubE (result HubError (option string))
| SwapHead (workspace_id : string) (expected : option string) (new : string)
  : hubE (result HubError (option string))
| ManifestExists (workspace_id snapshot_id : string) : hubE (result HubError bool)
| StoreManifest (workspace_id snapshot_id : string) (hashes : list string)
  : hubE (result HubError ManifestWriteOutcome)
| BeginMigration (workspace_id token : string) : hubE (result HubError MigrationWriteOutcome)
| GetMigrationFence (workspace_id : string) : hubE (result HubError (option string))
| BlobExists (hash : string) : hubE bool
| StoreBlob (hash : string) (data : list byte) : hubE (result HubError unit)
| RemoveBlob (hash : string) : hubE unit
| BlobLen (hash : string) : hubE (result FsError Z)
| ReadBlob (hash : string) : hubE (result FsError (list byte))
| Subscribe (workspace_id : string) : hubE Z
| Select (workspace_id : string) (generation wait_ms : Z) : hubE bool
| Unsubscribe (workspace_id : string) : hubE unit
| NotifyWaiters (workspace_id : string) : hubE unit.

Inductive prog (A : Type) : Type :=
| Ret (a : A)
| Vis {X : Type} (e : hubE X) (k : X → prog A).
Arguments Ret {A} a.
Arguments Vis {A X} e k.

Fixpoint prog_bind {A B} (p : prog A) (f : A → prog B) : prog B :=
  match p with Ret a => f a | Vis e k => Vis e (λ x, prog_bind (k x) f) end.

(** [Result<_, (StatusCode, String)>] computations. *)
Definition RouteError : Type := Z * string.
Definition Route (A : Type) : Type := prog (result RouteError A).
#[global] Instance Route_ret : MRet Route := λ A a, Ret (Ok a).
#[global] Instance Route_bind : MBind Route := λ A B f m,
  prog_bind m (λ r, match r with Ok a => f a | Err e => Ret (Err e) end).

Definition fail {A} (status : Z) (message : string) : Route A := Ret (Err (status, message)).
Definition call {X} (e : hubE X) : Route X := Vis e (λ x, Ret (Ok x)).

Definition status_err (e : HubError) : RouteError :=
  (INTERNAL_SERVER_ERROR,
   match e with Failed m => m | CommitDurabilityUncertain => "committed-but-durability-uncertain" end).
(** An operation of the store followed by [.map_err(status_err)?]. *)
Definition db {X} (e : hubE (result HubError X)) : Route X := Vis e (λ r, Ret (map_err status_err r)).

Definition guard_route (c : bool) (status : Z) (message : string) : Route unit :=
  if c then Ret (Ok tt) else Ret (Err (status, message)).
Definition respond (status : Z) (body : Body) : Route Response := Ret (Ok (mkResponse status body)).

(** ** Checks shared by the routes (hub/http.rs) *)
Definition check_fence (workspace_id : string) (migration_header : option string) : Route unit :=
  fence ← db (GetMigrationFence workspace_id);
  match fence with
  | None => mret tt
  | Some expected => guard_route (bool_decide (default "" migration_header = expected)) LOCKED ""
  end.

Definition check_legacy_compat (workspace_id : string) : Route unit :=
  format ← db (GetFormat workspace_id);
  guard_route (negb (3 <=? format)) UPGRADE_REQUIRED "format v3 requires object API".

Definition get_param (params : gmap string string) (key : string) : Route string :=
  match params !! key with
  | Some value => mret value
  | None => fail BAD_REQUEST "missing query parameter"
  end.

Definition parse_required_param {T} (parse : string → option T) (params : gmap string string) (key : string)
    : Route T :=
  raw ← get_param params key;
  match parse raw with Some t => mret t | None => fail BAD_REQUEST "invalid parameter" end.

Definition param_is_true (params : gmap string string) (key : string) : bool :=
  bool_decide (params !! key = Some "true").

Section routes.
Context `{Unicode, HashOrder, Blake3, Wire}.

(** ** Legacy routes (hub/routes_legacy.rs) *)
Definition route_list_workspaces : Route Response :=
  workspaces ← db ListWorkspaces;
  respond OK (BodyWorkspaces workspaces).

Definition legacy_state (row : string * LegacyFileV1) : result RouteError FileState :=
  let '(path, file) := row in
  size ← map_err (λ e, status_err (size_error e)) (file_size_from_db (lf_size file));
  Ok (mkFileState path (lf_hash file) size (lf_mtime file) (lf_deleted file) (lf_mode file)).

Definition route_sync_peek (body : list byte) : Route Response :=
  match parse_sync body with
  | None => fail BAD_REQUEST "invalid sync request"
  | Some request =>
      check_legacy_compat (sr_workspace_id request) ;;
      rows ← db (GetFiles (sr_workspace_id request));
      match try_map legacy_state rows with
      | Err e => Ret (Err e)
      | Ok server_files => respond OK (BodyDelta (compute_sync_delta (sr_files request) server_files))
      end
  end.

(** The branch of [route_upload] that records a deletion. *)
Definition upload_deletion (params : gmap string string) (workspace_id hash path : string) : Route Response :=
  guard_route (negb (param_is_true params "object")) BAD_REQUEST "deleted+object invalid" ;;
  check_legacy_compat workspace_id ;;
  mtime ← parse_required_param parse_i64 params "mtime";
  if negb (is_safe_rel_path path) then
    retired ← db (TombstoneExistingFile workspace_id path hash mtime);
    guard_route retired BAD_REQUEST "unsafe path" ;;
    respond OK BodyEmpty
  else
    db (UpsertFile workspace_id path (mkLegacyFileV1 hash 0 mtime 0 true)) ;;
    respond OK BodyEmpty.

(** The query parameters of a legacy row. *)
Definition legacy_metadata (params : gmap string string) (workspace_id : string) : Route (Z * Z * Z) :=
  check_legacy_compat workspace_id ;;
  size ← parse_required_param parse_i64 params "size";
  mtime ← parse_required_param parse_i64 params "mtime";
  mode ← parse_required_param parse_u32 params "mode";
  mret (size, mtime, mode).

(** The error branch after a failed row: the blob written by this request is taken back. *)
Definition roll_back_blob (workspace_id hash : string) (is_new : bool) (error : HubError) : Route Response :=
  (if is_new then
     is_referenced ←
       (if commit_durability_is_uncertain error then
          rows ← db (GetFiles workspace_id);
          mret (existsb (λ row, String.eqb (lf_hash (row.2)) hash) rows)
        else mret false);
     if negb is_referenced then call (RemoveBlob hash) else mret tt
   else mret tt) ;;
  Ret (Err (status_err error)).

(** The branch of [route_upload] that stores content. *)
Definition upload_content (body : list byte) (params : gmap string string) (workspace_id hash path : string)
    : Route Response :=
  let is_object := param_is_true params "object" in
  guard_route (is_safe_rel_path path) BAD_REQUEST "unsafe path" ;;
  guard_route (bool_decide (hash_bytes body = hash)) BAD_REQUEST "hash mismatch" ;;
  metadata ← (if is_object then mret None
              else m ← legacy_metadata params workspace_id; mret (Some m));
  present ← call (BlobExists hash);
  let is_new := negb present in
  (if is_new then db (StoreBlob hash body) else mret tt) ;;
  if is_object then respond OK BodyEmpty
  else
    match metadata with
    | None => fail INTERNAL_SERVER_ERROR "missing legacy metadata"
    | Some (size, mtime, mode) =>
        r ← call (UpsertFile workspace_id path (mkLegacyFileV1 hash size mtime mode false));
        match r with
        | Ok _ => respond OK BodyEmpty
        | Err error => roll_back_blob workspace_id hash is_new error
        end
    end.

Definition route_upload (body : list byte) (params : gmap string string) (migration_header : option string)
    : Route Response :=
  workspace_id ← get_param params "workspace_id";
  check_fence workspace_id migration_header ;;
  hash ← get_param params "hash";
  guard_route (is_valid_hash hash) BAD_REQUEST "invalid hash" ;;
  path ← get_param params "path";
  if param_is_true params "deleted" then upload_deletion params workspace_id hash path
  else upload_content body params workspace_id hash path.

(** ** Object routes (hub/routes_objects.rs) *)
Definition route_download (hash : string) : Route Response :=
  guard_route (negb (contains_str ".." hash || contains_char slash hash)) NOT_FOUND "" ;;
  guard_route (is_valid_hash hash) BAD_REQUEST "" ;;
  len ← call (BlobLen hash);
  match len with
  | Err NotFound => fail NOT_FOUND ""
  | Err (OtherError _) => fail INTERNAL_SERVER_ERROR "metadata error"
  | Ok len =>
      guard_route (negb (MAX_BODY_BYTES <? len)) PAYLOAD_TOO_LARGE "blob too large" ;;
      data ← call (ReadBlob hash);
      match data with
      | Ok data => respond OK (BodyBytes data)
      | Err NotFound => fail NOT_FOUND ""
      | Err (OtherError _) => fail INTERNAL_SERVER_ERROR "read error"
      end
  end.

Definition route_get_head (params : gmap string string) : Route Response :=
  workspace_id ← get_param params "workspace_id";
  snapshot_id ← db (GetHead workspace_id);
  respond OK (BodyHead (mkHeadResponse snapshot_id false)).

Definition route_swap_head (body : list byte) (migration_header : option string) : Route Response :=
  match parse_swap_head body with
  | None => fail BAD_REQUEST "invalid request"
  | Some request =>
      let ws := sh_workspace_id request in
      check_fence ws migration_header ;;
      guard_route (is_valid_hash (sh_new request)
                   && match sh_expected request with Some id => is_valid_hash id | None => true end)
        BAD_REQUEST "invalid snapshot id" ;;
      present ← db (ManifestExists ws (sh_new request));
      guard_route present PRECONDITION_FAILED "" ;;
      previous ← db (SwapHead ws (sh_expected request) (sh_new request));
      if decide (previous = sh_expected request) then
        call (NotifyWaiters ws) ;;
        respond OK (BodyHead (mkHeadResponse (Some (sh_new request)) false))
      else respond CONFLICT (BodyHead (mkHeadResponse previous false))
  end.

(** The loop over the hashes of a manifest. *)
Fixpoint check_blobs (hashes : list string) : Route unit :=
  match hashes with
  | [] => mret tt
  | hash :: rest =>
      present ← call (BlobExists hash);
      guard_route present PRECONDITION_FAILED "manifest references missing blob" ;;
      check_blobs rest
  end.

Definition route_manifest (body : list byte) (params : gmap string string) (migration_header : option string)
    : Route Response :=
  workspace_id ← get_param params "workspace_id";
  check_fence workspace_id migration_header ;;
  snapshot_id ← get_param params "snapshot_id";
  guard_route (negb (MAX_MANIFEST_BYTES <? zlen body)) PAYLOAD_TOO_LARGE "manifest too large" ;;
  match from_utf8 body with
  | None => fail BAD_REQUEST "manifest not UTF-8"
  | Some manifest =>
      match canonical_manifest_hashes snapshot_id manifest with
      | Err _ => fail BAD_REQUEST "invalid manifest"
      | Ok hashes =>
          check_blobs hashes ;;
          outcome ← db (StoreManifest workspace_id snapshot_id hashes);
          match outcome with
          | Stored | Unchanged => respond OK BodyEmpty
          | Conflict => fail BAD_REQUEST "snapshot manifest is immutable"
          | Capacity => fail INSUFFICIENT_STORAGE ""
          end
      end
  end.

(** ** Workspace routes (hub/routes_workspace.rs) *)
Definition route_get_format (params : gmap string string) : Route Response :=
  workspace_id ← get_param params "workspace_id";
  format_version ← db (GetFormat workspace_id);
  respond OK (BodyFormat format_version).

Definition route_set_format (params : gmap string string) (migration_header : option string) : Route Response :=
  workspace_id ← get_param params "workspace_id";
  check_fence workspace_id migration_header ;;
  raw ← get_param params "format_version";
  match parse_u32 raw with
  | None => fail BAD_REQUEST "invalid format_version"
  | Some version =>
      guard_route (is_supported_format_version version) BAD_REQUEST "only format version 3 is accepted" ;;
      outcome ← db (SetFormat workspace_id version);
      match outcome with
      | Applied => respond OK BodyEmpty
      | MissingManifestHead => fail INTERNAL_SERVER_ERROR ""
      end
  end.

Definition route_begin_migration (params : gmap string string) (migration_header : option string)
    : Route Response :=
  workspace_id ← get_param params "workspace_id";
  match migration_header with
  | Some token =>
      guard_route (is_valid_hash token) BAD_REQUEST "missing or invalid migration token" ;;
      format ← db (GetFormat workspace_id);
      if 3 <=? format then respond OK BodyEmpty
      else
        outcome ← db (BeginMigration workspace_id token);
        match outcome with
        | Acquired => respond OK BodyEmpty
        | LockedByOther => fail LOCKED "workspace migration is already locked"
        end
  | None => fail BAD_REQUEST "missing or invalid migration token"
  end.

(** ** Dispatch (hub.rs) *)

(** The part of [request_head_with_wait] between the registration of the waiter and its
    removal by [Drop]. *)
Definition wait_registered (workspace_id after : string) (current : option string) (generation wait_ms : Z)
    : Route Response :=
  registered_head ← db (GetHead workspace_id);
  if negb (bool_decide (registered_head = Some after))
  then respond OK (BodyHead (mkHeadResponse registered_head true))
  else
    notified ← call (Select workspace_id generation wait_ms);
    if (notified : bool) then
      refreshed ← db (GetHead workspace_id);
      respond OK (BodyHead (mkHeadResponse refreshed true))
    else respond OK (BodyHead (mkHeadResponse current true)).

(** [Drop] runs whichever way the body ends. *)
Definition with_registration (workspace_id : string) (body : Z → Route Response) : Route Response :=
  generation ← call (Subscribe workspace_id);
  prog_bind (body generation) (λ r, Vis (Unsubscribe workspace_id) (λ _, Ret r)).

Definition request_head_with_wait (params : gmap string string) (after : string) : Route Response :=
  guard_route (is_valid_hash after) BAD_REQUEST "" ;;
  match params !! "workspace_id" with
  | None => fail BAD_REQUEST ""
  | Some workspace_id =>
      guard_route (negb (bool_decide (workspace_id = ""))) BAD_REQUEST "" ;;
      requested_wait_ms ←
        (match params !! "wait_ms" with
         | None => mret None
         | Some value => match parse_u64 value with
                         | Some wait_ms => mret (Some wait_ms)
                         | None => fail BAD_REQUEST ""
                         end
         end);
      current ← db (GetHead workspace_id);
      if negb (bool_decide (current = Some after)) then respond OK (BodyHead (mkHeadResponse current true))
      else
        match requested_wait_ms with
        | None => respond OK (BodyHead (mkHeadResponse current true))
        | Some wait_ms =>
            let wait_ms := Z.min wait_ms MAX_HEAD_WAIT_MS in
            if wait_ms =? 0 then respond OK (BodyHead (mkHeadResponse current true))
            else with_registration workspace_id
                   (λ generation, wait_registered workspace_id after current generation wait_ms)
        end
  end.

Record Request := mkRequest {
  rq_method : string;
  rq_path : string;
  rq_query : string;
  rq_body : list byte;
  rq_auth : option string;              (* credentials.0 *)
  rq_migration_header : option string;  (* credentials.1 *)
}.

Definition is_route (r : Request) (method path : string) : bool :=
  bool_decide (rq_method r = method ∧ rq_path r = path).

Definition dispatch (r : Request) (params : gmap string string) : Route Response :=
  let body := rq_body r in
  let header := rq_migration_header r in
  if is_route r "GET" "/api/workspaces" then route_list_workspaces
  else if is_route r "POST" "/api/sync/peek" || is_route r "POST" "/api/sync/diff" then route_sync_peek body
  else if is_route r "POST" "/api/upload" then route_upload body params header
  else
    match (if decide (rq_method r = "GET") then strip_prefix "/api/download/" (rq_path r) else None) with
    | Some hash => route_download hash
    | None =>
        if is_route r "GET" "/api/head" then route_get_head params
        else if is_route r "PUT" "/api/head" then route_swap_head body header
        else if is_route r "POST" "/api/manifest" then route_manifest body params header
        else if is_route r "GET" "/api/workspace/format" then route_get_format params
        else if is_route r "POST" "/api/workspace/format" then route_set_format params header
        else if is_route r "POST" "/api/workspace/migration" then route_begin_migration params header
        else fail NOT_FOUND "not found"
    end.

(** The last match of [dispatch_request]: an error becomes its response. *)
Definition to_response (p : Route Response) : prog Response :=
  prog_bind p (λ r, match r with
                    | Ok response => Ret response
                    | Err (status, message) => Ret (mkResponse status (BodyText message))
                    end).

Definition dispatch_request (r : Request) (params : gmap string string) : prog Response :=
  to_response (dispatch r params).

(** How a request takes the publication lock. *)
Inductive LockMode := NoLock | ReadLock | WriteLock.

Definition lock_mode (r : Request) : LockMode :=
  if is_route r "POST" "/api/workspace/format" || is_route r "POST" "/api/workspace/migration"
  then WriteLock
  else if is_route r "POST" "/api/upload" || is_route r "PUT" "/api/head" || is_route r "POST" "/api/manifest"
  then ReadLock
  else NoLock.

(** [LocalHub::request]: the lock the request runs under and what it does. *)
Definition request (auth_token : option string) (r : Request) : LockMode * prog Response :=
  if match auth_token with Some expected => negb (bool_decide (default "" (rq_auth r) = expected)) | None => false end
  then (NoLock, Ret (mkResponse UNAUTHORIZED BodyEmpty))
  else if MAX_BODY_BYTES <? zlen (rq_body r)
  then (NoLock, Ret (mkResponse PAYLOAD_TOO_LARGE
                       (BodyText "Failed to buffer the request body: length limit exceeded")))
  else
    let params := parse_query (rq_query r) in
    match (if is_route r "GET" "/api/head" then params !! "after" else None) with
    | Some after => (NoLock, to_response (request_head_with_wait params after))
    | None => (lock_mode r, dispatch_request r params)
    end.
End routes.

(** ** Execution *)

(** What is on disk, and the table of head waiters: the number of wake-ups sent to a
    workspace's waiters and how many are registered. *)
Record Hub := mkHub {
  hub_state : HubStateV1;
  hub_blobs : gmap string (list byte);
  hub_waiters : gmap string (Z * Z);
}.
Definition empty_hub : Hub := mkHub HubStateV1_default ∅ ∅.

(** How the machine answers one operation: the fate of its read or write, and the clock. *)
Record Io := mkIo {
  io_commit : Commit;
  io_now : Z;
}.

Definition set_state {R} (h : Hub) (rs : R * HubStateV1) : R * Hub :=
  (rs.1, mkHub (rs.2) (hub_blobs h) (hub_waiters h)).
Definition read_state {R} (io : Io) (h : Hub) (f : HubStateV1 → R) : result HubError R * Hub :=
  (with_read (io_commit io) (λ s, Ok (f s)) (hub_state h), h).
Definition write_state {R} (io : Io) (h : Hub) (f : HubStateV1 → result HubError R * HubStateV1)
    : result HubError R * Hub := set_state h (with_write (io_commit io) f (hub_state h)).
Definition set_waiters (h : Hub) (w : gmap string (Z * Z)) : Hub := mkHub (hub_state h) (hub_blobs h) w.

(** [HubDb::store_blob]. *)
Definition store_blob (io : Io) (h : Hub) (hash : string) (data : list byte) : result HubError unit * Hub :=
  let '(r, content) := atomic_overwrite (io_commit io) (hub_blobs h !! hash) (Some data) in
  (r, mkHub (hub_state h) (partial_alter (λ _, content) hash (hub_blobs h)) (hub_waiters h)).

Definition read_blob {R} (io : Io) (h : Hub) (hash : string) (f : list byte → R) : result FsError R :=
  match io_commit io with
  | Committed => match hub_blobs h !! hash with Some data => Ok (f data) | None => Err NotFound end
  | _ => Err (OtherError "input/output error")
  end.

(** One step of [select!]: the notification is ready once a wake-up was sent after the
    registration; otherwise only the timer can fire. *)
Definition select_waiter (io : Io) (h : Hub) (workspace_id : string) (generation : Z) : bool :=
  match hub_waiters h !! workspace_id with
  | Some (current, _) =>
      negb (current =? generation) && match io_commit io with Committed => true | _ => false end
  | None => false
  end.

(** [LocalHeadNotifier::drop]. *)
Definition drop_waiter (h : Hub) (workspace_id : string) : gmap string (Z * Z) :=
  match hub_waiters h !! workspace_id with
  | Some (generation, registered) =>
      if registered <=? 1 then delete workspace_id (hub_waiters h)
      else <[workspace_id := (generation, registered - 1)]> (hub_waiters h)
  | None => hub_waiters h
  end.

Definition exec {X} (e : hubE X) (io : Io) (h : Hub) : X * Hub :=
  match e in hubE X return X * Hub with
  | ListWorkspaces => read_state io h list_workspaces
  | GetFiles ws => read_state io h (λ s, get_files s ws)
  | UpsertFile ws path file => write_state io h (upsert_file ws path file)
  | TombstoneExistingFile ws path hash mtime => write_state io h (tombstone_existing_file ws path hash mtime)
  | GetFormat ws => read_state io h (λ s, get_format s ws)
  | SetFormat ws version => write_state io h (set_format ws version)
  | GetHead ws => read_state io h (λ s, get_head s ws)
  | SwapHead ws expected new => write_state io h (swap_head ws expected new)
  | ManifestExists ws snapshot_id => read_state io h (λ s, manifest_exists s ws snapshot_id)
  | StoreManifest ws snapshot_id hashes => write_state io h (store_manifest (io_now io) ws snapshot_id hashes)
  | BeginMigration ws token => write_state io h (begin_migration (io_now io) ws token)
  | GetMigrationFence ws => read_state io h (λ s, get_migration_fence s ws)
  | BlobExists hash => (is_ok (read_blob io h hash id), h)
  | StoreBlob hash data => store_blob io h hash data
  | RemoveBlob hash =>
      (tt, match io_commit io with
           | Committed => mkHub (hub_state h) (delete hash (hub_blobs h)) (hub_waiters h)
           | _ => h
           end)
  | BlobLen hash => (read_blob io h hash zlen, h)
  | ReadBlob hash => (read_blob io h hash id, h)
  | Subscribe ws =>
      let '(generation, registered) := default (0, 0) (hub_waiters h !! ws) in
      (generation, set_waiters h (<[ws := (generation, registered + 1)]> (hub_waiters h)))
  | Select ws generation _ => (select_waiter io h ws generation, h)
  | Unsubscribe ws => (tt, set_waiters h (drop_waiter h ws))
  | NotifyWaiters ws =>
      (tt, match hub_waiters h !! ws with
           | Some (generation, registered) =>
               set_waiters h (<[ws := (generation + 1, registered)]> (hub_waiters h))
           | None => h
           end)
  end.

(** A request on its own: operation [n] meets the answer [ios n]. *)
Fixpoint run {A} (p : prog A) (ios : nat → Io) (h : Hub) : A * Hub :=
  match p with
  | Ret a => (a, h)
  | Vis e k => let '(x, h') := exec e (ios O) h in run (k x) (λ n, ios (S n)) h'
  end.

(** ** Interleaved requests *)
Record Task := mkTask {
  tk_lock : LockMode;
  tk_header : option string;
  tk_prog : prog Response;
}.
Inductive Thread := Waiting (t : Task) | Running (t : Task) | Finished (r : Response).
Record Config := mkConfig {
  cf_hub : Hub;
  cf_threads : list Thread;
}.

(** Two holders of the publication lock may run together. *)
Definition compatible (a b : LockMode) : bool :=
  match a, b with NoLock, _ | _, NoLock | ReadLock, ReadLock => true | _, _ => false end.
Definition lock_free (l : LockMode) (threads : list Thread) : bool :=
  forallb (λ t, match t with Running r => compatible l (tk_lock r) | _ => true end) threads.

(** The next operation of a program. *)
Definition advance {A} (p : prog A) (io : Io) (h : Hub) : option (prog A * Hub) :=
  match p with
  | Ret _ => None
  | Vis e k => let '(x, h') := exec e io h in Some (k x, h')
  end.

Section steps.
Context `{Unicode, HashOrder, Blake3, Wire}.
Context (auth_token : option string) (io_possible : Io → Prop).

Definition spawn (r : Request) : Thread :=
  let '(l, p) := request auth_token r in Waiting (mkTask l (rq_migration_header r) p).

Inductive hub_step : Config → Config → Prop :=
| step_request h ts r : hub_step (mkConfig h ts) (mkConfig h (ts ++ [spawn r]))
| step_acquire h ts i t :
    ts !! i = Some (Waiting t) → lock_free (tk_lock t) ts = true →
    hub_step (mkConfig h ts) (mkConfig h (<[i := Running t]> ts))
| step_op h ts i t io p' h' :
    ts !! i = Some (Running t) → io_possible io → advance (tk_prog t) io h = Some (p', h') →
    hub_step (mkConfig h ts) (mkConfig h' (<[i := Running (mkTask (tk_lock t) (tk_header t) p')]> ts))
| step_finish h ts i t r :
    ts !! i = Some (Running t) → tk_prog t = Ret r →
    hub_step (mkConfig h ts) (mkConfig h (<[i := Finished r]> ts)).

(** The configurations a freshly created hub can get into. *)
Inductive reachable : Config → Prop :=
| reach_init : reachable (mkConfig empty_hub [])
| reach_step c c' : reachable c → hub_step c c' → reachable c'.
End steps.
