(* ===== verification/HubProps.v ===== *)
(** * Properties of the in-process hub

    Every interleaving of requests keeps the hub's invariant.  The argument is
    rely-guarantee: a request that holds the publication lock relies on what the operations
    of compatible requests leave alone, and each of its own operations is shown to be made
    only when its precondition holds. *)
From Stdlib Require Import ZArith Lia Ascii Strings.Byte.
From stdpp Require Import sorting numbers strings gmap list_numbers list options.
From S2P Require Import Prelude Text Paths Model SyncDelta HubStore Hub.

Local Open Scope Z_scope.

Section props.
Context `{Unicode, HashOrder, Blake3, Wire}.
Context (auth_token : option string).

(** With [faults] any read or write may fail; without, every one succeeds. *)
Context (faults : bool).
Definition possible (io : Io) : Prop := faults = true ∨ io_commit io = Committed.

(** ** The invariant *)
Record workspace_ok (w : WorkspaceMetaV1) : Prop := {
  wo_head : ∀ head, ws_head w = Some head → has_manifest w head = true;
  wo_v3 : 3 ≤ ws_format_version w → is_Some (ws_head w) ∧ ws_files w = ∅ ∧ ws_migration_fence w = None;
  wo_fence : fence_recorded w;
  wo_token : ∀ token, ws_migration_fence w = Some token → is_valid_hash token = true;
  wo_manifests : ∀ id m, ws_manifests w !! id = Some m → validate_manifest_hashes id (mf_hashes m) = Ok tt;
}.

Definition manifest_of (h : Hub) (ws id : string) : option ManifestV1 :=
  w ← hs_workspaces (hub_state h) !! ws; ws_manifests w !! id.

Definition blobs_present (h : Hub) : Prop :=
  ∀ ws id m hash, manifest_of h ws id = Some m → hash ∈ mf_hashes m → is_Some (hub_blobs h !! hash).

Record hub_inv (h : Hub) : Prop := {
  hi_schema : hs_schema_version (hub_state h) = CURRENT_HUB_SCHEMA;
  hi_workspaces : ∀ id w, hs_workspaces (hub_state h) !! id = Some w → workspace_ok w;
  hi_blobs : ∀ hash data, hub_blobs h !! hash = Some data → hash_bytes data = hash;
  hi_present : faults = false → blobs_present h;
}.

(** ** What a request may rely on *)
Record rely (l : LockMode) (h h' : Hub) : Prop := {
  ry_manifests : ∀ ws id m, manifest_of h ws id = Some m → manifest_of h' ws id = Some m;
  ry_locked : l ≠ NoLock → ∀ ws,
    get_format (hub_state h') ws = get_format (hub_state h) ws ∧
    get_migration_fence (hub_state h') ws = get_migration_fence (hub_state h) ws;
  ry_blobs : faults = false → ∀ hash, is_Some (hub_blobs h !! hash) → is_Some (hub_blobs h' !! hash);
}.

#[global] Instance rely_preorder l : PreOrder (rely l).
Proof.
  split.
  - intros h. by split.
  - intros h1 h2 h3 [Hm Hl Hb] [Hm' Hl' Hb']. split; [eauto| |eauto].
    intros Hlock ws. destruct (Hl Hlock ws), (Hl' Hlock ws). split; congruence.
Qed.

(** ** When an operation may be made *)
Definition fence_open (h : Hub) (ws : string) (header : option string) : Prop :=
  match get_migration_fence (hub_state h) ws with
  | Some token => default "" header = token
  | None => True
  end.

Definition op_ok (l : LockMode) (header : option string) {X} (e : hubE X) (h : Hub) : Prop :=
  match e with
  | UpsertFile ws _ _ => l ≠ NoLock ∧ fence_open h ws header ∧ get_format (hub_state h) ws < 3
  | TombstoneExistingFile ws _ _ _ => l ≠ NoLock ∧ fence_open h ws header
  | SetFormat ws version => l = WriteLock ∧ fence_open h ws header ∧ 3 ≤ version
  | SwapHead ws _ new =>
      l ≠ NoLock ∧ fence_open h ws header ∧ manifest_exists (hub_state h) ws new = true
  | StoreManifest ws id hashes =>
      l ≠ NoLock ∧ fence_open h ws header ∧ validate_manifest_hashes id hashes = Ok tt ∧
      (faults = false → ∀ hash, hash ∈ hashes → is_Some (hub_blobs h !! hash))
  | BeginMigration _ token => l = WriteLock ∧ is_valid_hash token = true
  | StoreBlob hash data => hash_bytes data = hash
  | RemoveBlob _ => faults = true
  | _ => True
  end.

(** A program that, started in a state it may rely on, makes operations only when they are
    allowed and ends with [Q]. *)
Fixpoint safe (l : LockMode) (header : option string) {A} (p : prog A) (Q : A → Hub → Prop) (h : Hub) : Prop :=
  match p with
  | Ret a => Q a h
  | Vis e k => ∀ h' io, rely l h h' → hub_inv h' → possible io →
      op_ok l header e h' ∧ safe l header (k (exec e io h').1) Q (exec e io h').2
  end.

Definition safe_route (l : LockMode) (header : option string) {A} (p : Route A) (Q : A → Hub → Prop) (h : Hub)
    : Prop := safe l header p (λ r h, match r with Ok a => Q a h | Err _ => True end) h.

(** ** Rules *)
Section rules.
Context (l : LockMode) (header : option string).

Lemma safe_bind {A B} (p : prog A) (f : A → prog B) Q h :
  safe l header p (λ a h, safe l header (f a) Q h) h → safe l header (prog_bind p f) Q h.
Proof.
  revert h. induction p as [a|X e k IH]; intros h; simpl; [done|].
  intros Hp h' io Hr Hi Hio. destruct (Hp h' io Hr Hi Hio) as [Hok Hk]. split; [done|]. by apply IH.
Qed.

Lemma safe_mono {A} (p : prog A) (Q Q' : A → Hub → Prop) h :
  (∀ a h, Q a h → Q' a h) → safe l header p Q h → safe l header p Q' h.
Proof.
  intros HQ. revert h. induction p as [a|X e k IH]; intros h; simpl; [by apply HQ|].
  intros Hp h' io Hr Hi Hio. destruct (Hp h' io Hr Hi Hio) as [Hok Hk]. split; [done|]. by apply IH.
Qed.

Lemma safe_rely {A} (p : prog A) (Q : A → Hub → Prop) h h' :
  (∀ a h h', Q a h → rely l h h' → Q a h') → rely l h h' → safe l header p Q h → safe l header p Q h'.
Proof.
  intros HQ Hr. destruct p as [a|X e k]; simpl; [intros; by eapply HQ|].
  intros Hp h'' io Hr' Hi Hio. apply Hp; [|done..]. by trans h'.
Qed.

Lemma route_bind {A B} (p : Route A) (f : A → Route B) Q h :
  safe_route l header p (λ a h, safe_route l header (f a) Q h) h → safe_route l header (p ≫= f) Q h.
Proof.
  intros Hp. unfold safe_route. apply safe_bind. eapply safe_mono; [|exact Hp]. by intros [a|e] h'.
Qed.

Lemma route_ret {A} (a : A) (Q : A → Hub → Prop) h : Q a h → safe_route l header (mret a) Q h.
Proof. done. Qed.

Lemma route_guard c status message (Q : unit → Hub → Prop) h :
  (c = true → Q tt h) → safe_route l header (guard_route c status message) Q h.
Proof. by destruct c; unfold guard_route; cbn; auto. Qed.

Lemma route_call {X} (e : hubE X) (Q : X → Hub → Prop) h :
  (∀ h' io, rely l h h' → hub_inv h' → possible io →
     op_ok l header e h' ∧ Q (exec e io h').1 (exec e io h').2) →
  safe_route l header (call e) Q h.
Proof. intros He h' io Hr Hi Hio. simpl. by apply He. Qed.

Lemma route_db {X} (e : hubE (result HubError X)) (Q : X → Hub → Prop) h :
  (∀ h' io, rely l h h' → hub_inv h' → possible io →
     op_ok l header e h' ∧ ∀ x, (exec e io h').1 = Ok x → Q x (exec e io h').2) →
  safe_route l header (db e) Q h.
Proof.
  intros He h' io Hr Hi Hio. destruct (He h' io Hr Hi Hio) as [Hok HQ]. split; [done|].
  destruct (exec e io h') as [[x|err] h'']; simpl in *; auto.
Qed.

(** Reading the state: the answer is that of the state at the time of the read. *)
Lemma read_state_Ok {R} io h (f : HubStateV1 → R) x : (read_state io h f).1 = Ok x → x = f (hub_state h).
Proof. unfold read_state, with_read. simpl. destruct (io_commit io); naive_solver. Qed.

Lemma get_param_safe params key (Q : string → Hub → Prop) h :
  (∀ value, Q value h) → safe_route l header (get_param params key) Q h.
Proof. intros HQ. unfold get_param. destruct (params !! key); cbn; auto. Qed.

Lemma parse_param_safe {T} (parse : string → option T) params key (Q : T → Hub → Prop) h :
  (∀ t, Q t h) → safe_route l header (parse_required_param parse params key) Q h.
Proof.
  intros HQ. apply route_bind, get_param_safe. intros raw. destruct (parse raw); cbn; auto.
Qed.

Lemma check_fence_safe ws (Q : unit → Hub → Prop) h :
  (∀ h', rely l h h' → fence_open h' ws header → Q tt h') →
  safe_route l header (check_fence ws header) Q h.
Proof.
  intros HQ. apply route_bind, route_db. intros h' io Hr _ _. split; [done|].
  intros x Hx. apply read_state_Ok in Hx as ->. simpl.
  destruct (get_migration_fence (hub_state h') ws) as [token|] eqn:Hf.
  - apply route_guard. intros Ht. to_prop. apply HQ; [done|]. unfold fence_open. by rewrite Hf.
  - apply route_ret, HQ; [done|]. unfold fence_open. by rewrite Hf.
Qed.

Lemma check_legacy_safe ws (Q : unit → Hub → Prop) h :
  (∀ h', rely l h h' → get_format (hub_state h') ws < 3 → Q tt h') →
  safe_route l header (check_legacy_compat ws) Q h.
Proof.
  intros HQ. apply route_bind, route_db. intros h' io Hr _ _. split; [done|].
  intros x Hx. apply read_state_Ok in Hx as ->. simpl. apply route_guard. intros Hc. to_prop. auto.
Qed.
End rules.

(** ** Guarantee: what one operation does to the hub *)
Definition guarantee (l' : LockMode) (h h' : Hub) : Prop := hub_inv h' ∧ rely l' h h'.

Lemma guarantee_refl l' h : hub_inv h → guarantee l' h h.
Proof. split; [done|reflexivity]. Qed.

Lemma guarantee_waiters l' h w : hub_inv h → guarantee l' h (set_waiters h w).
Proof. intros [Hs Hw Hb Hp]. split; by split. Qed.

Lemma workspace_default_ok : workspace_ok WorkspaceMetaV1_default.
Proof. split; simpl; try done; intros; by rewrite ?lookup_empty in *. Qed.

Lemma entry_ok h ws : hub_inv h → workspace_ok (entry_or_default (hub_state h) ws).
Proof.
  intros Hi. unfold entry_or_default. destruct (hs_workspaces (hub_state h) !! ws) eqn:E; simpl.
  - by eapply hi_workspaces.
  - apply workspace_default_ok.
Qed.

Lemma get_format_entry s ws : get_format s ws = ws_format_version (entry_or_default s ws).
Proof. unfold get_format, entry_or_default. by destruct (hs_workspaces s !! ws). Qed.
Lemma get_fence_entry s ws : get_migration_fence s ws = ws_migration_fence (entry_or_default s ws).
Proof. unfold get_migration_fence, entry_or_default. by destruct (hs_workspaces s !! ws). Qed.
Lemma get_head_entry s ws : get_head s ws = ws_head (entry_or_default s ws).
Proof. unfold get_head, entry_or_default. by destruct (hs_workspaces s !! ws). Qed.
Lemma manifest_of_entry h ws id : manifest_of h ws id = ws_manifests (entry_or_default (hub_state h) ws) !! id.
Proof. unfold manifest_of, entry_or_default. by destruct (hs_workspaces (hub_state h) !! ws). Qed.
Lemma entry_put s ws ws' w :
  entry_or_default (put_workspace s ws w) ws' = if decide (ws = ws') then w else entry_or_default s ws'.
Proof.
  unfold entry_or_default, put_workspace. simpl. case_decide; subst.
  - by rewrite lookup_insert_eq.
  - by rewrite lookup_insert_ne.
Qed.

Definition put_hub (h : Hub) (ws : string) (w : WorkspaceMetaV1) : Hub :=
  mkHub (put_workspace (hub_state h) ws w) (hub_blobs h) (hub_waiters h).

Lemma put_guarantee l' h ws w :
  let old := entry_or_default (hub_state h) ws in
  hub_inv h → workspace_ok w →
  (∀ id m, ws_manifests old !! id = Some m → ws_manifests w !! id = Some m) →
  (faults = false → ∀ id m hash, ws_manifests w !! id = Some m → hash ∈ mf_hashes m → is_Some (hub_blobs h !! hash)) →
  (l' ≠ NoLock → ws_format_version w = ws_format_version old ∧ ws_migration_fence w = ws_migration_fence old) →
  guarantee l' h (put_hub h ws w).
Proof.
  intros old [Hs Hw Hb Hp] Hok Hm Hnew Hlock. split; split; simpl; try done.
  - intros id v. unfold put_workspace. simpl. intros [[<- <-]|[_ ?]]%lookup_insert_Some; eauto.
  - intros Hf ws' id m hash. rewrite manifest_of_entry. simpl. rewrite entry_put.
    case_decide; [by apply Hnew|]. rewrite <-manifest_of_entry. by apply Hp.
  - intros ws' id m. rewrite !manifest_of_entry. simpl. rewrite entry_put. case_decide; subst; auto.
  - intros Hl ws'. rewrite !get_format_entry, !get_fence_entry, entry_put. case_decide; subst; auto.
Qed.

(** The same with the manifests as they were. *)
Lemma put_guarantee_same l' h ws w :
  let old := entry_or_default (hub_state h) ws in
  hub_inv h → workspace_ok w → ws_manifests w = ws_manifests old →
  (l' ≠ NoLock → ws_format_version w = ws_format_version old ∧ ws_migration_fence w = ws_migration_fence old) →
  guarantee l' h (put_hub h ws w).
Proof.
  intros old Hi Hok Hm Hlock. apply put_guarantee; [done..| | |done]; rewrite Hm; [done|].
  intros Hf id m hash Hid Hin. eapply (hi_present _ Hi Hf ws); [|done]. by rewrite manifest_of_entry.
Qed.

Lemma put_guarantee_old l' h ws :
  hub_inv h → guarantee l' h (put_hub h ws (entry_or_default (hub_state h) ws)).
Proof. intros Hi. apply put_guarantee_same; [done|by apply entry_ok|done|done]. Qed.

Lemma write_state_cases {R} (P : Hub → Prop) io h (f : HubStateV1 → result HubError R * HubStateV1) :
  P h → P (mkHub (f (hub_state h)).2 (hub_blobs h) (hub_waiters h)) → P (write_state io h f).2.
Proof.
  intros Hold Hnew. unfold write_state, set_state, with_write.
  destruct (f (hub_state h)) as [[r|e] s] eqn:E; simpl in *.
  - destruct (io_commit io); simpl; [done| |done]. by destruct h.
  - by destruct h.
Qed.

Lemma upsert_guarantee l' h ws path file :
  hub_inv h → get_format (hub_state h) ws < 3 →
  guarantee l' h (mkHub (upsert_file ws path file (hub_state h)).2 (hub_blobs h) (hub_waiters h)).
Proof.
  intros Hi Hf. simpl. apply put_guarantee_same; try done. rewrite get_format_entry in Hf.
  destruct (entry_ok h ws Hi) as [Hh Hv Hfence Ht Hm].
  split; simpl; try done. lia.
Qed.

Lemma tombstone_guarantee l' h ws path hash mtime :
  hub_inv h →
  guarantee l' h (mkHub (tombstone_existing_file ws path hash mtime (hub_state h)).2 (hub_blobs h) (hub_waiters h)).
Proof.
  intros Hi. unfold tombstone_existing_file.
  destruct (hs_workspaces (hub_state h) !! ws) as [w|] eqn:Hw; [|by destruct h; apply guarantee_refl].
  destruct (ws_files w !! path) as [old|] eqn:Hp; [|by destruct h; apply guarantee_refl].
  assert (entry_or_default (hub_state h) ws = w) as He by (unfold entry_or_default; by rewrite Hw).
  apply put_guarantee_same; rewrite ?He; try done.
  destruct (hi_workspaces _ Hi _ _ Hw) as [Hh Hv Hfence Ht Hm].
  split; simpl; try done. intros (_ & Hempty & _)%Hv. by rewrite Hempty, lookup_empty in Hp.
Qed.

Lemma swap_guarantee l' h ws expected new :
  hub_inv h → manifest_exists (hub_state h) ws new = true →
  guarantee l' h (mkHub (swap_head ws expected new (hub_state h)).2 (hub_blobs h) (hub_waiters h)).
Proof.
  intros Hi Hm. unfold swap_head. cbn [fst snd]. case_decide; [|by apply put_guarantee_old].
  apply put_guarantee_same; try done.
  destruct (entry_ok h ws Hi) as [Hh Hv Hfence Ht Hms]. split; simpl; try done.
  - intros head [= <-]. unfold manifest_exists in Hm. unfold entry_or_default.
    destruct (hs_workspaces (hub_state h) !! ws); [done|]. done.
  - intros (_ & ? & ?)%Hv. eauto.
Qed.

Lemma store_manifest_guarantee l' h now ws id hashes :
  hub_inv h → validate_manifest_hashes id hashes = Ok tt →
  (faults = false → ∀ hash, hash ∈ hashes → is_Some (hub_blobs h !! hash)) →
  guarantee l' h (mkHub (store_manifest now ws id hashes (hub_state h)).2 (hub_blobs h) (hub_waiters h)).
Proof.
  intros Hi Hvalid Hblobs. unfold store_manifest.
  destruct (ws_manifests (entry_or_default (hub_state h) ws) !! id) as [m|] eqn:Hm; cbn [fst snd];
    [by apply put_guarantee_old|].
  destruct (entry_ok h ws Hi) as [Hh Hv Hfence Ht Hms].
  apply put_guarantee; simpl; try done.
  - split; simpl; try done.
    + intros head Hhead%Hh. unfold has_manifest in *. simpl. rewrite lookup_insert_ne; [done|].
      intros <-. by rewrite Hm in Hhead.
    + intros id' m' [[<- <-]|[_ ?]]%lookup_insert_Some; eauto.
  - intros id' m' Hm'. rewrite lookup_insert_ne; [done|congruence].
  - intros Hf id' m' hash [[<- <-]|[_ Hid]]%lookup_insert_Some Hin; [by apply Hblobs|].
    eapply (hi_present _ Hi Hf ws); [|done]. by rewrite manifest_of_entry.
Qed.

Lemma begin_migration_guarantee h now ws token :
  hub_inv h → is_valid_hash token = true →
  guarantee NoLock h (mkHub (begin_migration now ws token (hub_state h)).2 (hub_blobs h) (hub_waiters h)).
Proof.
  intros Hi Hvalid. unfold begin_migration.
  destruct (entry_ok h ws Hi) as [Hh Hv Hfence Ht Hms].
  destruct (Z.leb_spec 3 (ws_format_version (entry_or_default (hub_state h) ws)));
    [by apply put_guarantee_old|].
  destruct (ws_migration_fence (entry_or_default (hub_state h) ws)) as [existing|] eqn:Hf;
    [by apply put_guarantee_old|].
  apply put_guarantee_same; try done. split; simpl; try done; try lia. by intros ? [= <-].
Qed.

Lemma set_format_guarantee h ws version :
  hub_inv h → 3 ≤ version →
  guarantee NoLock h (mkHub (set_format ws version (hub_state h)).2 (hub_blobs h) (hub_waiters h)).
Proof.
  intros Hi Hversion. unfold set_format. rewrite (proj2 (Z.leb_le 3 version)) by done. simpl.
  destruct (entry_ok h ws Hi) as [Hh Hv Hfence Ht Hms].
  destruct (ws_head (entry_or_default (hub_state h) ws)) as [head|] eqn:Hhead; simpl;
    [|by apply put_guarantee_old].
  rewrite Hh by done. simpl. apply put_guarantee_same; try done.
  split; simpl; try done. rewrite Hhead. by intros ? [= <-]; apply Hh.
Qed.

Lemma alter_blob_present (m : gmap string (list byte)) hash k (o : option (list byte)) :
  (is_Some (m !! hash) → is_Some o) → is_Some (m !! k) → is_Some (partial_alter (λ _, o) hash m !! k).
Proof.
  destruct (decide (hash = k)) as [->|]; [by rewrite lookup_partial_alter_eq; auto|].
  by rewrite lookup_partial_alter_ne.
Qed.

Lemma store_blob_guarantee l' io h hash data :
  hub_inv h → hash_bytes data = hash → guarantee l' h (store_blob io h hash data).2.
Proof.
  intros Hi Hhash. pose proof Hi as [Hs Hw Hb Hp]. unfold store_blob.
  assert (∀ o, (o = Some data ∨ o = hub_blobs h !! hash) →
    guarantee l' h (mkHub (hub_state h) (partial_alter (λ _, o) hash (hub_blobs h)) (hub_waiters h))) as Hset.
  { intros o Ho. assert (∀ k, is_Some (hub_blobs h !! k) →
      is_Some (partial_alter (λ _, o) hash (hub_blobs h) !! k)) as Hgrow.
    { intros k. apply alter_blob_present. destruct Ho as [->| ->]; eauto. }
    split; split; simpl; try done; auto.
    - intros k d [[<- Hd]|[_ ?]]%lookup_partial_alter_Some; [|eauto]. destruct Ho as [->|Ho]; [|eauto with congruence].
      by injection Hd as <-.
    - intros Hf ws id m' k ? ?. apply Hgrow. by eapply Hp. }
  destruct (io_commit io); simpl; auto.
Qed.

Lemma remove_blob_guarantee l' h hash :
  hub_inv h → faults = true →
  guarantee l' h (mkHub (hub_state h) (delete hash (hub_blobs h)) (hub_waiters h)).
Proof.
  intros [Hs Hw Hb Hp] Hf. split; split; simpl; try done; try congruence.
  intros k d [_ ?]%lookup_delete_Some. eauto.
Qed.

(** An allowed operation keeps the invariant and what every compatible request relies on. *)
Lemma exec_guarantee l l' header {X} (e : hubE X) io h :
  hub_inv h → op_ok l header e h → compatible l l' = true → guarantee l' h (exec e io h).2.
Proof.
  intros Hi Hok Hc. destruct e; simpl in Hok; cbn [exec]; try (by apply guarantee_refl).
  - apply write_state_cases; [by apply guarantee_refl|]. by apply upsert_guarantee; tauto.
  - apply write_state_cases; [by apply guarantee_refl|]. by apply tombstone_guarantee.
  - destruct Hok as (-> & _ & ?). destruct l'; [|done..].
    apply write_state_cases; [by apply guarantee_refl|]. by apply set_format_guarantee.
  - apply write_state_cases; [by apply guarantee_refl|]. by apply swap_guarantee; tauto.
  - apply write_state_cases; [by apply guarantee_refl|]. by apply store_manifest_guarantee; tauto.
  - destruct Hok as (-> & ?). destruct l'; [|done..].
    apply write_state_cases; [by apply guarantee_refl|]. by apply begin_migration_guarantee.
  - by apply store_blob_guarantee.
  - destruct (io_commit io); [by apply remove_blob_guarantee|by apply guarantee_refl..].
  - destruct (default (0, 0) (hub_waiters h !! workspace_id)). by apply guarantee_waiters.
  - by apply guarantee_waiters.
  - destruct (hub_waiters h !! workspace_id) as [[??]|]; [by apply guarantee_waiters|by apply guarantee_refl].
Qed.

(** ** Facts that survive interference *)
Section stable.
Context (l : LockMode) (header : option string) (Hlock : l ≠ NoLock).

Lemma fence_open_rely h h' ws : rely l h h' → fence_open h ws header → fence_open h' ws header.
Proof using Hlock. intros Hr. unfold fence_open. by destruct (ry_locked _ _ _ Hr Hlock ws) as [_ ->]. Qed.

Lemma format_rely h h' ws :
  rely l h h' → get_format (hub_state h) ws < 3 → get_format (hub_state h') ws < 3.
Proof using Hlock. intros Hr. by destruct (ry_locked _ _ _ Hr Hlock ws) as [-> _]. Qed.
End stable.

Lemma manifest_exists_of s ws id :
  manifest_exists s ws id = true ↔
  ∃ m, manifest_of (mkHub s ∅ ∅) ws id = Some m ∧ is_ok (canonical_manifest_hash_list id (mf_hashes m)) = true.
Proof.
  unfold manifest_exists, has_manifest, manifest_of. simpl.
  destruct (hs_workspaces s !! ws) as [w|]; simpl; [|naive_solver].
  destruct (ws_manifests w !! id); naive_solver.
Qed.

Lemma manifest_exists_rely l h h' ws id :
  rely l h h' → manifest_exists (hub_state h) ws id = true → manifest_exists (hub_state h') ws id = true.
Proof.
  intros Hr. rewrite !manifest_exists_of. intros (m & Hm & Hok). exists m. split; [|done].
  by apply (ry_manifests _ _ _ Hr) in Hm.
Qed.

(** ** The routes *)
Ltac route_step :=
  match goal with
  | |- safe_route _ _ (mbind _ _) _ _ => apply route_bind
  | |- safe_route _ _ (get_param _ _) _ _ => apply get_param_safe; intros ?
  | |- safe_route _ _ (parse_required_param _ _ _) _ _ => apply parse_param_safe; intros ?
  | |- safe_route _ _ (guard_route _ _ _) _ _ => apply route_guard; intros ?
  | |- safe_route _ _ (mret _) _ _ => apply route_ret
  | |- safe_route _ _ (respond _ _) _ _ => exact I
  | |- safe_route _ _ (fail _ _) _ _ => exact I
  | |- safe_route _ _ (Ret (Err _)) _ _ => exact I
  | |- safe_route _ _ (db _) _ _ => apply route_db; intros ? ? ? ? ?; split; [|intros ? ?]
  | |- safe_route _ _ (call _) _ _ => apply route_call; intros ? ? ? ? ?; split
  | |- op_ok _ _ _ _ => exact I
  | |- safe_route _ _ (if ?c then _ else _) _ _ => destruct c eqn:?
  | |- safe_route _ _ (match ?x with _ => _ end) _ _ => destruct x eqn:?
  end.

Definition done_route {A} : A → Hub → Prop := λ _ _, True.

Lemma upload_deletion_safe l header params ws hash path h :
  l ≠ NoLock → fence_open h ws header →
  safe_route l header (upload_deletion params ws hash path) done_route h.
Proof.
  intros Hl Hf. unfold upload_deletion. do 2 route_step.
  route_step. apply check_legacy_safe. intros h1 Hr1 Hv1.
  apply (fence_open_rely l header Hl h h1 ws Hr1) in Hf.
  do 2 route_step. route_step; do 2 route_step; try (by repeat route_step); simpl.
  - split; [done|]. by eapply fence_open_rely.
  - split; [done|]. split; [by eapply fence_open_rely|by eapply format_rely].
Qed.

Lemma roll_back_safe l header ws hash is_new error h :
  faults = true → safe_route l header (roll_back_blob ws hash is_new error) done_route h.
Proof. intros Hf. unfold roll_back_blob. repeat route_step; done. Qed.

Lemma hub_state_store_blob io h hash data : hub_state (store_blob io h hash data).2 = hub_state h.
Proof. unfold store_blob. by destruct (io_commit io). Qed.

Lemma legacy_metadata_safe l header params ws (Q : Z * Z * Z → Hub → Prop) h :
  (∀ m h', rely l h h' → get_format (hub_state h') ws < 3 → Q m h') →
  safe_route l header (legacy_metadata params ws) Q h.
Proof.
  intros HQ. unfold legacy_metadata. route_step. apply check_legacy_safe. intros h1 Hr1 Hv1.
  repeat route_step. auto.
Qed.

Lemma write_fails_only_with_faults {R} io h (f : HubStateV1 → result HubError R * HubStateV1) r e :
  possible io → (f (hub_state h)).1 = Ok r → (write_state io h f).1 = Err e → faults = true.
Proof.
  intros [?|Hio] Hok; [done|]. unfold write_state, set_state, with_write. rewrite Hio.
  destruct (f (hub_state h)) as [[?|?] ?]; simpl in *; done.
Qed.

Lemma upsert_or_roll_back_safe l header ws hash path file is_new h :
  l ≠ NoLock → fence_open h ws header → get_format (hub_state h) ws < 3 →
  safe_route l header
    (r ← call (UpsertFile ws path file);
     match r with Ok _ => respond OK BodyEmpty | Err error => roll_back_blob ws hash is_new error end)
    done_route h.
Proof.
  intros Hl Hf Hv. do 2 route_step.
  - simpl. split; [done|]. split; [by eapply fence_open_rely|by eapply format_rely].
  - route_step; [route_step|]. apply roll_back_safe.
    eapply (write_fails_only_with_faults _ _ (upsert_file ws path file)); [eassumption|reflexivity|eassumption].
Qed.

Lemma upload_content_safe l header body params ws hash path h :
  l ≠ NoLock → fence_open h ws header →
  safe_route l header (upload_content body params ws hash path) done_route h.
Proof.
  intros Hl Hf. unfold upload_content. do 4 route_step. to_prop.
  destruct (param_is_true params "object") eqn:Hobject; [by repeat route_step|].
  do 2 route_step. apply legacy_metadata_safe. intros [[size mtime] mode] h1 Hr1 Hv1.
  apply (fence_open_rely l header Hl h h1 ws Hr1) in Hf. route_step. do 2 route_step; [done|].
  assert (fence_open h' ws header) as Hf' by (by eapply fence_open_rely).
  assert (get_format (hub_state h') ws < 3) as Hv' by (by eapply format_rely).
  do 2 route_step; [route_step; [done|]|route_step]; apply upsert_or_roll_back_safe; try done.
  - simpl. unfold fence_open. rewrite hub_state_store_blob. by eapply fence_open_rely.
  - simpl. rewrite hub_state_store_blob. by eapply format_rely.
Qed.

Lemma route_upload_safe header body params h :
  safe_route ReadLock header (route_upload body params header) done_route h.
Proof.
  unfold route_upload. do 3 route_step. apply check_fence_safe. intros h1 Hr Hf.
  do 6 route_step. route_step; [by apply upload_deletion_safe|by apply upload_content_safe].
Qed.

(** ** Swapping the head *)
Lemma route_swap_head_safe header body h :
  safe_route ReadLock header (route_swap_head body header) done_route h.
Proof.
  unfold route_swap_head. route_step; [|route_step]. route_step. apply check_fence_safe. intros h1 Hr Hf.
  do 4 route_step; [route_step|]. rename select (_ = Ok _) into Hx. apply read_state_Ok in Hx as ->.
  do 4 route_step.
  - simpl. split; [done|]. split.
    + rename select (rely _ h1 _) into Hr1. apply (fence_open_rely ReadLock header ltac:(done) _ _ _ Hr1) in Hf.
      rename select (rely _ (exec _ _ _).2 _) into Hr2. exact (fence_open_rely ReadLock header ltac:(done) _ _ _ Hr2 Hf).
    + by eapply manifest_exists_rely.
  - route_step; by repeat route_step.
Qed.

(** ** Storing a manifest *)
Lemma read_blob_exists io h hash : is_ok (read_blob io h hash id) = true → is_Some (hub_blobs h !! hash).
Proof. unfold read_blob. destruct (io_commit io), (hub_blobs h !! hash); simpl; try done; eauto. Qed.

Lemma check_blobs_safe l header hashes (Q : unit → Hub → Prop) h :
  (∀ h', rely l h h' → (faults = false → Forall (λ x, is_Some (hub_blobs h' !! x)) hashes) → Q tt h') →
  safe_route l header (check_blobs hashes) Q h.
Proof.
  revert h. induction hashes as [|hash hashes IH]; intros h HQ; cbn [check_blobs].
  { apply route_ret, HQ; [reflexivity|constructor]. }
  do 2 route_step; [route_step|]. do 2 route_step. apply IH. intros h2 Hr2 Hall.
  apply HQ; [by etrans|]. intros Hf. constructor; [|by apply Hall].
  rename select (_ = true) into Hx. exact (ry_blobs _ _ _ Hr2 Hf _ (read_blob_exists _ _ _ Hx)).
Qed.

Lemma route_manifest_safe header body params h :
  safe_route ReadLock header (route_manifest body params header) done_route h.
Proof.
  unfold route_manifest. do 3 route_step. apply check_fence_safe. intros h1 Hr Hf.
  do 4 route_step. route_step; [|route_step]. route_step; [|route_step].
  rename select (canonical_manifest_hashes _ _ = _) into Hc. apply canonical_manifest_forms in Hc as [Hvalid _].
  route_step. apply check_blobs_safe. intros h2 Hr2 Hall. do 2 route_step.
  - simpl. split; [done|]. split; [|split; [done|]].
    + apply (fence_open_rely ReadLock header ltac:(done) _ _ _ Hr2) in Hf.
      rename select (rely _ h2 _) into Hr3. exact (fence_open_rely ReadLock header ltac:(done) _ _ _ Hr3 Hf).
    + intros Hfaults x Hx. rename select (rely _ h2 _) into Hr3. apply (ry_blobs _ _ _ Hr3 Hfaults).
      specialize (Hall Hfaults). rewrite Forall_forall in Hall. auto.
  - by repeat route_step.
Qed.

(** ** Formats and migration fences *)
Lemma route_set_format_safe header params h :
  safe_route WriteLock header (route_set_format params header) done_route h.
Proof.
  unfold route_set_format. do 3 route_step. apply check_fence_safe. intros h1 Hr Hf.
  do 2 route_step. route_step; [|route_step]. do 2 route_step.
  rename select (is_supported_format_version _ = _) into Hv. unfold is_supported_format_version in Hv. to_prop.
  do 2 route_step; [|by repeat route_step].
  simpl. split; [done|]. split; [by eapply (fence_open_rely WriteLock)|]. subst. done.
Qed.

Lemma route_begin_migration_safe header params h :
  safe_route WriteLock header (route_begin_migration params header) done_route h.
Proof. unfold route_begin_migration. repeat route_step; done. Qed.

(** ** The routes that only read *)
Lemma read_routes_safe l header :
  (∀ h, safe_route l header route_list_workspaces done_route h) ∧
  (∀ body h, safe_route l header (route_sync_peek body) done_route h) ∧
  (∀ hash h, safe_route l header (route_download hash) done_route h) ∧
  (∀ params h, safe_route l header (route_get_head params) done_route h) ∧
  (∀ params h, safe_route l header (route_get_format params) done_route h).
Proof.
  split_and!; intros; unfold route_list_workspaces, route_sync_peek, route_download, route_get_head,
    route_get_format, check_legacy_compat; repeat route_step.
Qed.

Lemma with_registration_safe l header ws body h :
  (∀ g h, safe_route l header (body g) done_route h) →
  safe_route l header (with_registration ws body) done_route h.
Proof.
  intros Hbody. unfold with_registration. do 2 route_step; [route_step|].
  unfold safe_route. apply safe_bind. eapply safe_mono; [|apply Hbody].
  intros r h1 _ h2 io2 _ _ _. split; [done|]. simpl. by destruct r.
Qed.

Lemma wait_registered_safe l header ws after current g wait_ms h :
  safe_route l header (wait_registered ws after current g wait_ms) done_route h.
Proof. unfold wait_registered. repeat route_step. Qed.

Lemma wait_safe l header params after h :
  safe_route l header (request_head_with_wait params after) done_route h.
Proof.
  unfold request_head_with_wait. repeat route_step; try done.
  all: apply with_registration_safe; intros; apply wait_registered_safe.
Qed.

(** ** Requests *)
Lemma dispatch_safe r params h :
  safe_route (lock_mode r) (rq_migration_header r) (dispatch r params) done_route h.
Proof.
  destruct (read_routes_safe (lock_mode r) (rq_migration_header r)) as (Hlist & Hpeek & Hdown & Hhead & Hfmt).
  assert (∀ m p, is_route r m p = true → lock_mode r = lock_mode (mkRequest m p "" [] None None)) as Hmode.
  { intros m p Hr. unfold is_route in Hr. to_prop. destruct Hr. by destruct r; simpl in *; subst. }
  unfold dispatch.
  destruct (is_route r "GET" "/api/workspaces"); [apply Hlist|].
  destruct (_ || _); [apply Hpeek|].
  destruct (is_route r "POST" "/api/upload") eqn:E; [rewrite (Hmode _ _ E); apply route_upload_safe|].
  destruct (if decide _ then _ else _); [apply Hdown|].
  destruct (is_route r "GET" "/api/head"); [apply Hhead|]. clear E.
  destruct (is_route r "PUT" "/api/head") eqn:E; [rewrite (Hmode _ _ E); apply route_swap_head_safe|]. clear E.
  destruct (is_route r "POST" "/api/manifest") eqn:E; [rewrite (Hmode _ _ E); apply route_manifest_safe|]. clear E.
  destruct (is_route r "GET" "/api/workspace/format"); [apply Hfmt|].
  destruct (is_route r "POST" "/api/workspace/format") eqn:E;
    [rewrite (Hmode _ _ E); apply route_set_format_safe|]. clear E.
  destruct (is_route r "POST" "/api/workspace/migration") eqn:E;
    [rewrite (Hmode _ _ E); apply route_begin_migration_safe|]. done.
Qed.

Lemma to_response_safe l header (p : Route Response) h :
  safe_route l header p done_route h → safe l header (to_response p) done_route h.
Proof.
  intros Hp. apply safe_bind. eapply safe_mono; [|exact Hp]. by intros [?|[??]] ? _.
Qed.

Lemma request_safe r h :
  safe (request auth_token r).1 (rq_migration_header r) (request auth_token r).2 done_route h.
Proof.
  unfold request. destruct (match auth_token with Some _ => _ | None => _ end); [done|].
  destruct (MAX_BODY_BYTES <? _); [done|].
  destruct (if is_route r _ _ then _ else _); apply to_response_safe; [apply wait_safe|apply dispatch_safe].
Qed.

(** ** Configurations *)
Definition task_safe (t : Task) (h : Hub) : Prop := safe (tk_lock t) (tk_header t) (tk_prog t) done_route h.

Record config_ok (c : Config) : Prop := {
  co_hub : hub_inv (cf_hub c);
  co_waiting : ∀ i t, cf_threads c !! i = Some (Waiting t) → ∀ h, task_safe t h;
  co_running : ∀ i t, cf_threads c !! i = Some (Running t) → task_safe t (cf_hub c);
  co_locks : ∀ i j t u, i ≠ j → cf_threads c !! i = Some (Running t) → cf_threads c !! j = Some (Running u) →
    compatible (tk_lock t) (tk_lock u) = true;
}.

Lemma empty_hub_inv : hub_inv empty_hub.
Proof. by split. Qed.

Lemma task_safe_rely t h h' : rely (tk_lock t) h h' → task_safe t h → task_safe t h'.
Proof. by apply safe_rely. Qed.

Lemma compatible_sym a b : compatible a b = compatible b a.
Proof. by destruct a, b. Qed.

Lemma lock_free_running l ts i t : lock_free l ts = true → ts !! i = Some (Running t) → compatible l (tk_lock t) = true.
Proof.
  unfold lock_free. rewrite forallb_Forall, Forall_lookup. intros Hall Hi. by specialize (Hall _ _ Hi).
Qed.

(** One operation of a running request. *)
Lemma advance_ok t io h p' h' :
  hub_inv h → task_safe t h → possible io → advance (tk_prog t) io h = Some (p', h') →
  hub_inv h' ∧ task_safe (mkTask (tk_lock t) (tk_header t) p') h' ∧
  ∀ l', compatible (tk_lock t) l' = true → rely l' h h'.
Proof.
  intros Hi Hs Hio Ha. destruct t as [l header p]. unfold task_safe in *. simpl in *.
  destruct p as [a|X e k]; [done|]. simpl in Ha, Hs.
  destruct (Hs h io (reflexivity h) Hi Hio) as [Hok Hk].
  destruct (exec e io h) as [x h1] eqn:E. injection Ha as <- <-. simpl in Hk.
  assert (∀ l', compatible l l' = true → guarantee l' h h1) as Hg.
  { intros l' Hl'. pose proof (exec_guarantee l l' header e io h Hi Hok Hl') as Hg. by rewrite E in Hg. }
  split; [|split; [done|]].
  - apply (Hg NoLock). by destruct l.
  - intros l' Hl'. by apply Hg.
Qed.

Lemma set_thread_ok h h' ts i th :
  config_ok (mkConfig h ts) → hub_inv h' → 
  (∀ t, th = Waiting t → ∀ h, task_safe t h) →
  (∀ t, th = Running t → task_safe t h') →
  (∀ j u, i ≠ j → ts !! j = Some (Running u) →
     rely (tk_lock u) h h' ∧ ∀ t, th = Running t → compatible (tk_lock t) (tk_lock u) = true) →
  config_ok (mkConfig h' (<[i := th]> ts)).
Proof.
  intros [Hi Hw Hr Hc] Hi' Hw' Hr' Hother. split; simpl in *.
  - done.
  - intros j t [(_ & -> & _)|[_ ?]]%list_lookup_insert_Some; eauto.
  - intros j t [(_ & -> & _)|[? Hj]]%list_lookup_insert_Some; [by apply Hr'|].
    eapply task_safe_rely; [by eapply Hother|eauto].
  - intros j k t u Hjk Hj Hk.
    apply list_lookup_insert_Some in Hj as [(<- & -> & _)|[? Hj]];
      apply list_lookup_insert_Some in Hk as [(<- & E & _)|[? Hk]].
    + done.
    + by eapply Hother.
    + rewrite compatible_sym. subst th. by eapply Hother.
    + by apply (Hc j k).
Qed.

Lemma step_ok c c' : config_ok c → hub_step auth_token possible c c' → config_ok c'.
Proof.
  intros Hc Hstep. pose proof Hc as [Hi Hw Hr Hl]. destruct Hstep as [h ts r|h ts i t Ht Hfree|
    h ts i t io p' h' Ht Hio Ha|h ts i t r Ht Hret]; simpl in *.
  - assert (∃ t, spawn auth_token r = Waiting t ∧ ∀ h, task_safe t h) as (t & Hspawn & Ht).
    { unfold spawn. pose proof (request_safe r) as Hs. destruct (request auth_token r) as [l p]. eauto. }
    rewrite Hspawn. split; simpl; [done| | |].
    + intros i u [[_ ?]|[_ [= <-]]]%lookup_snoc_Some; eauto.
    + intros i u [[_ ?]|[_ [=]]]%lookup_snoc_Some; eauto.
    + intros i j u v Hij [[_ ?]|[_ [=]]]%lookup_snoc_Some [[_ ?]|[_ [=]]]%lookup_snoc_Some; eauto.
  - eapply set_thread_ok; [done|done|by intros|intros ? [= <-]; eauto|].
    intros j u Hij Hj. split; [reflexivity|]. intros ? [= <-]. by eapply lock_free_running.
  - destruct (advance_ok t io h p' h' Hi (Hr _ _ Ht) Hio Ha) as (Hi' & Hs' & Hrely).
    eapply set_thread_ok; [done|done|by intros|by intros ? [= <-]|].
    intros j u Hij Hj. assert (compatible (tk_lock t) (tk_lock u) = true) as Hcomp by eauto.
    split; [by apply Hrely|]. by intros ? [= <-].
  - eapply set_thread_ok; [done|done|by intros|by intros|].
    intros j u Hij Hj. split; [reflexivity|]. by intros.
Qed.

Lemma reachable_ok c : reachable auth_token possible c → config_ok c.
Proof.
  induction 1 as [|c c' _ IH Hstep]; [|by eapply step_ok].
  split; simpl; [apply empty_hub_inv|..]; intros; by rewrite lookup_nil in *.
Qed.

(** A step that changes the hub is an allowed operation of a running request, which it advances. *)
Lemma step_cases c c' :
  config_ok c → hub_step auth_token possible c c' →
  cf_hub c' = cf_hub c ∨
  ∃ i l header X (e : hubE X) k io,
    cf_threads c !! i = Some (Running (mkTask l header (Vis e k))) ∧ op_ok l header e (cf_hub c) ∧
    cf_threads c' = <[i := Running (mkTask l header (k (exec e io (cf_hub c)).1))]> (cf_threads c) ∧
    cf_hub c' = (exec e io (cf_hub c)).2.
Proof.
  intros Hc Hstep. destruct Hstep as [h ts r|h ts i t Ht Hfree|h ts i t io p' h' Ht Hio Ha|h ts i t r Ht Hret];
    simpl in *; auto. right. destruct t as [l header p]. destruct p as [a|X e k]; [done|]. simpl in Ha.
  pose proof (co_running _ Hc _ _ Ht) as Hs. simpl in Hs.
  destruct (Hs h io (reflexivity h) (co_hub _ Hc) Hio) as [Hok _].
  exists i, l, header, X, e, k, io. by destruct (exec e io h) as [x h1]; injection Ha as <- <-.
Qed.

(** Which workspace an operation can change. *)
Definition target {X} (e : hubE X) : option string :=
  match e with
  | UpsertFile ws _ _ | TombstoneExistingFile ws _ _ _ | SetFormat ws _ | SwapHead ws _ _
  | StoreManifest ws _ _ | BeginMigration ws _ => Some ws
  | _ => None
  end.

Lemma write_put {R} (f : HubStateV1 → result HubError R * HubStateV1) ws io h :
  ((f (hub_state h)).2 = hub_state h ∨ ∃ w, (f (hub_state h)).2 = put_workspace (hub_state h) ws w) →
  ∀ ws', ws' ≠ ws →
  entry_or_default (hub_state (write_state io h f).2) ws' = entry_or_default (hub_state h) ws'.
Proof.
  intros Hf ws' Hne. apply (write_state_cases (λ h', entry_or_default (hub_state h') ws' = _)); [done|]. simpl.
  destruct Hf as [->|[w ->]]; [done|]. rewrite entry_put. by rewrite decide_False.
Qed.

Lemma exec_frame {X} (e : hubE X) io h ws :
  target e ≠ Some ws → entry_or_default (hub_state (exec e io h).2) ws = entry_or_default (hub_state h) ws.
Proof.
  intros Ht. destruct e; simpl in Ht; cbn [exec]; try done.
  - apply (write_put _ workspace_id); [|congruence]. simpl. eauto.
  - apply (write_put _ workspace_id); [|congruence]. unfold tombstone_existing_file.
    destruct (hs_workspaces _ !! _) as [w|]; [destruct (ws_files w !! path)|]; simpl; eauto.
  - apply (write_put _ workspace_id); [|congruence]. unfold set_format. destruct (_ && _); simpl; eauto.
  - apply (write_put _ workspace_id); [|congruence]. simpl. eauto.
  - apply (write_put _ workspace_id); [|congruence]. unfold store_manifest. destruct (_ !! _); simpl; eauto.
  - apply (write_put _ workspace_id); [|congruence]. unfold begin_migration.
    destruct (_ <=? _); [|destruct (ws_migration_fence _)]; simpl; eauto.
  - by rewrite hub_state_store_blob.
  - by destruct (io_commit io).
  - by destruct (default (0, 0) (hub_waiters h !! workspace_id)).
  - by destruct (hub_waiters h !! workspace_id) as [[??]|].
Qed.

Definition is_swap {X} (e : hubE X) (ws : string) (expected : option string) (new : string) : Prop :=
  match e with SwapHead ws' expected' new' => ws' = ws ∧ expected' = expected ∧ new' = new | _ => False end.

(** Only a successful compare-and-swap moves a head. *)
Lemma exec_head {X} (e : hubE X) io h ws :
  get_head (hub_state (exec e io h).2) ws = get_head (hub_state h) ws ∨
  ∃ new, is_swap e ws (get_head (hub_state h) ws) new ∧
         get_head (hub_state (exec e io h).2) ws = Some new.
Proof.
  rewrite !get_head_entry. destruct (decide (target e = Some ws)) as [Ht|]; [|left; by rewrite exec_frame].
  destruct e as [| | | | | | |ws' expected new| | | | | | | | | | | | |];
    simpl in Ht; try done; injection Ht as ->; cbn [exec];
    lazymatch goal with
    | |- context [swap_head] => idtac
    | _ => left; apply (write_state_cases (λ h', ws_head (entry_or_default (hub_state h') ws) = _)); [done|]
    end.
  - simpl. rewrite entry_put. by rewrite decide_True.
  - unfold tombstone_existing_file. destruct (hs_workspaces _ !! _) as [w|] eqn:Hw; [|done].
    destruct (ws_files w !! path); [|done]. simpl. rewrite entry_put, decide_True by done.
    unfold entry_or_default. by rewrite Hw.
  - unfold set_format. destruct (_ && _); simpl; rewrite entry_put, decide_True by done; [done|].
    by destruct (3 <=? version).
  - apply (write_state_cases (λ h', ws_head (entry_or_default (hub_state h') ws) = _ ∨ ∃ n,
      _ n ∧ ws_head (entry_or_default (hub_state h') ws) = Some n)); [by left|]. simpl.
    rewrite entry_put, decide_True by done. case_decide; [|by left]. subst. right. exists new. done.
  - unfold store_manifest. destruct (_ !! _); simpl; by rewrite entry_put, decide_True.
  - unfold begin_migration. destruct (_ <=? _); [|destruct (ws_migration_fence _)]; simpl;
      by rewrite entry_put, decide_True.
Qed.

(** While a workspace is fenced, only an operation that presents the token changes it. *)
Lemma exec_fenced l header {X} (e : hubE X) io h ws token :
  hub_inv h → op_ok l header e h → get_migration_fence (hub_state h) ws = Some token →
  default "" header = token ∨
  entry_or_default (hub_state (exec e io h).2) ws = entry_or_default (hub_state h) ws.
Proof.
  intros Hi Hok Hf. destruct (decide (target e = Some ws)) as [Ht|]; [|right; by apply exec_frame].
  assert (fence_open h ws header → default "" header = token) as Hopen by (unfold fence_open; by rewrite Hf).
  destruct e; simpl in Ht, Hok; try done; injection Ht as ->; try (left; apply Hopen; tauto).
  right. cbn [exec]. apply (write_state_cases (λ h', entry_or_default (hub_state h') ws = _)); [done|].
  unfold begin_migration. rewrite get_fence_entry in Hf. rewrite Hf.
  destruct (_ <=? _); simpl; by rewrite entry_put, decide_True.
Qed.
End props.
