(* ===== verification/HubTheorems.v ===== *)
(** * What every interleaving of hub requests guarantees

    The theorems about the hub of agent-core/src/hub.rs, an executable scheduler that plays
    out given interleavings, and the executions that show what the code does when a write
    fails. *)
From Stdlib Require Import ZArith Lia Ascii Strings.Byte.
From stdpp Require Import sorting numbers strings gmap list_numbers list options.
From S2P Require Import Prelude Text Paths Model SyncDelta HubStore Hub HubProps.

Local Open Scope Z_scope.

(** ** Playing out an interleaving *)
Inductive Move :=
| Arrive (r : Request)
| Acquire (i : nat)
| Operate (i : nat) (io : Io)
| Finish (i : nat).

Section scheduler.
Context `{Unicode, HashOrder, Blake3, Wire}.
Context (auth_token : option string).

Definition play (c : Config) (m : Move) : option Config :=
  let '(mkConfig h ts) := c in
  match m with
  | Arrive r => Some (mkConfig h (ts ++ [spawn auth_token r]))
  | Acquire i =>
      match ts !! i with
      | Some (Waiting t) =>
          if lock_free (tk_lock t) ts then Some (mkConfig h (<[i := Running t]> ts)) else None
      | _ => None
      end
  | Operate i io =>
      match ts !! i with
      | Some (Running t) =>
          '(p', h') ← advance (tk_prog t) io h;
          Some (mkConfig h' (<[i := Running (mkTask (tk_lock t) (tk_header t) p')]> ts))
      | _ => None
      end
  | Finish i =>
      match ts !! i with
      | Some (Running t) => match tk_prog t with Ret r => Some (mkConfig h (<[i := Finished r]> ts)) | _ => None end
      | _ => None
      end
  end.

Fixpoint play_all (c : Config) (ms : list Move) : option Config :=
  match ms with [] => Some c | m :: ms => c' ← play c m; play_all c' ms end.

Definition move_possible (io_possible : Io → Prop) (m : Move) : Prop :=
  match m with Operate _ io => io_possible io | _ => True end.

Lemma play_sound (P : Io → Prop) c m c' :
  move_possible P m → play c m = Some c' → hub_step auth_token P c c'.
Proof.
  intros Hm Hp. destruct c as [h ts], m as [r|i|i io|i]; simpl in *.
  - injection Hp as <-. constructor.
  - destruct (ts !! i) as [[t|t|r]|] eqn:Hi; try done. destruct (lock_free _ _) eqn:Hl; [|done].
    injection Hp as <-. by constructor.
  - destruct (ts !! i) as [[t|t|r]|] eqn:Hi; try done.
    destruct (advance _ _ _) as [[p' h']|] eqn:Ha; [|done]. injection Hp as <-. by econstructor.
  - destruct (ts !! i) as [[t|t|r]|] eqn:Hi; try done. destruct (tk_prog t) eqn:Ht; [|done].
    injection Hp as <-. by econstructor.
Qed.

Lemma play_all_sound (P : Io → Prop) ms c c' :
  Forall (move_possible P) ms → play_all c ms = Some c' → rtc (hub_step auth_token P) c c'.
Proof.
  revert c. induction ms as [|m ms IH]; intros c HF Hp; simpl in Hp.
  { injection Hp as <-. reflexivity. }
  inversion_clear HF. destruct (play c m) as [c1|] eqn:E; [|done]. simpl in Hp.
  eapply rtc_l; [by eapply play_sound|]. by apply IH.
Qed.

Lemma reachable_rtc (P : Io → Prop) c c' :
  reachable auth_token P c → rtc (hub_step auth_token P) c c' → reachable auth_token P c'.
Proof. intros Hc Hs. induction Hs; [done|]. apply IHHs. by econstructor. Qed.

Lemma play_reachable (P : Io → Prop) ms c :
  Forall (move_possible P) ms → play_all (mkConfig empty_hub []) ms = Some c → reachable auth_token P c.
Proof. intros HF Hp. eapply reachable_rtc; [constructor|by eapply play_all_sound]. Qed.
End scheduler.

(** ** Properties *)
Section theorems.
Context `{Unicode, HashOrder, Blake3, Wire}.
Context (auth_token : option string) (faults : bool).

(** C3. However requests arrive, interleave and fail, every workspace of the hub is
    consistent: its head has a stored manifest, each stored manifest is canonical and lists its
    own snapshot, and a workspace at format 3 has a head, no legacy rows and no migration
    fence. *)
Theorem hub_invariant c :
  reachable auth_token (possible faults) c → ∀ ws w,
  hs_workspaces (hub_state (cf_hub c)) !! ws = Some w →
  (∀ head, ws_head w = Some head → manifest_exists (hub_state (cf_hub c)) ws head = true) ∧
  (∀ id m, ws_manifests w !! id = Some m → validate_manifest_hashes id (mf_hashes m) = Ok tt) ∧
  (3 ≤ ws_format_version w → is_Some (ws_head w) ∧ ws_files w = ∅ ∧ ws_migration_fence w = None).
Proof.
  intros Hc%reachable_ok ws w Hw.
  destruct (hi_workspaces _ _ (co_hub _ _ Hc) _ _ Hw) as [Hh Hv _ _ Hm].
  split_and!; [|done|done]. intros head Hhead. unfold manifest_exists. rewrite Hw. auto.
Qed.

(** Blobs are content addressed: in every reachable state a blob hashes to its name, so a
    download that answers 200 returns bytes with the requested id. *)
Theorem download_authentic c hash ios data h' :
  reachable auth_token (possible faults) c →
  run (to_response (route_download hash)) ios (cf_hub c) = (mkResponse OK (BodyBytes data), h') →
  hash_bytes data = hash ∧ h' = cf_hub c.
Proof.
  intros Hc%reachable_ok. pose proof (hi_blobs _ _ (co_hub _ _ Hc)) as Hb.
  unfold route_download. destruct (negb _); simpl; [|done]. destruct (is_valid_hash hash); simpl; [|done].
  unfold read_blob. destruct (io_commit (ios 0%nat)), (hub_blobs (cf_hub c) !! hash) as [d|] eqn:Hd; simpl; try done.
  destruct (MAX_BODY_BYTES <? zlen d); simpl; [done|].
  unfold read_blob. destruct (io_commit (ios 1%nat)); simpl; rewrite ?Hd; try done. intros [= <- <-]. auto.
Qed.

(** C32. While no write fails, whatever is published stays retrievable: every object listed in
    an accepted manifest, of any workspace, has its blob. *)
Theorem published_objects_present c ws w id m hash :
  reachable auth_token (possible false) c →
  hs_workspaces (hub_state (cf_hub c)) !! ws = Some w → ws_manifests w !! id = Some m → hash ∈ mf_hashes m →
  is_Some (hub_blobs (cf_hub c) !! hash).
Proof.
  intros Hc%reachable_ok Hw Hm. apply (hi_present _ _ (co_hub _ _ Hc) eq_refl ws id).
  unfold manifest_of. by rewrite Hw.
Qed.

(** C29. Heads move by compare-and-swap only, under every interleaving: when a step changes the
    head of a workspace, it is a running request's swap whose expected head is the old one, the
    step advances that request, and the new head is its manifested target. *)
Theorem head_changes_by_cas c c' ws :
  reachable auth_token (possible faults) c → hub_step auth_token (possible faults) c c' →
  get_head (hub_state (cf_hub c')) ws ≠ get_head (hub_state (cf_hub c)) ws →
  ∃ i l header new k r,
    cf_threads c !! i = Some (Running (mkTask l header
      (Vis (SwapHead ws (get_head (hub_state (cf_hub c)) ws) new) k))) ∧
    cf_threads c' = <[i := Running (mkTask l header (k r))]> (cf_threads c) ∧
    get_head (hub_state (cf_hub c')) ws = Some new ∧ manifest_exists (hub_state (cf_hub c)) ws new = true.
Proof.
  intros Hc%reachable_ok Hstep Hne.
  destruct (step_cases _ _ _ _ Hc Hstep) as [Heq|(i & l & header & X & e & k & io & Hi & Hok & Hth & Heq)].
  { by rewrite Heq in Hne. }
  rewrite Heq in Hne |- *. destruct (exec_head e io (cf_hub c) ws) as [?|(new & Hswap & Hnew)]; [done|].
  exists i, l, header, new. destruct e; simpl in Hswap; try done. destruct Hswap as (-> & -> & ->).
  exists k. eexists. destruct Hok as (_ & _ & ?). split_and!; [exact Hi|exact Hth|done..].
Qed.

(** C31. A migration fence is exclusive under every interleaving: while a workspace is fenced, a
    step that changes it in any way is an operation of a running request that carries the fence's
    token: the step executes that request's next operation and advances that request, no other. *)
Theorem fence_exclusive c c' ws w token :
  reachable auth_token (possible faults) c → hub_step auth_token (possible faults) c c' →
  hs_workspaces (hub_state (cf_hub c)) !! ws = Some w → ws_migration_fence w = Some token →
  hs_workspaces (hub_state (cf_hub c')) !! ws ≠ Some w →
  ∃ i t io p, cf_threads c !! i = Some (Running t) ∧ tk_header t = Some token ∧
    advance (tk_prog t) io (cf_hub c) = Some (p, cf_hub c') ∧
    cf_threads c' = <[i := Running (mkTask (tk_lock t) (tk_header t) p)]> (cf_threads c).
Proof.
  intros Hc%reachable_ok Hstep Hw Hf Hne. pose proof (co_hub _ _ Hc) as Hi.
  destruct (step_cases _ _ _ _ Hc Hstep) as [Heq|(i & l & header & X & e & k & io & Ht & Hok & Hth & Heq)].
  { by rewrite Heq in Hne. }
  exists i, (mkTask l header (Vis e k)), io, (k (exec e io (cf_hub c)).1). simpl. rewrite Heq.
  split; [exact Ht|]. split; [|split; [by destruct (exec e io (cf_hub c))|exact Hth]].
  assert (is_valid_hash token = true) as Htoken by (by eapply wo_token; [eapply hi_workspaces|]).
  destruct (exec_fenced _ l header e io (cf_hub c) ws token Hi Hok) as [Hh|Hsame].
  - unfold get_migration_fence. by rewrite Hw.
  - destruct header as [t|]; simpl in Hh; [by rewrite Hh|]. by rewrite <-Hh in Htoken.
  - destruct Hne. rewrite Heq. unfold entry_or_default in Hsame. rewrite Hw in Hsame. simpl in Hsame.
    destruct (hs_workspaces (hub_state (exec e io (cf_hub c)).2) !! ws) as [w'|] eqn:Hw'; simpl in Hsame.
    + by rewrite Hsame.
    + by rewrite <-Hsame in Hf.
Qed.

(** Manifests are immutable: once a snapshot has a manifest, every later state of the hub
    has the very same manifest for it. *)
Theorem manifests_immutable c c' ws id m :
  reachable auth_token (possible faults) c → rtc (hub_step auth_token (possible faults)) c c' →
  manifest_of (cf_hub c) ws id = Some m → manifest_of (cf_hub c') ws id = Some m.
Proof.
  intros Hc%reachable_ok Hs. revert Hc. induction Hs as [c|c c1 c' Hstep Hs IH]; intros Hc Hm; [done|].
  apply IH; [by eapply step_ok|].
  destruct (step_cases _ _ _ _ Hc Hstep) as [->|(i & l & header & X & e & k & io & Ht & Hok & _ & ->)]; [done|].
  eapply ry_manifests; [|done]. eapply (exec_guarantee _ l NoLock); [apply Hc|done|by destruct l].
Qed.

#[global] Instance fence_open_dec h ws header : Decision (fence_open h ws header).
Proof. unfold fence_open. destruct (get_migration_fence _ _); apply _. Defined.

Lemma run_check_fence {A} ws header (f : result RouteError unit → prog A) ios h :
  io_commit (ios 0%nat) = Committed →
  run (prog_bind (check_fence ws header) f) ios h =
  run (f (if decide (fence_open h ws header) then Ok tt else Err (LOCKED, ""))) (λ n, ios (S n)) h.
Proof.
  intros Hio. simpl. rewrite Hio. simpl. unfold guard_route.
  case_decide as Hd; unfold fence_open in Hd;
    destruct (get_migration_fence (hub_state h) ws) as [token|]; simpl; try done.
  - by rewrite bool_decide_true.
  - by rewrite bool_decide_false.
Qed.

Lemma run_bind_assoc {A B C} (m : prog A) (f : A → prog B) (g : B → prog C) ios h :
  run (prog_bind (prog_bind m f) g) ios h = run (prog_bind m (λ a, prog_bind (f a) g)) ios h.
Proof.
  revert ios h. induction m as [a|X e k IH]; intros ios h; simpl; [done|].
  destruct (exec e (ios 0%nat) h) as [x h']. apply IH.
Qed.

(** What a client of [PUT /api/head] observes when the store works: the request answers 200
    exactly if the fence admits it, the ids are well formed, the target is manifested and the
    expected head is the current one; then the target is the head.  Otherwise no head of any
    workspace moved, and a conflict reports the current head. *)
Theorem swap_head_exact h body req header ios :
  parse_swap_head body = Some req → (∀ n, io_commit (ios n) = Committed) →
  let ws := sh_workspace_id req in
  let '(resp, h') := run (to_response (route_swap_head body header)) ios h in
  (rs_status resp = OK ↔
     fence_open h ws header ∧ is_valid_hash (sh_new req) = true ∧
     (∀ id, sh_expected req = Some id → is_valid_hash id = true) ∧
     manifest_exists (hub_state h) ws (sh_new req) = true ∧ get_head (hub_state h) ws = sh_expected req) ∧
  (rs_status resp = OK → get_head (hub_state h') ws = Some (sh_new req)) ∧
  (rs_status resp ≠ OK → ∀ ws', get_head (hub_state h') ws' = get_head (hub_state h) ws') ∧
  (rs_status resp = CONFLICT → rs_body resp = BodyHead (mkHeadResponse (get_head (hub_state h) ws) false)).
Proof.
  intros Hreq Hio ws. unfold route_swap_head. rewrite Hreq. fold ws.
  unfold to_response, mbind at 1, Route_bind at 1. rewrite run_bind_assoc, run_check_fence by done.
  case_decide as Hf; [|simpl; split_and!; naive_solver].
  unfold guard_route at 1.
  destruct (is_valid_hash (sh_new req) && match sh_expected req with Some id => is_valid_hash id | None => true end)
    eqn:Hv; [|simpl; split_and!; try done].
  2: { split; [done|]. intros (_ & Hn & He & _). rewrite Hn in Hv. simpl in Hv.
       destruct (sh_expected req); [by rewrite He in Hv|done]. }
  to_prop. rename select (is_valid_hash (sh_new req) = true) into Hn.
  assert (∀ id, sh_expected req = Some id → is_valid_hash id = true) as He.
  { intros id Hid. by rewrite Hid in Hv. }
  simpl. rewrite (Hio 1%nat). simpl. unfold guard_route.
  destruct (manifest_exists (hub_state h) ws (sh_new req)) eqn:Hm; simpl; [|split_and!; naive_solver].
  rewrite (Hio 2%nat). simpl. rewrite <-get_head_entry.
  destruct (decide (get_head (hub_state h) ws = sh_expected req)) as [Hc|Hc]; simpl.
  - rewrite decide_True by done. split_and!; [done| |done|done]. intros _.
    destruct (hub_waiters h !! ws) as [[??]|]; simpl; by rewrite get_head_entry, entry_put, decide_True.
  - rewrite decide_False by done. split_and!; [naive_solver|done| |done]. intros _ ws'.
    rewrite !get_head_entry, entry_put. by case_decide; subst.
Qed.
End theorems.

(** ** Executions *)

(** A small wire format for running examples: queries as key=value pairs, and the swap request
    as three words, a dash standing for no head. *)
Definition sample_pair (s : string) : option (string * string) :=
  match split "=" s with [k; v] => Some (k, v) | _ => None end.
Definition sample_swap (body : list byte) : option SwapHeadRequest :=
  match split " " (of_bytes body) with
  | [ws; expected; new] => Some (mkSwapHeadRequest ws (if decide (expected = "-") then None else Some expected) new)
  | _ => None
  end.
Definition sample_sync (body : list byte) : option SyncRequest := Some (mkSyncRequest (of_bytes body) []).
Definition sample_wire : Wire := {|
  parse_swap_head := sample_swap;
  parse_sync := sample_sync;
  parse_query q := list_to_map (omap sample_pair (split "&" q));
|}.

Definition io_good : Io := mkIo Committed 0.
Definition io_bad : Io := mkIo NotCommitted 0.

(** One request served alone with [n] operations. *)
Definition serve (i : nat) (r : Request) (n : nat) : list Move :=
  [Arrive r; Acquire i] ++ replicate n (Operate i io_good) ++ [Finish i].

Definition sample_object : list byte := as_bytes "snapshot".
Definition sample_id : string := @hash_bytes sample_blake3 sample_object.
Definition other_object : list byte := as_bytes "later snapshot".
Definition other_id : string := @hash_bytes sample_blake3 other_object.

Definition put_object (id : string) (object : list byte) : Request :=
  mkRequest "POST" "/api/upload" ("workspace_id=ws&path=o&object=true&hash=" +:+ id) object None None.
Definition put_manifest (id : string) : Request :=
  mkRequest "POST" "/api/manifest" ("workspace_id=ws&snapshot_id=" +:+ id) (as_bytes id) None None.
Definition put_head (expected new : string) : Request :=
  mkRequest "PUT" "/api/head" "" (as_bytes ("ws " +:+ expected +:+ " " +:+ new)) None None.
Definition put_format : Request :=
  mkRequest "POST" "/api/workspace/format" "workspace_id=ws&format_version=3" [] None None.
Definition lock_workspace (token : string) : Request :=
  mkRequest "POST" "/api/workspace/migration" "workspace_id=ws" [] None (Some token).
Definition put_row (id size : string) (object : list byte) : Request :=
  mkRequest "POST" "/api/upload"
    ("workspace_id=ws&path=a/b&mtime=1&mode=420&size=" +:+ size +:+ "&hash=" +:+ id) object None None.
Definition peek : Request := mkRequest "POST" "/api/sync/peek" "" (as_bytes "ws") None None.

Definition publish_moves : list Move :=
  serve 0 (put_object sample_id sample_object) 3 ++ serve 1 (put_manifest sample_id) 3
  ++ serve 2 (put_head "-" sample_id) 4 ++ serve 3 put_format 2.

Definition sample_play := @play_all ascii_unicode key_order sample_blake3 sample_wire None (mkConfig empty_hub []).
Definition sample_config (ms : list Move) : Config := default (mkConfig empty_hub []) (sample_play ms).

Lemma sample_reachable faults ms :
  forallb (λ m, match m with
                | Operate _ io => faults || match io_commit io with Committed => true | _ => false end
                | _ => true end) ms = true →
  (if sample_play ms is Some _ then true else false) = true →
  @reachable ascii_unicode key_order sample_blake3 sample_wire None (possible faults) (sample_config ms).
Proof.
  intros Hio Hplay. unfold sample_config. destruct (sample_play ms) as [c|] eqn:Hc; [|done].
  eapply play_reachable; [|exact Hc].
  apply Forall_forall. rewrite forallb_Forall, Forall_forall in Hio. intros m Hm. specialize (Hio m Hm).
  destruct m as [|i|i io|]; try done. simpl. apply orb_true_iff in Hio as [?|?]; [by left|right].
  by destruct (io_commit io).
Qed.

Lemma publish_reachable faults :
  @reachable ascii_unicode key_order sample_blake3 sample_wire None (possible faults) (sample_config publish_moves).
Proof. apply sample_reachable; [by destruct faults|]. vm_compute. reflexivity. Qed.

Lemma play_all_app `{Unicode, HashOrder, Blake3, Wire} auth c ms m :
  play_all auth c (ms ++ [m]) = (c' ← play_all auth c ms; play auth c' m).
Proof.
  revert c. induction ms as [|m' ms IH]; intros c; simpl.
  - by destruct (play auth c m).
  - destruct (play auth c m'); simpl; auto.
Qed.

Lemma sample_step ms i :
  (if sample_play (ms ++ [Operate i io_good]) is Some _ then true else false) = true →
  @hub_step ascii_unicode key_order sample_blake3 sample_wire None (possible false)
    (sample_config ms) (sample_config (ms ++ [Operate i io_good])).
Proof.
  unfold sample_config, sample_play. rewrite play_all_app.
  destruct (play_all None (mkConfig empty_hub []) ms) as [c|]; simpl; [|done].
  destruct (play None c (Operate i io_good)) as [c'|] eqn:E; [|done]. intros _.
  eapply play_sound; [|exact E]. by right.
Qed.

Lemma sample_reachable_good ms :
  forallb (λ m, match m with
                | Operate _ io => match io_commit io with Committed => true | _ => false end
                | _ => true end) ms = true →
  (if sample_play ms is Some _ then true else false) = true →
  @reachable ascii_unicode key_order sample_blake3 sample_wire None (possible false) (sample_config ms).
Proof. apply (sample_reachable false). Qed.

Lemma hub_invariant_witness :
  is_Some (ws_head (entry_or_default (hub_state (cf_hub (sample_config publish_moves))) "ws")).
Proof.
  destruct (@hub_invariant ascii_unicode key_order sample_blake3 sample_wire None false
              (sample_config publish_moves) (publish_reachable false) "ws"
              (entry_or_default (hub_state (cf_hub (sample_config publish_moves))) "ws")) as (_ & _ & Hv).
  - vm_compute. reflexivity.
  - apply Hv. vm_compute. discriminate.
Defined.

Lemma download_authentic_witness : @hash_bytes sample_blake3 sample_object = sample_id.
Proof.
  apply (@download_authentic ascii_unicode key_order sample_blake3 sample_wire None false
           (sample_config publish_moves) sample_id (λ _, io_good) sample_object
           (cf_hub (sample_config publish_moves)) (publish_reachable false)).
  vm_compute. reflexivity.
Defined.

Lemma published_objects_present_witness :
  is_Some (hub_blobs (cf_hub (sample_config publish_moves)) !! sample_id).
Proof.
  apply (@published_objects_present ascii_unicode key_order sample_blake3 sample_wire None
           (sample_config publish_moves) "ws"
           (entry_or_default (hub_state (cf_hub (sample_config publish_moves))) "ws") sample_id
           (mkManifestV1 [sample_id] 0) sample_id (publish_reachable false)).
  - vm_compute. reflexivity.
  - vm_compute. reflexivity.
  - left.
Defined.

(** A swap about to happen. *)
Definition before_swap : list Move :=
  serve 0 (put_object sample_id sample_object) 3 ++ serve 1 (put_manifest sample_id) 3
  ++ [Arrive (put_head "-" sample_id); Acquire 2; Operate 2 io_good; Operate 2 io_good].

Lemma head_changes_by_cas_witness :
  get_head (hub_state (cf_hub (sample_config before_swap))) "ws" = None ∧
  ∃ new, get_head (hub_state (cf_hub (sample_config (before_swap ++ [Operate 2 io_good])))) "ws" = Some new ∧
         manifest_exists (hub_state (cf_hub (sample_config before_swap))) "ws" new = true.
Proof.
  split; [vm_compute; reflexivity|].
  destruct (@head_changes_by_cas ascii_unicode key_order sample_blake3 sample_wire None false
              (sample_config before_swap) (sample_config (before_swap ++ [Operate 2 io_good])) "ws")
    as (i & l & header & new & k & r & _ & _ & Hnew & Hm).
  - apply sample_reachable_good; vm_compute; reflexivity.
  - apply sample_step. vm_compute. reflexivity.
  - vm_compute. discriminate.
  - exists new. split; [exact Hnew|exact Hm].
Defined.

(** A fenced workspace and a request that carries the token. *)
Definition fenced_row : Request :=
  let r := put_row sample_id "8" sample_object in
  mkRequest (rq_method r) (rq_path r) (rq_query r) (rq_body r) None (Some hex_a).
Definition before_row : list Move :=
  serve 0 (lock_workspace hex_a) 2 ++ [Arrive fenced_row; Acquire 1] ++ replicate 4 (Operate 1 io_good).

Lemma fence_exclusive_witness :
  ∃ i t io p, cf_threads (sample_config before_row) !! i = Some (Running t) ∧ tk_header t = Some hex_a ∧
    advance (tk_prog t) io (cf_hub (sample_config before_row)) = Some (p, cf_hub (sample_config (before_row ++ [Operate 1 io_good]))) ∧
    cf_threads (sample_config (before_row ++ [Operate 1 io_good])) =
    <[i := Running (mkTask (tk_lock t) (tk_header t) p)]> (cf_threads (sample_config before_row)).
Proof.
  apply (@fence_exclusive ascii_unicode key_order sample_blake3 sample_wire None false
           (sample_config before_row) (sample_config (before_row ++ [Operate 1 io_good])) "ws"
           (entry_or_default (hub_state (cf_hub (sample_config before_row))) "ws") hex_a).
  - apply sample_reachable_good; vm_compute; reflexivity.
  - apply sample_step. vm_compute. reflexivity.
  - vm_compute. reflexivity.
  - vm_compute. reflexivity.
  - vm_compute. discriminate.
Defined.

Lemma manifests_immutable_witness :
  manifest_of (cf_hub (sample_config (before_swap ++ [Operate 2 io_good]))) "ws" sample_id =
  Some (mkManifestV1 [sample_id] 0).
Proof.
  apply (@manifests_immutable ascii_unicode key_order sample_blake3 sample_wire None false
           (sample_config before_swap)).
  - apply sample_reachable_good; vm_compute; reflexivity.
  - apply rtc_once. apply sample_step. vm_compute. reflexivity.
  - vm_compute. reflexivity.
Defined.

Lemma swap_head_exact_witness :
  get_head (hub_state (run (@to_response (@route_swap_head sample_wire (rq_body (put_head "-" sample_id)) None))
    (λ _, io_good) (cf_hub (sample_config before_swap))).2) "ws" = Some sample_id.
Proof.
  pose proof (@swap_head_exact sample_wire (cf_hub (sample_config before_swap)) (rq_body (put_head "-" sample_id))
    (mkSwapHeadRequest "ws" None sample_id) None (λ _, io_good)) as Hswap.
  cbn zeta in Hswap.
  destruct (run _ _ _) as [resp h'] eqn:Hrun. destruct Hswap as (_ & Hok & _); [vm_compute; reflexivity|done|].
  apply Hok. change resp with (resp, h').1. rewrite <-Hrun. vm_compute. reflexivity.
Defined.

(** ** What a failed write does *)

(** An upload of a legacy row writes the blob first and removes it again when the row cannot be
    written.  In between, another request may publish a manifest that lists the blob. *)
Definition lost_blob_moves : list Move :=
  [Arrive (put_row sample_id "8" sample_object); Acquire 0] ++ replicate 4 (Operate 0 io_good)
  ++ serve 1 (put_manifest sample_id) 3 ++ serve 2 (put_head "-" sample_id) 4
  ++ [Operate 0 io_bad; Operate 0 io_good; Finish 0].

(** C37. With a failing write, the current head of a workspace can be left without its object. *)
Theorem rollback_removes_published_blob :
  ∃ c, @reachable ascii_unicode key_order sample_blake3 sample_wire None (possible true) c ∧
       get_head (hub_state (cf_hub c)) "ws" = Some sample_id ∧
       manifest_of (cf_hub c) "ws" sample_id = Some (mkManifestV1 [sample_id] 0) ∧
       hub_blobs (cf_hub c) !! sample_id = None.
Proof.
  exists (sample_config lost_blob_moves). split; [apply sample_reachable; vm_compute; reflexivity|].
  split_and!; vm_compute; reflexivity.
Qed.

(** The upload route stores any [i64] as the size of a row; one negative size makes every later
    [sync/peek] of the workspace fail. *)
Theorem negative_size_blocks_peek :
  omap (λ t, match t with Finished r => Some (rs_status r) | _ => None end)
    (cf_threads (sample_config (serve 0 (put_row sample_id "-5" sample_object) 5 ++ serve 1 peek 2)))
  = [OK; INTERNAL_SERVER_ERROR].
Proof. vm_compute. reflexivity. Qed.
