(* ===== verification/WorkContract.v ===== *)
(** * Work intents: the wire contract

    common/src/work_contract.rs: the profiles agents exchange to propose, decide, amend and
    finish work, their validation and canonical encoding, the overlap of two scopes, and the
    lifecycle rules of a proposal. *)
From Stdlib Require Import ZArith Lia Ascii Strings.Byte.
From stdpp Require Import sorting numbers strings gmap list_numbers list options.
From S2P Require Import Prelude Text Paths.

Local Open Scope Z_scope.

(** ** Bounds *)
Definition WORK_MAX_PROFILE_BYTES : Z := 8 * 1024.
Definition WORK_MAX_TASK_ID_BYTES : Z := 128.
Definition WORK_MAX_CONCERN_BYTES : Z := 256.
Definition WORK_MAX_CAPABILITY_BYTES : Z := 32.
Definition WORK_MAX_REASON_BYTES : Z := 512.
Definition WORK_MAX_OUTCOME_BYTES : Z := 512.
Definition WORK_MAX_VERIFICATION_SUMMARY_BYTES : Z := 512.
Definition WORK_MAX_PATHS : Z := 64.
Definition WORK_MAX_PATH_BYTES : Z := 1024.
Definition WORK_MAX_PATHS_TOTAL_BYTES : Z := 4096.
Definition WORK_MAX_CONCERNS : Z := 32.
Definition WORK_MAX_DEPENDENCIES : Z := 32.
Definition WORK_MAX_CAPABILITIES : Z := 64.
Definition WORK_MAX_OVERLAP_ENTRIES : Z := 32.
Definition WORK_MAX_ACTIVE_TASKS : Z := 64.
Definition WORK_MAX_TERMINAL_TASKS : Z := 512.
Definition WORK_MAX_EVIDENCE : Z := 1024.
Definition WORK_MAX_AMENDMENTS : Z := 16.
Definition WORK_MAX_SEEN : Z := 4096.
Definition WORK_MAX_PENDING : Z := 256.
Definition WORK_MAX_PROPOSALS_PER_TASK : Z := 8.
Definition WORK_MAX_SCOPE_CHANGE_OPERATIONS : Z := 4.
Definition AGENT_NAME_MAX_BYTES : Z := 255.

(** ** Text *)

(** [char::is_whitespace]: the code points with the Unicode property White_Space. *)
Definition is_whitespace (c : Z) : bool :=
  in_range 0x09 0x0D c || (c =? 0x20) || (c =? 0x85) || (c =? 0xA0) || (c =? 0x1680)
  || in_range 0x2000 0x200A c || (c =? 0x2028) || (c =? 0x2029) || (c =? 0x202F) || (c =? 0x205F)
  || (c =? 0x3000).

(** [str::trim], on the code points of the string. *)
Fixpoint trim_start (l : list Z) : list Z :=
  match l with [] => [] | c :: l' => if is_whitespace c then trim_start l' else l end.
Definition trim (l : list Z) : list Z := reverse (trim_start (reverse (trim_start l))).
Definition is_trimmed (s : string) : bool := bool_decide (trim (chars s) = chars s).
Definition is_blank (s : string) : bool := bool_decide (trim (chars s) = []).
Definition has_control (s : string) : bool := existsb is_control (chars s).

(** [trim_end_matches(c)]. *)
Fixpoint trim_end_char (c : ascii) (s : string) : string :=
  match s with
  | EmptyString => EmptyString
  | String d s' =>
      match trim_end_char c s' with
      | EmptyString => if decide (d = c) then EmptyString else String d EmptyString
      | t => String d t
      end
  end.

Definition is_lower_or_digit (c : ascii) : bool :=
  in_range 97 122 (ascii_code c) || in_range 48 57 (ascii_code c).
Definition hyphen : ascii := "-".
Definition underscore : ascii := "_".

Definition is_valid_task_id (value : string) : bool :=
  negb (bool_decide (value = "")) && (slen value <=? WORK_MAX_TASK_ID_BYTES)
  && all_chars (λ b, is_lower_or_digit b || bool_decide (b = hyphen) || bool_decide (b = underscore)) value.

Definition is_valid_capability (value : string) : bool :=
  negb (bool_decide (value = "")) && (slen value <=? WORK_MAX_CAPABILITY_BYTES)
  && all_chars (λ b, is_lower_or_digit b || bool_decide (b = hyphen)) value.

(** [is_valid_agent_name] of common/src/integrator_contract.rs. *)
Definition is_valid_agent_name (name : string) : bool :=
  negb (bool_decide (name = "")) && (slen name <=? AGENT_NAME_MAX_BYTES) && negb (has_control name)
  && negb (contains_char slash name || contains_char backslash name)
  && negb (bool_decide (name = ".")) && negb (bool_decide (name = "..")) && negb (bool_decide (name = "*")).

Definition GLOB_SUFFIX : string := "/**".

(** ** Data *)
Inductive WorkTaskState := Proposed | Accepted | Settled | Completed | Blocked | Yielded | Rejected.
#[global] Instance WorkTaskState_eq_dec : EqDecision WorkTaskState.
Proof. solve_decision. Defined.

Definition WorkTaskState_as_str (s : WorkTaskState) : string :=
  match s with
  | Proposed => "proposed" | Accepted => "accepted" | Settled => "settled" | Completed => "completed"
  | Blocked => "blocked" | Yielded => "yielded" | Rejected => "rejected"
  end.

Inductive WorkVerificationStatus := Passed | FailedCheck | Skipped.
#[global] Instance WorkVerificationStatus_eq_dec : EqDecision WorkVerificationStatus.
Proof. solve_decision. Defined.

Record WorkVerification := mkWorkVerification {
  wv_status : WorkVerificationStatus;
  wv_summary : string;
}.
#[global] Instance WorkVerification_eq_dec : EqDecision WorkVerification.
Proof. solve_decision. Defined.

Inductive WorkOverlapKind := ExactPath | DirectoryContainment | GlobMatch | SameConcern.
#[global] Instance WorkOverlapKind_eq_dec : EqDecision WorkOverlapKind.
Proof. solve_decision. Defined.

Record WorkOverlap := mkWorkOverlap {
  ov_kind : WorkOverlapKind;
  ov_path_a : option string;
  ov_path_b : option string;
  ov_concern : option string;
}.
#[global] Instance WorkOverlap_eq_dec : EqDecision WorkOverlap.
Proof. solve_decision. Defined.

Record WorkOverlapAcceptance := mkWorkOverlapAcceptance {
  oa_kind : WorkOverlapKind;
  oa_path_a : option string;
  oa_path_b : option string;
  oa_concern : option string;
}.
#[global] Instance WorkOverlapAcceptance_eq_dec : EqDecision WorkOverlapAcceptance.
Proof. solve_decision. Defined.

Definition from_overlap (o : WorkOverlap) : WorkOverlapAcceptance :=
  mkWorkOverlapAcceptance (ov_kind o) (ov_path_a o) (ov_path_b o) (ov_concern o).

Record WorkScope := mkWorkScope {
  sc_paths : list string;
  sc_concerns : list string;
  sc_dependencies : list string;
}.
#[global] Instance WorkScope_eq_dec : EqDecision WorkScope.
Proof. solve_decision. Defined.
Definition WorkScope_default : WorkScope := mkWorkScope [] [] [].

Record ScopePathPartition := mkScopePathPartition {
  in_scope : list string;
  out_of_scope : list string;
}.

Inductive ScopeChangeOperation := Add | Modify | Delete | ModeChange.
#[global] Instance ScopeChangeOperation_eq_dec : EqDecision ScopeChangeOperation.
Proof. solve_decision. Defined.
(** The derived order: the order of declaration. *)
Definition operation_rank (o : ScopeChangeOperation) : Z :=
  match o with Add => 0 | Modify => 1 | Delete => 2 | ModeChange => 3 end.

Record ScopeChangeRequestProfile := mkScopeChangeRequestProfile {
  cr_task_id : string;
  cr_intent_message_id : string;
  cr_operations : list ScopeChangeOperation;
  cr_paths : list string;
  cr_concerns : list string;
  cr_reason : string;
}.

(** The payload records of the variants appear as constructor arguments. *)
Inductive WorkDecisionKind :=
| Accept (reason : option string)
| Reject (reason : string)
| Narrow (paths concerns : list string) (reason : option string)
| Order (after : option string) (reason : option string)
| AcceptOverlap (overlap : list WorkOverlapAcceptance) (reason : option string).
#[global] Instance WorkDecisionKind_eq_dec : EqDecision WorkDecisionKind.
Proof. solve_decision. Defined.

Record WorkIntentProfile := mkWorkIntentProfile {
  wi_task_id : string;
  wi_agent : string;
  wi_sequence : Z;   (* u64 *)
  wi_causal_base : option string;
  wi_coordinator : option string;
  wi_paths : list string;
  wi_concerns : list string;
  wi_dependencies : list string;
  wi_capabilities : list string;
}.
Record WorkDecisionProfile := mkWorkDecisionProfile {
  wd_proposal_message_id : string;
  wd_kind : WorkDecisionKind;
}.
Record WorkAmendmentProfile := mkWorkAmendmentProfile {
  wa_task_id : string;
  wa_intent_message_id : string;
  wa_sequence : Z;
  wa_paths : option (list string);
  wa_concerns : option (list string);
  wa_dependencies : option (list string);
  wa_approval_decision_id : option string;
  wa_reason : option string;
}.
Record WorkYieldProfile := mkWorkYieldProfile {
  wy_task_id : string;
  wy_intent_message_id : string;
  wy_sequence : Z;
  wy_reason : option string;
}.
Record WorkSettledProfile := mkWorkSettledProfile {
  wt_task_id : string;
  wt_intent_message_id : string;
  wt_sequence : Z;
  wt_inspected_snapshot : string;
  wt_verification : WorkVerification;
}.
Record WorkCompletedProfile := mkWorkCompletedProfile {
  wc_task_id : string;
  wc_intent_message_id : string;
  wc_sequence : Z;
  wc_outcome : string;
}.
Record WorkBlockedProfile := mkWorkBlockedProfile {
  wb_task_id : string;
  wb_intent_message_id : string;
  wb_sequence : Z;
  wb_reason : string;
}.
Record WorkSupersededProfile := mkWorkSupersededProfile {
  wz_task_id : string;
  wz_proposal_message_id : string;
  wz_superseded_decision_message_id : string;
  wz_reason : option string;
}.

Inductive WorkProfile :=
| WorkIntent (p : WorkIntentProfile)
| WorkDecision (p : WorkDecisionProfile)
| WorkAmendment (p : WorkAmendmentProfile)
| WorkYield (p : WorkYieldProfile)
| WorkSettled (p : WorkSettledProfile)
| WorkCompleted (p : WorkCompletedProfile)
| WorkBlocked (p : WorkBlockedProfile)
| WorkSuperseded (p : WorkSupersededProfile).

#[global] Instance WorkIntentProfile_eq_dec : EqDecision WorkIntentProfile.
Proof. solve_decision. Defined.
#[global] Instance WorkDecisionProfile_eq_dec : EqDecision WorkDecisionProfile.
Proof. solve_decision. Defined.
#[global] Instance WorkAmendmentProfile_eq_dec : EqDecision WorkAmendmentProfile.
Proof. solve_decision. Defined.
#[global] Instance WorkYieldProfile_eq_dec : EqDecision WorkYieldProfile.
Proof. solve_decision. Defined.
#[global] Instance WorkSettledProfile_eq_dec : EqDecision WorkSettledProfile.
Proof. solve_decision. Defined.
#[global] Instance WorkCompletedProfile_eq_dec : EqDecision WorkCompletedProfile.
Proof. solve_decision. Defined.
#[global] Instance WorkBlockedProfile_eq_dec : EqDecision WorkBlockedProfile.
Proof. solve_decision. Defined.
#[global] Instance WorkSupersededProfile_eq_dec : EqDecision WorkSupersededProfile.
Proof. solve_decision. Defined.
#[global] Instance WorkProfile_eq_dec : EqDecision WorkProfile.
Proof. solve_decision. Defined.

Definition profile_task_id (profile : WorkProfile) : string :=
  match profile with
  | WorkIntent p => wi_task_id p
  | WorkDecision _ => ""
  | WorkAmendment p => wa_task_id p
  | WorkYield p => wy_task_id p
  | WorkSettled p => wt_task_id p
  | WorkCompleted p => wc_task_id p
  | WorkBlocked p => wb_task_id p
  | WorkSuperseded p => wz_task_id p
  end.

Definition profile_sequence (profile : WorkProfile) : option Z :=
  match profile with
  | WorkIntent p => Some (wi_sequence p)
  | WorkAmendment p => Some (wa_sequence p)
  | WorkYield p => Some (wy_sequence p)
  | WorkSettled p => Some (wt_sequence p)
  | WorkCompleted p => Some (wc_sequence p)
  | WorkBlocked p => Some (wb_sequence p)
  | WorkDecision _ | WorkSuperseded _ => None
  end.

(** ** Overlap of scopes *)
Definition is_path_under (child dir : string) : bool :=
  let dir := trim_end_char slash dir in
  bool_decide (child = dir)
  || match strip_prefix dir child with Some rest => starts_with "/" rest | None => false end.

Definition path_overlap_kind (a b : string) : option WorkOverlapKind :=
  match strip_suffix GLOB_SUFFIX a, strip_suffix GLOB_SUFFIX b with
  | None, None =>
      if bool_decide (a = b) then Some ExactPath
      else if is_path_under b a || is_path_under a b then Some DirectoryContainment else None
  | Some root_a, Some root_b =>
      if bool_decide (root_a = root_b) || is_path_under root_b root_a || is_path_under root_a root_b
      then Some GlobMatch else None
  | Some root_a, None => if bool_decide (b = root_a) || is_path_under b root_a then Some GlobMatch else None
  | None, Some root_b => if bool_decide (a = root_b) || is_path_under a root_b then Some GlobMatch else None
  end.

(** [if !out.contains(&entry) { out.push(entry) }]. *)
Definition push_unique {A} `{EqDecision A} (out : list A) (entry : A) : list A :=
  if bool_decide (entry ∈ out) then out else out ++ [entry].

Definition path_overlaps (paths_b : list string) (out : list WorkOverlap) (pa : string) : list WorkOverlap :=
  foldl (λ out pb,
    match path_overlap_kind pa pb with
    | Some kind => push_unique out (mkWorkOverlap kind (Some pa) (Some pb) None)
    | None => out
    end) out paths_b.

Definition concern_overlaps (concerns_b : list string) (out : list WorkOverlap) (ca : string) : list WorkOverlap :=
  if existsb (λ cb, String.eqb cb ca) concerns_b
  then push_unique out (mkWorkOverlap SameConcern None None (Some ca)) else out.

Definition evaluate_scope_overlap (paths_a concerns_a paths_b concerns_b : list string) : list WorkOverlap :=
  foldl (concern_overlaps concerns_b) (foldl (path_overlaps paths_b) [] paths_a) concerns_a.

Definition scope_entry_covers_path (entry path : string) : bool :=
  match strip_suffix GLOB_SUFFIX entry with
  | Some root => is_path_under path root
  | None => bool_decide (entry = path)
  end.

Definition scope_covers_path (scope : WorkScope) (path : string) : bool :=
  existsb (λ entry, scope_entry_covers_path entry path) (sc_paths scope).

Definition partition_scope_paths (paths : list string) (scope : WorkScope) : ScopePathPartition :=
  foldl (λ p path,
    if scope_covers_path scope path
    then mkScopePathPartition (in_scope p ++ [path]) (out_of_scope p)
    else mkScopePathPartition (in_scope p) (out_of_scope p ++ [path]))
    (mkScopePathPartition [] []) paths.

(** ** Validation *)
Section validation.
Context `{Unicode}.

Definition is_directory_glob (entry : string) : bool :=
  match strip_suffix GLOB_SUFFIX entry with
  | Some root => negb (bool_decide (root = "")) && is_safe_rel_path root
  | None => false
  end.

Definition is_valid_scope_entry (entry : string) : bool := is_safe_rel_path entry || is_directory_glob entry.

Definition ensure_sorted_unique (l : list string) (maximum : Z) : Result unit :=
  ensure (zlen l <=? maximum) "exceeds entries" ;;
  ensure (strictly_ascending l) "must be sorted ascending with no duplicates".

Definition ensure_bounded_text (value : string) (maximum : Z) (allow_control : bool) : Result unit :=
  ensure (negb (bool_decide (value = "")) && (slen value <=? maximum)) "must be non-empty and bounded" ;;
  if negb allow_control then ensure (negb (has_control value)) "must not contain control characters" else Ok tt.

(** The body of [for path in paths]: the total of the lengths. *)
Definition check_path (total : Z) (path : string) : Result Z :=
  ensure (is_valid_scope_entry path) "path is not a canonical portable path or supported glob" ;;
  ensure (slen path <=? WORK_MAX_PATH_BYTES) "path exceeds its bound" ;;
  Ok (saturating_add total (slen path)).

Definition check_concern (_ : unit) (concern : string) : Result unit :=
  ensure (is_trimmed concern) "concern must be in canonical unpadded form" ;;
  ensure_bounded_text concern WORK_MAX_CONCERN_BYTES false.

Definition check_all (p : string → bool) (message : string) (l : list string) : Result unit :=
  try_fold (λ _ x, ensure (p x) message) tt l.

Definition validate_work_scope (paths concerns dependencies capabilities : list string) : Result unit :=
  ensure_sorted_unique paths WORK_MAX_PATHS ;;
  total ← try_fold check_path 0 paths;
  ensure (total <=? WORK_MAX_PATHS_TOTAL_BYTES) "aggregate path bytes exceed the bound" ;;
  ensure_sorted_unique concerns WORK_MAX_CONCERNS ;;
  try_fold check_concern tt concerns ;;
  ensure_sorted_unique dependencies WORK_MAX_DEPENDENCIES ;;
  check_all is_valid_task_id "dependency is not a valid task id" dependencies ;;
  ensure_sorted_unique capabilities WORK_MAX_CAPABILITIES ;;
  check_all is_valid_capability "capability is not a valid lowercase identifier" capabilities.

Definition validate_reason (value : option string) : Result unit :=
  match value with
  | None => Ok tt
  | Some reason =>
      ensure (negb (is_blank reason) && (slen reason <=? WORK_MAX_REASON_BYTES)) "must be non-empty and bounded" ;;
      ensure (negb (has_control reason)) "must not contain control characters"
  end.

Definition validate_work_intent (p : WorkIntentProfile) : Result unit :=
  ensure (is_valid_task_id (wi_task_id p)) "work intent task_id must be a canonical task id" ;;
  ensure (is_valid_agent_name (wi_agent p)) "work intent agent must be a valid agent name" ;;
  ensure (1 <=? wi_sequence p) "work intent sequence must be >= 1" ;;
  match wi_causal_base p with
  | Some base => ensure (is_valid_hash base) "work intent causal_base must be a full 64-hex message id"
  | None => Ok tt
  end ;;
  match wi_coordinator p with
  | Some coordinator =>
      ensure (is_valid_agent_name coordinator && negb (bool_decide (coordinator = "*")))
        "work intent coordinator must be a valid agent name"
  | None => Ok tt
  end ;;
  validate_work_scope (wi_paths p) (wi_concerns p) (wi_dependencies p) (wi_capabilities p).

Definition check_overlap_entry (_ : unit) (entry : WorkOverlapAcceptance) : Result unit :=
  match oa_kind entry with
  | SameConcern =>
      ensure (bool_decide (oa_path_a entry = None) && bool_decide (oa_path_b entry = None))
        "concern overlap entries must not carry paths" ;;
      ensure (match oa_concern entry with
              | Some c => negb (bool_decide (c = "")) && (slen c <=? WORK_MAX_CONCERN_BYTES)
              | None => false
              end) "concern overlap entry must carry a bounded concern"
  | _ =>
      ensure (bool_decide (oa_concern entry = None)
              && match oa_path_a entry, oa_path_b entry with
                 | Some a, Some b => is_valid_scope_entry a && is_valid_scope_entry b
                 | _, _ => false
                 end) "path overlap entries must carry two valid scope entries"
  end.

Definition validate_overlap_entries (entries : list WorkOverlapAcceptance) : Result unit :=
  ensure (zlen entries <=? WORK_MAX_OVERLAP_ENTRIES) "overlap acceptance exceeds entries" ;;
  try_fold check_overlap_entry tt entries.

Definition validate_decision_kind (kind : WorkDecisionKind) : Result unit :=
  match kind with
  | Accept reason => validate_reason reason
  | Reject reason => ensure_bounded_text reason WORK_MAX_REASON_BYTES false
  | Narrow paths concerns reason => validate_work_scope paths concerns [] [] ;; validate_reason reason
  | Order after reason =>
      match after with
      | Some after => ensure (is_valid_hash after) "order after must be a full 64-hex proposal message id"
      | None => Ok tt
      end ;;
      validate_reason reason
  | AcceptOverlap overlap reason => validate_overlap_entries overlap ;; validate_reason reason
  end.

Definition validate_work_decision (p : WorkDecisionProfile) : Result unit :=
  ensure (is_valid_hash (wd_proposal_message_id p))
    "work decision proposal_message_id must be a full 64-hex message id" ;;
  validate_decision_kind (wd_kind p).

Definition check_amended_path (_ : unit) (entry : string) : Result unit :=
  ensure (is_valid_scope_entry entry) "amendment entry is not a canonical path or supported glob" ;;
  ensure (slen entry <=? WORK_MAX_PATH_BYTES) "amendment entry exceeds its bound".

Definition validate_amendment_scope (value : option (list string)) (maximum : Z) : Result unit :=
  match value with
  | None => Ok tt
  | Some l =>
      ensure_sorted_unique l maximum ;;
      try_fold check_amended_path tt l ;;
      ensure (foldr (λ s n, slen s + n) 0 l <=? WORK_MAX_PATHS_TOTAL_BYTES) "amendment aggregate bytes exceed the bound"
  end.

(** The five checks the author transitions share. *)
Definition validate_author_ids (task_id intent_message_id : string) (sequence : Z) : Result unit :=
  ensure (is_valid_task_id task_id) "task_id must be a canonical task id" ;;
  ensure (is_valid_hash intent_message_id) "intent_message_id must be a full 64-hex message id" ;;
  ensure (1 <=? sequence) "sequence must be >= 1".

Definition validate_work_amendment (p : WorkAmendmentProfile) : Result unit :=
  validate_author_ids (wa_task_id p) (wa_intent_message_id p) (wa_sequence p) ;;
  validate_amendment_scope (wa_paths p) WORK_MAX_PATHS ;;
  match wa_concerns p with
  | Some concerns => ensure_sorted_unique concerns WORK_MAX_CONCERNS ;; try_fold check_concern tt concerns
  | None => Ok tt
  end ;;
  match wa_dependencies p with
  | Some dependencies =>
      ensure_sorted_unique dependencies WORK_MAX_DEPENDENCIES ;;
      check_all is_valid_task_id "amendment dependency is not a valid task id" dependencies
  | None => Ok tt
  end ;;
  match wa_approval_decision_id p with
  | Some approval => ensure (is_valid_hash approval) "amendment approval_decision_id must be a full 64-hex message id"
  | None => Ok tt
  end ;;
  validate_reason (wa_reason p).

Definition validate_work_yield (p : WorkYieldProfile) : Result unit :=
  validate_author_ids (wy_task_id p) (wy_intent_message_id p) (wy_sequence p) ;;
  validate_reason (wy_reason p).

Definition validate_work_settled (p : WorkSettledProfile) : Result unit :=
  validate_author_ids (wt_task_id p) (wt_intent_message_id p) (wt_sequence p) ;;
  ensure (is_valid_hash (wt_inspected_snapshot p))
    "work settled inspected_snapshot must be a full 64-hex snapshot id" ;;
  ensure_bounded_text (wv_summary (wt_verification p)) WORK_MAX_VERIFICATION_SUMMARY_BYTES false.

Definition validate_work_completed (p : WorkCompletedProfile) : Result unit :=
  validate_author_ids (wc_task_id p) (wc_intent_message_id p) (wc_sequence p) ;;
  ensure_bounded_text (wc_outcome p) WORK_MAX_OUTCOME_BYTES false.

Definition validate_work_blocked (p : WorkBlockedProfile) : Result unit :=
  validate_author_ids (wb_task_id p) (wb_intent_message_id p) (wb_sequence p) ;;
  ensure_bounded_text (wb_reason p) WORK_MAX_REASON_BYTES false.

Definition validate_work_superseded (p : WorkSupersededProfile) : Result unit :=
  ensure (is_valid_task_id (wz_task_id p)) "work superseded task_id must be a canonical task id" ;;
  ensure (is_valid_hash (wz_proposal_message_id p))
    "work superseded proposal_message_id must be a full 64-hex message id" ;;
  ensure (is_valid_hash (wz_superseded_decision_message_id p))
    "work superseded decision reference must be a full 64-hex message id" ;;
  validate_reason (wz_reason p).

Definition validate_work_profile (profile : WorkProfile) : Result unit :=
  match profile with
  | WorkIntent p => validate_work_intent p
  | WorkDecision p => validate_work_decision p
  | WorkAmendment p => validate_work_amendment p
  | WorkYield p => validate_work_yield p
  | WorkSettled p => validate_work_settled p
  | WorkCompleted p => validate_work_completed p
  | WorkBlocked p => validate_work_blocked p
  | WorkSuperseded p => validate_work_superseded p
  end.

(** [pair[0] < pair[1]] over the windows of the operations. *)
Fixpoint operations_ascending (l : list ScopeChangeOperation) : bool :=
  match l with
  | x :: ((y :: _) as l') => (operation_rank x <? operation_rank y) && operations_ascending l'
  | _ => true
  end.

Definition check_request_path (total : Z) (path : string) : Result Z :=
  ensure (is_valid_scope_entry path) "scope change request has an invalid path entry" ;;
  Ok (saturating_add total (slen path)).

Definition validate_scope_change_request (p : ScopeChangeRequestProfile) : Result unit :=
  ensure (is_valid_task_id (cr_task_id p)) "scope change request has an invalid task id" ;;
  ensure (is_valid_hash (cr_intent_message_id p)) "scope change request references an invalid intent message id" ;;
  ensure (zlen (cr_operations p) <=? WORK_MAX_SCOPE_CHANGE_OPERATIONS)
    "scope change request exceeds the operation bound" ;;
  ensure (operations_ascending (cr_operations p)) "scope change request operations must be sorted and unique" ;;
  ensure (zlen (cr_paths p) <=? WORK_MAX_PATHS) "scope change request exceeds the path bound" ;;
  total ← try_fold check_request_path 0 (cr_paths p);
  ensure (total <=? WORK_MAX_PATHS_TOTAL_BYTES) "scope change request paths exceed their aggregate bound" ;;
  ensure (zlen (cr_concerns p) <=? WORK_MAX_CONCERNS) "scope change request exceeds the concern bound" ;;
  check_all (λ concern, slen concern <=? WORK_MAX_CONCERN_BYTES)
    "scope change request concern exceeds its bound" (cr_concerns p) ;;
  ensure (slen (cr_reason p) <=? WORK_MAX_REASON_BYTES) "scope change request reason exceeds its bound".

(** ** Canonical encoding

    [serde_json::to_string] and [from_str] on profiles and requests. *)
Class WorkJson := {
  profile_to_string : WorkProfile → string;
  profile_from_str : string → option WorkProfile;
  request_to_string : ScopeChangeRequestProfile → string;
  request_from_str : string → option ScopeChangeRequestProfile;
}.
Context `{WorkJson}.

Definition WORK_PROFILE_DISCRIMINATOR : string := "ffwork1".
Definition SCOPE_CHANGE_REQUEST_DISCRIMINATOR : string := "ffwork1:scope_change_requested".

Definition encode_work_profile (profile : WorkProfile) : Result string :=
  validate_work_profile profile ;;
  let encoded := WORK_PROFILE_DISCRIMINATOR +:+ ":" +:+ profile_to_string profile in
  ensure (slen encoded <=? WORK_MAX_PROFILE_BYTES) "ffwork1 profile exceeds the 8 KiB signal body bound" ;;
  Ok encoded.

Definition parse_work_profile (body : string) : option WorkProfile :=
  if WORK_MAX_PROFILE_BYTES <? slen body then None else
  json ← strip_prefix WORK_PROFILE_DISCRIMINATOR body;
  json ← strip_prefix ":" json;
  profile ← profile_from_str json;
  if negb (bool_decide (profile_to_string profile = json)) then None
  else if negb (is_ok (validate_work_profile profile)) then None
  else Some profile.

Definition encode_scope_change_request (p : ScopeChangeRequestProfile) : Result string :=
  validate_scope_change_request p ;;
  let json := request_to_string p in
  ensure (slen json <=? WORK_MAX_PROFILE_BYTES) "scope change request profile exceeds the signal body bound" ;;
  Ok (SCOPE_CHANGE_REQUEST_DISCRIMINATOR +:+ ":" +:+ json).

Definition parse_scope_change_request (body : string) : option ScopeChangeRequestProfile :=
  rest ← strip_prefix SCOPE_CHANGE_REQUEST_DISCRIMINATOR body;
  payload ← strip_prefix ":" rest;
  profile ← request_from_str payload;
  if is_ok (validate_scope_change_request profile) then Some profile else None.
End validation.

(** ** Lifecycle *)
Inductive WorkRejectReason :=
| UnknownTask
| WrongState (expected : string) (found : option WorkTaskState)
| NotAuthor
| MissingCausalBase
| MissingProposal
| MissingIntent
| UnauthorizedCoordinator
| DecisionAlreadyApplied
| SupersededDecisionUnknown
| SelfDependency
| DependencyCycle
| InvalidOverlapClaim
| NarrowOutsideScope
| SequenceDecreased
| AmendmentExpandsScopeWithoutApproval.

Definition WorkRejectReason_as_str (r : WorkRejectReason) : string :=
  match r with
  | UnknownTask => "unknown_task"
  | WrongState _ _ => "wrong_state"
  | MissingCausalBase => "missing_causal_base"
  | NotAuthor => "not_author"
  | MissingProposal => "missing_proposal"
  | MissingIntent => "missing_intent"
  | UnauthorizedCoordinator => "unauthorized_coordinator"
  | DecisionAlreadyApplied => "decision_already_applied"
  | SupersededDecisionUnknown => "superseded_decision_unknown"
  | SelfDependency => "self_dependency"
  | DependencyCycle => "dependency_cycle"
  | InvalidOverlapClaim => "invalid_overlap_claim"
  | NarrowOutsideScope => "narrow_outside_scope"
  | SequenceDecreased => "sequence_decreased"
  | AmendmentExpandsScopeWithoutApproval => "amendment_expands_scope_without_approval"
  end.

Definition transition_rejection (current : option WorkTaskState) (profile : WorkProfile)
    : option WorkRejectReason :=
  match profile with
  | WorkIntent _ => None
  | WorkDecision _ =>
      match current with
      | Some Proposed => None
      | Some _ => Some DecisionAlreadyApplied
      | None => Some MissingProposal
      end
  | WorkAmendment _ | WorkYield _ =>
      match current with
      | Some Accepted => None
      | Some found => Some (WrongState "accepted" (Some found))
      | None => Some MissingIntent
      end
  | WorkSettled _ | WorkBlocked _ =>
      match current with
      | Some Accepted | Some Yielded => None
      | Some found => Some (WrongState "accepted or yielded" (Some found))
      | None => Some MissingIntent
      end
  | WorkCompleted _ =>
      match current with
      | Some Settled => None
      | Some found => Some (WrongState "settled" (Some found))
      | None => Some MissingIntent
      end
  | WorkSuperseded _ =>
      match current with
      | Some Accepted | Some Rejected => None
      | Some _ => Some DecisionAlreadyApplied
      | None => Some MissingProposal
      end
  end.
