(* ===== verification/AgentContract.v ===== *)
(** * Agent signals: the message contract

    common/src/agent_contract.rs: the [ffmsg1] envelope a signal snapshot carries, and the
    messages and results of inbox reads. *)
From Stdlib Require Import ZArith Lia Ascii Strings.Byte.
From stdpp Require Import sorting numbers strings gmap list_numbers list options.
From S2P Require Import Prelude Text Paths WorkContract.

Local Open Scope Z_scope.

Definition AGENT_MESSAGE_DISCRIMINATOR : string := "ffmsg1".
Definition AGENT_MESSAGE_MAX_BODY_BYTES : Z := 8 * 1024.
Definition AGENT_MESSAGE_MAX_ENCODED_BYTES : Z := 64 * 1024.
Definition AGENT_INBOX_MAX_LIMIT : Z := 1000.

Inductive AgentMessageKind := Request | Status | KindResult | KindBlocked.

Record AgentMessagePayload := mkAgentMessagePayload {
  mp_to : string;
  mp_kind : AgentMessageKind;
  mp_body : string;
  mp_about_snapshot : string;
  mp_reply_to : option string;
}.

Record AgentMessage := mkAgentMessage {
  ms_message_id : string;
  ms_from : string;
  ms_to : string;
  ms_kind : AgentMessageKind;
  ms_body : string;
  ms_about_snapshot : string;
  ms_reply_to : option string;
  ms_created_at_ms : Z;
}.

(** What a sender asks for, and what it learns. *)
Record AgentMessageInput := mkAgentMessageInput {
  mi_to : string;
  mi_kind : AgentMessageKind;
  mi_body : string;
  mi_about_snapshot : option string;
  mi_reply_to : option string;
  mi_from : option string;
}.
Record AgentSendResult := mkAgentSendResult { se_message_id : string; se_about_snapshot : string }.

Record AgentInboxResult := mkAgentInboxResult {
  ai_cursor : string;
  ai_cursor_reset : bool;
  ai_messages : list AgentMessage;
}.

(** [serde_json::to_string] and [from_str] on payloads. *)
Class MessageJson := {
  payload_to_string : AgentMessagePayload → string;
  payload_from_str : string → option AgentMessagePayload;
}.

Section envelope.
Context `{MessageJson}.

Definition encode_agent_message (payload : AgentMessagePayload) : Result string :=
  ensure (negb (is_blank (mp_body payload)) && (slen (mp_body payload) <=? AGENT_MESSAGE_MAX_BODY_BYTES))
    "signal body must be non-empty UTF-8 of at most 8 KiB" ;;
  ensure (bool_decide (mp_to payload = "*") || is_valid_agent_name (mp_to payload))
    "signal recipient must be a valid agent name or '*'" ;;
  ensure (is_valid_hash (mp_about_snapshot payload)) "signal about_snapshot must be a full snapshot id" ;;
  match mp_reply_to payload with
  | Some reply_to => ensure (is_valid_hash reply_to) "signal reply_to must be a full snapshot id"
  | None => Ok tt
  end ;;
  let encoded := AGENT_MESSAGE_DISCRIMINATOR +:+ ":" +:+ payload_to_string payload in
  ensure (slen encoded <=? AGENT_MESSAGE_MAX_ENCODED_BYTES) "encoded signal envelope exceeds 64 KiB" ;;
  Ok encoded.

Definition parse_agent_message (message : string) : option AgentMessagePayload :=
  if AGENT_MESSAGE_MAX_ENCODED_BYTES <? slen message then None else
  json ← strip_prefix AGENT_MESSAGE_DISCRIMINATOR message;
  json ← strip_prefix ":" json;
  payload ← payload_from_str json;
  if negb (bool_decide (payload_to_string payload = json)) then None
  else if negb (is_ok (encode_agent_message payload)) then None
  else Some payload.
End envelope.
