(* ===== verification/WorkReducer.v ===== *)
(** * Work intents: the reducer

    agent-core/src/work.rs: a deterministic projection of the work profiles observed in the
    signal history onto tasks and their proposals.  One batch of messages is applied to a fix
    point; transitions that cannot be applied yet stay pending, invalid ones become evidence,
    and the retained state is bounded.

    A batch returns [None] where the Rust code would panic. *)
From Stdlib Require Import ZArith Lia Ascii Strings.Byte.
From stdpp Require Import sorting numbers strings gmap list_numbers list options.
From S2P Require Import Prelude Text Paths WorkContract AgentContract.

Local Open Scope Z_scope.

Definition WORK_STATE_SCHEMA_VERSION : Z := 1.
Definition WORK_MAX_APPLIED : Z := 4096.

(** ** State *)
Record WorkAuthorRestore := mkWorkAuthorRestore {
  ar_source_message_id : string;
  ar_sequence : Z;
  ar_state : WorkTaskState;
  ar_scope : WorkScope;
  ar_reason : option string;
  ar_verification : option WorkVerification;
  ar_inspected_snapshot : option string;
  ar_outcome : option string;
  ar_amendments_len : nat;
}.
Record WorkDecisionRestore := mkWorkDecisionRestore {
  dr_scope : WorkScope;
  dr_accepted_overlap : list WorkOverlapAcceptance;
  dr_reason : option string;
}.
Record WorkDecisionRecord := mkWorkDecisionRecord {
  de_message_id : string;
  de_coordinator : string;
  de_kind : WorkDecisionKind;
  de_ordered_after : option string;
  de_restore : option WorkDecisionRestore;
}.
Record WorkAmendmentRecord := mkWorkAmendmentRecord {
  am_message_id : string;
  am_sequence : Z;
  am_reason : option string;
  am_approval_decision_id : option string;
}.
Record WorkProposalRecord := mkWorkProposalRecord {
  pr_agent : string;
  pr_sequence : Z;
  pr_intent_message_id : string;
  pr_coordinator : option string;
  pr_causal_base : option string;
  pr_original_scope : WorkScope;
  pr_scope : WorkScope;
  pr_capabilities : list string;
  pr_state : WorkTaskState;
  pr_decision : option WorkDecisionRecord;
  pr_superseded_decisions : list string;
  pr_amendments : list WorkAmendmentRecord;
  pr_accepted_overlap : list WorkOverlapAcceptance;
  pr_verification : option WorkVerification;
  pr_inspected_snapshot : option string;
  pr_outcome : option string;
  pr_reason : option string;
  pr_source_message_id : string;
  pr_author_restore : option WorkAuthorRestore;
  pr_updated_at_ms : Z;
}.
Record WorkTaskRecord := mkWorkTaskRecord {
  tk_task_id : string;
  tk_proposals : list WorkProposalRecord;
  tk_updated_at_ms : Z;
}.
Record WorkEvidenceRecord := mkWorkEvidenceRecord {
  ev_message_id : string;
  ev_task_id : string;
  ev_disposition : string;
  ev_state : WorkTaskState;
}.
(** [WorkPendingRecord] and [WorkCandidate] have the same fields. *)
Record WorkCandidate := mkWorkCandidate {
  ca_message_id : string;
  ca_from : string;
  ca_profile : WorkProfile;
  ca_created_at_ms : Z;
}.
Record WorkStateFile := mkWorkStateFile {
  ws_schema_version : Z;
  ws_cursor : option string;
  ws_incomplete : bool;
  ws_tasks : list WorkTaskRecord;
  ws_evidence : list WorkEvidenceRecord;
  ws_seen : list string;
  ws_applied : list string;
  ws_pending : list WorkCandidate;
  ws_dropped_count : Z;   (* u64 *)
  ws_updated_at_ms : Z;
}.
Definition fresh : WorkStateFile :=
  mkWorkStateFile WORK_STATE_SCHEMA_VERSION None false [] [] [] [] [] 0 0.

Inductive ApplyOutcome := Applied | Pending | Evidence (reason : WorkRejectReason) | Dropped.

(** ** Updates of single fields *)
Definition set_tasks (s : WorkStateFile) (tasks : list WorkTaskRecord) : WorkStateFile :=
  mkWorkStateFile (ws_schema_version s) (ws_cursor s) (ws_incomplete s) tasks (ws_evidence s) (ws_seen s)
    (ws_applied s) (ws_pending s) (ws_dropped_count s) (ws_updated_at_ms s).
Definition set_evidence (s : WorkStateFile) (evidence : list WorkEvidenceRecord) : WorkStateFile :=
  mkWorkStateFile (ws_schema_version s) (ws_cursor s) (ws_incomplete s) (ws_tasks s) evidence (ws_seen s)
    (ws_applied s) (ws_pending s) (ws_dropped_count s) (ws_updated_at_ms s).
Definition set_seen (s : WorkStateFile) (seen : list string) : WorkStateFile :=
  mkWorkStateFile (ws_schema_version s) (ws_cursor s) (ws_incomplete s) (ws_tasks s) (ws_evidence s) seen
    (ws_applied s) (ws_pending s) (ws_dropped_count s) (ws_updated_at_ms s).
Definition set_applied (s : WorkStateFile) (applied : list string) : WorkStateFile :=
  mkWorkStateFile (ws_schema_version s) (ws_cursor s) (ws_incomplete s) (ws_tasks s) (ws_evidence s)
    (ws_seen s) applied (ws_pending s) (ws_dropped_count s) (ws_updated_at_ms s).
Definition set_pending (s : WorkStateFile) (pending : list WorkCandidate) : WorkStateFile :=
  mkWorkStateFile (ws_schema_version s) (ws_cursor s) (ws_incomplete s) (ws_tasks s) (ws_evidence s)
    (ws_seen s) (ws_applied s) pending (ws_dropped_count s) (ws_updated_at_ms s).
Definition set_incomplete (s : WorkStateFile) (incomplete : bool) : WorkStateFile :=
  mkWorkStateFile (ws_schema_version s) (ws_cursor s) incomplete (ws_tasks s) (ws_evidence s) (ws_seen s)
    (ws_applied s) (ws_pending s) (ws_dropped_count s) (ws_updated_at_ms s).
Definition saturating_add_u64 (a b : Z) : Z := Z.min (a + b) U64_MAX.
(** [dropped_count] grows by one and the projection is marked incomplete. *)
Definition mark_dropped (s : WorkStateFile) : WorkStateFile :=
  mkWorkStateFile (ws_schema_version s) (ws_cursor s) true (ws_tasks s) (ws_evidence s) (ws_seen s)
    (ws_applied s) (ws_pending s) (saturating_add_u64 (ws_dropped_count s) 1) (ws_updated_at_ms s).
Definition add_evidence (s : WorkStateFile) (message_id task_id : string) (reason : WorkRejectReason)
    : WorkStateFile :=
  set_evidence s (ws_evidence s ++ [mkWorkEvidenceRecord message_id task_id (WorkRejectReason_as_str reason) Proposed]).

Definition set_proposals (t : WorkTaskRecord) (proposals : list WorkProposalRecord) : WorkTaskRecord :=
  mkWorkTaskRecord (tk_task_id t) proposals (tk_updated_at_ms t).
(** [state.tasks[ti].proposals[pi] = f(..)] and [proposals.remove(pi)]. *)
Definition update_proposal (s : WorkStateFile) (ti pi : nat) (f : WorkProposalRecord → WorkProposalRecord)
    : WorkStateFile :=
  set_tasks s (alter (λ t, set_proposals t (alter f pi (tk_proposals t))) ti (ws_tasks s)).
Definition remove_proposal (s : WorkStateFile) (ti pi : nat) : WorkStateFile :=
  set_tasks s (alter (λ t, set_proposals t (delete pi (tk_proposals t))) ti (ws_tasks s)).

(** ** Searching *)

(** Every proposal with its indices, in the order of the nested loops over [enumerate()]. *)
Record Located := mkLocated {
  lo_task_index : nat;
  lo_proposal_index : nat;
  lo_task_id : string;
  lo_record : WorkProposalRecord;
}.
Definition located (tasks : list WorkTaskRecord) : list Located :=
  concat (imap (λ ti t, imap (λ pi p, mkLocated ti pi (tk_task_id t) p) (tk_proposals t)) tasks).

Definition find_proposal_mut (tasks : list WorkTaskRecord) (task_id intent_message_id : string) : option Located :=
  find (λ l, String.eqb (lo_task_id l) task_id
             && String.eqb (pr_intent_message_id (lo_record l)) intent_message_id) (located tasks).

Definition find_proposal_by_intent_index (tasks : list WorkTaskRecord) (intent_message_id : string)
    : option Located :=
  find (λ l, String.eqb (pr_intent_message_id (lo_record l)) intent_message_id) (located tasks).

Definition any_proposal_with_intent (tasks : list WorkTaskRecord) (intent_message_id : string) : bool :=
  existsb (λ l, String.eqb (pr_intent_message_id (lo_record l)) intent_message_id) (located tasks).

(** The dependencies of every proposal of the tasks called [id]. *)
Definition dependencies_of (tasks : list WorkTaskRecord) (id : string) : list string :=
  concat ((λ l, sc_dependencies (pr_scope (lo_record l))) <$>
          filter (λ l, lo_task_id l = id) (located tasks)).

(** [while let Some(current) = stack.pop()]; the stack is written top first, so the
    dependencies pushed last come off first. *)
Fixpoint search_cycle (fuel : nat) (tasks : list WorkTaskRecord) (task_id : string) (stack : list string)
    (visited : gset string) : bool :=
  match fuel, stack with
  | O, _ | _, [] => false
  | S fuel, current :: stack =>
      if bool_decide (current = task_id) then true
      else if bool_decide (current ∈ visited) then search_cycle fuel tasks task_id stack visited
      else search_cycle fuel tasks task_id (reverse (dependencies_of tasks current) ++ stack) ({[current]} ∪ visited)
  end.

(** Every dependency edge is pushed at most once, so this many pops empty the stack. *)
Definition cycle_fuel (tasks : list WorkTaskRecord) : nat :=
  S (S (length (concat ((λ l, sc_dependencies (pr_scope (lo_record l))) <$> located tasks)))).

Definition dependency_creates_cycle (tasks : list WorkTaskRecord) (task_id : string) (deps : list string) : bool :=
  existsb (λ dep, negb (bool_decide (dep = task_id))
                  && search_cycle (cycle_fuel tasks) tasks task_id [dep] ∅) deps.

Definition authorized_coordinator (record : WorkProposalRecord) : string :=
  default (pr_agent record) (pr_coordinator record).

Definition is_under_or_equal (child dir : string) : bool :=
  bool_decide (child = dir)
  || match strip_prefix dir child with Some rest => starts_with "/" rest | None => false end.

Definition narrow_path_covered (scope : WorkScope) (entry : string) : bool :=
  existsb (λ candidate,
    bool_decide (candidate = entry)
    || is_under_or_equal entry (default candidate (strip_suffix GLOB_SUFFIX candidate))
    || match strip_suffix GLOB_SUFFIX entry with
       | Some root => is_under_or_equal candidate root
       | None => false
       end) (sc_paths scope).

Definition narrow_within_scope (scope : WorkScope) (paths concerns : list string) : bool :=
  forallb (narrow_path_covered scope) paths
  && forallb (λ concern, existsb (String.eqb concern) (sc_concerns scope)) concerns.

Definition overlap_claim_matches (claim : WorkOverlapAcceptance) (derived : WorkOverlap) : bool :=
  bool_decide (oa_kind claim = ov_kind derived) && bool_decide (oa_path_a claim = ov_path_a derived)
  && bool_decide (oa_path_b claim = ov_path_b derived) && bool_decide (oa_concern claim = ov_concern derived).

(** ** Intents *)

(** The proposals of the same task and author. *)
Definition own_chain (tasks : list WorkTaskRecord) (p : WorkIntentProfile) : list Located :=
  filter (λ l, lo_task_id l = wi_task_id p ∧ pr_agent (lo_record l) = wi_agent p) (located tasks).

(** Removing records from the last index to the first, each with its evidence. *)
Definition evict (reason : WorkRejectReason) (s : WorkStateFile) (l : Located) : WorkStateFile :=
  add_evidence (remove_proposal s (lo_task_index l) (lo_proposal_index l))
    (pr_intent_message_id (lo_record l)) (lo_task_id l) reason.
Definition evict_all (reason : WorkRejectReason) (s : WorkStateFile) (ls : list Located) : WorkStateFile :=
  foldl (evict reason) s (reverse ls).

Definition base_applied (s : WorkStateFile) (base : string) : bool :=
  bool_decide (base ∈ ws_applied s) || any_proposal_with_intent (ws_tasks s) base
  || existsb (λ l, bool_decide (base ∈ pr_superseded_decisions (lo_record l))) (located (ws_tasks s)).

(** The applied proposals of the dependencies that depend back on the task. *)
Definition mutual_proposals (tasks : list WorkTaskRecord) (p : WorkIntentProfile) : list Located :=
  concat ((λ dependency,
    filter (λ l, lo_task_id l = dependency ∧ wi_task_id p ∈ sc_dependencies (pr_scope (lo_record l)))
      (located tasks)) <$> wi_dependencies p).

Definition intent_record (c : WorkCandidate) (p : WorkIntentProfile) : WorkProposalRecord :=
  let scope := mkWorkScope (wi_paths p) (wi_concerns p) (wi_dependencies p) in
  mkWorkProposalRecord (wi_agent p) (wi_sequence p) (ca_message_id c) (wi_coordinator p) (wi_causal_base p)
    scope scope (wi_capabilities p) Proposed None [] [] [] None None None None (ca_message_id c) None
    (ca_created_at_ms c).

(** The record joins the first task of its id, or a new task. *)
Fixpoint add_proposal (tasks : list WorkTaskRecord) (task_id : string) (record : WorkProposalRecord) (now : Z)
    : list WorkTaskRecord :=
  match tasks with
  | [] => [mkWorkTaskRecord task_id [record] now]
  | t :: tasks =>
      if decide (tk_task_id t = task_id)
      then mkWorkTaskRecord (tk_task_id t) (tk_proposals t ++ [record]) now :: tasks
      else t :: add_proposal tasks task_id record now
  end.

(** From the dependency checks on. *)
Definition admit_intent (s : WorkStateFile) (c : WorkCandidate) (p : WorkIntentProfile)
    : ApplyOutcome * WorkStateFile :=
  if bool_decide (wi_task_id p ∈ wi_dependencies p) then (Evidence SelfDependency, s) else
  let mutual := mutual_proposals (ws_tasks s) p in
  let smaller l := bool_decide (str_lt (pr_intent_message_id (lo_record l)) (ca_message_id c)) in
  if existsb smaller mutual then (Evidence DependencyCycle, s) else
  let s := evict_all DependencyCycle s (filter (λ l, smaller l = false) mutual) in
  if dependency_creates_cycle (ws_tasks s) (wi_task_id p) (wi_dependencies p)
  then (Evidence DependencyCycle, s) else
  let task_exists := existsb (λ t, String.eqb (tk_task_id t) (wi_task_id p)) (ws_tasks s) in
  if negb task_exists && (WORK_MAX_ACTIVE_TASKS + WORK_MAX_TERMINAL_TASKS <=? zlen (ws_tasks s))
  then (Dropped, s)
  else (Applied, set_tasks s (add_proposal (ws_tasks s) (wi_task_id p) (intent_record c p) (ca_created_at_ms c))).

Definition apply_intent (s : WorkStateFile) (c : WorkCandidate) (p : WorkIntentProfile)
    : ApplyOutcome * WorkStateFile :=
  let chain := own_chain (ws_tasks s) p in
  if existsb (λ l, String.eqb (pr_intent_message_id (lo_record l)) (ca_message_id c)) chain then (Applied, s) else
  let forks := filter (λ l, pr_sequence (lo_record l) = wi_sequence p) chain in
  if existsb (λ l, bool_decide (str_lt (pr_intent_message_id (lo_record l)) (ca_message_id c))) forks
  then (Evidence SequenceDecreased, s) else
  let s := evict_all SequenceDecreased s forks in
  match wi_causal_base p with
  | Some base => if base_applied s base then admit_intent s c p else (Pending, s)
  | None => admit_intent s c p
  end.

(** ** Decisions *)

(** The record as it was before its decision. *)
Definition undo_decision (restore : WorkDecisionRestore) (r : WorkProposalRecord) : WorkProposalRecord :=
  mkWorkProposalRecord (pr_agent r) (pr_sequence r) (pr_intent_message_id r) (pr_coordinator r)
    (pr_causal_base r) (pr_original_scope r) (dr_scope restore) (pr_capabilities r) Proposed None
    (pr_superseded_decisions r) (pr_amendments r) (dr_accepted_overlap restore) (pr_verification r)
    (pr_inspected_snapshot r) (pr_outcome r) (dr_reason restore) (pr_source_message_id r)
    (pr_author_restore r) (pr_updated_at_ms r).

(** The first part of [apply_decision], up to the kind-specific checks: either an outcome, or
    the state and record the decision is checked against. *)
Definition prepare_decision (s : WorkStateFile) (c : WorkCandidate) (l : Located)
    : (ApplyOutcome * WorkStateFile) + (WorkStateFile * WorkProposalRecord) :=
  let r := lo_record l in
  if decide (pr_state r = Proposed) then inr (s, r) else
  match pr_decision r with
  | Some applied =>
      if bool_decide (de_message_id applied = ca_message_id c) then inl (Applied, s)
      else if bool_decide (str_lt (ca_message_id c) (de_message_id applied))
              && bool_decide (pr_source_message_id r = de_message_id applied)
      then
        let restore := default (mkWorkDecisionRestore (pr_original_scope r) [] None) (de_restore applied) in
        let r' := undo_decision restore r in
        inr (update_proposal (add_evidence s (de_message_id applied) (lo_task_id l) DecisionAlreadyApplied)
               (lo_task_index l) (lo_proposal_index l) (λ _, r'), r')
      else inl (Evidence DecisionAlreadyApplied, s)
  | None => inl (Evidence DecisionAlreadyApplied, s)
  end.

(** The proposals of the other tasks. *)
Definition other_proposals (tasks : list WorkTaskRecord) (ti : nat) : list WorkProposalRecord :=
  lo_record <$> filter (λ l, lo_task_index l ≠ ti) (located tasks).

(** The two inner loops: whether the claim was derived, and whether a scope seen on the way
    contains its second path. *)
Fixpoint scan_claim (r : WorkProposalRecord) (claim : WorkOverlapAcceptance) (others : list WorkProposalRecord)
    (contains : bool) : bool * bool :=
  match others with
  | [] => (false, contains)
  | other :: others =>
      let derived := evaluate_scope_overlap (sc_paths (pr_scope r)) (sc_concerns (pr_scope r))
                       (sc_paths (pr_scope other)) (sc_concerns (pr_scope other)) in
      if existsb (overlap_claim_matches claim) derived then (true, contains)
      else scan_claim r claim others
             (contains || match oa_path_b claim with
                          | Some entry => bool_decide (entry ∈ sc_paths (pr_scope other))
                          | None => false
                          end)
  end.

(** The loop over the claims: [None] when all are derivable, else whether some scope contains a
    claimed path. *)
Fixpoint scan_claims (r : WorkProposalRecord) (others : list WorkProposalRecord)
    (claims : list WorkOverlapAcceptance) (contains : bool) : option bool :=
  match claims with
  | [] => None
  | claim :: claims =>
      let '(found, contains) := scan_claim r claim others contains in
      if (found : bool) then scan_claims r others claims contains else Some contains
  end.

(** The kind-specific checks: [None] when the decision may be applied. *)
Definition decision_rejection (tasks : list WorkTaskRecord) (l : Located) (r : WorkProposalRecord)
    (kind : WorkDecisionKind) : option ApplyOutcome :=
  match kind with
  | Narrow paths concerns _ =>
      if narrow_within_scope (pr_scope r) paths concerns then None else Some (Evidence NarrowOutsideScope)
  | AcceptOverlap overlap _ =>
      match scan_claims r (other_proposals tasks (lo_task_index l)) overlap false with
      | None => None
      | Some true => Some (Evidence InvalidOverlapClaim)
      | Some false => Some Pending
      end
  | Order (Some after) _ => if any_proposal_with_intent tasks after then None else Some Pending
  | _ => None
  end.

Definition decision_state (kind : WorkDecisionKind) : WorkTaskState :=
  match kind with Reject _ => Rejected | _ => Accepted end.
Definition decision_scope (kind : WorkDecisionKind) (scope : WorkScope) : WorkScope :=
  match kind with Narrow paths concerns _ => mkWorkScope paths concerns (sc_dependencies scope) | _ => scope end.
Definition decision_overlap (kind : WorkDecisionKind) (overlap : list WorkOverlapAcceptance)
    : list WorkOverlapAcceptance :=
  match kind with AcceptOverlap overlap _ => overlap | _ => overlap end.
Definition decision_reason (kind : WorkDecisionKind) (reason : option string) : option string :=
  match kind with Reject reason => Some reason | _ => reason end.
Definition decision_after (kind : WorkDecisionKind) : option string :=
  match kind with Order after _ => after | _ => None end.

Definition decide_record (c : WorkCandidate) (authorized : string) (kind : WorkDecisionKind)
    (r : WorkProposalRecord) : WorkProposalRecord :=
  let restore := mkWorkDecisionRestore (pr_scope r) (pr_accepted_overlap r) (pr_reason r) in
  mkWorkProposalRecord (pr_agent r) (pr_sequence r) (pr_intent_message_id r) (pr_coordinator r)
    (pr_causal_base r) (pr_original_scope r) (decision_scope kind (pr_scope r)) (pr_capabilities r)
    (decision_state kind)
    (Some (mkWorkDecisionRecord (ca_message_id c) authorized kind (decision_after kind) (Some restore)))
    (pr_superseded_decisions r) (pr_amendments r) (decision_overlap kind (pr_accepted_overlap r))
    (pr_verification r) (pr_inspected_snapshot r) (pr_outcome r) (decision_reason kind (pr_reason r))
    (ca_message_id c) (pr_author_restore r) (ca_created_at_ms c).

Definition apply_decision (s : WorkStateFile) (c : WorkCandidate) (p : WorkDecisionProfile)
    : ApplyOutcome * WorkStateFile :=
  match find_proposal_by_intent_index (ws_tasks s) (wd_proposal_message_id p) with
  | None => (Pending, s)
  | Some l =>
      let authorized := authorized_coordinator (lo_record l) in
      if negb (String.eqb (ca_from c) authorized) then (Evidence UnauthorizedCoordinator, s) else
      match prepare_decision s c l with
      | inl done => done
      | inr (s, r) =>
          match decision_rejection (ws_tasks s) l r (wd_kind p) with
          | Some outcome => (outcome, s)
          | None =>
              (Applied, update_proposal s (lo_task_index l) (lo_proposal_index l)
                          (decide_record c authorized (wd_kind p)))
          end
      end
  end.

(** ** Author transitions *)
Definition author_key (profile : WorkProfile) : option (string * string * Z) :=
  match profile with
  | WorkAmendment p => Some (wa_task_id p, wa_intent_message_id p, wa_sequence p)
  | WorkYield p => Some (wy_task_id p, wy_intent_message_id p, wy_sequence p)
  | WorkSettled p => Some (wt_task_id p, wt_intent_message_id p, wt_sequence p)
  | WorkCompleted p => Some (wc_task_id p, wc_intent_message_id p, wc_sequence p)
  | WorkBlocked p => Some (wb_task_id p, wb_intent_message_id p, wb_sequence p)
  | _ => None
  end.

(** The record as it was before its last author transition. *)
Definition undo_author (restore : WorkAuthorRestore) (r : WorkProposalRecord) : WorkProposalRecord :=
  mkWorkProposalRecord (pr_agent r) (ar_sequence restore) (pr_intent_message_id r) (pr_coordinator r)
    (pr_causal_base r) (pr_original_scope r) (ar_scope restore) (pr_capabilities r) (ar_state restore)
    (pr_decision r) (pr_superseded_decisions r) (take (ar_amendments_len restore) (pr_amendments r))
    (pr_accepted_overlap r) (ar_verification restore) (ar_inspected_snapshot restore) (ar_outcome restore)
    (ar_reason restore) (pr_source_message_id r) None (pr_updated_at_ms r).

(** The sequence rules: either an outcome, or the state and record to transition from. *)
Definition prepare_author (s : WorkStateFile) (c : WorkCandidate) (l : Located) (task_id : string) (sequence : Z)
    : (ApplyOutcome * WorkStateFile) + (WorkStateFile * WorkProposalRecord) :=
  let r := lo_record l in
  if negb (String.eqb (ca_from c) (pr_agent r)) then inl (Evidence NotAuthor, s)
  else if sequence <? pr_sequence r then inl (Evidence SequenceDecreased, s)
  else if sequence =? pr_sequence r then
    if bool_decide (pr_source_message_id r = ca_message_id c) then inl (Applied, s) else
    let displaced :=
      if bool_decide (str_lt (ca_message_id c) (pr_source_message_id r)) then
        match pr_author_restore r with
        | Some restore =>
            if bool_decide (ar_source_message_id restore = pr_source_message_id r) then Some restore else None
        | None => None
        end
      else None in
    match displaced with
    | Some restore =>
        let r' := undo_author restore r in
        inr (update_proposal (add_evidence s (pr_source_message_id r) task_id SequenceDecreased)
               (lo_task_index l) (lo_proposal_index l) (λ _, r'), r')
    | None => inl (Evidence SequenceDecreased, s)
    end
  else inr (s, r).

Definition premature_for_state (current : WorkTaskState) (profile : WorkProfile) : bool :=
  match profile with
  | WorkAmendment _ | WorkYield _ | WorkSettled _ | WorkBlocked _ => bool_decide (current = Proposed)
  | WorkCompleted _ => bool_decide (current = Proposed ∨ current = Accepted ∨ current = Yielded)
  | _ => false
  end.

Definition amended_scope (p : WorkAmendmentProfile) (scope : WorkScope) : WorkScope :=
  mkWorkScope (default (sc_paths scope) (wa_paths p)) (default (sc_concerns scope) (wa_concerns p))
    (default (sc_dependencies scope) (wa_dependencies p)).

Definition within_original (original amended : WorkScope) : bool :=
  forallb (scope_covers_path original) (sc_paths amended)
  && forallb (λ concern, bool_decide (concern ∈ sc_concerns original)) (sc_concerns amended)
  && forallb (λ dependency, bool_decide (dependency ∈ sc_dependencies original)) (sc_dependencies amended).

(** The gate for amendments that leave the declared scope. *)
Definition amendment_allowed (r : WorkProposalRecord) (profile : WorkProfile) : bool :=
  match profile with
  | WorkAmendment p =>
      within_original (pr_original_scope r) (amended_scope p (pr_scope r))
      || bool_decide (wa_approval_decision_id p = de_message_id <$> pr_decision r)
  | _ => true
  end.

Definition capture (c : WorkCandidate) (r : WorkProposalRecord) : WorkAuthorRestore :=
  mkWorkAuthorRestore (ca_message_id c) (pr_sequence r) (pr_state r) (pr_scope r) (pr_reason r)
    (pr_verification r) (pr_inspected_snapshot r) (pr_outcome r) (length (pr_amendments r)).

(** The last match of [apply_author_transition], with the fields set just before it. *)
Definition transition_record (c : WorkCandidate) (sequence : Z) (profile : WorkProfile) (r : WorkProposalRecord)
    : WorkProposalRecord :=
  let set scope state amendments verification inspected outcome reason :=
    mkWorkProposalRecord (pr_agent r) sequence (pr_intent_message_id r) (pr_coordinator r) (pr_causal_base r)
      (pr_original_scope r) scope (pr_capabilities r) state (pr_decision r) (pr_superseded_decisions r)
      amendments (pr_accepted_overlap r) verification inspected outcome reason (ca_message_id c)
      (Some (capture c r)) (ca_created_at_ms c) in
  match profile with
  | WorkAmendment p =>
      set (amended_scope p (pr_scope r)) (pr_state r)
        (pr_amendments r ++ [mkWorkAmendmentRecord (ca_message_id c) (wa_sequence p) (wa_reason p)
                               (wa_approval_decision_id p)])
        (pr_verification r) (pr_inspected_snapshot r) (pr_outcome r) (pr_reason r)
  | WorkYield p =>
      set (pr_scope r) Yielded (pr_amendments r) (pr_verification r) (pr_inspected_snapshot r) (pr_outcome r)
        (wy_reason p)
  | WorkSettled p =>
      set (pr_scope r) Settled (pr_amendments r) (Some (wt_verification p)) (Some (wt_inspected_snapshot p))
        (pr_outcome r) (pr_reason r)
  | WorkCompleted p =>
      set (pr_scope r) Completed (pr_amendments r) (pr_verification r) (pr_inspected_snapshot r)
        (Some (wc_outcome p)) (pr_reason r)
  | WorkBlocked p =>
      set (pr_scope r) Blocked (pr_amendments r) (pr_verification r) (pr_inspected_snapshot r) (pr_outcome r)
        (Some (wb_reason p))
  | _ => r
  end.

Definition apply_author_transition (s : WorkStateFile) (c : WorkCandidate) (profile : WorkProfile)
    : ApplyOutcome * WorkStateFile :=
  match author_key profile with
  | None => (Evidence MissingIntent, s)
  | Some (task_id, intent_message_id, sequence) =>
      match find_proposal_mut (ws_tasks s) task_id intent_message_id with
      | None => (Pending, s)
      | Some l =>
          match prepare_author s c l task_id sequence with
          | inl done => done
          | inr (s, r) =>
              match transition_rejection (Some (pr_state r)) profile with
              | Some reason =>
                  if premature_for_state (pr_state r) profile then (Pending, s) else (Evidence reason, s)
              | None =>
                  if amendment_allowed r profile
                  then (Applied, update_proposal s (lo_task_index l) (lo_proposal_index l)
                                   (transition_record c sequence profile))
                  else (Evidence AmendmentExpandsScopeWithoutApproval, s)
              end
          end
      end
  end.

(** ** Replacement of a decision *)
Definition supersede_record (c : WorkCandidate) (p : WorkSupersededProfile) (r : WorkProposalRecord)
    : WorkProposalRecord :=
  mkWorkProposalRecord (pr_agent r) (pr_sequence r) (pr_intent_message_id r) (pr_coordinator r)
    (pr_causal_base r) (pr_original_scope r) (pr_scope r) (pr_capabilities r) Proposed None
    (pr_superseded_decisions r ++ [wz_superseded_decision_message_id p]) (pr_amendments r)
    (pr_accepted_overlap r) (pr_verification r) (pr_inspected_snapshot r) (pr_outcome r) (wz_reason p)
    (ca_message_id c) (pr_author_restore r) (ca_created_at_ms c).

Definition apply_superseded (s : WorkStateFile) (c : WorkCandidate) (p : WorkSupersededProfile)
    : ApplyOutcome * WorkStateFile :=
  match find_proposal_mut (ws_tasks s) (wz_task_id p) (wz_proposal_message_id p) with
  | None => (Pending, s)
  | Some l =>
      let r := lo_record l in
      if negb (String.eqb (ca_from c) (authorized_coordinator r)) then (Evidence UnauthorizedCoordinator, s)
      else if negb (bool_decide (pr_state r = Accepted ∨ pr_state r = Rejected))
      then (Evidence SupersededDecisionUnknown, s)
      else
        match pr_decision r with
        | Some applied =>
            if negb (bool_decide (de_message_id applied = wz_superseded_decision_message_id p))
            then (Evidence SupersededDecisionUnknown, s)
            else (Applied, update_proposal s (lo_task_index l) (lo_proposal_index l) (supersede_record c p))
        | None =>
            if bool_decide (wz_superseded_decision_message_id p ∈ pr_superseded_decisions r)
            then (Applied, s) else (Pending, s)
        end
  end.

Definition apply_transition (s : WorkStateFile) (c : WorkCandidate) : ApplyOutcome * WorkStateFile :=
  match ca_profile c with
  | WorkIntent p => apply_intent s c p
  | WorkDecision p => apply_decision s c p
  | WorkSuperseded p => apply_superseded s c p
  | profile => apply_author_transition s c profile
  end.

(** ** Bounds *)

(** [iter().enumerate().max_by(cmp)] and [min_by(cmp)] as an index: of equal elements the last
    is the maximum and the first the minimum. [lt] is the strict order. *)
Section extremum.
Context {A : Type} (lt : A → A → bool).

Fixpoint max_index_from (best : nat * A) (i : nat) (l : list A) : nat :=
  match l with
  | [] => best.1
  | x :: l => max_index_from (if lt x (best.2) then best else (i, x)) (S i) l
  end.
Definition max_index (l : list A) : option nat :=
  match l with [] => None | x :: l => Some (max_index_from (0%nat, x) 1 l) end.

Fixpoint min_index_from (best : nat * A) (i : nat) (l : list A) : nat :=
  match l with
  | [] => best.1
  | x :: l => min_index_from (if lt x (best.2) then (i, x) else best) (S i) l
  end.
Definition min_index (l : list A) : option nat :=
  match l with [] => None | x :: l => Some (min_index_from (0%nat, x) 1 l) end.
End extremum.

Definition id_lt {A} (key : A → string) (a b : A) : bool := bool_decide (str_lt (key a) (key b)).

(** [while l.len() > maximum { l.remove(pick(l)) }], with the removed elements. *)
Fixpoint trim_to {A} (fuel : nat) (maximum : Z) (pick : list A → option nat) (l : list A) : list A * list A :=
  match fuel with
  | O => (l, [])
  | S fuel =>
      if maximum <? zlen l then
        match pick l with
        | Some i =>
            let '(kept, removed) := trim_to fuel maximum pick (delete i l) in
            (kept, option_list (l !! i) ++ removed)
        | None => (l, [])
        end
      else (l, [])
  end.

Definition insert_applied (s : WorkStateFile) (message_id : string) : WorkStateFile :=
  if bool_decide (message_id ∈ ws_applied s) then s else
  let full := WORK_MAX_APPLIED <=? zlen (ws_applied s) in
  let kept := if full then tail (ws_applied s) else ws_applied s in
  let s := if full then set_incomplete s true else s in
  set_applied s (sort_strings (kept ++ [message_id])).

(** [seen] is sorted, so [pop] drops the largest id. *)
Definition insert_seen (seen : list string) (message_id : string) : list string :=
  if bool_decide (message_id ∈ seen) then seen
  else take (Z.to_nat WORK_MAX_SEEN) (sort_strings (seen ++ [message_id])).

Definition push_evidence (s : WorkStateFile) (c : WorkCandidate) (reason : WorkRejectReason) : WorkStateFile :=
  add_evidence s (ca_message_id c) (profile_task_id (ca_profile c)) reason.

Definition push_pending (s : WorkStateFile) (c : WorkCandidate) : WorkStateFile :=
  let pending := ws_pending s ++ [c] in
  let '(kept, removed) := trim_to (length pending) WORK_MAX_PENDING (max_index (id_lt ca_message_id)) pending in
  Nat.iter (length removed) mark_dropped (set_pending s kept).


Definition state_priority (state : WorkTaskState) : Z :=
  match state with
  | Completed => 6
  | Blocked => 5
  | Settled => 4
  | Accepted => 3
  | Yielded => 2
  | Proposed => 1
  | Rejected => 0
  end.

(** The strict parts of the two comparison closures: [(sequence, intent_message_id)] ascending,
    and priority, then sequence, then the intent id descending. *)
Definition chain_lt (a b : WorkProposalRecord) : bool :=
  bool_decide (pr_sequence a < pr_sequence b
    ∨ pr_sequence a = pr_sequence b ∧ str_lt (pr_intent_message_id a) (pr_intent_message_id b)).
Definition prominence_lt (a b : WorkProposalRecord) : bool :=
  let pa := state_priority (pr_state a) in
  let pb := state_priority (pr_state b) in
  bool_decide (pa < pb
    ∨ pa = pb ∧ (pr_sequence a < pr_sequence b
      ∨ pr_sequence a = pr_sequence b ∧ str_lt (pr_intent_message_id b) (pr_intent_message_id a))).

Definition task_state (t : WorkTaskRecord) : WorkTaskState :=
  from_option pr_state Proposed (max_index prominence_lt (tk_proposals t) ≫= (tk_proposals t !!.)).

Definition is_terminal (state : WorkTaskState) : bool :=
  bool_decide (state = Completed ∨ state = Blocked).

Definition set_amendments (r : WorkProposalRecord) (amendments : list WorkAmendmentRecord) : WorkProposalRecord :=
  mkWorkProposalRecord (pr_agent r) (pr_sequence r) (pr_intent_message_id r) (pr_coordinator r)
    (pr_causal_base r) (pr_original_scope r) (pr_scope r) (pr_capabilities r) (pr_state r) (pr_decision r)
    (pr_superseded_decisions r) amendments (pr_accepted_overlap r) (pr_verification r)
    (pr_inspected_snapshot r) (pr_outcome r) (pr_reason r) (pr_source_message_id r) (pr_author_restore r)
    (pr_updated_at_ms r).

(** The amendment loop of one proposal: the record, and whether it marks the projection
    incomplete. *)
Definition bound_amendments (r : WorkProposalRecord) : WorkProposalRecord * bool :=
  let '(kept, removed) := trim_to (length (pr_amendments r)) WORK_MAX_AMENDMENTS (max_index (id_lt am_message_id))
                            (pr_amendments r) in
  (set_amendments r kept, match removed with [] => false | _ => negb (is_terminal (pr_state r)) end).

(** The body of the loop over the tasks. *)
Definition bound_task (t : WorkTaskRecord) : WorkTaskRecord * bool :=
  let '(kept, removed) := trim_to (length (tk_proposals t)) WORK_MAX_PROPOSALS_PER_TASK (min_index chain_lt)
                            (tk_proposals t) in
  let bounded := bound_amendments <$> kept in
  (set_proposals t bounded.*1, existsb (λ r, negb (is_terminal (pr_state r))) removed || existsb snd bounded).

(** [task.proposals.iter().map(|p| p.sequence).max().unwrap_or(0)] *)
Definition highest_sequence (t : WorkTaskRecord) : Z := foldr Z.max 0 (pr_sequence <$> tk_proposals t).

(** The stable [sort_by] of the terminal indices by [(highest, task_id)]; insertion from the
    right keeps equal keys in order. *)
Definition activity_lt (a b : nat * WorkTaskRecord) : bool :=
  bool_decide (highest_sequence (a.2) < highest_sequence (b.2)
    ∨ highest_sequence (a.2) = highest_sequence (b.2) ∧ str_lt (tk_task_id (a.2)) (tk_task_id (b.2))).
Fixpoint insert_activity (x : nat * WorkTaskRecord) (l : list (nat * WorkTaskRecord)) : list (nat * WorkTaskRecord) :=
  match l with
  | [] => [x]
  | y :: l' => if activity_lt y x then y :: insert_activity x l' else x :: l
  end.
Definition by_activity (l : list (nat * WorkTaskRecord)) : list (nat * WorkTaskRecord) :=
  foldr insert_activity [] l.

(** [Vec::remove], which panics out of range. *)
Definition vec_remove {A} (l : list A) (i : nat) : option (list A) :=
  if decide (i < length l)%nat then Some (delete i l) else None.
Fixpoint remove_all {A} (l : list A) (indices : list nat) : option (list A) :=
  match indices with
  | [] => Some l
  | i :: indices => l ← vec_remove l i; remove_all l indices
  end.

(** The indices leave in the reverse of their activity order, not in descending order. *)
Definition evict_terminal (tasks : list WorkTaskRecord) : option (list WorkTaskRecord) :=
  let terminal := filter (λ it, is_terminal (task_state (it.2)) = true) (imap pair tasks) in
  if WORK_MAX_TERMINAL_TASKS <? zlen terminal then
    let excess := Z.to_nat (zlen terminal - WORK_MAX_TERMINAL_TASKS) in
    remove_all tasks (reverse (take excess (by_activity terminal).*1))
  else Some tasks.

Definition maintain_bounds (s : WorkStateFile) : option WorkStateFile :=
  let bounded := bound_task <$> ws_tasks s in
  let s := set_incomplete (set_tasks s bounded.*1) (ws_incomplete s || existsb snd bounded) in
  tasks ← evict_terminal (ws_tasks s);
  let evidence := trim_to (length (ws_evidence s)) WORK_MAX_EVIDENCE (max_index (id_lt ev_message_id))
                    (ws_evidence s) in
  Some (set_evidence (set_tasks s tasks) evidence.1).

(** ** Batches *)

(** One pass over the candidates: the state, the candidates that remain (latest first), the
    number settled and whether anything was applied. *)
Record Pass := mkPass {
  ps_state : WorkStateFile;
  ps_remaining : list WorkCandidate;
  ps_settled : nat;
  ps_progressed : bool;
}.
Definition settle (acc : Pass) (c : WorkCandidate) : Pass :=
  let '(outcome, s) := apply_transition (ps_state acc) c in
  match outcome with
  | Applied => mkPass (insert_applied s (ca_message_id c)) (ps_remaining acc) (S (ps_settled acc)) true
  | Pending => mkPass s (c :: ps_remaining acc) (ps_settled acc) (ps_progressed acc)
  | Evidence reason => mkPass (push_evidence s c reason) (ps_remaining acc) (S (ps_settled acc)) (ps_progressed acc)
  | Dropped => mkPass (mark_dropped s) (ps_remaining acc) (S (ps_settled acc)) (ps_progressed acc)
  end.
Definition pass (s : WorkStateFile) (settled : nat) (candidates : list WorkCandidate) : Pass :=
  foldl settle (mkPass s [] settled false) candidates.

(** [loop { .. if !progressed || candidates.is_empty() { break } }]; [None] when the fuel runs
    out, which [S (length candidates)] never does. *)
Fixpoint passes (fuel : nat) (s : WorkStateFile) (settled : nat) (candidates : list WorkCandidate) : option Pass :=
  match fuel with
  | O => None
  | S fuel =>
      let p := pass s settled candidates in
      let candidates := reverse (ps_remaining p) in
      if negb (ps_progressed p) || bool_decide (candidates = []) then Some p
      else passes fuel (ps_state p) (ps_settled p) candidates
  end.

Section batches.
Context `{Unicode, WorkJson}.

Definition candidate_of (m : AgentMessage) : option WorkCandidate :=
  profile ← parse_work_profile (ms_body m);
  Some (mkWorkCandidate (ms_message_id m) (ms_from m) profile (ms_created_at_ms m)).

Definition batch_candidates (s : WorkStateFile) (messages : list AgentMessage) : list WorkCandidate :=
  sort_by ca_message_id (ws_pending s ++ omap candidate_of messages).

Definition apply_batch (s : WorkStateFile) (messages : list AgentMessage) (rebuild : bool)
    : option (WorkStateFile * nat) :=
  let s := if rebuild then fresh else s in
  let s := set_seen s (foldl insert_seen (ws_seen s) (ms_message_id <$> messages)) in
  let candidates := batch_candidates s messages in
  p ← passes (S (length candidates)) (set_pending s []) 0 candidates;
  let s := foldl push_pending (ps_state p) (reverse (ps_remaining p)) in
  s ← maintain_bounds s;
  Some (s, ps_settled p).

Definition set_cursor (s : WorkStateFile) (cursor : string) (incomplete : bool) (now : Z) : WorkStateFile :=
  mkWorkStateFile (ws_schema_version s) (Some cursor) incomplete (ws_tasks s) (ws_evidence s) (ws_seen s)
    (ws_applied s) (ws_pending s) (ws_dropped_count s) now.

(** [work_status] between loading and storing the state. *)
Definition work_status (signals_since : option string → AgentInboxResult) (now : Z) (rebuild_requested : bool)
    (loaded : WorkStateFile) : option (WorkStateFile * nat) :=
  let s := if rebuild_requested then fresh else loaded in
  let signals := signals_since (ws_cursor s) in
  '(s, processed) ← apply_batch s (ai_messages signals) (rebuild_requested || ai_cursor_reset signals);
  Some (set_cursor s (ai_cursor signals) (ws_incomplete s || ai_cursor_reset signals) now, processed).
End batches.
