(* ===== verification/WorkReducerProps.v ===== *)
(** * Work intents: lemmas on the reducer

    Where proposals are found and how the updates of the state change the set of records;
    provenance of every record (each change of state was sent by the agent entitled to it);
    the dependency search; the bounds on the retained state. *)
From Stdlib Require Import ZArith Lia Ascii Strings.Byte.
From stdpp Require Import sorting numbers strings gmap list_numbers list options.
From S2P Require Import Prelude Text Paths WorkContract AgentContract WorkReducer.

Local Open Scope Z_scope.

(** ** Located proposals *)
Definition at_location (tasks : list WorkTaskRecord) (l : Located) : Prop :=
  ∃ t, tasks !! lo_task_index l = Some t ∧ tk_task_id t = lo_task_id l
       ∧ tk_proposals t !! lo_proposal_index l = Some (lo_record l).

Lemma elem_of_located tasks l : l ∈ located tasks ↔ at_location tasks l.
Proof.
  unfold located, at_location. rewrite list_elem_of_In, in_concat. split.
  - intros (ls & Hls & Hl). apply list_elem_of_In, elem_of_lookup_imap in Hls as (ti & t & -> & Ht).
    apply list_elem_of_In, elem_of_lookup_imap in Hl as (pi & r & -> & Hr). by exists t.
  - intros (t & Ht & Hid & Hr). destruct l as [ti pi id r]. simplify_eq/=.
    exists (imap (λ pi p, mkLocated ti pi (tk_task_id t) p) (tk_proposals t)).
    split; apply list_elem_of_In, elem_of_lookup_imap; eauto.
Qed.

Lemma find_location f tasks l : find f (located tasks) = Some l → at_location tasks l ∧ f l = true.
Proof. intros H%find_some. by rewrite <-elem_of_located, list_elem_of_In. Qed.

(** The same place with another record, as it is found after an update. *)
Definition relocate (l : Located) (r : WorkProposalRecord) : Located :=
  mkLocated (lo_task_index l) (lo_proposal_index l) (lo_task_id l) r.

Lemma at_location_update s l f :
  at_location (ws_tasks s) l →
  at_location (ws_tasks (update_proposal s (lo_task_index l) (lo_proposal_index l) f))
    (relocate l (f (lo_record l))).
Proof.
  intros (t & Ht & Hid & Hr). eexists. simpl. rewrite list_lookup_alter, decide_True, Ht by done.
  split; [done|]. simpl. by rewrite list_lookup_alter, decide_True, Hr by done.
Qed.

(** ** Predicates on all records

    [tasks_ok P]: [P task_id r] holds of every record [r] of every task. *)
Definition tasks_ok (P : string → WorkProposalRecord → Prop) (tasks : list WorkTaskRecord) : Prop :=
  Forall (λ t, Forall (P (tk_task_id t)) (tk_proposals t)) tasks.

Section tasks_ok.
Context (P : string → WorkProposalRecord → Prop).

Lemma tasks_ok_at tasks l : tasks_ok P tasks → at_location tasks l → P (lo_task_id l) (lo_record l).
Proof.
  intros Hok (t & Ht & <- & Hr). unfold tasks_ok in Hok. rewrite Forall_lookup in Hok.
  by apply (Forall_lookup_1 _ _ _ _ (Hok _ _ Ht) Hr).
Qed.

Lemma tasks_ok_update s l f :
  tasks_ok P (ws_tasks s) → at_location (ws_tasks s) l → P (lo_task_id l) (f (lo_record l)) →
  tasks_ok P (ws_tasks (update_proposal s (lo_task_index l) (lo_proposal_index l) f)).
Proof.
  intros Hok (t & Ht & Hid & Hr) Hf. unfold tasks_ok in *. simpl. apply Forall_alter; [exact Hok|].
  intros t' Ht' Hps. simplify_eq. simpl. apply Forall_alter; [exact Hps|]. intros r Hr' _. simplify_eq.
  by rewrite Hid.
Qed.

Lemma tasks_ok_remove s ti pi :
  tasks_ok P (ws_tasks s) → tasks_ok P (ws_tasks (remove_proposal s ti pi)).
Proof.
  intros Hok. unfold tasks_ok in *. simpl. apply Forall_alter; [exact Hok|].
  intros t Ht Hps. by apply Forall_delete.
Qed.

Lemma tasks_ok_evict_all reason ls s :
  tasks_ok P (ws_tasks s) → tasks_ok P (ws_tasks (evict_all reason s ls)).
Proof.
  unfold evict_all. generalize (reverse ls). intros ls'. revert s.
  induction ls' as [|l ls' IH]; intros s Hok; [done|]. apply IH. by apply (tasks_ok_remove s).
Qed.

Lemma tasks_ok_add tasks task_id r now :
  tasks_ok P tasks → P task_id r → tasks_ok P (add_proposal tasks task_id r now).
Proof.
  intros Hok Hr. induction Hok as [|t tasks Ht Hok IH]; simpl.
  - repeat constructor. done.
  - case_decide as Hid; constructor; simpl; try done. apply Forall_app. split; [done|].
    constructor; [by rewrite Hid|constructor].
Qed.
End tasks_ok.

(** ** Provenance

    What the observed candidates must contain for a record to be as it is. *)

(** The state an author transition leads to; an amendment leads to none. *)
Definition author_target (profile : WorkProfile) : option WorkTaskState :=
  match profile with
  | WorkYield _ => Some Yielded
  | WorkSettled _ => Some Settled
  | WorkCompleted _ => Some Completed
  | WorkBlocked _ => Some Blocked
  | _ => None
  end.
Definition intent_scope (p : WorkIntentProfile) : WorkScope :=
  mkWorkScope (wi_paths p) (wi_concerns p) (wi_dependencies p).

Section provenance.
Context (observed : WorkCandidate → Prop).

(** The author of the record moved it to [st]. *)
Definition author_moved (task_id : string) (r : WorkProposalRecord) (st : WorkTaskState) : Prop :=
  ∃ c sequence, observed c ∧ ca_from c = pr_agent r ∧ author_target (ca_profile c) = Some st
                ∧ author_key (ca_profile c) = Some (task_id, pr_intent_message_id r, sequence).

(** The record's intent was proposed. *)
Definition proposed_by (task_id : string) (r : WorkProposalRecord) : Prop :=
  ∃ c p, observed c ∧ ca_profile c = WorkIntent p ∧ ca_message_id c = pr_intent_message_id r
         ∧ wi_task_id p = task_id ∧ wi_agent p = pr_agent r ∧ wi_coordinator p = pr_coordinator r
         ∧ intent_scope p = pr_original_scope r.

(** The decision was sent by the coordinator entitled to it, about this record. *)
Definition decided_by (r : WorkProposalRecord) (d : WorkDecisionRecord) : Prop :=
  ∃ c p, observed c ∧ ca_profile c = WorkDecision p ∧ ca_message_id c = de_message_id d
         ∧ ca_from c = authorized_coordinator r ∧ wd_proposal_message_id p = pr_intent_message_id r
         ∧ wd_kind p = de_kind d ∧ de_coordinator d = authorized_coordinator r.

(** A state the record can be in under its decision. *)
Definition state_under (task_id : string) (r : WorkProposalRecord) (d : WorkDecisionRecord) (st : WorkTaskState)
    : Prop :=
  st = decision_state (de_kind d) ∨ decision_state (de_kind d) = Accepted ∧ author_moved task_id r st.

Record record_ok (task_id : string) (r : WorkProposalRecord) : Prop := {
  ok_intent : proposed_by task_id r;
  ok_undecided : pr_decision r = None → pr_state r = Proposed;
  ok_decided d : pr_decision r = Some d → decided_by r d ∧ state_under task_id r d (pr_state r);
  ok_restore ar : pr_author_restore r = Some ar →
    (∃ c, observed c ∧ ca_message_id c = ar_source_message_id ar ∧ author_key (ca_profile c) ≠ None)
    ∧ (ar_source_message_id ar = pr_source_message_id r →
       ∃ d, pr_decision r = Some d ∧ state_under task_id r d (ar_state ar));
}.

Lemma state_under_decided task_id r d st : state_under task_id r d st → st ≠ Proposed.
Proof.
  intros [->|(_ & c & sequence & _ & _ & Htarget & _)]; [by destruct (de_kind d)|].
  by destruct (ca_profile c); simplify_eq/=.
Qed.

(** A record leaves [Proposed] exactly when it is decided. *)
Lemma ok_state_iff task_id r : record_ok task_id r → pr_state r = Proposed ↔ pr_decision r = None.
Proof.
  intros Hok. split; [|apply (ok_undecided _ _ Hok)]. intros Hst.
  destruct (pr_decision r) as [d|] eqn:Hd; [|done].
  destruct (ok_decided _ _ Hok d Hd) as [_ Hu]. by apply state_under_decided in Hu.
Qed.

(** Candidates with the same id are the same message. *)
Hypothesis ids_unique : ∀ c c', observed c → observed c' → ca_message_id c = ca_message_id c' →
  ca_profile c = ca_profile c'.

(** [step_ok f]: every outcome of the step keeps all records justified. *)
Definition keeps_ok (res : ApplyOutcome * WorkStateFile) : Prop := tasks_ok record_ok (ws_tasks res.2).

Lemma intent_record_ok c p :
  observed c → ca_profile c = WorkIntent p → record_ok (wi_task_id p) (intent_record c p).
Proof. intros Hc Hp. split; simpl; try done. by exists c, p. Qed.

Lemma apply_intent_ok s c p :
  observed c → ca_profile c = WorkIntent p → tasks_ok record_ok (ws_tasks s) → keeps_ok (apply_intent s c p).
Proof.
  intros Hc Hp Hok. unfold apply_intent. destruct (existsb _ _); [done|]. destruct (existsb _ _); [done|].
  set (s1 := evict_all _ _ _). assert (tasks_ok record_ok (ws_tasks s1)) as Hok1 by by apply tasks_ok_evict_all.
  assert (keeps_ok (admit_intent s1 c p)) as Hadmit.
  { unfold admit_intent. case_bool_decide; [done|]. destruct (existsb _ _); [done|].
    set (s2 := evict_all _ _ _). assert (tasks_ok record_ok (ws_tasks s2)) as Hok2 by by apply tasks_ok_evict_all.
    destruct (dependency_creates_cycle _ _ _); [done|]. destruct (negb _ && _); [done|].
    apply tasks_ok_add; [done|]. by apply intent_record_ok. }
  destruct (wi_causal_base p) as [base|]; [|done]. by destruct (base_applied s1 base).
Qed.

Lemma undo_decision_ok task_id r d restore :
  record_ok task_id r → pr_decision r = Some d → pr_source_message_id r = de_message_id d →
  record_ok task_id (undo_decision restore r).
Proof using ids_unique.
  intros Hok Hd Hsource. destruct (ok_decided _ _ Hok d Hd) as [(c & p & Hc & Hp & Hid & _) _].
  split; simpl; try done; [apply (ok_intent _ _ Hok)|].
  intros ar Har. destruct (ok_restore _ _ Hok ar Har) as [(c' & Hc' & Hid' & Hkey) _]. split; [by exists c'|].
  intros Heq. destruct Hkey. rewrite (ids_unique c' c); [by rewrite Hp|done..|congruence].
Qed.

Lemma decide_record_ok task_id r c p :
  observed c → ca_profile c = WorkDecision p → ca_from c = authorized_coordinator r →
  wd_proposal_message_id p = pr_intent_message_id r → record_ok task_id r →
  record_ok task_id (decide_record c (authorized_coordinator r) (wd_kind p) r).
Proof using ids_unique.
  intros Hc Hp Hfrom Hprop Hok. split; simpl; [apply (ok_intent _ _ Hok)|done| |].
  - intros d [= <-]. split; [by exists c, p|by left].
  - intros ar Har. destruct (ok_restore _ _ Hok ar Har) as [(c' & Hc' & Hid' & Hkey) _]. split; [by exists c'|].
    intros Heq. destruct Hkey. rewrite (ids_unique c' c); [by rewrite Hp|done..|congruence].
Qed.

Lemma prepare_decision_ok s c l :
  tasks_ok record_ok (ws_tasks s) → at_location (ws_tasks s) l →
  match prepare_decision s c l with
  | inl res => keeps_ok res
  | inr (s', r') =>
      tasks_ok record_ok (ws_tasks s') ∧ at_location (ws_tasks s') (relocate l r')
      ∧ authorized_coordinator r' = authorized_coordinator (lo_record l)
      ∧ pr_intent_message_id r' = pr_intent_message_id (lo_record l)
  end.
Proof using ids_unique.
  intros Hok Hl. unfold prepare_decision. case_decide; [by destruct l|].
  destruct (pr_decision (lo_record l)) as [d|] eqn:Hd; [|done]. case_bool_decide; [done|].
  destruct (bool_decide _ && bool_decide _) eqn:Hb; [|done].
  apply andb_true_iff in Hb as [_ Hsource%bool_decide_eq_true].
  set (s1 := add_evidence _ _ _ _). set (r' := undo_decision _ _).
  assert (record_ok (lo_task_id l) r') as Hr'.
  { eapply undo_decision_ok; [by apply (tasks_ok_at _ _ _ Hok)|done..]. }
  split; [by apply (tasks_ok_update _ s1)|]. split; [by apply (at_location_update s1 l (λ _, r'))|done].
Qed.

Lemma apply_decision_ok s c p :
  observed c → ca_profile c = WorkDecision p → tasks_ok record_ok (ws_tasks s) → keeps_ok (apply_decision s c p).
Proof using ids_unique.
  intros Hc Hp Hok. unfold apply_decision.
  destruct (find_proposal_by_intent_index _ _) as [l|] eqn:Hfind; [|done].
  apply find_location in Hfind as [Hl Hid%String.eqb_eq].
  destruct (String.eqb_spec (ca_from c) (authorized_coordinator (lo_record l))) as [Hfrom|]; [simpl|done].
  pose proof (prepare_decision_ok s c l Hok Hl) as Hprep.
  destruct (prepare_decision s c l) as [res|[s' r']]; [done|]. destruct Hprep as (Hok' & Hl' & Hauth & Hint).
  destruct (decision_rejection _ _ _ _); [done|]. unfold keeps_ok. simpl. rewrite <-Hauth in *.
  apply (tasks_ok_update _ _ (relocate l r')); [done..|]. apply decide_record_ok; try done; [simpl; congruence|].
  by apply (tasks_ok_at _ _ _ Hok' Hl').
Qed.

Lemma undo_author_ok task_id r ar :
  record_ok task_id r → pr_author_restore r = Some ar → ar_source_message_id ar = pr_source_message_id r →
  record_ok task_id (undo_author ar r).
Proof.
  intros Hok Har Hsource. destruct (ok_restore _ _ Hok ar Har) as [_ Hrestore].
  destruct (Hrestore Hsource) as (d & Hd & Hst). split; simpl; [apply (ok_intent _ _ Hok)|congruence| |done].
  intros d' Hd'. simplify_eq. split; [apply (ok_decided _ _ Hok d Hd)|done].
Qed.

Lemma prepare_author_ok s c l task_id sequence :
  tasks_ok record_ok (ws_tasks s) → at_location (ws_tasks s) l →
  match prepare_author s c l task_id sequence with
  | inl res => keeps_ok res
  | inr (s', r') =>
      tasks_ok record_ok (ws_tasks s') ∧ at_location (ws_tasks s') (relocate l r') ∧ ca_from c = pr_agent r'
      ∧ pr_intent_message_id r' = pr_intent_message_id (lo_record l)
  end.
Proof.
  intros Hok Hl. unfold prepare_author.
  destruct (String.eqb_spec (ca_from c) (pr_agent (lo_record l))) as [Hfrom|]; [simpl|done].
  destruct (sequence <? _); [done|]. destruct (sequence =? _); [|by destruct l].
  case_bool_decide; [done|]. case_bool_decide; [|done].
  destruct (pr_author_restore (lo_record l)) as [ar|] eqn:Har; [|done]. case_bool_decide as Hsource; [|done].
  set (s1 := add_evidence _ _ _ _). set (r' := undo_author _ _).
  assert (record_ok (lo_task_id l) r') as Hr'.
  { eapply undo_author_ok; [by apply (tasks_ok_at _ _ _ Hok)|done..]. }
  split; [by apply (tasks_ok_update _ s1)|]. split; [by apply (at_location_update s1 l (λ _, r'))|done].
Qed.

(** The states an author transition leaves: the record was accepted and is not [Proposed]. *)
Lemma transition_from st profile :
  author_key profile ≠ None → transition_rejection (Some st) profile = None →
  st = Accepted ∨ st = Yielded ∨ st = Settled.
Proof. destruct profile, st; naive_solver. Qed.

Lemma state_under_accepted task_id r d st :
  state_under task_id r d st → st = Accepted ∨ st = Yielded ∨ st = Settled →
  decision_state (de_kind d) = Accepted.
Proof. intros [->|[? _]] Hst; [|done]. destruct (de_kind d); naive_solver. Qed.

(** The last match changes neither the record's identity nor its decision. *)
Lemma transition_record_fields r c sequence profile :
  author_key profile ≠ None →
  let r' := transition_record c sequence profile r in
  pr_agent r' = pr_agent r ∧ pr_intent_message_id r' = pr_intent_message_id r
  ∧ pr_coordinator r' = pr_coordinator r ∧ pr_original_scope r' = pr_original_scope r
  ∧ pr_decision r' = pr_decision r ∧ pr_state r' = default (pr_state r) (author_target profile)
  ∧ pr_author_restore r' = Some (capture c r) ∧ pr_source_message_id r' = ca_message_id c.
Proof. by destruct profile. Qed.

Lemma transition_record_ok task_id r c sequence :
  observed c → ca_from c = pr_agent r →
  author_key (ca_profile c) = Some (task_id, pr_intent_message_id r, sequence) →
  transition_rejection (Some (pr_state r)) (ca_profile c) = None → record_ok task_id r →
  record_ok task_id (transition_record c sequence (ca_profile c) r).
Proof.
  intros Hc Hfrom Hkey Hrej Hok. assert (author_key (ca_profile c) ≠ None) as Hauthor by by rewrite Hkey.
  pose proof (transition_from _ _ Hauthor Hrej) as Hst.
  destruct (pr_decision r) as [d|] eqn:Hd; [|rewrite (ok_undecided _ _ Hok Hd) in Hst; naive_solver].
  destruct (ok_decided _ _ Hok d Hd) as [Hby Hu]. pose proof (state_under_accepted _ _ _ _ Hu Hst) as Hacc.
  destruct (transition_record_fields r c sequence (ca_profile c) Hauthor)
    as (Ha & Hi & Hco & Hsc & Hde & Hs & Hre & Hso).
  assert (∀ st, state_under task_id r d st →
                state_under task_id (transition_record c sequence (ca_profile c) r) d st) as Hmono.
  { intros st. unfold state_under, author_moved. by rewrite Ha, Hi. }
  split.
  - unfold proposed_by. rewrite Ha, Hi, Hco, Hsc. apply (ok_intent _ _ Hok).
  - congruence.
  - intros d' Hd'. rewrite Hde in Hd'. simplify_eq. unfold decided_by, authorized_coordinator. rewrite Ha, Hi, Hco.
    split; [done|]. rewrite Hs. destruct (author_target (ca_profile c)) as [st|] eqn:Ht; [|by apply Hmono].
    right. split; [done|]. exists c, sequence. by rewrite Ha, Hi.
  - intros ar Har. rewrite Hre in Har. simplify_eq. split; [by exists c|]. intros _. exists d. split; [congruence|].
    by apply Hmono.
Qed.

Lemma apply_author_ok s c :
  observed c → tasks_ok record_ok (ws_tasks s) → keeps_ok (apply_author_transition s c (ca_profile c)).
Proof.
  intros Hc Hok. unfold apply_author_transition.
  destruct (author_key (ca_profile c)) as [[[task_id intent] sequence]|] eqn:Hkey; [|done].
  destruct (find_proposal_mut _ _ _) as [l|] eqn:Hfind; [|done].
  apply find_location in Hfind as [Hl [<-%String.eqb_eq <-%String.eqb_eq]%andb_true_iff].
  pose proof (prepare_author_ok s c l (lo_task_id l) sequence Hok Hl) as Hprep.
  destruct (prepare_author s c l _ sequence) as [res|[s' r']]; [done|]. destruct Hprep as (Hok' & Hl' & Hfrom & Hint).
  destruct (transition_rejection _ _) eqn:Hrej; [by destruct (premature_for_state _ _)|].
  destruct (amendment_allowed _ _); [|done]. apply (tasks_ok_update _ _ (relocate l r')); [done..|].
  apply transition_record_ok; try done; [|by apply (tasks_ok_at _ _ _ Hok' Hl')]. simpl. congruence.
Qed.

Lemma supersede_record_ok task_id r c p :
  observed c → ca_profile c = WorkSuperseded p → record_ok task_id r →
  record_ok task_id (supersede_record c p r).
Proof using ids_unique.
  intros Hc Hp Hok. split; simpl; try done; [apply (ok_intent _ _ Hok)|].
  intros ar Har. destruct (ok_restore _ _ Hok ar Har) as [(c' & Hc' & Hid' & Hkey) _]. split; [by exists c'|].
  intros Heq. destruct Hkey. rewrite (ids_unique c' c); [by rewrite Hp|done..|congruence].
Qed.

Lemma apply_superseded_ok s c p :
  observed c → ca_profile c = WorkSuperseded p → tasks_ok record_ok (ws_tasks s) →
  keeps_ok (apply_superseded s c p).
Proof using ids_unique.
  intros Hc Hp Hok. unfold apply_superseded. destruct (find_proposal_mut _ _ _) as [l|] eqn:Hfind; [|done].
  apply find_location in Hfind as [Hl _]. destruct (negb _); [done|]. destruct (negb _); [done|].
  destruct (pr_decision (lo_record l)); [|by case_bool_decide]. destruct (negb _); [done|].
  apply tasks_ok_update; [done..|]. eapply supersede_record_ok; try done. by apply (tasks_ok_at _ _ _ Hok Hl).
Qed.

Lemma apply_transition_ok s c :
  observed c → tasks_ok record_ok (ws_tasks s) → keeps_ok (apply_transition s c).
Proof using ids_unique.
  intros Hc Hok. unfold apply_transition. pose proof (apply_author_ok s c Hc Hok) as Hauthor.
  destruct (ca_profile c) as [p|p| | | | | |p] eqn:Hp; try done;
    [by apply apply_intent_ok|by apply apply_decision_ok|by apply apply_superseded_ok].
Qed.
End provenance.

(** ** Identity of tasks and proposals

    Only intents change which tasks and proposals there are. *)
Definition task_ids (tasks : list WorkTaskRecord) : list string := tk_task_id <$> tasks.
Definition intents (tasks : list WorkTaskRecord) : list string :=
  concat ((λ t, pr_intent_message_id <$> tk_proposals t) <$> tasks).

Definition keeps_identities (tasks tasks' : list WorkTaskRecord) : Prop :=
  task_ids tasks' = task_ids tasks ∧ intents tasks' = intents tasks.

Lemma fmap_alter_same {A B} (f : A → B) (g : A → A) (l : list A) (i : nat) :
  (∀ x, l !! i = Some x → f (g x) = f x) → f <$> alter g i l = f <$> l.
Proof. revert i. induction l as [|x l IH]; intros [|i] H; f_equal/=; auto. Qed.

Lemma identities_update s l f :
  at_location (ws_tasks s) l → pr_intent_message_id (f (lo_record l)) = pr_intent_message_id (lo_record l) →
  keeps_identities (ws_tasks s) (ws_tasks (update_proposal s (lo_task_index l) (lo_proposal_index l) f)).
Proof.
  intros (t & Ht & Hid & Hr) Hf. split; [by apply fmap_alter_same|].
  unfold intents. simpl. f_equal. apply fmap_alter_same. intros t' Ht'. simplify_eq. simpl.
  apply fmap_alter_same. intros r Hr'. by simplify_eq.
Qed.

Lemma identities_trans a b c : keeps_identities a b → keeps_identities b c → keeps_identities a c.
Proof. intros [] []. split; congruence. Qed.

Lemma prepare_decision_identities s c l :
  at_location (ws_tasks s) l →
  match prepare_decision s c l with
  | inl (_, s') => keeps_identities (ws_tasks s) (ws_tasks s')
  | inr (s', r') =>
      keeps_identities (ws_tasks s) (ws_tasks s') ∧ at_location (ws_tasks s') (relocate l r')
  end.
Proof.
  intros Hl. unfold prepare_decision. case_decide; [by destruct l|].
  destruct (pr_decision (lo_record l)) as [d|]; [|done]. case_bool_decide; [done|].
  destruct (_ && _); [|done]. set (s1 := add_evidence _ _ _ _). set (r' := undo_decision _ _).
  split; [by apply (identities_update s1)|by apply (at_location_update s1 l (λ _, r'))].
Qed.

Lemma apply_decision_identities s c p : keeps_identities (ws_tasks s) (ws_tasks (apply_decision s c p).2).
Proof.
  unfold apply_decision. destruct (find_proposal_by_intent_index _ _) as [l|] eqn:Hfind; [|done].
  apply find_location in Hfind as [Hl _]. destruct (negb _); [done|].
  pose proof (prepare_decision_identities s c l Hl) as Hprep.
  destruct (prepare_decision s c l) as [[o s']|[s' r']]; [done|]. destruct Hprep as [Hids Hl'].
  destruct (decision_rejection _ _ _ _); [done|]. eapply identities_trans; [done|].
  by apply (identities_update s' (relocate l r')).
Qed.

Lemma prepare_author_identities s c l task_id sequence :
  at_location (ws_tasks s) l →
  match prepare_author s c l task_id sequence with
  | inl (_, s') => keeps_identities (ws_tasks s) (ws_tasks s')
  | inr (s', r') =>
      keeps_identities (ws_tasks s) (ws_tasks s') ∧ at_location (ws_tasks s') (relocate l r')
  end.
Proof.
  intros Hl. unfold prepare_author. destruct (negb _); [done|]. destruct (_ <? _); [done|].
  destruct (_ =? _); [|by destruct l]. case_bool_decide; [done|]. case_bool_decide; [|done].
  destruct (pr_author_restore _) as [ar|]; [|done]. case_bool_decide; [|done].
  set (s1 := add_evidence _ _ _ _). set (r' := undo_author _ _).
  split; [by apply (identities_update s1)|by apply (at_location_update s1 l (λ _, r'))].
Qed.

Lemma apply_author_identities s c profile :
  keeps_identities (ws_tasks s) (ws_tasks (apply_author_transition s c profile).2).
Proof.
  unfold apply_author_transition. destruct (author_key profile) as [[[task_id intent] sequence]|] eqn:Hkey; [|done].
  destruct (find_proposal_mut _ _ _) as [l|] eqn:Hfind; [|done]. apply find_location in Hfind as [Hl _].
  pose proof (prepare_author_identities s c l task_id sequence Hl) as Hprep.
  destruct (prepare_author s c l task_id sequence) as [[o s']|[s' r']]; [done|]. destruct Hprep as [Hids Hl'].
  destruct (transition_rejection _ _); [by destruct (premature_for_state _ _)|].
  destruct (amendment_allowed _ _); [|done]. eapply identities_trans; [done|].
  apply (identities_update s' (relocate l r')); [done|]. apply transition_record_fields. by rewrite Hkey.
Qed.

Lemma apply_superseded_identities s c p : keeps_identities (ws_tasks s) (ws_tasks (apply_superseded s c p).2).
Proof.
  unfold apply_superseded. destruct (find_proposal_mut _ _ _) as [l|] eqn:Hfind; [|done].
  apply find_location in Hfind as [Hl _]. destruct (negb _); [done|]. destruct (negb _); [done|].
  destruct (pr_decision (lo_record l)); [|by case_bool_decide]. destruct (negb _); [done|].
  by apply identities_update.
Qed.

(** Removing proposals keeps the tasks and leaves fewer intents. *)
Lemma remove_identities s ti pi :
  task_ids (ws_tasks (remove_proposal s ti pi)) = task_ids (ws_tasks s)
  ∧ intents (ws_tasks (remove_proposal s ti pi)) `sublist_of` intents (ws_tasks s).
Proof.
  split; [by apply fmap_alter_same|]. unfold intents. simpl. generalize (ws_tasks s). intros tasks. revert ti.
  induction tasks as [|t tasks IH]; intros [|ti]; simpl; try done.
  - apply sublist_app; [|done]. rewrite list_fmap_delete. apply sublist_delete.
  - apply sublist_app; [done|]. apply IH.
Qed.

Lemma evict_all_identities reason ls s :
  task_ids (ws_tasks (evict_all reason s ls)) = task_ids (ws_tasks s)
  ∧ intents (ws_tasks (evict_all reason s ls)) `sublist_of` intents (ws_tasks s).
Proof.
  unfold evict_all. generalize (reverse ls). intros ls'. revert s. induction ls' as [|l ls' IH]; intros s; [done|].
  destruct (IH (evict reason s l)) as [Ht Hi].
  destruct (remove_identities s (lo_task_index l) (lo_proposal_index l)) as [Ht' Hi'].
  split; [by etrans|by etrans].
Qed.

Lemma add_identities tasks task_id r now :
  intents (add_proposal tasks task_id r now) ≡ₚ pr_intent_message_id r :: intents tasks
  ∧ task_ids (add_proposal tasks task_id r now)
    = if decide (task_id ∈ task_ids tasks) then task_ids tasks else task_ids tasks ++ [task_id].
Proof.
  induction tasks as [|t tasks [IHi IHt]]; simpl; [done|]. unfold intents, task_ids in *.
  destruct (decide (tk_task_id t = task_id)) as [<-|Hne]; simpl.
  - split; [|by rewrite decide_True by left]. rewrite fmap_app, <-app_assoc. simpl. by rewrite Permutation_middle.
  - split; [by rewrite IHi, Permutation_middle|]. change (tk_task_id t :: (tk_task_id <$> add_proposal tasks task_id r now) =
      if decide (task_id ∈ tk_task_id t :: (tk_task_id <$> tasks)) then tk_task_id t :: (tk_task_id <$> tasks)
      else tk_task_id t :: (tk_task_id <$> tasks) ++ [task_id]). rewrite IHt.
    repeat case_decide; set_solver.
Qed.

(** Task ids and intents are pairwise distinct, and the tasks are bounded. *)
Record tasks_distinct (tasks : list WorkTaskRecord) : Prop := {
  di_tasks : NoDup (task_ids tasks);
  di_intents : NoDup (intents tasks);
  di_bound : zlen tasks ≤ WORK_MAX_ACTIVE_TASKS + WORK_MAX_TERMINAL_TASKS;
}.

Lemma zlen_task_ids tasks : zlen tasks = zlen (task_ids tasks).
Proof. unfold zlen, task_ids. by rewrite length_fmap. Qed.

Lemma keeps_identities_distinct tasks tasks' :
  keeps_identities tasks tasks' → tasks_distinct tasks → tasks_distinct tasks'.
Proof. intros [Ht Hi] [? ? Hb]. split; [by rewrite Ht|by rewrite Hi|]. by rewrite zlen_task_ids, Ht, <-zlen_task_ids. Qed.

Lemma evict_all_distinct reason ls s :
  tasks_distinct (ws_tasks s) → tasks_distinct (ws_tasks (evict_all reason s ls)).
Proof.
  intros [? ? Hb]. destruct (evict_all_identities reason ls s) as [Ht Hi]. split; [by rewrite Ht| |].
  - by eapply sublist_NoDup.
  - by rewrite zlen_task_ids, Ht, <-zlen_task_ids.
Qed.

Lemma elem_of_intents tasks id :
  id ∈ intents tasks ↔ ∃ l, l ∈ located tasks ∧ pr_intent_message_id (lo_record l) = id.
Proof.
  unfold intents. rewrite list_elem_of_In, in_concat. split.
  - intros (ids & Hids & Hid). apply list_elem_of_In, list_elem_of_fmap in Hids as (t & -> & Ht).
    apply list_elem_of_In, list_elem_of_fmap in Hid as (r & -> & Hr).
    apply list_elem_of_lookup in Ht as [ti Ht]. apply list_elem_of_lookup in Hr as [pi Hr].
    exists (mkLocated ti pi (tk_task_id t) r). split; [|done]. apply elem_of_located. by exists t.
  - intros (l & (t & Ht & _ & Hr)%elem_of_located & <-).
    exists (pr_intent_message_id <$> tk_proposals t). split; apply list_elem_of_In.
    + apply (list_elem_of_fmap_2 (λ t, pr_intent_message_id <$> tk_proposals t)). by eapply list_elem_of_lookup_2.
    + apply list_elem_of_fmap_2. by eapply list_elem_of_lookup_2.
Qed.

Lemma add_distinct tasks task_id r now :
  tasks_distinct tasks → pr_intent_message_id r ∉ intents tasks →
  task_id ∈ task_ids tasks ∨ zlen tasks < WORK_MAX_ACTIVE_TASKS + WORK_MAX_TERMINAL_TASKS →
  tasks_distinct (add_proposal tasks task_id r now).
Proof.
  intros [Hnt Hni Hb] Hfresh Hroom. destruct (add_identities tasks task_id r now) as [Hi Ht].
  split; [|by rewrite Hi, NoDup_cons|].
  - rewrite Ht. case_decide; [done|]. apply NoDup_app. split; [done|]. split; [set_solver|apply NoDup_singleton].
  - rewrite zlen_task_ids in *. rewrite Ht. case_decide; [done|]. rewrite zlen_app. change (zlen [task_id]) with 1.
    destruct Hroom; [done|]. lia.
Qed.

Section distinct.
Context (observed : WorkCandidate → Prop).
Hypothesis ids_unique : ∀ c c', observed c → observed c' → ca_message_id c = ca_message_id c' →
  ca_profile c = ca_profile c'.

(** An intent that is not a duplicate in its own chain is new altogether. *)
Lemma intent_is_new tasks c p :
  observed c → ca_profile c = WorkIntent p → tasks_ok (record_ok observed) tasks →
  existsb (λ l, String.eqb (pr_intent_message_id (lo_record l)) (ca_message_id c)) (own_chain tasks p) = false →
  ca_message_id c ∉ intents tasks.
Proof using ids_unique.
  intros Hc Hp Hok Hdup (l & Hl & Hid)%elem_of_intents. apply not_true_iff_false in Hdup. destruct Hdup.
  apply existsb_exists. exists l. rewrite String.eqb_eq. split; [|done]. apply list_elem_of_In, list_elem_of_filter.
  pose proof Hl as Hat. rewrite elem_of_located in Hat.
  destruct (ok_intent _ _ _ (tasks_ok_at _ _ _ Hok Hat)) as (c' & p' & Hc' & Hp' & Hid' & Htask & Hagent & _).
  rewrite (ids_unique c' c), Hp in Hp'; [|done..|congruence]. by simplify_eq.
Qed.

Lemma apply_intent_distinct s c p :
  observed c → ca_profile c = WorkIntent p → tasks_ok (record_ok observed) (ws_tasks s) →
  tasks_distinct (ws_tasks s) → tasks_distinct (ws_tasks (apply_intent s c p).2).
Proof using ids_unique.
  intros Hc Hp Hok Hd. unfold apply_intent. destruct (existsb _ (own_chain _ _)) eqn:Hdup; [done|].
  pose proof (intent_is_new _ _ _ Hc Hp Hok Hdup) as Hnew. destruct (existsb _ (filter _ _)); [done|].
  set (s1 := evict_all _ _ _). assert (tasks_distinct (ws_tasks s1)) as Hd1 by by apply evict_all_distinct.
  assert (ca_message_id c ∉ intents (ws_tasks s1)) as Hnew1.
  { contradict Hnew. eapply sublist_subseteq; [apply evict_all_identities|exact Hnew]. }
  clear Hdup Hnew Hok Hd.
  assert (tasks_distinct (ws_tasks (admit_intent s1 c p).2)) as Hadmit.
  { unfold admit_intent. case_bool_decide; [done|]. destruct (existsb _ _); [done|].
    set (s2 := evict_all _ _ _). assert (tasks_distinct (ws_tasks s2)) as Hd2 by by apply evict_all_distinct.
    destruct (dependency_creates_cycle _ _ _); [done|]. destruct (negb _ && _) eqn:Hroom; [done|].
    apply add_distinct; [done| |].
    - contradict Hnew1. eapply sublist_subseteq; [apply evict_all_identities|exact Hnew1].
    - apply andb_false_iff in Hroom as [Hex%negb_false_iff|?%Z.leb_gt]; [left|by right].
      apply existsb_exists in Hex as (t & Ht%list_elem_of_In & <-%String.eqb_eq). by apply list_elem_of_fmap_2. }
  destruct (wi_causal_base p) as [base|]; [|done]. by destruct (base_applied s1 base).
Qed.

Lemma apply_transition_distinct s c :
  observed c → tasks_ok (record_ok observed) (ws_tasks s) → tasks_distinct (ws_tasks s) →
  tasks_distinct (ws_tasks (apply_transition s c).2).
Proof using ids_unique.
  intros Hc Hok Hd. unfold apply_transition. pose proof (apply_author_identities s c (ca_profile c)) as Hauthor.
  destruct (ca_profile c) as [p|p| | | | | |p] eqn:Hp;
    try (by eapply keeps_identities_distinct; [exact Hauthor|]).
  - by apply apply_intent_distinct.
  - eapply keeps_identities_distinct; [apply apply_decision_identities|done].
  - eapply keeps_identities_distinct; [apply apply_superseded_identities|done].
Qed.
End distinct.
