(* ===== verification/WorkBatch.v ===== *)
(** * Work intents: batches

    A batch of messages always settles or keeps each candidate, ends after at most one pass per
    candidate, leaves the retained state within its bounds and preserves what the single
    transitions preserve. *)
From Stdlib Require Import ZArith Lia Ascii Strings.Byte.
From stdpp Require Import sorting numbers strings gmap list_numbers list options.
From S2P Require Import Prelude Text Paths WorkContract AgentContract WorkReducer WorkReducerProps.

Local Open Scope Z_scope.

(** ** Sublists *)
Lemma sublist_Forall {A} (P : A → Prop) l k : l `sublist_of` k → Forall P k → Forall P l.
Proof. intros Hsub Hk. rewrite Forall_forall in *. intros x Hx. apply Hk. by eapply sublist_subseteq. Qed.

Lemma sublist_sorted {A} (R : relation A) l k : l `sublist_of` k → StronglySorted R k → StronglySorted R l.
Proof.
  induction 1 as [|x l k Hsub IH|x l k Hsub IH]; intros Hk; [done|..]; inversion_clear Hk; [|by apply IH].
  constructor; [by apply IH|]. by eapply sublist_Forall.
Qed.

Lemma submseteq_NoDup {A} (l k : list A) : l ⊆+ k → NoDup k → NoDup l.
Proof. intros [k' ->]%submseteq_Permutation Hnd. by apply NoDup_app in Hnd as [? _]. Qed.

(** ** Trimming *)
Definition picks {A} (pick : list A → option nat) : Prop :=
  ∀ l, l ≠ [] → ∃ i, pick l = Some i ∧ (i < length l)%nat.

Lemma max_index_picks {A} (lt : A → A → bool) : picks (max_index lt).
Proof.
  intros [|x l] Hl; [done|]. eexists. split; [done|]. clear Hl. simpl.
  assert (∀ (b : nat * A) i, (b.1 < i)%nat → (max_index_from lt b i l < i + length l)%nat) as Hmax.
  { induction l as [|y l IH]; intros b i Hb; simpl; [lia|].
    specialize (IH (if lt y b.2 then b else (i, y)) (S i)). destruct (lt y b.2); simpl in *; lia. }
  specialize (Hmax (0%nat, x) 1%nat). simpl in Hmax. lia.
Qed.

Lemma min_index_picks {A} (lt : A → A → bool) : picks (min_index lt).
Proof.
  intros [|x l] Hl; [done|]. eexists. split; [done|]. clear Hl. simpl.
  assert (∀ (b : nat * A) i, (b.1 < i)%nat → (min_index_from lt b i l < i + length l)%nat) as Hmin.
  { induction l as [|y l IH]; intros b i Hb; simpl; [lia|].
    specialize (IH (if lt y b.2 then (i, y) else b) (S i)). destruct (lt y b.2); simpl in *; lia. }
  specialize (Hmin (0%nat, x) 1%nat). simpl in Hmin. lia.
Qed.
#[export] Hint Resolve max_index_picks min_index_picks : core.

Section trim.
Context {A : Type} (pick : list A → option nat) (Hpick : picks pick).

(** What is kept and what is removed make up the list. *)
Lemma trim_to_perm fuel maximum l :
  let '(kept, removed) := trim_to fuel maximum pick l in kept ++ removed ≡ₚ l.
Proof using Hpick.
  revert l. induction fuel as [|fuel IH]; intros l; simpl; [by rewrite app_nil_r|].
  destruct (maximum <? zlen l); [|by rewrite app_nil_r].
  destruct (pick l) as [i|] eqn:Hi; [|by rewrite app_nil_r].
  specialize (IH (delete i l)). destruct (trim_to fuel maximum pick (delete i l)) as [kept removed].
  destruct (l !! i) as [x|] eqn:Hx; simpl.
  - rewrite <-Permutation_middle, IH. symmetry. by apply delete_Permutation.
  - apply lookup_ge_None in Hx. by rewrite IH, delete_take_drop, take_ge, drop_ge, app_nil_r by lia.
Qed.

Lemma trim_to_Forall fuel maximum l (P : A → Prop) : Forall P l → Forall P (trim_to fuel maximum pick l).1.
Proof using Hpick.
  intros Hl. pose proof (trim_to_perm fuel maximum l) as Hp.
  destruct (trim_to fuel maximum pick l) as [kept removed]. rewrite <-Hp, Forall_app in Hl. apply Hl.
Qed.

Lemma trim_to_bound fuel maximum l :
  0 ≤ maximum → (length l ≤ fuel)%nat → zlen (trim_to fuel maximum pick l).1 ≤ maximum.
Proof using Hpick.
  intros H0. revert l. induction fuel as [|fuel IH]; intros l Hl.
  { destruct l; simpl in *; [unfold zlen; simpl; lia|lia]. }
  simpl. destruct (Z.ltb_spec maximum (zlen l)); [|done].
  destruct (Hpick l) as (i & Hi & Hlt); [intros ->; unfold zlen in *; simpl in *; lia|]. rewrite Hi.
  specialize (IH (delete i l)). destruct (trim_to fuel maximum pick (delete i l)) as [kept removed].
  simpl in *. apply IH. rewrite length_delete; [lia|]. by apply lookup_lt_is_Some.
Qed.

(** No more is removed than exceeds the bound. *)
Lemma trim_to_removed fuel maximum l :
  0 ≤ maximum → (length l ≤ fuel)%nat → zlen (trim_to fuel maximum pick l).2 = Z.max 0 (zlen l - maximum).
Proof using Hpick.
  intros H0. revert l. induction fuel as [|fuel IH]; intros l Hl.
  { destruct l; simpl in *; [unfold zlen; simpl; lia|lia]. }
  simpl. destruct (Z.ltb_spec maximum (zlen l)); [|simpl; unfold zlen in *; simpl; lia].
  destruct (Hpick l) as (i & Hi & Hlt); [intros ->; unfold zlen in *; simpl in *; lia|]. rewrite Hi.
  destruct (lookup_lt_is_Some_2 l i Hlt) as [x Hx]. specialize (IH (delete i l)).
  assert (length (delete i l) = (length l - 1)%nat) as Hd by (rewrite length_delete by eauto; lia).
  destruct (trim_to fuel maximum pick (delete i l)) as [kept removed]. rewrite Hx. simpl in *. rewrite zlen_cons, IH by lia.
  unfold zlen in *. rewrite Hd. lia.
Qed.
End trim.

(** ** Passes *)
Section passes.
Context (I : WorkStateFile → Prop) (C : WorkCandidate → Prop).
Hypothesis settle_preserves : ∀ acc c, C c → I (ps_state acc) → I (ps_state (settle acc c)).

Lemma settle_remaining acc c :
  ps_remaining (settle acc c) = ps_remaining acc ∨ ps_remaining (settle acc c) = c :: ps_remaining acc.
Proof. unfold settle. destruct (apply_transition _ _) as [[| | |] s]; simpl; auto. Qed.

Lemma pass_invariant s settled candidates :
  I s → Forall C candidates →
  I (ps_state (pass s settled candidates)) ∧ Forall C (ps_remaining (pass s settled candidates)).
Proof using settle_preserves.
  unfold pass. intros Hs Hcs.
  assert (I (ps_state (mkPass s [] settled false)) ∧ Forall C (ps_remaining (mkPass s [] settled false)))
    as Hacc by (split; [done|constructor]).
  revert Hacc. generalize (mkPass s [] settled false). induction Hcs as [|c cs Hc Hcs IH]; intros acc [HI HC]; [done|].
  apply IH. split; [by apply settle_preserves|].
  destruct (settle_remaining acc c) as [->| ->]; [done|by constructor].
Qed.

Lemma passes_invariant fuel s settled candidates p :
  I s → Forall C candidates → passes fuel s settled candidates = Some p →
  I (ps_state p) ∧ Forall C (ps_remaining p).
Proof using settle_preserves.
  revert s settled candidates. induction fuel as [|fuel IH]; intros s settled candidates Hs Hcs Hp; [done|].
  simpl in Hp. destruct (pass_invariant s settled candidates Hs Hcs) as [HI HC].
  destruct (negb _ || _); [by simplify_eq|]. apply (IH _ _ _ HI) in Hp; [done|].
  by rewrite reverse_Permutation.
Qed.
End passes.

Lemma settle_count acc c :
  (ps_settled (settle acc c) + length (ps_remaining (settle acc c))
   = S (ps_settled acc + length (ps_remaining acc)))%nat.
Proof. unfold settle. destruct (apply_transition _ _) as [[| | |] s]; simpl; lia. Qed.

Lemma settle_settled acc c : (ps_settled acc ≤ ps_settled (settle acc c))%nat.
Proof. unfold settle. destruct (apply_transition _ _) as [[| | |] s]; simpl; lia. Qed.

(** Every candidate of a pass is settled or remains. *)
Lemma pass_count s settled candidates :
  let p := pass s settled candidates in
  (ps_settled p + length (ps_remaining p) = settled + length candidates)%nat.
Proof.
  unfold pass. simpl. transitivity (ps_settled (mkPass s [] settled false)
    + length (ps_remaining (mkPass s [] settled false)) + length candidates)%nat; [|simpl; lia].
  generalize (mkPass s [] settled false). induction candidates as [|c cs IH]; intros acc; simpl; [lia|].
  rewrite IH, settle_count. lia.
Qed.

(** Which candidates a pass settles: those whose transition, when their turn comes, does not wait. *)
Definition answered (c : WorkCandidate) : Prop := ∃ s, (apply_transition s c).1 ≠ Pending.
Definition waiting (c : WorkCandidate) : Prop := ∃ s, (apply_transition s c).1 = Pending.
Lemma pass_split s settled candidates :
  let p := pass s settled candidates in
  ∃ done, candidates ≡ₚ done ++ ps_remaining p ∧ ps_settled p = (settled + length done)%nat
    ∧ Forall answered done ∧ Forall waiting (ps_remaining p).
Proof.
  unfold pass. simpl. assert (∀ acc, Forall waiting (ps_remaining acc) → ∃ done,
    candidates ++ ps_remaining acc ≡ₚ done ++ ps_remaining (foldl settle acc candidates)
    ∧ ps_settled (foldl settle acc candidates) = (ps_settled acc + length done)%nat
    ∧ Forall answered done ∧ Forall waiting (ps_remaining (foldl settle acc candidates))) as Hfold.
  { induction candidates as [|c cs IH]; intros acc Hw; simpl.
    { exists []. simpl. split; [done|]. split; [lia|]. by split; [constructor|]. }
    destruct (apply_transition (ps_state acc) c) as [outcome s'] eqn:Ht.
    assert (outcome = Pending ∨ outcome ≠ Pending) as [->|Ho] by (destruct outcome; auto).
    - assert (ps_remaining (settle acc c) = c :: ps_remaining acc ∧ ps_settled (settle acc c) = ps_settled acc) as [Hr Hs]
        by (unfold settle; by rewrite Ht).
      destruct (IH (settle acc c)) as (done & Hp & Hn & Hd & Hw').
      { rewrite Hr. constructor; [|done]. exists (ps_state acc). by rewrite Ht. }
      exists done. rewrite Hr in Hp. rewrite Hs in Hn. split; [|done]. by rewrite <-Hp, Permutation_middle.
    - assert (ps_remaining (settle acc c) = ps_remaining acc ∧ ps_settled (settle acc c) = S (ps_settled acc)) as [Hr Hs]
        by (unfold settle; rewrite Ht; by destruct outcome).
      destruct (IH (settle acc c)) as (done & Hp & Hn & Hd & Hw'); [by rewrite Hr|].
      exists (c :: done). rewrite Hr in Hp. rewrite Hs in Hn. split; [simpl; by rewrite Hp|]. split; [simpl; lia|].
      split; [|done]. constructor; [|done]. exists (ps_state acc). by rewrite Ht. }
  destruct (Hfold (mkPass s [] settled false)) as (done & Hp & Hn & Hd); [constructor|]. exists done.
  simpl in Hp, Hn. rewrite app_nil_r in Hp. done.
Qed.
Lemma passes_split fuel s settled candidates p :
  passes fuel s settled candidates = Some p →
  ∃ done, candidates ≡ₚ done ++ ps_remaining p ∧ ps_settled p = (settled + length done)%nat
    ∧ Forall answered done ∧ Forall waiting (ps_remaining p).
Proof.
  revert s settled candidates. induction fuel as [|fuel IH]; intros s settled candidates Hp; [done|]. simpl in Hp.
  destruct (pass_split s settled candidates) as (done & Hperm & Hn & Hd & Hw).
  destruct (negb _ || _); [simplify_eq; by exists done|].
  apply IH in Hp as (done' & Hperm' & Hn' & Hd' & Hw'). rewrite reverse_Permutation in Hperm'. exists (done ++ done').
  split; [by rewrite Hperm, Hperm', app_assoc|]. rewrite length_app. split; [lia|]. by split; [apply Forall_app|].
Qed.

(** A pass that applied something settled something. *)
Lemma pass_progress s settled candidates :
  let p := pass s settled candidates in ps_progressed p = true → (settled < ps_settled p)%nat.
Proof.
  unfold pass. simpl. assert (∀ acc, (settled ≤ ps_settled acc)%nat →
    (ps_progressed acc = true → (settled < ps_settled acc)%nat) →
    ps_progressed (foldl settle acc candidates) = true → (settled < ps_settled (foldl settle acc candidates))%nat)
    as Hfold; [|by apply Hfold].
  induction candidates as [|c cs IH]; intros acc Hle Hacc; [done|]. pose proof (settle_settled acc c).
  apply IH; [lia|]. intros Hprog. destruct (ps_progressed acc) eqn:Ha; [specialize (Hacc eq_refl); lia|].
  unfold settle in *. destruct (apply_transition _ _) as [[| | |] s']; simpl in *; congruence || lia.
Qed.

(** Each pass but the last settles a candidate, so the loop ends; what it settled and what it
    leaves are the candidates it was given. *)
Lemma passes_total fuel s settled candidates :
  (length candidates < fuel)%nat →
  ∃ p, passes fuel s settled candidates = Some p
       ∧ (ps_settled p + length (ps_remaining p) = settled + length candidates)%nat
       ∧ (ps_progressed p = false ∨ ps_remaining p = []).
Proof.
  revert s settled candidates. induction fuel as [|fuel IH]; intros s settled candidates Hlen; [lia|].
  simpl. set (p := pass s settled candidates).
  pose proof (pass_count s settled candidates) as Hcount. pose proof (pass_progress s settled candidates) as Hprog.
  fold p in Hcount, Hprog. cbv zeta in Hcount, Hprog.
  destruct (ps_progressed p) eqn:Hp; simpl; [|by exists p; auto].
  case_bool_decide as Hnil.
  { exists p. split; [done|]. split; [done|]. right. by rewrite <-(reverse_involutive (ps_remaining p)), Hnil. }
  specialize (Hprog eq_refl).
  destruct (IH (ps_state p) (ps_settled p) (reverse (ps_remaining p))) as (q & Hq & Hqc & Hqp).
  { rewrite length_reverse. lia. }
  exists q. split; [done|]. rewrite length_reverse in Hqc. split; [lia|done].
Qed.

(** ** The invariant of the projection *)
Record state_ok (observed : WorkCandidate → Prop) (s : WorkStateFile) : Prop := {
  so_records : tasks_ok (record_ok observed) (ws_tasks s);
  so_distinct : tasks_distinct (ws_tasks s);
  so_pending : Forall observed (ws_pending s);
  so_applied_sorted : StronglySorted str_lt (ws_applied s);
  so_applied_bound : zlen (ws_applied s) ≤ WORK_MAX_APPLIED;
  so_applied_observed : Forall (λ id, ∃ c, observed c ∧ ca_message_id c = id) (ws_applied s);
}.

Lemma fresh_ok observed : state_ok observed fresh.
Proof. split; try (by constructor); [|done]. split; [constructor..|done]. Qed.

(** What an operation may change while keeping the projection valid. *)
Lemma state_ok_same observed s s' :
  ws_tasks s' = ws_tasks s → ws_pending s' = ws_pending s → ws_applied s' = ws_applied s →
  state_ok observed s → state_ok observed s'.
Proof. intros Ht Hp Ha []. split; by rewrite ?Ht, ?Hp, ?Ha. Qed.

(** A transition touches neither the pending candidates nor the applied or seen ids. *)
Definition same_logs (s s' : WorkStateFile) : Prop :=
  ws_pending s' = ws_pending s ∧ ws_applied s' = ws_applied s ∧ ws_seen s' = ws_seen s.

Lemma evict_all_logs reason ls s : same_logs s (evict_all reason s ls).
Proof.
  unfold evict_all. generalize (reverse ls). intros ls'. revert s. induction ls' as [|l ls' IH]; intros s; [done|].
  by destruct (IH (evict reason s l)).
Qed.

Lemma admit_intent_logs s c p : same_logs s (admit_intent s c p).2.
Proof.
  unfold admit_intent. case_bool_decide; [done|]. destruct (existsb _ _); [done|].
  set (s2 := evict_all _ _ _). assert (same_logs s s2) by apply evict_all_logs.
  destruct (dependency_creates_cycle _ _ _); [done|]. by destruct (negb _ && _).
Qed.

(** Case analysis on the scrutinee of an innermost match. *)
Ltac split_match :=
  match goal with
  | |- context [match ?x with _ => _ end] =>
      lazymatch x with context [match _ with _ => _ end] => fail | _ => destruct x end
  end.

Lemma apply_transition_logs s c : same_logs s (apply_transition s c).2.
Proof.
  assert (∀ profile, same_logs s (apply_author_transition s c profile).2) as Hauthor.
  { intros profile. unfold apply_author_transition, prepare_author.
    repeat (split_match; try done). }
  unfold apply_transition. destruct (ca_profile c) as [p|p| | | | | |p]; try apply Hauthor.
  - unfold apply_intent. destruct (existsb _ _); [done|]. destruct (existsb _ (filter _ _)); [done|].
    set (s1 := evict_all _ _ _). destruct (evict_all_logs SequenceDecreased (filter (λ l,
      pr_sequence (lo_record l) = wi_sequence p) (own_chain (ws_tasks s) p)) s) as (Hp & Ha & Hs).
    fold s1 in Hp, Ha, Hs. destruct (admit_intent_logs s1 c p) as (Hp' & Ha' & Hs').
    destruct (wi_causal_base p) as [base|]; [destruct (base_applied s1 base)|]; (split; [|split]); simpl; congruence.
  - unfold apply_decision, prepare_decision.
    repeat (split_match; try done).
  - unfold apply_superseded.
    repeat (split_match; try done).
Qed.

Lemma insert_applied_ok observed s c :
  observed c → state_ok observed s → state_ok observed (insert_applied s (ca_message_id c)).
Proof.
  intros Hc [Hr Hd Hp Hs Hb Ho]. unfold insert_applied. case_bool_decide as Hin; [by split|].
  set (full := WORK_MAX_APPLIED <=? _). set (kept := if full then tail (ws_applied s) else ws_applied s).
  assert (kept `sublist_of` ws_applied s) as Hsub.
  { unfold kept. destruct full; [|done]. destruct (ws_applied s); [done|]. by apply sublist_cons. }
  assert (NoDup (kept ++ [ca_message_id c])) as Hnd.
  { apply NoDup_app. split; [|split; [|apply NoDup_singleton]].
    - eapply sublist_NoDup; [|done]. rewrite <-(list_fmap_id (ws_applied s)). by apply (sorted_lt_NoDup id).
    - intros x Hx Hx'. apply list_elem_of_singleton in Hx' as ->. destruct Hin. by eapply sublist_subseteq. }
  split; simpl; try (by destruct full).
  - apply (sort_by_lt id). by rewrite list_fmap_id.
  - unfold zlen, sort_strings. rewrite sort_by_perm, length_app. simpl. unfold kept, zlen in *.
    destruct full eqn:Hfull; unfold full in Hfull; [|apply Z.leb_gt in Hfull; lia].
    destruct (ws_applied s); simpl in *; [done|lia].
  - unfold sort_strings. rewrite sort_by_perm. apply Forall_app. split; [|by repeat constructor; exists c].
    by eapply sublist_Forall.
Qed.

Section invariant.
Context (observed : WorkCandidate → Prop).
Hypothesis ids_unique : ∀ c c', observed c → observed c' → ca_message_id c = ca_message_id c' →
  ca_profile c = ca_profile c'.

Lemma apply_transition_state_ok s c : observed c → state_ok observed s → state_ok observed (apply_transition s c).2.
Proof using ids_unique.
  intros Hc [Hr Hd Hp Hs Hb Ho]. destruct (apply_transition_logs s c) as (Hlp & Hla & _).
  split; rewrite ?Hlp, ?Hla; try done; [by apply apply_transition_ok|by apply (apply_transition_distinct observed)].
Qed.

Lemma settle_ok acc c : observed c → state_ok observed (ps_state acc) → state_ok observed (ps_state (settle acc c)).
Proof using ids_unique.
  intros Hc Hok. unfold settle. pose proof (apply_transition_state_ok _ _ Hc Hok) as Hs.
  destruct (apply_transition (ps_state acc) c) as [[| |reason|] s]; simpl in *.
  - by apply insert_applied_ok.
  - done.
  - by apply (state_ok_same _ s).
  - by apply (state_ok_same _ s).
Qed.

Lemma mark_dropped_iter n s :
  let s' := Nat.iter n mark_dropped s in
  ws_tasks s' = ws_tasks s ∧ ws_pending s' = ws_pending s ∧ ws_applied s' = ws_applied s
  ∧ ws_evidence s' = ws_evidence s.
Proof. induction n as [|n IH]; simpl in *; [done|]. destruct IH as (-> & -> & -> & ->). done. Qed.

Lemma push_pending_ok s c : observed c → state_ok observed s → state_ok observed (push_pending s c).
Proof.
  intros Hc [Hr Hd Hp Hs Hb Ho]. unfold push_pending.
  pose proof (trim_to_Forall (max_index (id_lt ca_message_id)) (max_index_picks _)
    (length (ws_pending s ++ [c])) WORK_MAX_PENDING (ws_pending s ++ [c]) observed) as Hkept.
  destruct (trim_to _ _ _ _) as [kept removed]. simpl in Hkept.
  destruct (mark_dropped_iter (length removed) (set_pending s kept)) as (Ht & Hpe & Ha & _).
  split; rewrite ?Ht, ?Hpe, ?Ha; try done. apply Hkept. apply Forall_app. split; [done|by constructor].
Qed.

Lemma push_pending_all_ok cs s :
  Forall observed cs → state_ok observed s → state_ok observed (foldl push_pending s cs).
Proof.
  intros Hcs. revert s. induction Hcs as [|c cs Hc Hcs IH]; intros s Hs; [done|]. apply IH.
  by apply push_pending_ok.
Qed.

(** Trimming amendments changes nothing a record is justified by. *)
Lemma set_amendments_ok task_id r amendments :
  record_ok observed task_id r → record_ok observed task_id (set_amendments r amendments).
Proof. intros []. by split. Qed.

Lemma bound_task_ok t :
  Forall (record_ok observed (tk_task_id t)) (tk_proposals t) →
  Forall (record_ok observed (tk_task_id (bound_task t).1)) (tk_proposals (bound_task t).1).
Proof.
  intros Hok. unfold bound_task.
  pose proof (trim_to_Forall (min_index chain_lt) (min_index_picks _) (length (tk_proposals t))
    WORK_MAX_PROPOSALS_PER_TASK _ _ Hok) as Hkept.
  destruct (trim_to _ _ _ _) as [kept removed]. simpl in *. rewrite <-list_fmap_compose. apply Forall_fmap.
  eapply Forall_impl; [exact Hkept|]. intros r Hr. simpl. unfold bound_amendments.
  destruct (trim_to _ _ _ _) as [kept' removed']. by apply set_amendments_ok.
Qed.

Lemma bound_task_identity t :
  tk_task_id (bound_task t).1 = tk_task_id t
  ∧ pr_intent_message_id <$> tk_proposals (bound_task t).1 ⊆+ pr_intent_message_id <$> tk_proposals t.
Proof.
  unfold bound_task. pose proof (trim_to_perm (min_index chain_lt) (min_index_picks _) (length (tk_proposals t))
    WORK_MAX_PROPOSALS_PER_TASK (tk_proposals t)) as Hperm.
  destruct (trim_to _ _ _ _) as [kept removed]. simpl. split; [done|]. rewrite <-Hperm, fmap_app.
  rewrite <-!list_fmap_compose. etrans; [|apply submseteq_inserts_r; reflexivity].
  match goal with |- ?a ⊆+ ?b => replace a with b; [done|] end. apply list_fmap_ext. intros i r _. simpl. unfold bound_amendments. by destruct (trim_to _ _ _ _).
Qed.

Lemma bound_tasks_ok tasks :
  tasks_ok (record_ok observed) tasks → tasks_distinct tasks →
  tasks_ok (record_ok observed) (bound_task <$> tasks).*1 ∧ tasks_distinct (bound_task <$> tasks).*1.
Proof.
  intros Hok [Ht Hi Hb]. rewrite <-list_fmap_compose. split.
  { apply Forall_fmap. eapply Forall_impl; [exact Hok|]. intros t. apply bound_task_ok. }
  split.
  - unfold task_ids. rewrite <-list_fmap_compose. erewrite list_fmap_ext; [exact Ht|].
    intros i t _. apply bound_task_identity.
  - eapply submseteq_NoDup; [|exact Hi]. unfold intents. rewrite <-list_fmap_compose. clear Hok Ht Hi Hb.
    induction tasks as [|t tasks IH]; simpl; [done|]. by apply submseteq_app; [apply bound_task_identity|].
  - unfold zlen. by rewrite length_fmap.
Qed.

Lemma remove_all_sublist {A} indices (l l' : list A) : remove_all l indices = Some l' → l' `sublist_of` l.
Proof.
  revert l. induction indices as [|i indices IH]; intros l Hl; simpl in Hl; [by simplify_eq|].
  unfold vec_remove in Hl. case_decide; [simpl in Hl|done]. etrans; [by apply IH|apply sublist_delete].
Qed.

Lemma evict_terminal_sublist tasks tasks' : evict_terminal tasks = Some tasks' → tasks' `sublist_of` tasks.
Proof. unfold evict_terminal. destruct (_ <? _); [apply remove_all_sublist|]. by intros [= ->]. Qed.

Lemma sublist_distinct tasks tasks' : tasks' `sublist_of` tasks → tasks_distinct tasks → tasks_distinct tasks'.
Proof.
  intros Hsub [Ht Hi Hb]. split.
  - eapply sublist_NoDup; [exact Ht|]. by apply fmap_sublist.
  - eapply sublist_NoDup; [exact Hi|]. unfold intents. clear Ht Hi Hb.
    induction Hsub as [|t tasks' tasks Hsub IH|t tasks' tasks Hsub IH]; simpl; [done| |].
    + by apply sublist_app.
    + by apply sublist_inserts_l.
  - apply sublist_length in Hsub. unfold zlen in *. lia.
Qed.

Lemma maintain_bounds_ok s s' : maintain_bounds s = Some s' → state_ok observed s → state_ok observed s'.
Proof.
  unfold maintain_bounds. intros Hs' [Hr Hd Hp Hs Hb Ho]. destruct (bound_tasks_ok _ Hr Hd) as [Hr' Hd'].
  apply bind_Some in Hs' as (tasks & Htasks & [= <-]). apply evict_terminal_sublist in Htasks. simpl in Htasks.
  split; simpl; try done; [by eapply sublist_Forall|by eapply sublist_distinct].
Qed.
End invariant.

(** ** The ids seen *)

(** The distinct ids in ascending order; it depends only on which ids there are. *)
Definition usort (l : list string) : list string := sort_strings (remove_dups l).

Lemma usort_sorted l : StronglySorted str_lt (usort l).
Proof. apply (sort_by_lt id). rewrite list_fmap_id. apply NoDup_remove_dups. Qed.

Lemma elem_of_usort x l : x ∈ usort l ↔ x ∈ l.
Proof. unfold usort, sort_strings. by rewrite sort_by_perm, elem_of_remove_dups. Qed.

Lemma usort_ext l l' : (∀ x, x ∈ l ↔ x ∈ l') → usort l = usort l'.
Proof.
  intros Hl. apply sorted_str_unique; [apply usort_sorted..|]. intros x. by rewrite !elem_of_usort.
Qed.

Lemma usort_id l : StronglySorted str_lt l → usort l = l.
Proof. intros Hl. apply sorted_str_unique; [apply usort_sorted|done|]. intros x. apply elem_of_usort. Qed.

Lemma insert_sorted_lt x l : StronglySorted str_lt l → x ∉ l → StronglySorted str_lt (insert_by id x l).
Proof.
  intros Hl Hx. apply (sorted_le_lt id).
  - rewrite list_fmap_id, insert_by_perm. constructor; [done|].
    rewrite <-(list_fmap_id l). by apply (sorted_lt_NoDup id).
  - apply insert_by_sorted. eapply StronglySorted_ind with (P := StronglySorted (key_le id)); [constructor| |exact Hl].
    intros a l' Hl' IH Ha. constructor; [done|]. eapply Forall_impl; [exact Ha|]. by intros b [? _].
Qed.

Lemma take_insert n x (l : list string) : take n (insert_by id x (take n l)) = take n (insert_by id x l).
Proof.
  revert n. induction l as [|y l IH]; intros [|n]; try done. simpl. case_decide; simpl; f_equal; [|apply IH].
  destruct n as [|n]; [done|]. simpl. f_equal. by rewrite take_take, Nat.min_l by lia.
Qed.

(** Inserting an id that is already there beyond position [n] changes nothing before it. *)
Lemma take_insert_beyond n x (l : list string) :
  StronglySorted str_lt l → x ∈ l → x ∉ take n l → take n (insert_by id x l) = take n l.
Proof.
  intros Hl. revert n. induction Hl as [|y l Hl IH Hy]; intros [|n] Hin Hout; try done.
  simpl in Hout. apply not_elem_of_cons in Hout as [Hne Hout]. apply elem_of_cons in Hin as [?|Hin]; [done|].
  rewrite Forall_forall in Hy. destruct (Hy x Hin) as [Hle _]. simpl. case_decide as Hd; simpl.
  - destruct Hne. by apply (anti_symm String.le).
  - f_equal. by apply IH.
Qed.

Lemma insert_seen_usort l x :
  let n := Z.to_nat WORK_MAX_SEEN in
  insert_seen (take n (usort l)) x = take n (usort (l ++ [x])).
Proof.
  intros n. unfold insert_seen. pose proof (usort_sorted l) as HL. case_bool_decide as Hin.
  { f_equal. apply usort_ext. intros y. rewrite elem_of_app, list_elem_of_singleton. split; [by left|].
    intros [?| ->]; [done|]. apply elem_of_usort. eapply sublist_subseteq; [apply (sublist_take _ n)|done]. }
  assert (StronglySorted str_lt (take n (usort l))) as Htake by (eapply sublist_sorted; [apply sublist_take|done]).
  fold n. transitivity (take n (insert_by id x (take n (usort l)))).
  { f_equal. apply sorted_str_unique; [| |].
    - apply (sort_by_lt id). rewrite list_fmap_id. apply NoDup_app. split; [|split; [|apply NoDup_singleton]].
      + rewrite <-(list_fmap_id (take _ _)). by apply (sorted_lt_NoDup id).
      + set_solver.
    - by apply insert_sorted_lt.
    - intros y. unfold sort_strings. rewrite sort_by_perm, insert_by_perm. set_solver. }
  rewrite take_insert. destruct (decide (x ∈ l)) as [Hx|Hx].
  - rewrite take_insert_beyond; [|done|by apply elem_of_usort|done]. f_equal. apply usort_ext. set_solver.
  - f_equal. apply sorted_str_unique; [|apply usort_sorted|].
    + apply insert_sorted_lt; [done|by rewrite elem_of_usort].
    + intros y. rewrite insert_by_perm, elem_of_usort, elem_of_cons, elem_of_usort. set_solver.
Qed.

(** The ids kept are the smallest of all that were observed, in whatever order. *)
Lemma insert_seen_all ids seen :
  StronglySorted str_lt seen → zlen seen ≤ WORK_MAX_SEEN →
  foldl insert_seen seen ids = take (Z.to_nat WORK_MAX_SEEN) (usort (seen ++ ids)).
Proof.
  intros Hs Hlen. transitivity (foldl insert_seen (take (Z.to_nat WORK_MAX_SEEN) (usort seen)) ids).
  { rewrite usort_id, take_ge by (done || unfold zlen in *; lia). done. }
  clear Hs Hlen. revert seen. induction ids as [|x ids IH]; intros seen; simpl; [by rewrite app_nil_r|].
  rewrite insert_seen_usort, IH, <-app_assoc. done.
Qed.

Lemma insert_seen_perm ids ids' seen :
  StronglySorted str_lt seen → zlen seen ≤ WORK_MAX_SEEN → ids ≡ₚ ids' →
  foldl insert_seen seen ids = foldl insert_seen seen ids'.
Proof.
  intros Hs Hlen Hperm. rewrite !insert_seen_all by done. generalize (Z.to_nat WORK_MAX_SEEN). intros n.
  f_equal. apply usort_ext. intros x. by rewrite Hperm.
Qed.

(** ** The bounds *)
Record within_bounds (s : WorkStateFile) : Prop := {
  wb_evidence : zlen (ws_evidence s) ≤ WORK_MAX_EVIDENCE;
  wb_pending : zlen (ws_pending s) ≤ WORK_MAX_PENDING;
  wb_seen : zlen (ws_seen s) ≤ WORK_MAX_SEEN;
  wb_seen_sorted : StronglySorted str_lt (ws_seen s);
  wb_proposals : Forall (λ t, zlen (tk_proposals t) ≤ WORK_MAX_PROPOSALS_PER_TASK) (ws_tasks s);
  wb_amendments : tasks_ok (λ _ r, zlen (pr_amendments r) ≤ WORK_MAX_AMENDMENTS) (ws_tasks s);
}.

Lemma fresh_bounded : within_bounds fresh.
Proof. split; try done; constructor. Qed.

Lemma insert_seen_bound ids seen :
  zlen seen ≤ WORK_MAX_SEEN → StronglySorted str_lt seen →
  zlen (foldl insert_seen seen ids) ≤ WORK_MAX_SEEN ∧ StronglySorted str_lt (foldl insert_seen seen ids).
Proof.
  intros Hlen Hs. rewrite insert_seen_all by done. split.
  - unfold zlen. rewrite length_take. pose proof (eq_refl : Z.of_nat (Z.to_nat WORK_MAX_SEEN) = WORK_MAX_SEEN). lia.
  - eapply sublist_sorted; [apply sublist_take|apply usort_sorted].
Qed.

Lemma push_pending_bound s c :
  zlen (ws_pending (push_pending s c)) ≤ WORK_MAX_PENDING ∧ ws_seen (push_pending s c) = ws_seen s.
Proof.
  unfold push_pending.
  pose proof (trim_to_bound (max_index (id_lt ca_message_id)) (max_index_picks _) (length (ws_pending s ++ [c]))
    WORK_MAX_PENDING (ws_pending s ++ [c])) as Hbound.
  destruct (trim_to _ _ _ _) as [kept removed]. simpl in Hbound.
  destruct (mark_dropped_iter (length removed) (set_pending s kept)) as (_ & Hpe & _ & _). rewrite Hpe.
  split; [apply Hbound; done|]. clear. induction (length removed) as [|n IH]; done.
Qed.

Lemma push_pending_all_bound cs s :
  zlen (ws_pending s) ≤ WORK_MAX_PENDING →
  zlen (ws_pending (foldl push_pending s cs)) ≤ WORK_MAX_PENDING ∧ ws_seen (foldl push_pending s cs) = ws_seen s.
Proof.
  revert s. induction cs as [|c cs IH]; intros s Hs; [done|]. destruct (push_pending_bound s c) as [Hb Hs'].
  simpl. rewrite <-Hs'. by apply IH.
Qed.

Lemma bound_task_bound t :
  zlen (tk_proposals (bound_task t).1) ≤ WORK_MAX_PROPOSALS_PER_TASK
  ∧ Forall (λ r, zlen (pr_amendments r) ≤ WORK_MAX_AMENDMENTS) (tk_proposals (bound_task t).1).
Proof.
  unfold bound_task. pose proof (trim_to_bound (min_index chain_lt) (min_index_picks _) (length (tk_proposals t))
    WORK_MAX_PROPOSALS_PER_TASK (tk_proposals t)) as Hbound.
  destruct (trim_to _ _ _ _) as [kept removed]. simpl in *. rewrite <-list_fmap_compose. split.
  - unfold zlen in *. rewrite length_fmap. by apply Hbound.
  - apply Forall_fmap. apply Forall_true. intros r. simpl. unfold bound_amendments.
    pose proof (trim_to_bound (max_index (id_lt am_message_id)) (max_index_picks _) (length (pr_amendments r))
      WORK_MAX_AMENDMENTS (pr_amendments r)) as Ham.
    destruct (trim_to _ _ _ _) as [kept' removed']. simpl in *. by apply Ham.
Qed.

Lemma maintain_bounds_bound s s' :
  maintain_bounds s = Some s' → zlen (ws_pending s) ≤ WORK_MAX_PENDING → zlen (ws_seen s) ≤ WORK_MAX_SEEN →
  StronglySorted str_lt (ws_seen s) → within_bounds s'.
Proof.
  unfold maintain_bounds. intros Hs' Hp Hs Hsorted. apply bind_Some in Hs' as (tasks & Htasks & [= <-]).
  apply evict_terminal_sublist in Htasks. simpl in Htasks. split; simpl; try done.
  - by apply trim_to_bound.
  - eapply sublist_Forall; [exact Htasks|]. rewrite <-list_fmap_compose. apply Forall_fmap, Forall_true.
    intros t. apply bound_task_bound.
  - eapply sublist_Forall; [exact Htasks|]. rewrite <-list_fmap_compose. apply Forall_fmap, Forall_true.
    intros t. apply bound_task_bound.
Qed.

(** ** Whole batches *)
Section batch.
Context `{Unicode, WorkJson}.
Context (observed : WorkCandidate → Prop).
Hypothesis ids_unique : ∀ c c', observed c → observed c' → ca_message_id c = ca_message_id c' →
  ca_profile c = ca_profile c'.

Lemma batch_candidates_observed s messages :
  Forall observed (ws_pending s) → (∀ m c, m ∈ messages → candidate_of m = Some c → observed c) →
  Forall observed (batch_candidates s messages).
Proof.
  intros Hp Hm. unfold batch_candidates. rewrite sort_by_perm. apply Forall_app. split; [done|].
  apply Forall_forall. intros c (m & Hin & Hc)%list_elem_of_omap. by eapply Hm.
Qed.

Lemma settle_logs acc c :
  ws_pending (ps_state (settle acc c)) = ws_pending (ps_state acc)
  ∧ ws_seen (ps_state (settle acc c)) = ws_seen (ps_state acc).
Proof.
  unfold settle. destruct (apply_transition_logs (ps_state acc) c) as (Hp & _ & Hs).
  destruct (apply_transition (ps_state acc) c) as [[| |reason|] s]; simpl in *; try done.
  unfold insert_applied. case_bool_decide; [done|]. by destruct (_ <=? _).
Qed.

Lemma apply_batch_ok s messages rebuild s' settled :
  state_ok observed s → within_bounds s → (∀ m c, m ∈ messages → candidate_of m = Some c → observed c) →
  apply_batch s messages rebuild = Some (s', settled) → state_ok observed s' ∧ within_bounds s'.
Proof using ids_unique.
  intros Hok Hwb Hm Hbatch. unfold apply_batch in Hbatch.
  set (s0 := if rebuild then fresh else s) in Hbatch.
  assert (state_ok observed s0) as Hok0 by (unfold s0; destruct rebuild; [apply fresh_ok|done]).
  assert (within_bounds s0) as Hwb0 by (unfold s0; destruct rebuild; [apply fresh_bounded|done]).
  set (s1 := set_seen _ _) in Hbatch. assert (state_ok observed s1) as Hok1 by by apply (state_ok_same _ s0).
  set (cs := batch_candidates s1 messages) in Hbatch. cbv zeta in Hbatch.
  assert (Forall observed cs) as Hcs by (apply batch_candidates_observed; [apply Hok1|done]).
  apply bind_Some in Hbatch as (p & Hpasses & Hbatch). apply bind_Some in Hbatch as (s2 & Hbounds & [= <- <-]).
  assert (state_ok observed (set_pending s1 [])) as Hok2 by (destruct Hok1; by split).
  pose proof (passes_invariant (λ s, state_ok observed s ∧ ws_pending s = [] ∧ ws_seen s = ws_seen s1) observed) as Hinv.
  destruct (Hinv) with (fuel := S (length cs)) (s := set_pending s1 []) (settled := 0%nat) (candidates := cs) (p := p)
    as [(Hok3 & Hp3 & Hs3) Hrem]; [|done..|].
  { intros acc c Hc (Ha & Hap & Has). split; [by apply settle_ok|]. by destruct (settle_logs acc c) as [-> ->]. }
  assert (Forall observed (reverse (ps_remaining p))) as Hrem' by by rewrite reverse_Permutation.
  destruct (push_pending_all_bound (reverse (ps_remaining p)) (ps_state p)) as [Hpe Hse]; [by rewrite Hp3|].
  split.
  - eapply maintain_bounds_ok; [exact Hbounds|]. by apply push_pending_all_ok.
  - destruct (insert_seen_bound (ms_message_id <$> messages) (ws_seen s0)) as [Hlen Hsorted]; [apply Hwb0..|].
    eapply maintain_bounds_bound; [exact Hbounds|done|by rewrite Hse, Hs3..].
Qed.
End batch.

(** ** Returning *)

Lemma task_ids_length tasks tasks' : task_ids tasks = task_ids tasks' → length tasks = length tasks'.
Proof. intros Ht%(f_equal length). unfold task_ids in Ht. by rewrite !length_fmap in Ht. Qed.

(** A settled candidate adds at most one task; one that stays pending adds none. *)
Lemma intent_growth s c p :
  (length (ws_tasks (apply_intent s c p).2) ≤ length (ws_tasks s) + 1)%nat
  ∧ ((apply_intent s c p).1 = Pending → length (ws_tasks (apply_intent s c p).2) = length (ws_tasks s)).
Proof.
  assert (∀ reason s ls, length (ws_tasks (evict_all reason s ls)) = length (ws_tasks s)) as Hevict.
  { intros reason s' ls. destruct (evict_all_identities reason ls s') as [Ht _].
    by apply task_ids_length. }
  assert (∀ s, (length (ws_tasks (admit_intent s c p).2) ≤ length (ws_tasks s) + 1)%nat
               ∧ (admit_intent s c p).1 ≠ Pending) as Hadmit.
  { intros s'. unfold admit_intent. case_bool_decide; [simpl; split; [lia|done]|].
    destruct (existsb _ _); [simpl; split; [lia|done]|]. set (s2 := evict_all _ _ _).
    assert (length (ws_tasks s2) = length (ws_tasks s')) as Hs2 by apply Hevict.
    destruct (dependency_creates_cycle _ _ _); [simpl; split; [lia|done]|].
    destruct (negb _ && _); [simpl; split; [lia|done]|]. simpl. split; [|done].
    destruct (add_identities (ws_tasks s2) (wi_task_id p) (intent_record c p) (ca_created_at_ms c)) as [_ Ht].
    apply (f_equal length) in Ht. unfold task_ids in Ht. rewrite length_fmap in Ht. rewrite Ht.
    case_decide; rewrite ?length_app, length_fmap; simpl; lia. }
  unfold apply_intent. destruct (existsb _ _); [simpl; split; [lia|done]|].
  destruct (existsb _ (filter _ _)); [simpl; split; [lia|done]|]. set (s1 := evict_all _ _ _).
  assert (length (ws_tasks s1) = length (ws_tasks s)) as Hs1 by apply Hevict. specialize (Hadmit s1) as [Hle Hne].
  destruct (wi_causal_base p) as [base|]; [destruct (base_applied s1 base)|]; simpl; split; try done; lia.
Qed.

Lemma identities_length tasks tasks' : keeps_identities tasks tasks' → length tasks' = length tasks.
Proof. intros [Ht _]. by apply task_ids_length. Qed.

Lemma settle_growth acc c :
  (length (ws_tasks (ps_state (settle acc c))) + ps_settled acc
   ≤ length (ws_tasks (ps_state acc)) + ps_settled (settle acc c))%nat.
Proof.
  assert (∀ s', length (ws_tasks (insert_applied s' (ca_message_id c))) = length (ws_tasks s')) as Hins.
  { intros s'. unfold insert_applied. case_bool_decide; [done|]. by destruct (_ <=? _). }
  assert ((length (ws_tasks (apply_transition (ps_state acc) c).2) ≤ length (ws_tasks (ps_state acc)) + 1)%nat
    ∧ ((apply_transition (ps_state acc) c).1 = Pending →
       length (ws_tasks (apply_transition (ps_state acc) c).2) = length (ws_tasks (ps_state acc)))) as [Hle Heq].
  { unfold apply_transition. pose proof (identities_length _ _ (apply_author_identities (ps_state acc) c (ca_profile c))).
    destruct (ca_profile c) as [p|p| | | | | |p]; try (simpl in *; split; [lia|done]).
    - apply intent_growth.
    - pose proof (identities_length _ _ (apply_decision_identities (ps_state acc) c p)). split; [lia|done].
    - pose proof (identities_length _ _ (apply_superseded_identities (ps_state acc) c p)). split; [lia|done]. }
  unfold settle. destruct (apply_transition (ps_state acc) c) as [[| |reason|] s]; simpl in *.
  - rewrite Hins. lia.
  - specialize (Heq eq_refl). lia.
  - lia.
  - lia.
Qed.

Lemma pass_growth s settled candidates :
  let p := pass s settled candidates in
  (length (ws_tasks (ps_state p)) + settled ≤ length (ws_tasks s) + ps_settled p)%nat.
Proof.
  unfold pass. simpl. assert (∀ acc, (length (ws_tasks (ps_state (foldl settle acc candidates))) + ps_settled acc
    ≤ length (ws_tasks (ps_state acc)) + ps_settled (foldl settle acc candidates))%nat) as Hfold.
  { induction candidates as [|c cs IH]; intros acc; simpl; [lia|]. pose proof (IH (settle acc c)).
    pose proof (settle_growth acc c). lia. }
  apply (Hfold (mkPass s [] settled false)).
Qed.

Lemma passes_growth fuel s settled candidates p :
  passes fuel s settled candidates = Some p →
  (length (ws_tasks (ps_state p)) + settled ≤ length (ws_tasks s) + ps_settled p)%nat.
Proof.
  revert s settled candidates. induction fuel as [|fuel IH]; intros s settled candidates Hp; [done|].
  simpl in Hp. pose proof (pass_growth s settled candidates) as Hg. cbv zeta in Hg.
  destruct (negb _ || _); [by simplify_eq|]. apply IH in Hp. lia.
Qed.

Lemma insert_activity_perm x l : insert_activity x l ≡ₚ x :: l.
Proof.
  induction l as [|y l IH]; simpl; [done|]. destruct (activity_lt y x); [|done].
  by rewrite IH, Permutation_swap.
Qed.

Lemma by_activity_perm l : by_activity l ≡ₚ l.
Proof. induction l as [|x l IH]; simpl; [done|]. by rewrite insert_activity_perm, IH. Qed.

(** At most one task is evicted while there are no more than 513, and its index is in range. *)
Lemma evict_terminal_total tasks :
  zlen tasks ≤ WORK_MAX_TERMINAL_TASKS + 1 → is_Some (evict_terminal tasks).
Proof.
  intros Hlen. unfold evict_terminal. set (terminal := filter _ _).
  destruct (Z.ltb_spec WORK_MAX_TERMINAL_TASKS (zlen terminal)) as [Hlt|]; [|done].
  assert (length terminal ≤ length tasks)%nat as Hle.
  { unfold terminal. etrans; [apply length_filter|]. by rewrite length_imap. }
  replace (Z.to_nat (zlen terminal - WORK_MAX_TERMINAL_TASKS)) with 1%nat by (unfold zlen in *; lia).
  assert (∀ x, x ∈ by_activity terminal → (x.1 < length tasks)%nat) as Hrange.
  { intros x Hx. rewrite by_activity_perm in Hx. apply list_elem_of_filter in Hx as [_ Hx].
    apply elem_of_lookup_imap in Hx as (i & t & -> & Ht). by eapply lookup_lt_Some. }
  destruct (by_activity terminal) as [|x l]; [done|]. simpl. unfold vec_remove.
  rewrite decide_True; [done|]. apply Hrange. by left.
Qed.

Lemma maintain_bounds_total s :
  zlen (ws_tasks s) ≤ WORK_MAX_TERMINAL_TASKS + 1 →
  ∃ s', maintain_bounds s = Some s' ∧ ws_pending s' = ws_pending s.
Proof.
  intros Hlen. unfold maintain_bounds. simpl.
  destruct (evict_terminal_total (bound_task <$> ws_tasks s).*1) as [tasks ->].
  { unfold zlen in *. by rewrite !length_fmap. }
  eexists. split; [done|]. done.
Qed.

Lemma push_pending_tasks cs s : ws_tasks (foldl push_pending s cs) = ws_tasks s.
Proof.
  revert s. induction cs as [|c cs IH]; intros s; [done|]. simpl. rewrite IH. unfold push_pending.
  destruct (trim_to _ _ _ _) as [kept removed]. apply (mark_dropped_iter (length removed) (set_pending s kept)).
Qed.

(** Candidates are dropped only beyond the bound, and leave a mark. *)
Lemma mark_dropped_incomplete n s : (0 < n)%nat → ws_incomplete (Nat.iter n mark_dropped s) = true.
Proof. by destruct n; [lia|]. Qed.
Lemma push_pending_split cs s :
  zlen (ws_pending s) ≤ WORK_MAX_PENDING →
  let s' := foldl push_pending s cs in
  ∃ dropped, ws_pending s ++ cs ≡ₚ ws_pending s' ++ dropped
    ∧ zlen dropped = Z.max 0 (zlen (ws_pending s) + zlen cs - WORK_MAX_PENDING)
    ∧ (dropped ≠ [] ∨ ws_incomplete s = true → ws_incomplete s' = true).
Proof.
  revert s. induction cs as [|c cs IH]; intros s Hb; simpl.
  { exists []. rewrite !app_nil_r. split; [done|]. split; [unfold zlen in *; simpl; lia|tauto]. }
  assert (∃ removed, ws_pending s ++ [c] ≡ₚ ws_pending (push_pending s c) ++ removed
    ∧ zlen removed = Z.max 0 (zlen (ws_pending s) + 1 - WORK_MAX_PENDING)
    ∧ (removed ≠ [] ∨ ws_incomplete s = true → ws_incomplete (push_pending s c) = true)) as (removed & Hp & Hn & Hi).
  { unfold push_pending. set (l := ws_pending s ++ [c]).
    pose proof (trim_to_perm (max_index (id_lt ca_message_id)) (max_index_picks _) (length l) WORK_MAX_PENDING l) as Hperm.
    pose proof (trim_to_removed (max_index (id_lt ca_message_id)) (max_index_picks _) (length l) WORK_MAX_PENDING l) as Hrem.
    destruct (trim_to _ _ _ _) as [kept removed]. simpl in Hrem. exists removed.
    destruct (mark_dropped_iter (length removed) (set_pending s kept)) as (_ & -> & _). split; [by rewrite Hperm|].
    split; [rewrite Hrem by done; unfold l; rewrite zlen_app; done|]. destruct removed as [|x removed]; [by intros [?|?]|].
    intros _. apply mark_dropped_incomplete. simpl. lia. }
  assert (zlen (ws_pending (push_pending s c)) + zlen removed = zlen (ws_pending s) + 1) as Hlen.
  { apply Permutation_length in Hp. rewrite !length_app in Hp. simpl in Hp. unfold zlen. lia. }
  destruct (IH (push_pending s c)) as (dropped & Hp' & Hn' & Hi'); [lia|].
  exists (removed ++ dropped). rewrite zlen_app, zlen_cons. split; [|split; [pose proof (zlen_nonneg cs); lia|]].
  - rewrite (cons_middle c), app_assoc, Hp, <-app_assoc, (Permutation_app_comm removed), app_assoc, Hp', <-app_assoc.
    by rewrite (Permutation_app_comm dropped).
  - intros Hor. apply Hi'. destruct Hor as [Hne|?]; [|right; apply Hi; by right].
    destruct removed as [|x r]; [by left|right; apply Hi; by left].
Qed.
Lemma maintain_bounds_incomplete s s' : maintain_bounds s = Some s' → ws_incomplete s = true → ws_incomplete s' = true.
Proof. unfold maintain_bounds. intros (tasks & _ & [= <-])%bind_Some Hi. simpl. by rewrite Hi. Qed.
