(* ===== verification/WorkScopeProps.v ===== *)
(** * Work intents: scopes and dependencies

    The dependency search decides reachability; the overlap of two scopes is found whenever a
    path lies in both. *)
From Stdlib Require Import ZArith Lia Ascii Strings.Byte.
From stdpp Require Import sorting numbers strings gmap list_numbers list relations options.
From S2P Require Import Prelude Text Paths WorkContract AgentContract WorkReducer.

Local Open Scope Z_scope.

(** ** The dependency search *)
Lemma filter_everything {A} (P : A → Prop) `{∀ x, Decision (P x)} (l : list A) : (∀ x, P x) → filter P l = l.
Proof. intros HP. induction l as [|x l IH]; [done|]. by rewrite filter_cons_True, IH by apply HP. Qed.

Section search.
Context (tasks : list WorkTaskRecord) (task_id : string).

(** Some proposal of task [a] depends on task [b]. *)
Definition depends (a b : string) : Prop := b ∈ dependencies_of tasks a.

(** The dependencies of the proposals whose task was not visited. *)
Definition edges_left (visited : gset string) : nat :=
  length (concat ((λ l, sc_dependencies (pr_scope (lo_record l))) <$>
                  filter (λ l, lo_task_id l ∉ visited) (located tasks))).

Lemma edges_left_visit current visited :
  current ∉ visited →
  edges_left visited = (length (dependencies_of tasks current) + edges_left ({[current]} ∪ visited))%nat.
Proof.
  intros Hc. unfold edges_left, dependencies_of. induction (located tasks) as [|l ls IH]; [done|].
  rewrite !filter_cons.
  destruct (decide (lo_task_id l = current)) as [Heq|Hne].
  - rewrite decide_True by (by rewrite Heq). rewrite (decide_False (P := lo_task_id l ∉ {[current]} ∪ visited)) by set_solver.
    csimpl. rewrite !length_app, IH. lia.
  - destruct (decide (lo_task_id l ∈ visited)) as [Hin|Hout].
    + rewrite !decide_False by set_solver. exact IH.
    + rewrite !decide_True by set_solver. csimpl. rewrite !length_app, IH. lia.
Qed.

Lemma search_sound fuel stack visited :
  search_cycle fuel tasks task_id stack visited = true → ∃ x, x ∈ stack ∧ rtc depends x task_id.
Proof.
  revert stack visited. induction fuel as [|fuel IH]; intros [|current stack] visited Hs; try done.
  simpl in Hs. case_bool_decide as Heq; [exists current; subst; split; [by left|constructor]|].
  case_bool_decide as Hin; apply IH in Hs as (x & Hx & Hr).
  - exists x. split; [by right|done].
  - apply elem_of_app in Hx as [Hx|Hx]; [|by exists x; split; [right|]].
    exists current. split; [by left|]. rewrite elem_of_reverse in Hx. exact (rtc_l _ _ x _ Hx Hr).
Qed.

Lemma closed_rtc (visited : gset string) x y :
  (∀ v w, v ∈ visited → depends v w → w ∈ visited) → x ∈ visited → rtc depends x y → y ∈ visited.
Proof. intros Hclosed Hx Hr. induction Hr as [|a b c Hab _ IHr]; [done|]. by eapply IHr, Hclosed. Qed.

Lemma search_complete fuel stack visited :
  (length stack + edges_left visited ≤ fuel)%nat →
  (∀ v, v ∈ visited → v ≠ task_id ∧ ∀ w, depends v w → w ∈ visited ∨ w ∈ stack) →
  search_cycle fuel tasks task_id stack visited = false →
  ∀ x, x ∈ visited ∨ x ∈ stack → ¬ rtc depends x task_id.
Proof.
  revert stack visited. induction fuel as [|fuel IH]; intros [|current stack] visited Hfuel Hclosed Hs x Hx;
    try (simpl in Hfuel; lia).
  1,2: destruct Hx as [Hx|Hx]; [|by apply not_elem_of_nil in Hx]; intros Hr;
    destruct (Hclosed task_id) as [? _]; [|done]; apply (closed_rtc visited x task_id); try done;
    intros v w Hv Hdep; destruct (Hclosed v Hv) as [_ Hw]; destruct (Hw w Hdep) as [?|Hnil];
    [done|by apply not_elem_of_nil in Hnil].
  simpl in Hs, Hfuel. case_bool_decide as Heq; [done|]. case_bool_decide as Hin.
  - apply (IH stack visited) with (x := x) in Hs; [done|lia| |set_solver].
    intros v Hv. destruct (Hclosed v Hv) as [? Hw]. split; [done|]. intros w Hdep. specialize (Hw w Hdep). set_solver.
  - apply (IH _ _) with (x := x) in Hs; [done| | |].
    + rewrite length_app, length_reverse. rewrite (edges_left_visit current visited Hin) in Hfuel. lia.
    + intros v Hv. apply elem_of_union in Hv as [->%elem_of_singleton|Hv].
      * split; [done|]. intros w Hdep. right. apply elem_of_app. left. by apply elem_of_reverse.
      * destruct (Hclosed v Hv) as [? Hw]. split; [done|]. intros w Hdep. specialize (Hw w Hdep). set_solver.
    + set_solver.
Qed.

Lemma search_decides dep :
  search_cycle (cycle_fuel tasks) tasks task_id [dep] ∅ = true ↔ rtc depends dep task_id.
Proof.
  split.
  - intros (x & ->%list_elem_of_singleton & Hr)%search_sound. done.
  - intros Hr. destruct (search_cycle _ _ _ _ _) eqn:Hs; [done|exfalso].
    eapply search_complete with (x := dep); [| |exact Hs|by right; left|done].
    + unfold cycle_fuel, edges_left. simpl.
      rewrite filter_everything by set_solver. lia.
    + intros v Hv. by apply not_elem_of_empty in Hv.
Qed.
End search.

(** The search for dependency cycles ends and is exact: a new intent of a task closes a
    cycle precisely when some dependency other than the task itself leads back to the task
    through the dependencies of the applied proposals. *)
Theorem dependency_cycle_exact tasks task_id deps :
  dependency_creates_cycle tasks task_id deps = true
  ↔ ∃ dep, dep ∈ deps ∧ dep ≠ task_id ∧ rtc (depends tasks) dep task_id.
Proof.
  unfold dependency_creates_cycle. rewrite existsb_exists. split.
  - intros (dep & Hin%list_elem_of_In & [Hne Hs]%andb_true_iff).
    apply negb_true_iff, bool_decide_eq_false in Hne. apply search_decides in Hs. by exists dep.
  - intros (dep & Hin%list_elem_of_In & Hne & Hr). exists dep. split; [done|]. apply andb_true_iff.
    split; [by apply negb_true_iff, bool_decide_eq_false|by apply search_decides].
Qed.

(** ** Overlap of scopes *)

(** What may follow a directory in a path under it. *)
Definition boundary (rest : string) : Prop := rest = "" ∨ ∃ r, rest = String slash r.

Definition below (path dir : string) : Prop := ∃ rest, path = dir +:+ rest ∧ boundary rest.

Lemma starts_with_slash rest : starts_with "/" rest = true ↔ ∃ r, rest = String slash r.
Proof. apply starts_with_iff. Qed.

Lemma is_path_under_below child dir : is_path_under child dir = true ↔ below child (trim_end_char slash dir).
Proof.
  unfold is_path_under, below. rewrite orb_true_iff, bool_decide_eq_true. split.
  - intros [->|Hs]; [exists ""; split; [by rewrite str_app_nil_r|by left]|].
    destruct (strip_prefix _ _) as [rest|] eqn:Hp; [|done]. apply strip_prefix_Some in Hp.
    exists rest. split; [done|]. right. by apply starts_with_slash.
  - intros (rest & -> & [->|Hr]); [left; apply str_app_nil_r|right].
    rewrite (proj2 (strip_prefix_Some _ _ rest) eq_refl). by apply starts_with_slash.
Qed.

Lemma below_trim dir : below dir (trim_end_char slash dir).
Proof.
  induction dir as [|c dir (rest & Hr & Hb)]; [exists ""; split; [done|by left]|]. simpl.
  destruct (trim_end_char slash dir) as [|d t]; simpl in Hr; subst.
  - case_decide as Hc; [subst c; exists (String slash rest)|exists rest]; (split; [done|]); [by right; exists rest|done].
  - exists rest. done.
Qed.

Lemma boundary_app r1 r2 : boundary r1 → boundary r2 → boundary (r1 +:+ r2).
Proof. intros [->|[r ->]] H2; [done|right]. by exists (r +:+ r2). Qed.

Lemma below_trans a b c : below a b → below b c → below a c.
Proof.
  intros (r1 & -> & H1) (r2 & -> & H2). exists (r2 +:+ r1). rewrite str_app_assoc. split; [done|].
  by apply boundary_app.
Qed.

(** Two directories above one path are comparable. *)
Lemma below_comparable path a b : below path a → below path b → below a b ∨ below b a.
Proof.
  intros (r1 & Hp1 & H1) (r2 & Hp2 & H2). rewrite Hp1 in Hp2. clear Hp1 path. revert b Hp2.
  induction a as [|x a IH]; intros b Heq; simpl in Heq.
  - right. exists b. split; [done|]. destruct b as [|y b]; [by left|]. simpl in Heq. subst r1.
    destruct H1 as [|[r [= -> _]]]; [done|]. right. by exists b.
  - destruct b as [|y b]; simpl in Heq.
    + left. exists (String x a). split; [done|]. subst r2. destruct H2 as [|[r [= -> _]]]; [done|].
      right. by exists a.
    + injection Heq as -> Heq. destruct (IH b Heq) as [(r & -> & Hr)|(r & -> & Hr)]; [left|right]; by exists r.
Qed.

Lemma under_comparable path a b :
  is_path_under path a = true → is_path_under path b = true →
  is_path_under a b = true ∨ is_path_under b a = true.
Proof.
  rewrite !is_path_under_below. intros Ha Hb. destruct (below_comparable _ _ _ Ha Hb) as [Hab|Hba].
  - left. eapply below_trans; [apply below_trim|done].
  - right. eapply below_trans; [apply below_trim|done].
Qed.

(** Two entries that cover one path overlap. *)
Lemma covers_overlap a b path :
  scope_entry_covers_path a path = true → scope_entry_covers_path b path = true →
  path_overlap_kind a b ≠ None.
Proof.
  unfold scope_entry_covers_path, path_overlap_kind.
  destruct (strip_suffix GLOB_SUFFIX a) as [ra|], (strip_suffix GLOB_SUFFIX b) as [rb|].
  - intros Ha Hb. destruct (under_comparable _ _ _ Ha Hb) as [->| ->]; by rewrite !orb_true_r.
  - intros Ha Hb%bool_decide_eq_true. subst. by rewrite Ha, orb_true_r.
  - intros Ha%bool_decide_eq_true Hb. subst. by rewrite Hb, orb_true_r.
  - intros Ha%bool_decide_eq_true Hb%bool_decide_eq_true. subst. by rewrite bool_decide_true.
Qed.

(** ** The reported overlaps *)
Lemma elem_of_push_unique {A} `{EqDecision A} (out : list A) entry x : x ∈ push_unique out entry ↔ x ∈ out ∨ x = entry.
Proof. unfold push_unique. case_bool_decide; set_solver. Qed.

Lemma NoDup_push_unique {A} `{EqDecision A} (out : list A) entry : NoDup out → NoDup (push_unique out entry).
Proof.
  intros Hnd. unfold push_unique. case_bool_decide; [done|]. apply NoDup_app.
  split; [done|]. split; [set_solver|apply NoDup_singleton].
Qed.

Lemma elem_of_path_overlaps paths_b out pa o :
  o ∈ path_overlaps paths_b out pa
  ↔ o ∈ out ∨ ∃ pb kind, pb ∈ paths_b ∧ path_overlap_kind pa pb = Some kind ∧ o = mkWorkOverlap kind (Some pa) (Some pb) None.
Proof.
  unfold path_overlaps. revert out. induction paths_b as [|pb paths_b IH]; intros out; simpl.
  { split; [by left|]. intros [?|(? & ? & Hin & _)]; [done|]. by apply not_elem_of_nil in Hin. }
  rewrite IH. destruct (path_overlap_kind pa pb) as [kind|] eqn:Hk.
  - rewrite elem_of_push_unique. split.
    + intros [[?| ->]|(pb' & k & ? & ? & ?)]; [by left|right; exists pb, kind; by split; [left|]|].
      right. exists pb', k. by split; [right|].
    + intros [?|(pb' & k & [->|?]%elem_of_cons & Hk' & ->)]; [by left; left| |by right; exists pb', k].
      left. right. congruence.
  - split; (intros [?|(pb' & k & Hin & Hk' & ->)]; [by left|right; exists pb', k]); [by split; [right|]|].
    apply elem_of_cons in Hin as [->|?]; [congruence|done].
Qed.

Lemma elem_of_all_path_overlaps paths_b paths_a out o :
  o ∈ foldl (path_overlaps paths_b) out paths_a
  ↔ o ∈ out ∨ ∃ pa pb kind, pa ∈ paths_a ∧ pb ∈ paths_b ∧ path_overlap_kind pa pb = Some kind
                            ∧ o = mkWorkOverlap kind (Some pa) (Some pb) None.
Proof.
  revert out. induction paths_a as [|pa paths_a IH]; intros out; simpl; [set_solver|].
  rewrite IH, elem_of_path_overlaps. set_solver.
Qed.

Lemma elem_of_concern_overlaps concerns_b concerns_a out o :
  o ∈ foldl (concern_overlaps concerns_b) out concerns_a
  ↔ o ∈ out ∨ ∃ c, c ∈ concerns_a ∧ c ∈ concerns_b ∧ o = mkWorkOverlap SameConcern None None (Some c).
Proof.
  revert out. induction concerns_a as [|c concerns_a IH]; intros out; simpl; [set_solver|].
  rewrite IH. unfold concern_overlaps. destruct (existsb _ _) eqn:Hex.
  - apply existsb_exists in Hex as (c' & Hin%list_elem_of_In & ->%String.eqb_eq). rewrite elem_of_push_unique. set_solver.
  - assert (c ∉ concerns_b) as Hout; [|set_solver]. intros Hin. apply not_true_iff_false in Hex. destruct Hex.
    apply existsb_exists. exists c. split; [by apply list_elem_of_In|by apply String.eqb_eq].
Qed.

Lemma NoDup_foldl {A B} (f : list A → B → list A) l out :
  (∀ out x, NoDup out → NoDup (f out x)) → NoDup out → NoDup (foldl f out l).
Proof. intros Hf. revert out. induction l as [|x l IH]; intros out Hout; [done|]. by apply IH, Hf. Qed.

Lemma NoDup_overlaps paths_a concerns_a paths_b concerns_b :
  NoDup (evaluate_scope_overlap paths_a concerns_a paths_b concerns_b).
Proof.
  apply NoDup_foldl.
  - intros out c Hout. unfold concern_overlaps. destruct (existsb _ _); [by apply NoDup_push_unique|done].
  - apply NoDup_foldl; [|constructor]. intros out pa Hout. apply NoDup_foldl; [|done].
    intros out' pb Hout'. destruct (path_overlap_kind pa pb); [by apply NoDup_push_unique|done].
Qed.

