(* ===== verification/WorkTheorems.v ===== *)
(** * Work intents: what the projection guarantees

    Runs of [work_status] from the empty projection: who moved each record to its state, the
    shape and bounds of the retained state, when a batch returns and what it settles, and that
    the order in which one batch is delivered does not matter. *)
From Stdlib Require Import ZArith Lia Ascii Strings.Byte.
From stdpp Require Import sorting numbers strings gmap list_numbers list pretty options.
From S2P Require Import Prelude Text Paths WorkContract AgentContract WorkReducer WorkReducerProps WorkBatch.

Local Open Scope Z_scope.

(** ** Runs *)

(** One call of [work_status]: what [signals_since] would return, the clock and the flag. *)
Record Observation := mkObservation {
  ob_signals : option string → AgentInboxResult;
  ob_now : Z;
  ob_rebuild : bool;
}.

Section runs.
Context `{Unicode, WorkJson}.

Definition ob_messages (o : Observation) (s : WorkStateFile) : list AgentMessage :=
  ai_messages (ob_signals o (ws_cursor (if ob_rebuild o then fresh else s))).

(** A run with the messages it read. *)
Fixpoint observe_all (obs : list Observation) (s : WorkStateFile) : option (WorkStateFile * list AgentMessage) :=
  match obs with
  | [] => Some (s, [])
  | o :: obs =>
      '(s', _) ← work_status (ob_signals o) (ob_now o) (ob_rebuild o) s;
      '(s'', history) ← observe_all obs s';
      Some (s'', ob_messages o s ++ history)
  end.

(** A message id is the hash of the snapshot that carries the message. *)
Definition message_ids_unique (history : list AgentMessage) : Prop :=
  ∀ m m', m ∈ history → m' ∈ history → ms_message_id m = ms_message_id m' → ms_body m = ms_body m'.

Definition observed_in (history : list AgentMessage) (c : WorkCandidate) : Prop :=
  ∃ m, m ∈ history ∧ candidate_of m = Some c.

Lemma candidate_of_Some m c :
  candidate_of m = Some c →
  parse_work_profile (ms_body m) = Some (ca_profile c) ∧ ms_message_id m = ca_message_id c ∧ ms_from m = ca_from c.
Proof. unfold candidate_of. intros (profile & Hp & [= <-])%bind_Some. done. Qed.

Lemma observed_unique history c c' :
  message_ids_unique history → observed_in history c → observed_in history c' →
  ca_message_id c = ca_message_id c' → ca_profile c = ca_profile c'.
Proof.
  intros Hu (m & Hm & (Hp & Hid & _)%candidate_of_Some) (m' & Hm' & (Hp' & Hid' & _)%candidate_of_Some) Heq.
  assert (ms_body m = ms_body m') as Hbody by (apply Hu; congruence). congruence.
Qed.

Lemma work_status_ok observed o s s' settled :
  (∀ c c', observed c → observed c' → ca_message_id c = ca_message_id c' → ca_profile c = ca_profile c') →
  state_ok observed s → within_bounds s →
  (∀ m c, m ∈ ob_messages o s → candidate_of m = Some c → observed c) →
  work_status (ob_signals o) (ob_now o) (ob_rebuild o) s = Some (s', settled) →
  state_ok observed s' ∧ within_bounds s'.
Proof.
  intros Hu Hok Hwb Hm Hstatus. unfold work_status, ob_messages in *.
  set (s0 := if ob_rebuild o then fresh else s) in *.
  assert (state_ok observed s0) as Hok0 by (unfold s0; destruct (ob_rebuild o); [apply fresh_ok|done]).
  assert (within_bounds s0) as Hwb0 by (unfold s0; destruct (ob_rebuild o); [apply fresh_bounded|done]).
  apply bind_Some in Hstatus as ([s1 n] & Hbatch & [= <- <-]).
  destruct (apply_batch_ok observed Hu s0 _ _ _ _ Hok0 Hwb0 Hm Hbatch) as [Hok1 [? ? ? ? ?]].
  split; [by apply (state_ok_same _ s1)|by split].
Qed.

Lemma observe_all_ok observed obs s s' history :
  (∀ c c', observed c → observed c' → ca_message_id c = ca_message_id c' → ca_profile c = ca_profile c') →
  state_ok observed s → within_bounds s → observe_all obs s = Some (s', history) →
  (∀ m c, m ∈ history → candidate_of m = Some c → observed c) → state_ok observed s' ∧ within_bounds s'.
Proof.
  intros Hu. revert s history. induction obs as [|o obs IH]; intros s history Hok Hwb Hrun Hm; simpl in Hrun.
  { by simplify_eq. }
  apply bind_Some in Hrun as ([s1 n] & Hstatus & Hrun). apply bind_Some in Hrun as ([s2 rest] & Hrun & [= <- <-]).
  destruct (work_status_ok observed o s s1 n) as [Hok1 Hwb1]; [done..| |done|].
  { intros m c Hin. apply Hm. apply elem_of_app. by left. }
  eapply IH; [done..|]. intros m c Hin. apply Hm. apply elem_of_app. by right.
Qed.

(** Everything known of a projection that a run produced. *)
Lemma run_ok obs s history :
  observe_all obs fresh = Some (s, history) → message_ids_unique history →
  state_ok (observed_in history) s ∧ within_bounds s.
Proof.
  intros Hrun Hu. eapply observe_all_ok; [|apply fresh_ok|apply fresh_bounded|exact Hrun|].
  - intros c c'. by apply observed_unique.
  - intros m c Hin Hc. by exists m.
Qed.

(** ** Authority *)

(** C5. A proposal is moved only by those entitled to move it. Whatever messages a run of
    [work_status] read, a record that is no longer proposed carries a decision that the run read
    in a message from the record's own coordinator (its author when it names none) about exactly
    this intent; and its state is the state of that decision or, after an accepting decision, a
    state its author announced in a message about this intent. *)
Theorem decided_by_coordinator obs s history t r :
  observe_all obs fresh = Some (s, history) → message_ids_unique history →
  t ∈ ws_tasks s → r ∈ tk_proposals t → pr_state r ≠ Proposed →
  ∃ d m p, pr_decision r = Some d ∧ m ∈ history ∧ ms_message_id m = de_message_id d
    ∧ ms_from m = authorized_coordinator r ∧ parse_work_profile (ms_body m) = Some (WorkDecision p)
    ∧ wd_proposal_message_id p = pr_intent_message_id r ∧ wd_kind p = de_kind d
    ∧ (pr_state r = decision_state (wd_kind p)
       ∨ decision_state (wd_kind p) = Accepted
         ∧ ∃ m' profile sequence, m' ∈ history ∧ ms_from m' = pr_agent r
             ∧ parse_work_profile (ms_body m') = Some profile ∧ author_target profile = Some (pr_state r)
             ∧ author_key profile = Some (tk_task_id t, pr_intent_message_id r, sequence)).
Proof.
  intros Hrun Hu Ht Hr Hst. destruct (run_ok _ _ _ Hrun Hu) as [[Hrec _ _ _ _ _] _].
  unfold tasks_ok in Hrec. rewrite Forall_forall in Hrec. specialize (Hrec t Ht).
  rewrite Forall_forall in Hrec. specialize (Hrec r Hr).
  destruct (pr_decision r) as [d|] eqn:Hd; [|by destruct Hst; apply (ok_undecided _ _ _ Hrec)].
  destruct (ok_decided _ _ _ Hrec d Hd) as [(c & p & (m & Hm & (Hp & Hid & Hfrom)%candidate_of_Some) & Hcp & Hcid
    & Hcf & Hprop & Hkind & _) Hu'].
  exists d, m, p. repeat split; try congruence. rewrite Hkind.
  destruct Hu' as [?|[Hacc (c' & sequence & (m' & Hm' & (Hp' & _ & Hfrom')%candidate_of_Some) & Hcf' & Htarget & Hkey)]];
    [by left|right].
  split; [done|]. exists m', (ca_profile c'), sequence. repeat split; congruence.
Qed.

(** C34. The shape of the projection after any run: one record per task id, one proposal per
    intent, no record with a decision still proposed and none without one decided; the applied
    ids strictly ascending, so that the binary searches find exactly their members, and at most
    4096; the tasks no more than the caps of the active and of the terminal ones together; and the
    evidence, the pending candidates, the ascending seen ids, the proposals of each task and the
    amendments of each proposal within their bounds.  The decisions superseded on a proposal have
    no bound in the reducer, and the terminal tasks alone may exceed theirs. *)
Theorem projection_well_formed obs s history :
  observe_all obs fresh = Some (s, history) → message_ids_unique history →
  NoDup (tk_task_id <$> ws_tasks s)
  ∧ NoDup (concat ((λ t, pr_intent_message_id <$> tk_proposals t) <$> ws_tasks s))
  ∧ tasks_ok (λ _ r, pr_state r = Proposed ↔ pr_decision r = None) (ws_tasks s)
  ∧ StronglySorted str_lt (ws_applied s)
  ∧ zlen (ws_applied s) ≤ WORK_MAX_APPLIED ∧ zlen (ws_tasks s) ≤ WORK_MAX_ACTIVE_TASKS + WORK_MAX_TERMINAL_TASKS
  ∧ within_bounds s.
Proof.
  intros Hrun Hu. destruct (run_ok _ _ _ Hrun Hu) as [[Hrec [Ht Hi Hb] _ Hs Ha _] Hwb].
  repeat split; try done; try apply Hwb.
  unfold tasks_ok in *. eapply Forall_impl; [exact Hrec|]. intros t Hps. eapply Forall_impl; [exact Hps|].
  intros r. apply ok_state_iff.
Qed.

(** ** Batches *)


(** The order in which the messages of one batch are delivered does not matter: permuting
    them gives the same projection and the same count, when no id is delivered twice and the ids
    seen are in the order the reducer keeps them. *)
Theorem batch_order_irrelevant s messages messages' rebuild :
  messages ≡ₚ messages' →
  NoDup ((ca_message_id <$> ws_pending s) ++ (ms_message_id <$> messages)) →
  StronglySorted str_lt (ws_seen s) → zlen (ws_seen s) ≤ WORK_MAX_SEEN →
  apply_batch s messages rebuild = apply_batch s messages' rebuild.
Proof.
  intros Hperm Hnd Hsorted Hlen. unfold apply_batch. set (s0 := if rebuild then fresh else s).
  assert (NoDup ((ca_message_id <$> ws_pending s0) ++ (ms_message_id <$> messages))
          ∧ StronglySorted str_lt (ws_seen s0) ∧ zlen (ws_seen s0) ≤ WORK_MAX_SEEN) as (Hnd0 & Hs0 & Hl0).
  { unfold s0. destruct rebuild; [|done]. simpl. split; [by apply NoDup_app in Hnd as (_ & _ & ?)|].
    split; [constructor|done]. }
  rewrite <-(insert_seen_perm (ms_message_id <$> messages) (ms_message_id <$> messages') (ws_seen s0) Hs0 Hl0)
    by by rewrite Hperm.
  set (s1 := set_seen s0 (foldl _ _ _)).
  assert (batch_candidates s1 messages' = batch_candidates s1 messages) as ->; [|done].
  apply sort_by_permutation; [|by rewrite Hperm]. rewrite fmap_app. eapply submseteq_NoDup; [|exact Hnd0].
  rewrite Hperm. apply submseteq_app; [done|]. clear. induction messages' as [|m ms IH]; [done|]. csimpl.
  destruct (candidate_of m) as [c|] eqn:Hc; csimpl.
  - apply candidate_of_Some in Hc as (_ & -> & _). by apply submseteq_skip.
  - by apply submseteq_cons.
Qed.
End runs.

(** ** Eviction of terminal tasks *)

(** A decided task with one proposal. *)
Definition decided_task (state : WorkTaskState) (sequence : Z) : WorkTaskRecord :=
  let id := pretty sequence in
  mkWorkTaskRecord id
    [mkWorkProposalRecord "agent" sequence id None None (mkWorkScope [] [] []) (mkWorkScope [] [] []) [] state
       (Some (mkWorkDecisionRecord "decision" "agent" (Accept None) None None)) [] [] [] None None None None id
       None 0] 0.

(** 514 blocked tasks, two more than are retained, the least active ones last. *)
Definition crowded : list WorkTaskRecord :=
  (decided_task Blocked <$> seqZ 3 512) ++ [decided_task Blocked 2; decided_task Blocked 1].

(** The eviction of terminal tasks removes by stale indices: it takes the chosen indices in
    the reverse of their activity order, so once a smaller index has gone a larger one points
    past its task. With two blocked tasks too many the loop indexes out of range and panics; with
    an accepted task (here 600) after them, it is the accepted task that leaves with task 2 while
    the least active blocked task, 1, stays, and the projection is not marked incomplete. *)
Example terminal_eviction_misindexed :
  maintain_bounds (set_tasks fresh crowded) = None
  ∧ (λ s, (tk_task_id <$> ws_tasks s, ws_incomplete s)) <$>
      maintain_bounds (set_tasks fresh (crowded ++ [decided_task Accepted 600]))
    = Some (pretty <$> (seqZ 3 512 ++ [1]), false).
Proof. split; vm_compute; reflexivity. Qed.

(** ** A concrete run

    Ann proposes work to Cora, who accepts it; Ann then reports that she is blocked.  The
    profiles are encoded by a table. *)
Definition table_json (table : list (string * WorkProfile)) : WorkJson := {|
  profile_to_string profile := from_option fst "" (find (λ row, bool_decide (row.2 = profile)) table);
  profile_from_str json := snd <$> find (λ row, String.eqb row.1 json) table;
  request_to_string _ := "";
  request_from_str _ := None;
|}.

Definition id_of (c : ascii) : string := String.string_of_list_ascii (replicate 64 c).

Definition demo_profiles : list (string * WorkProfile) := [
  ("intent", WorkIntent (mkWorkIntentProfile "task" "ann" 1 None (Some "cora") ["src/a.rs"] [] [] []));
  ("accept", WorkDecision (mkWorkDecisionProfile (id_of "a") (Accept None)));
  ("blocked", WorkBlocked (mkWorkBlockedProfile "task" (id_of "a") 2 "no access"))].
#[local] Instance demo_unicode : Unicode := ascii_unicode.
#[local] Instance demo_json : WorkJson := table_json demo_profiles.

(** A broadcast status signal. *)
Definition signal (id from body : string) (created_at_ms : Z) : AgentMessage :=
  mkAgentMessage id from "*" Status body (id_of "0") None created_at_ms.
Definition demo_messages : list AgentMessage := [
  signal (id_of "c") "ann" "ffwork1:blocked" 3;
  signal (id_of "b") "cora" "ffwork1:accept" 2;
  signal (id_of "a") "ann" "ffwork1:intent" 1].
Definition demo_run : list Observation :=
  [mkObservation (λ _, mkAgentInboxResult (id_of "c") false demo_messages) 4 false].
Definition demo_state : WorkStateFile := from_option fst fresh (observe_all demo_run fresh).
Definition demo_task : WorkTaskRecord := default (decided_task Proposed 0) (head (ws_tasks demo_state)).
Definition demo_record : WorkProposalRecord :=
  default (intent_record (mkWorkCandidate "" "" (WorkBlocked (mkWorkBlockedProfile "" "" 0 "")) 0)
    (mkWorkIntentProfile "" "" 0 None None [] [] [] [])) (head (tk_proposals demo_task)).

Example demo_runs :
  observe_all demo_run fresh = Some (demo_state, demo_messages) ∧ pr_state demo_record = Blocked
  ∧ ws_applied demo_state = [id_of "a"; id_of "b"; id_of "c"].
Proof. vm_compute. done. Qed.

Lemma demo_unique : message_ids_unique demo_messages.
Proof.
  intros m m' Hm Hm' Heq. apply list_elem_of_In in Hm, Hm'. simpl in Hm, Hm'.
  destruct Hm as [<-|[<-|[<-|[]]]], Hm' as [<-|[<-|[<-|[]]]]; try reflexivity; vm_compute in Heq; discriminate.
Qed.

Lemma demo_observed : observe_all demo_run fresh = Some (demo_state, demo_messages).
Proof. vm_compute. reflexivity. Qed.

(** The statement applied to the run above: Cora's message is the one that decided Ann's record. *)
Lemma decided_by_coordinator_witness :
  ∃ d m p, pr_decision demo_record = Some d ∧ m ∈ demo_messages ∧ ms_from m = "cora"
    ∧ parse_work_profile (ms_body m) = Some (WorkDecision p) ∧ decision_state (wd_kind p) = Accepted.
Proof.
  destruct (decided_by_coordinator demo_run demo_state demo_messages demo_task demo_record)
    as (d & m & p & Hd & Hm & _ & Hfrom & Hp & _ & _ & Hst).
  - exact demo_observed.
  - exact demo_unique.
  - apply list_elem_of_In. vm_compute. left. reflexivity.
  - apply list_elem_of_In. vm_compute. left. reflexivity.
  - vm_compute. discriminate.
  - exists d, m, p. split; [exact Hd|]. split; [exact Hm|]. split; [exact Hfrom|]. split; [exact Hp|].
    destruct Hst as [Hst|[Hst _]]; [|exact Hst]. assert (pr_state demo_record = Blocked) as Hb by (vm_compute; reflexivity).
    rewrite Hb in Hst. destruct (wd_kind p); discriminate Hst.
Defined.

(** The statement applied to the run above. *)
Lemma projection_well_formed_witness :
  NoDup (tk_task_id <$> ws_tasks demo_state) ∧ StronglySorted str_lt (ws_applied demo_state)
  ∧ within_bounds demo_state ∧ ws_applied demo_state ≠ [].
Proof.
  destruct (projection_well_formed demo_run demo_state demo_messages demo_observed demo_unique)
    as (Ht & _ & _ & Ha & _ & _ & Hb).
  split; [exact Ht|]. split; [exact Ha|]. split; [exact Hb|]. vm_compute. discriminate.
Defined.


(** The statement applied to the messages above, delivered oldest first. *)
Lemma batch_order_irrelevant_witness :
  apply_batch fresh demo_messages false = apply_batch fresh (reverse demo_messages) false
  ∧ is_Some (apply_batch fresh demo_messages false).
Proof.
  split; [|vm_compute; eexists; reflexivity]. apply batch_order_irrelevant.
  - symmetry. apply reverse_Permutation.
  - apply (bool_decide_unpack _). vm_compute. exact I.
  - constructor.
  - vm_compute. discriminate.
Defined.

(** ** Two behaviours of the reducer on concrete messages *)

(** Ann's intent on one file, narrowed by Cora; and an accepting decision that Cora takes back.
    The message that takes it back has a smaller id than the decision. *)
Definition case_profiles : list (string * WorkProfile) := [
  ("intent", WorkIntent (mkWorkIntentProfile "task" "ann" 1 None (Some "cora") ["src/a.rs"] [] [] []));
  ("narrow", WorkDecision (mkWorkDecisionProfile (id_of "a") (Narrow ["src/**"] [] None)));
  ("accept", WorkDecision (mkWorkDecisionProfile (id_of "a") (Accept None)));
  ("undo", WorkSuperseded (mkWorkSupersededProfile "task" (id_of "a") (id_of "c") None))].
Definition intent_message : AgentMessage := signal (id_of "a") "ann" "ffwork1:intent" 1.
Definition narrow_message : AgentMessage := signal (id_of "b") "cora" "ffwork1:narrow" 2.
Definition undo_message : AgentMessage := signal (id_of "b") "cora" "ffwork1:undo" 3.
Definition accept_message : AgentMessage := signal (id_of "c") "cora" "ffwork1:accept" 2.

(** One observation that reads these messages. *)
Definition reading (messages : list AgentMessage) : Observation :=
  mkObservation (λ _, mkAgentInboxResult (id_of "f") false messages) 4 false.
Definition records_after (batches : list (list AgentMessage)) : list WorkProposalRecord :=
  from_option (λ run, concat (tk_proposals <$> ws_tasks run.1)) []
    (@observe_all demo_unicode (table_json case_profiles) (reading <$> batches) fresh).

(** A narrowing decision can widen the scope: declared work on one file is narrowed to a glob
    over its directory, and the accepted scope covers a file the author never declared. *)
Theorem narrow_widens_scope :
  (λ r, (pr_state r, scope_covers_path (pr_original_scope r) "src/b.rs", scope_covers_path (pr_scope r) "src/b.rs"))
    <$> records_after [[intent_message; narrow_message]] = [(Accepted, false, true)].
Proof. vm_compute. reflexivity. Qed.

(** How the same messages are split into batches changes the outcome: a message that takes a
    decision back, delivered with the decision in one batch and with the smaller id, is turned
    down as naming an unknown decision, and the proposal stays accepted; delivered one batch
    later it returns the proposal to the proposed state. *)
Theorem split_delivery_diverges :
  pr_state <$> records_after [[intent_message; accept_message; undo_message]] = [Accepted]
  ∧ pr_state <$> records_after [[intent_message; accept_message]; [undo_message]] = [Proposed].
Proof. split; vm_compute; reflexivity. Qed.
