(* ===== verification/WorkStatus.v ===== *)
(** * Work intents: the rendered projection

    [status_result] of agent-core/src/work.rs and the structures of work_contract.rs it fills:
    the view of the reducer's state that every reader of the projection is given. *)
From Stdlib Require Import ZArith Lia Ascii Strings.Byte.
From stdpp Require Import sorting numbers strings gmap list_numbers list options.
From S2P Require Import Prelude Text Paths WorkContract AgentContract WorkReducer.

Local Open Scope Z_scope.

Record WorkDecisionStatus := mkWorkDecisionStatus {
  ds_message_id : string;
  ds_coordinator : string;
  ds_kind : WorkDecisionKind;
  ds_ordered_after : option string;
}.
Record WorkAmendmentStatus := mkWorkAmendmentStatus {
  as_message_id : string;
  as_sequence : Z;
  as_reason : option string;
}.
Record WorkProposalStatus := mkWorkProposalStatus {
  ps_agent : string;
  ps_status : WorkTaskState;
  ps_sequence : Z;
  ps_intent_message_id : string;
  ps_coordinator : option string;
  ps_accepted_scope : WorkScope;
  ps_capabilities : list string;
  ps_decision : option WorkDecisionStatus;
  ps_accepted_overlap : list WorkOverlapAcceptance;
  ps_amendments : list WorkAmendmentStatus;
  ps_causal_refs : list string;
  ps_inspected_snapshot : option string;
  ps_verification : option WorkVerification;
  ps_outcome : option string;
  ps_reason : option string;
  ps_source_message_id : string;
  ps_updated_at_ms : Z;
}.
Record WorkTaskStatus := mkWorkTaskStatus {
  ts_task_id : string;
  ts_state : WorkTaskState;
  ts_proposals : list WorkProposalStatus;
}.
Record WorkStatusResult := mkWorkStatusResult {
  sr_cursor : string;
  sr_cursor_reset : bool;
  sr_projection_incomplete : bool;
  sr_messages_processed : nat;
  sr_tasks : list WorkTaskStatus;
  sr_evidence_count : Z;
  sr_dropped_count : Z;
  sr_updated_at_ms : Z;
  sr_applied_message_ids : list string;
}.

(** The references a record's transitions made, in the order they are collected. *)
Definition causal_refs (r : WorkProposalRecord) : list string :=
  option_list (pr_causal_base r)
  ++ option_list (d ← pr_decision r; match de_kind d with Order after _ => after | _ => None end)
  ++ pr_superseded_decisions r ++ omap am_approval_decision_id (pr_amendments r).

Definition proposal_status (r : WorkProposalRecord) : WorkProposalStatus :=
  mkWorkProposalStatus (pr_agent r) (pr_state r) (pr_sequence r) (pr_intent_message_id r) (pr_coordinator r)
    (pr_scope r) (pr_capabilities r)
    ((λ d, mkWorkDecisionStatus (de_message_id d) (de_coordinator d) (de_kind d) (de_ordered_after d)) <$> pr_decision r)
    (pr_accepted_overlap r)
    ((λ a, mkWorkAmendmentStatus (am_message_id a) (am_sequence a) (am_reason a)) <$> pr_amendments r)
    (causal_refs r) (pr_inspected_snapshot r) (pr_verification r) (pr_outcome r) (pr_reason r)
    (pr_source_message_id r) (pr_updated_at_ms r).

(** The stable sort of the proposals by sequence, then by intent. *)
Definition proposal_before (a b : WorkProposalStatus) : bool :=
  (ps_sequence a <? ps_sequence b)
  || (ps_sequence a =? ps_sequence b) && bool_decide (str_lt (ps_intent_message_id a) (ps_intent_message_id b)).
Fixpoint insert_proposal (x : WorkProposalStatus) (l : list WorkProposalStatus) : list WorkProposalStatus :=
  match l with
  | [] => [x]
  | y :: l' => if proposal_before y x then y :: insert_proposal x l' else x :: y :: l'
  end.
Definition sort_proposals (l : list WorkProposalStatus) : list WorkProposalStatus := foldr insert_proposal [] l.

Definition task_status (t : WorkTaskRecord) : WorkTaskStatus :=
  mkWorkTaskStatus (tk_task_id t) (task_state t) (sort_proposals (proposal_status <$> tk_proposals t)).

Definition status_result (s : WorkStateFile) (messages_processed : nat) (cursor_reset : bool) : WorkStatusResult :=
  mkWorkStatusResult (default "" (ws_cursor s)) cursor_reset (ws_incomplete s) messages_processed
    (sort_by ts_task_id (task_status <$> ws_tasks s)) (zlen (ws_evidence s)) (ws_dropped_count s)
    (ws_updated_at_ms s) (ws_applied s).

(** ** Lemmas *)
Lemma insert_proposal_perm x l : insert_proposal x l ≡ₚ x :: l.
Proof.
  induction l as [|y l IH]; simpl; [done|]. destruct (proposal_before y x); [|done].
  rewrite IH. apply Permutation_swap.
Qed.

Lemma sort_proposals_perm l : sort_proposals l ≡ₚ l.
Proof. induction l as [|x l IH]; simpl; [done|]. by rewrite insert_proposal_perm, IH. Qed.

(** The view shows exactly the tasks and records of the state. *)
Lemma elem_of_status_tasks s n reset ts :
  ts ∈ sr_tasks (status_result s n reset) ↔ ∃ t, t ∈ ws_tasks s ∧ ts = task_status t.
Proof. simpl. rewrite sort_by_perm, list_elem_of_fmap. naive_solver. Qed.

Lemma elem_of_status_proposals t p :
  p ∈ ts_proposals (task_status t) ↔ ∃ r, r ∈ tk_proposals t ∧ p = proposal_status r.
Proof. simpl. rewrite sort_proposals_perm, list_elem_of_fmap. naive_solver. Qed.
