(* ===== verification/WorkShape.v ===== *)
(** * Work intents: the records stay well formed

    A predicate on records that the reducer's record operations keep holds of every record after
    any run; applied to well-formedness: every scope, reference and name a record carries is one
    the message contract accepts, whatever was amended, narrowed, superseded or undone. *)
From Stdlib Require Import ZArith Lia Ascii Strings.Byte.
From stdpp Require Import sorting numbers strings gmap list_numbers list options.
From S2P Require Import Prelude Text Paths WorkContract AgentContract WorkReducer WorkReducerProps WorkBatch WorkTheorems.
From S2P Require Import WorkStatus.

Local Open Scope Z_scope.

(** ** Predicates kept by a run *)
Section kept.
Context (P : WorkProposalRecord → Prop) (C : WorkCandidate → Prop).

(** What the record operations must keep. *)
Record record_kept : Prop := {
  rk_intent c p : C c → ca_profile c = WorkIntent p → P (intent_record c p);
  rk_undo_decision r d : P r → pr_decision r = Some d →
    P (undo_decision (default (mkWorkDecisionRestore (pr_original_scope r) [] None) (de_restore d)) r);
  rk_decide c p authorized r : C c → ca_profile c = WorkDecision p → P r → P (decide_record c authorized (wd_kind p) r);
  rk_undo_author r ar : P r → pr_author_restore r = Some ar → P (undo_author ar r);
  rk_transition c sequence r : C c → P r → P (transition_record c sequence (ca_profile c) r);
  rk_supersede c p r : C c → ca_profile c = WorkSuperseded p → P r → P (supersede_record c p r);
  rk_amendments r amendments : P r → (∀ a, a ∈ amendments → a ∈ pr_amendments r) → P (set_amendments r amendments);
}.
Hypothesis kept : record_kept.

Definition all_records (s : WorkStateFile) : Prop := tasks_ok (λ _, P) (ws_tasks s).

Lemma apply_intent_kept s c p :
  C c → ca_profile c = WorkIntent p → all_records s → all_records (apply_intent s c p).2.
Proof using kept.
  intros Hc Hp Hok. unfold apply_intent. destruct (existsb _ _); [done|]. destruct (existsb _ _); [done|].
  set (s1 := evict_all _ _ _). assert (all_records s1) as Hok1 by by apply tasks_ok_evict_all.
  assert (all_records (admit_intent s1 c p).2) as Hadmit.
  { unfold admit_intent. case_bool_decide; [done|]. destruct (existsb _ _); [done|].
    set (s2 := evict_all _ _ _). assert (all_records s2) as Hok2 by by apply tasks_ok_evict_all.
    destruct (dependency_creates_cycle _ _ _); [done|]. destruct (negb _ && _); [done|].
    apply tasks_ok_add; [done|]. by apply (rk_intent kept). }
  destruct (wi_causal_base p) as [base|]; [|done]. by destruct (base_applied s1 base).
Qed.

Lemma apply_decision_kept s c p :
  C c → ca_profile c = WorkDecision p → all_records s → all_records (apply_decision s c p).2.
Proof using kept.
  intros Hc Hp Hok. unfold apply_decision.
  destruct (find_proposal_by_intent_index _ _) as [l|] eqn:Hfind; [|done].
  apply find_location in Hfind as [Hl _]. destruct (negb _); [done|].
  assert (match prepare_decision s c l with
          | inl res => all_records res.2
          | inr (s', r') => all_records s' ∧ at_location (ws_tasks s') (relocate l r')
          end) as Hprep.
  { unfold prepare_decision. case_decide; [by destruct l|].
    destruct (pr_decision (lo_record l)) as [d|] eqn:Hd; [|done]. case_bool_decide; [done|].
    destruct (_ && _); [|done]. set (s1 := add_evidence _ _ _ _). set (r' := undo_decision _ _).
    assert (P r') by by apply (rk_undo_decision kept); [apply (tasks_ok_at _ _ _ Hok Hl)|].
    split; [by apply (tasks_ok_update _ s1)|by apply (at_location_update s1 l (λ _, r'))]. }
  destruct (prepare_decision s c l) as [res|[s' r']]; [done|]. destruct Hprep as [Hok' Hl'].
  destruct (decision_rejection _ _ _ _); [done|].
  apply (tasks_ok_update _ _ (relocate l r')); [done..|]. apply (rk_decide kept); [done..|].
  by apply (tasks_ok_at _ _ _ Hok' Hl').
Qed.

Lemma apply_author_kept s c :
  C c → all_records s → all_records (apply_author_transition s c (ca_profile c)).2.
Proof using kept.
  intros Hc Hok. unfold apply_author_transition.
  destruct (author_key (ca_profile c)) as [[[task_id intent] sequence]|]; [|done].
  destruct (find_proposal_mut _ _ _) as [l|] eqn:Hfind; [|done]. apply find_location in Hfind as [Hl _].
  assert (match prepare_author s c l task_id sequence with
          | inl res => all_records res.2
          | inr (s', r') => all_records s' ∧ at_location (ws_tasks s') (relocate l r')
          end) as Hprep.
  { unfold prepare_author. destruct (negb _); [done|]. destruct (_ <? _); [done|].
    destruct (_ =? _); [|by destruct l]. case_bool_decide; [done|]. case_bool_decide; [|done].
    destruct (pr_author_restore _) as [ar|] eqn:Har; [|done]. case_bool_decide; [|done].
    set (s1 := add_evidence _ _ _ _). set (r' := undo_author _ _).
    assert (P r') by by apply (rk_undo_author kept); [apply (tasks_ok_at _ _ _ Hok Hl)|].
    split; [by apply (tasks_ok_update _ s1)|by apply (at_location_update s1 l (λ _, r'))]. }
  destruct (prepare_author _ _ _ _ _) as [res|[s' r']]; [done|]. destruct Hprep as [Hok' Hl'].
  destruct (transition_rejection _ _); [by destruct (premature_for_state _ _)|].
  destruct (amendment_allowed _ _); [|done]. apply (tasks_ok_update _ _ (relocate l r')); [done..|].
  apply (rk_transition kept); [done|]. by apply (tasks_ok_at _ _ _ Hok' Hl').
Qed.

Lemma apply_superseded_kept s c p :
  C c → ca_profile c = WorkSuperseded p → all_records s → all_records (apply_superseded s c p).2.
Proof using kept.
  intros Hc Hp Hok. unfold apply_superseded. destruct (find_proposal_mut _ _ _) as [l|] eqn:Hfind; [|done].
  apply find_location in Hfind as [Hl _]. destruct (negb _); [done|]. destruct (negb _); [done|].
  destruct (pr_decision (lo_record l)); [|by case_bool_decide]. destruct (negb _); [done|].
  apply tasks_ok_update; [done..|]. apply (rk_supersede kept); [done..|]. by apply (tasks_ok_at _ _ _ Hok Hl).
Qed.

Lemma apply_transition_kept s c : C c → all_records s → all_records (apply_transition s c).2.
Proof using kept.
  intros Hc Hok. unfold apply_transition. pose proof (apply_author_kept s c Hc Hok) as Hauthor.
  destruct (ca_profile c) as [p|p| | | | | |p] eqn:Hp; try done;
    [by apply apply_intent_kept|by apply apply_decision_kept|by apply apply_superseded_kept].
Qed.

Lemma settle_kept acc c : C c → all_records (ps_state acc) → all_records (ps_state (settle acc c)).
Proof using kept.
  intros Hc Hok. unfold settle. pose proof (apply_transition_kept _ _ Hc Hok) as Hs.
  destruct (apply_transition (ps_state acc) c) as [[| |reason|] s]; simpl in *; try done.
  unfold insert_applied. case_bool_decide; [done|]. unfold all_records. simpl. by destruct (_ <=? _).
Qed.

Lemma bound_task_kept t : Forall P (tk_proposals t) → Forall P (tk_proposals (bound_task t).1).
Proof using kept.
  intros Hok. unfold bound_task.
  pose proof (trim_to_Forall (min_index chain_lt) (min_index_picks _) (length (tk_proposals t))
    WORK_MAX_PROPOSALS_PER_TASK _ _ Hok) as Hkept.
  destruct (trim_to _ _ _ _) as [kept_records removed]. simpl in *. rewrite <-list_fmap_compose. apply Forall_fmap.
  eapply Forall_impl; [exact Hkept|]. intros r Hr. simpl. unfold bound_amendments.
  pose proof (trim_to_perm (max_index (id_lt am_message_id)) (max_index_picks _) (length (pr_amendments r))
    WORK_MAX_AMENDMENTS (pr_amendments r)) as Hperm.
  destruct (trim_to _ _ _ _) as [l removed']. simpl in *. apply (rk_amendments kept); [done|].
  intros a Ha. rewrite <-Hperm. apply elem_of_app. by left.
Qed.

Lemma maintain_bounds_kept s s' : maintain_bounds s = Some s' → all_records s → all_records s'.
Proof using kept.
  unfold maintain_bounds. intros Hs' Hok. apply bind_Some in Hs' as (tasks & Htasks & [= <-]).
  apply evict_terminal_sublist in Htasks. simpl in Htasks. unfold all_records, tasks_ok. simpl.
  eapply sublist_Forall; [done|]. rewrite <-list_fmap_compose. apply Forall_fmap.
  eapply Forall_impl; [exact Hok|]. intros t. apply bound_task_kept.
Qed.

Context `{Unicode, WorkJson}.

Definition kept_state (s : WorkStateFile) : Prop := all_records s ∧ Forall C (ws_pending s).

Lemma apply_batch_kept s messages rebuild s' settled :
  kept_state s → (∀ m c, m ∈ messages → candidate_of m = Some c → C c) →
  apply_batch s messages rebuild = Some (s', settled) → kept_state s'.
Proof using kept.
  intros [Hok Hpend] Hm Hbatch. unfold apply_batch in Hbatch.
  set (s0 := if rebuild then fresh else s) in Hbatch.
  assert (kept_state s0) as [Hok0 Hpend0] by (unfold s0; destruct rebuild; [split; constructor|done]).
  set (s1 := set_seen _ _) in Hbatch. set (cs := batch_candidates s1 messages) in Hbatch. cbv zeta in Hbatch.
  assert (Forall C cs) as Hcs by (by apply batch_candidates_observed).
  apply bind_Some in Hbatch as (p & Hpasses & Hbatch). apply bind_Some in Hbatch as (s2 & Hbounds & [= <- <-]).
  destruct (passes_invariant all_records C settle_kept _ _ _ _ _ (Hok0 : all_records (set_pending s1 [])) Hcs Hpasses)
    as [Hok3 Hrem].
  split.
  - eapply maintain_bounds_kept; [exact Hbounds|]. unfold all_records. by rewrite push_pending_tasks.
  - assert (ws_pending (ps_state p) = []) as Hp3.
    { destruct (passes_invariant (λ s, ws_pending s = []) C) with (fuel := S (length cs)) (s := set_pending s1 [])
        (settled := 0%nat) (candidates := cs) (p := p) as [? _]; [|done..].
      intros acc c _ Hap. by destruct (settle_logs acc c) as [-> _]. }
    assert (∀ l s, Forall C l → Forall C (ws_pending s) → Forall C (ws_pending (foldl push_pending s l))) as Hpush.
    { intros l. induction l as [|c l IH]; intros s4 Hl Hs4; [done|]. apply Forall_cons in Hl as [Hc Hl].
      apply IH; [done|]. unfold push_pending.
      pose proof (trim_to_Forall (max_index (id_lt ca_message_id)) (max_index_picks _)
        (length (ws_pending s4 ++ [c])) WORK_MAX_PENDING (ws_pending s4 ++ [c]) C) as Hkept.
      destruct (trim_to _ _ _ _) as [l' removed]. simpl in Hkept.
      destruct (mark_dropped_iter (length removed) (set_pending s4 l')) as (_ & Hpe & _ & _). rewrite Hpe. simpl.
      apply Hkept. apply Forall_app. split; [done|by constructor]. }
    unfold maintain_bounds in Hbounds. apply bind_Some in Hbounds as (tasks & _ & [= <-]). simpl.
    apply Hpush; [by rewrite reverse_Permutation|]. by rewrite Hp3.
Qed.

Lemma observe_all_kept obs s s' history :
  kept_state s → observe_all obs s = Some (s', history) →
  (∀ m c, m ∈ history → candidate_of m = Some c → C c) → kept_state s'.
Proof using kept.
  revert s history. induction obs as [|o obs IH]; intros s history Hok Hrun Hm; simpl in Hrun; [by simplify_eq|].
  apply bind_Some in Hrun as ([s1 n] & Hstatus & Hrun). apply bind_Some in Hrun as ([s2 rest] & Hrun & [= <- <-]).
  eapply IH; [|exact Hrun|intros m c Hin; apply Hm, elem_of_app; by right].
  unfold work_status in Hstatus. apply bind_Some in Hstatus as ([s3 k] & Hbatch & [= <- <-]).
  eapply apply_batch_kept in Hbatch; [exact Hbatch|by destruct (ob_rebuild o); [split; constructor|]|].
  intros m c Hin. apply Hm, elem_of_app. left. exact Hin.
Qed.
End kept.

(** ** Well-formed records *)
Section shape.
Context `{Unicode}.

Definition total_bytes (l : list string) : Z := foldr (λ s n, slen s + n) 0 l.
Definition entry_ok (s : string) : Prop := is_valid_scope_entry s = true ∧ slen s ≤ WORK_MAX_PATH_BYTES.
Definition paths_ok (l : list string) : Prop :=
  ensure_sorted_unique l WORK_MAX_PATHS = Ok tt ∧ Forall entry_ok l ∧ total_bytes l ≤ WORK_MAX_PATHS_TOTAL_BYTES.
Definition concerns_ok (l : list string) : Prop :=
  ensure_sorted_unique l WORK_MAX_CONCERNS = Ok tt ∧ try_fold check_concern tt l = Ok tt.
Definition dependencies_ok (l : list string) : Prop :=
  ensure_sorted_unique l WORK_MAX_DEPENDENCIES = Ok tt ∧ Forall (λ d, is_valid_task_id d = true) l.
Definition capabilities_ok (l : list string) : Prop :=
  ensure_sorted_unique l WORK_MAX_CAPABILITIES = Ok tt ∧ Forall (λ c, is_valid_capability c = true) l.

Lemma total_bytes_nonneg l : 0 ≤ total_bytes l.
Proof. induction l as [|s l IH]; simpl; [done|]. unfold slen. lia. Qed.

Lemma check_path_fold l total total' :
  0 ≤ total → try_fold check_path total l = Ok total' ↔
  Forall entry_ok l ∧ total' = match l with [] => total | _ => Z.min (total + total_bytes l) USIZE_MAX end.
Proof.
  revert total. induction l as [|s l IH]; intros total Ht; simpl.
  { split; [by intros [= <-]|by intros [_ ->]]. }
  rewrite bind_Ok. split.
  - intros (t & Hc & Hf). unfold check_path in Hc. inv_ok. to_prop.
    assert (0 ≤ saturating_add total (slen s)) as Hpos by (unfold saturating_add, USIZE_MAX, U64_MAX, slen; lia).
    apply IH in Hf as [Hl ->]; [|done]. split; [by constructor|].
    destruct l as [|s' l]; [unfold saturating_add; simpl; f_equal; lia|].
    pose proof (total_bytes_nonneg (s' :: l)). unfold saturating_add. simpl total_bytes in *. lia.
  - intros [[[He Hb] Hl]%Forall_cons ->]. exists (saturating_add total (slen s)). split.
    + unfold check_path. rewrite He. simpl. by rewrite (proj2 (Z.leb_le _ _) Hb).
    + assert (0 ≤ saturating_add total (slen s)) as Hpos by (unfold saturating_add, USIZE_MAX, U64_MAX, slen; lia).
      apply IH; [done|]. split; [done|]. destruct l as [|s' l]; [unfold saturating_add; simpl; f_equal; lia|].
      pose proof (total_bytes_nonneg (s' :: l)). unfold saturating_add. simpl total_bytes in *. lia.
Qed.

Lemma check_all_Ok p message l : check_all p message l = Ok tt ↔ Forall (λ x, p x = true) l.
Proof.
  unfold check_all. induction l as [|x l IH]; simpl; [split; [constructor|done]|].
  rewrite Forall_cons, <-IH. destruct (p x); simpl; naive_solver.
Qed.

Lemma paths_checked l :
  (ensure_sorted_unique l WORK_MAX_PATHS = Ok tt
   ∧ ∃ total, try_fold check_path 0 l = Ok total ∧ (total <=? WORK_MAX_PATHS_TOTAL_BYTES) = true) ↔ paths_ok l.
Proof.
  unfold paths_ok. setoid_rewrite check_path_fold; [|done]. pose proof (total_bytes_nonneg l) as Hn.
  assert (WORK_MAX_PATHS_TOTAL_BYTES < USIZE_MAX) as Hmax by done.
  split.
  - intros (Hs & total & [Hl ->] & Ht%Z.leb_le). split; [done|]. split; [done|]. destruct l; [done|]. lia.
  - intros (Hs & Hl & Ht). split; [done|]. eexists. split; [done|]. apply Z.leb_le. destruct l; [done|]. lia.
Qed.

Lemma validate_work_scope_Ok paths concerns dependencies capabilities :
  validate_work_scope paths concerns dependencies capabilities = Ok tt ↔
  paths_ok paths ∧ concerns_ok concerns ∧ dependencies_ok dependencies ∧ capabilities_ok capabilities.
Proof.
  unfold concerns_ok, dependencies_ok, capabilities_ok. rewrite <-paths_checked. setoid_rewrite <-check_all_Ok.
  unfold validate_work_scope. split.
  - intros Hv. inv_ok. repeat split; try done. eauto.
  - intros ((-> & total & -> & Ht) & (Hc & ->) & (Hd & Hda) & (Hk & Hka)). simpl. rewrite Ht. simpl. rewrite Hc. simpl.
    rewrite Hd. simpl. rewrite Hda. simpl. rewrite Hk. simpl. exact Hka.
Qed.

Lemma validate_amendment_scope_Ok l :
  validate_amendment_scope (Some l) WORK_MAX_PATHS = Ok tt → paths_ok l.
Proof.
  simpl. intros Hv. inv_ok. to_prop. split; [done|]. split; [|done].
  clear - H1. induction l as [|x l IH]; [constructor|]. simpl in H1. apply bind_Ok in H1 as ([] & Hx & Hl).
  unfold check_amended_path in Hx. inv_ok. to_prop. constructor; [by split|]. by apply IH.
Qed.

Definition scope_ok (s : WorkScope) : Prop :=
  paths_ok (sc_paths s) ∧ concerns_ok (sc_concerns s) ∧ dependencies_ok (sc_dependencies s).

Definition valid_candidate (c : WorkCandidate) : Prop :=
  is_valid_hash (ca_message_id c) = true ∧ validate_work_profile (ca_profile c) = Ok tt.

Record shape (r : WorkProposalRecord) : Prop := {
  sh_scope : scope_ok (pr_scope r);
  sh_original : scope_ok (pr_original_scope r);
  sh_capabilities : capabilities_ok (pr_capabilities r);
  sh_source : is_valid_hash (pr_source_message_id r) = true;
  sh_coordinator name : pr_coordinator r = Some name → is_valid_agent_name name = true;
  sh_base id : pr_causal_base r = Some id → is_valid_hash id = true;
  sh_decision d : pr_decision r = Some d →
    (∀ id, decision_after (de_kind d) = Some id → is_valid_hash id = true)
    ∧ (∀ restore, de_restore d = Some restore → scope_ok (dr_scope restore));
  sh_superseded : Forall (λ id, is_valid_hash id = true) (pr_superseded_decisions r);
  sh_amendments : Forall (λ a, ∀ id, am_approval_decision_id a = Some id → is_valid_hash id = true) (pr_amendments r);
  sh_restore ar : pr_author_restore r = Some ar → scope_ok (ar_scope ar);
}.

Lemma amended_scope_ok p scope :
  validate_work_amendment p = Ok tt → scope_ok scope → scope_ok (amended_scope p scope).
Proof.
  intros Hv (Hp & Hc & Hd). unfold validate_work_amendment in Hv. inv_ok. unfold scope_ok, amended_scope. simpl.
  split; [|split].
  - destruct (wa_paths p) as [l|]; simpl; [|done]. by apply validate_amendment_scope_Ok.
  - destruct (wa_concerns p) as [l|]; simpl; [|done]. by inv_ok.
  - destruct (wa_dependencies p) as [l|]; simpl; [|done]. inv_ok. split; [done|]. by eapply check_all_Ok.
Qed.

Lemma amendment_approval_ok p id :
  validate_work_amendment p = Ok tt → wa_approval_decision_id p = Some id → is_valid_hash id = true.
Proof. intros Hv Hid. unfold validate_work_amendment in Hv. rewrite Hid in Hv. by inv_ok. Qed.

Lemma intent_shape c p : valid_candidate c → ca_profile c = WorkIntent p → shape (intent_record c p).
Proof.
  intros [Hid Hv] Hp. rewrite Hp in Hv. simpl in Hv. unfold validate_work_intent in Hv. inv_ok.
  apply validate_work_scope_Ok in Hv as (Hpa & Hco & Hde & Hca). split; simpl; try done; try constructor.
  - intros name Hname. rewrite Hname in *. inv_ok. by to_prop.
  - intros id Hbase. rewrite Hbase in *. by inv_ok.
Qed.

Lemma decide_shape c p authorized r :
  valid_candidate c → ca_profile c = WorkDecision p → shape r → shape (decide_record c authorized (wd_kind p) r).
Proof.
  intros [Hid Hv] Hp [Hsc Ho Hca Hso Hco Hb Hd Hsu Ham Hre]. rewrite Hp in Hv. simpl in Hv.
  unfold validate_work_decision in Hv. inv_ok. split; simpl; try done.
  - destruct (wd_kind p) as [| |paths concerns reason| |]; simpl in *; try done. inv_ok.
    apply validate_work_scope_Ok in H1 as (? & ? & _). by destruct Hsc as (_ & _ & ?).
  - intros d [= <-]. simpl. split; [|by intros restore [= <-]].
    intros id Hafter. destruct (wd_kind p); simpl in *; try done. subst. by inv_ok.
Qed.

Lemma transition_shape c sequence r :
  valid_candidate c → shape r → shape (transition_record c sequence (ca_profile c) r).
Proof.
  intros [Hid Hv] Hr. destruct Hr as [Hsc Ho Hca Hso Hco Hb Hd Hsu Ham Hre] eqn:E.
  destruct (ca_profile c) as [| |p| | | | |]; simpl in *; try done; split; simpl; try done;
    try (by intros ar [= <-]).
  - by apply amended_scope_ok.
  - apply Forall_app. split; [done|]. constructor; [|constructor]. simpl. intros id. by apply amendment_approval_ok.
Qed.

Lemma shape_kept : record_kept shape valid_candidate.
Proof.
  split.
  - apply intent_shape.
  - intros r d [Hsc Ho Hca Hso Hco Hb Hd Hsu Ham Hre] Hdec. destruct (Hd d Hdec) as [_ Hrestore].
    split; simpl; try done. destruct (de_restore d) as [restore|]; simpl; [by apply Hrestore|done].
  - intros c p authorized r. apply decide_shape.
  - intros r ar [Hsc Ho Hca Hso Hco Hb Hd Hsu Ham Hre] Har. split; simpl; try done; [by apply Hre|].
    by apply Forall_take.
  - intros c sequence r. apply transition_shape.
  - intros c p r [Hid Hv] Hp [Hsc Ho Hca Hso Hco Hb Hd Hsu Ham Hre]. rewrite Hp in Hv. simpl in Hv.
    unfold validate_work_superseded in Hv. inv_ok. split; simpl; try done.
    apply Forall_app. split; [done|]. by constructor.
  - intros r amendments [Hsc Ho Hca Hso Hco Hb Hd Hsu Ham Hre] Hsub. split; simpl; try done.
    apply Forall_forall. intros a Ha. rewrite Forall_forall in Ham. by apply Ham, Hsub.
Qed.

(** The references shown for a record are all message ids. *)
Lemma causal_refs_valid r id : shape r → id ∈ causal_refs r → is_valid_hash id = true.
Proof.
  intros [Hsc Ho Hca Hso Hco Hb Hd Hsu Ham Hre]. unfold causal_refs. rewrite !elem_of_app.
  intros [Hid|[Hid|[Hid|Hid]]].
  - destruct (pr_causal_base r) as [b|]; [|by apply elem_of_nil in Hid].
    apply list_elem_of_singleton in Hid as ->. by apply Hb.
  - destruct (pr_decision r) as [d|]; simpl in Hid; [|by apply elem_of_nil in Hid].
    destruct (Hd d eq_refl) as [Hafter _]. destruct (de_kind d) as [| | |after|]; simpl in *;
      try by apply elem_of_nil in Hid.
    destruct after; [|by apply elem_of_nil in Hid]. apply list_elem_of_singleton in Hid as ->. by apply Hafter.
  - rewrite Forall_forall in Hsu. by apply Hsu.
  - apply list_elem_of_omap in Hid as (a & Ha & Happ). rewrite Forall_forall in Ham. by apply (Ham a Ha).
Qed.

Context `{WorkJson}.

Lemma candidate_valid m c :
  is_valid_hash (ms_message_id m) = true → candidate_of m = Some c → valid_candidate c.
Proof.
  intros Hid Hc. destruct (candidate_of_Some _ _ Hc) as (Hp & Heq & _). split; [congruence|].
  unfold parse_work_profile in Hp. destruct (_ <? _); [done|].
  apply bind_Some in Hp as (j1 & _ & Hp). apply bind_Some in Hp as (j2 & _ & Hp).
  apply bind_Some in Hp as (profile & _ & Hp). destruct (negb _); [done|].
  destruct (is_ok _) eqn:Hok; simplify_eq/=. apply is_ok_true in Hok as [[] ?]. congruence.
Qed.

(** Every record of a projection built from signals with proper ids is well formed. *)
Lemma run_shapes obs s history t r :
  observe_all obs fresh = Some (s, history) → (∀ m, m ∈ history → is_valid_hash (ms_message_id m) = true) →
  t ∈ ws_tasks s → r ∈ tk_proposals t → shape r.
Proof.
  intros Hrun Hids Ht Hr.
  assert (kept_state shape valid_candidate fresh) as Hfresh by (split; constructor).
  destruct (observe_all_kept _ _ shape_kept _ _ _ _ Hfresh Hrun) as [Hall _].
  { intros m c Hm. apply candidate_valid. by apply Hids. }
  unfold all_records, tasks_ok in Hall. rewrite Forall_forall in Hall. specialize (Hall t Ht).
  rewrite Forall_forall in Hall. by apply Hall.
Qed.
End shape.
