(* ===== verification/Scope.v ===== *)
(** * Accepted work: which request a runner may launch

    agent-core/src/agent/scope.rs: the descriptor of an accepted intent and its validation, and
    [resolve_request_admission], which finds the accepted intent of a request in the rendered
    projection or names the reason there is none. *)
From Stdlib Require Import ZArith Lia Ascii Strings.Byte.
From stdpp Require Import sorting numbers strings gmap list_numbers list options.
From S2P Require Import Prelude Text Paths WorkContract AgentContract WorkReducer WorkStatus.

Local Open Scope Z_scope.

Definition ACCEPTED_WORK_SCHEMA_VERSION : Z := 1.

Record AcceptedWorkDescriptor := mkAcceptedWorkDescriptor {
  aw_schema_version : Z;
  aw_task_id : string;
  aw_intent_message_id : string;
  aw_agent : string;
  aw_sequence : Z;
  aw_scope : WorkScope;
  aw_capabilities : list string;
  aw_coordinator : option string;
  aw_causal_base : option string;
  aw_base_snapshot : string;
  aw_message_fingerprint : string;
  aw_source_message_id : string;
  aw_updated_at_ms : Z;
}.

Inductive RunnerAdmissionReject :=
  | RequestWithoutIntent | MissingIntent | ProposalNotAccepted | WrongAgent | ProjectionIncomplete
  | UnreachableBase | UnsettledDependency | SupersededIntent | OverlappingOwner | CapabilityMismatch
  | ScopeExpansionWithoutApproval | ScopeAmendmentPending.
#[global] Instance RunnerAdmissionReject_eq_dec : EqDecision RunnerAdmissionReject.
Proof. solve_decision. Defined.

Definition RunnerAdmissionReject_as_str (r : RunnerAdmissionReject) : string :=
  match r with
  | RequestWithoutIntent => "request_without_intent"
  | MissingIntent => "missing_intent"
  | ProposalNotAccepted => "proposal_not_accepted"
  | WrongAgent => "wrong_agent"
  | ProjectionIncomplete => "projection_incomplete"
  | UnreachableBase => "unreachable_base"
  | UnsettledDependency => "unsettled_dependency"
  | SupersededIntent => "superseded_intent"
  | OverlappingOwner => "overlapping_owner"
  | CapabilityMismatch => "capability_mismatch"
  | ScopeExpansionWithoutApproval => "scope_expansion_without_approval"
  | ScopeAmendmentPending => "scope_amendment_pending"
  end.

(** [char::is_ascii_hexdigit], either case. *)
Definition is_ascii_hexdigit (c : ascii) : bool :=
  in_range 48 57 (ascii_code c) || in_range 97 102 (ascii_code c) || in_range 65 70 (ascii_code c).
(** A fingerprint: not empty, at most 128 bytes, hexadecimal. *)
Definition is_fingerprint (s : string) : bool :=
  negb (bool_decide (s = "")) && (slen s <=? 128) && all_chars is_ascii_hexdigit s.

Section scope.
Context `{Unicode}.

Definition validate_accepted_work (d : AcceptedWorkDescriptor) (agent intent_message_id : string) : Result unit :=
  ensure (aw_schema_version d =? ACCEPTED_WORK_SCHEMA_VERSION) "unsupported accepted-work descriptor schema" ;;
  ensure (is_valid_task_id (aw_task_id d)) "accepted-work descriptor has an invalid task id" ;;
  ensure (is_valid_hash (aw_intent_message_id d) && bool_decide (aw_intent_message_id d = intent_message_id))
    "accepted-work descriptor intent does not match the checkpoint request" ;;
  ensure (bool_decide (aw_agent d = agent)) "accepted-work descriptor agent does not match the configured runner agent" ;;
  ensure (is_valid_hash (aw_base_snapshot d)) "accepted-work descriptor base snapshot is invalid" ;;
  ensure (is_fingerprint (aw_message_fingerprint d)) "accepted-work descriptor fingerprint is invalid" ;;
  ensure (is_valid_hash (aw_source_message_id d)) "accepted-work descriptor source message id is invalid" ;;
  match aw_causal_base d with
  | Some base => ensure (is_valid_hash base) "accepted-work descriptor causal base is invalid"
  | None => Ok tt
  end ;;
  match aw_coordinator d with
  | Some coordinator => ensure (is_valid_agent_name coordinator) "accepted-work descriptor coordinator is invalid"
  | None => Ok tt
  end ;;
  validate_work_scope (sc_paths (aw_scope d)) (sc_concerns (aw_scope d)) (sc_dependencies (aw_scope d))
    (aw_capabilities d).

Definition message_fingerprint `{Blake3} (m : AgentMessage) : string :=
  hash_bytes (as_bytes
    (ms_message_id m +:+ "|" +:+ ms_from m +:+ "|" +:+ ms_to m +:+ "|" +:+ ms_body m +:+ "|"
     +:+ ms_about_snapshot m +:+ "|" +:+ default "" (ms_reply_to m))).

Definition find_task (projection : WorkStatusResult) (task_id : string) : option WorkTaskStatus :=
  find (λ t, bool_decide (ts_task_id t = task_id)) (sr_tasks projection).
Definition find_proposal (task : WorkTaskStatus) (intent_message_id : string) : option WorkProposalStatus :=
  find (λ p, bool_decide (ps_intent_message_id p = intent_message_id)) (ts_proposals task).
Definition causal_base_of (p : WorkProposalStatus) : option string := head (ps_causal_refs p).

(** [other], under [task], is an accepted owner of an overlapping scope that no claim of
    [proposal] names. *)
Definition blocks (task_id : string) (proposal : WorkProposalStatus) (task : WorkTaskStatus)
    (other : WorkProposalStatus) : bool :=
  if bool_decide (ps_intent_message_id other = ps_intent_message_id proposal) then false else
  if negb (bool_decide (ps_status other = Accepted)) then false else
  if bool_decide (ts_task_id task = task_id) && bool_decide (ps_agent other = ps_agent proposal)
     && (ps_sequence other <? ps_sequence proposal) then false else
  let overlaps := evaluate_scope_overlap
    (sc_paths (ps_accepted_scope proposal)) (sc_concerns (ps_accepted_scope proposal))
    (sc_paths (ps_accepted_scope other)) (sc_concerns (ps_accepted_scope other)) in
  if bool_decide (overlaps = []) then false else
  negb (forallb (λ overlap, existsb (λ claim, overlap_claim_matches claim overlap) (ps_accepted_overlap proposal))
          overlaps).
Definition blocking_overlap (projection : WorkStatusResult) (task_id : string) (proposal : WorkProposalStatus)
    : bool :=
  existsb (λ task, existsb (blocks task_id proposal task) (ts_proposals task)) (sr_tasks projection).

(** [other] is a newer generation of [proposal]: a later sequence, or the same sequence and a
    smaller intent id; a rejected one never counts. *)
Definition supersedes (proposal other : WorkProposalStatus) : bool :=
  bool_decide (ps_agent other = ps_agent proposal) && negb (bool_decide (ps_status other = Rejected))
  && ((ps_sequence proposal <? ps_sequence other)
      || (ps_sequence other =? ps_sequence proposal)
         && negb (bool_decide (ps_intent_message_id other = ps_intent_message_id proposal))
         && bool_decide (str_lt (ps_intent_message_id other) (ps_intent_message_id proposal))).
Definition superseded_by_newer (projection : WorkStatusResult) (task_id : string) (proposal : WorkProposalStatus)
    : bool :=
  match find_task projection task_id with
  | None => false
  | Some task => existsb (supersedes proposal) (ts_proposals task)
  end.

Definition scope_contained_in_declared (accepted : WorkScope) (intent : WorkIntentProfile) : bool :=
  forallb (λ path, existsb (λ entry, scope_entry_covers_path entry path) (wi_paths intent)) (sc_paths accepted)
  && forallb (λ concern, bool_decide (concern ∈ wi_concerns intent)) (sc_concerns accepted)
  && forallb (λ dependency, bool_decide (dependency ∈ wi_dependencies intent)) (sc_dependencies accepted).

Definition base_reached (projection : WorkStatusResult) (base : string) : bool :=
  bool_decide (base ∈ sr_applied_message_ids projection)
  || existsb (λ t, existsb (λ p, bool_decide (ps_intent_message_id p = base)) (ts_proposals t)) (sr_tasks projection).
Definition dependency_completed (projection : WorkStatusResult) (dependency : string) : bool :=
  match find_task projection dependency with
  | Some dep => bool_decide (ts_state dep = Completed)
  | None => false
  end.

Definition describe `{Blake3} (request : AgentMessage) (intent : WorkIntentProfile) (p : WorkProposalStatus)
    : AcceptedWorkDescriptor :=
  mkAcceptedWorkDescriptor ACCEPTED_WORK_SCHEMA_VERSION (wi_task_id intent) (ms_message_id request) (ps_agent p)
    (ps_sequence p) (ps_accepted_scope p) (ps_capabilities p) (ps_coordinator p) (causal_base_of p)
    (ms_about_snapshot request) (message_fingerprint request) (ps_source_message_id p) (ps_updated_at_ms p).

(** Every path of the source ends in an error or in a descriptor; its [Ok(None)] is never built.
    The work state it also receives is not read. *)
Definition resolve_request_admission `{Blake3, WorkJson} (projection : WorkStatusResult) (request : AgentMessage)
    (agent : string) : result RunnerAdmissionReject (option AcceptedWorkDescriptor) :=
  intent ← match parse_work_profile (ms_body request) with
           | Some (WorkIntent intent) => Ok intent
           | _ => Err RequestWithoutIntent
           end;
  ensure (negb (sr_projection_incomplete projection)) ProjectionIncomplete ;;
  task ← or_context (find_task projection (wi_task_id intent)) MissingIntent;
  proposal ← or_context (find_proposal task (ms_message_id request)) MissingIntent;
  ensure (bool_decide (ps_agent proposal = agent)) WrongAgent ;;
  ensure (bool_decide (ps_status proposal = Accepted)) ProposalNotAccepted ;;
  ensure (bool_decide (wi_capabilities intent = []) || bool_decide (wi_capabilities intent = ps_capabilities proposal))
    CapabilityMismatch ;;
  ensure (match causal_base_of proposal with Some base => base_reached projection base | None => true end)
    UnreachableBase ;;
  ensure (forallb (dependency_completed projection) (sc_dependencies (ps_accepted_scope proposal)))
    UnsettledDependency ;;
  ensure (negb (superseded_by_newer projection (wi_task_id intent) proposal)) SupersededIntent ;;
  ensure (negb (blocking_overlap projection (wi_task_id intent) proposal)) OverlappingOwner ;;
  ensure (scope_contained_in_declared (ps_accepted_scope proposal) intent
          || existsb (λ ref, bool_decide (ref ∈ sr_applied_message_ids projection)) (ps_causal_refs proposal))
    ScopeExpansionWithoutApproval ;;
  Ok (Some (describe request intent proposal)).

End scope.
