(* ===== verification/ScopeProps.v ===== *)
(** * Accepted work: what an admission decision means

    The decision of [resolve_request_admission] against a specification of admissibility, both on
    the rendered projection and on the reducer's own records. *)
From Stdlib Require Import ZArith Lia Ascii Strings.Byte.
From stdpp Require Import sorting numbers strings gmap list_numbers list options.
From S2P Require Import Prelude Text Paths WorkContract AgentContract WorkReducer WorkStatus Scope.

Local Open Scope Z_scope.

Lemma find_Some {A} (f : A → bool) l x : find f l = Some x → x ∈ l ∧ f x = true.
Proof. intros H%find_some. by rewrite list_elem_of_In. Qed.

Lemma existsb_false_iff {A} (f : A → bool) l : existsb f l = false ↔ ∀ x, x ∈ l → f x = false.
Proof.
  rewrite <-not_true_iff_false, existsb_exists. setoid_rewrite <-list_elem_of_In.
  setoid_rewrite <-not_true_iff_false. naive_solver.
Qed.

(** ** Admissible requests *)
Section admission.
Context `{Unicode}.

(** [other] competes with [p] for the same scope: an accepted owner that [p] does not replace,
    with an overlap no claim of [p] names. *)
Definition competes (task_id : string) (p : WorkProposalStatus) (t : WorkTaskStatus) (other : WorkProposalStatus)
    : Prop :=
  ps_intent_message_id other ≠ ps_intent_message_id p ∧ ps_status other = Accepted
  ∧ ¬ (ts_task_id t = task_id ∧ ps_agent other = ps_agent p ∧ ps_sequence other < ps_sequence p)
  ∧ ∃ o, o ∈ evaluate_scope_overlap (sc_paths (ps_accepted_scope p)) (sc_concerns (ps_accepted_scope p))
               (sc_paths (ps_accepted_scope other)) (sc_concerns (ps_accepted_scope other))
         ∧ ∀ claim, claim ∈ ps_accepted_overlap p → overlap_claim_matches claim o = false.

Lemma blocks_iff task_id p t other : blocks task_id p t other = true ↔ competes task_id p t other.
Proof.
  unfold blocks, competes. case_bool_decide as H1; [naive_solver|]. case_bool_decide as H2; simpl; [|naive_solver].
  destruct (_ && (_ <? _)) eqn:H3; [to_prop; naive_solver|].
  assert (¬ (ts_task_id t = task_id ∧ ps_agent other = ps_agent p ∧ ps_sequence other < ps_sequence p)) as Hnot.
  { intros (? & ? & Hlt). rewrite !bool_decide_true in H3 by done. apply Z.ltb_lt in Hlt. by rewrite Hlt in H3. }
  set (overlaps := evaluate_scope_overlap _ _ _ _). clear H3. case_bool_decide as H4.
  { rewrite H4. split; [done|]. by intros (_ & _ & _ & o & Ho%elem_of_nil & _). }
  rewrite negb_true_iff, <-not_true_iff_false, forallb_forall. split.
  - intros Hall. repeat split; try done.
    destruct (decide (Exists (λ o, existsb (λ claim, overlap_claim_matches claim o) (ps_accepted_overlap p) = false)
                overlaps)) as [(o & Ho & Hf)%Exists_exists|Hn].
    + exists o. split; [done|]. by apply existsb_false_iff.
    + destruct Hall. intros o Ho%list_elem_of_In. destruct (existsb _ _) eqn:Hf; [done|].
      destruct Hn. apply Exists_exists. by exists o.
  - intros (_ & _ & _ & o & Ho & Hc) Hall. specialize (Hall o (proj1 (list_elem_of_In _ _) Ho)).
    apply existsb_false_iff in Hc. congruence.
Qed.

Lemma blocking_overlap_iff projection task_id p :
  blocking_overlap projection task_id p = true
  ↔ ∃ t other, t ∈ sr_tasks projection ∧ other ∈ ts_proposals t ∧ competes task_id p t other.
Proof.
  unfold blocking_overlap. rewrite existsb_exists. setoid_rewrite existsb_exists. setoid_rewrite <-list_elem_of_In.
  setoid_rewrite blocks_iff. naive_solver.
Qed.

(** [other] is a later generation of the same work. *)
Definition newer_generation (p other : WorkProposalStatus) : Prop :=
  ps_agent other = ps_agent p ∧ ps_status other ≠ Rejected
  ∧ (ps_sequence p < ps_sequence other
     ∨ ps_sequence other = ps_sequence p ∧ str_lt (ps_intent_message_id other) (ps_intent_message_id p)).

Lemma supersedes_iff p other : supersedes p other = true ↔ newer_generation p other.
Proof.
  unfold supersedes, newer_generation.
  rewrite !andb_true_iff, orb_true_iff, !andb_true_iff, !negb_true_iff, !bool_decide_eq_true, !bool_decide_eq_false.
  rewrite Z.ltb_lt, Z.eqb_eq. unfold str_lt. naive_solver.
Qed.

(** What a launch needs of the projection. *)
Record admissible (projection : WorkStatusResult) (request : AgentMessage) (agent : string)
    (intent : WorkIntentProfile) (t : WorkTaskStatus) (p : WorkProposalStatus) : Prop := {
  ad_complete : sr_projection_incomplete projection = false;
  ad_task : find_task projection (wi_task_id intent) = Some t;
  ad_proposal : find_proposal t (ms_message_id request) = Some p;
  ad_agent : ps_agent p = agent;
  ad_accepted : ps_status p = Accepted;
  ad_capabilities : wi_capabilities intent = [] ∨ wi_capabilities intent = ps_capabilities p;
  ad_base base : head (ps_causal_refs p) = Some base →
    base ∈ sr_applied_message_ids projection
    ∨ ∃ t' p', t' ∈ sr_tasks projection ∧ p' ∈ ts_proposals t' ∧ ps_intent_message_id p' = base;
  ad_dependencies dep : dep ∈ sc_dependencies (ps_accepted_scope p) →
    ∃ t', find_task projection dep = Some t' ∧ ts_state t' = Completed;
  ad_newest other : other ∈ ts_proposals t → ¬ newer_generation p other;
  ad_exclusive t' other : t' ∈ sr_tasks projection → other ∈ ts_proposals t' → ¬ competes (wi_task_id intent) p t' other;
  ad_granted : scope_contained_in_declared (ps_accepted_scope p) intent = true
    ∨ ∃ ref, ref ∈ ps_causal_refs p ∧ ref ∈ sr_applied_message_ids projection;
}.

Lemma base_reached_iff projection base :
  base_reached projection base = true ↔
  base ∈ sr_applied_message_ids projection
  ∨ ∃ t' p', t' ∈ sr_tasks projection ∧ p' ∈ ts_proposals t' ∧ ps_intent_message_id p' = base.
Proof.
  unfold base_reached. rewrite orb_true_iff, bool_decide_eq_true, existsb_exists. setoid_rewrite existsb_exists.
  setoid_rewrite <-list_elem_of_In. setoid_rewrite bool_decide_eq_true. naive_solver.
Qed.

Lemma dependency_completed_iff projection dep :
  dependency_completed projection dep = true ↔ ∃ t', find_task projection dep = Some t' ∧ ts_state t' = Completed.
Proof.
  unfold dependency_completed. destruct (find_task projection dep); [|naive_solver].
  rewrite bool_decide_eq_true. naive_solver.
Qed.

(** The checks after the proposal is found, against the specification. *)
Lemma admissible_checks projection request agent intent t p :
  find_task projection (wi_task_id intent) = Some t → find_proposal t (ms_message_id request) = Some p →
  admissible projection request agent intent t p ↔
  sr_projection_incomplete projection = false
  ∧ ps_agent p = agent ∧ ps_status p = Accepted
  ∧ (wi_capabilities intent = [] ∨ wi_capabilities intent = ps_capabilities p)
  ∧ match causal_base_of p with Some base => base_reached projection base | None => true end = true
  ∧ forallb (dependency_completed projection) (sc_dependencies (ps_accepted_scope p)) = true
  ∧ superseded_by_newer projection (wi_task_id intent) p = false
  ∧ blocking_overlap projection (wi_task_id intent) p = false
  ∧ (scope_contained_in_declared (ps_accepted_scope p) intent = true
     ∨ existsb (λ ref, bool_decide (ref ∈ sr_applied_message_ids projection)) (ps_causal_refs p) = true).
Proof.
  intros Ht Hp.
  assert (match causal_base_of p with Some base => base_reached projection base | None => true end = true ↔
    ∀ base, head (ps_causal_refs p) = Some base → base_reached projection base = true) as Hbase.
  { unfold causal_base_of. destruct (head _); naive_solver. }
  assert (superseded_by_newer projection (wi_task_id intent) p = false ↔
    ∀ other, other ∈ ts_proposals t → ¬ newer_generation p other) as Hnew.
  { unfold superseded_by_newer. rewrite Ht, existsb_false_iff. setoid_rewrite <-supersedes_iff.
    setoid_rewrite not_true_iff_false. done. }
  assert (blocking_overlap projection (wi_task_id intent) p = false ↔
    ∀ t' other, t' ∈ sr_tasks projection → other ∈ ts_proposals t' → ¬ competes (wi_task_id intent) p t' other)
    as Hblock.
  { rewrite <-not_true_iff_false, blocking_overlap_iff. naive_solver. }
  assert (existsb (λ ref, bool_decide (ref ∈ sr_applied_message_ids projection)) (ps_causal_refs p) = true ↔
    ∃ ref, ref ∈ ps_causal_refs p ∧ ref ∈ sr_applied_message_ids projection) as Href.
  { rewrite existsb_exists. setoid_rewrite <-list_elem_of_In. by setoid_rewrite bool_decide_eq_true. }
  rewrite Hbase, Hnew, Hblock, Href, forallb_forall. setoid_rewrite base_reached_iff.
  setoid_rewrite dependency_completed_iff. setoid_rewrite <-list_elem_of_In. split.
  - intros []. by repeat split.
  - intros (? & ? & ? & ? & ? & ? & ? & ? & ?). by split.
Qed.

Context `{Blake3, WorkJson}.

Lemma resolve_admitted projection request agent d :
  resolve_request_admission projection request agent = Ok (Some d) ↔
  ∃ intent t p, parse_work_profile (ms_body request) = Some (WorkIntent intent)
    ∧ admissible projection request agent intent t p ∧ d = describe request intent p.
Proof.
  unfold resolve_request_admission. split.
  - intros Hr. apply bind_Ok in Hr as (intent & Hi & Hr). inv_ok. to_prop.
    assert (parse_work_profile (ms_body request) = Some (WorkIntent intent)) as Hparse.
    { destruct (parse_work_profile _) as [[]|]; by inv_ok. }
    exists intent, x0, x1. split; [done|]. split; [|done]. apply admissible_checks; [done..|].
    apply orb_true_iff in H7 as H7'. rewrite !bool_decide_eq_true in H7'. apply orb_true_iff in H12 as H12'.
    by repeat split.
  - intros (intent & t & p & Hparse & Hadm & ->). pose proof (ad_task _ _ _ _ _ _ Hadm) as Ht.
    pose proof (ad_proposal _ _ _ _ _ _ Hadm) as Hp.
    apply admissible_checks in Hadm as (Hc & Ha & Hs & Hcap & Hb & Hd & Hn & Ho & Hg); [|done..].
    rewrite Hparse. simpl. rewrite Hc. simpl. rewrite Ht. simpl. rewrite Hp. simpl.
    rewrite (bool_decide_true (ps_agent p = agent)), (bool_decide_true (ps_status p = Accepted)) by done. simpl.
    assert (bool_decide (wi_capabilities intent = []) || bool_decide (wi_capabilities intent = ps_capabilities p) = true)
      as -> by (by rewrite orb_true_iff, !bool_decide_eq_true). simpl.
    rewrite Hb. simpl. rewrite Hd. simpl. rewrite Hn. simpl. rewrite Ho. simpl.
    apply orb_true_iff in Hg. by rewrite Hg.
Qed.
End admission.
