(* ===== verification/RunnerStore.v ===== *)
(** * Agent runner: the durable state and its validation

    agent-core/src/agent/runner/contract.rs and store.rs: the state one configured runner keeps
    in its state file, the validation every load and every update passes, and the transactions of
    the store. The file is modelled by the value it decodes to; the length of its encoding, which
    both the reader and the writer bound, is a parameter. *)
From Stdlib Require Import ZArith Lia Ascii Strings.Byte.
From stdpp Require Import sorting numbers strings gmap list_numbers list options.
From S2P Require Import Prelude Text Paths WorkContract AgentContract WorkReducer WorkStatus Scope.

Local Open Scope Z_scope.

Definition RUNNER_STATE_SCHEMA_VERSION : Z := 3.
Definition RUNNER_STATE_LEGACY_SCHEMA_VERSION : Z := 2.
Definition RUNNER_INVOCATION_SCHEMA_VERSION : Z := 2.
Definition MAX_STATE_BYTES : Z := 2 * 1024 * 1024.
Definition MAX_PROGRAM_BYTES : Z := 16 * 1024.
Definition MAX_ARGS : Z := 128.
Definition MAX_ARG_BYTES : Z := 8 * 1024.
Definition MAX_ARGV_BYTES : Z := 64 * 1024.
Definition MAX_PENDING : Z := 32.
Definition MAX_COMPLETED : Z := 10000.
Definition MAX_FAILURES : Z := 1000000.
Definition MAX_PROCESS_START_ID_BYTES : Z := 512.
Definition MAX_AGENT_ENTRIES : Z := 10000.

(** ** contract.rs *)
Inductive RunnerScopeMode := LegacyUnenforced | Advisory | Enforced.
Definition is_enforced (m : RunnerScopeMode) : bool := match m with Enforced => true | _ => false end.
Definition participates (m : RunnerScopeMode) : bool := match m with LegacyUnenforced => false | _ => true end.

Record RunnerConfig := mkRunnerConfig {
  rc_agent : string;
  rc_program : string;
  rc_fixed_args : list string;
  rc_timeout_secs : Z;
  rc_configured_at_ms : Z;
  rc_scope_mode : RunnerScopeMode;
}.

Inductive ScopeChangePublishState := PublishPending | Confirmed | AwaitingConfirmation.
#[global] Instance ScopeChangePublishState_eq_dec : EqDecision ScopeChangePublishState.
Proof. solve_decision. Defined.

Record ScopeChangeRequestKey := mkScopeChangeRequestKey {
  sk_task_id : string;
  sk_intent_message_id : string;
  sk_paths_fingerprint : string;
  sk_scope_fingerprint : string;
  sk_publish_state : ScopeChangePublishState;
}.

Inductive RunnerExecutionMode := Supervised | Foreground.

(** The constructor [ProjectionIncomplete] is taken by the rejection of that name. *)
Inductive RunnerWorkWaitKind :=
  WaitingAcceptance | DependencyBlocked | WaitProjectionIncomplete | ScopeAmendmentRequested.
#[global] Instance RunnerWorkWaitKind_eq_dec : EqDecision RunnerWorkWaitKind.
Proof. solve_decision. Defined.

Record RunnerWorkWait := mkRunnerWorkWait {
  ww_kind : RunnerWorkWaitKind;
  ww_message_id : string;
  ww_reason : option RunnerAdmissionReject;
  ww_out_of_scope_count : Z;
  ww_observed_at_ms : Z;
}.

Inductive RunnerPhase := Idle | PhaseLaunching | PhaseRunning | NeedsAttention.
Inductive RunnerAttention := CursorReset | PendingOverflow | AmbiguousExecution | DeliveryUnknown | PreparationFailed.
#[global] Instance RunnerAttention_eq_dec : EqDecision RunnerAttention.
Proof. solve_decision. Defined.

Record RunnerStatus := mkRunnerStatus {
  rs_configured : bool;
  rs_enabled : bool;
  rs_agent : string;
  rs_phase : RunnerPhase;
  rs_pending_count : Z;
  rs_active_message_id : option string;
  rs_active_session_id : option string;
  rs_active_started_at_ms : option Z;
  rs_active_spawned_at_ms : option Z;
  rs_last_terminal_kind : option AgentMessageKind;
  rs_last_terminal_message_id : option string;
  rs_attention : option RunnerAttention;
  rs_scope_mode : RunnerScopeMode;
  rs_work_wait : option RunnerWorkWait;
  rs_updated_at_ms : Z;
  rs_inbox_failure_count : Z;
}.

Record RunnerProcessMetadata := mkRunnerProcessMetadata { pm_pid : Z; pm_process_start_id : string }.
Record RunnerAdmission := mkRunnerAdmission {
  ra_admitted : Z;
  ra_ignored : Z;
  ra_cursor_advanced : bool;
  ra_needs_attention : bool;
}.
Record RunnerLaunch := mkRunnerLaunch {
  rl_message_id : string;
  rl_session_id : string;
  rl_reply_cursor : string;
  rl_accepted_work : option AcceptedWorkDescriptor;
}.
Record RunnerInvocation := mkRunnerInvocation {
  iv_schema_version : Z;
  iv_session_id : string;
  iv_agent : string;
  iv_message : AgentMessage;
  iv_accepted_work : option AcceptedWorkDescriptor;
}.

(** ** The persisted state *)
Inductive ActivePhase := Launching | Running | Ambiguous.
#[global] Instance ActivePhase_eq_dec : EqDecision ActivePhase.
Proof. solve_decision. Defined.

Record ActiveRequest := mkActiveRequest {
  ac_message_id : string;
  ac_session_id : string;
  ac_phase : ActivePhase;
  ac_reply_cursor : string;
  ac_started_at_ms : Z;
  ac_spawned_at_ms : option Z;
  ac_pid : option Z;                 (* u32 *)
  ac_process_start_id : option string;
  ac_accepted_work : option AcceptedWorkDescriptor;
}.
Record ScopeChangeRequestState := mkScopeChangeRequestState {
  cr_message_id : option string;
  cr_task_id : string;
  cr_intent_message_id : string;
  cr_paths_fingerprint : string;
  cr_scope_fingerprint : string;
  cr_publish_state : ScopeChangePublishState;
  cr_observed_at_ms : Z;
}.
Record LastTerminal := mkLastTerminal {
  lt_kind : AgentMessageKind;
  lt_message_id : string;
  lt_observed_at_ms : Z;
}.
Record RunnerRuntime := mkRunnerRuntime {
  rt_enabled : bool;
  rt_committed_cursor : string;
  rt_staged_cursor : option string;
  rt_pending : list string;
  rt_active : option ActiveRequest;
  rt_completed_ids : list string;
  rt_last_terminal : option LastTerminal;
  rt_attention : option RunnerAttention;
  rt_work_wait : option RunnerWorkWait;
  rt_scope_change_request : option ScopeChangeRequestState;
  rt_updated_at_ms : Z;
  rt_inbox_failure_count : Z;        (* u32 *)
}.
Record RunnerState := mkRunnerState {
  st_schema_version : Z;
  st_generation_id : string;
  st_config : RunnerConfig;
  st_runtime : RunnerRuntime;
}.
Record RunnerIdentity := mkRunnerIdentity {
  id_canonical_workspace : string;
  id_canonical_agent_root : string;
  id_agent : string;
  id_generation_id : string;
}.

(** ** Updates of one field *)
Definition on_runtime (f : RunnerRuntime → RunnerRuntime) (s : RunnerState) : RunnerState :=
  mkRunnerState (st_schema_version s) (st_generation_id s) (st_config s) (f (st_runtime s)).
Definition set_enabled_field (v : bool) (r : RunnerRuntime) : RunnerRuntime :=
  mkRunnerRuntime v (rt_committed_cursor r) (rt_staged_cursor r) (rt_pending r) (rt_active r) (rt_completed_ids r)
    (rt_last_terminal r) (rt_attention r) (rt_work_wait r) (rt_scope_change_request r) (rt_updated_at_ms r)
    (rt_inbox_failure_count r).
Definition set_committed (v : string) (r : RunnerRuntime) : RunnerRuntime :=
  mkRunnerRuntime (rt_enabled r) v (rt_staged_cursor r) (rt_pending r) (rt_active r) (rt_completed_ids r)
    (rt_last_terminal r) (rt_attention r) (rt_work_wait r) (rt_scope_change_request r) (rt_updated_at_ms r)
    (rt_inbox_failure_count r).
Definition set_staged (v : option string) (r : RunnerRuntime) : RunnerRuntime :=
  mkRunnerRuntime (rt_enabled r) (rt_committed_cursor r) v (rt_pending r) (rt_active r) (rt_completed_ids r)
    (rt_last_terminal r) (rt_attention r) (rt_work_wait r) (rt_scope_change_request r) (rt_updated_at_ms r)
    (rt_inbox_failure_count r).
Definition set_queue (v : list string) (r : RunnerRuntime) : RunnerRuntime :=
  mkRunnerRuntime (rt_enabled r) (rt_committed_cursor r) (rt_staged_cursor r) v (rt_active r) (rt_completed_ids r)
    (rt_last_terminal r) (rt_attention r) (rt_work_wait r) (rt_scope_change_request r) (rt_updated_at_ms r)
    (rt_inbox_failure_count r).
Definition set_active (v : option ActiveRequest) (r : RunnerRuntime) : RunnerRuntime :=
  mkRunnerRuntime (rt_enabled r) (rt_committed_cursor r) (rt_staged_cursor r) (rt_pending r) v (rt_completed_ids r)
    (rt_last_terminal r) (rt_attention r) (rt_work_wait r) (rt_scope_change_request r) (rt_updated_at_ms r)
    (rt_inbox_failure_count r).
Definition set_completed (v : list string) (r : RunnerRuntime) : RunnerRuntime :=
  mkRunnerRuntime (rt_enabled r) (rt_committed_cursor r) (rt_staged_cursor r) (rt_pending r) (rt_active r) v
    (rt_last_terminal r) (rt_attention r) (rt_work_wait r) (rt_scope_change_request r) (rt_updated_at_ms r)
    (rt_inbox_failure_count r).
Definition set_terminal (v : option LastTerminal) (r : RunnerRuntime) : RunnerRuntime :=
  mkRunnerRuntime (rt_enabled r) (rt_committed_cursor r) (rt_staged_cursor r) (rt_pending r) (rt_active r)
    (rt_completed_ids r) v (rt_attention r) (rt_work_wait r) (rt_scope_change_request r) (rt_updated_at_ms r)
    (rt_inbox_failure_count r).
Definition set_attention (v : option RunnerAttention) (r : RunnerRuntime) : RunnerRuntime :=
  mkRunnerRuntime (rt_enabled r) (rt_committed_cursor r) (rt_staged_cursor r) (rt_pending r) (rt_active r)
    (rt_completed_ids r) (rt_last_terminal r) v (rt_work_wait r) (rt_scope_change_request r) (rt_updated_at_ms r)
    (rt_inbox_failure_count r).
Definition set_wait (v : option RunnerWorkWait) (r : RunnerRuntime) : RunnerRuntime :=
  mkRunnerRuntime (rt_enabled r) (rt_committed_cursor r) (rt_staged_cursor r) (rt_pending r) (rt_active r)
    (rt_completed_ids r) (rt_last_terminal r) (rt_attention r) v (rt_scope_change_request r) (rt_updated_at_ms r)
    (rt_inbox_failure_count r).
Definition set_request (v : option ScopeChangeRequestState) (r : RunnerRuntime) : RunnerRuntime :=
  mkRunnerRuntime (rt_enabled r) (rt_committed_cursor r) (rt_staged_cursor r) (rt_pending r) (rt_active r)
    (rt_completed_ids r) (rt_last_terminal r) (rt_attention r) (rt_work_wait r) v (rt_updated_at_ms r)
    (rt_inbox_failure_count r).
Definition touch (now : Z) (r : RunnerRuntime) : RunnerRuntime :=
  mkRunnerRuntime (rt_enabled r) (rt_committed_cursor r) (rt_staged_cursor r) (rt_pending r) (rt_active r)
    (rt_completed_ids r) (rt_last_terminal r) (rt_attention r) (rt_work_wait r) (rt_scope_change_request r) now
    (rt_inbox_failure_count r).
Definition set_failures (v : Z) (r : RunnerRuntime) : RunnerRuntime :=
  mkRunnerRuntime (rt_enabled r) (rt_committed_cursor r) (rt_staged_cursor r) (rt_pending r) (rt_active r)
    (rt_completed_ids r) (rt_last_terminal r) (rt_attention r) (rt_work_wait r) (rt_scope_change_request r)
    (rt_updated_at_ms r) v.

(** ** Validation *)
Section store.
Context `{Unicode}.

Definition validate_name (name : string) : Result unit :=
  ensure (is_valid_agent_name name) "Agent name must be a non-empty portable path segment".
Definition validate_message_id (message_id : string) : Result unit :=
  ensure (is_valid_hash message_id) "invalid runner request message id".
Definition validate_cursor (cursor : string) : Result unit :=
  ensure (bool_decide (cursor = "") || is_valid_hash cursor) "runner cursor must be empty or a full snapshot id".
Definition validate_nonempty_cursor (cursor : string) : Result unit :=
  ensure (is_valid_hash cursor) "initial runner cursor must be a full snapshot id".
Definition validate_execution_mode (mode : RunnerExecutionMode) (enabled : bool) : Result unit :=
  match mode with
  | Supervised => ensure enabled "supervised runner execution requires enabled=true"
  | Foreground => ensure (negb enabled) "foreground runner execution requires enabled=false"
  end.
Definition is_hex32 (id : string) : bool := (slen id =? 32) && all_chars is_lower_hex id.
Definition validate_generation_id (id : string) : Result unit :=
  ensure (is_hex32 id) "invalid runner configuration generation".
Definition validate_session_id (id : string) : Result unit := ensure (is_hex32 id) "invalid runner session id".
(** [new_session_id] and [new_generation_id], on the sixteen bytes the system's source filled in. *)
Fixpoint hex_id (bytes : list byte) : string :=
  match bytes with
  | [] => ""
  | b :: bytes => String (hex_digit (byteZ b / 16)) (String (hex_digit (byteZ b mod 16)) (hex_id bytes))
  end.

Definition validate_program_shape (program : string) : Result unit :=
  ensure (starts_with "/" program) "runner program must be absolute" ;;
  ensure (negb (bool_decide (program = "")) && (slen program <=? MAX_PROGRAM_BYTES) && negb (has_control program))
    "runner program path is invalid or too large".
Definition check_arg (total : Z) (arg : string) : Result Z :=
  ensure (slen arg <=? MAX_ARG_BYTES) "runner fixed argument is too large" ;;
  ensure (negb (contains_char "000" arg)) "runner fixed argument contains NUL" ;;
  Ok (saturating_add total (slen arg)).
Definition validate_args (args : list string) : Result unit :=
  ensure (zlen args <=? MAX_ARGS) "runner has too many fixed arguments" ;;
  total ← try_fold check_arg 0 args;
  ensure (total <=? MAX_ARGV_BYTES) "runner fixed argv exceeds its size bound".
Definition validate_timeout (secs : Z) : Result unit :=
  ensure ((60 <=? secs) && (secs <=? 86400)) "runner timeout must be between 60 and 86400 seconds".

Definition validate_message (m : AgentMessage) : Result unit :=
  validate_message_id (ms_message_id m) ;;
  validate_name (ms_from m) ;;
  ensure (bool_decide (ms_to m = "*") || is_valid_agent_name (ms_to m)) "invalid agent message recipient" ;;
  ensure (slen (ms_body m) <=? AGENT_MESSAGE_MAX_BODY_BYTES) "agent message body exceeds its bound" ;;
  ensure (is_valid_hash (ms_about_snapshot m)) "invalid message about snapshot" ;;
  match ms_reply_to m with
  | Some reply_to => ensure (is_valid_hash reply_to) "invalid message reply id"
  | None => Ok tt
  end.
Definition validate_messages (l : list AgentMessage) : Result unit := try_fold (λ _ m, validate_message m) tt l.
Definition validate_inbox (result : AgentInboxResult) : Result unit :=
  validate_cursor (ai_cursor result) ;;
  ensure (zlen (ai_messages result) <=? AGENT_INBOX_MAX_LIMIT) "runner inbox exceeds the message count bound" ;;
  validate_messages (ai_messages result).

(** [validate_state], one definition per block of the source. *)
Definition validate_bounds (s : RunnerState) : Result unit :=
  ensure (st_schema_version s =? RUNNER_STATE_SCHEMA_VERSION) "unsupported runner state schema" ;;
  validate_generation_id (st_generation_id s) ;;
  validate_name (rc_agent (st_config s)) ;;
  validate_program_shape (rc_program (st_config s)) ;;
  validate_args (rc_fixed_args (st_config s)) ;;
  validate_timeout (rc_timeout_secs (st_config s)) ;;
  let r := st_runtime s in
  validate_cursor (rt_committed_cursor r) ;;
  match rt_staged_cursor r with Some cursor => validate_cursor cursor | None => Ok tt end ;;
  ensure (zlen (rt_pending r) <=? MAX_PENDING) "too many pending runner requests" ;;
  ensure (zlen (rt_completed_ids r) <=? MAX_COMPLETED) "too many completed runner request ids" ;;
  ensure (rt_inbox_failure_count r <=? MAX_FAILURES) "runner failure count exceeds its bound" ;;
  ensure (eqb (bool_decide (rt_pending r = [])) (bool_decide (rt_staged_cursor r = None)))
    "runner pending queue and staged cursor are inconsistent".

Definition validate_wait (r : RunnerRuntime) (wait : RunnerWorkWait) : Result unit :=
  validate_message_id (ww_message_id wait) ;;
  ensure (bool_decide (rt_attention r = None)) "runner cannot wait on work while needing attention" ;;
  ensure (match rt_active r with None => true | Some _ => false end)
    "runner cannot wait on work while a request is active" ;;
  ensure (bool_decide (head (rt_pending r) = Some (ww_message_id wait)))
    "runner work wait does not match the next pending request" ;;
  ensure (match ww_kind wait with
          | ScopeAmendmentRequested => bool_decide (ww_reason wait = None)
          | _ => negb (bool_decide (ww_reason wait = None))
          end) "runner work wait kind and typed reason are inconsistent" ;;
  ensure (ww_out_of_scope_count wait <=? WORK_MAX_PATHS) "runner work wait out-of-scope count exceeds its bound".

(** The wait or the active request a scope-change record belongs to. *)
Definition record_anchored (r : RunnerRuntime) (record : ScopeChangeRequestState) : bool :=
  match rt_work_wait r with
  | Some wait => bool_decide (ww_kind wait = ScopeAmendmentRequested)
                 && bool_decide (ww_message_id wait = cr_intent_message_id record)
  | None => false
  end
  || match rt_active r with
     | Some active => bool_decide (ac_message_id active = cr_intent_message_id record)
     | None => false
     end.
Definition validate_scope_change (r : RunnerRuntime) (record : ScopeChangeRequestState) : Result unit :=
  match cr_message_id record with
  | Some message_id =>
      validate_message_id message_id ;;
      ensure (bool_decide (cr_publish_state record = Confirmed))
        "runner scope-change request must be confirmed once it carries a message id"
  | None =>
      ensure (bool_decide (cr_publish_state record = PublishPending)
              || bool_decide (cr_publish_state record = AwaitingConfirmation))
        "runner scope-change request without a message id must be pending or awaiting confirmation"
  end ;;
  ensure (is_valid_task_id (cr_task_id record)) "runner scope-change request has an invalid task id" ;;
  validate_message_id (cr_intent_message_id record) ;;
  ensure (is_fingerprint (cr_paths_fingerprint record)) "runner scope-change request fingerprint is invalid" ;;
  ensure (bool_decide (cr_scope_fingerprint record = "")
          || (slen (cr_scope_fingerprint record) <=? 128) && all_chars is_ascii_hexdigit (cr_scope_fingerprint record))
    "runner scope-change scope fingerprint is invalid" ;;
  ensure (record_anchored r record)
    "runner scope-change request requires a matching scope-amendment wait or active request".

Definition check_pending (ids : gset string) (id : string) : Result (gset string) :=
  ensure (is_valid_hash id) "invalid pending request id" ;;
  ensure (bool_decide (id ∉ ids)) "duplicate pending request id" ;;
  Ok ({[ id ]} ∪ ids).
Definition check_completed (ids completed : gset string) (id : string) : Result (gset string) :=
  ensure (is_valid_hash id) "invalid completed request id" ;;
  ensure (bool_decide (id ∉ completed)) "duplicate completed request id" ;;
  ensure (bool_decide (id ∉ ids)) "completed request is still present in the pending queue" ;;
  Ok ({[ id ]} ∪ completed).
Definition validate_queue (r : RunnerRuntime) : Result unit :=
  ids ← try_fold check_pending ∅ (rt_pending r);
  try_fold (check_completed ids) ∅ (rt_completed_ids r) ;;
  Ok tt.

Definition is_process_start_id (id : string) : bool :=
  negb (bool_decide (id = "")) && (slen id <=? MAX_PROCESS_START_ID_BYTES) && negb (has_control id).
Definition ambiguous_attention (a : option RunnerAttention) : bool :=
  bool_decide (a = Some AmbiguousExecution) || bool_decide (a = Some DeliveryUnknown).

Definition validate_phase (attention : option RunnerAttention) (active : ActiveRequest) : Result unit :=
  match ac_phase active with
  | Launching =>
      ensure (bool_decide (ac_pid active = None) && bool_decide (ac_process_start_id active = None)
              && bool_decide (ac_spawned_at_ms active = None)) "launching runner has spawned-process metadata"
  | Running =>
      ensure (match ac_pid active with Some pid => 0 <? pid | None => false end
              && negb (bool_decide (ac_process_start_id active = None))
              && negb (bool_decide (ac_spawned_at_ms active = None))) "running runner lacks spawned-process metadata"
  | Ambiguous => ensure (ambiguous_attention attention) "ambiguous runner request lacks matching attention state"
  end.
Definition validate_active (s : RunnerState) (active : ActiveRequest) : Result unit :=
  ensure (is_valid_hash (ac_message_id active)) "invalid active request id" ;;
  validate_session_id (ac_session_id active) ;;
  validate_cursor (ac_reply_cursor active) ;;
  ensure (bool_decide (ac_message_id active ∈ rt_pending (st_runtime s)))
    "active request is not present in the pending queue" ;;
  match ac_accepted_work active with
  | Some accepted =>
      validate_accepted_work accepted (rc_agent (st_config s)) (ac_message_id active) ;;
      ensure (is_enforced (rc_scope_mode (st_config s))) "active request carries accepted work on a non-enforced runner"
  | None =>
      ensure (negb (is_enforced (rc_scope_mode (st_config s)))) "enforced runner active request lacks accepted work"
  end ;;
  ensure (match ac_process_start_id active with Some id => is_process_start_id id | None => true end)
    "invalid persisted process start identifier" ;;
  validate_phase (rt_attention (st_runtime s)) active.

Definition validate_attention (r : RunnerRuntime) : Result unit :=
  (if ambiguous_attention (rt_attention r) then
     ensure (match rt_active r with Some active => bool_decide (ac_phase active = Ambiguous) | None => false end)
       "ambiguous attention lacks active request metadata"
   else Ok tt) ;;
  (if bool_decide (rt_attention r = Some PreparationFailed) then
     ensure (negb (bool_decide (rt_pending r = [])) && match rt_active r with None => true | Some _ => false end)
       "refresh preparation attention must retain an idle pending request"
   else Ok tt).
Definition validate_terminal (terminal : LastTerminal) : Result unit :=
  ensure (match lt_kind terminal with KindResult | KindBlocked => true | _ => false end) "invalid last terminal kind" ;;
  ensure (is_valid_hash (lt_message_id terminal)) "invalid terminal message id".

(** [if let Some(x) = o { f(x)?; }] *)
Definition if_some {A} (o : option A) (f : A → Result unit) : Result unit :=
  match o with Some a => f a | None => Ok tt end.

Definition validate_state (s : RunnerState) : Result unit :=
  let r := st_runtime s in
  validate_bounds s ;;
  if_some (rt_work_wait r) (validate_wait r) ;;
  if_some (rt_scope_change_request r) (validate_scope_change r) ;;
  validate_queue r ;;
  if_some (rt_active r) (validate_active s) ;;
  validate_attention r ;;
  if_some (rt_last_terminal r) validate_terminal.

(** ** Transactions

    [Tx A]: what an operation makes of the state on disk while its I/O succeeds: the state that
    its one write, the last step of [update], commits, and what it returns; an error comes before
    the write.  [RunnerSession.perform] adds the failures of that write, before and after its
    commit. *)
Definition Tx (A : Type) : Type := RunnerState → Result (RunnerState * A).

(** The length of [serde_json::to_vec_pretty] of a state. *)
Context (encoded_len : RunnerState → Z).

Definition migrate (s : RunnerState) : RunnerState :=
  if st_schema_version s =? RUNNER_STATE_LEGACY_SCHEMA_VERSION then
    let c := st_config s in
    mkRunnerState RUNNER_STATE_SCHEMA_VERSION (st_generation_id s)
      (mkRunnerConfig (rc_agent c) (rc_program c) (rc_fixed_args c) (rc_timeout_secs c) (rc_configured_at_ms c)
         LegacyUnenforced) (st_runtime s)
  else s.

Definition read_runner_state_unlocked (disk : RunnerState) : Result RunnerState :=
  ensure (encoded_len disk <=? MAX_STATE_BYTES) "runner state exceeds its size bound" ;;
  ensure ((st_schema_version disk =? RUNNER_STATE_SCHEMA_VERSION)
          || (st_schema_version disk =? RUNNER_STATE_LEGACY_SCHEMA_VERSION)) "unsupported runner state schema" ;;
  let state := migrate disk in
  validate_state state ;;
  Ok state.

Definition load_unlocked (identity : RunnerIdentity) (disk : RunnerState) : Result RunnerState :=
  state ← read_runner_state_unlocked disk;
  ensure (bool_decide (rc_agent (st_config state) = id_agent identity))
    "runner state agent does not match its directory identity" ;;
  ensure (bool_decide (st_generation_id state = id_generation_id identity))
    "runner store handle is stale for configuration generation" ;;
  Ok state.

(** The state that is handed to [atomic_overwrite]. *)
Definition write_unlocked (state : RunnerState) : Result RunnerState :=
  ensure (encoded_len state <=? MAX_STATE_BYTES) "runner state exceeds its size bound" ;;
  Ok state.

Definition update {A} (identity : RunnerIdentity) (f : Tx A) : Tx A := λ disk,
  state ← load_unlocked identity disk;
  '(state, a) ← f state;
  validate_state state ;;
  disk ← write_unlocked state;
  Ok (disk, a).

(** ** Views *)
Definition state_phase (s : RunnerState) : RunnerPhase :=
  match rt_attention (st_runtime s) with
  | Some _ => NeedsAttention
  | None =>
      match ac_phase <$> rt_active (st_runtime s) with
      | Some Launching => PhaseLaunching
      | Some Running => PhaseRunning
      | Some Ambiguous => NeedsAttention
      | None => Idle
      end
  end.

Definition status_from_state (s : RunnerState) : RunnerStatus :=
  let r := st_runtime s in
  mkRunnerStatus true (rt_enabled r) (rc_agent (st_config s)) (state_phase s) (zlen (rt_pending r))
    (ac_message_id <$> rt_active r) (ac_session_id <$> rt_active r) (ac_started_at_ms <$> rt_active r)
    (active ← rt_active r; ac_spawned_at_ms active) (lt_kind <$> rt_last_terminal r)
    (lt_message_id <$> rt_last_terminal r) (rt_attention r) (rc_scope_mode (st_config s)) (rt_work_wait r)
    (rt_updated_at_ms r) (rt_inbox_failure_count r).

Definition process_metadata_from_state (s : RunnerState) : option RunnerProcessMetadata :=
  active ← rt_active (st_runtime s);
  pid ← ac_pid active;
  start ← ac_process_start_id active;
  Some (mkRunnerProcessMetadata pid start).

Definition status (identity : RunnerIdentity) (disk : RunnerState) : Result RunnerStatus :=
  s ← load_unlocked identity disk; Ok (status_from_state s).
Definition committed_cursor (identity : RunnerIdentity) (disk : RunnerState) : Result string :=
  s ← load_unlocked identity disk; Ok (rt_committed_cursor (st_runtime s)).
Definition next_pending_message_id (identity : RunnerIdentity) (disk : RunnerState) : Result (option string) :=
  s ← load_unlocked identity disk; Ok (head (rt_pending (st_runtime s))).

(** An update whose caller is given the status after it: the file is read again, which does not
    fail on the state just written ([RunnerProps.update_status_total]). *)
Definition update_status {A} (identity : RunnerIdentity) (f : Tx A) : Tx RunnerStatus := λ disk,
  '(disk, _) ← update identity f disk;
  st ← status identity disk;
  Ok (disk, st).

(** ** The store's own operations *)

(** What the directory scan of [find_configured] sees of one entry: its name when it is UTF-8,
    whether it is a directory, and what stands at its runner state path. *)
Inductive StateKind := StateMissing | StateRegular | StateIrregular.
Record DirEntry := mkDirEntry { en_name : option string; en_is_dir : bool; en_state : StateKind }.

Definition scan_entry (acc : Z * list string) (entry : DirEntry) : Result (Z * list string) :=
  let '(index, configured) := acc in
  ensure (index <? MAX_AGENT_ENTRIES) "agent directory exceeds runner scan bound" ;;
  if negb (en_is_dir entry) then Ok (index + 1, configured) else
  match en_name entry with
  | None => Ok (index + 1, configured)
  | Some name =>
      if negb (is_ok (validate_name name)) then Ok (index + 1, configured) else
      match en_state entry with
      | StateRegular => Ok (index + 1, configured ++ [name])
      | StateIrregular => Err "runner state is not a regular file"
      | StateMissing => Ok (index + 1, configured)
      end
  end.
(** [None]: the agents directory does not exist. *)
Definition find_configured (entries : option (list DirEntry)) : Result (option string) :=
  match entries with
  | None => Ok None
  | Some entries =>
      '(_, configured) ← try_fold scan_entry (0, []) entries;
      ensure (zlen configured <=? 1) "multiple configured runners found; only one is allowed per workspace" ;;
      Ok (last configured)
  end.

(** What [fs::canonicalize], [symlink_metadata] and [metadata] answer for the program. *)
Context (fs_canonicalize : string → Result string) (fs_is_file : string → Result bool) (fs_mode : string → Result Z).

Definition validate_program (program : string) : Result unit :=
  validate_program_shape program ;;
  canonical ← fs_canonicalize program;
  ensure (bool_decide (canonical = program)) "runner program must already be a canonical absolute path" ;;
  is_file ← fs_is_file program;
  ensure is_file "runner program must be a regular file" ;;
  mode ← fs_mode program;
  ensure (negb (Z.land mode 0x49 =? 0)) "runner program must be executable".

(** [lifecycle] is the outcome of taking the lifecycle lock and checking the workspace's
    layout; [lease] that of the interactive-owner check, the identity, and the lifetime and state
    locks. *)
Definition configure_scoped (lifecycle lease : Result unit) (entries : option (list DirEntry)) (now : Z)
    (generation : list byte) (agent program : string) (fixed_args : list string) (timeout_secs : Z)
    (initial_head_cursor : string) (scope_mode : RunnerScopeMode) : Result RunnerState :=
  validate_name agent ;;
  validate_nonempty_cursor initial_head_cursor ;;
  validate_program program ;;
  validate_args fixed_args ;;
  validate_timeout timeout_secs ;;
  lifecycle ;;
  configured ← find_configured entries;
  ensure (bool_decide (configured = None)) "an agent runner is already configured; use reconfigure to update it" ;;
  lease ;;
  let state := mkRunnerState RUNNER_STATE_SCHEMA_VERSION (hex_id generation)
    (mkRunnerConfig agent program fixed_args timeout_secs now scope_mode)
    (mkRunnerRuntime false initial_head_cursor None [] None [] None None None None now 0) in
  validate_state state ;;
  write_unlocked state.

Definition in_progress (active : option ActiveRequest) : bool :=
  match active with
  | Some a => bool_decide (ac_phase a = Launching) || bool_decide (ac_phase a = Running)
  | None => false
  end.

Definition reconfigure (lifecycle lease : Result unit) (entries : option (list DirEntry)) (now : Z)
    (generation : list byte) (identity : RunnerIdentity) (agent program : string) (fixed_args : list string)
    (timeout_secs : Z) (disk : RunnerState) : Result RunnerState :=
  validate_name agent ;;
  validate_program program ;;
  validate_args fixed_args ;;
  validate_timeout timeout_secs ;;
  lifecycle ;;
  configured ← find_configured entries;
  configured ← or_context configured "no agent runner is configured";
  ensure (bool_decide (configured = agent)) "another runner is configured" ;;
  lease ;;
  s ← load_unlocked identity disk;
  ensure (negb (in_progress (rt_active (st_runtime s))))
    "cannot reconfigure a runner with a launching or running request" ;;
  let state := mkRunnerState (st_schema_version s) (hex_id generation)
    (mkRunnerConfig agent program fixed_args timeout_secs now (rc_scope_mode (st_config s)))
    (touch now (set_enabled_field false (st_runtime s))) in
  validate_state state ;;
  write_unlocked state.

(** [lease]: the outcome of taking the control lease, needed to enable but not to disable. *)
Definition set_enabled (lease : Result unit) (now : Z) (identity : RunnerIdentity) (enabled : bool)
    : Tx RunnerStatus := λ disk,
  (if enabled then lease else Ok tt) ;;
  update_status identity (λ s, Ok (on_runtime (touch now ∘ set_enabled_field enabled) s, tt)) disk.

Definition begin_state (now : Z) (session_id request reply_cursor : string)
    (accepted_work : option AcceptedWorkDescriptor) (r : RunnerRuntime) : RunnerRuntime :=
  touch now (set_request None (set_wait None
    (set_active (Some (mkActiveRequest request session_id Launching reply_cursor now None None None accepted_work)) r))).

Definition begin_next_locked (now : Z) (session : list byte) (identity : RunnerIdentity) (mode : RunnerExecutionMode)
    (reply_cursor : string) (accepted_work : option AcceptedWorkDescriptor) : Tx RunnerLaunch := λ disk,
  validate_cursor reply_cursor ;;
  update identity (λ s,
    let r := st_runtime s in
    validate_execution_mode mode (rt_enabled r) ;;
    ensure (bool_decide (rt_attention r = None)) "runner needs attention and cannot begin another request" ;;
    ensure (match rt_active r with None => true | Some _ => false end) "runner already has an active request" ;;
    request ← or_context (head (rt_pending r)) "runner has no pending request";
    (if is_enforced (rc_scope_mode (st_config s)) then
       descriptor ← or_context accepted_work "enforced runner launch requires an accepted-work descriptor";
       validate_accepted_work descriptor (rc_agent (st_config s)) request
     else ensure (match accepted_work with None => true | Some _ => false end)
            "non-enforced runner launch cannot claim accepted work") ;;
    let session_id := hex_id session in
    Ok (on_runtime (begin_state now session_id request reply_cursor accepted_work) s,
        mkRunnerLaunch request session_id reply_cursor accepted_work)) disk.

Definition reset_state (now : Z) (cursor : string) (r : RunnerRuntime) : RunnerRuntime :=
  touch now (set_request None (set_wait None (set_attention None (set_active None (set_queue []
    (set_staged None (set_committed cursor r))))))).

Definition reset_to_current_cursor (lease : Result unit) (now : Z) (identity : RunnerIdentity) (cursor : string)
    (discard_pending : bool) : Tx RunnerStatus := λ disk,
  validate_cursor cursor ;;
  lease ;;
  update_status identity (λ s,
    ensure (negb (rt_enabled (st_runtime s))) "disable the runner before resetting it" ;;
    ensure discard_pending "reset requires explicit discard_pending=true; ambiguous work cannot be retried" ;;
    Ok (on_runtime (reset_state now cursor) s, tt)) disk.

(** [Ok tt]: the runner's directory is removed. *)
Definition remove_configured (lifecycle : Result unit) (identity : RunnerIdentity) (discard_pending : bool)
    (disk : RunnerState) : Result unit :=
  lifecycle ;;
  s ← load_unlocked identity disk;
  ensure (negb (rt_enabled (st_runtime s))) "disable the configured runner before removing it" ;;
  if discard_pending then Ok tt else
  ensure (bool_decide (rt_pending (st_runtime s) = [])
          && match rt_active (st_runtime s) with None => true | Some _ => false end
          && bool_decide (rt_attention (st_runtime s) = None))
    "runner has pending, active, or needs-attention work; removal requires explicit discard_pending=true".

Definition touch_completed (completed : list string) (request_id : string) : list string :=
  let completed := filter (λ id, id ≠ request_id) completed ++ [request_id] in
  if MAX_COMPLETED <? zlen completed then drop (Z.to_nat (zlen completed - MAX_COMPLETED)) completed else completed.

(** [RunnerInvocation::new] *)
Definition RunnerInvocation_new `{Blake3} (launch : RunnerLaunch) (agent : string) (message : AgentMessage)
    : Result RunnerInvocation :=
  validate_name agent ;;
  validate_session_id (rl_session_id launch) ;;
  validate_message message ;;
  ensure (bool_decide (ms_message_id message = rl_message_id launch))
    "runner invocation message does not match the active checkpoint" ;;
  ensure (bool_decide (ms_to message = agent) && match ms_kind message with Request => true | _ => false end)
    "runner invocation must contain a direct request for the configured agent" ;;
  match rl_accepted_work launch with
  | Some accepted =>
      validate_accepted_work accepted agent (rl_message_id launch) ;;
      ensure (bool_decide (aw_message_fingerprint accepted = message_fingerprint message))
        "runner invocation accepted work does not match the request message"
  | None => Ok tt
  end ;;
  Ok (mkRunnerInvocation RUNNER_INVOCATION_SCHEMA_VERSION (rl_session_id launch) agent message
        (rl_accepted_work launch)).
End store.
