(* ===== verification/RunnerSession.v ===== *)
(** * Agent runner: admission, execution session, ownership

    agent-core/src/agent/runner/admission.rs and session.rs: the transitions of a runner's state
    between its configuration and its removal; the token of contract.rs with which the continuous
    controller reaches some of them; and one relation over all of them. *)
From Stdlib Require Import ZArith Lia Ascii Strings.Byte.
From stdpp Require Import sorting numbers strings gmap list_numbers list options.
From S2P Require Import HubStore.
From S2P Require Import Prelude Text Paths WorkContract AgentContract WorkReducer WorkStatus Scope RunnerStore.

Local Open Scope Z_scope.

(** ** admission.rs *)

(** The filter over the inbox, with the set it fills as it goes. *)
Fixpoint admit_filter (agent : string) (known : gset string) (l : list AgentMessage) : list AgentMessage :=
  match l with
  | [] => []
  | m :: l =>
      if bool_decide (ms_to m = agent) && match ms_kind m with Request => true | _ => false end
         && bool_decide (ms_message_id m ∉ known)
      then m :: admit_filter agent ({[ ms_message_id m ]} ∪ known) l
      else admit_filter agent known l
  end.
Definition known_ids (r : RunnerRuntime) : gset string :=
  list_to_set (rt_pending r) ∪ list_to_set (rt_completed_ids r)
  ∪ match rt_active r with Some a => {[ ac_message_id a ]} | None => ∅ end.

(** The stable sort by time, then by id. *)
Definition older (a b : AgentMessage) : bool :=
  (ms_created_at_ms a <? ms_created_at_ms b)
  || (ms_created_at_ms a =? ms_created_at_ms b) && bool_decide (str_lt (ms_message_id a) (ms_message_id b)).
Fixpoint insert_oldest (x : AgentMessage) (l : list AgentMessage) : list AgentMessage :=
  match l with
  | [] => [x]
  | y :: l' => if older y x then y :: insert_oldest x l' else x :: y :: l'
  end.
Definition sort_oldest (l : list AgentMessage) : list AgentMessage := foldr insert_oldest [] l.

Definition attend (now : Z) (attention : RunnerAttention) : RunnerState → RunnerState :=
  on_runtime (touch now ∘ set_attention (Some attention)).

Section session.
Context `{Unicode} (encoded_len : RunnerState → Z).
Context (now : Z) (identity : RunnerIdentity).

Local Notation update := (update encoded_len identity).
Local Notation update_status := (update_status encoded_len identity).
Local Notation load_unlocked := (load_unlocked encoded_len identity).

(** The queue and the cursors after [accepted] joined the queue. *)
Definition enqueue (cursor : string) (accepted : list AgentMessage) (r : RunnerRuntime) : RunnerRuntime :=
  let r := set_queue (rt_pending r ++ (ms_message_id <$> sort_oldest accepted)) r in
  touch now (if bool_decide (rt_pending r = []) && match rt_active r with None => true | Some _ => false end
             then set_staged None (set_committed cursor r) else set_staged (Some cursor) r).

Definition admit_inbox_locked (mode : RunnerExecutionMode) (result : AgentInboxResult) : Tx RunnerAdmission := λ disk,
  validate_inbox result ;;
  let count := zlen (ai_messages result) in
  let attention := mkRunnerAdmission 0 count false true in
  update (λ s,
    let r := st_runtime s in
    validate_execution_mode mode (rt_enabled r) ;;
    if ai_cursor_reset result then Ok (attend now CursorReset s, attention) else
    ensure (bool_decide (rt_attention r = None))
      "runner needs attention before more inbox messages can be admitted" ;;
    let accepted := admit_filter (rc_agent (st_config s)) (known_ids r) (ai_messages result) in
    if MAX_PENDING <? saturating_add (zlen (rt_pending r)) (zlen accepted)
    then Ok (attend now PendingOverflow s, attention) else
    let r' := enqueue (ai_cursor result) accepted r in
    let advanced := bool_decide (rt_pending r' = []) && match rt_active r' with None => true | Some _ => false end
                    && negb (bool_decide (rt_committed_cursor r = ai_cursor result)) in
    Ok (on_runtime (λ _, r') s, mkRunnerAdmission (zlen accepted) (Z.max 0 (count - zlen accepted)) advanced false))
    disk.

Definition record_work_wait_locked (mode : RunnerExecutionMode) (wait : RunnerWorkWait) : Tx RunnerStatus := λ disk,
  s ← load_unlocked disk;
  validate_execution_mode mode (rt_enabled (st_runtime s)) ;;
  validate_message_id (ww_message_id wait) ;;
  update_status (λ s,
    let r := st_runtime s in
    validate_execution_mode mode (rt_enabled r) ;;
    ensure (match rt_active r with None => true | Some _ => false end)
      "runner has an active request and cannot record a work wait" ;;
    ensure (bool_decide (head (rt_pending r) = Some (ww_message_id wait)))
      "runner work wait does not match the next pending request" ;;
    ensure (bool_decide (rt_attention r = None)) "runner already needs attention" ;;
    Ok (on_runtime (touch now ∘ set_wait (Some wait)) s, tt)) disk.

Definition active_accepted_work (disk : RunnerState) : Result (option AcceptedWorkDescriptor) :=
  s ← load_unlocked disk;
  if negb (is_enforced (rc_scope_mode (st_config s))) then Ok None else
  Ok (active ← rt_active (st_runtime s); ac_accepted_work active).

(** The record is the one already published for this task, intent and set of paths. *)
Definition same_request (task_id intent_message_id paths_fingerprint : string)
    (current : option ScopeChangeRequestState) : bool :=
  match current with
  | Some record => bool_decide (cr_task_id record = task_id)
                   && bool_decide (cr_intent_message_id record = intent_message_id)
                   && bool_decide (cr_paths_fingerprint record = paths_fingerprint)
  | None => false
  end.

Definition record_scope_change_request_locked (message_id task_id intent_message_id paths_fingerprint : string)
    : Tx bool := λ disk,
  validate_message_id message_id ;;
  validate_message_id intent_message_id ;;
  ensure (is_fingerprint paths_fingerprint) "runner scope-change request fingerprint is invalid" ;;
  update (λ s,
    if same_request task_id intent_message_id paths_fingerprint (rt_scope_change_request (st_runtime s))
    then Ok (on_runtime (touch now) s, false)
    else Ok (on_runtime (touch now ∘ set_request (Some (mkScopeChangeRequestState (Some message_id) task_id
               intent_message_id paths_fingerprint "" Confirmed now))) s, true)) disk.

Definition begin_scope_change_request_locked
    (task_id intent_message_id paths_fingerprint scope_fingerprint : string) : Tx bool := λ disk,
  validate_message_id intent_message_id ;;
  ensure (is_valid_task_id task_id) "runner scope-change request has an invalid task id" ;;
  ensure (is_fingerprint paths_fingerprint) "runner scope-change request fingerprint is invalid" ;;
  ensure (bool_decide (scope_fingerprint = "")
          || (slen scope_fingerprint <=? 128) && all_chars is_ascii_hexdigit scope_fingerprint)
    "runner scope-change scope fingerprint is invalid" ;;
  update (λ s,
    let current := rt_scope_change_request (st_runtime s) in
    ensure (match current with
            | Some record => negb (bool_decide (cr_publish_state record = AwaitingConfirmation))
            | None => true
            end) "runner scope-change request is awaiting confirmation; refusing a new request" ;;
    if same_request task_id intent_message_id paths_fingerprint current
    then Ok (on_runtime (touch now) s, false)
    else Ok (on_runtime (touch now ∘ set_request (Some (mkScopeChangeRequestState None task_id
               intent_message_id paths_fingerprint scope_fingerprint PublishPending now))) s, true)) disk.

Definition is_amendment_wait (wait : option RunnerWorkWait) : bool :=
  match wait with Some w => bool_decide (ww_kind w = ScopeAmendmentRequested) | None => false end.

Definition abandon_scope_change_request_locked : Tx unit :=
  update (λ s,
    let r := set_request None (st_runtime s) in
    let r := if is_amendment_wait (rt_work_wait r) then set_wait None r else r in
    Ok (on_runtime (λ _, touch now r) s, tt)).

Definition clear_scope_amendment_wait_locked : Tx unit :=
  update (λ s,
    if is_amendment_wait (rt_work_wait (st_runtime s))
    then Ok (on_runtime (touch now ∘ set_wait None) s, tt) else Ok (s, tt)).

Definition complete_scope_change_request_locked (message_id : string) : Tx unit := λ disk,
  validate_message_id message_id ;;
  update (λ s,
    record ← or_context (rt_scope_change_request (st_runtime s)) "runner has no scope-change request record to complete";
    ensure (bool_decide (cr_message_id record = None)) "runner scope-change request is already confirmed" ;;
    Ok (on_runtime (touch now ∘ set_request (Some (mkScopeChangeRequestState (Some message_id) (cr_task_id record)
          (cr_intent_message_id record) (cr_paths_fingerprint record) (cr_scope_fingerprint record) Confirmed
          (cr_observed_at_ms record)))) s, tt)) disk.

Definition mark_scope_change_awaiting_confirmation_locked : Tx unit :=
  update (λ s,
    match rt_scope_change_request (st_runtime s) with
    | None => Ok (s, tt)
    | Some record =>
        if bool_decide (cr_publish_state record = PublishPending)
        then Ok (on_runtime (touch now ∘ set_request (Some (mkScopeChangeRequestState (cr_message_id record)
               (cr_task_id record) (cr_intent_message_id record) (cr_paths_fingerprint record)
               (cr_scope_fingerprint record) AwaitingConfirmation (cr_observed_at_ms record)))) s, tt)
        else Ok (s, tt)
    end).

Definition scope_change_request_key_locked (disk : RunnerState) : Result (option ScopeChangeRequestKey) :=
  s ← load_unlocked disk;
  Ok ((λ record, mkScopeChangeRequestKey (cr_task_id record) (cr_intent_message_id record)
         (cr_paths_fingerprint record) (cr_scope_fingerprint record) (cr_publish_state record))
      <$> rt_scope_change_request (st_runtime s)).

(** ** session.rs *)

Definition spawn_active (pid : Z) (process_start_id : string) (active : ActiveRequest) : ActiveRequest :=
  mkActiveRequest (ac_message_id active) (ac_session_id active) Running (ac_reply_cursor active)
    (ac_started_at_ms active) (Some now) (Some pid) (Some process_start_id) (ac_accepted_work active).

Definition mark_spawned_locked (message_id : string) (pid : Z) (process_start_id : string) : Tx RunnerStatus := λ disk,
  ensure (is_valid_hash message_id) "invalid runner request message id" ;;
  ensure (0 <? pid) "runner child pid must be non-zero" ;;
  ensure (is_process_start_id process_start_id) "runner process start identifier is invalid or too large" ;;
  update_status (λ s,
    active ← or_context (rt_active (st_runtime s)) "runner has no active request";
    ensure (bool_decide (ac_message_id active = message_id)) "active runner request changed" ;;
    ensure (bool_decide (ac_phase active = Launching)) "runner request is not in the launching phase" ;;
    Ok (on_runtime (touch now ∘ set_active (Some (spawn_active pid process_start_id active))) s, tt)) disk.

(** The message that ends [request]. *)
Definition is_terminal_for (agent : string) (request : AgentMessage) (active_id : string) (expected : option string)
    (m : AgentMessage) : bool :=
  bool_decide (ms_from m = agent) && bool_decide (ms_to m = ms_from request)
  && bool_decide (ms_reply_to m = Some active_id)
  && match ms_kind m with
     | KindBlocked => true
     | KindResult => bool_decide (expected = Some (ms_about_snapshot m))
     | Request | Status => false
     end.

Definition finish_state (terminal : AgentMessage) (request_id : string) (r : RunnerRuntime) : RunnerRuntime :=
  let pending := filter (λ id, id ≠ request_id) (rt_pending r) in
  let r := set_terminal (Some (mkLastTerminal (ms_kind terminal) (ms_message_id terminal) now)) r in
  let r := set_completed (touch_completed (rt_completed_ids r) request_id) r in
  let r := set_request None (set_wait None (set_active None (set_queue pending r))) in
  touch now (match pending, rt_staged_cursor r with
             | [], Some cursor => set_committed cursor (set_staged None r)
             | _, _ => r
             end).

Definition observe_terminals_locked (request : AgentMessage) (messages : list AgentMessage) (expected : option string)
    : Tx (option RunnerStatus) := λ disk,
  validate_message request ;;
  match expected with
  | Some snapshot => ensure (is_valid_hash snapshot) "runner settled snapshot must be a full snapshot id"
  | None => Ok tt
  end ;;
  ensure (zlen messages <=? AGENT_INBOX_MAX_LIMIT) "runner terminal observation exceeds the inbox bound" ;;
  validate_messages messages ;;
  '(disk, completed) ← update (λ s,
    let r := st_runtime s in
    active ← or_context (rt_active r) "runner has no active request to correlate a terminal";
    ensure (bool_decide (ms_message_id request = ac_message_id active))
      "runner terminal observation request does not match the active request" ;;
    ensure (bool_decide (ms_to request = rc_agent (st_config s)) && match ms_kind request with Request => true | _ => false end)
      "runner terminal observation requires the active direct request for the configured agent" ;;
    match find (is_terminal_for (rc_agent (st_config s)) request (ac_message_id active) expected) messages with
    | None => Ok (s, false)
    | Some terminal => Ok (on_runtime (finish_state terminal (ac_message_id active)) s, true)
    end) disk;
  if (completed : bool) then st ← status encoded_len identity disk; Ok (disk, Some st) else Ok (disk, None).

Definition record_inbox_failure_locked : Tx RunnerStatus :=
  update_status (λ s, Ok (on_runtime (λ r, touch now (set_failures
    (Z.min (Z.min (rt_inbox_failure_count r + 1) U32_MAX) MAX_FAILURES) r)) s, tt)).
Definition record_inbox_recovery_locked : Tx RunnerStatus :=
  update_status (λ s, Ok (on_runtime (touch now ∘ set_failures 0) s, tt)).

Definition record_preparation_failed_locked (mode : RunnerExecutionMode) : Tx RunnerStatus :=
  update_status (λ s,
    let r := st_runtime s in
    validate_execution_mode mode (rt_enabled r) ;;
    ensure (negb (bool_decide (rt_pending r = [])))
      "runner has no pending request to preserve after refresh preparation failed" ;;
    ensure (match rt_active r with None => true | Some _ => false end)
      "runner has an active request and cannot record a refresh preparation failure" ;;
    ensure (bool_decide (rt_attention r = None)) "runner already needs attention" ;;
    Ok (attend now PreparationFailed s, tt)).

Definition pin_active (active : ActiveRequest) : ActiveRequest :=
  mkActiveRequest (ac_message_id active) (ac_session_id active) Ambiguous (ac_reply_cursor active)
    (ac_started_at_ms active) (ac_spawned_at_ms active) (ac_pid active) (ac_process_start_id active)
    (ac_accepted_work active).
Definition pin (attention : RunnerAttention) (active : ActiveRequest) (r : RunnerRuntime) : RunnerRuntime :=
  touch now (set_attention (Some attention) (set_active (Some (pin_active active)) r)).

Definition checkpoint_startup_locked : Tx RunnerStatus :=
  update_status (λ s,
    match rt_active (st_runtime s) with
    | Some active =>
        if in_progress (Some active) then Ok (on_runtime (pin AmbiguousExecution active) s, tt) else Ok (s, tt)
    | None => Ok (s, tt)
    end).

Definition record_delivery_unknown_locked (message_id session_id : string) : Tx RunnerStatus := λ disk,
  ensure (is_valid_hash message_id) "invalid runner request message id" ;;
  validate_session_id session_id ;;
  update_status (λ s,
    let r := st_runtime s in
    ensure (bool_decide (rt_attention r = None) || ambiguous_attention (rt_attention r))
      "runner already needs unrelated attention" ;;
    active ← or_context (rt_active r) "runner has no active request";
    ensure (bool_decide (ac_message_id active = message_id) && bool_decide (ac_session_id active = session_id))
      "runner launcher session does not match the active request" ;;
    Ok (on_runtime (pin DeliveryUnknown active) s, tt)) disk.

(** [execution_session]; [lease]: the outcome of taking the lifetime lease. *)
Definition execution_session (lease : Result unit) (mode : RunnerExecutionMode) : Tx RunnerStatus := λ disk,
  lease ;;
  s ← load_unlocked disk;
  validate_execution_mode mode (rt_enabled (st_runtime s)) ;;
  checkpoint_startup_locked disk.

(** [ensure_store]: the lease was taken for this configuration of the store. *)
Definition validate_lease (lease : RunnerIdentity) (disk : RunnerState) : Result unit :=
  load_unlocked disk ;;
  ensure (bool_decide (id_agent lease = id_agent identity) && bool_decide (id_generation_id lease = id_generation_id identity)
          && bool_decide (id_canonical_workspace lease = id_canonical_workspace identity)
          && bool_decide (id_canonical_agent_root lease = id_canonical_agent_root identity))
    "runner lifetime lock does not own this runner configuration".

(** A method of [RunnerExecutionSession]: the lease is checked before the store's operation. *)
Definition in_session {A} (lease : RunnerIdentity) (op : Tx A) : Tx A := λ disk, validate_lease lease disk ;; op disk.
End session.

(** ** All operations

    One constructor per operation that changes the state file, with its arguments; a leased
    operation carries the outcome of taking its lease. *)
Inductive RunnerOp :=
  | OpSetEnabled (lease : Result unit) (enabled : bool)
  | OpReconfigure (lifecycle lease : Result unit) (entries : option (list DirEntry)) (generation : list byte)
      (agent program : string) (fixed_args : list string) (timeout_secs : Z)
  | OpReset (lease : Result unit) (cursor : string) (discard_pending : bool)
  | OpStartup (lease : Result unit) (mode : RunnerExecutionMode)
  | OpAdmit (mode : RunnerExecutionMode) (result : AgentInboxResult)
  | OpBegin (session : list byte) (mode : RunnerExecutionMode) (reply_cursor : string)
      (accepted_work : option AcceptedWorkDescriptor)
  | OpSpawned (message_id : string) (pid : Z) (process_start_id : string)
  | OpObserve (request : AgentMessage) (messages : list AgentMessage) (expected : option string)
  | OpDeliveryUnknown (message_id session_id : string)
  | OpPreparationFailed (mode : RunnerExecutionMode)
  | OpInboxFailure
  | OpInboxRecovery
  | OpWait (mode : RunnerExecutionMode) (wait : RunnerWorkWait)
  | OpRecordRequest (message_id task_id intent_message_id paths_fingerprint : string)
  | OpBeginRequest (task_id intent_message_id paths_fingerprint scope_fingerprint : string)
  | OpCompleteRequest (message_id : string)
  | OpAwaitConfirmation
  | OpAbandonRequest
  | OpClearWait.

Definition is_reset (op : RunnerOp) : bool := match op with OpReset _ _ _ => true | _ => false end.

(** What the caller learns: the request it must launch, the requests it need not read again. *)
Record Outcome := mkOutcome { oc_launched : list string; oc_delivered : list string }.
Definition quiet : Outcome := mkOutcome [] [].

#[global] Instance AgentMessageKind_eq_dec : EqDecision AgentMessageKind.
Proof. solve_decision. Defined.

Definition direct_requests (agent : string) (l : list AgentMessage) : list string :=
  ms_message_id <$> filter (λ m, ms_to m = agent ∧ ms_kind m = Request) l.

Section run.
Context `{Unicode} (encoded_len : RunnerState → Z).
Context (fs_canonicalize : string → Result string) (fs_is_file : string → Result bool) (fs_mode : string → Result Z).

Definition run_op (now : Z) (identity : RunnerIdentity) (op : RunnerOp) : Tx Outcome := λ disk,
  let quietly {A} (r : Result (RunnerState * A)) := '(disk, _) ← r; Ok (disk, quiet) in
  match op with
  | OpSetEnabled lease enabled => quietly (set_enabled encoded_len lease now identity enabled disk)
  | OpReconfigure lifecycle lease entries generation agent program fixed_args timeout_secs =>
      disk ← reconfigure encoded_len fs_canonicalize fs_is_file fs_mode lifecycle lease entries now generation
               identity agent program fixed_args timeout_secs disk;
      Ok (disk, quiet)
  | OpReset lease cursor discard_pending =>
      quietly (reset_to_current_cursor encoded_len lease now identity cursor discard_pending disk)
  | OpStartup lease mode => quietly (execution_session encoded_len now identity lease mode disk)
  | OpAdmit mode result =>
      '(disk', admission) ← admit_inbox_locked encoded_len now identity mode result disk;
      Ok (disk', if ra_needs_attention admission then quiet
                 else mkOutcome [] (direct_requests (rc_agent (st_config disk)) (ai_messages result)))
  | OpBegin session mode reply_cursor accepted_work =>
      '(disk, launch) ← begin_next_locked encoded_len now session identity mode reply_cursor accepted_work disk;
      Ok (disk, mkOutcome [rl_message_id launch] [])
  | OpSpawned message_id pid process_start_id =>
      quietly (mark_spawned_locked encoded_len now identity message_id pid process_start_id disk)
  | OpObserve request messages expected =>
      quietly (observe_terminals_locked encoded_len now identity request messages expected disk)
  | OpDeliveryUnknown message_id session_id =>
      quietly (record_delivery_unknown_locked encoded_len now identity message_id session_id disk)
  | OpPreparationFailed mode => quietly (record_preparation_failed_locked encoded_len now identity mode disk)
  | OpInboxFailure => quietly (record_inbox_failure_locked encoded_len now identity disk)
  | OpInboxRecovery => quietly (record_inbox_recovery_locked encoded_len now identity disk)
  | OpWait mode wait => quietly (record_work_wait_locked encoded_len now identity mode wait disk)
  | OpRecordRequest message_id task_id intent fingerprint =>
      quietly (record_scope_change_request_locked encoded_len now identity message_id task_id intent fingerprint disk)
  | OpBeginRequest task_id intent fingerprint scope_fingerprint =>
      quietly (begin_scope_change_request_locked encoded_len now identity task_id intent fingerprint scope_fingerprint disk)
  | OpCompleteRequest message_id =>
      quietly (complete_scope_change_request_locked encoded_len now identity message_id disk)
  | OpAwaitConfirmation => quietly (mark_scope_change_awaiting_confirmation_locked encoded_len now identity disk)
  | OpAbandonRequest => quietly (abandon_scope_change_request_locked encoded_len now identity disk)
  | OpClearWait => quietly (clear_scope_amendment_wait_locked encoded_len now identity disk)
  end.

(** How a state write ends: as [atomic_overwrite] does, and, where that succeeds, with the error of
    what follows once the file is replaced: [set_private_file], and the read of the status that is
    returned to the caller. *)
Record WriteEnd := mkWriteEnd { we_commit : Commit; we_after : option string }.
Definition end_write {A} (c : WriteEnd) (out : A) (written : result HubError unit) : result HubError A :=
  written ;; match we_after c with Some e => Err (Failed e) | None => Ok out end.

(** One call, with its failures: an operation that fails before its write leaves the file; then the
    write ends as given.  The result is the file, what it now records, and what the caller is told. *)
Definition perform (c : WriteEnd) (now : Z) (identity : RunnerIdentity) (op : RunnerOp) (disk : RunnerState)
    : RunnerState * Outcome * result HubError Outcome :=
  match run_op now identity op disk with
  | Err e => (disk, quiet, Err (Failed e))
  | Ok (disk', out) =>
      let '(written, file) := atomic_overwrite (we_commit c) disk disk' in
      (file, match we_commit c with NotCommitted => quiet | _ => out end, end_write c out written)
  end.

(** A history: each call with its clock, the handle it was made through and how its write ends.  The
    log has the launches and the deliveries the file records. *)
Record Call := mkCall { cl_now : Z; cl_identity : RunnerIdentity; cl_op : RunnerOp; cl_write : WriteEnd }.

Definition run_call (acc : RunnerState * Outcome) (c : Call) : RunnerState * Outcome :=
  let '(disk, log) := acc in
  let '(file, out, _) := perform (cl_write c) (cl_now c) (cl_identity c) (cl_op c) disk in
  (file, mkOutcome (oc_launched log ++ oc_launched out) (oc_delivered log ++ oc_delivered out)).
Definition run_calls (calls : list Call) (disk : RunnerState) : RunnerState * Outcome :=
  foldl run_call (disk, quiet) calls.
End run.
