(* ===== verification/RunnerProps.v ===== *)
(** * Agent runner: what validation guarantees, and the queue the state implements

    What a validated state is known to satisfy; how loads, updates and views relate; an abstract
    machine for the life of a request (delivered, launched, finished, pinned, discarded), and
    that every operation is one of its steps. *)
From Stdlib Require Import ZArith Lia Ascii Strings.Byte.
From stdpp Require Import sorting numbers strings gmap list_numbers list options.
From S2P Require Import Prelude Text Paths WorkContract AgentContract WorkReducer WorkStatus Scope RunnerStore.
From S2P Require Import RunnerSession.

Local Open Scope Z_scope.

(** ** Validated states *)
Section validation.
Context `{Unicode}.

Lemma check_pending_fold l ids ids' :
  try_fold check_pending ids l = Ok ids' ↔
  Forall (λ id, is_valid_hash id = true) l ∧ NoDup l ∧ (∀ id, id ∈ l → id ∉ ids) ∧ ids' = list_to_set l ∪ ids.
Proof.
  revert ids. induction l as [|id l IH]; intros ids; simpl.
  { split; [intros [= <-]|intros (_ & _ & _ & ->)]; [|f_equal; set_solver].
    split; [constructor|]. split; [constructor|]. split; set_solver. }
  rewrite bind_Ok. split.
  - intros (ids1 & H1 & H2). unfold check_pending in H1. inv_ok. to_prop.
    apply IH in H2 as (Hh & Hn & Hd & ->). split; [by constructor|]. split; [|set_solver].
    constructor; [|done]. intros Hin. destruct (Hd id Hin). set_solver.
  - intros ([Hh Hhs]%Forall_cons & [Hnin Hn]%NoDup_cons & Hd & ->). exists ({[ id ]} ∪ ids). split.
    + unfold check_pending. rewrite Hh. simpl. rewrite bool_decide_true by (apply Hd; left). done.
    + apply IH. split; [done|]. split; [done|]. split; [|set_solver].
      intros id' Hid'. assert (id' ≠ id) by naive_solver. specialize (Hd id'). set_solver.
Qed.

Lemma check_completed_fold pending l ids ids' :
  try_fold (check_completed pending) ids l = Ok ids' ↔
  Forall (λ id, is_valid_hash id = true ∧ id ∉ pending) l ∧ NoDup l ∧ (∀ id, id ∈ l → id ∉ ids)
  ∧ ids' = list_to_set l ∪ ids.
Proof.
  revert ids. induction l as [|id l IH]; intros ids; simpl.
  { split; [intros [= <-]|intros (_ & _ & _ & ->)]; [|f_equal; set_solver].
    split; [constructor|]. split; [constructor|]. split; set_solver. }
  rewrite bind_Ok. split.
  - intros (ids1 & H1 & H2). unfold check_completed in H1. inv_ok. to_prop.
    apply IH in H2 as (Hh & Hn & Hd & ->). split; [by constructor|]. split; [|set_solver].
    constructor; [|done]. intros Hin. destruct (Hd id Hin). set_solver.
  - intros ([[Hh Hp] Hhs]%Forall_cons & [Hnin Hn]%NoDup_cons & Hd & ->). exists ({[ id ]} ∪ ids). split.
    + unfold check_completed. rewrite Hh. simpl. rewrite !bool_decide_true by (done || (apply Hd; left)). done.
    + apply IH. split; [done|]. split; [done|]. split; [|set_solver].
      intros id' Hid'. assert (id' ≠ id) by naive_solver. specialize (Hd id'). set_solver.
Qed.

Lemma validate_queue_Ok r :
  validate_queue r = Ok tt ↔
  Forall (λ id, is_valid_hash id = true) (rt_pending r) ∧ NoDup (rt_pending r)
  ∧ Forall (λ id, is_valid_hash id = true ∧ id ∉ rt_pending r) (rt_completed_ids r) ∧ NoDup (rt_completed_ids r).
Proof.
  unfold validate_queue. rewrite bind_Ok. split.
  - intros (ids & H1 & H2). inv_ok. apply check_pending_fold in H1 as (Hh & Hn & _ & ->).
    apply check_completed_fold in H0 as (Hc & Hcn & _). repeat split; try done.
    eapply Forall_impl; [exact Hc|]. intros id [? ?]. split; [done|]. set_solver.
  - intros (Hh & Hn & Hc & Hcn). eexists.
    split; [apply check_pending_fold; split; [done|split; [done|split; [set_solver|reflexivity]]]|].
    apply bind_Ok. eexists. split; [|done]. apply check_completed_fold.
    split; [|split; [done|split; [set_solver|reflexivity]]].
    eapply Forall_impl; [exact Hc|]. intros id [? ?]. split; [done|]. set_solver.
Qed.

(** The blocks of [validate_state]. *)
Record valid_blocks (s : RunnerState) : Prop := {
  vb_bounds : validate_bounds s = Ok tt;
  vb_wait w : rt_work_wait (st_runtime s) = Some w → validate_wait (st_runtime s) w = Ok tt;
  vb_change c : rt_scope_change_request (st_runtime s) = Some c → validate_scope_change (st_runtime s) c = Ok tt;
  vb_queue : validate_queue (st_runtime s) = Ok tt;
  vb_active a : rt_active (st_runtime s) = Some a → validate_active s a = Ok tt;
  vb_attention : validate_attention (st_runtime s) = Ok tt;
  vb_terminal t : rt_last_terminal (st_runtime s) = Some t → validate_terminal t = Ok tt;
}.

Lemma if_some_Ok {A} (o : option A) f : if_some o f = Ok tt ↔ ∀ a, o = Some a → f a = Ok tt.
Proof. destruct o; simpl; naive_solver. Qed.

Lemma then_Ok {B} (m : Result unit) (k : Result B) b : (m ;; k) = Ok b ↔ m = Ok tt ∧ k = Ok b.
Proof. destruct m as [[]|]; simpl; naive_solver. Qed.

Lemma validate_state_Ok s : validate_state s = Ok tt ↔ valid_blocks s.
Proof.
  unfold validate_state. cbv zeta. rewrite !then_Ok, !if_some_Ok. split.
  - by intros (? & ? & ? & ? & ? & ? & ?).
  - by intros [].
Qed.

(** The facts the operations rely on. *)
Record valid (s : RunnerState) : Prop := {
  va_staged : rt_pending (st_runtime s) = [] ↔ rt_staged_cursor (st_runtime s) = None;
  va_pending_bound : zlen (rt_pending (st_runtime s)) ≤ MAX_PENDING;
  va_completed_bound : zlen (rt_completed_ids (st_runtime s)) ≤ MAX_COMPLETED;
  va_pending : NoDup (rt_pending (st_runtime s));
  va_completed id : id ∈ rt_completed_ids (st_runtime s) → id ∉ rt_pending (st_runtime s);
  va_active a : rt_active (st_runtime s) = Some a →
    ac_message_id a ∈ rt_pending (st_runtime s)
    ∧ (ac_phase a = Ambiguous → ambiguous_attention (rt_attention (st_runtime s)) = true);
  va_ambiguous : ambiguous_attention (rt_attention (st_runtime s)) = true →
    ∃ a, rt_active (st_runtime s) = Some a ∧ ac_phase a = Ambiguous;
}.

Lemma validate_state_valid s : validate_state s = Ok tt → valid s.
Proof.
  intros [Hb _ _ Hq Ha Hatt _]%validate_state_Ok. apply validate_queue_Ok in Hq as (_ & Hn & Hc & _).
  unfold validate_bounds in Hb. inv_ok. to_prop. split; try done.
  - apply eqb_prop in Hb. destruct (rt_pending (st_runtime s)) eqn:?, (rt_staged_cursor (st_runtime s)) eqn:?;
      split; intros; try done; discriminate Hb.
  - intros id Hid. rewrite Forall_forall in Hc. by apply Hc.
  - intros a Hact. specialize (Ha a Hact). unfold validate_active in Ha. inv_ok. to_prop. split; [done|].
    intros Hph. unfold validate_phase in Ha. rewrite Hph in Ha. by inv_ok.
  - intros Hamb. unfold validate_attention in Hatt. rewrite Hamb in Hatt. inv_ok.
    destruct (rt_active (st_runtime s)) as [a|] eqn:Hact; [|done]. to_prop. by exists a.
Qed.
End validation.

(** ** Transactions *)
Section transactions.
Context `{Unicode} (encoded_len : RunnerState → Z).

Lemma migrate_runtime s : st_runtime (migrate s) = st_runtime s.
Proof. unfold migrate. by destruct (_ =? _). Qed.
Lemma migrate_agent s : rc_agent (st_config (migrate s)) = rc_agent (st_config s).
Proof. unfold migrate. by destruct (_ =? _). Qed.
Lemma migrate_current s : st_schema_version s = RUNNER_STATE_SCHEMA_VERSION → migrate s = s.
Proof. intros Hs. unfold migrate. by rewrite Hs. Qed.

Lemma valid_schema s : validate_state s = Ok tt → st_schema_version s = RUNNER_STATE_SCHEMA_VERSION.
Proof. intros [Hb _ _ _ _ _ _]%validate_state_Ok. unfold validate_bounds in Hb. inv_ok. by to_prop. Qed.

Lemma load_Ok identity disk s :
  load_unlocked encoded_len identity disk = Ok s →
  s = migrate disk ∧ validate_state s = Ok tt ∧ rc_agent (st_config s) = id_agent identity
  ∧ st_generation_id s = id_generation_id identity.
Proof. unfold load_unlocked, read_runner_state_unlocked. intros Hl. inv_ok. by to_prop. Qed.

Lemma update_Ok {A} identity (f : Tx A) disk disk' a :
  update encoded_len identity f disk = Ok (disk', a) →
  ∃ s, load_unlocked encoded_len identity disk = Ok s ∧ f s = Ok (disk', a) ∧ validate_state disk' = Ok tt
       ∧ encoded_len disk' ≤ MAX_STATE_BYTES.
Proof. unfold update, write_unlocked. intros Hu. inv_ok. to_prop. eauto. Qed.

Lemma update_status_Ok {A} identity (f : Tx A) disk disk' st :
  update_status encoded_len identity f disk = Ok (disk', st) →
  ∃ a, update encoded_len identity f disk = Ok (disk', a).
Proof. unfold update_status. intros Hu. inv_ok. eauto. Qed.

(** A state just written loads again, as itself. *)
Lemma load_written identity s :
  validate_state s = Ok tt → encoded_len s ≤ MAX_STATE_BYTES → rc_agent (st_config s) = id_agent identity →
  st_generation_id s = id_generation_id identity → load_unlocked encoded_len identity s = Ok s.
Proof.
  intros Hv Hlen Ha Hg. pose proof (valid_schema s Hv) as Hs. unfold load_unlocked, read_runner_state_unlocked.
  rewrite (proj2 (Z.leb_le _ _) Hlen). simpl. rewrite Hs. simpl. rewrite migrate_current, Hv by done. simpl.
  by rewrite !bool_decide_true by done.
Qed.

(** So the status after an update of the runtime never fails. *)
Lemma update_status_total {A} identity (f : Tx A) disk disk' a :
  (∀ s s' a, f s = Ok (s', a) → st_config s' = st_config s ∧ st_generation_id s' = st_generation_id s) →
  update encoded_len identity f disk = Ok (disk', a) →
  update_status encoded_len identity f disk = Ok (disk', status_from_state disk').
Proof.
  intros Hf Hu. pose proof Hu as (s & (-> & _ & Ha & Hg)%load_Ok & Hs & Hv & Hlen)%update_Ok.
  destruct (Hf _ _ _ Hs) as [Hc Hgen]. unfold update_status, status. rewrite Hu. simpl.
  by rewrite load_written by congruence.
Qed.
End transactions.

(** Reduces a successful update to the loaded state and what the closure made of it. *)
Ltac inv_update H :=
  first [apply update_status_Ok in H as (? & H) | idtac];
  apply update_Ok in H as (?s & ?Hload & H & ?Hvalid & ?Hlen);
  let Hs := fresh "Hs" in let Hv := fresh "Hv" in let Ha := fresh "Hagent" in let Hg := fresh "Hgen" in
  apply load_Ok in Hload as (Hs & Hv & Ha & Hg).

(** ** The abstract queue *)
Record Queue := mkQueue {
  q_waiting : list string;
  q_running : option string;
  q_done : list string;
  q_attention : option RunnerAttention;
  q_committed : string;
  q_staged : option string;
}.
Definition queue_of (s : RunnerState) : Queue :=
  let r := st_runtime s in
  mkQueue (rt_pending r) (ac_message_id <$> rt_active r) (rt_completed_ids r) (rt_attention r)
    (rt_committed_cursor r) (rt_staged_cursor r).

Inductive QueueEvent :=
  | Quiet | Delivered (requests : list string) | Launched (id : string) | Finished (id : string)
  | Alerted | Pinned | Discarded.

Definition q_idle (q : Queue) : bool := bool_decide (q_waiting q = []) && bool_decide (q_running q = None).

Inductive queue_step (q : Queue) : QueueEvent → Queue → Prop :=
  | step_quiet : queue_step q Quiet q
  | step_deliver requests ids cursor :
      q_attention q = None → NoDup ids →
      (∀ id, id ∈ ids ↔ id ∈ requests ∧ id ∉ q_waiting q ∧ id ∉ q_done q) →
      queue_step q (Delivered requests)
        (let idle := bool_decide (q_waiting q ++ ids = []) && bool_decide (q_running q = None) in
         mkQueue (q_waiting q ++ ids) (q_running q) (q_done q) None
           (if idle then cursor else q_committed q) (if idle then None else Some cursor))
  | step_launch id waiting :
      q_attention q = None → q_running q = None → q_waiting q = id :: waiting → id ∉ q_done q →
      queue_step q (Launched id)
        (mkQueue (q_waiting q) (Some id) (q_done q) None (q_committed q) (q_staged q))
  | step_finish id waiting :
      q_running q = Some id → id ∉ q_done q → ambiguous_attention (q_attention q) = false →
      waiting = filter (λ id', id' ≠ id) (q_waiting q) →
      queue_step q (Finished id)
        (let emptied := bool_decide (waiting = []) in
         mkQueue waiting None (touch_completed (q_done q) id) (q_attention q)
           (if emptied then default (q_committed q) (q_staged q) else q_committed q)
           (if emptied then None else q_staged q))
  | step_alert a :
      ambiguous_attention (q_attention q) = false → ambiguous_attention (Some a) = false →
      queue_step q Alerted
        (mkQueue (q_waiting q) (q_running q) (q_done q) (Some a) (q_committed q) (q_staged q))
  | step_pin a :
      is_Some (q_running q) → ambiguous_attention (Some a) = true →
      queue_step q Pinned
        (mkQueue (q_waiting q) (q_running q) (q_done q) (Some a) (q_committed q) (q_staged q))
  | step_discard cursor :
      queue_step q Discarded (mkQueue [] None (q_done q) None cursor None).

Definition event_outcome (e : QueueEvent) : Outcome :=
  match e with
  | Launched id => mkOutcome [id] []
  | Delivered requests => mkOutcome [] requests
  | _ => quiet
  end.

(** ** Every operation is a step of the queue *)
Lemma insert_oldest_perm x l : insert_oldest x l ≡ₚ x :: l.
Proof.
  induction l as [|y l IH]; simpl; [done|]. destruct (older y x); [|done].
  rewrite IH. apply Permutation_swap.
Qed.
Lemma sort_oldest_perm l : sort_oldest l ≡ₚ l.
Proof. induction l as [|x l IH]; simpl; [done|]. by rewrite insert_oldest_perm, IH. Qed.

Lemma admit_filter_spec agent known l :
  NoDup (ms_message_id <$> admit_filter agent known l)
  ∧ ∀ id, id ∈ ms_message_id <$> admit_filter agent known l ↔ id ∈ direct_requests agent l ∧ id ∉ known.
Proof.
  revert known. induction l as [|m l IH]; intros known; simpl.
  { split; [constructor|]. unfold direct_requests. simpl. set_solver. }
  assert (∀ id, id ∈ direct_requests agent (m :: l) ↔
    (ms_to m = agent ∧ ms_kind m = Request) ∧ id = ms_message_id m ∨ id ∈ direct_requests agent l) as Hcons.
  { intros id. unfold direct_requests. rewrite filter_cons. case_decide; simpl; set_solver. }
  destruct (_ && bool_decide (ms_message_id m ∉ known)) eqn:Hc.
  - assert ((ms_to m = agent ∧ ms_kind m = Request) ∧ ms_message_id m ∉ known) as [Hm Hk].
    { to_prop. by destruct (ms_kind m). }
    destruct (IH ({[ms_message_id m]} ∪ known)) as [Hn Hin]. simpl. split.
    + constructor; [|done]. rewrite Hin. set_solver.
    + intros id. rewrite elem_of_cons, Hin, Hcons. destruct (decide (id = ms_message_id m)); set_solver.
  - destruct (IH known) as [Hn Hin]. split; [done|]. intros id. rewrite Hin, Hcons. split; [naive_solver|].
    intros [[[[Hto Hkind] ->]|?] Hk]; [|done]. rewrite !bool_decide_true, Hkind in Hc by done. discriminate.
Qed.

(** The active request is in the queue, so that it adds nothing to what is known. *)
Lemma known_ids_spec s id :
  valid s → id ∉ known_ids (st_runtime s) ↔ id ∉ rt_pending (st_runtime s) ∧ id ∉ rt_completed_ids (st_runtime s).
Proof.
  intros Hv. unfold known_ids. rewrite !not_elem_of_union, !not_elem_of_list_to_set.
  destruct (rt_active (st_runtime s)) as [a|] eqn:Ha; [|rewrite elem_of_empty; tauto].
  destruct (va_active _ Hv a Ha) as [Hin _]. rewrite elem_of_singleton. split; [tauto|].
  intros [Hp Hc]. split; [done|]. by intros ->.
Qed.

Lemma enqueue_queue now cursor accepted s :
  let q := queue_of s in
  let ids := ms_message_id <$> sort_oldest accepted in
  let idle := bool_decide (q_waiting q ++ ids = []) && bool_decide (q_running q = None) in
  queue_of (on_runtime (λ _, enqueue now cursor accepted (st_runtime s)) s)
  = mkQueue (q_waiting q ++ ids) (q_running q) (q_done q) (rt_attention (st_runtime s))
      (if idle then cursor else q_committed q) (if idle then None else Some cursor).
Proof.
  destruct s as [? ? ? []]. unfold queue_of, enqueue. simpl.
  destruct rt_active; simpl; rewrite ?andb_true_r, ?andb_false_r; [done|]. by case_bool_decide.
Qed.

Lemma finish_attention now terminal id s :
  rt_attention (st_runtime (on_runtime (finish_state now terminal id) s)) = rt_attention (st_runtime s).
Proof. destruct s as [? ? ? []]. simpl. unfold finish_state. simpl. by repeat case_match. Qed.
Lemma finish_active now terminal id s :
  rt_active (st_runtime (on_runtime (finish_state now terminal id) s)) = None.
Proof. destruct s as [? ? ? []]. simpl. unfold finish_state. simpl. by repeat case_match. Qed.
Lemma finish_queue now terminal id s :
  let q := queue_of s in
  let waiting := filter (λ id', id' ≠ id) (q_waiting q) in
  let emptied := bool_decide (waiting = []) in
  queue_of (on_runtime (finish_state now terminal id) s)
  = mkQueue waiting None (touch_completed (q_done q) id) (q_attention q)
      (if emptied then default (q_committed q) (q_staged q) else q_committed q)
      (if emptied then None else q_staged q).
Proof.
  destruct s as [? ? ? []]. unfold queue_of. simpl. unfold finish_state. simpl.
  destruct (filter _ _); [|done]. by destruct rt_staged_cursor.
Qed.

(** A request in the queue is not among the completed ones. *)
Lemma active_not_completed `{Unicode} s a :
  validate_state s = Ok tt → rt_active (st_runtime s) = Some a → ac_message_id a ∉ rt_completed_ids (st_runtime s).
Proof.
  intros Hv%validate_state_valid Ha Hc. apply (va_completed _ Hv) in Hc. by destruct (va_active _ Hv a Ha).
Qed.

Section refinement.
Context `{Unicode} (encoded_len : RunnerState → Z).
Context (fs_canonicalize : string → Result string) (fs_is_file : string → Result bool) (fs_mode : string → Result Z).
Local Notation run_op := (run_op encoded_len fs_canonicalize fs_is_file fs_mode).

(** What [disk'] is to [disk] after an operation with outcome [out]. *)
Definition refines (disk disk' : RunnerState) (out : Outcome) : Prop :=
  ∃ e, queue_step (queue_of disk) e (queue_of disk') ∧ out = event_outcome e ∧ e ≠ Discarded.

Lemma refines_quiet disk disk' : queue_of disk' = queue_of disk → refines disk disk' quiet.
Proof. intros Hq. exists Quiet. rewrite Hq. by repeat split; [constructor|]. Qed.

Lemma queue_of_migrate disk : queue_of (migrate disk) = queue_of disk.
Proof. unfold queue_of. by rewrite migrate_runtime. Qed.

(** An alert leaves a state that is not ambiguous only where the one before was not. *)
Lemma refines_alert now a s :
  validate_state s = Ok tt → validate_state (attend now a s) = Ok tt → ambiguous_attention (Some a) = false →
  refines s (attend now a s) quiet.
Proof.
  intros Hv%validate_state_valid Hv'%validate_state_valid Ha. exists Alerted.
  split; [|split; [done|discriminate]]. apply (step_alert (queue_of s) a); [|done]. simpl.
  destruct (ambiguous_attention (rt_attention (st_runtime s))) eqn:Hamb; [|done].
  destruct (va_ambiguous _ Hv Hamb) as (act & Hact & Hph).
  destruct (va_active _ Hv' act Hact) as [_ Hamb']. specialize (Hamb' Hph). simpl in Hamb'. congruence.
Qed.

Lemma admit_refines now identity mode result disk disk' admission :
  admit_inbox_locked encoded_len now identity mode result disk = Ok (disk', admission) →
  refines disk disk' (if ra_needs_attention admission then quiet
                      else mkOutcome [] (direct_requests (rc_agent (st_config disk)) (ai_messages result))).
Proof.
  unfold admit_inbox_locked. intros Hu. inv_ok. inv_update Hu. inv_ok.
  destruct (ai_cursor_reset result); inv_ok.
  { subst. unfold refines. rewrite <-(queue_of_migrate disk). by apply refines_alert. }
  to_prop. destruct (_ <? _); inv_ok.
  { subst. unfold refines. rewrite <-(queue_of_migrate disk). by apply refines_alert. }
  apply validate_state_valid in Hv. simpl. unfold refines. rewrite <-(queue_of_migrate disk), <-(migrate_agent disk).
  generalize dependent (migrate disk). intros s. intros.
  destruct (admit_filter_spec (rc_agent (st_config s)) (known_ids (st_runtime s)) (ai_messages result)) as [Hn Hin].
  set (accepted := admit_filter _ _ _) in *.
  set (ids := ms_message_id <$> sort_oldest accepted).
  assert (ids ≡ₚ ms_message_id <$> accepted) as Hp by (unfold ids; by rewrite sort_oldest_perm).
  exists (Delivered (direct_requests (rc_agent (st_config s)) (ai_messages result))).
  split; [|split; [done|discriminate]].
  pose proof (step_deliver (queue_of s) (direct_requests (rc_agent (st_config s)) (ai_messages result)) ids
                (ai_cursor result)) as Hstep.
  assert (∀ id, id ∈ ids ↔ id ∈ direct_requests (rc_agent (st_config s)) (ai_messages result)
                 ∧ id ∉ rt_pending (st_runtime s) ∧ id ∉ rt_completed_ids (st_runtime s)) as Hids.
  { intros id. rewrite Hp, Hin. by rewrite known_ids_spec. }
  assert (NoDup ids) as Hnd by by rewrite Hp.
  rewrite enqueue_queue. fold ids. rewrite H2. by apply Hstep.
Qed.

Lemma observe_refines now identity request messages expected disk disk' st :
  observe_terminals_locked encoded_len now identity request messages expected disk = Ok (disk', st) →
  refines disk disk' quiet.
Proof.
  unfold observe_terminals_locked. intros Hu. inv_ok.
  assert (r = disk') as -> by (destruct b; by inv_ok). clear Hu. rename H4 into Hu. inv_update Hu. inv_ok.
  destruct (find _ messages) as [terminal|]; inv_ok; [|by apply refines_quiet, queue_of_migrate].
  unfold refines. rewrite <-(queue_of_migrate disk). generalize dependent (migrate disk). intros s. intros.
  destruct (rt_active (st_runtime s)) as [act|] eqn:Hact; [|done]. simplify_eq.
  exists (Finished (ac_message_id x)). split; [|split; [done|discriminate]].
  rewrite finish_queue. apply (step_finish (queue_of s) (ac_message_id x)); [simpl; by rewrite Hact|by eapply active_not_completed| |done]. simpl.
  destruct (ambiguous_attention (rt_attention (st_runtime s))) eqn:Hamb; [|done].
  apply validate_state_valid in Hvalid. destruct (va_ambiguous _ Hvalid) as (a' & Ha' & _).
  - by rewrite finish_attention.
  - by rewrite finish_active in Ha'.
Qed.

Lemma refines_pin now attention a s :
  rt_active (st_runtime s) = Some a → ambiguous_attention (Some attention) = true →
  refines s (on_runtime (pin now attention a) s) quiet.
Proof.
  intros Ha Hamb. exists Pinned. split; [|split; [done|discriminate]].
  pose proof (step_pin (queue_of s) attention) as Hstep. unfold queue_of in *. simpl in *. rewrite Ha in *.
  simpl in *. apply Hstep; [by eexists|done].
Qed.

Lemma begin_refines now session identity mode reply_cursor accepted disk disk' launch :
  begin_next_locked encoded_len now session identity mode reply_cursor accepted disk = Ok (disk', launch) →
  refines disk disk' (mkOutcome [rl_message_id launch] []).
Proof.
  unfold begin_next_locked. intros Hu. inv_ok. inv_update Hu. inv_ok. to_prop.
  destruct (rt_active (st_runtime (migrate disk))) as [a|] eqn:Ha; [done|].
  unfold refines. rewrite <-(queue_of_migrate disk). generalize dependent (migrate disk). intros s. intros.
  destruct (rt_pending (st_runtime s)) as [|id waiting] eqn:Hp; [done|]. simplify_eq/=.
  exists (Launched x2). split; [|split; [done|discriminate]].
  assert (x2 ∉ rt_completed_ids (st_runtime s)) as Hx.
  { intros Hc%(va_completed _ (validate_state_valid _ Hv)). rewrite Hp in Hc. destruct Hc. left. }
  pose proof (step_launch (queue_of s) x2 waiting) as Hstep. unfold queue_of in *. simpl in *. rewrite Ha, Hp in *.
  rewrite H2 in *. by apply Hstep.
Qed.

Lemma reconfigure_refines lifecycle lease entries now generation identity agent program args timeout disk disk' :
  reconfigure encoded_len fs_canonicalize fs_is_file fs_mode lifecycle lease entries now generation identity agent
    program args timeout disk = Ok disk' →
  refines disk disk' quiet ∧ rt_active (st_runtime disk') = rt_active (st_runtime disk).
Proof.
  unfold reconfigure, write_unlocked. intros Hr. inv_ok.
  match goal with Hl : load_unlocked _ _ _ = Ok _ |- _ => apply load_Ok in Hl as (-> & _) end.
  split; [apply refines_quiet; rewrite <-(queue_of_migrate disk); done|]. simpl. by rewrite migrate_runtime.
Qed.

(** Every operation but a reset: the queue is untouched, or makes the step its outcome says. *)
Lemma run_op_refines now identity op disk disk' out :
  run_op now identity op disk = Ok (disk', out) → is_reset op = false → refines disk disk' out.
Proof.
  intros Hrun Hreset. destruct op; simpl in Hrun; try done; inv_ok.
  - unfold set_enabled in H0. inv_ok. inv_update H0. inv_ok. subst. apply refines_quiet, queue_of_migrate.
  - by eapply reconfigure_refines.
  - unfold execution_session, checkpoint_startup_locked in H0. inv_ok. inv_update H0.
    destruct (rt_active (st_runtime s)) as [a|] eqn:Ha; [destruct (_ || _)|]; inv_ok; subst;
      try apply refines_quiet, queue_of_migrate.
    unfold refines. rewrite <-(queue_of_migrate disk). by apply refines_pin.
  - by eapply admit_refines.
  - by eapply begin_refines.
  - unfold mark_spawned_locked in H0. inv_ok. inv_update H0. inv_ok. subst. apply refines_quiet.
    rewrite <-(queue_of_migrate disk). unfold queue_of. simpl. match goal with Ha : rt_active _ = Some _ |- _ => by rewrite Ha end.
  - by eapply observe_refines.
  - unfold record_delivery_unknown_locked in H0. inv_ok. inv_update H0. inv_ok. subst.
    unfold refines. rewrite <-(queue_of_migrate disk). by apply refines_pin.
  - unfold record_preparation_failed_locked in H0. inv_update H0. inv_ok. subst.
    unfold refines. rewrite <-(queue_of_migrate disk). by apply refines_alert.
  - unfold record_inbox_failure_locked in H0. inv_update H0. inv_ok. subst. apply refines_quiet, queue_of_migrate.
  - unfold record_inbox_recovery_locked in H0. inv_update H0. inv_ok. subst. apply refines_quiet, queue_of_migrate.
  - unfold record_work_wait_locked in H0. inv_ok. inv_update H0. inv_ok. subst. apply refines_quiet, queue_of_migrate.
  - unfold record_scope_change_request_locked in H0. inv_ok. inv_update H0.
    destruct (same_request _ _ _ _); inv_ok; subst; apply refines_quiet, queue_of_migrate.
  - unfold begin_scope_change_request_locked in H0. inv_ok. inv_update H0. inv_ok.
    destruct (same_request _ _ _ _); inv_ok; subst; apply refines_quiet, queue_of_migrate.
  - unfold complete_scope_change_request_locked in H0. inv_ok. inv_update H0. inv_ok. subst.
    apply refines_quiet, queue_of_migrate.
  - unfold mark_scope_change_awaiting_confirmation_locked in H0. inv_update H0.
    destruct (rt_scope_change_request _) as [c|]; [destruct (bool_decide _)|]; inv_ok; subst;
      apply refines_quiet, queue_of_migrate.
  - unfold abandon_scope_change_request_locked in H0. inv_update H0. inv_ok. subst. apply refines_quiet.
    rewrite <-(queue_of_migrate disk). unfold queue_of. simpl. by destruct (is_amendment_wait _).
  - unfold clear_scope_amendment_wait_locked in H0. inv_update H0.
    destruct (is_amendment_wait _); inv_ok; subst; apply refines_quiet, queue_of_migrate.
Qed.

(** What was written passed validation. *)
Lemma run_op_valid now identity op disk disk' out :
  run_op now identity op disk = Ok (disk', out) → validate_state disk' = Ok tt.
Proof.
  intros Hrun. destruct op; simpl in Hrun; inv_ok.
  - unfold set_enabled in H0. inv_ok. by inv_update H0.
  - unfold reconfigure, write_unlocked in H0. by inv_ok.
  - unfold reset_to_current_cursor in H0. inv_ok. by inv_update H0.
  - unfold execution_session, checkpoint_startup_locked in H0. inv_ok. by inv_update H0.
  - unfold admit_inbox_locked in H0. inv_ok. by inv_update H0.
  - unfold begin_next_locked in H0. inv_ok. by inv_update H0.
  - unfold mark_spawned_locked in H0. inv_ok. by inv_update H0.
  - unfold observe_terminals_locked in H0. inv_ok.
    match goal with Hu : update _ _ _ _ = Ok (?d, ?b) |- _ =>
      assert (d = disk') as -> by (destruct b; by inv_ok); by inv_update Hu end.
  - unfold record_delivery_unknown_locked in H0. inv_ok. by inv_update H0.
  - by inv_update H0.
  - by inv_update H0.
  - by inv_update H0.
  - unfold record_work_wait_locked in H0. inv_ok. by inv_update H0.
  - unfold record_scope_change_request_locked in H0. inv_ok. by inv_update H0.
  - unfold begin_scope_change_request_locked in H0. inv_ok. by inv_update H0.
  - unfold complete_scope_change_request_locked in H0. inv_ok. by inv_update H0.
  - by inv_update H0.
  - by inv_update H0.
  - by inv_update H0.
Qed.
End refinement.

(** ** Runs of the queue

    The launches and deliveries of a history without resets, against the queue it leads to. *)
Definition lastn {A} (n : nat) (l : list A) : list A := drop (length l - n) l.

Lemma lastn_snoc {A} n (l : list A) x : lastn n (lastn n l ++ [x]) = lastn n (l ++ [x]).
Proof.
  unfold lastn. rewrite !length_app, length_drop. simpl.
  destruct (decide (length l ≤ n)%nat).
  - replace (length l - n)%nat with 0%nat by lia. rewrite drop_0. f_equal. lia.
  - replace (length l + 1 - n)%nat with ((length l - n) + 1)%nat by lia. rewrite <-drop_drop.
    rewrite (drop_app_le l) by lia. f_equal. lia.
Qed.

Lemma elem_of_lastn {A} n (l : list A) x i : l !! i = Some x → (length l ≤ i + n)%nat → x ∈ lastn n l.
Proof. intros Hi Hn. apply list_elem_of_lookup. exists (i - (length l - n))%nat. unfold lastn.
  rewrite lookup_drop. rewrite <-Hi. f_equal. lia. Qed.

Lemma lastn_subseteq {A} n (l : list A) x : x ∈ lastn n l → x ∈ l.
Proof. intros [i Hi]%list_elem_of_lookup. unfold lastn in Hi. rewrite lookup_drop in Hi. by eapply list_elem_of_lookup_2. Qed.

Lemma touch_completed_fresh done id :
  id ∉ done → touch_completed done id = lastn (Z.to_nat MAX_COMPLETED) (done ++ [id]).
Proof.
  intros Hid. unfold touch_completed, lastn, zlen. 
  assert (filter (λ x, x ≠ id) done = done) as ->.
  { induction done as [|x l IH]; [done|]. rewrite filter_cons_True by set_solver. f_equal. apply IH. set_solver. }
  assert (0 ≤ MAX_COMPLETED) as Hmax by (unfold MAX_COMPLETED; lia). clear Hid. generalize dependent MAX_COMPLETED.
  intros maximum Hmax. destruct (_ <? _) eqn:Hlt; to_prop; [f_equal; lia|].
  by replace (_ - _)%nat with 0%nat by lia.
Qed.

(** Two launches of the same request are more than [MAX_COMPLETED] launches apart. *)
Definition spaced (launched : list string) : Prop :=
  ∀ i j id, launched !! i = Some id → launched !! j = Some id → (i < j)%nat →
  Z.of_nat i + MAX_COMPLETED < Z.of_nat j.

Record run_inv (q : Queue) (log : Outcome) : Prop := {
  ri_idle : q_running q = None → q_done q = lastn (Z.to_nat MAX_COMPLETED) (oc_launched log);
  ri_busy id : q_running q = Some id →
    ∃ before, oc_launched log = before ++ [id] ∧ q_done q = lastn (Z.to_nat MAX_COMPLETED) before;
  ri_spaced : spaced (oc_launched log);
  ri_delivered id : id ∈ oc_delivered log → id ∈ q_waiting q ∨ id ∈ oc_launched log;
}.

Lemma done_launched q log id : run_inv q log → id ∈ q_done q → id ∈ oc_launched log.
Proof.
  intros [Hidle Hbusy _ _] Hd. destruct (q_running q) as [id'|].
  - destruct (Hbusy id' eq_refl) as (before & -> & Hq). rewrite Hq in Hd. apply lastn_subseteq in Hd. set_solver.
  - rewrite Hidle in Hd by done. by apply lastn_subseteq in Hd.
Qed.

Lemma spaced_snoc l id : spaced l → id ∉ lastn (Z.to_nat MAX_COMPLETED) l → spaced (l ++ [id]).
Proof.
  intros Hs Hid i j id' Hi Hj Hlt. destruct (decide (j < length l)%nat) as [Hjl|Hjl].
  - rewrite lookup_app_l in Hi, Hj by lia. by eapply Hs.
  - pose proof (lookup_lt_Some _ _ _ Hj) as Hlen. rewrite length_app in Hlen. simpl in Hlen.
    assert (j = length l) as -> by lia. rewrite lookup_app_r, Nat.sub_diag in Hj by lia. simplify_eq/=.
    rewrite lookup_app_l in Hi by lia. destruct (decide (Z.of_nat i + MAX_COMPLETED < Z.of_nat (length l))); [done|].
    destruct Hid. eapply elem_of_lastn; [done|]. lia.
Qed.

Lemma queue_step_inv q e q' log :
  run_inv q log → queue_step q e q' → e ≠ Discarded →
  run_inv q' (mkOutcome (oc_launched log ++ oc_launched (event_outcome e))
                (oc_delivered log ++ oc_delivered (event_outcome e))).
Proof.
  intros Hinv Hstep He. pose proof Hinv as [Hidle Hbusy Hsp Hdel].
  destruct Hstep as [|requests ids cursor Hatt Hn Hids|id waiting Hatt Hrun Hw Hd|id waiting Hrun Hd Hatt ->|a|a|cursor];
    try done; simpl; rewrite ?app_nil_r; try by split.
  - split; simpl; try done. intros id [?|Hreq]%elem_of_app.
    + destruct (Hdel id); set_solver.
    + rewrite elem_of_app, Hids. destruct (decide (id ∈ q_waiting q)); [set_solver|].
      destruct (decide (id ∈ q_done q)) as [Hq|]; [|set_solver]. right. by eapply done_launched.
  - rewrite Hidle in Hd by done. split; simpl; try done.
    + intros id' [= <-]. exists (oc_launched log). by rewrite Hidle.
    + by apply spaced_snoc.
    + intros id' Hid'. destruct (Hdel id' Hid'); set_solver.
  - destruct (Hbusy id Hrun) as (before & Hl & Hq). split; simpl; try done.
    + intros _. by rewrite touch_completed_fresh, Hq, lastn_snoc, Hl.
    + intros id' Hid'. destruct (Hdel id' Hid') as [?|?]; [|by right].
      destruct (decide (id' = id)) as [->|]; [right; rewrite Hl; apply elem_of_app; right; left|]. left. by rewrite list_elem_of_filter.
Qed.
