(* ===== verification/RunnerTheorems.v ===== *)
(** * Agent runner: the theorems

    Over whole histories of calls: the runner's state implements a job queue; a request is
    launched at most once and never lost; the cursor moves only when the queue is empty; what a
    restart finds running is pinned. *)
From Stdlib Require Import ZArith Lia Ascii Strings.Byte.
From stdpp Require Import sorting numbers strings gmap list_numbers list options.
From S2P Require Import HubStore.
From S2P Require Import Prelude Text Paths WorkContract AgentContract WorkReducer WorkStatus Scope RunnerStore.
From S2P Require Import RunnerSession RunnerProps.

Local Open Scope Z_scope.

Section histories.
Context `{Unicode} (encoded_len : RunnerState → Z).
Context (fs_canonicalize : string → Result string) (fs_is_file : string → Result bool) (fs_mode : string → Result Z).
Local Notation run_op := (run_op encoded_len fs_canonicalize fs_is_file fs_mode).
Local Notation perform := (perform encoded_len fs_canonicalize fs_is_file fs_mode).
Local Notation run_calls := (run_calls encoded_len fs_canonicalize fs_is_file fs_mode).
Local Notation configure_scoped := (configure_scoped encoded_len fs_canonicalize fs_is_file fs_mode).

Definition no_reset (calls : list Call) : Prop := Forall (λ c, is_reset (cl_op c) = false) calls.

Lemma run_calls_snoc calls c disk : run_calls (calls ++ [c]) disk = run_call encoded_len fs_canonicalize fs_is_file fs_mode (run_calls calls disk) c.
Proof. unfold run_calls. by rewrite foldl_app. Qed.

(** An error that comes after the file was replaced. *)
Definition failed_late (c : WriteEnd) (err : HubError) : Prop :=
  we_commit c = SyncFailed ∧ commit_durability_is_uncertain err = true
  ∨ we_commit c = Committed ∧ ∃ e, we_after c = Some e ∧ err = Failed e.

(** What a call leaves: the file as it was, or the file of the whole operation. *)
Lemma perform_cases c now identity op disk file out r :
  perform c now identity op disk = (file, out, r) →
  (file = disk ∧ out = quiet ∧ ∃ e, r = Err e) ∨
  (run_op now identity op disk = Ok (file, out) ∧ (r = Ok out ∨ ∃ err, r = Err err ∧ failed_late c err)).
Proof.
  unfold perform. destruct (run_op now identity op disk) as [[disk' out']|e]; [|intros [= <- <- <-]; left; eauto].
  destruct c as [[] after]; simpl; intros [= <- <- <-]; [|by left; eauto|].
  - right. split; [done|]. destruct after as [e|]; [right|by left]. eexists. split; [done|]. right. eauto.
  - right. split; [done|]. right. eexists. split; [done|]. by left.
Qed.
Lemma log_quiet log : mkOutcome (oc_launched log ++ oc_launched quiet) (oc_delivered log ++ oc_delivered quiet) = log.
Proof. destruct log. simpl. by rewrite !app_nil_r. Qed.

(** Induction over a history: each call either changed nothing or made a step of the queue. *)
Lemma history_ind disk (P : list Call → RunnerState → Outcome → Prop) :
  P [] disk quiet →
  (∀ calls c d log d' out, P calls d log → refines d d' out →
     P (calls ++ [c]) d' (mkOutcome (oc_launched log ++ oc_launched out) (oc_delivered log ++ oc_delivered out))) →
  (∀ calls c d log, P calls d log → P (calls ++ [c]) d log) →
  ∀ calls, no_reset calls → P calls (run_calls calls disk).1 (run_calls calls disk).2.
Proof.
  intros Hnil Hstep Hskip calls. induction calls as [|c calls IH] using rev_ind; intros Hno; [done|].
  apply Forall_app in Hno as [Hno [Hc _]%Forall_cons]. specialize (IH Hno). rewrite run_calls_snoc.
  destruct (run_calls calls disk) as [d log]. unfold run_call. simpl in *.
  destruct (perform _ _ _ _ _) as [[d' out] r] eqn:Hrun. simpl.
  destruct (perform_cases _ _ _ _ _ _ _ _ Hrun) as [(-> & -> & _)|[Hop _]]; [rewrite log_quiet; by apply Hskip|].
  eapply Hstep; [done|]. by eapply run_op_refines.
Qed.

Lemma configured_queue lifecycle lease entries now generation agent program args timeout head mode disk :
  configure_scoped lifecycle lease entries now generation agent program args timeout head mode = Ok disk →
  queue_of disk = mkQueue [] None [] None head None.
Proof. unfold configure_scoped, write_unlocked. intros Hc. by inv_ok. Qed.

Lemma history_inv disk calls :
  (∃ head, queue_of disk = mkQueue [] None [] None head None) → no_reset calls →
  run_inv (queue_of (run_calls calls disk).1) (run_calls calls disk).2.
Proof.
  intros [head Hq] Hno. apply (history_ind disk (λ _ d log, run_inv (queue_of d) log)); try done.
  - rewrite Hq. split; simpl; try done. by intros id Hid%elem_of_nil.
  - intros calls' c d log d' out Hinv (e & Hstep & -> & He). by eapply queue_step_inv.
Qed.

(** The committed cursor changes only where the queue is left empty. *)
Lemma refines_committed d d' out :
  refines d d' out → rt_committed_cursor (st_runtime d') = rt_committed_cursor (st_runtime d)
                     ∨ rt_pending (st_runtime d') = [].
Proof.
  intros (e & Hstep & _ & He).
  enough (q_committed (queue_of d') = q_committed (queue_of d) ∨ q_waiting (queue_of d') = []) by done.
  destruct Hstep as [| | |id waiting ? ? ? Hw| | |]; simpl; try (by left); try done.
  - destruct (_ && _) eqn:Hidle; [right|by left]. by to_prop.
  - case_bool_decide; [by right|by left].
Qed.

Lemma committed_when_empty disk calls head :
  queue_of disk = mkQueue [] None [] None head None → no_reset calls →
  ∃ earlier later, calls = earlier ++ later
    ∧ rt_committed_cursor (st_runtime (run_calls earlier disk).1)
      = rt_committed_cursor (st_runtime (run_calls calls disk).1)
    ∧ rt_pending (st_runtime (run_calls earlier disk).1) = [].
Proof.
  intros Hq. induction calls as [|c calls IH] using rev_ind; intros Hno.
  { exists [], []. repeat split; try done. by injection Hq. }
  apply Forall_app in Hno as [Hno [Hc _]%Forall_cons]. destruct (IH Hno) as (earlier & later & Heq & Hcur & Hp).
  rewrite run_calls_snoc. destruct (run_calls calls disk) as [d log] eqn:Hd. unfold run_call. simpl in *.
  destruct (perform _ _ _ _ _) as [[d' out] r] eqn:Hrun. simpl.
  destruct (perform_cases _ _ _ _ _ _ _ _ Hrun) as [(-> & _)|[Hop _]].
  { exists earlier, (later ++ [c]). rewrite Heq, app_assoc. done. }
  destruct (refines_committed _ _ _ (run_op_refines _ _ _ _ _ _ _ _ _ _ Hop Hc)) as [Hsame|Hempty].
  - exists earlier, (later ++ [c]). rewrite Heq, app_assoc. by rewrite Hsame.
  - exists (calls ++ [c]), []. rewrite app_nil_r, run_calls_snoc, Hd. unfold run_call. by rewrite Hrun.
Qed.

(** C15. The runner's state implements a job queue. Every operation that is not a reset is, on the
    queue the state file holds, one step of an abstract machine: nothing changes; a batch is
    delivered (its direct requests that are neither waiting nor done join the queue, once each,
    and the cursor is committed if the queue is idle and staged otherwise); the oldest waiting
    request is launched, when nothing runs and no attention is needed; the running request is
    finished and remembered, committing the staged cursor if it was the last; attention is
    raised; or the running request is pinned as ambiguous. A call whose state write fails, or that
    fails before it or after it, does no less and no more: it leaves the file as it was and fails,
    or the file is that of a whole step and passes validation; then the call returns the launch and
    the deliveries of the step, or it fails, and the failure came after the file was replaced: the sync of its
    directory, its permissions, or the status read back for the caller. *)
Theorem runner_refines_queue c now identity op disk :
  is_reset op = false →
  let '(file, recorded, r) := perform c now identity op disk in
  (file = disk ∧ recorded = quiet ∧ ∃ err, r = Err err) ∨
  ∃ e, queue_step (queue_of disk) e (queue_of file) ∧ e ≠ Discarded ∧ validate_state file = Ok tt ∧ recorded = event_outcome e
       ∧ match r with Ok out => out = event_outcome e | Err err => failed_late c err end.
Proof.
  intros Hreset. destruct (perform c now identity op disk) as [[file out] r] eqn:Hrun.
  destruct (perform_cases _ _ _ _ _ _ _ _ Hrun) as [(-> & -> & He)|[Hop Hr]]; [by left|right].
  destruct (run_op_refines _ _ _ _ _ _ _ _ _ _ Hop Hreset) as (e & Hstep & Hout & He).
  exists e. split; [done|]. split; [done|]. split; [by eapply run_op_valid|].
  split; [done|]. by destruct Hr as [->|(? & -> & ?)].
Qed.

(** C13. At most once. In any history of a configured runner without a reset, whatever calls are
    made in whatever order, through current or stale handles, and whichever of their writes fail
    before or after the commit, two launches of the same request are more than 10,000 launches
    apart: no request is launched again while its id is among the remembered ones, and none is
    while it is running. *)
Theorem launched_at_most_once lifecycle lease entries now generation agent program args timeout head mode disk calls :
  configure_scoped lifecycle lease entries now generation agent program args timeout head mode = Ok disk →
  no_reset calls → spaced (oc_launched (run_calls calls disk).2).
Proof.
  intros Hc Hno. apply (ri_spaced _ _ (history_inv disk calls (ex_intro _ _ (configured_queue _ _ _ _ _ _ _ _ _ _ _ _ Hc)) Hno)).
Qed.

(** C14. No request is lost. In any history of a configured runner without a reset, whichever of
    its writes fail, every direct request of every batch whose admission the state file took is still
    in its queue or has been recorded there as launched; and the cursor
    from which the inbox is read again is the one of some earlier point of the history at which
    the queue was empty, so that every request delivered before that point had been launched. *)
Theorem no_request_lost lifecycle lease entries now generation agent program args timeout head mode disk calls :
  configure_scoped lifecycle lease entries now generation agent program args timeout head mode = Ok disk →
  no_reset calls →
  (∀ id, id ∈ oc_delivered (run_calls calls disk).2 →
     id ∈ rt_pending (st_runtime (run_calls calls disk).1) ∨ id ∈ oc_launched (run_calls calls disk).2)
  ∧ ∃ earlier later, calls = earlier ++ later
      ∧ rt_committed_cursor (st_runtime (run_calls earlier disk).1)
        = rt_committed_cursor (st_runtime (run_calls calls disk).1)
      ∧ rt_pending (st_runtime (run_calls earlier disk).1) = []
      ∧ ∀ id, id ∈ oc_delivered (run_calls earlier disk).2 → id ∈ oc_launched (run_calls earlier disk).2.
Proof.
  intros Hc Hno. pose proof (configured_queue _ _ _ _ _ _ _ _ _ _ _ _ Hc) as Hq.
  split; [by apply (ri_delivered _ _ (history_inv disk calls (ex_intro _ _ Hq) Hno))|].
  destruct (committed_when_empty disk calls head Hq Hno) as (earlier & later & -> & Hcur & Hpend).
  exists earlier, later. split; [done|]. split; [done|]. split; [done|]. intros id Hid.
  apply Forall_app in Hno as [Hno _].
  destruct (ri_delivered _ _ (history_inv disk earlier (ex_intro _ _ Hq) Hno) id Hid) as [Hw|]; [|done].
  simpl in Hw. rewrite Hpend in Hw. set_solver.
Qed.

(** A pinned request: running, with the attention that marks it ambiguous. *)
Definition pinned (id : string) (q : Queue) : Prop :=
  q_running q = Some id ∧ ambiguous_attention (q_attention q) = true.

Lemma queue_step_pinned id q e q' :
  pinned id q → queue_step q e q' → e ≠ Discarded → pinned id q' ∧ event_outcome e = quiet.
Proof.
  intros [Hrun Hamb] Hstep He. destruct Hstep as [|? ? ? Hatt| ? ? Hatt|? ? ? ? Hn|? Hn|a|]; try done; simplify_eq/=;
    try (by rewrite Hatt in Hamb); congruence.
Qed.

(** A restart never runs again what may have run. When a session is opened over a state in
    which a request was being launched or was running, that request is pinned: from then on, in
    any history without a reset, nothing at all is launched and nothing more is admitted, the
    same request stays active, and the state asks for attention, until an operator discards it. *)
Theorem restart_pins_request now identity lease mode disk disk1 st active calls :
  rt_active (st_runtime disk) = Some active → ac_phase active ≠ Ambiguous →
  execution_session encoded_len now identity lease mode disk = Ok (disk1, st) → no_reset calls →
  (run_calls calls disk1).2 = quiet
  ∧ ac_message_id <$> rt_active (st_runtime (run_calls calls disk1).1) = Some (ac_message_id active)
  ∧ ambiguous_attention (rt_attention (st_runtime (run_calls calls disk1).1)) = true.
Proof.
  intros Hact Hph Hsession Hno.
  assert (pinned (ac_message_id active) (queue_of disk1)) as Hpin.
  { unfold execution_session, checkpoint_startup_locked in Hsession. inv_ok. inv_update Hsession. subst.
    rewrite migrate_runtime, Hact in Hsession. simpl in Hsession.
    destruct (ac_phase active); try done; simpl in Hsession; inv_ok; subst; by split. }
  enough (pinned (ac_message_id active) (queue_of (run_calls calls disk1).1) ∧ (run_calls calls disk1).2 = quiet)
    as [[? ?] ?] by done.
  apply (history_ind disk1 (λ _ d log, pinned (ac_message_id active) (queue_of d) ∧ log = quiet)); try done.
  intros calls' c d log d' out [Hp ->] (e & Hstep & -> & He).
  by destruct (queue_step_pinned _ _ _ _ Hp Hstep He) as [? ->].
Qed.

(** ** Alerts that a waiting runner cannot raise *)
Lemma waiting_no_attention s a now wait :
  rt_work_wait (st_runtime s) = Some wait → validate_state (attend now a s) ≠ Ok tt.
Proof.
  intros Hw [_ Hwait _ _ _ _ _]%validate_state_Ok. simpl in Hwait. specialize (Hwait wait Hw).
  unfold validate_wait in Hwait. simpl in Hwait. by inv_ok.
Qed.

(** A runner that waits for accepted work cannot ask for attention. While a wait is recorded,
    a batch read after a cursor reset, a batch that overflows the queue and a failed preparation
    are all refused with an error and nothing is written: validation does not allow a wait and
    an attention together, and none of the three clears the wait. *)
Theorem wait_blocks_attention now identity mode disk wait result :
  rt_work_wait (st_runtime disk) = Some wait →
  is_ok (record_preparation_failed_locked encoded_len now identity mode disk) = false
  ∧ (ai_cursor_reset result = true →
     is_ok (admit_inbox_locked encoded_len now identity mode result disk) = false)
  ∧ (MAX_PENDING < zlen (rt_pending (st_runtime disk))
                   + zlen (admit_filter (rc_agent (st_config disk)) (known_ids (st_runtime disk)) (ai_messages result)) →
     is_ok (admit_inbox_locked encoded_len now identity mode result disk) = false).
Proof.
  intros Hw. assert (∀ s a, s = migrate disk → validate_state (attend now a s) ≠ Ok tt) as Hno.
  { intros s a ->. apply (waiting_no_attention _ _ _ wait). by rewrite migrate_runtime. }
  split; [|split].
  - destruct (is_ok _) eqn:Hok; [|done]. apply is_ok_true in Hok as [[d st] Hr].
    unfold record_preparation_failed_locked in Hr. inv_update Hr. inv_ok. subst. by apply Hno in Hvalid.
  - intros Hreset. destruct (is_ok _) eqn:Hok; [|done]. apply is_ok_true in Hok as [[d st] Hr].
    unfold admit_inbox_locked in Hr. inv_ok. inv_update Hr. inv_ok. rewrite Hreset in *. inv_ok. subst.
    by apply Hno in Hvalid.
  - intros Hover. destruct (is_ok _) eqn:Hok; [|done]. apply is_ok_true in Hok as [[d st] Hr].
    unfold admit_inbox_locked in Hr. inv_ok. inv_update Hr. inv_ok.
    destruct (ai_cursor_reset result); inv_ok; [subst; by apply Hno in Hvalid|].
    subst s. rewrite migrate_runtime, migrate_agent in Hr.
    destruct (_ <? _) eqn:Hlt; inv_ok; [subst; by apply Hno in Hvalid|].
    to_prop. unfold saturating_add, MAX_PENDING, USIZE_MAX, U64_MAX in *. lia.
Qed.
End histories.

(** ** A concrete history

    A runner for Ann is configured, enabled and given two requests; the first is launched,
    spawned and answered, the second launched. *)
#[local] Instance runner_unicode : Unicode := ascii_unicode.
Definition any_len (_ : RunnerState) : Z := 0.
Definition fs_identity (program : string) : Result string := Ok program.
Definition fs_regular (_ : string) : Result bool := Ok true.
Definition fs_executable (_ : string) : Result Z := Ok 0x1ed.
Definition sixteen (b : byte) : list byte := replicate 16 b.
Definition repeat_id (c : ascii) : string := String.string_of_list_ascii (replicate 64 c).

Definition ann_runner : RunnerState :=
  unwrap_or (mkRunnerState 0 "" (mkRunnerConfig "" "" [] 0 0 LegacyUnenforced)
               (mkRunnerRuntime false "" None [] None [] None None None None 0 0))
    (configure_scoped any_len fs_identity fs_regular fs_executable (Ok tt) (Ok tt) None 1 (sixteen x0a) "ann"
       "/bin/agent" [] 60 (repeat_id "0") LegacyUnenforced).
Definition ann_identity : RunnerIdentity := mkRunnerIdentity "/w" "/w/agents/ann" "ann" (hex_id (sixteen x0a)).
Definition ask (id : ascii) (created_at_ms : Z) : AgentMessage :=
  mkAgentMessage (repeat_id id) "cora" "ann" Request "please" (repeat_id "0") None created_at_ms.
Definition answer : AgentMessage :=
  mkAgentMessage (repeat_id "c") "ann" "cora" KindResult "done" (repeat_id "0") (Some (repeat_id "a")) 9.
Definition two_requests : AgentInboxResult := mkAgentInboxResult (repeat_id "d") false [ask "b" 3; ask "a" 2].
Definition ann_call (now : Z) (op : RunnerOp) : Call := mkCall now ann_identity op (mkWriteEnd Committed None).
Definition ann_starts : list Call := [
  ann_call 2 (OpSetEnabled (Ok tt) true);
  ann_call 3 (OpAdmit Supervised two_requests);
  ann_call 4 (OpBegin (sixteen x01) Supervised (repeat_id "d") None);
  ann_call 5 (OpSpawned (repeat_id "a") 77 "boot-77")].
Definition ann_history : list Call := ann_starts ++ [
  ann_call 6 (OpAdmit Supervised two_requests);
  ann_call 7 (OpObserve (ask "a" 2) [answer] (Some (repeat_id "0")));
  ann_call 8 (OpBegin (sixteen x02) Supervised (repeat_id "d") None);
  ann_call 9 (OpBegin (sixteen x03) Supervised (repeat_id "d") None)].
Definition run_ann (calls : list Call) : RunnerState * Outcome :=
  run_calls any_len fs_identity fs_regular fs_executable calls ann_runner.

Lemma ann_configured :
  configure_scoped any_len fs_identity fs_regular fs_executable (Ok tt) (Ok tt) None 1 (sixteen x0a) "ann"
    "/bin/agent" [] 60 (repeat_id "0") LegacyUnenforced = Ok ann_runner.
Proof. vm_compute. reflexivity. Qed.
Lemma ann_no_reset : no_reset ann_history.
Proof. repeat constructor. Qed.

(** The statement applied to the history above, in which both requests are launched, each once. *)
Lemma launched_at_most_once_witness :
  oc_launched (run_ann ann_history).2 = [repeat_id "a"; repeat_id "b"] ∧ spaced (oc_launched (run_ann ann_history).2).
Proof.
  split; [vm_compute; reflexivity|].
  exact (launched_at_most_once _ _ _ _ _ _ _ _ _ _ _ _ _ _ _ _ _ ann_configured ann_no_reset).
Defined.

(** The statement applied to the history above: the second request is still in the queue while it runs, and
    the inbox is still read from the initial cursor. *)
Lemma no_request_lost_witness :
  repeat_id "b" ∈ oc_delivered (run_ann ann_history).2
  ∧ rt_pending (st_runtime (run_ann ann_history).1) = [repeat_id "b"]
  ∧ (∀ id, id ∈ oc_delivered (run_ann ann_history).2 →
       id ∈ rt_pending (st_runtime (run_ann ann_history).1) ∨ id ∈ oc_launched (run_ann ann_history).2).
Proof.
  split; [vm_compute; left|]. split; [vm_compute; reflexivity|].
  exact (proj1 (no_request_lost _ _ _ _ _ _ _ _ _ _ _ _ _ _ _ _ _ ann_configured ann_no_reset)).
Defined.

(** The statement applied to an admission whose write fails after the commit: the caller is told so, and the step
    is the delivery of both requests. *)
Lemma runner_refines_queue_witness :
  let enabled := (run_ann [ann_call 2 (OpSetEnabled (Ok tt) true)]).1 in
  ∃ file e, perform any_len fs_identity fs_regular fs_executable (mkWriteEnd SyncFailed None) 3 ann_identity (OpAdmit Supervised two_requests) enabled
              = (file, event_outcome e, Err CommitDurabilityUncertain)
    ∧ queue_step (queue_of enabled) e (queue_of file) ∧ q_waiting (queue_of file) = [repeat_id "a"; repeat_id "b"].
Proof.
  intros enabled. pose proof (runner_refines_queue any_len fs_identity fs_regular fs_executable (mkWriteEnd SyncFailed None) 3 ann_identity
    (OpAdmit Supervised two_requests) enabled eq_refl) as Href.
  destruct (perform _ _ _ _ _ _ _ _ _) as [[file out] r] eqn:Hrun. vm_compute in Hrun. injection Hrun as <- <- <-.
  destruct Href as [[Hsame _]|(e & Hstep & _ & _ & -> & _)].
  - apply (f_equal (rt_pending ∘ st_runtime)) in Hsame. vm_compute in Hsame. discriminate Hsame.
  - eexists _, e. split; [reflexivity|]. split; [exact Hstep|]. vm_compute. reflexivity.
Defined.

(** The statement applied to a restart while the first request runs: the next attempt to begin is refused. *)
Definition ann_restarted : RunnerState :=
  from_option fst ann_runner
    (match execution_session any_len 6 ann_identity (Ok tt) Supervised (run_ann ann_starts).1 with
     | Ok r => Some r | Err _ => None end).
Lemma restart_pins_request_witness :
  (run_calls any_len fs_identity fs_regular fs_executable [ann_call 7 (OpBegin (sixteen x02) Supervised "" None)]
     ann_restarted).2 = quiet
  ∧ ac_message_id <$> rt_active (st_runtime ann_restarted) = Some (repeat_id "a").
Proof.
  destruct (rt_active (st_runtime (run_ann ann_starts).1)) as [active|] eqn:Hact;
    [|vm_compute in Hact; discriminate Hact].
  destruct (execution_session any_len 6 ann_identity (Ok tt) Supervised (run_ann ann_starts).1) as [[disk1 st]|e] eqn:Hs;
    [|vm_compute in Hs; discriminate Hs].
  assert (ann_restarted = disk1) as -> by (unfold ann_restarted; rewrite Hs; reflexivity).
  destruct (restart_pins_request any_len fs_identity fs_regular fs_executable 6 ann_identity (Ok tt) Supervised
    (run_ann ann_starts).1 disk1 st active [ann_call 7 (OpBegin (sixteen x02) Supervised "" None)])
    as (Hq & _); [exact Hact| |exact Hs|repeat constructor|].
  - vm_compute in Hact. injection Hact as <-. discriminate.
  - split; [exact Hq|]. vm_compute in Hs. injection Hs as <- _. vm_compute. reflexivity.
Defined.

(** The statement applied to a runner that waits for the acceptance of its first request. *)
Definition ann_waits : RunnerState :=
  (run_ann [ann_call 2 (OpAdmit Foreground two_requests);
            ann_call 3 (OpWait Foreground (mkRunnerWorkWait WaitingAcceptance (repeat_id "a") (Some MissingIntent) 0 3))]).1.
Lemma wait_blocks_attention_witness :
  is_ok (record_preparation_failed_locked any_len 4 ann_identity Foreground ann_waits) = false
  ∧ is_ok (admit_inbox_locked any_len 4 ann_identity Foreground (mkAgentInboxResult "" true []) ann_waits) = false.
Proof.
  destruct (wait_blocks_attention any_len 4 ann_identity Foreground ann_waits
    (mkRunnerWorkWait WaitingAcceptance (repeat_id "a") (Some MissingIntent) 0 3) (mkAgentInboxResult "" true []))
    as (Hp & Hr & _); [vm_compute; reflexivity|].
  split; [exact Hp|apply Hr; reflexivity].
Defined.
