(* ===== verification/RunnerCycle.v ===== *)
(** * Agent runner: one cycle of the worker

    client/src/cli/agent_runner/inbox.rs and the part of cycle.rs that ends with a process to
    start: reading the inbox, preparing, admitting, resolving the next request to its accepted
    work, waiting or taking the launch checkpoint. What the remote and the operating system
    answer during the cycle is a record of answers. *)
From Stdlib Require Import ZArith Lia Ascii Strings.Byte.
From stdpp Require Import sorting numbers strings gmap list_numbers list options.
From S2P Require Import Prelude Text Paths WorkContract AgentContract WorkReducer WorkStatus Scope RunnerStore.
From S2P Require Import RunnerSession.

Local Open Scope Z_scope.

Definition MAX_INVOCATION_BYTES : Z := AGENT_MESSAGE_MAX_ENCODED_BYTES + 16 * 1024.

(** ** inbox.rs *)
Inductive NextAdmission :=
  | Launch (d : AcceptedWorkDescriptor)
  | NotApplicable
  | Wait (message_id : string) (reason : RunnerAdmissionReject)
  | Unavailable.

Definition wait_kind_for (reason : RunnerAdmissionReject) : RunnerWorkWaitKind :=
  match reason with
  | UnsettledDependency => DependencyBlocked
  | ProjectionIncomplete => WaitProjectionIncomplete
  | ScopeAmendmentPending => ScopeAmendmentRequested
  | _ => WaitingAcceptance
  end.

Definition NUL : string := String "000" "".
Definition canonical_scope_fingerprint `{Blake3} (scope : WorkScope) : string :=
  let entries := dedup (sort_strings (sc_paths scope)) in
  let concerns := dedup (sort_strings (sc_concerns scope)) in
  hash_bytes (as_bytes (String.concat NUL entries +:+ NUL +:+ String.concat NUL concerns)).

(** ** cycle.rs *)
Inductive CycleOutcome := CycleIdle | CycleCompleted | RemoteUnavailable | Stop | CycleNeedsAttention.

Inductive Refresh := Refreshed | RetryableFailure | FatalFailure.

(** What the cycle is told from outside, in the order it asks. *)
Record Answers := mkAnswers {
  an_first : option AgentInboxResult;          (* the first inbox read; [None] on an error *)
  an_shutdown_1 : bool;                        (* the shutdown flag before the refresh *)
  an_refresh : Refresh;
  an_current : option AgentInboxResult;        (* the inbox read after it *)
  an_shutdown_2 : bool;
  an_projection : Result (option WorkStatusResult);   (* [work_status]; [Ok None] on a retryable error *)
  an_session : list byte;                      (* the random bytes of the session id *)
}.

(** How the cycle goes on: it ends with an outcome, or a process is to be started for [request];
    without an invocation the start has failed. *)
Inductive CycleStep :=
  | Ended (outcome : CycleOutcome)
  | Started (launch : RunnerLaunch) (request : AgentMessage) (invocation : option RunnerInvocation).

(** State and errors: unlike a transaction, a failing cycle keeps what it wrote before. *)
Definition Cycle (A : Type) : Type := RunnerState → RunnerState * Result A.
#[global] Instance cycle_ret : MRet Cycle := λ A a disk, (disk, Ok a).
#[global] Instance cycle_bind : MBind Cycle := λ A B f m disk,
  match m disk with (disk, Ok a) => f a disk | (disk, Err e) => (disk, Err e) end.
(** A transaction, a read, and a transaction whose error the caller inspects. *)
Definition tx {A} (t : Tx A) : Cycle A := λ disk,
  match t disk with Ok (disk', a) => (disk', Ok a) | Err e => (disk, Err e) end.
Definition reading {A} (f : RunnerState → Result A) : Cycle A := λ disk, (disk, f disk).
Definition try_tx {A} (t : Tx A) : Cycle (Result A) := λ disk,
  match t disk with Ok (disk', a) => (disk', Ok (Ok a)) | Err e => (disk, Ok (Err e)) end.
Definition raise {A} (e : string) : Cycle A := λ disk, (disk, Err e).

Section cycle.
Context `{Unicode, Blake3, WorkJson} (encoded_len : RunnerState → Z) (invocation_len : RunnerInvocation → Z).
Context (now : Z) (identity lease : RunnerIdentity) (config : RunnerConfig) (mode : RunnerExecutionMode).

Local Notation in_session op := (in_session encoded_len identity lease op).
Local Notation status := (status encoded_len identity).

Definition stopped_after_state_error : Cycle bool :=
  match mode with
  | Supervised => st ← reading status; mret (negb (rs_enabled st))
  | Foreground => mret false
  end.
Definition should_stop (shutdown : bool) : Cycle bool :=
  if shutdown then mret true else stopped_after_state_error.

Definition admit_batch (result : AgentInboxResult) : Cycle (option CycleOutcome) :=
  r ← try_tx (in_session (admit_inbox_locked encoded_len now identity mode result));
  match r with
  | Ok admission => mret (if ra_needs_attention admission then Some CycleNeedsAttention else None)
  | Err e => stopped ← stopped_after_state_error;
             if (stopped : bool) then mret (Some Stop) else raise e
  end.

(** The gate first asks for the record, then for the scope the projection now shows; when that
    scope changed it tries to clear the wait and ignores the answer. *)
Definition scope_amendment_gate (projection : WorkStatusResult) (pending_request_id : string)
    : Cycle (option RunnerAdmissionReject) := λ disk,
  match scope_change_request_key_locked encoded_len identity disk with
  | Ok (Some key) =>
      if negb (bool_decide (sk_intent_message_id key = pending_request_id))
         || negb (bool_decide (sk_publish_state key = Confirmed)) then (disk, Ok None)
      else if bool_decide (sk_scope_fingerprint key = "") then (disk, Ok (Some ScopeAmendmentPending))
      else
        match find (λ p, bool_decide (ps_intent_message_id p = pending_request_id))
                (concat (ts_proposals <$> sr_tasks projection)) with
        | None => (disk, Ok None)
        | Some proposal =>
            if bool_decide (canonical_scope_fingerprint (ps_accepted_scope proposal) = sk_scope_fingerprint key)
            then (disk, Ok (Some ScopeAmendmentPending))
            else ((tx (clear_scope_amendment_wait_locked encoded_len now identity) disk).1, Ok None)
        end
  | _ => (disk, Ok None)
  end.

Definition resolve_next_admission (projection : Result (option WorkStatusResult)) (current : AgentInboxResult)
    : Cycle NextAdmission :=
  if negb (is_enforced (rc_scope_mode config)) then mret NotApplicable else
  next ← reading (next_pending_message_id encoded_len identity);
  match next with
  | None => mret NotApplicable
  | Some next_id =>
      match find (λ m, bool_decide (ms_message_id m = next_id)) (ai_messages current) with
      | None => raise "admitted runner request body is unavailable for admission"
      | Some request =>
          observed ← reading (λ _, projection);
          match observed with
          | None => mret Unavailable
          | Some projection =>
              gate ← scope_amendment_gate projection next_id;
              match gate with
              | Some reason => mret (Wait next_id reason)
              | None =>
                  mret (match resolve_request_admission projection request (rc_agent config) with
                        | Ok (Some descriptor) => Launch descriptor
                        | Ok None => Wait next_id RequestWithoutIntent
                        | Err reason => Wait next_id reason
                        end)
              end
          end
      end
  end.

Definition refresh_before_launch (refresh : Refresh) : Cycle (option CycleOutcome) :=
  match refresh with
  | Refreshed => mret None
  | RetryableFailure => mret (Some RemoteUnavailable)
  | FatalFailure =>
      _ ← tx (in_session (record_preparation_failed_locked encoded_len now identity mode));
      mret (Some CycleNeedsAttention)
  end.

(** From the launch checkpoint to the process. *)
Definition start (session : list byte) (current : AgentInboxResult) (accepted : option AcceptedWorkDescriptor)
    : Cycle CycleStep :=
  r ← try_tx (in_session
        (begin_next_locked encoded_len now session identity mode (ai_cursor current) accepted));
  match r with
  | Err e => stopped ← stopped_after_state_error;
             if (stopped : bool) then mret (Ended Stop) else raise e
  | Ok launch =>
      match find (λ m, bool_decide (ms_message_id m = rl_message_id launch)) (ai_messages current) with
      | None =>
          _ ← tx (in_session
                (record_delivery_unknown_locked encoded_len now identity (rl_message_id launch) (rl_session_id launch)));
          mret (Ended CycleNeedsAttention)
      | Some request =>
          mret (Started launch request
                  match RunnerInvocation_new launch (rc_agent config) request with
                  | Ok invocation => if invocation_len invocation <=? MAX_INVOCATION_BYTES then Some invocation else None
                  | Err _ => None
                  end)
      end
  end.

Definition decide_next (session : list byte) (current : AgentInboxResult) (admission : NextAdmission)
    : Cycle CycleStep :=
  match admission with
  | Launch descriptor => start session current (Some descriptor)
  | NotApplicable => start session current None
  | Wait message_id reason =>
      _ ← tx (in_session (record_work_wait_locked encoded_len now identity mode
            (mkRunnerWorkWait (wait_kind_for reason) message_id (Some reason) 0 now)));
      mret (Ended CycleIdle)
  | Unavailable => mret (Ended RemoteUnavailable)
  end.

(** [run_cycle], to the point where [run_configured_process] or [complete_request] takes over. *)
Definition run_cycle (answers : Answers) : Cycle CycleStep :=
  match an_first answers with
  | None => mret (Ended RemoteUnavailable)
  | Some first =>
  stop ← admit_batch first;
  match stop with
  | Some outcome => mret (Ended outcome)
  | None =>
  st ← reading status;
  if rs_pending_count st =? 0 then mret (Ended CycleIdle) else
  stop ← should_stop (an_shutdown_1 answers);
  if (stop : bool) then mret (Ended Stop) else
  refreshed ← refresh_before_launch (an_refresh answers);
  match refreshed with
  | Some outcome => mret (Ended outcome)
  | None =>
  match an_current answers with
  | None => mret (Ended RemoteUnavailable)
  | Some current =>
  stop ← admit_batch current;
  match stop with
  | Some outcome => mret (Ended outcome)
  | None =>
  stop ← should_stop (an_shutdown_2 answers);
  if (stop : bool) then mret (Ended Stop) else
  admission ← resolve_next_admission (an_projection answers) current;
  decide_next (an_session answers) current admission
  end end end end end.
End cycle.
