(* ===== verification/LaunchTheorems.v ===== *)
(** * From a signal to a process: what a launch stands for

    The worker's cycle over the admission decision, the reducer's projection and the runner's
    state: an enforced runner starts a process only for work its coordinator accepted; an accepted
    request passes the launch checkpoint; what is pinned by a restart stays so; and the
    states in which a wait or an alert cannot be recorded. *)
From Stdlib Require Import ZArith Lia Ascii Strings.Byte.
From stdpp Require Import sorting numbers strings gmap list_numbers list options.
From S2P Require Import Prelude Text Paths WorkContract AgentContract WorkReducer WorkReducerProps WorkBatch WorkTheorems.
From S2P Require Import WorkStatus WorkShape Scope ScopeProps RunnerStore RunnerSession RunnerProps RunnerTheorems RunnerCycle.

Local Open Scope Z_scope.

(** An accepted record was accepted by a decision its coordinator sent. *)
Lemma accepted_decision `{Unicode, WorkJson} obs s history t r :
  observe_all obs fresh = Some (s, history) → message_ids_unique history → t ∈ ws_tasks s → r ∈ tk_proposals t →
  pr_state r = Accepted →
  ∃ m p, m ∈ history ∧ ms_from m = authorized_coordinator r ∧ parse_work_profile (ms_body m) = Some (WorkDecision p)
    ∧ wd_proposal_message_id p = pr_intent_message_id r ∧ decision_state (wd_kind p) = Accepted.
Proof.
  intros Hrun Hu Ht Hr Hst. destruct (run_ok _ _ _ Hrun Hu) as [[Hrec _ _ _ _ _] _].
  unfold tasks_ok in Hrec. rewrite Forall_forall in Hrec. specialize (Hrec t Ht).
  rewrite Forall_forall in Hrec. specialize (Hrec r Hr).
  destruct (pr_decision r) as [d|] eqn:Hd; [|by rewrite (ok_undecided _ _ _ Hrec Hd) in Hst].
  destruct (ok_decided _ _ _ Hrec d Hd) as [(c & p & (m & Hm & (Hp & Hid & Hfrom)%candidate_of_Some) & Hcp & Hcid
    & Hcf & Hprop & Hkind & _) Hunder].
  exists m, p. repeat split; try congruence. rewrite Hkind.
  destruct Hunder as [Heq|[Heq _]]; congruence.
Qed.

(** ** The cycle *)
Lemma cycle_bind_Ok {A B} (m : Cycle A) (f : A → Cycle B) disk disk' b :
  (m ≫= f) disk = (disk', Ok b) ↔ ∃ disk1 a, m disk = (disk1, Ok a) ∧ f a disk1 = (disk', Ok b).
Proof.
  unfold mbind, cycle_bind. destruct (m disk) as [disk1 [a|e]]; naive_solver.
Qed.

Lemma tx_Ok {A} (t : Tx A) disk disk' a : tx t disk = (disk', Ok a) ↔ t disk = Ok (disk', a).
Proof. unfold tx. destruct (t disk) as [[]|]; naive_solver. Qed.

Section cycle.
Context `{Unicode, Blake3, WorkJson} (encoded_len : RunnerState → Z) (invocation_len : RunnerInvocation → Z).
Context (now : Z) (identity lease : RunnerIdentity) (config : RunnerConfig) (mode : RunnerExecutionMode).
Local Notation run_cycle := (run_cycle encoded_len invocation_len now identity lease config mode).
Local Notation start := (start encoded_len invocation_len now identity lease config mode).
Local Notation decide_next := (decide_next encoded_len invocation_len now identity lease config mode).
Local Notation resolve_next_admission := (resolve_next_admission encoded_len now identity config).

(** A cycle that starts a process went through the admission of the batch it read last. *)
Lemma run_cycle_started answers disk disk' launch request invocation :
  run_cycle answers disk = (disk', Ok (Started launch request invocation)) →
  ∃ current disk1 disk2 admission, an_current answers = Some current
    ∧ resolve_next_admission (an_projection answers) current disk1 = (disk2, Ok admission)
    ∧ decide_next (an_session answers) current admission disk2 = (disk', Ok (Started launch request invocation)).
Proof.
  unfold RunnerCycle.run_cycle. destruct (an_first answers) as [first|]; [|by intros [=]].
  intros (d1 & s1 & _ & Hr)%cycle_bind_Ok. destruct s1; [by injection Hr|].
  apply cycle_bind_Ok in Hr as (d2 & st & _ & Hr). destruct (_ =? 0); [by injection Hr|].
  apply cycle_bind_Ok in Hr as (d3 & stop & _ & Hr). destruct stop; [by injection Hr|].
  apply cycle_bind_Ok in Hr as (d4 & s4 & _ & Hr). destruct s4; [by injection Hr|].
  destruct (an_current answers) as [current|]; [|by injection Hr].
  apply cycle_bind_Ok in Hr as (d5 & s5 & _ & Hr). destruct s5; [by injection Hr|].
  apply cycle_bind_Ok in Hr as (d6 & stop' & _ & Hr). destruct stop'; [by injection Hr|].
  apply cycle_bind_Ok in Hr as (d7 & admission & Had & Hr). by exists current, d6, d7, admission.
Qed.

(** The launch was checkpointed, and its request is in the batch. *)
Lemma start_began session current accepted disk disk' launch request invocation :
  start session current accepted disk = (disk', Ok (Started launch request invocation)) →
  in_session encoded_len identity lease
    (begin_next_locked encoded_len now session identity mode (ai_cursor current) accepted) disk = Ok (disk', launch)
  ∧ find (λ m, bool_decide (ms_message_id m = rl_message_id launch)) (ai_messages current) = Some request.
Proof.
  unfold RunnerCycle.start. intros (d1 & r & Htry & Hr)%cycle_bind_Ok. unfold try_tx in Htry.
  destruct (in_session _ _ _ _ disk) as [[d launch']|e] eqn:Hb; simplify_eq.
  - destruct (find _ _) as [request'|] eqn:Hf; [by injection Hr as <- <- <- <-|].
    apply cycle_bind_Ok in Hr as (d2 & a & _ & Hr). by injection Hr.
  - apply cycle_bind_Ok in Hr as (d2 & stopped & _ & Hr). destruct stopped; by injection Hr.
Qed.

Lemma start_started session current accepted disk disk' launch request invocation :
  start session current accepted disk = (disk', Ok (Started launch request invocation)) →
  head (rt_pending (st_runtime disk)) = Some (rl_message_id launch) ∧ rl_accepted_work launch = accepted
  ∧ find (λ m, bool_decide (ms_message_id m = rl_message_id launch)) (ai_messages current) = Some request.
Proof.
  intros [Hb Hf]%start_began. unfold in_session in Hb. inv_ok. unfold begin_next_locked in Hb. inv_ok.
  inv_update Hb. inv_ok. subst. rewrite migrate_runtime in *. simpl in *. by repeat split.
Qed.

Lemma gate_pending projection id disk disk' gate :
  scope_amendment_gate encoded_len now identity projection id disk = (disk', Ok gate) →
  rt_pending (st_runtime disk') = rt_pending (st_runtime disk).
Proof.
  unfold scope_amendment_gate. intros Hg. repeat case_match; simplify_eq; try done.
  unfold tx. destruct (clear_scope_amendment_wait_locked _ _ _ disk) as [[d u]|] eqn:Hc; [simpl|done].
  unfold clear_scope_amendment_wait_locked in Hc. inv_update Hc.
  destruct (is_amendment_wait _); inv_ok; subst; simpl; by rewrite migrate_runtime.
Qed.

(** For an enforced runner, a request goes ahead only with the descriptor of its accepted intent;
    without a request there is nothing to start. *)
Lemma resolve_enforced projection current disk disk' admission :
  is_enforced (rc_scope_mode config) = true →
  resolve_next_admission projection current disk = (disk', Ok admission) →
  match admission with
  | Launch d => ∃ view next request, projection = Ok (Some view)
      ∧ head (rt_pending (st_runtime disk')) = Some next
      ∧ find (λ m, bool_decide (ms_message_id m = next)) (ai_messages current) = Some request
      ∧ resolve_request_admission view request (rc_agent config) = Ok (Some d)
  | NotApplicable => rt_pending (st_runtime disk') = []
  | _ => True
  end.
Proof.
  intros Henf. unfold RunnerCycle.resolve_next_admission. rewrite Henf. simpl.
  intros (d1 & next & Hnext & Hr)%cycle_bind_Ok. unfold reading, next_pending_message_id in Hnext.
  injection Hnext as <- Hnext. inv_ok. apply load_Ok in H2 as (-> & _). rewrite migrate_runtime in *.
  destruct (rt_pending (st_runtime disk)) as [|next rest] eqn:Hp; simpl in Hr; [by injection Hr as <- <-|].
  destruct (find _ _) as [request|] eqn:Hf; [|done].
  apply cycle_bind_Ok in Hr as (d2 & view & Hv & Hr). injection Hv as <- Hv.
  destruct view as [view|]; [|by injection Hr as <- <-].
  apply cycle_bind_Ok in Hr as (d3 & gate & Hg & Hr). apply gate_pending in Hg.
  destruct gate; injection Hr as <- <-; [done|].
  destruct (resolve_request_admission _ _ _) as [[d|]|] eqn:Hres; try done.
  exists view, next, request. by rewrite Hg, Hp.
Qed.

Lemma cycle_admitted answers disk disk' launch request invocation :
  is_enforced (rc_scope_mode config) = true →
  run_cycle answers disk = (disk', Ok (Started launch request invocation)) →
  ∃ view d, an_projection answers = Ok (Some view) ∧ rl_accepted_work launch = Some d
    ∧ resolve_request_admission view request (rc_agent config) = Ok (Some d)
    ∧ ms_message_id request = rl_message_id launch.
Proof.
  intros Henf (current & d1 & d2 & admission & _ & Had & Hdec)%run_cycle_started.
  pose proof (resolve_enforced _ _ _ _ _ Henf Had) as Hadm. unfold RunnerCycle.decide_next in Hdec.
  destruct admission as [d| |message_id reason|].
  - destruct Hadm as (view & next & m & Hproj & Hp & Hf & Hres).
    apply start_started in Hdec as (Hp' & Hacc & Hf'). exists view, d.
    assert (next = rl_message_id launch) as -> by congruence. simplify_eq.
    apply find_Some in Hf' as [_ Hid%bool_decide_eq_true]. by repeat split.
  - apply start_started in Hdec as (Hp & _). by rewrite Hadm in Hp.
  - apply cycle_bind_Ok in Hdec as (d3 & a & _ & Hdec). by injection Hdec.
  - by injection Hdec.
Qed.

(** The view of a projection shows the reducer's records, and only those. *)
Lemma view_task s n reset id ts :
  find_task (status_result s n reset) id = Some ts → ∃ t, t ∈ ws_tasks s ∧ tk_task_id t = id ∧ ts = task_status t.
Proof.
  unfold find_task. intros [Hin Hid]%find_Some. apply bool_decide_eq_true in Hid.
  apply elem_of_status_tasks in Hin as (t & Ht & ->). by exists t.
Qed.
Lemma view_proposal t id p :
  find_proposal (task_status t) id = Some p →
  ∃ r, r ∈ tk_proposals t ∧ pr_intent_message_id r = id ∧ p = proposal_status r.
Proof.
  unfold find_proposal. intros [Hin Hid]%find_Some. apply bool_decide_eq_true in Hid.
  apply elem_of_status_proposals in Hin as (r & Hr & ->). by exists r.
Qed.

(** C12. An enforced runner starts a process only for work that was accepted by whoever was
    entitled to accept it. Take any run of the reducer over the signals it read, with the view
    of its state as the projection the cycle observed: if the cycle starts a process for a
    request, then the reducer holds that request's intent as a record of this runner's agent in
    the accepted state; the run read a decision accepting exactly this intent, sent by the
    coordinator the intent names (or its author, when it names none); every task the accepted
    scope depends on is completed; no later generation of the same work exists; and every other
    accepted record whose scope overlaps is an earlier generation of the same task and agent, or
    each overlap with it is one the coordinator accepted. *)
Theorem launch_authorized obs s history n reset answers disk disk' launch request invocation :
  observe_all obs fresh = Some (s, history) → message_ids_unique history →
  is_enforced (rc_scope_mode config) = true → an_projection answers = Ok (Some (status_result s n reset)) →
  run_cycle answers disk = (disk', Ok (Started launch request invocation)) →
  ∃ t r, t ∈ ws_tasks s ∧ r ∈ tk_proposals t ∧ pr_intent_message_id r = ms_message_id request
    ∧ pr_agent r = rc_agent config ∧ pr_state r = Accepted
    ∧ (∃ m p, m ∈ history ∧ ms_from m = authorized_coordinator r
         ∧ parse_work_profile (ms_body m) = Some (WorkDecision p)
         ∧ wd_proposal_message_id p = ms_message_id request ∧ decision_state (wd_kind p) = Accepted)
    ∧ (∀ dep, dep ∈ sc_dependencies (pr_scope r) →
         ∃ t', t' ∈ ws_tasks s ∧ tk_task_id t' = dep ∧ task_state t' = WorkContract.Completed)
    ∧ (∀ r', r' ∈ tk_proposals t → ¬ newer_generation (proposal_status r) (proposal_status r'))
    ∧ (∀ t' r', t' ∈ ws_tasks s → r' ∈ tk_proposals t' →
         ¬ competes (tk_task_id t) (proposal_status r) (task_status t') (proposal_status r')).
Proof.
  intros Hobs Hu Henf Hproj Hrun. destruct (cycle_admitted _ _ _ _ _ _ Henf Hrun) as (view & d & Hview & _ & Hres & _).
  rewrite Hproj in Hview. injection Hview as <-.
  apply resolve_admitted in Hres as (intent & ts & p & _ & Hadm & _).
  destruct (view_task _ _ _ _ _ (ad_task _ _ _ _ _ _ Hadm)) as (t & Ht & Htid & ->).
  destruct (view_proposal _ _ _ (ad_proposal _ _ _ _ _ _ Hadm)) as (r & Hr & Hrid & ->).
  pose proof (ad_accepted _ _ _ _ _ _ Hadm) as Hacc. simpl in Hacc.
  exists t, r. split; [done|]. split; [done|]. split; [done|].
  split; [apply (ad_agent _ _ _ _ _ _ Hadm)|]. split; [done|]. split; [|split; [|split]].
  - destruct (accepted_decision _ _ _ t r Hobs Hu Ht Hr Hacc) as (m & p & ? & ? & ? & ? & ?).
    exists m, p. repeat split; congruence.
  - intros dep Hdep. destruct (ad_dependencies _ _ _ _ _ _ Hadm dep Hdep) as (ts' & Hts' & Hst).
    destruct (view_task _ _ _ _ _ Hts') as (t' & ? & ? & ->). by exists t'.
  - intros r' Hr'. apply (ad_newest _ _ _ _ _ _ Hadm). apply elem_of_status_proposals. by exists r'.
  - intros t' r' Ht' Hr'. rewrite Htid. apply (ad_exclusive _ _ _ _ _ _ Hadm).
    + apply elem_of_status_tasks. by exists t'.
    + apply elem_of_status_proposals. by exists r'.
Qed.
End cycle.

(** ** The launch checkpoint *)
Lemma all_chars_impl (p q : ascii → bool) s :
  (∀ c, p c = true → q c = true) → all_chars p s = true → all_chars q s = true.
Proof.
  intros Hpq. induction s as [|c s IH]; simpl; [done|]. rewrite !andb_true_iff. intros [? ?]. auto.
Qed.

Lemma hash_fingerprint s : is_valid_hash s = true → is_fingerprint s = true.
Proof.
  unfold is_valid_hash, is_fingerprint. rewrite andb_true_iff, Z.eqb_eq. intros [Hlen Hhex].
  rewrite bool_decide_false by (intros ->; discriminate Hlen). rewrite Hlen. simpl. eapply all_chars_impl; [|exact Hhex].
  intros [[] [] [] [] [] [] [] []] Hc; first [discriminate Hc|reflexivity].
Qed.

Lemma hex_id_lower bytes : all_chars is_lower_hex (hex_id bytes) = true ∧ String.length (hex_id bytes) = (2 * length bytes)%nat.
Proof.
  induction bytes as [|b bytes [IH Hlen]]; [done|]. split; [|simpl; rewrite Hlen; lia].
  change (is_lower_hex (hex_digit (byteZ b / 16)) && (is_lower_hex (hex_digit (byteZ b mod 16))
          && all_chars is_lower_hex (hex_id bytes)) = true).
  rewrite IH. by destruct b.
Qed.

Lemma hex_id_session bytes : length bytes = 16%nat → is_hex32 (hex_id bytes) = true.
Proof.
  intros Hlen. destruct (hex_id_lower bytes) as [Hlow Hl]. unfold is_hex32, slen. by rewrite Hl, Hlen, Hlow.
Qed.

Section checkpoint.
Context `{Unicode, Blake3, WorkJson}.

(** A digest is 64 lowercase hexadecimal characters. *)
Definition digest_hex : Prop := ∀ bytes, is_valid_hash (hash_bytes bytes) = true.

Lemma describe_valid request intent r :
  digest_hex → shape r → validate_message request = Ok tt →
  parse_work_profile (ms_body request) = Some (WorkIntent intent) →
  validate_accepted_work (describe request intent (proposal_status r)) (pr_agent r) (ms_message_id request) = Ok tt.
Proof.
  intros Hhex Hsh Hm Hparse. unfold validate_message in Hm. inv_ok. unfold validate_message_id in *. inv_ok. to_prop.
  assert (is_valid_task_id (wi_task_id intent) = true) as Htask.
  { unfold parse_work_profile in Hparse. destruct (_ <? _); [done|].
    apply bind_Some in Hparse as (j1 & _ & Hp). apply bind_Some in Hp as (j2 & _ & Hp).
    apply bind_Some in Hp as (profile & _ & Hp). destruct (negb _); [done|].
    destruct (is_ok _) eqn:Hok; simplify_eq/=. apply is_ok_true in Hok as [[] Hv]. unfold validate_work_intent in Hv.
    by inv_ok. }
  unfold validate_accepted_work. simpl. rewrite Htask. simpl.
  match goal with Hid : is_valid_hash (ms_message_id request) = true |- _ => rewrite Hid end. simpl.
  rewrite !bool_decide_true by done. simpl.
  match goal with Hid : is_valid_hash (ms_about_snapshot request) = true |- _ => rewrite Hid end. simpl.
  rewrite (hash_fingerprint (message_fingerprint request) (Hhex _)). simpl. rewrite (sh_source _ Hsh). simpl.
  assert (validate_work_scope (sc_paths (pr_scope r)) (sc_concerns (pr_scope r)) (sc_dependencies (pr_scope r))
            (pr_capabilities r) = Ok tt) as Hscope.
  { apply validate_work_scope_Ok. destruct (sh_scope _ Hsh) as (? & ? & ?). pose proof (sh_capabilities _ Hsh).
    split; [done|]. split; [done|]. by split. }
  assert (∀ base, causal_base_of (proposal_status r) = Some base → is_valid_hash base = true) as Hbase.
  { intros base Hb. apply (causal_refs_valid r); [done|]. unfold causal_base_of in Hb. simpl in Hb.
    destruct (causal_refs r); simplify_eq/=. left. }
  destruct (causal_base_of _) as [base|]; simpl; [rewrite Hbase by done; simpl|];
    (destruct (pr_coordinator r) as [name|] eqn:Hco; simpl; [rewrite (sh_coordinator _ Hsh _ Hco); simpl|]);
    exact Hscope.
Qed.

Lemma begin_state_valid now session reply_cursor accepted request s :
  validate_state s = Ok tt → rt_attention (st_runtime s) = None → head (rt_pending (st_runtime s)) = Some request →
  is_hex32 session = true → validate_cursor reply_cursor = Ok tt →
  match accepted with
  | Some d => is_enforced (rc_scope_mode (st_config s)) = true
              ∧ validate_accepted_work d (rc_agent (st_config s)) request = Ok tt
  | None => is_enforced (rc_scope_mode (st_config s)) = false
  end →
  validate_state (on_runtime (begin_state now session request reply_cursor accepted) s) = Ok tt.
Proof.
  intros Hv Hatt Hp Hses Hcur Hacc. apply validate_state_Ok in Hv as [Hb _ _ Hq _ _ Ht]. apply validate_state_Ok.
  assert (request ∈ rt_pending (st_runtime s) ∧ is_valid_hash request = true) as [Hin Hid].
  { apply validate_queue_Ok in Hq as (Hh & _). destruct (rt_pending (st_runtime s)); simplify_eq/=.
    apply Forall_cons in Hh as [? _]. split; [left|done]. }
  split; simpl; try done.
  - intros a [= <-]. unfold validate_active. simpl. rewrite Hid. simpl. unfold validate_session_id. rewrite Hses. simpl.
    rewrite Hcur. simpl. rewrite bool_decide_true by done. simpl.
    destruct accepted as [d|]; [destruct Hacc as [He ->]|]; simpl; [by rewrite He|by rewrite Hacc].
  - unfold validate_attention. simpl. by rewrite Hatt.
Qed.

(** C16. No admitted request is refused at the launch checkpoint. Take any run of the reducer over
    signals with proper ids, and a direct request that [resolve_request_admission] admits from
    its view. If the runner is enforced, configured for that agent, ready (its mode runs, nothing
    active, no attention) and the request is the next of its queue, then the checkpoint succeeds
    with the descriptor of the admission, whatever amendments, narrowings, supersessions and
    undone transitions led to the accepted record; and the child's invocation can be built from
    it. Assumed of what is not modelled: digests are 64 hexadecimal characters, the session id
    is drawn from 16 bytes, and the encoding of the new state fits its file. *)
Theorem admitted_request_launches (encoded_len : RunnerState → Z) obs s history n reset request d
    now session identity mode reply_cursor disk :
  digest_hex → observe_all obs fresh = Some (s, history) →
  (∀ m, m ∈ history → is_valid_hash (ms_message_id m) = true) →
  validate_message request = Ok tt → ms_to request = id_agent identity → ms_kind request = Request →
  resolve_request_admission (status_result s n reset) request (id_agent identity) = Ok (Some d) →
  load_unlocked encoded_len identity disk = Ok disk → is_enforced (rc_scope_mode (st_config disk)) = true →
  validate_execution_mode mode (rt_enabled (st_runtime disk)) = Ok tt → rt_attention (st_runtime disk) = None →
  rt_active (st_runtime disk) = None → head (rt_pending (st_runtime disk)) = Some (ms_message_id request) →
  validate_cursor reply_cursor = Ok tt → length session = 16%nat →
  encoded_len (on_runtime (begin_state now (hex_id session) (ms_message_id request) reply_cursor (Some d)) disk)
    ≤ MAX_STATE_BYTES →
  ∃ disk' launch invocation,
    begin_next_locked encoded_len now session identity mode reply_cursor (Some d) disk = Ok (disk', launch)
    ∧ rl_message_id launch = ms_message_id request ∧ rl_accepted_work launch = Some d
    ∧ RunnerInvocation_new launch (id_agent identity) request = Ok invocation.
Proof.
  intros Hhex Hobs Hids Hm Hto Hkind Hres Hload Henf Hmode Hatt Hact Hp Hcur Hses Hlen.
  apply resolve_admitted in Hres as (intent & ts & p & Hparse & Hadm & ->).
  destruct (view_task _ _ _ _ _ (ad_task _ _ _ _ _ _ Hadm)) as (t & Ht & _ & ->).
  destruct (view_proposal _ _ _ (ad_proposal _ _ _ _ _ _ Hadm)) as (r & Hr & _ & ->).
  pose proof (run_shapes _ _ _ _ _ Hobs Hids Ht Hr) as Hsh.
  pose proof (ad_agent _ _ _ _ _ _ Hadm) as Hagent. simpl in Hagent.
  pose proof (describe_valid request intent r Hhex Hsh Hm Hparse) as Hdesc. rewrite Hagent in Hdesc.
  destruct (load_Ok _ _ _ _ Hload) as (_ & Hv & Hag & _).
  set (d := describe request intent (proposal_status r)) in *.
  set (launch := mkRunnerLaunch (ms_message_id request) (hex_id session) reply_cursor (Some d)).
  assert (validate_state (on_runtime (begin_state now (hex_id session) (ms_message_id request) reply_cursor (Some d)) disk)
          = Ok tt) as Hbegin.
  { apply begin_state_valid; try done; [by apply hex_id_session|]. split; [done|]. by rewrite Hag. }
  eexists _, launch, _. split; [|split; [done|split; [done|]]].
  - unfold begin_next_locked. rewrite Hcur. simpl. unfold update. rewrite Hload. simpl. rewrite Hmode. simpl.
    rewrite Hatt. simpl. rewrite Hact. simpl. rewrite Hp. simpl. rewrite Henf. simpl. rewrite Hag, Hdesc. simpl.
    rewrite Hbegin. simpl. unfold write_unlocked. by rewrite (proj2 (Z.leb_le _ _) Hlen).
  - unfold RunnerInvocation_new. simpl. unfold validate_name.
    assert (is_valid_agent_name (id_agent identity) = true) as ->.
    { apply validate_state_Ok in Hv as [Hb _ _ _ _ _ _]. unfold validate_bounds, validate_name in Hb. inv_ok. congruence. }
    simpl. unfold validate_session_id. rewrite (hex_id_session _ Hses). simpl. rewrite Hm. simpl.
    rewrite !bool_decide_true by done. simpl. rewrite Hkind. simpl. by rewrite Hdesc.
Qed.
End checkpoint.

(** ** Waits that cannot be recorded *)
Section waits.
Context `{Unicode, Blake3, WorkJson} (encoded_len : RunnerState → Z) (invocation_len : RunnerInvocation → Z).
Context (now : Z) (identity lease : RunnerIdentity) (config : RunnerConfig) (mode : RunnerExecutionMode).

(** The cycle never waits for a pending scope amendment: the wait it builds has the kind of an
    amendment and a reason, which no valid state has, so that the cycle ends in an error and
    nothing is written. *)
Theorem amendment_wait_unrecordable session current message_id disk :
  ∃ e, decide_next encoded_len invocation_len now identity lease config mode session current
         (Wait message_id ScopeAmendmentPending) disk = (disk, Err e).
Proof.
  unfold decide_next, mbind, cycle_bind, tx.
  destruct (in_session _ _ _ _ disk) as [[d st]|e] eqn:Hs; [exfalso|by eexists].
  unfold in_session, record_work_wait_locked in Hs. inv_ok. inv_update Hs. inv_ok. subst.
  apply validate_state_Ok in Hvalid as [_ Hw _ _ _ _ _]. specialize (Hw _ eq_refl).
  unfold validate_wait in Hw. simpl in Hw. by inv_ok.
Qed.

(** Releasing an amendment wait fails while its request is on record: without the wait the record
    belongs to nothing. *)
Theorem amendment_wait_not_cleared disk wait record :
  rt_work_wait (st_runtime disk) = Some wait → ww_kind wait = ScopeAmendmentRequested →
  rt_scope_change_request (st_runtime disk) = Some record →
  is_ok (clear_scope_amendment_wait_locked encoded_len now identity disk) = false.
Proof.
  intros Hw Hk Hr. destruct (is_ok _) eqn:Hok; [|done]. apply is_ok_true in Hok as [[d u] Hc].
  unfold clear_scope_amendment_wait_locked in Hc. inv_update Hc. subst s. rewrite migrate_runtime, Hw in Hc. simpl in Hc.
  rewrite Hk in Hc. simpl in Hc. inv_ok. subst.
  apply validate_state_Ok in Hv as [_ Hwait _ _ _ _ _]. rewrite migrate_runtime in Hwait. specialize (Hwait _ Hw).
  unfold validate_wait in Hwait. inv_ok.
  apply validate_state_Ok in Hvalid as [_ _ Hch _ _ _ _]. simpl in Hch. rewrite migrate_runtime in Hch.
  specialize (Hch _ Hr). unfold validate_scope_change in Hch. inv_ok. unfold record_anchored in Hch. simpl in Hch.
  by destruct (rt_active (st_runtime disk)).
Qed.
End waits.

(** ** A concrete launch

    Ann is asked to do the work of her intent, which Cora has accepted. *)
#[local] Instance launch_unicode : Unicode := demo_unicode.
#[local] Instance launch_json : WorkJson := demo_json.
#[local] Instance launch_blake3 : Blake3 := sample_blake3.
Definition work_request : AgentMessage :=
  mkAgentMessage (id_of "a") "cora" "ann" Request "ffwork1:intent" (id_of "0") None 1.
Definition launch_messages : list AgentMessage := [signal (id_of "b") "cora" "ffwork1:accept" 2; work_request].
Definition launch_run : list Observation :=
  [mkObservation (λ _, mkAgentInboxResult (id_of "c") false launch_messages) 4 false].
Definition launch_state : WorkStateFile := from_option fst fresh (observe_all launch_run fresh).
Definition launch_view : WorkStatusResult := status_result launch_state 2 false.

Definition enforced_runner : RunnerState :=
  unwrap_or ann_runner
    (configure_scoped any_len fs_identity fs_regular fs_executable (Ok tt) (Ok tt) None 1 (sixteen x0a) "ann"
       "/bin/agent" [] 60 (id_of "0") Enforced).
Definition launch_inbox : AgentInboxResult := mkAgentInboxResult (id_of "c") false [work_request].
Definition launch_answers : Answers :=
  mkAnswers (Some launch_inbox) false Refreshed (Some launch_inbox) false (Ok (Some launch_view)) (sixteen x01).
Definition ann_cycle : RunnerState * Result CycleStep :=
  run_cycle any_len (λ _, 0) 5 ann_identity ann_identity (st_config enforced_runner) Foreground launch_answers
    enforced_runner.

Lemma launch_observed : observe_all launch_run fresh = Some (launch_state, launch_messages).
Proof. vm_compute. reflexivity. Qed.

Lemma launch_ids m : m ∈ launch_messages → is_valid_hash (ms_message_id m) = true.
Proof. intros Hm%list_elem_of_In. destruct Hm as [<-|[<-|[]]]; vm_compute; reflexivity. Qed.

Lemma launch_unique : message_ids_unique launch_messages.
Proof.
  intros m m' Hm Hm' Heq. apply list_elem_of_In in Hm, Hm'. simpl in Hm, Hm'.
  destruct Hm as [<-|[<-|[]]], Hm' as [<-|[<-|[]]]; try reflexivity; vm_compute in Heq; discriminate.
Qed.

(** The statement applied to that cycle: it starts Ann's process, and Cora's decision was read. *)
Lemma launch_authorized_witness :
  (∃ launch invocation, ann_cycle.2 = Ok (Started launch work_request (Some invocation)))
  ∧ ∃ m p, m ∈ launch_messages ∧ ms_from m = "cora" ∧ parse_work_profile (ms_body m) = Some (WorkDecision p)
      ∧ decision_state (wd_kind p) = Accepted.
Proof.
  destruct ann_cycle as [disk' step] eqn:Hrun.
  assert (∃ launch invocation, step = Ok (Started launch work_request (Some invocation))) as (launch & invocation & ->).
  { vm_compute in Hrun. injection Hrun as _ <-. eexists _, _. vm_compute. reflexivity. }
  destruct (launch_authorized any_len (λ _, 0) 5 ann_identity ann_identity (st_config enforced_runner) Foreground
    launch_run launch_state launch_messages 2 false launch_answers enforced_runner disk' launch work_request
    (Some invocation)) as (t & r & Ht & Hr & _ & _ & _ & (m & p & Hm & Hfrom & Hp & _ & Hacc) & _).
  - exact launch_observed.
  - exact launch_unique.
  - vm_compute. reflexivity.
  - reflexivity.
  - exact Hrun.
  - split; [exists launch, invocation; reflexivity|]. exists m, p. split; [exact Hm|]. split; [|split; [exact Hp|exact Hacc]].
    rewrite Hfrom. assert (Forall (λ t, Forall (λ r, authorized_coordinator r = "cora") (tk_proposals t)) (ws_tasks launch_state))
      as Hall by (vm_compute; repeat constructor).
    rewrite Forall_forall in Hall. specialize (Hall t Ht). rewrite Forall_forall in Hall. exact (Hall r Hr).
Defined.

Lemma sample_digest_hex : digest_hex.
Proof.
  intros bytes. unfold hash_bytes, launch_blake3, sample_blake3. set (z := foldl _ _ _).
  destruct (hex_of_lower 64 z) as [Hl Hn]. unfold is_valid_hash, slen. by rewrite Hn, Hl.
Qed.

(** The runner after it admitted the request. *)
Definition ready_runner : RunnerState :=
  (run_calls any_len fs_identity fs_regular fs_executable [ann_call 4 (OpAdmit Foreground launch_inbox)] enforced_runner).1.
Definition launch_descriptor : option AcceptedWorkDescriptor :=
  unwrap_or None (resolve_request_admission launch_view work_request "ann").

(** The statement applied to the accepted request above. *)
Lemma admitted_request_launches_witness :
  ∃ d disk' launch, launch_descriptor = Some d
    ∧ begin_next_locked any_len 5 (sixteen x01) ann_identity Foreground (id_of "c") (Some d) ready_runner = Ok (disk', launch)
    ∧ rl_message_id launch = id_of "a".
Proof.
  destruct launch_descriptor as [d|] eqn:Hd; [|vm_compute in Hd; discriminate Hd].
  destruct (admitted_request_launches any_len launch_run launch_state launch_messages 2 false work_request d 5
    (sixteen x01) ann_identity Foreground (id_of "c") ready_runner) as (disk' & launch & invocation & Hb & Hid & _).
  - exact sample_digest_hex.
  - exact launch_observed.
  - exact launch_ids.
  - vm_compute. reflexivity.
  - reflexivity.
  - reflexivity.
  - unfold launch_descriptor, launch_view in Hd. change (id_agent ann_identity) with "ann".
    destruct (resolve_request_admission _ _ _) as [o|e]; simpl in Hd; [rewrite Hd; reflexivity|discriminate Hd].
  - vm_compute. reflexivity.
  - vm_compute. reflexivity.
  - vm_compute. reflexivity.
  - vm_compute. reflexivity.
  - vm_compute. reflexivity.
  - vm_compute. reflexivity.
  - vm_compute. reflexivity.
  - vm_compute. reflexivity.
  - vm_compute. discriminate.
  - exists d, disk', launch. split; [reflexivity|]. split; [exact Hb|]. rewrite Hid. reflexivity.
Defined.

(** ** What the admission check takes for a causal base and for an approval *)

(** Ann's second task builds on her first; Cora narrows it to a glob that covers more than was
    declared. A third task, without a causal base, is ordered after the first. *)
Definition expansion_profiles : list (string * WorkProfile) := [
  ("first", WorkIntent (mkWorkIntentProfile "one" "ann" 1 None (Some "cora") ["docs/x"] [] [] []));
  ("based", WorkIntent (mkWorkIntentProfile "two" "ann" 1 (Some (id_of "a")) (Some "cora") ["src/a.rs"] [] [] []));
  ("free", WorkIntent (mkWorkIntentProfile "two" "ann" 1 None (Some "cora") ["src/a.rs"] [] [] []));
  ("narrow", WorkDecision (mkWorkDecisionProfile (id_of "b") (Narrow ["src/**"] [] None)));
  ("order", WorkDecision (mkWorkDecisionProfile (id_of "b") (Order (Some (id_of "a")) None)))].
Definition expansion_request (body : string) : AgentMessage :=
  mkAgentMessage (id_of "b") "cora" "ann" Request body (id_of "0") None 2.
Definition expansion_admission (body decision : string) : option (result RunnerAdmissionReject (option AcceptedWorkDescriptor)) :=
  let json := table_json expansion_profiles in
  let messages := [signal (id_of "a") "ann" "ffwork1:first" 1; expansion_request body; signal (id_of "c") "cora" decision 3] in
  '(s, _) ← @observe_all demo_unicode json [mkObservation (λ _, mkAgentInboxResult (id_of "d") false messages) 4 false] fresh;
  Some (@resolve_request_admission demo_unicode sample_blake3 json (status_result s 3 false) (expansion_request body) "ann").

(** A causal base counts as the approval of an expansion: the same widened scope is turned down
    when the intent has no base and admitted when it has one, although no approval was ever sent;
    and the descriptor's causal base is the first reference of any kind, here the work the
    request was ordered after. *)
Theorem base_taken_for_approval :
  expansion_admission "ffwork1:free" "ffwork1:narrow" = Some (Err ScopeExpansionWithoutApproval)
  ∧ (λ r, (λ d, (sc_paths (aw_scope d), scope_contained_in_declared (aw_scope d)
        (mkWorkIntentProfile "two" "ann" 1 None None ["src/a.rs"] [] [] []))) <$> unwrap_or None r)
      <$> expansion_admission "ffwork1:based" "ffwork1:narrow" = Some (Some (["src/**"], false))
  ∧ (λ r, aw_causal_base <$> unwrap_or None r) <$> expansion_admission "ffwork1:free" "ffwork1:order"
    = Some (Some (Some (id_of "a"))).
Proof. split; [|split]; vm_compute; reflexivity. Qed.
