(* ===== verification/RunnerFinish.v ===== *)
(** * Agent runner: the process and the end of the request

    The rest of a cycle once the launch checkpoint is taken: client/src/cli/agent_runner/process.rs
    (how the configured process ended) and remote.rs (finding the reply that ends the request, or
    publishing a blocked one in its place). Waiting is modelled by the polls of the control state
    made meanwhile and by what ended it; a remote that answers may depend on all the calls made
    before. Another process may disable the runner at any poll. The transactions on the state file
    are those of the store with writes that succeed: their own failures are in
    [RunnerSession.perform], and one in [delivery_unknown] would be the error of the cycle. *)
From Stdlib Require Import ZArith Lia Ascii Strings.Byte.
From stdpp Require Import sorting numbers strings gmap list_numbers list options.
From S2P Require Import Prelude Text Paths WorkContract AgentContract WorkReducer WorkStatus Scope RunnerStore.
From S2P Require Import RunnerSession RunnerCycle.

Local Open Scope Z_scope.

Definition TERMINAL_READ_ATTEMPTS : nat := 5.
Definition FALLBACK_CAS_ATTEMPTS : nat := 4.

(** ** Data *)
Inductive ProcessOutcome := StartFailure | StdinFailure | Exited | Timeout | Cancellation.
#[global] Instance ProcessOutcome_eq_dec : EqDecision ProcessOutcome.
Proof. solve_decision. Defined.

Definition blocked_body (outcome : ProcessOutcome) : string :=
  match outcome with
  | StartFailure => "runner blocked: process start failed"
  | StdinFailure => "runner blocked: invocation delivery failed"
  | Exited => "runner blocked: process exited without a correlated terminal"
  | Timeout => "runner blocked: execution timed out"
  | Cancellation => "runner blocked: execution cancelled"
  end.

Inductive HeadConditionalSendResult := Sent (sent : AgentSendResult) | Conflict (current : option string).
Inductive TerminalReadOutcome := Batch (result : AgentInboxResult) | ReadNeedsAttention.
Inductive RemoteOutcome (A : Type) := Completed (a : A) | Interrupted.
Arguments Completed {A} _.
Arguments Interrupted {A}.

(** The fields of [LiveFinalOutcome] that the completion reads. *)
Record LiveFinalOutcome := mkLiveFinalOutcome {
  lf_settled : bool;
  lf_offline : bool;
  lf_attention : bool;                     (* an attention is present *)
  lf_settled_snapshot : option string;
}.

(** ** What the environment does *)

(** One look at the control state: the runner may have been disabled just before. *)
Record Poll := mkPoll { po_disabled : option Z; po_shutdown : bool }.
(** A wait: its polls, and how it ended unless one of them stopped it. *)
Record Await (A : Type) := mkAwait { aw_first : Poll; aw_more : list Poll; aw_in_time : bool; aw_end : A }.
Arguments mkAwait {A} _ _ _ _.
Arguments aw_first {A} _.
Arguments aw_more {A} _.
Arguments aw_in_time {A} _.
Arguments aw_end {A} _.

Inductive RemoteCall :=
  | CallRead
  | CallSend (head : string) (input : AgentMessageInput)
      (outcome : RemoteOutcome (Result HeadConditionalSendResult)).

(** The remote, whose answers may depend on the calls made before. *)
Record Remote := mkRemote {
  rm_read : list RemoteCall → Await (Result AgentInboxResult);
  rm_send : list RemoteCall → string → AgentMessageInput → Await (Result HeadConditionalSendResult);
  rm_backoff : list RemoteCall → list Poll;      (* the polls of the delay after a failed read *)
}.

(** The operating system, from the command to the end of the process. *)
Record ProcessAnswers := mkProcessAnswers {
  pa_wrapper : bool;                             (* the startup wrapper was located *)
  pa_group : bool;
  pa_gate : bool;
  pa_spawned : bool;
  pa_pid : option Z;
  pa_start_id : string;
  pa_start_matches : bool;
  pa_before_release : Poll;
  pa_release : bool;
  pa_stdin : bool;
  pa_write : Await (option bool);                (* [None]: the deadline passed *)
  pa_exit : Await (option (Result unit));
}.

(** ** State, calls and errors *)
Record World := mkWorld { w_calls : list RemoteCall; w_disk : RunnerState }.
Definition Finish (A : Type) : Type := World → World * Result A.
#[global] Instance finish_ret : MRet Finish := λ A a w, (w, Ok a).
#[global] Instance finish_bind : MBind Finish := λ A B f m w,
  match m w with (w, Ok a) => f a w | (w, Err e) => (w, Err e) end.
Definition on_disk {A} (c : Cycle A) : Finish A := λ w,
  let '(disk, r) := c (w_disk w) in (mkWorld (w_calls w) disk, r).
Definition cycle_unwrap_or {A} (a : A) (c : Cycle A) : Cycle A := λ disk,
  let '(disk, r) := c disk in (disk, Ok (unwrap_or a r)).

Section finish.
Context `{Unicode, Blake3, WorkJson} (encoded_len : RunnerState → Z).
Context (now : Z) (identity lease : RunnerIdentity) (config : RunnerConfig) (mode : RunnerExecutionMode).

Local Notation in_session op := (in_session encoded_len identity lease op).
Local Notation should_stop := (should_stop encoded_len identity mode).

Definition look (poll : Poll) : Cycle bool := λ disk,
  let disk := match po_disabled poll with
              | Some at_ms => (tx (set_enabled encoded_len (Ok tt) at_ms identity false) disk).1
              | None => disk
              end in
  should_stop (po_shutdown poll) disk.

(** ** process.rs *)

(** [true] if a poll stopped the wait; an error of a poll stops it too. *)
Fixpoint stopped_by (polls : list Poll) : Cycle bool :=
  match polls with
  | [] => mret false
  | poll :: polls => stop ← cycle_unwrap_or true (look poll);
                     if (stop : bool) then mret true else stopped_by polls
  end.

Definition write_invocation_until (wait : Await (option bool)) : Cycle (option ProcessOutcome) :=
  stop ← stopped_by (aw_first wait :: aw_more wait);
  mret (if (stop : bool) then Some Cancellation
        else match aw_end wait with
             | None => Some Timeout
             | Some false => Some StdinFailure
             | Some true => None
             end).

Definition wait_for_child_until (wait : Await (option (Result unit))) : Cycle ProcessOutcome :=
  stop ← stopped_by (aw_first wait :: aw_more wait);
  mret (if (stop : bool) then Cancellation
        else match aw_end wait with None => Timeout | Some _ => Exited end).

(** Signals to the child and its reaping leave no trace in the runner's state. *)
Definition run_configured_process (launch : RunnerLaunch) (os : ProcessAnswers) : Cycle ProcessOutcome :=
  if negb (pa_wrapper os) then raise "locate feanorfs startup wrapper" else
  if negb (pa_group os) || negb (pa_gate os) || negb (pa_spawned os) then mret StartFailure else
  match pa_pid os with
  | None => mret StartFailure
  | Some pid =>
      if negb (pa_start_matches os) then mret StartFailure else
      stop ← cycle_unwrap_or true (look (pa_before_release os));
      if (stop : bool) then mret Cancellation else
      spawned ← try_tx (in_session
        (mark_spawned_locked encoded_len now identity (rl_message_id launch) pid (pa_start_id os)));
      if negb (is_ok spawned) || negb (pa_release os) then mret StartFailure else
      if negb (pa_stdin os) then mret StdinFailure else
      written ← write_invocation_until (pa_write os);
      match written with
      | Some outcome => mret outcome
      | None => wait_for_child_until (pa_exit os)
      end
  end.

(** ** remote.rs *)
Definition delivery_unknown (launch : RunnerLaunch) : Cycle CycleOutcome :=
  _ ← tx (in_session
        (record_delivery_unknown_locked encoded_len now identity (rl_message_id launch) (rl_session_id launch)));
  mret CycleNeedsAttention.

(** With a cancellation deadline the control state is not looked at: the deadline ends the wait. *)
Definition await_remote {A} (deadline : bool) (wait : Await A) : Cycle (RemoteOutcome A) :=
  if deadline then
    _ ← cycle_unwrap_or true (look (aw_first wait));
    mret (if aw_in_time wait then Completed (aw_end wait) else Interrupted)
  else
    stop ← stopped_by (aw_first wait :: aw_more wait);
    mret (if (stop : bool) then Interrupted else Completed (aw_end wait)).

Fixpoint wait_interruptible (polls : list Poll) : Cycle bool :=
  match polls with
  | [] => mret false
  | poll :: polls => stop ← look poll; if (stop : bool) then mret true else wait_interruptible polls
  end.

Definition cancellation_completion_deadline (outcome : ProcessOutcome) (poll : Poll) : Cycle bool :=
  if negb (bool_decide (outcome = Cancellation)) then mret false else look poll.

Section remote.
Context (remote : Remote) (launch : RunnerLaunch) (deadline : bool).

Definition await_read : Finish (RemoteOutcome (Result AgentInboxResult)) := λ w,
  let '(disk, r) := await_remote deadline (rm_read remote (w_calls w)) (w_disk w) in
  (mkWorld (w_calls w ++ [CallRead]) disk, r).
Definition await_send (head : string) (input : AgentMessageInput)
    : Finish (RemoteOutcome (Result HeadConditionalSendResult)) := λ w,
  match await_remote deadline (rm_send remote (w_calls w) head input) (w_disk w) with
  | (disk, Ok outcome) => (mkWorld (w_calls w ++ [CallSend head input outcome]) disk, Ok outcome)
  | (disk, Err e) => (mkWorld (w_calls w) disk, Err e)
  end.
Definition await_backoff : Finish bool := λ w,
  on_disk (cycle_unwrap_or true (wait_interruptible (rm_backoff remote (w_calls w)))) w.

Definition stop_reading : Finish TerminalReadOutcome :=
  _ ← on_disk (delivery_unknown launch); mret ReadNeedsAttention.

(** [attempts]: the attempts left, this one included. *)
Fixpoint read_terminal_from (attempts : nat) : Finish TerminalReadOutcome :=
  match attempts with
  | O => on_disk (raise "unreachable: terminal read attempts are non-zero")
  | S attempts =>
      answer ← await_read;
      match answer with
      | Interrupted => stop_reading
      | Completed (Ok result) =>
          recorded ← on_disk (try_tx (in_session (record_inbox_recovery_locked encoded_len now identity)));
          if is_ok recorded then mret (Batch result) else stop_reading
      | Completed (Err _) =>
          recorded ← on_disk (try_tx (in_session (record_inbox_failure_locked encoded_len now identity)));
          if negb (is_ok recorded) || deadline || bool_decide (attempts = O) then stop_reading else
          stop ← await_backoff;
          if (stop : bool) then stop_reading else read_terminal_from attempts
      end
  end.
Definition read_terminal_batch : Finish TerminalReadOutcome := read_terminal_from TERMINAL_READ_ATTEMPTS.

Context (request : AgentMessage) (agent : string) (outcome : ProcessOutcome) (expected : option string).

Definition observe (messages : list AgentMessage) : Finish (Result (option RunnerStatus)) :=
  on_disk (try_tx (in_session (observe_terminals_locked encoded_len now identity request messages expected))).

Definition fallback : AgentMessageInput :=
  mkAgentMessageInput (ms_from request) KindBlocked (blocked_body outcome)
    (Some (default (ms_about_snapshot request) expected)) (Some (ms_message_id request)) (Some agent).
Definition published (sent : AgentSendResult) : AgentMessage :=
  mkAgentMessage (se_message_id sent) agent (ms_from request) KindBlocked (blocked_body outcome)
    (se_about_snapshot sent) (Some (ms_message_id request)) now.

(** The batch read before and after an attempt: the request is ended by it, ended by giving up,
    or still open at the batch's cursor. *)
Definition settle_batch (read : TerminalReadOutcome) : Finish (CycleOutcome + string) :=
  match read with
  | ReadNeedsAttention => mret (inl CycleNeedsAttention)
  | Batch batch =>
      if ai_cursor_reset batch then gave_up ← on_disk (delivery_unknown launch); mret (inl gave_up) else
      observed ← observe (ai_messages batch);
      match observed with
      | Ok (Some _) => mret (inl CycleCompleted)
      | Ok None => mret (inr (ai_cursor batch))
      | Err _ => gave_up ← on_disk (delivery_unknown launch); mret (inl gave_up)
      end
  end.

Fixpoint publish_fallback_from (attempts : nat) (expected_head : string) : Finish CycleOutcome :=
  match attempts with
  | O => on_disk (raise "unreachable: fallback CAS attempts are non-zero")
  | S attempts =>
      if bool_decide (expected_head = "") then on_disk (delivery_unknown launch) else
      answer ← await_send expected_head fallback;
      match answer with
      | Completed (Ok (Sent sent)) =>
          observed ← observe [published sent];
          match observed with
          | Ok (Some _) => mret CycleCompleted
          | _ => on_disk (delivery_unknown launch)
          end
      | Completed (Ok (Conflict _)) =>
          reread ← read_terminal_batch;
          settled ← settle_batch reread;
          match settled with
          | inl outcome => mret outcome
          | inr cursor =>
              if bool_decide (attempts = O) || bool_decide (cursor = "") || bool_decide (cursor = expected_head)
              then on_disk (delivery_unknown launch) else publish_fallback_from attempts cursor
          end
      | Completed (Err _) | Interrupted => on_disk (delivery_unknown launch)
      end
  end.

Definition complete_request_with_remote : Finish CycleOutcome :=
  terminal_read ← read_terminal_batch;
  settled ← settle_batch terminal_read;
  match settled with
  | inl outcome => mret outcome
  | inr cursor => publish_fallback_from FALLBACK_CAS_ATTEMPTS cursor
  end.
End remote.

(** The snapshot a result may name: the final flush settled on it. *)
Definition expected_result_snapshot (flush : option LiveFinalOutcome) : option string :=
  match flush with
  | Some live => if lf_settled live && negb (lf_offline live) && negb (lf_attention live)
                 then lf_settled_snapshot live else None
  | None => None
  end.

(** [flush]: the controller's last flush, [None] if it failed; [ctx]: whether the sync context
    could be built. *)
Record CompletionAnswers := mkCompletionAnswers {
  co_cancel : Poll;
  co_flush : option LiveFinalOutcome;
  co_ctx : bool;
  co_remote : Remote;
}.
Definition complete_request (launch : RunnerLaunch) (request : AgentMessage) (outcome : ProcessOutcome)
    (co : CompletionAnswers) : Finish CycleOutcome := λ w,
  match cancellation_completion_deadline outcome (co_cancel co) (w_disk w) with
  | (disk, Err _) => on_disk (delivery_unknown launch) (mkWorld (w_calls w) disk)
  | (disk, Ok deadline) =>
      if negb (co_ctx co) then on_disk (delivery_unknown launch) (mkWorld (w_calls w) disk)
      else complete_request_with_remote (co_remote co) launch deadline request (rc_agent config) outcome
             (expected_result_snapshot (co_flush co)) (mkWorld (w_calls w) disk)
  end.

(** cycle.rs, [run_cycle] after the launch checkpoint. *)
Definition finish_cycle (launch : RunnerLaunch) (request : AgentMessage) (invocation : option RunnerInvocation)
    (os : ProcessAnswers) (co : CompletionAnswers) : Finish CycleOutcome :=
  match invocation with
  | None => complete_request launch request StartFailure co
  | Some _ =>
      outcome ← on_disk (run_configured_process launch os);
      complete_request launch request outcome co
  end.
End finish.
