(* ===== verification/FinishTheorems.v ===== *)
(** * Agent runner: every started request is settled

    The end of a cycle, whatever the process, the controller and the remote do: the request is
    completed by a reply that ends it or pinned for the operator, and at most one blocked reply
    can have been published for it. *)
From Stdlib Require Import ZArith Lia Ascii Strings.Byte.
From stdpp Require Import sorting numbers strings gmap list_numbers list options.
From S2P Require Import Prelude Text Paths WorkContract AgentContract WorkReducer WorkStatus Scope RunnerStore.
From S2P Require Import RunnerSession RunnerProps RunnerTheorems RunnerCycle LaunchTheorems RunnerFinish.

Local Open Scope Z_scope.

(** ** Specifications of state-passing code

    From a world in [P], [m] returns a value, without an error, and they are in [Q]. *)
Definition returns {S A} (P : S → Prop) (m : S → S * Result A) (Q : A → S → Prop) : Prop :=
  ∀ s, P s → ∃ s' a, m s = (s', Ok a) ∧ Q a s'.

Lemma returns_ret (P : World → Prop) {A} (a : A) (Q : A → World → Prop) :
  (∀ w, P w → Q a w) → returns P (mret (M:=Finish) a) Q.
Proof. intros HQ w Hw. exists w, a. split; [done|]. by apply HQ. Qed.
Lemma returns_bind {A B} P (m : Finish A) (R : A → World → Prop) (f : A → Finish B) Q :
  returns P m R → (∀ a, returns (R a) (f a) Q) → returns P (m ≫= f) Q.
Proof.
  intros Hm Hf w (w1 & a & He & HR)%Hm. destruct (Hf a w1 HR) as (w2 & b & He2 & HQ).
  exists w2, b. split; [|done]. unfold mbind, finish_bind. by rewrite He.
Qed.
Lemma cycle_returns_bind {A B} P (m : Cycle A) (R : A → RunnerState → Prop) (f : A → Cycle B) Q :
  returns P m R → (∀ a, returns (R a) (f a) Q) → returns P (m ≫= f) Q.
Proof.
  intros Hm Hf w (w1 & a & He & HR)%Hm. destruct (Hf a w1 HR) as (w2 & b & He2 & HQ).
  exists w2, b. split; [|done]. unfold mbind, cycle_bind. by rewrite He.
Qed.
Lemma returns_weaken {S A} (P P' : S → Prop) (m : S → S * Result A) Q Q' :
  returns P m Q → (∀ s, P' s → P s) → (∀ a s, Q a s → Q' a s) → returns P' m Q'.
Proof. intros Hm HP HQ s Hs. destruct (Hm s (HP s Hs)) as (s' & a & ? & ?). eauto. Qed.
Lemma returns_on_disk {A} (P : RunnerState → Prop) (c : Cycle A) Q (C : list RemoteCall → Prop) :
  returns P c Q → returns (λ w, C (w_calls w) ∧ P (w_disk w)) (on_disk c) (λ a w, C (w_calls w) ∧ Q a (w_disk w)).
Proof.
  intros Hc [calls disk] [HC HP]. destruct (Hc disk HP) as (disk' & a & He & HQ).
  exists (mkWorld calls disk'), a. unfold on_disk. simpl in *. by rewrite He.
Qed.
Lemma returns_unwrap_or {A} P (c : Cycle A) a (Q : RunnerState → Prop) :
  (∀ s, P s → Q (c s).1) → returns P (cycle_unwrap_or a c) (λ _, Q).
Proof.
  intros Hc s Hs. specialize (Hc s Hs). unfold cycle_unwrap_or. destruct (c s) as [s' r]. eauto.
Qed.
Lemma returns_try_tx {A} (P : RunnerState → Prop) (t : Tx A) (Q : Result A → RunnerState → Prop) :
  (∀ s, P s → match t s with Ok (s', a) => Q (Ok a) s' | Err e => Q (Err e) s end) → returns P (try_tx t) Q.
Proof.
  intros Ht s Hs. specialize (Ht s Hs). unfold try_tx. destruct (t s) as [[s' a]|e]; eauto.
Qed.

(** ** The states of a started request *)
Section settle.
Context `{Unicode, Blake3, WorkJson} (encoded_len : RunnerState → Z).
Context (now : Z) (identity lease : RunnerIdentity) (config : RunnerConfig) (mode : RunnerExecutionMode).
Context (launch : RunnerLaunch).

Definition is_launch (a : ActiveRequest) : Prop :=
  ac_message_id a = rl_message_id launch ∧ ac_session_id a = rl_session_id launch.
Record running (s : RunnerState) : Prop := {
  ru_load : load_unlocked encoded_len identity s = Ok s;
  ru_attention : rt_attention (st_runtime s) = None;
  ru_active : ∃ a, rt_active (st_runtime s) = Some a ∧ is_launch a;
}.

(** The request waits for the operator: its reply may or may not have been delivered. *)
Definition delivery_pinned (s : RunnerState) : Prop :=
  rt_attention (st_runtime s) = Some DeliveryUnknown
  ∧ ∃ a, rt_active (st_runtime s) = Some a ∧ is_launch a ∧ ac_phase a = Ambiguous.

(** The request was ended by [terminal]. *)
Definition ended_by (request terminal : AgentMessage) (expected : option string) (s : RunnerState) : Prop :=
  rt_active (st_runtime s) = None ∧ rl_message_id launch ∈ rt_completed_ids (st_runtime s)
  ∧ rl_message_id launch ∉ rt_pending (st_runtime s)
  ∧ rt_last_terminal (st_runtime s) = Some (mkLastTerminal (ms_kind terminal) (ms_message_id terminal) now)
  ∧ is_terminal_for (id_agent identity) request (rl_message_id launch) expected terminal = true.

Lemma running_written {A} (f : Tx A) s s' a :
  running s → update encoded_len identity f s = Ok (s', a) →
  f s = Ok (s', a) ∧ (st_config s' = st_config s → st_generation_id s' = st_generation_id s →
    load_unlocked encoded_len identity s' = Ok s').
Proof.
  intros [Hl _ _] Hu. apply update_Ok in Hu as (s0 & Hl0 & Hf & Hv & Hlen). assert (s0 = s) as -> by congruence. split; [done|].
  intros Hc Hg. apply load_Ok in Hl as (_ & _ & Ha & Hgen). apply load_written; (done || congruence).
Qed.

(** An update of the runtime that keeps the active request and raises no attention. *)
Lemma running_update {A} (g : RunnerRuntime → RunnerRuntime) (f : Tx A) s s' a :
  running s → update encoded_len identity f s = Ok (s', a) → (f s = Ok (s', a) → s' = on_runtime g s) →
  rt_attention (g (st_runtime s)) = rt_attention (st_runtime s) →
  (∀ act, rt_active (st_runtime s) = Some act → is_launch act →
     ∃ act', rt_active (g (st_runtime s)) = Some act' ∧ is_launch act') →
  running s'.
Proof.
  intros Hr Hu Hg Hatt Hact. destruct (running_written f s s' a Hr Hu) as [Hf Hload].
  rewrite (Hg Hf) in *. destruct Hr as [_ Hatt0 (act & Ha & Hid)]. split; simpl.
  - by apply Hload.
  - by rewrite Hatt.
  - by apply (Hact act).
Qed.

Lemma running_disabled at_ms s : running s → running (tx (set_enabled encoded_len (Ok tt) at_ms identity false) s).1.
Proof.
  intros Hr. unfold tx. destruct (set_enabled _ _ _ _ _ s) as [[s' st]|e] eqn:Hu; [simpl|done].
  unfold set_enabled in Hu. simpl in Hu. apply update_status_Ok in Hu as (u & Hu).
  eapply running_update; [exact Hr|exact Hu|by intros [= <- _]|done|eauto].
Qed.
Lemma running_look poll s : running s → running (look encoded_len identity mode poll s).1.
Proof.
  intros Hr. unfold look.
  set (s1 := match po_disabled poll with Some _ => _ | None => _ end).
  assert (running s1) as Hr1 by (unfold s1; destruct (po_disabled poll); [by apply running_disabled|done]).
  unfold should_stop, stopped_after_state_error. destruct (po_shutdown poll); [done|]. destruct mode; [|done].
  unfold mbind, cycle_bind, reading. by destruct (status _ _ _).
Qed.
Lemma stopped_by_returns polls : returns running (stopped_by encoded_len identity mode polls) (λ _, running).
Proof.
  induction polls as [|poll polls IH]; simpl; [intros s Hs; by exists s, false|].
  eapply cycle_returns_bind; [apply (returns_unwrap_or running _ _ running), running_look|].
  intros [|]; [intros s Hs; by exists s, true|exact IH].
Qed.
Lemma running_wait polls s : running s → running (wait_interruptible encoded_len identity mode polls s).1.
Proof.
  revert s. induction polls as [|poll polls IH]; intros s Hs; simpl; [done|].
  pose proof (running_look poll s Hs) as Hl. unfold mbind, cycle_bind.
  destruct (look _ _ _ poll s) as [s1 [[|]|e]]; simpl in *; try done. by apply IH.
Qed.

(** ** The session's operations on a running request *)
Lemma running_in_session {A} (t : Tx A) s s' a :
  in_session encoded_len identity lease t s = Ok (s', a) → t s = Ok (s', a).
Proof. unfold in_session. intros Hu. by inv_ok. Qed.

Definition keeps_running {A} (t : Tx A) : Prop := ∀ s s' a, running s → t s = Ok (s', a) → running s'.
Lemma keeps_returns {A} (t : Tx A) :
  keeps_running t → returns running (try_tx (in_session encoded_len identity lease t)) (λ _, running).
Proof.
  intros Hk. apply returns_try_tx. intros s Hs.
  destruct (in_session _ _ _ t s) as [[s' a]|e] eqn:Hu; [|done]. apply running_in_session in Hu. by eapply Hk.
Qed.

Lemma recovery_keeps : keeps_running (record_inbox_recovery_locked encoded_len now identity).
Proof.
  intros s s' st Hr Hu. apply update_status_Ok in Hu as (u & Hu).
  eapply running_update; [exact Hr|exact Hu|by intros [= <- _]|done|eauto].
Qed.
Lemma failure_keeps : keeps_running (record_inbox_failure_locked encoded_len now identity).
Proof.
  intros s s' st Hr Hu. apply update_status_Ok in Hu as (u & Hu).
  eapply (running_update (λ r, touch now (set_failures _ r))); [exact Hr|exact Hu|by intros [= <- _]|done|eauto].
Qed.
Lemma spawned_keeps pid start_id :
  keeps_running (mark_spawned_locked encoded_len now identity (rl_message_id launch) pid start_id).
Proof.
  intros s s' st Hr Hu. unfold mark_spawned_locked in Hu. inv_ok. apply update_status_Ok in Hu as (u & Hu).
  destruct (ru_active s Hr) as (act & Ha & Hid).
  eapply (running_update (touch now ∘ set_active (Some (spawn_active now pid start_id act))));
    [exact Hr|exact Hu| |done|].
  - cbv beta. rewrite Ha. simpl. intros Hf. by inv_ok.
  - intros act' Ha' Hid'. simplify_eq. by eexists.
Qed.

Lemma pin_valid s a :
  validate_state s = Ok tt → rt_active (st_runtime s) = Some a →
  validate_state (on_runtime (pin now DeliveryUnknown a) s) = Ok tt.
Proof.
  intros Hv Ha. apply validate_state_Ok in Hv as [Hb Hw Hc Hq Hact _ Ht]. apply validate_state_Ok.
  split; simpl; try done.
  - intros w Hwait. specialize (Hw w Hwait). unfold validate_wait in Hw. rewrite Ha in Hw. by inv_ok.
  - intros c Hch. specialize (Hc c Hch). unfold validate_scope_change, record_anchored in *. simpl. by rewrite Ha in Hc.
  - intros act [= <-]. specialize (Hact a Ha). unfold validate_active in *. simpl.
    rewrite !then_Ok in Hact. rewrite !then_Ok. by destruct Hact as (? & ? & ? & ? & ? & ? & _).
Qed.

Lemma elem_of_touch_completed completed id : id ∈ touch_completed completed id.
Proof.
  unfold touch_completed. set (l := filter _ completed). cbv zeta. destruct (_ <? _) eqn:Hlt; [|set_solver].
  rewrite drop_app_le; [set_solver|]. unfold zlen, MAX_COMPLETED in *. rewrite length_app. simpl. lia.
Qed.

Lemma finish_terminal terminal id s :
  rt_last_terminal (st_runtime (on_runtime (finish_state now terminal id) s))
  = Some (mkLastTerminal (ms_kind terminal) (ms_message_id terminal) now).
Proof. destruct s as [? ? ? []]. simpl. unfold finish_state. simpl. by repeat case_match. Qed.

(** Looking for the reply that ends the request: it goes on running, or has ended by it. *)
Lemma observe_returns request messages expected :
  returns running
    (try_tx (in_session encoded_len identity lease
       (observe_terminals_locked encoded_len now identity request messages expected)))
    (λ r s, match r with
            | Ok (Some _) => ∃ terminal, ended_by request terminal expected s
            | _ => running s
            end).
Proof.
  apply returns_try_tx. intros s Hs.
  destruct (in_session _ _ _ _ s) as [[s' st]|e] eqn:Hu; [|done]. apply running_in_session in Hu.
  unfold observe_terminals_locked in Hu. inv_ok. rename H6 into Hup.
  destruct (running_written _ _ _ _ Hs Hup) as [Hf Hload]. clear Hup.
  destruct (ru_active s Hs) as (act & Ha & Hid & Hses). rewrite Ha in Hf. simpl in Hf. inv_ok.
  destruct (find _ messages) as [terminal|] eqn:Hfind; inv_ok; [|done].
  exists terminal. apply find_some in Hfind as [_ Hterm].
  destruct (load_Ok _ _ _ _ (ru_load s Hs)) as (_ & _ & Hagent & _). rewrite Hagent, Hid in Hterm.
  pose proof (finish_queue now terminal (ac_message_id act) s) as Hq. rewrite Hid in *.
  repeat split; [by rewrite finish_active| | |by rewrite finish_terminal|done].
  - apply (f_equal q_done) in Hq. simpl in Hq. simpl. rewrite Hq. apply elem_of_touch_completed.
  - apply (f_equal q_waiting) in Hq. simpl in Hq. simpl. rewrite Hq, list_elem_of_filter. naive_solver.
Qed.

(** ** The code after the checkpoint *)
Context (fits : ∀ s, validate_state s = Ok tt → encoded_len s ≤ MAX_STATE_BYTES).
Context (owned : ∀ s, load_unlocked encoded_len identity s = Ok s → validate_lease encoded_len identity lease s = Ok tt).

Lemma delivery_unknown_returns :
  returns running (delivery_unknown encoded_len now identity lease launch)
    (λ r s, r = CycleNeedsAttention ∧ delivery_pinned s).
Proof using fits owned.
  intros s Hs. destruct (ru_active s Hs) as (a & Ha & Hid & Hses).
  destruct (load_Ok _ _ _ _ (ru_load s Hs)) as (_ & Hv & Hagent & Hgen).
  pose proof (pin_valid s a Hv Ha) as Hpin.
  exists (on_runtime (pin now DeliveryUnknown a) s), CycleNeedsAttention.
  split; [|split; [done|]; split; [done|]; by exists (pin_active a)].
  assert (load_unlocked encoded_len identity (on_runtime (pin now DeliveryUnknown a) s)
          = Ok (on_runtime (pin now DeliveryUnknown a) s)) as Hload by (apply load_written; auto).
  pose proof (proj1 (validate_state_Ok s) Hv) as [_ _ _ _ Hact _ _]. specialize (Hact a Ha).
  unfold validate_active in Hact. rewrite !then_Ok in Hact. destruct Hact as (Hh & Hsid & _).
  assert (is_valid_hash (ac_message_id a) = true) as Hhash by (clear Hsid; by inv_ok).
  unfold delivery_unknown, mbind, cycle_bind, tx, in_session. rewrite (owned s (ru_load s Hs)). simpl.
  unfold record_delivery_unknown_locked. rewrite <-Hid, <-Hses. rewrite Hhash. simpl. rewrite Hsid. simpl.
  unfold update_status, update. rewrite (ru_load s Hs). simpl. rewrite (ru_attention s Hs). simpl. rewrite Ha. simpl.
  rewrite !bool_decide_true by done. simpl. unfold write_unlocked. rewrite Hpin. simpl.
  rewrite (proj2 (Z.leb_le _ _) (fits _ Hpin)). simpl. unfold status. by rewrite Hload.
Qed.

Lemma await_remote_returns {A} deadline (wait : Await A) :
  returns running (await_remote encoded_len identity mode deadline wait) (λ _, running).
Proof using.
  unfold await_remote. destruct deadline.
  - eapply cycle_returns_bind; [apply (returns_unwrap_or running _ _ running), running_look|].
    intros stop s Hs. by eexists s, _.
  - eapply cycle_returns_bind; [apply stopped_by_returns|]. intros stop s Hs. by eexists s, _.
Qed.

Lemma run_configured_process_returns os :
  pa_wrapper os = true →
  returns running (run_configured_process encoded_len now identity lease mode launch os) (λ _, running).
Proof using.
  intros Hw. unfold run_configured_process. rewrite Hw. simpl.
  assert (∀ outcome, returns running (mret (M:=Cycle) outcome) (λ (_ : ProcessOutcome), running)) as Hret
    by (intros outcome s Hs; by exists s, outcome).
  destruct (_ || _); [apply Hret|]. destruct (pa_pid os) as [pid|]; [|apply Hret].
  destruct (negb _); [apply Hret|].
  eapply cycle_returns_bind; [apply (returns_unwrap_or running _ _ running), running_look|].
  intros [|]; [apply Hret|]. eapply cycle_returns_bind; [apply keeps_returns, spawned_keeps|].
  intros spawned. destruct (_ || _); [apply Hret|]. destruct (negb _); [apply Hret|].
  eapply (cycle_returns_bind _ _ (λ _, running)); [eapply cycle_returns_bind; [apply stopped_by_returns|]|].
  - intros stop s Hs. exists s. eexists. split; [done|]. exact Hs.
  - intros [outcome|]; [apply Hret|]. eapply cycle_returns_bind; [apply stopped_by_returns|].
    intros stop s Hs. exists s. eexists. split; [done|]. exact Hs.
Qed.

(** ** The calls made while completing

    Every send that may have been published is the last call; the ones before were refused. *)
Section completion.
Context (remote : Remote) (deadline : bool) (request : AgentMessage) (agent : string) (outcome : ProcessOutcome).
Context (expected : option string).
Local Notation fallback := (fallback request agent outcome expected).

Definition is_send (c : RemoteCall) : bool := match c with CallSend _ _ _ => true | CallRead => false end.
Definition count (p : RemoteCall → bool) (calls : list RemoteCall) : nat := length (List.filter p calls).
Definition refused (c : RemoteCall) : Prop :=
  match c with
  | CallRead => True
  | CallSend _ input o => input = fallback ∧ ∃ current, o = Completed (Ok (Conflict current))
  end.
Definition open_calls (sends reads : nat) (calls : list RemoteCall) : Prop :=
  (count is_send calls ≤ sends)%nat ∧ (count (negb ∘ is_send) calls ≤ reads)%nat ∧ Forall refused calls.
Definition closed_calls (calls : list RemoteCall) : Prop :=
  (count is_send calls ≤ FALLBACK_CAS_ATTEMPTS)%nat
  ∧ (count (negb ∘ is_send) calls ≤ TERMINAL_READ_ATTEMPTS * (FALLBACK_CAS_ATTEMPTS + 1))%nat
  ∧ ∃ before last, calls = before ++ last ∧ Forall refused before
      ∧ (last = [] ∨ ∃ head o, last = [CallSend head fallback o]).

Lemma count_snoc p calls c : count p (calls ++ [c]) = (count p calls + if p c then 1 else 0)%nat.
Proof using. unfold count. rewrite List.filter_app, length_app. simpl. destruct (p c); simpl; lia. Qed.
Lemma open_closed sends reads calls :
  (sends ≤ FALLBACK_CAS_ATTEMPTS)%nat → (reads ≤ TERMINAL_READ_ATTEMPTS * (FALLBACK_CAS_ATTEMPTS + 1))%nat →
  open_calls sends reads calls → closed_calls calls.
Proof using.
  intros Hs Hr (Hcs & Hcr & Href). split; [lia|]. split; [lia|]. exists calls, []. rewrite app_nil_r. auto.
Qed.
Lemma open_read sends reads calls : open_calls sends reads calls → open_calls sends (S reads) (calls ++ [CallRead]).
Proof using.
  intros (Hcs & Hcr & Href). unfold open_calls. rewrite !count_snoc. simpl. split; [lia|]. split; [lia|].
  apply Forall_app. split; [done|]. by repeat constructor.
Qed.
Lemma open_weaken sends reads sends' reads' calls :
  (sends ≤ sends')%nat → (reads ≤ reads')%nat → open_calls sends reads calls → open_calls sends' reads' calls.
Proof using. intros ? ? (? & ? & ?). split; [lia|]. split; [lia|done]. Qed.

Definition live (sends reads : nat) (w : World) : Prop := open_calls sends reads (w_calls w) ∧ running (w_disk w).
Definition settled (r : CycleOutcome) (w : World) : Prop :=
  closed_calls (w_calls w)
  ∧ (r = CycleCompleted ∧ (∃ terminal, ended_by request terminal expected (w_disk w))
     ∨ r = CycleNeedsAttention ∧ delivery_pinned (w_disk w)).

Lemma live_unknown (C : list RemoteCall → Prop) :
  returns (λ w, C (w_calls w) ∧ running (w_disk w)) (on_disk (delivery_unknown encoded_len now identity lease launch))
    (λ r w, C (w_calls w) ∧ r = CycleNeedsAttention ∧ delivery_pinned (w_disk w)).
Proof using fits owned. apply (returns_on_disk _ _ (λ r s, r = CycleNeedsAttention ∧ delivery_pinned s)), delivery_unknown_returns. Qed.
Lemma live_try {A} (t : Tx A) sends reads :
  keeps_running t →
  returns (live sends reads) (on_disk (try_tx (in_session encoded_len identity lease t))) (λ _, live sends reads).
Proof using. intros Hk. apply (returns_on_disk running _ (λ _, running)), keeps_returns, Hk. Qed.

Definition read_post (sends reads : nat) (r : TerminalReadOutcome) (w : World) : Prop :=
  open_calls sends reads (w_calls w)
  ∧ match r with Batch _ => running (w_disk w) | ReadNeedsAttention => delivery_pinned (w_disk w) end.

Lemma stop_reading_returns sends reads :
  returns (live sends reads) (stop_reading encoded_len now identity lease launch) (read_post sends reads).
Proof using fits owned.
  eapply returns_bind; [apply live_unknown|]. intros r w (Hc & _ & Hp). by exists w, ReadNeedsAttention.
Qed.
Lemma await_read_returns sends reads :
  returns (live sends reads) (await_read encoded_len identity mode remote deadline) (λ _, live sends (S reads)).
Proof using.
  intros [calls disk] [Hc Hr]. unfold await_read. simpl in *.
  destruct (await_remote_returns deadline (rm_read remote calls) disk Hr) as (disk' & a & -> & Hr').
  eexists _, a. split; [done|]. split; [by apply open_read|done].
Qed.

Lemma read_terminal_returns attempts sends reads :
  (0 < attempts)%nat →
  returns (live sends reads) (read_terminal_from encoded_len now identity lease mode remote launch deadline attempts)
    (read_post sends (reads + attempts)).
Proof using fits owned.
  revert reads. induction attempts as [|attempts IH]; intros reads Hpos; [lia|]. simpl.
  assert (∀ a, returns (live sends (S reads)) (stop_reading encoded_len now identity lease launch)
                 (read_post sends (reads + S a))) as Hstop.
  { intros a. eapply returns_weaken; [apply stop_reading_returns|done|].
    intros r w [Hc Hp]. split; [|done]. eapply open_weaken; [..|exact Hc]; lia. }
  eapply returns_bind; [apply await_read_returns|]. intros [[result|e]|]; [| |apply Hstop].
  - eapply returns_bind; [apply live_try, recovery_keeps|]. intros recorded. destruct (is_ok recorded); [|apply Hstop].
    intros w [Hc Hr]. exists w, (Batch result). split; [done|]. split; [|done].
    eapply open_weaken; [..|exact Hc]; lia.
  - eapply returns_bind; [apply live_try, failure_keeps|]. intros recorded.
    destruct (_ || _ || _) eqn:Hlast; [apply Hstop|]. to_prop.
    eapply (returns_bind _ _ (λ _, live sends (S reads))).
    + intros [calls disk] [Hc Hr]. unfold await_backoff, on_disk, cycle_unwrap_or. simpl in *.
      pose proof (running_wait (rm_backoff remote calls) disk Hr) as Hr'.
      destruct (wait_interruptible _ _ _ _ disk) as [disk' r]. by eexists _, _.
    + intros [|]; [apply Hstop|]. rewrite <-Nat.add_succ_comm. apply IH. lia.
Qed.
Lemma read_terminal_batch_returns sends reads :
  returns (live sends reads) (read_terminal_batch encoded_len now identity lease mode remote launch deadline)
    (read_post sends (reads + TERMINAL_READ_ATTEMPTS)).
Proof using fits owned. apply read_terminal_returns. unfold TERMINAL_READ_ATTEMPTS. lia. Qed.

Definition settle_post (sends reads : nat) (r : CycleOutcome + string) (w : World) : Prop :=
  match r with
  | inl outcome => settled outcome w
  | inr _ => live sends reads w
  end.
Lemma settle_batch_returns sends reads read :
  (sends ≤ FALLBACK_CAS_ATTEMPTS)%nat → (reads ≤ TERMINAL_READ_ATTEMPTS * (FALLBACK_CAS_ATTEMPTS + 1))%nat →
  returns (read_post sends reads read)
    (settle_batch encoded_len now identity lease launch request expected read) (settle_post sends reads).
Proof using fits owned.
  intros Hs Hr. assert (∀ calls, open_calls sends reads calls → closed_calls calls) as Hclosed
    by (intros calls; by apply open_closed).
  destruct read as [batch|]; simpl.
  - assert (returns (live sends reads)
      (gave_up ← on_disk (delivery_unknown encoded_len now identity lease launch); mret (inl gave_up))
      (settle_post sends reads)) as Hunk.
    { eapply returns_bind; [apply live_unknown|]. intros r w (Hc & -> & Hp). eexists w, _. split; [done|].
      split; [by apply Hclosed|]. by right. }
    destruct (ai_cursor_reset batch); [exact Hunk|].
    eapply returns_bind; [apply (returns_on_disk running _ _ _ (observe_returns request (ai_messages batch) expected))|].
    intros [[st|]|e]; [| |exact Hunk].
    + intros w [Hc Hend]. eexists w, _. split; [done|]. split; [by apply Hclosed|]. by left.
    + intros w Hw. by eexists w, _.
  - intros w [Hc Hp]. eexists w, _. split; [done|]. split; [by apply Hclosed|]. by right.
Qed.

(** A send from an open history: refused, the history stays open; otherwise the send is its last call. *)
Definition send_post (sends reads : nat) (o : RemoteOutcome (Result HeadConditionalSendResult)) (w : World) : Prop :=
  running (w_disk w)
  ∧ match o with
    | Completed (Ok (Conflict _)) => open_calls (S sends) reads (w_calls w)
    | _ => closed_calls (w_calls w)
    end.
Lemma await_send_returns head sends reads :
  (sends < FALLBACK_CAS_ATTEMPTS)%nat → (reads ≤ TERMINAL_READ_ATTEMPTS * (FALLBACK_CAS_ATTEMPTS + 1))%nat →
  returns (live sends reads) (await_send encoded_len identity mode remote deadline head fallback) (send_post sends reads).
Proof using.
  intros Hs Hrd [calls disk] [(Hcs & Hcr & Href) Hr]. unfold await_send. simpl in *.
  destruct (await_remote_returns deadline (rm_send remote calls head fallback) disk Hr) as (disk' & o & -> & Hr').
  eexists _, o. split; [done|]. split; [done|]. simpl.
  assert (closed_calls (calls ++ [CallSend head fallback o])) as Hclosed.
  { unfold closed_calls. rewrite !count_snoc. simpl. split; [lia|]. split; [lia|]. eauto 10. }
  destruct o as [[[sent|current]|e]|]; try done. unfold open_calls. rewrite !count_snoc. simpl. split; [lia|].
  split; [lia|]. apply Forall_app. split; [done|]. constructor; [|done]. simpl. eauto.
Qed.

Lemma publish_fallback_returns attempts head sends reads :
  (0 < attempts)%nat → (sends + attempts = FALLBACK_CAS_ATTEMPTS)%nat →
  (reads = TERMINAL_READ_ATTEMPTS * (sends + 1))%nat →
  returns (live sends reads)
    (publish_fallback_from encoded_len now identity lease mode remote launch deadline request agent outcome expected
       attempts head) settled.
Proof using fits owned.
  revert head sends reads. induction attempts as [|attempts IH]; intros head sends reads Hpos Hsum Hreads; [lia|]. simpl.
  assert (∀ C : list RemoteCall → Prop, (∀ calls, C calls → closed_calls calls) →
    returns (λ w, C (w_calls w) ∧ running (w_disk w)) (on_disk (delivery_unknown encoded_len now identity lease launch))
      settled) as Hunk.
  { intros C HC. eapply returns_weaken; [apply (live_unknown C)|done|]. intros r w (Hc & -> & Hp).
    split; [by apply HC|]. by right. }
  assert (reads ≤ TERMINAL_READ_ATTEMPTS * (FALLBACK_CAS_ATTEMPTS + 1))%nat as Hrb by (unfold TERMINAL_READ_ATTEMPTS in *; lia).
  destruct (bool_decide (head = "")).
  { apply (Hunk (open_calls sends reads)). intros calls. apply open_closed; lia. }
  assert (∀ o, (∀ c, o ≠ Completed (Ok (Conflict c))) →
    returns (send_post sends reads o) (on_disk (delivery_unknown encoded_len now identity lease launch)) settled) as Hlast.
  { intros o Ho. eapply returns_weaken; [apply (Hunk closed_calls); done| |done].
    intros w [Hr Hc]. split; [|done]. destruct o as [[[]|]|]; naive_solver. }
  eapply returns_bind; [apply await_send_returns; lia|].
  intros [[[sent|current]|e]|]; [| |by apply Hlast|by apply Hlast].
  - eapply (returns_bind _ _ (λ r w, closed_calls (w_calls w) ∧ match r with
      | Ok (Some _) => ∃ terminal, ended_by request terminal expected (w_disk w) | _ => running (w_disk w) end)).
    + eapply returns_weaken; [apply (returns_on_disk running _ _ closed_calls (observe_returns request _ expected))| |intros r w Hq; exact Hq].
      intros w [Hr Hc]. exact (conj Hc Hr).
    + intros [[st|]|e]; [|by apply (Hunk closed_calls)..].
      intros w [Hc Hend]. eexists w, _. split; [done|]. split; [done|]. by left.
  - eapply returns_bind;
      [eapply returns_weaken; [apply (read_terminal_batch_returns (S sends) reads)|intros w [? ?]; by split|done]|].
    intros reread. eapply returns_bind; [apply settle_batch_returns; unfold TERMINAL_READ_ATTEMPTS in *; lia|].
    intros [o|cursor].
    + intros w Hw. by eexists w, _.
    + destruct (_ || _ || _) eqn:Hstop.
      * apply (Hunk (open_calls (S sends) (reads + TERMINAL_READ_ATTEMPTS))).
        intros calls. apply open_closed; unfold TERMINAL_READ_ATTEMPTS in *; lia.
      * to_prop. apply IH; unfold TERMINAL_READ_ATTEMPTS in *; lia.
Qed.

Lemma complete_request_with_remote_returns :
  returns (live 0 0)
    (complete_request_with_remote encoded_len now identity lease mode remote launch deadline request agent outcome expected)
    settled.
Proof using fits owned.
  eapply returns_bind; [apply read_terminal_batch_returns|]. intros read.
  eapply returns_bind; [apply settle_batch_returns; unfold TERMINAL_READ_ATTEMPTS, FALLBACK_CAS_ATTEMPTS; lia|].
  intros [o|cursor]; [intros w Hw; by eexists w, _|].
  apply publish_fallback_returns; unfold TERMINAL_READ_ATTEMPTS, FALLBACK_CAS_ATTEMPTS; lia.
Qed.
End completion.

Lemma complete_request_returns request outcome co :
  returns (λ w, w_calls w = [] ∧ running (w_disk w))
    (complete_request encoded_len now identity lease config mode launch request outcome co)
    (settled request (rc_agent config) outcome (expected_result_snapshot (co_flush co))).
Proof using fits owned.
  intros [calls disk] [Hc Hr]. simpl in Hc. subst calls. simpl in Hr. unfold complete_request. simpl.
  assert (closed_calls request (rc_agent config) outcome (expected_result_snapshot (co_flush co)) []) as Hcl.
  { split; [apply Nat.le_0_l|]. split; [apply Nat.le_0_l|]. exists [], []. auto. }
  assert (∀ disk', running disk' → ∃ w a, on_disk (delivery_unknown encoded_len now identity lease launch) (mkWorld [] disk')
    = (w, Ok a) ∧ settled request (rc_agent config) outcome (expected_result_snapshot (co_flush co)) a w) as Hunk.
  { intros disk' Hr'. destruct (live_unknown (λ calls, calls = []) (mkWorld [] disk') (conj eq_refl Hr'))
      as (w & a & He & Hcalls & -> & Hp). exists w, CycleNeedsAttention. split; [done|]. split; [by rewrite Hcalls|by right]. }
  assert (running (cancellation_completion_deadline encoded_len identity mode outcome (co_cancel co) disk).1) as Hr1.
  { unfold cancellation_completion_deadline. destruct (negb _); [done|]. by apply running_look. }
  destruct (cancellation_completion_deadline _ _ _ _ _ _) as [disk1 [deadline|e]]; [|by apply Hunk].
  destruct (negb _); [by apply Hunk|]. apply complete_request_with_remote_returns.
  split; [|done]. split; [apply Nat.le_0_l|]. split; [apply Nat.le_0_l|]. constructor.
Qed.
End settle.

(** ** From the checkpoint *)
Section started.
Context `{Unicode, Blake3, WorkJson} (encoded_len : RunnerState → Z) (invocation_len : RunnerInvocation → Z).
Context (now : Z) (identity lease : RunnerIdentity) (config : RunnerConfig) (mode : RunnerExecutionMode).
Local Notation run_cycle := (run_cycle encoded_len invocation_len now identity lease config mode).
Local Notation finish_cycle := (finish_cycle encoded_len now identity lease config mode).

Lemma began_running session cursor accepted disk disk' launch :
  in_session encoded_len identity lease (begin_next_locked encoded_len now session identity mode cursor accepted) disk
  = Ok (disk', launch) →
  running encoded_len identity launch disk'
  ∧ ∀ s, load_unlocked encoded_len identity s = Ok s → validate_lease encoded_len identity lease s = Ok tt.
Proof.
  intros Hb. unfold in_session in Hb. inv_ok. rename H2 into Hlease. split.
  - unfold begin_next_locked in Hb. inv_ok. inv_update Hb. inv_ok. to_prop. subst. split; simpl; [|done|by eexists].
    by apply load_written.
  - intros s Hs. unfold validate_lease in *. rewrite Hs. simpl. inv_ok. match goal with Ho : _ = true |- _ => by rewrite Ho end.
Qed.
Lemma cycle_running answers disk disk' launch request invocation :
  run_cycle answers disk = (disk', Ok (Started launch request invocation)) →
  running encoded_len identity launch disk'
  ∧ ∀ s, load_unlocked encoded_len identity s = Ok s → validate_lease encoded_len identity lease s = Ok tt.
Proof.
  intros (current & d1 & d2 & admission & _ & _ & Hdec)%run_cycle_started. unfold decide_next in Hdec.
  destruct admission as [d| |message_id reason|].
  - apply start_began in Hdec as [Hb _]. by eapply began_running.
  - apply start_began in Hdec as [Hb _]. by eapply began_running.
  - apply cycle_bind_Ok in Hdec as (d3 & a & _ & Hdec). by injection Hdec.
  - by injection Hdec.
Qed.

(** C11. Every started request is settled, as long as the runner's state file can be written. Once a
    cycle has taken the launch checkpoint, whatever the operating system, the process, the final
    flush and the remote answer, in whatever order, and whenever the runner is disabled or shut down
    meanwhile, the rest of the cycle returns. If a process is to be started and the startup wrapper is
    not found, it returns that error, having called nothing and left the state file as it was, with
    the request active. Otherwise it returns without an error: either the request is completed, out of
    the queue and remembered, by a reply of this agent to its sender that is blocked or is a result
    naming exactly the snapshot the final flush settled on; or it stays active, pinned as ambiguous,
    and the state asks for the operator. At most 4 blocked replies are sent and 25 reads made, and a
    send that is not refused by a newer head is the last call of all, so that at most one of them can
    have been published. Assumed: validated states fit their file, and no write of it fails. *)
Theorem started_request_settles answers disk disk1 launch request invocation os co :
  (∀ s, validate_state s = Ok tt → encoded_len s ≤ MAX_STATE_BYTES) →
  run_cycle answers disk = (disk1, Ok (Started launch request invocation)) →
  (is_Some invocation ∧ pa_wrapper os = false
   ∧ finish_cycle launch request invocation os co (mkWorld [] disk1) = (mkWorld [] disk1, Err "locate feanorfs startup wrapper")
   ∧ running encoded_len identity launch disk1) ∨
  ∃ w outcome r, finish_cycle launch request invocation os co (mkWorld [] disk1) = (w, Ok r)
    ∧ closed_calls request (rc_agent config) outcome (expected_result_snapshot (co_flush co)) (w_calls w)
    ∧ (r = CycleCompleted
         ∧ (∃ terminal, ended_by now identity launch request terminal (expected_result_snapshot (co_flush co)) (w_disk w))
       ∨ r = CycleNeedsAttention ∧ delivery_pinned launch (w_disk w)).
Proof.
  intros Hfits Hrun. destruct (cycle_running _ _ _ _ _ _ Hrun) as [Hr Howned]. unfold RunnerFinish.finish_cycle.
  destruct invocation as [inv|].
  - destruct (pa_wrapper os) eqn:Hw.
    2: { left. split; [done|]. split; [done|]. split; [|done]. unfold mbind, finish_bind, on_disk, RunnerFinish.run_configured_process. by rewrite Hw. }
    destruct (run_configured_process_returns encoded_len now identity lease mode launch os Hw disk1 Hr)
      as (disk2 & outcome & Hp & Hr2).
    destruct (complete_request_returns encoded_len now identity lease config mode launch Hfits Howned request outcome co
      (mkWorld [] disk2) (conj eq_refl Hr2)) as (w & r & Hc & Hs).
    right. exists w, outcome, r. split; [|exact Hs]. unfold mbind, finish_bind, on_disk. simpl. by rewrite Hp.
  - destruct (complete_request_returns encoded_len now identity lease config mode launch Hfits Howned request StartFailure co
      (mkWorld [] disk1) (conj eq_refl Hr)) as (w & r & Hc & Hs).
    right. by exists w, StartFailure, r.
Qed.
End started.

(** ** A concrete end

    The process exits without a reply; the first read of the terminal fails, the second finds
    none; the first blocked reply is refused by a newer head, the second is published. *)
#[local] Instance finish_unicode : Unicode := launch_unicode.
#[local] Instance finish_json : WorkJson := launch_json.
#[local] Instance finish_blake3 : Blake3 := launch_blake3.
Definition calm : Poll := mkPoll None false.
Definition soon {A} (a : A) : Await A := mkAwait calm [] true a.
Definition exits : ProcessAnswers :=
  mkProcessAnswers true true true true (Some 77) "boot-77" true calm true true (soon (Some true)) (soon (Some (Ok tt))).
Definition head_after (calls : list RemoteCall) : string :=
  if existsb is_send calls then repeat_id "e" else repeat_id "d".
Definition busy_remote : Remote :=
  mkRemote
    (λ calls, soon (match calls with [] => Err "offline" | _ => Ok (mkAgentInboxResult (head_after calls) false []) end))
    (λ calls _ _, soon (Ok (if existsb is_send calls then Sent (mkAgentSendResult (repeat_id "f") (repeat_id "c"))
                            else Conflict (Some (repeat_id "e")))))
    (λ _, [calm]).
Definition quiet_end : CompletionAnswers := mkCompletionAnswers calm None true busy_remote.

(** The statement applied to that end: the request is completed by the second blocked reply. *)
Lemma started_request_settles_witness :
  ∃ disk1 launch invocation w,
    ann_cycle = (disk1, Ok (Started launch work_request (Some invocation)))
    ∧ finish_cycle any_len 5 ann_identity ann_identity (st_config enforced_runner) Foreground launch work_request
        (Some invocation) exits quiet_end (mkWorld [] disk1) = (w, Ok CycleCompleted)
    ∧ count is_send (w_calls w) = 2%nat
    ∧ rt_active (st_runtime (w_disk w)) = None.
Proof.
  destruct ann_cycle as [disk1 step] eqn:Hrun.
  assert (∃ launch invocation, step = Ok (Started launch work_request (Some invocation))) as (launch & invocation & ->).
  { vm_compute in Hrun. injection Hrun as _ <-. eexists _, _. vm_compute. reflexivity. }
  destruct (started_request_settles any_len (λ _, 0) 5 ann_identity ann_identity (st_config enforced_runner) Foreground
    launch_answers enforced_runner disk1 launch work_request (Some invocation) exits quiet_end)
    as [(_ & Hw & _)|(w & outcome & r & Hfin & _ & Hend)]; [by intros s _|exact Hrun|discriminate Hw|].
  exists disk1, launch, invocation, w. split; [reflexivity|].
  vm_compute in Hrun. injection Hrun as Hd Hl Hi. subst disk1 launch invocation.
  vm_compute in Hfin. injection Hfin as <- <-.
  split; [vm_compute; reflexivity|]. split; [vm_compute; reflexivity|].
  destruct Hend as [[_ (t & Ha & _)]|[Hr _]]; [exact Ha|discriminate Hr].
Defined.
