(* ===== verification/Backoff.v ===== *)
(** * Retry delays

    client/src/backoff.rs: the exponential backoff policy the watcher, the live controller, the
    runner and the supervisor share. Durations are nanoseconds; an operation that overflows its
    width panics in a debug build, which is the [None] of the model. *)
From Stdlib Require Import ZArith Lia.
From stdpp Require Import numbers list_numbers list options.
From S2P Require Import Prelude.

Local Open Scope Z_scope.

Definition MAX_SHIFT : Z := 127.
Definition U128_MAX : Z := 2 ^ 128 - 1.
Definition NANOS : Z := 1000000000.

Inductive BackoffGrowth := DoublesFromFirstFailure | DoublesFromSecondFailure.
Inductive BackoffReset := Immediate | Base.
Record Jitter := mkJitter { ji_percent : Z }.   (* 0..=100, by its only constructor *)
Record ExponentialBackoff := mkExponentialBackoff {
  eb_base : Z;
  eb_cap : Z;
  eb_max_shift : Z;
  eb_growth : BackoffGrowth;
  eb_reset : BackoffReset;
  eb_jitter : option Jitter;
}.

Definition new (base cap : Z) : ExponentialBackoff :=
  mkExponentialBackoff base cap 6 DoublesFromSecondFailure Immediate None.
Definition with_growth (growth : BackoffGrowth) (p : ExponentialBackoff) : ExponentialBackoff :=
  mkExponentialBackoff (eb_base p) (eb_cap p) (eb_max_shift p) growth (eb_reset p) (eb_jitter p).
Definition with_reset (reset : BackoffReset) (p : ExponentialBackoff) : ExponentialBackoff :=
  mkExponentialBackoff (eb_base p) (eb_cap p) (eb_max_shift p) (eb_growth p) reset (eb_jitter p).
Definition with_max_shift (max_shift : Z) (p : ExponentialBackoff) : ExponentialBackoff :=
  mkExponentialBackoff (eb_base p) (eb_cap p) max_shift (eb_growth p) (eb_reset p) (eb_jitter p).
Definition with_jitter (jitter : option Jitter) (p : ExponentialBackoff) : ExponentialBackoff :=
  mkExponentialBackoff (eb_base p) (eb_cap p) (eb_max_shift p) (eb_growth p) (eb_reset p) jitter.

(** Wrapping arithmetic on u64. *)
Definition wrap64 (z : Z) : Z := z mod 2 ^ 64.
Definition jitter_unit (failures : Z) : Z :=
  let z := wrap64 (failures + 0x9E3779B97F4A7C15) in
  let z := wrap64 (Z.lxor z (Z.shiftr z 30) * 0xBF58476D1CE4E5B9) in
  let z := wrap64 (Z.lxor z (Z.shiftr z 27) * 0x94D049BB133111EB) in
  let z := Z.lxor z (Z.shiftr z 31) in
  Z.shiftr z 32.

Definition checked_mul_u128 (a b : Z) : option Z := if a * b <=? U128_MAX then Some (a * b) else None.
Definition jitter_apply (j : Jitter) (delay_nanos failures : Z) : option Z :=
  if ji_percent j =? 0 then Some delay_nanos else
  product ← checked_mul_u128 delay_nanos (ji_percent j);
  product ← checked_mul_u128 product (jitter_unit failures);
  Some (Z.min (delay_nanos + product / (100 * 2 ^ 32)) U128_MAX).

Definition shift (p : ExponentialBackoff) (failures : Z) : Z :=
  Z.min (match eb_growth p with
         | DoublesFromFirstFailure => Z.min failures (eb_max_shift p)
         | DoublesFromSecondFailure => Z.min (Z.max 0 (failures - 1)) (eb_max_shift p)
         end) MAX_SHIFT.

(** [Duration::from_nanos(.. as u64)]: the cast keeps the low 64 bits. *)
Definition delay (p : ExponentialBackoff) (failures : Z) : option Z :=
  if failures =? 0 then
    Some (match eb_reset p with Immediate => 0 | Base => Z.min (eb_base p) (eb_cap p) end)
  else
    let nanos := Z.min (eb_base p * 2 ^ shift p failures) U128_MAX in
    nanos ← match eb_jitter p with Some j => jitter_apply j nanos failures | None => Some nanos end;
    Some (wrap64 (Z.min nanos (eb_cap p))).

(** The policies of the four callers. *)
Definition WATCH_BACKOFF : ExponentialBackoff :=
  with_reset Immediate (with_growth DoublesFromFirstFailure (new (5 * NANOS) (300 * NANOS))).
Definition LIVE_BACKOFF : ExponentialBackoff :=
  with_reset Base (with_growth DoublesFromFirstFailure (new (1 * NANOS) (60 * NANOS))).
Definition RUNNER_BACKOFF : ExponentialBackoff :=
  with_reset Immediate (with_growth DoublesFromSecondFailure (new (1 * NANOS) (60 * NANOS))).
Definition CHILD_RESTART_BACKOFF : ExponentialBackoff :=
  with_reset Base (with_growth DoublesFromSecondFailure (new (1 * NANOS) (60 * NANOS))).

(** ** Bounds *)
Lemma jitter_unit_bound failures : 0 ≤ jitter_unit failures < 2 ^ 32.
Proof.
  unfold jitter_unit. cbv zeta. set (z := wrap64 (Z.lxor _ _ * 0x94D049BB133111EB)).
  assert (0 ≤ z < 2 ^ 64) as Hz by (apply Z.mod_pos_bound; lia).
  assert (0 ≤ Z.lxor z (Z.shiftr z 31) < 2 ^ 64) as Hx.
  { assert (0 ≤ Z.lxor z (Z.shiftr z 31)) as Hn by (apply Z.lxor_nonneg; rewrite Z.shiftr_nonneg; lia).
    split; [done|]. apply Z.bounded_iff_bits_nonneg; [lia|done|]. intros i Hi.
    assert (∀ j, 64 ≤ j → Z.testbit z j = false) as Hbits by (apply Z.bounded_iff_bits_nonneg; lia).
    by rewrite Z.lxor_spec, Z.shiftr_spec, !Hbits by lia. }
  rewrite Z.shiftr_div_pow2 by lia. split; [apply Z.div_pos; lia|]. apply Z.div_lt_upper_bound; lia.
Qed.

(** A policy whose largest delay, with the factors of its jitter, fits the arithmetic. *)
Record reasonable (p : ExponentialBackoff) : Prop := {
  rp_base : 0 ≤ eb_base p;
  rp_cap : 0 ≤ eb_cap p < 2 ^ 64;
  rp_shift : 0 ≤ eb_max_shift p;
  rp_fits : eb_base p * 2 ^ Z.min (eb_max_shift p) MAX_SHIFT * (100 * 2 ^ 32) ≤ U128_MAX;
  rp_percent j : eb_jitter p = Some j → 0 ≤ ji_percent j ≤ 100;
}.

Lemma shift_bound p failures :
  0 ≤ eb_max_shift p → 0 ≤ failures → 0 ≤ shift p failures ≤ Z.min (eb_max_shift p) MAX_SHIFT.
Proof. intros Hm Hf. unfold shift, MAX_SHIFT in *. destruct (eb_growth p); lia. Qed.

Lemma shift_mono p n m : n ≤ m → shift p n ≤ shift p m.
Proof. intros Hnm. unfold shift. destruct (eb_growth p); lia. Qed.

Lemma raw_bound p failures :
  reasonable p → 0 ≤ failures → 0 ≤ eb_base p * 2 ^ shift p failures
  ∧ eb_base p * 2 ^ shift p failures * (100 * 2 ^ 32) ≤ U128_MAX.
Proof.
  intros [Hb _ Hs Hfit _] Hf. pose proof (shift_bound p failures Hs Hf) as Hsh.
  assert (2 ^ shift p failures ≤ 2 ^ Z.min (eb_max_shift p) MAX_SHIFT) as Hpow by (apply Z.pow_le_mono_r; lia).
  assert (0 < 2 ^ shift p failures) by (apply Z.pow_pos_nonneg; lia). nia.
Qed.

Lemma jitter_apply_bounds j d failures :
  0 ≤ ji_percent j ≤ 100 → 0 ≤ d → d * (100 * 2 ^ 32) ≤ U128_MAX →
  ∃ d', jitter_apply j d failures = Some d' ∧ d ≤ d' ≤ d + d * ji_percent j / 100.
Proof.
  intros Hp Hd Hfit. unfold jitter_apply. destruct (Z.eqb_spec (ji_percent j) 0) as [Hz|Hz].
  { exists d. split; [done|]. rewrite Hz, Z.mul_0_r, Z.div_0_l; lia. }
  pose proof (jitter_unit_bound failures) as Hu. unfold checked_mul_u128. set (u := jitter_unit failures) in *.
  assert (0 ≤ d * ji_percent j ≤ d * 100) as H1 by nia.
  assert (0 ≤ d * ji_percent j * u ≤ d * ji_percent j * 2 ^ 32) as H2 by nia.
  change (2 ^ 32) with 4294967296 in *.
  rewrite (proj2 (Z.leb_le (d * ji_percent j) U128_MAX)) by lia. simpl.
  rewrite (proj2 (Z.leb_le (d * ji_percent j * u) U128_MAX)) by lia. simpl.
  assert (d * ji_percent j * u / (100 * 4294967296) ≤ d * ji_percent j / 100) as H3.
  { rewrite (Z.mul_comm 100), <-Z.div_div by lia. apply Z.div_le_mono; [lia|]. apply Z.div_le_upper_bound; lia. }
  assert (0 ≤ d * ji_percent j * u / (100 * 4294967296)) as H4 by (apply Z.div_pos; lia).
  assert (d * ji_percent j / 100 ≤ d) as H5 by (apply Z.div_le_upper_bound; lia).
  eexists. split; [done|]. generalize dependent (d * ji_percent j * u / (100 * 4294967296)). intros extra H3 H4.
  generalize dependent (d * ji_percent j / 100). intros bound H3 H5. clear H1 H2 Hu. lia.
Qed.

(** The backoff contract, for every policy whose arithmetic fits: the delay is always defined;
    before the first failure it is zero or the base, and never more than the cap; after n
    failures it is, without jitter, exactly the base doubled shift(n) times and cut at the cap,
    hence it never decreases as failures accumulate; and with jitter it is at least that, at most
    the configured percentage longer, and still at most the cap. *)
Theorem backoff_contract p n :
  reasonable p → 0 ≤ n →
  ∃ d, delay p n = Some d ∧ 0 ≤ d ≤ eb_cap p
    ∧ (n ≠ 0 → let raw := eb_base p * 2 ^ shift p n in
         Z.min raw (eb_cap p) ≤ d
         ∧ match eb_jitter p with
           | None => d = Z.min raw (eb_cap p)
           | Some j => d ≤ raw + raw * ji_percent j / 100
           end)
    ∧ (eb_jitter p = None → ∀ m d', n ≠ 0 → n ≤ m → delay p m = Some d' → d ≤ d').
Proof.
  intros Hr Hn. pose proof (rp_cap p Hr) as Hcap. pose proof (rp_base p Hr) as Hbase.
  unfold delay. destruct (Z.eqb_spec n 0) as [->|Hn0].
  { eexists. split; [done|]. split; [destruct (eb_reset p); lia|]. split; [done|]. done. }
  destruct (raw_bound p n Hr Hn) as [Hpos Hfit]. set (raw := eb_base p * 2 ^ shift p n) in *.
  assert (Z.min raw U128_MAX = raw) as -> by (unfold U128_MAX in *; lia).
  destruct (eb_jitter p) as [j|] eqn:Hj.
  - destruct (jitter_apply_bounds j raw n (rp_percent p Hr j Hj) Hpos Hfit) as (d' & -> & Hd'). simpl.
    eexists. split; [done|]. unfold wrap64. rewrite Z.mod_small by lia. split; [lia|]. split; [|done]. intros _. lia.
  - simpl. eexists. split; [done|]. unfold wrap64. rewrite Z.mod_small by lia. split; [lia|]. split; [by intros _|].
    intros _ m d' _ Hnm Hd'. destruct (Z.eqb_spec m 0); [lia|].
    destruct (raw_bound p m Hr ltac:(lia)) as [Hpos' Hfit'].
    assert (raw ≤ eb_base p * 2 ^ shift p m) as Hmono.
    { unfold raw. apply Z.mul_le_mono_nonneg_l; [done|]. apply Z.pow_le_mono_r; [lia|]. by apply shift_mono. }
    injection Hd' as <-. rewrite Z.mod_small; unfold U128_MAX in *; lia.
Qed.

(** The statement applied to the runner's policy. *)
Lemma backoff_contract_witness :
  delay RUNNER_BACKOFF 3 = Some (4 * NANOS) ∧ ∃ d, delay RUNNER_BACKOFF 7 = Some d ∧ 0 ≤ d ≤ 60 * NANOS.
Proof.
  split; [vm_compute; reflexivity|].
  destruct (backoff_contract RUNNER_BACKOFF 7) as (d & Hd & Hb & _).
  - split; vm_compute; try discriminate; [split; [discriminate|reflexivity]].
  - lia.
  - exists d. split; [exact Hd|exact Hb].
Defined.

(** The sequences the callers document. *)
Example caller_sequences :
  delay WATCH_BACKOFF <$> seqZ 0 9 = (λ s, Some (s * NANOS)) <$> [0; 10; 20; 40; 80; 160; 300; 300; 300]
  ∧ delay LIVE_BACKOFF <$> seqZ 0 8 = (λ s, Some (s * NANOS)) <$> [1; 2; 4; 8; 16; 32; 60; 60]
  ∧ delay RUNNER_BACKOFF <$> seqZ 0 9 = (λ s, Some (s * NANOS)) <$> [0; 1; 2; 4; 8; 16; 32; 60; 60]
  ∧ delay CHILD_RESTART_BACKOFF <$> seqZ 0 8 = (λ s, Some (s * NANOS)) <$> [1; 1; 2; 4; 8; 16; 32; 60].
Proof. repeat split; vm_compute; reflexivity. Qed.

(** The jitter's product is not saturating: with a large exponent it overflows. *)
Theorem jitter_overflows :
  delay (with_jitter (Some (mkJitter 50)) (with_max_shift 127 (new NANOS (60 * NANOS)))) 100 = None.
Proof. vm_compute. reflexivity. Qed.
