(* ===== verification/Traversal.v ===== *)
(** * The bounded walk of the snapshot graph

    agent-core/src/traversal.rs: one iterative walk from a root over the parents of snapshots,
    with budgets for ids, edges, depth and bytes, shared by the history log, the reachability
    checks of signals and the integrator.  The two traits of the source are type classes: what
    loads a snapshot and what visits it.

    The walk is always run with a node budget below [usize::MAX]; it then ends within the
    [2 ^ 129] iterations given to the loop, and finds a target exactly when it is reachable. *)
From Stdlib Require Import ZArith Lia Ascii Strings.Byte.
From stdpp Require Import sorting numbers strings gmap list_numbers list relations options.
From S2P Require Import Prelude Text Paths Model.

Local Open Scope Z_scope.

Record TraversalBudgets := mkTraversalBudgets {
  node_budget : Z;
  parent_budget : Z;
  depth_budget : Z;
  byte_budget : Z;
}.
Definition unlimited : TraversalBudgets := mkTraversalBudgets USIZE_MAX USIZE_MAX USIZE_MAX USIZE_MAX.
(** [TraversalBudgets { node_budget, ..unlimited() }] *)
Definition with_node_budget (budget : Z) : TraversalBudgets :=
  mkTraversalBudgets budget (parent_budget unlimited) (depth_budget unlimited) (byte_budget unlimited).

Inductive TraversalExhaustion := NodeBudget | ParentBudget | DepthBudget | ByteBudget.
Inductive TraversalOutcome :=
| Stopped (visited : Z)
| Complete (visited : Z)
| Exhausted (reason : TraversalExhaustion) (visited : Z).
Inductive ParentOrder := FirstFirst | LastFirst.
Inductive VisitControl := Continue | Stop.

(** [SnapshotLoader::load] and [TraversalVisitor::visit]. *)
Class SnapshotLoader := load : string → Result Snapshot.
Class TraversalVisitor (V : Type) := visit : V → Snapshot → string → Z → Result (V * VisitControl).

(** [TargetFinder] *)
Record TargetFinder := mkTargetFinder { tf_target : string }.
#[global] Instance TargetFinder_visit : TraversalVisitor TargetFinder := λ finder _ id _,
  Ok (finder, if bool_decide (id = tf_target finder) then Stop else Continue).

Section walk.
Context `{SnapshotLoader} {V : Type} `{TraversalVisitor V}.

(** The local variables of [walk]; the stack is written top first. *)
Record Walk := mkWalk {
  wk_pending : list (string * Z);
  wk_seen : gset string;
  wk_visited : Z;
  wk_loaded_edges : Z;
  wk_id_bytes : Z;
  wk_visitor : V;
}.

(** [pending.extend(..)], the last element on top. *)
Definition push_parents (order : ParentOrder) (parents : list string) (depth : Z) (pending : list (string * Z))
    : list (string * Z) :=
  let queued := (λ id, (id, depth)) <$> parents in
  match order with FirstFirst => queued | LastFirst => reverse queued end ++ pending.

(** The rest of the loop body, once the id is new: load, count edges, visit, push the parents. *)
Definition walk_visit (budgets : TraversalBudgets) (order : ParentOrder) (id : string) (depth id_bytes : Z)
    (pending : list (string * Z)) (seen : gset string) (w : Walk) : step Walk (Result (TraversalOutcome * V)) :=
  match map_err (λ _, "load snapshot during traversal") (load id) with
  | Err e => Done (Err e)
  | Ok snapshot =>
      let loaded_edges := saturating_add (wk_loaded_edges w) (zlen (sn_parents snapshot)) in
      if parent_budget budgets <? loaded_edges
      then Done (Ok (Exhausted ParentBudget (wk_visited w), wk_visitor w)) else
      match visit (wk_visitor w) snapshot id depth with
      | Err e => Done (Err e)
      | Ok (visitor, Stop) => Done (Ok (Stopped (saturating_add (wk_visited w) 1), visitor))
      | Ok (visitor, Continue) =>
          More (mkWalk (push_parents order (sn_parents snapshot) (saturating_add depth 1) pending) seen
                  (saturating_add (wk_visited w) 1) loaded_edges id_bytes visitor)
      end
  end.

(** [while let Some((id, depth)) = pending.pop()] *)
Definition walk_step (budgets : TraversalBudgets) (order : ParentOrder) (w : Walk)
    : step Walk (Result (TraversalOutcome * V)) :=
  match wk_pending w with
  | [] => Done (Ok (Complete (wk_visited w), wk_visitor w))
  | (id, depth) :: pending =>
      if node_budget budgets
         <? saturating_add (saturating_add (Z.of_nat (size (wk_seen w))) (zlen pending)) 1
      then Done (Ok (Exhausted NodeBudget (wk_visited w), wk_visitor w))
      else if depth_budget budgets <? depth then Done (Ok (Exhausted DepthBudget (wk_visited w), wk_visitor w))
      else if bool_decide (id ∈ wk_seen w)
      then More (mkWalk pending (wk_seen w) (wk_visited w) (wk_loaded_edges w) (wk_id_bytes w) (wk_visitor w))
      else
        let id_bytes := saturating_add (wk_id_bytes w) (slen id) in
        if byte_budget budgets <? id_bytes then Done (Ok (Exhausted ByteBudget (wk_visited w), wk_visitor w))
        else walk_visit budgets order id depth id_bytes pending ({[id]} ∪ wk_seen w) w
  end.

Definition walk_result (s : step Walk (Result (TraversalOutcome * V))) : option (Result (TraversalOutcome * V)) :=
  match s with Done r => Some r | More _ => None end.

(** At most [2 ^ k] iterations. *)
Definition walk_within (k : nat) (root : string) (budgets : TraversalBudgets) (order : ParentOrder) (visitor : V)
    : option (Result (TraversalOutcome * V)) :=
  walk_result (iterate k (walk_step budgets order) (mkWalk [(root, 0)] ∅ 0 0 0 visitor)).

Definition walk (root : string) (budgets : TraversalBudgets) (order : ParentOrder) (visitor : V)
    : option (Result (TraversalOutcome * V)) :=
  walk_within 129 root budgets order visitor.

Lemma walk_result_Some s r : walk_result s = Some r → s = Done r.
Proof. destruct s; simpl; congruence. Qed.
End walk.
Arguments Walk : clear implicits.

(** ** Reachability *)
Section reachability.
Context `{SnapshotLoader}.

Definition parent (a b : string) : Prop := ∃ s, load a = Ok s ∧ b ∈ sn_parents s.
Definition reachable_from (a b : string) : Prop := rtc parent a b.

Definition MAX_SIGNAL_SCAN : Z := 10000.

(** [ensure_reachable] of agent-core/src/messages.rs. *)
Definition ensure_reachable (head : option string) (id : string) : option (Result unit) :=
  match head with
  | None => Some (Err "snapshot is not reachable from the workspace head")
  | Some head =>
      if bool_decide (head = id) then Some (Ok tt) else
      outcome ← walk head (with_node_budget MAX_SIGNAL_SCAN) LastFirst (mkTargetFinder id);
      Some ('(outcome, _) ← outcome;
            match outcome with
            | Stopped _ => Ok tt
            | Exhausted _ _ => Err "snapshot is not reachable within the scan bound"
            | Complete _ => Err "snapshot is not reachable from the workspace head"
            end)
  end.
End reachability.

(** ** The walk ends *)
Section termination.
Context `{SnapshotLoader} {V : Type} `{TraversalVisitor V}.
Context (budgets : TraversalBudgets) (order : ParentOrder).
Hypothesis bounded : 0 ≤ node_budget budgets < USIZE_MAX.

Definition walk_measure (w : Walk V) : Z :=
  (node_budget budgets + 1 - Z.of_nat (size (wk_seen w))) * (node_budget budgets + 2)
  + Z.min (zlen (wk_pending w)) (node_budget budgets + 1).
Definition walk_bounded (w : Walk V) : Prop := Z.of_nat (size (wk_seen w)) ≤ node_budget budgets.

(** How an iteration that goes on changes the stack and the ids seen. *)
Lemma walk_step_More w w' :
  walk_step budgets order w = More w' →
  ∃ id depth pending, wk_pending w = (id, depth) :: pending
    ∧ Z.of_nat (size (wk_seen w)) + zlen pending + 1 ≤ node_budget budgets
    ∧ (id ∈ wk_seen w ∧ wk_seen w' = wk_seen w ∧ wk_pending w' = pending ∧ wk_visitor w' = wk_visitor w
       ∨ id ∉ wk_seen w ∧ wk_seen w' = {[id]} ∪ wk_seen w
         ∧ ∃ s, load id = Ok s ∧ visit (wk_visitor w) s id depth = Ok (wk_visitor w', Continue)
                ∧ wk_pending w' = push_parents order (sn_parents s) (saturating_add depth 1) pending).
Proof using bounded.
  unfold walk_step. destruct (wk_pending w) as [|[id depth] pending]; [done|].
  destruct (Z.ltb_spec (node_budget budgets)
    (saturating_add (saturating_add (Z.of_nat (size (wk_seen w))) (zlen pending)) 1)) as [|Hnode]; [done|].
  destruct (_ <? depth); [done|]. intros Hstep. exists id, depth, pending. split; [done|].
  split; [unfold saturating_add in Hnode; lia|].
  case_bool_decide as Hin; [left; by simplify_eq|right]. split; [done|].
  destruct (_ <? saturating_add _ _); [done|]. unfold walk_visit in Hstep.
  destruct (load id) as [s|e] eqn:Hload; [|done]. simpl in Hstep. destruct (_ <? saturating_add _ _); [done|].
  destruct (visit _ s id depth) as [[v []]|e] eqn:Hvisit; simplify_eq/=. split; [done|]. by exists s.
Qed.

Lemma walk_step_bounded w w' : walk_bounded w → walk_step budgets order w = More w' → walk_bounded w'.
Proof using bounded.
  unfold walk_bounded. intros Hb (id & depth & pending & _ & Hnode & [(_ & -> & _)|(Hnew & -> & _)])%walk_step_More;
    [done|]. rewrite size_union, size_singleton by set_solver. pose proof (zlen_nonneg pending). lia.
Qed.

Lemma walk_step_decreases w w' :
  walk_bounded w → walk_step budgets order w = More w' → walk_measure w' < walk_measure w.
Proof using bounded.
  unfold walk_bounded, walk_measure.
  intros Hb (id & depth & pending & -> & Hnode & [(_ & -> & -> & _)|(Hnew & -> & _)])%walk_step_More;
    pose proof (zlen_nonneg pending); rewrite zlen_cons; [lia|].
  rewrite size_union, size_singleton by set_solver. pose proof (zlen_nonneg (wk_pending w')). nia.
Qed.

Lemma walk_total root visitor : ∃ r, walk_within 129 root budgets order visitor = Some r.
Proof using bounded.
  unfold walk_within. destruct (iterate_done (walk_step budgets order) walk_bounded walk_step_bounded walk_measure 129
    (mkWalk [(root, 0)] ∅ 0 0 0 visitor)) as [r ->]; [apply walk_step_decreases|..|by exists r].
  - unfold walk_bounded, walk_measure. intros w Hb. pose proof (zlen_nonneg (wk_pending w)). nia.
  - unfold walk_bounded. cbn [wk_seen]. rewrite size_empty. lia.
  - unfold walk_measure. cbn [wk_seen wk_pending]. rewrite size_empty. change (zlen [(root, 0)]) with 1.
    assert (node_budget budgets < 2 ^ 64) by (unfold USIZE_MAX, U64_MAX in bounded; lia).
    assert (2 ^ 129 = 2 * (2 ^ 64 * 2 ^ 64)) as Hpow by reflexivity. change (Z.of_nat 129) with 129.
    rewrite Hpow. assert (4 ≤ 2 ^ 64) by lia. generalize dependent (2 ^ 64). intros p Hp _ H4.
    assert ((node_budget budgets + 1) * (node_budget budgets + 2) ≤ p * (p + 1)) by (apply Z.mul_le_mono_nonneg; lia).
    assert (4 * p ≤ p * p) by (apply Z.mul_le_mono_nonneg_r; lia). lia.
Qed.
End termination.

(** ** The walk finds its target *)
Section target.
Context `{SnapshotLoader} (budgets : TraversalBudgets) (order : ParentOrder) (root target : string).
Hypothesis bounded : 0 ≤ node_budget budgets < USIZE_MAX.

Record finder_inv (w : Walk TargetFinder) : Prop := {
  fi_seen x : x ∈ wk_seen w → x ≠ target ∧ ∀ y, parent x y → y ∈ wk_seen w ∨ y ∈ (wk_pending w).*1;
  fi_pending x : x ∈ (wk_pending w).*1 → reachable_from root x;
  fi_root : root ∈ wk_seen w ∨ root ∈ (wk_pending w).*1;
  fi_visitor : wk_visitor w = mkTargetFinder target;
}.

Lemma elem_of_push_parents parents depth pending x :
  x ∈ (push_parents order parents depth pending).*1 ↔ x ∈ parents ∨ x ∈ pending.*1.
Proof.
  assert (∀ l : list string, ((λ id, (id, depth)) <$> l).*1 = l) as Hfst.
  { intros l. rewrite <-list_fmap_compose. apply list_fmap_id. }
  unfold push_parents. rewrite fmap_app, elem_of_app.
  destruct order; [by rewrite Hfst|]. rewrite fmap_reverse, elem_of_reverse. by rewrite Hfst.
Qed.

Lemma finder_step_More w w' : finder_inv w → walk_step budgets order w = More w' → finder_inv w'.
Proof using bounded.
  intros [Hseen Hpend Hroot Hv] Hstep.
  destruct (walk_step_More budgets order bounded w w' Hstep)
    as (id & depth & pending & Hp & _ & [(Hin & Hs' & Hp' & Hv')|(Hnew & Hs' & s & Hload & Hvisit & Hp')]);
    rewrite Hp in Hseen, Hpend, Hroot; simpl in Hseen, Hpend, Hroot.
  - split; rewrite ?Hs', ?Hp'; [| | |congruence].
    + intros x Hx. destruct (Hseen x Hx) as [? Hy]. split; [done|]. intros y Hxy. specialize (Hy y Hxy). set_solver.
    + set_solver.
    + set_solver.
  - rewrite Hv in Hvisit. unfold visit, TargetFinder_visit in Hvisit. simpl in Hvisit.
    case_bool_decide as Hne; [done|]. injection Hvisit as Hv'.
    split; rewrite ?Hs', ?Hp'; [| | |done].
    + intros x Hx. apply elem_of_union in Hx as [->%elem_of_singleton|Hx].
      * split; [done|]. intros y (s' & Hs'' & Hy). right. apply elem_of_push_parents. left. congruence.
      * destruct (Hseen x Hx) as [? Hy]. split; [done|]. intros y Hxy. rewrite elem_of_push_parents.
        specialize (Hy y Hxy). set_solver.
    + intros x [Hx|Hx]%elem_of_push_parents; [|set_solver].
      eapply rtc_r; [apply Hpend; by left|]. by exists s.
    + rewrite elem_of_push_parents. set_solver.
Qed.

Lemma finder_closed w :
  finder_inv w → wk_pending w = [] → ¬ reachable_from root target.
Proof.
  intros [Hseen _ Hroot _] Hnil Hreach. rewrite Hnil in *. destruct Hroot as [Hroot|Hroot]; [|by apply not_elem_of_nil in Hroot].
  assert (∀ a b, reachable_from a b → a ∈ wk_seen w → b ∈ wk_seen w) as Hall.
  { intros a b Hab. induction Hab as [|a y b Hay _ IH]; intros Ha; [done|]. apply IH.
    destruct (Hseen a Ha) as [_ Hclosed]. destruct (Hclosed y Hay) as [?|Hy]; [done|by apply not_elem_of_nil in Hy]. }
  by destruct (Hseen target (Hall root target Hreach Hroot)).
Qed.

Definition finder_result (r : Result (TraversalOutcome * TargetFinder)) : Prop :=
  match r with
  | Ok (Stopped _, _) => reachable_from root target
  | Ok (Complete _, _) => ¬ reachable_from root target
  | Ok (Exhausted _ _, _) => True
  | Err _ => ∃ x e, reachable_from root x ∧ load x = Err e
  end.

Lemma finder_step_Done w r : finder_inv w → walk_step budgets order w = Done r → finder_result r.
Proof.
  intros Hinv. unfold walk_step. destruct (wk_pending w) as [|[id depth] pending] eqn:Hp.
  { intros [= <-]. by eapply finder_closed. }
  assert (reachable_from root id) as Hid by (apply (fi_pending _ Hinv); rewrite Hp; by left).
  destruct (_ <? saturating_add _ _); [by intros [= <-]|]. destruct (_ <? depth); [by intros [= <-]|].
  case_bool_decide; [done|]. destruct (_ <? saturating_add _ _); [by intros [= <-]|]. unfold walk_visit.
  destruct (load id) as [s|e] eqn:Hload; simpl; [|intros [= <-]; by exists id, e].
  destruct (_ <? saturating_add _ _); [by intros [= <-]|]. rewrite (fi_visitor _ Hinv).
  unfold visit, TargetFinder_visit. simpl. case_bool_decide as Heq; [|done]. intros [= <-]. simpl. by rewrite <-Heq.
Qed.

Lemma finder_within k r : walk_within k root budgets order (mkTargetFinder target) = Some r → finder_result r.
Proof using bounded.
  intros Hr%walk_result_Some. revert Hr. apply (iterate_inv _ _ finder_step_More _ _ _ _ finder_step_Done).
  split; simpl; [set_solver| |set_solver|done]. intros x ->%list_elem_of_singleton. constructor.
Qed.

(** The bounded walk decides reachability: with a node budget below [usize::MAX] it always
    ends; it stops at the target only if the target is reachable from the root through parents;
    if it completes, the target is not reachable; and it fails only when some reachable snapshot
    does not load. *)
Theorem walk_decides_reachability :
  ∃ r, walk root budgets order (mkTargetFinder target) = Some r ∧ finder_result r.
Proof using bounded.
  unfold walk. destruct (walk_total budgets order bounded root (mkTargetFinder target)) as [r Hr].
  exists r. split; [exact Hr|]. exact (finder_within 129 r Hr).
Qed.
End target.

(** Three snapshots in a chain, each the parent of the one before. *)
Definition chain_load : SnapshotLoader := λ id,
  if bool_decide (id = "c") then Ok (mkSnapshot "" ["b"] "ann" 3 None)
  else if bool_decide (id = "b") then Ok (mkSnapshot "" ["a"] "ann" 2 None)
  else if bool_decide (id = "a") then Ok (mkSnapshot "" [] "ann" 1 None)
  else Err "missing".

(** The statement applied to the chain: the walk from the newest snapshot stops at the oldest. *)
Lemma walk_decides_reachability_witness :
  @reachable_from chain_load "c" "a"
  ∧ @walk chain_load _ _ "c" (with_node_budget MAX_SIGNAL_SCAN) LastFirst (mkTargetFinder "a")
    = Some (Ok (Stopped 3, mkTargetFinder "a")).
Proof.
  destruct (@walk_decides_reachability chain_load (with_node_budget MAX_SIGNAL_SCAN) LastFirst "c" "a")
    as (r & Hr & Hres).
  - split; vm_compute; [discriminate|reflexivity].
  - assert (@walk chain_load _ _ "c" (with_node_budget MAX_SIGNAL_SCAN) LastFirst (mkTargetFinder "a")
      = Some (Ok (Stopped 3, mkTargetFinder "a"))) as Hrun by (vm_compute; reflexivity).
    rewrite Hrun in Hr. injection Hr as <-. split; [exact Hres|exact Hrun].
Defined.
