(* ===== verification/Signals.v ===== *)
(** * Reading agent signals

    agent-core/src/messages.rs ([inbox], [signals_since], [collect_signals]) and the cache of
    walked snapshots of agent-core/src/signal_index.rs.  A read returns the signals in the
    snapshots reachable from the head but not from the cursor; the workspace head, the loader of
    snapshots and the cache are arguments.

    Each loop runs for at most [2 ^ 16] iterations, more than the scan bound and the two parents
    of a snapshot allow. *)
From Stdlib Require Import ZArith Lia Ascii Strings.Byte.
From stdpp Require Import sorting numbers strings gmap list_numbers list relations options.
From S2P Require Import Prelude Text Paths Model WorkContract AgentContract Traversal.

Local Open Scope Z_scope.

(** ** The signal index *)
Definition SIGNAL_INDEX_MAX_ENTRIES : Z := 8192.

Record IndexedSignal := mkIndexedSignal {
  is_parents : list string;
  is_author : string;
  is_created_at_ms : Z;
  is_message : option string;
}.
Definition IndexedSignal_from (s : Snapshot) : IndexedSignal :=
  mkIndexedSignal (sn_parents s) (sn_author s) (sn_created_at_ms s) (sn_message s).

(** The entries of a [SignalIndexSession]. *)
Definition SignalIndex : Type := gmap string IndexedSignal.

Definition index_get (index : SignalIndex) (id : string) : option Snapshot :=
  (λ e, mkSnapshot "" (is_parents e) (is_author e) (is_created_at_ms e) (is_message e)) <$> index !! id.

(** [while self.entries.len() >= MAX { remove the smallest key }] *)
Fixpoint evict_smallest (fuel : nat) (index : SignalIndex) : SignalIndex :=
  match fuel with
  | O => index
  | S fuel =>
      if SIGNAL_INDEX_MAX_ENTRIES <=? Z.of_nat (size index) then
        match (btree_entries index).*1 with
        | [] => index
        | smallest :: _ => evict_smallest fuel (delete smallest index)
        end
      else index
  end.

Definition index_put (index : SignalIndex) (id : string) (snapshot : Snapshot) : SignalIndex :=
  match index !! id with
  | Some _ => index
  | None => <[id := IndexedSignal_from snapshot]> (evict_smallest (size index) index)
  end.

(** ** Collecting signals *)
Section collect.
Context `{Unicode, MessageJson, SnapshotLoader}.

Definition walked_snapshot (index : SignalIndex) (id : string) : Result (SignalIndex * Snapshot) :=
  match index_get index id with
  | Some snapshot => Ok (index, snapshot)
  | None => snapshot ← load id; Ok (index_put index id snapshot, snapshot)
  end.

(** The variables of the walk from the head; the queue has its front first, and
    [candidate_ids] is in the order of the pushes. *)
Record HeadWalk := mkHeadWalk {
  hw_pending : list string;
  hw_seen : gset string;
  hw_loaded : gmap string Snapshot;
  hw_candidates : list string;
  hw_after_found : bool;
  hw_exhausted : bool;
  hw_saw_merge : bool;
  hw_index : SignalIndex;
}.

Definition head_walk_step (after : option string) (w : HeadWalk) : step HeadWalk (Result HeadWalk) :=
  match hw_pending w with
  | [] => Done (Ok w)
  | id :: pending =>
      if bool_decide (id ∈ hw_seen w)
      then More (mkHeadWalk pending (hw_seen w) (hw_loaded w) (hw_candidates w) (hw_after_found w) (hw_exhausted w)
                   (hw_saw_merge w) (hw_index w))
      else
        let seen := {[id]} ∪ hw_seen w in
        if MAX_SIGNAL_SCAN <=? Z.of_nat (size (hw_loaded w))
        then Done (Ok (mkHeadWalk pending seen (hw_loaded w) (hw_candidates w) (hw_after_found w) true
                         (hw_saw_merge w) (hw_index w)))
        else
          match walked_snapshot (hw_index w) id with
          | Err e => Done (Err e)
          | Ok (index, snapshot) =>
              let loaded := <[id := snapshot]> (hw_loaded w) in
              if bool_decide (after = Some id)
              then More (mkHeadWalk pending seen loaded (hw_candidates w) true (hw_exhausted w) (hw_saw_merge w) index)
              else More (mkHeadWalk (pending ++ sn_parents snapshot) seen loaded (hw_candidates w ++ [id])
                           (hw_after_found w) (hw_exhausted w)
                           (hw_saw_merge w || (1 <? zlen (sn_parents snapshot))) index)
          end
  end.

Definition step_result {S R} (s : step S R) : option R := match s with Done r => Some r | More _ => None end.

Definition head_walk_within (k : nat) (after : option string) (head : string) (index : SignalIndex)
    : option (Result HeadWalk) :=
  step_result (iterate k (head_walk_step after)
    (mkHeadWalk [head] ∅ ∅ [] (bool_decide (after = None)) false false index)).

(** The variables of the walk from the cursor. *)
Record CursorWalk := mkCursorWalk {
  cw_pending : list string;
  cw_ancestry : gset string;
  cw_loaded : gmap string Snapshot;
  cw_exhausted : bool;
  cw_index : SignalIndex;
}.

Definition cursor_walk_step (w : CursorWalk) : step CursorWalk (Result CursorWalk) :=
  match cw_pending w with
  | [] => Done (Ok w)
  | id :: pending =>
      if bool_decide (id ∈ cw_ancestry w)
      then More (mkCursorWalk pending (cw_ancestry w) (cw_loaded w) (cw_exhausted w) (cw_index w))
      else
        let ancestry := {[id]} ∪ cw_ancestry w in
        match cw_loaded w !! id with
        | Some snapshot =>
            More (mkCursorWalk (pending ++ sn_parents snapshot) ancestry (cw_loaded w) (cw_exhausted w) (cw_index w))
        | None =>
            if MAX_SIGNAL_SCAN <=? Z.of_nat (size (cw_loaded w))
            then Done (Ok (mkCursorWalk pending ancestry (cw_loaded w) true (cw_index w)))
            else
              match walked_snapshot (cw_index w) id with
              | Err e => Done (Err e)
              | Ok (index, snapshot) =>
                  More (mkCursorWalk (pending ++ sn_parents snapshot) ancestry (<[id := snapshot]> (cw_loaded w))
                          (cw_exhausted w) index)
              end
        end
  end.

Definition cursor_walk_within (k : nat) (after : string) (loaded : gmap string Snapshot) (index : SignalIndex)
    : option (Result CursorWalk) :=
  step_result (iterate k cursor_walk_step (mkCursorWalk [after] ∅ loaded false index)).

Definition scan_requires_cursor_reset (after : option string) (scan_exhausted after_found : bool) : bool :=
  scan_exhausted || (bool_decide (after ≠ None) && negb after_found).

(** The body of the loop over the candidates: the message in a snapshot, if it is a signal
    for the recipient. *)
Definition signal_of (recipient : option string) (id : string) (snapshot : Snapshot) : option AgentMessage :=
  payload ← (sn_message snapshot ≫= parse_agent_message);
  if bool_decide (sn_author snapshot = "*") || negb (is_valid_agent_name (sn_author snapshot)) then None
  else if match recipient with
          | Some r => bool_decide (mp_to payload = r) || bool_decide (mp_to payload = "*")
          | None => true
          end
  then Some (mkAgentMessage id (sn_author snapshot) (mp_to payload) (mp_kind payload) (mp_body payload)
               (mp_about_snapshot payload) (mp_reply_to payload) (sn_created_at_ms snapshot))
  else None.

(** [messages.sort_by(..)]: newest first, then the larger id. *)
Definition newer (a b : AgentMessage) : bool :=
  bool_decide (ms_created_at_ms b < ms_created_at_ms a
    ∨ ms_created_at_ms a = ms_created_at_ms b ∧ str_lt (ms_message_id b) (ms_message_id a)).
Fixpoint insert_newest (x : AgentMessage) (l : list AgentMessage) : list AgentMessage :=
  match l with
  | [] => [x]
  | y :: l' => if newer y x then y :: insert_newest x l' else x :: l
  end.
Definition sort_newest (l : list AgentMessage) : list AgentMessage := foldr insert_newest [] l.

(** What follows the two walks. *)
Definition signals_result (head : string) (recipient : option string) (limit : Z) (reset : bool)
    (ancestry : gset string) (loaded : gmap string Snapshot) (candidates : list string) : AgentInboxResult :=
  let messages := omap (λ id, loaded !! id ≫= signal_of recipient id)
                    (filter (λ id, id ∉ ancestry) candidates) in
  let sorted := sort_newest messages in
  mkAgentInboxResult head (reset || (limit <? zlen sorted)) (take (Z.to_nat limit) sorted).

Definition LOOP_BOUND : nat := 16.

Definition collect_signals (format_version : Z) (head : option string) (index : SignalIndex)
    (after recipient : option string) (limit : Z) : option (Result (AgentInboxResult * SignalIndex)) :=
  if format_version <? 3 then Some (Err "agent signals require format v3; run `feanorfs migrate` first") else
  match head with
  | None => Some (Ok (mkAgentInboxResult "" (bool_decide (after ≠ None)) [], index))
  | Some head =>
      if bool_decide (after = Some head)
      then Some (load head ;; Ok (mkAgentInboxResult head false [], index))
      else
        walked ← head_walk_within LOOP_BOUND after head index;
        match walked with
        | Err e => Some (Err e)
        | Ok w =>
            let reset := scan_requires_cursor_reset after (hw_exhausted w) (hw_after_found w) in
            match after with
            | Some cursor =>
                if negb reset && hw_saw_merge w then
                  painted ← cursor_walk_within LOOP_BOUND cursor (hw_loaded w) (hw_index w);
                  match painted with
                  | Err e => Some (Err e)
                  | Ok c =>
                      let reset := cw_exhausted c in
                      let ancestry := if cw_exhausted c then ∅ else cw_ancestry c in
                      Some (Ok (signals_result head recipient limit reset ancestry (cw_loaded c) (hw_candidates w),
                                cw_index c))
                  end
                else
                  Some (Ok (signals_result head recipient limit reset ∅ (hw_loaded w) (hw_candidates w), hw_index w))
            | None => Some (Ok (signals_result head recipient limit reset ∅ (hw_loaded w) (hw_candidates w), hw_index w))
            end
        end
  end.

Definition validate_recipient (to : string) : Result unit :=
  if bool_decide (to = "*") then Ok tt
  else ensure (is_valid_agent_name to) "Agent name must be a non-empty portable path segment".

Definition inbox (format_version : Z) (head : option string) (index : SignalIndex) (recipient : string)
    (after : option string) (limit : Z) : option (Result (AgentInboxResult * SignalIndex)) :=
  match validate_recipient recipient ;; ensure (0 <? limit) "inbox limit must be greater than zero" with
  | Err e => Some (Err e)
  | Ok _ => collect_signals format_version head index after (Some recipient) (Z.min limit AGENT_INBOX_MAX_LIMIT)
  end.

Definition signals_since (format_version : Z) (head : option string) (index : SignalIndex) (after : option string)
    (limit : Z) : option (Result (AgentInboxResult * SignalIndex)) :=
  collect_signals format_version head index after None (Z.min limit AGENT_INBOX_MAX_LIMIT).
End collect.
