(* ===== verification/SignalsProps.v ===== *)
(** * Reading agent signals: the delta is exact

    Both walks end within their iteration bound; without a cursor reset, a read returns exactly
    the signals reachable from the head and not from the cursor. *)
From Stdlib Require Import ZArith Lia Ascii Strings.Byte.
From stdpp Require Import sorting numbers strings gmap list_numbers list relations options.
From S2P Require Import Prelude Text Paths Model WorkContract AgentContract Traversal Signals.

Local Open Scope Z_scope.

(** ** The cache *)
Section cache.
Context `{SnapshotLoader}.

(** The fields of a snapshot that the walks read. *)
Definition same_view (s s' : Snapshot) : Prop := IndexedSignal_from s = IndexedSignal_from s'.

(** What is known of an id under which [s] was loaded. *)
Definition loads_as (id : string) (s : Snapshot) : Prop := ∃ s0, load id = Ok s0 ∧ same_view s0 s.

(** Every entry of the cache describes the snapshot of its id. *)
Definition index_ok (index : SignalIndex) : Prop :=
  ∀ id e, index !! id = Some e → ∃ s, load id = Ok s ∧ e = IndexedSignal_from s.

Lemma evict_smallest_ok fuel index : index_ok index → index_ok (evict_smallest fuel index).
Proof.
  revert index. induction fuel as [|fuel IH]; intros index Hok; simpl; [done|].
  destruct (_ <=? _); [|done]. destruct (btree_entries index).*1 as [|smallest rest]; [done|].
  apply IH. intros id e [_ He]%lookup_delete_Some. by apply Hok.
Qed.

Lemma index_put_ok index id s : index_ok index → load id = Ok s → index_ok (index_put index id s).
Proof.
  intros Hok Hload. unfold index_put. destruct (index !! id) as [e|]; [done|].
  intros id' e [[<- <-]|[_ He]]%lookup_insert_Some; [by exists s|]. by apply (evict_smallest_ok (size index) index Hok).
Qed.

Lemma walked_Ok index id index' s :
  index_ok index → walked_snapshot index id = Ok (index', s) → index_ok index' ∧ loads_as id s.
Proof.
  intros Hok. unfold walked_snapshot, index_get. destruct (index !! id) as [e|] eqn:He; simpl.
  - intros [= <- <-]. split; [done|]. destruct (Hok id e He) as (s0 & Hload & ->). by exists s0.
  - destruct (load id) as [s0|] eqn:Hload; [|done]. intros [= <- <-]. split; [by apply index_put_ok|by exists s0].
Qed.

Lemma walked_Err index id e : walked_snapshot index id = Err e → load id = Err e.
Proof.
  unfold walked_snapshot. destruct (index_get index id); [done|]. destruct (load id); [done|]. by intros [= <-].
Qed.

Lemma loads_parent id s y : loads_as id s → parent id y ↔ y ∈ sn_parents s.
Proof.
  intros (s0 & Hload & [= Hp _ _ _]). unfold parent. rewrite <-Hp. split; [|by exists s0].
  intros (s1 & Hs1 & Hy). congruence.
Qed.

(** A set closed under parents contains what is reachable from its members. *)
Lemma closed_reachable (X : string → Prop) a b :
  (∀ x y, X x → parent x y → X y) → reachable_from a b → X a → X b.
Proof. intros Hclosed Hab. induction Hab as [|x y z Hxy _ IH]; [done|]. intros Hx. by apply IH, (Hclosed x). Qed.
End cache.

(** ** The walk from the head *)
Section head_walk.
Context `{SnapshotLoader} (after : option string) (head : string).

Record head_inv (w : HeadWalk) : Prop := {
  hi_index : index_ok (hw_index w);
  hi_loaded id s : hw_loaded w !! id = Some s → loads_as id s;
  hi_dom : dom (hw_loaded w) = hw_seen w;
  hi_size : Z.of_nat (size (hw_loaded w)) ≤ MAX_SIGNAL_SCAN;
  hi_closed x y : x ∈ hw_seen w → after ≠ Some x → parent x y → y ∈ hw_seen w ∨ y ∈ hw_pending w;
  hi_reach x : x ∈ hw_seen w ∨ x ∈ hw_pending w → reachable_from head x;
  hi_head : head ∈ hw_seen w ∨ head ∈ hw_pending w;
  hi_candidates x : x ∈ hw_candidates w ↔ x ∈ hw_seen w ∧ after ≠ Some x;
  hi_NoDup : NoDup (hw_candidates w);
  hi_found : hw_after_found w = true ↔ ∀ a, after = Some a → a ∈ hw_seen w;
  hi_complete : hw_exhausted w = false;
  (** without merges the walk is one chain *)
  hi_chain a : hw_saw_merge w = false → after = Some a →
    (length (hw_pending w) ≤ 1)%nat
    ∧ (∀ c p, c ∈ hw_candidates w → p ∈ hw_pending w → reachable_from c p)
    ∧ (a ∈ hw_seen w → hw_pending w = [] ∧ ∀ c, c ∈ hw_candidates w → reachable_from c a);
}.

Lemma head_inv_init index :
  index_ok index → head_inv (mkHeadWalk [head] ∅ ∅ [] (bool_decide (after = None)) false false index).
Proof.
  intros Hok. split; simpl; try done.
  - intros x [Hx|Hx]; [by apply not_elem_of_empty in Hx|]. apply list_elem_of_singleton in Hx as ->. constructor.
  - right. by left.
  - intros x. split; [by intros ?%not_elem_of_nil|]. by intros [?%not_elem_of_empty _].
  - constructor.
  - rewrite bool_decide_eq_true. split; [by intros -> a|]. intros Ha. destruct after as [a|]; [|done].
    by destruct (not_elem_of_empty (C := gset string) a (Ha a eq_refl)).
  - intros a _ _. split; [lia|]. split; [by intros c p ?%not_elem_of_nil|]. by intros ?%not_elem_of_empty.
Qed.

(** The loop body on an id seen before, on the cursor, and on any other id. *)
Lemma head_skip w id pending :
  head_inv w → hw_pending w = id :: pending → id ∈ hw_seen w →
  head_inv (mkHeadWalk pending (hw_seen w) (hw_loaded w) (hw_candidates w) (hw_after_found w) (hw_exhausted w)
              (hw_saw_merge w) (hw_index w)).
Proof.
  intros [Hi Hl Hd Hs Hc Hr Hh Hcand Hnd Hf He Hchain] Hp Hin. rewrite Hp in *.
  split; simpl; try done.
  - intros x y Hx Hne Hxy. destruct (Hc x y Hx Hne Hxy) as [?|[->|?]%elem_of_cons]; auto.
  - intros x [Hx|Hx]; apply Hr; [by left|right; by right].
  - destruct Hh as [?|[->|?]%elem_of_cons]; auto.
  - intros a Hm Ha. destruct (Hchain a Hm Ha) as (Hlen & Hcp & Hseen). split; [simpl in Hlen; lia|].
    split; [intros c p Hc' Hp'; apply Hcp; [done|by right]|]. intros Hain. by destruct (Hseen Hain).
Qed.

Lemma head_cursor w id pending index s :
  head_inv w → hw_pending w = id :: pending → id ∉ hw_seen w → after = Some id →
  Z.of_nat (size (hw_loaded w)) < MAX_SIGNAL_SCAN → index_ok index → loads_as id s →
  head_inv (mkHeadWalk pending ({[id]} ∪ hw_seen w) (<[id := s]> (hw_loaded w)) (hw_candidates w) true
              (hw_exhausted w) (hw_saw_merge w) index).
Proof.
  intros [Hi Hl Hd Hs Hc Hr Hh Hcand Hnd Hf He Hchain] Hp Hnew Ha Hsize Hidx Hload. rewrite Hp in *.
  split; simpl; try done.
  - intros x t [[<- <-]|[_ Hx]]%lookup_insert_Some; [done|by apply Hl].
  - rewrite dom_insert_L. by rewrite Hd.
  - rewrite map_size_insert_None by (apply not_elem_of_dom; by rewrite Hd). lia.
  - intros x y [->%elem_of_singleton|Hx]%elem_of_union Hne Hxy; [done|]. specialize (Hc x y Hx Hne Hxy). set_solver.
  - set_solver.
  - set_solver.
  - intros x. rewrite Hcand. split; [set_solver|]. intros [[->%elem_of_singleton|Hx]%elem_of_union Hne]; done.
  - split; [|done]. intros _ a Ha'. set_solver.
  - intros a Hm Ha'. destruct (Hchain a Hm Ha') as (Hlen & Hcp & _). simplify_eq. simpl in Hlen.
    assert (pending = []) as -> by (destruct pending; [done|simpl in Hlen; lia]).
    split; [simpl; lia|]. split; [set_solver|]. intros _. split; [done|]. intros c Hc'. apply Hcp; [done|by left].
Qed.

Lemma head_visit w id pending index s :
  head_inv w → hw_pending w = id :: pending → id ∉ hw_seen w → after ≠ Some id →
  Z.of_nat (size (hw_loaded w)) < MAX_SIGNAL_SCAN → index_ok index → loads_as id s →
  head_inv (mkHeadWalk (pending ++ sn_parents s) ({[id]} ∪ hw_seen w) (<[id := s]> (hw_loaded w))
              (hw_candidates w ++ [id]) (hw_after_found w) (hw_exhausted w)
              (hw_saw_merge w || (1 <? zlen (sn_parents s))) index).
Proof.
  intros [Hi Hl Hd Hs Hc Hr Hh Hcand Hnd Hf He Hchain] Hp Hnew Ha Hsize Hidx Hload. rewrite Hp in *.
  split; simpl; try done.
  - intros x t [[<- <-]|[_ Hx]]%lookup_insert_Some; [done|by apply Hl].
  - rewrite dom_insert_L. by rewrite Hd.
  - rewrite map_size_insert_None by (apply not_elem_of_dom; by rewrite Hd). lia.
  - intros x y [->%elem_of_singleton|Hx]%elem_of_union Hne Hxy.
    + right. apply elem_of_app. right. by apply (loads_parent id s).
    + specialize (Hc x y Hx Hne Hxy). set_solver.
  - intros x [Hx|[Hx|Hx]%elem_of_app]; [set_solver|set_solver|].
    eapply rtc_r; [apply Hr; right; by left|]. by apply (loads_parent id s).
  - set_solver.
  - intros x. rewrite elem_of_app, Hcand, list_elem_of_singleton, elem_of_union, elem_of_singleton. naive_solver.
  - apply NoDup_app. split; [done|]. split; [|apply NoDup_singleton].
    intros x Hx ->%list_elem_of_singleton. apply Hcand in Hx as [? _]. done.
  - rewrite Hf. split; intros Hin a Ha'; specialize (Hin a Ha'); [set_solver|].
    apply elem_of_union in Hin as [->%elem_of_singleton|?]; done.
  - intros a [Hm Hm']%orb_false_iff Ha'. destruct (Hchain a Hm Ha') as (Hlen & Hcp & Hseen). simpl in Hlen.
    assert (pending = []) as -> by (destruct pending; [done|simpl in Hlen; lia]). simpl.
    split; [apply Z.ltb_ge in Hm'; unfold zlen in Hm'; lia|]. split.
    + intros c p Hc' Hparent. apply (loads_parent id s) in Hparent; [|done].
      apply elem_of_app in Hc' as [Hc'|Hc'].
      * eapply rtc_r; [apply Hcp; [done|by left]|done].
      * apply list_elem_of_singleton in Hc' as ->. by apply rtc_once.
    + intros [->%elem_of_singleton|Hin]%elem_of_union; [done|]. by destruct (Hseen Hin).
Qed.

Lemma head_step_More w w' : head_inv w → head_walk_step after w = More w' → head_inv w'.
Proof.
  intros Hinv. unfold head_walk_step. destruct (hw_pending w) as [|id pending] eqn:Hp; [done|].
  case_bool_decide as Hin; [intros [= <-]; by eapply head_skip|].
  destruct (Z.leb_spec MAX_SIGNAL_SCAN (Z.of_nat (size (hw_loaded w)))) as [|Hsize]; [done|].
  destruct (walked_snapshot _ id) as [[index s]|] eqn:Hw; [|done].
  destruct (walked_Ok _ _ _ _ (hi_index _ Hinv) Hw) as [Hidx Hload].
  case_bool_decide as Ha; intros [= <-]; [by eapply head_cursor|by eapply head_visit].
Qed.

Hypothesis parents_bounded : ∀ id s, load id = Ok s → zlen (sn_parents s) ≤ MAX_SNAPSHOT_PARENTS.

Lemma loads_bounded id s : loads_as id s → zlen (sn_parents s) ≤ MAX_SNAPSHOT_PARENTS.
Proof using parents_bounded. intros (s0 & Hload & [= <- _ _ _]). by eapply parents_bounded. Qed.

(** Each iteration uses up an id that may be loaded, or an entry of the queue. *)
Definition head_measure (w : HeadWalk) : Z :=
  (MAX_SIGNAL_SCAN - Z.of_nat (size (hw_loaded w))) * (MAX_SNAPSHOT_PARENTS + 1) + zlen (hw_pending w).

Lemma head_step_decreases w w' :
  head_inv w → head_walk_step after w = More w' → head_measure w' < head_measure w.
Proof using parents_bounded.
  intros Hinv. unfold head_walk_step, head_measure. destruct (hw_pending w) as [|id pending] eqn:Hp; [done|].
  rewrite zlen_cons. case_bool_decide as Hin; [intros [= <-]; simpl; lia|].
  destruct (Z.leb_spec MAX_SIGNAL_SCAN (Z.of_nat (size (hw_loaded w)))) as [|Hsize]; [done|].
  destruct (walked_snapshot _ id) as [[index s]|] eqn:Hw; [|done].
  destruct (walked_Ok _ _ _ _ (hi_index _ Hinv) Hw) as [_ Hload%loads_bounded].
  assert (hw_loaded w !! id = None) as Hnone by (apply not_elem_of_dom; by rewrite (hi_dom _ Hinv)).
  case_bool_decide; intros [= <-]; cbn [hw_loaded hw_pending]; rewrite map_size_insert_None by done;
    rewrite ?zlen_app; unfold MAX_SNAPSHOT_PARENTS in *; lia.
Qed.

(** What the walk from the head returns. *)
Definition head_result (r : Result HeadWalk) : Prop :=
  match r with
  | Err e => ∃ x, reachable_from head x ∧ load x = Err e
  | Ok w => hw_exhausted w = false → head_inv w ∧ hw_pending w = []
  end.
Definition head_sound (r : Result HeadWalk) : Prop :=
  match r with
  | Err _ => True
  | Ok w =>
      index_ok (hw_index w) ∧ (∀ id s, hw_loaded w !! id = Some s → loads_as id s)
      ∧ Z.of_nat (size (hw_loaded w)) ≤ MAX_SIGNAL_SCAN ∧ NoDup (hw_candidates w)
      ∧ ∀ x, x ∈ hw_candidates w → reachable_from head x ∧ x ∈ dom (hw_loaded w)
  end.

Lemma head_inv_sound w : head_inv w → head_sound (Ok w).
Proof.
  intros Hinv. split; [apply Hinv|]. split; [apply Hinv|]. split; [apply Hinv|]. split; [apply Hinv|].
  intros x [Hx _]%(hi_candidates _ Hinv). rewrite (hi_dom _ Hinv). split; [|done]. apply (hi_reach _ Hinv). by left.
Qed.

Lemma head_step_Done w r : head_inv w → head_walk_step after w = Done r → head_result r ∧ head_sound r.
Proof.
  intros Hinv. unfold head_walk_step. destruct (hw_pending w) as [|id pending] eqn:Hp.
  { intros [= <-]. split; [done|by apply head_inv_sound]. }
  case_bool_decide as Hin; [done|]. destruct (_ <=? _); [intros [= <-]; split; [done|by apply (head_inv_sound w)]|].
  destruct (walked_snapshot _ id) as [[index s]|e] eqn:Hw.
  - by case_bool_decide.
  - intros [= <-]. split; [|done]. exists id. split; [|by apply walked_Err in Hw].
    apply (hi_reach _ Hinv). right. rewrite Hp. by left.
Qed.

Lemma head_walk_total index :
  index_ok index → ∃ r, head_walk_within LOOP_BOUND after head index = Some r ∧ head_result r ∧ head_sound r.
Proof using parents_bounded.
  intros Hok. unfold head_walk_within.
  destruct (iterate_done (head_walk_step after) head_inv head_step_More head_measure LOOP_BOUND
    (mkHeadWalk [head] ∅ ∅ [] (bool_decide (after = None)) false false index)) as [r Hr];
    [apply head_step_decreases|..].
  - intros w Hinv. unfold head_measure. pose proof (hi_size _ Hinv). pose proof (zlen_nonneg (hw_pending w)).
    unfold MAX_SNAPSHOT_PARENTS. lia.
  - by apply head_inv_init.
  - unfold head_measure. cbn [hw_loaded hw_pending]. rewrite map_size_empty. reflexivity.
  - rewrite Hr. exists r. split; [done|].
    exact (iterate_inv _ _ head_step_More _ _ _ _ head_step_Done (head_inv_init _ Hok) Hr).
Qed.
End head_walk.

(** ** The walk from the cursor *)
Section cursor_walk.
Context `{SnapshotLoader} (cursor : string) (loaded0 : gmap string Snapshot).

Record cursor_inv (w : CursorWalk) : Prop := {
  ci_index : index_ok (cw_index w);
  ci_loaded id s : cw_loaded w !! id = Some s → loads_as id s;
  ci_kept : loaded0 ⊆ cw_loaded w;
  ci_dom : cw_ancestry w ⊆ dom (cw_loaded w);
  ci_size : Z.of_nat (size (cw_loaded w)) ≤ MAX_SIGNAL_SCAN;
  ci_closed x y : x ∈ cw_ancestry w → parent x y → y ∈ cw_ancestry w ∨ y ∈ cw_pending w;
  ci_reach x : x ∈ cw_ancestry w ∨ x ∈ cw_pending w → reachable_from cursor x;
  ci_cursor : cursor ∈ cw_ancestry w ∨ cursor ∈ cw_pending w;
  ci_complete : cw_exhausted w = false;
}.

Lemma cursor_inv_init index :
  index_ok index → (∀ id s, loaded0 !! id = Some s → loads_as id s) →
  Z.of_nat (size loaded0) ≤ MAX_SIGNAL_SCAN → cursor_inv (mkCursorWalk [cursor] ∅ loaded0 false index).
Proof.
  intros Hi Hl Hs. split; simpl; try done.
  - intros x [?%not_elem_of_empty|Hx]; [done|]. apply list_elem_of_singleton in Hx as ->. constructor.
  - right. by left.
Qed.

Lemma cursor_skip w id pending :
  cursor_inv w → cw_pending w = id :: pending → id ∈ cw_ancestry w →
  cursor_inv (mkCursorWalk pending (cw_ancestry w) (cw_loaded w) (cw_exhausted w) (cw_index w)).
Proof.
  intros [Hi Hl Hk Hd Hs Hc Hr Hcur He] Hp Hin. rewrite Hp in *. split; simpl; try done.
  - intros x y Hx Hxy. destruct (Hc x y Hx Hxy) as [?|[->|?]%elem_of_cons]; auto.
  - intros x [Hx|Hx]; apply Hr; [by left|right; by right].
  - destruct Hcur as [?|[->|?]%elem_of_cons]; auto.
Qed.

(** The parents of an id whose snapshot is in [loaded] join the queue. *)
Lemma cursor_visit w id pending loaded index s :
  cursor_inv w → cw_pending w = id :: pending → index_ok index →
  (∀ id s, loaded !! id = Some s → loads_as id s) → cw_loaded w ⊆ loaded → loaded !! id = Some s →
  Z.of_nat (size loaded) ≤ MAX_SIGNAL_SCAN →
  cursor_inv (mkCursorWalk (pending ++ sn_parents s) ({[id]} ∪ cw_ancestry w) loaded (cw_exhausted w) index).
Proof.
  intros [Hi Hl Hk Hd Hs Hc Hr Hcur He] Hp Hi' Hl' Hsub Hid Hs'. rewrite Hp in *.
  pose proof (Hl' id s Hid) as Hload. split; simpl; try done.
  - by etrans.
  - apply union_subseteq. split; [apply singleton_subseteq_l; by eapply elem_of_dom_2|].
    etrans; [done|]. by apply subseteq_dom.
  - intros x y [->%elem_of_singleton|Hx]%elem_of_union Hxy.
    + right. apply elem_of_app. right. by apply (loads_parent id s).
    + destruct (Hc x y Hx Hxy) as [?|[->|?]%elem_of_cons]; rewrite elem_of_app; set_solver.
  - intros x [[->%elem_of_singleton|Hx]%elem_of_union|[Hx|Hx]%elem_of_app].
    + apply Hr. right. by left.
    + apply Hr. by left.
    + apply Hr. right. by right.
    + eapply rtc_r; [apply Hr; right; by left|]. by apply (loads_parent id s).
  - destruct Hcur as [?|[->|?]%elem_of_cons]; rewrite elem_of_app; set_solver.
Qed.

Lemma cursor_step_More w w' : cursor_inv w → cursor_walk_step w = More w' → cursor_inv w'.
Proof.
  intros Hinv. unfold cursor_walk_step. destruct (cw_pending w) as [|id pending] eqn:Hp; [done|].
  case_bool_decide as Hin; [intros [= <-]; by eapply cursor_skip|].
  destruct (cw_loaded w !! id) as [s|] eqn:Hid.
  { intros [= <-]. by eapply cursor_visit; try apply Hinv. }
  destruct (Z.leb_spec MAX_SIGNAL_SCAN (Z.of_nat (size (cw_loaded w)))) as [|Hsize]; [done|].
  destruct (walked_snapshot _ id) as [[index s]|] eqn:Hw; [|done]. intros [= <-].
  destruct (walked_Ok _ _ _ _ (ci_index _ Hinv) Hw) as [Hidx Hload].
  eapply cursor_visit; try done.
  - intros x t [[<- <-]|[_ Hx]]%lookup_insert_Some; [done|by apply (ci_loaded _ Hinv)].
  - by apply insert_subseteq.
  - apply lookup_insert_eq.
  - rewrite map_size_insert_None by done. lia.
Qed.

Definition cursor_result (r : Result CursorWalk) : Prop :=
  match r with
  | Err e => ∃ x, reachable_from cursor x ∧ load x = Err e
  | Ok w =>
      index_ok (cw_index w) ∧ (∀ id s, cw_loaded w !! id = Some s → loads_as id s) ∧ loaded0 ⊆ cw_loaded w
      ∧ (cw_exhausted w = false → ∀ x, x ∈ cw_ancestry w ↔ reachable_from cursor x)
  end.

Lemma cursor_step_Done w r : cursor_inv w → cursor_walk_step w = Done r → cursor_result r.
Proof.
  intros Hinv. unfold cursor_walk_step. destruct (cw_pending w) as [|id pending] eqn:Hp.
  { intros [= <-]. split; [apply Hinv|]. split; [apply Hinv|]. split; [apply Hinv|]. intros _ x.
    split; [intros Hx; apply (ci_reach _ Hinv); by left|]. intros Hx.
    apply (closed_reachable (λ x, x ∈ cw_ancestry w) cursor x); [|done|].
    - intros a b Ha Hab. destruct (ci_closed _ Hinv a b Ha Hab) as [?|Hb]; [done|]. rewrite Hp in Hb.
      by apply not_elem_of_nil in Hb.
    - destruct (ci_cursor _ Hinv) as [?|Hb]; [done|]. rewrite Hp in Hb. by apply not_elem_of_nil in Hb. }
  case_bool_decide as Hin; [done|]. destruct (cw_loaded w !! id); [done|].
  destruct (_ <=? _); [intros [= <-]; split; [apply Hinv|]; split; [apply Hinv|]; split; [apply Hinv|done]|].
  destruct (walked_snapshot _ id) as [[index s]|e] eqn:Hw; [done|]. intros [= <-]. exists id.
  split; [|by apply walked_Err in Hw]. apply (ci_reach _ Hinv). right. rewrite Hp. by left.
Qed.

Hypothesis parents_bounded : ∀ id s, load id = Ok s → zlen (sn_parents s) ≤ MAX_SNAPSHOT_PARENTS.

Definition cursor_measure (w : CursorWalk) : Z :=
  (MAX_SIGNAL_SCAN - Z.of_nat (size (cw_ancestry w))) * (MAX_SNAPSHOT_PARENTS + 1) + zlen (cw_pending w).

Lemma cursor_step_decreases w w' :
  cursor_inv w → cursor_walk_step w = More w' → cursor_measure w' < cursor_measure w.
Proof using parents_bounded.
  intros Hinv. unfold cursor_walk_step, cursor_measure. destruct (cw_pending w) as [|id pending] eqn:Hp; [done|].
  rewrite zlen_cons. case_bool_decide as Hin; [intros [= <-]; simpl; lia|].
  assert (size ({[id]} ∪ cw_ancestry w) = S (size (cw_ancestry w))) as Hsz.
  { rewrite size_union by set_solver. by rewrite size_singleton. }
  destruct (cw_loaded w !! id) as [s|] eqn:Hid.
  { intros [= <-]. cbn [cw_ancestry cw_pending]. rewrite Hsz, zlen_app.
    pose proof (loads_bounded parents_bounded id s (ci_loaded _ Hinv id s Hid)). unfold MAX_SNAPSHOT_PARENTS in *. lia. }
  destruct (_ <=? _); [done|]. destruct (walked_snapshot _ id) as [[index s]|] eqn:Hw; [|done]. intros [= <-].
  destruct (walked_Ok _ _ _ _ (ci_index _ Hinv) Hw) as [_ Hload]. cbn [cw_ancestry cw_pending]. rewrite Hsz, zlen_app.
  pose proof (loads_bounded parents_bounded id s Hload). unfold MAX_SNAPSHOT_PARENTS in *. lia.
Qed.

Lemma cursor_walk_total index :
  index_ok index → (∀ id s, loaded0 !! id = Some s → loads_as id s) →
  Z.of_nat (size loaded0) ≤ MAX_SIGNAL_SCAN →
  ∃ r, cursor_walk_within LOOP_BOUND cursor loaded0 index = Some r ∧ cursor_result r.
Proof using parents_bounded.
  intros Hi Hl Hs. unfold cursor_walk_within.
  destruct (iterate_done cursor_walk_step cursor_inv cursor_step_More cursor_measure LOOP_BOUND
    (mkCursorWalk [cursor] ∅ loaded0 false index)) as [r Hr]; [apply cursor_step_decreases|..].
  - intros w Hinv. unfold cursor_measure. pose proof (ci_size _ Hinv). pose proof (zlen_nonneg (cw_pending w)).
    pose proof (subseteq_size _ _ (ci_dom _ Hinv)) as Hsub. rewrite size_dom in Hsub. unfold MAX_SNAPSHOT_PARENTS. lia.
  - by apply cursor_inv_init.
  - unfold cursor_measure. cbn [cw_ancestry cw_pending]. rewrite size_empty. reflexivity.
  - rewrite Hr. exists r. split; [done|].
    exact (iterate_inv _ _ cursor_step_More _ _ _ _ cursor_step_Done (cursor_inv_init _ Hi Hl Hs) Hr).
Qed.
End cursor_walk.

(** ** The messages of a read *)
Section messages.
Context `{MessageJson, SnapshotLoader}.

Lemma insert_newest_perm x l : insert_newest x l ≡ₚ x :: l.
Proof. induction l as [|y l IH]; simpl; [done|]. destruct (newer y x); [|done]. by rewrite IH, Permutation_swap. Qed.

Lemma sort_newest_perm l : sort_newest l ≡ₚ l.
Proof. induction l as [|x l IH]; simpl; [done|]. by rewrite insert_newest_perm, IH. Qed.

(** The signal in a snapshot of the history. *)
Definition signal_at (recipient : option string) (id : string) (m : AgentMessage) : Prop :=
  ∃ s, load id = Ok s ∧ signal_of recipient id s = Some m.

Lemma signal_of_view recipient id s s' : same_view s s' → signal_of recipient id s = signal_of recipient id s'.
Proof. intros [= _ Ha Hc Hm]. unfold signal_of. by rewrite Ha, Hc, Hm. Qed.

Lemma loads_signal recipient id s m : loads_as id s → signal_of recipient id s = Some m ↔ signal_at recipient id m.
Proof.
  intros (s0 & Hload & Hv). rewrite <-(signal_of_view recipient id s0 s Hv). split; [by exists s0|].
  intros (s1 & Hs1 & Hm). congruence.
Qed.

Lemma signals_result_spec head recipient limit reset ancestry loaded candidates :
  0 ≤ limit → (∀ id s, loaded !! id = Some s → loads_as id s) → (∀ id, id ∈ candidates → id ∈ dom loaded) →
  let result := signals_result head recipient limit reset ancestry loaded candidates in
  let new m := ∃ id, id ∈ candidates ∧ id ∉ ancestry ∧ signal_at recipient id m in
  zlen (ai_messages result) ≤ limit ∧ (∀ m, m ∈ ai_messages result → new m)
  ∧ (ai_cursor_reset result = false → reset = false ∧ ∀ m, m ∈ ai_messages result ↔ new m).
Proof.
  intros Hlimit Hloaded Hdom. simpl. set (messages := omap _ _).
  assert (∀ m, m ∈ sort_newest messages ↔ ∃ id, id ∈ candidates ∧ id ∉ ancestry ∧ signal_at recipient id m) as Helem.
  { intros m. rewrite sort_newest_perm. unfold messages. rewrite list_elem_of_omap. split.
    - intros (id & [Hnot Hid]%list_elem_of_filter & Hm). exists id. split; [done|]. split; [done|].
      apply bind_Some in Hm as (s & Hs & Hm). by apply (loads_signal recipient id s); [apply Hloaded|].
    - intros (id & Hid & Hnot & Hm). exists id. split; [by apply list_elem_of_filter|].
      destruct (proj1 (elem_of_dom loaded id) (Hdom id Hid)) as [s Hs]. rewrite Hs. simpl.
      by apply (loads_signal recipient id s); [apply Hloaded|]. }
  split; [unfold zlen; rewrite length_take; lia|]. split.
  - intros m Hm. apply Helem. eapply sublist_subseteq; [apply (sublist_take _ (Z.to_nat limit))|done].
  - intros [Hreset Hlt%Z.ltb_ge]%orb_false_iff. split; [done|]. unfold zlen in Hlt. rewrite take_ge by lia. exact Helem.
Qed.

Section delta.
Context (after : option string) (head : string).
Hypothesis acyclic : ∀ a b, reachable_from a b → reachable_from b a → a = b.

(** Reachable from the head and not from the cursor. *)
Definition delta (x : string) : Prop :=
  reachable_from head x ∧ ∀ a, after = Some a → ¬ reachable_from a x.

(** The candidates of a complete walk, less the ancestry of the cursor, are the delta. *)
Lemma candidates_delta w x :
  head_inv after head w → hw_pending w = [] → hw_after_found w = true →
  delta x ↔ x ∈ hw_candidates w ∧ ∀ a, after = Some a → ¬ reachable_from a x.
Proof.
  intros Hinv Hp Hf. unfold delta. split; intros [Hx Hnot]; (split; [|done]).
  - assert (x ∈ hw_seen w ∨ ∃ a, after = Some a ∧ reachable_from a x) as Hcases.
    { apply (closed_reachable (λ x, x ∈ hw_seen w ∨ ∃ a, after = Some a ∧ reachable_from a x) head x); [|done|].
      - intros y z [Hy|(a & Ha & Hr)] Hyz; [|right; exists a; split; [done|by eapply rtc_r]].
        destruct (decide (after = Some y)) as [Ha|Hne]; [right; exists y; split; [done|by apply rtc_once]|].
        destruct (hi_closed _ _ _ Hinv y z Hy Hne Hyz) as [?|Hz]; [by left|]. rewrite Hp in Hz.
        by apply not_elem_of_nil in Hz.
      - left. destruct (hi_head _ _ _ Hinv) as [?|Hh]; [done|]. rewrite Hp in Hh. by apply not_elem_of_nil in Hh. }
    destruct Hcases as [Hseen|(a & Ha & Hr)]; [|by destruct (Hnot a Ha)].
    apply (hi_candidates _ _ _ Hinv). split; [done|]. intros Ha. apply (Hnot x Ha). constructor.
  - apply (hi_reach _ _ _ Hinv). left. by apply (hi_candidates _ _ _ Hinv).
Qed.

(** Without merges, no candidate is an ancestor of the cursor. *)
Lemma chain_delta w a x :
  head_inv after head w → hw_after_found w = true → hw_saw_merge w = false → after = Some a →
  x ∈ hw_candidates w → ¬ reachable_from a x.
Proof using acyclic.
  intros Hinv Hf Hm Ha Hx Hr. destruct (hi_chain _ _ _ Hinv a Hm Ha) as (_ & _ & Hseen).
  destruct Hseen as [_ Hreach]; [by apply (hi_found _ _ _ Hinv)|].
  assert (a = x) as -> by (apply acyclic; [done|by apply Hreach]).
  by apply (hi_candidates _ _ _ Hinv) in Hx as [_ Hx].
Qed.

Hypothesis parents_bounded : ∀ id s, load id = Ok s → zlen (sn_parents s) ≤ MAX_SNAPSHOT_PARENTS.

(** What a read returns: the signals in the delta, or, after a cursor reset, some signals of
    the history. *)
Definition read_result (recipient : option string) (limit : Z) (r : Result (AgentInboxResult * SignalIndex)) : Prop :=
  match r with
  | Err e => ∃ x, (reachable_from head x ∨ ∃ a, after = Some a ∧ reachable_from a x) ∧ load x = Err e
  | Ok (result, index) =>
      index_ok index ∧ zlen (ai_messages result) ≤ limit
      ∧ (∀ m, m ∈ ai_messages result → ∃ id, reachable_from head id ∧ signal_at recipient id m)
      ∧ (ai_cursor_reset result = false →
         ∀ m, m ∈ ai_messages result ↔ ∃ id, delta id ∧ signal_at recipient id m)
  end.

(** The result when the ids not in the ancestry are known to be the delta. *)
Lemma read_result_ok recipient limit w reset ancestry loaded index :
  0 ≤ limit → index_ok index → (∀ id s, loaded !! id = Some s → loads_as id s) →
  head_sound head (Ok w) → hw_loaded w ⊆ loaded →
  (reset = false → ∀ x, delta x ↔ x ∈ hw_candidates w ∧ x ∉ ancestry) →
  read_result recipient limit
    (Ok (signals_result head recipient limit reset ancestry loaded (hw_candidates w), index)).
Proof.
  intros Hlimit Hidx Hloaded (_ & _ & _ & _ & Hcand) Hsub Hdelta.
  destruct (signals_result_spec head recipient limit reset ancestry loaded (hw_candidates w)) as (Hlen & Hsound & Hexact);
    [done..| |].
  { intros id Hid. apply Hcand in Hid as [_ Hid]. by apply (subseteq_dom _ _ Hsub). }
  split; [done|]. split; [done|]. split.
  - intros m (id & Hid & _ & Hm)%Hsound. exists id. split; [by apply Hcand|done].
  - intros Hreset. destruct (Hexact Hreset) as [Hr Hm]. intros m. rewrite Hm. split.
    + intros (id & Hid & Hnot & Hs). exists id. split; [by apply Hdelta|done].
    + intros (id & Hid & Hs). apply Hdelta in Hid as [? ?]; [|done]. by exists id.
Qed.

Definition walk_reset (w : HeadWalk) : bool :=
  scan_requires_cursor_reset after (hw_exhausted w) (hw_after_found w).

Lemma walk_complete w :
  head_result after head (Ok w) → walk_reset w = false →
  head_inv after head w ∧ hw_pending w = [] ∧ hw_after_found w = true.
Proof.
  intros Hres [He Hreset]%orb_false_iff. destruct (Hres He) as [Hinv Hp]. split; [done|]. split; [done|].
  apply andb_false_iff in Hreset as [Hn|Hf]; [|by apply negb_false_iff in Hf].
  apply bool_decide_eq_false, dec_stable in Hn. apply (hi_found _ _ _ Hinv). intros a Ha. congruence.
Qed.

Lemma walked_read recipient limit w :
  0 ≤ limit → head_result after head (Ok w) → head_sound head (Ok w) →
  (∀ a, after = Some a → walk_reset w = false → hw_saw_merge w = false) →
  read_result recipient limit
    (Ok (signals_result head recipient limit (walk_reset w) ∅ (hw_loaded w) (hw_candidates w), hw_index w)).
Proof using acyclic.
  intros Hlimit Hres Hsound Hmerge. apply read_result_ok; try done; [apply Hsound..|].
  intros Hreset x. destruct (walk_complete w Hres Hreset) as (Hinv & Hp & Hf).
  rewrite (candidates_delta w x Hinv Hp Hf). split; intros [Hx Hnot]; (split; [done|]).
  - apply not_elem_of_empty.
  - intros a Ha. apply (chain_delta w a x Hinv Hf); try done. by apply (Hmerge a).
Qed.

(** The read when the ancestry of the cursor has to be walked as well. *)
Lemma painted_read recipient limit w c cursor :
  0 ≤ limit → after = Some cursor → walk_reset w = false → head_result after head (Ok w) → head_sound head (Ok w) →
  cursor_result cursor (hw_loaded w) (Ok c) →
  read_result recipient limit
    (Ok (signals_result head recipient limit (cw_exhausted c) (if cw_exhausted c then ∅ else cw_ancestry c)
           (cw_loaded c) (hw_candidates w), cw_index c)).
Proof.
  intros Hlimit Hafter Hreset Hres Hsound (Hidx & Hloaded & Hsub & Hanc). apply read_result_ok; try done.
  intros He x. rewrite He. destruct (walk_complete w Hres Hreset) as (Hinv & Hp & Hf).
  rewrite (candidates_delta w x Hinv Hp Hf), (Hanc He). split; intros [Hx Hnot]; (split; [done|]); [by apply Hnot|].
  intros a Ha. congruence.
Qed.

(** C33. A read of signals is exact. On every history whose snapshots have at most two parents and
    no cycle, with a cache that agrees with it, a read ends; it fails only where a snapshot of
    the history does not load; it returns at most the requested number of messages, all of them
    signals of the history; and unless it reports a cursor reset, it returns exactly the signals
    in the snapshots reachable from the head but not from the cursor. *)
Theorem signals_delta_exact format_version index recipient limit :
  3 ≤ format_version → index_ok index → 0 ≤ limit →
  ∃ r, collect_signals format_version (Some head) index after recipient limit = Some r
       ∧ read_result recipient limit r.
Proof using acyclic parents_bounded.
  intros Hfv Hidx Hlimit. unfold collect_signals. destruct (Z.ltb_spec format_version 3); [lia|].
  case_bool_decide as Heq.
  { eexists. split; [done|]. destruct (load head) as [s|e] eqn:Hload; simpl; [|exists head; split; [left; constructor|done]].
    split; [done|]. split; [done|]. split; [by intros m ?%not_elem_of_nil|]. intros _ m.
    split; [by intros ?%not_elem_of_nil|]. intros (id & [Hr Hnot] & _). by destruct (Hnot head Heq). }
  destruct (head_walk_total after head parents_bounded index Hidx) as (r & Hr & Hres & Hsound).
  rewrite Hr. simpl. destruct r as [w|e]; [|exists (Err e); split; [done|]].
  2: { destruct Hres as (x & Hx & Hload). exists x. split; [by left|done]. }
  change (scan_requires_cursor_reset after (hw_exhausted w) (hw_after_found w)) with (walk_reset w).
  destruct after as [cursor|] eqn:Hafter in |- *; cycle 1.
  { eexists. split; [done|]. apply walked_read; try done. congruence. }
  destruct (negb (walk_reset w) && hw_saw_merge w) eqn:Hpaint; cycle 1.
  { eexists. split; [done|]. apply walked_read; try done. intros a _ Hreset. by rewrite Hreset in Hpaint. }
  apply andb_true_iff in Hpaint as [Hreset%negb_true_iff _]. pose proof Hsound as (Hi & Hl & Hs & _).
  destruct (cursor_walk_total cursor (hw_loaded w) parents_bounded (hw_index w) Hi Hl Hs) as (r & Hc & Hcres).
  rewrite Hc. simpl. destruct r as [c|e]; eexists; (split; [done|]); [by eapply painted_read|].
  destruct Hcres as (x & Hx & Hload). exists x. split; [right; by exists cursor|done].
Qed.
End delta.
End messages.

(** ** A concrete history *)

(** A rank that parents lower rules out cycles. *)
Lemma acyclic_by_rank `{SnapshotLoader} (rank : string → nat) :
  (∀ x y, parent x y → (rank y < rank x)%nat) → ∀ a b, reachable_from a b → reachable_from b a → a = b.
Proof.
  intros Hrank. assert (∀ a b, reachable_from a b → a = b ∨ (rank b < rank a)%nat) as Hreach.
  { intros a b Hab. induction Hab as [|x y z Hxy _ IH]; [by left|]. right. specialize (Hrank x y Hxy).
    destruct IH as [<-|?]; lia. }
  intros a b Hab Hba. destruct (Hreach a b Hab) as [?|?]; [done|]. destruct (Hreach b a Hba) as [?|?]; [done|lia].
Qed.

(** Two signals on top of a plain snapshot. *)
Definition demo_payload : AgentMessagePayload :=
  mkAgentMessagePayload "*" Status "working" (String.string_of_list_ascii (replicate 64 ("a" : ascii))) None.
Definition demo_message_json : MessageJson := {|
  payload_to_string _ := "working";
  payload_from_str json := if bool_decide (json = "working") then Some demo_payload else None;
|}.
Definition demo_history : SnapshotLoader := λ id,
  if bool_decide (id = "c") then Ok (mkSnapshot "" ["b"] "ann" 3 (Some "ffmsg1:working"))
  else if bool_decide (id = "b") then Ok (mkSnapshot "" ["a"] "ann" 2 (Some "ffmsg1:working"))
  else if bool_decide (id = "a") then Ok (mkSnapshot "" [] "ann" 1 None)
  else Err "missing".
Definition demo_rank (id : string) : nat :=
  if bool_decide (id = "c") then 2 else if bool_decide (id = "b") then 1 else 0.

Lemma demo_history_Ok id s :
  @load demo_history id = Ok s →
  (id = "c" ∧ sn_parents s = ["b"]) ∨ (id = "b" ∧ sn_parents s = ["a"]) ∨ (id = "a" ∧ sn_parents s = []).
Proof. unfold load, demo_history. repeat case_bool_decide; naive_solver. Qed.

(** The statement applied to a read of the newest signal, after the older one. *)
Lemma signals_delta_exact_witness :
  ∃ result index,
    @collect_signals demo_message_json demo_history 3 (Some "c") ∅ (Some "b") None 10 = Some (Ok (result, index))
    ∧ ms_message_id <$> ai_messages result = ["c"]
    ∧ ∀ m, m ∈ ai_messages result ↔
        ∃ id, @delta demo_history (Some "b") "c" id ∧ @signal_at demo_message_json demo_history None id m.
Proof.
  destruct (@signals_delta_exact demo_message_json demo_history (Some "b") "c") with (format_version := 3)
    (index := (∅ : SignalIndex)) (recipient := @None string) (limit := 10) as (r & Hr & Hres).
  - apply (@acyclic_by_rank demo_history demo_rank).
    intros x y (s & Hs & Hy). apply demo_history_Ok in Hs as [[-> Hp]|[[-> Hp]|[-> Hp]]]; rewrite Hp in Hy;
      [apply list_elem_of_singleton in Hy as ->; vm_compute; lia..|by apply not_elem_of_nil in Hy].
  - intros id s [[_ ->]|[[_ ->]|[_ ->]]]%demo_history_Ok; vm_compute; discriminate.
  - discriminate.
  - intros id e He. unfold SignalIndex in He. by rewrite lookup_empty in He.
  - discriminate.
  - assert (∃ result index,
      @collect_signals demo_message_json demo_history 3 (Some "c") ∅ (Some "b") None 10 = Some (Ok (result, index))
      ∧ ms_message_id <$> ai_messages result = ["c"] ∧ ai_cursor_reset result = false)
      as (result & index & Hrun & Hids & Hreset).
    { eexists _, _. split; [vm_compute; reflexivity|]. split; vm_compute; reflexivity. }
    exists result, index. split; [exact Hrun|]. split; [exact Hids|]. rewrite Hrun in Hr. injection Hr as <-.
    destruct Hres as (_ & _ & _ & Hexact). exact (Hexact Hreset).
Defined.
