(* ===== verification/IntegratorContract.v ===== *)
(** * Integrator assignment: the contract

    common/src/integrator_contract.rs: candidates and their filtering, the auditable ranking, the
    [ffint1] profiles with their validation, and the digest. Constructors that other contracts use
    as well carry a prefix ([As], [At], [Vs], [Os], [Pf]). *)
From Stdlib Require Import ZArith Lia Ascii Strings.Byte.
From stdpp Require Import sorting numbers strings gmap list_numbers list options.
From S2P Require Import Prelude Text Paths Model Codec WorkContract AgentContract.

Local Open Scope Z_scope.

Definition INTEGRATOR_ALGORITHM_VERSION : string := "feanorfs-integrator-selection-v1".
Definition INTEGRATOR_PROFILE_DISCRIMINATOR : string := "ffint1".
Definition INTEGRATOR_MAX_CANDIDATES : Z := 64.
Definition INTEGRATOR_MAX_CAPABILITIES : Z := 64.
Definition INTEGRATOR_CAPABILITY_MAX_BYTES : Z := 32.
Definition INTEGRATOR_MAX_TASK_SUMMARY_BYTES : Z := 1024.
Definition INTEGRATOR_MAX_AUTHORS : Z := 32.
Definition INTEGRATOR_MAX_HISTORY : Z := 64.
Definition INTEGRATOR_MAX_RISKS : Z := 10.
Definition INTEGRATOR_DIGEST_FIELD_BYTES : Z := 512.
Definition INTEGRATOR_RISK_BYTES : Z := 256.
Definition INTEGRATOR_MAX_PATHS : Z := 256.
Definition INTEGRATOR_MAX_PATH_BYTES : Z := 4096.
Definition VERIFICATION_MAX_CHECKS : Z := 32.
Definition VERIFICATION_MAX_INPUT_HASHES : Z := 16.

Definition is_valid_hex_id (value : string) (bytes : Z) : bool :=
  (slen value =? bytes) && all_chars is_lower_hex value.

(** ** Data *)
Record IntegratorCandidate := mkIntegratorCandidate {
  cd_name : string;
  cd_capabilities : list string;
  cd_enabled : bool;
  cd_available : bool;
}.
Record IntegratorAssignInput := mkIntegratorAssignInput {
  in_about_snapshot : string;
  in_candidates : list IntegratorCandidate;
  in_required_capabilities : list string;
  in_conflict_authors : list string;
  in_excluded : list string;
  in_task_summary : string;
  in_ack_timeout_ms : option Z;
}.
Record EligibilityResult := mkEligibilityResult {
  el_eligible : list string;
  el_neutral : list string;
  el_neutral_integrator : bool;
  el_no_candidate_reason : option string;
}.

Inductive IntegratorAssignmentState :=
  AsCreated | AsOffered | AsAccepted | AsCompleted | AsBlocked | AsRevoked | AsRequiresHuman | AsCancelled.
#[global] Instance IntegratorAssignmentState_eq_dec : EqDecision IntegratorAssignmentState.
Proof. solve_decision. Defined.
Inductive IntegratorAttemptState :=
  AtOffered | AtAccepted | AtTimedOut | AtSuperseded | AtRevoked | AtBlocked | AtCompleted.
#[global] Instance IntegratorAttemptState_eq_dec : EqDecision IntegratorAttemptState.
Proof. solve_decision. Defined.

Definition is_open (state : IntegratorAttemptState) : bool :=
  match state with AtOffered | AtAccepted => true | _ => false end.

Record IntegratorAttempt := mkIntegratorAttempt {
  tt_attempt : Z;                         (* u32 *)
  tt_selected : string;
  tt_state : IntegratorAttemptState;
  tt_offered_at_ms : Z;
  tt_request_message_id : option string;
  tt_acceptance_message_id : option string;
  tt_terminal_message_id : option string;
  tt_reason : option string;
}.

Inductive VerificationStatus := VsPassed | VsFailed | VsUnknown.
#[global] Instance VerificationStatus_eq_dec : EqDecision VerificationStatus.
Proof. solve_decision. Defined.
Record VerificationCheck := mkVerificationCheck { vc_name : string; vc_passed : bool; vc_detail : option string }.
#[global] Instance VerificationCheck_eq_dec : EqDecision VerificationCheck.
Proof. solve_decision. Defined.
Record VerificationSummary := mkVerificationSummary {
  vs_status : VerificationStatus;
  vs_summary : string;
  vs_policy_id : option string;
  vs_policy_version : Z;
  vs_tool_ref : option string;
  vs_input_hashes : list string;
  vs_output_hash : option string;
  vs_checks : list VerificationCheck;
}.
#[global] Instance VerificationSummary_eq_dec : EqDecision VerificationSummary.
Proof. solve_decision. Defined.

Inductive IntegratorOutcomeState := OsCompleted | OsBlocked | OsRequiresHuman | OsCancelled.
#[global] Instance IntegratorOutcomeState_eq_dec : EqDecision IntegratorOutcomeState.
Proof. solve_decision. Defined.
Record IntegratorDigest := mkIntegratorDigest {
  dg_assignment_id : string;
  dg_integrator : string;
  dg_about_snapshot : string;
  dg_inspected_snapshot : string;
  dg_state : IntegratorOutcomeState;
  dg_landed_paths : Z;                    (* u64, as the next two *)
  dg_resolved_conflicts : Z;
  dg_remaining_conflicts : Z;
  dg_verification : VerificationSummary;
  dg_outcome : string;
  dg_risks : list string;
  dg_decision_required : option string;
}.
#[global] Instance IntegratorDigest_eq_dec : EqDecision IntegratorDigest.
Proof. solve_decision. Defined.

Inductive IntegratorProfile :=
  | PfAssignment (assignment_id : string) (attempt : Z) (selected about_snapshot roster_fingerprint : string)
      (neutral_integrator : bool) (task : string)
  | PfAccepted (assignment_id : string) (attempt : Z) (about_snapshot : string)
  | PfResult (assignment_id : string) (attempt : Z) (about_snapshot : string) (digest : IntegratorDigest)
  | PfBlocked (assignment_id : string) (attempt : Z) (about_snapshot reason : string).

(** [str::trim] as a string: the bytes of the code points that remain. *)
Definition utf8_len (c : Z) : Z := if c <? 0x80 then 1 else if c <? 0x800 then 2 else if c <? 0x10000 then 3 else 4.
Definition utf8_size (l : list Z) : Z := foldr (λ c n, utf8_len c + n) 0 l.
Definition trim_str (s : string) : string :=
  let rest := trim_start (chars s) in
  String.substring (Z.to_nat (utf8_size (chars s) - utf8_size rest)) (Z.to_nat (utf8_size (trim (chars s)))) s.

(** ** Verification evidence *)
Definition bounded_text (limit : Z) (value : string) : bool := negb (is_blank value) && (slen value <=? limit).
Definition check_all {A} (p : A → bool) (e : string) (l : list A) : Result unit := try_fold (λ _ x, ensure (p x) e) tt l.

Definition validate_check (check : VerificationCheck) : Result unit :=
  ensure (bounded_text 128 (vc_name check)) "verification check name is out of bounds" ;;
  match vc_detail check with
  | Some detail => ensure (slen detail <=? 512) "verification check detail is out of bounds"
  | None => Ok tt
  end.
Definition validate_verification_evidence (summary : VerificationSummary) : Result unit :=
  ensure (zlen (vs_checks summary) <=? VERIFICATION_MAX_CHECKS) "verification summary exceeds its check bound" ;;
  ensure (zlen (vs_input_hashes summary) <=? VERIFICATION_MAX_INPUT_HASHES)
    "verification summary exceeds its input-hash bound" ;;
  check_all is_valid_hash "verification input hash must be a full 64-hex digest" (vs_input_hashes summary) ;;
  match vs_output_hash summary with
  | Some output => ensure (is_valid_hash output) "verification output hash must be a full 64-hex digest"
  | None => Ok tt
  end ;;
  match vs_policy_id summary with
  | Some policy_id => ensure (bounded_text 512 policy_id) "verification policy id is out of bounds"
  | None => Ok tt
  end ;;
  match vs_tool_ref summary with
  | Some tool_ref => ensure (bounded_text 512 tool_ref) "verification tool reference is out of bounds"
  | None => Ok tt
  end ;;
  try_fold (λ _ check, validate_check check) tt (vs_checks summary).

(** ** Capabilities and eligibility *)
Definition is_capability_char (c : ascii) : bool :=
  let z := ascii_code c in in_range 97 122 z || (z =? 45) || in_range 48 57 z.
Definition normalize_capability (capability : string) : Result string :=
  ensure (negb (bool_decide (capability = ""))) "capability must not be empty" ;;
  ensure (slen capability <=? INTEGRATOR_CAPABILITY_MAX_BYTES) "capability exceeds its bound" ;;
  ensure (is_trimmed capability) "capability must already be in canonical unpadded form" ;;
  ensure (all_chars is_capability_char capability) "capability must be lowercase ASCII letters, digits, or '-'" ;;
  Ok capability.
Definition push_capability (out : list string) (capability : string) : Result (list string) :=
  normalized ← normalize_capability capability;
  ensure (bool_decide (normalized ∉ out)) "duplicate capability" ;;
  Ok (out ++ [normalized]).
Definition normalize_capabilities (capabilities : list string) : Result (list string) :=
  ensure (zlen capabilities <=? INTEGRATOR_MAX_CAPABILITIES) "capability list exceeds its bound" ;;
  out ← try_fold push_capability [] capabilities;
  Ok (sort_strings out).

Definition validate_candidate (candidate : IntegratorCandidate) (seen : list string) : Result (list string) :=
  ensure (is_valid_agent_name (cd_name candidate)) "invalid candidate name" ;;
  ensure (bool_decide (cd_name candidate ∉ seen)) "duplicate candidate" ;;
  normalize_capabilities (cd_capabilities candidate) ;;
  Ok (seen ++ [cd_name candidate]).

(** The lists the loop over the candidates fills. *)
Record Filter := mkFilter { fl_seen : list string; fl_eligible : list string; fl_neutral : list string }.
Definition filter_candidate (required excluded conflict_authors : list string) (f : Filter)
    (candidate : IntegratorCandidate) : Result Filter :=
  seen ← validate_candidate candidate (fl_seen f);
  let skip := Ok (mkFilter seen (fl_eligible f) (fl_neutral f)) in
  if negb (cd_enabled candidate) || negb (cd_available candidate) then skip else
  if bool_decide (cd_name candidate ∈ excluded) then skip else
  capabilities ← normalize_capabilities (cd_capabilities candidate);
  if negb (forallb (λ cap, bool_decide (cap ∈ capabilities)) required) then skip else
  Ok (mkFilter seen (fl_eligible f ++ [cd_name candidate])
        (if bool_decide (cd_name candidate ∈ conflict_authors) then fl_neutral f
         else fl_neutral f ++ [cd_name candidate])).

Definition filter_eligible (input : IntegratorAssignInput) : Result EligibilityResult :=
  ensure (negb (bool_decide (length (in_candidates input) = 0%nat))) "candidate roster must not be empty" ;;
  ensure (zlen (in_candidates input) <=? INTEGRATOR_MAX_CANDIDATES) "candidate roster exceeds its bound" ;;
  ensure (bounded_text INTEGRATOR_MAX_TASK_SUMMARY_BYTES (in_task_summary input))
    "task summary must be non-empty and bounded" ;;
  ensure (is_valid_hash (in_about_snapshot input)) "about_snapshot must be a full 64-hex snapshot id" ;;
  ensure ((zlen (in_conflict_authors input) <=? INTEGRATOR_MAX_AUTHORS)
          && (zlen (in_excluded input) <=? INTEGRATOR_MAX_AUTHORS)) "conflict author or exclusion list exceeds its bound" ;;
  check_all is_valid_agent_name "invalid agent name in authors/exclusions"
    (in_conflict_authors input ++ in_excluded input) ;;
  required ← normalize_capabilities (in_required_capabilities input);
  f ← try_fold (filter_candidate required (in_excluded input) (in_conflict_authors input)) (mkFilter [] [] [])
        (in_candidates input);
  let eligible := sort_strings (fl_eligible f) in
  let neutral := sort_strings (fl_neutral f) in
  let '(pool, neutral_integrator) := if bool_decide (neutral = []) then (eligible, false) else (neutral, true) in
  let no_candidate_reason :=
    if bool_decide (pool = []) then
      Some (if bool_decide (eligible = [])
            then "no eligible candidate satisfies the roster, capability, and exclusion filters"
            else "no neutral candidate exists (all eligible candidates authored a conflicting side)")
    else None in
  Ok (mkEligibilityResult eligible neutral neutral_integrator no_candidate_reason).

(** ** Ranking *)
Class IntegratorJson := {
  integrator_to_string : IntegratorProfile → string;
  integrator_from_str : string → option IntegratorProfile;
  names_to_string : list string → string;          (* of a list of names *)
}.

Definition roster_fingerprint `{Blake3, IntegratorJson} (pool : list string) : Result string :=
  ensure (negb (bool_decide (pool = []))) "final candidate pool must not be empty" ;;
  let sorted := sort_strings pool in
  check_all is_valid_agent_name "invalid candidate name" sorted ;;
  Ok (hash_bytes (as_bytes (names_to_string sorted))).

Definition len_prefixed (value : string) : list byte := le_bytes 8 (slen value) ++ as_bytes value.

(** The digest is compared as its hexadecimal text, which is ordered as the 32 bytes are. *)
Definition score `{Blake3} (workspace_id about_snapshot assignment_id selection_nonce roster name : string) : string :=
  hash_bytes (concat (len_prefixed <$> [INTEGRATOR_ALGORITHM_VERSION; workspace_id; about_snapshot; assignment_id;
                                          selection_nonce; roster; name])).
Definition ranks_before (a b : string * string) : bool :=
  bool_decide (str_lt a.2 b.2) || bool_decide (a.2 = b.2) && bool_decide (String.le a.1 b.1).
Fixpoint insert_ranked (x : string * string) (l : list (string * string)) : list (string * string) :=
  match l with
  | [] => [x]
  | y :: l' => if ranks_before x y then x :: y :: l' else y :: insert_ranked x l'
  end.
Definition sort_ranked (l : list (string * string)) : list (string * string) := foldr insert_ranked [] l.

Definition rank_candidates `{Blake3} (workspace_id about_snapshot assignment_id selection_nonce roster : string)
    (candidates : list string) : Result (list string) :=
  ensure (negb (bool_decide (candidates = []))) "candidate pool must not be empty" ;;
  ensure (is_valid_hash about_snapshot && is_valid_hash roster)
    "about_snapshot and roster_fingerprint must be full 64-hex ids" ;;
  ensure (is_valid_hex_id assignment_id 32) "assignment_id must be exactly 32 lowercase hex chars (128 bits)" ;;
  ensure (is_valid_hex_id selection_nonce 64) "selection_nonce must be exactly 64 lowercase hex chars (256 bits)" ;;
  check_all is_valid_agent_name "invalid candidate name" candidates ;;
  Ok (fst <$> sort_ranked ((λ name,
        (name, score workspace_id about_snapshot assignment_id selection_nonce roster name)) <$> candidates)).

(** ** Profiles *)
Definition validate_integrator_digest (digest : IntegratorDigest) : Result unit :=
  ensure (is_valid_hex_id (dg_assignment_id digest) 32) "digest assignment_id must be exactly 32 lowercase hex chars" ;;
  ensure (is_valid_agent_name (dg_integrator digest)) "digest integrator must be a valid agent name" ;;
  ensure (is_valid_hash (dg_about_snapshot digest) && is_valid_hash (dg_inspected_snapshot digest))
    "digest snapshots must be full 64-hex ids" ;;
  ensure (bounded_text INTEGRATOR_DIGEST_FIELD_BYTES (dg_outcome digest)) "digest outcome must be non-empty and bounded" ;;
  ensure (slen (vs_summary (dg_verification digest)) <=? INTEGRATOR_DIGEST_FIELD_BYTES)
    "digest verification summary exceeds its bound" ;;
  ensure (zlen (dg_risks digest) <=? INTEGRATOR_MAX_RISKS) "digest risks exceed their bound" ;;
  check_all (λ risk, slen risk <=? INTEGRATOR_RISK_BYTES) "digest risk exceeds its bound" (dg_risks digest) ;;
  match dg_decision_required digest with
  | Some question => ensure (bounded_text INTEGRATOR_DIGEST_FIELD_BYTES question)
                       "digest decision question must be non-empty and bounded"
  | None => Ok tt
  end ;;
  match dg_state digest with
  | OsCompleted =>
      ensure (bool_decide (vs_status (dg_verification digest) = VsPassed) && (dg_remaining_conflicts digest =? 0)
              && bool_decide (dg_decision_required digest = None))
        "completed digest requires passed verification, zero remaining conflicts, and no decision"
  | OsRequiresHuman =>
      ensure (negb (bool_decide (dg_decision_required digest = None)))
        "requires_human digest must include one decision question"
  | OsBlocked | OsCancelled => Ok tt
  end.

Definition profile_header (profile : IntegratorProfile) : string * Z * string :=
  match profile with
  | PfAssignment id attempt _ about _ _ _ | PfAccepted id attempt about | PfResult id attempt about _
  | PfBlocked id attempt about _ => (id, attempt, about)
  end.
Definition validate_profile (profile : IntegratorProfile) : Result unit :=
  let '(assignment_id, attempt, about_snapshot) := profile_header profile in
  ensure (is_valid_hex_id assignment_id 32) "ffint1 assignment_id must be exactly 32 lowercase hex chars" ;;
  ensure (is_valid_hash about_snapshot) "ffint1 about_snapshot must be a full 64-hex snapshot id" ;;
  ensure (attempt <=? 10000) "ffint1 attempt count exceeds the bounded maximum" ;;
  match profile with
  | PfAssignment _ _ selected _ roster _ task =>
      ensure (is_valid_agent_name selected) "ffint1 selected must be a valid agent name" ;;
      ensure (is_valid_hash roster) "ffint1 roster_fingerprint must be a full 64-hex id" ;;
      ensure (bounded_text INTEGRATOR_MAX_TASK_SUMMARY_BYTES task) "ffint1 task must be non-empty and bounded"
  | PfAccepted _ _ _ => Ok tt
  | PfResult id _ about digest =>
      ensure (bool_decide (dg_assignment_id digest = id) && bool_decide (dg_about_snapshot digest = about))
        "ffint1 result digest must match its assignment and about snapshot" ;;
      validate_integrator_digest digest
  | PfBlocked _ _ _ reason =>
      ensure (bounded_text INTEGRATOR_DIGEST_FIELD_BYTES reason) "ffint1 blocker reason must be non-empty and bounded"
  end.

Definition encode_integrator_profile `{IntegratorJson} (profile : IntegratorProfile) : Result string :=
  validate_profile profile ;;
  let encoded := INTEGRATOR_PROFILE_DISCRIMINATOR +:+ ":" +:+ integrator_to_string profile in
  ensure (slen encoded <=? AGENT_MESSAGE_MAX_BODY_BYTES) "ffint1 profile exceeds the 8 KiB signal body bound" ;;
  Ok encoded.
Definition parse_integrator_profile `{IntegratorJson} (body : string) : option IntegratorProfile :=
  if AGENT_MESSAGE_MAX_BODY_BYTES <? slen body then None else
  json ← strip_prefix INTEGRATOR_PROFILE_DISCRIMINATOR body;
  json ← strip_prefix ":" json;
  profile ← integrator_from_str json;
  if negb (bool_decide (integrator_to_string profile = json)) then None else
  if is_ok (validate_profile profile) then Some profile else None.

(** ** Conflict materialization input *)
Record ConflictMaterializeInput := mkConflictMaterializeInput {
  cm_about_snapshot : string;
  cm_paths : option (list string);
  cm_all : bool;
}.
Definition check_path `{Unicode} (seen : gset string) (path : string) : Result (gset string) :=
  ensure ((slen path <=? INTEGRATOR_MAX_PATH_BYTES) && is_safe_rel_path path)
    "materialization path must be canonical, safe, and bounded" ;;
  ensure (bool_decide (path ∉ seen)) "duplicate materialization path" ;;
  Ok ({[ path ]} ∪ seen).
Definition validate_path_list `{Unicode} (paths : list string) : Result unit :=
  ensure (zlen paths <=? INTEGRATOR_MAX_PATHS) "path list exceeds its bound" ;;
  try_fold check_path ∅ paths ;;
  Ok tt.
Definition ConflictMaterializeInput_validate `{Unicode} (input : ConflictMaterializeInput)
    : Result (string * list string) :=
  match cm_all input, cm_paths input with
  | true, None => Ok (cm_about_snapshot input, [])
  | false, Some paths =>
      ensure (negb (bool_decide (paths = [])))
        "conflict materialization paths must not be empty; use all=true explicitly" ;;
      validate_path_list paths ;;
      Ok (cm_about_snapshot input, paths)
  | true, Some _ => Err "choose either all=true or paths, not both"
  | false, None => Err "conflict materialization requires paths or all=true"
  end.
