(* ===== verification/Integrator.v ===== *)
(** * Integrator dispatcher

    agent-core/src/integrator.rs: the durable state of the dispatcher and its operations (assign,
    status, revoke, observe, resume). The workspace is the sequence of snapshots published on it,
    some of which carry a signal; a read of signals returns those after the cursor, or fails, or
    reports a reset, which is what the read of signals does on its history. What other agents publish, which calls fail
    and what the clock and the random source give is a stream of answers, one for each question
    the code asks. *)
From Stdlib Require Import ZArith Lia Ascii Strings.Byte.
From stdpp Require Import sorting numbers strings gmap list_numbers list options.
From S2P Require Import Prelude Text Paths Model WorkContract AgentContract Signals IntegratorContract.

Local Open Scope Z_scope.

#[global] Instance AgentMessageKind_eq_decision : EqDecision AgentMessageKind.
Proof. solve_decision. Defined.

Definition INTEGRATOR_STATE_SCHEMA_VERSION : Z := 2.
Definition INTEGRATOR_MAX_ATTEMPTS : Z := 64.
Definition INTEGRATOR_OBSERVE_LIMIT : Z := AGENT_INBOX_MAX_LIMIT.

(** ** The state file *)
Record PersistedIntegratorAssignment := mkAssignment {
  as_assignment_id : string;
  as_selection_nonce : string;
  as_about_snapshot : string;
  as_roster_fingerprint : string;
  as_ranked : list string;
  as_neutral_integrator : bool;
  as_eligible : list string;
  as_task_summary : string;
  as_required_capabilities : list string;
  as_ack_timeout_ms : option Z;
  as_conflict_authors : list string;
  as_excluded : list string;
  as_state : IntegratorAssignmentState;
  as_attempts : list IntegratorAttempt;
  as_created_at_ms : Z;
  as_updated_at_ms : Z;
  as_inbox_cursor : option string;
  as_digest : option IntegratorDigest;
}.
Record IntegratorStateFile := mkIntegratorStateFile {
  if_schema_version : Z;
  if_active : option PersistedIntegratorAssignment;
  if_history : list PersistedIntegratorAssignment;
}.

Definition with_state (s : IntegratorAssignmentState) (a : PersistedIntegratorAssignment) : PersistedIntegratorAssignment :=
  mkAssignment (as_assignment_id a) (as_selection_nonce a) (as_about_snapshot a) (as_roster_fingerprint a) (as_ranked a)
    (as_neutral_integrator a) (as_eligible a) (as_task_summary a) (as_required_capabilities a) (as_ack_timeout_ms a)
    (as_conflict_authors a) (as_excluded a) s (as_attempts a) (as_created_at_ms a) (as_updated_at_ms a)
    (as_inbox_cursor a) (as_digest a).
Definition with_attempts (l : list IntegratorAttempt) (a : PersistedIntegratorAssignment) : PersistedIntegratorAssignment :=
  mkAssignment (as_assignment_id a) (as_selection_nonce a) (as_about_snapshot a) (as_roster_fingerprint a) (as_ranked a)
    (as_neutral_integrator a) (as_eligible a) (as_task_summary a) (as_required_capabilities a) (as_ack_timeout_ms a)
    (as_conflict_authors a) (as_excluded a) (as_state a) l (as_created_at_ms a) (as_updated_at_ms a)
    (as_inbox_cursor a) (as_digest a).
Definition with_updated (now : Z) (a : PersistedIntegratorAssignment) : PersistedIntegratorAssignment :=
  mkAssignment (as_assignment_id a) (as_selection_nonce a) (as_about_snapshot a) (as_roster_fingerprint a) (as_ranked a)
    (as_neutral_integrator a) (as_eligible a) (as_task_summary a) (as_required_capabilities a) (as_ack_timeout_ms a)
    (as_conflict_authors a) (as_excluded a) (as_state a) (as_attempts a) (as_created_at_ms a) now
    (as_inbox_cursor a) (as_digest a).
Definition with_cursor (cursor : option string) (a : PersistedIntegratorAssignment) : PersistedIntegratorAssignment :=
  mkAssignment (as_assignment_id a) (as_selection_nonce a) (as_about_snapshot a) (as_roster_fingerprint a) (as_ranked a)
    (as_neutral_integrator a) (as_eligible a) (as_task_summary a) (as_required_capabilities a) (as_ack_timeout_ms a)
    (as_conflict_authors a) (as_excluded a) (as_state a) (as_attempts a) (as_created_at_ms a) (as_updated_at_ms a)
    cursor (as_digest a).
Definition with_digest (digest : IntegratorDigest) (a : PersistedIntegratorAssignment) : PersistedIntegratorAssignment :=
  mkAssignment (as_assignment_id a) (as_selection_nonce a) (as_about_snapshot a) (as_roster_fingerprint a) (as_ranked a)
    (as_neutral_integrator a) (as_eligible a) (as_task_summary a) (as_required_capabilities a) (as_ack_timeout_ms a)
    (as_conflict_authors a) (as_excluded a) (as_state a) (as_attempts a) (as_created_at_ms a) (as_updated_at_ms a)
    (as_inbox_cursor a) (Some digest).

Definition attempt_with_state (s : IntegratorAttemptState) (t : IntegratorAttempt) : IntegratorAttempt :=
  mkIntegratorAttempt (tt_attempt t) (tt_selected t) s (tt_offered_at_ms t) (tt_request_message_id t)
    (tt_acceptance_message_id t) (tt_terminal_message_id t) (tt_reason t).
Definition attempt_with_reason (reason : string) (t : IntegratorAttempt) : IntegratorAttempt :=
  mkIntegratorAttempt (tt_attempt t) (tt_selected t) (tt_state t) (tt_offered_at_ms t) (tt_request_message_id t)
    (tt_acceptance_message_id t) (tt_terminal_message_id t) (Some reason).
Definition attempt_with_request (id : string) (t : IntegratorAttempt) : IntegratorAttempt :=
  mkIntegratorAttempt (tt_attempt t) (tt_selected t) (tt_state t) (tt_offered_at_ms t) (Some id)
    (tt_acceptance_message_id t) (tt_terminal_message_id t) (tt_reason t).
Definition attempt_with_acceptance (id : string) (t : IntegratorAttempt) : IntegratorAttempt :=
  mkIntegratorAttempt (tt_attempt t) (tt_selected t) (tt_state t) (tt_offered_at_ms t) (tt_request_message_id t)
    (Some id) (tt_terminal_message_id t) (tt_reason t).
Definition attempt_with_terminal (id : string) (t : IntegratorAttempt) : IntegratorAttempt :=
  mkIntegratorAttempt (tt_attempt t) (tt_selected t) (tt_state t) (tt_offered_at_ms t) (tt_request_message_id t)
    (tt_acceptance_message_id t) (Some id) (tt_reason t).

(** [if let Some(last) = list.last_mut() { .. }] *)
Fixpoint alter_last {A} (f : A → A) (l : list A) : list A :=
  match l with
  | [] => []
  | [x] => [f x]
  | x :: l' => x :: alter_last f l'
  end.
Definition on_last (f : IntegratorAttempt → IntegratorAttempt) (a : PersistedIntegratorAssignment)
    : PersistedIntegratorAssignment := with_attempts (alter_last f (as_attempts a)) a.

(** ** The environment *)

(** One snapshot of the workspace, with the signal it carries; the id of a signal is that of its
    snapshot. *)
Record LogEntry := mkLogEntry { le_id : string; le_payload : option AgentMessage }.
Definition le_signal (e : LogEntry) : option AgentMessage :=
  (λ m, mkAgentMessage (le_id e) (ms_from m) (ms_to m) (ms_kind m) (ms_body m) (ms_about_snapshot m) (ms_reply_to m)
          (ms_created_at_ms m)) <$> le_payload e.

Record Answer := mkAnswer {
  aw_others : list LogEntry;     (* what others published before the question *)
  aw_fails : bool;               (* the call returns an error *)
  aw_published : bool;           (* a failing send was published nevertheless *)
  aw_reset : bool;               (* a read reports a reset *)
  aw_message_id : string;        (* the id of the snapshot a send publishes *)
  aw_now : Z;                    (* the clock *)
  aw_random : list byte;         (* the random source *)
}.

Record Dispatcher := mkDispatcher {
  d_disk : IntegratorStateFile;
  d_log : list LogEntry;                    (* oldest first *)
  d_asked : nat;                            (* how many answers were used *)
  d_written : list IntegratorStateFile;     (* every state file written, newest first *)
  d_requests : list (string * Z);           (* the requests published: assignment and attempt *)
}.
Definition Dispatch (A : Type) : Type := Dispatcher → Dispatcher * Result A.
#[global] Instance dispatch_ret : MRet Dispatch := λ A a d, (d, Ok a).
#[global] Instance dispatch_bind : MBind Dispatch := λ A B f m d,
  match m d with (d, Ok a) => f a d | (d, Err e) => (d, Err e) end.
Definition checked {A} (r : Result A) : Dispatch A := λ d, (d, r).
Definition bail {A} (e : string) : Dispatch A := λ d, (d, Err e).

Section dispatcher.
Context `{Unicode, Blake3, IntegratorJson} (answers : nat → Answer).

Definition ask : Dispatch Answer := λ d,
  let a := answers (d_asked d) in
  (mkDispatcher (d_disk d) (d_log d ++ aw_others a) (S (d_asked d)) (d_written d) (d_requests d), Ok a).
(** The process may die between any two steps: a clock that fails ends the operation there. *)
Definition now_ms : Dispatch Z := a ← ask; if aw_fails a then bail "stopped" else mret (aw_now a).

(** [IntegratorStore::load] and [update]. *)
Definition load_state : Dispatch IntegratorStateFile := λ d,
  (d, ensure (if_schema_version (d_disk d) =? INTEGRATOR_STATE_SCHEMA_VERSION)
        "unsupported integrator dispatcher state schema" ;; Ok (d_disk d)).
Definition update_state (f : IntegratorStateFile → IntegratorStateFile) : Dispatch IntegratorStateFile := λ d,
  if negb (if_schema_version (d_disk d) =? INTEGRATOR_STATE_SCHEMA_VERSION)
  then (d, Err "unsupported integrator dispatcher state schema")
  else let s := f (d_disk d) in
       let s := mkIntegratorStateFile INTEGRATOR_STATE_SCHEMA_VERSION (if_active s) (if_history s) in
       (mkDispatcher s (d_log d) (d_asked d) (s :: d_written d) (d_requests d), Ok s).
Definition set_active_file (active : option PersistedIntegratorAssignment) (s : IntegratorStateFile) : IntegratorStateFile :=
  mkIntegratorStateFile (if_schema_version s) active (if_history s).
(** [if let Some(active) = &mut state.active { *active = assignment.clone(); }] *)
Definition save (assignment : PersistedIntegratorAssignment) : Dispatch unit :=
  _ ← update_state (λ s, match if_active s with
                         | Some _ => set_active_file (Some assignment) s
                         | None => s
                         end);
  mret tt.

(** ** Signals *)
Fixpoint after_id (cursor : string) (log : list LogEntry) : option (list LogEntry) :=
  match log with
  | [] => None
  | e :: log => if bool_decide (le_id e = cursor) then Some log else after_id cursor log
  end.
Definition signals_after (cursor : option string) (log : list LogEntry) : option (list AgentMessage) :=
  match match cursor with Some c => after_id c log | None => Some log end with
  | Some entries => Some (omap le_signal entries)
  | None => None
  end.

(** [inbox] with a recipient, [signals_since] without. *)
Definition read_signals (recipient cursor : option string) : Dispatch AgentInboxResult :=
  a ← ask;
  if aw_fails a then bail "remote unavailable" else λ d,
  let head := default "" (le_id <$> last (d_log d)) in
  let addressed m := match recipient with
                     | Some r => bool_decide (ms_to m = r) || bool_decide (ms_to m = "*")
                     | None => true
                     end in
  match signals_after cursor (d_log d) with
  | Some messages =>
      let found := sort_newest (List.filter addressed messages) in
      (d, Ok (mkAgentInboxResult head (aw_reset a || (INTEGRATOR_OBSERVE_LIMIT <? zlen found))
                (take (Z.to_nat INTEGRATOR_OBSERVE_LIMIT) found)))
  | None => (d, Ok (mkAgentInboxResult head true []))
  end.

(** [ensure_reachable_snapshot], as far as its callers see it. *)
Definition ensure_reachable_snapshot (about_snapshot : string) : Dispatch unit :=
  _ ← checked (ensure (is_valid_hash about_snapshot) "about_snapshot must be a full 64-hex snapshot id");
  a ← ask;
  if aw_fails a then bail "about_snapshot is not reachable from the workspace head" else mret tt.

Definition dispatcher_name : string := "human".

Definition request_of (assignment : PersistedIntegratorAssignment) (selected body id : string) (now : Z)
    : AgentMessage :=
  mkAgentMessage id dispatcher_name selected Request body (as_about_snapshot assignment) None now.
(** [send_message]: the signal is published, or the call fails before or after that. *)
Definition publish_request (assignment : PersistedIntegratorAssignment) (attempt : Z) (request : AgentMessage) (a : Answer)
    : Dispatch string := λ d,
  let published := mkDispatcher (d_disk d) (d_log d ++ [mkLogEntry (aw_message_id a) (Some request)]) (d_asked d)
                     (d_written d) (d_requests d ++ [(as_assignment_id assignment, attempt)]) in
  if aw_fails a then (if aw_published a then published else d, Err "send failed") else (published, Ok (aw_message_id a)).
Definition send_assignment_request (assignment : PersistedIntegratorAssignment) (attempt : Z) (selected : string)
    : Dispatch string :=
  body ← checked (encode_integrator_profile (PfAssignment (as_assignment_id assignment) attempt selected
           (as_about_snapshot assignment) (as_roster_fingerprint assignment) (as_neutral_integrator assignment)
           (as_task_summary assignment)));
  a ← ask;
  publish_request assignment attempt (request_of assignment selected body (aw_message_id a) (aw_now a)) a.

(** ** Views *)
Record IntegratorAttemptStatus := mkAttemptStatus {
  ax_attempt : Z; ax_selected : string; ax_state : IntegratorAttemptState; ax_offered_at_ms : Z;
  ax_request_message_id : option string; ax_terminal_message_id : option string; ax_reason : option string }.
Record IntegratorStatusResult := mkIntegratorStatusResult {
  ir_assignment_id : string; ir_about_snapshot : string; ir_state : IntegratorAssignmentState;
  ir_selected : option string; ir_attempt : Z; ir_neutral_integrator : bool; ir_roster_fingerprint : string;
  ir_fallback_order : list string; ir_task_summary : string; ir_created_at_ms : Z; ir_updated_at_ms : Z;
  ir_attempts : list IntegratorAttemptStatus; ir_digest : option IntegratorDigest; ir_inbox_cursor : option string }.

Definition attempt_status (t : IntegratorAttempt) : IntegratorAttemptStatus :=
  mkAttemptStatus (tt_attempt t) (tt_selected t) (tt_state t) (tt_offered_at_ms t) (tt_request_message_id t)
    (tt_terminal_message_id t) (tt_reason t).
(** [None]: the slice [ranked[1..]] is out of range. *)
Definition fallback_order (a : PersistedIntegratorAssignment) : option (list string) :=
  match as_ranked a with [] => None | _ :: fallback => Some fallback end.
Definition status_result (a : PersistedIntegratorAssignment) : option IntegratorStatusResult :=
  fallback ← fallback_order a;
  Some (mkIntegratorStatusResult (as_assignment_id a) (as_about_snapshot a) (as_state a)
    (tt_selected <$> last (as_attempts a)) (Z.max 0 (zlen (as_attempts a) - 1)) (as_neutral_integrator a)
    (as_roster_fingerprint a) fallback (as_task_summary a) (as_created_at_ms a) (as_updated_at_ms a)
    (attempt_status <$> as_attempts a) (as_digest a) (as_inbox_cursor a)).
(** A panic, where the source indexes out of range. *)
Definition or_panic {A} (o : option A) : Dispatch A := match o with Some a => mret a | None => bail "panic" end.

(** ** Offers *)
Definition supersede (reason : option string) (a : PersistedIntegratorAssignment) : PersistedIntegratorAssignment :=
  match reason with
  | Some reason => on_last (λ t, if is_open (tt_state t)
                                 then attempt_with_reason reason (attempt_with_state AtSuperseded t) else t) a
  | None => a
  end.
Definition offer_next (assignment : PersistedIntegratorAssignment) (supersede_reason : option string)
    : Dispatch PersistedIntegratorAssignment :=
  let index := length (as_attempts assignment) in
  match as_ranked assignment !! index with
  | None => bail "no ranked candidate remains to offer"
  | Some selected =>
      _ ← checked (ensure (Z.of_nat index <? INTEGRATOR_MAX_ATTEMPTS) "assignment exceeded the maximum attempt count");
      let assignment := supersede supersede_reason assignment in
      now ← now_ms;
      let offered := mkIntegratorAttempt (Z.of_nat index) selected AtOffered now None None None None in
      let assignment := with_updated now (with_state AsOffered
                          (with_attempts (as_attempts assignment ++ [offered]) assignment)) in
      _ ← save assignment;
      message_id ← send_assignment_request assignment (Z.of_nat index) selected;
      let assignment := with_cursor (Some message_id) (on_last (attempt_with_request message_id) assignment) in
      _ ← save assignment;
      mret assignment
  end.

(** ** Assigning *)
Record IntegratorAssignResult := mkIntegratorAssignResult {
  is_assignment_id : string; is_about_snapshot : string; is_selected : string; is_fallback_order : list string;
  is_neutral_integrator : bool; is_roster_fingerprint : string; is_attempt : Z; is_request_message_id : string;
  is_task_summary : string }.

Fixpoint hex_lower (bytes : list byte) : string :=
  match bytes with
  | [] => ""
  | b :: bytes => String (hex_digit (byteZ b / 16)) (String (hex_digit (byteZ b mod 16)) (hex_lower bytes))
  end.
Definition generate_assignment_id : Dispatch string := a ← ask; mret (hex_lower (take 16 (aw_random a))).
Definition generate_selection_nonce : Dispatch string := a ← ask; mret (hex_lower (take 32 (aw_random a))).

Definition created_assignment (input : IntegratorAssignInput) (pool required ranked : list string) (neutral : bool)
    (assignment_id nonce fingerprint : string) (now : Z) : PersistedIntegratorAssignment :=
  mkAssignment assignment_id nonce (in_about_snapshot input) fingerprint ranked neutral pool (in_task_summary input)
    required (in_ack_timeout_ms input) (in_conflict_authors input) (in_excluded input) AsCreated [] now now None None.

Definition selection_pool (e : EligibilityResult) : list string :=
  if el_neutral_integrator e then el_neutral e else el_eligible e.

(** [lock]: the outcome of taking the dispatcher lock. *)
Definition integrator_assign (workspace_id : string) (format_version : Z) (lock : Result unit)
    (input : IntegratorAssignInput) : Dispatch IntegratorAssignResult :=
  eligibility ← checked (filter_eligible input);
  match el_no_candidate_reason eligibility with Some _ => bail "cannot assign an integrator" | None =>
  if format_version <? 3 then bail "integrator assignment requires format v3" else
  _ ← ensure_reachable_snapshot (in_about_snapshot input);
  _ ← checked lock;
  _ ← load_state;
  let pool := selection_pool eligibility in
  required ← checked (normalize_capabilities (in_required_capabilities input));
  assignment_id ← generate_assignment_id;
  nonce ← generate_selection_nonce;
  fingerprint ← checked (roster_fingerprint pool);
  ranked ← checked (rank_candidates workspace_id (in_about_snapshot input) assignment_id nonce fingerprint pool);
  now ← now_ms;
  before ← load_state;
  _ ← checked (ensure (match if_active before with None => true | Some _ => false end)
                 "an integrator assignment is already active; revoke or complete it first");
  let created := created_assignment input pool required ranked (el_neutral_integrator eligibility) assignment_id nonce
                   fingerprint now in
  _ ← update_state (set_active_file (Some created));
  assignment ← offer_next created None;
  _ ← save assignment;
  match last (as_attempts assignment) with
  | None => bail "assignment has no attempt after offer"
  | Some current =>
      fallback ← or_panic (fallback_order assignment);
      request ← checked (or_context (tt_request_message_id current) "offer did not record a request message id");
      mret (mkIntegratorAssignResult assignment_id (as_about_snapshot assignment) (tt_selected current) fallback
              (as_neutral_integrator assignment) fingerprint (tt_attempt current) request (as_task_summary assignment))
  end end.

(** ** Status and revocation *)
Definition integrator_status (assignment_id : option string) : Dispatch IntegratorStatusResult :=
  state ← load_state;
  match assignment_id with
  | Some id =>
      _ ← checked (ensure (is_valid_hex_id id 32) "assignment_id must be exactly 32 lowercase hex chars");
      let has_id a := bool_decide (as_assignment_id a = id) in
      match match if_active state with Some a => if has_id a then Some a else None | None => None end with
      | Some a => or_panic (status_result a)
      | None => a ← checked (or_context (find has_id (if_history state)) "assignment not found");
                or_panic (status_result a)
      end
  | None => a ← checked (or_context (if_active state) "no active integrator assignment"); or_panic (status_result a)
  end.

(** The sort of [archive]: newest first, then the larger id; stable. *)
Definition archived_before (a b : PersistedIntegratorAssignment) : bool :=
  (as_updated_at_ms b <? as_updated_at_ms a)
  || (as_updated_at_ms a =? as_updated_at_ms b) && bool_decide (str_lt (as_assignment_id b) (as_assignment_id a)).
Fixpoint insert_archived (x : PersistedIntegratorAssignment) (l : list PersistedIntegratorAssignment)
    : list PersistedIntegratorAssignment :=
  match l with
  | [] => [x]
  | y :: l' => if archived_before y x then y :: insert_archived x l' else x :: y :: l'
  end.
Definition archive (assignment : PersistedIntegratorAssignment) (s : IntegratorStateFile) : IntegratorStateFile :=
  mkIntegratorStateFile (if_schema_version s) None
    (take (Z.to_nat INTEGRATOR_MAX_HISTORY) (foldr insert_archived [] (if_history s ++ [assignment]))).

Definition integrator_revoke (lock : Result unit) (assignment_id reason : string) : Dispatch IntegratorStatusResult :=
  _ ← checked (ensure (is_valid_hex_id assignment_id 32) "assignment_id must be exactly 32 lowercase hex chars");
  let reason := trim_str reason in
  _ ← checked (ensure (negb (bool_decide (reason = "")) && (slen reason <=? INTEGRATOR_DIGEST_FIELD_BYTES))
                 "revocation reason must be non-empty and bounded");
  _ ← checked lock;
  state ← load_state;
  assignment ← checked (or_context
    (match if_active state with
     | Some a => if bool_decide (as_assignment_id a = assignment_id) then Some a else None
     | None => None
     end) "no active assignment with that id");
  _ ← checked (ensure (match as_state assignment with
                       | AsCreated | AsOffered | AsAccepted | AsRequiresHuman => true
                       | _ => false
                       end) "assignment is already terminal");
  let revoked_open := bool_decide (as_state assignment = AsAccepted) in
  now ← now_ms;
  let assignment := with_updated now
        (on_last (λ t, attempt_with_reason reason (attempt_with_state AtRevoked t)) assignment) in
  assignment ←
    (if revoked_open && (zlen (as_attempts assignment) <? zlen (as_ranked assignment))
     then offer_next assignment (Some reason)
     else
       let assignment := on_last (attempt_with_reason reason) (with_state AsCancelled assignment) in
       state ← load_state;
       _ ← update_state (λ _, archive assignment state);
       mret assignment);
  or_panic (status_result assignment).

(** ** Observation *)
Inductive PendingOfferRecovery := OfferPublished (message_id : string) | OfferAbsent | OfferUncertain (reason : string).

Definition is_assignment_request (assignment : PersistedIntegratorAssignment) (attempt : IntegratorAttempt)
    (m : AgentMessage) : bool :=
  if negb (bool_decide (ms_from m = dispatcher_name)) || negb (bool_decide (ms_to m = tt_selected attempt))
     || negb (bool_decide (ms_kind m = Request)) || negb (bool_decide (ms_about_snapshot m = as_about_snapshot assignment))
     || negb (bool_decide (ms_reply_to m = None)) then false else
  match parse_integrator_profile (ms_body m) with
  | Some (PfAssignment id n selected about roster neutral task) =>
      bool_decide (id = as_assignment_id assignment) && (n =? tt_attempt attempt)
      && bool_decide (selected = tt_selected attempt) && bool_decide (about = as_about_snapshot assignment)
      && bool_decide (roster = as_roster_fingerprint assignment) && eqb neutral (as_neutral_integrator assignment)
      && bool_decide (task = as_task_summary assignment)
  | _ => false
  end.
Definition recover_pending_offer (assignment : PersistedIntegratorAssignment) (attempt : IntegratorAttempt)
    : Dispatch PendingOfferRecovery :=
  read ← read_signals None (as_inbox_cursor assignment);
  if ai_cursor_reset read
  then mret (OfferUncertain "offer recovery scan was bounded or lost its cursor; refusing to republish blindly") else
  mret (match ms_message_id <$> List.filter (is_assignment_request assignment attempt) (ai_messages read) with
        | [] => OfferAbsent
        | [message_id] => OfferPublished message_id
        | _ => OfferUncertain "multiple matching assignment requests exist; human review is required"
        end).

Definition profile_apply_order (profile : IntegratorProfile) : Z :=
  match profile with
  | PfAccepted _ _ _ => 0
  | PfResult _ _ _ _ | PfBlocked _ _ _ _ => 1
  | PfAssignment _ _ _ _ _ _ _ => 2
  end.
Definition assignment_action (state : IntegratorAssignmentState) : string :=
  match state with
  | AsAccepted => "accepted" | AsCompleted => "completed" | AsBlocked => "blocked" | AsRequiresHuman => "requires_human"
  | AsCancelled => "cancelled" | AsRevoked => "revoked" | AsCreated => "created" | AsOffered => "offered"
  end.

Definition attempt_numbered (n : Z) (l : list IntegratorAttempt) : option IntegratorAttempt :=
  find (λ t, tt_attempt t =? n) l.
Definition expected_kind (profile : IntegratorProfile) : option AgentMessageKind :=
  match profile with
  | PfAssignment _ _ _ _ _ _ _ => None
  | PfAccepted _ _ _ => Some Status
  | PfResult _ _ _ _ => Some KindResult
  | PfBlocked _ _ _ _ => Some KindBlocked
  end.
Definition profile_message_matches (assignment : PersistedIntegratorAssignment) (profile : IntegratorProfile)
    (m : AgentMessage) : bool :=
  let '(id, n, about) := profile_header profile in
  match expected_kind profile, attempt_numbered n (as_attempts assignment) with
  | Some kind, Some attempt =>
      bool_decide (id = as_assignment_id assignment) && bool_decide (about = as_about_snapshot assignment)
      && bool_decide (ms_about_snapshot m = as_about_snapshot assignment) && bool_decide (ms_from m = tt_selected attempt)
      && bool_decide (ms_to m = dispatcher_name) && bool_decide (ms_kind m = kind)
      && bool_decide (ms_reply_to m = tt_request_message_id attempt)
      && match profile with
         | PfResult _ _ _ digest =>
             bool_decide (dg_assignment_id digest = as_assignment_id assignment)
             && bool_decide (dg_about_snapshot digest = as_about_snapshot assignment)
             && bool_decide (dg_integrator digest = tt_selected attempt)
         | _ => true
         end
  | _, _ => false
  end.

(** [find(..)] on [iter_mut], then changing the attempt found. *)
Fixpoint alter_numbered (f : IntegratorAttempt → IntegratorAttempt) (n : Z) (l : list IntegratorAttempt)
    : list IntegratorAttempt :=
  match l with
  | [] => []
  | t :: l => if tt_attempt t =? n then f t :: l else t :: alter_numbered f n l
  end.
Definition outcome_attempt_state (o : IntegratorOutcomeState) : IntegratorAttemptState :=
  match o with OsCompleted => AtCompleted | OsBlocked | OsRequiresHuman | OsCancelled => AtBlocked end.
Definition outcome_assignment_state (o : IntegratorOutcomeState) : IntegratorAssignmentState :=
  match o with
  | OsCompleted => AsCompleted | OsBlocked => AsBlocked | OsRequiresHuman => AsRequiresHuman | OsCancelled => AsCancelled
  end.

(** [None]: the assignment does not change. *)
Definition apply_profile (assignment : PersistedIntegratorAssignment) (profile : IntegratorProfile) (m : AgentMessage)
    (now : Z) : option PersistedIntegratorAssignment :=
  if negb (profile_message_matches assignment profile m) then None else
  let '(id, n, _) := profile_header profile in
  if negb (bool_decide (id = as_assignment_id assignment)) then None else
  let last_index := Z.max 0 (Z.min (zlen (as_attempts assignment)) U32_MAX - 1) in
  if negb (n =? last_index) || bool_decide (as_state assignment = AsRevoked) then None else
  match attempt_numbered n (as_attempts assignment) with
  | None => None
  | Some attempt =>
      if negb (is_open (tt_state attempt)) then None else
      let change f state a := with_updated now (with_state state (with_attempts (alter_numbered f n (as_attempts a)) a)) in
      match profile with
      | PfAccepted _ _ _ =>
          if negb (bool_decide (as_state assignment = AsOffered)) then None else
          Some (change (λ t, attempt_with_acceptance (ms_message_id m) (attempt_with_state AtAccepted t))
                  AsAccepted assignment)
      | PfResult _ _ _ digest =>
          if negb (bool_decide (as_state assignment = AsAccepted)) then None else
          if negb (bool_decide (ms_reply_to m = tt_request_message_id attempt)) then None else
          if negb (bool_decide (dg_assignment_id digest = as_assignment_id assignment)) then None else
          Some (change (λ t, attempt_with_reason (dg_outcome digest) (attempt_with_terminal (ms_message_id m)
                               (attempt_with_state (outcome_attempt_state (dg_state digest)) t)))
                  (outcome_assignment_state (dg_state digest)) (with_digest digest assignment))
      | PfBlocked _ _ _ reason =>
          if negb (match as_state assignment with AsOffered | AsAccepted => true | _ => false end) then None else
          Some (change (λ t, attempt_with_terminal (ms_message_id m) (attempt_with_reason reason
                               (attempt_with_state AtBlocked t))) AsBlocked assignment)
      | PfAssignment _ _ _ _ _ _ _ => None
      end
  end.

(** The order in which replies are applied: acceptances first, then by time and id; stable. *)
Definition reply_before (a b : AgentMessage * IntegratorProfile) : bool :=
  let oa := profile_apply_order a.2 in let ob := profile_apply_order b.2 in
  (oa <? ob) || (oa =? ob) && ((ms_created_at_ms a.1 <? ms_created_at_ms b.1)
    || (ms_created_at_ms a.1 =? ms_created_at_ms b.1) && bool_decide (String.le (ms_message_id a.1) (ms_message_id b.1))).
Fixpoint insert_reply (x : AgentMessage * IntegratorProfile) (l : list (AgentMessage * IntegratorProfile))
    : list (AgentMessage * IntegratorProfile) :=
  match l with
  | [] => [x]
  | y :: l' => if reply_before x y then x :: y :: l' else y :: insert_reply x l'
  end.
Definition replies_of (messages : list AgentMessage) : list (AgentMessage * IntegratorProfile) :=
  foldr insert_reply [] (omap (λ m, (λ p, (m, p)) <$> parse_integrator_profile (ms_body m)) messages).

Record Observed := mkObserved {
  ob_assignment : PersistedIntegratorAssignment; ob_processed : Z; ob_action : string }.

(** The body of the loop over the replies. *)
Definition observe_reply (o : Observed) (reply : AgentMessage * IntegratorProfile) : Dispatch Observed :=
  let '(m, profile) := reply in
  if negb (profile_message_matches (ob_assignment o) profile m) then mret o else
  reachable ← match profile with
              | PfResult _ _ _ digest => λ d,
                  match ensure_reachable_snapshot (dg_inspected_snapshot digest) d with
                  | (d, Ok _) => (d, Ok true) | (d, Err _) => (d, Ok false)
                  end
              | _ => mret true
              end;
  if negb reachable then mret o else
  now ← now_ms;
  match apply_profile (ob_assignment o) profile m now with
  | None => mret o
  | Some assignment =>
      _ ← save assignment;
      mret (mkObserved assignment (ob_processed o + 1) (assignment_action (as_state assignment)))
  end.
Fixpoint observe_replies (o : Observed) (l : list (AgentMessage * IntegratorProfile)) : Dispatch Observed :=
  match l with
  | [] => mret o
  | reply :: l => o ← observe_reply o reply; observe_replies o l
  end.

Record IntegratorObserveOptions := mkObserveOptions { oo_ack_timeout_ms : option Z; oo_fallback_on_blocked : bool }.
Record IntegratorObserveResult := mkObserveResult {
  or_assignment_id : option string; or_state : option IntegratorAssignmentState; or_messages_processed : Z;
  or_cursor : option string; or_cursor_reset : bool; or_action : string }.
Definition nothing_observed : IntegratorObserveResult := mkObserveResult None None 0 None false "none".

Definition NO_ACKNOWLEDGEMENT : string := "no candidate acknowledged within the timeout".
Definition NO_COMPLETION : string := "no candidate could complete the assignment".

(** The pre-acceptance timeout. *)
Definition time_out (options : IntegratorObserveOptions) (o : Observed) : Dispatch Observed :=
  let a := ob_assignment o in
  if negb (bool_decide (as_state a = AsOffered)) then mret o else
  match match oo_ack_timeout_ms options with Some t => Some t | None => as_ack_timeout_ms a end with
  | None => mret o
  | Some timeout =>
      now ← now_ms;
      let offered_at := default 0 (tt_offered_at_ms <$> last (as_attempts a)) in
      let elapsed := Z.max 0 (Z.max I64_MIN (Z.min I64_MAX (now - offered_at))) in
      if negb (timeout <=? elapsed) then mret o else
      let a := on_last (attempt_with_state AtTimedOut) a in
      o ← (if zlen (as_attempts a) <? zlen (as_ranked a)
           then a ← offer_next a (Some "acknowledgement timed out"); mret (mkObserved a (ob_processed o) "offered_next")
           else mret (mkObserved (on_last (attempt_with_reason NO_ACKNOWLEDGEMENT) (with_state AsCancelled a))
                        (ob_processed o) "cancelled"));
      _ ← save (ob_assignment o);
      mret o
  end.
(** A blocker, when the dispatcher falls back on it. *)
Definition fall_back (options : IntegratorObserveOptions) (o : Observed) : Dispatch Observed :=
  let a := ob_assignment o in
  if negb (bool_decide (as_state a = AsBlocked) && oo_fallback_on_blocked options) then mret o else
  o ← (if zlen (as_attempts a) <? zlen (as_ranked a)
       then let reason := default "candidate reported a blocker" (last (as_attempts a) ≫= tt_reason) in
            a ← offer_next a (Some reason); mret (mkObserved a (ob_processed o) "offered_next")
       else mret (mkObserved (on_last (attempt_with_reason NO_COMPLETION) (with_state AsBlocked a))
                    (ob_processed o) "blocked"));
  _ ← save (ob_assignment o);
  mret o.

Definition is_terminal_state (s : IntegratorAssignmentState) : bool :=
  match s with AsCompleted | AsBlocked | AsRequiresHuman | AsCancelled => true | _ => false end.
Definition observe_result (a : PersistedIntegratorAssignment) (processed : Z) (cursor : option string) (reset : bool)
    (action : string) : IntegratorObserveResult :=
  mkObserveResult (Some (as_assignment_id a)) (Some (as_state a)) processed cursor reset action.

(** The end of the pass: terminal assignments move to the history. *)
Definition conclude (cursor : option string) (o : Observed) : Dispatch IntegratorObserveResult :=
  let a := ob_assignment o in
  if is_terminal_state (as_state a) then
    _ ← update_state (archive a);
    mret (observe_result a (ob_processed o) cursor false
            (match as_state a with
             | AsCompleted => "completed" | AsBlocked => "blocked" | AsRequiresHuman => "requires_human"
             | _ => "cancelled"
             end))
  else _ ← save a; mret (observe_result a (ob_processed o) cursor false (ob_action o)).

Definition CURSOR_LOST : string :=
  "inbox cursor reset: older coordination signals may have been missed; stop automatic mutation and recover dispatcher state".
(** Reading the replies and applying them. *)
Definition observe_inbox (options : IntegratorObserveOptions) (assignment : PersistedIntegratorAssignment)
    (action : string) : Dispatch IntegratorObserveResult :=
  read ← read_signals (Some dispatcher_name) (as_inbox_cursor assignment);
  if ai_cursor_reset read then
    now ← now_ms;
    let a := on_last (attempt_with_reason CURSOR_LOST) (with_updated now (with_state AsRequiresHuman assignment)) in
    _ ← save a;
    mret (observe_result a 0 (as_inbox_cursor assignment) true "requires_human")
  else
    o ← observe_replies (mkObserved assignment 0 action) (replies_of (ai_messages read));
    let moved := negb (bool_decide (ai_cursor read = "")) in
    let a := if moved then with_cursor (Some (ai_cursor read)) (ob_assignment o) else ob_assignment o in
    let cursor := if moved then Some (ai_cursor read) else as_inbox_cursor assignment in
    o ← time_out options (mkObserved a (ob_processed o) (ob_action o));
    o ← fall_back options o;
    conclude cursor o.

Definition needs_send (assignment : PersistedIntegratorAssignment) : option IntegratorAttempt :=
  match last (as_attempts assignment) with
  | Some t => if bool_decide (tt_state t = AtOffered) && bool_decide (tt_request_message_id t = None) then Some t else None
  | None => None
  end.
(** The last attempt has no request on record: it is looked for, or sent again. *)
Definition observe_pending (options : IntegratorObserveOptions) (assignment : PersistedIntegratorAssignment)
    (attempt : IntegratorAttempt) : Dispatch IntegratorObserveResult :=
  recovered ← recover_pending_offer assignment attempt;
  match recovered with
  | OfferUncertain reason =>
      now ← now_ms;
      let a := on_last (attempt_with_reason reason) (with_updated now (with_state AsRequiresHuman assignment)) in
      _ ← update_state (archive a);
      mret (observe_result a 0 (as_inbox_cursor assignment) true "requires_human")
  | _ =>
      '(message_id, action) ← match recovered with
        | OfferPublished id => mret (id, "recovered_offer")
        | _ => id ← send_assignment_request assignment (tt_attempt attempt) (tt_selected attempt);
               mret (id, "offered")
        end;
      let a := with_cursor (Some message_id) (on_last (attempt_with_request message_id) assignment) in
      _ ← save a;
      observe_inbox options a action
  end.
Definition integrator_observe (lock : Result unit) (options : IntegratorObserveOptions)
    : Dispatch IntegratorObserveResult :=
  _ ← checked lock;
  state ← load_state;
  match if_active state with
  | None => mret nothing_observed
  | Some assignment =>
      match needs_send assignment with
      | None => observe_inbox options assignment "none"
      | Some attempt => observe_pending options assignment attempt
      end
  end.

Definition integrator_resume (lock : Result unit) (options : IntegratorObserveOptions)
    : Dispatch IntegratorObserveResult :=
  state ← load_state;
  match if_active state with
  | None => mret nothing_observed
  | Some _ => integrator_observe lock options
  end.

(** ** Histories *)
Inductive DispatcherOp :=
  | OpAssign (workspace_id : string) (format_version : Z) (lock : Result unit) (input : IntegratorAssignInput)
  | OpRevoke (lock : Result unit) (assignment_id reason : string)
  | OpObservePass (lock : Result unit) (options : IntegratorObserveOptions)
  | OpResume (lock : Result unit) (options : IntegratorObserveOptions).
Definition run_dispatch (op : DispatcherOp) (d : Dispatcher) : Dispatcher :=
  match op with
  | OpAssign workspace_id format_version lock input => (integrator_assign workspace_id format_version lock input d).1
  | OpRevoke lock assignment_id reason => (integrator_revoke lock assignment_id reason d).1
  | OpObservePass lock options => (integrator_observe lock options d).1
  | OpResume lock options => (integrator_resume lock options d).1
  end.
Definition run_ops (ops : list DispatcherOp) (d : Dispatcher) : Dispatcher := foldl (λ d op, run_dispatch op d) d ops.
End dispatcher.
Definition fresh_dispatcher (log : list LogEntry) : Dispatcher :=
  mkDispatcher (mkIntegratorStateFile INTEGRATOR_STATE_SCHEMA_VERSION None []) log 0 [] [].
