(* ===== verification/IntegratorSelection.v ===== *)
(** * Integrator assignment: the selection

    What the filter lets through, and that the ranking is a permutation of it which does not
    depend on the order in which the candidates were given. *)
From Stdlib Require Import ZArith Lia Ascii Strings.Byte.
From stdpp Require Import sorting numbers strings gmap list_numbers list options.
From S2P Require Import Prelude Text Paths Model WorkContract AgentContract IntegratorContract Integrator.

Local Open Scope Z_scope.

Lemma check_every_Ok {A} (p : A → bool) e (l : list A) : check_all p e l = Ok tt ↔ Forall (λ x, p x = true) l.
Proof.
  unfold check_all. induction l as [|x l IH]; simpl; [by split; [constructor|]|].
  rewrite Forall_cons, <-IH. unfold ensure. destruct (p x); simpl; naive_solver.
Qed.

(** ** Capabilities *)
Lemma push_capability_fold l out out' :
  try_fold push_capability out l = Ok out' → out' = out ++ l.
Proof.
  revert out. induction l as [|c l IH]; intros out; simpl; [intros [= <-]; by rewrite app_nil_r|].
  intros Hf. inv_ok. apply IH in Hf. unfold push_capability, normalize_capability in *. inv_ok. subst.
  by rewrite <-app_assoc.
Qed.
Lemma normalize_capabilities_elem l out c : normalize_capabilities l = Ok out → c ∈ out ↔ c ∈ l.
Proof.
  unfold normalize_capabilities. intros Hn. inv_ok. apply push_capability_fold in H0. subst. simpl.
  unfold sort_strings. by rewrite sort_by_perm.
Qed.

(** ** The filter *)
Definition qualifies (input : IntegratorAssignInput) (c : IntegratorCandidate) : Prop :=
  cd_enabled c = true ∧ cd_available c = true ∧ cd_name c ∉ in_excluded input
  ∧ ∀ cap, cap ∈ in_required_capabilities input → cap ∈ cd_capabilities c.
#[global] Instance qualifies_dec input c : Decision (qualifies input c).
Proof.
  refine (cast_if (decide (cd_enabled c = true ∧ cd_available c = true ∧ cd_name c ∉ in_excluded input
    ∧ Forall (λ cap, cap ∈ cd_capabilities c) (in_required_capabilities input)))); unfold qualifies;
    rewrite Forall_forall in *; done.
Defined.
Definition qualified (input : IntegratorAssignInput) (name : string) : Prop :=
  ∃ c, c ∈ in_candidates input ∧ cd_name c = name ∧ qualifies input c.
Definition neutral (input : IntegratorAssignInput) (name : string) : Prop :=
  qualified input name ∧ name ∉ in_conflict_authors input.

Lemma filter_candidate_Ok input required f c f' :
  normalize_capabilities (in_required_capabilities input) = Ok required →
  filter_candidate required (in_excluded input) (in_conflict_authors input) f c = Ok f' →
  cd_name c ∉ fl_seen f ∧ fl_seen f' = fl_seen f ++ [cd_name c]
  ∧ fl_eligible f' = fl_eligible f ++ (if decide (qualifies input c) then [cd_name c] else [])
  ∧ fl_neutral f' = fl_neutral f
      ++ (if decide (qualifies input c ∧ cd_name c ∉ in_conflict_authors input) then [cd_name c] else []).
Proof.
  intros Hreq Hf. unfold filter_candidate, validate_candidate in Hf. inv_ok. to_prop.
  split; [done|]. simpl in *.
  assert (∀ P : Prop, ¬ P → ∀ (D : Decision P), (if D then [cd_name c] else []) = []) as Hnil
    by (intros P HP [?|?]; done).
  destruct (negb _ || negb _) eqn:Hav.
  { inv_ok. subst. simpl.
    assert (¬ qualifies input c) as Hq by (intros (? & ? & _); apply orb_true_iff in Hav as [Hx|Hx]; to_prop; congruence).
    rewrite !Hnil by tauto. by rewrite !app_nil_r. }
  to_prop. case_bool_decide as Hex.
  { inv_ok. subst. simpl. assert (¬ qualifies input c) as Hq by (intros (? & ? & ? & _); done).
    rewrite !Hnil by tauto. by rewrite !app_nil_r. }
  inv_ok. rename H3 into Hcaps.
  destruct (forallb _ required) eqn:Hall; simpl in Hf; inv_ok; subst; simpl.
  - assert (qualifies input c) as Hq.
    { repeat split; try done. intros cap Hcap. apply (normalize_capabilities_elem _ _ cap Hreq) in Hcap.
      apply forallb_Forall in Hall. rewrite Forall_forall in Hall. specialize (Hall cap Hcap).
      apply bool_decide_eq_true in Hall. by apply (normalize_capabilities_elem _ _ cap Hcaps) in Hall. }
    rewrite decide_True by done. repeat split. case_bool_decide.
    + rewrite decide_False by tauto. by rewrite app_nil_r.
    + by rewrite decide_True by tauto.
  - assert (¬ qualifies input c) as Hq.
    { intros (_ & _ & _ & Hcap). apply not_true_iff_false in Hall. apply Hall, forallb_Forall, Forall_forall.
      intros cap Hin. apply bool_decide_eq_true, (normalize_capabilities_elem _ _ cap Hcaps), Hcap.
      by apply (normalize_capabilities_elem _ _ cap Hreq). }
    rewrite !decide_False by tauto. by rewrite !app_nil_r.
Qed.

Lemma filter_candidates_fold input required l f f' :
  normalize_capabilities (in_required_capabilities input) = Ok required →
  try_fold (filter_candidate required (in_excluded input) (in_conflict_authors input)) f l = Ok f' →
  NoDup (cd_name <$> l) ∧ (∀ c, c ∈ l → cd_name c ∉ fl_seen f)
  ∧ fl_eligible f' = fl_eligible f ++ (cd_name <$> filter (qualifies input) l)
  ∧ fl_neutral f' = fl_neutral f
      ++ (cd_name <$> filter (λ c, qualifies input c ∧ cd_name c ∉ in_conflict_authors input) l).
Proof.
  intros Hreq. revert f. induction l as [|c l IH]; intros f Hf; simpl in Hf.
  { inv_ok. subst. simpl. rewrite !app_nil_r. repeat split; [constructor|by intros c ?%not_elem_of_nil]. }
  apply bind_Ok in Hf as (f1 & Hc & Hf). apply (filter_candidate_Ok input) in Hc as (Hnew & Hseen & Hel & Hneu); [|done].
  destruct (IH _ Hf) as (Hnd & Hfresh & Hel' & Hneu'). rewrite Hseen in Hfresh. split; [|split; [|split]].
  - simpl. constructor; [|done]. intros (c' & Heq & Hin)%list_elem_of_fmap. apply (Hfresh c' Hin). set_solver.
  - intros c' [->|Hin]%elem_of_cons; [done|]. specialize (Hfresh c' Hin). set_solver.
  - rewrite Hel', Hel, <-app_assoc. f_equal. clear Hneu. case_decide; by rewrite ?filter_cons_True, ?filter_cons_False by done.
  - rewrite Hneu', Hneu, <-app_assoc. f_equal. clear Hel. case_decide; by rewrite ?filter_cons_True, ?filter_cons_False by done.
Qed.

(** What the filter computes: the pools, and whether there is one. *)
Record filtered (input : IntegratorAssignInput) (e : EligibilityResult) : Prop := {
  fd_nodup : NoDup (cd_name <$> in_candidates input);
  fd_eligible : el_eligible e ≡ₚ cd_name <$> filter (qualifies input) (in_candidates input);
  fd_neutral : el_neutral e
    ≡ₚ cd_name <$> filter (λ c, qualifies input c ∧ cd_name c ∉ in_conflict_authors input) (in_candidates input);
  fd_flag : el_neutral_integrator e = negb (bool_decide (el_neutral e = []));
  fd_reason : el_no_candidate_reason e = None ↔ el_eligible e ≠ [];
}.
Lemma perm_nil {A} (l l' : list A) : l ≡ₚ l' → l = [] ↔ l' = [].
Proof. intros Hp. split; intros ->; [by apply Permutation_nil_l in Hp|by apply Permutation_nil_r in Hp]. Qed.

Lemma filter_eligible_Ok input e : filter_eligible input = Ok e → filtered input e.
Proof.
  intros Hf. unfold filter_eligible in Hf. repeat (apply bind_Ok in Hf as (? & ? & Hf)).
  match goal with Hr : normalize_capabilities _ = Ok _, Hfo : try_fold _ _ _ = Ok ?f |- _ =>
    rename Hr into Hreq, Hfo into Hfold, f into kept end.
  destruct (filter_candidates_fold _ _ _ _ _ Hreq Hfold) as (Hnd & _ & Hel & Hneu). simpl in Hel, Hneu.
  assert (∀ f, sort_strings (fl_neutral f) = [] ↔ fl_neutral f = []) as Hs
    by (intros f; apply perm_nil, sort_by_perm).
  assert (fl_eligible kept = [] → fl_neutral kept = []) as Hsub.
  { rewrite Hel, Hneu. intros Hnil%fmap_nil_inv. apply elem_of_nil_inv.
    intros name (c & -> & [[Hq _] Hc]%list_elem_of_filter)%list_elem_of_fmap.
    assert (c ∈ filter (qualifies input) (in_candidates input)) as Hin by (apply list_elem_of_filter; done).
    rewrite Hnil in Hin. by apply not_elem_of_nil in Hin. }
  assert (sort_strings (fl_eligible kept) = [] ↔ fl_eligible kept = []) as Hse by apply perm_nil, sort_by_perm.
  destruct (bool_decide (sort_strings (fl_neutral kept) = [])) eqn:Hb; inv_ok; subst; (split; simpl; [done|..]).
  all: try (unfold sort_strings; by rewrite sort_by_perm, ?Hel, ?Hneu).
  all: try (by rewrite Hb).
  - destruct (bool_decide (sort_strings (fl_eligible kept) = [])) eqn:He; to_prop; split; done.
  - rewrite Hb. apply bool_decide_eq_false in Hb. naive_solver.
Qed.

(** ** The ranking *)
Definition rank_le (a b : string * string) : Prop := ranks_before a b = true.
Lemma rank_le_spec a b : rank_le a b ↔ str_lt a.2 b.2 ∨ a.2 = b.2 ∧ String.le a.1 b.1.
Proof. unfold rank_le, ranks_before. rewrite orb_true_iff, andb_true_iff, !bool_decide_eq_true. done. Qed.
#[global] Instance rank_le_total : Total rank_le.
Proof.
  intros a b. rewrite !rank_le_spec. unfold str_lt. destruct (decide (a.2 = b.2)) as [->|Hne].
  - destruct (total String.le a.1 b.1); auto.
  - destruct (total String.le a.2 b.2); auto.
Qed.
#[global] Instance rank_le_trans : Transitive rank_le.
Proof.
  intros a b c. rewrite !rank_le_spec. unfold str_lt. intros [[Hl Hn]|[He Hl]] [[Hl' Hn']|[He' Hl']].
  - left. split; [by transitivity b.2|]. intros Heq. apply Hn. rewrite <-Heq in Hl'. by apply (anti_symm String.le).
  - left. rewrite <-He'. done.
  - left. rewrite He. done.
  - right. split; [congruence|]. by transitivity b.1.
Qed.
#[global] Instance rank_le_anti : AntiSymm (=) rank_le.
Proof.
  intros [a1 a2] [b1 b2]. rewrite !rank_le_spec. unfold str_lt. simpl. intros [[Hl Hn]|[He Hl]] [[Hl' Hn']|[He' Hl']].
  - destruct Hn. by apply (anti_symm String.le).
  - done.
  - done.
  - f_equal; [by apply (anti_symm String.le)|done].
Qed.

Lemma insert_ranked_perm x l : insert_ranked x l ≡ₚ x :: l.
Proof.
  induction l as [|y l IH]; simpl; [done|]. destruct (ranks_before x y); [done|]. rewrite IH. apply Permutation_swap.
Qed.
Lemma sort_ranked_perm l : sort_ranked l ≡ₚ l.
Proof. induction l as [|x l IH]; simpl; [done|]. by rewrite insert_ranked_perm, IH. Qed.
Lemma insert_ranked_sorted x l : StronglySorted rank_le l → StronglySorted rank_le (insert_ranked x l).
Proof.
  induction 1 as [|y l Hs IH Hy]; simpl; [by repeat constructor|]. destruct (ranks_before x y) eqn:Hxy.
  - constructor; [by constructor|]. constructor; [done|]. eapply Forall_impl; [exact Hy|]. intros z Hz. by transitivity y.
  - assert (rank_le y x) as Hyx by (destruct (total rank_le x y) as [Hl|]; [unfold rank_le in Hl; congruence|done]).
    constructor; [done|]. apply Forall_forall. intros z. rewrite insert_ranked_perm, elem_of_cons.
    intros [->|Hz]; [done|]. rewrite Forall_forall in Hy. by apply Hy.
Qed.
Lemma sort_ranked_sorted l : StronglySorted rank_le (sort_ranked l).
Proof. induction l; simpl; [constructor|by apply insert_ranked_sorted]. Qed.
Lemma sort_ranked_unique l l' : l ≡ₚ l' → sort_ranked l = sort_ranked l'.
Proof.
  intros Hp. apply (StronglySorted_unique rank_le); [apply sort_ranked_sorted..|].
  by rewrite !sort_ranked_perm.
Qed.

Section ranking.
Context `{Blake3}.
Lemma rank_candidates_perm ws about id nonce roster pool ranked :
  rank_candidates ws about id nonce roster pool = Ok ranked → ranked ≡ₚ pool ∧ pool ≠ [].
Proof.
  unfold rank_candidates. intros Hr. inv_ok. to_prop. split; [|done]. rewrite sort_ranked_perm.
  rewrite <-list_fmap_compose. erewrite list_fmap_ext; [by rewrite list_fmap_id|]. done.
Qed.
Lemma rank_candidates_order ws about id nonce roster pool pool' ranked :
  pool ≡ₚ pool' → rank_candidates ws about id nonce roster pool = Ok ranked →
  rank_candidates ws about id nonce roster pool' = Ok ranked.
Proof.
  intros Hp Hr. unfold rank_candidates in *.
  assert (bool_decide (pool' = []) = bool_decide (pool = [])) as -> by (apply bool_decide_ext, perm_nil; by symmetry).
  inv_ok. match goal with Hc : check_all _ _ _ = Ok _ |- _ => apply check_every_Ok in Hc; rewrite Hp in Hc;
    apply (check_every_Ok _ "invalid candidate name") in Hc end.
  repeat match goal with Hb : ?b = true |- context [ensure ?b] => rewrite Hb; simpl end.
  match goal with Hc : check_all _ _ _ = Ok _ |- _ => rewrite Hc end. simpl. do 2 f_equal.
  apply sort_ranked_unique. by rewrite Hp.
Qed.
End ranking.

(** ** The selection *)
Definition with_candidates (l : list IntegratorCandidate) (input : IntegratorAssignInput) : IntegratorAssignInput :=
  mkIntegratorAssignInput (in_about_snapshot input) l (in_required_capabilities input) (in_conflict_authors input)
    (in_excluded input) (in_task_summary input) (in_ack_timeout_ms input).

Lemma eligible_elem input e name : filtered input e → name ∈ el_eligible e ↔ qualified input name.
Proof.
  intros Hf. rewrite (fd_eligible _ _ Hf), list_elem_of_fmap. unfold qualified.
  setoid_rewrite list_elem_of_filter. naive_solver.
Qed.
Lemma neutral_elem input e name : filtered input e → name ∈ el_neutral e ↔ neutral input name.
Proof.
  intros Hf. rewrite (fd_neutral _ _ Hf), list_elem_of_fmap. unfold neutral, qualified.
  setoid_rewrite list_elem_of_filter. naive_solver.
Qed.
Lemma pool_elem input e name :
  filtered input e →
  name ∈ selection_pool e ↔ qualified input name ∧ ((∃ other, neutral input other) → name ∉ in_conflict_authors input).
Proof.
  intros Hf. unfold selection_pool. rewrite (fd_flag _ _ Hf). case_bool_decide as Hnil; simpl.
  - rewrite (eligible_elem _ _ _ Hf). split; [|tauto]. intros Hq. split; [done|].
    intros [other Ho%(neutral_elem _ _ _ Hf)]. rewrite Hnil in Ho. by apply not_elem_of_nil in Ho.
  - rewrite (neutral_elem _ _ _ Hf). unfold neutral. split; [naive_solver|]. intros [Hq Ho]. split; [done|]. apply Ho.
    destruct (el_neutral e) as [|other l] eqn:Hn; [done|]. exists other. apply (neutral_elem _ _ _ Hf). rewrite Hn. left.
Qed.
Lemma pool_nodup input e : filtered input e → NoDup (selection_pool e).
Proof.
  intros Hf. pose proof (fd_nodup _ _ Hf) as Hn. unfold selection_pool.
  assert (∀ P (D : ∀ c, Decision (P c)), NoDup (cd_name <$> filter P (in_candidates input))) as Hsub.
  { intros P D. apply (sublist_NoDup _ _ Hn). apply fmap_sublist, sublist_filter. }
  destruct (el_neutral_integrator e); [rewrite (fd_neutral _ _ Hf)|rewrite (fd_eligible _ _ Hf)]; apply Hsub.
Qed.
Lemma pool_perm input e l e' :
  in_candidates input ≡ₚ l → filtered input e → filtered (with_candidates l input) e' →
  selection_pool e ≡ₚ selection_pool e'.
Proof.
  intros Hp Hf Hf'. apply NoDup_Permutation; [by eapply pool_nodup..|]. intros name.
  rewrite (pool_elem _ _ _ Hf), (pool_elem _ _ _ Hf'). unfold neutral, qualified, qualifies. simpl.
  by setoid_rewrite Hp.
Qed.

(** C22. The selection is exact, neutral and auditable. When the dispatcher's filter accepts a
    roster and leaves a candidate, the ranking it draws names every candidate at most once and
    at least one; a candidate is in it exactly if it is enabled, available, not excluded, has
    every required capability and, as soon as any such candidate is neutral, authored no side of
    the conflict. With the recorded ids and nonce, anyone who filters and ranks the same
    candidates, given in whatever order, gets the same ranking. *)
Theorem selection_exact `{Blake3} input e ws id nonce roster ranked :
  filter_eligible input = Ok e → el_no_candidate_reason e = None →
  rank_candidates ws (in_about_snapshot input) id nonce roster (selection_pool e) = Ok ranked →
  NoDup ranked ∧ ranked ≠ []
  ∧ (∀ name, name ∈ ranked ↔
       qualified input name ∧ ((∃ other, neutral input other) → name ∉ in_conflict_authors input))
  ∧ (∀ l e', in_candidates input ≡ₚ l → filter_eligible (with_candidates l input) = Ok e' →
       rank_candidates ws (in_about_snapshot input) id nonce roster (selection_pool e') = Ok ranked).
Proof.
  intros Hf%filter_eligible_Ok Hreason Hrank. destruct (rank_candidates_perm _ _ _ _ _ _ _ Hrank) as [Hp Hne].
  split; [rewrite Hp; by eapply pool_nodup|]. split; [|split].
  - intros ->. by apply Permutation_nil_l in Hp.
  - intros name. by rewrite Hp, (pool_elem input e name Hf).
  - intros l e' Hl Hf'%filter_eligible_Ok. eapply rank_candidates_order; [by eapply pool_perm|done].
Qed.

(** The text for a roster without a neutral candidate is never given: such a roster is drawn from. *)
Theorem no_neutral_reason_unreachable input e reason :
  filter_eligible input = Ok e → el_no_candidate_reason e = Some reason →
  reason = "no eligible candidate satisfies the roster, capability, and exclusion filters".
Proof.
  intros Hf Hr. pose proof (filter_eligible_Ok input e Hf) as Hd. unfold filter_eligible in Hf.
  repeat (apply bind_Ok in Hf as (? & ? & Hf)). destruct (bool_decide (sort_strings (fl_neutral _) = [])) eqn:Hn.
  - inv_ok. subst. simpl in Hr. destruct (bool_decide (sort_strings (fl_eligible _) = [])); simpl in Hr; congruence.
  - inv_ok. subst. simpl in Hr. rewrite Hn in Hr. discriminate.
Qed.

(** ** A roster *)
#[local] Instance selection_unicode : Unicode := ascii_unicode.
#[local] Instance selection_blake3 : Blake3 := sample_blake3.
Definition roster_of (order : list IntegratorCandidate) : IntegratorAssignInput :=
  mkIntegratorAssignInput (String.string_of_list_ascii (replicate 64 "a"%char)) order ["rust"] ["ann"] ["dan"] "merge" None.
Definition ann := mkIntegratorCandidate "ann" ["rust"] true true.
Definition bob := mkIntegratorCandidate "bob" ["go"; "rust"] true true.
Definition cat := mkIntegratorCandidate "cat" ["rust"] true true.
Definition dan := mkIntegratorCandidate "dan" ["rust"] true true.
Definition eve := mkIntegratorCandidate "eve" ["go"] true true.
Definition draw (order : list IntegratorCandidate) : Result (list string) :=
  e ← filter_eligible (roster_of order);
  rank_candidates "ws" (in_about_snapshot (roster_of order)) (String.string_of_list_ascii (replicate 32 "1"%char))
    (String.string_of_list_ascii (replicate 64 "2"%char)) (String.string_of_list_ascii (replicate 64 "3"%char))
    (selection_pool e).

(** The statement applied to five candidates, of whom two are capable, admitted and neutral. *)
Lemma selection_exact_witness :
  ∃ ranked, draw [ann; bob; cat; dan; eve] = Ok ranked ∧ length ranked = 2%nat ∧ "bob" ∈ ranked
    ∧ draw [eve; dan; cat; bob; ann] = Ok ranked.
Proof.
  destruct (filter_eligible (roster_of [ann; bob; cat; dan; eve])) as [e|] eqn:Hf; [|vm_compute in Hf; discriminate Hf].
  destruct (draw [ann; bob; cat; dan; eve]) as [ranked|] eqn:Hd; [|vm_compute in Hd; discriminate Hd].
  destruct (filter_eligible (roster_of [eve; dan; cat; bob; ann])) as [e'|] eqn:Hf'; [|vm_compute in Hf'; discriminate Hf'].
  assert (Hr := Hd). unfold draw in Hr. rewrite Hf in Hr.
  cbn [mbind result_bind] in Hr.
  edestruct (selection_exact (roster_of [ann; bob; cat; dan; eve]) e) as (Hn & Hne & Helem & Horder); [exact Hf| |exact Hr|].
  { vm_compute in Hf. injection Hf as <-. reflexivity. }
  exists ranked. split; [reflexivity|]. split; [|split].
  - vm_compute in Hd. injection Hd as <-. reflexivity.
  - apply Helem. split; [|intros _; simpl; by intros ?%list_elem_of_singleton].
    exists bob. split; [simpl; right; left|]. split; [reflexivity|].
    split; [reflexivity|]. split; [reflexivity|]. split; [by intros ?%list_elem_of_singleton|].
    intros cap Hcap%list_elem_of_singleton. subst. simpl. right. left.
  - unfold draw. rewrite Hf'. apply (Horder [eve; dan; cat; bob; ann] e'); [|exact Hf'].
    change ([ann; bob; cat; dan; eve] ≡ₚ reverse [ann; bob; cat; dan; eve]). by rewrite reverse_Permutation.
Defined.
