(* ===== verification/IntegratorProps.v ===== *)
(** * Integrator dispatcher: invariants

    What holds of every state file the dispatcher writes, of the signals it published and of the
    replies it relies on, kept by every step of every operation, whether it succeeds or not. *)
From Stdlib Require Import ZArith Lia Ascii Strings.Byte.
From stdpp Require Import sorting numbers strings gmap list_numbers list options.
From S2P Require Import Prelude Text Paths Model WorkContract AgentContract Signals SignalsProps IntegratorContract.
From S2P Require Import Integrator IntegratorSelection.

Local Open Scope Z_scope.

(** ** Lists *)
Lemma alter_last_snoc {A} (f : A → A) l x : alter_last f (l ++ [x]) = l ++ [f x].
Proof. induction l as [|y l IH]; simpl; [done|]. rewrite IH. by destruct l. Qed.
Lemma length_alter_last {A} (f : A → A) l : length (alter_last f l) = length l.
Proof. destruct l as [|x l _] using rev_ind; [done|]. by rewrite alter_last_snoc, !length_app. Qed.
Lemma last_alter_last {A} (f : A → A) l : last (alter_last f l) = f <$> last l.
Proof. destruct l as [|x l _] using rev_ind; [done|]. by rewrite alter_last_snoc, !last_snoc. Qed.
Lemma lookup_alter_last {A} (f : A → A) l i x :
  alter_last f l !! i = Some x → ∃ y, l !! i = Some y ∧ (x = y ∧ (S i < length l)%nat ∨ x = f y ∧ S i = length l).
Proof.
  destruct l as [|z l _] using rev_ind; [done|]. rewrite alter_last_snoc, length_app. simpl.
  intros [Hl|[Hge Hx]]%lookup_app_Some.
  - exists x. split; [by apply lookup_app_l_Some|]. left. split; [done|]. apply lookup_lt_Some in Hl. lia.
  - apply list_lookup_singleton_Some in Hx as [Hi <-]. exists z. replace i with (length l) by lia.
    split; [by apply list_lookup_middle|]. right. split; [done|lia].
Qed.

Lemma after_id_app c log more rest : after_id c log = Some rest → after_id c (log ++ more) = Some (rest ++ more).
Proof.
  induction log as [|e log IH]; simpl; [done|]. case_bool_decide; [by intros [= ->]|]. by intros ?%IH.
Qed.
Lemma after_id_last log e : ∃ rest, after_id (le_id e) (log ++ [e]) = Some rest.
Proof.
  induction log as [|e' log IH]; simpl; [rewrite bool_decide_true by done; eauto|].
  case_bool_decide; eauto.
Qed.
Lemma after_id_elem log e : e ∈ log → ∃ rest, after_id (le_id e) log = Some rest.
Proof.
  intros (l1 & l2 & ->)%list_elem_of_split. destruct (after_id_last l1 e) as [rest Hr].
  exists (rest ++ l2). rewrite cons_middle, app_assoc. by apply after_id_app.
Qed.
Lemma after_id_In c log rest e : after_id c log = Some rest → e ∈ rest → e ∈ log.
Proof.
  induction log as [|e' log IH]; simpl; [done|]. case_bool_decide; [intros [= ->]; by right|].
  intros Hr Hin. right. by apply IH.
Qed.

(** ** The assignment *)
Definition last_state (a : PersistedIntegratorAssignment) : option IntegratorAttemptState := tt_state <$> last (as_attempts a).

(** Attempts are numbered in order, go to the candidates in the order of the ranking, and only
    the last one may be open. *)
Record attempts_ok (a : PersistedIntegratorAssignment) : Prop := {
  ao_ranked i t : as_attempts a !! i = Some t →
    tt_attempt t = Z.of_nat i ∧ as_ranked a !! i = Some (tt_selected t);
  ao_closed i t : as_attempts a !! i = Some t → (S i < length (as_attempts a))%nat → is_open (tt_state t) = false;
  ao_bound : zlen (as_attempts a) ≤ INTEGRATOR_MAX_ATTEMPTS;
}.
Lemma attempts_ok_ext a b :
  as_attempts b = as_attempts a → as_ranked b = as_ranked a → attempts_ok a → attempts_ok b.
Proof. intros Ha Hr [H1 H2 H3]. split; rewrite Ha, ?Hr; done. Qed.
(** The state of the assignment is that of its last attempt. *)
Definition state_ok (a : PersistedIntegratorAssignment) : Prop :=
  match as_state a with
  | AsCreated => as_attempts a = []
  | AsOffered => last_state a = Some AtOffered
  | AsAccepted => last_state a = Some AtAccepted
  | AsCompleted => last_state a = Some AtCompleted
  | AsBlocked => last_state a = Some AtBlocked
  | AsRevoked => False
  | AsRequiresHuman => True
  | AsCancelled => ∀ s, last_state a = Some s → is_open s = false
  end.

Section evidence.
Context `{IntegratorJson}.

(** A signal of the selected candidate that answers the request of its attempt. *)
Definition replied (log : list LogEntry) (a : PersistedIntegratorAssignment) (t : IntegratorAttempt) (kind : AgentMessageKind)
    (profile : IntegratorProfile) : Prop :=
  ∃ e m id, e ∈ log ∧ le_signal e = Some m ∧ ms_from m = tt_selected t ∧ ms_kind m = kind
    ∧ tt_request_message_id t = Some id ∧ ms_reply_to m = Some id ∧ parse_integrator_profile (ms_body m) = Some profile
    ∧ profile_header profile = (as_assignment_id a, tt_attempt t, as_about_snapshot a).
Record evidence_ok (log : list LogEntry) (a : PersistedIntegratorAssignment) : Prop := {
  eo_accepted t : last (as_attempts a) = Some t → tt_state t = AtAccepted →
    ∃ profile, replied log a t Status profile ∧ profile_apply_order profile = 0;
  eo_completed : as_state a = AsCompleted →
    ∃ t digest, last (as_attempts a) = Some t ∧ as_digest a = Some digest ∧ dg_state digest = OsCompleted
      ∧ dg_integrator digest = tt_selected t
      ∧ replied log a t KindResult (PfResult (as_assignment_id a) (tt_attempt t) (as_about_snapshot a) digest);
}.
Record assignment_ok (log : list LogEntry) (a : PersistedIntegratorAssignment) : Prop := {
  ko_nodup : NoDup (as_ranked a);
  ko_attempts : attempts_ok a;
  ko_state : state_ok a;
  ko_evidence : evidence_ok log a;
}.
Record file_ok (log : list LogEntry) (f : IntegratorStateFile) : Prop := {
  fo_active a : if_active f = Some a → assignment_ok log a;
  fo_history : Forall (λ a, assignment_ok log a ∧ is_terminal_state (as_state a) = true) (if_history f);
  fo_bound : zlen (if_history f) ≤ INTEGRATOR_MAX_HISTORY;
}.

Lemma replied_more log more a t kind profile : replied log a t kind profile → replied (log ++ more) a t kind profile.
Proof. intros (e & m & id & He & ?). exists e, m, id. split; [|done]. apply elem_of_app. by left. Qed.
Lemma evidence_more log more a : evidence_ok log a → evidence_ok (log ++ more) a.
Proof.
  intros [Ha Hc]. split.
  - intros t Ht Hs. destruct (Ha t Ht Hs) as (p & Hp & ?). exists p. split; [by apply replied_more|done].
  - intros Hs. destruct (Hc Hs) as (t & dg & ? & ? & ? & ? & Hr). exists t, dg. repeat split; try done. by apply replied_more.
Qed.
Lemma assignment_more log more a : assignment_ok log a → assignment_ok (log ++ more) a.
Proof. intros [? ? ? ?]. split; [done..|]. by apply evidence_more. Qed.
Lemma file_more log more f : file_ok log f → file_ok (log ++ more) f.
Proof.
  intros [Ha Hh ?]. split; [intros a ?; by apply assignment_more, Ha| |done].
  eapply Forall_impl; [exact Hh|]. intros a [? ?]. split; [by apply assignment_more|done].
Qed.
End evidence.

(** ** The requests published *)
Definition assignment_json_roundtrip `{IntegratorJson} : Prop :=
  ∀ id n selected about roster neutral task, let p := PfAssignment id n selected about roster neutral task in
    integrator_from_str (integrator_to_string p) = Some p.
Section invariant.
Context `{Unicode, Blake3, IntegratorJson} (answers : nat → Answer).
(** Deserialization undoes the serialization of a request. *)

Context (json_roundtrip : assignment_json_roundtrip).

(** The assignment id drawn with the [i]-th answer. *)
Definition drawn (i : nat) : string := hex_lower (take 16 (aw_random (answers i))).

(** What the requests published so far mean for the assignment [a]. *)
Record requests_ok (log : list LogEntry) (asked : nat) (requests : list (string * Z)) (a : PersistedIntegratorAssignment)
    : Prop := {
  ro_drawn : ∃ i, (i < asked)%nat ∧ as_assignment_id a = drawn i;
  ro_cursor c : as_inbox_cursor a = Some c → ∃ rest, after_id c log = Some rest;
  ro_request n : (as_assignment_id a, n) ∈ requests →
    0 ≤ n < zlen (as_attempts a)
    ∧ ∀ t, needs_send a = Some t → n = tt_attempt t →
        ∃ ms m, signals_after (as_inbox_cursor a) log = Some ms ∧ m ∈ ms ∧ is_assignment_request a t m = true;
}.
Record dispatcher_ok (d : Dispatcher) : Prop := {
  di_schema : if_schema_version (d_disk d) = INTEGRATOR_STATE_SCHEMA_VERSION;
  di_disk : file_ok (d_log d) (d_disk d);
  di_written : Forall (file_ok (d_log d)) (d_written d);
  di_active a : if_active (d_disk d) = Some a → requests_ok (d_log d) (d_asked d) (d_requests d) a;
  di_once : NoDup (d_requests d);
  di_drawn id n : (id, n) ∈ d_requests d → ∃ i, (i < d_asked d)%nat ∧ id = drawn i;
}.

Lemma signals_after_more cursor log more ms :
  signals_after cursor log = Some ms → signals_after cursor (log ++ more) = Some (ms ++ omap le_signal more).
Proof.
  unfold signals_after. destruct cursor as [c|].
  - destruct (after_id c log) as [rest|] eqn:Ha; [|done]. rewrite (after_id_app _ _ _ _ Ha). intros [= <-].
    by rewrite omap_app.
  - intros [= <-]. by rewrite omap_app.
Qed.
Lemma requests_more log more asked asked' requests a :
  (asked ≤ asked')%nat → requests_ok log asked requests a → requests_ok (log ++ more) asked' requests a.
Proof.
  intros Hle [(i & Hi & Hid) Hc Hr]. split.
  - exists i. split; [lia|done].
  - intros c Hcur. destruct (Hc c Hcur) as [rest Hrest]. eexists. by apply after_id_app.
  - intros n Hin. destruct (Hr n Hin) as [Hn Hp]. split; [done|]. intros t Ht Heq.
    destruct (Hp t Ht Heq) as (ms & m & Hms & Hm & Hreq). exists (ms ++ omap le_signal more), m.
    split; [by apply signals_after_more|]. split; [apply elem_of_app; by left|done].
Qed.

(** ** Specifications

    From a dispatcher in [P] the step keeps the invariant; a value it returns is in [Q]. *)
Definition keeps {A} (P : Dispatcher → Prop) (m : Dispatch A) (Q : A → Dispatcher → Prop) : Prop :=
  ∀ d, dispatcher_ok d → P d →
    dispatcher_ok (m d).1 ∧ match (m d).2 with Ok a => Q a (m d).1 | Err _ => True end.

Lemma keeps_ret {A} (P : Dispatcher → Prop) (a : A) (Q : A → Dispatcher → Prop) :
  (∀ d, P d → Q a d) → keeps P (mret (M:=Dispatch) a) Q.
Proof. intros HQ d Hd HP. split; [done|]. by apply HQ. Qed.
Lemma keeps_bail {A} P e Q : keeps P (bail (A:=A) e) Q.
Proof. intros d Hd HP. by split. Qed.
Lemma keeps_bind {A B} P (m : Dispatch A) R (f : A → Dispatch B) Q :
  keeps P m R → (∀ a, keeps (R a) (f a) Q) → keeps P (m ≫= f) Q.
Proof.
  intros Hm Hf d Hd HP. destruct (Hm d Hd HP) as [Hok HR]. unfold mbind, dispatch_bind.
  destruct (m d) as [d1 [a|e]]; simpl in *; [|by split]. by apply Hf.
Qed.
Lemma keeps_weaken {A} (P P' : Dispatcher → Prop) (m : Dispatch A) (Q Q' : A → Dispatcher → Prop) :
  keeps P m Q → (∀ d, dispatcher_ok d → P' d → P d) → (∀ a d, dispatcher_ok d → Q a d → Q' a d) → keeps P' m Q'.
Proof.
  intros Hm HP HQ d Hd HP'. destruct (Hm d Hd (HP d Hd HP')) as [Hok Hr]. split; [done|].
  destruct (m d).2; [|done]. by apply HQ.
Qed.
Lemma keeps_checked {A} (P : Dispatcher → Prop) (r : Result A) (Q : A → Dispatcher → Prop) :
  (∀ a d, r = Ok a → P d → Q a d) → keeps P (checked r) Q.
Proof. intros HQ d Hd HP. split; [done|]. simpl. destruct r; [|done]. by apply HQ. Qed.
Lemma keeps_then {A B} P (r : Result A) (f : A → Dispatch B) Q :
  (∀ a, r = Ok a → keeps P (f a) Q) → keeps P (checked r ≫= f) Q.
Proof.
  intros Hf d Hd HP. unfold checked, mbind, dispatch_bind. destruct r as [a|e]; [|by split]. by apply Hf.
Qed.

(** A question changes nothing but the log, which grows, and the answers used. *)
Definition extends (d d' : Dispatcher) : Prop :=
  d_disk d' = d_disk d ∧ d_requests d' = d_requests d ∧ (d_asked d ≤ d_asked d')%nat
  ∧ ∃ more, d_log d' = d_log d ++ more.
Lemma ask_ok d : dispatcher_ok d → dispatcher_ok (ask answers d).1 ∧ extends d (ask answers d).1.
Proof.
  intros [Hs Hf Hw Ha Ho Hdr]. split; [|repeat split; simpl; eauto]. split; simpl; try done.
  - by apply file_more.
  - eapply Forall_impl; [exact Hw|]. intros f ?. by apply file_more.
  - intros a Hact. apply (requests_more _ _ (d_asked d)); [lia|]. by apply Ha.
  - intros id n Hin. destruct (Hdr id n Hin) as (i & Hi & ->). exists i. split; [lia|done].
Qed.
Lemma extends_refl d : extends d d.
Proof. repeat split; [lia|]. exists []. by rewrite app_nil_r. Qed.
Lemma reachable_snapshot_ok id d :
  dispatcher_ok d →
  dispatcher_ok (ensure_reachable_snapshot answers id d).1 ∧ extends d (ensure_reachable_snapshot answers id d).1.
Proof.
  intros Hd. unfold ensure_reachable_snapshot, mbind, dispatch_bind, checked.
  destruct (ensure _ _); [|by split; [|apply extends_refl]]. destruct (ask_ok d Hd) as [Hok He]. simpl in *.
  by destruct (aw_fails _).
Qed.
Definition stable (P : Dispatcher → Prop) : Prop := ∀ d d', extends d d' → P d → P d'.
Lemma keeps_ask P : stable P → keeps P (ask answers) (λ _, P).
Proof. intros Hst d Hd HP. destruct (ask_ok d Hd) as [Hok Hext]. split; [done|]. by eapply Hst. Qed.
Lemma keeps_now P : stable P → keeps P (now_ms answers) (λ _, P).
Proof.
  intros Hst. eapply keeps_bind; [by apply keeps_ask|]. intros a. destruct (aw_fails a); [apply keeps_bail|].
  by apply keeps_ret.
Qed.

(** ** Writing *)
Lemma update_ok d f :
  dispatcher_ok d → file_ok (d_log d) (f (d_disk d)) →
  (∀ a, if_active (f (d_disk d)) = Some a → requests_ok (d_log d) (d_asked d) (d_requests d) a) →
  ∃ d' s, update_state f d = (d', Ok s) ∧ dispatcher_ok d' ∧ if_active (d_disk d') = if_active (f (d_disk d))
    ∧ d_log d' = d_log d ∧ d_asked d' = d_asked d ∧ d_requests d' = d_requests d.
Proof.
  intros [Hs Hf Hw Ha Ho Hdr] Hfile Hreq. unfold update_state. rewrite Hs. simpl. eexists _, _. split; [done|].
  assert (file_ok (d_log d) (mkIntegratorStateFile INTEGRATOR_STATE_SCHEMA_VERSION (if_active (f (d_disk d)))
    (if_history (f (d_disk d))))) as Hnew by (destruct Hfile; by split).
  split; [|done]. split; simpl; try done. by constructor.
Qed.

(** [a] is the assignment on disk; [a] is about to be written over it. *)
Definition saved (a : PersistedIntegratorAssignment) (d : Dispatcher) : Prop := if_active (d_disk d) = Some a.
Definition working (a : PersistedIntegratorAssignment) (d : Dispatcher) : Prop :=
  is_Some (if_active (d_disk d)) ∧ requests_ok (d_log d) (d_asked d) (d_requests d) a.
Definition ready (a : PersistedIntegratorAssignment) (d : Dispatcher) : Prop :=
  working a d ∧ assignment_ok (d_log d) a.
Lemma saved_ready a d : dispatcher_ok d → saved a d → ready a d.
Proof.
  intros Hd Hs. split; [split; [by eexists|by apply (di_active d Hd)]|]. by apply (fo_active _ _ (di_disk d Hd)).
Qed.
Lemma stable_saved a : stable (saved a).
Proof. intros d d' (Hd & _) Hs. unfold saved. by rewrite Hd. Qed.
Lemma stable_working a : stable (working a).
Proof.
  intros d d' (Hd & Hr & Hle & more & Hlog) [Ha Hreq]. split; [by rewrite Hd|]. rewrite Hlog, Hr. by eapply requests_more.
Qed.
Lemma stable_ready a : stable (ready a).
Proof.
  intros d d' He [Hw Hok]. split; [by eapply stable_working|]. destruct He as (_ & _ & _ & more & ->). by apply assignment_more.
Qed.

Lemma save_keeps a : keeps (ready a) (save a) (λ _, saved a).
Proof.
  intros d Hd [[[a0 Ha0] Hreq] Hok]. unfold save.
  destruct (update_ok d (λ s, match if_active s with Some _ => set_active_file (Some a) s | None => s end) Hd)
    as (d' & s & Hu & Hd' & Hact & _).
  - rewrite Ha0. destruct (di_disk d Hd) as [_ Hh Hb]. split; simpl; [by intros a' [= <-]|done|done].
  - rewrite Ha0. simpl. by intros a' [= <-].
  - unfold mbind, dispatch_bind. rewrite Hu. simpl. split; [done|]. unfold saved. by rewrite Hact, Ha0.
Qed.

(** ** Reading *)
Lemma read_keeps P recipient cursor :
  stable P →
  keeps P (read_signals answers recipient cursor) (λ r d, P d
    ∧ (ai_cursor r ≠ "" → ∃ rest, after_id (ai_cursor r) (d_log d) = Some rest)
    ∧ (∀ m, m ∈ ai_messages r → ∃ e, e ∈ d_log d ∧ le_signal e = Some m)
    ∧ (ai_cursor_reset r = false → recipient = None → ∃ ms, signals_after cursor (d_log d) = Some ms
         ∧ ∀ m, m ∈ ms → m ∈ ai_messages r)).
Proof.
  intros Hst. eapply keeps_bind; [by apply keeps_ask|]. intros a. destruct (aw_fails a); [apply keeps_bail|].
  intros d Hd HP. cbv zeta.
  assert (default "" (le_id <$> last (d_log d)) ≠ "" → ∃ rest, after_id (default "" (le_id <$> last (d_log d))) (d_log d) = Some rest)
    as Hcur.
  { destruct (d_log d) as [|e log _] using rev_ind; [done|]. rewrite last_snoc. simpl. intros _. apply after_id_last. }
  destruct (signals_after cursor (d_log d)) as [ms|] eqn:Hms; simpl; (split; [done|]); (split; [done|]); (split; [done|]).
  - set (found := sort_newest _).
    assert (∀ m, m ∈ found → m ∈ ms) as Hfound.
    { intros m. unfold found. rewrite sort_newest_perm. rewrite !list_elem_of_In. intros [? _]%List.filter_In. done. }
    split.
    + intros m Hm. assert (m ∈ found) as Hin by (eapply sublist_subseteq; [apply sublist_take|exact Hm]).
      apply Hfound in Hin. unfold signals_after in Hms. destruct cursor as [c|].
      * destruct (after_id c (d_log d)) as [rest|] eqn:Hr; simplify_eq. apply list_elem_of_omap in Hin as (e & He & Hsig).
        exists e. split; [by eapply after_id_In|done].
      * simplify_eq. apply list_elem_of_omap in Hin as (e & He & Hsig). by exists e.
    + intros Hreset ->. exists ms. split; [done|]. intros m Hm. apply orb_false_iff in Hreset as [_ Hlim].
      apply Z.ltb_ge in Hlim. rewrite take_ge by (unfold zlen in Hlim; lia). unfold found. rewrite sort_newest_perm.
      apply list_elem_of_In, List.filter_In. split; [by apply list_elem_of_In|done].
  - split; [by intros m ?%not_elem_of_nil|done].
Qed.

(** ** Publishing *)
(** The request of the attempt [t]. *)
Definition assignment_profile (a : PersistedIntegratorAssignment) (n : Z) (selected : string) : IntegratorProfile :=
  PfAssignment (as_assignment_id a) n selected (as_about_snapshot a) (as_roster_fingerprint a)
    (as_neutral_integrator a) (as_task_summary a).
Lemma parse_encode a n selected body :
  encode_integrator_profile (assignment_profile a n selected) = Ok body →
  parse_integrator_profile body = Some (assignment_profile a n selected).
Proof using json_roundtrip.
  unfold encode_integrator_profile, parse_integrator_profile. intros He. apply bind_Ok in He as ([] & Hv & He).
  cbv zeta in He. apply bind_Ok in He as ([] & Hl & He). apply ensure_Ok in Hl. apply Ok_inj in He as <-.
  rewrite Z.ltb_antisym, Hl. cbn [negb]. set (p := assignment_profile a n selected) in *. set (json := integrator_to_string p).
  rewrite (proj2 (strip_prefix_Some _ _ (":" +:+ json)) eq_refl). cbn [mbind option_bind].
  rewrite (proj2 (strip_prefix_Some ":" (":" +:+ json) json) eq_refl). cbn [mbind option_bind].
  unfold json. rewrite (json_roundtrip _ _ _ _ _ _ _ : integrator_from_str (integrator_to_string p) = Some p). simpl.
  rewrite bool_decide_true by done. simpl. by rewrite Hv.
Qed.
Lemma request_recognized a t body id now :
  encode_integrator_profile (assignment_profile a (tt_attempt t) (tt_selected t)) = Ok body →
  is_assignment_request a t (request_of a (tt_selected t) body id now) = true.
Proof using json_roundtrip.
  intros Hb%parse_encode. unfold is_assignment_request, request_of. simpl.
  rewrite !bool_decide_true by done. simpl. rewrite Hb. simpl.
  rewrite !bool_decide_true by done. by rewrite Z.eqb_refl, eqb_reflx.
Qed.

Definition requested (id : string) (a : PersistedIntegratorAssignment) : PersistedIntegratorAssignment :=
  with_cursor (Some id) (on_last (attempt_with_request id) a).
Lemma needs_send_requested id a : needs_send (requested id a) = None.
Proof.
  unfold needs_send, requested. simpl. rewrite last_alter_last. destruct (last (as_attempts a)) as [t|]; [|done].
  simpl. by rewrite andb_false_r.
Qed.

Lemma publish_keeps a t m ans :
  needs_send a = Some t → tt_attempt t = zlen (as_attempts a) - 1 → is_assignment_request a t m = true →
  ms_message_id m = aw_message_id ans →
  keeps (λ d, saved a d ∧ (as_assignment_id a, tt_attempt t) ∉ d_requests d)
    (publish_request a (tt_attempt t) m ans) (λ id d, saved a d ∧ working (requested id a) d).
Proof using json_roundtrip.
  intros Hn Hlast Hm Hid d Hd [Hs Hnew].
  assert (le_signal (mkLogEntry (aw_message_id ans) (Some m)) = Some m) as Hsig
    by (unfold le_signal; simpl; rewrite <-Hid; by destruct m).
  assert (as_attempts a ≠ []) as Hne by (unfold needs_send in Hn; intros Hnil; by rewrite Hnil in Hn).
  set (d1 := mkDispatcher (d_disk d) (d_log d ++ [mkLogEntry (aw_message_id ans) (Some m)]) (d_asked d) (d_written d)
               (d_requests d ++ [(as_assignment_id a, tt_attempt t)])).
  destruct (di_active d Hd a Hs) as [Hdr Hcur Hreq].
  assert (zlen (as_attempts a) > 0) as Hpos by (unfold zlen; destruct (as_attempts a); simpl; [done|lia]).
  assert (∃ ms, signals_after (as_inbox_cursor a) (d_log d ++ [mkLogEntry (aw_message_id ans) (Some m)]) = Some (ms ++ [m]))
    as [ms Hms].
  { destruct (signals_after (as_inbox_cursor a) (d_log d)) as [ms|] eqn:Hms.
    - exists ms. rewrite (signals_after_more _ _ _ _ Hms). cbn [omap list_omap]. by rewrite Hsig.
    - unfold signals_after in Hms. destruct (as_inbox_cursor a) as [c|]; [|done].
      destruct (Hcur c eq_refl) as [rest Hr]. by rewrite Hr in Hms. }
  assert (dispatcher_ok d1) as Hd1.
  { destruct Hd as [Hsch Hf Hw Ha Ho Hdrawn]. split; simpl; [done|by apply file_more| | | |].
    - eapply Forall_impl; [exact Hw|]. intros f ?. by apply file_more.
    - intros a' Ha'. assert (a' = a) as -> by congruence. split; [done| |].
      + intros c Hc. destruct (Hcur c Hc) as [rest Hr]. eexists. by apply after_id_app.
      + intros n [Hin|Hin]%elem_of_app.
        * destruct (Hreq n Hin) as [Hbound _]. split; [done|]. intros t' Ht' ->. by simplify_eq.
        * apply list_elem_of_singleton in Hin. simplify_eq. split; [lia|]. intros t' Ht' _. simplify_eq.
          exists (ms ++ [m]), m. split; [done|]. split; [apply elem_of_app; right; by left|done].
    - apply NoDup_app. split; [done|]. split; [|apply NoDup_singleton]. intros x Hx ->%list_elem_of_singleton. done.
    - intros id n [Hin|Hin]%elem_of_app; [by eapply Hdrawn|]. apply list_elem_of_singleton in Hin. simplify_eq. done. }
  assert (dispatcher_ok d1 ∧ saved a d1 ∧ working (requested (aw_message_id ans) a) d1) as (_ & Hs1 & Hw1).
  { split; [done|]. split; [done|]. split; [by exists a|]. split; simpl.
    - done.
    - intros c [= <-]. apply (after_id_last (d_log d) (mkLogEntry (aw_message_id ans) (Some m))).
    - intros n Hin. destruct (di_active d1 Hd1 a Hs) as [_ _ Hreq1]. destruct (Hreq1 n Hin) as [Hb _].
      split; [unfold zlen in *; by rewrite length_alter_last|]. intros t'. by rewrite needs_send_requested. }
  unfold publish_request. fold d1. destruct (aw_fails ans); [destruct (aw_published ans)|]; by split.
Qed.

Lemma send_keeps a t :
  needs_send a = Some t → tt_attempt t = zlen (as_attempts a) - 1 →
  keeps (λ d, saved a d ∧ (as_assignment_id a, tt_attempt t) ∉ d_requests d)
    (send_assignment_request answers a (tt_attempt t) (tt_selected t)) (λ id d, saved a d ∧ working (requested id a) d).
Proof using json_roundtrip.
  intros Hn Hlast. apply keeps_then. intros body Hb. eapply keeps_bind.
  - apply (keeps_ask (λ d, saved a d ∧ (as_assignment_id a, tt_attempt t) ∉ d_requests d)).
    intros d d' He [Hs Hr]. split; [by eapply stable_saved|]. destruct He as (_ & -> & _). done.
  - intros ans. apply publish_keeps; [done..| |done]. by apply request_recognized.
Qed.

(** ** Offers *)
Lemma attempts_alter a f :
  attempts_ok a → (∀ t, tt_attempt (f t) = tt_attempt t ∧ tt_selected (f t) = tt_selected t) → attempts_ok (on_last f a).
Proof.
  intros [Hr Hc Hb] Hf. split; simpl; [| |unfold zlen in *; by rewrite length_alter_last].
  - intros i t (t0 & Ht0 & [[-> _]|[-> _]])%lookup_alter_last; [by apply Hr|].
    destruct (Hf t0) as [-> ->]. by apply Hr.
  - intros i t (t0 & Ht0 & [[-> Hi]|[-> Hi]])%lookup_alter_last; rewrite length_alter_last; [intros _; by eapply Hc|lia].
Qed.
Lemma last_alter_closed a f i t :
  attempts_ok a → (∀ t, is_open (tt_state (f t)) = false) → as_attempts (on_last f a) !! i = Some t →
  is_open (tt_state t) = false.
Proof.
  intros [_ Hc _] Hf (t0 & Ht0 & [[-> Hi]|[-> _]])%lookup_alter_last; [by eapply Hc|apply Hf].
Qed.
Lemma supersede_spec reason a :
  attempts_ok a → (reason = None → as_attempts a = []) →
  attempts_ok (supersede reason a) ∧ length (as_attempts (supersede reason a)) = length (as_attempts a)
  ∧ (∀ i t, as_attempts (supersede reason a) !! i = Some t → is_open (tt_state t) = false)
  ∧ as_ranked (supersede reason a) = as_ranked a ∧ as_assignment_id (supersede reason a) = as_assignment_id a
  ∧ as_inbox_cursor (supersede reason a) = as_inbox_cursor a.
Proof.
  intros Hok Hnone. destruct reason as [reason|]; simpl.
  - set (f := λ t, if is_open (tt_state t) then _ else t).
    split; [apply (attempts_alter a f Hok); intros t; unfold f; by destruct (is_open _)|].
    split; [apply length_alter_last|]. split; [|done].
    intros i t. apply (last_alter_closed a f i t Hok). intros t'. unfold f. by destruct (is_open (tt_state t')) eqn:Ho.
  - split; [done|]. split; [done|]. split; [|done]. rewrite Hnone by done. by intros i t.
Qed.

Lemma requested_ok log id a t : needs_send a = Some t → assignment_ok log a → assignment_ok log (requested id a).
Proof.
  intros Hn [Hnd Hok Hst Hev]. unfold needs_send in Hn. destruct (last (as_attempts a)) as [t0|] eqn:Hlast; [|done].
  destruct (_ && _) eqn:Hb; [|done]. injection Hn as ->. to_prop.
  assert (last_state (requested id a) = last_state a) as Hls
    by (unfold last_state, requested; simpl; by rewrite last_alter_last, Hlast).
  split; [done| | |].
  - by apply (attempts_ok_ext (on_last (attempt_with_request id) a)), attempts_alter.
  - unfold state_ok in *. rewrite Hls. simpl. destruct (as_state a) eqn:Hs; try done. by rewrite Hst.
  - split; simpl.
    + intros t'. rewrite last_alter_last, Hlast. intros [= <-]. simpl. congruence.
    + intros Hc. unfold state_ok, last_state in Hst. rewrite Hc, Hlast in Hst. simpl in Hst. congruence.
Qed.

(** The assignment an offer writes. *)
Definition offered (now : Z) (selected : string) (a : PersistedIntegratorAssignment) : PersistedIntegratorAssignment :=
  with_updated now (with_state AsOffered (with_attempts (as_attempts a ++
    [mkIntegratorAttempt (Z.of_nat (length (as_attempts a))) selected AtOffered now None None None None]) a)).
Lemma offered_ok log now selected a :
  NoDup (as_ranked a) → attempts_ok a → (∀ i t, as_attempts a !! i = Some t → is_open (tt_state t) = false) →
  as_ranked a !! length (as_attempts a) = Some selected → Z.of_nat (length (as_attempts a)) < INTEGRATOR_MAX_ATTEMPTS →
  assignment_ok log (offered now selected a).
Proof.
  intros Hn Hok Hclosed Hsel Hmax. split; [done| | |].
  - split; simpl; [| |unfold zlen; rewrite length_app; simpl; lia].
    + intros i t [Ht|[Hi Ht]]%lookup_app_Some; [by apply (ao_ranked a Hok)|].
      apply list_lookup_singleton_Some in Ht as [Hz <-]. simpl. replace i with (length (as_attempts a)) by lia. done.
    + intros i t [Ht|[Hi Ht]]%lookup_app_Some; [intros _; by eapply Hclosed|]. rewrite length_app. simpl. lia.
  - unfold state_ok, last_state. simpl. by rewrite last_snoc.
  - split; simpl; [|done]. intros t. rewrite last_snoc. by intros [= <-].
Qed.

Lemma offer_next_keeps a reason :
  (reason = None → as_attempts a = []) → NoDup (as_ranked a) → attempts_ok a →
  keeps (working a) (offer_next answers a reason)
    (λ a' d, saved a' d ∧ needs_send a' = None ∧ as_state a' = AsOffered).
Proof using json_roundtrip.
  intros Hnone Hnd Hok. unfold offer_next. destruct (as_ranked a !! length (as_attempts a)) as [selected|] eqn:Hsel;
    [|apply keeps_bail].
  apply keeps_then. intros [] Hmax%ensure_Ok. apply Z.ltb_lt in Hmax. destruct (supersede_spec reason a Hok Hnone) as (Hok' & Hlen & Hclosed & Hrank & Hid & Hcur).
  set (b := supersede reason a) in *.
  assert (∀ d, working a d → working b d ∧ (as_assignment_id b, Z.of_nat (length (as_attempts b))) ∉ d_requests d) as Hb.
  { intros d [Hact [Hdr Hc Hr]]. rewrite <-Hid in Hdr. rewrite <-Hcur in Hc. rewrite <-Hid in Hr. split.
    - split; [done|]. split; [done..|]. intros n Hin. destruct (Hr n Hin) as [Hn _].
      unfold zlen in *. split; [lia|]. intros t Ht. exfalso. unfold needs_send in Ht.
      destruct (last (as_attempts b)) as [t0|] eqn:Hlast; [|done]. apply last_Some in Hlast as [l Hl].
      assert (is_open (tt_state t0) = false) as Ho.
      { apply (Hclosed (length l)). rewrite Hl. by apply list_lookup_middle. }
      destruct (tt_state t0); done.
    - intros Hin. destruct (Hr _ Hin) as [Hn _]. unfold zlen in *. lia. }
  eapply keeps_bind; [apply (keeps_now (working a)), stable_working|]. intros now.
  assert (offered now selected b = with_updated now (with_state AsOffered (with_attempts (as_attempts b ++
    [mkIntegratorAttempt (Z.of_nat (length (as_attempts a))) selected AtOffered now None None None None]) b))) as <-
    by (unfold offered; by rewrite Hlen).
  set (o := offered now selected b). rewrite <-Hlen. rewrite <-Hrank in Hsel, Hnd. rewrite <-Hlen in Hsel.
  assert (∀ d, working a d → ready o d ∧ (as_assignment_id o, Z.of_nat (length (as_attempts b))) ∉ d_requests d) as Ho.
  { intros d Hw. destruct (Hb d Hw) as [[Hact [Hdr Hc Hr]] Hnew]. split; [|done]. split.
    - split; [done|]. split; [done|done|]. intros n Hin. destruct (Hr n Hin) as [Hn _]. unfold zlen in *. simpl.
      rewrite length_app. simpl. split; [lia|]. intros t. unfold needs_send. simpl. rewrite last_snoc. simpl.
      intros [= <-]. simpl. lia.
    - apply offered_ok; [done..|by rewrite Hlen]. }
  assert (needs_send o = Some (mkIntegratorAttempt (Z.of_nat (length (as_attempts b))) selected AtOffered now None None None None))
    as Hneed by (unfold needs_send; simpl; by rewrite last_snoc).
  eapply (keeps_bind _ _ (λ _ d, saved o d ∧ (as_assignment_id o, Z.of_nat (length (as_attempts b))) ∉ d_requests d)).
  - intros d Hd Hw. destruct (Ho d Hw) as [Hr Hnew]. destruct (save_keeps o d Hd Hr) as [Hd' Hs]. split; [done|].
    destruct (save o d) as [d' [u|e]] eqn:Hsv; [|done]. simpl in *. split; [done|].
    assert (d_requests d' = d_requests d) as ->; [|done].
    unfold save, mbind, dispatch_bind, update_state in Hsv. destruct (negb _); simpl in Hsv; [done|]. by injection Hsv as <-.
  - intros _. eapply keeps_bind; [apply (send_keeps o _ Hneed); unfold zlen; simpl; rewrite length_app; simpl; lia|].
    intros id. eapply (keeps_bind _ _ (λ _, saved (requested id o))).
    + eapply keeps_weaken; [apply save_keeps| |done]. intros d Hd [Hs Hw]. split; [done|].
      eapply requested_ok; [exact Hneed|]. by apply (fo_active _ _ (di_disk d Hd)).
    + intros _. apply keeps_ret. intros d Hs. split; [done|]. split; [apply needs_send_requested|done].
Qed.

(** ** Replies *)
Lemma numbered_last (l : list IntegratorAttempt) (k n : Z) f :
  (∀ i t, l !! i = Some t → tt_attempt t = k + Z.of_nat i) → l ≠ [] → n = k + zlen l - 1 →
  attempt_numbered n l = last l ∧ alter_numbered f n l = alter_last f l.
Proof.
  revert k. induction l as [|t l IH]; intros k Hl Hne Hn; [done|]. unfold attempt_numbered. simpl.
  pose proof (Hl 0%nat t eq_refl) as Ht. unfold zlen in *. simpl length in Hn. destruct l as [|t' l].
  - simpl in *. rewrite (proj2 (Z.eqb_eq (tt_attempt t) n)) by lia. done.
  - assert (0 < Z.of_nat (length (t' :: l))) by (simpl; lia).
    rewrite (proj2 (Z.eqb_neq (tt_attempt t) n)) by lia.
    destruct (IH (k + 1)) as [Hf Ha]; [|done|unfold zlen; lia|].
    + intros i t0 Hi. rewrite (Hl (S i) t0 Hi). lia.
    + unfold attempt_numbered in Hf. rewrite Hf, Ha. done.
Qed.
Lemma attempts_last a n f :
  attempts_ok a → as_attempts a ≠ [] → n = Z.max 0 (Z.min (zlen (as_attempts a)) U32_MAX - 1) →
  attempt_numbered n (as_attempts a) = last (as_attempts a)
  ∧ alter_numbered f n (as_attempts a) = alter_last f (as_attempts a).
Proof.
  intros [Hr _ Hb] Hne ->. apply (numbered_last _ 0); [|done|].
  - intros i t Ht. destruct (Hr i t Ht) as [-> _]. lia.
  - assert (0 < zlen (as_attempts a)) by (unfold zlen; destruct (as_attempts a); simpl; [done|lia]).
    unfold INTEGRATOR_MAX_ATTEMPTS, U32_MAX in *. lia.
Qed.

(** A reply changes the last attempt, keeping its candidate and its request, and closes or accepts it. *)
Lemma apply_profile_ok log a p m now a' :
  assignment_ok log a → needs_send a = None → (∃ e, e ∈ log ∧ le_signal e = Some m) →
  parse_integrator_profile (ms_body m) = Some p → apply_profile a p m now = Some a' →
  assignment_ok log a' ∧ needs_send a' = None ∧ as_assignment_id a' = as_assignment_id a
  ∧ as_inbox_cursor a' = as_inbox_cursor a ∧ length (as_attempts a') = length (as_attempts a).
Proof.
  intros [Hnd Hok Hst Hev] Hns (e & He & Hsig) Hparse Happ. unfold apply_profile in Happ.
  destruct (profile_message_matches a p m) eqn:Hmatch; [|done]. simpl in Happ.
  destruct (profile_header p) as [[id n] about] eqn:Hhead.
  destruct (negb (bool_decide (id = as_assignment_id a))) eqn:Hid; [done|].
  destruct (negb (n =? _) || _) eqn:Hn; [done|]. apply orb_false_iff in Hn as [Hn _].
  destruct (attempt_numbered n (as_attempts a)) as [t|] eqn:Hnum; [|done].
  destruct (negb (is_open (tt_state t))) eqn:Hopen; [done|]. to_prop. subst id.
  assert (as_attempts a ≠ []) as Hne by (intros Hnil; unfold attempt_numbered in Hnum; by rewrite Hnil in Hnum).
  assert (last (as_attempts a) = Some t ∧ ∀ f, alter_numbered f n (as_attempts a) = alter_last f (as_attempts a)) as [Hlast Halt].
  { split; [destruct (attempts_last a n (λ t, t) Hok Hne Hn) as [<- _]; done|].
    intros f. by destruct (attempts_last a n f Hok Hne Hn). }
  unfold profile_message_matches in Hmatch. rewrite Hhead, Hnum in Hmatch.
  destruct (expected_kind p) as [kind|] eqn:Hkind; [|done]. to_prop. subst about.
  assert (tt_attempt t = n) as Htn by (unfold attempt_numbered in Hnum; apply find_some in Hnum as [_ Hz]; by to_prop).
  assert (∃ rid, tt_request_message_id t = Some rid) as [rid Hrid].
  { unfold needs_send in Hns. rewrite Hlast in Hns. destruct (tt_request_message_id t) as [rid|] eqn:Hr; [by exists rid|].
    exfalso. destruct (tt_state t) eqn:Hs; try done.
    destruct (eo_accepted _ _ Hev t Hlast Hs) as (q & (e' & m' & id' & _ & _ & _ & _ & Hreq & _) & _). congruence. }
  assert (∀ b t', as_assignment_id b = as_assignment_id a → as_about_snapshot b = as_about_snapshot a →
    tt_attempt t' = tt_attempt t → tt_selected t' = tt_selected t → tt_request_message_id t' = tt_request_message_id t →
    replied log b t' kind p) as Hrep.
  { intros b t' Hb1 Hb2 Ht1 Ht2 Ht3. exists e, m, rid. rewrite Hb1, Hb2, Ht1, Ht2, Ht3. repeat split; try done; congruence. }
  assert (∀ f st b, as_attempts b = as_attempts a → as_ranked b = as_ranked a → as_assignment_id b = as_assignment_id a →
    as_inbox_cursor b = as_inbox_cursor a →
    (∀ t, tt_attempt (f t) = tt_attempt t ∧ tt_selected (f t) = tt_selected t) → tt_state (f t) ≠ AtOffered →
    state_ok (with_state st (on_last f b)) →
    evidence_ok log (with_updated now (with_state st (with_attempts (alter_numbered f n (as_attempts b)) b))) →
    let a' := with_updated now (with_state st (with_attempts (alter_numbered f n (as_attempts b)) b)) in
    assignment_ok log a' ∧ needs_send a' = None ∧ as_assignment_id a' = as_assignment_id a
    ∧ as_inbox_cursor a' = as_inbox_cursor a ∧ length (as_attempts a') = length (as_attempts a)) as Hchange.
  { intros f st b Hba Hbr Hbi Hbc Hf Hnoff Hso Heo. cbv zeta. split.
    - split; [by simpl; rewrite Hbr| | |done].
      + apply (attempts_ok_ext (on_last f a)); [simpl; by rewrite Hba, Halt|done|]. by apply attempts_alter.
      + unfold state_ok, last_state in *. simpl in *. by rewrite Hba, Halt in *.
    - unfold needs_send. simpl. rewrite Hba, Halt, last_alter_last, Hlast. simpl. rewrite bool_decide_false by done.
      repeat split; try done. apply length_alter_last. }
  destruct p as [|i k ab|i k ab dg|i k ab r]; [done| | |]; injection Hhead as -> -> ->.
  - destruct (negb _) eqn:Hs in Happ; [done|]. injection Happ as <-. apply (Hchange _ AsAccepted a); try done.
    + unfold state_ok, last_state. simpl. by rewrite last_alter_last, Hlast.
    + split; simpl; [|done]. intros t'. rewrite Halt, last_alter_last, Hlast. intros [= <-] _.
      injection Hkind as <-. eexists. split; [by apply Hrep|done].
  - destruct (negb _) eqn:Hs in Happ; [done|]. destruct (negb _) in Happ; [done|]. destruct (negb _) in Happ; [done|].
    injection Happ as <-. apply (Hchange _ _ (with_digest dg a)); try done; simpl.
    + by destruct (dg_state dg).
    + unfold state_ok, last_state. simpl. rewrite last_alter_last, Hlast. simpl. destruct (dg_state dg); simpl; naive_solver.
    + split; simpl.
      * intros t'. rewrite Halt, last_alter_last, Hlast. intros [= <-] Hacc. simpl in Hacc. by destruct (dg_state dg).
      * intros Hcomp. rewrite Halt, last_alter_last, Hlast. simpl. injection Hkind as <-.
        eexists _, dg. split; [done|]. split; [done|]. split; [by destruct (dg_state dg)|]. split; [by to_prop|].
        rewrite <-Htn in Hrep. by apply Hrep.
  - destruct (negb _) eqn:Hs in Happ; [done|]. injection Happ as <-. apply (Hchange _ AsBlocked a); try done.
    + unfold state_ok, last_state. simpl. by rewrite last_alter_last, Hlast.
    + split; simpl; [|done]. intros t'. rewrite Halt, last_alter_last, Hlast. by intros [= <-].
Qed.

(** ** Observation *)
Lemma requests_ext log asked requests a b :
  as_assignment_id b = as_assignment_id a → as_inbox_cursor b = as_inbox_cursor a →
  length (as_attempts b) = length (as_attempts a) → needs_send b = None →
  requests_ok log asked requests a → requests_ok log asked requests b.
Proof.
  intros Hi Hc Hl Hn [Hd Hcur Hr]. split; rewrite ?Hi, ?Hc; [done..|]. intros n Hin. destruct (Hr n Hin) as [Hb _].
  unfold zlen in *. rewrite Hl. split; [done|]. intros t. by rewrite Hn.
Qed.
Definition idle (a : PersistedIntegratorAssignment) (d : Dispatcher) : Prop := ready a d ∧ needs_send a = None.
Lemma stable_idle a : stable (idle a).
Proof. intros d d' He [Hr Hn]. split; [by eapply stable_ready|done]. Qed.
Lemma saved_idle a d : dispatcher_ok d → saved a d → needs_send a = None → idle a d.
Proof. intros Hd Hs Hn. split; [by apply saved_ready|done]. Qed.
Lemma save_idle a : keeps (idle a) (save a) (λ _, idle a).
Proof.
  intros d Hd [Hr Hn]. destruct (save_keeps a d Hd Hr) as [Hd' Hs]. split; [done|].
  destruct (save a d) as [d' [u|e]]; [|done]. by apply saved_idle.
Qed.

Lemma evidence_reason log a r :
  evidence_ok log a → evidence_ok log (on_last (attempt_with_reason r) a).
Proof.
  intros [Ha Hc]. split; simpl.
  - intros t. rewrite last_alter_last. destruct (last (as_attempts a)) as [t0|]; [|done]. intros [= <-]. simpl.
    intros Hs. exact (Ha t0 eq_refl Hs).
  - intros Hs. destruct (Hc Hs) as (t & dg & Hl & ? & ? & ? & Hr). exists (attempt_with_reason r t), dg.
    rewrite last_alter_last, Hl. repeat split; try done.
Qed.
Lemma needs_send_reason r a : needs_send (on_last (attempt_with_reason r) a) = None ↔ needs_send a = None.
Proof.
  unfold needs_send. simpl. rewrite last_alter_last. destruct (last (as_attempts a)) as [t|]; [|done]. simpl.
  by destruct (_ && _).
Qed.
Lemma last_state_reason r a : last_state (on_last (attempt_with_reason r) a) = last_state a.
Proof. unfold last_state. simpl. rewrite last_alter_last. by destruct (last (as_attempts a)). Qed.
Lemma reason_attempts r a : attempts_ok a → attempts_ok (on_last (attempt_with_reason r) a).
Proof. intros Hok. by apply attempts_alter. Qed.

Definition for_human (now : Z) (r : string) (a : PersistedIntegratorAssignment) : PersistedIntegratorAssignment :=
  on_last (attempt_with_reason r) (with_updated now (with_state AsRequiresHuman a)).
Lemma for_human_ok log now r a : assignment_ok log a → assignment_ok log (for_human now r a).
Proof.
  intros [Hnd Hok Hst [Ha Hc]]. split; [done| |done|].
  - apply reason_attempts. by apply (attempts_ok_ext a).
  - by apply evidence_reason.
Qed.

(** Replies that were read from the log. *)
Definition from_log (l : list (AgentMessage * IntegratorProfile)) (d : Dispatcher) : Prop :=
  ∀ m p, (m, p) ∈ l → (∃ e, e ∈ d_log d ∧ le_signal e = Some m) ∧ parse_integrator_profile (ms_body m) = Some p.
Lemma stable_from_log l : stable (from_log l).
Proof.
  intros d d' (_ & _ & _ & more & Hlog) Hl m p Hin. rewrite Hlog. destruct (Hl m p Hin) as [(e & He & Hs) Hp]. split; [|done].
  exists e. split; [apply elem_of_app; by left|done].
Qed.
Lemma stable_and (P Q : Dispatcher → Prop) : stable P → stable Q → stable (λ d, P d ∧ Q d).
Proof. intros HP HQ d d' He [? ?]. split; [by eapply HP|by eapply HQ]. Qed.

(** Whatever holds of the log and of every longer one ([R]) still holds after the replies. *)
Lemma observe_reply_keeps (R : list LogEntry → Prop) o m p l :
  (∀ log more, R log → R (log ++ more)) →
  keeps (λ d, (idle (ob_assignment o) d ∧ from_log ((m, p) :: l) d) ∧ R (d_log d)) (observe_reply answers o (m, p))
    (λ o' d, (idle (ob_assignment o') d ∧ from_log l d) ∧ R (d_log d)).
Proof.
  intros HR. set (P := λ d, (idle (ob_assignment o) d ∧ from_log ((m, p) :: l) d) ∧ R (d_log d)).
  assert (stable P) as Hst.
  { apply (stable_and _ (λ d, R (d_log d))); [apply stable_and; [apply stable_idle|apply stable_from_log]|].
    intros d d' (_ & _ & _ & more & ->). apply HR. }
  assert (∀ d, P d → (idle (ob_assignment o) d ∧ from_log l d) ∧ R (d_log d)) as Hdrop.
  { intros d [[Hi Hl] Hlog]. split; [|done]. split; [done|]. intros m' p' Hin. apply Hl. by right. }
  simpl. destruct (negb _); [by apply keeps_ret|].
  apply (keeps_bind _ _ (λ _, P)).
  - destruct p as [| |i k ab dg|]; try (by apply keeps_ret). intros d Hd HP.
    destruct (reachable_snapshot_ok (dg_inspected_snapshot dg) d Hd) as [Hok He]. apply (Hst _ _ He) in HP.
    destruct (ensure_reachable_snapshot _ _ _) as [d1 [u|e]]; by split.
  - intros [|]; simpl; [|by apply keeps_ret]. eapply keeps_bind; [by apply keeps_now|]. intros now.
    destruct (apply_profile (ob_assignment o) p m now) as [a'|] eqn:Happ; [|by apply keeps_ret].
    eapply (keeps_bind _ _ (λ _ d, (idle a' d ∧ from_log l d) ∧ R (d_log d))); [|intros _; by apply keeps_ret].
    intros d Hd [[[[[Hact Hreq] Hok] Hn] Hl] Hlr]. destruct (Hl m p ltac:(left)) as [He Hp].
    destruct (apply_profile_ok (d_log d) _ _ _ _ _ Hok Hn He Hp Happ) as (Hok' & Hn' & Hid & Hc & Hlen).
    destruct (save_idle a' d Hd) as [Hd' Hi'].
    { split; [|done]. split; [|done]. split; [done|]. by eapply requests_ext. }
    split; [done|]. assert (d_log (save a' d).1 = d_log d) as Hlog.
    { unfold save, mbind, dispatch_bind, update_state. by destruct (negb _). }
    destruct (save a' d) as [d' [u|e]]; [|done]. simpl in *. split; [|by rewrite Hlog]. split; [done|].
    intros m' p' Hin. rewrite Hlog. apply Hl. by right.
Qed.
Lemma observe_replies_keeps (R : list LogEntry → Prop) l o :
  (∀ log more, R log → R (log ++ more)) →
  keeps (λ d, (idle (ob_assignment o) d ∧ from_log l d) ∧ R (d_log d)) (observe_replies answers o l)
    (λ o' d, idle (ob_assignment o') d ∧ R (d_log d)).
Proof.
  intros HR. revert o. induction l as [|[m p] l IH]; intros o; simpl; [apply keeps_ret; by intros d [[? _] ?]|].
  eapply keeps_bind; [by apply observe_reply_keeps|]. intros o'. apply IH.
Qed.
End invariant.
