(* ===== verification/IntegratorTheorems.v ===== *)
(** * Integrator dispatcher: what holds of every history

    Every operation keeps the invariant; the theorems on the states written, the requests
    published and the completed assignments. *)
From Stdlib Require Import ZArith Lia Ascii Strings.Byte.
From stdpp Require Import sorting numbers strings gmap list_numbers list options.
From S2P Require Import Prelude Text Paths Model WorkContract AgentContract Signals SignalsProps IntegratorContract.
From S2P Require Import Integrator IntegratorSelection IntegratorProps.

Local Open Scope Z_scope.

Section operations.
Context `{Unicode, Blake3, IntegratorJson} (answers : nat → Answer).
Context (json_roundtrip : assignment_json_roundtrip).
Local Notation keeps := (keeps answers).
Local Notation idle := (idle answers).
Local Notation ready := (ready answers).
Local Notation working := (working answers).
Local Notation dispatcher_ok := (dispatcher_ok answers).

(** Closing the last attempt. *)
Lemma close_working a f now d :
  (∀ t, tt_attempt (f t) = tt_attempt t ∧ tt_selected (f t) = tt_selected t) → (∀ t, is_open (tt_state (f t)) = false) →
  idle a d ∨ ready a d → 
  working (with_updated now (on_last f a)) d ∧ attempts_ok (with_updated now (on_last f a))
  ∧ needs_send (on_last f a) = None.
Proof using.
  intros Hf Hc Hr. assert (ready a d) as [[Hact Hreq] Hok] by (destruct Hr as [[? _]|?]; done).
  assert (needs_send (on_last f a) = None) as Hn.
  { unfold needs_send. simpl. rewrite last_alter_last. destruct (last (as_attempts a)) as [t|]; [|done]. simpl.
    specialize (Hc t). by destruct (tt_state (f t)). }
  split; [|split; [|done]].
  - split; [done|]. eapply requests_ext; [..|exact Hreq]; try done. apply length_alter_last.
  - apply (attempts_ok_ext (on_last f a)); [done..|]. apply attempts_alter; [apply (ko_attempts _ _ Hok)|done].
Qed.
Lemma cancelled_ok log a r :
  NoDup (as_ranked a) → attempts_ok a → (∀ s, last_state a = Some s → is_open s = false) →
  assignment_ok log (on_last (attempt_with_reason r) (with_state AsCancelled a)).
Proof using.
  intros Hn Hok Hc. split; [done| | |].
  - apply reason_attempts. by apply (attempts_ok_ext a).
  - unfold state_ok. simpl. intros s. change (last_state _) with (last_state (on_last (attempt_with_reason r) (with_state AsCancelled a))) at 1.
    rewrite last_state_reason. apply Hc.
  - split; simpl; [|done]. intros t. rewrite last_alter_last. unfold last_state in Hc.
    destruct (last (as_attempts a)) as [t0|]; [|done]. intros [= <-]. simpl. intros Hs. specialize (Hc _ eq_refl).
    by rewrite Hs in Hc.
Qed.
Lemma closed_last f a s : (∀ t, is_open (tt_state (f t)) = false) → last_state (on_last f a) = Some s → is_open s = false.
Proof using.
  intros Hf. unfold last_state. simpl. rewrite last_alter_last. destruct (last (as_attempts a)); [|done].
  intros [= <-]. apply Hf.
Qed.

(** ** The parts of a pass *)
Lemma time_out_keeps options o :
  keeps (idle (ob_assignment o)) (time_out answers options o) (λ o', idle (ob_assignment o')).
Proof using json_roundtrip.
  unfold time_out. destruct (negb _); [by apply keeps_ret|]. 
  destruct (match oo_ack_timeout_ms options with Some t => Some t | None => as_ack_timeout_ms (ob_assignment o) end)
    as [timeout|]; [|by apply keeps_ret].
  eapply keeps_bind; [apply keeps_now, stable_idle|]. intros now. destruct (negb _); [by apply keeps_ret|].
  set (a := on_last (attempt_with_state AtTimedOut) (ob_assignment o)).
  eapply (keeps_bind _ _ _ (λ o', idle (ob_assignment o'))).
  - destruct (_ <? _).
    + eapply keeps_bind; [|intros a'; apply keeps_ret; intros d Hd; exact Hd].
      intros d Hd Hi. destruct (close_working _ (attempt_with_state AtTimedOut) (as_updated_at_ms a) d
        ltac:(done) ltac:(done) (or_introl Hi)) as (Hw & Hok & Hn).
      assert (with_updated (as_updated_at_ms a) a = a) as Ha by (by destruct (ob_assignment o)). fold a in Hw, Hok. rewrite Ha in *.
      destruct (offer_next_keeps answers json_roundtrip a (Some "acknowledgement timed out") ltac:(done)
        (ko_nodup _ _ (proj2 (proj1 Hi))) Hok d Hd Hw) as [Hd' Hq].
      split; [done|]. destruct (offer_next answers a _ d) as [d' [a'|e]]; [|done]. destruct Hq as (Hs & Hns & _).
      by apply saved_idle.
    + intros d Hd Hi. split; [done|]. simpl.
      destruct (close_working _ (attempt_with_state AtTimedOut) (as_updated_at_ms a) d
        ltac:(done) ltac:(done) (or_introl Hi)) as ([Hact Hreq] & Hok & Hn).
      assert (with_updated (as_updated_at_ms a) a = a) as Ha by (by destruct (ob_assignment o)). fold a in Hreq, Hok, Hn. rewrite Ha in *.
      split; [|by apply needs_send_reason]. split; [split; [done|]|].
      * eapply requests_ext; [..|exact Hreq]; try done; [simpl; apply length_alter_last|by apply needs_send_reason].
      * apply cancelled_ok; [exact (ko_nodup _ _ (proj2 (proj1 Hi)))|done|]. intros s. by apply closed_last.
  - intros o'. eapply keeps_bind; [apply save_idle|]. intros []. by apply keeps_ret.
Qed.

Lemma fall_back_keeps options o :
  keeps (idle (ob_assignment o)) (fall_back answers options o) (λ o', idle (ob_assignment o')).
Proof using json_roundtrip.
  unfold fall_back. destruct (negb _) eqn:Hb; [by apply keeps_ret|]. apply negb_false_iff, andb_true_iff in Hb as [Hb _].
  apply bool_decide_eq_true in Hb. set (a := ob_assignment o) in *.
  eapply (keeps_bind _ _ _ (λ o', idle (ob_assignment o'))).
  - destruct (_ <? _).
    + eapply keeps_bind; [|intros a'; apply keeps_ret; intros d Hd; exact Hd].
      intros d Hd [[Hw Hok] Hn].
      destruct (offer_next_keeps answers json_roundtrip a (Some (default "candidate reported a blocker" (last (as_attempts a) ≫= tt_reason)))
        ltac:(done) (ko_nodup _ _ Hok) (ko_attempts _ _ Hok) d Hd Hw) as [Hd' Hq].
      split; [done|]. destruct (offer_next answers a _ d) as [d' [a'|e]]; [|done]. destruct Hq as (Hs & Hns & _).
      by apply saved_idle.
    + intros d Hd [[[Hact Hreq] Hok] Hn]. split; [done|]. simpl. split; [|by apply needs_send_reason]. split; [split; [done|]|].
      * eapply requests_ext; [..|exact Hreq]; try done; [simpl; apply length_alter_last|by apply needs_send_reason].
      * destruct Hok as [Hnd Ha Hs He]. split; [done|by apply reason_attempts, (attempts_ok_ext a)| |].
        -- unfold state_ok in *. simpl. rewrite Hb in Hs. change (last_state (on_last (attempt_with_reason NO_COMPLETION) a) = Some AtBlocked).
           by rewrite last_state_reason.
        -- apply evidence_reason. destruct He as [He1 He2]. by split.
  - intros o'. eapply keeps_bind; [apply save_idle|]. intros []. by apply keeps_ret.
Qed.

Lemma insert_archived_perm x l : insert_archived x l ≡ₚ x :: l.
Proof using.
  induction l as [|y l IH]; simpl; [done|]. destruct (archived_before y x); [|done]. rewrite IH. apply Permutation_swap.
Qed.
Lemma archive_ok log a f :
  file_ok log f → assignment_ok log a → is_terminal_state (as_state a) = true → file_ok log (archive a f).
Proof using.
  intros [_ Hh Hb] Ha Ht. split; simpl; [done| |].
  - apply Forall_take. assert (∀ l, foldr insert_archived [] l ≡ₚ l) as Hp
      by (induction l as [|x l IH]; simpl; [done|]; by rewrite insert_archived_perm, IH).
    rewrite Hp. apply Forall_app. split; [done|]. by constructor.
  - unfold zlen. rewrite length_take. unfold INTEGRATOR_MAX_HISTORY. lia.
Qed.
Lemma archive_keeps a :
  is_terminal_state (as_state a) = true →
  keeps (λ d, assignment_ok (d_log d) a) (update_state (archive a)) (λ _ _, True).
Proof using.
  intros Ht d Hd Ha. destruct (update_ok answers d (archive a) Hd) as (d' & s & Hu & Hd' & _).
  - apply archive_ok; [apply (di_disk _ _ Hd)|done..].
  - done.
  - by rewrite Hu.
Qed.
Lemma conclude_keeps cursor o : keeps (idle (ob_assignment o)) (conclude cursor o) (λ _ _, True).
Proof using.
  unfold conclude. destruct (is_terminal_state _) eqn:Ht.
  - eapply keeps_bind; [|intros []; by apply keeps_ret]. eapply keeps_weaken; [by apply archive_keeps| |done].
    by intros d Hd [[_ Hok] _].
  - eapply keeps_bind; [apply save_idle|]. intros []. by apply keeps_ret.
Qed.

Lemma replies_from_log r d :
  (∀ m, m ∈ ai_messages r → ∃ e, e ∈ d_log d ∧ le_signal e = Some m) → from_log (replies_of (ai_messages r)) d.
Proof using.
  intros Hm m p Hin. unfold replies_of in Hin.
  assert (∀ l, foldr insert_reply [] l ≡ₚ l) as Hp.
  { assert (∀ x l, insert_reply x l ≡ₚ x :: l) as Hi.
    { intros x l. induction l as [|y l IH]; simpl; [done|]. destruct (reply_before x y); [done|]. rewrite IH. apply Permutation_swap. }
    induction l as [|x l IH]; simpl; [done|]. by rewrite Hi, IH. }
  rewrite Hp in Hin. apply list_elem_of_omap in Hin as (m' & Hm' & Hp').
  destruct (parse_integrator_profile (ms_body m')) as [p'|] eqn:Hparse; [|done]. injection Hp' as -> ->. split; [by apply Hm|done].
Qed.
Lemma with_cursor_idle c a d :
  (∃ rest, after_id c (d_log d) = Some rest) → idle a d → idle (with_cursor (Some c) a) d.
Proof using.
  intros Hc [[[Hact [Hdr _ Hr]] [Hnd Hok Hst [Ha Hcm]]] Hn]. split; [split; [split; [done|]|]|done].
  - split; simpl; [done|by intros c' [= <-]|]. intros n Hin. destruct (Hr n Hin) as [Hb _]. split; [done|].
    intros t. change (needs_send (with_cursor (Some c) a)) with (needs_send a). by rewrite Hn.
  - split; [done|by apply (attempts_ok_ext a)|done|by split].
Qed.
Lemma for_human_idle now r a d : idle a d → idle (for_human now r a) d.
Proof using.
  intros [[[Hact Hreq] Hok] Hn]. assert (needs_send (for_human now r a) = None) as Hn' by (by apply needs_send_reason).
  split; [split; [split; [done|]|]|done]; [|by apply for_human_ok].
  eapply requests_ext; [..|exact Hreq]; try done. apply length_alter_last.
Qed.

Lemma observe_inbox_keeps options a action : keeps (idle a) (observe_inbox answers options a action) (λ _ _, True).
Proof using json_roundtrip.
  unfold observe_inbox. eapply keeps_bind; [apply read_keeps, stable_idle|]. intros r. cbv beta. destruct (ai_cursor_reset r).
  - eapply (keeps_bind _ _ _ (λ _, idle a)).
    { eapply keeps_weaken; [apply (keeps_now answers (idle a)), stable_idle|by intros d _ [? _]|done]. }
    intros now. eapply (keeps_bind _ _ _ (λ _ _, True)); [|intros _; by apply keeps_ret].
    eapply keeps_weaken; [apply save_idle| |done]. intros d Hd Hi. by apply for_human_idle.
  - set (log_ok := λ d, ai_cursor r ≠ "" → ∃ rest, after_id (ai_cursor r) (d_log d) = Some rest).
    eapply (keeps_bind _ _ _ (λ o d, idle (ob_assignment o) d ∧ log_ok d)).
    { eapply keeps_weaken; [apply (observe_replies_keeps answers (λ log, ai_cursor r ≠ "" → ∃ rest, after_id (ai_cursor r) log = Some rest))|..]; [| |done].
      { intros log more Hc Hne. destruct (Hc Hne) as [rest Hr]. eexists. by apply after_id_app. }
      intros d Hd (Hi & Hc & Hm & _). split; [|done]. split; [done|]. by apply replies_from_log. }
    intros o. set (o' := mkObserved _ (ob_processed o) (ob_action o)).
    eapply (keeps_bind _ _ _ (λ o', idle (ob_assignment o'))).
    { eapply keeps_weaken; [apply (time_out_keeps options o')| |done]. intros d Hd [Hi Hc]. simpl.
      destruct (bool_decide_reflect (ai_cursor r = "")); simpl; [done|]. apply with_cursor_idle; [by apply Hc|done]. }
    intros o1. eapply keeps_bind; [apply fall_back_keeps|]. intros o2. apply conclude_keeps.
Qed.

(** ** Recovering an offer whose request may or may not have been published *)
Definition recovery_ok (a : PersistedIntegratorAssignment) (t : IntegratorAttempt) (r : PendingOfferRecovery)
    (d : Dispatcher) : Prop :=
  saved a d ∧ match r with
              | OfferAbsent => (as_assignment_id a, tt_attempt t) ∉ d_requests d
              | OfferPublished id => ∃ rest, after_id id (d_log d) = Some rest
              | OfferUncertain _ => True
              end.
Lemma recover_keeps a t :
  needs_send a = Some t → keeps (saved a) (recover_pending_offer answers a t) (recovery_ok a t).
Proof using.
  intros Hn. unfold recover_pending_offer. eapply keeps_bind; [apply read_keeps, stable_saved|]. intros r. cbv beta.
  destruct (ai_cursor_reset r) eqn:Hreset; [apply keeps_ret; by intros d [? _]|].
  intros d Hd (Hs & Hc & Hm & Hall). split; [done|]. simpl. split; [done|]. destruct (Hall eq_refl eq_refl) as (ms & Hms & Hin).
  destruct (List.filter _ (ai_messages r)) as [|m [|m' l]] eqn:Hf; simpl; [| |done].
  - intros Hreq. destruct (di_active _ d Hd a Hs) as [_ _ Hr]. destruct (Hr _ Hreq) as [_ Hp].
    destruct (Hp t Hn eq_refl) as (ms' & m & Hms' & Hm' & Hrec). simplify_eq.
    assert (In m (List.filter (is_assignment_request a t) (ai_messages r))) as Hbad
      by (apply List.filter_In; split; [by apply list_elem_of_In, Hin|done]). by rewrite Hf in Hbad.
  - assert (In m (List.filter (is_assignment_request a t) (ai_messages r))) as Hi by (rewrite Hf; by left).
    apply List.filter_In in Hi as [Hi _]. apply list_elem_of_In in Hi. destruct (Hm m Hi) as (e & He & Hsig).
    assert (ms_message_id m = le_id e) as ->; [|by apply after_id_elem].
    unfold le_signal in Hsig. destruct (le_payload e); [|done]. by injection Hsig as <-.
Qed.
Lemma requested_ready a t id d :
  dispatcher_ok d → saved a d → needs_send a = Some t → (∃ rest, after_id id (d_log d) = Some rest) → idle (requested id a) d.
Proof using.
  intros Hd Hs Hn Hid. destruct (saved_ready _ a d Hd Hs) as [[Hact [Hdr _ Hr]] Hok].
  split; [|apply needs_send_requested]. split; [|by eapply requested_ok]. split; [done|]. split; simpl; [done| |].
  - by intros c [= <-].
  - intros n Hin. destruct (Hr n Hin) as [Hb _]. unfold zlen in *. rewrite length_alter_last. split; [done|].
    intros t'. by rewrite needs_send_requested.
Qed.
Lemma needs_send_last a t : attempts_ok a → needs_send a = Some t → tt_attempt t = zlen (as_attempts a) - 1.
Proof using.
  intros [Hr _ _] Hn. unfold needs_send in Hn. destruct (last (as_attempts a)) as [t0|] eqn:Hl; [|done].
  destruct (_ && _); [|done]. injection Hn as ->. rewrite last_lookup in Hl. destruct (Hr _ _ Hl) as [-> _].
  unfold zlen. destruct (as_attempts a); simpl in *; [done|]. lia.
Qed.
Lemma resend_keeps a t :
  needs_send a = Some t → attempts_ok a →
  keeps (recovery_ok a t OfferAbsent) (send_assignment_request answers a (tt_attempt t) (tt_selected t))
    (λ id, idle (requested id a)).
Proof using json_roundtrip.
  intros Hn Hok. eapply keeps_weaken; [apply (send_keeps answers json_roundtrip a t Hn); by apply needs_send_last|done|].
  intros id d Hd [Hs Hw]. split; [|apply needs_send_requested]. split; [done|].
  eapply requested_ok; [done|]. by apply (fo_active _ _ (di_disk _ d Hd)).
Qed.

Lemma observe_pending_keeps options a t :
  needs_send a = Some t → attempts_ok a → keeps (saved a) (observe_pending answers options a t) (λ _ _, True).
Proof using json_roundtrip.
  intros Hn Hok. unfold observe_pending. eapply keeps_bind; [by apply recover_keeps|]. intros r.
  assert (∀ id action, keeps (idle (requested id a)) (_ ← save (requested id a); observe_inbox answers options (requested id a) action)
    (λ _ _, True)) as Hgo.
  { intros id action. eapply keeps_bind; [apply save_idle|]. intros []. apply observe_inbox_keeps. }
  destruct r as [id| |reason].
  - intros d Hd [Hs Hid]. apply (Hgo id "recovered_offer" d Hd). by eapply requested_ready.
  - eapply (keeps_bind _ _ _ (λ r, idle (requested r.1 a))); [|intros [id action]; apply Hgo].
    eapply keeps_bind; [by apply resend_keeps|]. intros id. by apply keeps_ret.
  - eapply (keeps_bind _ _ _ (λ _, saved a)); [eapply keeps_weaken; [apply (keeps_now answers (saved a)), stable_saved|by intros d _ [? _]|done]|].
    intros now. eapply (keeps_bind _ _ _ (λ _ _, True)); [|intros _; by apply keeps_ret].
    eapply keeps_weaken; [by apply archive_keeps| |done]. intros d Hd Hs. apply for_human_ok, (fo_active _ _ (di_disk _ d Hd)), Hs.
Qed.
Lemma load_keeps : keeps (λ _, True) load_state (λ s d, s = d_disk d).
Proof using. intros d Hd _. unfold load_state. rewrite (di_schema _ d Hd). by split. Qed.
Lemma observe_keeps lock options : keeps (λ _, True) (integrator_observe answers lock options) (λ _ _, True).
Proof using json_roundtrip.
  unfold integrator_observe. apply keeps_then. intros _ _. eapply keeps_bind; [apply load_keeps|].
  intros s. destruct (if_active s) as [a|] eqn:Ha; [|by apply keeps_ret].
  destruct (needs_send a) as [t|] eqn:Hn.
  - intros d Hd ->. apply observe_pending_keeps; [done| |done|done].
    apply (ko_attempts _ _ (fo_active _ _ (di_disk _ d Hd) a Ha)).
  - eapply keeps_weaken; [apply observe_inbox_keeps| |done]. intros d Hd ->. by apply saved_idle.
Qed.
Lemma resume_keeps lock options : keeps (λ _, True) (integrator_resume answers lock options) (λ _ _, True).
Proof using json_roundtrip.
  unfold integrator_resume. eapply keeps_bind; [apply load_keeps|]. intros s.
  destruct (if_active s); [|by apply keeps_ret]. eapply keeps_weaken; [apply observe_keeps|done|done].
Qed.

(** ** Revoking *)
Lemma revoke_keeps lock id reason : keeps (λ _, True) (integrator_revoke answers lock id reason) (λ _ _, True).
Proof using json_roundtrip.
  unfold integrator_revoke. do 3 (apply keeps_then; intros _ _). eapply keeps_bind; [apply load_keeps|].
  intros s. apply keeps_then. intros a Ha. destruct (if_active s) as [a'|] eqn:Hs; [|done].
  destruct (bool_decide _); [|done]. simpl in Ha. injection Ha as ->. apply keeps_then. intros _ _.
  eapply (keeps_bind _ _ _ (λ _, saved a)).
  { eapply keeps_weaken; [apply (keeps_now answers (saved a)), stable_saved| |done]. by intros d Hd ->. }
  intros now. set (f := λ t, attempt_with_reason (trim_str reason) (attempt_with_state AtRevoked t)).
  eapply (keeps_bind _ _ _ (λ _ _, True)); [|intros b; unfold or_panic; destruct (status_result b); [by apply keeps_ret|apply keeps_bail]].
  intros d Hd Hsaved. pose proof (saved_ready _ a d Hd Hsaved) as Hr. pose proof (ko_nodup _ _ (proj2 Hr)) as Hnd.
  destruct (close_working a f now d ltac:(done) ltac:(done) (or_intror Hr)) as (Hw & Hok & Hn).
  destruct (_ && _).
  - destruct (offer_next_keeps answers json_roundtrip (with_updated now (on_last f a)) (Some (trim_str reason)) ltac:(done)
      Hnd Hok d Hd Hw) as [Hd' _]. split; [done|]. by destruct (offer_next _ _ _ d) as [? [?|?]].
  - set (b := on_last _ _). assert (assignment_ok (d_log d) b) as Hb.
    { apply cancelled_ok; [done..|]. intros st. apply (closed_last f). done. }
    unfold load_state, mbind, dispatch_bind. rewrite (di_schema _ d Hd). simpl.
    destruct (update_ok answers d (λ _, archive b (d_disk d)) Hd) as (d' & s' & Hu & Hd' & _); [|done|by rewrite Hu].
    apply archive_ok; [apply (di_disk _ d Hd)|done..].
Qed.

(** ** The answers used only grow *)
Definition monotone {A} (m : Dispatch A) : Prop := ∀ d, (d_asked d ≤ d_asked (m d).1)%nat.
Lemma monotone_ret {A} (a : A) : monotone (mret (M:=Dispatch) a).
Proof using. by intros d. Qed.
Lemma monotone_bail {A} e : monotone (bail (A:=A) e).
Proof using. by intros d. Qed.
Lemma monotone_checked {A} (r : Result A) : monotone (checked r).
Proof using. by intros d. Qed.
Lemma monotone_load : monotone load_state.
Proof using. by intros d. Qed.
Lemma monotone_bind {A B} (m : Dispatch A) (f : A → Dispatch B) :
  monotone m → (∀ a, monotone (f a)) → monotone (m ≫= f).
Proof using.
  intros Hm Hf d. unfold mbind, dispatch_bind. specialize (Hm d). destruct (m d) as [d1 [a|e]]; simpl in *; [|done].
  specialize (Hf a d1). lia.
Qed.
Lemma monotone_ask : monotone (ask answers).
Proof using. intros d. simpl. lia. Qed.
Lemma monotone_update f : monotone (update_state f).
Proof using. intros d. unfold update_state. by destruct (negb _). Qed.
Lemma monotone_publish a n m ans : monotone (publish_request a n m ans).
Proof using. intros d. unfold publish_request. destruct (aw_fails ans); [destruct (aw_published ans)|]; done. Qed.
Lemma monotone_panic {A} (o : option A) : monotone (or_panic o).
Proof using. destruct o; [apply monotone_ret|apply monotone_bail]. Qed.
End operations.
#[export] Hint Resolve monotone_ret monotone_bail monotone_checked monotone_load monotone_ask monotone_update
  monotone_publish monotone_panic : monotone.
Ltac monotone :=
  repeat first
    [ progress (auto with monotone)
    | apply monotone_bind; [|intros ?]
    | match goal with |- monotone (match ?x with _ => _ end) => destruct x end
    | progress cbv zeta ].

Section histories.
Context `{Unicode, Blake3, IntegratorJson} (answers : nat → Answer).

Lemma monotone_now : monotone (now_ms answers).
Proof using. unfold now_ms. monotone. Qed.
Lemma monotone_save a : monotone (save a).
Proof using. unfold save. monotone. Qed.
Lemma monotone_reachable about : monotone (ensure_reachable_snapshot answers about).
Proof using. unfold ensure_reachable_snapshot. monotone. Qed.
Lemma monotone_send a n s : monotone (send_assignment_request answers a n s).
Proof using. unfold send_assignment_request. monotone. Qed.
Hint Resolve monotone_now monotone_save monotone_reachable monotone_send : monotone.
Lemma monotone_read r c : monotone (read_signals answers r c).
Proof using.
  unfold read_signals. apply monotone_bind; [monotone|]. intros a. destruct (aw_fails a); [monotone|]. intros d. cbv zeta.
  by destruct (signals_after c (d_log d)).
Qed.
Lemma monotone_offer a r : monotone (offer_next answers a r).
Proof using. unfold offer_next. monotone. Qed.
Hint Resolve monotone_read monotone_offer : monotone.
Lemma monotone_reply o reply : monotone (observe_reply answers o reply).
Proof using.
  destruct reply as [m p]. unfold observe_reply. monotone. intros d.
  pose proof (monotone_reachable (dg_inspected_snapshot digest) d).
  by destruct (ensure_reachable_snapshot answers (dg_inspected_snapshot digest) d) as [d' [?|?]].
Qed.
Hint Resolve monotone_reply : monotone.
Lemma monotone_replies l o : monotone (observe_replies answers o l).
Proof using. revert o. induction l as [|x l IH]; intros o; simpl; monotone. Qed.
Hint Resolve monotone_replies : monotone.
Lemma monotone_inbox options a action : monotone (observe_inbox answers options a action).
Proof using. unfold observe_inbox, time_out, fall_back, conclude. monotone. Qed.
Hint Resolve monotone_inbox : monotone.
Lemma monotone_observe lock options : monotone (integrator_observe answers lock options).
Proof using. unfold integrator_observe, observe_pending, recover_pending_offer. monotone. Qed.
Hint Resolve monotone_observe : monotone.
Lemma monotone_generate_nonce : monotone (generate_selection_nonce answers).
Proof using. unfold generate_selection_nonce. monotone. Qed.
Lemma monotone_generate_id : monotone (generate_assignment_id answers).
Proof using. unfold generate_assignment_id. monotone. Qed.
Hint Resolve monotone_generate_nonce monotone_generate_id : monotone.
Lemma monotone_assign ws v lock input : monotone (integrator_assign answers ws v lock input).
Proof using. unfold integrator_assign. monotone. Qed.
Lemma monotone_revoke lock id reason : monotone (integrator_revoke answers lock id reason).
Proof using. unfold integrator_revoke. monotone. Qed.
Lemma monotone_resume lock options : monotone (integrator_resume answers lock options).
Proof using. unfold integrator_resume. monotone. Qed.
Lemma run_dispatch_asked op d : (d_asked d ≤ d_asked (run_dispatch answers op d))%nat.
Proof using.
  destruct op as [ws v lock input|lock id reason|lock options|lock options]; simpl.
  - apply monotone_assign.
  - apply monotone_revoke.
  - apply monotone_observe.
  - apply monotone_resume.
Qed.
Lemma run_ops_asked ops d : (d_asked d ≤ d_asked (run_ops answers ops d))%nat.
Proof using.
  revert d. induction ops as [|op ops IH]; intros d; simpl; [done|]. pose proof (run_dispatch_asked op d).
  specialize (IH (run_dispatch answers op d)). unfold run_ops in *. lia.
Qed.

(** ** Assigning *)
Context (json_roundtrip : assignment_json_roundtrip).
Context (limit : nat) (unique : ∀ i j, (i < limit)%nat → (j < limit)%nat → drawn answers i = drawn answers j → i = j).
Local Notation keeps := (keeps answers).
Local Notation dispatcher_ok := (dispatcher_ok answers).

(** The same, while no more than [limit] answers are used. *)
Definition keeps_below {A} (P : Dispatcher → Prop) (m : Dispatch A) (Q : A → Dispatcher → Prop) : Prop :=
  ∀ d, dispatcher_ok d → P d → (d_asked (m d).1 ≤ limit)%nat →
    dispatcher_ok (m d).1 ∧ match (m d).2 with Ok a => Q a (m d).1 | Err _ => True end.
Lemma keeps_keeps_below {A} P (m : Dispatch A) Q : keeps P m Q → keeps_below P m Q.
Proof using. intros Hm d Hd HP _. by apply Hm. Qed.
Lemma keeps_below_bind {A B} P (m : Dispatch A) R (f : A → Dispatch B) Q :
  keeps_below P m R → (∀ a, monotone (f a)) → (∀ a, keeps_below (R a) (f a) Q) → keeps_below P (m ≫= f) Q.
Proof using.
  intros Hm Hmono Hf d Hd HP. unfold mbind, dispatch_bind. specialize (Hm d Hd HP).
  destruct (m d) as [d1 [a|e]] eqn:E; simpl in *.
  - intros Hle. pose proof (Hmono a d1). destruct Hm as [Hd1 HR]; [lia|]. by apply Hf.
  - intros Hle. by destruct (Hm Hle).
Qed.

(** An id no request was ever published for. *)
Definition fresh_id (id : string) (d : Dispatcher) : Prop :=
  (∃ i, (i < d_asked d)%nat ∧ id = drawn answers i) ∧ ∀ n, (id, n) ∉ d_requests d.
Lemma stable_fresh id : stable (fresh_id id).
Proof using.
  intros d d' (_ & Hr & Hle & _) [(i & Hi & ->) Hn]. split; [exists i; split; [lia|done]|]. by rewrite Hr.
Qed.
Lemma draw_keeps : keeps_below (λ _, True) (generate_assignment_id answers) fresh_id.
Proof using unique.
  intros d Hd _ Hle. destruct (ask_ok answers d Hd) as [Hd' _]. split; [done|]. simpl. split.
  - exists (d_asked d). simpl. split; [lia|done].
  - simpl in *. intros n Hin. destruct (di_drawn _ d Hd _ _ Hin) as (i & Hi & Heq).
    assert (d_asked d = i); [|lia]. apply unique; [lia|lia|done].
Qed.

Lemma create_keeps created :
  NoDup (as_ranked created) → as_state created = AsCreated → as_attempts created = [] → as_inbox_cursor created = None →
  keeps (fresh_id (as_assignment_id created)) (update_state (set_active_file (Some created))) (λ _, working answers created).
Proof using.
  intros Hnd Hst Hat Hcur d Hd [Hdr Hnew].
  assert (requests_ok answers (d_log d) (d_asked d) (d_requests d) created) as Hreq.
  { split; [done|by rewrite Hcur|]. intros n Hin. by destruct (Hnew n). }
  destruct (update_ok answers d (set_active_file (Some created)) Hd) as (d' & s & Hu & Hd' & Hact & Hlog & Hask & Hrq).
  - destruct (di_disk _ d Hd) as [_ Hh Hb]. split; simpl; [|done|done]. intros a [= <-]. split; [done| | |].
    + split; rewrite Hat; done.
    + unfold state_ok. by rewrite Hst.
    + split; rewrite ?Hat, ?Hst; done.
  - simpl. by intros a [= <-].
  - rewrite Hu. split; [done|]. simpl. split; [by rewrite Hact|]. by rewrite Hlog, Hask, Hrq.
Qed.
Lemma keeps_below_then {A B} P (r : Result A) (f : A → Dispatch B) Q :
  (∀ a, r = Ok a → keeps_below P (f a) Q) → keeps_below P (checked r ≫= f) Q.
Proof using.
  intros Hf d Hd HP. unfold checked, mbind, dispatch_bind. destruct r as [a|e]; [|by split]. by apply Hf.
Qed.
Lemma assign_keeps ws v lock input :
  keeps_below (λ _, True) (integrator_assign answers ws v lock input) (λ _ _, True).
Proof using json_roundtrip unique.
  unfold integrator_assign. apply keeps_below_then. intros e He%filter_eligible_Ok.
  destruct (el_no_candidate_reason e); [by apply keeps_keeps_below, keeps_bail|].
  destruct (v <? 3); [by apply keeps_keeps_below, keeps_bail|].
  apply (keeps_below_bind _ _ (λ _ _, True)); [|intros; monotone|intros _].
  { apply keeps_keeps_below. intros d Hd _. destruct (reachable_snapshot_ok answers (in_about_snapshot input) d Hd) as [Hd' _].
    split; [done|]. by destruct (ensure_reachable_snapshot _ _ d) as [? [?|?]]. }
  apply keeps_below_then. intros _ _. apply (keeps_below_bind _ _ (λ _ _, True)); [|intros; monotone|intros _].
  { apply keeps_keeps_below. eapply keeps_weaken; [apply load_keeps|done|done]. }
  apply keeps_below_then. intros required _.
  eapply keeps_below_bind; [apply draw_keeps|intros; monotone|]. intros id. apply keeps_keeps_below.
  eapply (keeps_bind _ _ _ (λ _, fresh_id id)).
  { eapply keeps_bind; [apply (keeps_ask answers (fresh_id id)), stable_fresh|]. intros a. by apply keeps_ret. }
  intros nonce. apply keeps_then. intros fingerprint _. apply keeps_then. intros ranked Hrank.
  apply rank_candidates_perm in Hrank as [Hperm _]. apply pool_nodup in He. rewrite <-Hperm in He.
  eapply keeps_bind; [apply (keeps_now answers (fresh_id id)), stable_fresh|]. intros now.
  eapply (keeps_bind _ _ _ (λ _, fresh_id id)).
  { intros d Hd Hf. unfold load_state. rewrite (di_schema _ d Hd). by split. }
  intros before. apply keeps_then. intros _ _. set (created := created_assignment _ _ _ _ _ _ _ _ _).
  eapply keeps_bind; [by apply (create_keeps created)|]. intros s.
  eapply keeps_bind; [apply (offer_next_keeps answers json_roundtrip created None); [done..|]; by split|]. intros a.
  eapply (keeps_bind _ _ _ (λ _ _, True)).
  { eapply keeps_weaken; [apply save_keeps| |done]. intros d Hd (Hs & _). by apply saved_ready. }
  intros _. destruct (last (as_attempts a)) as [t|]; [|apply keeps_bail].
  eapply (keeps_bind _ _ _ (λ _ _, True)); [unfold or_panic; destruct (fallback_order a); [by apply keeps_ret|apply keeps_bail]|].
  intros fallback. apply keeps_then. intros r _. by apply keeps_ret.
Qed.

Lemma run_dispatch_ok op d :
  dispatcher_ok d → (d_asked (run_dispatch answers op d) ≤ limit)%nat → dispatcher_ok (run_dispatch answers op d).
Proof using json_roundtrip unique.
  intros Hd. destruct op as [ws v lock input|lock id reason|lock options|lock options]; simpl; intros Hle.
  - by apply (assign_keeps ws v lock input d Hd I).
  - by apply (revoke_keeps answers json_roundtrip lock id reason d Hd I).
  - by apply (observe_keeps answers json_roundtrip lock options d Hd I).
  - by apply (resume_keeps answers json_roundtrip lock options d Hd I).
Qed.
Lemma run_ops_ok ops d :
  dispatcher_ok d → (d_asked (run_ops answers ops d) ≤ limit)%nat → dispatcher_ok (run_ops answers ops d).
Proof using json_roundtrip unique.
  revert d. induction ops as [|op ops IH]; intros d Hd Hle; simpl; [done|]. apply IH; [|done].
  apply run_dispatch_ok; [done|]. pose proof (run_ops_asked ops (run_dispatch answers op d)). unfold run_ops in *. simpl in Hle. lia.
Qed.
Lemma fresh_dispatcher_ok log : dispatcher_ok (fresh_dispatcher log).
Proof using.
  split; simpl; [done| |constructor|done|constructor|by intros ? ? ?%not_elem_of_nil].
  split; simpl; [done|constructor|]. unfold zlen, INTEGRATOR_MAX_HISTORY. simpl. lia.
Qed.
End histories.
