(* ===== verification/IntegratorSafety.v ===== *)
(** * Integrator dispatcher: safety of every history

    What the files written in any sequence of operations have in common, that a request is
    published at most once, and that an accepted or completed assignment rests on a signal of the
    candidate it was offered to. *)
From Stdlib Require Import ZArith Lia Ascii Strings.Byte.
From stdpp Require Import sorting numbers strings gmap list_numbers list options.
From S2P Require Import Prelude Text Paths Model WorkContract AgentContract Signals SignalsProps IntegratorContract.
From S2P Require Import Integrator IntegratorSelection IntegratorProps IntegratorTheorems.

Local Open Scope Z_scope.

(** The assignments a state file holds. *)
Definition in_file (a : PersistedIntegratorAssignment) (f : IntegratorStateFile) : Prop :=
  if_active f = Some a ∨ a ∈ if_history f.
Definition open_attempts (a : PersistedIntegratorAssignment) : list IntegratorAttempt :=
  filter (λ t, is_open (tt_state t) = true) (as_attempts a).

Lemma in_file_ok `{IntegratorJson} log a f : file_ok log f → in_file a f → assignment_ok log a.
Proof. intros [Ha Hh _] [Hin|Hin]; [by apply Ha|]. by apply (proj1 (Forall_forall _ _) Hh a Hin). Qed.
Lemma attempts_prefix a : attempts_ok a → (tt_selected <$> as_attempts a) `prefix_of` as_ranked a.
Proof.
  intros [Hr _ _].
  assert (tt_selected <$> as_attempts a = take (length (as_attempts a)) (as_ranked a)) as ->; [|apply prefix_take].
  apply list_eq. intros i. rewrite list_lookup_fmap. destruct (as_attempts a !! i) as [t|] eqn:Ht; simpl.
  - rewrite lookup_take_lt by (by eapply lookup_lt_Some). by destruct (Hr i t Ht) as [_ ->].
  - rewrite lookup_take_ge; [done|]. by apply lookup_ge_None.
Qed.
Lemma attempts_one_open a : attempts_ok a → (length (open_attempts a) ≤ 1)%nat.
Proof.
  intros [_ Hc _]. unfold open_attempts. destruct (as_attempts a) as [|t l _] using rev_ind; [simpl; lia|].
  rewrite filter_app, length_app.
  assert (filter (λ t, is_open (tt_state t) = true) l = []) as ->.
  { apply elem_of_nil_inv. intros t' [Ho Hin]%list_elem_of_filter. apply list_elem_of_lookup in Hin as [i Hi].
    assert (is_open (tt_state t') = false); [|congruence]. apply (Hc i); [by apply lookup_app_l_Some|].
    rewrite length_app. simpl. apply lookup_lt_Some in Hi. lia. }
  simpl. unfold filter, list_filter. simpl. case_decide; simpl; lia.
Qed.

Section safety.
Context `{Unicode, Blake3, IntegratorJson} (answers : nat → Answer).
Local Notation run := (run_ops answers).

(** The first [n] draws of the random source differ. *)
Definition distinct_draws (n : nat) : Prop :=
  ∀ i j, (i < n)%nat → (j < n)%nat → drawn answers i = drawn answers j → i = j.

Lemma written_ok ops log f a :
  assignment_json_roundtrip → distinct_draws (d_asked (run ops (fresh_dispatcher log))) →
  f ∈ d_written (run ops (fresh_dispatcher log)) → in_file a f →
  file_ok (d_log (run ops (fresh_dispatcher log))) f ∧ assignment_ok (d_log (run ops (fresh_dispatcher log))) a.
Proof using.
  intros Hj Hu Hf Ha. pose proof (run_ops_ok answers Hj _ Hu ops _ (fresh_dispatcher_ok answers log) ltac:(lia)) as Hd.
  pose proof (proj1 (Forall_forall _ _) (di_written _ _ Hd) f Hf) as Hfile. split; [done|]. by eapply in_file_ok.
Qed.

(** C20. In whatever order assign, revoke, observe and resume are called, and wherever they fail or
    stop, every state file written holds at most 64 archived assignments, all of them terminal, and
    each assignment it holds was offered to candidates in the order of its ranking, to none of them
    twice, at most one attempt is open, and the state is the one its last attempt is in. *)
Theorem dispatcher_states ops log f a :
  assignment_json_roundtrip → distinct_draws (d_asked (run ops (fresh_dispatcher log))) →
  f ∈ d_written (run ops (fresh_dispatcher log)) → in_file a f →
  (tt_selected <$> as_attempts a) `prefix_of` as_ranked a ∧ NoDup (tt_selected <$> as_attempts a)
  ∧ (length (open_attempts a) ≤ 1)%nat ∧ state_ok a ∧ zlen (as_attempts a) ≤ INTEGRATOR_MAX_ATTEMPTS
  ∧ zlen (if_history f) ≤ INTEGRATOR_MAX_HISTORY ∧ (a ∈ if_history f → is_terminal_state (as_state a) = true).
Proof using.
  intros Hj Hu Hf Ha. destruct (written_ok ops log f a Hj Hu Hf Ha) as [[_ Hh Hb] [Hnd Hok Hst _]].
  pose proof (attempts_prefix a Hok) as Hp. split; [done|]. split; [destruct Hp as [rest Hp]; rewrite Hp in Hnd; by apply NoDup_app in Hnd as [? _]|].
  split; [by apply attempts_one_open|]. split; [done|]. split; [apply Hok|]. split; [done|].
  intros Hin. by apply (proj1 (Forall_forall _ _) Hh a Hin).
Qed.

(** C10. The dispatcher never publishes two requests for the same attempt of an assignment: not when
    a send fails after the signal was published, nor when the process stops before the id of the
    request is recorded and a later pass sends the pending offer. *)
Theorem request_published_once ops log :
  assignment_json_roundtrip → distinct_draws (d_asked (run ops (fresh_dispatcher log))) →
  NoDup (d_requests (run ops (fresh_dispatcher log))).
Proof using.
  intros Hj Hu. apply (di_once answers), (run_ops_ok answers Hj _ Hu); [apply fresh_dispatcher_ok|lia].
Qed.

(** C21. An assignment recorded as completed has a signal behind it: from the candidate of its last
    attempt, of the kind result, in reply to the request of that attempt, with a digest of that
    assignment, attempt and snapshot that reports completion; and the digest is the one recorded. An
    assignment recorded as accepted has an acceptance from its candidate in the same sense. *)
Theorem completed_by_reply ops log f a :
  assignment_json_roundtrip → distinct_draws (d_asked (run ops (fresh_dispatcher log))) →
  f ∈ d_written (run ops (fresh_dispatcher log)) → in_file a f →
  let log' := d_log (run ops (fresh_dispatcher log)) in
  (as_state a = AsCompleted →
    ∃ t digest, last (as_attempts a) = Some t ∧ as_digest a = Some digest ∧ dg_state digest = OsCompleted
      ∧ dg_integrator digest = tt_selected t
      ∧ replied log' a t KindResult (PfResult (as_assignment_id a) (tt_attempt t) (as_about_snapshot a) digest))
  ∧ (as_state a = AsAccepted →
    ∃ t, last (as_attempts a) = Some t
      ∧ replied log' a t Status (PfAccepted (as_assignment_id a) (tt_attempt t) (as_about_snapshot a))).
Proof using.
  intros Hj Hu Hf Ha log'. destruct (written_ok ops log f a Hj Hu Hf Ha) as [_ [_ _ Hst [Hacc Hcomp]]].
  split; [done|]. intros Hs. unfold state_ok, last_state in Hst. rewrite Hs in Hst.
  destruct (last (as_attempts a)) as [t|] eqn:Hl; [|done]. simpl in Hst. exists t. split; [done|].
  destruct (Hacc t eq_refl ltac:(congruence)) as (p & Hr & Ho).
  assert (profile_header p = (as_assignment_id a, tt_attempt t, as_about_snapshot a)) as Hh
    by (by destruct Hr as (e & m & id & Hr); apply Hr).
  destruct p; try done. simpl in Hh. by injection Hh as -> -> ->.
Qed.
End safety.

(** ** A history

    The request is published but its sending reports a failure; the next pass finds it, and the
    candidate accepts; the pass after that reads its result. *)
#[local] Instance safety_unicode : Unicode := ascii_unicode.
#[local] Instance safety_blake3 : Blake3 := sample_blake3.

(** A serialization of requests: every byte of a field is preceded by a 1, a 0 ends it. *)
Fixpoint put_field (s rest : string) : string :=
  match s with
  | EmptyString => String "0" rest
  | String c s => String "1" (String c (put_field s rest))
  end.
Fixpoint take_field (fuel : nat) (s : string) : option (string * string) :=
  match fuel, s with
  | S fuel, String "1" (String c s) => '(f, rest) ← take_field fuel s; Some (String c f, rest)
  | S _, String "0" rest => Some ("", rest)
  | _, _ => None
  end.
Lemma take_put_field s rest fuel : (String.length (put_field s rest) ≤ fuel)%nat → take_field fuel (put_field s rest) = Some (s, rest).
Proof.
  revert fuel. induction s as [|c s IH]; intros [|fuel] Hle; simpl in *; try lia; [done|].
  rewrite IH by lia. done.
Qed.
Fixpoint put_positive (p : positive) (rest : string) : string :=
  match p with
  | xH => String "h" rest
  | xO p => String "o" (put_positive p rest)
  | xI p => String "i" (put_positive p rest)
  end.
Fixpoint take_positive (s : string) : option (positive * string) :=
  match s with
  | String "h" rest => Some (xH, rest)
  | String "o" s => '(p, rest) ← take_positive s; Some (xO p, rest)
  | String "i" s => '(p, rest) ← take_positive s; Some (xI p, rest)
  | _ => None
  end.
Lemma take_put_positive p rest : take_positive (put_positive p rest) = Some (p, rest).
Proof. induction p as [p IH|p IH|]; simpl; [by rewrite IH|by rewrite IH|done]. Qed.

Definition sample_about : string := String.string_of_list_ascii (replicate 64 "a"%char).
Definition sample_id : string := hex_lower (replicate 16 x01).
Definition sample_request : string := String.string_of_list_ascii (replicate 64 "b"%char).
Definition sample_digest : IntegratorDigest :=
  mkIntegratorDigest sample_id "bob" sample_about sample_about OsCompleted 1 1 0
    (mkVerificationSummary VsPassed "ok" None 0 None [] None []) "merged" [] None.
Definition sample_json : IntegratorJson := {|
  integrator_to_string p :=
    match p with
    | PfAssignment id n selected about roster neutral task =>
        String "A" (put_positive (encode (n, neutral))
          (put_field id (put_field selected (put_field about (put_field roster (put_field task ""))))))
    | PfAccepted _ _ _ => "accepted"
    | PfResult _ _ _ _ => "result"
    | PfBlocked _ _ _ _ => "blocked"
    end;
  integrator_from_str s :=
    if bool_decide (s = "accepted") then Some (PfAccepted sample_id 0 sample_about) else
    if bool_decide (s = "result") then Some (PfResult sample_id 0 sample_about sample_digest) else
    match s with
    | String "A" s =>
        '(code, s) ← take_positive s;
        '(n, neutral) ← decode (A:=Z * bool) code;
        let next := λ s, take_field (String.length s) s in
        '(id, s) ← next s; '(selected, s) ← next s; '(about, s) ← next s; '(roster, s) ← next s; '(task, _) ← next s;
        Some (PfAssignment id n selected about roster neutral task)
    | _ => None
    end;
  names_to_string := String.concat ","
|}.
Lemma sample_roundtrip : @assignment_json_roundtrip sample_json.
Proof.
  intros id n selected about roster neutral task. cbv zeta. cbn [integrator_from_str integrator_to_string sample_json].
  rewrite !bool_decide_false by done. rewrite take_put_positive. cbn [mbind option_bind]. rewrite decode_encode.
  cbn [mbind option_bind]. by do 5 (rewrite take_put_field by done; cbn [mbind option_bind]).
Qed.

#[local] Instance safety_json : IntegratorJson := sample_json.
Definition from_bob (kind : AgentMessageKind) (json : string) : AgentMessage :=
  mkAgentMessage "" "bob" "human" kind (INTEGRATOR_PROFILE_DISCRIMINATOR +:+ ":" +:+ json) sample_about (Some sample_request) 20.
Definition sample_answers (i : nat) : Answer :=
  let entry c p := mkLogEntry (String.string_of_list_ascii (replicate 64 c)) (Some p) in
  mkAnswer (if decide (i = 7%nat) then [entry "c"%char (from_bob Status "accepted")]
            else if decide (i = 9%nat) then [entry "d"%char (from_bob KindResult "result")] else [])
    (bool_decide (i = 5%nat)) true false sample_request (Z.of_nat i) (replicate 32 (default x00 (Byte.of_nat i))).
Definition sample_ops : list DispatcherOp :=
  let options := mkObserveOptions None true in
  [OpAssign "ws" 3 (Ok tt) (mkIntegratorAssignInput sample_about [ann; bob] ["rust"] ["ann"] [] "merge" None);
   OpObservePass (Ok tt) options; OpResume (Ok tt) options].
Local Notation sample_run := (run_ops sample_answers sample_ops (fresh_dispatcher [mkLogEntry sample_about None])).

Lemma distinct_by_decision answers n : bool_decide (NoDup (drawn answers <$> seq 0 n)) = true → distinct_draws answers n.
Proof.
  intros Hb%bool_decide_eq_true i j Hi Hj Heq. eapply (proj1 (NoDup_alt _) Hb); rewrite list_lookup_fmap.
  - by rewrite lookup_seq_lt by done.
  - rewrite lookup_seq_lt by done. simpl. by rewrite Heq.
Qed.
Lemma sample_distinct : distinct_draws sample_answers (d_asked sample_run).
Proof. apply distinct_by_decision. vm_compute. reflexivity. Qed.
Definition sample_file : IntegratorStateFile := default (d_disk sample_run) (head (d_written sample_run)).
Definition sample_assignment : PersistedIntegratorAssignment :=
  default (created_assignment (mkIntegratorAssignInput "" [] [] [] [] "" None) [] [] [] false "" "" "" 0)
    (head (if_history sample_file)).
Lemma sample_file_written : sample_file ∈ d_written sample_run.
Proof.
  unfold sample_file. assert (d_written sample_run ≠ []) as Hne by (vm_compute; discriminate).
  destruct (d_written sample_run); [done|left].
Qed.
Lemma sample_in_file : in_file sample_assignment sample_file.
Proof.
  right. unfold sample_assignment. assert (if_history sample_file ≠ []) as Hne by (vm_compute; discriminate).
  destruct (if_history sample_file); [done|left].
Qed.

(** The statement applied to the archived assignment of the history. *)
Lemma dispatcher_states_witness :
  as_state sample_assignment = AsCompleted ∧ NoDup (tt_selected <$> as_attempts sample_assignment)
  ∧ state_ok sample_assignment.
Proof.
  split; [vm_compute; reflexivity|].
  destruct (dispatcher_states sample_answers sample_ops [mkLogEntry sample_about None] sample_file sample_assignment
    sample_roundtrip sample_distinct sample_file_written sample_in_file) as (_ & Hn & _ & Hs & _).
  split; [exact Hn|exact Hs].
Defined.
(** The statement applied to the history, in which the failed send was published. *)
Lemma request_published_once_witness : length (d_requests sample_run) = 1%nat ∧ NoDup (d_requests sample_run).
Proof.
  split; [vm_compute; reflexivity|].
  apply (request_published_once sample_answers sample_ops [mkLogEntry sample_about None] sample_roundtrip sample_distinct).
Defined.
(** The statement applied to the archived assignment of the history. *)
Lemma completed_by_reply_witness :
  ∃ t digest, last (as_attempts sample_assignment) = Some t ∧ as_digest sample_assignment = Some digest
    ∧ replied (d_log sample_run) sample_assignment t KindResult
        (PfResult (as_assignment_id sample_assignment) (tt_attempt t) (as_about_snapshot sample_assignment) digest).
Proof.
  destruct (completed_by_reply sample_answers sample_ops [mkLogEntry sample_about None] sample_file sample_assignment
    sample_roundtrip sample_distinct sample_file_written sample_in_file) as [Hc _].
  destruct Hc as (t & digest & Ht & Hd & _ & _ & Hr); [vm_compute; reflexivity|].
  exists t, digest. split; [exact Ht|]. split; [exact Hd|exact Hr].
Defined.
