(* ===== verification/ResolutionContract.v ===== *)
(** * Conflict resolution: the contract

    common/src/resolution_contract.rs: the identity of a conflict and its fingerprint, resolution
    jobs, results, human answers and the evidence of a designation, with the validation of each,
    and the [ffres1] profiles. Constructors that other contracts use as well carry a prefix
    ([Ro], [Hr], [Ho], [Om], [Sk], [Rp]). *)
From Stdlib Require Import ZArith Lia Ascii Strings.Byte.
From stdpp Require Import sorting numbers strings gmap list_numbers list options.
From S2P Require Import Prelude Text Paths Model WorkContract AgentContract IntegratorContract.

Local Open Scope Z_scope.

Definition RESOLUTION_SCHEMA_VERSION : Z := 1.
Definition RESOLUTION_FINGERPRINT_DOMAIN : string := "feanorfs-conflict-identity-v1".
Definition RESOLUTION_JOB_DISCRIMINATOR : string := "ffres1".
Definition RESOLUTION_MAX_ATTEMPT : Z := 10000.
Definition RESOLUTION_MAX_INTENT_IDS : Z := 32.
Definition RESOLUTION_MAX_CAUSAL_REFS : Z := 64.
Definition RESOLUTION_MAX_ID_BYTES : Z := 512.
Definition RESOLUTION_MAX_LEG_BYTES : Z := 8 * 1024 * 1024 * 1024.
Definition RESOLUTION_MAX_CANDIDATE_BYTES : Z := 64 * 1024 * 1024.
Definition RESOLUTION_MAX_DIAGNOSTICS : Z := 16.
Definition RESOLUTION_DIAGNOSTIC_BYTES : Z := 512.
Definition RESOLUTION_MAX_REASON_BYTES : Z := 1024.
Definition RESOLUTION_MAX_QUESTION_BYTES : Z := 2048.
Definition RESOLUTION_MAX_VERIFICATION_SUMMARY_BYTES : Z := 2048.
Definition RESOLUTION_MAX_OUTPUT_PATHS : Z := 64.
Definition RESOLUTION_MAX_ARTIFACTS : Z := 3.
Definition RESOLUTION_MAX_TIMEOUT_MS : Z := 24 * 60 * 60 * 1000.
Definition RESOLUTION_VERIFICATION_POLICY_ID : string := "feanorfs-inline-verify-v1".
Definition RESOLUTION_VERIFICATION_CONFIG_REF : string := "feanorfs-resolver-inline-config-v1".
Definition RESOLUTION_DEFAULT_VERIFICATION_TIMEOUT_MS : Z := 10 * 60 * 1000.
Definition RESOLUTION_MAX_PROFILE_BYTES : Z := 8 * 1024.

(** ** Identity *)
Record ConflictLegDescriptor := mkLeg {
  lg_present : bool;
  lg_deleted : bool;
  lg_hash : string;
  lg_size : Z;                      (* u64 *)
  lg_mode : Z;                      (* u32 *)
}.
#[global] Instance ConflictLegDescriptor_eq_dec : EqDecision ConflictLegDescriptor.
Proof. solve_decision. Defined.
Record ConflictIdentity := mkIdentity {
  ci_schema_version : Z;
  ci_workspace_id : string;
  ci_current_snapshot : string;
  ci_about_snapshot : string;
  ci_tree_root : string;
  ci_path : string;
  ci_base : ConflictLegDescriptor;
  ci_ours : ConflictLegDescriptor;
  ci_theirs : ConflictLegDescriptor;
  ci_kind : ConflictKind;
  ci_task_id : option string;
  ci_intent_message_ids : list string;
  ci_assignment_id : option string;
  ci_attempt : option Z;            (* u32 *)
  ci_designated_owner : option string;
  ci_verification_policy : option string;
}.
#[global] Instance ConflictIdentity_eq_dec : EqDecision ConflictIdentity.
Proof. solve_decision. Defined.

Definition is_some {A} (o : option A) : bool := match o with Some _ => true | None => false end.
Definition is_none {A} (o : option A) : bool := negb (is_some o).
Definition is_automatic (i : ConflictIdentity) : bool :=
  is_some (ci_task_id i) || negb (bool_decide (ci_intent_message_ids i = [])) || is_some (ci_assignment_id i)
  || is_some (ci_attempt i) || is_some (ci_designated_owner i) || is_some (ci_verification_policy i).

Definition derive_conflict_kind (base ours theirs : ConflictLegDescriptor) : ConflictKind :=
  let we_deleted := lg_present ours && lg_deleted ours in
  let they_deleted := lg_present theirs && lg_deleted theirs in
  if we_deleted && negb they_deleted && negb (lg_deleted base) then DeleteEdit
  else if negb we_deleted && they_deleted && negb (lg_deleted base) then EditDelete
  else EditEdit.

(** *** The fingerprint: what is hashed *)
Definition push_bytes (value : string) : list byte := le_bytes 8 (slen value) ++ as_bytes value.
Definition push_u64 (value : Z) : list byte := le_bytes 8 value.
Definition push_u32 (value : Z) : list byte := le_bytes 4 value.
Definition push_bool (b : bool) : list byte := if b then [x01] else [x00].
Definition push_opt_bytes (value : option string) : list byte :=
  match value with Some value => x01 :: push_bytes value | None => [x00] end.
Definition push_leg (leg : ConflictLegDescriptor) : list byte :=
  push_bool (lg_present leg) ++ push_bool (lg_deleted leg) ++ push_bytes (lg_hash leg) ++ push_u64 (lg_size leg)
  ++ push_u32 (lg_mode leg).
Definition push_list (l : list string) : list byte := push_u64 (zlen l) ++ concat (push_bytes <$> l).
Definition identity_bytes (i : ConflictIdentity) : list byte :=
  push_bytes RESOLUTION_FINGERPRINT_DOMAIN ++ push_u32 RESOLUTION_SCHEMA_VERSION
  ++ push_bytes (ci_workspace_id i) ++ push_bytes (ci_current_snapshot i) ++ push_bytes (ci_about_snapshot i)
  ++ push_bytes (ci_tree_root i) ++ push_bytes (ci_path i)
  ++ push_leg (ci_base i) ++ push_leg (ci_ours i) ++ push_leg (ci_theirs i)
  ++ push_bytes (ConflictKind_as_db_str (ci_kind i))
  ++ (if is_automatic i
      then x01 :: push_opt_bytes (ci_task_id i) ++ push_list (ci_intent_message_ids i)
           ++ push_opt_bytes (ci_assignment_id i) ++ push_u32 (default 0 (ci_attempt i))
           ++ push_opt_bytes (ci_designated_owner i) ++ push_opt_bytes (ci_verification_policy i)
      else [x00]).
Definition compute_conflict_identity_fingerprint `{Blake3} (i : ConflictIdentity) : string := hash_bytes (identity_bytes i).

(** *** Validation *)
Definition validate_leg (leg : ConflictLegDescriptor) : Result unit :=
  ensure ((lg_mode leg =? 0) || (lg_mode leg =? EXECUTABLE_MODE)) "leg has a non-portable executable mode" ;;
  if negb (lg_present leg) then
    ensure (negb (lg_deleted leg) && bool_decide (lg_hash leg = "") && (lg_size leg =? 0))
      "leg is absent but carries deletion/hash/size content"
  else
    ensure (lg_size leg <=? RESOLUTION_MAX_LEG_BYTES) "leg exceeds the plaintext bound" ;;
    if lg_deleted leg then
      ensure (bool_decide (lg_hash leg = "") && (lg_size leg =? 0) && (lg_mode leg =? 0))
        "leg is deleted but carries hash/size/mode content"
    else ensure (is_valid_hash (lg_hash leg)) "leg must carry a full 64-hex encrypted hash when live".

(** The loop over ids that must be full hashes, sorted and unique. *)
Fixpoint hashes_ascending (previous : option string) (l : list string) : Result unit :=
  match l with
  | [] => Ok tt
  | id :: l =>
      ensure (is_valid_hash id) "entry must be a full 64-hex id" ;;
      ensure (match previous with Some p => bool_decide (str_lt p id) | None => true end)
        "entries must be sorted and unique" ;;
      hashes_ascending (Some id) l
  end.
Definition check_option {A} (p : A → bool) (e : string) (o : option A) : Result unit :=
  match o with Some a => ensure (p a) e | None => Ok tt end.

Definition validate_conflict_identity `{Unicode} (i : ConflictIdentity) : Result unit :=
  ensure (ci_schema_version i =? RESOLUTION_SCHEMA_VERSION) "unsupported conflict identity schema" ;;
  ensure (bounded_text RESOLUTION_MAX_ID_BYTES (ci_workspace_id i)) "workspace id must be non-empty and bounded" ;;
  ensure (is_valid_hash (ci_current_snapshot i) && is_valid_hash (ci_about_snapshot i) && is_valid_hash (ci_tree_root i))
    "conflict identity snapshots and tree root must be full 64-hex ids" ;;
  ensure (is_safe_rel_path (ci_path i)) "conflict path must be one canonical portable workspace-relative path" ;;
  validate_leg (ci_base i) ;; validate_leg (ci_ours i) ;; validate_leg (ci_theirs i) ;;
  ensure (bool_decide (ci_kind i = derive_conflict_kind (ci_base i) (ci_ours i) (ci_theirs i)))
    "conflict kind must be derived from the three legs" ;;
  ensure (zlen (ci_intent_message_ids i) <=? RESOLUTION_MAX_INTENT_IDS) "accepted intent list exceeds its bound" ;;
  hashes_ascending None (ci_intent_message_ids i) ;;
  check_option is_valid_task_id "automatic identity task id is invalid" (ci_task_id i) ;;
  check_option (λ id, is_valid_hex_id id 32) "automatic identity assignment id is invalid" (ci_assignment_id i) ;;
  check_option (λ n, n <=? RESOLUTION_MAX_ATTEMPT) "automatic identity attempt exceeds its bound" (ci_attempt i) ;;
  check_option is_valid_agent_name "automatic identity designated owner is invalid" (ci_designated_owner i) ;;
  check_option (bounded_text RESOLUTION_MAX_ID_BYTES) "automatic identity verification policy is out of bounds"
    (ci_verification_policy i).

(** ** Jobs *)
Inductive ArtifactRoleName := Original | Local | Cloud.
#[global] Instance ArtifactRoleName_eq_dec : EqDecision ArtifactRoleName.
Proof. solve_decision. Defined.
Definition ArtifactRoleName_as_str (r : ArtifactRoleName) : string :=
  match r with Original => "original" | Local => "local" | Cloud => "cloud" end.
Record ArtifactDescriptor := mkArtifactDescriptor { ad_role : ArtifactRoleName; ad_path : string }.
#[global] Instance ArtifactDescriptor_eq_dec : EqDecision ArtifactDescriptor.
Proof. solve_decision. Defined.
Record CandidateDestination := mkCandidateDestination { cn_path : string; cn_create_new : bool }.
#[global] Instance CandidateDestination_eq_dec : EqDecision CandidateDestination.
Proof. solve_decision. Defined.
Record VerificationPolicyRef := mkVerificationPolicyRef {
  vp_policy_id : string; vp_command_config_ref : string; vp_timeout_ms : Z; vp_freshness_required : bool }.
#[global] Instance VerificationPolicyRef_eq_dec : EqDecision VerificationPolicyRef.
Proof. solve_decision. Defined.
Inductive PreventionReason := Exhausted (detail : string) | Violated (detail : string).
#[global] Instance PreventionReason_eq_dec : EqDecision PreventionReason.
Proof. solve_decision. Defined.
Definition prevention_detail (p : PreventionReason) : string := match p with Exhausted d | Violated d => d end.

Inductive OwnerDesignationMethod := OmCausalEligible | OmIntegratorFallback.
#[global] Instance OwnerDesignationMethod_eq_dec : EqDecision OwnerDesignationMethod.
Proof. solve_decision. Defined.
Record OwnerDesignationEvidence := mkDesignationEvidence {
  oe_method : OwnerDesignationMethod;
  oe_nonce : option string;
  oe_roster_fingerprint : option string;
  oe_eligible : list string;
  oe_ranked : list string;
  oe_reasoning : string;
  oe_attempt : Z;
}.
#[global] Instance OwnerDesignationEvidence_eq_dec : EqDecision OwnerDesignationEvidence.
Proof. solve_decision. Defined.

Definition validate_designation_evidence (e : OwnerDesignationEvidence) : Result unit :=
  ensure (oe_attempt e <=? RESOLUTION_MAX_ATTEMPT) "designation attempt exceeds its bound" ;;
  ensure (zlen (oe_eligible e) <=? RESOLUTION_MAX_INTENT_IDS) "designation eligible roster exceeds its bound" ;;
  ensure (zlen (oe_ranked e) <=? RESOLUTION_MAX_INTENT_IDS) "designation ranked roster exceeds its bound" ;;
  check_all is_valid_agent_name "designation evidence names an invalid agent" (oe_eligible e ++ oe_ranked e) ;;
  ensure (slen (oe_reasoning e) <=? RESOLUTION_MAX_REASON_BYTES) "designation reasoning exceeds its bound" ;;
  match oe_method e with
  | OmCausalEligible =>
      ensure (negb (bool_decide (oe_eligible e = []))) "causal designation must name at least one eligible agent"
  | OmIntegratorFallback =>
      ensure (match oe_nonce e, oe_roster_fingerprint e with
              | Some nonce, Some roster => is_valid_hash nonce && is_valid_hash roster
              | _, _ => false
              end) "integrator fallback evidence must carry its nonce and roster fingerprint" ;;
      ensure (negb (bool_decide (oe_ranked e = []))) "integrator fallback evidence must carry its ranked roster"
  end.

Record ResolutionJob := mkResolutionJob {
  rj_schema_version : Z;
  rj_job_id : string;
  rj_task_id : string;
  rj_assignment_id : string;
  rj_attempt : Z;
  rj_workspace_id : string;
  rj_owner : string;
  rj_conflict : ConflictIdentity;
  rj_conflict_fingerprint : string;
  rj_current_snapshot : string;
  rj_about_snapshot : string;
  rj_tree_root : string;
  rj_accepted_intents : list string;
  rj_causal_refs : list string;
  rj_artifacts : list ArtifactDescriptor;
  rj_candidate_destination : CandidateDestination;
  rj_allowed_output_paths : list string;
  rj_verification : VerificationPolicyRef;
  rj_prevention : PreventionReason;
  rj_last_resort_reason : string;
  rj_designation : OwnerDesignationEvidence;
}.
#[global] Instance ResolutionJob_eq_dec : EqDecision ResolutionJob.
Proof. solve_decision. Defined.

Definition portable `{Unicode} (path : string) : bool := is_safe_rel_path path && (slen path <=? MAX_PORTABLE_PATH_BYTES).
Fixpoint check_artifacts `{Unicode} (roles : list ArtifactRoleName) (l : list ArtifactDescriptor) : Result unit :=
  match l with
  | [] => Ok tt
  | a :: l =>
      ensure (portable (ad_path a)) "artifact descriptor path is not canonical/portable" ;;
      ensure (bool_decide (ad_role a ∉ roles)) "duplicate artifact role" ;;
      check_artifacts (roles ++ [ad_role a]) l
  end.
Definition validate_candidate_destination `{Unicode} (d : CandidateDestination) : Result unit :=
  ensure (cn_create_new d) "candidate destination must be create-new" ;;
  ensure (portable (cn_path d)) "candidate destination must be one canonical portable relative path".
Definition validate_sorted_unique_hashes (values : list string) (limit : Z) : Result unit :=
  ensure (zlen values <=? limit) "list exceeds its bound" ;;
  hashes_ascending None values.

Definition validate_resolution_job `{Unicode, Blake3} (j : ResolutionJob) : Result unit :=
  ensure (rj_schema_version j =? RESOLUTION_SCHEMA_VERSION) "unsupported resolution job schema" ;;
  ensure (is_valid_hex_id (rj_job_id j) 32) "job id must be exactly 32 lowercase hex chars" ;;
  ensure (is_valid_hex_id (rj_assignment_id j) 32) "assignment id must be exactly 32 lowercase hex chars" ;;
  ensure (is_valid_task_id (rj_task_id j)) "job task id is invalid" ;;
  ensure (rj_attempt j <=? RESOLUTION_MAX_ATTEMPT) "job attempt exceeds its bound" ;;
  ensure (bounded_text RESOLUTION_MAX_ID_BYTES (rj_workspace_id j)) "job workspace id is out of bounds" ;;
  ensure (is_valid_agent_name (rj_owner j)) "job owner must be a valid agent name" ;;
  validate_conflict_identity (rj_conflict j) ;;
  ensure (is_valid_hash (rj_conflict_fingerprint j)
          && bool_decide (rj_conflict_fingerprint j = compute_conflict_identity_fingerprint (rj_conflict j)))
    "job fingerprint must be the exact canonical fingerprint of its identity" ;;
  ensure (bool_decide (rj_current_snapshot j = ci_current_snapshot (rj_conflict j))
          && bool_decide (rj_about_snapshot j = ci_about_snapshot (rj_conflict j))
          && bool_decide (rj_tree_root j = ci_tree_root (rj_conflict j)))
    "job snapshot fields must match its conflict identity" ;;
  ensure (is_automatic (rj_conflict j)) "automatic job identity must carry its binding" ;;
  ensure (bool_decide (ci_assignment_id (rj_conflict j) = Some (rj_assignment_id j))
          && bool_decide (ci_attempt (rj_conflict j) = Some (rj_attempt j))
          && bool_decide (ci_designated_owner (rj_conflict j) = Some (rj_owner j))
          && bool_decide (ci_task_id (rj_conflict j) = Some (rj_task_id j)))
    "job automatic identity fields must match the job header" ;;
  validate_sorted_unique_hashes (rj_accepted_intents j) RESOLUTION_MAX_INTENT_IDS ;;
  ensure (negb (bool_decide (rj_accepted_intents j = []))) "job must bind at least one accepted intent message id" ;;
  validate_sorted_unique_hashes (rj_causal_refs j) RESOLUTION_MAX_CAUSAL_REFS ;;
  ensure (negb (bool_decide (rj_causal_refs j = []))) "job must carry verified causal message references" ;;
  ensure (zlen (rj_artifacts j) <=? RESOLUTION_MAX_ARTIFACTS) "artifact descriptors exceed their bound" ;;
  ensure (negb (bool_decide (rj_artifacts j = []))) "job must carry at least one artifact descriptor" ;;
  check_artifacts [] (rj_artifacts j) ;;
  validate_candidate_destination (rj_candidate_destination j) ;;
  ensure (zlen (rj_allowed_output_paths j) <=? RESOLUTION_MAX_OUTPUT_PATHS) "allowed output paths exceed their bound" ;;
  ensure (negb (bool_decide (rj_allowed_output_paths j = []))) "job must allow at least one canonical output path" ;;
  check_all portable "allowed output path is not canonical/portable" (rj_allowed_output_paths j) ;;
  ensure (bounded_text RESOLUTION_MAX_ID_BYTES (vp_policy_id (rj_verification j))
          && bounded_text RESOLUTION_MAX_ID_BYTES (vp_command_config_ref (rj_verification j)))
    "verification policy reference is out of bounds" ;;
  ensure ((0 <? vp_timeout_ms (rj_verification j)) && (vp_timeout_ms (rj_verification j) <=? RESOLUTION_MAX_TIMEOUT_MS))
    "verification timeout is out of bounds" ;;
  ensure (bounded_text RESOLUTION_MAX_REASON_BYTES (rj_last_resort_reason j))
    "last-resort reason must be non-empty and bounded" ;;
  ensure (bounded_text RESOLUTION_MAX_REASON_BYTES (prevention_detail (rj_prevention j)))
    "prevention reason detail must be non-empty and bounded" ;;
  validate_designation_evidence (rj_designation j) ;;
  ensure (bool_decide (rj_owner j ∈ oe_eligible (rj_designation j)))
    "designated owner must be engine-selected from the eligible roster".

(** ** Results *)
Record CandidateDescriptor := mkCandidateDescriptor {
  ct_path : string;
  ct_hash : string;
  ct_size : Z;                      (* u64 *)
  ct_mode : Z;                      (* u32 *)
  ct_deleted : bool;
}.
#[global] Instance CandidateDescriptor_eq_dec : EqDecision CandidateDescriptor.
Proof. solve_decision. Defined.
Inductive ResolutionOutcome := RoCandidateReady | RoNoChangeRequired | RoBlocked | RoRequiresHuman | RoFailed | RoStale.
#[global] Instance ResolutionOutcome_eq_dec : EqDecision ResolutionOutcome.
Proof. solve_decision. Defined.
Definition ResolutionOutcome_as_str (o : ResolutionOutcome) : string :=
  match o with
  | RoCandidateReady => "candidate_ready" | RoNoChangeRequired => "no_change_required" | RoBlocked => "blocked"
  | RoRequiresHuman => "requires_human" | RoFailed => "failed" | RoStale => "stale"
  end.
Inductive HumanResolutionReason :=
  | HrSemanticAmbiguity | HrUnavoidableDataLoss | HrMissingOrAuthFailedLeg | HrSecurityCompatibilityBoundaryChange
  | HrRequiredVerificationUnavailable | HrIndeterminateOwnership | HrBoundedResolverExhaustion
  | HrUnsupportedSizeSafetyBound | HrExplicitProductDecision.
#[global] Instance HumanResolutionReason_eq_dec : EqDecision HumanResolutionReason.
Proof. solve_decision. Defined.
Inductive HumanResolutionOption := HoDefer | HoKeepUnresolved | HoSubmitCandidate.
#[global] Instance HumanResolutionOption_eq_dec : EqDecision HumanResolutionOption.
Proof. solve_decision. Defined.
Definition HumanResolutionOption_as_str (o : HumanResolutionOption) : string :=
  match o with HoDefer => "defer" | HoKeepUnresolved => "keep_unresolved" | HoSubmitCandidate => "submit_candidate" end.

Record ResolutionResult := mkResolutionResult {
  rr_schema_version : Z;
  rr_outcome : ResolutionOutcome;
  rr_job_id : string;
  rr_assignment_id : string;
  rr_attempt : Z;
  rr_owner : string;
  rr_conflict_fingerprint : string;
  rr_candidate : option CandidateDescriptor;
  rr_verification : VerificationSummary;
  rr_diagnostics : list string;
  rr_question : option string;
  rr_human_reason : option HumanResolutionReason;
  rr_question_generation : Z;       (* u32 *)
  rr_safe_options : list HumanResolutionOption;
}.
#[global] Instance ResolutionResult_eq_dec : EqDecision ResolutionResult.
Proof. solve_decision. Defined.

Definition validate_candidate_descriptor `{Unicode} (c : CandidateDescriptor) : Result unit :=
  ensure (portable (ct_path c)) "candidate path must be one canonical portable relative path within bounds" ;;
  ensure (ct_size c <=? RESOLUTION_MAX_CANDIDATE_BYTES) "candidate exceeds the byte bound" ;;
  ensure ((ct_mode c =? 0) || (ct_mode c =? EXECUTABLE_MODE)) "candidate mode must be portable" ;;
  if ct_deleted c then
    ensure (bool_decide (ct_hash c = "") && (ct_size c =? 0) && (ct_mode c =? 0))
      "deleted candidate must carry no hash/size/mode"
  else ensure (is_valid_hash (ct_hash c)) "live candidate must carry a full 64-hex plaintext hash".

Definition carries_nothing (r : ResolutionResult) : bool :=
  is_none (rr_candidate r) && is_none (rr_question r) && is_none (rr_human_reason r).
Definition is_safe_option (o : HumanResolutionOption) : bool :=
  match o with HoDefer | HoKeepUnresolved => true | HoSubmitCandidate => false end.
Definition validate_resolution_result `{Unicode} (r : ResolutionResult) : Result unit :=
  ensure (rr_schema_version r =? RESOLUTION_SCHEMA_VERSION) "unsupported resolution result schema" ;;
  ensure (is_valid_hex_id (rr_job_id r) 32 && is_valid_hex_id (rr_assignment_id r) 32)
    "result job/assignment ids must be exactly 32 lowercase hex chars" ;;
  ensure (rr_attempt r <=? RESOLUTION_MAX_ATTEMPT) "result attempt exceeds its bound" ;;
  ensure (is_valid_agent_name (rr_owner r)) "result owner must be a valid agent name" ;;
  ensure (is_valid_hash (rr_conflict_fingerprint r)) "result conflict fingerprint must be a full 64-hex id" ;;
  ensure (slen (vs_summary (rr_verification r)) <=? RESOLUTION_MAX_VERIFICATION_SUMMARY_BYTES)
    "result verification summary exceeds its bound" ;;
  ensure (zlen (rr_diagnostics r) <=? RESOLUTION_MAX_DIAGNOSTICS) "result diagnostics exceed their bound" ;;
  check_all (λ d, slen d <=? RESOLUTION_DIAGNOSTIC_BYTES) "diagnostic exceeds its bound" (rr_diagnostics r) ;;
  check_option (bounded_text RESOLUTION_MAX_QUESTION_BYTES) "result question must be non-empty and bounded" (rr_question r) ;;
  match rr_outcome r with
  | RoCandidateReady =>
      ensure (is_some (rr_candidate r)) "candidate_ready result must include a candidate descriptor" ;;
      ensure (is_none (rr_question r) && is_none (rr_human_reason r))
        "candidate_ready result must not carry a human question" ;;
      ensure (bool_decide (vs_status (rr_verification r) = VsPassed)) "candidate_ready result requires passed verification" ;;
      match rr_candidate r with Some c => validate_candidate_descriptor c | None => Ok tt end
  | RoNoChangeRequired =>
      ensure (carries_nothing r) "no_change_required result must not carry a candidate or human question" ;;
      ensure (bool_decide (vs_status (rr_verification r) = VsPassed)) "no_change_required result requires passed verification"
  | RoBlocked => ensure (carries_nothing r) "blocked result must not carry a candidate or human question"
  | RoRequiresHuman =>
      ensure (is_some (rr_question r) && is_some (rr_human_reason r))
        "requires_human result requires exactly one bounded question and a human reason" ;;
      ensure (is_none (rr_candidate r)) "requires_human result must not carry a candidate" ;;
      ensure ((zlen (rr_safe_options r) <=? 4) && existsb is_safe_option (rr_safe_options r))
        "requires_human result must offer a bounded typed safe option (defer or keep_unresolved)"
  | RoFailed | RoStale => ensure (carries_nothing r) "failed/stale results must not carry a candidate or human question"
  end.

(** ** Human answers *)
Record HumanResolutionAnswer := mkHumanResolutionAnswer {
  ha_schema_version : Z;
  ha_job_id : string;
  ha_assignment_id : string;
  ha_attempt : Z;
  ha_conflict_fingerprint : string;
  ha_question_generation : Z;
  ha_chosen_option : HumanResolutionOption;
  ha_candidate : option CandidateDescriptor;
  ha_verification : option VerificationSummary;
}.
#[global] Instance HumanResolutionAnswer_eq_dec : EqDecision HumanResolutionAnswer.
Proof. solve_decision. Defined.
Definition validate_human_resolution_answer `{Unicode} (a : HumanResolutionAnswer) : Result unit :=
  ensure (ha_schema_version a =? RESOLUTION_SCHEMA_VERSION) "unsupported human answer schema" ;;
  ensure (is_valid_hex_id (ha_job_id a) 32) "human answer job id must be exactly 32 lowercase hex chars" ;;
  ensure (is_valid_hex_id (ha_assignment_id a) 32) "human answer assignment id must be exactly 32 lowercase hex chars" ;;
  ensure (ha_attempt a <=? RESOLUTION_MAX_ATTEMPT) "human answer attempt exceeds its bound" ;;
  ensure (is_valid_hash (ha_conflict_fingerprint a)) "human answer fingerprint must be a full 64-hex digest" ;;
  match ha_chosen_option a with
  | HoSubmitCandidate =>
      match ha_candidate a with
      | None => Err "submit_candidate answers must carry a candidate descriptor"
      | Some c =>
          validate_candidate_descriptor c ;;
          ensure (is_some (ha_verification a)) "submit_candidate answers must carry verification evidence"
      end
  | HoDefer | HoKeepUnresolved =>
      ensure (is_none (ha_candidate a) && is_none (ha_verification a))
        "defer/keep_unresolved answers must not carry a candidate or evidence"
  end.

(** ** Profiles *)
Inductive ResolutionRevokeReason := Superseded | Cancelled.
#[global] Instance ResolutionRevokeReason_eq_dec : EqDecision ResolutionRevokeReason.
Proof. solve_decision. Defined.
Definition ResolutionRevokeReason_as_str (r : ResolutionRevokeReason) : string :=
  match r with Superseded => "superseded" | Cancelled => "cancelled" end.
Record ResolutionAssignmentProfile := mkResolutionAssignmentProfile {
  ra_schema_version : Z; ra_job : ResolutionJob; ra_question_generation : option Z }.
#[global] Instance ResolutionAssignmentProfile_eq_dec : EqDecision ResolutionAssignmentProfile.
Proof. solve_decision. Defined.
Record ResolutionRevokeProfile := mkResolutionRevokeProfile {
  rv_schema_version : Z; rv_job_id : string; rv_assignment_id : string; rv_attempt : Z;
  rv_conflict_fingerprint : string; rv_reason : ResolutionRevokeReason }.
#[global] Instance ResolutionRevokeProfile_eq_dec : EqDecision ResolutionRevokeProfile.
Proof. solve_decision. Defined.
Inductive ResolutionProfile :=
  | RpAssignment (p : ResolutionAssignmentProfile)
  | RpResult (r : ResolutionResult)
  | RpRevoke (p : ResolutionRevokeProfile)
  | RpHumanAnswer (a : HumanResolutionAnswer).
#[global] Instance ResolutionProfile_eq_dec : EqDecision ResolutionProfile.
Proof. solve_decision. Defined.
Definition ResolutionProfile_type_name (p : ResolutionProfile) : string :=
  match p with
  | RpAssignment _ => "assignment" | RpResult _ => "result" | RpRevoke _ => "revoke" | RpHumanAnswer _ => "human_answer"
  end.

Definition validate_resolution_profile `{Unicode, Blake3} (p : ResolutionProfile) : Result unit :=
  match p with
  | RpAssignment p =>
      ensure (ra_schema_version p =? RESOLUTION_SCHEMA_VERSION) "unsupported assignment profile schema" ;;
      validate_resolution_job (ra_job p) ;;
      check_option (λ g, g <=? RESOLUTION_MAX_ATTEMPT) "assignment question generation exceeds its bound"
        (ra_question_generation p)
  | RpResult r => validate_resolution_result r
  | RpRevoke p =>
      ensure (rv_schema_version p =? RESOLUTION_SCHEMA_VERSION) "unsupported revoke profile schema" ;;
      ensure (is_valid_hex_id (rv_job_id p) 32 && is_valid_hex_id (rv_assignment_id p) 32)
        "revoke profile ids must be exactly 32 lowercase hex chars" ;;
      ensure (rv_attempt p <=? RESOLUTION_MAX_ATTEMPT) "revoke profile attempt exceeds its bound" ;;
      ensure (is_valid_hash (rv_conflict_fingerprint p)) "revoke profile fingerprint must be a full 64-hex digest"
  | RpHumanAnswer a => validate_human_resolution_answer a
  end.

(** [serde_json::to_vec] and [from_str] on profiles. *)
Class ResolutionJson := {
  resolution_to_string : ResolutionProfile → string;
  resolution_from_str : string → option ResolutionProfile;
}.
Definition encode_resolution_profile `{Unicode, Blake3, ResolutionJson} (p : ResolutionProfile) : Result string :=
  validate_resolution_profile p ;;
  ensure (slen (resolution_to_string p) <=? RESOLUTION_MAX_PROFILE_BYTES) "ffres1 profile exceeds the signal body bound" ;;
  Ok (RESOLUTION_JOB_DISCRIMINATOR +:+ ":" +:+ resolution_to_string p).
Definition parse_resolution_profile `{Unicode, Blake3, ResolutionJson} (body : string) : option ResolutionProfile :=
  json ← strip_prefix RESOLUTION_JOB_DISCRIMINATOR body;
  json ← strip_prefix ":" json;
  if RESOLUTION_MAX_PROFILE_BYTES <? slen json then None else
  profile ← resolution_from_str json;
  if is_ok (validate_resolution_profile profile) then Some profile else None.

Inductive ResolutionStaleKind :=
  | SkHeadChanged | SkConflictMissing | SkLegsChanged | SkIdentityMismatch | SkAssignmentRevoked | SkVerificationExpired
  | SkCandidateMissing | SkCandidateHashMismatch | SkCandidateSizeMismatch | SkCandidateModeMismatch
  | SkCandidatePathMismatch | SkCandidateSymlink | SkCandidatePermissionDenied | SkCandidateInvalidType | SkCandidateIoError.
#[global] Instance ResolutionStaleKind_eq_dec : EqDecision ResolutionStaleKind.
Proof. solve_decision. Defined.
