(* ===== verification/ResolutionIdentity.v ===== *)
(** * Conflict resolution: what a fingerprint identifies

    The bytes a fingerprint is taken of determine the identity of the conflict: two valid jobs with
    the same fingerprint are about the same conflict, leg by leg, under the same assignment. *)
From Stdlib Require Import ZArith Lia Ascii Strings.Byte.
From stdpp Require Import sorting numbers strings gmap list_numbers list options.
From S2P Require Import Prelude Text Paths Model Codec CodecProps WorkContract AgentContract IntegratorContract.
From S2P Require Import IntegratorSelection ResolutionContract.

Local Open Scope Z_scope.

(** An encoding of [A] that is known where it ends. *)
Definition delimited {A} (P : A → Prop) (enc : A → list byte) : Prop :=
  ∀ a b r s, P a → P b → enc a ++ r = enc b ++ s → a = b ∧ r = s.

Lemma le_bytes_inj w a b : 0 ≤ a < 256 ^ Z.of_nat w → 0 ≤ b < 256 ^ Z.of_nat w → le_bytes w a = le_bytes w b → a = b.
Proof.
  intros Ha Hb He. rewrite <-(Z.mod_small a (256 ^ Z.of_nat w)), <-(Z.mod_small b (256 ^ Z.of_nat w)) by done.
  by rewrite <-!le_value_bytes, He.
Qed.
Lemma as_bytes_inj s t : as_bytes s = as_bytes t → s = t.
Proof. intros H. by rewrite <-(of_as_bytes s), <-(of_as_bytes t), H. Qed.
Lemma fixed_delimited w (P : Z → Prop) : (∀ z, P z → 0 ≤ z < 256 ^ Z.of_nat w) → delimited P (le_bytes w).
Proof.
  intros HP a b r s Ha Hb [He Hr]%app_inj_1; [|by rewrite !length_le_bytes]. split; [|done].
  eapply le_bytes_inj; [by apply HP..|done].
Qed.
Definition short (s : string) : Prop := slen s < 2 ^ 64.
Lemma push_bytes_delimited : delimited short push_bytes.
Proof.
  intros a b r s Ha Hb He. unfold push_bytes in He. rewrite <-!app_assoc in He.
  apply (fixed_delimited 8 (λ z, 0 ≤ z < 2 ^ 64)) in He as [Hl He]; [|intros z Hz; change (256 ^ Z.of_nat 8) with (2 ^ 64); lia|..].
  - apply app_inj_1 in He as [Hs Hr]; [by split; [apply as_bytes_inj|]|].
    rewrite <-!zlen_as_bytes in Hl. unfold zlen in Hl. lia.
  - split; [apply slen_nonneg|done].
  - split; [apply slen_nonneg|done].
Qed.
Lemma push_bool_delimited : delimited (λ _, True) push_bool.
Proof. intros [|] [|] r s _ _ [= ->]; done. Qed.
Lemma push_u64_delimited : delimited (λ z, 0 ≤ z < 2 ^ 64) push_u64.
Proof. apply fixed_delimited. intros z. change (256 ^ Z.of_nat 8) with (2 ^ 64). done. Qed.
Lemma push_u32_delimited : delimited (λ z, 0 ≤ z < 2 ^ 32) push_u32.
Proof. apply fixed_delimited. intros z. change (256 ^ Z.of_nat 4) with (2 ^ 32). done. Qed.
Lemma push_opt_delimited : delimited (λ o, ∀ s, o = Some s → short s) push_opt_bytes.
Proof.
  intros [a|] [b|] r s Ha Hb He; try discriminate He.
  - assert (push_bytes a ++ r = push_bytes b ++ s) as He' by exact (f_equal tail He).
    apply push_bytes_delimited in He' as [-> ->]; [done|by apply Ha|by apply Hb].
  - split; [done|]. exact (f_equal tail He).
Qed.
Lemma push_items_delimited (l l' : list string) r s :
  length l = length l' → Forall short l → Forall short l' →
  concat (push_bytes <$> l) ++ r = concat (push_bytes <$> l') ++ s → l = l' ∧ r = s.
Proof.
  revert l'. induction l as [|x l IH]; intros [|y l'] Hlen Hl Hl' He; try discriminate Hlen; [done|].
  simpl in He. rewrite <-!app_assoc in He. apply Forall_cons in Hl as [Hx Hl], Hl' as [Hy Hl'].
  apply push_bytes_delimited in He as [-> He]; [|done..]. destruct (IH l') as [-> ->]; [by injection Hlen|done..].
Qed.
Lemma push_list_delimited : delimited (λ l, zlen l < 2 ^ 64 ∧ Forall short l) push_list.
Proof.
  intros a b r s [Ha Has] [Hb Hbs] He. unfold push_list in He. rewrite <-!app_assoc in He.
  apply push_u64_delimited in He as [Hl He]; [|unfold zlen in *; lia..]. eapply push_items_delimited; [|done..].
  unfold zlen in Hl. lia.
Qed.

#[local] Opaque push_bytes push_u64 push_u32 push_bool.

(** ** The bounds that validation ensures *)
Record leg_short (leg : ConflictLegDescriptor) : Prop := {
  ls_hash : short (lg_hash leg); ls_size : 0 ≤ lg_size leg < 2 ^ 64; ls_mode : 0 ≤ lg_mode leg < 2 ^ 32 }.
Lemma push_leg_delimited : delimited leg_short push_leg.
Proof.
  intros [p d h sz m] [p' d' h' sz' m'] r s [Ha1 Ha2 Ha3] [Hb1 Hb2 Hb3] He. unfold push_leg in He. simpl in *.
  rewrite <-!app_assoc in He. apply push_bool_delimited in He as [-> He]; [|done..].
  apply push_bool_delimited in He as [-> He]; [|done..]. apply push_bytes_delimited in He as [-> He]; [|done..].
  apply push_u64_delimited in He as [-> He]; [|done..]. by apply push_u32_delimited in He as [-> ->].
Qed.

Lemma hash_short s : is_valid_hash s = true → short s.
Proof. unfold is_valid_hash. intros H. to_prop. unfold short. lia. Qed.
Lemma hex_short s n : is_valid_hex_id s n = true → n < 2 ^ 64 → short s.
Proof. unfold is_valid_hex_id. intros H ?. to_prop. unfold short. lia. Qed.
Lemma text_short `{Unicode} n s : bounded_text n s = true → n < 2 ^ 64 → short s.
Proof. unfold bounded_text. intros H1 ?. to_prop. unfold short. lia. Qed.
Lemma task_short s : is_valid_task_id s = true → short s.
Proof. unfold is_valid_task_id, WORK_MAX_TASK_ID_BYTES. intros H. to_prop. unfold short. lia. Qed.
Lemma name_short `{Unicode} s : is_valid_agent_name s = true → short s.
Proof. unfold is_valid_agent_name, AGENT_NAME_MAX_BYTES. intros H1. to_prop. unfold short. lia. Qed.

Lemma path_short `{Unicode} s : is_safe_rel_path s = true → short s.
Proof. intros (_ & Hl & _)%is_safe_rel_path_true. unfold MAX_PORTABLE_PATH_BYTES in Hl. unfold short. lia. Qed.
Lemma empty_short s : s = "" → short s.
Proof. by intros ->. Qed.
Lemma valid_leg_short leg : validate_leg leg = Ok tt → 0 ≤ lg_size leg → leg_short leg.
Proof.
  unfold validate_leg, EXECUTABLE_MODE, RESOLUTION_MAX_LEG_BYTES. intros Hv Hs. apply bind_Ok in Hv as ([] & Hm & Hv).
  apply ensure_Ok in Hm. assert (0 ≤ lg_mode leg < 2 ^ 32) by (apply orb_true_iff in Hm as [?|?]; to_prop; lia).
  destruct (negb (lg_present leg)).
  - apply ensure_Ok in Hv. to_prop. split; [by apply empty_short|lia|done].
  - apply bind_Ok in Hv as ([] & Hl & Hv). apply ensure_Ok in Hl. to_prop. split; [|lia|done].
    destruct (lg_deleted leg); apply ensure_Ok in Hv; [to_prop; by apply empty_short|by apply hash_short].
Qed.
Lemma ascending_hashes p l : hashes_ascending p l = Ok tt → Forall (λ s, is_valid_hash s = true) l.
Proof.
  revert p. induction l as [|x l IH]; intros p Hv; [constructor|]. simpl in Hv. apply bind_Ok in Hv as ([] & Hx & Hv).
  apply bind_Ok in Hv as ([] & _ & Hv). apply ensure_Ok in Hx. constructor; [done|by eapply IH].
Qed.
Lemma check_option_Ok {A} (p : A → bool) e o : check_option p e o = Ok tt → ∀ a, o = Some a → p a = true.
Proof. intros Hc a ->. by apply ensure_Ok in Hc. Qed.

(** Sizes and the attempt are unsigned. *)
Record unsigned (i : ConflictIdentity) : Prop := {
  un_base : 0 ≤ lg_size (ci_base i); un_ours : 0 ≤ lg_size (ci_ours i); un_theirs : 0 ≤ lg_size (ci_theirs i);
  un_attempt n : ci_attempt i = Some n → 0 ≤ n }.
Record identity_short (i : ConflictIdentity) : Prop := {
  is_schema : ci_schema_version i = RESOLUTION_SCHEMA_VERSION;
  is_ids : short (ci_workspace_id i) ∧ short (ci_current_snapshot i) ∧ short (ci_about_snapshot i)
    ∧ short (ci_tree_root i) ∧ short (ci_path i);
  is_legs : leg_short (ci_base i) ∧ leg_short (ci_ours i) ∧ leg_short (ci_theirs i);
  is_intents : zlen (ci_intent_message_ids i) < 2 ^ 64 ∧ Forall short (ci_intent_message_ids i);
  is_task s : ci_task_id i = Some s → short s;
  is_assignment s : ci_assignment_id i = Some s → short s;
  is_attempt_bound : 0 ≤ default 0 (ci_attempt i) < 2 ^ 32;
  is_owner s : ci_designated_owner i = Some s → short s;
  is_policy s : ci_verification_policy i = Some s → short s }.
Lemma valid_identity_short `{Unicode} i : validate_conflict_identity i = Ok tt → unsigned i → identity_short i.
Proof.
  unfold validate_conflict_identity. intros Hv [Ub Uo Ut Ua]. do 14 (apply bind_Ok in Hv as ([] & ? & Hv)).
  repeat match goal with Hc : ensure _ _ = Ok tt |- _ => apply ensure_Ok in Hc end. to_prop.
  repeat match goal with Hc : check_option _ _ _ = Ok tt |- _ => pose proof (check_option_Ok _ _ _ Hc); clear Hc end.
  match goal with Hc : hashes_ascending _ _ = Ok tt |- _ => apply ascending_hashes in Hc; rename Hc into Hids end.
  match goal with Hc : zlen _ ≤ RESOLUTION_MAX_INTENT_IDS |- _ => unfold RESOLUTION_MAX_INTENT_IDS in Hc end.
  match goal with Hc : ∀ a, ci_attempt i = Some a → _ |- _ => rename Hc into Hn end.
  assert (RESOLUTION_MAX_ID_BYTES < 2 ^ 64) by (unfold RESOLUTION_MAX_ID_BYTES; lia).
  split.
  - assumption.
  - split; [eapply text_short; eassumption|]. repeat (split; [by apply hash_short|]). by apply path_short.
  - split; [by apply valid_leg_short|]. split; by apply valid_leg_short.
  - split; [lia|]. eapply Forall_impl; [exact Hids|]. apply hash_short.
  - intros s Hs. apply task_short. auto.
  - intros s Hs. eapply (hex_short s 32); [auto|lia].
  - unfold RESOLUTION_MAX_ATTEMPT in Hn. destruct (ci_attempt i) as [n|]; simpl; [|lia].
    specialize (Ua n eq_refl). specialize (Hn n eq_refl). to_prop. lia.
  - intros s Hs. apply name_short. auto.
  - intros s Hs. apply (text_short RESOLUTION_MAX_ID_BYTES); [auto|assumption].
Qed.

(** ** The identity is determined *)

(** The identity, with the attempt as the fingerprint sees it. *)
Definition with_attempt (n : option Z) (i : ConflictIdentity) : ConflictIdentity :=
  mkIdentity (ci_schema_version i) (ci_workspace_id i) (ci_current_snapshot i) (ci_about_snapshot i) (ci_tree_root i)
    (ci_path i) (ci_base i) (ci_ours i) (ci_theirs i) (ci_kind i) (ci_task_id i) (ci_intent_message_ids i)
    (ci_assignment_id i) n (ci_designated_owner i) (ci_verification_policy i).
Definition seen_attempt (i : ConflictIdentity) : option Z := if is_automatic i then Some (default 0 (ci_attempt i)) else None.

Lemma not_automatic i :
  is_automatic i = false → ci_task_id i = None ∧ ci_intent_message_ids i = [] ∧ ci_assignment_id i = None
    ∧ ci_attempt i = None ∧ ci_designated_owner i = None ∧ ci_verification_policy i = None.
Proof.
  unfold is_automatic. destruct (ci_task_id i), (ci_assignment_id i), (ci_attempt i), (ci_designated_owner i),
    (ci_verification_policy i); rewrite ?orb_true_r; try discriminate. simpl. rewrite !orb_false_r.
  intros Hb. apply negb_false_iff, bool_decide_eq_true in Hb. done.
Qed.
Lemma kind_short k : short (ConflictKind_as_db_str k).
Proof. by destruct k. Qed.
Lemma kind_inj k k' : ConflictKind_as_db_str k = ConflictKind_as_db_str k' → k = k'.
Proof. by destruct k, k'. Qed.

Lemma identity_bytes_determine i j :
  identity_short i → identity_short j → identity_bytes i = identity_bytes j →
  with_attempt (seen_attempt i) i = with_attempt (seen_attempt j) j.
Proof.
  intros [Hs (Hw & Hc & Ha & Ht & Hp) (Hb & Ho & Hth) Hi Htk Has Hat How Hpo]
    [Hs' (Hw' & Hc' & Ha' & Ht' & Hp') (Hb' & Ho' & Hth') Hi' Htk' Has' Hat' How' Hpo'] He.
  unfold identity_bytes in He. apply app_inj_1 in He as [_ He]; [|done]. apply app_inj_1 in He as [_ He]; [|done].
  do 5 (apply push_bytes_delimited in He as [? He]; [|done..]). do 3 (apply push_leg_delimited in He as [? He]; [|done..]).
  apply push_bytes_delimited in He as [Hk He]; [|apply kind_short..]. apply kind_inj in Hk.
  unfold seen_attempt. destruct (is_automatic i) eqn:Hia, (is_automatic j) eqn:Hja; try discriminate He.
  - apply (f_equal tail) in He. cbn [tail] in He. apply push_opt_delimited in He as [? He]; [|done..].
    apply push_list_delimited in He as [? He]; [|done..]. apply push_opt_delimited in He as [? He]; [|done..].
    apply push_u32_delimited in He as [? He]; [|done..]. apply push_opt_delimited in He as [? He]; [|done..].
    rewrite <-(app_nil_r (push_opt_bytes (ci_verification_policy i))),
      <-(app_nil_r (push_opt_bytes (ci_verification_policy j))) in He.
    apply push_opt_delimited in He as [? _]; [|done..]. unfold with_attempt. f_equal; [by rewrite Hs, Hs'|assumption..|by f_equal|assumption|assumption].
  - apply not_automatic in Hia as (? & ? & ? & ? & ? & ?), Hja as (? & ? & ? & ? & ? & ?).
    unfold with_attempt. f_equal; [by rewrite Hs, Hs'|assumption..|by transitivity (None (A:=string))|by transitivity ([] : list string)|by transitivity (None (A:=string))|by transitivity (None (A:=string))|by transitivity (None (A:=string))].
Qed.

Lemma valid_job_identity `{Unicode, Blake3} j :
  validate_resolution_job j = Ok tt →
  validate_conflict_identity (rj_conflict j) = Ok tt
  ∧ rj_conflict_fingerprint j = compute_conflict_identity_fingerprint (rj_conflict j)
  ∧ ci_assignment_id (rj_conflict j) = Some (rj_assignment_id j) ∧ ci_attempt (rj_conflict j) = Some (rj_attempt j)
  ∧ ci_designated_owner (rj_conflict j) = Some (rj_owner j) ∧ ci_task_id (rj_conflict j) = Some (rj_task_id j).
Proof.
  unfold validate_resolution_job. intros Hv. do 7 (apply bind_Ok in Hv as ([] & _ & Hv)).
  apply bind_Ok in Hv as ([] & Hi & Hv). apply bind_Ok in Hv as ([] & Hf & Hv).
  do 2 (apply bind_Ok in Hv as ([] & _ & Hv)). apply bind_Ok in Hv as ([] & Hm & _).
  apply ensure_Ok in Hf, Hm. to_prop. done.
Qed.

(** Two valid jobs with the same fingerprint are about the same conflict: the same workspace,
    snapshot, tree, path and legs, under the same task, assignment, attempt, owner and policy, as
    long as the hash does not collide on the two encodings. *)
Theorem fingerprint_identifies `{Unicode, Blake3} j j' :
  validate_resolution_job j = Ok tt → validate_resolution_job j' = Ok tt →
  unsigned (rj_conflict j) → unsigned (rj_conflict j') →
  (hash_bytes (identity_bytes (rj_conflict j)) = hash_bytes (identity_bytes (rj_conflict j')) →
     identity_bytes (rj_conflict j) = identity_bytes (rj_conflict j')) →
  rj_conflict_fingerprint j = rj_conflict_fingerprint j' →
  rj_conflict j = rj_conflict j' ∧ rj_task_id j = rj_task_id j' ∧ rj_assignment_id j = rj_assignment_id j'
  ∧ rj_attempt j = rj_attempt j' ∧ rj_owner j = rj_owner j'.
Proof.
  intros Hv Hv' Hu Hu' Hcoll Hf.
  destruct (valid_job_identity j Hv) as (Hi & Hfp & Ha & Hn & Ho & Ht).
  destruct (valid_job_identity j' Hv') as (Hi' & Hfp' & Ha' & Hn' & Ho' & Ht').
  assert (rj_conflict j = rj_conflict j') as Heq; [|rewrite Heq in *; repeat split; congruence].
  pose proof (identity_bytes_determine (rj_conflict j) (rj_conflict j')) as Hd.
  assert (∀ i n, ci_attempt i = Some n → with_attempt (seen_attempt i) i = i) as Hid.
  { intros i n Hi0. unfold with_attempt, seen_attempt. assert (is_automatic i = true) as ->.
    - unfold is_automatic. rewrite Hi0. simpl. by rewrite !orb_true_r.
    - rewrite Hi0. simpl. rewrite <-Hi0. by destruct i. }
  rewrite <-(Hid _ _ Hn), <-(Hid _ _ Hn'). apply Hd; [by apply valid_identity_short..|].
  apply Hcoll. unfold compute_conflict_identity_fingerprint in *. congruence.
Qed.

(** ** A job *)
#[local] Instance identity_unicode : Unicode := ascii_unicode.
#[local] Instance identity_blake3 : Blake3 := sample_blake3.
Definition hex64 (c : ascii) : string := String.string_of_list_ascii (replicate 64 c).
Definition hex32 (c : ascii) : string := String.string_of_list_ascii (replicate 32 c).
Definition live_leg (c : ascii) (size : Z) : ConflictLegDescriptor := mkLeg true false (hex64 c) size 0.
Definition sample_identity (attempt : option Z) : ConflictIdentity :=
  mkIdentity 1 "ws" (hex64 "a") (hex64 "a") (hex64 "b") "src/main.rs" (live_leg "1" 0) (live_leg "2" 0) (live_leg "3" 7)
    EditEdit (Some "task") [hex64 "4"] (Some (hex32 "5")) attempt (Some "ann") (Some RESOLUTION_VERIFICATION_POLICY_ID).
Definition sample_job (reason : PreventionReason) : ResolutionJob :=
  mkResolutionJob 1 (hex32 "6") "task" (hex32 "5") 0 "ws" "ann" (sample_identity (Some 0))
    (compute_conflict_identity_fingerprint (sample_identity (Some 0))) (hex64 "a") (hex64 "a") (hex64 "b")
    [hex64 "4"] [hex64 "4"] [mkArtifactDescriptor Original "conflicts/src/main.rs.original"]
    (mkCandidateDestination "orchestrator/resolution/jobs/6/candidate-0.bin" true) ["src/main.rs"]
    (mkVerificationPolicyRef RESOLUTION_VERIFICATION_POLICY_ID RESOLUTION_VERIFICATION_CONFIG_REF 600000 true)
    reason "why" (mkDesignationEvidence OmCausalEligible None None ["ann"; "bob"] [] "older" 0).

(** The statement applied to two jobs for the same conflict, prepared for different reasons. *)
Lemma fingerprint_identifies_witness :
  rj_conflict (sample_job (Exhausted "tried")) = rj_conflict (sample_job (Violated "broken")).
Proof.
  apply (fingerprint_identifies (sample_job (Exhausted "tried")) (sample_job (Violated "broken"))).
  - vm_compute. reflexivity.
  - vm_compute. reflexivity.
  - split; [simpl; lia|simpl; lia|simpl; lia|simpl; by intros n [= <-]].
  - split; [simpl; lia|simpl; lia|simpl; lia|simpl; by intros n [= <-]].
  - intros _. reflexivity.
  - reflexivity.
Defined.

(** The attempt is the exception: an identity bound to attempt 0 and one bound to no attempt are
    both valid, differ, and have the same fingerprint, whatever the hash. *)
Theorem missing_attempt_not_identified (hash : Blake3) :
  validate_conflict_identity (sample_identity None) = Ok tt ∧ validate_conflict_identity (sample_identity (Some 0)) = Ok tt
  ∧ sample_identity None ≠ sample_identity (Some 0)
  ∧ @compute_conflict_identity_fingerprint hash (sample_identity None)
    = @compute_conflict_identity_fingerprint hash (sample_identity (Some 0)).
Proof. split; [by vm_compute|]. split; [by vm_compute|]. split; [discriminate|reflexivity]. Qed.
