(* ===== verification/ResolutionStore.v ===== *)
(** * Conflict resolution: the job store

    agent-core/src/resolution.rs: the states of an assignment and their transitions, the persisted
    record of a job, and the state file with its bound and its validation on load. *)
From Stdlib Require Import ZArith Lia Ascii Strings.Byte.
From stdpp Require Import sorting numbers strings gmap list_numbers list options.
From S2P Require Import Prelude Text Paths Model WorkContract AgentContract IntegratorContract ResolutionContract.

Local Open Scope Z_scope.

Definition RESOLUTION_STORE_SCHEMA_VERSION : Z := 1.
Definition RESOLUTION_MAX_JOBS : nat := 64.
Definition RESOLUTION_MAX_APPLY_REVALIDATIONS : nat := 3.

Inductive ResolutionAssignmentState :=
  RsActive | RsPublicationUncertain | RsRevoked | RsSuperseded | RsCompleted | RsStale | RsDeferred | RsKeepUnresolved.
#[global] Instance ResolutionAssignmentState_eq_dec : EqDecision ResolutionAssignmentState.
Proof. solve_decision. Defined.
Definition is_terminal (s : ResolutionAssignmentState) : bool :=
  match s with
  | RsRevoked | RsSuperseded | RsCompleted | RsStale | RsDeferred | RsKeepUnresolved => true
  | RsActive | RsPublicationUncertain => false
  end.
Definition transition_allowed (from to : ResolutionAssignmentState) : bool :=
  match from, to with
  | RsActive, RsActive | RsActive, RsPublicationUncertain | RsActive, RsRevoked | RsActive, RsSuperseded
  | RsActive, RsDeferred | RsActive, RsKeepUnresolved
  | RsPublicationUncertain, RsCompleted | RsPublicationUncertain, RsStale | RsPublicationUncertain, RsActive => true
  | _, _ => false
  end.
Definition assert_state_transition (from to : ResolutionAssignmentState) : Result unit :=
  ensure (transition_allowed from to) "invalid resolution assignment state transition".

Record PersistedResolutionJob := mkPersistedJob {
  pj_schema_version : Z;
  pj_job : ResolutionJob;
  pj_assignment_state : ResolutionAssignmentState;
  pj_created_at_ms : Z;
  pj_verified_at_ms : option Z;
  pj_result : option ResolutionResult;
  pj_question_generation : Z;       (* u32 *)
}.
#[global] Instance PersistedResolutionJob_eq_dec : EqDecision PersistedResolutionJob.
Proof. solve_decision. Defined.
Record ResolutionStateFile := mkResolutionStateFile { rs_schema_version : Z; rs_jobs : list PersistedResolutionJob }.
Definition fresh_store : ResolutionStateFile := mkResolutionStateFile RESOLUTION_STORE_SCHEMA_VERSION [].

Definition pj_id (r : PersistedResolutionJob) : string := rj_job_id (pj_job r).
Definition pj_path (r : PersistedResolutionJob) : string := ci_path (rj_conflict (pj_job r)).
Definition pj_terminal (r : PersistedResolutionJob) : bool := is_terminal (pj_assignment_state r).
Definition record_with_state (s : ResolutionAssignmentState) (r : PersistedResolutionJob) : PersistedResolutionJob :=
  mkPersistedJob (pj_schema_version r) (pj_job r) s (pj_created_at_ms r) (pj_verified_at_ms r) (pj_result r)
    (pj_question_generation r).
Definition record_with_result (now : Z) (result : ResolutionResult) (generation : Z) (r : PersistedResolutionJob)
    : PersistedResolutionJob :=
  mkPersistedJob (pj_schema_version r) (pj_job r) (pj_assignment_state r) (pj_created_at_ms r) (Some now) (Some result)
    generation.

(** [sort_by_key(created_at_ms)], stable. *)
Fixpoint insert_created (x : PersistedResolutionJob) (l : list PersistedResolutionJob) : list PersistedResolutionJob :=
  match l with
  | [] => [x]
  | y :: l' => if pj_created_at_ms x <=? pj_created_at_ms y then x :: y :: l' else y :: insert_created x l'
  end.
Definition sort_created (l : list PersistedResolutionJob) : list PersistedResolutionJob := foldr insert_created [] l.
(** Only terminal records are evicted, the oldest first. *)
Definition trim_jobs (jobs : list PersistedResolutionJob) : list PersistedResolutionJob :=
  if (length jobs <=? RESOLUTION_MAX_JOBS)%nat then jobs else
  let terminal := reverse (sort_created (List.filter pj_terminal jobs)) in
  let non_terminal := (length jobs - length terminal)%nat in
  let keep := (RESOLUTION_MAX_JOBS - non_terminal)%nat in
  List.filter (λ r, negb (pj_terminal r)) jobs ++ take keep terminal.

Section store.
Context `{Unicode, Blake3}.

Definition validate_record (r : PersistedResolutionJob) : Result unit :=
  validate_resolution_job (pj_job r) ;;
  match pj_result r with Some result => validate_resolution_result result | None => Ok tt end.
Definition load_file (f : ResolutionStateFile) : Result ResolutionStateFile :=
  ensure (rs_schema_version f =? RESOLUTION_STORE_SCHEMA_VERSION) "unsupported resolution store schema" ;;
  try_fold (λ _ r, validate_record r) tt (rs_jobs f) ;;
  Ok f.
(** [update]: the file it writes. *)
Definition update_file (g : list PersistedResolutionJob → Result (list PersistedResolutionJob)) (f : ResolutionStateFile)
    : Result ResolutionStateFile :=
  ensure (rs_schema_version f =? RESOLUTION_STORE_SCHEMA_VERSION) "unsupported resolution store schema" ;;
  jobs ← g (rs_jobs f);
  Ok (mkResolutionStateFile RESOLUTION_STORE_SCHEMA_VERSION (trim_jobs jobs)).
Definition find_job (job_id : string) (jobs : list PersistedResolutionJob) : Result PersistedResolutionJob :=
  or_context (find (λ r, bool_decide (pj_id r = job_id)) jobs) "unknown resolution job".
Definition load_job (job_id : string) (f : ResolutionStateFile) : Result PersistedResolutionJob :=
  f ← load_file f; find_job job_id (rs_jobs f).
End store.

(** [find_mut], then a change of the record found. *)
Fixpoint alter_job (job_id : string) (g : PersistedResolutionJob → Result PersistedResolutionJob)
    (jobs : list PersistedResolutionJob) : Result (list PersistedResolutionJob) :=
  match jobs with
  | [] => Err "unknown resolution job"
  | r :: jobs => if bool_decide (pj_id r = job_id) then r' ← g r; Ok (r' :: jobs)
                 else jobs' ← alter_job job_id g jobs; Ok (r :: jobs')
  end.
Definition move_to (s : ResolutionAssignmentState) (r : PersistedResolutionJob) : Result PersistedResolutionJob :=
  assert_state_transition (pj_assignment_state r) s ;; Ok (record_with_state s r).

Definition next_question_generation (f : ResolutionStateFile) (fingerprint : string) : Z :=
  Z.min U32_MAX (1 + foldr (λ r n, Z.max (pj_question_generation r) n) 0
    (List.filter (λ r, bool_decide (rj_conflict_fingerprint (pj_job r) = fingerprint)) (rs_jobs f))).
