(* ===== verification/Designation.v ===== *)
(** * Conflict owner designation

    agent-core/src/integrator.rs: which agent is asked to resolve a conflict: the authors of
    accepted work that covers the path, ordered by the causal references of the work projection, or
    drawn by the auditable ranking where they are not ordered. *)
From Stdlib Require Import ZArith Lia Ascii Strings.Byte.
From stdpp Require Import sorting numbers strings gmap list_numbers list pretty options.
From S2P Require Import Prelude Text Paths Model WorkContract AgentContract WorkReducer IntegratorContract.
From S2P Require Import ResolutionContract ResolutionStore.

Local Open Scope Z_scope.

Definition DESIGNATION_MAX_CAUSAL_DEPTH : nat := 32.

(** ** Causal references *)
Definition recorded_causal_refs (r : WorkProposalRecord) : list string :=
  option_list (pr_causal_base r) ++ pr_superseded_decisions r
  ++ match pr_decision r with Some d => option_list (de_ordered_after d) | None => [] end.

(** [CausalAncestry]: every record under each message id it declares. *)
Definition message_ids (r : WorkProposalRecord) : list string :=
  [pr_intent_message_id r; pr_source_message_id r]
  ++ match pr_decision r with Some d => [de_message_id d] | None => [] end.
Definition CausalAncestry : Type := list (string * WorkProposalRecord).
Definition ancestry_new (records : list WorkProposalRecord) : CausalAncestry :=
  concat ((λ r, (λ id, (id, r)) <$> message_ids r) <$> records).
Definition by_message (a : CausalAncestry) (id : string) : list WorkProposalRecord :=
  snd <$> filter (λ row, row.1 = id) a.

(** One level of the walk: [None] when a target is met. *)
Fixpoint scan_frontier (a : CausalAncestry) (older : WorkProposalRecord) (visited : gset string) (next : list string)
    (frontier : list string) : option (gset string * list string) :=
  match frontier with
  | [] => Some (visited, next)
  | id :: frontier =>
      if decide (id ∈ visited) then scan_frontier a older visited next frontier else
      let visited := {[id]} ∪ visited in
      if bool_decide (id = pr_intent_message_id older) || bool_decide (id = pr_source_message_id older) then None else
      scan_frontier a older visited (next ++ concat (recorded_causal_refs <$> by_message a id)) frontier
  end.
Fixpoint walk_ancestry (a : CausalAncestry) (older : WorkProposalRecord) (depth : nat) (visited : gset string)
    (frontier : list string) : bool :=
  match depth, frontier with
  | O, _ | _, [] => false
  | S depth, _ =>
      match scan_frontier a older visited [] frontier with
      | None => true
      | Some (visited, next) => walk_ancestry a older depth visited next
      end
  end.
Definition causally_references (a : CausalAncestry) (older newer : WorkProposalRecord) : bool :=
  walk_ancestry a older DESIGNATION_MAX_CAUSAL_DEPTH ∅ (recorded_causal_refs newer).

(** ** Eligibility *)
Definition record_capabilities_valid (r : WorkProposalRecord) : bool :=
  negb (bool_decide (pr_capabilities r = [])) && strictly_ascending (pr_capabilities r)
  && forallb is_valid_capability (pr_capabilities r).
Definition yielded_or_blocked (s : WorkTaskState) : bool := match s with Yielded | Blocked => true | _ => false end.
Definition agent_yielded_or_blocked_in_task (tasks : list WorkTaskRecord) (task_id agent : string) : bool :=
  existsb (λ t, bool_decide (tk_task_id t = task_id)
                && existsb (λ p, bool_decide (pr_agent p = agent) && yielded_or_blocked (pr_state p)) (tk_proposals t)) tasks.

Definition Entry : Type := string * WorkProposalRecord.
Definition accepted_entries (tasks : list WorkTaskRecord) : list Entry :=
  concat ((λ t, (λ p, (tk_task_id t, p)) <$> List.filter (λ p, bool_decide (pr_state p = Accepted)) (tk_proposals t)) <$> tasks).
Definition eligible_entry (tasks : list WorkTaskRecord) (e : Entry) : bool :=
  record_capabilities_valid e.2 && negb (agent_yielded_or_blocked_in_task tasks e.1 (pr_agent e.2)).
Fixpoint single_task (task : option string) (l : list Entry) : option (option string) :=
  match l with
  | [] => Some task
  | e :: l =>
      match task with
      | None => single_task (Some e.1) l
      | Some t => if bool_decide (t = e.1) then single_task task l else None
      end
  end.
Definition push_author (out : list Entry) (e : Entry) : list Entry :=
  if existsb (λ o, bool_decide (pr_agent o.2 = pr_agent e.2)) out then out else out ++ [e].
Definition distinct_authors (l : list Entry) : list Entry := foldl push_author [] l.

(** [strictly_oldest_author]: entries are compared by their place. *)
Definition older_than_all (a : CausalAncestry) (l : list Entry) (i : nat) (candidate : Entry) : bool :=
  forallb (λ p : nat * Entry, bool_decide (p.1 = i) || causally_references a candidate.2 p.2.2) (imap pair l).
Fixpoint oldest_loop (a : CausalAncestry) (l : list Entry) (oldest : option Entry) (todo : list (nat * Entry))
    : option Entry :=
  match todo with
  | [] => oldest
  | (i, candidate) :: todo =>
      if older_than_all a l i candidate
      then match oldest with Some _ => None | None => oldest_loop a l (Some candidate) todo end
      else oldest_loop a l oldest todo
  end.
Definition strictly_oldest_author (a : CausalAncestry) (l : list Entry) : option Entry :=
  match l with
  | [] => None
  | [e] => Some e
  | _ => oldest_loop a l None (imap pair l)
  end.

(** ** Designation *)
Inductive DesignationRefusalKind := ProjectionIncomplete | NoRoster | NoCapableRoster | ActiveAssignmentExists.
#[global] Instance DesignationRefusalKind_eq_dec : EqDecision DesignationRefusalKind.
Proof. solve_decision. Defined.
Record IntegratorDraw := mkIntegratorDraw {
  dr_assignment_id : string; dr_selection_nonce : string; dr_about_snapshot : string; dr_roster_fingerprint : string;
  dr_ranked : list string; dr_neutral_integrator : bool; dr_eligible : list string }.
(** The engine's evidence; the wire evidence of the contract is a part of it. *)
Record DesignationEvidence := mkEngineEvidence {
  en_nonce : option string; en_roster_fingerprint : option string; en_eligible : list string; en_ranked : list string;
  en_attempt : Z; en_reasoning : string; en_draw : option IntegratorDraw;
  en_selected_intent_message_id : option string; en_selected_sequence : option Z }.
Record OwnerDesignation := mkOwnerDesignation {
  od_owner : string; od_method : OwnerDesignationMethod; od_assignment_id : string; od_attempt : Z;
  od_task_id : option string; od_intent_message_ids : list string; od_evidence : DesignationEvidence }.

(** A designation is granted, refused, or the code panics. *)
Inductive Designated (A : Type) := Granted (a : A) | Refused (kind : DesignationRefusalKind) | Panicked.
Arguments Granted {A} a.
Arguments Refused {A} kind.
Arguments Panicked {A}.
#[global] Instance designated_ret : MRet Designated := λ A a, Granted a.
#[global] Instance designated_bind : MBind Designated := λ A B f m,
  match m with Granted a => f a | Refused k => Refused k | Panicked => Panicked end.
Definition or_refuse {A} (kind : DesignationRefusalKind) (r : Result A) : Designated A :=
  match r with Ok a => Granted a | Err _ => Refused kind end.
Definition require (b : bool) (kind : DesignationRefusalKind) : Designated unit := if b then Granted tt else Refused kind.

(** [String::truncate], which panics inside a character. *)
Definition is_continuation (b : byte) : bool := in_range 128 191 (byteZ b).
Definition is_char_boundary (n : nat) (s : string) : bool :=
  match as_bytes s !! n with Some b => negb (is_continuation b) | None => bool_decide (n = String.length s) end.
Definition truncate_reasoning (s : string) : Designated string :=
  if slen s <=? INTEGRATOR_DIGEST_FIELD_BYTES then Granted s else
  if is_char_boundary (Z.to_nat INTEGRATOR_DIGEST_FIELD_BYTES) s
  then Granted (String.substring 0 (Z.to_nat INTEGRATOR_DIGEST_FIELD_BYTES) s) else Panicked.
Definition causal_reasoning (oldest : Entry) (path : string) : string :=
  "causally older accepted state selected: author '" +:+ pr_agent oldest.2 +:+ "' intent "
  +:+ pr_intent_message_id oldest.2 +:+ " (sequence " +:+ pretty (pr_sequence oldest.2)
  +:+ ") is an ancestor of every other eligible accepted proposal for '" +:+ path +:+ "'".
Definition fallback_reasoning (owner path : string) : string :=
  "no strictly-older eligible author under the transitive causal closure for '" +:+ path
  +:+ "' (concurrent or equal bases); auditable ffint1 fallback draw over the eligible roster selected '" +:+ owner +:+ "'".

Section designation.
Context `{Unicode, Blake3, IntegratorJson}.

(** What the code reads on the way; each read may fail. *)
Record Sources := mkSources {
  so_work : Result WorkStateFile;
  so_jobs : Result ResolutionStateFile;
  so_assignment_id : Result string;
  so_nonce : Result string;
  so_head : Result (option string);
}.

Definition refuse_on_active_assignment (jobs : Result ResolutionStateFile) (path : string) : Designated unit :=
  state ← or_refuse ProjectionIncomplete jobs;
  require (negb (existsb (λ r, bool_decide (pj_path r = path) && negb (pj_terminal r)) (rs_jobs state))) ActiveAssignmentExists.

(** The accepted records that cover the path and whose authors are capable and available. *)
Definition eligible_roster (tasks : list WorkTaskRecord) (path : string) : Designated (list Entry) :=
  let accepted := accepted_entries tasks in
  _ ← require (negb (bool_decide (length accepted = 0%nat))) NoRoster;
  let covering := List.filter (λ e : Entry, scope_covers_path (pr_scope e.2) path) accepted in
  _ ← require (negb (bool_decide (length covering = 0%nat))) NoCapableRoster;
  let eligible := List.filter (eligible_entry tasks) covering in
  _ ← require (negb (bool_decide (length eligible = 0%nat))) NoCapableRoster;
  mret eligible.

Definition causal_designation (assignment_id path : string) (eligible : list Entry) (roster : list string) (oldest : Entry)
    : Designated OwnerDesignation :=
  reasoning ← truncate_reasoning (causal_reasoning oldest path);
  mret (mkOwnerDesignation (pr_agent oldest.2) OmCausalEligible assignment_id 0 (Some oldest.1)
          (dedup (sort_strings ((λ e : Entry, pr_intent_message_id e.2) <$> eligible)))
          (mkEngineEvidence None None roster [] 0 reasoning None (Some (pr_intent_message_id oldest.2))
             (Some (pr_sequence oldest.2)))).
Definition fallback_designation (workspace_id assignment_id path task : string) (roster : list string) (s : Sources)
    : Designated OwnerDesignation :=
  fingerprint ← or_refuse NoRoster (roster_fingerprint roster);
  nonce ← or_refuse NoRoster (so_nonce s);
  head ← or_refuse NoRoster (so_head s);
  about ← or_refuse NoRoster (or_context head "workspace head disappeared before the fallback draw");
  ranked ← or_refuse NoRoster (rank_candidates workspace_id about assignment_id nonce fingerprint roster);
  match ranked with
  | [] => Panicked
  | owner :: _ =>
      reasoning ← truncate_reasoning (fallback_reasoning owner path);
      mret (mkOwnerDesignation owner OmIntegratorFallback assignment_id 0 (Some task) []
              (mkEngineEvidence (Some nonce) (Some fingerprint) roster ranked 0 reasoning
                 (Some (mkIntegratorDraw assignment_id nonce about fingerprint ranked false roster)) None None))
  end.

Definition designate_conflict_owner (workspace_id path : string) (s : Sources) : Designated OwnerDesignation :=
  _ ← require (is_safe_rel_path path) NoRoster;
  state ← or_refuse ProjectionIncomplete (so_work s);
  _ ← require (negb (ws_incomplete state)) ProjectionIncomplete;
  _ ← refuse_on_active_assignment (so_jobs s) path;
  eligible ← eligible_roster (ws_tasks state) path;
  match single_task None eligible with
  | None => Refused NoCapableRoster
  | Some None => Panicked
  | Some (Some task) =>
      let authors := distinct_authors eligible in
      let roster := dedup (sort_strings ((λ e : Entry, pr_agent e.2) <$> authors)) in
      _ ← require (zlen roster <=? INTEGRATOR_MAX_CANDIDATES) NoRoster;
      assignment_id ← or_refuse NoRoster (so_assignment_id s);
      let ancestry := ancestry_new (concat (tk_proposals <$> ws_tasks state)) in
      match strictly_oldest_author ancestry authors with
      | Some oldest => causal_designation assignment_id path eligible roster oldest
      | None => fallback_designation workspace_id assignment_id path task roster s
      end
  end.
End designation.
