(* ===== verification/DesignationProps.v ===== *)
(** * Conflict owner designation: what the walk finds and who is designated *)
From Stdlib Require Import ZArith Lia Ascii Strings.Byte.
From stdpp Require Import sorting numbers strings gmap list_numbers list pretty options.
From S2P Require Import Prelude Text Paths Model WorkContract AgentContract WorkReducer IntegratorContract.
From S2P Require Import IntegratorSelection ResolutionContract ResolutionStore ResolutionIdentity Designation.

Local Open Scope Z_scope.

(** ** The walk *)
Definition refers (a : CausalAncestry) (x y : string) : Prop := y ∈ concat (recorded_causal_refs <$> by_message a x).
Definition names (r : WorkProposalRecord) (x : string) : Prop := x = pr_intent_message_id r ∨ x = pr_source_message_id r.

Lemma names_bool r x :
  bool_decide (x = pr_intent_message_id r) || bool_decide (x = pr_source_message_id r) = true ↔ names r x.
Proof. unfold names. rewrite orb_true_iff, !bool_decide_eq_true. done. Qed.
Lemma scan_found a older V N F : scan_frontier a older V N F = None → ∃ y, y ∈ F ∧ names older y.
Proof.
  revert V N. induction F as [|x F IH]; intros V N; simpl; [done|]. case_decide as Hv.
  - intros (y & Hy & Ht)%IH. exists y. split; [by right|done].
  - destruct (_ || _) eqn:Hb; [intros _; exists x; split; [left|by apply names_bool]|].
    intros (y & Hy & Ht)%IH. exists y. split; [by right|done].
Qed.
Lemma scan_level a older V N F V' N' :
  scan_frontier a older V N F = Some (V', N') →
  (∀ v, v ∈ V' ↔ v ∈ V ∨ v ∈ F) ∧ (∀ y, y ∈ N → y ∈ N')
  ∧ (∀ x, x ∈ F → x ∉ V → ¬ names older x ∧ ∀ y, refers a x y → y ∈ N')
  ∧ (∀ y, y ∈ N' → y ∈ N ∨ ∃ x, x ∈ F ∧ refers a x y).
Proof.
  revert V N. induction F as [|x F IH]; intros V N; simpl.
  { intros [= <- <-]. split; [set_solver|]. split; [done|]. split; [set_solver|by left]. }
  case_decide as Hv.
  - intros (H1 & H2 & H3 & H4)%IH. split; [|split; [done|split]].
    + intros v. rewrite H1. set_solver.
    + intros z [->|Hz]%elem_of_cons Hnv; [done|by apply H3].
    + intros y Hy. destruct (H4 y Hy) as [?|(z & Hz & Hr)]; [by left|right]. exists z. split; [by right|done].
  - destruct (_ || _) eqn:Hb; [done|]. intros (H1 & H2 & H3 & H4)%IH. split; [|split; [|split]].
    + intros v. rewrite H1, elem_of_cons. set_solver.
    + intros y Hy. apply H2, elem_of_app. by left.
    + intros z [->|Hz]%elem_of_cons Hnv.
      * split; [rewrite <-names_bool; by rewrite Hb|]. intros y Hr. apply H2, elem_of_app. by right.
      * destruct (decide (z = x)) as [->|Hzx]; [|apply H3; [done|set_solver]].
        split; [rewrite <-names_bool; by rewrite Hb|]. intros y Hr. apply H2, elem_of_app. by right.
    + intros y Hy. destruct (H4 y Hy) as [[Hn|Hn]%elem_of_app|(z & Hz & Hr)]; [by left| |].
      * right. exists x. split; [left|done].
      * right. exists z. split; [by right|done].
Qed.

Lemma walk_sound a older d V F :
  walk_ancestry a older d V F = true → ∃ k x y, (k < d)%nat ∧ x ∈ F ∧ nsteps (refers a) k x y ∧ names older y.
Proof.
  revert V F. induction d as [|d IH]; intros V F; simpl; [done|]. destruct F as [|f F']; [done|]. set (F := f :: F').
  destruct (scan_frontier a older V [] F) as [[V' N']|] eqn:Hs.
  - intros (k & x & y & Hk & Hx & Hn & Ht)%IH. apply scan_level in Hs as (_ & _ & _ & H4).
    destruct (H4 x Hx) as [?%not_elem_of_nil|(z & Hz & Hr)]; [done|]. exists (S k), z, y.
    split; [lia|]. split; [done|]. split; [by econstructor|done].
  - intros _. apply scan_found in Hs as (y & Hy & Ht). exists 0%nat, y, y. split; [lia|]. split; [done|]. split; [constructor|done].
Qed.

(** Nothing visited is a target, and what it refers to is visited or about to be. *)
Definition closed_walk (a : CausalAncestry) (older : WorkProposalRecord) (V : gset string) (F : list string) : Prop :=
  ∀ v, v ∈ V → ¬ names older v ∧ ∀ y, refers a v y → y ∈ V ∨ y ∈ F.
Lemma chain_from_frontier a older V F k x y :
  closed_walk a older V F → x ∈ V ∨ x ∈ F → nsteps (refers a) k x y → names older y →
  ∃ k' x', (k' ≤ k)%nat ∧ x' ∈ F ∧ x' ∉ V ∧ nsteps (refers a) k' x' y.
Proof.
  intros Hcl. revert x. induction k as [|k IH]; intros x Hx Hn Ht.
  - inversion Hn; subst. exists 0%nat, y. destruct (decide (y ∈ V)) as [Hv|Hv].
    + by destruct (Hcl y Hv).
    + split; [done|]. split; [by destruct Hx|]. split; [done|constructor].
  - destruct (decide (x ∈ V)) as [Hv|Hv].
    + inversion Hn as [|? ? x1 ? Hr Hn']; subst. destruct (Hcl x Hv) as [_ Hs].
      destruct (IH x1 (Hs x1 Hr) Hn' Ht) as (k' & x' & Hk & ?). exists k', x'. split; [lia|done].
    + exists (S k), x. split; [done|]. split; [by destruct Hx|done].
Qed.
Lemma ancestry_complete a older d V F k x y :
  closed_walk a older V F → (k < d)%nat → x ∈ F → nsteps (refers a) k x y → names older y →
  walk_ancestry a older d V F = true.
Proof.
  revert V F k x. induction d as [|d IH]; intros V F k0 x0 Hcl Hk Hx Hn Ht; [lia|]. simpl.
  destruct (chain_from_frontier a older V F k0 x0 y Hcl (or_intror Hx) Hn Ht) as (k & x & Hle & Hx' & Hv & Hn').
  destruct F as [|f F']; [by apply not_elem_of_nil in Hx'|]. set (F := f :: F') in *.
  destruct (scan_frontier a older V [] F) as [[V' N']|] eqn:Hs; [|done].
  apply scan_level in Hs as (H1 & _ & H3 & _). destruct (H3 x Hx' Hv) as [Hnt Hsucc].
  inversion Hn' as [|n ? x1 ? Hr Hn1]; subst; [done|]. eapply (IH V' N' n x1); [|lia|by apply Hsucc|done|done].
  intros v [Hin|Hin]%H1.
  - destruct (Hcl v Hin) as [? Hs']. split; [done|]. intros z Hz. left. apply H1. by destruct (Hs' z Hz); [left|right].
  - destruct (decide (v ∈ V)) as [Hvv|Hvv].
    + destruct (Hcl v Hvv) as [? Hs']. split; [done|]. intros z Hz. left. apply H1. by destruct (Hs' z Hz); [left|right].
    + destruct (H3 v Hin Hvv) as [? Hs']. split; [done|]. intros z Hz. right. by apply Hs'.
Qed.

(** C23. One accepted record counts as causally older than another exactly when fewer than 32
    steps along recorded references lead from the newer one's references to a message of the
    older one; the walk always ends, also where references form a cycle. *)
Theorem causal_walk_exact a older newer :
  causally_references a older newer = true ↔
  ∃ k x y, (k < DESIGNATION_MAX_CAUSAL_DEPTH)%nat ∧ x ∈ recorded_causal_refs newer ∧ nsteps (refers a) k x y ∧ names older y.
Proof.
  unfold causally_references. split; [apply walk_sound|]. intros (k & x & y & Hk & Hx & Hn & Ht).
  by eapply ancestry_complete; [intros v ?%not_elem_of_empty| | | |].
Qed.

(** ** The roster *)

(** An accepted record of the task that covers the path, of an author who is capable and neither
    yielded nor is blocked in that task. *)
Definition eligible_work (tasks : list WorkTaskRecord) (path task : string) (p : WorkProposalRecord) : Prop :=
  (∃ t, t ∈ tasks ∧ tk_task_id t = task ∧ p ∈ tk_proposals t)
  ∧ pr_state p = Accepted ∧ scope_covers_path (pr_scope p) path = true ∧ record_capabilities_valid p = true
  ∧ ∀ t q, t ∈ tasks → tk_task_id t = task → q ∈ tk_proposals t → pr_agent q = pr_agent p →
      pr_state q ≠ Yielded ∧ pr_state q ≠ Blocked.

Lemma yielded_spec tasks task agent :
  agent_yielded_or_blocked_in_task tasks task agent = false ↔
  ∀ t q, t ∈ tasks → tk_task_id t = task → q ∈ tk_proposals t → pr_agent q = agent → pr_state q ≠ Yielded ∧ pr_state q ≠ Blocked.
Proof.
  unfold agent_yielded_or_blocked_in_task. rewrite <-not_true_iff_false, existsb_exists. split.
  - intros Hno t q Ht Htask Hq Ha. assert (yielded_or_blocked (pr_state q) = false) as Hy.
    { apply not_true_iff_false. intros Hy. apply Hno. exists t. split; [by apply list_elem_of_In|].
      rewrite bool_decide_true by done. apply existsb_exists. exists q. split; [by apply list_elem_of_In|].
      by rewrite bool_decide_true. }
    by destruct (pr_state q).
  - intros Hall (t & Ht%list_elem_of_In & Hb). apply andb_true_iff in Hb as [Htask Hb]. apply bool_decide_eq_true in Htask.
    apply existsb_exists in Hb as (q & Hq%list_elem_of_In & Hb). apply andb_true_iff in Hb as [Ha Hs].
    apply bool_decide_eq_true in Ha. destruct (Hall t q Ht Htask Hq Ha). by destruct (pr_state q).
Qed.
Lemma filter_elem {A} (f : A → bool) l x : x ∈ List.filter f l ↔ x ∈ l ∧ f x = true.
Proof. by rewrite !list_elem_of_In, List.filter_In. Qed.
Lemma accepted_elem tasks task p :
  (task, p) ∈ accepted_entries tasks ↔ (∃ t, t ∈ tasks ∧ tk_task_id t = task ∧ p ∈ tk_proposals t) ∧ pr_state p = Accepted.
Proof.
  unfold accepted_entries. rewrite list_elem_of_In, in_concat. split.
  - intros (l & Hl & Hp). apply list_elem_of_In, list_elem_of_fmap in Hl as (t & -> & Ht).
    apply list_elem_of_In, list_elem_of_fmap in Hp as (q & [= -> ->] & Hq).
    apply filter_elem in Hq as [Hq Hs]. apply bool_decide_eq_true in Hs. eauto.
  - intros [(t & Ht & <- & Hp) Hs]. eexists. split; [apply list_elem_of_In, list_elem_of_fmap; exists t; split; [done|exact Ht]|].
    apply list_elem_of_In, list_elem_of_fmap. exists p. split; [done|]. apply filter_elem. by rewrite bool_decide_true.
Qed.
Lemma require_Granted b k u : require b k = Granted u → b = true.
Proof. by destruct b. Qed.
Lemma designated_bind_Granted {A B} (m : Designated A) (f : A → Designated B) b :
  m ≫= f = Granted b → ∃ a, m = Granted a ∧ f a = Granted b.
Proof. destruct m as [a| |]; [|done|done]. intros Hf. by exists a. Qed.
Lemma or_refuse_Granted {A} k (r : Result A) a : or_refuse k r = Granted a → r = Ok a.
Proof. destruct r; [|done]. by intros [= ->]. Qed.

Lemma roster_elem tasks path eligible :
  eligible_roster tasks path = Granted eligible →
  eligible ≠ [] ∧ ∀ task p, (task, p) ∈ eligible ↔ eligible_work tasks path task p.
Proof.
  unfold eligible_roster. intros He. do 2 (apply designated_bind_Granted in He as (_ & _ & He)).
  apply designated_bind_Granted in He as (u & Hne & He). apply require_Granted in Hne. injection He as <-.
  split; [intros Hnil; by rewrite Hnil in Hne|]. intros task p. rewrite !filter_elem, accepted_elem. unfold eligible_entry. simpl.
  rewrite andb_true_iff, negb_true_iff, yielded_spec. unfold eligible_work. tauto.
Qed.
Lemma single_task_spec l task task' : single_task task l = Some (Some task') →
  (∀ e, e ∈ l → e.1 = task') ∧ (∀ t, task = Some t → t = task').
Proof.
  revert task. induction l as [|e l IH]; intros task; simpl.
  - intros [= ->]. split; [by intros e ?%not_elem_of_nil|by intros t [= ->]].
  - destruct task as [t|].
    + case_bool_decide as Ht; [|done]. intros [H1 H2]%IH. specialize (H2 t eq_refl). subst. split; [|by intros t [= <-]].
      intros e' [->|Hin]%elem_of_cons; [done|by apply H1].
    + intros [H1 H2]%IH. specialize (H2 _ eq_refl). split; [|done]. intros e' [->|Hin]%elem_of_cons; [done|by apply H1].
Qed.
Lemma single_task_nonempty l task : l ≠ [] → single_task task l ≠ Some None.
Proof.
  assert (∀ t, single_task (Some t) l ≠ Some None) as Hsome.
  { induction l as [|e l IH]; intros t; simpl; [done|]. case_bool_decide; [apply IH|done]. }
  intros Hne. destruct task as [t|]; [apply Hsome|]. destruct l as [|e l]; [done|]. simpl in *.
  specialize (Hsome e.1). by rewrite bool_decide_true in Hsome.
Qed.

Definition entry_agent (e : Entry) : string := pr_agent e.2.
Lemma push_author_fold l out :
  NoDup (entry_agent <$> out) →
  let authors := foldl push_author out l in
  NoDup (entry_agent <$> authors) ∧ (∀ e, e ∈ authors → e ∈ out ∨ e ∈ l)
  ∧ ∀ e, e ∈ out ∨ e ∈ l → pr_agent e.2 ∈ entry_agent <$> authors.
Proof.
  revert out. induction l as [|x l IH]; intros out Hn; simpl.
  { split; [done|]. split; [by left|]. intros e [He|He%not_elem_of_nil]; [|done]. apply list_elem_of_fmap. eauto. }
  set (out' := push_author out x).
  assert (NoDup (entry_agent <$> out') ∧ (∀ e, e ∈ out' → e ∈ out ∨ e = x)
    ∧ (∀ e, e ∈ out → e ∈ out') ∧ pr_agent x.2 ∈ entry_agent <$> out') as (Hn' & H1 & H2 & H3).
  { unfold out', push_author. match goal with |- context [existsb ?f out] => destruct (existsb f out) eqn:Hb end.
    - split; [done|]. split; [by left|]. split; [done|]. apply existsb_exists in Hb as (o & Ho%list_elem_of_In & Hb).
      apply bool_decide_eq_true in Hb. apply list_elem_of_fmap. exists o. split; [done|done].
    - split; [|split; [|split]].
      + rewrite fmap_app. apply NoDup_app. split; [done|]. split; [|apply NoDup_singleton].
        intros a Ha ->%list_elem_of_singleton. apply list_elem_of_fmap in Ha as (o & Ho & Hin).
        apply not_true_iff_false in Hb. apply Hb, existsb_exists. exists o. split; [by apply list_elem_of_In|]. by apply bool_decide_eq_true.
      + intros e [He|He%list_elem_of_singleton]%elem_of_app; [by left|by right].
      + intros e He. apply elem_of_app. by left.
      + rewrite fmap_app. apply elem_of_app. right. by left. }
  destruct (IH out' Hn') as (H4 & H5 & H6). split; [done|]. split.
  - intros e He. destruct (H5 e He) as [Ho|Ho]; [|right; by right]. destruct (H1 e Ho) as [?| ->]; [by left|right; left].
  - intros e [He|He]; [apply H6; left; by apply H2|]. apply elem_of_cons in He as [->|He]; [|apply H6; by right].
    apply list_elem_of_fmap in H3 as (o & -> & Ho). apply H6. by left.
Qed.
Lemma authors_spec l :
  let authors := distinct_authors l in
  NoDup (entry_agent <$> authors) ∧ (∀ e, e ∈ authors → e ∈ l)
  ∧ ∀ name, name ∈ entry_agent <$> authors ↔ name ∈ entry_agent <$> l.
Proof.
  destruct (push_author_fold l [] ltac:(constructor)) as (H1 & H2 & H3). cbv zeta in *. fold (distinct_authors l) in *.
  assert (∀ e, e ∈ distinct_authors l → e ∈ l) as Hsub by (intros e He; by destruct (H2 e He) as [?%not_elem_of_nil|]).
  split; [done|]. split; [done|]. intros name. rewrite !list_elem_of_fmap. split.
  - intros (e & -> & He). eauto.
  - intros (e & -> & He). by apply list_elem_of_fmap, H3; right.
Qed.

(** ** The oldest author *)
Lemma oldest_loop_Some a l oldest todo e :
  oldest_loop a l oldest todo = Some e → oldest = Some e ∨ ∃ i, (i, e) ∈ todo ∧ older_than_all a l i e = true.
Proof.
  revert oldest. induction todo as [|[i c] todo IH]; intros oldest; simpl; [by left|].
  destruct (older_than_all a l i c) eqn:Ho.
  - destruct oldest; [done|]. intros [[= ->]|(j & Hj & ?)]%IH; right; [exists i; split; [left|done]|exists j; split; [by right|done]].
  - intros [?|(j & Hj & ?)]%IH; [by left|right]. exists j. split; [by right|done].
Qed.
Lemma imap_pair_elem {A} (l : list A) i x : (i, x) ∈ imap pair l ↔ l !! i = Some x.
Proof.
  rewrite list_elem_of_lookup. setoid_rewrite list_lookup_imap_Some. split.
  - intros (j & y & Hy & [= -> ->]). done.
  - intros Hi. exists i, x. done.
Qed.
Lemma oldest_spec a l e :
  strictly_oldest_author a l = Some e →
  ∃ i, l !! i = Some e ∧ ∀ j o, l !! j = Some o → j ≠ i → causally_references a e.2 o.2 = true.
Proof.
  unfold strictly_oldest_author. destruct l as [|x [|y l]]; [done|intros [= <-]; exists 0%nat; split; [done|]|].
  - intros [|j] o Ho; [done|]. by destruct j.
  - set (all := x :: y :: l). intros [?|(i & Hi & Ho)]%oldest_loop_Some; [done|]. exists i.
    split; [by apply imap_pair_elem|]. intros j o Hj Hne. unfold older_than_all in Ho. rewrite forallb_forall in Ho.
    specialize (Ho (j, o)). apply orb_true_iff in Ho as [Hb|Hb]; [by apply bool_decide_eq_true in Hb|done|].
    by apply list_elem_of_In, imap_pair_elem.
Qed.

Lemma sorted_dedup_spec l : StronglySorted str_lt (dedup (sort_strings l)) ∧ ∀ x, x ∈ dedup (sort_strings l) ↔ x ∈ l.
Proof.
  split; [apply dedup_sorted, (sort_by_sorted id)|]. intros x. rewrite dedup_elem. unfold sort_strings. by rewrite sort_by_perm.
Qed.

(** ** The designation *)
Section exact.
Context `{Unicode, Blake3, IntegratorJson}.

(** What a designation records of the roster it was made from. *)
Record designation_ok (path : string) (s : Sources) (state : WorkStateFile) (d : OwnerDesignation) : Prop := {
  do_roster name : name ∈ en_eligible (od_evidence d) ↔
    ∃ task p, eligible_work (ws_tasks state) path task p ∧ pr_agent p = name;
  do_sorted : StronglySorted str_lt (en_eligible (od_evidence d));
  do_bound : zlen (en_eligible (od_evidence d)) ≤ INTEGRATOR_MAX_CANDIDATES;
  do_owner : od_owner d ∈ en_eligible (od_evidence d);
  do_task : ∃ task, od_task_id d = Some task ∧ ∀ task' p, eligible_work (ws_tasks state) path task' p → task' = task;
  do_method : match od_method d with
    | OmCausalEligible =>
        (∃ task p, eligible_work (ws_tasks state) path task p ∧ pr_agent p = od_owner d
           ∧ ∀ name, name ∈ en_eligible (od_evidence d) → name ≠ od_owner d →
               ∃ q, eligible_work (ws_tasks state) path task q ∧ pr_agent q = name
                 ∧ causally_references (ancestry_new (concat (tk_proposals <$> ws_tasks state))) p q = true)
        ∧ ∀ id, id ∈ od_intent_message_ids d ↔
            ∃ task p, eligible_work (ws_tasks state) path task p ∧ pr_intent_message_id p = id
    | OmIntegratorFallback =>
        en_ranked (od_evidence d) ≡ₚ en_eligible (od_evidence d) ∧ head (en_ranked (od_evidence d)) = Some (od_owner d)
        ∧ (∃ nonce, en_nonce (od_evidence d) = Some nonce ∧ so_nonce s = Ok nonce)
        ∧ od_intent_message_ids d = []
    end;
}.

Lemma causal_designation_ok path s state eligible task d id oldest :
  (∀ task p, (task, p) ∈ eligible ↔ eligible_work (ws_tasks state) path task p) →
  (∀ e, e ∈ eligible → e.1 = task) →
  let roster := dedup (sort_strings (entry_agent <$> distinct_authors eligible)) in
  zlen roster ≤ INTEGRATOR_MAX_CANDIDATES →
  strictly_oldest_author (ancestry_new (concat (tk_proposals <$> ws_tasks state))) (distinct_authors eligible) = Some oldest →
  causal_designation id path eligible roster oldest = Granted d →
  designation_ok path s state d.
Proof.
  intros Hel Htask roster Hb Hold Hd. apply oldest_spec in Hold as (i & Hi & Hall).
  destruct (authors_spec eligible) as (Hnd & Hsub & Hag). destruct (sorted_dedup_spec (entry_agent <$> distinct_authors eligible)) as [Hs He].
  assert (∀ name, name ∈ roster ↔ ∃ task p, eligible_work (ws_tasks state) path task p ∧ pr_agent p = name) as Hroster.
  { intros name. unfold roster. rewrite He, Hag, list_elem_of_fmap. split.
    - intros ([t p] & -> & Hin). exists t, p. by rewrite <-Hel.
    - intros (t & p & Hp & <-). exists (t, p). by rewrite Hel. }
  assert (oldest ∈ distinct_authors eligible) as Hin by (by eapply list_elem_of_lookup_2).
  unfold causal_designation in Hd. apply designated_bind_Granted in Hd as (reasoning & _ & Hd). injection Hd as <-.
  destruct oldest as [t p]. pose proof (Htask _ (Hsub _ Hin)) as Ht. simpl in Ht. subst t.
  assert (eligible_work (ws_tasks state) path task p) as Hp by (apply Hel; by apply Hsub).
  split; simpl; [done|done|done|apply Hroster; eauto| |].
  - exists task. split; [done|]. intros task' q Hq. by apply (Htask (task', q)), Hel.
  - split.
    + exists task, p. split; [done|]. split; [done|]. intros name Hname Hne. unfold roster in Hname.
      apply He, list_elem_of_fmap in Hname as ([t q] & -> & Hq). pose proof (Htask _ (Hsub _ Hq)) as Ht. simpl in Ht. subst t.
      exists q. split; [apply Hel; by apply Hsub|]. split; [done|]. apply list_elem_of_lookup in Hq as [j Hj].
      apply (Hall j (task, q) Hj). intros ->. rewrite Hi in Hj. injection Hj as <-. done.
    + intros mid. rewrite (proj2 (sorted_dedup_spec _)), list_elem_of_fmap. split.
      * intros ([t q] & -> & Hq). exists t, q. by rewrite <-Hel.
      * intros (t & q & Hq & <-). exists (t, q). by rewrite Hel.
Qed.
Lemma fallback_designation_ok path s state eligible task d ws id :
  (∀ task p, (task, p) ∈ eligible ↔ eligible_work (ws_tasks state) path task p) →
  (∀ e, e ∈ eligible → e.1 = task) →
  let roster := dedup (sort_strings (entry_agent <$> distinct_authors eligible)) in
  zlen roster ≤ INTEGRATOR_MAX_CANDIDATES →
  fallback_designation ws id path task roster s = Granted d →
  designation_ok path s state d.
Proof.
  intros Hel Htask roster Hb Hd.
  destruct (authors_spec eligible) as (Hnd & Hsub & Hag). destruct (sorted_dedup_spec (entry_agent <$> distinct_authors eligible)) as [Hs He].
  unfold fallback_designation in Hd. apply designated_bind_Granted in Hd as (fp & _ & Hd).
  apply designated_bind_Granted in Hd as (nonce & Hnonce & Hd). apply or_refuse_Granted in Hnonce.
  do 2 (apply designated_bind_Granted in Hd as (? & _ & Hd)). apply designated_bind_Granted in Hd as (ranked & Hr & Hd).
  apply or_refuse_Granted, rank_candidates_perm in Hr as [Hp _]. destruct ranked as [|owner ranked]; [done|].
  apply designated_bind_Granted in Hd as (reasoning & _ & Hd). injection Hd as <-. split; simpl; [|done|done| | |by eauto 10].
  - intros name. unfold roster. rewrite He, Hag, list_elem_of_fmap. split.
    + intros ([t p] & -> & Hin). exists t, p. by rewrite <-Hel.
    + intros (t & p & Hp' & <-). exists (t, p). by rewrite Hel.
  - rewrite <-Hp. left.
  - exists task. split; [done|]. intros task' q Hq. by apply (Htask (task', q)), Hel.
Qed.

(** No unfinished job exists for the path where an owner is designated. *)
Lemma designation_jobs ws path s d :
  designate_conflict_owner ws path s = Granted d →
  ∃ jobs, so_jobs s = Ok jobs ∧ ∀ r, r ∈ rs_jobs jobs → pj_path r = path → pj_terminal r = true.
Proof.
  unfold designate_conflict_owner. intros Hd. do 3 (apply designated_bind_Granted in Hd as (? & _ & Hd)).
  apply designated_bind_Granted in Hd as (u' & Hj & _). apply designated_bind_Granted in Hj as (jobs & Hjobs & Hj).
  apply or_refuse_Granted in Hjobs. apply require_Granted, negb_true_iff in Hj. exists jobs. split; [done|].
  intros r Hr Hp. apply not_true_iff_false in Hj. destruct (pj_terminal r) eqn:Ht; [done|]. destruct Hj.
  apply existsb_exists. exists r. split; [by apply list_elem_of_In|]. rewrite bool_decide_true by done. by rewrite Ht.
Qed.

(** An owner is designated only from a complete work projection and while no unfinished job
    exists for the path. The roster recorded as evidence is exactly the authors of accepted work
    covering the path who are capable and neither yielded nor are blocked, sorted and at most 64;
    all of it belongs to the one task recorded; the owner is on it; and either the owner's record
    is causally older than a record of every other author, or the owner leads a ranking of the
    roster. *)
Theorem designation_exact ws path s d :
  designate_conflict_owner ws path s = Granted d →
  ∃ state jobs, so_work s = Ok state ∧ ws_incomplete state = false ∧ so_jobs s = Ok jobs
    ∧ (∀ r, r ∈ rs_jobs jobs → pj_path r = path → pj_terminal r = true) ∧ designation_ok path s state d.
Proof.
  intros Hd. destruct (designation_jobs ws path s d Hd) as (jobs & Hjobs & Hj). revert Hd.
  unfold designate_conflict_owner. intros Hd. apply designated_bind_Granted in Hd as (_ & _ & Hd).
  apply designated_bind_Granted in Hd as (state & Hw & Hd). apply or_refuse_Granted in Hw.
  apply designated_bind_Granted in Hd as (u & Hc & Hd). apply require_Granted, negb_true_iff in Hc.
  apply designated_bind_Granted in Hd as (u' & _ & Hd).
  apply designated_bind_Granted in Hd as (eligible & He & Hd). apply roster_elem in He as [Hne Hel].
  exists state, jobs. split; [done|]. split; [done|]. split; [done|]. split; [exact Hj|].
  destruct (single_task None eligible) as [[task|]|] eqn:Hs; [|done|done]. apply single_task_spec in Hs as [Htask _].
  apply designated_bind_Granted in Hd as (u2 & Hb & Hd). apply require_Granted, Z.leb_le in Hb.
  apply designated_bind_Granted in Hd as (id & _ & Hd). destruct (strictly_oldest_author _ _) as [oldest|] eqn:Hold.
  - by eapply causal_designation_ok.
  - by eapply fallback_designation_ok.
Qed.
End exact.

(** ** A designation *)
#[local] Instance designation_unicode : Unicode := ascii_unicode.
#[local] Instance designation_blake3 : Blake3 := sample_blake3.
#[local] Instance designation_json : IntegratorJson :=
  {| integrator_to_string _ := ""; integrator_from_str _ := None; names_to_string := String.concat "," |}.
Definition sample_proposal (agent intent : string) (base : option string) (path : string) : WorkProposalRecord :=
  mkWorkProposalRecord agent 1 intent None base (mkWorkScope [path] [] []) (mkWorkScope [path] [] []) ["rust"] Accepted None []
    [] [] None None None None intent None 0.
Definition sample_sources (path : string) : Sources :=
  mkSources
    (Ok (mkWorkStateFile WORK_STATE_SCHEMA_VERSION None false
           [mkWorkTaskRecord "task" [sample_proposal "bob" (hex64 "2") (Some (hex64 "1")) path;
                                     sample_proposal "ann" (hex64 "1") None path;
                                     sample_proposal "cid" (hex64 "3") (Some (hex64 "2")) path] 0]
           [] [] [] [] 0 0))
    (Ok fresh_store) (Ok (hex32 "5")) (Ok (hex64 "6")) (Ok (Some (hex64 "a"))).
Definition granted {A} (default : A) (d : Designated A) : A := match d with Granted a => a | _ => default end.
Definition no_designation : OwnerDesignation :=
  mkOwnerDesignation "" OmCausalEligible "" 0 None [] (mkEngineEvidence None None [] [] 0 "" None None None).
Definition sample_designation : OwnerDesignation :=
  granted no_designation (designate_conflict_owner "ws" "src/main.rs" (sample_sources "src/main.rs")).

(** The statement applied to three authors, the oldest of whom is reached in two steps from the newest. *)
Lemma designation_exact_witness :
  od_owner sample_designation = "ann" ∧ od_method sample_designation = OmCausalEligible
  ∧ ∃ state, designation_ok "src/main.rs" (sample_sources "src/main.rs") state sample_designation.
Proof.
  split; [vm_compute; reflexivity|]. split; [vm_compute; reflexivity|].
  destruct (designation_exact "ws" "src/main.rs" (sample_sources "src/main.rs") sample_designation)
    as (state & jobs & _ & _ & _ & _ & Hok); [vm_compute; reflexivity|].
  exists state. exact Hok.
Defined.

(** A path of 408 bytes, most of them in two-byte characters. *)
Definition accented : string := of_bytes (concat (replicate 100 [xc3; xa9])).
Definition long_path : string := "a/" +:+ accented +:+ "/" +:+ accented +:+ "/f.rs".
(** The reasoning of a designation is cut at 512 bytes without regard to characters: for this
    acceptable path, with three eligible authors, the designation panics. *)
Theorem designation_panics :
  is_safe_rel_path long_path = true ∧ is_utf8 long_path = true
  ∧ designate_conflict_owner "ws" long_path (sample_sources long_path) = Panicked.
Proof. split; [by vm_compute|]. split; [by vm_compute|]. by vm_compute. Qed.
