(* ===== verification/Resolution.v ===== *)
(** * Conflict resolution: the engine

    agent-core/src/resolution.rs, with the guarded publication of agent-core/src/snapshot.rs and the
    identities of agent-core/src/conflict_artifacts.rs: preparing a job for a conflict of the head,
    submitting a result or a human answer, applying it with one compare-and-swap of the head, and
    recovering a publication that a crash left uncertain. Other clients move the head between any
    two steps; any call may fail, and may fail after it took effect; the process may die at any
    step. All of it comes from a stream of answers, one for each question the code asks. *)
From Stdlib Require Import ZArith Lia Ascii Strings.Byte.
From stdpp Require Import sorting numbers strings gmap list_numbers list pretty options.
From S2P Require Import Prelude Text Paths Model WorkContract AgentContract WorkReducer IntegratorContract.
From S2P Require Import Integrator ResolutionContract ResolutionStore Designation.

Local Open Scope Z_scope.

(** ** Identities *)
Definition leg_descriptor (state : option FileState) : ConflictLegDescriptor :=
  match state with
  | None => mkLeg false false "" 0 0
  | Some f => mkLeg true (fs_deleted f) (fs_hash f) (fs_size f) (fs_mode f)
  end.
Record IdentityBinding := mkIdentityBinding {
  ib_task_id : option string; ib_intent_message_ids : list string; ib_assignment_id : option string;
  ib_attempt : option Z; ib_designated_owner : option string; ib_verification_policy : option string }.
(** The kind the caller passes is replaced by the one the legs give. *)
Definition conflict_identity_from_edit (workspace_id current_snapshot about_snapshot tree_root : string)
    (edit : ConcurrentEdit) (b : IdentityBinding) : ConflictIdentity :=
  let base := leg_descriptor (ce_base edit) in
  let ours := leg_descriptor (ce_ours edit) in
  let theirs := leg_descriptor (ce_theirs edit) in
  mkIdentity RESOLUTION_SCHEMA_VERSION workspace_id current_snapshot about_snapshot tree_root (ce_path edit) base ours theirs
    (derive_conflict_kind base ours theirs) (ib_task_id b) (dedup (sort_strings (ib_intent_message_ids b)))
    (ib_assignment_id b) (ib_attempt b) (ib_designated_owner b) (ib_verification_policy b).
Definition binding_of (i : ConflictIdentity) : IdentityBinding :=
  mkIdentityBinding (ci_task_id i) (ci_intent_message_ids i) (ci_assignment_id i) (ci_attempt i) (ci_designated_owner i)
    (ci_verification_policy i).

(** ** Inline verification *)
Definition join_comma (l : list string) : string := String.concat ", " l.
Definition outcome_debug (o : ResolutionOutcome) : string :=
  match o with
  | RoCandidateReady => "CandidateReady" | RoNoChangeRequired => "NoChangeRequired" | RoBlocked => "Blocked"
  | RoRequiresHuman => "RequiresHuman" | RoFailed => "Failed" | RoStale => "Stale"
  end.
Section verification.
Context `{Blake3}.
Definition path_allowed (job : ResolutionJob) : bool :=
  bool_decide (ci_path (rj_conflict job) ∈ rj_allowed_output_paths job).
Definition output_path_check (job : ResolutionJob) : VerificationCheck :=
  mkVerificationCheck "candidate_within_allowed_output_paths" (path_allowed job)
    (Some ("output path '" +:+ ci_path (rj_conflict job) +:+ "' within allowed outputs ["
           +:+ join_comma (rj_allowed_output_paths job) +:+ "]")).
Definition descriptor_check (job : ResolutionJob) (c : CandidateDescriptor) (passed : bool) : VerificationCheck :=
  mkVerificationCheck "candidate_descriptor_consistent" passed
    (Some ("descriptor path " +:+ ct_path c +:+ " equals the engine destination " +:+ cn_path (rj_candidate_destination job))).
Definition candidate_checks (job : ResolutionJob) (bytes : list byte) (c : CandidateDescriptor) : list VerificationCheck :=
  let consistent := bool_decide (ct_path c = cn_path (rj_candidate_destination job)) in
  if ct_deleted c then
    [mkVerificationCheck "candidate_bytes_match_descriptor"
       (bool_decide (bytes = []) && bool_decide (ct_hash c = "") && (ct_size c =? 0))
       (Some ("deleted candidate observed " +:+ pretty (zlen bytes) +:+ " bytes; descriptor carries no hash/size"));
     output_path_check job;
     mkVerificationCheck "candidate_size_bounded" (bool_decide (bytes = [])) (Some "deleted candidate must carry no bytes");
     descriptor_check job c consistent]
  else
    [mkVerificationCheck "candidate_bytes_match_descriptor"
       ((zlen bytes =? ct_size c) && bool_decide (hash_bytes bytes = ct_hash c))
       (Some ("observed " +:+ pretty (zlen bytes) +:+ " bytes hashing " +:+ hash_bytes bytes +:+ ", descriptor "
              +:+ pretty (ct_size c) +:+ " bytes hashing " +:+ ct_hash c));
     output_path_check job;
     mkVerificationCheck "candidate_size_bounded" (zlen bytes <=? RESOLUTION_MAX_CANDIDATE_BYTES)
       (Some (pretty (zlen bytes) +:+ " bytes within the " +:+ pretty RESOLUTION_MAX_CANDIDATE_BYTES +:+ " byte bound"));
     descriptor_check job c (consistent && ((ct_mode c =? 0) || (ct_mode c =? EXECUTABLE_MODE)) && negb (ct_deleted c))].
Definition check_passed (l : list VerificationCheck) (i : nat) : bool :=
  match l !! i with Some c => vc_passed c | None => false end.
(** The summary, or why the candidate is refused. *)
Definition inline_verify_candidate (job : ResolutionJob) (bytes : list byte) (c : CandidateDescriptor)
    : VerificationSummary + ResolutionStaleKind :=
  let checks := candidate_checks job bytes c in
  if forallb vc_passed checks then
    inl (mkVerificationSummary VsPassed "engine inline verification policy executed at submit"
      (Some RESOLUTION_VERIFICATION_POLICY_ID) 1 None [rj_job_id job; rj_conflict_fingerprint job]
      (Some (hash_bytes bytes)) checks)
  else inr (if ct_deleted c then SkCandidateSizeMismatch
            else if negb (check_passed checks 0) then SkCandidateHashMismatch
            else if negb (check_passed checks 2) then SkCandidateSizeMismatch
            else SkCandidatePathMismatch).
Definition inline_verify_no_candidate (job : ResolutionJob) (r : ResolutionResult) : VerificationSummary :=
  mkVerificationSummary (vs_status (rr_verification r))
    "engine inline verification policy executed at submit (no candidate bytes)" (Some RESOLUTION_VERIFICATION_POLICY_ID) 1
    None [rj_job_id job; rj_conflict_fingerprint job] None
    [mkVerificationCheck "no_candidate_required" true
       (Some ("outcome " +:+ outcome_debug (rr_outcome r) +:+ " carries no candidate bytes"))].
Definition candidate_matches_bytes (c : CandidateDescriptor) (bytes : list byte) : bool :=
  if ct_deleted c then bool_decide (bytes = []) else (ct_size c =? zlen bytes) && bool_decide (hash_bytes bytes = ct_hash c).
End verification.

(** ** The world *)
Record View := mkView { vw_root : string; vw_files : gmap string FileState; vw_conflicts : list ConcurrentEdit }.

(** [publish_once] passes no [manual_state] and no [additional] paths, which serve manual resolution. *)
Record ResolutionPublication := mkPublication {
  rp_identity : ConflictIdentity; rp_fingerprint : string; rp_candidate : option CandidateDescriptor;
  rp_candidate_file : option string; rp_expected_head : string; rp_author : string }.
(** A planned publication; the last three fields record what was planned. *)
Record PlannedResolutionPublication := mkPlanned {
  pp_expected_head : string; pp_candidate_id : string;
  pp_plan : ResolutionPublication; pp_before : View; pp_after : View }.
Record PublicationPendingJournal := mkJournal {
  jn_job_id : string; jn_expected_head : string; jn_planned_head : string; jn_result : ResolutionResult }.
Record HistoryRecord := mkHistory { hy_path : string; hy_method : string; hy_hash : option string; hy_resolver : string }.
#[global] Instance HistoryRecord_eq_dec : EqDecision HistoryRecord.
Proof. solve_decision. Defined.

(** What opening the candidate file gives. *)
Inductive CandidateOpen :=
  | OpenNotFound | OpenPermissionDenied | OpenSymlink | OpenInvalidType | OpenIo
  | Opened (bytes : list byte) (mode nlink : Z) (length : Z).   (* length: of the metadata *)
Inductive EngineError := EStale (kind : ResolutionStaleKind) | ELostCas | EOther (e : string).
Inductive Outcome (A : Type) := Done (a : A) | Failed (e : EngineError) | Died.
Arguments Done {A} a.
Arguments Failed {A} e.
Arguments Died {A}.

Record EngineAnswer := mkEngineAnswer {
  ea_dies : bool;                        (* the process dies here *)
  ea_fails : bool;                       (* the call returns an error *)
  ea_applied : bool;                     (* and took effect nevertheless *)
  ea_head : option (option string);      (* another client moved the head *)
  ea_views : list (string * View);       (* snapshots others wrote *)
  ea_now : Z;
  ea_random : list byte;
  ea_snapshot_id : string;               (* the id of a snapshot written *)
  ea_root : string;                      (* the root of the tree written *)
  ea_candidate : CandidateOpen;
  ea_pending : bool;                     (* the registry has the conflict *)
  ea_fingerprinted : bool;
  ea_conflict_dir : option string;       (* relative to the state root *)
  ea_work : Result WorkStateFile;
}.
Record Engine := mkEngine {
  eg_store : ResolutionStateFile;
  eg_journals : gmap string PublicationPendingJournal;
  eg_head : option string;
  eg_views : gmap string View;
  eg_history : list HistoryRecord;
  eg_asked : nat;
  eg_stores : list ResolutionStateFile;                     (* every store file written, newest first *)
  eg_heads : list (option string);                          (* every head, newest first *)
  eg_plans : list (string * PlannedResolutionPublication);  (* every publication planned, with its job *)
  eg_swaps : list PlannedResolutionPublication;             (* those whose swap took effect *)
  eg_uploads : list (string * list byte);                   (* every object uploaded, with its id *)
}.
Definition Resolve (A : Type) : Type := Engine → Engine * Outcome A.
#[global] Instance resolve_ret : MRet Resolve := λ A a g, (g, Done a).
#[global] Instance resolve_bind : MBind Resolve := λ A B f m g,
  match m g with (g, Done a) => f a g | (g, Failed e) => (g, Failed e) | (g, Died) => (g, Died) end.
Definition act {A} (f : Engine → Engine * Outcome A) : Resolve A := f.
Definition failed {A} (e : EngineError) : Resolve A := λ g, (g, Failed e).
Definition stale {A} (k : ResolutionStaleKind) : Resolve A := failed (EStale k).
Definition died {A} : Resolve A := λ g, (g, Died).
Definition of_result {A} (r : Result A) : Resolve A := match r with Ok a => mret a | Err e => failed (EOther e) end.
Definition ensured (b : bool) (e : string) : Resolve unit := of_result (ensure b e).

Definition set_store (f : ResolutionStateFile) (g : Engine) : Engine :=
  mkEngine f (eg_journals g) (eg_head g) (eg_views g) (eg_history g) (eg_asked g) (f :: eg_stores g) (eg_heads g) (eg_plans g)
    (eg_swaps g) (eg_uploads g).
Definition set_journals (j : gmap string PublicationPendingJournal) (g : Engine) : Engine :=
  mkEngine (eg_store g) j (eg_head g) (eg_views g) (eg_history g) (eg_asked g) (eg_stores g) (eg_heads g) (eg_plans g)
    (eg_swaps g) (eg_uploads g).
Definition set_history (h : list HistoryRecord) (g : Engine) : Engine :=
  mkEngine (eg_store g) (eg_journals g) (eg_head g) (eg_views g) h (eg_asked g) (eg_stores g) (eg_heads g) (eg_plans g)
    (eg_swaps g) (eg_uploads g).
Definition add_plan (job_id : string) (p : PlannedResolutionPublication) (g : Engine) : Engine :=
  mkEngine (eg_store g) (eg_journals g) (eg_head g) (<[pp_candidate_id p := pp_after p]> (eg_views g)) (eg_history g)
    (eg_asked g) (eg_stores g) (eg_heads g) ((job_id, p) :: eg_plans g) (eg_swaps g) (eg_uploads g).
Definition swap_to (p : PlannedResolutionPublication) (g : Engine) : Engine :=
  mkEngine (eg_store g) (eg_journals g) (Some (pp_candidate_id p)) (eg_views g) (eg_history g) (eg_asked g) (eg_stores g)
    (Some (pp_candidate_id p) :: eg_heads g) (eg_plans g) (p :: eg_swaps g) (eg_uploads g).

Definition add_upload (id : string) (object : list byte) (g : Engine) : Engine :=
  mkEngine (eg_store g) (eg_journals g) (eg_head g) (eg_views g) (eg_history g) (eg_asked g) (eg_stores g) (eg_heads g)
    (eg_plans g) (eg_swaps g) ((id, object) :: eg_uploads g).

(** [pack_bytes] under the password of the workspace: the authenticated encryption of a crate, keyed by the path. *)
Class Sealing := pack_bytes : list byte → string → Result (list byte).
(** agent-core/src/crypto.rs: the id of the sealed content, and the content. *)
Definition seal `{Blake3, Sealing} (content : list byte) (path : string) : Result (string * list byte) :=
  packed ← pack_bytes content path; Ok (hash_bytes packed, packed).

Section engine.
Context `{Unicode, Blake3, IntegratorJson, Sealing} (answers : nat → EngineAnswer).
Context (workspace_id : string) (format_version : Z).
(** The size of a journal as written. *)
Context (journal_bytes : PublicationPendingJournal → Z).

(** ** Calls *)
Definition question : Resolve EngineAnswer := λ g,
  let a := answers (eg_asked g) in
  let g := mkEngine (eg_store g) (eg_journals g) (default (eg_head g) (ea_head a)) (eg_views g ∪ list_to_map (ea_views a))
             (eg_history g) (S (eg_asked g)) (eg_stores g)
             (match ea_head a with Some h => h :: eg_heads g | None => eg_heads g end) (eg_plans g) (eg_swaps g) (eg_uploads g) in
  if ea_dies a then (g, Died) else (g, Done a).
(** A call that reads, and one that has an effect. *)
Definition reading {A} (f : EngineAnswer → Engine → Outcome A) : Resolve A :=
  a ← question; act (λ g, (g, if ea_fails a then Failed (EOther "unavailable") else f a g)).
Definition writing (effect : EngineAnswer → Engine → Engine) : Resolve unit :=
  a ← question; act (λ g,
  if ea_fails a then (if ea_applied a then effect a g else g, Failed (EOther "unavailable")) else (effect a g, Done tt)).

Definition sync_lock : Resolve unit := reading (λ _ _, Done tt).
Definition now_ms : Resolve Z := a ← question; mret (ea_now a).
Definition get_head : Resolve (option string) := reading (λ _ g, Done (eg_head g)).
(** [load_snapshot] and [get_tree_state]. *)
Definition load_view (id : string) : Resolve View :=
  reading (λ _ g, match eg_views g !! id with Some v => Done v | None => Failed (EOther "object missing") end).
Definition generate_id (bytes : nat) : Resolve string := reading (λ a _, Done (hex_lower (take bytes (ea_random a)))).
Definition get_conflict_record : Resolve bool := reading (λ a _, Done (ea_pending a)).
Definition is_conflict_fingerprinted : Resolve bool := reading (λ a _, Done (ea_fingerprinted a)).
Definition load_work : Resolve WorkStateFile := reading (λ a _, match ea_work a with Ok w => Done w | Err e => Failed (EOther e) end).

(** [ResolutionStore::open] and [load]; [update]. *)
Definition store_load : Resolve ResolutionStateFile :=
  reading (λ _ g, match load_file (eg_store g) with Ok f => Done f | Err e => Failed (EOther e) end).
Definition store_job (job_id : string) : Resolve PersistedResolutionJob :=
  f ← store_load; of_result (find_job job_id (rs_jobs f)).
Definition store_update (change : list PersistedResolutionJob → Result (list PersistedResolutionJob)) : Resolve unit :=
  a ← question; act (λ g,
  match update_file change (eg_store g) with
  | Err e => (g, Failed (EOther e))
  | Ok f =>
      if ea_fails a then (if ea_applied a then set_store f g else g, Failed (EOther "unavailable"))
      else (set_store f g, match load_file f with Ok _ => Done tt | Err e => Failed (EOther e) end)
  end).
Definition move_job (job_id : string) (s : ResolutionAssignmentState) : Resolve unit := store_update (alter_job job_id (move_to s)).
(** [f] is run, and its error returned rather than propagated; a death is not caught. *)
Definition attempt {A} (f : Resolve A) : Resolve (A + EngineError) := λ g,
  match f g with (g, Done a) => (g, Done (inl a)) | (g, Failed e) => (g, Done (inr e)) | (g, Died) => (g, Died) end.

Definition write_publication_journal (j : PublicationPendingJournal) : Resolve unit :=
  _ ← ensured (journal_bytes j <=? 32 * 1024) "publication-pending journal exceeds its byte bound";
  writing (λ _ g, set_journals (<[jn_job_id j := j]> (eg_journals g)) g).
(** An unreadable or unparsable journal counts as none. *)
Definition read_publication_journal (job_id : string) : Resolve (option PublicationPendingJournal) :=
  a ← question; act (λ g, (g, Done (if ea_fails a then None else eg_journals g !! job_id))).
(** Removing the journal, or the directory it is in; a failure is ignored. *)
Definition remove_journal (job_id : string) : Resolve unit :=
  _ ← attempt (writing (λ _ g, set_journals (delete job_id (eg_journals g)) g)); mret tt.

(** [read_candidate_file]. *)
Definition open_failure (c : CandidateOpen) : ResolutionStaleKind :=
  match c with
  | OpenNotFound => SkCandidateMissing | OpenPermissionDenied => SkCandidatePermissionDenied
  | OpenSymlink => SkCandidateSymlink | OpenInvalidType => SkCandidateInvalidType | _ => SkCandidateIoError
  end.
Definition read_candidate (opened : CandidateOpen) (c : CandidateDescriptor) : Outcome (list byte) :=
  match opened with
  | Opened bytes mode nlink length =>
      if ct_deleted c then (if bool_decide (bytes = []) then Done [] else Failed (EStale SkCandidateSizeMismatch))
      else if 1 <? nlink then Failed (EStale SkCandidateIoError)
      else if RESOLUTION_MAX_CANDIDATE_BYTES <? length then Failed (EStale SkCandidateSizeMismatch)
      else if negb (mode =? ct_mode c) then Failed (EStale SkCandidateModeMismatch)
      else if negb (zlen bytes =? length) then Failed (EStale SkCandidateSizeMismatch)
      else if negb (bool_decide (hash_bytes bytes = ct_hash c)) then Failed (EStale SkCandidateHashMismatch)
      else Done bytes
  | OpenNotFound => if ct_deleted c then Done [] else Failed (EStale SkCandidateMissing)
  | failure => Failed (EStale (open_failure failure))
  end.
Definition read_candidate_file (c : CandidateDescriptor) : Resolve (list byte) :=
  reading (λ a _, read_candidate (ea_candidate a) c).

(** ** Guarded publication *)
Definition find_conflict (path : string) (v : View) : option ConcurrentEdit :=
  find (λ c, bool_decide (ce_path c = path)) (vw_conflicts v).
Definition legs_equal (c : ConcurrentEdit) (i : ConflictIdentity) : bool :=
  bool_decide (leg_descriptor (ce_base c) = ci_base i) && bool_decide (leg_descriptor (ce_ours c) = ci_ours i)
  && bool_decide (leg_descriptor (ce_theirs c) = ci_theirs i).
(** The identity with the fields the head gives. *)
Definition reread_identity (head root : string) (c : ConcurrentEdit) (i : ConflictIdentity) : ConflictIdentity :=
  let base := leg_descriptor (ce_base c) in
  let ours := leg_descriptor (ce_ours c) in
  let theirs := leg_descriptor (ce_theirs c) in
  mkIdentity (ci_schema_version i) (ci_workspace_id i) head head root (ci_path i) base ours theirs
    (derive_conflict_kind base ours theirs) (ci_task_id i) (ci_intent_message_ids i) (ci_assignment_id i) (ci_attempt i)
    (ci_designated_owner i) (ci_verification_policy i).
(** The view that is published: the path as the candidate has it, and no conflict there. *)
Definition resolved_view (root path : string) (candidate : option (option FileState)) (v : View) : View :=
  mkView root
    (match candidate with
     | None => vw_files v
     | Some (Some file) => <[path := file]> (vw_files v)
     | Some None => delete path (vw_files v)
     end)
    (List.filter (λ c, negb (bool_decide (ce_path c = path))) (vw_conflicts v)).
(** Reading the candidate, sealing it and uploading the sealed object: the state of the path, [None]
    where it is deleted. *)
Definition upload_candidate (path : string) (c : CandidateDescriptor) : Resolve (option FileState) :=
  bytes ← read_candidate_file c;
  if ct_deleted c then mret None else
  sealed ← of_result (seal bytes path);
  _ ← writing (λ _, add_upload sealed.1 sealed.2);      (* [upload_object] *)
  now ← now_ms;
  mret (Some (mkFileState path sealed.1 (zlen bytes) now false (ct_mode c))).
(** The tree and the snapshot of the resolved view are written under a new id. *)
Definition write_snapshot (job_id : string) (plan : ResolutionPublication) (head : string) (before : View)
    (state : option (option FileState)) : Resolve PlannedResolutionPublication :=
  a ← question;
  if ea_fails a then failed (EOther "write failed") else
  act (λ g, let p := mkPlanned head (ea_snapshot_id a) plan before
                  (resolved_view (ea_root a) (ci_path (rp_identity plan)) state before) in
       (add_plan job_id p g, Done p)).
Definition plan_resolution_publication (job_id : string) (plan : ResolutionPublication) : Resolve PlannedResolutionPublication :=
  head ← get_head;
  match head with
  | None => stale SkHeadChanged
  | Some head =>
      if negb (bool_decide (head = rp_expected_head plan)) then failed ELostCas else
      view ← load_view head;
      match find_conflict (ci_path (rp_identity plan)) view with
      | None => stale SkConflictMissing
      | Some conflict =>
          if negb (legs_equal conflict (rp_identity plan)) then stale SkLegsChanged else
          let identity := reread_identity head (vw_root view) conflict (rp_identity plan) in
          if negb (bool_decide (identity = rp_identity plan)) then stale SkIdentityMismatch else
          if negb (bool_decide (compute_conflict_identity_fingerprint identity = rp_fingerprint plan))
          then stale SkIdentityMismatch else
          state ← match rp_candidate plan with
                  | None => mret None
                  | Some c => match rp_candidate_file plan with
                              | Some _ => s ← upload_candidate (ci_path (rp_identity plan)) c; mret (Some s)
                              | None => mret (Some None)
                              end
                  end;
          write_snapshot job_id plan head view state
      end
  end.
Definition commit_resolution_publication (p : PlannedResolutionPublication) : Resolve string :=
  a ← question; act (λ g,
  if bool_decide (eg_head g = Some (pp_expected_head p)) then
    if ea_fails a then (if ea_applied a then swap_to p g else g, Failed (EOther "unavailable"))
    else (swap_to p g, Done (pp_candidate_id p))
  else (g, Failed (if ea_fails a then EOther "unavailable" else
                   match eg_head g with Some _ => ELostCas | None => EStale SkHeadChanged end))).

(** ** Completing a publication *)
Definition record_conflict_resolution_once (r : PersistedResolutionJob) (hash : option string) : Resolve unit :=
  let entry := mkHistory (pj_path r) "candidate" hash (rj_owner (pj_job r)) in
  already ← reading (λ _ g, Done (bool_decide (entry ∈ eg_history g)));
  if already : bool then mret tt else writing (λ _ g, set_history (eg_history g ++ [entry]) g).
Definition published_hash (result : ResolutionResult) : option string :=
  match rr_candidate result with
  | Some c => if bool_decide (rr_outcome result = RoCandidateReady) then Some (ct_hash c) else None
  | None => None
  end.
Definition complete_publication (job_id : string) : Resolve unit :=
  r ← store_job job_id;
  if negb (bool_decide (pj_assignment_state r = RsPublicationUncertain)) then
    ensured (bool_decide (pj_assignment_state r = RsCompleted)) "resolution job cannot complete"
  else
    result ← of_result (or_context (pj_result r) "resolution job has no submitted result to complete");
    _ ← get_conflict_record;
    _ ← record_conflict_resolution_once r (published_hash result);
    _ ← writing (λ _ g, g);               (* [resolve_conflict_path] *)
    _ ← attempt (writing (λ _ g, g));     (* [cleanup_conflict_artifacts] *)
    _ ← move_job job_id RsCompleted;
    remove_journal job_id.                (* [remove_job_dir] *)

(** ** Recovery *)
Definition fail_closed_recovery (job_id : string) : Resolve unit :=
  _ ← store_update (alter_job job_id (λ r,
        if bool_decide (pj_assignment_state r = RsPublicationUncertain) then move_to RsStale r else Ok r));
  remove_journal job_id.
Definition recover_one_uncertain (job_id : string) : Resolve bool :=
  r ← store_job job_id;
  if negb (bool_decide (pj_assignment_state r = RsPublicationUncertain)) then mret false else
  head ← get_head;
  journal ← read_publication_journal job_id;
  match head, journal with
  | Some head, Some j =>
      if negb (bool_decide (jn_job_id j = job_id)) || negb (bool_decide (rr_job_id (jn_result j) = job_id))
      then _ ← fail_closed_recovery job_id; mret true else
      if bool_decide (head = jn_planned_head j) then _ ← complete_publication job_id; mret true
      else _ ← fail_closed_recovery job_id; mret true
  | _, _ => _ ← fail_closed_recovery job_id; mret true
  end.
Fixpoint recover_all (ids : list string) (recovered : nat) : Resolve nat :=
  match ids with
  | [] => mret recovered
  | id :: ids => one ← recover_one_uncertain id; recover_all ids (if one : bool then S recovered else recovered)
  end.
Definition sweep_one (job_id : string) : Resolve unit :=
  present ← reading (λ _ g, Done (bool_decide (is_Some (eg_journals g !! job_id))));
  if negb (present : bool) then mret tt else
  _ ← store_job job_id;
  remove_journal job_id.                  (* alone, or with the directory of a completed job *)
Fixpoint sweep (ids : list string) : Resolve unit :=
  match ids with
  | [] => mret tt
  | id :: ids => _ ← sweep_one id; sweep ids
  end.
Definition is_uncertain (r : PersistedResolutionJob) : bool := bool_decide (pj_assignment_state r = RsPublicationUncertain).
Definition recover_uncertain_publications : Resolve nat :=
  state ← store_load;
  let uncertain := pj_id <$> List.filter is_uncertain (rs_jobs state) in
  let rest := pj_id <$> List.filter (λ r, negb (is_uncertain r)) (rs_jobs state) in
  if bool_decide (uncertain = []) && bool_decide (rest = []) then mret 0%nat else
  _ ← sync_lock;
  recovered ← recover_all uncertain 0;
  _ ← sweep rest;
  mret recovered.
(** Every operation recovers first and then holds the lock. *)
Definition guarded {A} (body : Resolve A) : Resolve A := _ ← recover_uncertain_publications; _ ← sync_lock; body.

(** ** Applying *)
Definition verification_expired (r : PersistedResolutionJob) (verified_at now : Z) : bool :=
  let elapsed := Z.max I64_MIN (Z.min I64_MAX (now - verified_at)) in
  (elapsed <? 0) || (vp_timeout_ms (rj_verification (pj_job r)) <? elapsed).
Definition check_freshness (r : PersistedResolutionJob) : Resolve unit :=
  if negb (vp_freshness_required (rj_verification (pj_job r))) then mret tt else
  verified_at ← of_result (or_context (pj_verified_at_ms r) "fresh verification evidence was never recorded");
  now ← now_ms;
  if verification_expired r verified_at now then stale SkVerificationExpired else mret tt.
(** Everything before the plan: the head, if the job still describes it. *)
Definition revalidate (r : PersistedResolutionJob) : Resolve string :=
  let job := pj_job r in
  if negb (bool_decide (pj_assignment_state r = RsActive)) then stale SkAssignmentRevoked else
  _ ← check_freshness r;
  pending ← get_conflict_record;
  if negb pending then stale SkConflictMissing else
  fingerprinted ← is_conflict_fingerprinted;
  if negb fingerprinted then stale SkIdentityMismatch else
  head ← get_head;
  match head with
  | None => stale SkHeadChanged
  | Some head =>
      if negb (bool_decide (head = rj_current_snapshot job)) then stale SkHeadChanged else
      view ← load_view head;
      match find_conflict (ci_path (rj_conflict job)) view with
      | None => stale SkConflictMissing
      | Some conflict =>
          let recomputed := conflict_identity_from_edit workspace_id head head (vw_root view) conflict (binding_of (rj_conflict job)) in
          if negb (bool_decide (recomputed = rj_conflict job)) then stale SkIdentityMismatch else
          if negb (bool_decide (compute_conflict_identity_fingerprint recomputed = rj_conflict_fingerprint job))
          then stale SkIdentityMismatch else mret head
      end
  end.
Definition publication_of (job : ResolutionJob) (result : ResolutionResult) (head : string) : ResolutionPublication :=
  mkPublication (rj_conflict job) (rj_conflict_fingerprint job) (rr_candidate result)
    (if bool_decide (rr_outcome result = RoCandidateReady) then Some (cn_path (rj_candidate_destination job)) else None)
    head (rj_owner job).
(** The swap; where it fails, the journal is dropped and the record reverted. *)
Definition commit_or_revert (job_id : string) (planned : PlannedResolutionPublication) : Resolve string :=
  committed ← attempt (commit_resolution_publication planned);
  match committed with
  | inl head => mret head
  | inr error =>
      _ ← remove_journal job_id;
      _ ← attempt (move_job job_id RsActive);
      failed error
  end.
Definition publish_once (job_id : string) : Resolve string :=
  r ← store_job job_id;
  result ← of_result (or_context (pj_result r) "resolution job has no submitted result; apply before submit is refused");
  head ← revalidate r;
  planned ← plan_resolution_publication job_id (publication_of (pj_job r) result head);
  _ ← write_publication_journal (mkJournal job_id (pp_expected_head planned) (pp_candidate_id planned) result);
  _ ← move_job job_id RsPublicationUncertain;
  commit_or_revert job_id planned.

Inductive ResolutionApplyOutcome := Published (head : string) | StaleOutcome (kind : ResolutionStaleKind).
Definition applies (o : ResolutionOutcome) : bool := match o with RoCandidateReady | RoNoChangeRequired => true | _ => false end.
Fixpoint apply_attempts (job_id : string) (attempts : nat) : Resolve ResolutionApplyOutcome :=
  match attempts with
  | O => failed ELostCas
  | S attempts =>
      r ← store_job job_id;
      result ← of_result (or_context (pj_result r) "resolution job has no submitted result; apply before submit is refused");
      _ ← ensured (applies (rr_outcome result)) "apply requires a candidate_ready or no_change_required result";
      published ← attempt (publish_once job_id);
      match published with
      | inl head => _ ← complete_publication job_id; mret (Published head)
      | inr (EStale kind) => mret (StaleOutcome kind)
      | inr ELostCas => apply_attempts job_id attempts
      | inr error => failed error
      end
  end.
Definition apply_resolution_job (job_id : string) : Resolve ResolutionApplyOutcome :=
  guarded (apply_attempts job_id RESOLUTION_MAX_APPLY_REVALIDATIONS).

(** ** Submitting *)
Definition verify_candidate_for_submit (r : PersistedResolutionJob) (c : CandidateDescriptor) : Resolve VerificationSummary :=
  bytes ← read_candidate_file c;
  match inline_verify_candidate (pj_job r) bytes c with inl summary => mret summary | inr kind => stale kind end.
Definition with_verification (s : VerificationSummary) (r : ResolutionResult) : ResolutionResult :=
  mkResolutionResult (rr_schema_version r) (rr_outcome r) (rr_job_id r) (rr_assignment_id r) (rr_attempt r) (rr_owner r)
    (rr_conflict_fingerprint r) (rr_candidate r) s (rr_diagnostics r) (rr_question r) (rr_human_reason r)
    (rr_question_generation r) (rr_safe_options r).
Definition with_generation (n : Z) (r : ResolutionResult) : ResolutionResult :=
  mkResolutionResult (rr_schema_version r) (rr_outcome r) (rr_job_id r) (rr_assignment_id r) (rr_attempt r) (rr_owner r)
    (rr_conflict_fingerprint r) (rr_candidate r) (rr_verification r) (rr_diagnostics r) (rr_question r) (rr_human_reason r)
    n (rr_safe_options r).
(** The result as the engine records it. *)
Definition engine_result (r : PersistedResolutionJob) (result : ResolutionResult) : Resolve ResolutionResult :=
  match rr_outcome result with
  | RoCandidateReady =>
      c ← of_result (or_context (rr_candidate result) "candidate_ready result requires a candidate descriptor");
      _ ← ensured (bool_decide (ct_path c = cn_path (rj_candidate_destination (pj_job r))))
            "candidate path must equal the job's engine-owned destination";
      summary ← verify_candidate_for_submit r c;
      mret (with_verification summary result)
  | RoRequiresHuman =>
      state ← store_load;
      mret (with_generation (next_question_generation state (rj_conflict_fingerprint (pj_job r))) result)
  | _ => mret (with_verification (inline_verify_no_candidate (pj_job r) result) result)
  end.
Definition replace_active (record r : PersistedResolutionJob) : Result PersistedResolutionJob :=
  assert_state_transition (pj_assignment_state r) RsActive ;; Ok record.
Definition submit_resolution_result (job_id : string) (result : ResolutionResult) : Resolve ResolutionResult :=
  guarded (
    _ ← of_result (validate_resolution_result result);
    _ ← ensured (bool_decide (rr_job_id result = job_id)) "result job id does not match the submission target";
    r ← store_job job_id;
    _ ← ensured (bool_decide (pj_assignment_state r = RsActive)) "resolution assignment is not active; submission rejected";
    _ ← ensured (is_none (pj_result r)) "resolution job already has a submitted result; replay rejected";
    _ ← ensured (bool_decide (rr_assignment_id result = rj_assignment_id (pj_job r))
                 && (rr_attempt result =? rj_attempt (pj_job r)) && bool_decide (rr_owner result = rj_owner (pj_job r))
                 && bool_decide (rr_conflict_fingerprint result = rj_conflict_fingerprint (pj_job r)))
          "result does not match the job's assignment/attempt/owner/fingerprint";
    result ← engine_result r result;
    now ← now_ms;
    let generation := if bool_decide (rr_outcome result = RoRequiresHuman)
                      then rr_question_generation result else pj_question_generation r in
    _ ← store_update (alter_job job_id (replace_active (record_with_result now result generation r)));
    mret result).

(** ** Human answers *)
Definition answered_result (r : PersistedResolutionJob) (c : CandidateDescriptor) (summary : VerificationSummary)
    : ResolutionResult :=
  mkResolutionResult RESOLUTION_SCHEMA_VERSION RoCandidateReady (rj_job_id (pj_job r)) (rj_assignment_id (pj_job r))
    (rj_attempt (pj_job r)) (rj_owner (pj_job r)) (rj_conflict_fingerprint (pj_job r)) (Some c) summary [] None None 0 [].
Definition answer_resolution (answer : HumanResolutionAnswer) : Resolve HumanResolutionAnswer :=
  guarded (
    _ ← of_result (validate_human_resolution_answer answer);
    r ← store_job (ha_job_id answer);
    _ ← ensured (bool_decide (pj_assignment_state r = RsActive)) "resolution job is not active";
    _ ← ensured (bool_decide (ha_assignment_id answer = rj_assignment_id (pj_job r))
                 && (ha_attempt answer =? rj_attempt (pj_job r))
                 && bool_decide (ha_conflict_fingerprint answer = rj_conflict_fingerprint (pj_job r)))
          "answer does not bind the stored assignment";
    stored ← of_result (or_context (pj_result r) "resolution job has no submitted result; there is no question to answer");
    _ ← ensured (bool_decide (rr_outcome stored = RoRequiresHuman)) "resolution job has no outstanding human question";
    _ ← ensured (ha_question_generation answer =? pj_question_generation r) "answer references a stale question generation";
    _ ← match ha_chosen_option answer with
        | HoDefer => move_job (ha_job_id answer) RsDeferred
        | HoKeepUnresolved => move_job (ha_job_id answer) RsKeepUnresolved
        | HoSubmitCandidate =>
            c ← of_result (or_context (ha_candidate answer) "submit_candidate answer must carry a candidate descriptor");
            _ ← ensured (bool_decide (ct_path c = cn_path (rj_candidate_destination (pj_job r))))
                  "candidate path must equal the job's engine-owned destination";
            summary ← verify_candidate_for_submit r c;
            let result := answered_result r c summary in
            _ ← of_result (validate_resolution_result result);
            now ← now_ms;
            store_update (alter_job (ha_job_id answer)
              (replace_active (record_with_result now result (pj_question_generation r) r)))
        end;
    mret answer).

(** ** Revoking and deferring *)
Definition revoke_resolution_assignment (job_id : string) (superseded : bool) : Resolve unit :=
  guarded (move_job job_id (if superseded then RsSuperseded else RsRevoked)).
Definition defer_resolution (job_id : string) : Resolve unit :=
  guarded (store_update (alter_job job_id (λ r,
    ensure (bool_decide (pj_assignment_state r = RsActive)) "resolution assignment is not active; defer refused" ;;
    move_to RsDeferred r))).

(** ** Preparing *)
Definition ancestry_ids_of (p : WorkProposalRecord) : list string :=
  pr_intent_message_id p :: option_list (pr_causal_base p)
  ++ (if bool_decide (pr_source_message_id p = pr_intent_message_id p) then [] else [pr_source_message_id p])
  ++ pr_superseded_decisions p.
Definition path_ancestry_message_ids (state : WorkStateFile) (path : string) : Result (list string) :=
  let ids := dedup (sort_strings (concat (ancestry_ids_of <$>
        List.filter (λ p, bool_decide (pr_state p = Accepted) && scope_covers_path (pr_scope p) path)
          (concat (tk_proposals <$> ws_tasks state))))) in
  ensure (zlen ids <=? RESOLUTION_MAX_CAUSAL_REFS) "causal reference set exceeds its bound" ;;
  Ok ids.
Definition candidate_path_for (job_id : string) (attempt : Z) : string :=
  "orchestrator/resolution/jobs/" +:+ job_id +:+ "/candidate-" +:+ pretty attempt +:+ ".bin".
Definition role_path (conflict_dir : option string) (path suffix : string) : string :=
  match conflict_dir with Some dir => normalize_path (dir +:+ "/" +:+ path +:+ suffix) | None => "" end.
Definition artifact_descriptors (conflict_dir : option string) (path : string) : list ArtifactDescriptor :=
  [mkArtifactDescriptor Original (role_path conflict_dir path ".original");
   mkArtifactDescriptor ResolutionContract.Local (role_path conflict_dir path ".local");
   mkArtifactDescriptor Cloud (role_path conflict_dir path ".cloud")].

Definition to_result {A} (r : A + EngineError) : Result A := match r with inl a => Ok a | inr _ => Err "unavailable" end.
(** The reads of [designate_conflict_owner]. *)
Definition designation_sources : Resolve Sources :=
  work ← attempt load_work;
  jobs ← attempt store_load;
  id ← attempt (generate_id 16);
  nonce ← attempt (generate_id 32);
  head ← attempt get_head;
  mret (mkSources (to_result work) (to_result jobs) (to_result id) (to_result nonce) (to_result head)).
Definition wire_evidence (d : OwnerDesignation) : OwnerDesignationEvidence :=
  let e := od_evidence d in
  mkDesignationEvidence (od_method d) (en_nonce e) (en_roster_fingerprint e) (en_eligible e) (en_ranked e) (en_reasoning e)
    (od_attempt d).
Definition prepared_job (path head job_id task_id : string) (d : OwnerDesignation) (identity : ConflictIdentity)
    (ancestry : list string) (conflict_dir : option string) (prevention : PreventionReason) : ResolutionJob :=
  mkResolutionJob RESOLUTION_SCHEMA_VERSION job_id task_id (od_assignment_id d) (od_attempt d) workspace_id (od_owner d)
    identity (compute_conflict_identity_fingerprint identity) head head (ci_tree_root identity)
    (if bool_decide (od_intent_message_ids d = []) then ancestry else od_intent_message_ids d) ancestry
    (artifact_descriptors conflict_dir path) (mkCandidateDestination (candidate_path_for job_id (od_attempt d)) true) [path]
    (mkVerificationPolicyRef RESOLUTION_VERIFICATION_POLICY_ID RESOLUTION_VERIFICATION_CONFIG_REF
       RESOLUTION_DEFAULT_VERIFICATION_TIMEOUT_MS true)
    prevention (prevention_detail prevention) (wire_evidence d).
Definition insert_job (record : PersistedResolutionJob) (jobs : list PersistedResolutionJob)
    : Result (list PersistedResolutionJob) :=
  ensure (negb (existsb (λ r, bool_decide (pj_id r = pj_id record)) jobs)) "resolution job already exists" ;;
  ensure (negb (existsb (λ r, bool_decide (rj_conflict_fingerprint (pj_job r) = rj_conflict_fingerprint (pj_job record))
                              && negb (pj_terminal r)) jobs)) "another non-terminal resolution job exists" ;;
  ensure (length (List.filter (λ r, negb (pj_terminal r)) jobs) <? RESOLUTION_MAX_JOBS)%nat
    "resolution store holds too many non-terminal jobs" ;;
  Ok (jobs ++ [record]).
Definition prepare_resolution_job_guarded (path : string) (prevention : PreventionReason) : Resolve ResolutionJob :=
  _ ← ensured (3 <=? format_version) "automatic resolution requires format v3";
  _ ← ensured (negb (is_blank (prevention_detail prevention))) "automatic job preparation requires a typed reason";
  head ← get_head;
  head ← of_result (or_context head "workspace head disappeared during automatic job preparation");
  view ← load_view head;
  conflict ← of_result (or_context (find_conflict path view) "no current conflict in the workspace head");
  fingerprinted ← is_conflict_fingerprinted;
  _ ← ensured fingerprinted "conflict is a legacy unfingerprinted record";
  sources ← designation_sources;
  d ← match designate_conflict_owner workspace_id path sources with
      | Granted d => mret d
      | Refused _ => failed (EOther "owner designation refused")
      | Panicked => died
      end;
  task_id ← of_result (or_context (od_task_id d) "owner designation must bind a canonical task before job preparation");
  let binding := mkIdentityBinding (Some task_id) (od_intent_message_ids d) (Some (od_assignment_id d)) (Some (od_attempt d))
                   (Some (od_owner d)) (Some RESOLUTION_VERIFICATION_POLICY_ID) in
  let identity := conflict_identity_from_edit workspace_id head head (vw_root view) conflict binding in
  _ ← of_result (validate_conflict_identity identity);
  work ← load_work;
  ancestry ← of_result (path_ancestry_message_ids work path);
  _ ← of_result (validate_designation_evidence (wire_evidence d));
  job_id ← generate_id 16;
  conflict_dir ← reading (λ a _, Done (ea_conflict_dir a));
  let job := prepared_job path head job_id task_id d identity ancestry conflict_dir prevention in
  _ ← of_result (validate_resolution_job job);
  _ ← writing (λ _ g, g);                 (* the directory and [job.json] *)
  now ← now_ms;
  let record := mkPersistedJob RESOLUTION_STORE_SCHEMA_VERSION job RsActive now None None 0 in
  _ ← store_update (insert_job record);
  mret job.
Definition prepare_resolution_job (path : string) (prevention : PreventionReason) : Resolve ResolutionJob :=
  guarded (prepare_resolution_job_guarded path prevention).

(** ** Candidates and status *)

(** The candidate file is created, never replaced: creating it fails where it exists. *)
Definition put_resolution_candidate (job_id : string) (bytes : list byte) : Resolve CandidateDescriptor :=
  guarded (
    r ← store_job job_id;
    _ ← ensured (bool_decide (pj_assignment_state r = RsActive)) "resolution job is not active";
    _ ← ensured (match pj_result r with
                 | None => true
                 | Some result => bool_decide (rr_outcome result = RoRequiresHuman)
                 end) "resolution job is not in a submitted-without-candidate state";
    _ ← ensured (zlen bytes <=? RESOLUTION_MAX_CANDIDATE_BYTES) "candidate exceeds the byte bound";
    mode ← reading (λ a _, match ea_candidate a with
                           | OpenNotFound => Done 0
                           | _ => Failed (EOther "candidate file already exists")
                           end);
    mret (mkCandidateDescriptor (cn_path (rj_candidate_destination (pj_job r))) (hash_bytes bytes) (zlen bytes) mode false)).

Record ResolutionJobStatus := mkResolutionJobStatus {
  rt_job_id : string; rt_assignment_id : string; rt_attempt : Z; rt_owner : string; rt_conflict_fingerprint : string;
  rt_assignment_state : ResolutionAssignmentState; rt_outcome : option ResolutionOutcome; rt_question_generation : Z;
  rt_created_at_ms : Z; rt_verified_at_ms : option Z }.
Definition job_status (r : PersistedResolutionJob) : ResolutionJobStatus :=
  mkResolutionJobStatus (pj_id r) (rj_assignment_id (pj_job r)) (rj_attempt (pj_job r)) (rj_owner (pj_job r))
    (rj_conflict_fingerprint (pj_job r)) (pj_assignment_state r) (rr_outcome <$> pj_result r) (pj_question_generation r)
    (pj_created_at_ms r) (pj_verified_at_ms r).
Definition status_before (a b : ResolutionJobStatus) : bool :=
  (rt_created_at_ms a <? rt_created_at_ms b)
  || (rt_created_at_ms a =? rt_created_at_ms b) && bool_decide (String.le (rt_job_id a) (rt_job_id b)).
Fixpoint insert_status (x : ResolutionJobStatus) (l : list ResolutionJobStatus) : list ResolutionJobStatus :=
  match l with
  | [] => [x]
  | y :: l' => if status_before x y then x :: y :: l' else y :: insert_status x l'
  end.
Definition resolution_status (job_id : option string) : Resolve (list ResolutionJobStatus) :=
  _ ← recover_uncertain_publications;
  state ← store_load;
  mret (foldr insert_status [] (job_status <$>
          List.filter (λ r, match job_id with Some id => bool_decide (pj_id r = id) | None => true end) (rs_jobs state))).

(** ** Histories *)
Inductive EngineOp :=
  | OpPrepare (path : string) (prevention : PreventionReason)
  | OpSubmit (job_id : string) (result : ResolutionResult)
  | OpApply (job_id : string)
  | OpAnswer (answer : HumanResolutionAnswer)
  | OpRevokeJob (job_id : string) (superseded : bool)
  | OpDefer (job_id : string)
  | OpPut (job_id : string) (bytes : list byte)
  | OpStatus (job_id : option string).
Definition run_engine_op (op : EngineOp) (g : Engine) : Engine :=
  match op with
  | OpPrepare path prevention => (prepare_resolution_job path prevention g).1
  | OpSubmit job_id result => (submit_resolution_result job_id result g).1
  | OpApply job_id => (apply_resolution_job job_id g).1
  | OpAnswer answer => (answer_resolution answer g).1
  | OpRevokeJob job_id superseded => (revoke_resolution_assignment job_id superseded g).1
  | OpDefer job_id => (defer_resolution job_id g).1
  | OpPut job_id bytes => (put_resolution_candidate job_id bytes g).1
  | OpStatus job_id => (resolution_status job_id g).1
  end.
Definition run_engine (ops : list EngineOp) (g : Engine) : Engine := foldl (λ g op, run_engine_op op g) g ops.
End engine.
Definition fresh_engine (head : option string) (views : gmap string View) : Engine :=
  mkEngine fresh_store ∅ head views [] 0 [] [head] [] [] [].
