(* ===== verification/ResolutionProps.v ===== *)
(** * Conflict resolution: invariants of the engine

    What holds of the store file, of the journals, of the publications planned and of the head after
    every step of every operation, whether it returns, fails or the process dies. *)
From Stdlib Require Import ZArith Lia Ascii Strings.Byte.
From stdpp Require Import sorting numbers strings gmap list_numbers list pretty options.
From S2P Require Import Prelude Text Paths Model WorkContract AgentContract WorkReducer IntegratorContract.
From S2P Require Import IntegratorSelection ResolutionContract ResolutionStore ResolutionIdentity Designation DesignationProps.
From S2P Require Import Resolution.

Local Open Scope Z_scope.

(** ** The store *)
Definition non_terminal (l : list PersistedResolutionJob) : list PersistedResolutionJob :=
  List.filter (λ r, negb (pj_terminal r)) l.
Section store.
Context `{Unicode, Blake3}.

Record jobs_ok (jobs : list PersistedResolutionJob) : Prop := {
  jo_valid : Forall (λ r, validate_record r = Ok tt) jobs;
  jo_ids : NoDup (pj_id <$> jobs);
  jo_paths : NoDup (pj_path <$> non_terminal jobs);
  jo_open : (length (non_terminal jobs) ≤ RESOLUTION_MAX_JOBS)%nat;
}.
Record store_ok (f : ResolutionStateFile) : Prop := {
  to_schema : rs_schema_version f = RESOLUTION_STORE_SCHEMA_VERSION;
  to_jobs : jobs_ok (rs_jobs f);
  to_bound : (length (rs_jobs f) ≤ RESOLUTION_MAX_JOBS)%nat;
}.

(** A record and what an update makes of it. *)
Definition record_step (r r' : PersistedResolutionJob) : Prop :=
  pj_job r' = pj_job r
  ∧ (r' = r ∨ transition_allowed (pj_assignment_state r) (pj_assignment_state r') = true).
Definition new_record (old : list PersistedResolutionJob) (r' : PersistedResolutionJob) : Prop :=
  pj_id r' ∉ (pj_id <$> old) ∧ pj_assignment_state r' = RsActive ∧ pj_result r' = None.
Record store_step (old new : list PersistedResolutionJob) : Prop := {
  ss_from r' : r' ∈ new → (∃ r, r ∈ old ∧ record_step r r') ∨ new_record old r';
  ss_kept r : r ∈ old → pj_terminal r = false → ∃ r', r' ∈ new ∧ pj_id r' = pj_id r;
}.

Lemma load_file_Ok f : load_file f = Ok f ↔ rs_schema_version f = RESOLUTION_STORE_SCHEMA_VERSION
  ∧ Forall (λ r, validate_record r = Ok tt) (rs_jobs f).
Proof.
  unfold load_file. assert (try_fold (λ _ r, validate_record r) tt (rs_jobs f) = Ok tt
    ↔ Forall (λ r, validate_record r = Ok tt) (rs_jobs f)) as <-.
  { induction (rs_jobs f) as [|r l IH]; simpl; [by split; [constructor|]|]. rewrite Forall_cons, <-IH.
    destruct (validate_record r) as [[]|]; simpl; naive_solver. }
  unfold ensure. destruct (rs_schema_version f =? RESOLUTION_STORE_SCHEMA_VERSION) eqn:Hs; simpl.
  - apply Z.eqb_eq in Hs. destruct (try_fold _ _ _) as [[]|]; simpl; naive_solver.
  - apply Z.eqb_neq in Hs. naive_solver.
Qed.
Lemma load_file_inv f f' : load_file f = Ok f' → f' = f.
Proof. unfold load_file. intros Hl. inv_ok. done. Qed.

(** ** Trimming *)
Lemma insert_created_perm x l : insert_created x l ≡ₚ x :: l.
Proof. induction l as [|y l IH]; simpl; [done|]. destruct (_ <=? _); [done|]. rewrite IH. apply Permutation_swap. Qed.
Lemma sort_created_perm l : sort_created l ≡ₚ l.
Proof. induction l as [|x l IH]; simpl; [done|]. by rewrite insert_created_perm, IH. Qed.
Lemma filter_split (p : PersistedResolutionJob → bool) l : List.filter (λ r, negb (p r)) l ++ List.filter p l ≡ₚ l.
Proof.
  induction l as [|x l IH]; simpl; [done|]. destruct (p x); simpl; [|by rewrite IH].
  rewrite <-Permutation_middle. by rewrite IH.
Qed.
#[local] Instance list_filter_perm (p : PersistedResolutionJob → bool) : Proper (Permutation ==> Permutation) (List.filter p).
Proof.
  induction 1; simpl; [done| | |by etrans].
  - destruct (p x); [by constructor|done].
  - destruct (p x), (p y); done || apply Permutation_swap.
Qed.
Lemma trim_sub jobs : ∃ evicted, jobs ≡ₚ trim_jobs jobs ++ evicted ∧ Forall (λ r, pj_terminal r = true) evicted.
Proof.
  unfold trim_jobs. destruct (_ <=? _)%nat; [exists []; by rewrite app_nil_r|]. cbv zeta.
  set (terminal := reverse (sort_created (List.filter pj_terminal jobs))). set (keep := (_ - _)%nat).
  assert (terminal ≡ₚ List.filter pj_terminal jobs) as Hp by (unfold terminal; by rewrite reverse_Permutation, sort_created_perm).
  exists (drop keep terminal). split.
  - rewrite <-app_assoc, take_drop, Hp. symmetry. apply filter_split.
  - apply Forall_drop. rewrite Hp. apply Forall_forall. intros r [_ Hr]%filter_elem. done.
Qed.
Lemma trim_non_terminal jobs : non_terminal (trim_jobs jobs) ≡ₚ non_terminal jobs.
Proof.
  destruct (trim_sub jobs) as (ev & Hp & Hev). unfold non_terminal. rewrite Hp at 2. rewrite List.filter_app.
  assert (List.filter (λ r, negb (pj_terminal r)) ev = []) as ->; [|by rewrite app_nil_r].
  apply elem_of_nil_inv. intros r [Hr Hn]%filter_elem. apply (proj1 (Forall_forall _ _) Hev) in Hr. by rewrite Hr in Hn.
Qed.
Lemma trim_bound jobs : (length (non_terminal jobs) ≤ RESOLUTION_MAX_JOBS)%nat → (length (trim_jobs jobs) ≤ RESOLUTION_MAX_JOBS)%nat.
Proof.
  intros Hn. unfold trim_jobs. destruct (_ <=? _)%nat eqn:Hl; [by apply Nat.leb_le|]. cbv zeta.
  set (terminal := reverse (sort_created (List.filter pj_terminal jobs))).
  assert (length terminal = length (List.filter pj_terminal jobs)) as Hlen
    by (unfold terminal; by rewrite length_reverse, sort_created_perm).
  pose proof (Permutation_length (filter_split pj_terminal jobs)) as Hsum. rewrite length_app in Hsum.
  rewrite length_app, length_take. unfold non_terminal in *. lia.
Qed.
Lemma trim_ok jobs : jobs_ok jobs → jobs_ok (trim_jobs jobs).
Proof.
  intros [Hv Hi Hp Ho]. destruct (trim_sub jobs) as (ev & Hperm & _). split.
  - rewrite Hperm in Hv. by apply Forall_app in Hv as [? _].
  - rewrite Hperm, fmap_app in Hi. by apply NoDup_app in Hi as [? _].
  - by rewrite trim_non_terminal.
  - by rewrite trim_non_terminal.
Qed.
Lemma trim_id jobs : (length jobs ≤ RESOLUTION_MAX_JOBS)%nat → trim_jobs jobs = jobs.
Proof. intros Hl. unfold trim_jobs. by rewrite (proj2 (Nat.leb_le _ _) Hl). Qed.
Lemma trim_kept jobs r : r ∈ jobs → pj_terminal r = false → r ∈ trim_jobs jobs.
Proof.
  intros Hr Ht. assert (r ∈ non_terminal jobs) as Hn by (apply filter_elem; by rewrite Ht).
  rewrite <-trim_non_terminal in Hn. by apply filter_elem in Hn as [? _].
Qed.
Lemma trim_from jobs r : r ∈ trim_jobs jobs → r ∈ jobs.
Proof. intros Hr. destruct (trim_sub jobs) as (ev & -> & _). apply elem_of_app. by left. Qed.

(** ** Changing one record *)
Lemma alter_job_spec id c jobs jobs' :
  alter_job id c jobs = Ok jobs' →
  ∃ l1 r r' l2, jobs = l1 ++ r :: l2 ∧ jobs' = l1 ++ r' :: l2 ∧ pj_id r = id ∧ c r = Ok r'.
Proof.
  revert jobs'. induction jobs as [|x jobs IH]; intros jobs'; simpl; [done|]. case_bool_decide as Hid.
  - intros Ha. apply bind_Ok in Ha as (r' & Hc & Ha). apply Ok_inj in Ha as <-. by exists [], x, r', jobs.
  - intros Ha. apply bind_Ok in Ha as (l & Hl & Ha). apply Ok_inj in Ha as <-.
    destruct (IH l Hl) as (l1 & r & r' & l2 & -> & -> & ? & ?). by exists (x :: l1), r, r', l2.
Qed.
Lemma step_terminal r r' : record_step r r' → pj_terminal r = true → r' = r.
Proof.
  intros [_ [->|Hs]]; [done|]. unfold pj_terminal. destruct (pj_assignment_state r); try done.
Qed.
Lemma record_step_id r r' : record_step r r' → pj_id r' = pj_id r ∧ pj_path r' = pj_path r.
Proof. intros [Hj _]. unfold pj_id, pj_path. by rewrite Hj. Qed.
Lemma alter_ok l1 r r' l2 :
  record_step r r' → validate_record r' = Ok tt → jobs_ok (l1 ++ r :: l2) →
  jobs_ok (l1 ++ r' :: l2) ∧ store_step (l1 ++ r :: l2) (l1 ++ r' :: l2).
Proof.
  intros Hs Hval [Hv Hi Hp Ho]. destruct (record_step_id r r' Hs) as [Hid Hpath].
  assert (sublist (pj_path <$> non_terminal [r']) (pj_path <$> non_terminal [r])) as Hsub.
  { unfold non_terminal. simpl. destruct (pj_terminal r) eqn:Ht; [by rewrite (step_terminal _ _ Hs Ht), Ht|].
    simpl. destruct (pj_terminal r'); simpl; [apply sublist_nil_l|by rewrite Hpath]. }
  assert (sublist (pj_path <$> non_terminal (l1 ++ r' :: l2)) (pj_path <$> non_terminal (l1 ++ r :: l2))) as Hsl.
  { rewrite (cons_middle r' l1 l2), (cons_middle r l1 l2). unfold non_terminal in *. rewrite !List.filter_app, !fmap_app.
    apply sublist_app; [done|]. by apply sublist_app. }
  split; [split|split].
  - apply Forall_app in Hv as [Hv1 Hv2]. apply Forall_cons in Hv2 as [_ Hv2]. apply Forall_app. split; [done|by constructor].
  - rewrite fmap_app, fmap_cons in *. by rewrite Hid.
  - by eapply sublist_NoDup.
  - apply sublist_length in Hsl. rewrite !length_fmap in Hsl. lia.
  - intros x Hx. left. rewrite elem_of_app, elem_of_cons in Hx. destruct Hx as [Hx|[->|Hx]].
    + exists x. split; [apply elem_of_app; by left|]. split; [done|by left].
    + exists r. split; [apply elem_of_app; right; left|done].
    + exists x. split; [apply elem_of_app; right; by right|]. split; [done|by left].
  - intros x Hx _. rewrite elem_of_app, elem_of_cons in Hx. destruct Hx as [Hx|[->|Hx]].
    + exists x. split; [apply elem_of_app; by left|done].
    + exists r'. split; [apply elem_of_app; right; left|done].
    + exists x. split; [apply elem_of_app; right; by right|done].
Qed.

(** What an update with [alter_job] writes. *)
Lemma update_alter f id c f' :
  store_ok f → update_file (alter_job id c) f = Ok f' →
  (∀ r r', r ∈ rs_jobs f → pj_id r = id → c r = Ok r' → record_step r r' ∧ validate_record r' = Ok tt) →
  store_ok f' ∧ store_step (rs_jobs f) (rs_jobs f')
  ∧ ∃ r r', r ∈ rs_jobs f ∧ pj_id r = id ∧ c r = Ok r' ∧ r' ∈ rs_jobs f' ∧ ∀ x, x ∈ rs_jobs f' → x = r' ∨ x ∈ rs_jobs f ∧ pj_id x ≠ id.
Proof.
  intros [Hs Hj Hb] Hu Hc. unfold update_file in Hu. apply bind_Ok in Hu as ([] & _ & Hu). apply bind_Ok in Hu as (jobs & Ha & Hu).
  apply Ok_inj in Hu as <-. apply alter_job_spec in Ha as (l1 & r & r' & l2 & Hl & -> & Hid & Hcr). rewrite Hl in *.
  assert (r ∈ l1 ++ r :: l2) as Hin by (apply elem_of_app; right; left).
  destruct (Hc r r' Hin Hid Hcr) as [Hstep Hval]. destruct (alter_ok l1 r r' l2 Hstep Hval Hj) as [Hok Hst].
  assert (length (l1 ++ r' :: l2) ≤ RESOLUTION_MAX_JOBS)%nat as Hlen by (rewrite !length_app in *; done).
  rewrite (trim_id _ Hlen). split; [by split|]. split; [done|]. exists r, r'. split; [done|]. split; [done|]. split; [done|].
  split; [simpl; apply elem_of_app; right; left|]. simpl. intros x Hx. destruct Hj as [_ Hnd _ _].
  rewrite fmap_app, fmap_cons in Hnd. apply NoDup_app in Hnd as (_ & Hn1 & Hn2). apply NoDup_cons in Hn2 as [Hn2 _].
  rewrite elem_of_app, elem_of_cons in Hx. destruct Hx as [Hx|[->|Hx]]; [right|by left|right].
  - split; [apply elem_of_app; by left|]. intros He. apply (Hn1 (pj_id x)); [by apply list_elem_of_fmap_2|]. rewrite He, <-Hid. left.
  - split; [apply elem_of_app; right; by right|]. intros He. apply Hn2. rewrite Hid, <-He. by apply list_elem_of_fmap_2.
Qed.

(** What an update with [insert_job] writes. *)
Lemma update_insert f record f' :
  store_ok f → update_file (insert_job record) f = Ok f' → validate_record record = Ok tt →
  pj_assignment_state record = RsActive → pj_result record = None →
  (∀ r, r ∈ rs_jobs f → pj_path r = pj_path record → pj_terminal r = true) →
  store_ok f' ∧ store_step (rs_jobs f) (rs_jobs f') ∧ ∀ x, x ∈ rs_jobs f' → x = record ∨ x ∈ rs_jobs f.
Proof.
  intros [Hs Hj Hb] Hu Hval Hact Hres Hpath. unfold update_file in Hu. apply bind_Ok in Hu as ([] & _ & Hu).
  apply bind_Ok in Hu as (jobs & Ha & Hu). apply Ok_inj in Hu as <-. unfold insert_job in Ha.
  apply bind_Ok in Ha as ([] & Hnew & Ha). apply bind_Ok in Ha as ([] & _ & Ha). apply bind_Ok in Ha as ([] & Hcount & Ha).
  apply Ok_inj in Ha as <-. apply ensure_Ok, negb_true_iff in Hnew. apply ensure_Ok, Nat.ltb_lt in Hcount.
  assert (pj_id record ∉ (pj_id <$> rs_jobs f)) as Hid.
  { intros (r & Hr & Hin)%list_elem_of_fmap. apply not_true_iff_false in Hnew. apply Hnew, existsb_exists. exists r.
    split; [by apply list_elem_of_In|]. by rewrite bool_decide_true. }
  assert (non_terminal (rs_jobs f ++ [record]) = non_terminal (rs_jobs f) ++ [record]) as Hnt
    by (unfold non_terminal; rewrite List.filter_app; simpl; unfold pj_terminal at 2; by rewrite Hact).
  destruct Hj as [Hv Hi Hp Ho]. assert (jobs_ok (rs_jobs f ++ [record])) as Hok.
  { split; [apply Forall_app; split; [done|by constructor]| | |].
    - rewrite fmap_app. apply NoDup_app. split; [done|]. split; [|apply NoDup_singleton].
      intros x Hx ->%list_elem_of_singleton. done.
    - rewrite Hnt, fmap_app. apply NoDup_app. split; [done|]. split; [|apply NoDup_singleton].
      intros x (r & -> & [Hr Hn]%filter_elem)%list_elem_of_fmap Hin%list_elem_of_singleton.
      rewrite (Hpath r Hr) in Hn; done.
    - rewrite Hnt, length_app. unfold non_terminal. simpl. lia. }
  split; [split; simpl; [done|by apply trim_ok|apply trim_bound, Hok]|]. split; [split|]; simpl.
  - intros x Hx%trim_from. rewrite elem_of_app, list_elem_of_singleton in Hx. destruct Hx as [Hx| ->]; [left|by right].
    exists x. split; [done|]. split; [done|by left].
  - intros r Hr Ht. exists r. split; [|done]. apply trim_kept; [apply elem_of_app; by left|done].
  - intros x Hx%trim_from. rewrite elem_of_app, list_elem_of_singleton in Hx. by destruct Hx; [right|left].
Qed.
End store.
