(* ===== verification/ResolutionInvariant.v ===== *)
(** * Conflict resolution: every step keeps the invariant *)
From Stdlib Require Import ZArith Lia Ascii Strings.Byte.
From stdpp Require Import sorting numbers strings gmap list_numbers list pretty options.
From S2P Require Import Prelude Text Paths Model WorkContract AgentContract WorkReducer IntegratorContract.
From S2P Require Import IntegratorSelection ResolutionContract ResolutionStore ResolutionIdentity Designation DesignationProps.
From S2P Require Import Resolution ResolutionProps.

Local Open Scope Z_scope.

(** What a publication changes: the path, which becomes the candidate, and the conflict there.  The
    candidate's bytes have the recorded hash; the file is their sealing, which was uploaded. *)
Definition candidate_file `{Blake3, Sealing} (uploads : list (string * list byte)) (path : string) (c : CandidateDescriptor)
    (file : FileState) : Prop :=
  ∃ bytes packed, hash_bytes bytes = ct_hash c ∧ seal bytes path = Ok (fs_hash file, packed) ∧ (fs_hash file, packed) ∈ uploads
    ∧ fs_path file = path ∧ fs_deleted file = false ∧ fs_size file = zlen bytes ∧ fs_mode file = ct_mode c.
Definition candidate_applied `{Blake3, Sealing} (uploads : list (string * list byte)) (path : string) (c : option CandidateDescriptor)
    (before after : gmap string FileState) : Prop :=
  match c with
  | None => after = before
  | Some c => if ct_deleted c then after = delete path before else
      ∃ file, after = <[path := file]> before ∧ candidate_file uploads path c file
  end.
Record plan_exact `{Blake3, Sealing} (uploads : list (string * list byte)) (p : PlannedResolutionPublication) : Prop := {
  px_files : candidate_applied uploads (ci_path (rp_identity (pp_plan p))) (rp_candidate (pp_plan p)) (vw_files (pp_before p))
    (vw_files (pp_after p));
  px_conflicts c : c ∈ vw_conflicts (pp_after p) ↔ c ∈ vw_conflicts (pp_before p) ∧ ce_path c ≠ ci_path (rp_identity (pp_plan p));
  px_conflict : ∃ c, find_conflict (ci_path (rp_identity (pp_plan p))) (pp_before p) = Some c
    ∧ leg_descriptor (ce_base c) = ci_base (rp_identity (pp_plan p)) ∧ leg_descriptor (ce_ours c) = ci_ours (rp_identity (pp_plan p))
    ∧ leg_descriptor (ce_theirs c) = ci_theirs (rp_identity (pp_plan p));
  px_head : pp_expected_head p = ci_current_snapshot (rp_identity (pp_plan p));
}.
Lemma plan_exact_mono `{Blake3, Sealing} uploads x p : plan_exact uploads p → plan_exact (x :: uploads) p.
Proof.
  intros [Hf Hcs Hc Hh]. split; [|done..]. unfold candidate_applied, candidate_file in *. destruct (rp_candidate _) as [c|]; [|done].
  destruct (ct_deleted c); [done|]. destruct Hf as (file & ? & bytes & packed & ? & ? & ? & ?). exists file. split; [done|].
  exists bytes, packed. split; [done|]. split; [done|]. split; [by right|done].
Qed.
(** The publication of the result the record holds. *)
Record publishes (p : PlannedResolutionPublication) (r : PersistedResolutionJob) : Prop := {
  pm_identity : rp_identity (pp_plan p) = rj_conflict (pj_job r);
  pm_author : rp_author (pp_plan p) = rj_owner (pj_job r);
  pm_candidate : ∃ result, pj_result r = Some result ∧ rp_candidate (pp_plan p) = rr_candidate result;
}.
Definition published (g : Engine) (r : PersistedResolutionJob) : Prop := ∃ p, p ∈ eg_swaps g ∧ publishes p r.
Lemma publishes_ext p r r' : pj_job r' = pj_job r → pj_result r' = pj_result r → publishes p r → publishes p r'.
Proof. intros Hj Hr [H1 H2 H3]. split; [by rewrite Hj|by rewrite Hj|by rewrite Hr]. Qed.

Section invariant.
Context `{Unicode, Blake3, IntegratorJson, Sealing} (answers : nat → EngineAnswer).
(** The ids of the snapshots the engine writes differ from the heads others set. *)
Context (other_heads : ∀ i j h, ea_head (answers i) = Some (Some h) → h ≠ ea_snapshot_id (answers j)).

Record engine_ok (g : Engine) : Prop := {
  eo_store : store_ok (eg_store g);
  eo_stores : Forall store_ok (eg_stores g);
  eo_current : eg_store g = default fresh_store (head (eg_stores g));
  eo_linked i new old : (eg_stores g ++ [fresh_store]) !! i = Some new → (eg_stores g ++ [fresh_store]) !! S i = Some old →
    store_step (rs_jobs old) (rs_jobs new);
  eo_plans id p : (id, p) ∈ eg_plans g →
    plan_exact (eg_uploads g) p ∧ ∃ i, (i < eg_asked g)%nat ∧ pp_candidate_id p = ea_snapshot_id (answers i);
  eo_plan_ids : NoDup ((λ x, pp_candidate_id x.2) <$> eg_plans g);
  eo_swaps p : p ∈ eg_swaps g → ∃ id, (id, p) ∈ eg_plans g;
  eo_heads : ∃ rest, eg_heads g = eg_head g :: rest;
  eo_ours i : Some (ea_snapshot_id (answers i)) ∈ eg_heads g →
    ∃ p, p ∈ eg_swaps g ∧ pp_candidate_id p = ea_snapshot_id (answers i);
  eo_adjacent p : p ∈ eg_swaps g →
    ∃ l1 l2, eg_heads g = l1 ++ Some (pp_candidate_id p) :: Some (pp_expected_head p) :: l2;
  eo_completed r : r ∈ rs_jobs (eg_store g) → pj_assignment_state r = RsCompleted → published g r;
  eo_journal r j : r ∈ rs_jobs (eg_store g) → pj_assignment_state r = RsPublicationUncertain →
    eg_journals g !! pj_id r = Some j →
    ∃ p, (pj_id r, p) ∈ eg_plans g ∧ pp_candidate_id p = jn_planned_head j ∧ publishes p r;
}.

(** ** Specifications *)
Definition keeps {A} (P : Engine → Prop) (m : Resolve A) (Q : A → Engine → Prop) : Prop :=
  ∀ g, engine_ok g → P g → engine_ok (m g).1 ∧ match (m g).2 with Done a => Q a (m g).1 | _ => True end.
Lemma keeps_done {A} (P : Engine → Prop) (a : A) (Q : A → Engine → Prop) :
  (∀ g, P g → Q a g) → keeps P (mret (M:=Resolve) a) Q.
Proof using. intros HQ g Hg HP. split; [done|]. by apply HQ. Qed.
Lemma keeps_failed {A} P e Q : keeps P (failed (A:=A) e) Q.
Proof using. intros g Hg HP. by split. Qed.
Lemma keeps_died {A} P Q : keeps P (died (A:=A)) Q.
Proof using. intros g Hg HP. by split. Qed.
Lemma keeps_seq {A B} P (m : Resolve A) R (f : A → Resolve B) Q :
  keeps P m R → (∀ a, keeps (R a) (f a) Q) → keeps P (m ≫= f) Q.
Proof using.
  intros Hm Hf g Hg HP. destruct (Hm g Hg HP) as [Hok HR]. unfold mbind, resolve_bind.
  destruct (m g) as [g1 [a|e|]]; simpl in *; [|by split|by split]. by apply Hf.
Qed.
Lemma keeps_conseq {A} (P P' : Engine → Prop) (m : Resolve A) (Q Q' : A → Engine → Prop) :
  keeps P m Q → (∀ g, engine_ok g → P' g → P g) → (∀ a g, engine_ok g → Q a g → Q' a g) → keeps P' m Q'.
Proof using.
  intros Hm HP HQ g Hg HP'. destruct (Hm g Hg (HP g Hg HP')) as [Hok Hr]. split; [done|].
  destruct (m g).2; [|done|done]. by apply HQ.
Qed.
Lemma keeps_of_result {A B} P (r : Result A) (f : A → Resolve B) Q :
  (∀ a, r = Ok a → keeps P (f a) Q) → keeps P (of_result r ≫= f) Q.
Proof using. intros Hf g Hg HP. destruct r as [a|e]; [by apply Hf|by split]. Qed.
Lemma keeps_ensured {B} P b e (f : unit → Resolve B) Q :
  (b = true → keeps P (f tt) Q) → keeps P (ensured b e ≫= f) Q.
Proof using. intros Hf. apply keeps_of_result. intros [] Hb%ensure_Ok. by apply Hf. Qed.
Lemma keeps_attempt {A} P (m : Resolve A) Q :
  keeps P m Q → keeps P (attempt m) (λ r g, match r with inl a => Q a g | inr _ => True end).
Proof using.
  intros Hm g Hg HP. destruct (Hm g Hg HP) as [Hok HQ]. unfold attempt. destruct (m g) as [g1 [a|e|]]; by split.
Qed.

(** A question leaves everything but the head, the views and the clock. *)
Definition extends (g g' : Engine) : Prop :=
  eg_store g' = eg_store g ∧ eg_stores g' = eg_stores g ∧ eg_journals g' = eg_journals g ∧ eg_plans g' = eg_plans g
  ∧ eg_swaps g' = eg_swaps g ∧ eg_uploads g' = eg_uploads g.
Definition stable (P : Engine → Prop) : Prop := ∀ g g', extends g g' → P g → P g'.
Lemma stable_both P Q : stable P → stable Q → stable (λ g, P g ∧ Q g).
Proof using. intros HP HQ g g' He [? ?]. split; [by eapply HP|by eapply HQ]. Qed.
Lemma stable_true : stable (λ _, True).
Proof using. done. Qed.

Lemma published_ext g g' r : eg_swaps g' = eg_swaps g → published g r → published g' r.
Proof using. intros Hs (p & Hp & Hm). exists p. by rewrite Hs. Qed.
Lemma question_ok g : engine_ok g → engine_ok (question answers g).1 ∧ extends g (question answers g).1.
Proof using other_heads.
  intros [Hs Hss Hc Hl Hp Hpi Hsw [rest Hh] Ho Ha Hcomp Hj]. unfold question.
  set (g' := mkEngine _ _ _ _ _ _ _ _ _ _ _).
  assert (engine_ok g' ∧ extends g g') as Hok; [|by destruct (ea_dies _)]. split; [|done]. split; simpl; try done.
  - intros id p Hin. destruct (Hp id p Hin) as [? (i & Hi & ?)]. split; [done|]. exists i. split; [lia|done].
  - destruct (ea_head _); simpl; [by eexists|by exists rest].
  - intros i. destruct (ea_head (answers (eg_asked g))) as [h|] eqn:Hhead; [|apply Ho].
    intros [Heq|Hin]%elem_of_cons; [|by apply Ho]. destruct h as [h|]; [|done]. injection Heq as Heq.
    by apply (other_heads _ i) in Hhead.
  - intros p Hin. destruct (Ha p Hin) as (l1 & l2 & ->). destruct (ea_head _) as [h|]; [by exists (h :: l1), l2|by exists l1, l2].
Qed.
Lemma keeps_question P : stable P → keeps P (question answers) (λ _, P).
Proof using other_heads.
  intros Hst g Hg HP. destruct (question_ok g Hg) as [Hok He]. split; [done|].
  destruct (question answers g) as [g' [a|e|]]; [|done|done]. by eapply Hst.
Qed.
Lemma keeps_reading {A} P (f : EngineAnswer → Engine → Outcome A) (Q : A → Engine → Prop) :
  stable P → (∀ a g b, P g → f a g = Done b → Q b g) → keeps P (reading answers f) Q.
Proof using other_heads.
  intros Hst HQ. eapply keeps_seq; [by apply keeps_question|]. intros a g Hg HP. split; [done|]. simpl.
  destruct (ea_fails a); [done|]. destruct (f a g) as [b|e|] eqn:Hf; [|done|done]. by eapply HQ.
Qed.
(** A read whose value is not used in an argument. *)
Lemma keeps_read {A} P (f : EngineAnswer → Engine → Outcome A) : stable P → keeps P (reading answers f) (λ _, P).
Proof using other_heads. intros Hst. by apply keeps_reading. Qed.
Lemma keeps_writing P (effect : EngineAnswer → Engine → Engine) Q :
  stable P → (∀ a g, engine_ok g → P g → engine_ok (effect a g) ∧ Q (effect a g)) → keeps P (writing answers effect) (λ _, Q).
Proof using other_heads.
  intros Hst HQ. eapply keeps_seq; [by apply keeps_question|]. intros a g Hg HP. simpl.
  destruct (HQ a g Hg HP) as [Hok Hq]. unfold act. destruct (ea_fails a); [|by split]. by destruct (ea_applied a).
Qed.
Lemma keeps_clock P : stable P → keeps P (now_ms answers) (λ _, P).
Proof using other_heads. intros Hst. eapply keeps_seq; [by apply keeps_question|]. intros a. by apply keeps_done. Qed.

(** ** The store *)
Definition jobs_of (g : Engine) : list PersistedResolutionJob := rs_jobs (eg_store g).
Lemma keeps_store_load P : stable P → keeps P (store_load answers) (λ f g, P g ∧ f = eg_store g).
Proof using other_heads.
  intros Hst. apply keeps_reading; [done|]. intros a g f HP. destruct (load_file (eg_store g)) as [f'|] eqn:Hf; [|done].
  intros [= <-]. split; [done|]. by apply load_file_inv.
Qed.
Lemma keeps_store_job P id : stable P → keeps P (store_job answers id) (λ r g, P g ∧ r ∈ jobs_of g ∧ pj_id r = id).
Proof using other_heads.
  intros Hst. eapply keeps_seq; [by apply keeps_store_load|]. intros f g Hg [HP ->]. simpl.
  unfold find_job, or_context. destruct (find _ _) as [r|] eqn:Hf; simpl; [|done]. split; [done|]. split; [done|].
  apply find_some in Hf as [Hin Hid]. apply bool_decide_eq_true in Hid. split; [by apply list_elem_of_In|done].
Qed.
Lemma set_store_ok g f :
  engine_ok g → store_ok f → store_step (jobs_of g) (rs_jobs f) →
  (∀ r, r ∈ rs_jobs f → pj_assignment_state r = RsCompleted → published g r) →
  (∀ r j, r ∈ rs_jobs f → pj_assignment_state r = RsPublicationUncertain → eg_journals g !! pj_id r = Some j →
     ∃ p, (pj_id r, p) ∈ eg_plans g ∧ pp_candidate_id p = jn_planned_head j ∧ publishes p r) →
  engine_ok (set_store f g).
Proof using.
  intros [Hs Hss Hc Hl Hp Hpi Hsw Hh Ho Ha Hcomp Hj] Hf Hst Hcomp' Hj'. split; simpl; try done; [by constructor|].
  intros [|i] new old; simpl.
  - intros [= <-] Ho'. assert (old = eg_store g) as ->; [|done]. rewrite Hc. destruct (eg_stores g); simpl in *; congruence.
  - apply Hl.
Qed.
Lemma keeps_update P c Q :
  stable P →
  (∀ g f, engine_ok g → P g → update_file c (eg_store g) = Ok f →
     store_ok f ∧ store_step (jobs_of g) (rs_jobs f)
     ∧ (∀ r, r ∈ rs_jobs f → pj_assignment_state r = RsCompleted → published g r)
     ∧ (∀ r j, r ∈ rs_jobs f → pj_assignment_state r = RsPublicationUncertain → eg_journals g !! pj_id r = Some j →
          ∃ p, (pj_id r, p) ∈ eg_plans g ∧ pp_candidate_id p = jn_planned_head j ∧ publishes p r)
     ∧ Q (set_store f g)) →
  keeps P (store_update answers c) (λ _, Q).
Proof using other_heads.
  intros Hst HQ. eapply keeps_seq; [by apply keeps_question|]. intros a g Hg HP. unfold act.
  destruct (update_file c (eg_store g)) as [f|e] eqn:Hu; [|by split].
  destruct (HQ g f Hg HP Hu) as (Hf & Hstep & Hc & Hj & Hq). pose proof (set_store_ok g f Hg Hf Hstep Hc Hj) as Hok.
  destruct (ea_fails a); [by destruct (ea_applied a)|]. split; [done|]. simpl. by destruct (load_file f).
Qed.

Lemma store_unique g r r' : engine_ok g → r ∈ jobs_of g → r' ∈ jobs_of g → pj_id r = pj_id r' → r = r'.
Proof using.
  intros [[_ [_ Hi _ _] _] _ _ _ _ _ _ _ _ _ _ _] Hr Hr' He. unfold jobs_of in *.
  apply list_elem_of_lookup in Hr as [i Hi1], Hr' as [j Hj1].
  assert (i = j) as ->; [|congruence]. apply (proj1 (NoDup_alt _) Hi i j (pj_id r)).
  - by rewrite list_lookup_fmap, Hi1.
  - by rewrite list_lookup_fmap, Hj1, He.
Qed.
Lemma keeps_alter P id c Q :
  stable P →
  (∀ g r r', engine_ok g → P g → r ∈ jobs_of g → pj_id r = id → c r = Ok r' →
     record_step r r' ∧ validate_record r' = Ok tt
     ∧ (pj_assignment_state r' = RsCompleted → published g r')
     ∧ (pj_assignment_state r' = RsPublicationUncertain → ∀ j, eg_journals g !! id = Some j →
          ∃ p, (id, p) ∈ eg_plans g ∧ pp_candidate_id p = jn_planned_head j ∧ publishes p r')
     ∧ ∀ f, (∀ x, x ∈ rs_jobs f → x = r' ∨ x ∈ jobs_of g ∧ pj_id x ≠ id) → Q (set_store f g)) →
  keeps P (store_update answers (alter_job id c)) (λ _, Q).
Proof using other_heads.
  intros Hst Hc. apply keeps_update; [done|]. intros g f Hg HP Hu.
  destruct (update_alter (eg_store g) id c f (eo_store g Hg) Hu) as (Hf & Hstep & r & r' & Hr & Hid & Hcr & Hr' & Hall).
  { intros r r' Hr Hid Hcr. destruct (Hc g r r' Hg HP Hr Hid Hcr) as (? & ? & _). done. }
  destruct (Hc g r r' Hg HP Hr Hid Hcr) as (Hs & _ & Hcomp & Hj & HQ). split; [done|]. split; [done|].
  split; [|split; [|by apply HQ]].
  - intros x Hx Hxc. destruct (Hall x Hx) as [->|[Hin _]]; [by apply Hcomp|by apply (eo_completed g Hg)].
  - intros x j Hx Hxu Hxj. destruct (Hall x Hx) as [->|[Hin _]]; [|by apply (eo_journal g Hg)].
    destruct (record_step_id _ _ Hs) as [Hid' _]. rewrite Hid', Hid in *. by apply Hj.
Qed.

(** Moving a record to another state. *)
Lemma move_to_Ok s r r' :
  move_to s r = Ok r' → r' = record_with_state s r ∧ transition_allowed (pj_assignment_state r) s = true.
Proof using. unfold move_to, assert_state_transition. intros Hm. apply bind_Ok in Hm as ([] & He & Hm). apply ensure_Ok in He. by apply Ok_inj in Hm as <-. Qed.
Lemma move_record_ok g s r :
  engine_ok g → r ∈ jobs_of g → transition_allowed (pj_assignment_state r) s = true →
  record_step r (record_with_state s r) ∧ validate_record (record_with_state s r) = Ok tt.
Proof using.
  intros Hg Hr Ht. split; [split; [done|by right]|].
  exact (proj1 (Forall_forall _ _) (jo_valid _ (to_jobs _ (eo_store g Hg))) r Hr).
Qed.
Lemma keeps_move P id s Q :
  stable P →
  (∀ g r, engine_ok g → P g → r ∈ jobs_of g → pj_id r = id → transition_allowed (pj_assignment_state r) s = true →
     (s = RsCompleted → published g r)
     ∧ (s = RsPublicationUncertain → ∀ j, eg_journals g !! id = Some j →
          ∃ p, (id, p) ∈ eg_plans g ∧ pp_candidate_id p = jn_planned_head j ∧ publishes p r)
     ∧ ∀ f, (∀ x, x ∈ rs_jobs f → x = record_with_state s r ∨ x ∈ jobs_of g ∧ pj_id x ≠ id) → Q (set_store f g)) →
  keeps P (move_job answers id s) (λ _, Q).
Proof using other_heads.
  intros Hst HQ. apply keeps_alter; [done|]. intros g r r' Hg HP Hr Hid [-> Ht]%move_to_Ok.
  destruct (HQ g r Hg HP Hr Hid Ht) as (Hc & Hj & Hf). destruct (move_record_ok g s r Hg Hr Ht) as [Hs Hv].
  split; [done|]. split; [done|]. simpl. split; [|split; [|done]].
  - intros ->. destruct (Hc eq_refl) as (p & Hp & Hm). exists p. split; [done|]. by apply (publishes_ext p r).
  - intros -> j Hjl. destruct (Hj eq_refl j Hjl) as (p & ? & ? & Hm). exists p. split; [done|]. split; [done|]. by apply (publishes_ext p r).
Qed.

(** ** Journals and history *)
Lemma remove_journal_keeps P id :
  stable P → (∀ g j, P g → P (set_journals j g)) → keeps P (remove_journal answers id) (λ _, P).
Proof using other_heads.
  intros Hst HP. eapply (keeps_seq _ _ (λ _, P)).
  - intros g Hg Hp. destruct (question_ok g Hg) as [Hok He]. unfold attempt, writing, mbind, resolve_bind.
    pose proof (Hst _ _ He Hp) as Hp'. destruct (question answers g) as [g1 [a|e|]]; simpl in *; [|done|done].
    assert (engine_ok (set_journals (delete id (eg_journals g1)) g1)) as Hdel.
    { destruct Hok as [Hs Hss Hc Hl Hpl Hpi Hsw Hh Ho Ha Hcomp Hj]. split; simpl; try done.
      intros r j Hr Hu [_ Hjl]%lookup_delete_Some. by apply Hj. }
    unfold act. destruct (ea_fails a); [destruct (ea_applied a)|]; simpl; (split; [done|]); auto.
  - intros r. by apply keeps_done.
Qed.
Lemma history_ok g h : engine_ok g → engine_ok (set_history h g).
Proof using. intros [Hs Hss Hc Hl Hp Hpi Hsw Hh Ho Ha Hcomp Hj]. by split. Qed.

(** ** Completing *)

(** The publication of the uncertain record with this id took effect. *)
Definition confirmed (id : string) (g : Engine) : Prop :=
  ∀ r, r ∈ jobs_of g → pj_id r = id → pj_assignment_state r = RsPublicationUncertain → published g r.
(** Only records with these ids are uncertain. *)
Definition unsettled (ids : list string) (g : Engine) : Prop :=
  ∀ r, r ∈ jobs_of g → pj_assignment_state r = RsPublicationUncertain → pj_id r ∈ ids.
Lemma stable_confirmed id : stable (confirmed id).
Proof using. intros g g' (Hs & _ & _ & _ & Hsw & _) HP. unfold confirmed, published, jobs_of in *. by rewrite Hs, Hsw. Qed.
Lemma stable_unsettled ids : stable (unsettled ids).
Proof using. intros g g' (Hs & _) HP. unfold unsettled, jobs_of in *. by rewrite Hs. Qed.
Lemma stable_in r : stable (λ g, r ∈ jobs_of g).
Proof using. intros g g' (Hs & _) HP. unfold jobs_of in *. by rewrite Hs. Qed.
Hint Resolve stable_both stable_true stable_confirmed stable_unsettled stable_in : stable.

Lemma settled_others id ids g r f :
  engine_ok g → unsettled (id :: ids) g → pj_assignment_state r ≠ RsPublicationUncertain →
  (∀ x, x ∈ rs_jobs f → x = r ∨ x ∈ jobs_of g ∧ pj_id x ≠ id) → unsettled ids (set_store f g).
Proof using.
  intros Hg Hu Hr Hf x Hx Hxu. destruct (Hf x Hx) as [->|[Hin Hne]]; [done|]. specialize (Hu x Hin Hxu).
  by apply elem_of_cons in Hu as [?|?].
Qed.
Lemma settled_record id ids g r :
  engine_ok g → unsettled (id :: ids) g → r ∈ jobs_of g → pj_id r = id → pj_assignment_state r ≠ RsPublicationUncertain →
  unsettled ids g.
Proof using.
  intros Hg Hun Hr Hid Hne x Hx Hxu. pose proof (Hun x Hx Hxu) as Hi. apply elem_of_cons in Hi as [Hi|Hi]; [|done].
  assert (r = x) as ->; [|done]. apply (store_unique g); [done..|congruence].
Qed.
Lemma complete_keeps id ids :
  keeps (λ g, confirmed id g ∧ unsettled (id :: ids) g) (complete_publication answers id) (λ _, unsettled ids).
Proof using other_heads.
  set (P := λ g, confirmed id g ∧ unsettled (id :: ids) g). assert (stable P) as HP by (unfold P; eauto with stable).
  unfold complete_publication. eapply keeps_seq; [by apply (keeps_store_job P)|]. intros r.
  destruct (bool_decide_reflect (pj_assignment_state r = RsPublicationUncertain)) as [Hu|Hu]; simpl.
  2: { intros g Hg ([_ Hun] & Hr & Hid). unfold ensured, of_result. destruct (ensure _ _); [|done]. split; [done|].
       by eapply settled_record. }
  apply (keeps_conseq P _ _ (λ _, unsettled ids)); [|by intros g _ (? & _)|done]. apply keeps_of_result. intros result _.
  eapply keeps_seq; [by apply (keeps_read P)|]. intros pending.
  eapply (keeps_seq _ _ (λ _, P)).
  { eapply keeps_seq; [by apply (keeps_read P)|]. intros already. destruct already; [by apply keeps_done|].
    apply keeps_writing; [done|]. intros _ g Hg Hp. split; [by apply history_ok|done]. }
  intros _. eapply (keeps_seq _ _ (λ _, P)); [by apply keeps_writing|]. intros _.
  eapply (keeps_seq _ _ (λ _, P)).
  { intros g Hg Hp. destruct (question_ok g Hg) as [Hok He]. unfold attempt, writing, mbind, resolve_bind.
    pose proof (HP _ _ He Hp). destruct (question answers g) as [g1 [a|e|]]; simpl in *; [|done|done].
    unfold act. destruct (ea_fails a); [destruct (ea_applied a)|]; done. }
  intros _. eapply (keeps_seq _ _ (λ _, unsettled ids)).
  - apply keeps_move; [done|]. intros g x Hg [Hc Hun] Hx Hid Ht. split; [|split; [done|]].
    + intros _. apply Hc; [done..|]. by destruct (pj_assignment_state x).
    + intros f Hf. eapply settled_others; [done|done| |exact Hf]. done.
  - intros _. apply remove_journal_keeps; [apply stable_unsettled|done].
Qed.

(** ** Recovery *)
Lemma fail_closed_keeps id ids :
  keeps (unsettled (id :: ids)) (fail_closed_recovery answers id) (λ _, unsettled ids).
Proof using other_heads.
  eapply (keeps_seq _ _ (λ _, unsettled ids)); [|intros _; apply remove_journal_keeps; [apply stable_unsettled|done]].
  apply keeps_alter; [apply stable_unsettled|]. intros g r r' Hg Hun Hr Hid Hc.
  destruct (bool_decide_reflect (pj_assignment_state r = RsPublicationUncertain)) as [Hu|Hu].
  - apply move_to_Ok in Hc as [-> Ht]. destruct (move_record_ok g RsStale r Hg Hr Ht) as [Hs Hv].
    split; [done|]. split; [done|]. split; [done|]. split; [done|]. intros f Hf.
    apply (settled_others id ids g (record_with_state RsStale r)); done.
  - apply Ok_inj in Hc as <-. split; [split; [done|by left]|].
    split; [exact (proj1 (Forall_forall _ _) (jo_valid _ (to_jobs _ (eo_store g Hg))) r Hr)|].
    split; [by apply (eo_completed g Hg)|]. split; [done|]. intros f Hf. by apply (settled_others id ids g r).
Qed.
(** A head the engine wrote is the head of a swap. *)
Definition ours (h : option string) (g : Engine) : Prop :=
  ∀ i, h = Some (ea_snapshot_id (answers i)) → ∃ p, p ∈ eg_swaps g ∧ pp_candidate_id p = ea_snapshot_id (answers i).
Lemma stable_ours h : stable (ours h).
Proof using. intros g g' (_ & _ & _ & _ & Hsw & _) Ho i Hi. rewrite Hsw. by apply Ho. Qed.
Lemma get_head_ours P : stable P → keeps P (get_head answers) (λ h g, P g ∧ ours h g).
Proof using other_heads.
  intros HP g Hg Hp. destruct (question_ok g Hg) as [Hok He]. pose proof (HP _ _ He Hp) as Hp'.
  unfold get_head, reading, mbind, resolve_bind. destruct (question answers g) as [g1 [a|e|]]; simpl in *; [|done|done].
  split; [done|]. destruct (ea_fails a); [done|]. split; [done|]. intros i Hi. apply (eo_ours g1 Hok).
  destruct (eo_heads g1 Hok) as [rest ->]. rewrite Hi. left.
Qed.
Lemma journal_read P id :
  stable P → keeps P (read_publication_journal answers id) (λ j g, P g ∧ ∀ j', j = Some j' → eg_journals g !! id = Some j').
Proof using other_heads.
  intros HP g Hg Hp. destruct (question_ok g Hg) as [Hok He]. pose proof (HP _ _ He Hp) as Hp'.
  unfold read_publication_journal, mbind, resolve_bind. destruct (question answers g) as [g1 [a|e|]]; simpl in *; [|done|done].
  split; [done|]. split; [done|]. by destruct (ea_fails a).
Qed.
(** The head the journal planned is the head: the publication took effect. *)
Lemma head_confirms g r j :
  engine_ok g → ours (Some (jn_planned_head j)) g → r ∈ jobs_of g → pj_assignment_state r = RsPublicationUncertain →
  eg_journals g !! pj_id r = Some j → published g r.
Proof using.
  intros Hg Ho Hr Hu Hj. destruct (eo_journal g Hg r j Hr Hu Hj) as (p & Hp & Hpid & Hm).
  destruct (eo_plans g Hg _ _ Hp) as [_ (i & _ & Hi)]. destruct (Ho i) as (q & Hq & Hqid); [congruence|].
  destruct (eo_swaps g Hg q Hq) as [id' Hq']. exists q. split; [done|]. assert (q = p) as ->; [|done].
  apply list_elem_of_lookup in Hp as [a Ha], Hq' as [b Hb].
  assert (a = b) as ->; [|congruence]. apply (proj1 (NoDup_alt _) (eo_plan_ids g Hg) a b (pp_candidate_id p)).
  - by rewrite list_lookup_fmap, Ha.
  - rewrite list_lookup_fmap, Hb. simpl. congruence.
Qed.
(** What recovery knows when it has read the record, the head and the journal. *)
Definition read_all (id : string) (r : PersistedResolutionJob) (h : option string) (j : option PublicationPendingJournal)
    (g : Engine) : Prop :=
  (r ∈ jobs_of g ∧ ours h g) ∧ ∀ j', j = Some j' → eg_journals g !! id = Some j'.
Lemma read_confirms id r h j g :
  engine_ok g → pj_id r = id → pj_assignment_state r = RsPublicationUncertain →
  read_all id r (Some h) (Some j) g → h = jn_planned_head j → confirmed id g.
Proof using.
  intros Hg Hid Hu [[Hr Ho] Hj] -> x Hx Hxid Hxu. assert (x = r) as -> by (apply (store_unique g); [done..|congruence]).
  eapply head_confirms; [done..|]. rewrite Hid. by apply Hj.
Qed.
Lemma recover_one_keeps id ids :
  keeps (unsettled (id :: ids)) (recover_one_uncertain answers id) (λ _, unsettled ids).
Proof using other_heads.
  unfold recover_one_uncertain. eapply keeps_seq; [apply keeps_store_job, stable_unsettled|]. intros r.
  destruct (bool_decide_reflect (pj_assignment_state r = RsPublicationUncertain)) as [Hu|Hu]; simpl.
  2: { intros g Hg (Hun & Hr & Hid). split; [done|]. by eapply settled_record. }
  set (P := λ g, unsettled (id :: ids) g ∧ r ∈ jobs_of g ∧ pj_id r = id).
  assert (stable P) as HP by (unfold P; apply stable_both; [apply stable_unsettled|apply stable_both; [apply stable_in|by intros g g' _]]).
  eapply keeps_seq; [by apply (get_head_ours P)|]. intros h.
  eapply keeps_seq; [apply journal_read, stable_both; [done|apply stable_ours]|]. intros j.
  apply (keeps_conseq (λ g, unsettled (id :: ids) g ∧ pj_id r = id ∧ read_all id r h j g) _ _ (λ _, unsettled ids));
    [|unfold read_all, P; naive_solver|done].
  set (R := λ g, _). assert (keeps R (_ ← fail_closed_recovery answers id; mret true) (λ _, unsettled ids)) as Hfc.
  { apply (keeps_seq _ _ (λ _, unsettled ids)); [|intros []; by apply keeps_done].
    eapply keeps_conseq; [apply fail_closed_keeps|by intros g _ [? _]|done]. }
  destruct h as [h|]; [|exact Hfc]. destruct j as [j|]; [|exact Hfc]. destruct (_ || _); [exact Hfc|].
  destruct (bool_decide_reflect (h = jn_planned_head j)) as [Hh|_]; [|exact Hfc].
  apply (keeps_seq _ _ (λ _, unsettled ids)); [|intros []; by apply keeps_done].
  eapply keeps_conseq; [apply (complete_keeps id ids)| |done]. intros g Hg (Hun & Hid & Hall). split; [|done].
  by eapply read_confirms.
Qed.
Lemma recover_all_keeps ids n :
  keeps (unsettled ids) (recover_all answers ids n) (λ _, unsettled []).
Proof using other_heads.
  revert n. induction ids as [|id ids IH]; intros n; simpl; [by apply keeps_done|].
  eapply keeps_seq; [apply recover_one_keeps|]. intros one. apply IH.
Qed.
Lemma sweep_keeps ids : keeps (unsettled []) (sweep answers ids) (λ _, unsettled []).
Proof using other_heads.
  induction ids as [|id ids IH]; simpl; [by apply keeps_done|]. apply (keeps_seq _ _ (λ _, unsettled [])); [|intros []; apply IH].
  unfold sweep_one. eapply keeps_seq; [apply (keeps_read (unsettled [])), stable_unsettled|]. intros present.
  destruct (negb present); [by apply keeps_done|]. eapply keeps_seq; [apply keeps_store_job, stable_unsettled|]. intros r.
  eapply keeps_conseq; [apply (remove_journal_keeps (unsettled [])); [apply stable_unsettled|done]|by intros g _ [? _]|done].
Qed.
Lemma recover_engine_keeps : keeps (λ _, True) (recover_uncertain_publications answers) (λ _, unsettled []).
Proof using other_heads.
  unfold recover_uncertain_publications. eapply keeps_seq; [apply keeps_store_load, stable_true|]. intros f.
  set (uncertain := pj_id <$> List.filter is_uncertain (rs_jobs f)).
  apply (keeps_conseq (unsettled uncertain)) with (Q := λ _, unsettled []); [| |done].
  - destruct (bool_decide (uncertain = []) && _) eqn:Hb.
    + apply andb_true_iff in Hb as [Hb _]. apply bool_decide_eq_true in Hb. rewrite Hb. by apply keeps_done.
    + eapply keeps_seq; [apply (keeps_read (unsettled uncertain)), stable_unsettled|]. intros [].
      eapply keeps_seq; [apply recover_all_keeps|]. intros n. eapply keeps_seq; [apply sweep_keeps|]. intros []. by apply keeps_done.
  - intros g _ [_ ->] r Hr Hu. apply list_elem_of_fmap. exists r. split; [done|]. apply filter_elem. split; [done|].
    by apply bool_decide_eq_true.
Qed.
End invariant.
