(* ===== verification/ResolutionOps.v ===== *)
(** * Conflict resolution: the operations keep the invariant *)
From Stdlib Require Import ZArith Lia Ascii Strings.Byte.
From stdpp Require Import sorting numbers strings gmap list_numbers list pretty options.
From S2P Require Import Prelude Text Paths Model WorkContract AgentContract WorkReducer IntegratorContract.
From S2P Require Import IntegratorSelection ResolutionContract ResolutionStore ResolutionIdentity Designation DesignationProps.
From S2P Require Import Resolution ResolutionProps ResolutionInvariant.

Local Open Scope Z_scope.

Section operations.
Context `{Unicode, Blake3, IntegratorJson, Sealing} (answers : nat → EngineAnswer).
Context (fresh_ids : ∀ i j, ea_snapshot_id (answers i) = ea_snapshot_id (answers j) → i = j).
Context (other_heads : ∀ i j h, ea_head (answers i) = Some (Some h) → h ≠ ea_snapshot_id (answers j)).
Context (workspace_id : string) (format_version : Z) (journal_bytes : PublicationPendingJournal → Z).
Local Notation keeps := (keeps answers).
Local Notation engine_ok := (engine_ok answers).
Local Hint Resolve stable_both stable_true stable_confirmed stable_unsettled stable_in : stable.

(** ** Planning *)
Lemma keeps_get_head P : stable P → keeps P (get_head answers) (λ _, P).
Proof using other_heads. intros HP. by apply keeps_read. Qed.
Lemma read_candidate_spec opened c bytes :
  read_candidate opened c = Done bytes → ct_deleted c = false → hash_bytes bytes = ct_hash c.
Proof using.
  unfold read_candidate. intros Hr Hd. rewrite Hd in Hr. destruct opened; try done.
  repeat match type of Hr with (if ?b then _ else _) = _ => destruct b eqn:?; [discriminate Hr|] end.
  injection Hr as <-. to_prop. done.
Qed.
(** The state the path will have. *)
Definition candidate_state_ok (uploads : list (string * list byte)) (path : string) (c : option CandidateDescriptor)
    (s : option (option FileState)) : Prop :=
  match c with
  | None => s = None
  | Some c => if ct_deleted c then s = Some None else ∃ file, s = Some (Some file) ∧ candidate_file uploads path c file
  end.
Lemma add_upload_ok g id object : engine_ok g → engine_ok (add_upload id object g).
Proof using.
  intros [Hs Hss Hc Hl Hp Hpi Hsw Hh Ho Ha Hcomp Hj]. split; simpl; try done.
  intros id' p Hin. destruct (Hp id' p Hin) as [Hx ?]. split; [by apply plan_exact_mono|done].
Qed.
Lemma upload_keeps P path c :
  stable P → (∀ g id object, P g → P (add_upload id object g)) →
  keeps P (upload_candidate answers path c) (λ s g, P g ∧ candidate_state_ok (eg_uploads g) path (Some c) (Some s)).
Proof using other_heads.
  intros HP HPu. unfold upload_candidate.
  eapply (keeps_seq _ _ _ (λ bytes g, P g ∧ (ct_deleted c = false → hash_bytes bytes = ct_hash c))).
  { apply keeps_reading; [done..|]. intros a g bytes Hp Hr. split; [done|]. by eapply read_candidate_spec. }
  intros bytes. unfold candidate_state_ok. destruct (ct_deleted c); [apply keeps_done; by intros g [? _]|].
  apply keeps_of_result. intros [id packed] Hseal. simpl.
  set (R := λ g, P g ∧ hash_bytes bytes = ct_hash c ∧ (id, packed) ∈ eg_uploads g).
  assert (stable R) as HR.
  { intros g g' He (Hp & Hb & Hu). split; [by eapply HP|]. split; [done|]. by destruct He as (_ & _ & _ & _ & _ & ->). }
  eapply (keeps_seq _ _ _ (λ _, R)).
  { apply keeps_writing; [done|apply stable_both; [done|by intros g g' _]|]. intros _ g Hg [Hp Hb].
    split; [by apply add_upload_ok|]. split; [by apply HPu|]. split; [by apply Hb|left]. }
  intros []. eapply keeps_seq; [by apply (keeps_clock answers other_heads R)|]. intros now. apply keeps_done.
  intros g (Hp & Hb & Hu). split; [done|]. eexists. split; [done|]. by exists bytes, packed.
Qed.

(** Adding a plan with a new id. *)
Lemma add_plan_ok g i id p :
  engine_ok g → plan_exact (eg_uploads g) p → pp_candidate_id p = ea_snapshot_id (answers i) → (i < eg_asked g)%nat →
  (∀ id' q, (id', q) ∈ eg_plans g → pp_candidate_id q ≠ pp_candidate_id p) → engine_ok (add_plan id p g).
Proof using.
  intros [Hs Hss Hc Hl Hp Hpi Hsw Hh Ho Ha Hcomp Hj] Hx Hi Hlt Hnew. split; simpl; try done.
  - intros id' q [[= -> ->]|Hin]%elem_of_cons; [split; [done|by exists i]|by eapply Hp].
  - apply NoDup_cons. split; [|done]. intros ([id' q] & Hq & Hin)%list_elem_of_fmap. simpl in Hq. by apply (Hnew id' q).
  - intros q Hq. destruct (Hsw q Hq) as [id' Hin]. exists id'. by right.
  - intros r j Hr Hu Hjl. destruct (Hj r j Hr Hu Hjl) as (q & Hq & ?). exists q. split; [by right|done].
Qed.
Lemma write_snapshot_keeps P id plan head before state :
  stable P → (∀ g p, P g → P (add_plan id p g)) →
  (∀ g a, P g → plan_exact (eg_uploads g) (mkPlanned head (ea_snapshot_id a) plan before
          (resolved_view (ea_root a) (ci_path (rp_identity plan)) state before))) →
  keeps P (write_snapshot answers id plan head before state)
    (λ p g, P g ∧ (id, p) ∈ eg_plans g ∧ pp_plan p = plan).
Proof using other_heads fresh_ids.
  intros HP HPa Hx g Hg Hp. destruct (question_ok answers other_heads g Hg) as [Hok He]. pose proof (HP _ _ He Hp) as Hp'.
  unfold write_snapshot, mbind, resolve_bind. assert ((question answers g).2 = Done (answers (eg_asked g)) ∨ (question answers g).2 = Died)
    as Hq by (unfold question; destruct (ea_dies _); [by right|by left]).
  assert (eg_asked (question answers g).1 = S (eg_asked g)) as Has by (unfold question; by destruct (ea_dies _)).
  assert (eg_plans (question answers g).1 = eg_plans g) as Hpl by (by destruct He as (_ & _ & _ & ? & _)).
  destruct (question answers g) as [g1 [a|e|]]; simpl in *; [|done|done]. destruct Hq as [[= ->]|?]; [|done].
  destruct (ea_fails _); [done|]. unfold act. cbv zeta. set (p := mkPlanned _ _ _ _ _).
  split; [|split; [by apply HPa|split; [left|done]]]. apply (add_plan_ok g1 (eg_asked g)); [done|by apply Hx|done|lia|].
  intros id' q Hq Heq. rewrite Hpl in Hq. destruct (eo_plans _ g Hg _ _ Hq) as [_ (i & Hi & Hqi)].
  assert (i = eg_asked g); [|lia]. apply fresh_ids. rewrite <-Hqi. exact Heq.
Qed.

Lemma find_conflict_path path v c : find_conflict path v = Some c → ce_path c = path.
Proof using. unfold find_conflict. intros [_ Hf]%find_some. by apply bool_decide_eq_true in Hf. Qed.
Lemma plan_exact_intro uploads plan head id view conflict root state :
  find_conflict (ci_path (rp_identity plan)) view = Some conflict → legs_equal conflict (rp_identity plan) = true →
  reread_identity head (vw_root view) conflict (rp_identity plan) = rp_identity plan →
  candidate_state_ok uploads (ci_path (rp_identity plan)) (rp_candidate plan) state →
  plan_exact uploads (mkPlanned head id plan view (resolved_view root (ci_path (rp_identity plan)) state view)).
Proof using.
  intros Hf Hl Hi Hs. split; simpl.
  - unfold candidate_applied, candidate_state_ok in *. destruct (rp_candidate plan) as [c|]; [|by subst].
    destruct (ct_deleted c); [by subst|]. destruct Hs as (file & -> & ?). by exists file.
  - intros c. by rewrite filter_elem, negb_true_iff, bool_decide_eq_false.
  - exists conflict. unfold legs_equal in Hl. to_prop. done.
  - by rewrite <-Hi.
Qed.
Lemma plan_keeps P id plan :
  stable P → (∀ g p, P g → P (add_plan id p g)) → (∀ g h object, P g → P (add_upload h object g)) →
  (∀ c, rp_candidate plan = Some c → is_Some (rp_candidate_file plan)) →
  keeps P (plan_resolution_publication answers id plan)
    (λ p g, P g ∧ (id, p) ∈ eg_plans g ∧ pp_plan p = plan).
Proof using other_heads fresh_ids.
  intros HP HPa HPu Hfile. unfold plan_resolution_publication.
  eapply keeps_seq; [by apply keeps_get_head|]. intros [head|]; [|apply keeps_failed].
  destruct (negb (bool_decide (head = _))); [apply keeps_failed|].
  eapply keeps_seq; [by apply (keeps_read answers other_heads P)|]. intros view.
  destruct (find_conflict _ view) as [conflict|] eqn:Hf; [|apply keeps_failed].
  destruct (legs_equal _ _) eqn:Hl; [|apply keeps_failed]. simpl.
  destruct (bool_decide_reflect (reread_identity head (vw_root view) conflict (rp_identity plan) = rp_identity plan)) as [Hi|];
    [|apply keeps_failed]. simpl. destruct (negb _); [apply keeps_failed|].
  eapply (keeps_seq _ _ _ (λ s g, P g ∧ candidate_state_ok (eg_uploads g) (ci_path (rp_identity plan)) (rp_candidate plan) s)).
  - destruct (rp_candidate plan) as [c|]; [|by apply keeps_done]. destruct (Hfile c eq_refl) as [file ->].
    eapply keeps_seq; [by apply upload_keeps|]. intros s. by apply keeps_done.
  - intros s. set (R := λ g, P g ∧ _). eapply (keeps_conseq _ R); [apply (write_snapshot_keeps R)|done|by intros p g _ [[? _] ?]].
    + intros g g' He [Hp Hs]. split; [by eapply HP|]. by destruct He as (_ & _ & _ & _ & _ & ->).
    + intros g p [Hp Hs]. split; [by apply HPa|done].
    + intros g a [_ Hs]. by eapply plan_exact_intro.
Qed.

(** ** Publishing *)
Lemma keeps_forget {A} P (m : Resolve A) (Q : A → Engine → Prop) : keeps P m Q → keeps P m (λ _ _, True).
Proof using. intros Hm. by eapply keeps_conseq. Qed.
Lemma candidate_outcome r c : validate_resolution_result r = Ok tt → rr_candidate r = Some c → rr_outcome r = RoCandidateReady.
Proof using.
  unfold validate_resolution_result. intros Hv Hc. do 9 (apply bind_Ok in Hv as (? & _ & Hv)).
  destruct (rr_outcome r); [done| | | | |]; unfold carries_nothing in Hv; rewrite Hc in Hv; simpl in Hv;
    repeat (apply bind_Ok in Hv as (? & ? & Hv)); try discriminate Hv; discriminate.
Qed.
Lemma stored_valid g r : engine_ok g → r ∈ jobs_of g → validate_record r = Ok tt.
Proof using. intros Hg Hr. exact (proj1 (Forall_forall _ _) (jo_valid _ (to_jobs _ (eo_store _ g Hg))) r Hr). Qed.

Lemma check_freshness_keeps P r : stable P → keeps P (check_freshness answers r) (λ _, P).
Proof using other_heads.
  intros HP. unfold check_freshness. destruct (negb _); [by apply keeps_done|]. apply keeps_of_result. intros t _.
  eapply keeps_seq; [by apply (keeps_clock answers other_heads P)|]. intros now.
  destruct (verification_expired _ _ _); [apply keeps_failed|by apply keeps_done].
Qed.
Lemma revalidate_keeps P r :
  stable P → keeps P (revalidate answers workspace_id r)
    (λ head g, P g ∧ pj_assignment_state r = RsActive ∧ head = rj_current_snapshot (pj_job r)).
Proof using other_heads.
  intros HP. unfold revalidate. destruct (bool_decide_reflect (pj_assignment_state r = RsActive)) as [Ha|]; [|apply keeps_failed].
  simpl. eapply keeps_seq; [by apply check_freshness_keeps|]. intros [].
  eapply keeps_seq; [by apply (keeps_read answers other_heads P)|]. intros [|]; [|apply keeps_failed]. simpl.
  eapply keeps_seq; [by apply (keeps_read answers other_heads P)|]. intros [|]; [|apply keeps_failed]. simpl.
  eapply keeps_seq; [by apply keeps_get_head|]. intros [head|]; [|apply keeps_failed].
  destruct (bool_decide_reflect (head = rj_current_snapshot (pj_job r))) as [Hh|]; [|apply keeps_failed]. simpl.
  eapply keeps_seq; [by apply (keeps_read answers other_heads P)|]. intros view.
  destruct (find_conflict _ view) as [conflict|]; [|apply keeps_failed]. destruct (negb _); [apply keeps_failed|].
  destruct (negb _); [apply keeps_failed|]. by apply keeps_done.
Qed.
Lemma write_journal_keeps P r j :
  stable P → (∀ g m, P g → P (set_journals m g)) → pj_assignment_state r = RsActive → pj_id r = jn_job_id j →
  (∀ g, P g → r ∈ jobs_of g) →
  keeps P (write_publication_journal answers journal_bytes j) (λ _ g, P g ∧ eg_journals g !! jn_job_id j = Some j).
Proof using other_heads.
  intros HP HPj Hact Hid Hin. unfold write_publication_journal. apply keeps_ensured. intros _.
  apply keeps_writing; [done|done|]. intros _ g Hg Hp. split; [|split; [by apply HPj|by apply lookup_insert_eq]].
  pose proof (store_unique answers g) as Hun. pose proof (Hin g Hp) as Hr.
  pose proof Hg as [Hs Hss Hc Hl Hpl Hpi Hsw Hh Ho Ha Hcomp Hj]. split; simpl; try done.
  intros x k Hx Hu Hk. apply Hj; [done|done|]. apply lookup_insert_Some in Hk as [[Hk _]|[_ Hk]]; [|done].
  assert (x = r) as -> by (apply Hun; [done..|congruence]). congruence.
Qed.
(** The journal names the plan, so the record may become uncertain. *)
Lemma move_uncertain_keeps id r planned j :
  publishes planned r → pp_candidate_id planned = jn_planned_head j →
  keeps (λ g, (((id, planned) ∈ eg_plans g ∧ r ∈ jobs_of g) ∧ pj_id r = id) ∧ eg_journals g !! id = Some j)
    (move_job answers id RsPublicationUncertain)
    (λ _ g, (id, planned) ∈ eg_plans g ∧ ∀ x, x ∈ jobs_of g → pj_id x = id → publishes planned x).
Proof using other_heads.
  intros Hm Hpl. apply keeps_move; [done| |].
  { intros g g' (Hs & _ & Hj & Hp & _) HP. unfold jobs_of in *. by rewrite Hs, Hj, Hp. }
  intros g x Hg (((Hp & Hr) & Hid) & Hj) Hx Hxid Ht.
  assert (x = r) as -> by (apply (store_unique answers g); [done..|congruence]).
  split; [done|]. split.
  - intros _ j' Hj'. exists planned. assert (j' = j) as -> by congruence. done.
  - intros f Hf. split; [done|]. intros y Hy Hyid. destruct (Hf y Hy) as [->|[_ ?]]; [|done].
    by apply (publishes_ext planned r).
Qed.
Lemma swap_ok g id p :
  engine_ok g → (id, p) ∈ eg_plans g → eg_head g = Some (pp_expected_head p) → engine_ok (swap_to p g).
Proof using.
  intros [Hs Hss Hc Hl Hp Hpi Hsw [rest Hh] Ho Ha Hcomp Hj] Hin He. split; simpl; try done.
  - intros q [->|Hq]%elem_of_cons; [by exists id|by apply Hsw].
  - by eexists.
  - intros i [Heq|Hi]%elem_of_cons; [exists p; split; [left|congruence]|].
    destruct (Ho i Hi) as (q & ? & ?). exists q. split; [by right|done].
  - intros q [->|Hq]%elem_of_cons; [exists [], rest; simpl; by rewrite Hh, He|].
    destruct (Ha q Hq) as (l1 & l2 & ->). by exists (Some (pp_candidate_id p) :: l1), l2.
  - intros r Hr Hrc. destruct (Hcomp r Hr Hrc) as (q & ? & ?). exists q. split; [by right|done].
Qed.
Lemma commit_keeps id p :
  keeps (λ g, (id, p) ∈ eg_plans g ∧ ∀ x, x ∈ jobs_of g → pj_id x = id → publishes p x)
    (commit_resolution_publication answers p) (λ head g, confirmed id g ∧ p ∈ eg_swaps g ∧ head = pp_candidate_id p).
Proof using other_heads.
  set (P := λ g, _ ∧ _). assert (stable P) as HP.
  { intros g g' (Hs & _ & _ & Hp & _). unfold P, jobs_of. by rewrite Hs, Hp. }
  eapply keeps_seq; [by apply (keeps_question answers other_heads P)|]. intros a g Hg [Hin Hpub]. unfold act.
  destruct (bool_decide_reflect (eg_head g = Some (pp_expected_head p))) as [Hh|_]; [|by split].
  pose proof (swap_ok g id p Hg Hin Hh) as Hok. destruct (ea_fails a); [by destruct (ea_applied a)|].
  split; [done|]. simpl. split; [|split; [left|done]]. intros x Hx Hid _. exists p. split; [left|]. by apply Hpub.
Qed.
Lemma move_active_keeps id : keeps (λ _, True) (move_job answers id RsActive) (λ _ _, True).
Proof using other_heads. by apply keeps_move. Qed.
Lemma commit_or_revert_keeps id p :
  keeps (λ g, (id, p) ∈ eg_plans g ∧ ∀ x, x ∈ jobs_of g → pj_id x = id → publishes p x)
    (commit_or_revert answers id p) (λ head g, confirmed id g ∧ p ∈ eg_swaps g ∧ head = pp_candidate_id p).
Proof using other_heads.
  unfold commit_or_revert. eapply keeps_seq; [apply keeps_attempt, commit_keeps|]. intros [head|e]; [by apply keeps_done|].
  eapply keeps_seq; [apply (remove_journal_keeps answers other_heads (λ _, True)); done|]. intros [].
  eapply keeps_seq; [apply keeps_attempt, move_active_keeps|]. intros []; apply keeps_failed.
Qed.
(** Facts that do not depend on the state, and the record a job is looked up as. *)
Lemma keeps_fact {A} P (φ : Prop) (m : Resolve A) Q : (φ → keeps P m Q) → keeps (λ g, P g ∧ φ) m Q.
Proof using. intros Hm g Hg [Hp Hφ]. by apply Hm. Qed.
Lemma keeps_job {A} id (f : PersistedResolutionJob → Resolve A) Q :
  (∀ r, pj_id r = id → validate_record r = Ok tt → keeps (λ g, r ∈ jobs_of g) (f r) Q) →
  keeps (λ _, True) (store_job answers id ≫= f) Q.
Proof using other_heads.
  intros Hf. eapply keeps_seq; [by apply (keeps_store_job answers other_heads (λ _, True))|].
  intros r g Hg (_ & Hr & Hid). apply Hf; [done| |done|done]. by eapply stored_valid.
Qed.
Lemma record_result_valid r result :
  validate_record r = Ok tt → pj_result r = Some result → validate_resolution_result result = Ok tt.
Proof using. unfold validate_record. intros Hv Hres. apply bind_Ok in Hv as (? & _ & Hv). by rewrite Hres in Hv. Qed.
Lemma publish_once_keeps id :
  keeps (λ _, True) (publish_once answers workspace_id journal_bytes id)
    (λ head g, confirmed id g ∧ ∃ p, p ∈ eg_swaps g ∧ head = pp_candidate_id p).
Proof using other_heads fresh_ids.
  unfold publish_once. apply keeps_job. intros r Hid Hval. apply keeps_of_result. intros result Hres.
  destruct (pj_result r) as [result'|] eqn:Hr; [apply Ok_inj in Hres as ->|done].
  pose proof (record_result_valid r result Hval Hr) as Hrv.
  eapply keeps_seq; [apply (revalidate_keeps (λ g, r ∈ jobs_of g)), stable_in|]. intros head. apply keeps_fact. intros [Hact Hh].
  apply (keeps_seq answers _ _ (λ planned g, ((id, planned) ∈ eg_plans g ∧ r ∈ jobs_of g)
    ∧ pp_plan planned = publication_of (pj_job r) result head)).
  { eapply keeps_conseq; [apply (plan_keeps (λ g, r ∈ jobs_of g)); [apply stable_in|done|done|]|done|by intros p g _ (? & ? & ?)].
    intros c Hc. simpl in *. rewrite (candidate_outcome result c); [by rewrite bool_decide_true|done|done]. }
  intros planned. apply keeps_fact. intros Hplan.
  assert (publishes planned r) as Hm by (split; rewrite Hplan; [done|done|by exists result]).
  set (P := λ g, ((id, planned) ∈ eg_plans g ∧ r ∈ jobs_of g) ∧ pj_id r = id).
  assert (stable P) as HP. { intros g g' (Hs & _ & _ & Hp & _). unfold P, jobs_of. by rewrite Hs, Hp. }
  set (j := mkJournal id (pp_expected_head planned) (pp_candidate_id planned) result).
  apply (keeps_seq answers _ _ (λ _ g, P g ∧ eg_journals g !! id = Some j)).
  { eapply keeps_conseq; [apply (write_journal_keeps P r j); [done..|by intros g [[_ ?] _]]|done|done]. }
  intros []. eapply keeps_seq; [by apply (move_uncertain_keeps id r planned j)|]. intros [].
  eapply keeps_conseq; [apply commit_or_revert_keeps|done|]. intros head' g _ (? & ? & ->). split; [done|]. by exists planned.
Qed.

(** ** Applying *)
Lemma complete_confirmed id : keeps (confirmed id) (complete_publication answers id) (λ _ _, True).
Proof using other_heads.
  intros g Hg Hc. destruct (complete_keeps answers other_heads id (pj_id <$> jobs_of g) g Hg) as [Hok _]; [|by destruct (_.2)].
  split; [done|]. intros r Hr _. right. by apply list_elem_of_fmap_2.
Qed.
Lemma apply_attempts_keeps id n :
  keeps (λ _, True) (apply_attempts answers workspace_id journal_bytes id n) (λ _ _, True).
Proof using other_heads fresh_ids.
  induction n as [|n IH]; [apply keeps_failed|]. cbn [apply_attempts]. apply keeps_job. intros r Hid Hval.
  apply (keeps_conseq answers (λ _, True) _ _ (λ _ _, True)); [|done|done]. apply keeps_of_result. intros result _. apply keeps_ensured. intros _.
  eapply keeps_seq; [apply keeps_attempt, publish_once_keeps|]. intros [head|[kind| |e]].
  - apply (keeps_seq answers _ _ (λ _ _, True)); [|intros []; by apply keeps_done].
    eapply keeps_conseq; [apply (complete_confirmed id)|by intros g _ [? _]|done].
  - by apply keeps_done.
  - exact IH.
  - apply keeps_failed.
Qed.
Lemma guarded_keeps {A} (m : Resolve A) Q : keeps (λ _, True) m Q → keeps (λ _, True) (guarded answers m) Q.
Proof using other_heads fresh_ids.
  intros Hm. unfold guarded. eapply keeps_seq; [by eapply keeps_forget, recover_engine_keeps|]. intros n.
  eapply keeps_seq; [apply (keeps_read answers other_heads (λ _, True)); done|].
  intros []. exact Hm.
Qed.
Lemma apply_keeps id :
  keeps (λ _, True) (apply_resolution_job answers workspace_id journal_bytes id) (λ _ _, True).
Proof using other_heads fresh_ids. apply guarded_keeps, apply_attempts_keeps. Qed.

(** ** Submitting and answering *)
Lemma ensured_true b (e : string) : b = true → ensure b e = Ok tt.
Proof using. by intros ->. Qed.
Lemma with_verification_valid s result :
  validate_resolution_result result = Ok tt → slen (vs_summary s) ≤ RESOLUTION_MAX_VERIFICATION_SUMMARY_BYTES →
  (vs_status (rr_verification result) = VsPassed → vs_status s = VsPassed) →
  validate_resolution_result (with_verification s result) = Ok tt.
Proof using.
  unfold validate_resolution_result, carries_nothing. intros Hv Hl Hs. cbn [with_verification rr_schema_version rr_job_id rr_assignment_id
    rr_attempt rr_owner rr_conflict_fingerprint rr_verification rr_diagnostics rr_question rr_outcome rr_candidate
    rr_human_reason rr_safe_options] in *.
  do 5 (apply bind_Ok in Hv as ([] & He & Hv); rewrite He; clear He; cbn [mbind result_bind]).
  apply bind_Ok in Hv as ([] & _ & Hv). rewrite (ensured_true (slen (vs_summary s) <=? _)) by (by apply Z.leb_le). cbn [mbind result_bind].
  do 3 (apply bind_Ok in Hv as ([] & He & Hv); rewrite He; clear He; cbn [mbind result_bind]).
  destruct (rr_outcome result); try exact Hv.
  - do 2 (apply bind_Ok in Hv as ([] & He & Hv); rewrite He; clear He; cbn [mbind result_bind]).
    apply bind_Ok in Hv as ([] & He & Hv). apply ensure_Ok, bool_decide_eq_true in He.
    rewrite ensured_true by (apply bool_decide_eq_true; by apply Hs). exact Hv.
  - apply bind_Ok in Hv as ([] & He & Hv). apply ensure_Ok, bool_decide_eq_true in Hv. rewrite He.
    apply ensured_true, bool_decide_eq_true. by apply Hs.
Qed.
Lemma with_generation_valid n result :
  validate_resolution_result result = Ok tt → validate_resolution_result (with_generation n result) = Ok tt.
Proof using. done. Qed.
Lemma verify_candidate_keeps P r c :
  stable P → keeps P (verify_candidate_for_submit answers r c) (λ s g, P g ∧ vs_status s = VsPassed
    ∧ slen (vs_summary s) ≤ RESOLUTION_MAX_VERIFICATION_SUMMARY_BYTES).
Proof using other_heads.
  intros HP. eapply keeps_seq; [by apply (keeps_read answers other_heads P)|]. intros bytes. unfold inline_verify_candidate.
  destruct (forallb _ _); [|apply keeps_failed]. apply keeps_done. intros g Hp. split; [done|]. split; [done|]. by vm_compute.
Qed.
Lemma engine_result_keeps P r result :
  stable P → validate_resolution_result result = Ok tt →
  keeps P (engine_result answers r result) (λ result' g, P g ∧ validate_resolution_result result' = Ok tt).
Proof using other_heads.
  intros HP Hv. unfold engine_result.
  assert (keeps P (mret (with_verification (inline_verify_no_candidate (pj_job r) result) result))
    (λ result' g, P g ∧ validate_resolution_result result' = Ok tt)) as Hno.
  { apply keeps_done. intros g Hp. split; [done|]. apply with_verification_valid; [done|by vm_compute|done]. }
  destruct (rr_outcome result); [|exact Hno..| |exact Hno|exact Hno].
  - apply keeps_of_result. intros c _. apply keeps_ensured. intros _.
    eapply keeps_seq; [by apply (verify_candidate_keeps P)|]. intros s. apply keeps_fact. intros [Hs Hl].
    apply keeps_done. intros g Hp. split; [done|]. by apply with_verification_valid.
  - eapply keeps_seq; [by apply (keeps_store_load answers other_heads P)|]. intros f. apply keeps_done. intros g [? _]. by split.
Qed.
(** An active record is given a result. *)
Lemma replace_active_keeps id r now result n :
  pj_id r = id → pj_assignment_state r = RsActive → validate_record r = Ok tt → validate_resolution_result result = Ok tt →
  keeps (λ g, r ∈ jobs_of g) (store_update answers (alter_job id (replace_active (record_with_result now result n r))))
    (λ _ _, True).
Proof using other_heads.
  intros Hid Hact Hv Hres. apply keeps_alter; [done|apply stable_in|]. intros g x x' Hg Hr Hx Hxid Hc.
  assert (x = r) as -> by (apply (store_unique answers g); [done..|congruence]).
  apply bind_Ok in Hc as ([] & _ & Hc). apply Ok_inj in Hc as <-. simpl. rewrite Hact.
  split; [split; [done|]; right; simpl; by rewrite Hact|]. split; [|done].
  unfold validate_record in *. simpl. apply bind_Ok in Hv as ([] & -> & _). exact Hres.
Qed.
Lemma submit_keeps id result :
  keeps (λ _, True) (submit_resolution_result answers id result) (λ _ _, True).
Proof using other_heads fresh_ids.
  apply guarded_keeps, keeps_of_result. intros [] Hv. apply keeps_ensured. intros _. apply keeps_job. intros r Hid Hr.
  apply keeps_ensured. intros Hact%bool_decide_eq_true. apply keeps_ensured. intros _. apply keeps_ensured. intros _.
  eapply keeps_seq; [by apply (engine_result_keeps (λ g, r ∈ jobs_of g)); [apply stable_in|]|]. intros result'.
  apply keeps_fact. intros Hv'. eapply keeps_seq; [apply (keeps_clock answers other_heads (λ g, r ∈ jobs_of g)), stable_in|].
  intros now. eapply keeps_seq; [by apply replace_active_keeps|]. intros []. by apply keeps_done.
Qed.
Lemma move_away_keeps P id s :
  stable P → s ≠ RsCompleted → s ≠ RsPublicationUncertain → keeps P (move_job answers id s) (λ _ _, True).
Proof using other_heads. intros HP Hc Hu. apply keeps_move; [done|done|]. intros g r Hg Hp Hr Hid Ht. split; [done|]. by split. Qed.
Lemma answer_keeps a : keeps (λ _, True) (answer_resolution answers a) (λ _ _, True).
Proof using other_heads fresh_ids.
  apply guarded_keeps, keeps_of_result. intros [] _. apply keeps_job. intros r Hid Hr.
  apply keeps_ensured. intros Hact%bool_decide_eq_true. apply keeps_ensured. intros _. apply keeps_of_result. intros stored _.
  apply keeps_ensured. intros _. apply keeps_ensured. intros _.
  apply (keeps_seq answers _ _ (λ _ _, True)); [|intros []; by apply keeps_done].
  destruct (ha_chosen_option a); [by apply move_away_keeps; [apply stable_in|..]..|].
  apply keeps_of_result. intros c _. apply keeps_ensured. intros _.
  eapply keeps_seq; [apply (verify_candidate_keeps (λ g, r ∈ jobs_of g)), stable_in|]. intros s.
  apply keeps_fact. intros _. apply keeps_of_result. intros [] Hv.
  eapply keeps_seq; [apply (keeps_clock answers other_heads (λ g, r ∈ jobs_of g)), stable_in|]. intros now.
  by apply replace_active_keeps.
Qed.
Lemma revoke_job_keeps id b : keeps (λ _, True) (revoke_resolution_assignment answers id b) (λ _ _, True).
Proof using other_heads fresh_ids. apply guarded_keeps. by destruct b; apply move_away_keeps. Qed.
Lemma defer_keeps id : keeps (λ _, True) (defer_resolution answers id) (λ _ _, True).
Proof using other_heads fresh_ids.
  apply guarded_keeps, keeps_alter; [done|done|]. intros g r r' Hg _ Hr Hid Hc. apply bind_Ok in Hc as ([] & _ & Hc).
  apply move_to_Ok in Hc as [-> Ht]. destruct (move_record_ok answers g _ r Hg Hr Ht). done.
Qed.
Lemma put_keeps id bytes : keeps (λ _, True) (put_resolution_candidate answers id bytes) (λ _ _, True).
Proof using other_heads fresh_ids.
  apply guarded_keeps, keeps_job. intros r _ _. do 3 (apply keeps_ensured; intros _).
  eapply keeps_seq; [apply (keeps_read answers other_heads (λ g, r ∈ jobs_of g)), stable_in|]. intros mode. by apply keeps_done.
Qed.
Lemma status_keeps id : keeps (λ _, True) (resolution_status answers id) (λ _ _, True).
Proof using other_heads fresh_ids.
  eapply keeps_seq; [by apply recover_engine_keeps|]. intros n.
  eapply keeps_seq; [apply (keeps_store_load answers other_heads (unsettled [])), stable_unsettled|]. intros f. by apply keeps_done.
Qed.

(** ** Preparing *)
Lemma reading_stable {A} P (f : EngineAnswer → Engine → Outcome A) g : stable P → engine_ok g → P g → P (reading answers f g).1.
Proof using other_heads.
  intros HP Hg Hp. destruct (question_ok answers other_heads g Hg) as [_ He]. specialize (HP _ _ He Hp).
  unfold reading, mbind, resolve_bind. by destruct (question answers g) as [g1 [a|e|]].
Qed.
Lemma attempt_reading {A} P (f : EngineAnswer → Engine → Outcome A) (Q : A → Engine → Prop) :
  stable P → (∀ a g b, P g → f a g = Done b → Q b g) →
  keeps P (attempt (reading answers f)) (λ r g, P g ∧ match r with inl b => Q b g | inr _ => True end).
Proof using other_heads.
  intros HP HQ g Hg Hp. destruct (keeps_reading answers other_heads P f Q HP HQ g Hg Hp) as [Hok Hq].
  pose proof (reading_stable P f g HP Hg Hp) as Hp'. unfold attempt. by destruct (reading answers f g) as [g1 [a|e|]].
Qed.
Definition stored_as (f : ResolutionStateFile) (g : Engine) : Prop := eg_store g = f.
Lemma stable_stored f : stable (stored_as f).
Proof using. intros g g' (Hs & _). unfold stored_as. by rewrite Hs. Qed.
Lemma designation_sources_keeps f :
  keeps (stored_as f) (designation_sources answers)
    (λ s g, stored_as f g ∧ (∀ jobs, so_jobs s = Ok jobs → jobs = f)).
Proof using other_heads.
  pose proof (stable_stored f) as HP. unfold designation_sources.
  eapply keeps_seq; [by apply (attempt_reading (stored_as f) _ (λ _ _, True))|]. intros work. apply keeps_fact. intros _.
  eapply keeps_seq; [apply (attempt_reading (stored_as f) _ (λ jobs _, jobs = f)); [done|]|].
  { intros a g b Hs. rewrite Hs. destruct (load_file f) as [f'|] eqn:Hl; [|done]. intros [= <-]. by apply load_file_inv in Hl. }
  intros jobs. apply (keeps_fact (stored_as f)). intros Hjobs.
  eapply keeps_seq; [by apply (attempt_reading (stored_as f) _ (λ _ _, True))|]. intros id. apply keeps_fact. intros _.
  eapply keeps_seq; [by apply (attempt_reading (stored_as f) _ (λ _ _, True))|]. intros nonce. apply keeps_fact. intros _.
  eapply keeps_seq; [by apply (attempt_reading (stored_as f) _ (λ _ _, True))|]. intros head. apply keeps_fact. intros _.
  apply keeps_done. intros g Hs. split; [done|]. simpl. intros l Hl. destruct jobs; [|done]. apply Ok_inj in Hl. congruence.
Qed.
Lemma prepare_store f path prevention :
  keeps (stored_as f) (prepare_resolution_job_guarded answers workspace_id format_version path prevention) (λ _ _, True).
Proof using other_heads fresh_ids.
  pose proof (stable_stored f) as HP. unfold prepare_resolution_job_guarded. do 2 (apply keeps_ensured; intros _).
  eapply keeps_seq; [by apply (keeps_read answers other_heads (stored_as f))|]. intros head. apply keeps_of_result. intros head' _.
  eapply keeps_seq; [by apply (keeps_read answers other_heads (stored_as f))|]. intros view. apply keeps_of_result. intros conflict Hc.
  eapply keeps_seq; [by apply (keeps_read answers other_heads (stored_as f))|]. intros fp. apply keeps_ensured. intros _.
  eapply keeps_seq; [apply designation_sources_keeps|]. intros sources. apply keeps_fact. intros Hsrc.
  destruct (designate_conflict_owner workspace_id path sources) as [d| |] eqn:Hd; [|apply keeps_failed|apply keeps_died].
  apply designation_jobs in Hd as (jobs & Hjobs & Hpath). apply Hsrc in Hjobs as ->. clear Hsrc.
  apply (keeps_seq answers _ _ (λ _, stored_as f)); [by apply keeps_done|]. intros d'. apply keeps_of_result. intros task _.
  cbv zeta. apply keeps_of_result. intros [] _.
  eapply keeps_seq; [by apply (keeps_read answers other_heads (stored_as f))|]. intros work. apply keeps_of_result. intros anc _.
  apply keeps_of_result. intros [] _.
  eapply keeps_seq; [by apply (keeps_read answers other_heads (stored_as f))|]. intros job_id.
  eapply keeps_seq; [by apply (keeps_read answers other_heads (stored_as f))|]. intros dir. apply keeps_of_result. intros [] Hval.
  apply (keeps_seq answers _ _ (λ _, stored_as f)); [by apply keeps_writing|]. intros [].
  eapply keeps_seq; [by apply (keeps_clock answers other_heads (stored_as f))|]. intros now.
  apply (keeps_seq answers _ _ (λ _ _, True)); [|intros []; by apply keeps_done].
  apply keeps_update; [done|done|]. intros g f' Hg Hs Hu. rewrite Hs in Hu.
  unfold or_context in Hc. destruct (find_conflict path view) as [c|] eqn:Hf; [|done]. apply Ok_inj in Hc as ->.
  apply find_conflict_path in Hf.
  destruct (update_insert f _ f' ltac:(rewrite <-Hs; apply (eo_store _ g Hg)) Hu) as (Hok & Hstep & Hfrom); [|done|done| |].
  { unfold validate_record. simpl. by rewrite Hval. }
  { intros r Hr Hp. apply Hpath; [done|]. rewrite Hp. exact Hf. }
  rewrite <-Hs in Hstep, Hfrom. split; [done|]. split; [exact Hstep|]. split; [|split; [|done]].
  - intros r Hr Hrc. destruct (Hfrom r Hr) as [->|Hin]; [done|]. by apply (eo_completed _ g Hg).
  - intros r j Hr Hu' Hj. destruct (Hfrom r Hr) as [->|Hin]; [done|]. by apply (eo_journal _ g Hg).
Qed.
Lemma prepare_keeps path prevention :
  keeps (λ _, True) (prepare_resolution_job answers workspace_id format_version path prevention) (λ _ _, True).
Proof using other_heads fresh_ids. apply guarded_keeps. intros g Hg _. by apply (prepare_store (eg_store g)). Qed.

(** ** Histories *)
Lemma run_engine_op_ok op g : engine_ok g → engine_ok (run_engine_op answers workspace_id format_version journal_bytes op g).
Proof using other_heads fresh_ids.
  intros Hg. destruct op; simpl.
  - by apply prepare_keeps.
  - by apply submit_keeps.
  - by apply apply_keeps.
  - by apply answer_keeps.
  - by apply revoke_job_keeps.
  - by apply defer_keeps.
  - by apply put_keeps.
  - by apply status_keeps.
Qed.
Lemma run_engine_ok ops g : engine_ok g → engine_ok (run_engine answers workspace_id format_version journal_bytes ops g).
Proof using other_heads fresh_ids.
  unfold run_engine. revert g. induction ops as [|op ops IH]; intros g Hg; [done|]. simpl. by apply IH, run_engine_op_ok.
Qed.
Lemma fresh_engine_ok head views : (∀ i, head ≠ Some (ea_snapshot_id (answers i))) → engine_ok (fresh_engine head views).
Proof using.
  clear fresh_ids other_heads. intros Hh. split; simpl; try (intros; set_solver).
  - split; [done|split; simpl; [done|apply NoDup_nil_2|apply NoDup_nil_2|lia]|simpl; lia].
  - apply NoDup_nil_2.
Qed.
End operations.
