(* ===== verification/ResolutionRecovery.v ===== *)
(** * Conflict resolution: recovery returns

    Once calls stop failing, recovery runs to its end, whatever the history before: every record
    it looks up is there, every move it makes is allowed, and the result it needs is stored. *)
From Stdlib Require Import ZArith Lia Ascii Strings.Byte.
From stdpp Require Import sorting numbers strings gmap list_numbers list pretty options.
From S2P Require Import Prelude Text Paths Model WorkContract AgentContract WorkReducer IntegratorContract.
From S2P Require Import IntegratorSelection ResolutionContract ResolutionStore ResolutionIdentity Designation DesignationProps.
From S2P Require Import Resolution ResolutionProps ResolutionInvariant ResolutionOps.

Local Open Scope Z_scope.

Section recovery.
Context `{Unicode, Blake3, IntegratorJson, Sealing} (answers : nat → EngineAnswer).
Context (other_heads : ∀ i j h, ea_head (answers i) = Some (Some h) → h ≠ ea_snapshot_id (answers j)).
Context (N : nat) (calm : ∀ i, (N ≤ i)%nat → ea_dies (answers i) = false ∧ ea_fails (answers i) = false).
Local Notation keeps := (keeps answers).
Local Notation engine_ok := (engine_ok answers).
Local Hint Resolve stable_both stable_true stable_confirmed stable_unsettled stable_in : stable.

(** ** What recovery changes *)
Definition ids_of (g : Engine) : list string := pj_id <$> jobs_of g.
(** An uncertain record is completed or declared stale; any other stays as it is. *)
Definition settling (r r' : PersistedResolutionJob) : Prop :=
  r' = r ∨ pj_assignment_state r = RsPublicationUncertain ∧ (r' = record_with_state RsCompleted r ∨ r' = record_with_state RsStale r).
#[local] Instance settling_preorder : PreOrder settling.
Proof using.
  split; [by left|]. intros r1 r2 r3 [->|[Hu Hs]] Hb; [done|]. destruct Hb as [->|[Hu' _]]; [by right|].
  by destruct Hs as [->| ->].
Qed.
Definition keeps_ids {A} (m : Resolve A) : Prop :=
  ∀ g, (length (jobs_of g) ≤ RESOLUTION_MAX_JOBS)%nat → Forall2 settling (jobs_of g) (jobs_of (m g).1).
Lemma settling_ids l l' : Forall2 settling l l' → pj_id <$> l' = pj_id <$> l.
Proof using. induction 1 as [|r r' l l' [->|[_ [->| ->]]] _ IH]; [done|by rewrite !fmap_cons, IH..]. Qed.
Lemma ids_bind {A B} (m : Resolve A) (f : A → Resolve B) : keeps_ids m → (∀ a, keeps_ids (f a)) → keeps_ids (m ≫= f).
Proof using.
  intros Hm Hf g Hl. specialize (Hm g Hl). unfold mbind, resolve_bind. destruct (m g) as [g1 [a|e|]]; [|done|done]. simpl in Hm.
  etrans; [exact Hm|]. apply Hf. apply Forall2_length in Hm. lia.
Qed.
Lemma ids_same {A} (m : Resolve A) : (∀ g, jobs_of (m g).1 = jobs_of g) → keeps_ids m.
Proof using. intros Hm g _. by rewrite Hm. Qed.
Lemma ids_ret {A} (a : A) : keeps_ids (mret a).
Proof using. by apply ids_same. Qed.
Lemma ids_result {A} (r : Result A) : keeps_ids (of_result r).
Proof using. by apply ids_same; destruct r. Qed.
Lemma ids_question : keeps_ids (question answers).
Proof using. apply ids_same. intros g. unfold question. by destruct (ea_dies _). Qed.
Lemma ids_reading {A} (f : EngineAnswer → Engine → Outcome A) : keeps_ids (reading answers f).
Proof using. apply ids_bind; [apply ids_question|]. intros a. by apply ids_same. Qed.
Lemma ids_writing effect : (∀ a g, jobs_of (effect a g) = jobs_of g) → keeps_ids (writing answers effect).
Proof using.
  intros He. apply ids_bind; [apply ids_question|]. intros a. apply ids_same. intros g. unfold act.
  destruct (ea_fails a); [destruct (ea_applied a)|]; simpl; auto.
Qed.
Lemma ids_attempt {A} (m : Resolve A) : keeps_ids m → keeps_ids (attempt m).
Proof using. intros Hm g Hl. specialize (Hm g Hl). unfold attempt. by destruct (m g) as [g1 [a|e|]]. Qed.
Lemma ids_remove id : keeps_ids (remove_journal answers id).
Proof using. apply ids_bind; [|intros x; apply ids_ret]. by apply ids_attempt, ids_writing. Qed.
Lemma ids_alter id c :
  (∀ r r', c r = Ok r' → settling r r') → keeps_ids (store_update answers (alter_job id c)).
Proof using.
  intros Hc. apply ids_bind; [apply ids_question|]. intros a g Hl. unfold act.
  destruct (update_file _ _) as [f|] eqn:Hu; [|done].
  assert (Forall2 settling (jobs_of g) (rs_jobs f)) as Hf; [|by destruct (ea_fails a); [destruct (ea_applied a)|]].
  unfold update_file in Hu. apply bind_Ok in Hu as ([] & _ & Hu). apply bind_Ok in Hu as (jobs & Ha & Hu).
  apply Ok_inj in Hu as <-. apply alter_job_spec in Ha as (l1 & r & r' & l2 & Hjobs & -> & _ & Hr).
  unfold jobs_of in *. simpl. rewrite Hjobs in *. rewrite trim_id by (rewrite !length_app in *; done).
  apply Forall2_app; [done|]. constructor; [by apply Hc|done].
Qed.
Lemma settling_move s r r' : s = RsCompleted ∨ s = RsStale → move_to s r = Ok r' → settling r r'.
Proof using.
  intros Hs [-> Ht]%move_to_Ok. right. destruct Hs as [->| ->]; (split; [by destruct (pj_assignment_state r)|]); [by left|by right].
Qed.
Lemma ids_complete id : keeps_ids (complete_publication answers id).
Proof using.
  apply ids_bind; [apply ids_bind; [apply ids_reading|intros f; apply ids_result]|]. intros r.
  destruct (negb _); [apply ids_result|]. apply ids_bind; [apply ids_result|]. intros result.
  apply ids_bind; [apply ids_reading|]. intros pending. apply ids_bind.
  { apply ids_bind; [apply ids_reading|]. intros []; [apply ids_ret|]. by apply ids_writing. }
  intros []. apply ids_bind; [by apply ids_writing|]. intros []. apply ids_bind; [by apply ids_attempt, ids_writing|]. intros x.
  apply ids_bind; [apply ids_alter; intros y y'; apply settling_move; by left|]. intros []. apply ids_remove.
Qed.
Lemma ids_fail_closed id : keeps_ids (fail_closed_recovery answers id).
Proof using.
  apply ids_bind; [|intros []; apply ids_remove]. apply ids_alter. intros r r'.
  destruct (bool_decide _); [apply settling_move; by right|]. intros ->%Ok_inj. by left.
Qed.
Lemma ids_recover_one id : keeps_ids (recover_one_uncertain answers id).
Proof using.
  assert (keeps_ids (_ ← fail_closed_recovery answers id; mret true)) as Hf by (apply ids_bind; [apply ids_fail_closed|intros []; apply ids_ret]).
  apply ids_bind; [apply ids_bind; [apply ids_reading|intros f; apply ids_result]|]. intros r.
  destruct (negb _); [apply ids_ret|]. apply ids_bind; [apply ids_reading|]. intros head.
  apply ids_bind; [apply ids_bind; [apply ids_question|intros a; by apply ids_same]|]. intros j.
  destruct head as [head|]; [|done]. destruct j as [j|]; [|done]. destruct (_ || _); [done|].
  destruct (bool_decide _); [|done]. apply ids_bind; [apply ids_complete|intros []; apply ids_ret].
Qed.

(** ** Steps that return *)
Definition returns {A} (P : Engine → Prop) (m : Resolve A) : Prop :=
  ∀ g, engine_ok g → (N ≤ eg_asked g)%nat → P g → ∃ a g', m g = (g', Done a) ∧ (N ≤ eg_asked g')%nat.
Lemma returns_done {A} P (a : A) : returns P (mret a).
Proof using. intros g _ Hn _. by exists a, g. Qed.
Lemma returns_seq {A B} P (m : Resolve A) R (f : A → Resolve B) :
  keeps P m R → returns P m → (∀ a, returns (R a) (f a)) → returns P (m ≫= f).
Proof using.
  intros Hk Hm Hf g Hg Hn HP. destruct (Hm g Hg Hn HP) as (a & g' & Hr & Hn'). destruct (Hk g Hg HP) as [Hok HQ].
  rewrite Hr in Hok, HQ. destruct (Hf a g' Hok Hn' HQ) as (b & g2 & Hb & Hn2). exists b, g2. split; [|done].
  unfold mbind, resolve_bind. by rewrite Hr.
Qed.
Lemma returns_conseq {A} (P P' : Engine → Prop) (m : Resolve A) : returns P m → (∀ g, P' g → P g) → returns P' m.
Proof using. intros Hm HP g Hg Hn Hp. apply Hm; auto. Qed.
Lemma returns_result {A} P (r : Result A) : (∀ g, P g → ∃ a, r = Ok a) → returns P (of_result r).
Proof using. intros Hr g _ Hn HP. destruct (Hr g HP) as [a ->]. by exists a, g. Qed.
Lemma question_returns g :
  (N ≤ eg_asked g)%nat →
  ∃ g', question answers g = (g', Done (answers (eg_asked g))) ∧ (N ≤ eg_asked g')%nat
    ∧ ea_fails (answers (eg_asked g)) = false ∧ eg_store g' = eg_store g.
Proof using calm.
  intros Hn. unfold question. destruct (calm _ Hn) as [-> ->]. eexists. split; [done|]. simpl. split; [lia|]. done.
Qed.
Lemma returns_reading {A} P (f : EngineAnswer → Engine → Outcome A) :
  stable P → (∀ a g, engine_ok g → P g → ∃ b, f a g = Done b) → returns P (reading answers f).
Proof using calm other_heads.
  intros HP Hf g Hg Hn Hp. destruct (question_ok answers other_heads g Hg) as [Hok He]. pose proof (HP _ _ He Hp) as Hp'.
  destruct (question_returns g Hn) as (g' & Hq & Hn' & Hfail & _). rewrite Hq in Hok, Hp'. simpl in *.
  unfold reading, mbind, resolve_bind, act. rewrite Hq, Hfail. destruct (Hf (answers (eg_asked g)) g' Hok Hp') as [b ->].
  by exists b, g'.
Qed.
Lemma returns_writing P effect :
  (∀ a g, eg_asked (effect a g) = eg_asked g) → returns P (writing answers effect).
Proof using calm.
  intros He g _ Hn _. destruct (question_returns g Hn) as (g' & Hq & Hn' & Hfail & _).
  unfold writing, mbind, resolve_bind. rewrite Hq. unfold act. rewrite Hfail. eexists _, _. split; [done|]. by rewrite He.
Qed.
Lemma returns_attempt {A} P (m : Resolve A) : returns P m → returns P (attempt m).
Proof using. intros Hm g Hg Hn HP. destruct (Hm g Hg Hn HP) as (a & g' & Hr & Hn'). exists (inl a), g'. unfold attempt. by rewrite Hr. Qed.
Lemma returns_remove P id : returns P (remove_journal answers id).
Proof using calm.
  intros g Hg Hn HP. unfold remove_journal, mbind, resolve_bind.
  destruct (returns_attempt P _ (returns_writing P (λ _ g, set_journals (delete id (eg_journals g)) g) (λ _ _, eq_refl)) g Hg Hn HP)
    as (a & g' & -> & Hn'). by exists tt, g'.
Qed.
Lemma returns_load P : stable P → returns P (store_load answers).
Proof using calm other_heads.
  intros HP. apply returns_reading; [done|]. intros _ g Hg _. destruct (eo_store _ g Hg) as [Hs [Hv _ _ _] _].
  rewrite (proj2 (load_file_Ok (eg_store g))) by done. by eexists.
Qed.
Lemma find_job_Ok id jobs : id ∈ (pj_id <$> jobs) → ∃ r, find_job id jobs = Ok r.
Proof using.
  intros (r & -> & Hr)%list_elem_of_fmap. unfold find_job. destruct (find _ jobs) as [x|] eqn:Hf; [by exists x|].
  apply list_elem_of_In in Hr. apply (find_none _ _ Hf) in Hr. by rewrite bool_decide_true in Hr.
Qed.
Definition known (L : list string) (g : Engine) : Prop := ids_of g = L.
Lemma stable_known L : stable (known L).
Proof using. intros g g' (Hs & _). unfold known, ids_of, jobs_of. by rewrite Hs. Qed.
Lemma returns_job P L id : stable P → (∀ g, P g → known L g) → id ∈ L → returns P (store_job answers id).
Proof using calm other_heads.
  intros HP HL Hid. eapply returns_seq; [by apply (keeps_store_load answers other_heads P)|by apply returns_load|].
  intros f. apply returns_result. intros g [Hp ->]. apply find_job_Ok. pose proof (HL g Hp) as Hk. unfold known, ids_of, jobs_of in Hk.
  by rewrite Hk.
Qed.
Lemma alter_job_Ok id c jobs r :
  r ∈ jobs → pj_id r = id → (∀ x, x ∈ jobs → pj_id x = id → ∃ x', c x = Ok x') → ∃ jobs', alter_job id c jobs = Ok jobs'.
Proof using.
  induction jobs as [|y jobs IH]; intros Hr Hid Hc; [by apply elem_of_nil in Hr|]. simpl. case_bool_decide as Hy.
  - destruct (Hc y) as [y' ->]; [left|done|]. by eexists.
  - apply elem_of_cons in Hr as [->|Hr]; [done|]. destruct IH as [jobs' ->]; [done|done| |by eexists].
    intros x Hx. apply Hc. by right.
Qed.
Lemma returns_alter P id c Q :
  stable P → keeps P (store_update answers (alter_job id c)) Q →
  (∀ g, engine_ok g → P g → ∃ r, r ∈ jobs_of g ∧ pj_id r = id) →
  (∀ g r, engine_ok g → P g → r ∈ jobs_of g → pj_id r = id → ∃ r', c r = Ok r') →
  returns P (store_update answers (alter_job id c)).
Proof using calm other_heads.
  intros HP Hk Hex Hc g Hg Hn Hp. destruct (Hk g Hg Hp) as [Hok' _]. clear Hk.
  destruct (question_ok answers other_heads g Hg) as [Hok He]. pose proof (HP _ _ He Hp) as Hp'.
  destruct (question_returns g Hn) as (g' & Hq & Hn' & Hfail & _). rewrite Hq in Hok, Hp'. simpl in Hok, Hp'.
  destruct (Hex g' Hok Hp') as (r & Hr & Hid). destruct (alter_job_Ok id c (jobs_of g') r) as [jobs Hj]; [done|done|eauto|].
  assert (update_file (alter_job id c) (eg_store g') = Ok (mkResolutionStateFile RESOLUTION_STORE_SCHEMA_VERSION (trim_jobs jobs))) as Hu.
  { unfold update_file. rewrite (to_schema _ (eo_store _ g' Hok)). unfold jobs_of in Hj. by rewrite Hj. }
  unfold store_update, mbind, resolve_bind, act in Hok' |- *. rewrite Hq in Hok' |- *. rewrite Hu, Hfail in Hok' |- *.
  destruct (eo_store _ _ Hok') as [Hs [Hv _ _ _] _]. eexists _, _. rewrite (proj2 (load_file_Ok _)) by done. by split.
Qed.

(** ** Recovery *)
Lemma move_Ok s r : transition_allowed (pj_assignment_state r) s = true → ∃ r', move_to s r = Ok r'.
Proof using. intros Ht. unfold move_to, assert_state_transition, ensure. rewrite Ht. by eexists. Qed.
Lemma returns_fail_closed L id ids :
  id ∈ L → returns (λ g, unsettled (id :: ids) g ∧ known L g) (_ ← fail_closed_recovery answers id; mret true).
Proof using calm other_heads.
  intros Hid. assert (stable (λ g, unsettled (id :: ids) g ∧ known L g)) as HP by (apply stable_both; [apply stable_unsettled|apply stable_known]).
  assert (keeps (λ g, unsettled (id :: ids) g ∧ known L g) (store_update answers (alter_job id (λ r,
        if bool_decide (pj_assignment_state r = RsPublicationUncertain) then move_to RsStale r else Ok r))) (λ _ _, True)) as Hk.
  { apply keeps_alter; [done|done|]. intros g r r' Hg _ Hr _ Hc. pose proof (stored_valid answers g r Hg Hr) as Hv.
    destruct (bool_decide_reflect (pj_assignment_state r = RsPublicationUncertain)).
    - apply move_to_Ok in Hc as [-> Ht]. by destruct (move_record_ok answers g RsStale r Hg Hr Ht).
    - apply Ok_inj in Hc as <-. split; [split; [done|by left]|]. split; [done|]. split; [by apply (eo_completed _ g Hg)|done]. }
  eapply returns_seq; [eapply keeps_forget, keeps_conseq; [apply (fail_closed_keeps answers other_heads id ids)|by intros g _ [? _]|done]
    | |intros []; apply returns_done].
  eapply returns_seq; [exact Hk| |intros []; apply returns_remove]. eapply returns_alter; [done|exact Hk| |].
  - intros g' _ [_ HL]. rewrite <-HL in Hid. apply list_elem_of_fmap in Hid as (r & -> & Hr). by exists r.
  - intros g' r _ _ _ _. case_bool_decide as Hu; [|by eexists]. apply move_Ok. by rewrite Hu.
Qed.
Lemma returns_complete L id ids :
  id ∈ L → returns (λ g, (confirmed id g ∧ unsettled (id :: ids) g) ∧ known L g ∧ (∀ r, r ∈ jobs_of g → pj_id r = id →
    pj_assignment_state r = RsPublicationUncertain)) (complete_publication answers id).
Proof using calm other_heads.
  intros Hid. set (P := λ g, _ ∧ _ ∧ _).
  assert (stable P) as HP.
  { intros g g' He (? & ? & Hu). split; [by eapply stable_both; [apply stable_confirmed|apply stable_unsettled|..]|].
    split; [by eapply stable_known|]. destruct He as (Hs & _). unfold jobs_of in *. by rewrite Hs. }
  eapply returns_seq; [by apply (keeps_store_job answers other_heads P)|apply (returns_job P L); [done|by intros g (_ & ? & _)|done]|].
  intros r. destruct (bool_decide_reflect (pj_assignment_state r = RsPublicationUncertain)) as [Hu|Hu]; simpl.
  2: { intros g Hg _ ((_ & _ & Hall) & Hr & Hrid). by destruct Hu, (Hall r Hr Hrid). }
  set (R := λ g, r ∈ jobs_of g ∧ pj_id r = id ∧ confirmed id g).
  assert (stable R) as HR by (apply stable_both; [apply stable_in|apply stable_both; [by intros g g' _|apply stable_confirmed]]).
  apply (returns_conseq R); [|by intros g (((? & _) & _) & ? & ?)].
  apply (returns_seq _ _ (λ _, R)).
  { intros g Hg Hp. unfold of_result. destruct (or_context _ _); by split. }
  { apply returns_result. intros g (Hr & Hrid & Hc). destruct (Hc r Hr Hrid Hu) as (p & _ & [_ _ (result & -> & _)]). by eexists. }
  intros result. apply (returns_seq _ _ (λ _, R)); [by apply keeps_read|by apply returns_reading; [|by eexists]|]. intros pending.
  apply (returns_seq _ _ (λ _, R)).
  { apply (keeps_seq _ _ _ (λ _, R)); [by apply keeps_read|]. intros []; [by apply keeps_done|].
    apply keeps_writing; [done|done|]. intros _ g Hg Hp. split; [by apply history_ok|done]. }
  { apply (returns_seq _ _ (λ _, R)); [by apply keeps_read|by apply returns_reading; [|by eexists]|].
    intros []; [apply returns_done|by apply returns_writing]. }
  intros []. apply (returns_seq _ _ (λ _, R)); [by apply keeps_writing|by apply returns_writing|]. intros [].
  apply (returns_seq _ _ (λ _, R)).
  { intros g Hg Hp. destruct (question_ok answers other_heads g Hg) as [Hok He]. unfold attempt, writing, mbind, resolve_bind.
    pose proof (HR _ _ He Hp). destruct (question answers g) as [g1 [a|e|]]; simpl in *; [|done|done].
    unfold act. destruct (ea_fails a); [destruct (ea_applied a)|]; done. }
  { by apply returns_attempt, returns_writing. }
  intros x. assert (keeps R (move_job answers id RsCompleted) (λ _ _, True)) as Hk.
  { apply keeps_move; [done|done|]. intros g y Hg (Hr & Hrid & Hc) Hy Hyid Ht. split; [|done]. intros _. apply Hc; [done|done|].
    assert (y = r) as -> by (apply (store_unique answers g); [done..|congruence]). done. }
  eapply returns_seq; [exact Hk| |intros []; apply returns_remove]. eapply returns_alter; [done|exact Hk| |].
  - intros g _ (Hr & Hrid & _). by exists r.
  - intros g y Hg (Hr & Hrid & _) Hy Hyid. assert (y = r) as -> by (apply (store_unique answers g); [done..|congruence]).
    apply move_Ok. by rewrite Hu.
Qed.
Lemma returns_recover_one L id ids :
  id ∈ L → returns (λ g, unsettled (id :: ids) g ∧ known L g) (recover_one_uncertain answers id).
Proof using calm other_heads.
  intros HL. set (P := λ g, unsettled (id :: ids) g ∧ known L g).
  assert (stable P) as HP by (apply stable_both; [apply stable_unsettled|apply stable_known]).
  eapply returns_seq; [by apply (keeps_store_job answers other_heads P)|apply (returns_job P L); [done|by intros g [_ ?]|done]|].
  intros r. destruct (bool_decide_reflect (pj_assignment_state r = RsPublicationUncertain)) as [Hu|Hu]; [|apply returns_done]. simpl.
  set (R := λ g, P g ∧ r ∈ jobs_of g ∧ pj_id r = id).
  assert (stable R) as HR by (apply stable_both; [done|apply stable_both; [apply stable_in|by intros g g' _]]).
  eapply returns_seq; [by apply (get_head_ours answers other_heads R)|by apply returns_reading; [|by eexists]|]. intros h.
  assert (stable (λ g, R g ∧ ours answers h g)) as HRo by (apply stable_both; [done|apply stable_ours]).
  eapply returns_seq; [by apply journal_read| |].
  { intros g Hg Hn Hp. destruct (question_returns g Hn) as (g' & Hq & Hn' & _). unfold read_publication_journal, mbind, resolve_bind.
    rewrite Hq. by eexists _, _. }
  intros j. apply (returns_conseq (λ g, P g ∧ pj_id r = id ∧ read_all answers id r h j g)); [|unfold read_all, R; naive_solver].
  set (S := λ g, _). assert (returns S (_ ← fail_closed_recovery answers id; mret true)) as Hfc.
  { eapply returns_conseq; [by apply (returns_fail_closed L id ids)|]. by intros g [? _]. }
  destruct h as [h|]; [|exact Hfc]. destruct j as [j|]; [|exact Hfc]. destruct (_ || _); [exact Hfc|].
  destruct (bool_decide_reflect (h = jn_planned_head j)) as [Hh|_]; [|exact Hfc].
  intros g Hg Hn ((Hun & Hk) & Hid & Hall). pose proof (read_confirms answers id r h j g Hg Hid Hu Hall Hh) as Hc.
  destruct (returns_complete L id ids HL g Hg Hn) as (a & g' & Hr & Hn').
  { split; [done|]. split; [done|]. intros x Hx Hxid. destruct Hall as [[Hr _] _].
    assert (x = r) as -> by (apply (store_unique answers g); [done..|congruence]). done. }
  exists true, g'. unfold mbind, resolve_bind. by rewrite Hr.
Qed.
Lemma keeps_known {A} P (m : Resolve A) Q L :
  keeps P m Q → keeps_ids m → keeps (λ g, P g ∧ known L g) m (λ a g, Q a g ∧ known L g).
Proof using.
  intros Hk Hi g Hg [HP HL]. destruct (Hk g Hg HP) as [Hok HQ]. specialize (Hi g (to_bound _ (eo_store _ g Hg))).
  split; [done|]. destruct (m g).2; [|done|done]. split; [done|]. unfold known, ids_of in *. by rewrite (settling_ids _ _ Hi).
Qed.
Lemma returns_recover_all L ids n :
  ids ⊆ L → returns (λ g, unsettled ids g ∧ known L g) (recover_all answers ids n).
Proof using calm other_heads.
  revert n. induction ids as [|id ids IH]; intros n Hsub; [apply returns_done|]. simpl.
  eapply returns_seq; [apply keeps_known; [by apply recover_one_keeps|apply ids_recover_one]|apply returns_recover_one; set_solver|].
  intros b. apply IH. set_solver.
Qed.
Lemma ids_recover_all ids n : keeps_ids (recover_all answers ids n).
Proof using. revert n. induction ids as [|id ids IH]; intros n; [apply ids_ret|]. simpl. apply ids_bind; [apply ids_recover_one|]. intros b. apply IH. Qed.
Lemma returns_sweep L ids : ids ⊆ L → returns (known L) (sweep answers ids).
Proof using calm other_heads.
  assert (stable (known L)) as HP by apply stable_known.
  induction ids as [|id ids IH]; intros Hsub; [apply returns_done|]. simpl. assert (keeps (known L) (sweep_one answers id) (λ _, known L)) as Hk.
  { unfold sweep_one. apply (keeps_seq _ _ _ (λ _, known L)); [by apply keeps_read|]. intros []; simpl; [|by apply keeps_done].
    eapply keeps_seq; [by apply (keeps_store_job answers other_heads (known L))|]. intros r.
    eapply keeps_conseq; [by apply (remove_journal_keeps answers other_heads (known L))|by intros g _ [? _]|done]. }
  eapply returns_seq; [exact Hk| |intros []; apply IH; set_solver]. unfold sweep_one.
  apply (returns_seq _ _ (λ _, known L)); [by apply keeps_read|by apply returns_reading; [|by eexists]|]. intros []; simpl; [|apply returns_done].
  eapply returns_seq; [by apply (keeps_store_job answers other_heads (known L))|apply (returns_job _ L); [done|done|set_solver]|].
  intros r. apply returns_remove.
Qed.
Lemma recover_returns : returns (λ _, True) (recover_uncertain_publications answers).
Proof using calm other_heads.
  eapply returns_seq; [apply (keeps_store_load answers other_heads (λ _, True)); done|by apply returns_load|]. intros f.
  set (uncertain := pj_id <$> List.filter is_uncertain (rs_jobs f)).
  set (rest := pj_id <$> List.filter (λ r, negb (is_uncertain r)) (rs_jobs f)). set (L := pj_id <$> rs_jobs f).
  assert (uncertain ⊆ L ∧ rest ⊆ L) as [Hu Hr].
  { split; intros id (r & -> & [Hr _]%filter_elem)%list_elem_of_fmap; by apply list_elem_of_fmap_2. }
  assert (stable (λ g, unsettled uncertain g ∧ known L g)) as HP by (apply stable_both; [apply stable_unsettled|apply stable_known]).
  apply (returns_conseq (λ g, unsettled uncertain g ∧ known L g)).
  - cbv zeta. fold uncertain rest. destruct (bool_decide (uncertain = []) && _); [apply returns_done|].
    apply (returns_seq _ _ (λ _ g, unsettled uncertain g ∧ known L g)); [by apply keeps_read|by apply returns_reading; [|by eexists]|].
    intros []. eapply returns_seq; [apply keeps_known; [apply recover_all_keeps; done|apply ids_recover_all]|by apply returns_recover_all|].
    intros n. eapply (returns_seq _ _ (λ _ _, True)); [|eapply returns_conseq; [by apply (returns_sweep L)|by intros g [_ ?]]|intros []; apply returns_done].
    eapply keeps_conseq; [by apply (sweep_keeps answers other_heads)|by intros g _ [? _]|done].
  - intros g [_ ->]. split; [|done]. intros r Hr' Huu. apply list_elem_of_fmap. exists r. split; [done|]. apply filter_elem. split; [done|].
    by apply bool_decide_eq_true.
Qed.
Lemma recover_settling : keeps_ids (recover_uncertain_publications answers).
Proof using.
  apply ids_bind; [apply ids_reading|]. intros f. cbv zeta. destruct (bool_decide (_ = _) && _); [apply ids_ret|].
  apply ids_bind; [apply ids_reading|]. intros []. apply ids_bind; [apply ids_recover_all|]. intros n.
  apply ids_bind; [|intros []; apply ids_ret]. generalize (pj_id <$> List.filter (λ r, negb (is_uncertain r)) (rs_jobs f)).
  intros ids. induction ids as [|id ids IH]; [apply ids_ret|]. simpl. apply ids_bind; [|by intros []].
  apply ids_bind; [apply ids_reading|]. intros []; simpl; [|apply ids_ret].
  apply ids_bind; [apply ids_bind; [apply ids_reading|intros f'; apply ids_result]|]. intros r. apply ids_remove.
Qed.
End recovery.
