(* ===== verification/ResolutionTheorems.v ===== *)
(** * Conflict resolution: what its histories show

    The engine started on an empty store runs any sequence of operations while other clients move
    the head, calls fail, sometimes after they took effect, and the process dies at any step. *)
From Stdlib Require Import ZArith Lia Ascii Strings.Byte.
From stdpp Require Import sorting numbers strings gmap list_numbers list pretty options.
From S2P Require Import Prelude Text Paths Model WorkContract AgentContract WorkReducer IntegratorContract.
From S2P Require Import IntegratorSelection ResolutionContract ResolutionStore ResolutionIdentity Designation DesignationProps.
From S2P Require Import Resolution ResolutionProps ResolutionInvariant ResolutionOps ResolutionRecovery.

Local Open Scope Z_scope.

Section histories.
Context `{Unicode, Blake3, IntegratorJson, Sealing} (answers : nat → EngineAnswer) (workspace_id : string) (format_version : Z)
  (journal_bytes : PublicationPendingJournal → Z) (head : option string) (views : gmap string View).
Context (fresh_ids : ∀ i j, ea_snapshot_id (answers i) = ea_snapshot_id (answers j) → i = j).
Context (other_heads : ∀ i j h, ea_head (answers i) = Some (Some h) → h ≠ ea_snapshot_id (answers j)).
Context (first_head : ∀ i, head ≠ Some (ea_snapshot_id (answers i))).
Local Notation after ops := (run_engine answers workspace_id format_version journal_bytes ops (fresh_engine head views)).
Local Lemma after_ok ops : engine_ok answers (after ops).
Proof using fresh_ids other_heads first_head. by apply run_engine_ok; [..|apply fresh_engine_ok]. Qed.

(** C8. A job is recorded as completed only if its publication took effect. Whatever calls failed
    and wherever the process died before, for every completed record a snapshot was swapped in as
    the head directly after the snapshot the job was prepared for.  It holds that snapshot's files
    with the conflict's path changed as the candidate says: removed where it is deleted, unchanged
    where none was needed, else a live file with the candidate's mode whose id is that of the sealing,
    for that path, of bytes with the candidate's hash and the file's size, and that sealed object was
    uploaded under that id.  It holds its conflicts without that one, and the conflict published over
    had the legs recorded in the job. *)
Theorem completed_was_published ops r :
  r ∈ rs_jobs (eg_store (after ops)) → pj_assignment_state r = RsCompleted →
  ∃ p, p ∈ eg_swaps (after ops) ∧ publishes p r ∧ plan_exact (eg_uploads (after ops)) p
    ∧ ∃ l1 l2, eg_heads (after ops) = l1 ++ Some (pp_candidate_id p) :: Some (ci_current_snapshot (rj_conflict (pj_job r))) :: l2.
Proof using fresh_ids other_heads first_head.
  intros Hr Hc. pose proof (after_ok ops) as Hg. destruct (eo_completed _ _ Hg r Hr Hc) as (p & Hp & Hm).
  destruct (eo_swaps _ _ Hg p Hp) as [id Hin]. destruct (eo_plans _ _ Hg id p Hin) as [Hx _].
  exists p. split; [done|]. split; [done|]. split; [done|]. rewrite <-(pm_identity p r Hm), <-(px_head _ p Hx).
  by apply (eo_adjacent _ _ Hg).
Qed.

Local Lemma same_position {A} (l1 l1' l2 l2' : list A) x :
  l1 ++ x :: l2 = l1' ++ x :: l2' → NoDup (l1 ++ x :: l2) → l1 = l1'.
Proof using.
  clear. revert l1'. induction l1 as [|y l1 IH]; intros [|z l1']; simpl; [done|..].
  - intros [= -> Hl] [Hn _]%NoDup_cons. destruct Hn. rewrite Hl. apply elem_of_app. right. left.
  - intros [= -> Hl] [Hn _]%NoDup_cons. destruct Hn. apply elem_of_app. right. left.
  - intros [= -> Hl] [_ Hn]%NoDup_cons. by rewrite (IH l1').
Qed.
Local Lemma swap_head_unique g p q :
  engine_ok answers g → NoDup (eg_heads g) → p ∈ eg_swaps g → q ∈ eg_swaps g → pp_expected_head p = pp_expected_head q → p = q.
Proof using.
  clear first_head fresh_ids other_heads. intros Hg Hn Hp Hq He.
  destruct (eo_adjacent _ _ Hg p Hp) as (l1 & l2 & H1'), (eo_adjacent _ _ Hg q Hq) as (m1 & m2 & H2').
  assert (l1 ++ [Some (pp_candidate_id p)] = m1 ++ [Some (pp_candidate_id q)]) as Heq.
  { apply (same_position _ _ l2 m2 (Some (pp_expected_head p))); rewrite <-!app_assoc; simpl; [|by rewrite <-H1'].
    rewrite <-H1', He. done. }
  apply app_inj_2 in Heq as [_ [= Hid]]; [|done]. destruct (eo_swaps _ _ Hg p Hp) as [i Hi], (eo_swaps _ _ Hg q Hq) as [j Hj].
  apply list_elem_of_lookup in Hi as [a Ha], Hj as [b Hb]. assert (a = b) as ->; [|congruence].
  apply (proj1 (NoDup_alt _) (eo_plan_ids _ _ Hg) a b (pp_candidate_id p)).
  - by rewrite list_lookup_fmap, Ha.
  - rewrite list_lookup_fmap, Hb. simpl. by rewrite Hid.
Qed.
(** C19. A conflict is published at most once: where no head occurs twice, two publications that
    took effect and are of the same conflict are one. *)
Theorem published_once ops p q :
  let g := run_engine answers workspace_id format_version journal_bytes ops (fresh_engine head views) in
  NoDup (eg_heads g) → p ∈ eg_swaps g → q ∈ eg_swaps g → rp_identity (pp_plan p) = rp_identity (pp_plan q) → p = q.
Proof using fresh_ids other_heads first_head.
  intros g Hn Hp Hq Hi. pose proof (after_ok ops) as Hg. apply (swap_head_unique (after ops)); [done..|].
  destruct (eo_swaps _ _ Hg p Hp) as [i Hpi], (eo_swaps _ _ Hg q Hq) as [j Hqj].
  destruct (eo_plans _ _ Hg i p Hpi) as [Hpx _], (eo_plans _ _ Hg j q Hqj) as [Hqx _].
  by rewrite (px_head _ p Hpx), (px_head _ q Hqx), Hi.
Qed.

(** C17. Every store file written is well formed: it loads again, so each job in it and each result
    passes its validation; it has at most 64 records with distinct ids; and no two unfinished jobs
    are for one path. *)
Theorem stores_well_formed ops f :
  f ∈ eg_stores (after ops) →
  load_file f = Ok f ∧ (length (rs_jobs f) ≤ RESOLUTION_MAX_JOBS)%nat ∧ NoDup (pj_id <$> rs_jobs f)
  ∧ NoDup (pj_path <$> non_terminal (rs_jobs f)).
Proof using fresh_ids other_heads first_head.
  intros Hf. destruct (proj1 (Forall_forall _ _) (eo_stores _ _ (after_ok ops)) f Hf) as [Hs [Hv Hi Hp _] Hb].
  split; [by apply load_file_Ok|]. done.
Qed.

(** C18. From one store file to the next, a record keeps its job; it is unchanged or its state moves
    as the transition table allows, so a finished record never changes; an unfinished one is never
    dropped; and the only new records are active ones without a result under a new id. *)
Theorem stores_step ops i new old :
  (eg_stores (after ops) ++ [fresh_store]) !! i = Some new → (eg_stores (after ops) ++ [fresh_store]) !! S i = Some old →
  (∀ r', r' ∈ rs_jobs new →
     (∃ r, r ∈ rs_jobs old ∧ pj_job r' = pj_job r
        ∧ (r' = r ∨ transition_allowed (pj_assignment_state r) (pj_assignment_state r') = true))
     ∨ pj_id r' ∉ (pj_id <$> rs_jobs old) ∧ pj_assignment_state r' = RsActive ∧ pj_result r' = None)
  ∧ ∀ r, r ∈ rs_jobs old → pj_terminal r = false → ∃ r', r' ∈ rs_jobs new ∧ pj_id r' = pj_id r.
Proof using fresh_ids other_heads first_head.
  intros Hn Ho. destruct (eo_linked _ _ (after_ok ops) i new old Hn Ho) as [Hf Hk]. split; [|done].
  intros r' Hr'. destruct (Hf r' Hr') as [(r & Hr & Hj & Hs)|Hnew]; [left; by exists r|by right].
Qed.

(** C9. Recovery ends every uncertainty. After any history, if calls stop failing, recovery
    returns; every record that was uncertain is then completed or stale, every other is as it was,
    and each that is completed was published. *)
Theorem recovery_settles ops :
  (∀ i, (eg_asked (after ops) ≤ i)%nat → ea_dies (answers i) = false ∧ ea_fails (answers i) = false) →
  ∃ n g, recover_uncertain_publications answers (after ops) = (g, Done n)
    ∧ Forall2 settling (rs_jobs (eg_store (after ops))) (rs_jobs (eg_store g))
    ∧ (∀ r, r ∈ rs_jobs (eg_store g) → pj_assignment_state r ≠ RsPublicationUncertain)
    ∧ ∀ r, r ∈ rs_jobs (eg_store g) → pj_assignment_state r = RsCompleted → published g r.
Proof using fresh_ids other_heads first_head.
  intros calm. pose proof (after_ok ops) as Hg. set (g0 := after ops) in *.
  destruct (recover_returns answers other_heads (eg_asked g0) calm g0 Hg) as (n & g & Hr & _); [done|done|].
  exists n, g. split; [done|]. destruct (recover_engine_keeps answers other_heads g0 Hg I) as [Hok Hun]. rewrite Hr in Hok, Hun.
  pose proof (recover_settling answers g0 (to_bound _ (eo_store _ _ Hg))) as Hs. rewrite Hr in Hs. split; [done|].
  split; [|by apply (eo_completed _ g Hok)]. intros r Hin Hu. by apply (Hun r Hin), elem_of_nil in Hu.
Qed.
End histories.

(** ** A run *)
Section sample.
#[local] Instance engine_unicode : Unicode := ascii_unicode.
#[local] Instance engine_blake3 : Blake3 := λ bytes, hex_of 64 (zlen bytes).
#[local] Instance engine_json : IntegratorJson :=
  {| integrator_to_string _ := ""; integrator_from_str _ := None; names_to_string := String.concat "," |}.
#[local] Instance engine_sealing : Sealing := λ content path, Ok (x01 :: content).
Definition merged : list byte := [x6f; x6b].
Definition leg_state (c : ascii) (size : Z) : FileState := mkFileState "src/main.rs" (hex64 c) size 0 false 0.
Definition conflicted : View :=
  mkView (hex64 "b") {["src/main.rs" := leg_state "2" 5]}
    [mkConcurrentEdit "src/main.rs" (Some (leg_state "1" 4)) (Some (leg_state "2" 5)) (Some (leg_state "3" 7)) None None None None
       true true false None None None].
(** What goes wrong at a question: it dies, it fails, it fails after it took effect, another client moves the head. *)
Inductive Trouble := Dies | Fails | FailsAfter | Moves (head : string).
Definition crash_answer (t : option Trouble) (i : nat) : EngineAnswer :=
  mkEngineAnswer (match t with Some Dies => true | _ => false end)
    (match t with Some Fails | Some FailsAfter => true | _ => false end)
    (match t with Some FailsAfter => true | _ => false end)
    (match t with Some (Moves h) => Some (Some h) | _ => None end) [] (1000 + Z.of_nat i)
    (replicate 32 x5a) ("s" +:+ pretty i) (hex64 "e") (Opened merged 0 1 2) true true (Some "conflicts")
    (so_work (sample_sources "src/main.rs")).
Definition crash_answers (troubles : gmap nat Trouble) (i : nat) : EngineAnswer := crash_answer (troubles !! i) i.
Definition sample_engine : Engine := fresh_engine (Some (hex64 "a")) {[hex64 "a" := conflicted]}.
Local Notation crash_run troubles ops := (run_engine (crash_answers troubles) "ws" 3 (λ _, 100) ops sample_engine).
Definition prepare_op : EngineOp := OpPrepare "src/main.rs" (Exhausted "tried").
Definition sample_job_id : string := "5a5a5a5a5a5a5a5a5a5a5a5a5a5a5a5a".
Definition sample_fingerprint : string := "a730000000000000000000000000000000000000000000000000000000000000".
Definition sample_candidate : CandidateDescriptor :=
  mkCandidateDescriptor (candidate_path_for sample_job_id 0) (hash_bytes merged) 2 0 false.
Definition sample_result : ResolutionResult :=
  mkResolutionResult 1 RoCandidateReady sample_job_id sample_job_id 0 "ann" sample_fingerprint (Some sample_candidate)
    (mkVerificationSummary VsPassed "ok" None 1 None [] None []) [] None None 0 [].
Definition resolve_ops : list EngineOp := [prepare_op; OpSubmit sample_job_id sample_result; OpApply sample_job_id].
Definition sample_states (g : Engine) : list ResolutionAssignmentState := pj_assignment_state <$> rs_jobs (eg_store g).
Lemma sample_fresh troubles i j :
  ea_snapshot_id (crash_answers troubles i) = ea_snapshot_id (crash_answers troubles j) → i = j.
Proof. simpl. intros [= Hp]. by apply (inj pretty) in Hp. Qed.
Lemma sample_first troubles i : Some (hex64 "a") ≠ Some (ea_snapshot_id (crash_answers troubles i)).
Proof. simpl. discriminate. Qed.
(** The process dies right after the swap, and once more when recovery asks for the head. *)
Definition crashes : gmap nat Trouble := {[44%nat := Dies; 47%nat := Dies]}.
Lemma crashes_heads i j h : ea_head (crash_answers crashes i) = Some (Some h) → h ≠ ea_snapshot_id (crash_answers crashes j).
Proof.
  unfold crash_answers. simpl. destruct (crashes !! i) as [t|] eqn:Hc; [|done]. assert (t = Dies) as ->; [|done].
  unfold crashes in Hc. rewrite lookup_insert_Some, lookup_singleton_Some in Hc. by destruct Hc as [[_ <-]|[_ [_ <-]]].
Qed.
Definition crash_ops : list EngineOp := resolve_ops ++ [OpStatus None; OpStatus None].
Lemma head_in {A} (l : list A) x : head l = Some x → x ∈ l.
Proof. destruct l; [done|]. intros [= ->]. left. Qed.
Definition first_record (g : Engine) : PersistedResolutionJob :=
  default (mkPersistedJob 0 (sample_job (Exhausted "")) RsActive 0 None None 0) (head (rs_jobs (eg_store g))).

(** The statement applied to the job completed by the second recovery. *)
Lemma completed_was_published_witness :
  ∃ p, p ∈ eg_swaps (crash_run crashes crash_ops) ∧ publishes p (first_record (crash_run crashes crash_ops)) ∧ plan_exact (eg_uploads (crash_run crashes crash_ops)) p.
Proof.
  destruct (completed_was_published (crash_answers crashes) "ws" 3 (λ _, 100) (Some (hex64 "a")) {[hex64 "a" := conflicted]}
    (sample_fresh crashes) crashes_heads (sample_first crashes) crash_ops (first_record (crash_run crashes crash_ops)))
    as (p & Hp & Hm & Hx & _).
  - apply (bool_decide_eq_true_1 _). vm_compute. reflexivity.
  - vm_compute. reflexivity.
  - exists p. split; [exact Hp|]. split; [exact Hm|exact Hx].
Defined.
(** The statement applied to the one publication of the run. *)
Lemma published_once_witness :
  ∃ p, p ∈ eg_swaps (crash_run crashes crash_ops)
    ∧ ∀ q, q ∈ eg_swaps (crash_run crashes crash_ops) → rp_identity (pp_plan p) = rp_identity (pp_plan q) → p = q.
Proof.
  assert (∃ p, p ∈ eg_swaps (crash_run crashes crash_ops)) as [p Hp].
  { assert (length (eg_swaps (crash_run crashes crash_ops)) = 1%nat) as Hl by (vm_compute; reflexivity).
    destruct (eg_swaps _) as [|p l]; [discriminate Hl|]. exists p. left. }
  exists p. split; [exact Hp|]. intros q Hq Hi.
  apply (published_once (crash_answers crashes) "ws" 3 (λ _, 100) (Some (hex64 "a")) {[hex64 "a" := conflicted]}
    (sample_fresh crashes) crashes_heads (sample_first crashes) crash_ops p q); [|exact Hp|exact Hq|exact Hi].
  apply (bool_decide_eq_true_1 _). vm_compute. reflexivity.
Defined.
(** The statement applied to the last store file of the run. *)
Lemma stores_well_formed_witness :
  length (eg_stores (crash_run crashes crash_ops)) = 4%nat
  ∧ load_file (eg_store (crash_run crashes crash_ops)) = Ok (eg_store (crash_run crashes crash_ops)).
Proof.
  split; [vm_compute; reflexivity|].
  apply (stores_well_formed (crash_answers crashes) "ws" 3 (λ _, 100) (Some (hex64 "a")) {[hex64 "a" := conflicted]}
    (sample_fresh crashes) crashes_heads (sample_first crashes) crash_ops).
  apply head_in. vm_compute. reflexivity.
Defined.
(** The statement applied to the completion of the job. *)
Lemma stores_step_witness :
  ∃ new old, eg_stores (crash_run crashes crash_ops) !! 0%nat = Some new ∧ eg_stores (crash_run crashes crash_ops) !! 1%nat = Some old
    ∧ ∀ r, r ∈ rs_jobs old → pj_terminal r = false → ∃ r', r' ∈ rs_jobs new ∧ pj_id r' = pj_id r.
Proof.
  pose proof (stores_step (crash_answers crashes) "ws" 3 (λ _, 100) (Some (hex64 "a")) {[hex64 "a" := conflicted]}
    (sample_fresh crashes) crashes_heads (sample_first crashes) crash_ops 0) as Hs.
  assert (length (eg_stores (crash_run crashes crash_ops)) = 4%nat) as Hl by (vm_compute; reflexivity).
  fold sample_engine in Hs. destruct (eg_stores (crash_run crashes crash_ops)) as [|new [|old l]]; [discriminate Hl..|].
  exists new, old. split; [reflexivity|]. split; [reflexivity|]. apply (Hs new old); reflexivity.
Defined.
(** The statement applied after the two crashes, with one record uncertain. *)
Lemma recovery_settles_witness :
  sample_states (crash_run crashes (take 4 crash_ops)) = [RsPublicationUncertain]
  ∧ ∃ n g, recover_uncertain_publications (crash_answers crashes) (crash_run crashes (take 4 crash_ops)) = (g, Done n)
      ∧ ∀ r, r ∈ rs_jobs (eg_store g) → pj_assignment_state r ≠ RsPublicationUncertain.
Proof.
  split; [vm_compute; reflexivity|].
  destruct (recovery_settles (crash_answers crashes) "ws" 3 (λ _, 100) (Some (hex64 "a")) {[hex64 "a" := conflicted]}
    (sample_fresh crashes) crashes_heads (sample_first crashes) (take 4 crash_ops)) as (n & g & Hr & _ & Hn & _).
  - assert (eg_asked (crash_run crashes (take 4 crash_ops)) = 48%nat) as Ha by (vm_compute; reflexivity).
    fold sample_engine. rewrite Ha. intros i Hi. unfold crash_answers.
    assert (crashes !! i = None) as ->; [|by split]. unfold crashes. by rewrite lookup_insert_ne, lookup_singleton_ne by lia.
  - exists n, g. split; [exact Hr|exact Hn].
Defined.

(** A swap that takes effect although its call fails is forgotten: the record is active again, the
    journal is gone, the head is the planned snapshot, and applying the job once more finds that the
    head changed. *)
Theorem failed_swap_forgotten :
  let g := crash_run {[43%nat := FailsAfter]} resolve_ops in
  sample_states g = [RsActive] ∧ eg_journals g = ∅ ∧ length (eg_swaps g) = 1%nat ∧ eg_head g = Some "s40"
  ∧ ∃ g', apply_resolution_job (crash_answers ∅) "ws" (λ _, 100) sample_job_id g = (g', Done (StaleOutcome SkHeadChanged))
      ∧ sample_states g' = [RsActive].
Proof.
  cbv zeta. do 4 (split; [by vm_compute|]). eexists. split; [vm_compute; reflexivity|]. by vm_compute.
Qed.
(** A publication that took effect is declared stale where another client moved the head on before
    recovery read it. *)
Theorem published_but_stale :
  let g := crash_run {[44%nat := Dies; 45%nat := Moves (hex64 "c")]} crash_ops in
  sample_states g = [RsStale] ∧ length (eg_swaps g) = 1%nat ∧ eg_heads g = [Some (hex64 "c"); Some "s40"; Some (hex64 "a")].
Proof. by vm_compute. Qed.
End sample.
