(* ===== verification/SnapshotDiff.v ===== *)
(** * Differences between a snapshot and a view

    agent-core/src/snapshot_diff.rs: the diff over the encrypted object store, in which the newer
    side may be a prepared bundle that was never stored.  The stack is a list whose head is the
    next item to pop. *)
From Stdlib Require Import ZArith Lia Ascii Strings.Byte.
From stdpp Require Import sorting numbers strings gmap list_numbers list options.
From S2P Require Import Prelude Text Paths Model Codec CodecProps Lookup Convert Flatten Diff.

Local Open Scope Z_scope.

Record TreeDiffStats := mkTreeDiffStats { ts_changes : list TreeChange; ts_object_reads : Z }.

(** [SideSource] is [DiffSide]. *)
Inductive SnapWork :=
| PairEnter (before after prefix : string) (depth : Z)
| PairExit (before after : string)
| SideEnter (entry : TreeEntry) (path : string) (kind : TreeChangeKind) (source : DiffSide) (depth : Z)
| SideExit (id : string) (source : DiffSide).

(** The local variables of [diff_roots]. *)
Record SnapTraversal := mkSnap {
  sv_changes : list TreeChange;
  sv_object_reads : Z;
  sv_work_items : Z;
  sv_path_bytes : Z;
  sv_objects : gset string;
  sv_active_before : gset string;
  sv_active_after : gset string;
}.
Definition SnapTraversal_new : SnapTraversal := mkSnap [] 0 0 0 ∅ ∅ ∅.
Definition sv_with_changes (cs : list TreeChange) (t : SnapTraversal) : SnapTraversal :=
  mkSnap cs (sv_object_reads t) (sv_work_items t) (sv_path_bytes t) (sv_objects t) (sv_active_before t) (sv_active_after t).
Definition sv_with_work (n : Z) (t : SnapTraversal) : SnapTraversal :=
  mkSnap (sv_changes t) (sv_object_reads t) n (sv_path_bytes t) (sv_objects t) (sv_active_before t) (sv_active_after t).
Definition sv_read (n : Z) (t : SnapTraversal) : SnapTraversal :=
  mkSnap (sv_changes t) (sv_object_reads t + n) (sv_work_items t) (sv_path_bytes t) (sv_objects t) (sv_active_before t)
    (sv_active_after t).
Definition active_set (source : DiffSide) (t : SnapTraversal) : gset string :=
  match source with Before => sv_active_before t | After => sv_active_after t end.
Definition set_active_set (source : DiffSide) (s : gset string) (t : SnapTraversal) : SnapTraversal :=
  match source with
  | Before => mkSnap (sv_changes t) (sv_object_reads t) (sv_work_items t) (sv_path_bytes t) (sv_objects t) s (sv_active_after t)
  | After => mkSnap (sv_changes t) (sv_object_reads t) (sv_work_items t) (sv_path_bytes t) (sv_objects t) (sv_active_before t) s
  end.
Definition activate (source : DiffSide) (id : string) (t : SnapTraversal) : Result SnapTraversal :=
  bail_if (bool_decide (id ∈ active_set source t)) "tree diff encountered a cycle or excessive depth" ;;
  Ok (set_active_set source ({[id]} ∪ active_set source t) t).
Definition track_object (id : string) (t : SnapTraversal) : Result SnapTraversal :=
  let objects := {[id]} ∪ sv_objects t in
  bail_if (negb (bool_decide (id ∈ sv_objects t)) && (MAX_TREE_OBJECTS <? Z.of_nat (size objects)))
    "tree diff exceeds distinct-object limit" ;;
  Ok (mkSnap (sv_changes t) (sv_object_reads t) (sv_work_items t) (sv_path_bytes t) objects (sv_active_before t)
        (sv_active_after t)).
Definition add_change (c : TreeChange) (t : SnapTraversal) : Result SnapTraversal :=
  bail_if (MAX_TREE_OUTPUT_PATHS <=? zlen (sv_changes t)) "tree diff exceeds output limit" ;;
  Ok (sv_with_changes (sv_changes t ++ [c]) t).
Definition count_work (n : Z) (t : SnapTraversal) : Result SnapTraversal :=
  n ← charge (sv_work_items t) n MAX_TREE_WORK_ITEMS "tree diff work counter overflow" "tree diff exceeds traversal work limit";
  Ok (sv_with_work n t).

Section diff.
Context `{Unicode}.
(** [ObjectStore::get_bytes]: reading and decrypting an object; [prepared]: the bundle, if any. *)
Context (get_bytes : string → Result (list byte)) (prepared : gmap string Tree).

Definition get_tree (id : string) : Result Tree := bytes ← get_bytes id; decode_tree bytes.
(** A tree of the bundle, or one that is read; and the number of reads. *)
Definition get_prepared (id : string) : Result (Tree * Z) :=
  match prepared !! id with Some t => Ok (t, 0) | None => t ← get_tree id; Ok (t, 1) end.

Definition bounded_join (prefix name : string) (t : SnapTraversal) : Result (string * SnapTraversal) :=
  let path := join_path prefix name in
  bail_if (negb (is_safe_rel_path path) || (MAX_TREE_DEPTH <? zlen (split slash path)))
    "tree diff produced an unsafe or oversized path" ;;
  n ← charge (sv_path_bytes t) (slen path) MAX_TREE_PATH_BYTES_TOTAL "tree diff path counter overflow"
        "tree diff paths exceed aggregate byte limit";
  Ok (path, mkSnap (sv_changes t) (sv_object_reads t) (sv_work_items t) n (sv_objects t) (sv_active_before t)
              (sv_active_after t)).

(** The body of the loop of [compare_entries]. *)
Definition compare_name (before after : gmap string TreeEntry) (prefix : string) (depth : Z)
    (st : list SnapWork * SnapTraversal) (name : string) : Result (list SnapWork * SnapTraversal) :=
  '(path, t) ← bounded_join prefix name st.2;
  match before !! name, after !! name with
  | Some l, Some r =>
      if decide (l = r) then Ok (st.1, t)
      else if is_dir l && is_dir r then Ok (PairEnter (te_hash l) (te_hash r) path (depth + 1) :: st.1, t)
      else if is_dir l || is_dir r then
        Ok (SideEnter r path Added After (depth + 1) :: SideEnter l path Deleted Before (depth + 1) :: st.1, t)
      else t ← add_change (mkTreeChange path Modified (Some l) (Some r)) t; Ok (st.1, t)
  | Some l, None => Ok (SideEnter l path Deleted Before (depth + 1) :: st.1, t)
  | None, Some r => Ok (SideEnter r path Added After (depth + 1) :: st.1, t)
  | None, None => Ok (st.1, t)
  end.
Definition entry_map (t : Tree) : gmap string TreeEntry := hash_collect ((λ e, (te_name e, e)) <$> tr_entries t).
Definition compare_entries (before after : Tree) (prefix : string) (depth : Z) (st : list SnapWork * SnapTraversal)
    : Result (list SnapWork * SnapTraversal) :=
  try_fold (compare_name (entry_map before) (entry_map after) prefix depth) st
    (reverse (union_names (entry_map before) (entry_map after))).

Definition enter_pair (before after prefix : string) (depth : Z) (work : list SnapWork) (t : SnapTraversal)
    : Result (list SnapWork * SnapTraversal) :=
  if decide (before = after) then Ok (work, t) else
  bail_if (MAX_TREE_DEPTH <? depth) "tree diff encountered a cycle or excessive depth" ;;
  t ← activate Before before t;
  t ← activate After after t;
  t ← track_object before t;
  t ← track_object after t;
  l ← get_tree before;
  '(r, reads) ← get_prepared after;
  compare_entries l r prefix depth (PairExit before after :: work, sv_read (1 + reads) t).
Definition push_child (path : string) (kind : TreeChangeKind) (source : DiffSide) (depth : Z)
    (st : list SnapWork * SnapTraversal) (child : TreeEntry) : Result (list SnapWork * SnapTraversal) :=
  '(child_path, t) ← bounded_join path (te_name child) st.2;
  Ok (SideEnter child child_path kind source (depth + 1) :: st.1, t).
Definition enter_side (entry : TreeEntry) (path : string) (kind : TreeChangeKind) (source : DiffSide) (depth : Z)
    (work : list SnapWork) (t : SnapTraversal) : Result (list SnapWork * SnapTraversal) :=
  if is_dir entry then
    bail_if (MAX_TREE_DEPTH <? depth) "tree diff encountered a cycle or excessive depth" ;;
    t ← activate source (te_hash entry) t;
    t ← track_object (te_hash entry) t;
    '(tree, reads) ← get_prepared (te_hash entry);
    t ← count_work (zlen (tr_entries tree)) (sv_read reads t);
    try_fold (push_child path kind source depth) (SideExit (te_hash entry) source :: work, t) (reverse (tr_entries tree))
  else
    t ← add_change (mkTreeChange path kind (if decide (kind = Deleted) then Some entry else None)
                      (if decide (kind = Added) then Some entry else None)) t;
    Ok (work, t).
Definition snap_work (item : SnapWork) (work : list SnapWork) (t : SnapTraversal) : Result (list SnapWork * SnapTraversal) :=
  t ← count_work 1 t;
  match item with
  | PairExit before after =>
      Ok (work, set_active_set After (active_set After t ∖ {[after]})
                  (set_active_set Before (active_set Before t ∖ {[before]}) t))
  | SideExit id source => Ok (work, set_active_set source (active_set source t ∖ {[id]}) t)
  | PairEnter before after prefix depth => enter_pair before after prefix depth work t
  | SideEnter entry path kind source depth => enter_side entry path kind source depth work t
  end.
Definition snap_step (st : list SnapWork * SnapTraversal) : step (list SnapWork * SnapTraversal) (Result SnapTraversal) :=
  match st.1 with
  | [] => Done (Ok st.2)
  | item :: work => match snap_work item work st.2 with Ok st => More st | Err e => Done (Err e) end
  end.
(** [2 ^ 22] iterations are more than the work limit allows. *)
Definition diff_roots (before_root after_root : string) : Result TreeDiffStats :=
  if decide (before_root = after_root) then Ok (mkTreeDiffStats [] 0) else
  match iterate 22 snap_step ([PairEnter before_root after_root "" 0], SnapTraversal_new) with
  | Done r => t ← r; Ok (mkTreeDiffStats (sort_by tc_path (sv_changes t)) (sv_object_reads t))
  | More _ => Err "traversal does not end"
  end.
End diff.
