(* ===== verification/SnapshotDiffProps.v ===== *)
(** * The diff of a snapshot and a view is exact

    The traversal of the object store visits what the traversal of canonical trees visits: an item
    that waits with a leaf stands for a change reported already.  Its invariant is the one of
    [diff_trees] seen through this reading. *)
From Stdlib Require Import ZArith Lia Ascii Strings.Byte.
From stdpp Require Import sorting numbers strings gmap list_numbers list options.
From S2P Require Import Prelude Text Paths Model Codec CodecProps Lookup Convert ConvertProps Flatten FlattenProps Diff DiffProps.
From S2P Require Import SnapshotDiff.

Local Open Scope Z_scope.

Section props.
Context `{Unicode} (get_bytes : string → Result (list byte)) (prepared : gmap string Tree).
Local Notation get_tree := (get_tree get_bytes).
(** The store as a whole. *)
Definition fetched : Fetch := λ id, match prepared !! id with Some t => Ok t | None => get_tree id end.

(** ** Termination *)
Lemma count_work_Ok n t t' : count_work n t = Ok t' → t' = sv_with_work (sv_work_items t + n) t ∧ sv_work_items t + n ≤ MAX_TREE_WORK_ITEMS.
Proof using.
  unfold count_work. intros Hc. apply bind_Ok in Hc as (m & (-> & _ & Hm)%charge_Ok & Hc). by apply Ok_inj in Hc as <-.
Qed.
Definition same_work (t t' : SnapTraversal) : Prop := sv_work_items t' = sv_work_items t.
Lemma bounded_join_Ok prefix name t path t' :
  bounded_join prefix name t = Ok (path, t') → path = join_path prefix name ∧ sv_changes t' = sv_changes t ∧ same_work t t'.
Proof using. unfold bounded_join. intros Hb. by inv_ok. Qed.
Lemma add_change_Ok c t t' : add_change c t = Ok t' → sv_changes t' = sv_changes t ++ [c] ∧ same_work t t'.
Proof using. unfold add_change. intros Ha. by inv_ok. Qed.
Lemma activate_Ok s id t t' : activate s id t = Ok t' → sv_changes t' = sv_changes t ∧ same_work t t'.
Proof using. unfold activate. intros Ha. inv_ok. by destruct s. Qed.
Lemma track_Ok id t t' : track_object id t = Ok t' → sv_changes t' = sv_changes t ∧ same_work t t'.
Proof using. unfold track_object. intros Ha. by inv_ok. Qed.
Lemma compare_name_work be ae prefix d st n st' :
  compare_name be ae prefix d st n = Ok st' → same_work st.2 st'.2.
Proof using.
  unfold compare_name. intros Hc. apply bind_Ok in Hc as ([path t] & (_ & _ & Hw)%bounded_join_Ok & Hc).
  destruct (be !! n) as [l|], (ae !! n) as [r|]; try (apply Ok_inj in Hc as <-; exact Hw).
  destruct (decide _); [by apply Ok_inj in Hc as <-|]. destruct (is_dir l && is_dir r); [by apply Ok_inj in Hc as <-|].
  destruct (is_dir l || is_dir r); [by apply Ok_inj in Hc as <-|]. apply bind_Ok in Hc as (t' & [_ Hw']%add_change_Ok & Hc).
  apply Ok_inj in Hc as <-. unfold same_work in *. simpl. congruence.
Qed.
Lemma fold_work {A} (f : list SnapWork * SnapTraversal → A → Result (list SnapWork * SnapTraversal)) l st st' :
  (∀ st a st', f st a = Ok st' → same_work st.2 st'.2) → try_fold f st l = Ok st' → same_work st.2 st'.2.
Proof using.
  intros Hf. revert st. induction l as [|a l IH]; intros st Hl; cbn [try_fold] in Hl; [by apply Ok_inj in Hl as <-|].
  apply bind_Ok in Hl as (st1 & H1%Hf & H2%IH). unfold same_work in *. congruence.
Qed.
Lemma push_child_Ok path kind source d st e st' :
  push_child path kind source d st e = Ok st' →
  st'.1 = SideEnter e (join_path path (te_name e)) kind source (d + 1) :: st.1 ∧ sv_changes st'.2 = sv_changes st.2 ∧ same_work st.2 st'.2.
Proof using.
  unfold push_child. intros Hp. apply bind_Ok in Hp as ([p t] & (-> & Hc & Hw)%bounded_join_Ok & Hp). by apply Ok_inj in Hp as <-.
Qed.
Lemma snap_work_counts item work t st' :
  snap_work get_bytes prepared item work t = Ok st' →
  sv_work_items t < sv_work_items st'.2 ∧ sv_work_items st'.2 ≤ MAX_TREE_WORK_ITEMS.
Proof using.
  unfold snap_work. intros Hs. apply bind_Ok in Hs as (t1 & [-> Hb]%count_work_Ok & Hs). destruct item as [b a p d|b a|e p k s d|id s].
  - unfold enter_pair in Hs. destruct (decide _); [apply Ok_inj in Hs as <-; simpl; lia|].
    apply bind_Ok in Hs as (? & _ & Hs). apply bind_Ok in Hs as (t2 & [_ H2]%activate_Ok & Hs).
    apply bind_Ok in Hs as (t3 & [_ H3]%activate_Ok & Hs). apply bind_Ok in Hs as (t4 & [_ H4]%track_Ok & Hs).
    apply bind_Ok in Hs as (t5 & [_ H5]%track_Ok & Hs). apply bind_Ok in Hs as (l & _ & Hs).
    apply bind_Ok in Hs as ([r nr] & _ & Hs). apply (fold_work _ _ _ _ (compare_name_work _ _ _ _)) in Hs.
    unfold same_work in *. simpl in *. lia.
  - apply Ok_inj in Hs as <-. simpl. lia.
  - unfold enter_side in Hs. destruct (is_dir e).
    + apply bind_Ok in Hs as (? & _ & Hs). apply bind_Ok in Hs as (t2 & [_ H2]%activate_Ok & Hs).
      apply bind_Ok in Hs as (t3 & [_ H3]%track_Ok & Hs). apply bind_Ok in Hs as ([tree nr] & _ & Hs).
      apply bind_Ok in Hs as (t4 & [-> H4]%count_work_Ok & Hs). apply fold_work in Hs.
      2: { intros st c st2 Hp. by apply push_child_Ok in Hp as (_ & _ & ?). }
      unfold same_work in *. simpl in *. pose proof (zlen_nonneg (tr_entries tree)). lia.
    + apply bind_Ok in Hs as (t2 & [_ H2]%add_change_Ok & Hs). apply Ok_inj in Hs as <-. unfold same_work in *. simpl in *. lia.
  - apply Ok_inj in Hs as <-. destruct s; simpl; lia.
Qed.
Lemma snap_step_More st st' :
  snap_step get_bytes prepared st = More st' → ∃ item work, st.1 = item :: work ∧ snap_work get_bytes prepared item work st.2 = Ok st'.
Proof using.
  destruct st as [[|item work] t]; unfold snap_step; simpl; [done|].
  destruct (snap_work get_bytes prepared item work t) eqn:E; [|done]. intros [= ->]. eauto.
Qed.
(** The diff ends on every store and every bundle. *)
Lemma snap_terminates before after :
  ∃ r, iterate 22 (snap_step get_bytes prepared) ([PairEnter before after "" 0], SnapTraversal_new) = Done r.
Proof using.
  apply (iterate_done _ (λ st, 0 ≤ sv_work_items st.2 ≤ MAX_TREE_WORK_ITEMS)) with (m := λ st, MAX_TREE_WORK_ITEMS - sv_work_items st.2).
  - intros s s' Hs (item & work & _ & Hw%snap_work_counts)%snap_step_More. lia.
  - intros s s' Hs (item & work & _ & Hw%snap_work_counts)%snap_step_More. lia.
  - intros s Hs. lia.
  - simpl. unfold MAX_TREE_WORK_ITEMS, MANIFEST_MAX_ENTRIES. lia.
  - vm_compute. reflexivity.
Qed.
(** ** Correctness *)
(** What an item of the stack stands for: directories to open, and a leaf to report. *)
Definition abs_item (w : SnapWork) : list DiffWork :=
  match w with
  | PairEnter b a p d => [Pair b a p d]
  | SideEnter e p k s d => if is_dir e then [CollectDir (te_hash e) p k s d] else []
  | PairExit _ _ | SideExit _ _ => []
  end.
Definition abs_change (w : SnapWork) : list TreeChange :=
  match w with
  | SideEnter e p k s d =>
      if is_dir e then []
      else [mkTreeChange p k (if decide (k = Deleted) then Some e else None) (if decide (k = Added) then Some e else None)]
  | _ => []
  end.
Definition abs_items (st : list SnapWork * SnapTraversal) : list DiffWork := st.1 ≫= abs_item.
Definition abs_changes (st : list SnapWork * SnapTraversal) : list TreeChange := sv_changes st.2 ++ (st.1 ≫= abs_change).
Definition with_changes (cs : list TreeChange) : DiffTraversal := mkDiff ∅ ∅ ∅ 0 0 0 cs.

(** What a piece of the traversal adds, in this reading. *)
Definition adds (st st' : list SnapWork * SnapTraversal) (cs : list TreeChange) (ws : list DiffWork) : Prop :=
  abs_changes st' ≡ₚ cs ++ abs_changes st ∧ abs_items st' ≡ₚ ws ++ abs_items st.
Lemma adds_nil st t' : sv_changes t' = sv_changes st.2 → adds st (st.1, t') [] [].
Proof using. intros Hc. unfold adds, abs_changes, abs_items. simpl. by rewrite Hc. Qed.
Lemma adds_push st t' w cs ws :
  sv_changes t' = sv_changes st.2 → abs_change w = cs → abs_item w = ws → adds st (w :: st.1, t') cs ws.
Proof using.
  intros Hc <- <-. unfold adds, abs_changes, abs_items. cbn [fst snd]. rewrite Hc, !bind_cons. split; [|done].
  by rewrite !(assoc_L (++)), (comm (++) (abs_change w)).
Qed.
Lemma side_deleted e p d :
  abs_change (SideEnter e p Deleted Before d) = leaf_change p (leaf_of (Some e)) None ∧
  abs_item (SideEnter e p Deleted Before d) = child_work p d (Some e) None.
Proof using. unfold child_work. rewrite decide_False by done. simpl. by destruct (is_dir e). Qed.
Lemma side_added e p d :
  abs_change (SideEnter e p Added After d) = leaf_change p None (leaf_of (Some e)) ∧
  abs_item (SideEnter e p Added After d) = child_work p d None (Some e).
Proof using. unfold child_work. rewrite decide_False by done. simpl. by destruct (is_dir e). Qed.
Lemma adds_trans st1 st2 st3 cs1 ws1 cs2 ws2 :
  adds st1 st2 cs1 ws1 → adds st2 st3 cs2 ws2 → adds st1 st3 (cs1 ++ cs2) (ws1 ++ ws2).
Proof using. intros [H1 H2] [H3 H4]. split; [rewrite H3, H1|rewrite H4, H2]; rewrite !(assoc_L (++)); f_equiv; apply (comm _). Qed.
Lemma adds_fold {A} (f : list SnapWork * SnapTraversal → A → Result (list SnapWork * SnapTraversal)) cs ws l st st' :
  (∀ st a st', f st a = Ok st' → adds st st' (cs a) (ws a)) → try_fold f st l = Ok st' → adds st st' (l ≫= cs) (l ≫= ws).
Proof using.
  intros Hf. revert st. induction l as [|a l IH]; intros st Hl; cbn [try_fold] in Hl.
  { apply Ok_inj in Hl as <-. by destruct st; apply adds_nil. }
  apply bind_Ok in Hl as (st1 & H1%Hf & H2%IH). rewrite !bind_cons. by eapply adds_trans.
Qed.
Lemma compare_name_adds be ae prefix d st n st' :
  compare_name be ae prefix d st n = Ok st' →
  adds st st' (leaf_change (join_path prefix n) (leaf_of (be !! n)) (leaf_of (ae !! n)))
    (child_work (join_path prefix n) (d + 1) (be !! n) (ae !! n)).
Proof using.
  unfold compare_name. intros Hc. apply bind_Ok in Hc as ([path t] & (-> & Ht & _)%bounded_join_Ok & Hc).
  destruct (be !! n) as [l|], (ae !! n) as [r|].
  - unfold child_work. destruct (decide (l = r)) as [->|Hne].
    { apply Ok_inj in Hc as <-. rewrite decide_True by done. simpl. destruct (is_dir r); [by apply adds_nil|]. simpl.
      rewrite decide_True by done. by apply adds_nil. }
    rewrite (decide_False (P := Some l = Some r)) by congruence. simpl.
    destruct (is_dir l) eqn:Hl, (is_dir r) eqn:Hr; simpl in Hc |- *.
    + apply Ok_inj in Hc as <-. by apply adds_push.
    + apply Ok_inj in Hc as <-. apply (adds_trans st (SideEnter l (join_path prefix n) Deleted Before (d + 1) :: st.1, t) _ [] [_] [_] []);
        apply (adds_push (_, t)) || apply adds_push; simpl; by rewrite ?Hl, ?Hr.
    + apply Ok_inj in Hc as <-. apply (adds_trans st (SideEnter l (join_path prefix n) Deleted Before (d + 1) :: st.1, t) _ [_] [] [] [_]);
        apply (adds_push (_, t)) || apply adds_push; simpl; by rewrite ?Hl, ?Hr.
    + rewrite decide_False by done. apply bind_Ok in Hc as (t' & [Ht' _]%add_change_Ok & Hc). apply Ok_inj in Hc as <-.
      unfold adds, abs_changes, abs_items. cbn [fst snd]. rewrite Ht', Ht. split; [|done].
      by rewrite (comm (++) (sv_changes st.2)), <-(assoc_L (++)).
  - apply Ok_inj in Hc as <-. by apply adds_push; [|apply side_deleted..].
  - apply Ok_inj in Hc as <-. by apply adds_push; [|apply side_added..].
  - apply Ok_inj in Hc as <-. by apply adds_nil.
Qed.
Lemma push_children_adds path kind source d es st st' cs ws :
  (∀ e, abs_change (SideEnter e (join_path path (te_name e)) kind source (d + 1)) = cs e ∧
        abs_item (SideEnter e (join_path path (te_name e)) kind source (d + 1)) = ws e) →
  try_fold (push_child path kind source d) st es = Ok st' → adds st st' (es ≫= cs) (es ≫= ws).
Proof using.
  intros He. apply adds_fold. intros st1 e st2 (Hw & Hc & _)%push_child_Ok. destruct st2 as [w2 t2]. simpl in *. subst w2.
  destruct (He e). by apply adds_push.
Qed.

(** The invariant does not depend on the order of the stack and of the changes. *)
Lemma diff_inv_perm before after l l' cs cs' :
  diff_inv fetched before after (l, with_changes cs) → l' ≡ₚ l → cs' ≡ₚ cs → diff_inv fetched before after (l', with_changes cs').
Proof using.
  intros [Hwf Hs Hp Hc Ho] Hl Hcs. simpl in *. constructor; simpl.
  - by rewrite Hl.
  - intros c. rewrite Hcs. apply Hs.
  - intros w ????. rewrite Hl. apply Hp.
  - intros parts Hne. setoid_rewrite Hcs. setoid_rewrite Hl. by apply Hc.
  - intros parts Hcl Hne. unfold visits. simpl. rewrite Hcs, Hl. by apply Ho.
Qed.

Context (Hvalid : ∀ id t, prepared !! id = Some t → tree_valid t).
Context (Hagree : ∀ id t t', prepared !! id = Some t → get_tree id = Ok t' → t' = t).

Lemma decode_tree_valid b t : decode_tree b = Ok t → tree_valid t.
Proof using.
  unfold decode_tree. intros Hd. inv_ok. unfold finish, ensure_sorted_unique in *. inv_ok. by apply validate_tree_spec.
Qed.
Lemma get_tree_Ok id t : get_tree id = Ok t → fetched id = Ok t ∧ tree_valid t.
Proof using Hagree.
  intros Hg. unfold fetched. split.
  - destruct (prepared !! id) eqn:E; [|done]. by rewrite (Hagree _ _ _ E Hg).
  - unfold SnapshotDiff.get_tree in Hg. apply bind_Ok in Hg as (b & _ & Hb). by eapply decode_tree_valid.
Qed.
Lemma get_prepared_Ok id t n : get_prepared get_bytes prepared id = Ok (t, n) → fetched id = Ok t ∧ tree_valid t.
Proof using Hvalid Hagree.
  unfold get_prepared. intros Hg. destruct (prepared !! id) as [t0|] eqn:E.
  - apply Ok_inj in Hg as [= -> _]. split; [by unfold fetched; rewrite E|by eapply Hvalid].
  - apply bind_Ok in Hg as (t1 & Ht & Hg). apply Ok_inj in Hg as [= -> _]. by apply get_tree_Ok.
Qed.

Section run.
Context (before after : string).
Definition snap_inv (st : list SnapWork * SnapTraversal) : Prop :=
  diff_inv fetched before after (abs_items st, with_changes (abs_changes st)).
(** Opening a directory, or a pair. *)
Lemma snap_opened w work t st st' ws cs :
  snap_inv (w :: work, t) → abs_change w = [] → ∀ x, abs_item w = [x] → opened fetched x cs ws →
  adds st st' cs ws → abs_items st = work ≫= abs_item → abs_changes st = sv_changes t ++ (work ≫= abs_change) → snap_inv st'.
Proof using.
  intros HI Hnc x Hx Ho [Hc Hi] Hst Hsc. unfold snap_inv in *. unfold abs_items, abs_changes in HI. cbn [fst snd] in HI.
  rewrite !bind_cons, Hx, Hnc in HI. simpl in HI.
  eapply diff_inv_perm; [eapply (diff_opened_inv _ _ _ _ _ _ (with_changes _) cs ws [] HI Ho); [done|constructor]| |].
  - rewrite Hi, Hst. done.
  - rewrite Hc, Hsc. apply (comm _).
Qed.
Lemma snap_pair_inv b a p d work t st' :
  snap_inv (PairEnter b a p d :: work, t) → enter_pair get_bytes prepared b a p d work t = Ok st' → snap_inv st'.
Proof using Hvalid Hagree.
  intros HI. unfold enter_pair. destruct (decide (b = a)) as [->|Hne].
  { intros <-%Ok_inj. unfold snap_inv, abs_items, abs_changes in *. cbn [fst snd] in *. rewrite !bind_cons in HI. simpl in HI.
    eapply diff_skip_inv; [exact HI|done|]. by intros ???? [= <- <- _ _]. }
  intros Hs. apply bind_Ok in Hs as (? & _ & Hs). apply bind_Ok in Hs as (t2 & [H2 _]%activate_Ok & Hs).
  apply bind_Ok in Hs as (t3 & [H3 _]%activate_Ok & Hs). apply bind_Ok in Hs as (t4 & [H4 _]%track_Ok & Hs).
  apply bind_Ok in Hs as (t5 & [H5 _]%track_Ok & Hs). apply bind_Ok in Hs as (l & [Hl Hvl]%get_tree_Ok & Hs).
  apply bind_Ok in Hs as ([r nr] & [Hr Hvr]%get_prepared_Ok & Hs).
  apply (adds_fold _ _ _ _ _ _ (compare_name_adds _ _ _ _)) in Hs. destruct (union_names_spec (entry_map l) (entry_map r)) as [Hnd Hn].
  eapply (snap_opened _ _ _ _ _ _ _ HI); [done|done| |exact Hs|done|unfold abs_changes; f_equal; simpl in *; congruence].
  constructor. exists (Some b), (Some a), p, d, (entry_map l !!.), (entry_map r !!.), (reverse (union_names (entry_map l) (entry_map r))).
  split_and!; [done|..|done|done].
  - exists l. split_and!; [done|done|]. intros n. by apply collect_find, Hvl.
  - exists r. split_and!; [done|done|]. intros n. by apply collect_find, Hvr.
  - by rewrite reverse_Permutation.
  - intros n. by rewrite elem_of_reverse.
Qed.
Lemma snap_side_inv e p k s d work t st' :
  snap_inv (SideEnter e p k s d :: work, t) → enter_side get_bytes prepared e p k s d work t = Ok st' → snap_inv st'.
Proof using Hvalid Hagree.
  intros HI. unfold enter_side. destruct (is_dir e) eqn:He.
  2: { intros Hs. apply bind_Ok in Hs as (t1 & [Ht _]%add_change_Ok & Hs). apply Ok_inj in Hs as <-. eapply diff_inv_perm; [exact HI|..].
       - unfold abs_items. cbn [fst]. rewrite bind_cons. simpl. by rewrite He.
       - unfold abs_changes. cbn [fst snd]. rewrite bind_cons, Ht. simpl. by rewrite He, <-(assoc_L (++)). }
  intros Hs. apply bind_Ok in Hs as (? & _ & Hs). apply bind_Ok in Hs as (t2 & [H2 _]%activate_Ok & Hs).
  apply bind_Ok in Hs as (t3 & [H3 _]%track_Ok & Hs). apply bind_Ok in Hs as ([tree nr] & [Hf Hv]%get_prepared_Ok & Hs).
  apply bind_Ok in Hs as (t4 & [-> _]%count_work_Ok & Hs).
  assert (abs_change (SideEnter e p k s d) = [] ∧ abs_item (SideEnter e p k s d) = [CollectDir (te_hash e) p k s d]) as [Hac Hai]
    by (simpl; by rewrite He).
  assert (wf_work (CollectDir (te_hash e) p k s d)) as Hwf.
  { pose proof (di_wf _ _ _ _ HI) as Hwf. unfold abs_items in Hwf. cbn [fst snd] in Hwf. rewrite bind_cons, Hai in Hwf.
    by apply Forall_cons in Hwf as [? _]. }
  assert (∀ n, n ∈ te_name <$> tr_entries tree ↔ is_Some (find_entry n (tr_entries tree))) as Hn.
  { intros n. rewrite list_elem_of_fmap. split.
    - intros (e' & -> & He'). rewrite find_entry_elem; [eauto|apply Hv|done].
    - intros [e' [He' <-]%find_entry_Some]. eauto. }
  destruct s; simpl in Hwf; subst k.
  - apply (push_children_adds _ _ _ _ _ _ _ _ _ (λ e, side_deleted e _ _)) in Hs as [Hc Hi]. rewrite reverse_Permutation in Hc, Hi.
    eapply (snap_opened _ _ _ _ _ _ _ HI Hac _ Hai); [|split; [exact Hc|exact Hi]|done|unfold abs_changes; f_equal; simpl in *; congruence].
    constructor. exists (Some (te_hash e)), None, p, d, (λ n, find_entry n (tr_entries tree)), (λ _, None), (te_name <$> tr_entries tree).
    split_and!; [done|by exists tree|done|apply Hv|intros n; rewrite Hn; split; [by left|by intros [?|[]]]|..].
    + apply (bind_names _ (λ n o, leaf_change (join_path p n) (leaf_of o) None)), Hv.
    + apply (bind_names _ (λ n o, child_work (join_path p n) (d + 1) o None)), Hv.
  - apply (push_children_adds _ _ _ _ _ _ _ _ _ (λ e, side_added e _ _)) in Hs as [Hc Hi]. rewrite reverse_Permutation in Hc, Hi.
    eapply (snap_opened _ _ _ _ _ _ _ HI Hac _ Hai); [|split; [exact Hc|exact Hi]|done|unfold abs_changes; f_equal; simpl in *; congruence].
    constructor. exists None, (Some (te_hash e)), p, d, (λ _, None), (λ n, find_entry n (tr_entries tree)), (te_name <$> tr_entries tree).
    split_and!; [done|done|by exists tree|apply Hv|intros n; rewrite Hn; split; [by right|by intros [[]|?]]|..].
    + apply (bind_names _ (λ n o, leaf_change (join_path p n) None (leaf_of o))), Hv.
    + apply (bind_names _ (λ n o, child_work (join_path p n) (d + 1) None o)), Hv.
Qed.
Lemma snap_step_inv st st' : snap_inv st → snap_step get_bytes prepared st = More st' → snap_inv st'.
Proof using Hvalid Hagree.
  intros HI (item & work & Hst & Hs)%snap_step_More. destruct st as [ws t]. simpl in *. subst ws. unfold snap_work in Hs.
  apply bind_Ok in Hs as (t1 & [-> _]%count_work_Ok & Hs). destruct item as [b a p d|b a|e p k s d|id s].
  - by eapply (snap_pair_inv _ _ _ _ _ (sv_with_work _ t)).
  - by apply Ok_inj in Hs as <-.
  - by eapply (snap_side_inv _ _ _ _ _ _ (sv_with_work _ t)).
  - apply Ok_inj in Hs as <-. by destruct s.
Qed.
Lemma diff_roots_inv stats :
  before ≠ after → diff_roots get_bytes prepared before after = Ok stats →
  ∃ cs, diff_inv fetched before after ([], with_changes cs) ∧ ts_changes stats = sort_by tc_path cs.
Proof using Hvalid Hagree.
  intros Hne. unfold diff_roots. rewrite decide_False by done. destruct (iterate 22 _ _) as [|r] eqn:Hit; [done|]. intros Hr.
  apply bind_Ok in Hr as (t & -> & Hr). apply Ok_inj in Hr as <-. exists (sv_changes t). split; [|done].
  eapply (iterate_inv _ snap_inv) with (Q := λ r, ∀ t, r = Ok t → snap_inv ([], t)) in Hit; [|apply snap_step_inv| |].
  - specialize (Hit t eq_refl). unfold snap_inv, abs_items, abs_changes in Hit. simpl in Hit. by rewrite app_nil_r in Hit.
  - intros [[|w work] t1] r HI; unfold snap_step; simpl; [|by destruct (snap_work _ _ _ _ _); intros [= <-]].
    intros [= <-] ? [= <-]. done.
  - by apply (diff_inv_initial fetched).
Qed.
End run.
End props.
