(* ===== verification/Prepared.v ===== *)
(** * Preparing a tree bundle for encryption

    agent-core/src/prepared_tree.rs: the ids of a [TreeBundle] hash plaintext; the store keeps
    ciphertext.  [PreparedTreeBundle::new] renames every directory to the id of its encrypted
    form, children before parents, with a worklist over the graph of directories. *)
From Stdlib Require Import ZArith Lia Ascii Strings.Byte.
From stdpp Require Import sorting numbers strings gmap list_numbers list options.
From S2P Require Import Prelude Text Paths Model Codec CodecProps Lookup Convert.

Local Open Scope Z_scope.

Record PreparedTreeBundle := mkPrepared { pb_root : string; pb_trees : gmap string Tree }.

(** The local variables of the first loop, and of the second. *)
Record BundleScan := mkScan { bs_remaining : gmap string Z; bs_parents : gmap string (list string); bs_work_items : Z }.
Record PrepareState := mkPrepare {
  ps_ready : gset string;
  ps_remaining : gmap string Z;
  ps_encrypted_ids : gmap string string;
  ps_inserts : list (string * Tree);         (* the calls of [trees.insert], in order *)
}.

Definition entry_with_hash (h : string) (e : TreeEntry) : TreeEntry :=
  mkTreeEntry (te_name e) (te_kind e) h (te_size e) (te_mode e).
(** [BTreeSet::pop_first]: the first in order. *)
Definition first_of (s : gset string) : option string := head (sort_strings (elements s)).

Section prepare.
Context `{Unicode, Blake3, HashOrder}.
(** [pack_bytes(_, password, OBJECT_DOMAIN)]: authenticated encryption with a derived nonce. *)
Context (pack : list byte → Result (list byte)) (bundle : TreeBundle).

Definition scan_entry (logical_id : string) (st : Z * gmap string (list string)) (e : TreeEntry)
    : Result (Z * gmap string (list string)) :=
  if is_dir e then
    bail_if (negb (has_key (tb_trees bundle) (te_hash e))) "tree bundle contains a missing directory child" ;;
    Ok (st.1 + 1, <[te_hash e := default [] (st.2 !! te_hash e) ++ [logical_id]]> st.2)
  else Ok st.
Definition scan_tree (s : BundleScan) (kt : string * Tree) : Result BundleScan :=
  validate_tree kt.2 ;;
  n ← charge (bs_work_items s) (saturating_add (zlen (tr_entries kt.2)) 1) MAX_TREE_WORK_ITEMS
        "tree bundle work counter overflow" "tree bundle exceeds work limit";
  '(children, parents) ← try_fold (scan_entry kt.1) (0, bs_parents s) (tr_entries kt.2);
  Ok (mkScan (<[kt.1 := children]> (bs_remaining s)) parents n).
Definition scan_bundle : Result BundleScan := try_fold scan_tree (mkScan ∅ ∅ 0) (hash_iter (tb_trees bundle)).

Definition encrypt_entry (encrypted_ids : gmap string string) (e : TreeEntry) : Result TreeEntry :=
  if is_dir e then h ← or_context (encrypted_ids !! te_hash e) "directory child was not encrypted"; Ok (entry_with_hash h e)
  else Ok e.
Definition encrypt_tree (encrypted_ids : gmap string string) (t : Tree) : Result Tree :=
  es ← try_map (encrypt_entry encrypted_ids) (tr_entries t); Ok (mkTree es).
Definition release_parent (st : gset string * gmap string Z) (parent_id : string) : Result (gset string * gmap string Z) :=
  count ← or_context (st.2 !! parent_id) "tree bundle parent disappeared";
  count ← or_context (checked_sub count 1) "tree bundle dependency counter underflow";
  Ok (if count =? 0 then {[parent_id]} ∪ st.1 else st.1, <[parent_id := count]> st.2).
(** The body of [while let Some(logical_id) = ready.pop_first()]. *)
Definition prepare_tree (parents : gmap string (list string)) (logical_id : string) (s : PrepareState) : Result PrepareState :=
  let ready := ps_ready s ∖ {[logical_id]} in
  t ← or_context (tb_trees bundle !! logical_id) "ready tree disappeared from bundle";
  t ← encrypt_tree (ps_encrypted_ids s) t;
  ciphertext ← pack (encode_tree t);
  let encrypted_id := hash_bytes ciphertext in
  '(ready, remaining) ← try_fold release_parent (ready, ps_remaining s) (default [] (parents !! logical_id));
  Ok (mkPrepare ready remaining (<[logical_id := encrypted_id]> (ps_encrypted_ids s)) (ps_inserts s ++ [(encrypted_id, t)])).
Definition prepare_step (parents : gmap string (list string)) (s : PrepareState) : step PrepareState (Result PrepareState) :=
  match first_of (ps_ready s) with
  | None => Done (Ok s)
  | Some logical_id => match prepare_tree parents logical_id s with Ok s => More s | Err e => Done (Err e) end
  end.
Definition initial_ready (remaining : gmap string Z) : gset string := dom (filter (λ kc, kc.2 = 0) remaining).
(** [2 ^ 22] iterations are more than the limit on trees. *)
Definition prepare_all (scan : BundleScan) : Result PrepareState :=
  match iterate 22 (prepare_step (bs_parents scan)) (mkPrepare (initial_ready (bs_remaining scan)) (bs_remaining scan) ∅ []) with
  | Done r => r
  | More _ => Err "worklist does not end"
  end.
Definition PreparedTreeBundle_new : Result PreparedTreeBundle :=
  bail_if (MAX_TREE_OBJECTS <? map_len (tb_trees bundle)) "tree bundle exceeds distinct-object limit" ;;
  bail_if (negb (has_key (tb_trees bundle) (tb_root bundle))) "tree bundle does not contain its root" ;;
  scan ← scan_bundle;
  s ← prepare_all scan;
  bail_if (negb (map_len (ps_encrypted_ids s) =? map_len (tb_trees bundle))) "tree bundle contains a cycle" ;;
  root ← or_context (ps_encrypted_ids s !! tb_root bundle) "tree bundle does not contain its root";
  Ok (mkPrepared root (hash_collect (ps_inserts s))).
End prepare.
