(* ===== verification/PreparedProps.v ===== *)
(** * Preparing a bundle renames directories and nothing else

    The worklist is a topological sort of the graph of directories: it ends, it prepares every
    tree of an acyclic bundle, and what it prepares reads like the bundle. *)
From Stdlib Require Import ZArith Lia Ascii Strings.Byte.
From stdpp Require Import sorting numbers strings gmap list_numbers list options.
From S2P Require Import Prelude Text Paths Model Codec CodecProps Lookup Convert ConvertProps Prepared.

Local Open Scope Z_scope.

(** ** Counting *)
Definition times (p : string) (l : list string) : Z := zlen (List.filter (String.eqb p) l).
Lemma times_cons p q l : times p (q :: l) = (if decide (q = p) then 1 else 0) + times p l.
Proof. unfold times. simpl. destruct (String.eqb_spec p q), (decide (q = p)); subst; try done; rewrite ?zlen_cons; lia. Qed.
Lemma times_nonneg p l : 0 ≤ times p l.
Proof. apply zlen_nonneg. Qed.
Lemma times_app p l l' : times p (l ++ l') = times p l + times p l'.
Proof. induction l as [|q l IH]; [done|]. simpl. rewrite !times_cons, IH. lia. Qed.
Lemma times_in p l : p ∈ l ↔ 0 < times p l.
Proof.
  induction l as [|q l IH]; [split; [by intros ?%elem_of_nil|done]|]. rewrite times_cons, elem_of_cons, IH.
  pose proof (times_nonneg p l). destruct (decide (q = p)); [split; [lia|by left]|]. split; [intros [->|?]; [done|lia]|right; lia].
Qed.
(** The directory entries that satisfy [f]. *)
Definition dirs_with (f : string → bool) (es : list TreeEntry) : Z := zlen (List.filter (λ e, is_dir e && f (te_hash e)) es).
Lemma dirs_with_cons f e es : dirs_with f (e :: es) = (if is_dir e && f (te_hash e) then 1 else 0) + dirs_with f es.
Proof. unfold dirs_with. simpl. destruct (is_dir e && f (te_hash e)); rewrite ?zlen_cons; lia. Qed.
Lemma dirs_with_nonneg f es : 0 ≤ dirs_with f es.
Proof. apply zlen_nonneg. Qed.
Lemma dirs_with_split f g h es : (∀ x, f x = g x || h x) → (∀ x, g x && h x = false) → dirs_with f es = dirs_with g es + dirs_with h es.
Proof.
  intros Hf Hgh. induction es as [|e es IH]; [done|]. rewrite !dirs_with_cons, IH, Hf. specialize (Hgh (te_hash e)).
  destruct (is_dir e), (g (te_hash e)), (h (te_hash e)); simpl in *; try done; lia.
Qed.
Lemma dirs_with_zero f es : dirs_with f es = 0 ↔ ∀ e, e ∈ es → is_dir e = true → f (te_hash e) = false.
Proof.
  induction es as [|e es IH]; [split; [by intros _ ? ?%elem_of_nil|done]|]. rewrite dirs_with_cons. pose proof (dirs_with_nonneg f es).
  setoid_rewrite elem_of_cons. split.
  - intros Hz. assert (dirs_with f es = 0) as Hes by (destruct (is_dir e && _); lia). intros e' [->|?] Hd; [|by apply IH].
    rewrite Hd in Hz. destruct (f (te_hash e)); [simpl in Hz; lia|done].
  - intros Hall. rewrite (proj2 IH) by auto. destruct (is_dir e) eqn:Hd; [|done]. by rewrite (Hall e (or_introl eq_refl) Hd).
Qed.

(** ** The release of the parents *)
Definition count_of (m : gmap string Z) (p : string) : Z := default 0 (m !! p).
Lemma release_all l ready remaining :
  (∀ p, p ∈ l → is_Some (remaining !! p)) → (∀ p, times p l ≤ count_of remaining p) →
  ∃ ready' remaining', try_fold release_parent (ready, remaining) l = Ok (ready', remaining') ∧
    dom remaining' = dom remaining ∧ (∀ p, count_of remaining' p = count_of remaining p - times p l) ∧
    ∀ p, p ∈ ready' ↔ p ∈ ready ∨ (p ∈ l ∧ count_of remaining p = times p l).
Proof.
  revert ready remaining. induction l as [|q l IH]; intros ready remaining Hin Hc.
  { exists ready, remaining. split_and!; [done|done|intros p; unfold times; simpl; change (zlen []) with 0; lia|set_solver]. }
  destruct (Hin q (list_elem_of_here q l)) as [c Hq]. pose proof (Hc q) as Hcq. unfold count_of in Hcq. rewrite Hq in Hcq. simpl in Hcq.
  rewrite times_cons, decide_True in Hcq by done. pose proof (times_nonneg q l).
  destruct (IH (if c - 1 =? 0 then {[q]} ∪ ready else ready) (<[q := c - 1]> remaining)) as (ready' & remaining' & Hr & Hd & Hcount & Hready).
  { intros p Hp. destruct (decide (p = q)) as [->|]; [by rewrite lookup_insert_eq; eauto|]. rewrite lookup_insert_ne by done. apply Hin. by right. }
  { intros p. pose proof (Hc p) as Hp. rewrite times_cons in Hp. unfold count_of in *.
    destruct (decide (q = p)) as [->|]; [rewrite lookup_insert_eq, Hq in *; simpl in *; lia|]. rewrite lookup_insert_ne by done. lia. }
  exists ready', remaining'. cbn [try_fold]. split_and!.
  - assert (release_parent (ready, remaining) q = Ok (if c - 1 =? 0 then {[q]} ∪ ready else ready, <[q := c - 1]> remaining)) as ->; [|exact Hr].
    unfold release_parent. cbn [snd fst]. rewrite Hq. simpl. unfold checked_sub. by rewrite (proj2 (Z.leb_le 1 c)) by lia.
  - rewrite Hd, dom_insert_L. apply elem_of_dom_2 in Hq. set_solver.
  - intros p. rewrite Hcount, times_cons. unfold count_of. destruct (decide (q = p)) as [->|].
    + rewrite lookup_insert_eq, Hq. simpl. lia.
    + rewrite lookup_insert_ne by done. lia.
  - intros p. rewrite Hready, times_cons, elem_of_cons. unfold count_of. destruct (decide (q = p)) as [->|Hne].
    + rewrite lookup_insert_eq, Hq. simpl. rewrite times_in. destruct (Z.eqb_spec (c - 1) 0); rewrite ?elem_of_union, ?elem_of_singleton; [split; [|by left; left]|].
      * intros _. right. split; [by left|lia].
      * split; [intros [?|[]]; [by left|right; split; [by left|lia]]|intros [?|[_ ?]]; [by left|right; lia]].
    + rewrite lookup_insert_ne by done. destruct (c - 1 =? 0); rewrite ?elem_of_union, ?elem_of_singleton; naive_solver lia.
Qed.

Section prepare.
Context `{Unicode, Blake3, HashOrder} (pack : list byte → Result (list byte)) (bundle : TreeBundle).
Local Notation T := (tb_trees bundle).
Definition entries_at (p : string) : list TreeEntry := match T !! p with Some t => tr_entries t | None => [] end.
(** How often directory [c] occurs in tree [p]. *)
Definition occurs (p c : string) : Z := dirs_with (String.eqb c) (entries_at p).

(** ** What the first loop counts *)
Lemma scan_entries_Ok id es n parents r :
  try_fold (scan_entry bundle id) (n, parents) es = Ok r →
  r.1 = n + dirs_with (λ _, true) es ∧
  (∀ e, e ∈ es → is_dir e = true → is_Some (T !! te_hash e)) ∧
  ∀ p c, times p (default [] (r.2 !! c)) = times p (default [] (parents !! c)) + (if decide (p = id) then dirs_with (String.eqb c) es else 0).
Proof using.
  revert n parents. induction es as [|e es IH]; intros n parents Hs; cbn [try_fold] in Hs.
  { apply Ok_inj in Hs as <-. simpl. split_and!; [unfold dirs_with; simpl; change (zlen []) with 0; lia|by intros ? ?%elem_of_nil|].
    intros. unfold dirs_with. simpl. change (zlen []) with 0. destruct (decide _); lia. }
  apply bind_Ok in Hs as ([n1 parents1] & He & Hs). destruct (IH _ _ Hs) as (Hn & Hk & Ht). rewrite !dirs_with_cons.
  unfold scan_entry in He. destruct (is_dir e) eqn:Hd.
  - apply bind_Ok in He as ([] & Hb%bail_if_Ok & He). apply Ok_inj in He as [= <- <-].
    apply negb_false_iff, bool_decide_eq_true in Hb. cbn [fst snd] in *. split_and!.
    + simpl. lia.
    + intros e' [->|He']%elem_of_cons Hd'; [done|by apply Hk].
    + intros p c. rewrite Ht, dirs_with_cons, Hd. simpl. destruct (String.eqb_spec c (te_hash e)) as [->|Hne].
      * rewrite lookup_insert_eq. simpl. rewrite times_app, times_cons. change (times p []) with 0.
        destruct (decide (p = id)), (decide (id = p)); subst; try done; lia.
      * rewrite lookup_insert_ne by done. destruct (decide (p = id)); lia.
  - apply Ok_inj in He as [= <- <-]. simpl in *. split_and!; [lia| |].
    + intros e' [->|He']%elem_of_cons Hd'; [congruence|by apply Hk].
    + intros p c. rewrite Ht, dirs_with_cons, Hd. simpl. destruct (decide (p = id)); lia.
Qed.
Definition dir_count (t : Tree) : Z := dirs_with (λ _, true) (tr_entries t).
Lemma scan_trees_Ok l s s' :
  NoDup l.*1 → try_fold (scan_tree bundle) s l = Ok s' →
  (∀ id t, (id, t) ∈ l → tree_valid t ∧ ∀ e, e ∈ tr_entries t → is_dir e = true → is_Some (T !! te_hash e)) ∧
  (∀ id, bs_remaining s' !! id = match (list_to_map l : gmap string Tree) !! id with Some t => Some (dir_count t) | None => bs_remaining s !! id end) ∧
  ∀ p c, times p (default [] (bs_parents s' !! c)) = times p (default [] (bs_parents s !! c)) +
    match (list_to_map l : gmap string Tree) !! p with Some t => dirs_with (String.eqb c) (tr_entries t) | None => 0 end.
Proof using.
  revert s. induction l as [|[id t] l IH]; intros s Hnd Hs; cbn [try_fold] in Hs.
  { apply Ok_inj in Hs as <-. split_and!; [by intros ?? ?%elem_of_nil|done|]. intros. simpl. rewrite lookup_empty. lia. }
  apply NoDup_cons in Hnd as [Hni Hnd]. apply bind_Ok in Hs as (s1 & Ht & Hs). destruct (IH _ Hnd Hs) as (Hv & Hr & Hp).
  unfold scan_tree in Ht. cbn [fst snd] in Ht. apply bind_Ok in Ht as ([] & Hval & Ht). apply bind_Ok in Ht as (n & _ & Ht).
  apply bind_Ok in Ht as ([c ps] & (Hc & Hk & Htm)%scan_entries_Ok & Ht). apply Ok_inj in Ht as <-. simpl in *. split_and!.
  - intros id' t' [[= -> ->]|He]%elem_of_cons; [|by eapply Hv]. split; [by apply validate_tree_spec|done].
  - intros id'. rewrite Hr. destruct (decide (id' = id)) as [->|].
    + rewrite (not_elem_of_list_to_map_1 _ _ Hni), !lookup_insert_eq. f_equal. unfold dir_count. lia.
    + by rewrite !lookup_insert_ne by done.
  - intros p c'. rewrite Hp, Htm. destruct (decide (p = id)) as [->|].
    + rewrite (not_elem_of_list_to_map_1 _ _ Hni), lookup_insert_eq. lia.
    + rewrite lookup_insert_ne by done. lia.
Qed.
Record scanned (s : BundleScan) : Prop := {
  sc_valid id t : T !! id = Some t → tree_valid t;
  sc_closed id t e : T !! id = Some t → e ∈ tr_entries t → is_dir e = true → is_Some (T !! te_hash e);
  sc_remaining id : bs_remaining s !! id = dir_count <$> T !! id;
  sc_parents p c : times p (default [] (bs_parents s !! c)) = occurs p c;
}.
Lemma scan_bundle_Ok s : scan_bundle bundle = Ok s → scanned s.
Proof using.
  unfold scan_bundle. intros (Hv & Hr & Hp)%scan_trees_Ok; [|apply hash_iter_NoDup].
  assert ((list_to_map (hash_iter T) : gmap string Tree) = T) as HT by (rewrite (list_to_map_proper _ _ (hash_iter_NoDup _) (hash_iter_perm T)); apply list_to_map_to_list).
  rewrite HT in *. constructor.
  - intros id t Ht. by eapply Hv, elem_of_hash_iter.
  - intros id t e Ht. eapply Hv. by apply elem_of_hash_iter.
  - intros id. rewrite Hr. simpl. rewrite lookup_empty. by destruct (T !! id).
  - intros p c. rewrite Hp. simpl. rewrite lookup_empty. unfold occurs, entries_at. change (times p (default [] None)) with 0.
    destruct (T !! p); [done|]. unfold dirs_with. simpl. by change (zlen []) with 0.
Qed.

(** ** The worklist *)
Lemma first_of_Some s id : first_of s = Some id → id ∈ s.
Proof using. unfold first_of. intros Hh%head_Some_elem_of. unfold sort_strings in Hh. by rewrite sort_by_perm, elem_of_elements in Hh. Qed.
Lemma first_of_None s id : first_of s = None → id ∉ s.
Proof using.
  unfold first_of. intros Hn Hin. apply head_None in Hn. rewrite <-elem_of_elements in Hin.
  assert (id ∈ sort_strings (elements s)) as Hs by (unfold sort_strings; by rewrite sort_by_perm). rewrite Hn in Hs. by apply elem_of_nil in Hs.
Qed.
Lemma encrypt_tree_Ok ids t t' :
  encrypt_tree ids t = Ok t' ↔ Forall2 (λ e e', encrypt_entry ids e = Ok e') (tr_entries t) (tr_entries t').
Proof using.
  unfold encrypt_tree. rewrite bind_Ok. setoid_rewrite try_map_Ok. split.
  - intros (es & He & [= <-]). done.
  - intros He. eexists. split; [exact He|]. by destruct t'.
Qed.
Lemma encrypt_tree_mono ids ids' t t' : ids ⊆ ids' → encrypt_tree ids t = Ok t' → encrypt_tree ids' t = Ok t'.
Proof using.
  intros Hsub. rewrite !encrypt_tree_Ok. intros Hf. eapply Forall2_impl; [exact Hf|]. intros e e'. unfold encrypt_entry.
  destruct (is_dir e); [|done]. destruct (ids !! te_hash e) as [h|] eqn:Hh; [|done]. by rewrite (lookup_weaken _ _ _ _ Hh Hsub).
Qed.
Lemma encrypt_tree_total ids t :
  (∀ e, e ∈ tr_entries t → is_dir e = true → te_hash e ∈ dom ids) → ∃ t', encrypt_tree ids t = Ok t'.
Proof using.
  intros Hall. assert (∃ es, Forall2 (λ e e', encrypt_entry ids e = Ok e') (tr_entries t) es) as [es Hes].
  { induction (tr_entries t) as [|e es IH]; [by exists []|]. destruct IH as [es' Hes]; [intros; apply Hall; [by right|done]|].
    assert (∃ e', encrypt_entry ids e = Ok e') as [e' He']; [|exists (e' :: es'); by constructor].
    unfold encrypt_entry. destruct (is_dir e) eqn:Hd; [|eauto]. pose proof (Hall e (list_elem_of_here _ _) Hd) as [h Hh]%elem_of_dom.
    rewrite Hh. simpl. eauto. }
  exists (mkTree es). by apply encrypt_tree_Ok.
Qed.

Definition pending (p : string) (done : gset string) : Z := dirs_with (λ h, negb (bool_decide (h ∈ done))) (entries_at p).
Lemma pending_done id p done :
  id ∉ done → pending p done = pending p ({[id]} ∪ done) + occurs p id.
Proof using.
  intros Hni. unfold pending, occurs. apply dirs_with_split.
  - intros x. destruct (String.eqb_spec id x) as [->|Hne]; repeat case_bool_decide; set_solver.
  - intros x. destruct (String.eqb_spec id x) as [->|Hne]; repeat case_bool_decide; set_solver.
Qed.
Lemma pending_zero p t done :
  T !! p = Some t → pending p done = 0 ↔ ∀ e, e ∈ tr_entries t → is_dir e = true → te_hash e ∈ done.
Proof using.
  intros Ht. unfold pending, entries_at. rewrite Ht, dirs_with_zero. setoid_rewrite negb_false_iff. by setoid_rewrite bool_decide_eq_true.
Qed.

Definition renamed (ids : gmap string string) (id h : string) (t' : Tree) : Prop :=
  ∃ t c, ids !! id = Some h ∧ T !! id = Some t ∧ encrypt_tree ids t = Ok t' ∧ pack (encode_tree t') = Ok c ∧ h = hash_bytes c.
Lemma renamed_mono ids ids' id h t' : ids ⊆ ids' → renamed ids id h t' → renamed ids' id h t'.
Proof using.
  intros Hsub (t & c & Hi & Ht & He & Hc). exists t, c. split_and!; [by eapply lookup_weaken|done|by eapply encrypt_tree_mono|apply Hc..].
Qed.
Record prepare_inv (s : PrepareState) : Prop := {
  pi_done : dom (ps_encrypted_ids s) ⊆ dom T;
  pi_remaining : dom (ps_remaining s) = dom T;
  pi_count p : count_of (ps_remaining s) p = pending p (dom (ps_encrypted_ids s));
  pi_ready p : p ∈ ps_ready s ↔ p ∈ dom T ∧ p ∉ dom (ps_encrypted_ids s) ∧ pending p (dom (ps_encrypted_ids s)) = 0;
  pi_ids id h : ps_encrypted_ids s !! id = Some h → ∃ t', renamed (ps_encrypted_ids s) id h t' ∧ (h, t') ∈ ps_inserts s;
  pi_inserts h t' : (h, t') ∈ ps_inserts s → ∃ id, renamed (ps_encrypted_ids s) id h t';
}.
Lemma pi_settled s p : prepare_inv s → p ∈ dom (ps_encrypted_ids s) → pending p (dom (ps_encrypted_ids s)) = 0.
Proof using.
  intros HI [h Hh]%elem_of_dom. destruct (pi_ids _ HI _ _ Hh) as (t' & (t & c & _ & Ht & He & _) & _). apply (pending_zero p t); [done|].
  intros e Hin Hd. apply encrypt_tree_Ok in He. apply list_elem_of_lookup in Hin as [i Hi].
  destruct (Forall2_lookup_l _ _ _ _ _ He Hi) as (e' & _ & Henc). unfold encrypt_entry in Henc. rewrite Hd in Henc.
  apply bind_Ok in Henc as (h' & Hh'%or_context_Ok & _). by eapply elem_of_dom_2.
Qed.
Section run.
Context (scan : BundleScan) (Hscan : scanned scan).
Local Notation parents := (bs_parents scan).
Lemma prepare_initial : prepare_inv (mkPrepare (initial_ready (bs_remaining scan)) (bs_remaining scan) ∅ []).
Proof using Hscan.
  assert (∀ p, pending p ∅ = match T !! p with Some t => dir_count t | None => 0 end) as Hp.
  { intros p. unfold pending, dir_count, entries_at. destruct (T !! p); [|done]. f_equal. }
  destruct Hscan as [_ _ Hr _]. constructor; simpl; rewrite ?dom_empty_L.
  - set_solver.
  - apply set_eq. intros p. by rewrite !elem_of_dom, Hr, fmap_is_Some.
  - intros p. unfold count_of. rewrite Hr, Hp. by destruct (T !! p).
  - intros p. unfold initial_ready. rewrite !elem_of_dom, Hp. unfold is_Some. setoid_rewrite map_lookup_filter_Some. setoid_rewrite Hr.
    destruct (T !! p) as [t|]; simpl; [|naive_solver]. split; [intros (? & [= <-] & ?)|intros (_ & _ & ?)]; [split_and!; eauto; set_solver|eauto].
  - intros id h. by rewrite lookup_empty.
  - by intros h t' ?%elem_of_nil.
Qed.
Lemma ready_after id s p :
  prepare_inv s → id ∈ ps_ready s →
  (p ∈ ps_ready s ∖ {[id]} ∨ (0 < occurs p id ∧ pending p (dom (ps_encrypted_ids s)) = occurs p id)) ↔
  p ∈ dom T ∧ p ∉ {[id]} ∪ dom (ps_encrypted_ids s) ∧ pending p ({[id]} ∪ dom (ps_encrypted_ids s)) = 0.
Proof using.
  intros HI Hid. pose proof (proj1 (pi_ready _ HI id) Hid) as (_ & Hnd & Hz).
  pose proof (pending_done id p _ Hnd) as Hp. assert (0 ≤ occurs p id) as Ho by apply dirs_with_nonneg.
  assert (0 ≤ pending p ({[id]} ∪ dom (ps_encrypted_ids s))) as Hp0 by apply dirs_with_nonneg.
  rewrite elem_of_difference, elem_of_singleton, not_elem_of_union, elem_of_singleton, (pi_ready _ HI). split.
  - intros [[(Hd & Hn & Hz0) Hne]|[Hx1 Hx2]]; [split_and!; [done..|lia]|]. split_and!.
    + apply elem_of_dom. unfold occurs, entries_at in Hx1. destruct (T !! p); [by eexists|done].
    + intros ->. lia.
    + intros Hin%(pi_settled _ _ HI). lia.
    + lia.
  - intros (Hd & [Hne Hn] & Hz0). destruct (decide (occurs p id = 0)); [left|right; lia]. split_and!; [done..|lia|done].
Qed.
(** A ready tree is renamed, unless encryption fails; and it is done then. *)
Lemma prepare_tree_ok id s :
  prepare_inv s → id ∈ ps_ready s →
  ∃ t', (∃ t, T !! id = Some t ∧ encrypt_tree (ps_encrypted_ids s) t = Ok t') ∧
    match pack (encode_tree t') with
    | Err e => prepare_tree pack bundle parents id s = Err e
    | Ok c => ∃ s', prepare_tree pack bundle parents id s = Ok s' ∧ prepare_inv s' ∧ id ∉ dom (ps_encrypted_ids s) ∧
                dom (ps_encrypted_ids s') = {[id]} ∪ dom (ps_encrypted_ids s)
    end.
Proof using Hscan.
  intros HI Hid. pose proof (proj1 (pi_ready _ HI id) Hid) as ([t Ht]%elem_of_dom & Hnd & Hz).
  destruct (encrypt_tree_total (ps_encrypted_ids s) t) as [t' He]; [by apply (pending_zero id)|]. exists t'. split; [by eauto|].
  unfold prepare_tree. rewrite Ht. simpl or_context. cbn [mbind result_bind]. rewrite He. cbn [mbind result_bind].
  destruct (pack (encode_tree t')) as [c|e] eqn:Hc; [|done]. cbn [mbind result_bind].
  assert (∀ p, times p (default [] (parents !! id)) = occurs p id) as Htm by (intros; apply Hscan).
  assert (∀ p, pending p (dom (ps_encrypted_ids s)) = pending p ({[id]} ∪ dom (ps_encrypted_ids s)) + occurs p id) as Hpd
    by (intros; by apply pending_done).
  assert (∀ p, 0 ≤ occurs p id) as Hocc by (intros; apply dirs_with_nonneg).
  assert (∀ p, p ∈ default [] (parents !! id) ↔ 0 < occurs p id) as Hpar by (intros p; by rewrite times_in, Htm).
  destruct (release_all (default [] (parents !! id)) (ps_ready s ∖ {[id]}) (ps_remaining s)) as (ready & remaining & -> & Hdom & Hcount & Hready).
  { intros p Hp%Hpar. rewrite <-elem_of_dom, (pi_remaining _ HI). unfold occurs, entries_at in Hp. destruct (T !! p) eqn:HT; [|done]. by eapply elem_of_dom_2. }
  { intros p. rewrite Htm, (pi_count _ HI), Hpd. pose proof (dirs_with_nonneg (λ h, negb (bool_decide (h ∈ {[id]} ∪ dom (ps_encrypted_ids s)))) (entries_at p)).
    unfold pending. lia. }
  eexists. split; [done|]. split_and!; [|done|simpl; by rewrite dom_insert_L].
  assert (ps_encrypted_ids s ⊆ <[id := hash_bytes c]> (ps_encrypted_ids s)) as Hsub by (by apply insert_subseteq, not_elem_of_dom).
  constructor; simpl; rewrite ?dom_insert_L.
  - pose proof (pi_done _ HI). apply elem_of_dom_2 in Ht. set_solver.
  - rewrite Hdom. apply HI.
  - intros p. rewrite Hcount, (pi_count _ HI), Htm, Hpd. lia.
  - intros p. rewrite Hready, Hpar, Htm, (pi_count _ HI). by apply ready_after.
  - intros id' h. destruct (decide (id' = id)) as [->|].
    + rewrite lookup_insert_eq. intros [= <-]. exists t'. split; [|set_solver]. exists t, c.
      split_and!; [by rewrite lookup_insert_eq|done|by eapply encrypt_tree_mono|done|done].
    + rewrite lookup_insert_ne by done. intros Hh. destruct (pi_ids _ HI _ _ Hh) as (t2 & Hr & Hin). exists t2.
      split; [by eapply renamed_mono|set_solver].
  - intros h t2 [Hin|[= -> ->]%list_elem_of_singleton]%elem_of_app.
    + destruct (pi_inserts _ HI _ _ Hin) as [id' Hr]. exists id'. by eapply renamed_mono.
    + exists id, t, c. split_and!; [by rewrite lookup_insert_eq|done|by eapply encrypt_tree_mono|done|done].
Qed.
Lemma prepare_step_More s s' :
  prepare_inv s → prepare_step pack bundle parents s = More s' →
  prepare_inv s' ∧ ∃ id, id ∈ dom T ∧ id ∉ dom (ps_encrypted_ids s) ∧ dom (ps_encrypted_ids s') = {[id]} ∪ dom (ps_encrypted_ids s).
Proof using Hscan.
  intros HI. unfold prepare_step. destruct (first_of (ps_ready s)) as [id|] eqn:Hf; [|done]. apply first_of_Some in Hf.
  destruct (prepare_tree_ok id s HI Hf) as (t' & _ & Ht). destruct (pack (encode_tree t')) as [c|e]; [|by rewrite Ht].
  destruct Ht as (s1 & -> & HI' & Hni & Hd). intros [= <-]. split; [done|]. exists id. split_and!; [by apply (pi_ready _ HI)|done|done].
Qed.
Lemma prepare_ends :
  map_len T ≤ MAX_TREE_OBJECTS →
  ∃ r, iterate 22 (prepare_step pack bundle parents) (mkPrepare (initial_ready (bs_remaining scan)) (bs_remaining scan) ∅ []) = Done r.
Proof using Hscan.
  intros Hlen. apply (iterate_done _ prepare_inv) with (m := λ s, Z.of_nat (size (dom T ∖ dom (ps_encrypted_ids s)))).
  - intros s s' HI Hs. by eapply prepare_step_More.
  - intros s s' HI Hs. destruct (prepare_step_More _ _ HI Hs) as (_ & id & Hid & Hni & Hd). apply inj_lt, subset_size. rewrite Hd. set_solver.
  - intros. lia.
  - apply prepare_initial.
  - simpl. rewrite dom_empty_L, difference_empty_L. unfold map_len in Hlen. rewrite size_dom.
    eapply Z.le_lt_trans; [exact Hlen|]. by vm_compute.
Qed.
(** Where it ends nothing is ready, and only encryption can fail. *)
Lemma prepare_all_Ok s : prepare_all pack bundle scan = Ok s → prepare_inv s ∧ ∀ p, p ∉ ps_ready s.
Proof using Hscan.
  unfold prepare_all. destruct (iterate 22 _ _) as [|r] eqn:Hit; [done|]. intros ->.
  eapply (iterate_inv _ prepare_inv) with (Q := λ r, ∀ s, r = Ok s → prepare_inv s ∧ ∀ p, p ∉ ps_ready s) in Hit;
    [by apply Hit|intros; by eapply prepare_step_More| |apply prepare_initial].
  intros s0 r HI. unfold prepare_step. destruct (first_of (ps_ready s0)) eqn:Hf.
  - destruct (prepare_tree _ _ _ _ _); intros [= <-]; done.
  - intros [= <-] s1 [= <-]. split; [done|]. intros p. by apply first_of_None.
Qed.
Lemma prepare_all_total :
  map_len T ≤ MAX_TREE_OBJECTS → (∀ b, ∃ c, pack b = Ok c) → ∃ s, prepare_all pack bundle scan = Ok s.
Proof using Hscan.
  intros Hlen Hpack. unfold prepare_all. destruct (prepare_ends Hlen) as [r Hit]. rewrite Hit.
  eapply (iterate_inv _ prepare_inv) with (Q := λ r, ∃ s, r = Ok s) in Hit;
    [done|intros; by eapply prepare_step_More| |apply prepare_initial].
  intros s0 r0 HI. unfold prepare_step. destruct (first_of (ps_ready s0)) as [id|] eqn:Hf; [|intros [= <-]; eauto].
  apply first_of_Some in Hf. destruct (prepare_tree_ok id s0 HI Hf) as (t' & _ & Ht). destruct (Hpack (encode_tree t')) as [c Hc].
  rewrite Hc in Ht. by destruct Ht as (s1 & -> & _).
Qed.
End run.

(** A rank that falls from a tree to its subdirectories: the bundle has no cycle. *)
Definition ranked (rank : string → nat) : Prop :=
  ∀ p t e, T !! p = Some t → e ∈ tr_entries t → is_dir e = true → (rank (te_hash e) < rank p)%nat.
Lemma ready_exhausted scan s rank :
  scanned scan → prepare_inv s → (∀ p, p ∉ ps_ready s) → ranked rank → dom (ps_encrypted_ids s) = dom T.
Proof using.
  intros Hscan HI Hnone Hrank. apply set_eq. intros p. split; [apply (pi_done _ HI)|].
  remember (rank p) as n eqn:Hn. revert p Hn. induction (lt_wf n) as [n _ IH]. intros p -> Hp.
  destruct (decide (p ∈ dom (ps_encrypted_ids s))) as [|Hni]; [done|]. exfalso. apply (Hnone p), (pi_ready _ HI). split_and!; [done|done|].
  apply elem_of_dom in Hp as [t Ht]. apply (pending_zero p t); [done|]. intros e He Hd.
  eapply IH; [by eapply Hrank|done|]. apply elem_of_dom. by eapply Hscan.
Qed.

(** ** The result *)
(** No two trees of the run share an encrypted id. *)
Definition sealed_apart : Prop :=
  ∀ scan s, scan_bundle bundle = Ok scan → prepare_all pack bundle scan = Ok s → collision_free (ps_inserts s).
Lemma prepared_Ok pb :
  PreparedTreeBundle_new pack bundle = Ok pb →
  ∃ scan s, scan_bundle bundle = Ok scan ∧ prepare_all pack bundle scan = Ok s ∧ scanned scan ∧ prepare_inv s ∧
    dom (ps_encrypted_ids s) = dom T ∧ ps_encrypted_ids s !! tb_root bundle = Some (pb_root pb) ∧ pb_trees pb = hash_collect (ps_inserts s).
Proof using.
  unfold PreparedTreeBundle_new. intros Hn. apply bind_Ok in Hn as (? & _ & Hn). apply bind_Ok in Hn as (? & _ & Hn).
  apply bind_Ok in Hn as (scan & Hs & Hn). apply bind_Ok in Hn as (s & Ha & Hn). apply bind_Ok in Hn as (? & Hb%bail_if_Ok & Hn).
  apply bind_Ok in Hn as (root & Hr%or_context_Ok & Hn). apply Ok_inj in Hn as <-. exists scan, s.
  pose proof (scan_bundle_Ok _ Hs) as Hscan. pose proof (prepare_all_Ok _ Hscan _ Ha) as [HI _]. split_and!; try done.
  apply negb_false_iff, Z.eqb_eq in Hb. unfold map_len in Hb. rewrite <-!size_dom in Hb.
  apply set_subseteq_size_eq; [apply HI|]. apply Nat2Z.inj in Hb. unfold set_size, compose in *. simpl in *. lia.
Qed.
Lemma encrypt_entry_Ok ids e e' :
  encrypt_entry ids e = Ok e' →
  te_name e' = te_name e ∧ is_dir e' = is_dir e ∧
  if is_dir e then ∃ h, ids !! te_hash e = Some h ∧ e' = entry_with_hash h e else e' = e.
Proof using.
  unfold encrypt_entry. destruct (is_dir e) eqn:Hd; [|by intros <-%Ok_inj]. intros He. apply bind_Ok in He as (h & Hh%or_context_Ok & He).
  apply Ok_inj in He as <-. split_and!; [done|by rewrite <-Hd|eauto].
Qed.
Lemma find_entry_renamed ids n es es' :
  Forall2 (λ e e', encrypt_entry ids e = Ok e') es es' →
  match find_entry n es, find_entry n es' with
  | Some e, Some e' => encrypt_entry ids e = Ok e'
  | None, None => True
  | _, _ => False
  end.
Proof using.
  induction 1 as [|e e' es es' He Hes IH]; simpl; [done|]. destruct (encrypt_entry_Ok _ _ _ He) as (-> & _ & _). by case_decide.
Qed.
Lemma prepared_lookup pb parts :
  PreparedTreeBundle_new pack bundle = Ok pb → sealed_apart →
  tree_lookup (fetch_from (pb_trees pb)) (pb_root pb) parts = tree_lookup (fetch_from T) (tb_root bundle) parts.
Proof using.
  intros (scan & s & Hs & Ha & Hscan & HI & Hdom & Hroot & ->)%prepared_Ok Hcf. specialize (Hcf _ _ Hs Ha).
  generalize (tb_root bundle), (pb_root pb), Hroot. clear Hroot pb.
  induction parts as [|n rest IH]; intros id h Hid; [done|]. simpl.
  destruct (pi_ids _ HI _ _ Hid) as (t' & (t & c & _ & Ht & He%encrypt_tree_Ok & _) & Hin).
  unfold fetch_from at 1 3. rewrite Ht, (collect_lookup _ _ _ Hcf Hin). simpl.
  pose proof (find_entry_renamed _ n _ _ He) as Hf.
  destruct (find_entry n (tr_entries t)) as [e|], (find_entry n (tr_entries t')) as [e'|]; try done.
  destruct (encrypt_entry_Ok _ _ _ Hf) as (_ & Hd & He'). rewrite Hd. destruct (is_dir e); [|by subst e'; destruct rest].
  destruct rest; [done|]. destruct He' as (h' & Hh' & ->). by apply IH.
Qed.
(** ** The renamed trees are valid *)
Lemma try_fold_same {S A} (f : S → A → Result S) l l' s :
  Forall2 (λ a b, ∀ s, f s a = f s b) l l' → try_fold f s l = try_fold f s l'.
Proof using. intros Hl. revert s. induction Hl as [|a b l l' Hab Hl IH]; intros s; [done|]. simpl. rewrite Hab. destruct (f s b); [apply IH|done]. Qed.
Lemma encrypt_tree_valid ids t t' :
  (∀ id h, ids !! id = Some h → is_valid_hash h = true) → encrypt_tree ids t = Ok t' → tree_valid t → tree_valid t'.
Proof using.
  intros Hids He%encrypt_tree_Ok Hv. pose proof (tv_entries _ Hv) as Hes. apply validate_tree_spec. apply validate_tree_spec in Hv.
  assert (Forall2 (λ e e', te_name e' = te_name e ∧ te_kind e' = te_kind e ∧ te_size e' = te_size e ∧ te_mode e' = te_mode e ∧
    is_valid_hash (te_hash e) = true ∧ is_valid_hash (te_hash e') = true ∧ (te_kind e = Dir ∨ te_hash e' = te_hash e)) (tr_entries t) (tr_entries t')) as Hsame.
  { clear Hv. induction He as [|e e' es es' Henc _ IH]; [constructor|]. apply Forall_cons in Hes as [Hev Hes]. constructor; [|by apply IH].
    apply entry_valid_facts in Hev as (_ & _ & _ & Hh). destruct (encrypt_entry_Ok _ _ _ Henc) as (Hn & _ & Hx).
    destruct (is_dir e) eqn:Hd; [|subst; split_and!; auto]. destruct Hx as (h & Hh' & ->). split_and!; try done; [by eapply Hids|].
    left. unfold is_dir in Hd. by destruct (te_kind e). }
  assert (tree_uses_v2 t' = tree_uses_v2 t) as Hv2.
  { unfold tree_uses_v2. clear -Hsame. induction Hsame as [|e e' es es' (_ & Hk & _) _ IH]; [done|]. simpl. by rewrite Hk, IH. }
  unfold validate_tree, canonical_tree_len in *. rewrite Hv2. unfold zlen in *. rewrite <-(Forall2_length _ _ _ Hsame).
  rewrite <-(try_fold_same (add_entry_len (tree_uses_v2 t)) (tr_entries t) (tr_entries t')).
  - rewrite <-(try_fold_same validate_tree_entry (tr_entries t) (tr_entries t')); [done|]. eapply Forall2_impl; [exact Hsame|].
    intros e e' (Hn & Hk & Hsz & Hm & Hh & Hh' & Hor) sets. unfold validate_tree_entry, validate_entry. rewrite Hn, Hk, Hsz, Hm, Hh, Hh'.
    destruct Hor as [-> | ->]; done.
  - eapply Forall2_impl; [exact Hsame|]. intros e e' (Hn & Hk & Hsz & Hm & Hh & Hh' & _) len. unfold add_entry_len.
    by rewrite Hn, Hk, (valid_hash_len (te_hash e)), (valid_hash_len (te_hash e')).
Qed.
Lemma prepared_valid pb id t :
  (∀ b, is_valid_hash (hash_bytes b) = true) → PreparedTreeBundle_new pack bundle = Ok pb → pb_trees pb !! id = Some t → tree_valid t.
Proof using.
  intros Hhex (scan & s & _ & _ & Hscan & HI & _ & _ & ->)%prepared_Ok Ht%hash_collect_Some.
  destruct (pi_inserts _ HI _ _ Ht) as (i & t0 & c & _ & H0' & He & _). eapply encrypt_tree_valid; [|exact He|by eapply Hscan].
  intros i' h Hi'. destruct (pi_ids _ HI _ _ Hi') as (? & (? & ? & _ & _ & _ & _ & ->) & _). apply Hhex.
Qed.
Lemma prepared_total scan rank :
  map_len T ≤ MAX_TREE_OBJECTS → is_Some (T !! tb_root bundle) → scan_bundle bundle = Ok scan → ranked rank →
  (∀ b, ∃ c, pack b = Ok c) → ∃ pb, PreparedTreeBundle_new pack bundle = Ok pb.
Proof using.
  intros Hlen Hroot Hs Hrank Hpack. pose proof (scan_bundle_Ok _ Hs) as Hscan.
  destruct (prepare_all_total _ Hscan Hlen Hpack) as [s Ha]. destruct (prepare_all_Ok _ Hscan _ Ha) as [HI Hnone].
  pose proof (ready_exhausted _ _ _ Hscan HI Hnone Hrank) as Hdom. apply elem_of_dom in Hroot. rewrite <-Hdom in Hroot.
  apply elem_of_dom in Hroot as [root Hroot]. unfold PreparedTreeBundle_new. exists (mkPrepared root (hash_collect (ps_inserts s))).
  rewrite (bind_run _ _ tt) by (by apply bail_if_Ok, Z.ltb_ge). rewrite (bind_run _ _ tt).
  2: { apply bail_if_Ok, negb_false_iff, bool_decide_eq_true. rewrite <-elem_of_dom, <-Hdom. by eapply elem_of_dom_2. }
  rewrite (bind_run _ _ scan) by done. rewrite (bind_run _ _ s) by done. rewrite (bind_run _ _ tt).
  2: { apply bail_if_Ok, negb_false_iff, Z.eqb_eq. unfold map_len. by rewrite <-!size_dom, Hdom. }
  by rewrite (bind_run _ _ root) by (by apply or_context_Ok).
Qed.
(** What a prepared tree is named, and that its directories are prepared too. *)
Lemma prepared_sealed pb id t :
  PreparedTreeBundle_new pack bundle = Ok pb → pb_trees pb !! id = Some t → ∃ c, pack (encode_tree t) = Ok c ∧ id = hash_bytes c.
Proof using.
  intros (scan & s & _ & _ & _ & HI & _ & _ & ->)%prepared_Ok Ht%hash_collect_Some.
  destruct (pi_inserts _ HI _ _ Ht) as (i & t0 & c & _ & _ & _ & Hc & Hh). eauto.
Qed.
Lemma prepared_root pb : PreparedTreeBundle_new pack bundle = Ok pb → is_Some (pb_trees pb !! pb_root pb).
Proof using.
  intros (scan & s & _ & _ & _ & HI & _ & Hroot & ->)%prepared_Ok. destruct (pi_ids _ HI _ _ Hroot) as (t' & _ & Hin).
  apply hash_collect_is_Some. by apply (list_elem_of_fmap_2 fst) in Hin.
Qed.
Lemma prepared_closed pb id t e :
  PreparedTreeBundle_new pack bundle = Ok pb → pb_trees pb !! id = Some t → e ∈ tr_entries t → is_dir e = true →
  is_Some (pb_trees pb !! te_hash e).
Proof using.
  intros (scan & s & _ & _ & _ & HI & _ & _ & ->)%prepared_Ok Ht%hash_collect_Some Hin Hd.
  destruct (pi_inserts _ HI _ _ Ht) as (i & t0 & c & _ & _ & He%encrypt_tree_Ok & _).
  apply list_elem_of_lookup in Hin as [k Hk]. destruct (Forall2_lookup_r _ _ _ _ _ He Hk) as (e0 & _ & Henc).
  destruct (encrypt_entry_Ok _ _ _ Henc) as (_ & Hd' & Hx). rewrite <-Hd', Hd in Hx. destruct Hx as (h & Hh & ->). simpl.
  destruct (pi_ids _ HI _ _ Hh) as (t' & _ & Hin). apply hash_collect_is_Some. by apply (list_elem_of_fmap_2 fst) in Hin.
Qed.
End prepare.
