(* ===== verification/TreeState.v ===== *)
(** * Loading the state of a stored tree

    agent-core/src/objects.rs: [get_tree_state] walks the encrypted trees below a root and returns
    the visible files and the recorded conflicts.  [fetch] is [get_tree]. *)
From Stdlib Require Import ZArith Lia Ascii Strings.Byte.
From stdpp Require Import sorting numbers strings gmap list_numbers list options.
From S2P Require Import Prelude Text Paths Model Codec CodecProps Lookup Convert Flatten.

Local Open Scope Z_scope.

Record LoadedTree := mkLoadedTree { lt_files : gmap string FileState; lt_conflicts : list ConcurrentEdit }.
(** The local variables of [get_tree_state_from]; [TreeStateWork] is [FlattenWork]. *)
Record StateTraversal := mkStateTraversal {
  st_state : LoadedTree;
  st_active : gset string;
  st_objects : gset string;
  st_work_items : Z;
  st_path_bytes : Z;
}.
Definition StateTraversal_new : StateTraversal := mkStateTraversal (mkLoadedTree ∅ []) ∅ ∅ 0 0.
Definition st_with_state (s : LoadedTree) (t : StateTraversal) : StateTraversal :=
  mkStateTraversal s (st_active t) (st_objects t) (st_work_items t) (st_path_bytes t).

Definition conflict_leg (path hash : string) (size mode : Z) : FileState := mkFileState path hash size 0 false mode.
(** The size is known of the visible leg only. *)
Definition size_of (entry : TreeEntry) (visible_hash : option string) (hash : string) : Z :=
  if decide (Some hash = visible_hash) then te_size entry else 0.
Definition first_some {A} (x y : option A) : option A := match x with Some _ => x | None => y end.
Definition loaded_conflict (path : string) (entry : TreeEntry) : option ConcurrentEdit :=
  match te_kind entry with
  | Conflict base ours theirs modes =>
      let visible_hash := first_some theirs (first_some ours base) in
      let leg mode h := conflict_leg path h (size_of entry visible_hash h) mode in
      Some (ConcurrentEdit_new path (leg (cm_base modes) <$> base) (leg (cm_ours modes) <$> ours) (leg (cm_theirs modes) <$> theirs))
  | _ => None
  end.

Section load.
Context `{Unicode} (fetch : Fetch).

(** The body of [for entry in tree.entries.into_iter().rev()]. *)
Definition load_entry (prefix : string) (depth : Z) (st : list FlattenWork * StateTraversal) (entry : TreeEntry)
    : Result (list FlattenWork * StateTraversal) :=
  let '(pending, t) := st in
  let path := join_path prefix (te_name entry) in
  bail_if (negb (is_safe_rel_path path) || (MAX_TREE_DEPTH <? zlen (split slash path)))
    "encrypted tree produced an unsafe or oversized path" ;;
  n ← charge (st_path_bytes t) (slen path) MAX_TREE_PATH_BYTES_TOTAL "encrypted tree path counter overflow"
        "encrypted tree paths exceed aggregate byte limit";
  let t := mkStateTraversal (st_state t) (st_active t) (st_objects t) (st_work_items t) n in
  let state := st_state t in
  match te_kind entry with
  | Dir => Ok (Enter (te_hash entry) path (depth + 1) :: pending, t)
  | File =>
      bail_if (MAX_TREE_OUTPUT_PATHS <=? map_len (lt_files state)) "encrypted tree exceeds flat-output limit" ;;
      Ok (pending, st_with_state (mkLoadedTree (<[path := entry_state path entry]> (lt_files state)) (lt_conflicts state)) t)
  | Conflict _ _ _ _ =>
      bail_if (MAX_TREE_OUTPUT_PATHS <=? map_len (lt_files state)) "encrypted tree exceeds flat-output limit" ;;
      Ok (pending, st_with_state (mkLoadedTree (<[path := entry_state path entry]> (lt_files state))
                                   (lt_conflicts state ++ option_list (loaded_conflict path entry))) t)
  end.
Definition load_work (work : FlattenWork) (pending : list FlattenWork) (t : StateTraversal)
    : Result (list FlattenWork * StateTraversal) :=
  match work with
  | Exit id => Ok (pending, mkStateTraversal (st_state t) (st_active t ∖ {[id]}) (st_objects t) (st_work_items t) (st_path_bytes t))
  | Enter id prefix depth =>
      bail_if (MAX_TREE_DEPTH <? depth) "encrypted tree exceeds supported depth" ;;
      bail_if (bool_decide (id ∈ st_active t)) "cycle in encrypted tree" ;;
      let objects := {[id]} ∪ st_objects t in
      bail_if (negb (bool_decide (id ∈ st_objects t)) && (MAX_TREE_OBJECTS <? Z.of_nat (size objects)))
        "encrypted tree exceeds distinct-object limit" ;;
      tree ← fetch id;
      n ← charge (st_work_items t) (saturating_add (zlen (tr_entries tree)) 1) MAX_TREE_WORK_ITEMS
            "encrypted tree work counter overflow" "encrypted tree exceeds traversal work limit";
      try_fold (load_entry prefix depth)
        (Exit id :: pending, mkStateTraversal (st_state t) ({[id]} ∪ st_active t) objects n (st_path_bytes t))
        (reverse (tr_entries tree))
  end.
Definition load_step (st : list FlattenWork * StateTraversal)
    : step (list FlattenWork * StateTraversal) (Result StateTraversal) :=
  match st.1 with
  | [] => Done (Ok st.2)
  | work :: pending => match load_work work pending st.2 with Ok st => More st | Err e => Done (Err e) end
  end.
(** [2 ^ 22] iterations are more than the work limit allows. *)
Definition get_tree_state (root : string) : Result LoadedTree :=
  match iterate 22 load_step ([Enter root "" 0], StateTraversal_new) with
  | Done r => t ← r; Ok (st_state t)
  | More _ => Err "traversal does not end"
  end.
Definition get_flat_tree (root : string) : Result (gmap string FileState) := s ← get_tree_state root; Ok (lt_files s).
End load.
