(* ===== verification/TreeStateProps.v ===== *)
(** * Loading a tree state is exact

    The loader visits what the flattening of canonical trees visits, so it inherits its invariant;
    the conflicts it collects are those of the leaves it has visited. *)
From Stdlib Require Import ZArith Lia Ascii Strings.Byte.
From stdpp Require Import sorting numbers strings gmap list_numbers list options.
From S2P Require Import Prelude Text Paths Model Codec CodecProps Lookup Convert ConvertProps Flatten FlattenProps TreeState.

Local Open Scope Z_scope.

Section props.
Context `{Unicode} (fetch : Fetch).

(** ** The effect of the loop over entries *)
Definition leaf_files (prefix : string) (m : gmap string FileState) (es : list TreeEntry) : gmap string FileState :=
  foldl (λ m e, if is_dir e then m else <[join_path prefix (te_name e) := entry_state (join_path prefix (te_name e)) e]> m) m es.
Definition leaf_conflicts (prefix : string) (es : list TreeEntry) : list ConcurrentEdit :=
  omap (λ e, loaded_conflict (join_path prefix (te_name e)) e) es.
Lemma load_entry_Ok prefix depth pending t e pending' t' :
  load_entry prefix depth (pending, t) e = Ok (pending', t') →
  pending' = dir_work prefix depth [e] ++ pending ∧ st_work_items t' = st_work_items t ∧
  lt_files (st_state t') = leaf_files prefix (lt_files (st_state t)) [e] ∧
  lt_conflicts (st_state t') = lt_conflicts (st_state t) ++ leaf_conflicts prefix [e].
Proof using.
  unfold load_entry. intros Hl. apply bind_Ok in Hl as (? & _ & Hl). apply bind_Ok in Hl as (n & _ & Hl).
  unfold leaf_files, leaf_conflicts, dir_work, is_dir. simpl. unfold loaded_conflict. destruct (te_kind e) eqn:Hk; simpl.
  - apply bind_Ok in Hl as (? & _ & Hl). apply Ok_inj in Hl as [= <- <-]. simpl. by rewrite app_nil_r.
  - apply Ok_inj in Hl as [= <- <-]. simpl. by rewrite app_nil_r.
  - apply bind_Ok in Hl as (? & _ & Hl). apply Ok_inj in Hl as [= <- <-]. unfold loaded_conflict. simpl. by rewrite Hk.
Qed.
Lemma load_entries_Ok prefix depth es pending t pending' t' :
  try_fold (load_entry prefix depth) (pending, t) es = Ok (pending', t') →
  pending' = reverse (dir_work prefix depth es) ++ pending ∧ st_work_items t' = st_work_items t ∧
  lt_files (st_state t') = leaf_files prefix (lt_files (st_state t)) es ∧
  lt_conflicts (st_state t') = lt_conflicts (st_state t) ++ leaf_conflicts prefix es.
Proof using.
  revert pending t. induction es as [|e es IH]; intros pending t Hl; cbn [try_fold] in Hl.
  { apply Ok_inj in Hl as [= <- <-]. unfold leaf_conflicts. simpl. by rewrite app_nil_r. }
  apply bind_Ok in Hl as ([p1 t1] & (-> & Hw & Hf & Hc)%load_entry_Ok & (-> & -> & -> & ->)%IH).
  change (e :: es) with ([e] ++ es). unfold leaf_files, leaf_conflicts, dir_work in *.
  rewrite !omap_app, reverse_app, foldl_app, Hw, Hf, Hc, <-!(assoc_L (++)). split_and!; try done. f_equal. simpl. by case_match.
Qed.

(** ** Termination *)
Lemma load_work_counts w pending t pending' t' :
  load_work fetch w pending t = Ok (pending', t') → 0 ≤ st_work_items t →
  zlen pending' + 2 * st_work_items t < zlen pending + 1 + 2 * st_work_items t' ∧ st_work_items t ≤ st_work_items t' ∧
  (st_work_items t ≤ MAX_TREE_WORK_ITEMS → st_work_items t' ≤ MAX_TREE_WORK_ITEMS).
Proof using.
  destruct w as [id prefix depth|id]; unfold load_work; intros Hl Ht.
  2: { apply Ok_inj in Hl as [= <- <-]. simpl. lia. }
  apply bind_Ok in Hl as (? & _ & Hl). apply bind_Ok in Hl as (? & _ & Hl). apply bind_Ok in Hl as (? & _ & Hl).
  apply bind_Ok in Hl as (tree & _ & Hl). apply bind_Ok in Hl as (n & (-> & _ & Hn)%charge_Ok & Hl).
  apply load_entries_Ok in Hl as (-> & Hw & _). simpl in Hw. rewrite Hw, zlen_app, zlen_cons.
  pose proof (dir_work_length prefix depth (reverse (tr_entries tree))) as Hd.
  assert (zlen (reverse (tr_entries tree)) = zlen (tr_entries tree)) as Hr by (unfold zlen; by rewrite reverse_Permutation).
  assert (zlen (reverse (dir_work prefix depth (reverse (tr_entries tree)))) = zlen (dir_work prefix depth (reverse (tr_entries tree)))) as Hr'
    by (unfold zlen; by rewrite reverse_Permutation).
  rewrite Hr', Hr in *. unfold saturating_add, zlen in *.
  destruct (Z.le_gt_cases (Z.of_nat (length (tr_entries tree)) + 1) USIZE_MAX); [rewrite Z.min_l in * by lia; lia|].
  rewrite Z.min_r in * by lia. unfold USIZE_MAX, U64_MAX, MAX_TREE_WORK_ITEMS, MANIFEST_MAX_ENTRIES in *. lia.
Qed.
Lemma load_step_More st st' :
  load_step fetch st = More st' → ∃ w pending, st.1 = w :: pending ∧ load_work fetch w pending st.2 = Ok st'.
Proof using.
  destruct st as [[|w pending] t]; unfold load_step; simpl; [done|].
  destruct (load_work fetch w pending t) eqn:E; [|done]. intros [= ->]. eauto.
Qed.
(** The loader ends on every store. *)
Lemma load_terminates root : ∃ r, iterate 22 (load_step fetch) ([Enter root "" 0], StateTraversal_new) = Done r.
Proof using.
  apply (iterate_done _ (λ st, 0 ≤ st_work_items st.2 ≤ MAX_TREE_WORK_ITEMS))
    with (m := λ st, 2 * (MAX_TREE_WORK_ITEMS - st_work_items st.2) + zlen st.1).
  - intros s [p' t'] Hs (w & pending & _ & (_ & Hw)%load_work_counts)%load_step_More; simpl; lia.
  - intros [p t] [p' t'] Hs (w & pending & Hp & Hw)%load_step_More. simpl in *. subst p. rewrite zlen_cons.
    apply load_work_counts in Hw; lia.
  - intros [p t] Hs. simpl in *. pose proof (zlen_nonneg p). lia.
  - simpl. unfold MAX_TREE_WORK_ITEMS, MANIFEST_MAX_ENTRIES. lia.
  - vm_compute. reflexivity.
Qed.

(** ** Correctness *)
Section run.
Context (root : string) (Hvalid : ∀ id t, fetch id = Ok t → tree_valid t).
Definition as_flatten (st : list FlattenWork * StateTraversal) : list FlattenWork * FlattenTraversal :=
  (st.1, mkFlatten ∅ (lt_files (st_state st.2)) 0 ∅ 0 0).
Record load_inv (st : list FlattenWork * StateTraversal) : Prop := {
  li_files : flatten_inv fetch root (as_flatten st);
  li_conflicts c : c ∈ lt_conflicts (st_state st.2) ↔
    ∃ p e, is_Some (lt_files (st_state st.2) !! p) ∧ tree_lookup fetch root (split slash p) = Some e ∧ loaded_conflict p e = Some c;
}.
Lemma child_leaf id prefix pp tree e :
  stands_for fetch root id prefix pp → fetch id = Ok tree → e ∈ tr_entries tree → is_dir e = false →
  tree_lookup fetch root (split slash (join_path prefix (te_name e))) = Some e.
Proof using Hvalid.
  intros Hpp Hf He Hd. pose proof (Hvalid _ _ Hf) as Hv. destruct (stands_for_child _ _ _ _ _ _ e Hpp Hf Hv He) as (Hc & -> & _).
  rewrite split_clean by (done || by destruct pp). destruct Hpp as (_ & _ & Hl). rewrite Hl by done.
  apply (tree_lookup_leaf _ _ tree); [done|apply Hv|done|done].
Qed.
Lemma load_enter_inv id prefix depth pending t tree pending' t' :
  load_inv (Enter id prefix depth :: pending, t) → fetch id = Ok tree →
  (∀ x, x ∈ pending' ↔ x ∈ dir_work prefix depth (reverse (tr_entries tree)) ++ Exit id :: pending) →
  lt_files (st_state t') = leaf_files prefix (lt_files (st_state t)) (reverse (tr_entries tree)) →
  lt_conflicts (st_state t') = lt_conflicts (st_state t) ++ leaf_conflicts prefix (reverse (tr_entries tree)) →
  load_inv (pending', t').
Proof using Hvalid.
  intros [HF HC] Hf Hp Hfiles Hconf. destruct (fi_pending _ _ _ HF id prefix depth) as [pp Hpp]; [by left|].
  destruct (written_files prefix (reverse (tr_entries tree)) (lt_files (st_state t))) as (Hw1 & Hw2 & Hw3).
  change (foldl _ _ _) with (leaf_files prefix (lt_files (st_state t)) (reverse (tr_entries tree))) in Hw1, Hw2, Hw3.
  rewrite <-Hfiles in Hw1, Hw2, Hw3. constructor.
  - eapply flatten_inv_same; [eapply (flatten_enter_inv _ _ id prefix depth pending _ tree (reverse (tr_entries tree)) (mkFlatten ∅ _ 0 ∅ 0 0) HF Hf (Hvalid _ _ Hf))|..];
      [by rewrite reverse_Permutation|done|done|done].
  - intros c. cbn [snd]. rewrite Hconf, elem_of_app, HC. unfold leaf_conflicts. rewrite list_elem_of_omap. cbn [snd]. split.
    + intros [(p & e & Hsome & Hl & Hc)|(e & He & Hc)]; [exists p, e; auto|].
      rewrite elem_of_reverse in He. assert (is_dir e = false) as Hd.
      { unfold loaded_conflict in Hc. unfold is_dir. by destruct (te_kind e). }
      exists (join_path prefix (te_name e)), e. split_and!; [by apply Hw3; [rewrite elem_of_reverse|]|by eapply child_leaf|done].
    + intros (p & e & [s Hs] & Hl & Hc). apply Hw1 in Hs as [Hs|(e' & He' & Hd & -> & _)]; [left; by exists p, e|]. right.
      rewrite elem_of_reverse in He'. rewrite (child_leaf _ _ _ _ _ Hpp Hf He' Hd) in Hl. simplify_eq. exists e. by rewrite elem_of_reverse.
Qed.
Lemma load_step_inv st st' : load_inv st → load_step fetch st = More st' → load_inv st'.
Proof using Hvalid.
  intros HI (w & pending & Hst & Hw)%load_step_More. destruct st as [ws t], st' as [pending' t']. simpl in Hst. subst ws. simpl in Hw.
  unfold load_work in Hw. destruct w as [id prefix depth|id].
  - apply bind_Ok in Hw as (? & _ & Hw). apply bind_Ok in Hw as (? & _ & Hw). apply bind_Ok in Hw as (? & _ & Hw).
    apply bind_Ok in Hw as (tree & Hf & Hw). apply bind_Ok in Hw as (n & _ & Hw). apply load_entries_Ok in Hw as (-> & _ & Hfi & Hco).
    eapply load_enter_inv; [exact HI|exact Hf| |exact Hfi|exact Hco]. intros w. by rewrite !elem_of_app, elem_of_reverse.
  - apply Ok_inj in Hw as [= <- <-]. destruct HI as [[Hs Hp Hc] HC]. constructor; [|done]. constructor; simpl in *; [done| |].
    + intros h pre d Hin. apply (Hp h pre d). by right.
    + intros parts e [?|(h & pre & d & pp & rest & [?|?]%elem_of_cons & ?)]%Hc; [by left|done|]. right. by exists h, pre, d, pp, rest.
Qed.
Lemma get_tree_state_Ok s :
  get_tree_state fetch root = Ok s →
  (∀ p f, lt_files s !! p = Some f ↔ ∃ e, tree_lookup fetch root (split slash p) = Some e ∧ f = entry_state p e) ∧
  (∀ c, c ∈ lt_conflicts s ↔ ∃ p e, tree_lookup fetch root (split slash p) = Some e ∧ loaded_conflict p e = Some c).
Proof using Hvalid.
  unfold get_tree_state. intros Hr. destruct (iterate 22 _ _) as [|[t|]] eqn:Hit; [done| |done]. apply Ok_inj in Hr as <-.
  assert (load_inv ([], t)) as [[Hs _ Hc] HC].
  { eapply (iterate_inv _ load_inv) with (Q := λ r, ∀ t, r = Ok t → load_inv ([], t)) in Hit; [by apply Hit|apply load_step_inv| |].
    - intros [[|w pending] t1] r HI; unfold load_step; simpl; [|by destruct (load_work _ _ _ _); intros [= <-]]. by intros [= <-] ? [= <-].
    - constructor; [apply flatten_inv_initial|]. simpl. intros c. split; [by intros ?%elem_of_nil|]. intros (p & e & [? Hp] & _). by rewrite lookup_empty in Hp. }
  simpl in *. assert (∀ p e, tree_lookup fetch root (split slash p) = Some e → is_Some (lt_files (st_state t) !! p)) as Hall.
  { intros p e He. destruct (Hc _ _ He) as [Hsome|(? & ? & ? & ? & ? & ?%elem_of_nil & _)]; [by rewrite join_split in Hsome|done]. }
  split.
  - intros p f. split; [apply Hs|]. intros (e & He & ->). destruct (Hall _ _ He) as [f Hf]. destruct (Hs _ _ Hf) as (e' & He' & ->). congruence.
  - intros c. rewrite HC. split; [intros (p & e & _ & ?); eauto|]. intros (p & e & Hl & ?). exists p, e. split_and!; [by eapply Hall|done|done].
Qed.
End run.
End props.
