(* ===== verification/Reachability.v ===== *)
(** * The objects a snapshot needs

    agent-core/src/objects.rs: [snapshot_reachability] lists what the manifest of a snapshot names:
    its ancestors, the trees below them, the contents of their files and of the legs of their
    conflicts, and the chunks of large files.  The hub keeps what manifests name. *)
From Stdlib Require Import ZArith Lia Ascii Strings.Byte.
From stdpp Require Import sorting numbers strings gmap list_numbers list options.
From S2P Require Import Prelude Text Paths Model Codec CodecProps Lookup Convert Flatten.

Local Open Scope Z_scope.

Definition insert_reachable_hash (hashes : gset string) (hash : string) : Result (gset string) :=
  bail_if (negb (is_valid_hash hash)) "snapshot reachability contains an invalid object id" ;;
  bail_if (negb (bool_decide (hash ∈ hashes)) && (MANIFEST_MAX_ENTRIES <=? Z.of_nat (size hashes)))
    "snapshot reachability exceeds manifest object limit" ;;
  Ok ({[hash]} ∪ hashes).

(** The local variables of the first loop, and of the second. *)
Record SnapshotReach := mkSnapshotReach {
  sr_hashes : gset string; sr_snapshot_ids : gset string; sr_tree_roots : list string; sr_work_items : Z }.
Record TreeReach := mkTreeReach {
  tr_hashes : gset string;
  tr_active : gset string;
  tr_objects : gset string;
  tr_expanded : gset (string * string);
  tr_work_items : Z;
  tr_path_bytes : Z;
}.
Definition tr_insert (hash : string) (t : TreeReach) : Result TreeReach :=
  hashes ← insert_reachable_hash (tr_hashes t) hash;
  Ok (mkTreeReach hashes (tr_active t) (tr_objects t) (tr_expanded t) (tr_work_items t) (tr_path_bytes t)).
Definition tr_charge (n : Z) (overflow exceeds : string) (t : TreeReach) : Result TreeReach :=
  n ← charge (tr_work_items t) n MAX_TREE_WORK_ITEMS overflow exceeds;
  Ok (mkTreeReach (tr_hashes t) (tr_active t) (tr_objects t) (tr_expanded t) n (tr_path_bytes t)).

Section reach.
Context `{Unicode}.
(** [get_snapshot] and [get_tree]; [large_file::reachable_chunks] of a path, a content and its size. *)
Context (fetch_snapshot : string → Result Snapshot) (fetch : Fetch).
Context (reachable_chunks : string → string → option Z → Result (list string)).

(** ** Ancestors *)
Definition snapshot_work (id : string) (pending : list string) (s : SnapshotReach) : Result (list string * SnapshotReach) :=
  if bool_decide (id ∈ sr_snapshot_ids s) then Ok (pending, s) else
  hashes ← insert_reachable_hash (sr_hashes s) id;
  snapshot ← fetch_snapshot id;
  n ← charge (sr_work_items s) (saturating_add (zlen (sn_parents snapshot)) 1) MAX_TREE_WORK_ITEMS
        "reachability snapshot work counter overflow" "snapshot reachability exceeds traversal work limit";
  Ok (sn_parents snapshot ++ pending,
      mkSnapshotReach hashes ({[id]} ∪ sr_snapshot_ids s) (sr_tree_roots s ++ [sn_root snapshot]) n).
Definition snapshot_step (st : list string * SnapshotReach) : step (list string * SnapshotReach) (Result SnapshotReach) :=
  match st.1 with
  | [] => Done (Ok st.2)
  | id :: pending => match snapshot_work id pending st.2 with Ok st => More st | Err e => Done (Err e) end
  end.
Definition reach_snapshots (id : string) : Result SnapshotReach :=
  match iterate 22 snapshot_step ([id], mkSnapshotReach ∅ ∅ [] 0) with
  | Done r => r
  | More _ => Err "traversal does not end"
  end.

(** ** Trees *)
Section trees.
Context (expand_chunked_files : bool).
Definition reach_chunks (path hash : string) (size : option Z) (t : TreeReach) : Result TreeReach :=
  if expand_chunked_files then
    chunks ← reachable_chunks path hash size;
    t ← tr_charge (zlen chunks) "reachability chunk counter overflow" "snapshot reachability exceeds work limit" t;
    try_fold (λ t chunk, tr_insert chunk t) t chunks
  else Ok t.
Definition conflict_legs (entry : TreeEntry) (base ours theirs : option string) : list string :=
  dedup (sort_strings (te_hash entry :: option_list base ++ option_list ours ++ option_list theirs)).
Definition reach_leg (path : string) (entry : TreeEntry) (t : TreeReach) (leg : string) : Result TreeReach :=
  t ← tr_insert leg t;
  reach_chunks path leg (if decide (leg = te_hash entry) then Some (te_size entry) else None) t.
(** The body of [for entry in tree.entries.into_iter().rev()]. *)
Definition reach_entry (prefix : string) (depth : Z) (st : list FlattenWork * TreeReach) (entry : TreeEntry)
    : Result (list FlattenWork * TreeReach) :=
  let '(pending, t) := st in
  let path := join_path prefix (te_name entry) in
  bail_if (negb (is_safe_rel_path path) || (MAX_TREE_DEPTH <? zlen (split slash path)))
    "reachable encrypted tree produced an unsafe path" ;;
  n ← charge (tr_path_bytes t) (slen path) MAX_TREE_PATH_BYTES_TOTAL "reachability path counter overflow"
        "snapshot reachability paths exceed aggregate byte limit";
  let t := mkTreeReach (tr_hashes t) (tr_active t) (tr_objects t) (tr_expanded t) (tr_work_items t) n in
  match te_kind entry with
  | Dir => Ok (Enter (te_hash entry) path (depth + 1) :: pending, t)
  | File => t ← tr_insert (te_hash entry) t; t ← reach_chunks path (te_hash entry) (Some (te_size entry)) t; Ok (pending, t)
  | Conflict base ours theirs _ =>
      t ← try_fold (reach_leg path entry) t (conflict_legs entry base ours theirs); Ok (pending, t)
  end.
Definition reach_work (work : FlattenWork) (pending : list FlattenWork) (t : TreeReach) : Result (list FlattenWork * TreeReach) :=
  match work with
  | Exit id => Ok (pending, mkTreeReach (tr_hashes t) (tr_active t ∖ {[id]}) (tr_objects t) (tr_expanded t) (tr_work_items t) (tr_path_bytes t))
  | Enter id prefix depth =>
      bail_if ((MAX_TREE_DEPTH <? depth) || bool_decide (id ∈ tr_active t)) "cycle or excessive depth in reachable encrypted tree" ;;
      if bool_decide ((id, prefix) ∈ tr_expanded t) then Ok (pending, t) else
      let objects := {[id]} ∪ tr_objects t in
      bail_if (negb (bool_decide (id ∈ tr_objects t)) && (MAX_TREE_OBJECTS <? Z.of_nat (size objects)))
        "reachable encrypted tree exceeds distinct-object limit" ;;
      t ← tr_insert id (mkTreeReach (tr_hashes t) ({[id]} ∪ tr_active t) objects ({[(id, prefix)]} ∪ tr_expanded t)
                          (tr_work_items t) (tr_path_bytes t));
      tree ← fetch id;
      t ← tr_charge (saturating_add (zlen (tr_entries tree)) 1) "reachability work counter overflow"
            "snapshot reachability exceeds traversal work limit" t;
      try_fold (reach_entry prefix depth) (Exit id :: pending, t) (reverse (tr_entries tree))
  end.
Definition reach_step (st : list FlattenWork * TreeReach) : step (list FlattenWork * TreeReach) (Result TreeReach) :=
  match st.1 with
  | [] => Done (Ok st.2)
  | work :: pending => match reach_work work pending st.2 with Ok st => More st | Err e => Done (Err e) end
  end.
(** [2 ^ 23] iterations are more than the work limits and the roots allow. *)
Definition snapshot_reachability (id : string) : Result (list string) :=
  s ← reach_snapshots id;
  match iterate 23 reach_step ((λ root, Enter root "" 0) <$> sr_tree_roots s, mkTreeReach (sr_hashes s) ∅ ∅ ∅ (sr_work_items s) 0) with
  | Done r => t ← r; Ok (sort_strings (elements (tr_hashes t)))
  | More _ => Err "traversal does not end"
  end.
End trees.
End reach.
