(* ===== verification/ReachabilityProps.v ===== *)
(** * The manifest of a snapshot is complete

    Both traversals end, and what they return contains every object that reading the snapshot and
    its history can ask for. *)
From Stdlib Require Import ZArith Lia Ascii Strings.Byte.
From stdpp Require Import sorting numbers strings gmap list_numbers list options.
From S2P Require Import Prelude Text Paths Model Codec CodecProps Lookup Convert ConvertProps Flatten FlattenProps Reachability.

Local Open Scope Z_scope.

Lemma insert_reachable_Ok hashes h hashes' : insert_reachable_hash hashes h = Ok hashes' → hashes' = {[h]} ∪ hashes.
Proof. unfold insert_reachable_hash. intros Hi. by inv_ok. Qed.
Lemma tr_insert_Ok h t t' :
  tr_insert h t = Ok t' →
  tr_hashes t' = {[h]} ∪ tr_hashes t ∧ tr_expanded t' = tr_expanded t ∧ tr_work_items t' = tr_work_items t.
Proof. unfold tr_insert. intros Hi. apply bind_Ok in Hi as (hs & ->%insert_reachable_Ok & Hi). by apply Ok_inj in Hi as <-. Qed.

(** ** The loop over snapshots *)
Section snapshots.
Context (fetch_snapshot : string → Result Snapshot).
Inductive ancestor (id : string) : string → Prop :=
| ancestor_self : ancestor id id
| ancestor_parent s snapshot p : ancestor id s → fetch_snapshot s = Ok snapshot → p ∈ sn_parents snapshot → ancestor id p.
Local Notation s_step := (snapshot_step fetch_snapshot).
Lemma snapshot_work_Ok id pending s pending' s' :
  snapshot_work fetch_snapshot id pending s = Ok (pending', s') →
  (id ∈ sr_snapshot_ids s ∧ pending' = pending ∧ s' = s) ∨
  (∃ snapshot, fetch_snapshot id = Ok snapshot ∧ pending' = sn_parents snapshot ++ pending ∧ sr_hashes s' = {[id]} ∪ sr_hashes s ∧
     sr_snapshot_ids s' = {[id]} ∪ sr_snapshot_ids s ∧ sr_tree_roots s' = sr_tree_roots s ++ [sn_root snapshot] ∧
     sr_work_items s' = sr_work_items s + saturating_add (zlen (sn_parents snapshot)) 1 ∧ sr_work_items s' ≤ MAX_TREE_WORK_ITEMS).
Proof using.
  unfold snapshot_work. case_bool_decide as Hin; [intros [= <- <-]; by left|]. intros Hw.
  apply bind_Ok in Hw as (hs & ->%insert_reachable_Ok & Hw). apply bind_Ok in Hw as (snapshot & Hs & Hw).
  apply bind_Ok in Hw as (n & (-> & _ & Hn)%charge_Ok & Hw). apply Ok_inj in Hw as [= <- <-]. right. by exists snapshot.
Qed.
Lemma snapshot_step_More st st' :
  s_step st = More st' → ∃ id pending, st.1 = id :: pending ∧ snapshot_work fetch_snapshot id pending st.2 = Ok st'.
Proof using.
  destruct st as [[|id pending] s]; unfold snapshot_step; simpl; [done|].
  destruct (snapshot_work fetch_snapshot id pending s) eqn:E; [|done]. intros [= ->]. eauto.
Qed.
(** Saturation only makes the charge larger than the limit. *)
Lemma charge_pays w n : 0 ≤ n → 0 ≤ w → w + saturating_add n 1 ≤ MAX_TREE_WORK_ITEMS → saturating_add n 1 = n + 1.
Proof using.
  unfold saturating_add, USIZE_MAX, U64_MAX, MAX_TREE_WORK_ITEMS, MANIFEST_MAX_ENTRIES. lia.
Qed.
Record snapshots_inv (id : string) (st : list string * SnapshotReach) : Prop := {
  si_start : id ∈ sr_snapshot_ids st.2 ∨ id ∈ st.1;
  si_hashes : sr_hashes st.2 = sr_snapshot_ids st.2;
  si_sound s : s ∈ sr_snapshot_ids st.2 ∨ s ∈ st.1 → ancestor id s;
  si_roots r : r ∈ sr_tree_roots st.2 → ∃ s snapshot, ancestor id s ∧ fetch_snapshot s = Ok snapshot ∧ r = sn_root snapshot;
  si_closed s : s ∈ sr_snapshot_ids st.2 → ∃ snapshot, fetch_snapshot s = Ok snapshot ∧ sn_root snapshot ∈ sr_tree_roots st.2 ∧
    ∀ p, p ∈ sn_parents snapshot → p ∈ sr_snapshot_ids st.2 ∨ p ∈ st.1;
  si_work : 0 ≤ sr_work_items st.2 ≤ MAX_TREE_WORK_ITEMS ∧ zlen (sr_tree_roots st.2) ≤ sr_work_items st.2;
}.
Lemma snapshots_initial id : snapshots_inv id ([id], mkSnapshotReach ∅ ∅ [] 0).
Proof using.
  constructor; simpl; [set_solver|done| |by intros ? ?%elem_of_nil|intros s; set_solver|].
  { intros s [?%elem_of_empty| ->%list_elem_of_singleton]; [done|constructor]. }
  change (zlen []) with 0.
  unfold MAX_TREE_WORK_ITEMS, MANIFEST_MAX_ENTRIES. lia.
Qed.
Lemma snapshots_step id st st' : snapshots_inv id st → s_step st = More st' → snapshots_inv id st'.
Proof using.
  intros [Hst Hh Hso Hro Hc [Hw Hr]] (i & pending & Hp & Hs)%snapshot_step_More. destruct st as [ps s], st' as [ps' s']. simpl in *. subst ps.
  apply snapshot_work_Ok in Hs as [(Hin & -> & ->)|(snapshot & Hf & -> & Hh' & Hi' & Hr' & Hw' & Hm)].
  - constructor; simpl; [set_solver|done|intros s0 Hs0; apply Hso; set_solver|done| |done]. intros s0 Hs0. destruct (Hc _ Hs0) as (sn & ? & ? & Hpar). exists sn. split_and!; [done..|set_solver].
  - assert (ancestor id i) as Hanc by (apply Hso; right; by left).
    constructor; simpl; rewrite ?Hi', ?Hr', ?Hh'; [set_solver|by rewrite Hh|..].
    + intros s0 [[->%elem_of_singleton|Hs0]%elem_of_union|[Hs0|Hs0]%elem_of_app]; [done|apply Hso; by left|by econstructor|apply Hso; right; by right].
    + intros r [Hr0| ->%list_elem_of_singleton]%elem_of_app; [by apply Hro|by exists i, snapshot].
    + intros s0 [->%elem_of_singleton|Hs0]%elem_of_union; [exists snapshot; split_and!; [done|set_solver|set_solver]|].
      destruct (Hc _ Hs0) as (sn & ? & ? & Hpar). exists sn. split_and!; [done|set_solver|set_solver].
    + pose proof (zlen_nonneg (sn_parents snapshot)). rewrite Hw' in *. rewrite (charge_pays (sr_work_items s)) in * by lia.
      rewrite zlen_app. change (zlen [sn_root snapshot]) with 1. lia.
Qed.
Lemma snapshots_end id : ∃ r, iterate 22 s_step ([id], mkSnapshotReach ∅ ∅ [] 0) = Done r.
Proof using.
  apply (iterate_done _ (snapshots_inv id)) with (m := λ st, 2 * (MAX_TREE_WORK_ITEMS - sr_work_items st.2) + zlen st.1).
  - intros s s' HI Hs. by eapply snapshots_step.
  - intros [ps s] [ps' s'] [_ _ _ _ _ [Hw _]] (i & pending & Hp & Hs)%snapshot_step_More. simpl in *. subst ps. rewrite zlen_cons.
    apply snapshot_work_Ok in Hs as [(_ & -> & ->)|(snapshot & _ & -> & _ & _ & _ & Hw' & Hm)]; [lia|].
    rewrite Hw', zlen_app in *. pose proof (zlen_nonneg (sn_parents snapshot)). rewrite (charge_pays (sr_work_items s)) in * by lia. lia.
  - intros [ps s] [_ _ _ _ _ [Hw _]]. simpl in *. pose proof (zlen_nonneg ps). lia.
  - apply snapshots_initial.
  - vm_compute. reflexivity.
Qed.
Lemma reach_snapshots_Ok id s : reach_snapshots fetch_snapshot id = Ok s → snapshots_inv id ([], s).
Proof using.
  unfold reach_snapshots. destruct (iterate 22 _ _) as [|r] eqn:Hit; [done|]. intros ->.
  eapply (iterate_inv _ (snapshots_inv id)) with (Q := λ r, ∀ s, r = Ok s → snapshots_inv id ([], s)) in Hit;
    [by apply Hit|apply snapshots_step| |apply snapshots_initial].
  intros [[|i pending] s1] r HI; unfold snapshot_step; simpl; [|by destruct (snapshot_work _ _ _ _); intros [= <-]].
  by intros [= <-] ? [= <-].
Qed.
Lemma ancestors_visited id s a : snapshots_inv id ([], s) → ancestor id a → a ∈ sr_snapshot_ids s.
Proof using.
  intros [Hst _ _ _ Hc _]. simpl in *. induction 1 as [|a snapshot p _ IH Hf Hp]; [set_solver|].
  destruct (Hc _ IH) as (sn & Hf' & _ & Hpar). rewrite Hf in Hf'. simplify_eq. set_solver.
Qed.
End snapshots.

(** ** The loop over trees *)
(** What a piece of the loop adds to the hashes; it expands nothing. *)
Definition grows (t t' : TreeReach) (P : string → Prop) : Prop :=
  (∀ h, h ∈ tr_hashes t' ↔ h ∈ tr_hashes t ∨ P h) ∧ tr_expanded t' = tr_expanded t ∧ tr_work_items t ≤ tr_work_items t' ∧
  (tr_work_items t ≤ MAX_TREE_WORK_ITEMS → tr_work_items t' ≤ MAX_TREE_WORK_ITEMS).
Lemma grows_trans t1 t2 t3 (P Q R : string → Prop) :
  grows t1 t2 P → grows t2 t3 Q → (∀ h, R h ↔ P h ∨ Q h) → grows t1 t3 R.
Proof.
  intros (Hh1 & He1 & Hw1 & Hm1) (Hh2 & He2 & Hw2 & Hm2) HR. unfold grows. split_and!; [|congruence|lia|tauto].
  intros h. rewrite Hh2, Hh1, HR. tauto.
Qed.
Lemma grows_ext t t' (P Q : string → Prop) : grows t t' P → (∀ h, P h ↔ Q h) → grows t t' Q.
Proof. intros (Hh & Hr) HP. split; [|done]. intros h. by rewrite Hh, HP. Qed.
Lemma grows_insert h t t' : tr_insert h t = Ok t' → grows t t' (λ x, x = h).
Proof. intros (Hh & He & Hw)%tr_insert_Ok. unfold grows. rewrite Hh, He, Hw. split_and!; [set_solver|done|lia|done]. Qed.
Lemma grows_fold {A} (f : TreeReach → A → Result TreeReach) (P : A → string → Prop) l t t' :
  (∀ t a t', a ∈ l → f t a = Ok t' → grows t t' (P a)) → try_fold f t l = Ok t' → grows t t' (λ h, ∃ a, a ∈ l ∧ P a h).
Proof.
  revert t. induction l as [|a l IH]; intros t Hf Hl; cbn [try_fold] in Hl.
  { apply Ok_inj in Hl as <-. unfold grows. split_and!; [|done|lia|done]. intros h. split; [by left|]. intros [?|(? & ?%elem_of_nil & _)]; done. }
  apply bind_Ok in Hl as (t1 & H1 & H2). eapply grows_trans; [eapply Hf; [by left|exact H1]|eapply IH; [|exact H2]|].
  - intros ???? . apply Hf. by right.
  - intros h. simpl. setoid_rewrite elem_of_cons. naive_solver.
Qed.

Lemma zlen_reverse {A} (l : list A) : zlen (reverse l) = zlen l.
Proof. unfold zlen. by rewrite reverse_Permutation. Qed.
Lemma dir_work_reverse p d es x : x ∈ dir_work p d (reverse es) ↔ x ∈ dir_work p d es.
Proof. unfold dir_work. rewrite !list_elem_of_omap. by setoid_rewrite elem_of_reverse. Qed.

Section trees.
Context `{Unicode} (fetch : Fetch) (reachable_chunks : string → string → option Z → Result (list string)) (expand : bool).
(** A directory, and the path it is reached by. *)
Inductive below (root : string) : string → string → Prop :=
| below_root : below root root ""
| below_dir t prefix tree e : below root t prefix → fetch t = Ok tree → e ∈ tr_entries tree → is_dir e = true →
    below root (te_hash e) (join_path prefix (te_name e)).
(** What an entry refers to. *)
Definition contents (e : TreeEntry) : list string :=
  match te_kind e with
  | Dir => []
  | File => [te_hash e]
  | Conflict b o t _ => te_hash e :: option_list b ++ option_list o ++ option_list t
  end.
Definition content_size (e : TreeEntry) (h : string) : option Z := if decide (h = te_hash e) then Some (te_size e) else None.
(** What an entry at [path] needs: its contents, and their chunks if they are expanded. *)
Definition needs (path : string) (e : TreeEntry) (h : string) : Prop :=
  ∃ c, c ∈ contents e ∧ (h = c ∨ (expand = true ∧ ∃ chunks, reachable_chunks path c (content_size e c) = Ok chunks ∧ h ∈ chunks)).
Local Notation reach_entry := (reach_entry reachable_chunks expand).
Local Notation reach_work := (reach_work fetch reachable_chunks expand).
Local Notation reach_step := (reach_step fetch reachable_chunks expand).

Lemma grows_chunks path hash size t t' :
  reach_chunks reachable_chunks expand path hash size t = Ok t' →
  grows t t' (λ h, expand = true ∧ ∃ chunks, reachable_chunks path hash size = Ok chunks ∧ h ∈ chunks).
Proof using.
  clear fetch.
  unfold reach_chunks. destruct expand.
  2: { intros <-%Ok_inj. unfold grows. split_and!; [|done|lia|done]. intros h. naive_solver. }
  intros Hc. apply bind_Ok in Hc as (chunks & Hch & Hc). apply bind_Ok in Hc as (t1 & Ht & Hc). unfold tr_charge in Ht.
  apply bind_Ok in Ht as (n & (-> & _ & Hn)%charge_Ok & Ht). apply Ok_inj in Ht as <-.
  eapply (grows_fold _ (λ c x, x = c)) in Hc; [|intros; by apply grows_insert]. destruct Hc as (Hh & He & Hw & Hm). simpl in *.
  pose proof (zlen_nonneg chunks). unfold grows. split_and!; [|done|lia|intros; by apply Hm]. intros h. rewrite Hh, Hch. naive_solver.
Qed.
Lemma conflict_legs_elem e b o t m h :
  te_kind e = Conflict b o t m → h ∈ conflict_legs e b o t ↔ h ∈ contents e.
Proof using. intros Hk. unfold conflict_legs, contents, sort_strings. by rewrite Hk, dedup_elem, sort_by_perm. Qed.
Lemma reach_entry_Ok prefix depth pending t e pending' t' :
  reach_entry prefix depth (pending, t) e = Ok (pending', t') →
  pending' = dir_work prefix depth [e] ++ pending ∧ grows t t' (needs (join_path prefix (te_name e)) e).
Proof using.
  clear fetch.
  unfold Reachability.reach_entry. intros Hr. apply bind_Ok in Hr as (? & _ & Hr). apply bind_Ok in Hr as (n & _ & Hr).
  unfold dir_work, is_dir. simpl. unfold needs, contents. destruct (te_kind e) as [| |b o th m] eqn:Hk.
  - apply bind_Ok in Hr as (t1 & Hi%grows_insert & Hr). apply bind_Ok in Hr as (t2 & Hc%grows_chunks & Hr). apply Ok_inj in Hr as [= <- <-].
    split; [done|]. eapply grows_trans; [exact Hi|exact Hc|]. intros h. unfold content_size. setoid_rewrite list_elem_of_singleton. simpl.
    split; [intros (c & -> & Hor)|]; [by rewrite decide_True in Hor by done|]. intros Hor. exists (te_hash e). by rewrite decide_True.
  - apply Ok_inj in Hr as [= <- <-]. split; [done|]. unfold grows. split_and!; [|done|simpl; lia|done]. set_solver.
  - apply bind_Ok in Hr as (t1 & Hf & Hr). apply Ok_inj in Hr as [= <- <-]. split; [done|].
    eapply (grows_fold _ (λ c h, h = c ∨ (expand = true ∧ ∃ chunks, reachable_chunks (join_path prefix (te_name e)) c (content_size e c) = Ok chunks ∧ h ∈ chunks))) in Hf.
    + destruct Hf as (Hh & Hrest). split; [|done]. intros h. rewrite Hh. setoid_rewrite (conflict_legs_elem _ _ _ _ _ _ Hk).
      unfold contents. by rewrite Hk.
    + intros t2 a t3 _ Hl. unfold reach_leg in Hl. apply bind_Ok in Hl as (t4 & Hi%grows_insert & Hc%grows_chunks).
      by eapply grows_trans.
Qed.
Lemma reach_entries_Ok prefix depth es pending t pending' t' :
  try_fold (reach_entry prefix depth) (pending, t) es = Ok (pending', t') →
  pending' = reverse (dir_work prefix depth es) ++ pending ∧
  grows t t' (λ h, ∃ e, e ∈ es ∧ needs (join_path prefix (te_name e)) e h).
Proof using.
  clear fetch.
  revert pending t. induction es as [|e es IH]; intros pending t Hl; cbn [try_fold] in Hl.
  { apply Ok_inj in Hl as [= <- <-]. split; [done|]. unfold grows. split_and!; [|done|lia|done]. intros h. split; [by left|]. intros [?|(? & ?%elem_of_nil & _)]; done. }
  apply bind_Ok in Hl as ([p1 t1] & [-> Hg]%reach_entry_Ok & [-> Hg']%IH). change (e :: es) with ([e] ++ es). unfold dir_work in *.
  rewrite !omap_app, reverse_app, <-!(assoc_L (++)). split; [f_equal; simpl; by case_match|].
  eapply grows_trans; [exact Hg|exact Hg'|]. intros h. simpl. setoid_rewrite elem_of_cons. naive_solver.
Qed.

Section run.
Context (roots : list string) (hashes0 : gset string).
Definition visiting (pending : list FlattenWork) (t p : string) : Prop := ∃ d, Enter t p d ∈ pending.
(** The objects the trees below the roots are made of. *)
Definition tree_object (h : string) : Prop :=
  ∃ root t p, root ∈ roots ∧ below root t p ∧
    (h = t ∨ ∃ tree e, fetch t = Ok tree ∧ e ∈ tr_entries tree ∧ needs (join_path p (te_name e)) e h).
Record trees_inv (st : list FlattenWork * TreeReach) : Prop := {
  ti_roots r : r ∈ roots → (r, "") ∈ tr_expanded st.2 ∨ visiting st.1 r "";
  ti_expanded t p : (t, p) ∈ tr_expanded st.2 → t ∈ tr_hashes st.2 ∧ ∃ tree, fetch t = Ok tree ∧ ∀ e, e ∈ tr_entries tree →
    (is_dir e = true → (te_hash e, join_path p (te_name e)) ∈ tr_expanded st.2 ∨ visiting st.1 (te_hash e) (join_path p (te_name e))) ∧
    ∀ h, needs (join_path p (te_name e)) e h → h ∈ tr_hashes st.2;
  ti_base : hashes0 ⊆ tr_hashes st.2;
  ti_sound h : h ∈ tr_hashes st.2 → h ∈ hashes0 ∨ tree_object h;
  ti_pending t p d : Enter t p d ∈ st.1 → ∃ root, root ∈ roots ∧ below root t p;
  ti_work : 0 ≤ tr_work_items st.2 ≤ MAX_TREE_WORK_ITEMS;
}.
Lemma trees_initial n :
  0 ≤ n ≤ MAX_TREE_WORK_ITEMS → trees_inv ((λ root, Enter root "" 0) <$> roots, mkTreeReach hashes0 ∅ ∅ ∅ n 0).
Proof using.
  intros Hn. constructor; simpl; [|set_solver|done|by left| |done].
  - intros r Hr. right. exists 0. apply list_elem_of_fmap. eauto.
  - intros t p d (r & [= -> -> ->] & Hr)%list_elem_of_fmap. exists r. split; [done|constructor].
Qed.
(** An iteration: nothing to expand, or one tree expanded. *)
Lemma reach_work_Ok w pending t pending' t' :
  reach_work w pending t = Ok (pending', t') →
  (pending' = pending ∧ tr_hashes t' = tr_hashes t ∧ tr_expanded t' = tr_expanded t ∧ tr_work_items t' = tr_work_items t ∧
   ∀ id p d, w = Enter id p d → (id, p) ∈ tr_expanded t) ∨
  (∃ id p d tree t1, w = Enter id p d ∧ fetch id = Ok tree ∧ (∀ x, x ∈ pending' ↔ x ∈ dir_work p d (tr_entries tree) ∨ x = Exit id ∨ x ∈ pending) ∧
     zlen pending' ≤ zlen (tr_entries tree) + 1 + zlen pending ∧
     tr_hashes t1 = {[id]} ∪ tr_hashes t ∧ tr_expanded t1 = {[(id, p)]} ∪ tr_expanded t ∧
     tr_work_items t1 = tr_work_items t + saturating_add (zlen (tr_entries tree)) 1 ∧ tr_work_items t1 ≤ MAX_TREE_WORK_ITEMS ∧
     grows t1 t' (λ h, ∃ e, e ∈ tr_entries tree ∧ needs (join_path p (te_name e)) e h)).
Proof using.
  unfold Reachability.reach_work. destruct w as [id p d|id]; intros Hw.
  2: { apply Ok_inj in Hw as [= <- <-]. by left. }
  apply bind_Ok in Hw as (? & _ & Hw). case_bool_decide as Hin.
  { apply Ok_inj in Hw as [= <- <-]. left. split_and!; try done. by intros ??? [= <- <- <-]. }
  apply bind_Ok in Hw as (? & _ & Hw). apply bind_Ok in Hw as (t1 & (Hh1 & He1 & Hw1)%tr_insert_Ok & Hw).
  apply bind_Ok in Hw as (tree & Hf & Hw). apply bind_Ok in Hw as (t2 & Ht2 & Hw). unfold tr_charge in Ht2.
  apply bind_Ok in Ht2 as (n & (-> & _ & Hn)%charge_Ok & Ht2). apply Ok_inj in Ht2 as <-.
  apply reach_entries_Ok in Hw as [-> Hg]. right. exists id, p, d, tree. eexists.
  split_and!; [done|done|..|eapply grows_ext; [exact Hg|intros h; by setoid_rewrite elem_of_reverse]]; simpl in *; try congruence.
  - intros x'. rewrite elem_of_app, elem_of_reverse, elem_of_cons. by setoid_rewrite dir_work_reverse.
  - rewrite zlen_app, zlen_cons. pose proof (dir_work_length p d (reverse (tr_entries tree))) as Hl.
    rewrite zlen_reverse in *. rewrite zlen_reverse in Hl. lia.
Qed.
Lemma reach_step_More st st' :
  reach_step st = More st' → ∃ w pending, st.1 = w :: pending ∧ reach_work w pending st.2 = Ok st'.
Proof using.
  destruct st as [[|w pending] t]; unfold Reachability.reach_step; simpl; [done|].
  destruct (reach_work w pending t) eqn:E; [|done]. intros [= ->]. eauto.
Qed.
Lemma trees_expand id p d tree pending t t1 pending' t' :
  trees_inv (Enter id p d :: pending, t) → fetch id = Ok tree →
  (∀ x, x ∈ pending' ↔ x ∈ dir_work p d (tr_entries tree) ∨ x = Exit id ∨ x ∈ pending) →
  tr_hashes t1 = {[id]} ∪ tr_hashes t → tr_expanded t1 = {[(id, p)]} ∪ tr_expanded t → 0 ≤ tr_work_items t1 ≤ MAX_TREE_WORK_ITEMS →
  grows t1 t' (λ h, ∃ e, e ∈ tr_entries tree ∧ needs (join_path p (te_name e)) e h) → trees_inv (pending', t').
Proof using.
  intros [Hr He Hb Hs Hp _] Hf Hin Hh1 He1 Hw1 (Hh & Hx & Hw & Hm). simpl in *.
  assert (∀ t0 p0, (t0, p0) ∈ tr_expanded t ∨ visiting (Enter id p d :: pending) t0 p0 → (t0, p0) ∈ tr_expanded t' ∨ visiting pending' t0 p0) as Hkeep.
  { intros t0 p0 [Hold|[d0 [[= -> -> ->]|Hd0]%elem_of_cons]]; [left; rewrite Hx, He1; set_solver|left; rewrite Hx, He1; set_solver|].
    right. exists d0. apply Hin. auto. }
  destruct (Hp id p d) as (root & Hroot & Hbelow); [by left|]. constructor; simpl.
  - intros r Hr0. by apply Hkeep, Hr.
  - intros t0 p0. rewrite Hx, He1. intros [[= -> ->]%elem_of_singleton|Hold]%elem_of_union.
    + split; [apply Hh; left; rewrite Hh1; set_solver|]. exists tree. split; [done|]. intros e Hine. split.
      * intros Hd. right. exists (d + 1). apply Hin. left. apply dir_work_elem. eauto 10.
      * intros h Hn. apply Hh. right. eauto.
    + destruct (He _ _ Hold) as (Ht0 & tree0 & Hf0 & Hall). split; [apply Hh; left; rewrite Hh1; set_solver|]. exists tree0.
      split; [done|]. intros e Hine. destruct (Hall e Hine) as [Hd Hn]. split.
      * intros Hdir. rewrite <-He1, <-Hx. by apply Hkeep, Hd.
      * intros h Hneed. apply Hh. left. rewrite Hh1. apply elem_of_union_r. by apply Hn.
  - etrans; [exact Hb|]. intros h Hh0. apply Hh. left. rewrite Hh1. set_solver.
  - intros h [Hold|(e & Hine & Hn)]%Hh; [rewrite Hh1 in Hold; apply elem_of_union in Hold as [->%elem_of_singleton|Hold]; [|by apply Hs]|].
    + right. exists root, id, p. auto.
    + right. exists root, id, p. split_and!; [done|done|]. right. by exists tree, e.
  - intros t0 p0 d0 [(e & Hine & Hd & -> & -> & ->)%dir_work_elem|[?|Hold]]%Hin; [|done|eapply Hp; by right].
    exists root. split; [done|by econstructor].
  - lia.
Qed.
Lemma trees_step st st' : trees_inv st → reach_step st = More st' → trees_inv st'.
Proof using.
  intros HI (w & pending & Hp & Hw)%reach_step_More. destruct st as [ps t], st' as [ps' t']. simpl in *. subst ps.
  apply reach_work_Ok in Hw as [(-> & Hh & He & Hw & Hskip)|(id & p & d & tree & t1 & -> & Hf & Hin & _ & Hh1 & He1 & Hw1 & Hm1 & Hg)].
  - destruct HI as [Hr Hex Hb Hs Hpe Hwk]. simpl in *. constructor; simpl; rewrite ?Hh, ?He, ?Hw; [| |done|done| |done].
    + intros r Hr0. destruct (Hr r Hr0) as [?|[d [<-|?]%elem_of_cons]]; [by left|left; by eapply Hskip|right; by exists d].
    + intros t0 p0 Hin. destruct (Hex _ _ Hin) as (? & tree & Hf & Hall). split; [done|]. exists tree. split; [done|]. intros e Hine.
      destruct (Hall e Hine) as [Hd ?]. split; [|done]. intros Hdir.
      destruct (Hd Hdir) as [?|[d [<-|?]%elem_of_cons]]; [by left|left; by eapply Hskip|right; by exists d].
    + intros t0 p0 d0 Hin. eapply Hpe. by right.
  - pose proof (ti_work _ HI) as Hwk. simpl in Hwk. eapply trees_expand; [exact HI|exact Hf|exact Hin|exact Hh1|exact He1| |exact Hg].
    pose proof (zlen_nonneg (tr_entries tree)). rewrite Hw1 in *. rewrite (charge_pays (tr_work_items t)) in * by lia. lia.
Qed.
Lemma trees_end n :
  0 ≤ n ≤ MAX_TREE_WORK_ITEMS → zlen roots ≤ MAX_TREE_WORK_ITEMS →
  ∃ r, iterate 23 reach_step ((λ root, Enter root "" 0) <$> roots, mkTreeReach hashes0 ∅ ∅ ∅ n 0) = Done r.
Proof using.
  intros Hn Hroots. apply (iterate_done _ trees_inv) with (m := λ st, 2 * (MAX_TREE_WORK_ITEMS - tr_work_items st.2) + zlen st.1).
  - intros s s' HI Hs. by eapply trees_step.
  - intros [ps t] [ps' t'] HI (w & pending & Hp & Hw)%reach_step_More. pose proof (ti_work _ HI) as Hwk. simpl in *. subst ps. rewrite zlen_cons.
    apply reach_work_Ok in Hw as [(-> & _ & _ & Hw & _)|(id & p & d & tree & t1 & _ & _ & _ & Hl & _ & _ & Hw1 & Hm1 & (_ & _ & Hw & _))]; [lia|].
    pose proof (zlen_nonneg (tr_entries tree)). rewrite Hw1 in *. rewrite (charge_pays (tr_work_items t)) in * by lia. lia.
  - intros [ps t] HI. pose proof (ti_work _ HI). simpl in *. pose proof (zlen_nonneg ps). lia.
  - by apply trees_initial.
  - simpl. assert (zlen ((λ root, Enter root "" 0) <$> roots) = zlen roots) as -> by (unfold zlen; by rewrite length_fmap).
    unfold MAX_TREE_WORK_ITEMS, MANIFEST_MAX_ENTRIES in *. lia.
Qed.
Lemma trees_final t :
  trees_inv ([], t) → ∀ h, h ∈ tr_hashes t ↔ h ∈ hashes0 ∨ tree_object h.
Proof using.
  intros HI h. split; [apply (ti_sound _ HI)|]. intros [Hh|(root & t0 & p & Hroot & Hb & Hor)]; [by apply (ti_base _ HI)|].
  assert ((t0, p) ∈ tr_expanded t) as Hexp.
  { clear Hor. induction Hb as [|t1 p1 tree e Hb IH Hf Hin Hd].
    - destruct (ti_roots _ HI _ Hroot) as [?|[? ?%elem_of_nil]]; done.
    - destruct (ti_expanded _ HI _ _ IH) as (_ & tree' & Hf' & Hall). rewrite Hf in Hf'. simplify_eq.
      destruct (Hall e Hin) as [Hdir _]. destruct (Hdir Hd) as [?|[? ?%elem_of_nil]]; done. }
  destruct (ti_expanded _ HI _ _ Hexp) as (Ht & tree & Hf & Hall). destruct Hor as [->|(tree' & e & Hf' & Hin & Hn)]; [done|].
  rewrite Hf in Hf'. simplify_eq. by eapply Hall.
Qed.
End run.
End trees.

(** ** The result *)
Section result.
Context `{Unicode} (fetch_snapshot : string → Result Snapshot) (fetch : Fetch).
Context (reachable_chunks : string → string → option Z → Result (list string)) (expand : bool).
Local Notation ancestor := (ancestor fetch_snapshot).
Local Notation below := (below fetch).
Local Notation needs := (needs reachable_chunks expand).
Inductive needed (id : string) : string → Prop :=
| needed_snapshot s : ancestor id s → needed id s
| needed_tree s snapshot t prefix : ancestor id s → fetch_snapshot s = Ok snapshot → below (sn_root snapshot) t prefix → needed id t
| needed_content s snapshot t prefix tree e h : ancestor id s → fetch_snapshot s = Ok snapshot →
    below (sn_root snapshot) t prefix → fetch t = Ok tree → e ∈ tr_entries tree → needs (join_path prefix (te_name e)) e h → needed id h.


Lemma reachability_Ok id hashes :
  snapshot_reachability fetch_snapshot fetch reachable_chunks expand id = Ok hashes →
  ∃ s t, snapshots_inv fetch_snapshot id ([], s) ∧ hashes = sort_strings (elements (tr_hashes t)) ∧
    ∀ h, h ∈ tr_hashes t ↔ h ∈ sr_snapshot_ids s ∨ tree_object fetch reachable_chunks expand (sr_tree_roots s) h.
Proof using.
  unfold snapshot_reachability. intros Hr. apply bind_Ok in Hr as (s & HI%reach_snapshots_Ok & Hr).
  destruct (iterate 23 _ _) as [|[t|]] eqn:Hit; [done| |done]. apply Ok_inj in Hr as <-. exists s, t. split_and!; [done|done|].
  pose proof (si_hashes _ _ _ HI) as Hsh. simpl in Hsh. rewrite <-Hsh. apply (trees_final _ _ _ (sr_tree_roots s)).
  eapply (iterate_inv _ (trees_inv fetch reachable_chunks expand (sr_tree_roots s) (sr_hashes s))) with
    (Q := λ r, ∀ t, r = Ok t → trees_inv fetch reachable_chunks expand (sr_tree_roots s) (sr_hashes s) ([], t)) in Hit;
    [by apply Hit|apply trees_step| |apply trees_initial; pose proof (si_work _ _ _ HI); simpl in *; lia].
  intros [[|w pending] t1] r HI'; unfold reach_step; simpl; [|by destruct (reach_work _ _ _ _ _ _); intros [= <-]]. by intros [= <-] ? [= <-].
Qed.
(** Both loops of [snapshot_reachability] end, on every store. *)
Theorem reachability_ends id :
  (∃ r, iterate 22 (snapshot_step fetch_snapshot) ([id], mkSnapshotReach ∅ ∅ [] 0) = Done r) ∧
  ∀ s, reach_snapshots fetch_snapshot id = Ok s →
    ∃ r, iterate 23 (reach_step fetch reachable_chunks expand)
           ((λ root, Enter root "" 0) <$> sr_tree_roots s, mkTreeReach (sr_hashes s) ∅ ∅ ∅ (sr_work_items s) 0) = Done r.
Proof using.
  split; [apply snapshots_end|]. intros s HI%reach_snapshots_Ok. pose proof (si_work _ _ _ HI) as [Hw Hr]. simpl in *.
  apply trees_end; lia.
Qed.
(** C27. The manifest of a snapshot is exact: when [snapshot_reachability] succeeds its list is
    sorted and without duplicates, and an id is in it if and only if it is an ancestor of the
    snapshot or the snapshot itself, a tree below one of their roots, the content of a file or of a
    leg of a conflict in such a tree, or (when chunks are expanded) a chunk of such a content. *)
Theorem manifest_exact id hashes :
  snapshot_reachability fetch_snapshot fetch reachable_chunks expand id = Ok hashes →
  StronglySorted str_lt hashes ∧ ∀ h, h ∈ hashes ↔ needed id h.
Proof using.
  intros (s & t & HI & -> & Hh)%reachability_Ok. split.
  - apply (sort_by_lt (λ x : string, x)). rewrite list_fmap_id. apply NoDup_elements.
  - intros h. unfold sort_strings. rewrite sort_by_perm, elem_of_elements, Hh. split.
    + intros [Hs|(root & t0 & p & (s0 & sn & Ha & Hf & ->)%(si_roots _ _ _ HI) & Hb & [->|(tree & e & Hft & Hin & Hn)])].
      * apply needed_snapshot, (si_sound _ _ _ HI). by left.
      * by eapply needed_tree.
      * by eapply needed_content.
    + intros [s0 Ha|s0 sn t0 p Ha Hf Hb|s0 sn t0 p tree e h' Ha Hf Hb Hft Hin Hn].
      * left. by eapply ancestors_visited.
      * right. exists (sn_root sn), t0, p. split_and!; [|done|by left].
        pose proof (ancestors_visited _ _ _ _ HI Ha) as (sn' & Hf' & Hr & _)%(si_closed _ _ _ HI). rewrite Hf in Hf'. by simplify_eq.
      * right. exists (sn_root sn), t0, p. split_and!; [|done|right; by exists tree, e].
        pose proof (ancestors_visited _ _ _ _ HI Ha) as (sn' & Hf' & Hr & _)%(si_closed _ _ _ HI). rewrite Hf in Hf'. by simplify_eq.
Qed.
End result.
