(* ===== verification/ObjectStore.v ===== *)
(** * The encrypted object store

    agent-core/src/objects.rs, upload_registry.rs and object_gc.rs: canonical objects are sealed and
    named by the hash of the ciphertext; they are kept in a local cache and uploaded to the hub
    unless the registry knows the hub has them.  A manifest lists what a snapshot needs, for the hub
    and for the pruning of the cache.  A failed operation returns its error only. *)
From Stdlib Require Import ZArith Lia Ascii Strings.Byte.
From stdpp Require Import sorting numbers strings gmap list_numbers list options.
From S2P Require Import Prelude Text Paths Model Codec CodecProps Lookup Convert Flatten Prepared Reachability TreeState.

Local Open Scope Z_scope.

Definition MAX_ENCRYPTED_OBJECT_BYTES : Z := MAX_CANONICAL_OBJECT_BYTES + 29.
Definition KEEP_LAST : nat := 50.
Definition PRUNE_INTERVAL : Z := 60000.

(** A file of the directory manifests. *)
Record LocalManifest := mkLocalManifest { lm_modified : Z; lm_id : string; lm_hashes : list string }.
Record Objects := mkObjects {
  ob_cache : gmap string (list byte);          (* the directory objects *)
  ob_known : gset string;                      (* the upload registry *)
  ob_manifests : list LocalManifest;
  ob_last_prune : option Z;
  ob_hub : gmap string (list byte);            (* the blobs of the hub *)
  ob_hub_manifests : gmap string (list string);
  ob_written : list (list byte);               (* every body sealed, newest first *)
}.
Definition with_cache (c : gmap string (list byte)) (o : Objects) : Objects :=
  mkObjects c (ob_known o) (ob_manifests o) (ob_last_prune o) (ob_hub o) (ob_hub_manifests o) (ob_written o).
Definition with_known (k : gset string) (o : Objects) : Objects :=
  mkObjects (ob_cache o) k (ob_manifests o) (ob_last_prune o) (ob_hub o) (ob_hub_manifests o) (ob_written o).
Definition with_manifests (m : list LocalManifest) (o : Objects) : Objects :=
  mkObjects (ob_cache o) (ob_known o) m (ob_last_prune o) (ob_hub o) (ob_hub_manifests o) (ob_written o).
Definition with_hub (h : gmap string (list byte)) (o : Objects) : Objects :=
  mkObjects (ob_cache o) (ob_known o) (ob_manifests o) (ob_last_prune o) h (ob_hub_manifests o) (ob_written o).

Definition log_written (b : list byte) (o : Objects) : Objects :=
  mkObjects (ob_cache o) (ob_known o) (ob_manifests o) (ob_last_prune o) (ob_hub o) (ob_hub_manifests o) (b :: ob_written o).

(** State and error. *)
Definition Store (A : Type) : Type := Objects → Result (A * Objects).
#[global] Instance store_ret : MRet Store := λ A a o, Ok (a, o).
#[global] Instance store_bind : MBind Store := λ A B f m o, match m o with Ok (a, o) => f a o | Err e => Err e end.
Definition check {A} (r : Result A) : Store A := λ o, a ← r; Ok (a, o).
Definition change (f : Objects → Objects) : Store unit := λ o, Ok (tt, f o).
Definition state : Store Objects := λ o, Ok (o, o).
Fixpoint for_each {A} (f : A → Store unit) (l : list A) : Store unit :=
  match l with [] => mret tt | a :: l => _ ← f a; for_each f l end.

Inductive ObjectReadSource := CacheOrHub | CacheOnly.

Section objects.
Context `{Unicode, Blake3, HashOrder}.
(** [pack_bytes] and [unpack_bytes_with_policy] with the password and the domain of objects. *)
Context (pack unpack : list byte → Result (list byte)).
(** Whether a request about an object reaches the hub. *)
Context (net : string → Result unit).

(** ** upload_registry.rs *)
Definition remember (hash : string) : Store unit := change (λ o,
  if is_valid_hash hash && ((Z.of_nat (size (ob_known o)) <? MANIFEST_MAX_ENTRIES) || bool_decide (hash ∈ ob_known o))
  then with_known ({[hash]} ∪ ob_known o) o else o).
(** Too many hashes are an error, which [publish_manifest] ignores. *)
Definition record_many (hashes : list string) : Store unit := change (λ o,
  if zlen hashes <=? MANIFEST_MAX_ENTRIES then with_known (list_to_set (List.filter is_valid_hash hashes)) o else o).

(** ** Reading *)
(** A cached file that is too long or does not have its hash is removed. *)
Definition cached_object (id : string) (max_bytes : Z) : Store (option (list byte)) := λ o,
  match ob_cache o !! id with
  | None => Ok (None, o)
  | Some bytes => if (max_bytes <? zlen bytes) || negb (bool_decide (hash_bytes bytes = id)) then Ok (None, with_cache (delete id (ob_cache o)) o)
                  else Ok (Some bytes, o)
  end.
Definition cache (id : string) (ciphertext : list byte) : Store unit := change (λ o, with_cache (<[id := ciphertext]> (ob_cache o)) o).
Definition fetch_remote (id : string) : Store (list byte) :=
  _ ← check (net id);
  o ← state;
  ciphertext ← check (or_context (ob_hub o !! id) "object is not on the hub");
  _ ← check (bail_if (MAX_ENCRYPTED_OBJECT_BYTES <? zlen ciphertext) "downloaded object exceeds ciphertext size limit");
  _ ← check (bail_if (negb (bool_decide (hash_bytes ciphertext = id))) "downloaded object hash mismatch");
  _ ← cache id ciphertext;
  mret ciphertext.
Definition get_bytes_from (source : ObjectReadSource) (id : string) : Store (list byte) :=
  _ ← check (bail_if (negb (is_valid_hash id)) "invalid object id");
  cached ← cached_object id MAX_ENCRYPTED_OBJECT_BYTES;
  ciphertext ← match cached, source with
               | Some bytes, _ => mret bytes
               | None, CacheOrHub => fetch_remote id
               | None, CacheOnly => check (Err "object is unavailable in the local cache")
               end;
  check (unpack ciphertext).
(** What a read returns; the traversals read many objects of one store. *)
Definition read_bytes (o : Objects) (source : ObjectReadSource) (id : string) : Result (list byte) := fst <$> get_bytes_from source id o.
Definition read_tree (o : Objects) (source : ObjectReadSource) (id : string) : Result Tree := read_bytes o source id ≫= decode_tree.
Definition read_snapshot (o : Objects) (source : ObjectReadSource) (id : string) : Result Snapshot := read_bytes o source id ≫= decode_snapshot.
Definition load_snapshot (o : Objects) (id : string) : Result Snapshot := read_snapshot o CacheOrHub id.
Definition load_state (o : Objects) (id : string) : Result LoadedTree :=
  s ← load_snapshot o id; get_tree_state (read_tree o CacheOrHub) (sn_root s).
Definition load_files (o : Objects) (id : string) : Result (gmap string FileState) :=
  s ← load_snapshot o id; get_flat_tree (read_tree o CacheOrHub) (sn_root s).
Definition load_files_local (o : Objects) (id : string) : Result (gmap string FileState) :=
  s ← read_snapshot o CacheOnly id; get_flat_tree (read_tree o CacheOnly) (sn_root s).

(** ** Writing *)
(** The hub stores a blob under its hash. *)
Definition upload_object (id : string) (ciphertext : list byte) : Store unit :=
  _ ← check (net id); change (λ o, with_hub (<[id := ciphertext]> (ob_hub o)) o).
Definition put_bytes (bytes : list byte) : Store string :=
  _ ← check (bail_if (MAX_CANONICAL_OBJECT_BYTES <? zlen bytes) "canonical object exceeds 16 MiB limit");
  ciphertext ← check (pack bytes);
  let id := hash_bytes ciphertext in
  _ ← change (log_written bytes);
  _ ← cache id ciphertext;
  o ← state;
  _ ← if bool_decide (id ∈ ob_known o) then mret tt else (_ ← upload_object id ciphertext; remember id);
  mret id.
Definition put_tree (tree : Tree) : Store string := _ ← check (validate_tree tree); put_bytes (encode_tree tree).
Definition put_bundle (bundle : TreeBundle) : Store string :=
  prepared ← check (PreparedTreeBundle_new pack bundle);
  _ ← for_each (λ kt, _ ← put_tree kt.2; mret tt) (hash_iter (pb_trees prepared));
  mret (pb_root prepared).
Definition put_snapshot (s : Snapshot) : Store string := _ ← check (validate_snapshot s); put_bytes (encode_snapshot s).

(** ** Manifests *)
(** [None]: the hub rejects a manifest that names a blob it does not have. *)
Definition upload_manifest (id : string) (hashes : list string) : Store (option unit) :=
  _ ← check (net id);
  o ← state;
  if forallb (has_key (ob_hub o)) hashes then
    _ ← change (λ o, mkObjects (ob_cache o) (ob_known o) (ob_manifests o) (ob_last_prune o) (ob_hub o) (<[id := hashes]> (ob_hub_manifests o)) (ob_written o));
    mret (Some tt)
  else mret None.
Definition reupload (hash : string) : Store unit :=
  cached ← cached_object hash MAX_ENCRYPTED_OBJECT_BYTES;
  match cached with Some ciphertext => upload_object hash ciphertext | None => mret tt end.
Definition publish_manifest (id : string) (hashes : list string) : Store unit :=
  first ← upload_manifest id hashes;
  _ ← match first with
      | Some _ => mret tt
      | None =>
          _ ← change (with_known ∅);
          _ ← for_each reupload hashes;
          second ← upload_manifest id hashes;
          check (or_context second "manifest references a missing blob")
      end;
  record_many hashes.

(** ** object_gc.rs *)
(** [sort_by_key(Reverse(modified))], stable. *)
Fixpoint insert_modified (x : LocalManifest) (l : list LocalManifest) : list LocalManifest :=
  match l with
  | [] => [x]
  | y :: l' => if lm_modified y <=? lm_modified x then x :: y :: l' else y :: insert_modified x l'
  end.
Definition newest_first (l : list LocalManifest) : list LocalManifest := foldr insert_modified [] l.
(** Which manifests stay: the last ones, recent ones and those of a ref. *)
Definition keeps_manifest (now retention : Z) (refs : gset string) (im : nat * LocalManifest) : bool :=
  (im.1 <? KEEP_LAST)%nat || ((0 <=? now - lm_modified im.2) && (now - lm_modified im.2 <=? retention))
  || bool_decide (lm_id im.2 ∈ refs).
(** [prune]; [refs] are the valid ids of the refs, [now] and [retention] in milliseconds. *)
Definition prune (now retention : Z) (refs : gset string) (o : Objects) : Objects :=
  if (match ob_last_prune o with Some previous => now - previous <? PRUNE_INTERVAL | None => false end) then o else
  let o := mkObjects (ob_cache o) (ob_known o) (ob_manifests o) (Some now) (ob_hub o) (ob_hub_manifests o) (ob_written o) in
  let manifests := newest_first (List.filter (λ m, is_valid_hash (lm_id m)) (ob_manifests o)) in
  if negb (bool_decide (refs ⊆ list_to_set (lm_id <$> manifests))) then o else
  let kept := List.filter (keeps_manifest now retention refs) (zip (seq 0 (length manifests)) manifests) in
  let live := list_to_set (List.filter is_valid_hash (kept.*2 ≫= lm_hashes)) : gset string in
  with_cache (filter (λ kv, negb (is_valid_hash kv.1 && negb (bool_decide (kv.1 ∈ live))) = true) (ob_cache o))
    (with_manifests (List.filter (λ m, negb (is_valid_hash (lm_id m))) (ob_manifests o) ++ kept.*2) o).
Definition cache_manifest (now retention : Z) (refs : gset string) (id : string) (hashes : list string) : Store unit :=
  canonical ← check (canonical_manifest_hash_list id hashes);
  _ ← change (λ o, with_manifests (List.filter (λ m, negb (String.eqb (lm_id m) id)) (ob_manifests o) ++ [mkLocalManifest now id canonical]) o);
  change (prune now retention refs).

(** ** Writing a snapshot *)
Context (reachable_chunks : Objects → string → string → option Z → Result (list string)) (retention : Z).
Record SnapshotInput := mkSnapshotInput {
  si_files : gmap string FileState; si_input_conflicts : list ConcurrentEdit; si_parents : list string;
  si_author : string; si_message : option string }.
Definition write_inner (upload_manifest : bool) (now : Z) (refs : gset string) (input : SnapshotInput) : Store string :=
  bundle ← check (flat_to_tree_with_conflicts (si_files input) (si_input_conflicts input));
  root ← put_bundle bundle;
  id ← put_snapshot (mkSnapshot root (si_parents input) (si_author input) now (si_message input));
  o ← state;
  hashes ← check (snapshot_reachability (load_snapshot o) (read_tree o CacheOrHub) (reachable_chunks o) upload_manifest id);
  _ ← if upload_manifest then publish_manifest id hashes else mret tt;
  _ ← cache_manifest now retention refs id hashes;
  mret id.
End objects.
