(* ===== verification/ObjectStoreProps.v ===== *)
(** * The object store refines a directory of contents

    A directory maps ids to the bytes they stand for.  As long as no two objects of a run share an
    id, whatever the cache, the registry and the hub go through, a read that succeeds returns what
    the directory says, and a traversal that succeeds returns what it would return over the
    directory. *)
From Stdlib Require Import ZArith Lia Ascii Strings.Byte.
From stdpp Require Import sorting numbers strings gmap list_numbers list options.
From S2P Require Import Prelude Text Paths Model Codec CodecProps Lookup Convert ConvertProps Flatten FlattenProps.
From S2P Require Import Prepared PreparedProps Reachability TreeState TreeStateProps SnapshotDiff ObjectStore.

Local Open Scope Z_scope.

Lemma store_bind_Ok {A B} (f : A → Store B) (m : Store A) o b o' :
  (m ≫= f) o = Ok (b, o') ↔ ∃ a o1, m o = Ok (a, o1) ∧ f a o1 = Ok (b, o').
Proof.
  unfold mbind, store_bind. destruct (m o) as [[a o1]|] eqn:E; split; [by eauto| |done|by intros (? & ? & ? & _)].
  intros (a' & o1' & [= <- <-] & Hf). done.
Qed.
Lemma check_Ok {A} (r : Result A) o a o' : check r o = Ok (a, o') ↔ r = Ok a ∧ o' = o.
Proof. unfold check. destruct r; simpl; split; [by intros [= -> ->]|by intros [[= ->] ->]|done|by intros []]. Qed.
Lemma change_Ok f o u o' : change f o = Ok (u, o') ↔ o' = f o.
Proof. unfold change. destruct u. split; [by intros [= <-]|by intros ->]. Qed.

(** ** The directory *)
Abbreviation Directory := (gmap string (list byte)).

Section props.
Context `{Unicode, Blake3, HashOrder} (pack unpack : list byte → Result (list byte)) (net : string → Result unit).
(** Decryption undoes encryption. *)
Context (unpack_pack : ∀ b c, pack b = Ok c → unpack c = Ok b).
Context (D : Directory).

(** The ciphertexts under an id that pass the check of the hash. *)
Definition authentic (o : Objects) (id : string) (c : list byte) : Prop :=
  (ob_cache o !! id = Some c ∨ ob_hub o !! id = Some c) ∧ hash_bytes c = id.
Definition store_ok (o : Objects) : Prop := ∀ id c, authentic o id c → ∀ b, unpack c = Ok b → D !! id = Some b.
(** The directory has what was written. *)
Definition agrees (o : Objects) : Prop := ∀ b c, b ∈ ob_written o → pack b = Ok c → D !! hash_bytes c = Some b.

(** An operation: it keeps the store, if the directory has what it writes; the log only grows. *)
Definition keeps {A} (m : Store A) : Prop :=
  ∀ o a o', m o = Ok (a, o') → ob_written o ⊆ ob_written o' ∧ (store_ok o → agrees o' → store_ok o').
Lemma agrees_mono o o' : ob_written o ⊆ ob_written o' → agrees o' → agrees o.
Proof using. intros Hs Ha b c Hb. by apply Ha, Hs. Qed.
Lemma store_keeps_ret {A} (a : A) : keeps (mret a).
Proof using. intros o a' o' [= <- <-]. done. Qed.
Lemma store_keeps_bind {A B} (m : Store A) (f : A → Store B) : keeps m → (∀ a, keeps (f a)) → keeps (m ≫= f).
Proof using.
  intros Hm Hf o b o' (a & o1 & E1 & E2)%store_bind_Ok. destruct (Hm _ _ _ E1) as [Hs1 Hk1], (Hf _ _ _ _ E2) as [Hs2 Hk2].
  split; [by etrans|]. intros Hok Ha. apply Hk2; [|done]. apply Hk1; [done|]. by eapply agrees_mono.
Qed.
Lemma keeps_check {A} (r : Result A) : keeps (check r).
Proof using. intros o a o' [_ ->]%check_Ok. done. Qed.
Lemma keeps_state : keeps state.
Proof using. intros o a o' [= <- <-]. done. Qed.
(** A change that adds no ciphertext. *)
Lemma keeps_change f :
  (∀ o, ob_written (f o) = ob_written o) → (∀ o id c, authentic (f o) id c → authentic o id c) → keeps (change f).
Proof using.
  intros Hw Ha o a o' ->%change_Ok. rewrite Hw. split; [done|]. intros Hok _ id c Hc. by apply Hok, Ha.
Qed.
Lemma keeps_for_each {A} (f : A → Store unit) l : (∀ a, keeps (f a)) → keeps (for_each f l).
Proof using. intros Hf. induction l as [|a l IH]; [apply store_keeps_ret|]. simpl. apply store_keeps_bind; [apply Hf|done]. Qed.
Hint Resolve store_keeps_ret keeps_check keeps_state store_keeps_bind keeps_for_each : store.
Lemma keeps_remember h : keeps (remember h).
Proof using. apply keeps_change; intros o; by case_match. Qed.
Lemma keeps_record l : keeps (record_many l).
Proof using. apply keeps_change; intros o; by case_match. Qed.
Lemma keeps_cached id n : keeps (cached_object id n).
Proof using.
  intros o a o'. unfold cached_object. destruct (ob_cache o !! id) as [b|]; [|by intros [= _ <-]].
  case_match; intros [= _ <-]; [|done]. split; [done|]. intros Hok _ id' c [[Hc|Hc] Hh]; [|apply Hok; split; auto].
  apply Hok. split; [left|done]. simpl in Hc. by apply lookup_delete_Some in Hc as [_ ?].
Qed.
Hint Resolve keeps_remember keeps_record keeps_cached : store.
Lemma fetch_remote_Ok id o c o' :
  fetch_remote net id o = Ok (c, o') → authentic o id c ∧ o' = with_cache (<[id := c]> (ob_cache o)) o.
Proof using.
  unfold fetch_remote. intros (? & o1 & [_ ->]%check_Ok & Hf)%store_bind_Ok.
  apply store_bind_Ok in Hf as (o2 & o3 & [= <- <-] & Hf). apply store_bind_Ok in Hf as (c' & o4 & [Hh%or_context_Ok ->]%check_Ok & Hf).
  apply store_bind_Ok in Hf as (? & o5 & [_ ->]%check_Ok & Hf). apply store_bind_Ok in Hf as (? & o6 & [Hb%bail_if_Ok ->]%check_Ok & Hf).
  apply store_bind_Ok in Hf as (? & o7 & ->%change_Ok & [= <- <-]). apply negb_false_iff, bool_decide_eq_true in Hb. split; [|done]. split; [by right|done].
Qed.
Lemma keeps_fetch id : keeps (fetch_remote net id).
Proof using.
  intros o c o' [Ha ->]%fetch_remote_Ok. split; [done|]. intros Hok _ id' c' [Hor Hh]. simpl in Hor.
  destruct (decide (id' = id)) as [->|Hne]; [|rewrite lookup_insert_ne in Hor by done; by apply Hok].
  rewrite lookup_insert_eq in Hor. destruct Hor as [[= ->]|Hhub]; [by apply Hok|apply Hok; split; [by right|done]].
Qed.
Lemma keeps_get source id : keeps (get_bytes_from unpack net source id).
Proof using.
  unfold get_bytes_from. apply store_keeps_bind; [auto with store|]. intros _. apply store_keeps_bind; [auto with store|]. intros cached.
  apply store_keeps_bind; [|auto with store]. destruct cached, source; auto using keeps_fetch with store.
Qed.
(** Sealing and storing a body under its id. *)
Lemma put_bytes_Ok bytes o id o' :
  put_bytes pack net bytes o = Ok (id, o') →
  ∃ c, pack bytes = Ok c ∧ id = hash_bytes c ∧ ob_written o' = bytes :: ob_written o ∧ ob_cache o' = <[id := c]> (ob_cache o) ∧
    (ob_hub o' = ob_hub o ∨ ob_hub o' = <[id := c]> (ob_hub o)) ∧ zlen bytes ≤ MAX_CANONICAL_OBJECT_BYTES.
Proof using.
  unfold put_bytes. intros (? & o1 & [Hb%bail_if_Ok ->]%check_Ok & Hf)%store_bind_Ok.
  apply store_bind_Ok in Hf as (c & o2 & [Hc ->]%check_Ok & Hf). apply store_bind_Ok in Hf as (? & o3 & ->%change_Ok & Hf).
  apply store_bind_Ok in Hf as (? & o4 & ->%change_Ok & Hf). apply store_bind_Ok in Hf as (o5 & o6 & [= <- <-] & Hf).
  apply store_bind_Ok in Hf as (? & o7 & Hup & [= <- <-]). exists c. apply Z.ltb_ge in Hb.
  case_bool_decide; [injection Hup as _ <-; simpl; split_and!; auto|].
  apply store_bind_Ok in Hup as (? & o8 & Hup & ->%change_Ok). unfold upload_object in Hup.
  apply store_bind_Ok in Hup as (? & o9 & [_ ->]%check_Ok & ->%change_Ok). case_match; simpl; split_and!; auto.
Qed.
Lemma keeps_put bytes : keeps (put_bytes pack net bytes).
Proof using unpack_pack.
  intros o id o' (c & Hc & -> & Hw & Hca & Hhub & _)%put_bytes_Ok. split; [rewrite Hw; set_solver|]. intros Hok Ha id' c' [Hor Hh].
  rewrite Hca in Hor. destruct (decide (id' = hash_bytes c)) as [->|Hne].
  - assert (D !! hash_bytes c = Some bytes) as Hd by (apply Ha; [rewrite Hw; by left|done]).
    assert (c' = c ∨ ob_hub o !! hash_bytes c = Some c') as [->|Hold].
    { rewrite lookup_insert_eq in Hor. destruct Hor as [[= <-]|Hx]; [by left|]. destruct Hhub as [E|E]; rewrite E in Hx; [by right|].
      rewrite lookup_insert_eq in Hx. injection Hx as <-. by left. }
    + intros b Hb. by rewrite (unpack_pack _ _ Hc) in Hb; injection Hb as <-.
    + apply Hok. split; [by right|done].
  - apply Hok. split; [|done]. rewrite lookup_insert_ne in Hor by done. destruct Hor as [?|Hx]; [by left|right].
    destruct Hhub as [E|E]; rewrite E in Hx; [done|]. by rewrite lookup_insert_ne in Hx.
Qed.
Hint Resolve keeps_fetch keeps_get keeps_put : store.
Lemma keeps_put_tree t : keeps (put_tree pack net t).
Proof using unpack_pack. unfold put_tree. auto with store. Qed.
Lemma keeps_put_snapshot s : keeps (put_snapshot pack net s).
Proof using unpack_pack. unfold put_snapshot. auto with store. Qed.
Lemma keeps_put_bundle b : keeps (put_bundle pack net b).
Proof using unpack_pack.
  unfold put_bundle. apply store_keeps_bind; [auto with store|]. intros p. apply store_keeps_bind; [|auto with store]. apply keeps_for_each.
  intros kt. apply store_keeps_bind; [apply keeps_put_tree|auto with store].
Qed.
Lemma keeps_upload_manifest id hs : keeps (upload_manifest net id hs).
Proof using.
  unfold upload_manifest. apply store_keeps_bind; [auto with store|]. intros _. apply store_keeps_bind; [auto with store|]. intros o.
  case_match; [|auto with store]. apply store_keeps_bind; [apply keeps_change; by intros|auto with store].
Qed.
(** Re-uploading a cached object sends the hub a ciphertext the cache has. *)
Lemma keeps_reupload h : keeps (reupload net h).
Proof using.
  intros o u o'. unfold reupload. intros (cached & o1 & Hc & Hu)%store_bind_Ok.
  destruct (keeps_cached _ _ _ _ _ Hc) as [Hs Hk]. destruct cached as [c|]; [|injection Hu as _ <-; done].
  assert (o1 = o ∧ ob_cache o !! h = Some c) as [-> Hcc].
  { unfold cached_object in Hc. destruct (ob_cache o !! h) as [b|]; [|done]. case_match; [done|]. by injection Hc as -> <-. }
  unfold upload_object in Hu. apply store_bind_Ok in Hu as (? & o2 & [_ ->]%check_Ok & ->%change_Ok). split; [done|].
  intros Hok _ id' c' [Hor Hh]. simpl in Hor. apply Hok. split; [|done]. destruct Hor as [?|Hx]; [by left|].
  apply lookup_insert_Some in Hx as [[<- <-]|[_ ?]]; auto.
Qed.
Hint Resolve keeps_put_tree keeps_put_snapshot keeps_put_bundle keeps_upload_manifest keeps_reupload : store.
Lemma keeps_publish_manifest id hs : keeps (publish_manifest net id hs).
Proof using.
  unfold publish_manifest. apply store_keeps_bind; [auto with store|]. intros first. apply store_keeps_bind; [|auto with store].
  destruct first; [auto with store|]. apply store_keeps_bind; [apply (keeps_change (with_known ∅)); by intros|]. intros _. apply store_keeps_bind; [auto with store|]. intros _.
  apply store_keeps_bind; auto with store.
Qed.
Lemma prune_authentic now retention refs o id c : authentic (prune now retention refs o) id c → authentic o id c.
Proof using.
  unfold prune, authentic. repeat case_match; simpl; try done; (intros [[Hc|?] ?]; [|auto]; apply map_lookup_filter_Some in Hc as [? _]; auto).
Qed.
Lemma prune_written now retention refs o : ob_written (prune now retention refs o) = ob_written o.
Proof using. unfold prune. by repeat case_match. Qed.
Lemma keeps_cache_manifest now retention refs id hs : keeps (cache_manifest now retention refs id hs).
Proof using.
  unfold cache_manifest. apply store_keeps_bind; [auto with store|]. intros canonical. apply store_keeps_bind; [apply keeps_change; by intros|]. intros _.
  apply keeps_change; [intros; apply prune_written|intros; by eapply prune_authentic].
Qed.
Hint Resolve keeps_publish_manifest keeps_cache_manifest : store.
Lemma keeps_write chunks retention up now refs input :
  keeps (write_inner pack unpack net chunks retention up now refs input).
Proof using unpack_pack.
  unfold write_inner. apply store_keeps_bind; [auto with store|]. intros b. apply store_keeps_bind; [auto with store|]. intros root.
  apply store_keeps_bind; [auto with store|]. intros id. apply store_keeps_bind; [auto with store|]. intros o. apply store_keeps_bind; [auto with store|]. intros hs.
  apply store_keeps_bind; [destruct up; auto with store|]. intros _. apply store_keeps_bind; auto with store.
Qed.
End props.
