(* ===== verification/StoreViews.v ===== *)
(** * Reading through the object store

    A read or a traversal that succeeds over a store returns what it returns over the directory of
    contents the store refines; and the view written with a snapshot is the view read from it. *)
From Stdlib Require Import ZArith Lia Ascii Strings.Byte.
From stdpp Require Import sorting numbers strings gmap list_numbers list options.
From S2P Require Import Prelude Text Paths Model Codec CodecProps Lookup Convert ConvertProps Flatten FlattenProps Diff DiffProps.
From S2P Require Import Prepared PreparedProps Reachability TreeState TreeStateProps SnapshotDiff SnapshotDiffProps ObjectStore ObjectStoreProps.

Local Open Scope Z_scope.

(** [g] returns what [f] returns, where [f] succeeds. *)
Definition extends {A} (f g : string → Result A) : Prop := ∀ id a, f id = Ok a → g id = Ok a.

Lemma iterate_S {S R} (f : S → step S R) k s :
  iterate (Datatypes.S k) f s = match iterate k f s with More s' => iterate k f s' | Done r => Done r end.
Proof. reflexivity. Qed.
Lemma iterate_extends {S R} (f g : S → step S (Result R)) k s :
  (∀ s s', f s = More s' → g s = More s') → (∀ s r, f s = Done (Ok r) → g s = Done (Ok r)) →
  (∀ s', iterate k f s = More s' → iterate k g s = More s') ∧ (∀ r, iterate k f s = Done (Ok r) → iterate k g s = Done (Ok r)).
Proof.
  intros Hm Hd. revert s. induction k as [|k IH]; intros s; [auto|]. setoid_rewrite iterate_S. destruct (IH s) as [IHm IHd]. split.
  - intros s'. destruct (iterate k f s) as [s1|r] eqn:E; [|done]. rewrite (IHm s1 eq_refl). apply (proj1 (IH s1)).
  - intros r. destruct (iterate k f s) as [s1|r1] eqn:E; [rewrite (IHm s1 eq_refl); apply (proj2 (IH s1))|]. intros [= ->]. by rewrite (IHd r eq_refl).
Qed.
(** Replays a successful chain of binds. *)
Ltac replay H := repeat (let x := fresh "x" in let E := fresh "E" in apply bind_Ok in H as (x & E & H); rewrite (bind_run _ _ x) by done).

Section traversals.
Context `{Unicode}.
Lemma load_extends f g root s : extends f g → get_tree_state f root = Ok s → get_tree_state g root = Ok s.
Proof using.
  intros Hfg. assert (∀ w p t st, load_work f w p t = Ok st → load_work g w p t = Ok st) as Hw.
  { intros [id prefix d|id] p t st; [|done]. unfold load_work. intros Hl. replay Hl. apply bind_Ok in Hl as (tree & Ht & Hl).
    rewrite (bind_run _ _ tree) by (by apply Hfg). done. }
  unfold get_tree_state. destruct (iterate_extends (load_step f) (load_step g) 22 ([Enter root "" 0], StateTraversal_new)) as [_ Hd].
  - intros [[|w p] t] s'; unfold load_step; simpl; [done|]. destruct (load_work f w p t) as [st|] eqn:E; [|done]. by rewrite (Hw _ _ _ _ E).
  - intros [[|w p] t] r; unfold load_step; simpl; [done|]. by destruct (load_work f w p t).
  - destruct (iterate 22 (load_step f) _) as [|[t|]]; [done| |done]. by rewrite (Hd t).
Qed.
Lemma get_tree_extends gb gb' : extends gb gb' → extends (get_tree gb) (get_tree gb').
Proof using. intros Hg id t. unfold get_tree. intros Ht. apply bind_Ok in Ht as (b & Hb & Ht). by rewrite (bind_run _ _ b) by (by apply Hg). Qed.
Lemma get_prepared_extends gb gb' pr : extends gb gb' → extends (get_prepared gb pr) (get_prepared gb' pr).
Proof using.
  intros Hg id t. unfold get_prepared. destruct (pr !! id); [done|]. intros Ht. apply bind_Ok in Ht as (b & Hb & Ht).
  by rewrite (bind_run _ _ b) by (by apply (get_tree_extends _ _ Hg)).
Qed.
Lemma diff_extends gb gb' pr b a s : extends gb gb' → diff_roots gb pr b a = Ok s → diff_roots gb' pr b a = Ok s.
Proof using.
  intros Hg. assert (∀ w p t st, snap_work gb pr w p t = Ok st → snap_work gb' pr w p t = Ok st) as Hw.
  { intros w p t st. unfold snap_work. intros Hs. apply bind_Ok in Hs as (t1 & Ht & Hs). rewrite (bind_run _ _ t1) by done.
    destruct w as [b0 a0 pre d|b0 a0|e pre k src d|id src]; [|done| |done].
    - unfold enter_pair in *. destruct (decide (b0 = a0)); [done|]. replay Hs. apply bind_Ok in Hs as (l & Hl & Hs).
      rewrite (bind_run _ _ l) by (by apply (get_tree_extends _ _ Hg)). apply bind_Ok in Hs as (r & Hr & Hs).
      by rewrite (bind_run _ _ r) by (by apply (get_prepared_extends _ _ _ Hg)).
    - unfold enter_side in *. destruct (is_dir e); [|done]. replay Hs. apply bind_Ok in Hs as (r & Hr & Hs).
      by rewrite (bind_run _ _ r) by (by apply (get_prepared_extends _ _ _ Hg)). }
  unfold diff_roots. destruct (decide (b = a)); [done|].
  destruct (iterate_extends (snap_step gb pr) (snap_step gb' pr) 22 ([PairEnter b a "" 0], SnapTraversal_new)) as [_ Hd].
  - intros [[|w p] t] s'; unfold snap_step; simpl; [done|]. destruct (snap_work gb pr w p t) as [st|] eqn:E; [|done]. by rewrite (Hw _ _ _ _ E).
  - intros [[|w p] t] r; unfold snap_step; simpl; [done|]. by destruct (snap_work gb pr w p t).
  - destruct (iterate 22 (snap_step gb pr) _) as [|[t|]]; [done| |done]. by rewrite (Hd t).
Qed.
End traversals.

(** ** Over the directory *)
Section views.
Context `{Unicode, Blake3, HashOrder} (pack unpack : list byte → Result (list byte)) (net : string → Result unit).
Context (unpack_pack : ∀ b c, pack b = Ok c → unpack c = Ok b).
Context (D : Directory).
Local Notation store_ok := (store_ok unpack D).
Local Notation agrees := (agrees pack D).

Definition dir_bytes (id : string) : Result (list byte) := or_context (D !! id) "no such object".
Definition dir_tree (id : string) : Result Tree := get_tree dir_bytes id.
Definition dir_snapshot (id : string) : Result Snapshot := b ← dir_bytes id; decode_snapshot b.
(** The leaf a snapshot has at a path. *)
Definition leaf_at (root path : string) : option TreeEntry := tree_lookup dir_tree root (split slash path).

Lemma read_refines o source : store_ok o → extends (read_bytes unpack net o source) dir_bytes.
Proof using.
  intros Hok id b. unfold read_bytes. destruct (get_bytes_from unpack net source id o) as [[b' o']|] eqn:E; [|done]. intros [= <-].
  unfold get_bytes_from in E. apply store_bind_Ok in E as (? & o1 & [_ ->]%check_Ok & E).
  apply store_bind_Ok in E as (cached & o2 & Hc & E). apply store_bind_Ok in E as (c & o3 & Hr & [Hu ->]%check_Ok).
  assert (authentic o id c) as Hb%Hok.
  { unfold cached_object in Hc. destruct (ob_cache o !! id) as [cc|] eqn:Hcc.
    - destruct ((_ <? _) || _) eqn:Hbad; injection Hc as <- <-.
      + destruct source; [|done]. apply fetch_remote_Ok in Hr as [[Hor Hh] _]. split; [|done]. destruct Hor as [Hor|?]; [|by right].
        simpl in Hor. by rewrite lookup_delete_eq in Hor.
      + injection Hr as <- <-. apply orb_false_iff in Hbad as [_ Hh%negb_false_iff%bool_decide_eq_true]. split; [by left|done].
    - injection Hc as <- <-. destruct source; [|done]. by apply fetch_remote_Ok in Hr as [? _]. }
  unfold dir_bytes. by rewrite (Hb _ Hu).
Qed.
Lemma read_tree_refines o source : store_ok o → extends (read_tree unpack net o source) dir_tree.
Proof using.
  intros Hok id t. unfold read_tree, dir_tree, get_tree. intros Ht. apply bind_Ok in Ht as (b & Hb & Ht).
  by rewrite (bind_run _ _ b) by (by eapply read_refines).
Qed.
Lemma load_snapshot_refines o : store_ok o → extends (load_snapshot unpack net o) dir_snapshot.
Proof using.
  intros Hok id s. unfold load_snapshot, read_snapshot, dir_snapshot. intros Ht. apply bind_Ok in Ht as (b & Hb & Ht).
  by rewrite (bind_run _ _ b) by (by eapply read_refines).
Qed.
Lemma dir_tree_valid id t : dir_tree id = Ok t → tree_valid t.
Proof using. unfold dir_tree, get_tree. intros Ht. apply bind_Ok in Ht as (b & _ & Hb). by eapply decode_tree_valid. Qed.
(** What loading a snapshot returns. *)
Lemma load_state_refines o id st :
  store_ok o → load_state unpack net o id = Ok st →
  ∃ s, dir_snapshot id = Ok s ∧
    (∀ p f, lt_files st !! p = Some f ↔ ∃ e, leaf_at (sn_root s) p = Some e ∧ f = entry_state p e) ∧
    (∀ c, c ∈ lt_conflicts st ↔ ∃ p e, leaf_at (sn_root s) p = Some e ∧ loaded_conflict p e = Some c).
Proof using.
  intros Hok. unfold load_state. intros Hl. apply bind_Ok in Hl as (s & Hs%(load_snapshot_refines _ Hok) & Hl). exists s.
  split; [done|]. apply (load_extends _ _ _ _ (read_tree_refines _ CacheOrHub Hok)) in Hl.
  by apply (get_tree_state_Ok _ _ dir_tree_valid).
Qed.
Lemma load_files_state o id files :
  load_files unpack net o id = Ok files → ∃ st, load_state unpack net o id = Ok st ∧ files = lt_files st.
Proof using.
  unfold load_files, load_state, get_flat_tree. intros Hl. apply bind_Ok in Hl as (s & Hs & Hl). apply bind_Ok in Hl as (st & Hst & Hl).
  apply Ok_inj in Hl as <-. exists st. by rewrite Hs.
Qed.
(** ** Writing *)
(** The ids hash to hexadecimal digests. *)
Context (digest_hex : ∀ b, is_valid_hash (hash_bytes b) = true).
Context (reachable_chunks : Objects → string → string → option Z → Result (list string)) (retention : Z).

Lemma put_trees_written l o u o' :
  for_each (λ kt : string * Tree, _ ← put_tree pack net kt.2; mret tt) l o = Ok (u, o') → ∀ kt, kt ∈ l → encode_tree kt.2 ∈ ob_written o'.
Proof using unpack_pack D.
  revert o. induction l as [|kt l IH]; intros o Hl; [by intros ? ?%elem_of_nil|]. simpl in Hl.
  apply store_bind_Ok in Hl as (? & o1 & Hp & Hl). intros kt' [->|Hin]%elem_of_cons; [|by eapply IH].
  assert (encode_tree kt.2 ∈ ob_written o1) as Hw.
  { apply store_bind_Ok in Hp as (? & o2 & Hp & [= <- <-]). unfold put_tree in Hp. apply store_bind_Ok in Hp as (? & o3 & [_ ->]%check_Ok & Hp).
    apply put_bytes_Ok in Hp as (c & _ & _ & Hw & _). rewrite Hw. by left. }
  assert (keeps pack unpack D (for_each (λ kt : string * Tree, _ ← put_tree pack net kt.2; mret tt) l)) as Hk.
  { apply keeps_for_each. intros a. apply store_keeps_bind; [by apply keeps_put_tree|intros; apply store_keeps_ret]. }
  destruct (Hk _ _ _ Hl) as [Hs _]. by apply Hs.
Qed.
Definition input_snapshot (root : string) (now : Z) (input : SnapshotInput) : Snapshot :=
  mkSnapshot root (si_parents input) (si_author input) now (si_message input).
(** What a write leaves in the directory. *)
Lemma write_Ok up now refs input o id o' :
  write_inner pack unpack net reachable_chunks retention up now refs input o = Ok (id, o') → agrees o' →
  ∃ bundle pb, flat_to_tree_with_conflicts (si_files input) (si_input_conflicts input) = Ok bundle ∧
    PreparedTreeBundle_new pack bundle = Ok pb ∧ (∀ tid t, pb_trees pb !! tid = Some t → D !! tid = Some (encode_tree t)) ∧
    validate_snapshot (input_snapshot (pb_root pb) now input) = Ok tt ∧ D !! id = Some (encode_snapshot (input_snapshot (pb_root pb) now input)).
Proof using unpack_pack.
  unfold write_inner. intros Hw Ha. apply store_bind_Ok in Hw as (bundle & o1 & [Hb ->]%check_Ok & Hw).
  apply store_bind_Ok in Hw as (root & o2 & Hp & Hw). apply store_bind_Ok in Hw as (id' & o3 & Hs & Hw).
  assert (id' = id ∧ ob_written o3 ⊆ ob_written o') as [-> Hsub].
  { apply store_bind_Ok in Hw as (? & ? & [= <- <-] & Hw). apply store_bind_Ok in Hw as (hs & ? & [_ ->]%check_Ok & Hw).
    apply store_bind_Ok in Hw as (? & o4 & Hm & Hw). apply store_bind_Ok in Hw as (? & o5 & Hc & [= <- <-]). split; [done|].
    destruct (keeps_cache_manifest pack unpack D _ _ _ _ _ _ _ _ Hc) as [Hs5 _]. etrans; [|exact Hs5].
    destruct up; [by destruct (keeps_publish_manifest pack unpack net D _ _ _ _ _ Hm)|by injection Hm as _ <-]. }
  unfold put_snapshot in Hs. apply store_bind_Ok in Hs as ([] & ? & [Hv ->]%check_Ok & Hs).
  apply put_bytes_Ok in Hs as (c & Hc & -> & Hw3 & _). unfold put_bundle in Hp.
  apply store_bind_Ok in Hp as (pb & ? & [Hpb ->]%check_Ok & Hp). apply store_bind_Ok in Hp as (? & ? & Hf & [= <- <-]).
  exists bundle, pb. split_and!; [done|done| |done|].
  - intros tid t Ht. destruct (prepared_sealed _ _ _ _ _ Hpb Ht) as (ct & Hct & ->). apply Ha; [|done].
    apply Hsub. rewrite Hw3. right. apply (put_trees_written _ _ _ _ Hf (hash_bytes ct, t)). by apply elem_of_hash_iter.
  - apply Ha; [|done]. apply Hsub. rewrite Hw3. by left.
Qed.
Lemma lookup_agree (f g : Fetch) (S : string → Prop) root parts :
  S root → (∀ id, S id → ∃ t t', f id = Ok t ∧ g id = Ok t' ∧ NoDup (te_name <$> tr_entries t) ∧ tr_entries t ≡ₚ tr_entries t' ∧
    ∀ e, e ∈ tr_entries t → is_dir e = true → S (te_hash e)) → tree_lookup f root parts = tree_lookup g root parts.
Proof using.
  intros HS Hall. revert root HS. induction parts as [|n rest IH]; intros root HS; [done|].
  destruct (Hall root HS) as (t & t' & Hf & Hg & Hnd & Hp & Hd). simpl. rewrite Hf, Hg, <-(find_entry_perm n _ _ Hnd Hp).
  destruct (find_entry n (tr_entries t)) as [e|] eqn:He; [|done]. apply find_entry_Some in He as [He _].
  destruct rest; [done|]. destruct (is_dir e) eqn:Hdir; [|done]. apply IH. by apply Hd.
Qed.
(** The leaves of a prepared bundle, in a directory that has it. *)
Lemma prepared_leaf bundle pb p :
  PreparedTreeBundle_new pack bundle = Ok pb → sealed_apart pack bundle → (∀ tid t, pb_trees pb !! tid = Some t → wf_tree t) →
  (∀ tid t, pb_trees pb !! tid = Some t → D !! tid = Some (encode_tree t)) →
  leaf_at (pb_root pb) p = tree_lookup (fetch_from (tb_trees bundle)) (tb_root bundle) (split slash p).
Proof using digest_hex.
  intros Hpb Hap Hwf HD. rewrite <-(prepared_lookup _ _ _ (split slash p) Hpb Hap). unfold leaf_at.
  apply (lookup_agree _ _ (λ id, is_Some (pb_trees pb !! id))); [by eapply prepared_root|]. intros id [t Ht].
  pose proof (prepared_valid _ _ _ _ _ digest_hex Hpb Ht) as Hv. exists (mkTree (sort_by te_name (tr_entries t))), t. split_and!.
  - unfold dir_tree, get_tree, dir_bytes. rewrite (HD _ _ Ht). simpl. apply decode_encoded; [by eapply Hwf|by apply validate_tree_spec].
  - unfold fetch_from. by rewrite Ht.
  - simpl. rewrite sort_by_perm. apply Hv.
  - simpl. by rewrite sort_by_perm.
  - intros e He Hd. simpl in He. rewrite sort_by_perm in He. by eapply prepared_closed.
Qed.
End views.
