(* ===== verification/SnapshotViews.v ===== *)
(** * What a snapshot records

    The leaves of a written snapshot are those of the files and conflicts it was written from;
    loading it returns them, and writing a loaded state again changes no leaf. *)
From Stdlib Require Import ZArith Lia Ascii Strings.Byte.
From stdpp Require Import sorting numbers strings gmap list_numbers list options.
From S2P Require Import Prelude Text Paths Model Codec CodecProps Lookup Convert ConvertProps Flatten FlattenProps Diff DiffProps.
From S2P Require Import Prepared PreparedProps Reachability TreeState TreeStateProps SnapshotDiff SnapshotDiffProps ObjectStore ObjectStoreProps StoreViews.

Local Open Scope Z_scope.

(** The leaf a view has at a path: a conflict covers the file. *)
Definition view_leaf (files : gmap string FileState) (conflicts : list ConcurrentEdit) (p : string) : option TreeEntry :=
  match list_find (λ c, ce_path c = p) conflicts with
  | Some (_, c) => conflict_entry (last_component p) c <$> representative c
  | None => file_entry (last_component p) <$> live (files !! p)
  end.

Lemma view_leaf_only files conflicts c r :
  (∀ c', c' ∈ conflicts → ce_path c' = ce_path c → c' = c) → c ∈ conflicts → representative c = Some r →
  view_leaf files conflicts (ce_path c) = Some (conflict_entry (last_component (ce_path c)) c r).
Proof.
  intros Hu Hc Hr. unfold view_leaf. destruct (list_find _ conflicts) as [[i c']|] eqn:E.
  - apply list_find_Some in E as (Hi & Hp & _). apply list_elem_of_lookup_2 in Hi. by rewrite (Hu c' Hi Hp), Hr.
  - apply list_find_None in E. rewrite Forall_forall in E. by destruct (E c Hc).
Qed.
Lemma view_leaf_conflict files conflicts c r :
  NoDup (ce_path <$> conflicts) → c ∈ conflicts → representative c = Some r →
  view_leaf files conflicts (ce_path c) = Some (conflict_entry (last_component (ce_path c)) c r).
Proof.
  intros Hnd Hc. apply view_leaf_only; [|done]. intros c' Hc' Hp. apply list_elem_of_lookup in Hc as [i Hi], Hc' as [j Hj].
  assert (i = j) as ->; [|congruence].
  apply (NoDup_lookup (ce_path <$> conflicts) _ _ (ce_path c)); [done|by rewrite list_lookup_fmap, Hi|by rewrite list_lookup_fmap, Hj, <-Hp].
Qed.
Lemma view_leaf_file files conflicts p :
  (∀ c, c ∈ conflicts → ce_path c ≠ p) → view_leaf files conflicts p = file_entry (last_component p) <$> live (files !! p).
Proof.
  intros Hno. unfold view_leaf. destruct (list_find _ conflicts) as [[i c]|] eqn:E; [|done].
  apply list_find_Some in E as (Hi & Hp & _). apply list_elem_of_lookup_2 in Hi. by destruct (Hno c Hi).
Qed.
Lemma live_Some o s : live o = Some s ↔ o = Some s ∧ fs_deleted s = false.
Proof. destruct o as [s'|]; simpl; [|naive_solver]. destruct (fs_deleted s') eqn:E; naive_solver congruence. Qed.

(** A loaded leaf stands for itself again. *)
Lemma conflict_reload `{Unicode} p e c :
  entry_valid e → te_name e = last_component p → loaded_conflict p e = Some c →
  ce_path c = p ∧ ∃ r, representative c = Some r ∧ conflict_entry (last_component p) c r = e.
Proof.
  destruct e as [name kind hash size mode]. unfold entry_valid, validate_entry, loaded_conflict. simpl. intros Hv -> Hl.
  destruct kind as [| |b o t [mb mo mt]]; try done. injection Hl as <-. split; [done|]. simpl in Hv. inv_ok. to_prop.
  rename select (visible_leg _ _ _ _ = _) into Hvis. unfold visible_leg in Hvis. simpl in *.
  rename select (is_none b && _ = false) into Hb. rename select (is_none o && _ = false) into Ho. rename select (is_none t && _ = false) into Ht.
  rewrite andb_false_iff, negb_false_iff, Z.eqb_eq in Hb, Ho, Ht.
  destruct t as [t|], o as [o|], b as [b|]; simpl in *; try done; injection Hvis as -> ->; eexists;
    (split; [reflexivity|]); unfold conflict_entry, live_hash, live_mode, size_of; simpl; rewrite decide_True by done;
    repeat match goal with Hor : true = false ∨ _ |- _ => destruct Hor as [?|Hor]; [done|] end; by subst.
Qed.
Lemma file_reload p e : te_name e = last_component p → te_kind e = File → file_entry (last_component p) (entry_state p e) = e.
Proof. destruct e. simpl. by intros -> ->. Qed.

(** The changes between two views of the leaves, in path order. *)
Definition changes_between (before after : string → option TreeEntry) (cs : list TreeChange) : Prop :=
  StronglySorted (key_lt tc_path) cs ∧
  (∀ c, c ∈ cs → tc_before c = before (tc_path c) ∧ tc_after c = after (tc_path c) ∧ tc_before c ≠ tc_after c ∧
     tc_kind c = match tc_before c, tc_after c with Some _, Some _ => Modified | Some _, None => Deleted | None, _ => Added end) ∧
  ∀ p, before p ≠ after p → ∃ c, c ∈ cs ∧ tc_path c = p.
Lemma tree_lookup_ext (f g : Fetch) root parts : (∀ id, f id = g id) → tree_lookup f root parts = tree_lookup g root parts.
Proof.
  intros Hfg. revert root. induction parts as [|n rest IH]; intros root; [done|]. simpl. rewrite Hfg. destruct (g root) as [t|]; [|done].
  destruct (find_entry n (tr_entries t)) as [e|]; [|done]. destruct rest; [done|]. destruct (is_dir e); [apply IH|done].
Qed.
Lemma changes_between_ext before after before' after' cs :
  (∀ p, before p = before' p) → (∀ p, after p = after' p) → changes_between before after cs → changes_between before' after' cs.
Proof. intros Hb Ha. unfold changes_between. setoid_rewrite Hb. by setoid_rewrite Ha. Qed.
Lemma diff_roots_changes `{Unicode} get_bytes prepared before after stats :
  (∀ id t, prepared !! id = Some t → tree_valid t ∧ get_tree get_bytes id = Ok t) →
  diff_roots get_bytes prepared before after = Ok stats →
  changes_between (λ p, tree_lookup (get_tree get_bytes) before (split slash p)) (λ p, tree_lookup (get_tree get_bytes) after (split slash p)) (ts_changes stats).
Proof.
  intros Hp Hd. destruct (decide (before = after)) as [->|Hne].
  { unfold diff_roots in Hd. rewrite decide_True in Hd by done. apply Ok_inj in Hd as <-. split_and!; [constructor|by intros c ?%elem_of_nil|done]. }
  apply diff_roots_inv in Hd as (cs & HI & ->); [|intros; by eapply Hp|intros id t t' [_ Ht]%Hp; congruence|done].
  assert (∀ root p, tree_lookup (get_tree get_bytes) root (split slash p) = tree_lookup (fetched get_bytes prepared) root (split slash p)) as Hf.
  { intros root p. apply tree_lookup_ext. intros id. unfold fetched. destruct (prepared !! id) as [t|] eqn:E; [|done]. by apply Hp. }
  eapply changes_between_ext; [intros p; symmetry; apply Hf|intros p; symmetry; apply Hf|]. split_and!.
  - by apply sort_by_lt, (diff_changes_NoDup _ _ _ _ HI).
  - intros c. rewrite sort_by_perm. intros [Hc _]%(di_sound _ _ _ _ HI). by apply change_at_describes.
  - intros p Hpp. destruct (di_complete _ _ _ _ HI _ Hpp) as [(c & Hin & Hc)|(w & ?%elem_of_nil & _)]; [|done].
    exists c. rewrite sort_by_perm. by rewrite join_split in Hc.
Qed.

Section written.
Context `{Unicode, Blake3, HashOrder} (pack unpack : list byte → Result (list byte)) (net : string → Result unit).
Context (unpack_pack : ∀ b c, pack b = Ok c → unpack c = Ok b) (digest_hex : ∀ b, is_valid_hash (hash_bytes b) = true).
Context (reachable_chunks : Objects → string → string → option Z → Result (list string)) (retention : Z).
Context (D : Directory).

Lemma flat_to_tree_leaf files conflicts bundle p :
  flat_to_tree_with_conflicts files conflicts = Ok bundle → no_collisions _ files conflicts →
  NoDup (ce_path <$> conflicts) ∧ tree_lookup (fetch_from (tb_trees bundle)) (tb_root bundle) (split slash p) = view_leaf files conflicts p.
Proof using.
  intros (ins & Hf & ->)%flat_to_tree_Ok Hcf. specialize (Hcf _ _ Hf).
  pose proof Hf as Hn. unfold flat_inserts in Hn. apply bind_Ok in Hn as ([nodes b] & Hn & _).
  apply flat_nodes_represent in Hn as (Hnd & Hreps & _); [|apply hash_iter_NoDup]. split; [done|]. rewrite Forall_forall in Hreps.
  apply option_eq. intros e. rewrite (flat_inserts_lookup _ _ _ _ _ _ (hash_iter_NoDup _) Hf Hcf). setoid_rewrite elem_of_hash_iter. split.
  - intros [(c & r & Hc & <- & Hr & ->)|((s & Hs & Hd & ->) & Hno)]; [by apply view_leaf_conflict|].
    rewrite view_leaf_file by done. by rewrite Hs; simpl; rewrite Hd.
  - intros He. destruct (decide (Exists (λ c, ce_path c = p) conflicts)) as [(c & Hc & <-)%Exists_exists|Hno].
    + destruct (Hreps c Hc) as [r Hr]. rewrite (view_leaf_conflict _ _ _ _ Hnd Hc Hr) in He. injection He as <-. left. eauto 10.
    + assert (∀ c, c ∈ conflicts → ce_path c ≠ p) as Hno' by (intros c Hc Hp; apply Hno, Exists_exists; eauto).
      rewrite view_leaf_file in He by done. apply fmap_Some in He as (s & [Hs Hd]%live_Some & ->). right. eauto 10.
Qed.

(** Every conflict of a written view has a live leg. *)
Lemma flat_to_tree_legs files conflicts bundle c :
  flat_to_tree_with_conflicts files conflicts = Ok bundle → c ∈ conflicts → is_Some (representative c).
Proof using.
  intros (ins & Hf & _)%flat_to_tree_Ok. unfold flat_inserts in Hf. apply bind_Ok in Hf as ([nodes b] & Hn & _).
  apply flat_nodes_represent in Hn as (_ & Hreps & _); [|apply hash_iter_NoDup]. rewrite Forall_forall in Hreps. apply Hreps.
Qed.

(** The trees of an input: distinct trees have distinct ids, plain and sealed, and their names and
    sizes are values of Rust's types. *)
Record sound_input (i : SnapshotInput) : Prop := {
  so_ids : no_collisions _ (si_files i) (si_input_conflicts i);
  so_sealed bundle : flat_to_tree_with_conflicts (si_files i) (si_input_conflicts i) = Ok bundle → sealed_apart pack bundle;
  so_typed bundle id t : flat_to_tree_with_conflicts (si_files i) (si_input_conflicts i) = Ok bundle → tb_trees bundle !! id = Some t → wf_tree t;
  so_author : wf_str (si_author i);
  so_message : wf_opt_str (si_message i);
}.
Lemma prepared_wf bundle pb id t :
  (∀ id t, tb_trees bundle !! id = Some t → wf_tree t) → PreparedTreeBundle_new pack bundle = Ok pb → pb_trees pb !! id = Some t → wf_tree t.
Proof using.
  intros Hwf (scan & s & _ & _ & _ & HI & _ & _ & ->)%prepared_Ok Ht%hash_collect_Some.
  destruct (pi_inserts _ _ _ HI _ _ Ht) as (i & t0 & c & _ & Hi & He%encrypt_tree_Ok & _). apply Hwf in Hi. unfold wf_tree in *.
  revert Hi. induction He as [|e e' es es' Henc _ IH]; [done|]. rewrite !Forall_cons. intros [He Hes]. split; [|by apply IH].
  unfold encrypt_entry in Henc. destruct (is_dir e); [|by apply Ok_inj in Henc as <-].
  apply bind_Ok in Henc as (h & _ & Henc). by apply Ok_inj in Henc as <-.
Qed.
(** The trees of a bundle are sorted, and stay so. *)
Lemma flat_to_tree_sorted files conflicts bundle id t :
  flat_to_tree_with_conflicts files conflicts = Ok bundle → tb_trees bundle !! id = Some t → StronglySorted (key_lt te_name) (tr_entries t).
Proof using.
  intros (ins & Hf & ->)%flat_to_tree_Ok Ht%hash_collect_Some. apply flat_inserts_build in Hf as (Hv & nodes & paths & hs & HB & _); [|apply hash_iter_NoDup].
  rewrite Forall_forall in Hv. destruct (Hv _ Ht) as [_ Hvt%validate_tree_spec]. destruct (bd_origin _ _ _ _ HB _ Ht) as (i & nd & _ & Hn).
  unfold node_tree in Hn. apply bind_Ok in Hn as (ds & _ & Hn). apply bind_Ok in Hn as (? & _ & Hn). apply Ok_inj in Hn. simpl in *. subst t. simpl in *.
  apply sort_by_lt. pose proof (tv_names _ Hvt) as Hnd. simpl in Hnd. by rewrite sort_by_perm in Hnd.
Qed.
Lemma prepared_sorted bundle pb id t :
  (∀ id t, tb_trees bundle !! id = Some t → StronglySorted (key_lt te_name) (tr_entries t)) →
  PreparedTreeBundle_new pack bundle = Ok pb → pb_trees pb !! id = Some t → StronglySorted (key_lt te_name) (tr_entries t).
Proof using.
  intros Hs (scan & s & _ & _ & _ & HI & _ & _ & ->)%prepared_Ok Ht%hash_collect_Some.
  destruct (pi_inserts _ _ _ HI _ _ Ht) as (i & t0 & c & _ & Hi & He%encrypt_tree_Ok & _). apply Hs in Hi.
  assert (Forall2 (λ e e', te_name e' = te_name e) (tr_entries t0) (tr_entries t)) as Hn
    by (eapply Forall2_impl; [exact He|]; intros e e' Henc; by apply encrypt_entry_Ok in Henc as [? _]).
  clear -Hi Hn. induction Hn as [|e e' es es' Hee Hn IH]; [constructor|]. apply StronglySorted_inv in Hi as [Hi Hall]. constructor; [by apply IH|].
  rewrite Forall_forall in *. intros x [k Hk]%list_elem_of_lookup. destruct (Forall2_lookup_r _ _ _ _ _ Hn Hk) as (y & Hy & Hxy).
  unfold key_lt. rewrite Hee, Hxy. apply Hall. by eapply list_elem_of_lookup_2.
Qed.
(** The directory has the trees of a view: sealing them gives no id another object has. *)
Definition has_view (i : SnapshotInput) : Prop :=
  ∀ bundle pb tid t, flat_to_tree_with_conflicts (si_files i) (si_input_conflicts i) = Ok bundle →
    PreparedTreeBundle_new pack bundle = Ok pb → pb_trees pb !! tid = Some t → D !! tid = Some (encode_tree t).
Lemma prepared_in_dir i bundle pb id t :
  sound_input i → has_view i → flat_to_tree_with_conflicts (si_files i) (si_input_conflicts i) = Ok bundle →
  PreparedTreeBundle_new pack bundle = Ok pb → pb_trees pb !! id = Some t → tree_valid t ∧ dir_tree D id = Ok t.
Proof using digest_hex.
  intros Hs Hv Hb Hpb Ht. pose proof (prepared_valid _ _ _ _ _ digest_hex Hpb Ht) as Hvt. split; [done|].
  unfold dir_tree, get_tree, dir_bytes. rewrite (Hv _ _ _ _ Hb Hpb Ht). simpl. rewrite decode_encoded; [|eapply prepared_wf; [|done|done]; intros; by eapply so_typed|by apply validate_tree_spec].
  rewrite sort_by_sorted_id; [by destruct t|eapply prepared_sorted; [|done|done]; intros; by eapply flat_to_tree_sorted|apply Hvt].
Qed.
(** The directory has the snapshot with these leaves under the id. *)
Definition records (id : string) (meta : list string * string * Z * option string) (files : gmap string FileState) (conflicts : list ConcurrentEdit) : Prop :=
  ∃ s, dir_snapshot D id = Ok s ∧ (sn_parents s, sn_author s, sn_created_at_ms s, sn_message s) = meta ∧ ∀ p, leaf_at D (sn_root s) p = view_leaf files conflicts p.
Lemma write_records up now refs input o id o' :
  write_inner pack unpack net reachable_chunks retention up now refs input o = Ok (id, o') → agrees pack D o' →
  - 2 ^ 63 ≤ now < 2 ^ 63 → sound_input input →
  NoDup (ce_path <$> si_input_conflicts input) ∧ records id (si_parents input, si_author input, now, si_message input) (si_files input) (si_input_conflicts input).
Proof using unpack_pack digest_hex.
  intros Hw Ha Hnow [Hids Hsealed Htyped Hau Hme]. destruct (write_Ok pack unpack net unpack_pack D reachable_chunks retention _ _ _ _ _ _ _ Hw Ha) as (bundle & pb & Hb & Hpb & HD & Hv & Hid).
  split; [by eapply (flat_to_tree_leaf _ _ _ ""), Hids|].
  exists (input_snapshot (pb_root pb) now input). split_and!; [|done|].
  - unfold dir_snapshot, dir_bytes. rewrite Hid. simpl. apply decode_encode_snapshot; [|done]. pose proof Hv as [_ _ Hr Hp _ _ _]%validate_snapshot_spec.
    split_and!; [by apply valid_hash_wf|eapply Forall_impl; [exact Hp|]; intros; by apply valid_hash_wf|done|apply Hnow..|done].
  - intros p. simpl. rewrite (prepared_leaf pack D digest_hex bundle pb); [|done|by apply Hsealed| |done].
    + by apply flat_to_tree_leaf.
    + intros tid t Ht. eapply prepared_wf; [|done|done]. intros i t' Hi. by eapply Htyped.
Qed.
(** Loading what was written. *)
Lemma records_load id meta files conflicts o st :
  NoDup (ce_path <$> conflicts) → records id meta files conflicts → store_ok unpack D o → load_state unpack net o id = Ok st →
  (∀ p, lt_files st !! p = entry_state p <$> view_leaf files conflicts p) ∧
  ∀ c, c ∈ lt_conflicts st ↔ ∃ p e, view_leaf files conflicts p = Some e ∧ loaded_conflict p e = Some c.
Proof using.
  intros Hnd (s & Hs & _ & Hl) Hok (s' & Hs' & Hf & Hc)%(load_state_refines unpack net D); [|done]. rewrite Hs in Hs'. injection Hs' as <-.
  setoid_rewrite Hl in Hf. setoid_rewrite Hl in Hc. split; [|done]. intros p. apply option_eq. intros f. rewrite Hf. by rewrite fmap_Some.
Qed.
(** Writing what was loaded. *)
Lemma leaf_valid root p e : leaf_at D root p = Some e → entry_valid e ∧ te_name e = last_component p ∧ is_dir e = false.
Proof using.
  unfold leaf_at. intros Hl. pose proof (tree_lookup_name _ _ _ _ Hl) as Hn. pose proof (tree_lookup_not_dir _ _ _ _ Hl) as Hd.
  split_and!; [|unfold last_component; by rewrite Hn|done]. clear Hn Hd. revert root Hl. generalize (split slash p).
  intros parts. induction parts as [|n rest IH]; intros root; [done|]. intros (t & e' & Ht & He' & _ & Hor)%tree_lookup_inv.
  apply dir_tree_valid in Ht. destruct Hor as [(_ & -> & _)|(_ & _ & Hl)]; [|by eapply IH].
  pose proof (tv_entries _ Ht) as Hes. rewrite Forall_forall in Hes. by apply Hes.
Qed.
Lemma loaded_leaf o id st s p :
  store_ok unpack D o → load_state unpack net o id = Ok st → dir_snapshot D id = Ok s →
  view_leaf (lt_files st) (lt_conflicts st) p = leaf_at D (sn_root s) p.
Proof using.
  intros Hok (s' & Hs' & Hf & Hc)%(load_state_refines unpack net D) Hs; [|done]. rewrite Hs in Hs'. injection Hs' as <-.
  assert (∀ c, c ∈ lt_conflicts st → ce_path c = p → ∃ e, leaf_at D (sn_root s) p = Some e ∧ loaded_conflict p e = Some c) as Hat.
  { intros c (q & e & He & Hl)%Hc <-. destruct (leaf_valid _ _ _ He) as (Hv & Hn & _).
    destruct (conflict_reload q e c Hv Hn Hl) as [-> _]. eauto. }
  destruct (leaf_at D (sn_root s) p) as [e|] eqn:He.
  - destruct (leaf_valid _ _ _ He) as (Hv & Hn & Hd). destruct (loaded_conflict p e) as [c|] eqn:Hl.
    + destruct (conflict_reload p e c Hv Hn Hl) as (<- & r & Hr & <-). apply view_leaf_only; [|apply Hc; eauto|done].
      intros c' Hin Hp. destruct (Hat c' Hin Hp) as (e' & [= <-] & Hl'). congruence.
    + rewrite view_leaf_file.
      * rewrite (proj2 (Hf p (entry_state p e))) by eauto. simpl. f_equal. apply file_reload; [done|].
        unfold is_dir, loaded_conflict in *. by destruct (te_kind e).
      * intros c Hin Hp. destruct (Hat c Hin Hp) as (e' & [= <-] & Hl'). congruence.
  - rewrite view_leaf_file; [|intros c Hin Hp; by destruct (Hat c Hin Hp) as (? & ? & _)].
    destruct (lt_files st !! p) as [f|] eqn:Hp; [|done]. apply Hf in Hp as (e & ? & _). congruence.
Qed.
End written.
