(* ===== verification/Snapshots.v ===== *)
(** * Snapshots and the head of a workspace

    agent-core/src/snapshot.rs and snapshot_diff.rs: publishing a view, recording local refs,
    resolving conflicts and comparing a snapshot with a view.  Every call that leaves the process is
    answered by an oracle, and other clients may move the head and upload objects before it. *)
From Stdlib Require Import ZArith Lia Ascii Strings.Byte.
From stdpp Require Import sorting numbers strings gmap list_numbers list pretty options.
From S2P Require Import Prelude Text Paths Model Codec CodecProps Lookup Convert Flatten Diff SnapshotDiff Prepared Reachability TreeState ObjectStore.

Local Open Scope Z_scope.

Definition MAX_HEAD_RETRIES : nat := 8.
Definition WORKSPACE_REF : string := "refs/workspace".
Definition LAST_SYNCED_REF : string := "refs/last-synced".
Definition agent_base_ref (name : string) : string := "agents/" +:+ name +:+ "/state/base-snapshot".

Inductive SwapHeadResult := Swapped | HeadConflict (current : option string).

Record SnapAnswer := mkSnapAnswer {
  sa_fails : bool;                                (* the call returns an error *)
  sa_applied : bool;                              (* and took effect nevertheless *)
  sa_net : string → Result unit;                  (* whether requests about objects succeed *)
  sa_head : option (option string);               (* another client moved the head *)
  sa_objects : gmap string (list byte);           (* blobs others uploaded *)
  sa_now : Z;
  sa_scan : gmap string FileState;                (* what a scan of the agent's directory finds *)
  sa_files : gmap string FileState;               (* what a scan of the folder finds, or the legacy server view *)
  sa_paths : list string;                         (* conflict paths pending or blocked *)
}.
Record Workspace := mkWorkspace {
  ws_objects : Objects;
  ws_head : option string;
  ws_refs : gmap string string;
  ws_asked : nat;
  ws_swaps : list (option string * string);       (* the swaps of this client that took effect, newest first *)
  ws_inputs : list SnapshotInput;                 (* the snapshots written, newest first *)
}.
Definition with_objects (o : Objects) (w : Workspace) : Workspace := mkWorkspace o (ws_head w) (ws_refs w) (ws_asked w) (ws_swaps w) (ws_inputs w).
Definition with_refs (r : gmap string string) (w : Workspace) : Workspace := mkWorkspace (ws_objects w) (ws_head w) r (ws_asked w) (ws_swaps w) (ws_inputs w).
Definition swap_in (expected : option string) (new : string) (w : Workspace) : Workspace :=
  mkWorkspace (ws_objects w) (Some new) (ws_refs w) (ws_asked w) ((expected, new) :: ws_swaps w) (ws_inputs w).

Definition log_input (input : SnapshotInput) (w : Workspace) : Workspace :=
  mkWorkspace (ws_objects w) (ws_head w) (ws_refs w) (ws_asked w) (ws_swaps w) (input :: ws_inputs w).

Definition Snap (A : Type) : Type := Workspace → Workspace * Result A.
#[global] Instance snap_ret : MRet Snap := λ A a w, (w, Ok a).
#[global] Instance snap_bind : MBind Snap := λ A B f m w, match m w with (w, Ok a) => f a w | (w, Err e) => (w, Err e) end.
Definition snap_act {A} (f : Workspace → Workspace * Result A) : Snap A := f.
Definition snap_check {A} (r : Result A) : Snap A := λ w, (w, r).
Definition snap_err {A} (e : string) : Snap A := snap_check (Err e).
Fixpoint snap_each {A} (f : A → Snap unit) (l : list A) : Snap unit := match l with [] => mret tt | a :: l => _ ← f a; snap_each f l end.

(** [same_view]. *)
Definition same_state (l r : FileState) : bool :=
  bool_decide (fs_hash l = fs_hash r) && (fs_size l =? fs_size r) && eqb (fs_deleted l) (fs_deleted r) && (fs_mode l =? fs_mode r).
Definition same_view (left right : gmap string FileState) : bool :=
  (size left =? size right)%nat && bool_decide (map_Forall (λ path s, match right !! path with Some r => same_state s r | None => false end = true) left).

Section snapshots.
Context `{Unicode, Blake3, HashOrder}.
Context (pack unpack : list byte → Result (list byte)).
Context (reachable_chunks : Objects → string → string → option Z → Result (list string)) (retention : Z).
Context (answers : nat → SnapAnswer).

(** ** Calls *)
Definition question : Snap SnapAnswer := λ w,
  let a := answers (ws_asked w) in
  (mkWorkspace (with_hub (ob_hub (ws_objects w) ∪ sa_objects a) (ws_objects w)) (default (ws_head w) (sa_head a)) (ws_refs w)
     (S (ws_asked w)) (ws_swaps w) (ws_inputs w), Ok a).
(** A call that may fail and changes nothing the model keeps. *)
Definition calling {A} (f : SnapAnswer → A) : Snap A := a ← question; if sa_fails a then snap_err "unavailable" else mret (f a).
Definition get_head : Snap (option string) := a ← question; snap_act (λ w, (w, if sa_fails a then Err "unavailable" else Ok (ws_head w))).
Definition swap_head (expected : option string) (new : string) : Snap SwapHeadResult := a ← question; snap_act (λ w,
  if decide (ws_head w = expected) then
    if sa_fails a then (if sa_applied a then swap_in expected new w else w, Err "unavailable") else (swap_in expected new w, Ok Swapped)
  else (w, if sa_fails a then Err "unavailable" else Ok (HeadConflict (ws_head w)))).
(** Reading objects. *)
Definition loading {A} (f : (string → Result unit) → Objects → Result A) : Snap A := a ← question; snap_act (λ w, (w, f (sa_net a) (ws_objects w))).
Definition load_snapshot (id : string) : Snap Snapshot := loading (λ net o, ObjectStore.load_snapshot unpack net o id).
Definition load_state (id : string) : Snap LoadedTree := loading (λ net o, ObjectStore.load_state unpack net o id).
Definition load_files (id : string) : Snap (gmap string FileState) := loading (λ net o, ObjectStore.load_files unpack net o id).
(** [write] and [write_local]; the refs protect their objects from pruning. *)
Definition ref_ids (w : Workspace) : gset string := list_to_set (List.filter is_valid_hash (map_to_list (ws_refs w)).*2).
Definition writing (upload_manifest : bool) (input : SnapshotInput) : Snap string := a ← question; snap_act (λ w,
  match write_inner pack unpack (sa_net a) reachable_chunks retention upload_manifest (sa_now a) (ref_ids w) input (ws_objects w) with
  | Ok (id, o) => (log_input input (with_objects o w), Ok id)
  | Err e => (w, Err e)
  end).
Definition write (input : SnapshotInput) : Snap string := writing true input.
Definition write_local (input : SnapshotInput) : Snap string := writing false input.

(** ** Refs *)
Definition read_ref (reference : string) : Snap (option string) := a ← question; snap_act (λ w,
  (w, if sa_fails a then Err "read ref" else
      match ws_refs w !! reference with
      | None => Ok None
      | Some id => if is_valid_hash id then Ok (Some id) else Err "invalid snapshot ref"
      end)).
Definition write_ref (reference id : string) : Snap unit := a ← question; snap_act (λ w,
  if sa_fails a then (if sa_applied a then with_refs (<[reference := id]> (ws_refs w)) w else w, Err "unavailable")
  else (with_refs (<[reference := id]> (ws_refs w)) w, Ok tt)).
Definition read_agent_base (name : string) : Snap string :=
  base ← read_ref (agent_base_ref name); snap_check (or_context base "agent has no base snapshot ref").
Definition write_agent_base (name id : string) : Snap unit :=
  _ ← snap_check (bail_if (negb (is_valid_hash id)) "invalid agent base snapshot id"); write_ref (agent_base_ref name) id.
Definition record_committed_refs (id : string) : Snap unit :=
  _ ← snap_check (bail_if (negb (is_valid_hash id)) "invalid committed snapshot id");
  _ ← write_ref WORKSPACE_REF id; write_ref LAST_SYNCED_REF id.
Definition record_last_synced_ref (id : string) : Snap unit :=
  _ ← snap_check (bail_if (negb (is_valid_hash id)) "invalid last-synced snapshot id"); write_ref LAST_SYNCED_REF id.
Definition record_ref_view (reference : string) (files : gmap string FileState) (author : string) : Snap string :=
  parent ← read_ref reference;
  same ← match parent with Some current => old ← load_files current; mret (same_view old files) | None => mret false end;
  match parent, same with
  | Some current, true => mret current
  | _, _ =>
      id ← write_local (mkSnapshotInput files [] (option_list parent) author None);
      _ ← write_ref reference id;
      mret id
  end.
Definition snapshot_local_view (files : gmap string FileState) (author : string) : Snap string := record_ref_view WORKSPACE_REF files author.
Definition record_last_synced (files : gmap string FileState) (author : string) : Snap string := record_ref_view LAST_SYNCED_REF files author.
Definition load_last_synced : Snap (gmap string FileState) :=
  id ← read_ref LAST_SYNCED_REF; match id with Some id => load_files id | None => mret ∅ end.

(** ** Publishing *)
Fixpoint publish_attempts (files : gmap string FileState) (author : string) (attempts : nat) (expected : option string) : Snap string :=
  match attempts with
  | O => snap_err "workspace head changed too many times while publishing snapshot"
  | S attempts =>
      same ← match expected with Some current => old ← load_files current; mret (same_view old files) | None => mret false end;
      match expected, same with
      | Some current, true => mret current
      | _, _ =>
          id ← write (mkSnapshotInput files [] (option_list expected) author None);
          swapped ← swap_head expected id;
          match swapped with Swapped => mret id | HeadConflict current => publish_attempts files author attempts current end
      end
  end.
Definition publish_server_view (files : gmap string FileState) (author : string) : Snap string :=
  expected ← get_head; publish_attempts files author MAX_HEAD_RETRIES expected.
Definition publish_rekeyed_view (files : gmap string FileState) (author : string) : Snap string :=
  expected ← get_head;
  id ← write (mkSnapshotInput files [] [] author (Some "rekey workspace"));
  swapped ← swap_head expected id;
  match swapped with Swapped => mret id | HeadConflict _ => snap_err "workspace changed during rekey migration; retry from a fresh pull" end.
(** [resolve_conflicts]: the paths take their state of [files], or are removed; their conflicts go. *)
Definition resolve_path (files : gmap string FileState) (m : gmap string FileState) (path : string) : gmap string FileState :=
  match live (files !! path) with Some f => <[path := f]> m | None => delete path m end.
Definition resolved_state (paths additional_paths : list string) (files : gmap string FileState) (st : LoadedTree) : LoadedTree :=
  mkLoadedTree (foldl (resolve_path files) (lt_files st) (paths ++ additional_paths))
    (List.filter (λ c, negb (bool_decide (ce_path c ∈ paths))) (lt_conflicts st)).
Definition resolve_message (paths : list string) : string :=
  match paths with [path] => "resolve " +:+ path | _ => "resolve " +:+ pretty (Z.of_nat (length paths)) +:+ " conflicts" end.
Fixpoint resolve_attempts (paths additional_paths : list string) (files : gmap string FileState) (author : string) (attempts : nat)
    (expected : string) : Snap string :=
  match attempts with
  | O => snap_err "workspace head changed too many times during conflict resolution"
  | S attempts =>
      st ← load_state expected;
      let st := resolved_state paths additional_paths files st in
      candidate ← write (mkSnapshotInput (lt_files st) (lt_conflicts st) [expected] author (Some (resolve_message paths)));
      swapped ← swap_head (Some expected) candidate;
      match swapped with
      | Swapped => mret candidate
      | HeadConflict (Some current) => resolve_attempts paths additional_paths files author attempts current
      | HeadConflict None => snap_err "workspace head disappeared during conflict resolution"
      end
  end.
Definition resolve_conflicts (paths : list string) (files : gmap string FileState) (additional_paths : list string) (author : string) : Snap string :=
  _ ← snap_check (bail_if (bool_decide (paths = [])) "at least one conflict path is required");
  expected ← get_head;
  match expected with
  | None => snap_err "workspace head disappeared during conflict resolution"
  | Some expected => resolve_attempts paths additional_paths files author MAX_HEAD_RETRIES expected
  end.

(** ** Comparing *)
Definition prepare_view (files : gmap string FileState) (conflicts : list ConcurrentEdit) : Result PreparedTreeBundle :=
  bundle ← flat_to_tree_with_conflicts files conflicts; PreparedTreeBundle_new pack bundle.
Definition candidate_root (files : gmap string FileState) (conflicts : list ConcurrentEdit) : Result string :=
  pb ← prepare_view files conflicts; Ok (pb_root pb).
Definition diff_view (net : string → Result unit) (o : Objects) (snapshot_id : string) (files : gmap string FileState) : Result TreeDiffStats :=
  snapshot ← ObjectStore.load_snapshot unpack net o snapshot_id;
  prepared ← prepare_view files [];
  diff_roots (read_bytes unpack net o CacheOrHub) (pb_trees prepared) (sn_root snapshot) (pb_root prepared).
Definition diff_file_view (snapshot_id : string) (files : gmap string FileState) : Snap TreeDiffStats :=
  loading (λ net o, diff_view net o snapshot_id files).
Definition diff_snapshots (before_id after_id : string) : Snap TreeDiffStats := loading (λ net o,
  before ← ObjectStore.load_snapshot unpack net o before_id;
  after ← ObjectStore.load_snapshot unpack net o after_id;
  diff_roots (read_bytes unpack net o CacheOrHub) ∅ (sn_root before) (sn_root after)).
End snapshots.
