(* ===== verification/SnapshotProps.v ===== *)
(** * The history of a workspace

    What publishing and resolving leave behind, whatever other clients do meanwhile. *)
From Stdlib Require Import ZArith Lia Ascii Strings.Byte.
From stdpp Require Import sorting numbers strings gmap list_numbers list pretty options.
From S2P Require Import Prelude Text Paths Model Codec CodecProps Lookup Convert ConvertProps Flatten FlattenProps Diff DiffProps.
From S2P Require Import Prepared PreparedProps Reachability TreeState TreeStateProps SnapshotDiff SnapshotDiffProps ObjectStore ObjectStoreProps StoreViews SnapshotViews Snapshots.

Local Open Scope Z_scope.

Lemma snap_bind_Ok {A B} (f : A → Snap B) (m : Snap A) w b w' :
  (m ≫= f) w = (w', Ok b) ↔ ∃ a w1, m w = (w1, Ok a) ∧ f a w1 = (w', Ok b).
Proof.
  unfold mbind, snap_bind. destruct (m w) as [w1 [a|]] eqn:E; split; [by eauto| |done|by intros (? & ? & ? & _)].
  intros (a' & w1' & [= <- <-] & Hf). done.
Qed.
Lemma snap_check_Ok {A} (r : Result A) w a w' : snap_check r w = (w', Ok a) ↔ r = Ok a ∧ w' = w.
Proof. unfold snap_check. split; [by intros [= -> ->]|by intros [-> ->]]. Qed.

(** A conflict of the base view stays unless its path is resolved. *)
Lemma view_leaf_filter files conflicts (paths : list string) p :
  p ∉ paths → view_leaf files (List.filter (λ c, negb (bool_decide (ce_path c ∈ paths))) conflicts) p = view_leaf files conflicts p.
Proof.
  intros Hp. unfold view_leaf. assert (
    snd <$> list_find (λ c, ce_path c = p) (List.filter (λ c, negb (bool_decide (ce_path c ∈ paths))) conflicts) =
    snd <$> list_find (λ c, ce_path c = p) conflicts) as Hf.
  { induction conflicts as [|c l IH]; [done|]. simpl. case_bool_decide as Hc; simpl.
    - rewrite IH, decide_False by congruence. by destruct (list_find _ l) as [[]|].
    - destruct (decide (ce_path c = p)); [done|]. clear -IH. destruct (list_find _ (List.filter _ l)) as [[]|], (list_find _ l) as [[]|]; simpl in *; congruence. }
  by destruct (list_find _ (List.filter _ conflicts)) as [[]|], (list_find _ conflicts) as [[]|]; simpl in *; simplify_eq.
Qed.
Lemma resolve_path_lookup files m l p :
  foldl (resolve_path files) m l !! p = if decide (p ∈ l) then live (files !! p) else m !! p.
Proof.
  revert m. induction l as [|q l IH]; intros m; [done|]. simpl. rewrite IH. destruct (decide (p ∈ l)) as [Hl|Hl].
  - by rewrite decide_True by (by right).
  - unfold resolve_path. destruct (decide (p = q)) as [->|Hne].
    + rewrite decide_True by (by left). destruct (live (files !! q)); [by rewrite lookup_insert_eq|by rewrite lookup_delete_eq].
    + rewrite decide_False by (rewrite elem_of_cons; tauto). destruct (live (files !! q)); [by rewrite lookup_insert_ne|by rewrite lookup_delete_ne].
Qed.

(** The leaf a resolution leaves at a path: resolved paths take their file; an additional path does
    unless its own conflict is still recorded; nothing else changes. *)
Definition resolved_leaf (paths additional_paths : list string) (files : gmap string FileState) (old : option TreeEntry) (p : string) : option TreeEntry :=
  let file := file_entry (last_component p) <$> live (files !! p) in
  let pending := match old with Some e => match te_kind e with Conflict _ _ _ _ => true | _ => false end | None => false end in
  if bool_decide (p ∈ paths) then file
  else if bool_decide (p ∈ additional_paths) && negb pending then file
  else old.
Lemma live_live o : live (live o) = live o.
Proof. destruct o as [s|]; [|done]. simpl. destruct (fs_deleted s) eqn:E; [done|]. simpl. by rewrite E. Qed.
Lemma resolved_view paths additional_paths files st p :
  (∀ c, c ∈ lt_conflicts st → is_Some (representative c)) →
  let st' := resolved_state paths additional_paths files st in
  view_leaf (lt_files st') (lt_conflicts st') p = resolved_leaf paths additional_paths files (view_leaf (lt_files st) (lt_conflicts st) p) p.
Proof.
  intros Hrep. unfold resolved_state, resolved_leaf. simpl. case_bool_decide as Hp.
  - rewrite view_leaf_file, resolve_path_lookup, decide_True, live_live; [done|apply elem_of_app; by left|].
    intros c Hc%list_elem_of_In <-. apply filter_In in Hc as [_ Hc]. by rewrite bool_decide_true in Hc.
  - rewrite view_leaf_filter by done. unfold view_leaf. destruct (list_find _ (lt_conflicts st)) as [[i c]|] eqn:E.
    + apply list_find_Some in E as (Hi & _ & _). apply list_elem_of_lookup_2 in Hi. destruct (Hrep c Hi) as [r Hr]. rewrite Hr. simpl.
      by rewrite andb_false_r.
    + rewrite resolve_path_lookup. case_bool_decide as Ha; simpl.
      * rewrite decide_True, live_live by (apply elem_of_app; by right). by destruct (live (lt_files st !! p)).
      * by rewrite decide_False by (rewrite elem_of_app; tauto).
Qed.

Section history.
Context `{Unicode, Blake3, HashOrder}.
Context (pack unpack : list byte → Result (list byte)).
Context (reachable_chunks : Objects → string → string → option Z → Result (list string)) (retention : Z).
Context (answers : nat → SnapAnswer).
(** Decryption undoes encryption; ids are hexadecimal digests. *)
Context (unpack_pack : ∀ b c, pack b = Ok c → unpack c = Ok b) (digest_hex : ∀ b, is_valid_hash (hash_bytes b) = true).
Context (D : Directory).
(** The directory has what the others upload; the clock is an i64. *)
Context (others : ∀ n id c b, sa_objects (answers n) !! id = Some c → hash_bytes c = id → unpack c = Ok b → D !! id = Some b).
Context (clock : ∀ n, - 2 ^ 63 ≤ sa_now (answers n) < 2 ^ 63).

Definition ws_ok (w : Workspace) : Prop := store_ok unpack D (ws_objects w).
(** The directory has what this client wrote, from inputs without collisions. *)
Definition ws_agrees (w : Workspace) : Prop := agrees pack D (ws_objects w) ∧ ∀ i, i ∈ ws_inputs w → sound_input pack i.
(** From [w] to [w']. *)
Record advances (w w' : Workspace) : Prop := {
  ad_written : ob_written (ws_objects w) ⊆ ob_written (ws_objects w');
  ad_inputs : ws_inputs w ⊆ ws_inputs w';
  ad_swaps : ws_swaps w `suffix_of` ws_swaps w';
  ad_ok : ws_ok w → ws_agrees w' → ws_ok w';
}.
Lemma agrees_before w w' : advances w w' → ws_agrees w' → ws_agrees w.
Proof using. intros [Hw Hi _ _] [Ha Hs]. split; [by eapply agrees_mono|]. auto. Qed.
#[global] Instance advances_preorder : PreOrder advances.
Proof using.
  split; [by constructor|]. intros w1 w2 w3 H12 H23. constructor; [etrans; [apply H12|apply H23]..|].
  intros Hok Ha. apply H23; [|done]. apply H12; [done|]. by eapply agrees_before.
Qed.
Definition steady {A} (m : Snap A) : Prop := ∀ w, advances w (m w).1.
Lemma steady_Ok {A} (m : Snap A) w a w' : steady m → m w = (w', Ok a) → advances w w'.
Proof using. intros Hm E. pose proof (Hm w) as Hw. by rewrite E in Hw. Qed.
Lemma steady_ret {A} (a : A) : steady (mret a).
Proof using. intros w. done. Qed.
Lemma steady_check {A} (r : Result A) : steady (snap_check r).
Proof using. intros w. done. Qed.
Lemma steady_bind {A B} (m : Snap A) (f : A → Snap B) : steady m → (∀ a, steady (f a)) → steady (m ≫= f).
Proof using.
  intros Hm Hf w. unfold mbind, snap_bind. pose proof (Hm w) as Hw. destruct (m w) as [w1 [a|e]]; [|done]. simpl in Hw. etrans; [exact Hw|apply Hf].
Qed.
(** A step that touches neither the objects nor the logs. *)
Lemma steady_act {A} (f : Workspace → Workspace * Result A) :
  (∀ w, ws_objects (f w).1 = ws_objects w ∧ ws_inputs (f w).1 = ws_inputs w ∧ ws_swaps w `suffix_of` ws_swaps (f w).1) → steady (snap_act f).
Proof using.
  intros Hf w. destruct (Hf w) as (Ho & Hi & Hs). unfold snap_act. constructor; rewrite ?Ho, ?Hi; [done..|]. unfold ws_ok. by rewrite Ho.
Qed.
Lemma steady_question : steady (question answers).
Proof using others.
  intros w. constructor; [done..|]. intros Hok _ id c [[Hc|Hc] Hh] b Hb; [by eapply Hok; [split; [by left|done]|]|]. simpl in Hc.
  apply lookup_union_Some_raw in Hc as [?|[_ ?]]; [|by eapply others]. eapply Hok; [split; [by right|done]|done].
Qed.
Hint Resolve steady_ret steady_check steady_bind steady_question : steady.
Lemma steady_loading {A} (f : (string → Result unit) → Objects → Result A) : steady (loading answers f).
Proof using others. apply steady_bind; [auto with steady|]. intros a. by apply steady_act. Qed.
Lemma steady_get_head : steady (get_head answers).
Proof using others. apply steady_bind; [auto with steady|]. intros a. by apply steady_act. Qed.
Lemma steady_swap e n : steady (swap_head answers e n).
Proof using others.
  apply steady_bind; [auto with steady|]. intros a. apply steady_act. intros w. assert (∀ x, ws_swaps w `suffix_of` x :: ws_swaps w) by (intros; by apply suffix_cons_r).
  repeat case_match; simpl; auto.
Qed.
Lemma steady_writing up i : steady (writing pack unpack reachable_chunks retention answers up i).
Proof using others unpack_pack.
  apply steady_bind; [auto with steady|]. intros a w. unfold snap_act. destruct (write_inner _ _ _ _ _ _ _ _ _ _) as [[id o]|] eqn:E; [|done].
  destruct (keeps_write pack unpack _ unpack_pack D _ _ _ _ _ _ _ _ _ E) as [Hs Hk]. constructor; simpl; [done|intros x Hx; by right|done|].
  intros Hok [Ha _]. by apply Hk.
Qed.
Hint Resolve steady_loading steady_get_head steady_swap steady_writing : steady.

(** ** What the calls return *)
Lemma loading_Ok {A} (f : (string → Result unit) → Objects → Result A) w w' a :
  loading answers f w = (w', Ok a) → ws_swaps w' = ws_swaps w ∧ ∃ net, f net (ws_objects w') = Ok a.
Proof using. intros (q & w1 & Hq & E)%snap_bind_Ok. unfold snap_act in E. injection E as -> Hf. unfold question in Hq. injection Hq as <- _. split; [done|eauto]. Qed.
Lemma swap_Ok e n w w' r :
  swap_head answers e n w = (w', Ok r) →
  match r with Swapped => ws_swaps w' = (e, n) :: ws_swaps w ∧ ws_head w' = Some n | HeadConflict c => ws_swaps w' = ws_swaps w ∧ ws_head w' = c ∧ c ≠ e end.
Proof using.
  intros (a & w1 & Hq & E)%snap_bind_Ok. unfold question in Hq. injection Hq as <- <-. unfold snap_act in E. simpl in E.
  case_decide; case_match; simplify_eq; simpl; auto.
Qed.
Lemma writing_Ok up i w w' id :
  writing pack unpack reachable_chunks retention answers up i w = (w', Ok id) → ws_agrees w' →
  ws_swaps w' = ws_swaps w ∧ ∃ s, dir_snapshot D id = Ok s ∧ sn_parents s = si_parents i ∧
    ∀ p, leaf_at D (sn_root s) p = view_leaf (si_files i) (si_input_conflicts i) p.
Proof using unpack_pack digest_hex clock.
  intros (a & w1 & Hq & E)%snap_bind_Ok [Ha Hs]. unfold question in Hq. injection Hq as <- <-. unfold snap_act in E.
  destruct (write_inner _ _ _ _ _ _ _ _ _ _) as [[id' o]|] eqn:Hw; [|done]. injection E as <- <-. simpl in *. split; [done|].
  eapply write_records in Hw as (_ & s & Hd & [= Hp _ _ _] & Hl); [eauto|done..|apply Ha|apply clock|apply Hs; by left].
Qed.
Lemma loaded_represented w id st net c :
  ws_ok w → ObjectStore.load_state unpack net (ws_objects w) id = Ok st → c ∈ lt_conflicts st → is_Some (representative c).
Proof using.
  intros Hok (s & Hs & _ & Hc)%(load_state_refines unpack net D) Hin; [|done]. apply Hc in Hin as (p & e & He & Hl).
  destruct (leaf_valid _ _ _ _ He) as (Hv & Hn & _). destruct (conflict_reload p e c Hv Hn Hl) as (_ & r & Hr & _). eauto.
Qed.
(** ** Resolving *)
(** The head [id] was put in place of [e], with the resolution of its leaves. *)
Definition resolves (paths additional_paths : list string) (files : gmap string FileState) (e id : string) : Prop :=
  ∃ old new, dir_snapshot D e = Ok old ∧ dir_snapshot D id = Ok new ∧ sn_parents new = [e] ∧
    ∀ p, leaf_at D (sn_root new) p = resolved_leaf paths additional_paths files (leaf_at D (sn_root old) p) p.
Lemma steady_resolve paths additional_paths files author n expected :
  steady (resolve_attempts pack unpack reachable_chunks retention answers paths additional_paths files author n expected).
Proof using unpack_pack others.
  revert expected. induction n as [|n IH]; intros expected; simpl; [apply steady_check|].
  apply steady_bind; [apply steady_loading|]. intros st. apply steady_bind; [apply steady_writing|]. intros cand.
  apply steady_bind; [apply steady_swap|]. intros [|[c|]]; [apply steady_ret|apply IH|apply steady_check].
Qed.
Lemma resolve_attempts_Ok paths additional_paths files author n expected w w' id :
  resolve_attempts pack unpack reachable_chunks retention answers paths additional_paths files author n expected w = (w', Ok id) →
  ws_ok w → ws_agrees w' → ∃ e, ws_swaps w' = (Some e, id) :: ws_swaps w ∧ resolves paths additional_paths files e id.
Proof using unpack_pack digest_hex clock others.
  revert expected w. induction n as [|n IH]; intros expected w; [done|]. simpl.
  intros (st & w1 & Hl & E)%snap_bind_Ok Hok Ha. apply snap_bind_Ok in E as (cand & w2 & Hw & E). apply snap_bind_Ok in E as (r & w3 & Hs & E).
  assert (advances w3 w') as A4 by (destruct r as [|[|]]; [by injection E as <- _|eapply steady_Ok, E; apply steady_resolve|done]).
  pose proof (steady_Ok _ _ _ _ (steady_loading _) Hl) as A1. pose proof (steady_Ok _ _ _ _ (steady_writing _ _) Hw) as A2.
  pose proof (steady_Ok _ _ _ _ (steady_swap _ _) Hs) as A3. assert (ws_agrees w3) as Ha3 by (by eapply agrees_before).
  assert (ws_agrees w2) as Ha2 by (by eapply agrees_before). assert (ws_agrees w1) as Ha1 by (by eapply agrees_before).
  assert (ws_ok w1) as Hok1 by (by apply A1). assert (ws_ok w3) as Hok3 by (apply A3; [by apply A2|done]).
  apply writing_Ok in Hw as [Hsw (new & Hn & Hp & Hv)]; [|done]. apply loading_Ok in Hl as (Hsl & net & Hl). apply swap_Ok in Hs.
  destruct r as [|[current|]]; [| |done].
  - injection E as <- <-. destruct Hs as [Hs _]. exists expected. split; [by rewrite Hs, Hsw, Hsl|].
    destruct (load_state_refines unpack net D _ _ _ Hok1 Hl) as (old & Ho & _). exists old, new. split_and!; [done..|].
    intros p. rewrite Hv. etrans; [apply (resolved_view paths additional_paths files st p); intros; by eapply (loaded_represented w1)|].
    f_equal. by eapply (loaded_leaf unpack net D (ws_objects w1)).
  - destruct (IH _ _ E Hok3 Ha) as (e & Hse & Hr). exists e. split; [|done]. rewrite Hse. destruct Hs as [Hs _]. by rewrite Hs, Hsw, Hsl.
Qed.

(** C7. Conflict resolution: when it returns a snapshot, that snapshot was swapped in exactly once,
    in place of the head it was computed from, which is its only parent.  Its leaves are those of
    that head, whatever others published meanwhile, except that the resolved paths have the given
    file or none, and so have the additional paths whose conflict is not recorded any more. *)
Theorem resolution_exact paths files additional_paths author w w' id :
  ws_ok w → resolve_conflicts pack unpack reachable_chunks retention answers paths files additional_paths author w = (w', Ok id) →
  ws_agrees w' → ∃ e, ws_swaps w' = (Some e, id) :: ws_swaps w ∧ resolves paths additional_paths files e id.
Proof using unpack_pack digest_hex clock others.
  intros Hok Hr Ha. unfold resolve_conflicts in Hr. apply snap_bind_Ok in Hr as (? & ? & [_ ->]%snap_check_Ok & Hr).
  apply snap_bind_Ok in Hr as (expected & w1 & Hh & Hr). destruct expected as [expected|]; [|done].
  pose proof (steady_Ok _ _ _ _ steady_get_head Hh) as A1. assert (advances w1 w') as A2 by (eapply steady_Ok, Hr; apply steady_resolve).
  assert (ws_ok w1) as Hok1 by (apply A1; [done|by eapply agrees_before]).
  assert (ws_swaps w1 = ws_swaps w) as <-.
  { unfold get_head in Hh. apply snap_bind_Ok in Hh as (a & w2 & Hq & Hh). injection Hh as <- _. by injection Hq as <- _. }
  by eapply resolve_attempts_Ok.
Qed.

(** ** Reading back and comparing *)
(** The leg a conflict shows: the other side's, else ours, else the base, each only while live. *)
Definition shown_leg (c : ConcurrentEdit) : option FileState :=
  first_some (live (ce_theirs c)) (first_some (live (ce_ours c)) (live (ce_base c))).
(** The file a written view has at a path: what the conflict there shows, else the live file. *)
Definition written_file (i : SnapshotInput) (p : string) : option FileState :=
  match list_find (λ c, ce_path c = p) (si_input_conflicts i) with Some (_, c) => shown_leg c | None => live (si_files i !! p) end.
(** A leg as it comes back: hash and mode are kept, the size only of the content that is shown. *)
Definition kept_leg (path : string) (shown : FileState) (leg : option FileState) : option FileState :=
  (λ s, mkFileState path (fs_hash s) (if bool_decide (fs_hash s = fs_hash shown) then fs_size shown else 0) 0 false (fs_mode s)) <$> live leg.

Lemma representative_shown c : representative c = shown_leg c.
Proof. unfold representative, shown_leg. by destruct (live (ce_theirs c)), (live (ce_ours c)). Qed.
Lemma kept_leg_loaded p name k r (leg : option FileState) :
  (λ h, conflict_leg p h (size_of (mkTreeEntry name k (fs_hash r) (fs_size r) (fs_mode r)) (Some (fs_hash r)) h) (live_mode leg)) <$> live_hash leg =
  kept_leg p r leg.
Proof.
  unfold live_hash, live_mode, kept_leg, conflict_leg, size_of. destruct (live leg) as [s|]; [|done]. simpl.
  destruct (decide (Some (fs_hash s) = _)); [by rewrite bool_decide_true by congruence|by rewrite bool_decide_false by congruence].
Qed.
Lemma kept_conflict p name c r :
  shown_leg c = Some r → loaded_conflict p (conflict_entry name c r) =
  Some (ConcurrentEdit_new p (kept_leg p r (ce_base c)) (kept_leg p r (ce_ours c)) (kept_leg p r (ce_theirs c))).
Proof.
  intros Hr. unfold loaded_conflict, conflict_entry. cbn [te_kind].
  assert (first_some (live_hash (ce_theirs c)) (first_some (live_hash (ce_ours c)) (live_hash (ce_base c))) = Some (fs_hash r)) as ->.
  { unfold shown_leg in Hr. unfold live_hash. destruct (live (ce_theirs c)), (live (ce_ours c)), (live (ce_base c)); simplify_eq/=; done. }
  do 2 f_equal; apply kept_leg_loaded.
Qed.

(** C6. Snapshots round trip through the encrypted store: what is loaded later, from whatever the
    cache and the hub have become, is the recorded parents, author, time and message and, at every
    path, the file that was written there with its hash, size and mode: a live file, or the leg a
    conflict shows.  The conflicts that come back are those that were written, each with the hash
    and mode of its base, ours and theirs legs as far as they are live; the size is kept of the
    content that is shown and is 0 for the others, and the mtime is 0 everywhere. *)
Theorem snapshot_roundtrip net net' up now refs input o id o' later s st :
  write_inner pack unpack net reachable_chunks retention up now refs input o = Ok (id, o') → agrees pack D o' →
  - 2 ^ 63 ≤ now < 2 ^ 63 → sound_input pack input → store_ok unpack D later →
  ObjectStore.load_snapshot unpack net' later id = Ok s → ObjectStore.load_state unpack net' later id = Ok st →
  sn_parents s = si_parents input ∧ sn_author s = si_author input ∧ sn_created_at_ms s = now ∧ sn_message s = si_message input ∧
  (∀ p, lt_files st !! p = (λ f, mkFileState p (fs_hash f) (fs_size f) 0 false (fs_mode f)) <$> written_file input p) ∧
  (∀ c, c ∈ si_input_conflicts input → is_Some (shown_leg c)) ∧
  (∀ c, c ∈ lt_conflicts st ↔ ∃ w shown, w ∈ si_input_conflicts input ∧ shown_leg w = Some shown ∧
     c = ConcurrentEdit_new (ce_path w) (kept_leg (ce_path w) shown (ce_base w)) (kept_leg (ce_path w) shown (ce_ours w)) (kept_leg (ce_path w) shown (ce_theirs w))).
Proof using unpack_pack digest_hex.
  intros Hw Ha Hnow Hso Hok Hs Hst. apply (load_snapshot_refines unpack net' D _ Hok) in Hs.
  destruct (write_records pack unpack net unpack_pack digest_hex reachable_chunks retention D _ _ _ _ _ _ _ Hw Ha Hnow Hso) as (Hnd & s' & Hs' & Hm & Hr).
  destruct (write_Ok pack unpack net unpack_pack D reachable_chunks retention _ _ _ _ _ _ _ Hw Ha) as (bundle & _ & Hb & _).
  assert (∀ c, c ∈ si_input_conflicts input → is_Some (shown_leg c)) as Hlegs
    by (intros c Hc; rewrite <-representative_shown; by eapply flat_to_tree_legs).
  rewrite Hs in Hs'. injection Hs' as <-. injection Hm as Hp Hau Hti Hme. do 4 (split; [done|]).
  eapply records_load in Hst as [Hf Hc]; [|exact Hnd|by exists s|exact Hok]. split; [|split; [exact Hlegs|]].
  - intros p. rewrite Hf. unfold view_leaf, written_file. destruct (list_find _ _) as [[i c]|]; [rewrite representative_shown|].
    + by destruct (shown_leg c).
    + by destruct (live (si_files input !! p)).
  - intros c. rewrite Hc. split.
    + intros (p & e & He & Hl). unfold view_leaf in He. destruct (list_find _ _) as [[i w]|] eqn:E; [|by apply fmap_Some in He as (f & _ & ->)].
      apply list_find_Some in E as (Hi & <- & _). apply fmap_Some in He as (r & Hrep & ->). rewrite representative_shown in Hrep.
      rewrite (kept_conflict _ _ _ _ Hrep) in Hl. injection Hl as <-. exists w, r. split; [by eapply list_elem_of_lookup_2|done].
    + intros (w & r & Hin & Hrep & ->). exists (ce_path w), (conflict_entry (last_component (ce_path w)) w r).
      split; [|by apply kept_conflict]. apply view_leaf_conflict; [done|done|by rewrite representative_shown].
Qed.
Definition view_input (files : gmap string FileState) : SnapshotInput := mkSnapshotInput files [] [] "" None.
Lemma diff_view_changes net o snapshot_id files stats :
  store_ok unpack D o → sound_input pack (view_input files) → has_view pack D (view_input files) →
  diff_view pack unpack net o snapshot_id files = Ok stats →
  ∃ s, dir_snapshot D snapshot_id = Ok s ∧ changes_between (leaf_at D (sn_root s)) (view_leaf files []) (ts_changes stats).
Proof using digest_hex.
  intros Hok Hso Hv Hd. unfold diff_view in Hd. apply bind_Ok in Hd as (s & Hs%(load_snapshot_refines unpack net D _ Hok) & Hd).
  apply bind_Ok in Hd as (pb & Hp & Hd). unfold prepare_view in Hp. apply bind_Ok in Hp as (bundle & Hb & Hpb). exists s. split; [done|].
  apply (diff_extends _ (dir_bytes D) _ _ _ _ (read_refines unpack net D _ CacheOrHub Hok)) in Hd. apply diff_roots_changes in Hd.
  - eapply changes_between_ext; [| |exact Hd]; [done|]. intros p. change (leaf_at D (pb_root pb) p = view_leaf files [] p).
    rewrite (prepared_leaf pack D digest_hex bundle pb); [apply flat_to_tree_leaf; [done|apply Hso]|done|by apply Hso| |].
    + intros tid t Ht. eapply prepared_wf; [|done|done]. intros i t' Hi. by eapply (so_typed _ _ Hso).
    + intros tid t Ht. by eapply Hv.
  - intros id t Ht. by eapply prepared_in_dir.
Qed.
(** C26. Comparing a stored snapshot with a view, without uploading the view, reports exactly the
    paths whose leaf differs, in path order, each with both leaves. *)
Theorem diff_view_exact net o snapshot_id files stats :
  store_ok unpack D o → sound_input pack (view_input files) → has_view pack D (view_input files) →
  diff_view pack unpack net o snapshot_id files = Ok stats →
  ∃ s, dir_snapshot D snapshot_id = Ok s ∧ changes_between (leaf_at D (sn_root s)) (view_leaf files []) (ts_changes stats).
Proof using digest_hex. apply diff_view_changes. Qed.
End history.
