(* ===== verification/PruneProps.v ===== *)
(** * Pruning the cache of objects

    agent-core/src/object_gc.rs: what [prune] may remove. *)
From Stdlib Require Import ZArith Lia Ascii Strings.Byte.
From stdpp Require Import sorting numbers strings gmap list_numbers list options.
From S2P Require Import Prelude Text Paths Model Codec ObjectStore.

Local Open Scope Z_scope.

Definition newer (x y : LocalManifest) : Prop := lm_modified y ≤ lm_modified x.
#[global] Instance newer_dec x y : Decision (newer x y) := Z_le_dec _ _.
#[local] Instance newer_trans : Transitive newer.
Proof. intros x y z. unfold newer. lia. Qed.
Lemma insert_modified_perm x l : insert_modified x l ≡ₚ x :: l.
Proof. induction l as [|y l IH]; simpl; [done|]. case_match; [done|]. by rewrite IH, Permutation_swap. Qed.
Lemma newest_first_perm l : newest_first l ≡ₚ l.
Proof. induction l as [|x l IH]; [done|]. simpl. by rewrite insert_modified_perm, IH. Qed.
Lemma insert_modified_sorted x l : StronglySorted newer l → StronglySorted newer (insert_modified x l).
Proof.
  induction 1 as [|y l Hs IH Hall]; simpl; [by repeat constructor|]. destruct (lm_modified y <=? lm_modified x) eqn:E.
  - apply Z.leb_le in E. constructor; [by constructor|]. constructor; [done|]. eapply Forall_impl; [exact Hall|]. intros z Hz. unfold newer in *. lia.
  - apply Z.leb_gt in E. constructor; [done|]. rewrite insert_modified_perm. constructor; [unfold newer; lia|done].
Qed.
Lemma newest_first_sorted l : StronglySorted newer (newest_first l).
Proof. induction l; simpl; [constructor|by apply insert_modified_sorted]. Qed.
Lemma sorted_before l i m : StronglySorted newer l → l !! i = Some m → (i < length (filter (λ m', newer m' m) l))%nat.
Proof.
  intros Hs. revert i. induction Hs as [|x l Hs IH Hall]; intros [|i]; simpl; try done.
  - intros [= ->]. rewrite filter_cons_True by (unfold newer; lia). simpl. lia.
  - intros Hi. rewrite filter_cons_True; [simpl; specialize (IH i Hi); lia|]. rewrite Forall_forall in Hall. by apply Hall, (list_elem_of_lookup_2 _ i).
Qed.
Lemma elem_of_keep {A} (f : A → bool) l x : x ∈ List.filter f l ↔ x ∈ l ∧ f x = true.
Proof. rewrite !list_elem_of_In. apply filter_In. Qed.

Section prune.
Context `{Unicode, Blake3, HashOrder}.
(** The manifests with a readable name. *)
Definition readable (o : Objects) : list LocalManifest := List.filter (λ m, is_valid_hash (lm_id m)) (ob_manifests o).
(** The manifests whose objects pruning may drop: of no ref, out of retention and not among the last 50. *)
Definition expendable (now retention : Z) (refs : gset string) (o : Objects) (m : LocalManifest) : Prop :=
  lm_id m ∉ refs ∧ ¬ (0 ≤ now - lm_modified m ≤ retention) ∧ (KEEP_LAST < length (filter (λ m', newer m' m) (readable o)))%nat.
Lemma kept_unless now retention refs o m i :
  newest_first (readable o) !! i = Some m → keeps_manifest now retention refs (i, m) = false → expendable now retention refs o m.
Proof using.
  intros Hi Hk. unfold keeps_manifest in Hk. simpl in Hk. apply orb_false_iff in Hk as [[Hl Ht]%orb_false_iff Hr%bool_decide_eq_false].
  split_and!; [done| |].
  - intros Hin. rewrite !(proj2 (Z.leb_le _ _)) in Ht by lia. done.
  - apply Nat.ltb_ge in Hl. pose proof (sorted_before _ _ _ (newest_first_sorted (readable o)) Hi) as Hlt.
    rewrite newest_first_perm in Hlt. lia.
Qed.

(** C28. Pruning removes an object of the cache only if every ref has a manifest and each manifest
    that lists the object is expendable: it belongs to no ref, is out of the retention period, and
    fifty others are at least as recent.  A manifest goes only if it is expendable, and no other
    part of the store changes. *)
Theorem prune_safe now retention refs o :
  let o' := prune now retention refs o in
  (∀ h, is_Some (ob_cache o !! h) → ob_cache o' !! h = None →
     refs ⊆ list_to_set (lm_id <$> readable o) ∧ ∀ m, m ∈ readable o → h ∈ lm_hashes m → expendable now retention refs o m) ∧
  (∀ m, m ∈ ob_manifests o → m ∉ ob_manifests o' → expendable now retention refs o m) ∧
  ob_cache o' ⊆ ob_cache o ∧ ob_hub o' = ob_hub o ∧ ob_known o' = ob_known o ∧ ob_hub_manifests o' = ob_hub_manifests o.
Proof using.
  unfold prune. case_match; [simpl; split_and!; try done; by intros h [? ->] ?|].
  fold (readable o). cbn zeta. cbn [ob_manifests ob_cache]. set (manifests := newest_first (readable o)).
  set (kept := List.filter (keeps_manifest now retention refs) (zip (seq 0 (length manifests)) manifests)).
  assert (∀ m, m ∈ readable o → m ∈ kept.*2 ∨ expendable now retention refs o m) as Hkept.
  { intros m. rewrite <-newest_first_perm. fold manifests. intros [i Hi]%list_elem_of_lookup.
    destruct (keeps_manifest now retention refs (i, m)) eqn:Hk; [left|right; by eapply kept_unless].
    apply list_elem_of_fmap. exists (i, m). split; [done|]. apply elem_of_keep. split; [|done]. apply list_elem_of_lookup. exists i.
    apply lookup_zip_with_Some. exists i, m. split_and!; [done| |done]. apply lookup_seq. split; [done|]. by eapply lookup_lt_Some. }
  destruct (bool_decide (refs ⊆ _)) eqn:Hrefs; simpl; [apply bool_decide_eq_true in Hrefs|split_and!; try done; by intros h [? ->] ?].
  split_and!; [| |apply map_filter_subseteq|done..].
  - intros h [c Hc] Hn. rewrite map_lookup_filter_None in Hn. destruct Hn as [?|Hn]; [congruence|]. specialize (Hn c Hc). simpl in Hn.
    apply not_true_is_false, negb_false_iff, andb_true_iff in Hn as [Hv Hl%negb_true_iff%bool_decide_eq_false].
    split; [intros r Hr%Hrefs; rewrite elem_of_list_to_set in *; unfold manifests in Hr; by rewrite newest_first_perm in Hr|].
    intros m Hm Hh. destruct (Hkept m Hm) as [Hk|?]; [|done]. destruct Hl. rewrite elem_of_list_to_set, elem_of_keep. split; [|done].
    apply list_elem_of_bind. eauto.
  - intros m Hm Hn. rewrite elem_of_app, elem_of_keep in Hn. destruct (is_valid_hash (lm_id m)) eqn:Hv; [|by destruct Hn; left].
    destruct (Hkept m) as [Hk|?]; [by apply elem_of_keep|by destruct Hn; right|done].
Qed.
End prune.
