(* ===== verification/Land.v ===== *)
(** * Landing and refreshing an agent's work

    agent-core/src/agent/diff.rs, land.rs, land/publish.rs, land/materialize.rs, refresh.rs, the scope
    filter of scope.rs, and the end of a sync pass (sync_pass/mod.rs).  File contents, downloads and
    the working folders are behind the oracle; what an upload adds to the hub is part of its answer. *)
From Stdlib Require Import ZArith Lia Ascii Strings.Byte.
From stdpp Require Import sorting numbers strings gmap list_numbers list pretty options.
From S2P Require Import RunnerStore.
From S2P Require Import Prelude Text Paths Model Codec CodecProps Lookup Convert Flatten Diff ThreeWay WorkContract.
From S2P Require Import SnapshotDiff Prepared Reachability TreeState ObjectStore Snapshots.

Local Open Scope Z_scope.

(** ** diff.rs *)
Record AgentDiff := mkAgentDiff {
  ad_current_head : string;
  ad_our_changes : list FileState;
  ad_their_changes : list FileState;
  ad_conflicts : list (ConcurrentEdit * ConflictKind);
  ad_conflict_risk : list string;
}.
Record LandCandidate := mkLandCandidate { lc_files : gmap string FileState; lc_conflicts : list ConcurrentEdit; lc_root : string }.

(** The order a [HashSet] is visited in. *)
Definition set_iter `{HashOrder} (s : gset string) : list string := (hash_iter (gset_to_gmap tt s)).*1.
Definition tombstone (path : string) (mtime : Z) (base : FileState) : FileState :=
  mkFileState path (fs_hash base) (fs_size base) mtime true (fs_mode base).
Definition base_map (our their : list TreeChange) : gmap string FileState :=
  hash_collect (omap (λ c, (λ e, (tc_path c, entry_state (tc_path c) e)) <$> tc_before c) (our ++ their)).
Definition their_changed (their : list TreeChange) : gmap string FileState :=
  hash_collect (omap (λ c, (λ e, (tc_path c, entry_state (tc_path c) e)) <$> tc_after c) their).
Definition their_deleted (their : list TreeChange) : gset string :=
  list_to_set (tc_path <$> List.filter (λ c, is_none (tc_after c)) their).
(** The agent's files with a tombstone for each deleted one. *)
Definition local_view (base agent_scan : gmap string FileState) (our : list TreeChange) : gmap string FileState :=
  foldl (λ m c, match tc_after c, base !! tc_path c with
                | None, Some b => <[tc_path c := tombstone (tc_path c) (fs_mtime b) b]> m
                | _, _ => m
                end) agent_scan our.
(** [apply]: the changes of a list put into a view. *)
Definition apply_change (m : gmap string FileState) (change : FileState) : gmap string FileState :=
  if fs_deleted change then delete (fs_path change) m else <[fs_path change := change]> m.

Section land.
Context `{Unicode, Blake3, HashOrder}.
Context (pack unpack : list byte → Result (list byte)).
Context (reachable_chunks : Objects → string → string → option Z → Result (list string)) (retention : Z).
Context (answers : nat → SnapAnswer).
Local Notation calling := (calling answers).
Local Notation get_head := (get_head answers).
Local Notation swap_head := (swap_head answers).
Local Notation load_snapshot := (Snapshots.load_snapshot unpack answers).
Local Notation load_state := (Snapshots.load_state unpack answers).
Local Notation load_files := (Snapshots.load_files unpack answers).
Local Notation write := (Snapshots.write pack unpack reachable_chunks retention answers).
Local Notation write_local := (Snapshots.write_local pack unpack reachable_chunks retention answers).
Local Notation read_agent_base := (read_agent_base answers).
Local Notation write_agent_base := (write_agent_base answers).

(** The part of [compute_agent_diff] after the two comparisons. *)
Definition agent_diff (current_head : string) (agent_scan : gmap string FileState) (our their : list TreeChange) : AgentDiff :=
  let base := base_map our their in
  let changed := their_changed their in
  let deleted := their_deleted their in
  let our_changed_paths := list_to_set (tc_path <$> our) : gset string in
  let conflicts := detect_concurrent_edits base (local_view base agent_scan our) changed deleted ∅ (set_iter our_changed_paths) in
  let conflict_paths := list_to_set (ce_path ∘ fst <$> conflicts) : gset string in
  let our_changes := omap (λ path,
    if bool_decide (path ∈ conflict_paths) then None
    else match agent_scan !! path with Some file => Some file | None => (λ b, tombstone path (fs_mtime b) b) <$> base !! path end)
    (set_iter our_changed_paths) in
  let their_changes :=
    (List.filter (λ kv, negb (bool_decide (kv.1 ∈ our_changed_paths))) (hash_iter changed)).*2 ++
    omap (λ path, if bool_decide (path ∈ our_changed_paths) then None else tombstone path 0 <$> base !! path) (set_iter deleted) in
  let conflict_risk := (List.filter (λ kv, negb (bool_decide (kv.1 ∈ our_changed_paths)) &&
    match base !! kv.1, agent_scan !! kv.1 with
    | Some b, Some f => bool_decide (fs_hash f = fs_hash b) && (fs_mode f =? fs_mode b)
    | _, _ => false
    end) (hash_iter changed)).*1 in
  mkAgentDiff current_head our_changes their_changes conflicts conflict_risk.
Definition compute_agent_diff (name : string) : Snap AgentDiff :=
  _ ← snap_check (validate_name name);
  _ ← calling (λ _, tt);                                                       (* the directory of the agent *)
  base_id ← read_agent_base name;
  head ← get_head;
  current_head ← match head with
    | Some head => mret head
    | None => legacy ← calling sa_files; publish_server_view pack unpack reachable_chunks retention answers legacy "legacy-import"
    end;
  server_files ← load_files current_head;
  agent_scan ← calling sa_scan;
  our_diff ← diff_file_view pack unpack answers base_id agent_scan;
  their_diff ← diff_file_view pack unpack answers base_id server_files;
  mret (agent_diff current_head agent_scan (ts_changes our_diff) (ts_changes their_diff)).
(** The candidate of a loaded head. *)
Definition land_state (diff : AgentDiff) (st : LoadedTree) : LoadedTree :=
  let changed_paths := list_to_set ((fs_path <$> ad_our_changes diff) ++ (ce_path ∘ fst <$> ad_conflicts diff)) : gset string in
  mkLoadedTree (foldl apply_change (lt_files st) (ad_our_changes diff))
    (List.filter (λ c, negb (bool_decide (ce_path c ∈ changed_paths))) (lt_conflicts st) ++ (ad_conflicts diff).*1).
Definition build_land_candidate (diff : AgentDiff) : Snap LandCandidate :=
  st ← load_state (ad_current_head diff);
  let st := land_state diff st in
  root ← snap_check (candidate_root pack (lt_files st) (lt_conflicts st));
  mret (mkLandCandidate (lt_files st) (lt_conflicts st) root).

(** ** Scopes *)
Definition filter_diff_by_scope (diff : AgentDiff) (scope : WorkScope) : AgentDiff :=
  mkAgentDiff (ad_current_head diff)
    (List.filter (λ change, scope_covers_path scope (fs_path change)) (ad_our_changes diff)) (ad_their_changes diff)
    (List.filter (λ c, scope_covers_path scope (ce_path c.1)) (ad_conflicts diff)) (ad_conflict_risk diff).
Definition filter_diff_to_scope (diff : AgentDiff) (scope_paths : list string) : AgentDiff :=
  match scope_paths with
  | [] => diff
  | _ => mkAgentDiff (ad_current_head diff)
           (List.filter (λ change, existsb (λ entry, scope_entry_covers_path entry (fs_path change)) scope_paths) (ad_our_changes diff))
           (ad_their_changes diff)
           (List.filter (λ c, existsb (λ entry, scope_entry_covers_path entry (ce_path c.1)) scope_paths) (ad_conflicts diff))
           (ad_conflict_risk diff)
  end.

Record AgentScopePartition := mkAgentScopePartition { as_in_scope_changes : Z; as_out_of_scope : list string; as_out_of_scope_changes : list FileState }.
Definition partition_agent_scope (name : string) (scope : WorkScope) : Snap AgentScopePartition :=
  diff ← compute_agent_diff name;
  let partition := partition_scope_paths (fs_path <$> ad_our_changes diff) scope in
  mret (mkAgentScopePartition (zlen (in_scope partition)) (out_of_scope partition)
          (List.filter (λ change, negb (scope_covers_path scope (fs_path change))) (ad_our_changes diff))).

(** ** land/publish.rs *)
(** Uploading the content of a change or of our leg of a conflict; the file may have changed. *)
Definition upload_content (_ : FileState) : Snap unit := calling (λ _, tt).
Definition live_states (l : list FileState) : list FileState := List.filter (λ s, negb (fs_deleted s)) l.
Definition land_parents (agent_base current_head : string) : list string :=
  if bool_decide (agent_base = current_head) then [current_head] else [agent_base; current_head].
Fixpoint publish_land (name agent_base : string) (scope_paths : list string) (attempts : nat) (diff : AgentDiff) : Snap (AgentDiff * string) :=
  match attempts with
  | O => snap_err "workspace head changed too many times during land"
  | S attempts =>
      let recompute := (diff ← compute_agent_diff name;
                        publish_land name agent_base scope_paths attempts (filter_diff_to_scope diff scope_paths)) in
      _ ← snap_each upload_content (live_states (ad_our_changes diff));
      _ ← snap_each upload_content (omap (λ c, live (ce_ours c.1)) (ad_conflicts diff));
      _ ← calling (λ _, tt);                                                     (* prefetch_downloads *)
      current ← load_snapshot (ad_current_head diff);
      candidate_state ← build_land_candidate diff;
      if bool_decide (lc_root candidate_state = sn_root current) then
        head ← get_head;
        if bool_decide (head = Some (ad_current_head diff)) then mret (diff, ad_current_head diff) else recompute
      else
        candidate ← write (mkSnapshotInput (lc_files candidate_state) (lc_conflicts candidate_state)
                             (land_parents agent_base (ad_current_head diff)) name None);
        swapped ← swap_head (Some (ad_current_head diff)) candidate;
        match swapped with
        | Swapped => mret (diff, candidate)
        | HeadConflict (Some _) => recompute
        | HeadConflict None => snap_err "workspace head disappeared during agent land"
        end
  end.

(** ** land/materialize.rs *)
(** Which changes reach the folder: a changed or unreadable file diverts its change. *)
Definition materialize_change (gate_local : gmap string FileState) (landed : gmap string FileState) (change : FileState) : Snap (gmap string FileState) :=
  a ← question answers;
  let diverted := match sa_files a !! fs_path change, gate_local !! fs_path change with
    | Some current, Some gate => negb (fs_deleted change) && (sa_fails a || negb (bool_decide (fs_hash current = fs_hash gate)))
    | _, _ => false
    end in
  mret (if diverted then landed else <[fs_path change := change]> landed).
Fixpoint materialize_changes (gate_local landed : gmap string FileState) (changes : list FileState) : Snap (gmap string FileState) :=
  match changes with
  | [] => mret landed
  | change :: changes => landed ← materialize_change gate_local landed change; materialize_changes gate_local landed changes
  end.
Definition materialize_land (gate_local : gmap string FileState) (diff : AgentDiff) : Snap (gmap string FileState) :=
  landed_states ← materialize_changes gate_local ∅ (ad_our_changes diff);
  _ ← calling (λ _, tt);                                                         (* process_downloads, process_delete_local *)
  if bool_decide (landed_states = ∅) then mret landed_states else
  scan ← calling sa_files;
  let local_after := foldl (λ m change, <[fs_path change := change]> m) scan (List.filter fs_deleted (hash_iter landed_states).*2) in
  _ ← calling (λ _, tt);                                                         (* process_uploads *)
  _ ← record_last_synced pack unpack reachable_chunks retention answers local_after "land";
  mret landed_states.

(** ** land.rs *)
(** The gate of a land that is recovered after its swap. *)
Definition adopt_change (current : gmap string FileState) (gate : gmap string FileState) (change : FileState) : gmap string FileState :=
  if fs_deleted change then (if has_key current (fs_path change) then gate else delete (fs_path change) gate)
  else match current !! fs_path change with
       | Some actual => if negb (fs_deleted actual) && bool_decide (fs_hash actual = fs_hash change) && (fs_mode actual =? fs_mode change)
                        then <[fs_path change := actual]> gate else gate
       | None => gate
       end.
Definition scoped (scope : option WorkScope) (diff : AgentDiff) : AgentDiff :=
  match scope with Some scope => filter_diff_by_scope diff scope | None => diff end.
Definition scope_entries (scope : option WorkScope) : list string :=
  match scope with Some scope => dedup (sort_strings (sc_paths scope)) | None => [] end.
Definition land_agent (name : string) (clean_after : bool) (scope : option WorkScope) : Snap (AgentDiff * string) :=
  pending ← calling sa_paths;
  _ ← snap_check (bail_if (negb (bool_decide (pending = []))) "Your folder needs attention before landing agent work");
  agent_base ← read_agent_base name;
  diff ← compute_agent_diff name;
  let diff := scoped scope diff in
  initial ← build_land_candidate diff;
  current_snapshot ← load_snapshot (ad_current_head diff);
  let recovering := negb (bool_decide (ad_our_changes diff = [])) && bool_decide (lc_root initial = sn_root current_snapshot)
                    && bool_decide (sn_author current_snapshot = name) && bool_decide (agent_base ∈ sn_parents current_snapshot) in
  let recovery_gate_head := if recovering then last (sn_parents current_snapshot) else None in
  diff ← (if recovering then mret diff else
    blocked ← calling sa_paths;                                                  (* run_sync_pass_locked *)
    _ ← snap_check (bail_if (negb (bool_decide (blocked = []))) "Your folder needs attention before landing agent work");
    diff ← compute_agent_diff name;
    mret (scoped scope diff));
  gate_local ← (match recovery_gate_head with
    | Some previous_head =>
        gate ← load_state previous_head;
        current ← calling sa_files;
        mret (foldl (adopt_change current) (lt_files gate) (ad_our_changes diff))
    | None => calling sa_files
    end);
  _ ← (if recovering then mret tt else
    blocked ← calling sa_paths;                                                  (* negotiate_sync_with_conflict_gate *)
    snap_check (bail_if (negb (bool_decide (blocked = []))) "Your folder changed during land and needs attention"));
  _ ← calling (λ _, tt);                                                         (* preflight_download_projection *)
  '(diff, snapshot_id) ← publish_land name agent_base (scope_entries scope) 8 diff;
  _ ← materialize_land gate_local diff;
  _ ← (if bool_decide (ad_conflicts diff = []) then mret tt else calling (λ _, tt)); (* register_and_write_conflicts *)
  _ ← calling (λ _, tt);                                                         (* proposals *)
  _ ← (if clean_after then calling (λ _, tt) else
    base_snapshot ← (if bool_decide (ad_their_changes diff = []) && bool_decide (ad_conflicts diff = []) then mret snapshot_id else
      base_state ← load_state agent_base;
      write_local (mkSnapshotInput (foldl apply_change (lt_files base_state) (ad_our_changes diff)) (lt_conflicts base_state)
                     [agent_base] name (Some "post-land working-copy base")));
    write_agent_base name base_snapshot);
  mret (diff, snapshot_id).

(** ** refresh.rs *)
Definition refresh_agent (name : string) (replace : bool) : Snap (list string * list string) :=
  diff ← compute_agent_diff name;
  base_snapshot ← read_agent_base name;
  refreshed_base ← load_files base_snapshot;
  if replace then
    agent_scan ← calling sa_scan;
    _ ← snap_each upload_content (live_states (hash_iter agent_scan).*2);
    before_replace ← write (mkSnapshotInput agent_scan [] [base_snapshot] name (Some "before refresh --replace"));
    current ← load_state (ad_current_head diff);
    let delete_local := List.filter (λ path, negb (has_key (lt_files current) path)) (hash_iter agent_scan).*1 in
    _ ← calling (λ _, tt);                                                       (* process_downloads, process_delete_local *)
    refreshed_snapshot ← write (mkSnapshotInput (lt_files current) (lt_conflicts current) [before_replace; ad_current_head diff] name
                                  (Some "refresh --replace"));
    _ ← write_agent_base name refreshed_snapshot;
    mret (dedup (sort_strings ((fs_path <$> (hash_iter (lt_files current)).*2) ++ delete_local)), [])
  else
    _ ← calling (λ _, tt);                                                       (* scan, process_downloads, process_delete_local *)
    let refreshed := fs_path <$> ad_their_changes diff in
    _ ← (if bool_decide (refreshed = []) then mret tt else
      refreshed_snapshot ← write (mkSnapshotInput (foldl apply_change refreshed_base (ad_their_changes diff)) [] [base_snapshot] name (Some "refresh"));
      write_agent_base name refreshed_snapshot);
    mret (refreshed, ce_path ∘ fst <$> ad_conflicts diff).

(** ** The end of a sync pass *)
Definition states_agree (local remote : option FileState) : bool :=
  match live local, live remote with
  | Some local, Some remote => bool_decide (fs_hash local = fs_hash remote)
  | None, None => true
  | _, _ => false
  end.
(** The files of the candidate: a blocked path keeps the state of the head. *)
Definition restore_path (head_files m : gmap string FileState) (path : string) : gmap string FileState :=
  match head_files !! path with Some state => <[path := state]> m | None => delete path m end.
Definition sync_candidate (current_files head_files : gmap string FileState) (conflict_paths : gset string) : gmap string FileState :=
  foldl (restore_path head_files) current_files (set_iter conflict_paths).
(** One path of the legacy branch. *)
Definition agree_path (conflict_paths : gset string) (local_before current_files server_files agreed : gmap string FileState) (path : string) : gmap string FileState :=
  if bool_decide (path ∈ conflict_paths) then agreed else
  if negb (states_agree (current_files !! path) (server_files !! path)) then agreed else
  match live (server_files !! path) with
  | Some remote => <[path := remote]> agreed
  | None =>
      match first_some (current_files !! path) (first_some (local_before !! path) (agreed !! path)) with
      | Some source => <[path := mkFileState (fs_path source) (fs_hash source) 0 (fs_mtime source) true (fs_mode source)]> agreed
      | None => agreed
      end
  end.
Local Notation snapshot_local_view := (snapshot_local_view pack unpack reachable_chunks retention answers).
Definition finish_sync_pass (format_version : Z) (local_before : gmap string FileState) (conflict_paths : gset string) (pull : bool)
    (negotiated_head : option string) : Snap unit :=
  current_files ← calling sa_files;
  if 3 <=? format_version then
    '(head_files, head_conflicts, current_root) ← (match negotiated_head with
      | Some id =>
          snapshot ← load_snapshot id;
          state ← load_state id;
          mret (lt_files state, lt_conflicts state, Some (sn_root snapshot))
      | None => mret (∅, [], None)
      end);
    if pull then
      match negotiated_head with
      | Some committed =>
          local_root ← snap_check (candidate_root pack current_files head_conflicts);
          if bool_decide (conflict_paths = ∅) && bool_decide (current_root = Some local_root) then record_committed_refs answers committed
          else (_ ← snapshot_local_view current_files "you"; record_last_synced_ref answers committed)
      | None => _ ← snapshot_local_view current_files "you"; mret tt
      end
    else
      let candidate_files := sync_candidate current_files head_files conflict_paths in
      root ← snap_check (candidate_root pack candidate_files head_conflicts);
      committed ← (if bool_decide (current_root = Some root) then snap_check (or_context negotiated_head "unchanged format v3 workspace has no head") else
        candidate ← write (mkSnapshotInput candidate_files head_conflicts (option_list negotiated_head) "sync" None);
        swapped ← swap_head negotiated_head candidate;
        match swapped with Swapped => mret candidate | HeadConflict _ => snap_err "workspace head changed during sync; retry" end);
      _ ← calling (λ _, tt);                                                     (* set_workspace_format *)
      if bool_decide (conflict_paths = ∅) then record_committed_refs answers committed
      else (_ ← snapshot_local_view current_files "you"; record_last_synced_ref answers committed)
  else
    server_files ← calling sa_files;
    agreed ← load_last_synced unpack answers;
    let paths := list_to_set ((hash_iter agreed).*1 ++ (hash_iter local_before).*1 ++ (hash_iter current_files).*1 ++ (hash_iter server_files).*1) : gset string in
    let agreed := foldl (agree_path conflict_paths local_before current_files server_files) agreed (set_iter paths) in
    _ ← record_last_synced pack unpack reachable_chunks retention answers agreed "sync";
    _ ← snapshot_local_view current_files "you";
    _ ← publish_server_view pack unpack reachable_chunks retention answers server_files "sync";
    mret tt.
End land.
