(* ===== verification/LandProps.v ===== *)
(** * What landing publishes

    The new head merges three views path by path: the snapshot the agent started from, the agent's
    files, and the head it replaces. *)
From Stdlib Require Import ZArith Lia Ascii Strings.Byte.
From stdpp Require Import sorting numbers strings gmap list_numbers list pretty options.
From S2P Require Import RunnerStore.
From S2P Require Import Prelude Text Paths Model Codec CodecProps Lookup Convert ConvertProps Flatten FlattenProps Diff DiffProps ThreeWay WorkContract.
From S2P Require Import SnapshotDiff SnapshotDiffProps Prepared PreparedProps Reachability TreeState TreeStateProps ObjectStore ObjectStoreProps.
From S2P Require Import StoreViews SnapshotViews Snapshots SnapshotProps Land.

Local Open Scope Z_scope.

(** ** The merge of one path *)
Definition leaf_content (o : option TreeEntry) : option (string * Z) := (λ e, (te_hash e, te_mode e)) <$> o.
Definition leaf_mode (o : option TreeEntry) : Z := match o with Some e => te_mode e | None => 0 end.
(** A conflict seen as the file it shows. *)
Definition visible (p : string) (o : option TreeEntry) : option TreeEntry := (λ e, file_entry (last_component p) (entry_state p e)) <$> o.
(** Both sides moved away from the base, the agent to another content than the base and the head. *)
Definition clash (base agent head : option TreeEntry) : bool :=
  negb (bool_decide (base = head)) && negb (bool_decide (leaf_content agent = leaf_content base)) && negb (bool_decide (leaf_content agent = leaf_content head)).
Definition clash_leaf (p : string) (base agent head : option TreeEntry) : option TreeEntry :=
  (λ v, mkTreeEntry (last_component p) (Conflict (te_hash <$> base) (te_hash <$> agent) (te_hash <$> head)
          (mkConflictModes (leaf_mode base) (leaf_mode agent) (leaf_mode head))) (te_hash v) (te_size v) (te_mode v))
  <$> first_some head (first_some agent base).
Definition is_conflict_kind (k : TreeEntryKind) : bool := match k with Conflict _ _ _ _ => true | _ => false end.
(** The leaf after landing: [head] where the agent changed nothing, else the agent's, or a conflict. *)
Definition merged_leaf (p : string) (base agent head : option TreeEntry) : option TreeEntry :=
  if bool_decide (agent = base) then head
  else if clash base agent (visible p head) then clash_leaf p base agent (visible p head)
  else agent.

Lemma merged_conflict p e h a :
  is_conflict_kind (te_kind e) = true →
  merged_leaf p (Some e) (visible p (Some e)) h = visible p (Some e) ∧
  (a ≠ visible p (Some e) → merged_leaf p (visible p (Some e)) a (Some e) = a).
Proof.
  intros Hk. unfold merged_leaf, clash. split.
  - rewrite bool_decide_false; [|intros Heq; injection Heq as Heq; by rewrite <-Heq in Hk].
    rewrite (bool_decide_true (leaf_content (visible p (Some e)) = leaf_content (Some e))) by done. by rewrite andb_false_r.
  - intros Hne. by rewrite !bool_decide_false, bool_decide_true by done.
Qed.

(** ** Lists and maps *)
Section iter.
Context `{HashOrder}.
Lemma elem_of_set_iter (s : gset string) x : x ∈ set_iter s ↔ x ∈ s.
Proof.
  unfold set_iter. rewrite list_elem_of_fmap. split.
  - intros ([k []] & -> & Hk%elem_of_hash_iter). by apply lookup_gset_to_gmap_Some in Hk as [? _].
  - intros Hx. exists (x, tt). split; [done|]. apply elem_of_hash_iter. by apply lookup_gset_to_gmap_Some.
Qed.
Lemma set_iter_NoDup (s : gset string) : NoDup (set_iter s).
Proof. apply hash_iter_NoDup. Qed.
End iter.
Lemma hash_collect_unique {A} (l : list (string * A)) k a :
  (k, a) ∈ l → (∀ a', (k, a') ∈ l → a' = a) → hash_collect l !! k = Some a.
Proof.
  intros Hin Hu. destruct (proj2 (hash_collect_is_Some l k)) as [a' Ha']; [by apply (list_elem_of_fmap_2 fst) in Hin|].
  rewrite Ha'. f_equal. by apply Hu, hash_collect_Some.
Qed.
Lemma hash_collect_absent {A} (l : list (string * A)) k : (∀ a, (k, a) ∉ l) → hash_collect l !! k = None.
Proof. intros Hn. destruct (hash_collect l !! k) eqn:E; [|done]. by apply hash_collect_Some, Hn in E. Qed.

Lemma omap_paths_NoDup (g : string → option FileState) l :
  NoDup l → (∀ p f, p ∈ l → g p = Some f → fs_path f = p) → NoDup (fs_path <$> omap g l).
Proof.
  induction l as [|p l IH]; [constructor|]. rewrite NoDup_cons. intros [Hp Hl] Hg. assert (NoDup (fs_path <$> omap g l)) as Hrest
    by (apply IH; [done|]; intros; apply Hg; [by right|done]).
  simpl. destruct (g p) as [f|] eqn:E; [|done]. simpl. apply NoDup_cons. split; [|done].
  rewrite (Hg p f (list_elem_of_here _ _) E). intros (f' & Hf & (q & Hq & Hqf)%list_elem_of_omap)%list_elem_of_fmap.
  pose proof (Hg q f' (list_elem_of_further _ _ _ Hq) Hqf) as Hq'. congruence.
Qed.

(** ** The maps of the diff *)
Section maps.
Context (B A T : string → option TreeEntry) (our their : list TreeChange).
Context (Hour : changes_between B A our) (Htheir : changes_between B T their).

Lemma our_paths p : p ∈ tc_path <$> our ↔ B p ≠ A p.
Proof using Hour.
  destruct Hour as (_ & Hs & Hc). rewrite list_elem_of_fmap. split; [|intros (c & ? & <-)%Hc; eauto].
  intros (c & -> & (Hb & Ha & Hne & _)%Hs). by rewrite <-Hb, <-Ha.
Qed.
Lemma base_map_lookup p : B p ≠ A p → base_map our their !! p = entry_state p <$> B p.
Proof using Hour Htheir.
  intros Hne. unfold base_map. set (l := omap _ _).
  assert (∀ s, (p, s) ∈ l ↔ Some s = entry_state p <$> B p) as Hl.
  { intros s. unfold l. rewrite list_elem_of_omap. setoid_rewrite elem_of_app. split.
    - intros (c & Hin & Hc). assert (tc_before c = B (tc_path c)) as Hb
        by (destruct Hin as [Hin|Hin]; [by apply (proj1 (proj2 Hour)) in Hin as [? _]|by apply (proj1 (proj2 Htheir)) in Hin as [? _]]).
      apply fmap_Some in Hc as (e & He & [= -> ->]). by rewrite <-Hb, He.
    - intros Hs. destruct (proj2 (proj2 Hour) p Hne) as (c & Hin & <-). exists c. split; [by left|].
      destruct (proj1 (proj2 Hour) c Hin) as (-> & _). destruct (B (tc_path c)); [|done]. simpl in *. congruence. }
  destruct (B p) as [b|] eqn:Hb; simpl in *; [|by apply hash_collect_absent; intros s ?%Hl].
  apply hash_collect_unique; [by apply Hl|]. intros s Hs%Hl. congruence.
Qed.
Lemma their_changed_lookup p : their_changed their !! p = if decide (B p = T p) then None else entry_state p <$> T p.
Proof using Htheir.
  unfold their_changed. set (l := omap _ _).
  assert (∀ s, (p, s) ∈ l ↔ B p ≠ T p ∧ Some s = entry_state p <$> T p) as Hl.
  { intros s. unfold l. rewrite list_elem_of_omap. destruct Htheir as (_ & Hs & Hc). split.
    - intros (c & (Hb & Ha & Hne & _)%Hs & Hx). apply fmap_Some in Hx as (e & He & [= -> ->]). rewrite <-Hb, <-Ha. split; [done|by rewrite He].
    - intros ((c & Hin & <-)%Hc & Hx). exists c. split; [done|]. destruct (Hs c Hin) as (_ & -> & _). destruct (T (tc_path c)); [|done]. simpl in *. congruence. }
  case_decide as Hd; [apply hash_collect_absent; intros s [? _]%Hl; done|].
  destruct (T p) as [t|] eqn:Ht; simpl in *; [|apply hash_collect_absent; by intros s [_ ?]%Hl].
  apply hash_collect_unique; [by apply Hl|]. intros s [_ Hs]%Hl. congruence.
Qed.
Lemma their_deleted_elem p : p ∈ their_deleted their ↔ B p ≠ T p ∧ T p = None.
Proof using Htheir.
  unfold their_deleted. rewrite elem_of_list_to_set, list_elem_of_fmap. setoid_rewrite list_elem_of_In. setoid_rewrite filter_In. setoid_rewrite <-list_elem_of_In.
  destruct Htheir as (_ & Hs & Hc). split.
  - intros (c & -> & Hin & Hn). destruct (Hs c Hin) as (Hb & Ha & Hne & _). rewrite <-Hb, <-Ha. split; [done|]. by destruct (tc_after c).
  - intros [(c & Hin & <-)%Hc Hn]. exists c. destruct (Hs c Hin) as (_ & Ha & _). rewrite Ha, Hn. done.
Qed.
Lemma local_view_lookup scan p :
  local_view (base_map our their) scan our !! p =
  match A p, B p with None, Some b => Some (tombstone p 0 (entry_state p b)) | _, _ => scan !! p end.
Proof using Hour Htheir.
  unfold local_view. assert (∀ l (m : gmap string FileState), l ⊆ our → foldl (λ m c, match tc_after c, base_map our their !! tc_path c with
      | None, Some b => <[tc_path c := tombstone (tc_path c) (fs_mtime b) b]> m | _, _ => m end) m l !! p =
    if decide (p ∈ tc_path <$> l) then match A p, B p with None, Some b => Some (tombstone p 0 (entry_state p b)) | _, _ => m !! p end else m !! p) as Hf.
  { intros l. induction l as [|c l IH]; intros m Hl; [done|]. simpl. rewrite IH by set_solver.
    assert (c ∈ our) as Hin by set_solver. destruct (proj1 (proj2 Hour) c Hin) as (Hb & Ha & Hne & _). rewrite Hb, Ha in Hne.
    rewrite Ha, (base_map_lookup _ Hne). destruct (decide (p = tc_path c)) as [->|Hp].
    - rewrite (decide_True (P := tc_path c ∈ _ :: _)) by (by left). destruct (A (tc_path c)), (B (tc_path c)); simpl; try (by case_decide).
      rewrite lookup_insert_eq. by case_decide.
    - assert (∀ x, match A (tc_path c), x with None, Some b => <[tc_path c := tombstone (tc_path c) (fs_mtime b) b]> m | _, _ => m end !! p = m !! p) as Hm
        by (intros [b|]; destruct (A (tc_path c)); by rewrite ?lookup_insert_ne).
      rewrite !Hm. assert (p ∈ tc_path c :: (tc_path <$> l) ↔ p ∈ tc_path <$> l) as Hiff by (rewrite elem_of_cons; tauto).
      by rewrite (decide_ext _ _ _ _ Hiff). }
  rewrite (Hf our scan) by done. case_decide as Hp; [done|]. rewrite our_paths in Hp. assert (A p = B p) as -> by (apply dec_stable; intros Hx; apply Hp; intros Hy; by apply Hx). by destruct (B p).
Qed.
End maps.

(** ** The diff *)
(** What a diff, filtered by a scope, says of the views. *)
Record lands (S : string → bool) (B A T : string → option TreeEntry) (diff : AgentDiff) : Prop := {
  ld_changes : NoDup (fs_path <$> ad_our_changes diff);
  ld_change f : f ∈ ad_our_changes diff → let p := fs_path f in
    S p = true ∧ B p ≠ A p ∧ clash (B p) (A p) (T p) = false ∧ file_entry (last_component p) <$> live (Some f) = A p;
  ld_changed p : S p = true → B p ≠ A p → clash (B p) (A p) (T p) = false → p ∈ fs_path <$> ad_our_changes diff;
  ld_conflicts : NoDup (ce_path ∘ fst <$> ad_conflicts diff);
  ld_conflict c : c ∈ (ad_conflicts diff).*1 → let p := ce_path c in
    S p = true ∧ B p ≠ A p ∧ clash (B p) (A p) (T p) = true ∧
    ∃ r, representative c = Some r ∧ Some (conflict_entry (last_component p) c r) = clash_leaf p (B p) (A p) (T p);
  ld_conflicted p : S p = true → B p ≠ A p → clash (B p) (A p) (T p) = true → p ∈ ce_path ∘ fst <$> ad_conflicts diff;
}.
Lemma lands_filter (S S' : string → bool) B A T diff (fo : FileState → bool) (fc : ConcurrentEdit * ConflictKind → bool) :
  lands S B A T diff → (∀ f, fo f = S' (fs_path f)) → (∀ c, fc c = S' (ce_path c.1)) →
  lands (λ p, S p && S' p) B A T (mkAgentDiff (ad_current_head diff) (List.filter fo (ad_our_changes diff)) (ad_their_changes diff)
    (List.filter fc (ad_conflicts diff)) (ad_conflict_risk diff)).
Proof.
  intros [Hn1 Hc1 Hd1 Hn2 Hc2 Hd2] Hfo Hfc.
  assert (∀ {X} (f : X → bool) (g : X → string) l, NoDup (g <$> l) → NoDup (g <$> List.filter f l)) as Hnd.
  { clear. intros X f g l. induction l as [|x l IH]; [done|]. simpl. rewrite NoDup_cons. intros [Hx Hl]. destruct (f x); simpl; [|by apply IH].
    apply NoDup_cons. split; [|by apply IH]. intros (y & Hy & [Hin _]%list_elem_of_In%filter_In)%list_elem_of_fmap. apply Hx.
    apply list_elem_of_fmap. exists y. by rewrite list_elem_of_In. }
  constructor; simpl.
  - by apply Hnd.
  - intros f [Hin Hf]%list_elem_of_In%filter_In. destruct (Hc1 f) as (-> & ?); [by apply list_elem_of_In|]. by rewrite <-Hfo, Hf.
  - intros p [HS HS']%andb_true_iff Hne Hcl. destruct (list_elem_of_fmap_1 _ _ _ (Hd1 p HS Hne Hcl)) as (f & -> & Hf). apply list_elem_of_fmap_2.
    apply list_elem_of_In, filter_In. rewrite <-list_elem_of_In. by rewrite Hfo.
  - by apply Hnd.
  - intros c (ck & -> & [Hin Hf]%list_elem_of_In%filter_In)%list_elem_of_fmap.
    destruct (Hc2 ck.1) as (-> & ?); [apply list_elem_of_fmap_2; by apply list_elem_of_In|]. by rewrite <-Hfc, Hf.
  - intros p [HS HS']%andb_true_iff Hne Hcl. destruct (list_elem_of_fmap_1 _ _ _ (Hd2 p HS Hne Hcl)) as (f & -> & Hf). apply list_elem_of_fmap_2.
    apply list_elem_of_In, filter_In. rewrite <-list_elem_of_In. by rewrite Hfc.
Qed.
Lemma lands_ext S S' B A T diff : (∀ p, S p = S' p) → lands S B A T diff → lands S' B A T diff.
Proof.
  intros He [Hn1 Hc1 Hd1 Hn2 Hc2 Hd2]. constructor; [done| |intros p; rewrite <-He; apply Hd1|done| |intros p; rewrite <-He; apply Hd2].
  - intros f Hf. cbv zeta. rewrite <-He. by apply Hc1.
  - intros c Hc. cbv zeta. rewrite <-He. by apply Hc2.
Qed.
(** The keys of a view that builds a tree are its paths. *)
Lemma flat_keys `{Unicode, Blake3, HashOrder} files conflicts bundle p s :
  flat_to_tree_with_conflicts files conflicts = Ok bundle → files !! p = Some s → fs_path s = p.
Proof.
  intros (ins & Hf & _)%flat_to_tree_Ok Hp%elem_of_hash_iter. unfold flat_inserts, flat_nodes in Hf.
  apply bind_Ok in Hf as (? & Hf & _). apply bind_Ok in Hf as (st & Hf & _). revert Hf Hp. generalize ([Node_default], TreeBudget_new).
  induction (hash_iter files) as [|[q f] l IH]; intros st0 Hf Hp; [by apply elem_of_nil in Hp|]. cbn [try_fold] in Hf.
  destruct (insert_file st0 (q, f)) as [st1|] eqn:E; [|done]. apply elem_of_cons in Hp as [[= <- <-]|Hp]; [|by eapply IH].
  destruct st0. unfold insert_file in E. apply bind_Ok in E as (? & Hb%bail_if_Ok & _). by apply negb_false_iff, bool_decide_eq_true in Hb.
Qed.
Lemma live_content p (o : option FileState) : leaf_content (file_entry (last_component p) <$> live o) = view o.
Proof. unfold leaf_content, view. by destruct (live o). Qed.
Lemma entry_content p (o : option TreeEntry) : view (entry_state p <$> o) = leaf_content o.
Proof. by destruct o. Qed.

Section diff_spec.
Context `{HashOrder} (B T : string → option TreeEntry) (scan : gmap string FileState) (our their : list TreeChange).
Local Notation A := (view_leaf scan []).
Context (Hour : changes_between B A our) (Htheir : changes_between B T their) (Hkeys : ∀ p s, scan !! p = Some s → fs_path s = p).
Local Notation bm := (base_map our their).
Local Notation lv := (local_view (base_map our their) scan our).

Lemma scan_leaf p : A p = file_entry (last_component p) <$> live (scan !! p).
Proof using. by apply view_leaf_file; intros c ?%elem_of_nil. Qed.
Lemma lv_view p : B p ≠ A p → live (lv !! p) = live (scan !! p).
Proof using Hour Htheir.
  intros Hne. rewrite (local_view_lookup B A T our their Hour Htheir). pose proof (scan_leaf p) as Hs. destruct (A p), (B p); try done.
  simpl. by destruct (live (scan !! p)).
Qed.
Lemma theirs_live p : B p ≠ T p → live (theirs (their_changed their) (their_deleted their) p) = entry_state p <$> T p.
Proof using Htheir.
  intros Hne. unfold theirs, theirs_state. rewrite (their_changed_lookup B T their Htheir), decide_False by done.
  destruct (T p) as [t|] eqn:Ht; simpl; [done|]. rewrite bool_decide_true; [done|]. apply (their_deleted_elem B T their Htheir). split; congruence.
Qed.
Lemma theirs_Some p : is_Some (theirs (their_changed their) (their_deleted their) p) ↔ B p ≠ T p.
Proof using Htheir.
  unfold theirs, theirs_state. rewrite (their_changed_lookup B T their Htheir). pose proof (their_deleted_elem B T their Htheir p) as Hd.
  case_decide as Heq; [|].
  - rewrite bool_decide_false by (rewrite Hd; tauto). split; [by intros []|done].
  - destruct (T p) eqn:Ht; simpl; [by split; eauto|]. rewrite bool_decide_true by (apply Hd; split; congruence). by split; eauto.
Qed.
Lemma diverged_clash p :
  B p ≠ A p → diverged bm lv (their_changed their) (their_deleted their) p ↔ clash (B p) (A p) (T p) = true.
Proof using Hour Htheir.
  intros Hne. unfold diverged, clash. rewrite !andb_true_iff, !negb_true_iff, !bool_decide_eq_false.
  rewrite (base_map_lookup B A T our their Hour Htheir p Hne).
  assert (view (lv !! p) = leaf_content (A p)) as Hv by (unfold view; rewrite lv_view by done; rewrite scan_leaf, live_content; done).
  rewrite Hv. destruct (decide (B p = T p)) as [Heq|Hbt].
  { split; [|naive_solver]. intros [Hd _]. exfalso. destruct (B p) as [b|] eqn:Hb; simpl in Hd.
    - destruct Hd as [_ Hd%theirs_Some]. congruence.
    - destruct Hd as [_ [t Ht]]. rewrite (their_changed_lookup B T their Htheir) in Ht. rewrite decide_True in Ht by congruence. done. }
  assert (view (theirs (their_changed their) (their_deleted their) p) = leaf_content (T p)) as Ht.
  { unfold view. rewrite theirs_live by done. by destruct (T p). }
  rewrite Ht. destruct (B p) as [b|] eqn:Hb; simpl.
  - change (view (Some (entry_state p b))) with (leaf_content (Some b)). rewrite theirs_Some, Hb. naive_solver.
  - assert (leaf_content (A p) ≠ None) as HA by (destruct (A p); done). split; [tauto|]. intros [_ Hc]. split; [|done]. split.
    + destruct (lv !! p) eqn:E; [by eauto|]. by rewrite <-Hv in HA.
    + rewrite (their_changed_lookup B T their Htheir), decide_False by congruence. destruct (T p); [by eauto|congruence].
Qed.
Lemma live_entry p (o : option TreeEntry) : live (entry_state p <$> o) = entry_state p <$> o.
Proof using. by destruct o. Qed.
Lemma edit_leaf p (c : ConcurrentEdit) :
  B p ≠ A p → clash (B p) (A p) (T p) = true → c = ConcurrentEdit_new p (bm !! p) (lv !! p) (theirs (their_changed their) (their_deleted their) p) →
  ∃ r, representative c = Some r ∧ Some (conflict_entry (last_component p) c r) = clash_leaf p (B p) (A p) (T p).
Proof using Hour Htheir.
  intros Hne Hcl ->. assert (B p ≠ T p) as Hbt.
  { unfold clash in Hcl. rewrite !andb_true_iff, !negb_true_iff, !bool_decide_eq_false in Hcl. tauto. }
  unfold representative, conflict_entry, clash_leaf, live_hash, live_mode, leaf_mode. simpl.
  rewrite theirs_live, (lv_view p Hne), (base_map_lookup B A T our their Hour Htheir p Hne), live_entry by done.
  rewrite scan_leaf in *. clear Hcl. destruct (T p) as [t|], (live (scan !! p)) as [a|], (B p) as [b|]; simpl in *; try done; eexists; (split; [reflexivity|]); done.
Qed.
Lemma our_change_Some p f :
  B p ≠ A p → match scan !! p with Some file => Some file | None => (λ b, tombstone p (fs_mtime b) b) <$> bm !! p end = Some f →
  fs_path f = p ∧ file_entry (last_component p) <$> live (Some f) = A p.
Proof using Hour Htheir Hkeys.
  intros Hne. rewrite scan_leaf. destruct (scan !! p) as [s|] eqn:Hs; [intros [= <-]; split; [by apply Hkeys|done]|].
  rewrite (base_map_lookup B A T our their Hour Htheir p Hne). destruct (B p); [|done]. simpl. by intros [= <-].
Qed.
Lemma our_change_is_Some p :
  B p ≠ A p → is_Some (match scan !! p with Some file => Some file | None => (λ b, tombstone p (fs_mtime b) b) <$> bm !! p end).
Proof using Hour Htheir.
  intros Hne. pose proof (scan_leaf p) as Hs. destruct (scan !! p); [eauto|]. rewrite (base_map_lookup B A T our their Hour Htheir p Hne). simpl in Hs.
  destruct (B p); [eauto|]. by destruct Hne.
Qed.
Lemma agent_diff_lands head : lands (λ _, true) B A T (agent_diff head scan our their).
Proof using Hour Htheir Hkeys.
  set (paths := list_to_set (tc_path <$> our) : gset string).
  assert (∀ p, p ∈ set_iter paths ↔ B p ≠ A p) as Hpaths.
  { intros p. unfold paths. rewrite elem_of_set_iter, elem_of_list_to_set. by apply our_paths. }
  set (cs := detect_concurrent_edits bm lv (their_changed their) (their_deleted their) ∅ (set_iter paths)).
  assert (∀ p, p ∈ ce_path ∘ fst <$> cs ↔ B p ≠ A p ∧ clash (B p) (A p) (T p) = true) as Hcs.
  { intros p. unfold cs. rewrite detected_elem, Hpaths. split; intros [Hne Hd]; (split; [done|]); by apply diverged_clash in Hd. }
  assert (∀ (p : string) f, p ∈ set_iter paths → (if bool_decide (p ∈ (list_to_set (ce_path ∘ fst <$> cs) : gset string)) then None
    else match scan !! p with Some file => Some file | None => (λ b, tombstone p (fs_mtime b) b) <$> bm !! p end) = Some f →
    fs_path f = p ∧ clash (B p) (A p) (T p) = false ∧ file_entry (last_component p) <$> live (Some f) = A p) as Hg.
  { intros p f Hne%Hpaths. case_bool_decide as Hc; [done|]. intros [Hp Hl]%our_change_Some; [|done]. split_and!; [done| |done].
    apply not_true_iff_false. intros Hcl. apply Hc, elem_of_list_to_set, Hcs. done. }
  constructor; simpl; fold paths; fold cs.
  - apply omap_paths_NoDup; [apply set_iter_NoDup|]. intros p f Hp Hf. by destruct (Hg p f Hp Hf).
  - intros f (p & Hp & Hf)%list_elem_of_omap. destruct (Hg p f Hp Hf) as (-> & Hcl & Hl). apply Hpaths in Hp. done.
  - intros p _ Hne Hcl. destruct (our_change_is_Some p Hne) as [f Hf]. pose proof (our_change_Some p f Hne Hf) as [<- _].
    apply list_elem_of_fmap_2, list_elem_of_omap. exists (fs_path f). split; [by apply Hpaths|]. rewrite bool_decide_false; [done|].
    rewrite elem_of_list_to_set, Hcs, Hcl. by intros [_ ?].
  - apply (detect_loop bm lv (their_changed their) (their_deleted their) ∅ (set_iter paths) [] ∅); [constructor|by intros c ?%elem_of_nil].
  - intros c ([c' k] & -> & Hin)%list_elem_of_fmap. simpl. pose proof Hin as [Hp Hd]%run_elem. apply Hpaths in Hp.
    assert (clash (B (ce_path c')) (A (ce_path c')) (T (ce_path c')) = true) as Hcl by (apply (list_elem_of_fmap_2 (ce_path ∘ fst)) in Hin; by apply Hcs in Hin as [_ ?]).
    split_and!; [done..|]. apply edit_leaf; [done|done|]. by eapply detect_legs.
  - intros p _ Hne Hcl. by apply Hcs.
Qed.
End diff_spec.

(** ** The candidate *)
Lemma apply_changes_other m l p : p ∉ fs_path <$> l → foldl apply_change m l !! p = m !! p.
Proof.
  revert m. induction l as [|f l IH]; intros m Hp; [done|]. simpl in *. apply not_elem_of_cons in Hp as [Hf Hl]. rewrite IH by done.
  unfold apply_change. destruct (fs_deleted f); [by rewrite lookup_delete_ne|by rewrite lookup_insert_ne].
Qed.
Lemma apply_changes_at m l f : NoDup (fs_path <$> l) → f ∈ l → foldl apply_change m l !! fs_path f = live (Some f).
Proof.
  revert m. induction l as [|g l IH]; intros m Hnd Hf; [by apply elem_of_nil in Hf|]. simpl in Hnd. apply NoDup_cons in Hnd as [Hg Hl].
  apply elem_of_cons in Hf as [->|Hf]; simpl; [|by apply IH]. rewrite apply_changes_other by done.
  unfold apply_change. simpl. destruct (fs_deleted g); [by rewrite lookup_delete_eq|by rewrite lookup_insert_eq].
Qed.
Definition landed_leaf (S : string → bool) (B A H : string → option TreeEntry) (p : string) : option TreeEntry :=
  if S p then merged_leaf p (B p) (A p) (H p) else H p.
Lemma view_leaf_app files files' l l' p :
  files !! p = files' !! p → (∀ c, c ∈ l' → ce_path c ≠ p) → view_leaf files (l ++ l') p = view_leaf files' l p.
Proof.
  intros Hf Hno. unfold view_leaf. rewrite Hf. destruct (list_find _ l) as [[i c]|] eqn:E; simpl.
  - by rewrite (list_find_app_l _ _ _ _ _ E).
  - rewrite (list_find_app_r _ _ _ E). destruct (list_find _ l') as [[i c]|] eqn:E'; simpl; [|done].
    apply list_find_Some in E' as (Hi & Hp & _). apply list_elem_of_lookup_2 in Hi. by destruct (Hno c Hi).
Qed.
Lemma view_leaf_keep files (keep : ConcurrentEdit → bool) l p :
  (∀ c, c ∈ l → ce_path c = p → keep c = true) → view_leaf files (List.filter keep l) p = view_leaf files l p.
Proof.
  intros Hk. unfold view_leaf. assert (snd <$> list_find (λ c, ce_path c = p) (List.filter keep l) = snd <$> list_find (λ c, ce_path c = p) l) as Hf.
  { induction l as [|c l IH]; [done|]. simpl. assert (∀ c', c' ∈ l → ce_path c' = p → keep c' = true) as Hk' by (intros; apply Hk; [by right|done]).
    specialize (IH Hk'). destruct (keep c) eqn:Ec; simpl.
    - destruct (decide (ce_path c = p)); [done|]. destruct (list_find _ (List.filter keep l)) as [[]|], (list_find _ l) as [[]|]; simpl in *; congruence.
    - rewrite IH, decide_False; [by destruct (list_find _ l) as [[]|]|]. intros Hp. rewrite (Hk c (list_elem_of_here _ _) Hp) in Ec. done. }
  by destruct (list_find _ (List.filter keep l)) as [[]|], (list_find _ l) as [[]|]; simpl in *; simplify_eq.
Qed.
Lemma land_view S B A T diff st p :
  lands S B A T diff → T p = visible p (view_leaf (lt_files st) (lt_conflicts st) p) →
  view_leaf (lt_files (land_state diff st)) (lt_conflicts (land_state diff st)) p =
  landed_leaf S B A (view_leaf (lt_files st) (lt_conflicts st)) p.
Proof.
  intros [Hn1 Hc1 Hd1 Hn2 Hc2 Hd2] HT. unfold landed_leaf, merged_leaf, land_state. simpl. rewrite <-HT.
  set (changed := list_to_set _ : gset string).
  assert (∀ c, c ∈ List.filter (λ c, negb (bool_decide (ce_path c ∈ changed))) (lt_conflicts st) → ce_path c ∉ changed) as Hold.
  { intros c [_ Hc]%list_elem_of_In%filter_In. by apply negb_true_iff, bool_decide_eq_false in Hc. }
  assert (p ∈ changed ↔ p ∈ fs_path <$> ad_our_changes diff ∨ p ∈ ce_path ∘ fst <$> ad_conflicts diff) as Hch
    by (unfold changed; by rewrite elem_of_list_to_set, elem_of_app).
  assert (∀ c, c ∈ (ad_conflicts diff).*1 → ce_path c ∈ ce_path ∘ fst <$> ad_conflicts diff) as Hnew.
  { intros c (ck & -> & Hck)%list_elem_of_fmap. by apply (list_elem_of_fmap_2 (ce_path ∘ fst)). }
  destruct (decide (p ∈ ce_path ∘ fst <$> ad_conflicts diff)) as [Hpc|Hpc].
  - apply list_elem_of_fmap_1 in Hpc as ([c k] & -> & Hin). unfold compose in *. simpl in *. assert (c ∈ (ad_conflicts diff).*1) as Hc by (by apply (list_elem_of_fmap_2 fst) in Hin).
    destruct (Hc2 c Hc) as (-> & Hne & -> & r & Hr & <-). rewrite bool_decide_false by done. apply view_leaf_only; [|apply elem_of_app; by right|done].
    intros c' [Hc'%Hold|Hc']%elem_of_app Heq.
    + destruct Hc'. rewrite Heq. apply Hch. right. by apply (list_elem_of_fmap_2 (ce_path ∘ fst)) in Hin.
    + apply list_elem_of_fmap_1 in Hc' as ([c0 k0] & -> & Hin'). simpl in *.
      apply list_elem_of_lookup in Hin as [i Hi], Hin' as [j Hj]. assert (i = j) as ->; [|congruence].
      apply (NoDup_lookup _ _ _ (ce_path c) Hn2); rewrite list_lookup_fmap; [by rewrite Hi|rewrite Hj; by simpl; rewrite Heq].
  - rewrite (view_leaf_app _ (foldl apply_change (lt_files st) (ad_our_changes diff))); [|done|intros c Hc <-; by apply Hpc, Hnew].
    destruct (decide (p ∈ fs_path <$> ad_our_changes diff)) as [Hpf|Hpf].
    + apply list_elem_of_fmap_1 in Hpf as (f & -> & Hf). destruct (Hc1 f Hf) as (-> & Hne & -> & HA). rewrite bool_decide_false by done.
      rewrite view_leaf_file, (apply_changes_at _ _ _ Hn1 Hf), live_live; [done|]. intros c Hc%Hold Heq. apply Hc. rewrite Heq. apply Hch. left.
      by apply list_elem_of_fmap_2.
    + rewrite (view_leaf_keep _ _ (lt_conflicts st)).
      * assert (view_leaf (foldl apply_change (lt_files st) (ad_our_changes diff)) (lt_conflicts st) p = view_leaf (lt_files st) (lt_conflicts st) p) as ->
          by (unfold view_leaf; by rewrite apply_changes_other).
        destruct (S p) eqn:HS; [|done]. case_bool_decide as Hab; [done|]. exfalso.
        destruct (clash (B p) (A p) (T p)) eqn:Hcl; [by apply Hpc, Hd2|by apply Hpf, Hd1].
      * intros c _ <-. apply negb_true_iff, bool_decide_eq_false. rewrite Hch. tauto.
Qed.

(** C38. Landing does not always keep what others did at a path with a conflict.  Where the base of
    the agent records a conflict and its directory holds just the file shown there, its landing
    replaces whatever the head has by that file, a later resolution included.  Where the head
    records a conflict that shows the file of the base, any change of the agent replaces it. *)
Theorem landing_forgets_conflicts `{HashOrder} B scan our their current st p e :
  changes_between B (view_leaf scan []) our → changes_between B (λ p, visible p (view_leaf (lt_files st) (lt_conflicts st) p)) their →
  (∀ p s, scan !! p = Some s → fs_path s = p) → is_conflict_kind (te_kind e) = true →
  let new := land_state (agent_diff current scan our their) st in
  (B p = Some e → view_leaf scan [] p = visible p (Some e) → view_leaf (lt_files new) (lt_conflicts new) p = visible p (Some e)) ∧
  (view_leaf (lt_files st) (lt_conflicts st) p = Some e → B p = visible p (Some e) → view_leaf scan [] p ≠ B p →
     view_leaf (lt_files new) (lt_conflicts new) p = view_leaf scan [] p).
Proof.
  intros Hour Htheir Hkeys Hk. cbv zeta. rewrite (land_view _ _ _ _ _ _ _ (agent_diff_lands B _ scan our their Hour Htheir Hkeys current)) by done.
  unfold landed_leaf. split; [intros -> ->; by apply (merged_conflict p e _ None Hk)|].
  intros -> HB Hne. rewrite HB in *. by apply (merged_conflict p e None _ Hk).
Qed.

(** ** Running *)
Section runs.
Context `{Unicode, Blake3, HashOrder}.
Context (pack unpack : list byte → Result (list byte)).
Context (reachable_chunks : Objects → string → string → option Z → Result (list string)) (retention : Z).
Context (answers : nat → SnapAnswer).
Context (unpack_pack : ∀ b c, pack b = Ok c → unpack c = Ok b) (digest_hex : ∀ b, is_valid_hash (hash_bytes b) = true).
Context (D : Directory).
Context (others : ∀ n id c b, sa_objects (answers n) !! id = Some c → hash_bytes c = id → unpack c = Ok b → D !! id = Some b).
Context (clock : ∀ n, - 2 ^ 63 ≤ sa_now (answers n) < 2 ^ 63).
(** The directory has the trees of the views that are compared: of the scans and of the stored snapshots. *)
Definition known_view (files : gmap string FileState) : Prop := sound_input pack (view_input files) ∧ has_view pack D (view_input files).
Context (scans : ∀ n, known_view (sa_scan (answers n))).
Context (stored : ∀ id s files, dir_snapshot D id = Ok s → get_flat_tree (dir_tree D) (sn_root s) = Ok files → known_view files).
Local Notation steady := (steady pack unpack D).
Local Notation advances := (advances pack unpack D).
Local Notation ws_ok := (ws_ok unpack D).
Local Notation ws_agrees := (ws_agrees pack D).
Local Notation question := (question answers).
Local Notation calling := (calling answers).

(** Operations that leave the refs alone. *)
Definition quiet {A} (m : Snap A) : Prop := ∀ w, ws_refs (m w).1 = ws_refs w.
Lemma quiet_bind {A B} (m : Snap A) (f : A → Snap B) : quiet m → (∀ a, quiet (f a)) → quiet (m ≫= f).
Proof using. intros Hm Hf w. unfold mbind, snap_bind. specialize (Hm w). destruct (m w) as [w1 [a|]]; simpl in *; [by rewrite Hf|done]. Qed.
Lemma quiet_ret {A} (a : A) : quiet (mret a).
Proof using. done. Qed.
Lemma quiet_check {A} (r : Result A) : quiet (snap_check r).
Proof using. done. Qed.
Lemma quiet_question : quiet question.
Proof using. done. Qed.
Lemma quiet_act {A} (f : Workspace → Workspace * Result A) : (∀ w, ws_refs (f w).1 = ws_refs w) → quiet (snap_act f).
Proof using. done. Qed.
Lemma quiet_Ok {A} (m : Snap A) w a w' : quiet m → m w = (w', Ok a) → ws_refs w' = ws_refs w.
Proof using. intros Hm E. pose proof (Hm w) as Hw. by rewrite E in Hw. Qed.
Hint Resolve quiet_bind quiet_ret quiet_check quiet_question : quiet.
Hint Resolve steady_bind steady_ret steady_check steady_question steady_loading steady_get_head steady_swap steady_writing : steady.
Lemma steady_calling {A} (f : SnapAnswer → A) : steady (calling f).
Proof using others. apply steady_bind; [by apply steady_question|]. intros a. destruct (sa_fails a); [apply steady_check|apply steady_ret]. Qed.
Lemma quiet_calling {A} (f : SnapAnswer → A) : quiet (calling f).
Proof using. apply quiet_bind; [apply quiet_question|]. intros a. destruct (sa_fails a); [apply quiet_check|apply quiet_ret]. Qed.
Lemma steady_each {A} (f : A → Snap unit) l : (∀ a, steady (f a)) → steady (snap_each f l).
Proof using. intros Hf. induction l as [|a l IH]; simpl; [apply steady_ret|]. apply steady_bind; [apply Hf|done]. Qed.
Lemma quiet_each {A} (f : A → Snap unit) l : (∀ a, quiet (f a)) → quiet (snap_each f l).
Proof using. intros Hf. induction l as [|a l IH]; simpl; [apply quiet_ret|]. apply quiet_bind; [apply Hf|done]. Qed.
Lemma quiet_loading {A} (f : (string → Result unit) → Objects → Result A) : quiet (loading answers f).
Proof using. apply quiet_bind; [apply quiet_question|]. intros a. by apply quiet_act. Qed.
Lemma quiet_get_head : quiet (get_head answers).
Proof using. apply quiet_bind; [apply quiet_question|]. intros a. by apply quiet_act. Qed.
Lemma quiet_swap e n : quiet (swap_head answers e n).
Proof using. apply quiet_bind; [apply quiet_question|]. intros a. apply quiet_act. intros w. repeat case_match; done. Qed.
Lemma quiet_writing up i : quiet (writing pack unpack reachable_chunks retention answers up i).
Proof using. apply quiet_bind; [apply quiet_question|]. intros a. apply quiet_act. intros w. repeat case_match; done. Qed.
Lemma quiet_read_ref r : quiet (read_ref answers r).
Proof using. apply quiet_bind; [apply quiet_question|]. intros a. by apply quiet_act. Qed.
Lemma steady_read_ref r : steady (read_ref answers r).
Proof using others. apply steady_bind; [by apply steady_question|]. intros a. by apply steady_act. Qed.
Lemma steady_write_ref r id : steady (write_ref answers r id).
Proof using others. apply steady_bind; [by apply steady_question|]. intros a. apply steady_act. intros w. repeat case_match; done. Qed.
Lemma quiet_publish files author n expected : quiet (publish_attempts pack unpack reachable_chunks retention answers files author n expected).
Proof using.
  revert expected. induction n as [|n IH]; intros expected; simpl; [apply quiet_check|].
  apply quiet_bind; [destruct expected; [apply quiet_bind; [apply quiet_loading|intros; apply quiet_ret]|apply quiet_ret]|]. intros same.
  assert (∀ X : Snap string, quiet X → quiet (match expected, same with Some current, true => mret current | _, _ => X end)) as Hm
    by (intros X HX; destruct expected, same; (done || apply quiet_ret)).
  apply Hm. apply quiet_bind; [apply quiet_writing|]. intros id. apply quiet_bind; [apply quiet_swap|]. intros [|c]; [apply quiet_ret|apply IH].
Qed.
Lemma steady_publish files author n expected : steady (publish_attempts pack unpack reachable_chunks retention answers files author n expected).
Proof using unpack_pack others.
  revert expected. induction n as [|n IH]; intros expected; simpl; [apply steady_check|].
  apply steady_bind; [destruct expected; [apply steady_bind; [by apply steady_loading|intros; apply steady_ret]|apply steady_ret]|]. intros same.
  assert (∀ X : Snap string, steady X → steady (match expected, same with Some current, true => mret current | _, _ => X end)) as Hm
    by (intros X HX; destruct expected, same; (done || apply steady_ret)).
  apply Hm. apply steady_bind; [by apply steady_writing|]. intros id. apply steady_bind; [by apply steady_swap|]. intros [|c]; [apply steady_ret|apply IH].
Qed.

Local Notation compute := (compute_agent_diff pack unpack reachable_chunks retention answers).
Lemma calm_compute name : steady (compute name) ∧ quiet (compute name).
Proof using unpack_pack others.
  unfold compute_agent_diff. split.
  - repeat (apply steady_bind; [first [apply steady_check|apply steady_calling|by apply steady_loading|by apply steady_get_head|
      apply steady_bind; [apply steady_read_ref|intros; apply steady_check]|idtac]|intros ?]); [|apply steady_ret].
    case_match; [apply steady_ret|]. apply steady_bind; [apply steady_calling|]. intros legacy. apply steady_bind; [by apply steady_get_head|].
    intros e. apply steady_publish.
  - repeat (apply quiet_bind; [first [apply quiet_check|apply quiet_calling|apply quiet_loading|apply quiet_get_head|
      apply quiet_bind; [apply quiet_read_ref|intros; apply quiet_check]|idtac]|intros ?]); [|apply quiet_ret].
    case_match; [apply quiet_ret|]. apply quiet_bind; [apply quiet_calling|]. intros legacy. apply quiet_bind; [apply quiet_get_head|].
    intros e. apply quiet_publish.
Qed.
(** The three views behind a diff. *)
Definition computed (S : string → bool) (base_id : string) (diff : AgentDiff) : Prop :=
  ∃ n bs hs, dir_snapshot D base_id = Ok bs ∧ dir_snapshot D (ad_current_head diff) = Ok hs ∧
    lands S (leaf_at D (sn_root bs)) (view_leaf (sa_scan (answers n)) []) (λ p, visible p (leaf_at D (sn_root hs) p)) diff.
Lemma read_ref_Ok r w w' o : read_ref answers r w = (w', Ok o) → ws_refs w' = ws_refs w ∧ o = ws_refs w !! r ∧ ∀ id, o = Some id → is_valid_hash id = true.
Proof using.
  unfold read_ref. intros (a & w1 & Hq & E)%snap_bind_Ok. unfold snap_act in E. injection Hq as <- <-. simpl in E. injection E as <- E. split; [done|].
  case_match; [done|]. destruct (ws_refs w !! r) as [id|]; [|injection E as <-; split; [done|by intros ? [=]]].
  destruct (is_valid_hash id) eqn:Hv; [|done]. injection E as <-. split; [done|]. by intros ? [= <-].
Qed.
Lemma read_base_Ok name w w' id : read_agent_base answers name w = (w', Ok id) → ws_refs w' = ws_refs w ∧ ws_refs w !! agent_base_ref name = Some id.
Proof using.
  unfold read_agent_base. intros (o & w1 & (Hr & -> & _)%read_ref_Ok & [Ho%or_context_Ok ->]%snap_check_Ok)%snap_bind_Ok. done.
Qed.
Lemma calling_Ok {A} (f : SnapAnswer → A) w w' a : calling f w = (w', Ok a) → ∃ n, a = f (answers n) ∧ ws_swaps w' = ws_swaps w.
Proof using.
  unfold Snapshots.calling. intros (q & w1 & Hq & E)%snap_bind_Ok. injection Hq as <- <-. destruct (sa_fails _); [done|]. injection E as <- <-. eauto.
Qed.
(** The flat view of a stored snapshot shows its conflicts as files. *)
Lemma loaded_flat w id files net :
  ws_ok w → ObjectStore.load_files unpack net (ws_objects w) id = Ok files →
  ∃ s, dir_snapshot D id = Ok s ∧ known_view files ∧ ∀ p, view_leaf files [] p = visible p (leaf_at D (sn_root s) p).
Proof using stored.
  intros Hok Hl. pose proof Hl as (st & Hst & ->)%load_files_state. destruct (load_state_refines unpack net D _ _ _ Hok Hst) as (s & Hs & Hf & _).
  exists s. split_and!; [done| |].
  - eapply stored; [exact Hs|]. unfold ObjectStore.load_files in Hl. apply bind_Ok in Hl as (s' & Hs'%(load_snapshot_refines unpack net D _ Hok) & Hl).
    rewrite Hs in Hs'. injection Hs' as <-. unfold get_flat_tree in *. apply bind_Ok in Hl as (st' & Hl & E). apply Ok_inj in E.
    rewrite (bind_run _ _ st'); [by rewrite E|]. eapply load_extends; [|exact Hl]. by apply read_tree_refines.
  - intros p. rewrite view_leaf_file by (by intros c ?%elem_of_nil). unfold visible.
    destruct (leaf_at D (sn_root s) p) as [e|] eqn:He.
    + rewrite (proj2 (Hf p (entry_state p e))) by eauto. done.
    + destruct (lt_files st !! p) as [f|] eqn:Hp; [|done]. apply Hf in Hp as (e & ? & _). congruence.
Qed.
Lemma diff_view_keys net o id files stats p s :
  diff_view pack unpack net o id files = Ok stats → files !! p = Some s → fs_path s = p.
Proof using.
  unfold diff_view, prepare_view. intros Hd Hp. apply bind_Ok in Hd as (sn & _ & Hd). apply bind_Ok in Hd as (pb & Hd & _).
  apply bind_Ok in Hd as (b & Hb & _). by eapply flat_keys.
Qed.
Lemma compute_Ok name w w' diff base_id :
  compute name w = (w', Ok diff) → ws_ok w → ws_agrees w' → ws_refs w !! agent_base_ref name = Some base_id → computed (λ _, true) base_id diff.
Proof using unpack_pack digest_hex others scans stored.
  intros Hc Hok Ha Hbase. pose proof Hc as Hrun. unfold compute_agent_diff in Hc.
  apply snap_bind_Ok in Hc as (? & ? & [_ ->]%snap_check_Ok & Hc). apply snap_bind_Ok in Hc as (? & w1 & E1 & Hc).
  apply snap_bind_Ok in Hc as (id & w2 & E2 & Hc). apply snap_bind_Ok in Hc as (head & w3 & E3 & Hc). apply snap_bind_Ok in Hc as (cur & w4 & E4 & Hc).
  apply snap_bind_Ok in Hc as (files & w5 & E5 & Hc). apply snap_bind_Ok in Hc as (scan & w6 & E6 & Hc).
  apply snap_bind_Ok in Hc as (our & w7 & E7 & Hc). apply snap_bind_Ok in Hc as (their & w8 & E8 & [= <- <-]).
  assert (advances w w4) as A4.
  { etrans; [eapply steady_Ok, E1; apply steady_calling|]. etrans; [eapply steady_Ok, E2; apply steady_bind; [apply steady_read_ref|intros; apply steady_check]|].
    etrans; [eapply steady_Ok, E3; by apply steady_get_head|].
    destruct head; [by injection E4 as <- _|]. eapply steady_Ok; [|exact E4]. apply steady_bind; [apply steady_calling|]. intros l.
    apply steady_bind; [by apply steady_get_head|]. intros e. apply steady_publish. }
  assert (advances w4 w5) as A5 by (eapply steady_Ok; [|exact E5]; by apply steady_loading).
  assert (advances w5 w6) as A6 by (eapply steady_Ok; [|exact E6]; apply steady_calling).
  assert (advances w6 w7) as A7 by (eapply steady_Ok; [|exact E7]; by apply steady_loading).
  assert (advances w7 w8) as A8 by (eapply steady_Ok; [|exact E8]; by apply steady_loading).
  assert (ws_agrees w7) as Ha7 by (by eapply agrees_before). assert (ws_agrees w6) as Ha6 by (by eapply agrees_before).
  assert (ws_agrees w5) as Ha5 by (by eapply agrees_before). assert (ws_agrees w4) as Ha4 by (by eapply agrees_before).
  assert (ws_ok w5) as Hok5 by (apply A5; [by apply A4|done]). assert (ws_ok w7) as Hok7 by (apply A7; [by apply A6|done]).
  assert (ws_ok w8) as Hok8 by (by apply A8).
  apply read_base_Ok in E2 as [_ E2]. rewrite (quiet_Ok _ _ _ _ (quiet_calling _) E1), Hbase in E2. injection E2 as <-.
  apply loading_Ok in E5 as (_ & n5 & E5). apply loading_Ok in E7 as (_ & n7 & E7). apply loading_Ok in E8 as (_ & n8 & E8).
  apply calling_Ok in E6 as (n & -> & _). destruct (loaded_flat w5 _ _ _ Hok5 E5) as (hs & Hhs & [Hso Hvi] & Hflat).
  destruct (scans n) as [Hsn Hvn].
  destruct (diff_view_changes pack unpack digest_hex D _ _ _ _ _ Hok7 Hsn Hvn E7) as (bs & Hbs & Hour).
  destruct (diff_view_changes pack unpack digest_hex D _ _ _ _ _ Hok8 Hso Hvi E8) as (bs' & Hbs' & Htheir). rewrite Hbs in Hbs'. injection Hbs' as <-.
  exists n, bs, hs. split_and!; [done..|]. apply agent_diff_lands; [done| |intros p s; by apply (diff_view_keys _ _ _ _ _ _ _ E7)].
  eapply changes_between_ext; [| |exact Htheir]; [done|apply Hflat].
Qed.

Local Notation publish := (publish_land pack unpack reachable_chunks retention answers).
Lemma calm_candidate diff : steady (build_land_candidate pack unpack answers diff) ∧ quiet (build_land_candidate pack unpack answers diff).
Proof using others.
  unfold build_land_candidate. split.
  - apply steady_bind; [by apply steady_loading|]. intros st. apply steady_bind; [apply steady_check|]. intros root. apply steady_ret.
  - apply quiet_bind; [apply quiet_loading|]. intros st. apply quiet_bind; [apply quiet_check|]. intros root. apply quiet_ret.
Qed.
Lemma calm_publish name agent_base paths n diff : steady (publish name agent_base paths n diff) ∧ quiet (publish name agent_base paths n diff).
Proof using unpack_pack others.
  revert diff. induction n as [|n IH]; intros diff; simpl; [split; [apply steady_check|apply quiet_check]|].
  assert (∀ d, steady (publish name agent_base paths n (filter_diff_to_scope d paths)) ∧ quiet (publish name agent_base paths n (filter_diff_to_scope d paths))) as Hr by (intros d; apply IH).
  split.
  - do 2 (apply steady_bind; [apply steady_each; intros; apply steady_calling|intros _]). apply steady_bind; [apply steady_calling|intros _].
    apply steady_bind; [by apply steady_loading|]. intros cur. apply steady_bind; [apply calm_candidate|]. intros cand.
    assert (steady (d ← compute name; publish name agent_base paths n (filter_diff_to_scope d paths))) as Hre
      by (apply steady_bind; [apply calm_compute|intros; apply Hr]).
    case_bool_decide.
    + apply steady_bind; [by apply steady_get_head|]. intros h. case_bool_decide; [apply steady_ret|exact Hre].
    + apply steady_bind; [by apply steady_writing|]. intros id. apply steady_bind; [by apply steady_swap|].
      intros [|[c|]]; [apply steady_ret|exact Hre|apply steady_check].
  - do 2 (apply quiet_bind; [apply quiet_each; intros; apply quiet_calling|intros _]). apply quiet_bind; [apply quiet_calling|intros _].
    apply quiet_bind; [apply quiet_loading|]. intros cur. apply quiet_bind; [apply calm_candidate|]. intros cand.
    assert (quiet (d ← compute name; publish name agent_base paths n (filter_diff_to_scope d paths))) as Hre
      by (apply quiet_bind; [apply calm_compute|intros; apply Hr]).
    case_bool_decide.
    + apply quiet_bind; [apply quiet_get_head|]. intros h. case_bool_decide; [apply quiet_ret|exact Hre].
    + apply quiet_bind; [apply quiet_writing|]. intros id. apply quiet_bind; [apply quiet_swap|].
      intros [|[c|]]; [apply quiet_ret|exact Hre|apply quiet_check].
Qed.
(** Which paths the entries cover; no entry stands for no scope. *)
Definition covered (paths : list string) (p : string) : bool :=
  match paths with [] => true | _ => existsb (λ entry, scope_entry_covers_path entry p) paths end.
Lemma computed_filter base_id diff paths : computed (λ _, true) base_id diff → computed (covered paths) base_id (filter_diff_to_scope diff paths).
Proof using.
  intros (n & bs & hs & Hb & Hh & Hl). destruct paths as [|p paths]; [by exists n, bs, hs|]. exists n, bs, hs. split_and!; [done..|].
  by apply (lands_filter (λ _, true) (covered (p :: paths))).
Qed.
(** What landing leaves: the head [id] holds the merge of the base, the scan and the head it was computed from. *)
Definition landed (S : string → bool) (base_id : string) (diff : AgentDiff) (id : string) (w : Workspace) : Prop :=
  ∃ n bs hs, dir_snapshot D base_id = Ok bs ∧ dir_snapshot D (ad_current_head diff) = Ok hs ∧
    let merge := landed_leaf S (leaf_at D (sn_root bs)) (view_leaf (sa_scan (answers n)) []) (leaf_at D (sn_root hs)) in
    (id = ad_current_head diff ∧ ∃ files conflicts, candidate_root pack files conflicts = Ok (sn_root hs) ∧ ∀ p, view_leaf files conflicts p = merge p) ∨
    (head (ws_swaps w) = Some (Some (ad_current_head diff), id) ∧ ∃ new, dir_snapshot D id = Ok new ∧
       sn_parents new = land_parents base_id (ad_current_head diff) ∧ ∀ p, leaf_at D (sn_root new) p = merge p).
Lemma candidate_Ok diff w w' cand base_id S :
  build_land_candidate pack unpack answers diff w = (w', Ok cand) → ws_ok w' → computed S base_id diff →
  ∃ n bs hs, dir_snapshot D base_id = Ok bs ∧ dir_snapshot D (ad_current_head diff) = Ok hs ∧
    candidate_root pack (lc_files cand) (lc_conflicts cand) = Ok (lc_root cand) ∧
    ∀ p, view_leaf (lc_files cand) (lc_conflicts cand) p =
         landed_leaf S (leaf_at D (sn_root bs)) (view_leaf (sa_scan (answers n)) []) (leaf_at D (sn_root hs)) p.
Proof using.
  intros Hb Hok (n & bs & hs & Hbs & Hhs & Hl). unfold build_land_candidate in Hb. apply snap_bind_Ok in Hb as (st & w1 & Hst & Hb).
  apply snap_bind_Ok in Hb as (root & w2 & [Hroot ->]%snap_check_Ok & [= <- <-]). apply loading_Ok in Hst as (_ & net & Hst).
  assert (∀ p, view_leaf (lt_files st) (lt_conflicts st) p = leaf_at D (sn_root hs) p) as Hv by (intros p; by eapply (loaded_leaf unpack net D (ws_objects w1))).
  exists n, bs, hs. split_and!; [done..|]. intros p.
  etrans; [apply (land_view _ _ _ _ _ st p Hl); by rewrite Hv|]. unfold landed_leaf. by rewrite Hv.
Qed.
Lemma publish_land_Ok name base_id paths k diff0 w w' diff id :
  publish name base_id paths k diff0 w = (w', Ok (diff, id)) → ws_ok w → ws_agrees w' → ws_refs w !! agent_base_ref name = Some base_id →
  computed (covered paths) base_id diff0 → landed (covered paths) base_id diff id w'.
Proof using unpack_pack digest_hex others clock scans stored.
  revert diff0 w. induction k as [|k IH]; intros diff0 w Hp Hok Ha Hbase Hc; [done|]. simpl in Hp.
  apply snap_bind_Ok in Hp as (? & w1 & E1 & Hp). apply snap_bind_Ok in Hp as (? & w2 & E2 & Hp). apply snap_bind_Ok in Hp as (? & w3 & E3 & Hp).
  apply snap_bind_Ok in Hp as (cur & w4 & E4 & Hp). apply snap_bind_Ok in Hp as (cand & w5 & E5 & Hp).
  assert (advances w w4 ∧ ws_refs w4 = ws_refs w) as [A4 R4].
  { split; [|etrans; [eapply quiet_Ok, E4; apply quiet_loading|]; etrans; [eapply quiet_Ok, E3; apply quiet_calling|];
      etrans; [eapply quiet_Ok, E2; apply quiet_each; intros; apply quiet_calling|eapply quiet_Ok, E1; apply quiet_each; intros; apply quiet_calling]].
    etrans; [eapply steady_Ok, E1; apply steady_each; intros; apply steady_calling|].
    etrans; [eapply steady_Ok, E2; apply steady_each; intros; apply steady_calling|]. etrans; [eapply steady_Ok, E3; apply steady_calling|].
    eapply steady_Ok, E4. by apply steady_loading. }
  assert (advances w4 w5) as A5 by (eapply steady_Ok, E5; apply calm_candidate).
  assert (ws_refs w5 = ws_refs w) as R5 by (rewrite <-R4; eapply quiet_Ok, E5; apply calm_candidate).
  assert (∀ w6, advances w5 w6 → ws_refs w6 = ws_refs w → (d ← compute name; publish name base_id paths k (filter_diff_to_scope d paths)) w6 = (w', Ok (diff, id)) →
    landed (covered paths) base_id diff id w') as Hre.
  { intros w6 A6 R6 (d & w7 & E7 & Hp')%snap_bind_Ok.
    assert (advances w6 w7) as A7 by (eapply steady_Ok, E7; apply calm_compute). assert (advances w7 w') as A8 by (eapply steady_Ok, Hp'; apply calm_publish).
    assert (ws_agrees w7) as Ha7 by (by eapply agrees_before). assert (ws_agrees w6) as Ha6 by (by eapply agrees_before).
    assert (advances w w6) as Aw6 by (etrans; [exact A4|etrans; [exact A5|exact A6]]). assert (ws_ok w6) as Hok6 by (by apply Aw6).
    eapply IH; [exact Hp'|by apply A7|done| |].
    - rewrite (quiet_Ok _ _ _ _ (proj2 (calm_compute name)) E7). by rewrite R6.
    - apply computed_filter. eapply compute_Ok; [exact E7|done|done|]. by rewrite R6. }
  assert (advances w5 w' → ws_ok w4 ∧ ws_ok w5) as Hoks.
  { intros A6. assert (ws_agrees w5) as Ha5 by (by eapply agrees_before). assert (ws_agrees w4) as Ha4 by (by eapply agrees_before).
    assert (ws_ok w4) by (by apply A4). split; [done|]. by apply A5. }
  assert (ws_ok w4 → dir_snapshot D (ad_current_head diff0) = Ok cur) as Hcur.
  { intros Hok4. apply loading_Ok in E4 as (_ & net & E4). by apply (load_snapshot_refines unpack net D _ Hok4). }
  case_bool_decide as Hroot.
  - apply snap_bind_Ok in Hp as (h & w6 & E6 & Hp). assert (advances w5 w6) as A6 by (eapply steady_Ok, E6; by apply steady_get_head).
    case_bool_decide as Hh; [|eapply Hre; [exact A6| |exact Hp]; rewrite <-R5; eapply quiet_Ok, E6; apply quiet_get_head].
    injection Hp as <- <- <-. destruct (Hoks A6) as [Hok4 Hok5]. destruct (candidate_Ok _ _ _ _ _ _ E5 Hok5 Hc) as (n & bs & hs & Hbs & Hhs & Hr & Hv).
    specialize (Hcur Hok4). exists n, bs, hs. split_and!; [done..|]. left. split; [done|]. exists (lc_files cand), (lc_conflicts cand). split; [|done].
    rewrite Hr, Hroot. congruence.
  - apply snap_bind_Ok in Hp as (c & w6 & E6 & Hp). apply snap_bind_Ok in Hp as (r & w7 & E7 & Hp).
    assert (advances w5 w6) as A6 by (eapply steady_Ok, E6; by apply steady_writing). assert (advances w6 w7) as A7 by (eapply steady_Ok, E7; by apply steady_swap).
    destruct r as [|[nh|]]; [| |done].
    + injection Hp as <- <- <-. assert (ws_agrees w6) as Ha6 by (by eapply agrees_before). destruct (Hoks (transitivity A6 A7)) as [_ Hok5].
      destruct (candidate_Ok _ _ _ _ _ _ E5 Hok5 Hc) as (n & bs & hs & Hbs & Hhs & Hr & Hv). exists n, bs, hs. split_and!; [done..|]. right.
      apply swap_Ok in E7 as [E7 _]. split; [by rewrite E7|]. eapply writing_Ok in E6 as (_ & new & Hn & Hpar & Hl); [|done..].
      exists new. split_and!; [done|done|]. intros p. rewrite Hl. apply Hv.
    + eapply Hre; [etrans; [exact A6|exact A7]| |exact Hp]. rewrite <-R5. etrans; [eapply quiet_Ok, E7; apply quiet_swap|eapply quiet_Ok, E6; apply quiet_writing].
Qed.

(** ** Around the publication *)
(** Operations that keep the objects sound and swap no head. *)
Definition calm {A} (m : Snap A) : Prop := steady m ∧ ∀ w, ws_swaps (m w).1 = ws_swaps w.
Lemma calm_bind {A B} (m : Snap A) (f : A → Snap B) : calm m → (∀ a, calm (f a)) → calm (m ≫= f).
Proof using.
  intros [Hs Hn] Hf. split; [apply steady_bind; [done|intros; apply Hf]|]. intros w. unfold mbind, snap_bind. specialize (Hn w).
  destruct (m w) as [w1 [a|]]; simpl in *; [|done]. by rewrite (proj2 (Hf a)).
Qed.
Lemma calm_ret {A} (a : A) : calm (mret a).
Proof using. split; [apply steady_ret|done]. Qed.
Lemma calm_check {A} (r : Result A) : calm (snap_check r).
Proof using. split; [apply steady_check|done]. Qed.
Lemma calm_question : calm question.
Proof using others. split; [by apply steady_question|done]. Qed.
Lemma calm_calling {A} (f : SnapAnswer → A) : calm (calling f).
Proof using others. apply calm_bind; [apply calm_question|]. intros a. destruct (sa_fails a); [apply calm_check|apply calm_ret]. Qed.
Lemma calm_loading {A} (f : (string → Result unit) → Objects → Result A) : calm (loading answers f).
Proof using others. split; [by apply steady_loading|]. done. Qed.
Lemma calm_writing up i : calm (writing pack unpack reachable_chunks retention answers up i).
Proof using others unpack_pack.
  split; [by apply steady_writing|]. intros w. unfold writing, mbind, snap_bind, Snapshots.question, snap_act. by repeat case_match; simplify_eq.
Qed.
Lemma calm_read_ref r : calm (read_ref answers r).
Proof using others. split; [apply steady_read_ref|done]. Qed.
Lemma calm_write_ref r id : calm (write_ref answers r id).
Proof using others.
  split; [apply steady_write_ref|]. intros w. unfold write_ref, mbind, snap_bind, Snapshots.question, snap_act. by repeat case_match; simplify_eq.
Qed.
Lemma calm_get_head : calm (get_head answers).
Proof using others. split; [by apply steady_get_head|done]. Qed.
Lemma calm_read_base name : calm (read_agent_base answers name).
Proof using others. apply calm_bind; [apply calm_read_ref|]. intros. apply calm_check. Qed.
Lemma calm_write_base name id : calm (write_agent_base answers name id).
Proof using others. apply calm_bind; [apply calm_check|]. intros. apply calm_write_ref. Qed.
Lemma calm_record r files author : calm (record_ref_view pack unpack reachable_chunks retention answers r files author).
Proof using others unpack_pack.
  apply calm_bind; [apply calm_read_ref|]. intros parent. apply calm_bind.
  { destruct parent; [|apply calm_ret]. apply calm_bind; [apply calm_loading|]. intros. apply calm_ret. }
  intros same. assert (calm (id ← write_local pack unpack reachable_chunks retention answers (mkSnapshotInput files [] (option_list parent) author None);
    _ ← write_ref answers r id; mret id)) as Hw.
  { apply calm_bind; [apply calm_writing|]. intros id. apply calm_bind; [apply calm_write_ref|]. intros. apply calm_ret. }
  destruct parent, same; try exact Hw. apply calm_ret.
Qed.
Lemma calm_build diff : calm (build_land_candidate pack unpack answers diff).
Proof using others. apply calm_bind; [apply calm_loading|]. intros st. apply calm_bind; [apply calm_check|]. intros. apply calm_ret. Qed.
Lemma calm_materialize gate diff : calm (materialize_land pack unpack reachable_chunks retention answers gate diff).
Proof using others unpack_pack.
  unfold materialize_land. apply calm_bind.
  { generalize (∅ : gmap string FileState). induction (ad_our_changes diff) as [|c l IH]; intros m; [apply calm_ret|]. simpl.
    apply calm_bind; [|apply IH]. apply calm_bind; [apply calm_question|]. intros. apply calm_ret. }
  intros landed_states. apply calm_bind; [apply calm_calling|intros _]. case_bool_decide; [apply calm_ret|].
  apply calm_bind; [apply calm_calling|]. intros scan. apply calm_bind; [apply calm_calling|intros _]. apply calm_bind; [apply calm_record|]. intros. apply calm_ret.
Qed.
Lemma calm_Ok {A} (m : Snap A) w a w' : calm m → m w = (w', Ok a) → advances w w' ∧ ws_swaps w' = ws_swaps w.
Proof using. intros [Hs Hn] E. split; [by eapply steady_Ok|]. specialize (Hn w). by rewrite E in Hn. Qed.

Definition scope_holds (scope : option WorkScope) (p : string) : bool := match scope with Some scope => scope_covers_path scope p | None => true end.
Lemma covered_scope scope p : (∀ s, scope = Some s → sc_paths s ≠ []) → covered (scope_entries scope) p = scope_holds scope p.
Proof using.
  destruct scope as [s|]; [|done]. intros Hne. specialize (Hne s eq_refl). unfold scope_holds, scope_entries, scope_covers_path.
  assert (∀ x, x ∈ dedup (sort_strings (sc_paths s)) ↔ x ∈ sc_paths s) as Hel by (intros x; unfold sort_strings; by rewrite dedup_elem, sort_by_perm).
  assert (covered (dedup (sort_strings (sc_paths s))) p = existsb (λ entry, scope_entry_covers_path entry p) (dedup (sort_strings (sc_paths s)))) as ->.
  { destruct (dedup _) as [|x l] eqn:E; [|done]. destruct (sc_paths s) as [|y l']; [done|]. assert (y ∈ ([] : list string)) as Hy by (apply Hel; by left). by apply elem_of_nil in Hy. }
  apply eq_true_iff_eq. rewrite !existsb_exists. setoid_rewrite <-list_elem_of_In. by setoid_rewrite Hel.
Qed.
Lemma computed_scoped base_id diff scope : computed (λ _, true) base_id diff → computed (scope_holds scope) base_id (scoped scope diff).
Proof using.
  intros (n & bs & hs & Hb & Hh & Hl). exists n, bs, hs. destruct scope as [s|]; [|done]. split_and!; [done..|].
  by apply (lands_filter (λ _, true) (scope_covers_path s)).
Qed.
Lemma computed_ext S S' base_id diff : (∀ p, S p = S' p) → computed S base_id diff → computed S' base_id diff.
Proof using. intros He (n & bs & hs & Hb & Hh & Hl). exists n, bs, hs. split_and!; [done..|]. by eapply lands_ext. Qed.
Lemma landed_ext S S' base_id diff id w w' :
  (∀ p, S p = S' p) → head (ws_swaps w') = head (ws_swaps w) → landed S base_id diff id w → landed S' base_id diff id w'.
Proof using.
  intros He Hs (n & bs & hs & Hb & Hh & Hl). exists n, bs, hs. split_and!; [done..|]. unfold landed_leaf in *. setoid_rewrite He in Hl. by rewrite Hs.
Qed.

Local Notation land := (land_agent pack unpack reachable_chunks retention answers).
(** Operations that keep the objects sound and the refs. *)
Definition tame {A} (m : Snap A) : Prop := steady m ∧ quiet m.
Lemma tame_bind {A B} (m : Snap A) (f : A → Snap B) : tame m → (∀ a, tame (f a)) → tame (m ≫= f).
Proof using. intros [Hs Hq] Hf. split; [apply steady_bind; [done|intros; apply Hf]|apply quiet_bind; [done|intros; apply Hf]]. Qed.
Lemma tame_ret {A} (a : A) : tame (mret a).
Proof using. split; [apply steady_ret|apply quiet_ret]. Qed.
Lemma tame_check {A} (r : Result A) : tame (snap_check r).
Proof using. split; [apply steady_check|apply quiet_check]. Qed.
Lemma tame_calling {A} (f : SnapAnswer → A) : tame (calling f).
Proof using others. split; [apply steady_calling|apply quiet_calling]. Qed.
Lemma tame_loading {A} (f : (string → Result unit) → Objects → Result A) : tame (loading answers f).
Proof using others. split; [by apply steady_loading|apply quiet_loading]. Qed.
Lemma tame_read_base name : tame (read_agent_base answers name).
Proof using others. apply tame_bind; [split; [apply steady_read_ref|apply quiet_read_ref]|]. intros. apply tame_check. Qed.
Lemma tame_Ok {A} (m : Snap A) w a w' : tame m → m w = (w', Ok a) → advances w w' ∧ ws_refs w' = ws_refs w.
Proof using. intros [Hs Hq] E. split; [by eapply steady_Ok|by eapply quiet_Ok]. Qed.
(** The diff that is published: the first one when recovering, else one computed after the sync pass. *)
Lemma final_diff_Ok name scope (recovering : bool) diff0 w w' diff base_id :
  (if recovering then mret diff0 else
    blocked ← calling sa_paths;
    _ ← snap_check (bail_if (negb (bool_decide (blocked = []))) "Your folder needs attention before landing agent work");
    diff ← compute name;
    mret (scoped scope diff)) w = (w', Ok diff) →
  ws_ok w → ws_agrees w' → ws_refs w !! agent_base_ref name = Some base_id → computed (scope_holds scope) base_id diff0 →
  advances w w' ∧ ws_refs w' = ws_refs w ∧ computed (scope_holds scope) base_id diff.
Proof using unpack_pack digest_hex others scans stored.
  destruct recovering; [by intros [= <- <-]|]. intros (b & w1 & E1 & E)%snap_bind_Ok Hok Ha Hb _.
  apply snap_bind_Ok in E as (? & ? & [_ ->]%snap_check_Ok & E). apply snap_bind_Ok in E as (d & w2 & E2 & [= <- <-]).
  destruct (tame_Ok _ _ _ _ (tame_calling _) E1) as [A1 R1]. destruct (tame_Ok _ _ _ _ (calm_compute name) E2) as [A2 R2].
  assert (ws_agrees w1) as Ha1 by (by eapply agrees_before). split_and!; [by etrans|congruence|].
  apply computed_scoped. eapply compute_Ok; [exact E2|by apply A1|done|congruence].
Qed.
Lemma tame_gate previous diff : tame (match previous with
  | Some previous_head => gate ← load_state unpack answers previous_head; current ← calling sa_files; mret (foldl (adopt_change current) (lt_files gate) (ad_our_changes diff))
  | None => calling sa_files
  end).
Proof using others.
  destruct previous; [|apply tame_calling]. apply tame_bind; [apply tame_loading|]. intros gate. apply tame_bind; [apply tame_calling|]. intros. apply tame_ret.
Qed.
Lemma tame_blocked (recovering : bool) : tame (if recovering then mret tt else
  blocked ← calling sa_paths; snap_check (bail_if (negb (bool_decide (blocked = []))) "Your folder changed during land and needs attention")).
Proof using others. destruct recovering; [apply tame_ret|]. apply tame_bind; [apply tame_calling|]. intros. apply tame_check. Qed.
(** What follows the publication. *)
Lemma calm_after name (clean : bool) base_id gate diff id : calm (
  _ ← materialize_land pack unpack reachable_chunks retention answers gate diff;
  _ ← (if bool_decide (ad_conflicts diff = []) then mret tt else calling (λ _, tt));
  _ ← calling (λ _, tt);
  _ ← (if clean then calling (λ _, tt) else
    base_snapshot ← (if bool_decide (ad_their_changes diff = []) && bool_decide (ad_conflicts diff = []) then mret id else
      base_state ← load_state unpack answers base_id;
      write_local pack unpack reachable_chunks retention answers (mkSnapshotInput (foldl apply_change (lt_files base_state) (ad_our_changes diff)) (lt_conflicts base_state)
                     [base_id] name (Some "post-land working-copy base")));
    write_agent_base answers name base_snapshot);
  mret (diff, id)).
Proof using others unpack_pack.
  apply calm_bind; [apply calm_materialize|intros _]. apply calm_bind; [case_bool_decide; [apply calm_ret|apply calm_calling]|intros _].
  apply calm_bind; [apply calm_calling|intros _]. apply calm_bind; [|intros; apply calm_ret]. destruct clean; [apply calm_calling|].
  apply calm_bind; [|intros; apply calm_write_base]. case_match; [apply calm_ret|]. apply calm_bind; [apply calm_loading|]. intros. apply calm_writing.
Qed.
(** What runs before the publication, and what it hands over. *)
Lemma land_prefix name clean scope w w' r base_id :
  land name clean scope w = (w', Ok r) → ws_ok w → ws_agrees w' → ws_refs w !! agent_base_ref name = Some base_id →
  ∃ w1 diff0 w2, advances w w1 ∧ ws_refs w1 !! agent_base_ref name = Some base_id ∧ computed (scope_holds scope) base_id diff0 ∧
    publish name base_id (scope_entries scope) 8 diff0 w1 = (w2, Ok r) ∧ advances w2 w' ∧ ws_swaps w' = ws_swaps w2.
Proof using unpack_pack digest_hex others scans stored.
  intros Hl Hok Ha Hb. unfold land_agent in Hl. apply snap_bind_Ok in Hl as (pending & w1 & E1 & Hl). apply snap_bind_Ok in Hl as (? & ? & [_ ->]%snap_check_Ok & Hl).
  apply snap_bind_Ok in Hl as (base & w2 & E2 & Hl). apply snap_bind_Ok in Hl as (d0 & w3 & E3 & Hl). apply snap_bind_Ok in Hl as (initial & w4 & E4 & Hl).
  apply snap_bind_Ok in Hl as (cur & w5 & E5 & Hl). apply snap_bind_Ok in Hl as (d & w6 & E6 & Hl). apply snap_bind_Ok in Hl as (gate & w7 & E7 & Hl).
  apply snap_bind_Ok in Hl as (? & w8 & E8 & Hl). apply snap_bind_Ok in Hl as (? & w9 & E9 & Hl). apply snap_bind_Ok in Hl as ([d' id] & w10 & E10 & Hl).
  destruct (tame_Ok _ _ _ _ (tame_calling _) E1) as [A1 R1]. pose proof (read_base_Ok _ _ _ _ E2) as [R2 Hbase]. rewrite R1, Hb in Hbase. injection Hbase as <-.
  destruct (tame_Ok _ _ _ _ (tame_read_base _) E2) as [A2 _]. destruct (tame_Ok _ _ _ _ (calm_compute name) E3) as [A3 R3].
  destruct (tame_Ok _ _ _ _ (calm_candidate _) E4) as [A4 R4]. destruct (tame_Ok _ _ _ _ (tame_loading _) E5) as [A5 R5].
  destruct (tame_Ok _ _ _ _ (tame_gate _ _) E7) as [A7 R7]. destruct (tame_Ok _ _ _ _ (tame_blocked _) E8) as [A8 R8].
  destruct (tame_Ok _ _ _ _ (tame_calling _) E9) as [A9 R9].
  assert (advances w9 w10) as A10 by (eapply steady_Ok, E10; apply calm_publish).
  destruct (calm_Ok _ _ _ _ (calm_after _ _ _ _ _ _) Hl) as [A11 Hsw].
  assert (r = (d', id)) as ->.
  { repeat (apply snap_bind_Ok in Hl as (? & ? & _ & Hl)). by injection Hl as _ <-. }
  assert (advances w6 w') as A6' by (etrans; [exact A7|]; etrans; [exact A8|]; etrans; [exact A9|]; by etrans).
  assert (ws_agrees w6) as Ha6 by (by eapply agrees_before).
  assert (advances w5 w6) as A6.
  { eapply steady_Ok, E6. match goal with |- context [if ?b then mret _ else _] => destruct b end; [apply steady_ret|]. apply steady_bind; [apply steady_calling|intros ?]. apply steady_bind; [apply steady_check|intros _].
    apply steady_bind; [apply calm_compute|intros ?]. apply steady_ret. }
  assert (ws_agrees w5) as Ha5 by (by eapply agrees_before). assert (advances w3 w5) as A35 by (by etrans). assert (ws_agrees w3) as Ha3 by (by eapply agrees_before).
  assert (advances w w2) as A02 by (by etrans). assert (ws_agrees w2) as Ha2 by (by eapply agrees_before). assert (ws_ok w2) as Hok2 by (by apply A02).
  assert (ws_ok w5) as Hok5 by (apply A35; [by apply A3|done]).
  destruct (final_diff_Ok name scope _ _ _ _ _ base_id E6 Hok5 Ha6) as (_ & R6 & Hc); [congruence| |].
  { apply computed_scoped. eapply compute_Ok; [exact E3|done|done|congruence]. }
  exists w9, d, w10. split_and!; [|congruence|done|done|done|done]. do 2 (etrans; [eassumption|]). etrans; [exact A35|]. etrans; [exact A6|]. etrans; [exact A7|]. by etrans.
Qed.


(** ** The end of a sync pass *)
Definition is_conflict (o : option TreeEntry) : bool := match o with Some e => is_conflict_kind (te_kind e) | None => false end.
(** A sync pass publishes the scanned file except at a blocked path and under a recorded conflict. *)
Definition synced_leaf (conflict_paths : gset string) (scan : gmap string FileState) (old : string → option TreeEntry) (p : string) : option TreeEntry :=
  if is_conflict (old p) || bool_decide (p ∈ conflict_paths) then old p else view_leaf scan [] p.
Definition head_leaf (o : option string) (p : string) : option TreeEntry :=
  match o with Some id => match dir_snapshot D id with Ok s => leaf_at D (sn_root s) p | Err _ => None end | None => None end.
Lemma sync_candidate_lookup current head_files conflict_paths p :
  sync_candidate current head_files conflict_paths !! p = if decide (p ∈ conflict_paths) then head_files !! p else current !! p.
Proof using.
  unfold sync_candidate. assert (∀ l m, foldl (restore_path head_files) m l !! p = if decide (p ∈ l) then head_files !! p else m !! p) as Hf.
  { induction l as [|q l IH]; intros m; [done|]. simpl. rewrite IH. destruct (decide (p ∈ l)); [by rewrite decide_True by (by right)|].
    unfold restore_path. destruct (decide (p = q)) as [->|Hne].
    - rewrite decide_True by (by left). destruct (head_files !! q); [by rewrite lookup_insert_eq|by rewrite lookup_delete_eq].
    - rewrite decide_False by (rewrite elem_of_cons; tauto). destruct (head_files !! q); [by rewrite lookup_insert_ne|by rewrite lookup_delete_ne]. }
  rewrite Hf. apply decide_ext, elem_of_set_iter.
Qed.
Lemma sync_view current st conflict_paths p :
  (∀ c, c ∈ lt_conflicts st → is_Some (representative c)) →
  view_leaf (sync_candidate current (lt_files st) conflict_paths) (lt_conflicts st) p =
  synced_leaf conflict_paths current (view_leaf (lt_files st) (lt_conflicts st)) p.
Proof using.
  intros Hrep. unfold synced_leaf. rewrite (view_leaf_file current []) by (by intros c ?%elem_of_nil). unfold view_leaf.
  destruct (list_find _ (lt_conflicts st)) as [[i c]|] eqn:E.
  - apply list_find_Some in E as (Hi & _ & _). apply list_elem_of_lookup_2 in Hi. destruct (Hrep c Hi) as [r Hr]. by rewrite Hr.
  - rewrite sync_candidate_lookup. assert (is_conflict (file_entry (last_component p) <$> live (lt_files st !! p)) = false) as -> by (by destruct (live (lt_files st !! p))).
    simpl. case_decide; case_bool_decide; done.
Qed.
Lemma write_ref_Ok r id w w' u : write_ref answers r id w = (w', Ok u) → ws_refs w' = <[r := id]> (ws_refs w) ∧ ws_swaps w' = ws_swaps w.
Proof using.
  unfold write_ref. intros (a & w1 & Hq & E)%snap_bind_Ok. injection Hq as <- <-. unfold snap_act in E. simpl in E. case_match; [done|]. by injection E as <- _.
Qed.
Lemma recorded_last (clean : bool) current committed w w' u :
  (if clean then record_committed_refs answers committed
   else (_ ← snapshot_local_view pack unpack reachable_chunks retention answers current "you"; record_last_synced_ref answers committed)) w = (w', Ok u) →
  advances w w' ∧ ws_swaps w' = ws_swaps w ∧ ws_refs w' !! LAST_SYNCED_REF = Some committed.
Proof using unpack_pack others.
  destruct clean; intros E.
  - assert (calm (record_committed_refs answers committed)) as Hc
      by (apply calm_bind; [apply calm_check|intros _]; apply calm_bind; [apply calm_write_ref|intros _]; apply calm_write_ref).
    destruct (calm_Ok _ _ _ _ Hc E) as [? ?]. split_and!; [done..|]. unfold record_committed_refs in E. apply snap_bind_Ok in E as (? & ? & [_ ->]%snap_check_Ok & E).
    apply snap_bind_Ok in E as (? & ? & _ & [-> _]%write_ref_Ok). by rewrite lookup_insert_eq.
  - assert (calm (record_last_synced_ref answers committed)) as Hc by (apply calm_bind; [apply calm_check|intros _]; apply calm_write_ref).
    assert (calm (_ ← snapshot_local_view pack unpack reachable_chunks retention answers current "you"; record_last_synced_ref answers committed)) as Hc'
      by (apply calm_bind; [apply calm_record|intros _; exact Hc]).
    destruct (calm_Ok _ _ _ _ Hc' E) as [? ?]. split_and!; [done..|]. apply snap_bind_Ok in E as (? & ? & _ & E). unfold record_last_synced_ref in E.
    apply snap_bind_Ok in E as (? & ? & [_ ->]%snap_check_Ok & [-> _]%write_ref_Ok). by rewrite lookup_insert_eq.
Qed.
(** What was loaded of the head. *)
Lemma head_loaded negotiated w w' files conflicts root :
  (match negotiated with
   | Some id => snapshot ← load_snapshot unpack answers id; state ← load_state unpack answers id; mret (lt_files state, lt_conflicts state, Some (sn_root snapshot))
   | None => mret (∅, [], None)
   end) w = (w', Ok (files, conflicts, root)) →
  advances w w' ∧ ws_swaps w' = ws_swaps w ∧ (ws_ok w → ws_agrees w' →
  (∀ c, c ∈ conflicts → is_Some (representative c)) ∧ (∀ p, view_leaf files conflicts p = head_leaf negotiated p) ∧
  ∀ r, root = Some r → ∃ id s, negotiated = Some id ∧ dir_snapshot D id = Ok s ∧ sn_root s = r).
Proof using others.
  destruct negotiated as [id|].
  2: { intros [= <- <- <- <-]. split_and!; [done|done|]. intros _ _. split_and!; [by intros c ?%elem_of_nil|by intros p; unfold view_leaf; simpl; rewrite lookup_empty|done]. }
  intros (sn & w1 & E1 & E)%snap_bind_Ok. apply snap_bind_Ok in E as (st & w2 & E2 & [= <- <- <- <-]).
  destruct (calm_Ok _ _ _ _ (calm_loading _) E1) as [A1 S1], (calm_Ok _ _ _ _ (calm_loading _) E2) as [A2 S2]. split_and!; [by etrans|congruence|]. intros Hok Ha.
  assert (ws_agrees w1) as Ha1 by (by eapply agrees_before). assert (ws_ok w1) as Hok1 by (by apply A1). assert (ws_ok w2) as Hok2 by (by apply A2).
  apply loading_Ok in E1 as (_ & n1 & E1). apply loading_Ok in E2 as (_ & n2 & E2). apply (load_snapshot_refines unpack n1 D _ Hok1) in E1.
  split_and!; [intros c Hc; by eapply (loaded_represented unpack D w2)| |intros r [= <-]; eauto].
  intros p. simpl. rewrite E1. by eapply (loaded_leaf unpack n2 D (ws_objects w2)).
Qed.
(** What a pass that publishes leaves. *)
Definition pushed (negotiated : option string) (conflict_paths : gset string) (w w' : Workspace) : Prop :=
  ∃ n committed, ws_refs w' !! LAST_SYNCED_REF = Some committed ∧
    let leaves := synced_leaf conflict_paths (sa_files (answers n)) (head_leaf negotiated) in
    (negotiated = Some committed ∧ ws_swaps w' = ws_swaps w ∧ ∃ s files conflicts, dir_snapshot D committed = Ok s ∧
       candidate_root pack files conflicts = Ok (sn_root s) ∧ ∀ p, view_leaf files conflicts p = leaves p) ∨
    (ws_swaps w' = (negotiated, committed) :: ws_swaps w ∧ ∃ s, dir_snapshot D committed = Ok s ∧
       sn_parents s = option_list negotiated ∧ ∀ p, leaf_at D (sn_root s) p = leaves p).
Lemma finish_pushes format local_before conflict_paths negotiated w w' :
  ws_ok w → 3 ≤ format →
  finish_sync_pass pack unpack reachable_chunks retention answers format local_before conflict_paths false negotiated w = (w', Ok tt) → ws_agrees w' →
  pushed negotiated conflict_paths w w'.
Proof using unpack_pack digest_hex others clock.
  intros Hok Hfv Hf Ha. unfold finish_sync_pass in Hf. apply snap_bind_Ok in Hf as (scan & w1 & E1 & Hf). rewrite (proj2 (Z.leb_le _ _)) in Hf by done.
  apply snap_bind_Ok in Hf as ([[files conflicts] root] & w2 & E2 & Hf). apply snap_bind_Ok in Hf as (r & w3 & [Hr ->]%snap_check_Ok & Hf).
  apply snap_bind_Ok in Hf as (committed & w4 & E4 & Hf). apply snap_bind_Ok in Hf as (? & w5 & E5 & Hf).
  apply recorded_last in Hf as (A6 & S6 & Hlast). destruct (calm_Ok _ _ _ _ (calm_calling _) E5) as [A5 S5]. destruct (calm_Ok _ _ _ _ (calm_calling _) E1) as [A1 S1].
  apply calling_Ok in E1 as (n & -> & _). exists n, committed. split; [done|]. cbv zeta.
  assert (advances w2 w4) as A4.
  { eapply steady_Ok, E4. case_bool_decide; [apply steady_check|]. apply steady_bind; [by apply steady_writing|]. intros c.
    apply steady_bind; [by apply steady_swap|]. intros [|]; [apply steady_ret|apply steady_check]. }
  assert (ws_agrees w5) as Ha5 by (by eapply agrees_before). assert (ws_agrees w4) as Ha4 by (by eapply agrees_before). assert (ws_agrees w2) as Ha2 by (by eapply agrees_before).
  destruct (head_loaded _ _ _ _ _ _ E2) as (A2 & S2 & Hhead). assert (ws_agrees w1) as Ha1 by (by eapply agrees_before).
  destruct Hhead as (Hrep & Hview & Hroot); [by apply A1|done|].
  assert (∀ p, view_leaf (sync_candidate (sa_files (answers n)) files conflict_paths) conflicts p = synced_leaf conflict_paths (sa_files (answers n)) (head_leaf negotiated) p) as Hsync.
  { intros p. etrans; [apply (sync_view _ (mkLoadedTree files conflicts)); exact Hrep|]. unfold synced_leaf. simpl. by rewrite Hview. }
  case_bool_decide as Heq.
  - apply snap_check_Ok in E4 as [Hn%or_context_Ok ->]. left. split_and!; [done|congruence|]. destruct (Hroot r Heq) as (id & s & Hid & Hs & <-).
    rewrite Hn in Hid. injection Hid as <-. eexists s, _, _. split_and!; [done|exact Hr|exact Hsync].
  - apply snap_bind_Ok in E4 as (cand & w6 & E6 & E4). apply snap_bind_Ok in E4 as (sw & w7 & E7 & E4).
    destruct sw; [|done]. injection E4 as <- <-. assert (advances w6 w7) as A7 by (eapply steady_Ok, E7; by apply steady_swap).
    assert (ws_agrees w6) as Ha6 by (by eapply agrees_before). eapply writing_Ok in E6 as (S6' & s & Hs & Hpar & Hl); [|done..].
    apply swap_Ok in E7 as [E7 _]. right. split; [congruence|]. exists s. split_and!; [done|done|]. intros p. rewrite Hl. apply Hsync.
Qed.
Lemma finish_pulls format local_before conflict_paths negotiated w w' :
  3 ≤ format →
  finish_sync_pass pack unpack reachable_chunks retention answers format local_before conflict_paths true negotiated w = (w', Ok tt) →
  ws_swaps w' = ws_swaps w ∧ ∀ id, negotiated = Some id → ws_refs w' !! LAST_SYNCED_REF = Some id.
Proof using unpack_pack others.
  intros Hfv Hf. unfold finish_sync_pass in Hf. apply snap_bind_Ok in Hf as (scan & w1 & E1 & Hf). rewrite (proj2 (Z.leb_le _ _)) in Hf by done.
  apply snap_bind_Ok in Hf as ([[files conflicts] root] & w2 & E2 & Hf). destruct (head_loaded _ _ _ _ _ _ E2) as (_ & S2 & _).
  destruct (calm_Ok _ _ _ _ (calm_calling _) E1) as [_ S1]. destruct negotiated as [id|].
  - apply snap_bind_Ok in Hf as (r & w3 & [_ ->]%snap_check_Ok & (_ & S3 & Hlast)%recorded_last). split; [congruence|]. by intros ? [= <-].
  - assert (calm (_ ← snapshot_local_view pack unpack reachable_chunks retention answers scan "you"; mret tt)) as Hc
      by (apply calm_bind; [apply calm_record|intros _; apply calm_ret]).
    destruct (calm_Ok _ _ _ _ Hc Hf) as [_ ?]. split; [congruence|done].
Qed.
(** C4. A sync pass over a workspace of format 3 or later that succeeds.  In a pull nothing is
    published, and the negotiated head, if there is one, is recorded as last synced.  Otherwise the pass
    publishes on the negotiated head only: the snapshot it records as last synced was swapped in exactly
    for that head, or is that head because nothing changes.  Its leaves are the scanned files, except
    that a blocked path and a path with a recorded conflict keep the leaf of that head. *)
Theorem sync_pass_publishes format local_before conflict_paths pull negotiated w w' :
  ws_ok w → 3 ≤ format →
  finish_sync_pass pack unpack reachable_chunks retention answers format local_before conflict_paths pull negotiated w = (w', Ok tt) → ws_agrees w' →
  if pull then ws_swaps w' = ws_swaps w ∧ (∀ id, negotiated = Some id → ws_refs w' !! LAST_SYNCED_REF = Some id)
  else pushed negotiated conflict_paths w w'.
Proof using unpack_pack digest_hex others clock.
  intros Hok Hfv Hf Ha. destruct pull; [by eapply finish_pulls|by eapply finish_pushes].
Qed.
End runs.
