(* ===== verification/ReconcileProps.v ===== *)
(** * Reconciliation: no lost updates, nothing left behind

    The plan of a sync pass only replaces or deletes local files that did not change since
    the agreed snapshot, and which paths on which the two sides differ it takes care of.  The
    gate is proved against the interface [LeafReader], what it needs of the snapshot engine's
    comparison; [store_leaf_reader] shows that the comparison of the engine meets it. *)
From Stdlib Require Import ZArith Lia Ascii Strings.Byte.
From stdpp Require Import sorting numbers strings gmap list_numbers list options.
From S2P Require Import Prelude Text Paths Model Codec Lookup Convert Flatten Diff SyncDelta ThreeWay Reconcile.
From S2P Require Import SnapshotDiff Prepared TreeState ObjectStore ObjectStoreProps StoreViews SnapshotViews Snapshots SnapshotProps LandProps.

Local Open Scope Z_scope.

Lemma view_live o : view (live o) = view o.
Proof. unfold view. destruct o as [s|]; [|done]. simpl. destruct (fs_deleted s) eqn:E; [done|]. simpl. by rewrite E. Qed.

Lemma same_live_view l r : same_live (live l) (live r) = true ↔ view l = view r.
Proof.
  unfold same_live, view. destruct (live l) as [a|], (live r) as [b|]; simpl; try done.
  rewrite andb_true_iff, bool_decide_eq_true, Z.eqb_eq. split; [by intros [-> ->]|by intros [= -> ->]].
Qed.

Lemma same_live_false l r : same_live (live l) (live r) = false ↔ view l ≠ view r.
Proof. rewrite <-not_true_iff_false, same_live_view. done. Qed.

Lemma view_None o : view o = None ↔ live o = None.
Proof. unfold view. by destruct (live o). Qed.

(** ** The plan *)
Section plan.
Context (local_changed remote_changed : gset string) (local remote : gmap string FileState).

(** The decision for a path of the union. *)
Definition plan (p : string) : action :=
  if decide (view (local !! p) = view (remote !! p)) then Nothing
  else if decide (p ∈ local_changed) then if decide (p ∈ remote_changed) then Nothing else Upload
  else if decide (p ∈ remote_changed) then
    match live (remote !! p) with Some s => Download s | None => DeleteLocal end
  else Nothing.

Lemma reconcile_path_plan r p : reconcile_path local_changed remote_changed local remote r p = push_action p (plan p) r.
Proof.
  unfold reconcile_path, plan. cbv zeta. case_decide as Hv.
  - by rewrite (proj2 (same_live_view _ _) Hv).
  - rewrite (proj2 (same_live_false _ _) Hv). repeat case_bool_decide; repeat case_decide; try done.
    by destruct (live (remote !! p)).
Qed.

Lemma reconcile_loop l r :
  foldl (reconcile_path local_changed remote_changed local remote) r l =
  foldl (λ r pa, push_action pa.1 pa.2 r) r ((λ p, (p, plan p)) <$> l).
Proof. revert r. induction l as [|p l IH]; intros r; [done|]. cbn. rewrite reconcile_path_plan. apply IH. Qed.

Let resp (base : gmap string FileState) := rc_response (reconcile_sets local_changed remote_changed local remote base).
Let paths : list (string * action) := (λ p, (p, plan p)) <$> elements (local_changed ∪ remote_changed).

Lemma plan_Nothing p : p ∉ local_changed ∪ remote_changed → plan p = Nothing.
Proof. unfold plan. intros Hp. repeat case_decide; set_solver. Qed.

Lemma plan_elem p a : a ≠ Nothing → (p, a) ∈ paths ↔ plan p = a.
Proof.
  intros Ha. unfold paths. rewrite list_elem_of_fmap. setoid_rewrite elem_of_elements. split.
  - by intros (q & [= -> ->] & _).
  - intros <-. exists p. split; [done|]. destruct (decide (p ∈ local_changed ∪ remote_changed)); [done|].
    by rewrite plan_Nothing in Ha.
Qed.

Lemma plan_upload base p : p ∈ upload_required (resp base) ↔ plan p = Upload.
Proof.
  unfold resp, reconcile_sets. simpl. rewrite reconcile_loop, push_actions. simpl. unfold sort_strings, uploads.
  rewrite sort_by_perm, list_elem_of_omap, <-plan_elem by done. split.
  - intros ([k a] & Hin & Ha). destruct a; by simplify_eq/=.
  - intros Hin. by exists (p, Upload).
Qed.

Lemma plan_delete base p : p ∈ delete_local (resp base) ↔ plan p = DeleteLocal.
Proof.
  unfold resp, reconcile_sets. simpl. rewrite reconcile_loop, push_actions. simpl. unfold sort_strings, deletes.
  rewrite sort_by_perm, list_elem_of_omap, <-plan_elem by done. split.
  - intros ([k a] & Hin & Ha). destruct a; by simplify_eq/=.
  - intros Hin. by exists (p, DeleteLocal).
Qed.

Lemma plan_download base f : f ∈ download_required (resp base) ↔ ∃ p, plan p = Download f.
Proof.
  unfold resp, reconcile_sets. simpl. rewrite reconcile_loop, push_actions. simpl. unfold downloads.
  rewrite sort_by_perm, list_elem_of_omap. split.
  - intros ([k a] & Hin & Ha). destruct a; simplify_eq/=. exists k. by apply plan_elem.
  - intros (p & Hp). exists (p, Download f). split; [|done]. by apply plan_elem.
Qed.

(** What each decision means. *)
Lemma plan_spec p :
  match plan p with
  | Upload => view (local !! p) ≠ view (remote !! p) ∧ p ∈ local_changed ∧ p ∉ remote_changed
  | Download s => view (local !! p) ≠ view (remote !! p) ∧ p ∉ local_changed ∧ p ∈ remote_changed ∧
                  remote !! p = Some s ∧ fs_deleted s = false
  | DeleteLocal => view (local !! p) ≠ view (remote !! p) ∧ p ∉ local_changed ∧ p ∈ remote_changed ∧
                   view (remote !! p) = None
  | Nothing => view (local !! p) = view (remote !! p) ∨ (p ∈ local_changed ↔ p ∈ remote_changed)
  end.
Proof.
  unfold plan. repeat case_decide; try tauto. unfold live. destruct (remote !! p) as [s|] eqn:E; [|done].
  destruct (fs_deleted s) eqn:Hd; [|done]. split_and!; try done. unfold view. simpl. by rewrite Hd.
Qed.
End plan.

(** ** What the gate relies on

    [base] gives the leaves of the snapshot both sides last agreed on, none before the first
    sync.  Comparing it with one of the two views reports the paths whose leaf differs. *)
Class LeafReader (r : SnapshotReader) (base : string → option TreeEntry) (views : list (gmap string FileState)) : Prop := {
  lr_first p : last_synced_id r = None → base p = None;
  lr_diff id v changes : last_synced_id r = Some id → v ∈ views → Reconcile.diff_file_view r id v = Ok changes →
    changes_between base (view_leaf v []) changes;
}.

(** The server view: live states under their own path, nothing when the hub has no head. *)
Record server_view (format_version : Z) (server_head : option string) (remote : gmap string FileState) : Prop := {
  sv_path p s : remote !! p = Some s → fs_path s = p;
  sv_live p s : remote !! p = Some s → fs_deleted s = false;
  sv_head : 3 ≤ format_version → server_head = None → remote = ∅;
}.

Lemma changed_paths_between base v changes p :
  changes_between base v changes → p ∈ changed_paths changes ↔ base p ≠ v p.
Proof.
  intros (_ & Hs & Hc). unfold changed_paths. rewrite elem_of_list_to_set, list_elem_of_fmap. split.
  - intros (c & -> & (<- & <- & Hne & _)%Hs). done.
  - intros (c & Hin & <-)%Hc. eauto.
Qed.
Lemma view_leaf_content v p : leaf_content (view_leaf v [] p) = view (v !! p).
Proof. rewrite view_leaf_file by (by intros c ?%elem_of_nil). unfold leaf_content, view. by destruct (live (v !! p)). Qed.

(** The state the plan keeps of a changed path is the one its leaf in the base shows. *)
Lemma before_view base changes p :
  (∀ c, c ∈ changes → tc_before c = base (tc_path c)) → p ∈ tc_path <$> changes →
  hash_collect (omap before_state changes) !! p = entry_state p <$> base p.
Proof.
  intros Hb Hp. destruct (hash_collect _ !! p) as [s|] eqn:Hs.
  - apply hash_collect_Some, list_elem_of_omap in Hs as (c & Hc & Hst).
    unfold before_state in Hst. rewrite (Hb c Hc) in Hst. destruct (base (tc_path c)) as [e|] eqn:He; [|done].
    simplify_eq/=. by rewrite He.
  - apply list_elem_of_fmap in Hp as (c & -> & Hc). destruct (base (tc_path c)) as [e|] eqn:He; [|done]. exfalso.
    assert (is_Some (hash_collect (omap before_state changes) !! tc_path c)) as [? ?]; [|congruence].
    apply hash_collect_is_Some, list_elem_of_fmap. eexists (tc_path c, _). split; [done|].
    apply list_elem_of_omap. exists c. split; [done|]. unfold before_state. by rewrite (Hb c Hc), He.
Qed.

Section gate.
Context `{Unicode, HashOrder}.

Lemma detected_paths last local response pending server p :
  (∀ p s, server !! p = Some s → fs_deleted s = false) → is_safe_rel_path p = true →
  match last !! p with
  | Some b => view (local !! p) ≠ view (Some b) ∧ view (server !! p) ≠ view (Some b)
  | None => is_Some (local !! p) ∧ is_Some (server !! p)
  end → view (local !! p) ≠ view (server !! p) →
  p ∈ (ce_path ∘ fst <$> detect_workspace_conflicts_with_server_view last local response pending server).
Proof.
  intros Hlive Hsafe Hch Hne. unfold detect_workspace_conflicts_with_server_view. cbv zeta.
  set (tc := hash_collect _). set (td := fst <$> _).
  assert (∀ s, server !! p = Some s → view (Some s) ≠ view (last !! p) → tc !! p = Some s) as Htc.
  { intros s Hs Hv. unfold tc. apply hash_collect_NoDup.
    - apply NoDup_fmap_fst. 2: { apply NoDup_filter, (NoDup_fmap_1 fst), hash_iter_NoDup. }
      intros k a b [_ Ha]%list_elem_of_filter [_ Hb]%list_elem_of_filter.
      apply elem_of_hash_iter in Ha, Hb. congruence.
    - apply list_elem_of_filter. split; [by apply same_live_false|by apply elem_of_hash_iter]. }
  assert (∀ b, last !! p = Some b → fs_deleted b = false → server !! p = None → p ∈ td) as Htd.
  { intros b Hb Hd Hs. unfold td. apply list_elem_of_fmap. exists (p, b). split; [done|].
    apply list_elem_of_filter. split; [done|by apply elem_of_hash_iter]. }
  set (cands := _ ++ (hash_iter tc).*1 ++ td).
  assert (view (theirs tc (list_to_set td) p) = view (server !! p) ∧ is_Some (theirs tc (list_to_set td) p) ∧
    p ∈ cands ∧ (last !! p = None → is_Some (tc !! p))) as (Hview & Hsome & Hcand & Hnew).
  { destruct (server !! p) as [s|] eqn:Hs.
    - assert (tc !! p = Some s) as Hp.
      { apply Htc; [done|]. destruct (last !! p); [tauto|]. unfold view. simpl. by rewrite (Hlive p s Hs). }
      rewrite (theirs_changed _ _ p s Hp). split_and!; [done|by eauto| |by eauto].
      unfold cands. rewrite !elem_of_app. right. left. apply list_elem_of_fmap. exists (p, s).
      split; [done|]. by apply elem_of_hash_iter.
    - destruct (last !! p) as [b|]; [|by destruct Hch as [_ []]].
      assert (fs_deleted b = false) as Hb.
      { destruct (fs_deleted b) eqn:Hb; [|done]. destruct Hch as [_ []]. unfold view. simpl. by rewrite Hb. }
      specialize (Htd b eq_refl Hb eq_refl).
      assert (theirs tc (list_to_set td) p = Some (mkFileState p "" 0 0 true 0)) as Ht.
      { unfold theirs, theirs_state. rewrite bool_decide_true by (by apply elem_of_list_to_set).
        destruct (tc !! p) as [s|] eqn:Hp; [|done]. unfold tc in Hp.
        apply hash_collect_Some, list_elem_of_filter in Hp as [_ Hp%elem_of_hash_iter]. congruence. }
      rewrite Ht. split_and!; [done|by eauto| |done]. unfold cands. rewrite !elem_of_app. auto. }
  apply list_elem_of_fmap.
  assert (p ∈ (ce_path ∘ fst <$> detect_concurrent_edits last local tc (list_to_set td) pending cands)) as Hin.
  { apply detected_elem. split; [done|]. unfold diverged. rewrite Hview. split; [|done].
    destruct (last !! p); [tauto|]. split; [tauto|by apply Hnew]. }
  apply list_elem_of_fmap in Hin as (e & Hp & He). exists e. split; [done|].
  apply list_elem_of_filter. split; [|done]. unfold compose in Hp. by rewrite <-Hp.
Qed.

(** The later scans only add conflicts. *)
Lemma late_conflict_keeps last pending path l r st e :
  e ∈ st.1 → e ∈ (late_conflict last pending path l r st).1.
Proof.
  destruct st as [detected seen]. unfold late_conflict. intros He. simpl in He.
  repeat case_match; simpl; try done; set_solver.
Qed.

Lemma foldl_keeps {A} (f : list (ConcurrentEdit * ConflictKind) * gset string → A → list (ConcurrentEdit * ConflictKind) * gset string) l st e :
  (∀ st a, e ∈ st.1 → e ∈ (f st a).1) → e ∈ st.1 → e ∈ (foldl f st l).1.
Proof. intros Hf. revert st. induction l as [|a l IH]; intros st He; simpl; [done|]. by apply IH, Hf. Qed.

Lemma gate_conflicts_detected last local server response pending p :
  p ∈ (ce_path ∘ fst <$> detect_workspace_conflicts_with_server_view last local response pending server) →
  p ∈ (ce_path ∘ fst <$> gate_conflicts last local server response pending).
Proof.
  rewrite !list_elem_of_fmap. intros (e & Hp & He). exists e. split; [done|]. unfold gate_conflicts. cbv zeta.
  assert (∀ x y, e ∈ (foldl (λ st remote, late_conflict last pending (fs_path remote)
    (local !! fs_path remote) (Some remote) st)
    (detect_workspace_conflicts_with_server_view last local response pending server ++ x, y)
    (download_required response)).1) as Hk.
  { intros x y. apply foldl_keeps; [intros; by apply late_conflict_keeps|]. simpl. set_solver. }
  case_match; [|apply Hk]. apply foldl_keeps; [intros; by apply late_conflict_keeps|apply Hk].
Qed.


(** Nor do they add a path outside the plan. *)
Lemma late_conflict_paths last pending path l r st e :
  e ∈ (late_conflict last pending path l r st).1 → e ∈ st.1 ∨ ce_path e.1 = path.
Proof.
  destruct st as [detected seen]. unfold late_conflict. simpl.
  repeat case_match; simpl; try (by left); rewrite elem_of_app, list_elem_of_singleton; intros [?| ->]; auto.
Qed.
Lemma foldl_late_paths {A} (f : list (ConcurrentEdit * ConflictKind) * gset string → A → list (ConcurrentEdit * ConflictKind) * gset string)
    (key : A → string) l st e :
  (∀ st a, e ∈ (f st a).1 → e ∈ st.1 ∨ ce_path e.1 = key a) → e ∈ (foldl f st l).1 → e ∈ st.1 ∨ ce_path e.1 ∈ key <$> l.
Proof.
  intros Hf. revert st. induction l as [|a l IH]; intros st He; simpl in *; [by left|].
  destruct (IH _ He) as [[?| ->]%Hf|?]; [by left|right; left|by right; right].
Qed.
Lemma gate_conflicts_paths last local server response pending p :
  p ∈ (ce_path ∘ fst <$> gate_conflicts last local server response pending) →
  p ∈ (ce_path ∘ fst <$> detect_workspace_conflicts_with_server_view last local response pending server)
  ∨ p ∈ fs_path <$> download_required response ∨ p ∈ upload_required response.
Proof.
  rewrite !(list_elem_of_fmap (ce_path ∘ fst)). intros (e & -> & He). unfold compose in *. unfold gate_conflicts in He. cbv zeta in He.
  set (D := detect_workspace_conflicts_with_server_view _ _ _ _ _) in *.
  assert (∀ y, e ∈ (foldl (λ st remote, late_conflict last pending (fs_path remote) (local !! fs_path remote) (Some remote) st)
    (D ++ omap (case_conflict last local response pending) (case_conflict_paths (download_required response) local), y)
    (download_required response)).1 → e ∈ D ∨ ce_path e.1 ∈ fs_path <$> download_required response) as Hk.
  { clear He. intros y Hy. apply (foldl_late_paths _ fs_path) in Hy as [Hy|?]; [|by right|intros st a; apply late_conflict_paths].
    simpl in Hy. apply elem_of_app in Hy as [?|Hy]; [by left|right].
    apply list_elem_of_omap in Hy as (q & (f & Hf & Hq)%list_elem_of_omap & Hc). unfold case_conflict in Hc.
    repeat (case_match; try done). simplify_eq/=. by apply list_elem_of_fmap_2. }
  case_match.
  - apply (foldl_late_paths _ id) in He as [He|He]; [|rewrite list_fmap_id in He; auto|intros st a; apply late_conflict_paths].
    destruct (Hk _ He); eauto.
  - destruct (Hk _ He); eauto.
Qed.

(** A path that still shows what the base shows on one side is no conflict for the detector. *)
Lemma undetected last local response pending server p b :
  last !! p = Some b → fs_deleted b = false →
  view (local !! p) = view (Some b) ∨ view (server !! p) = view (Some b) →
  p ∉ (ce_path ∘ fst <$> detect_workspace_conflicts_with_server_view last local response pending server).
Proof.
  intros Hb Hd Hs Hin. unfold detect_workspace_conflicts_with_server_view in Hin. cbv zeta in Hin.
  apply list_elem_of_fmap in Hin as (e & -> & [_ He]%list_elem_of_filter). unfold compose in *. set (p := ce_path e.1) in *.
  assert (p ∈ (ce_path ∘ fst <$> detect_concurrent_edits last local (hash_collect (filter
    (λ kv, same_content_live (Some kv.2) (last !! kv.1) = false) (hash_iter server)))
    (list_to_set (fst <$> filter (λ kv, fs_deleted kv.2 = false ∧ server !! kv.1 = None) (hash_iter last))) pending
    (conflict_candidate_paths response (elements pending) ++
     (hash_iter (hash_collect (filter (λ kv, same_content_live (Some kv.2) (last !! kv.1) = false) (hash_iter server)))).*1 ++
     (fst <$> filter (λ kv, fs_deleted kv.2 = false ∧ server !! kv.1 = None) (hash_iter last))))) as Hp
    by (apply list_elem_of_fmap; by exists e).
  apply detected_elem in Hp as [_ [Hdv _]]. rewrite Hb in Hdv. destruct Hdv as [Hne [t Ht]]. destruct Hs as [?|Hs]; [done|].
  destruct (server !! p) as [s|] eqn:Hsp; [|unfold view in Hs; simpl in Hs; by rewrite Hd in Hs].
  unfold theirs, theirs_state in Ht. destruct (hash_collect _ !! p) as [s'|] eqn:Hc.
  - apply hash_collect_Some, list_elem_of_filter in Hc as [Hf Hc%elem_of_hash_iter]. simpl in Hf. rewrite Hb in Hf.
    apply same_live_false in Hf. congruence.
  - case_bool_decide as Hdel; [|done]. apply elem_of_list_to_set, list_elem_of_fmap in Hdel as ([k x] & Hk & [[_ Hf] _]%list_elem_of_filter).
    simpl in *. subst k. congruence.
Qed.

Lemma negotiate_Ok snapshots fv head local remote pending register corrupted resp blocked :
  negotiate_sync_with_conflict_gate snapshots fv head local remote pending register corrupted = Ok (resp, blocked) →
  ∃ rc, reconcile snapshots fv head local remote = Ok rc ∧
    resp = filter_blocked_paths (rc_response rc) blocked ∧
    ∀ p, p ∈ blocked ↔ p ∈ pending ∨ (register = true ∧ p ∈ corrupted) ∨
      p ∈ (ce_path ∘ fst <$> gate_conflicts (rc_base rc) local remote (rc_response rc) pending).
Proof.
  unfold negotiate_sync_with_conflict_gate. intros Hn. inv_ok. eexists. split_and!; [done|done|].
  intros p. rewrite !elem_of_union, elem_of_list_to_set. destruct register; [rewrite elem_of_list_to_set|]; set_solver.
Qed.

(** The hub lost its state while this client remembers an agreed one. *)
Definition restored_hub (snapshots : SnapshotReader) (fv : Z) (head : option string) (remote : gmap string FileState) : Prop :=
  ∃ id files, last_synced_id snapshots = Some id ∧ Reconcile.load_files snapshots id = Ok files ∧ files ≠ ∅ ∧
    if 3 <=? fv then head = None else remote = ∅.

Lemma filter_blocked_elem response blocked :
  let r := filter_blocked_paths response blocked in
  (∀ p, p ∈ upload_required r ↔ p ∈ upload_required response ∧ p ∉ blocked) ∧
  (∀ f, f ∈ download_required r ↔ f ∈ download_required response ∧ fs_path f ∉ blocked) ∧
  (∀ p, p ∈ delete_local r ↔ p ∈ delete_local response ∧ p ∉ blocked).
Proof. cbv zeta. unfold filter_blocked_paths. simpl. split_and!; intros; rewrite list_elem_of_filter; tauto. Qed.

(** What the sets of a compared pass are. *)
Record compared (base : string → option TreeEntry) (local remote : gmap string FileState) (lc rmc : gset string) (rc : Reconciliation) : Prop := {
  cp_local p : p ∈ lc ↔ base p ≠ view_leaf local [] p;
  cp_remote p : p ∈ rmc ↔ base p ≠ view_leaf remote [] p;
  cp_base p : p ∈ lc → rc_base rc !! p = entry_state p <$> base p;
}.

(** The two ways a reconciliation ends. *)
Lemma reconcile_cases snapshots base fv head local remote rc `{!LeafReader snapshots base [local; remote] } :
  reconcile snapshots fv head local remote = Ok rc →
  (restored_hub snapshots fv head remote ∧ download_required (rc_response rc) = [] ∧ delete_local (rc_response rc) = []) ∨
  (∃ lc rmc : gset string, rc = reconcile_sets lc rmc local remote (rc_base rc) ∧
     ((last_synced_id snapshots = None ∧ lc = dom local ∧ rmc = dom remote ∧ rc_base rc = ∅) ∨
      compared base local remote lc rmc rc)).
Proof.
  unfold reconcile. destruct (last_synced_id snapshots) as [id|] eqn:Hid.
  2: { intros [= <-]. right. exists (dom local), (dom remote). split; [done|]. by left. }
  intros Hr. apply bind_Ok in Hr as (restored & Hres & Hr). destruct restored as [r|].
  - left. inv_ok. destruct (if 3 <=? fv then _ else _) eqn:Hh; [|done].
    apply bind_Ok in Hres as (files & Hl & Hres). apply Ok_inj in Hres. case_bool_decide as He; [done|].
    injection Hres as <-. simpl. split_and!; [|done|done].
    exists id, files. split_and!; [done..|]. by destruct (3 <=? fv); apply bool_decide_eq_true in Hh.
  - right. apply bind_Ok in Hr as (lcs & Hlc & Hr). apply bind_Ok in Hr as (rcs & Hrc & Hr). apply Ok_inj in Hr as <-.
    exists (changed_paths lcs), (changed_paths rcs). split; [done|]. right.
    apply (lr_diff _ _ _ Hid) in Hlc; [|set_solver]. apply (lr_diff _ _ _ Hid) in Hrc; [|set_solver].
    split; intros p; [by apply changed_paths_between..|]. unfold changed_paths. rewrite elem_of_list_to_set. intros Hp.
    simpl. apply before_view; [|rewrite fmap_app; set_solver].
    intros c [Hc|Hc]%elem_of_app; [by apply Hlc|by apply Hrc].
Qed.

(** What the plan replaces, deletes or uploads is unchanged on the side it is written over. *)
Lemma reader_no_lost_update snapshots base fv head local remote pending register corrupted resp blocked p
    `{!LeafReader snapshots base [local; remote] } :
  server_view fv head remote →
  negotiate_sync_with_conflict_gate snapshots fv head local remote pending register corrupted = Ok (resp, blocked) →
  (p ∈ (fs_path <$> download_required resp) ++ delete_local resp → view_leaf local [] p = base p) ∧
  (p ∈ upload_required resp → view_leaf remote [] p = base p ∨ remote !! p = None).
Proof.
  intros [Hpath Hlive Hhead] (rc & Hrc & -> & _)%negotiate_Ok.
  destruct (filter_blocked_elem (rc_response rc) blocked) as (Hu & Hd & Hl). rewrite elem_of_app, list_elem_of_fmap.
  apply (reconcile_cases _ base) in Hrc as [((id & files & Hid & _ & _ & Hres) & Hdown & Hdel)|(lc & rmc & Heq & Hcase)];
    [| |done].
  { split; [|intros _; right; destruct (Z.leb_spec 3 fv); [by rewrite Hhead|by rewrite Hres]].
    intros [(f & -> & [Hf _]%Hd)|[Hp _]%Hl]; [rewrite Hdown in Hf|rewrite Hdel in Hp]; set_solver. }
  assert (∀ q, q ∉ lc → view_leaf local [] q = base q) as Hsame.
  { intros q Hq. destruct Hcase as [(Hid & -> & _ & _)|Hx].
    - rewrite (lr_first (base := base) q Hid), view_leaf_file, (not_elem_of_dom_1 _ _ Hq); [done|by intros c ?%elem_of_nil].
    - symmetry. apply dec_stable. by rewrite <-(cp_local _ _ _ _ _ _ Hx). }
  split.
  - intros [(f & -> & [Hf _]%Hd)|[Hp _]%Hl].
    + rewrite Heq in Hf. apply plan_download in Hf as [q Hq]. pose proof (plan_spec lc rmc local remote q) as Hs. rewrite Hq in Hs.
      destruct Hs as (_ & Hn & _ & Hr & _). rewrite (Hpath _ _ Hr). by apply Hsame.
    + rewrite Heq in Hp. apply plan_delete in Hp. pose proof (plan_spec lc rmc local remote p) as Hs. rewrite Hp in Hs.
      destruct Hs as (_ & Hn & _). by apply Hsame.
  - intros [Hp _]%Hu. rewrite Heq in Hp. apply plan_upload in Hp. pose proof (plan_spec lc rmc local remote p) as Hs. rewrite Hp in Hs.
    destruct Hs as (_ & _ & Hn). destruct Hcase as [(Hid & _ & -> & _)|Hx].
    + right. by apply not_elem_of_dom.
    + left. symmetry. apply dec_stable. by rewrite <-(cp_remote _ _ _ _ _ _ Hx).
Qed.

(** A path the gate overlooks: neither side has the leaf of the base, so both count as changed,
    and yet one side has the content the base shows, so neither counts as a concurrent edit. *)
Definition overlooked (base : string → option TreeEntry) (local remote : gmap string FileState) (p : string) : Prop :=
  base p ≠ view_leaf local [] p ∧ base p ≠ view_leaf remote [] p ∧
  (view (local !! p) = leaf_content (base p) ∨ view (remote !! p) = leaf_content (base p)).

#[global] Instance overlooked_dec base local remote p : Decision (overlooked base local remote p).
Proof. unfold overlooked. apply _. Defined.

Lemma view_base e p : view (Some (entry_state p e)) = leaf_content (Some e).
Proof. done. Qed.
Lemma view_leaf_None v p : view (v !! p) = None → view_leaf v [] p = None.
Proof. rewrite <-view_leaf_content. by destruct (view_leaf v [] p). Qed.
(** Only a path that the base has can be overlooked. *)
Lemma overlooked_base base local remote p : overlooked base local remote p → ∃ e, base p = Some e.
Proof.
  intros (Hl & Hr & Hs). destruct (base p) as [e|]; [by eauto|].
  by destruct Hs as [?%view_leaf_None|?%view_leaf_None]; [destruct Hl|destruct Hr].
Qed.

(** A path both sides changed is detected, unless it is overlooked. *)
Lemma both_changed_detected base local remote lc rmc rc pending response p :
  compared base local remote lc rmc rc → (∀ p s, remote !! p = Some s → fs_deleted s = false) →
  is_safe_rel_path p = true → view (local !! p) ≠ view (remote !! p) → p ∈ lc → p ∈ rmc →
  ¬ overlooked base local remote p →
  p ∈ (ce_path ∘ fst <$> gate_conflicts (rc_base rc) local remote response pending).
Proof.
  intros Hx Hlive Hsafe Hne Hlc Hrm Hno. apply gate_conflicts_detected, detected_paths; [done|done| |done].
  rewrite (cp_base _ _ _ _ _ _ Hx p Hlc). apply (cp_local _ _ _ _ _ _ Hx) in Hlc. apply (cp_remote _ _ _ _ _ _ Hx) in Hrm.
  unfold overlooked in Hno. destruct (base p) as [e|] eqn:He; simpl.
  - rewrite view_base. tauto.
  - rewrite !view_leaf_file in Hlc, Hrm by (by intros c ?%elem_of_nil). destruct (local !! p), (remote !! p); try done; eauto.
Qed.

(** Which differences are taken care of. *)
Lemma reader_complete snapshots base fv head local remote pending register corrupted resp blocked p
    `{!LeafReader snapshots base [local; remote] } :
  server_view fv head remote → is_safe_rel_path p = true → ¬ restored_hub snapshots fv head remote →
  negotiate_sync_with_conflict_gate snapshots fv head local remote pending register corrupted = Ok (resp, blocked) →
  view (local !! p) ≠ view (remote !! p) → ¬ overlooked base local remote p →
  p ∈ upload_required resp ∨ p ∈ fs_path <$> download_required resp ∨ p ∈ delete_local resp ∨ p ∈ blocked.
Proof.
  intros [Hpath Hlive Hhead] Hsafe Hnr (rc & Hrc & -> & Hblk)%negotiate_Ok Hne Hno.
  destruct (filter_blocked_elem (rc_response rc) blocked) as (Hu & Hd & Hl).
  destruct (decide (p ∈ blocked)) as [|Hnb]; [tauto|]. rewrite Hblk in Hnb.
  apply (reconcile_cases _ base) in Hrc as [[? _]|(lc & rmc & Heq & Hcase)]; [done| |done].
  assert (¬ (p ∈ lc ∧ p ∈ rmc)) as Hnot.
  { intros [Hlc Hrm]. apply Hnb. right. right. destruct Hcase as [(Hid & -> & -> & Hb)|Hx]; [|by eapply both_changed_detected].
    apply gate_conflicts_detected, detected_paths; [done|done| |done]. rewrite Hb, lookup_empty. by split; apply elem_of_dom. }
  assert (p ∈ lc ∨ p ∈ rmc) as Hone.
  { destruct Hcase as [(Hid & -> & -> & _)|Hx].
    - rewrite !elem_of_dom. destruct (local !! p), (remote !! p); naive_solver.
    - rewrite (cp_local _ _ _ _ _ _ Hx), (cp_remote _ _ _ _ _ _ Hx).
      destruct (decide (base p = view_leaf local [] p)) as [Hlb|]; [|by left]. right. intros Hrb. apply Hne.
      by rewrite <-!view_leaf_content, <-Hlb, <-Hrb. }
  pose proof (plan_spec lc rmc local remote p) as Hs.
  destruct (plan lc rmc local remote p) as [|f| |] eqn:Hp.
  - left. apply Hu. rewrite Hblk. split; [|done]. rewrite Heq. by apply plan_upload.
  - right. left. destruct Hs as (_ & _ & _ & Hr & _). apply list_elem_of_fmap. exists f.
    rewrite (Hpath _ _ Hr). split; [done|]. apply Hd. rewrite (Hpath _ _ Hr), Hblk. split; [|done].
    rewrite Heq. apply plan_download. eauto.
  - right. right. left. apply Hl. rewrite Hblk. split; [|done]. rewrite Heq. by apply plan_delete.
  - tauto.
Qed.

(** An overlooked path is in no list of the plan, and blocked only for another reason. *)
Lemma reader_overlooks snapshots base fv head local remote pending register corrupted resp blocked p
    `{!LeafReader snapshots base [local; remote] } :
  server_view fv head remote → ¬ restored_hub snapshots fv head remote →
  negotiate_sync_with_conflict_gate snapshots fv head local remote pending register corrupted = Ok (resp, blocked) →
  overlooked base local remote p →
  p ∈ upload_required resp ∨ p ∈ fs_path <$> download_required resp ∨ p ∈ delete_local resp ∨ p ∈ blocked →
  p ∈ pending ∨ (register = true ∧ p ∈ corrupted).
Proof.
  intros [Hpath Hlive Hhead] Hnr (rc & Hrc & -> & Hblk)%negotiate_Ok Hov.
  destruct (filter_blocked_elem (rc_response rc) blocked) as (Hu & Hd & Hl).
  destruct (overlooked_base _ _ _ _ Hov) as [e He]. destruct Hov as (Hlc & Hrm & Hs).
  apply (reconcile_cases _ base) in Hrc as [[? _]|(lc & rmc & Heq & [(Hid & _)|Hx])]; [done|by rewrite (lr_first (base := base) p Hid) in He| |done].
  rewrite <-(cp_local _ _ _ _ _ _ Hx) in Hlc. rewrite <-(cp_remote _ _ _ _ _ _ Hx) in Hrm.
  pose proof (plan_spec lc rmc local remote p) as Hp.
  assert (p ∉ upload_required (rc_response rc)) as Hnu
    by (rewrite Heq; intros Hq%plan_upload; rewrite Hq in Hp; tauto).
  assert (p ∉ fs_path <$> download_required (rc_response rc)) as Hnd.
  { rewrite Heq. intros (f & -> & [q Hq]%plan_download)%list_elem_of_fmap. pose proof (plan_spec lc rmc local remote q) as Hp'.
    rewrite Hq in Hp'. destruct Hp' as (_ & Hn & _ & Hr & _). by rewrite (Hpath _ _ Hr) in *. }
  intros [[? _]%Hu|[(f & -> & [Hf _]%Hd)%list_elem_of_fmap|[[Hq _]%Hl|Hb%Hblk]]]; [done|by destruct Hnd; apply list_elem_of_fmap_2| |].
  - rewrite Heq in Hq. apply plan_delete in Hq. rewrite Hq in Hp. tauto.
  - destruct Hb as [?|[?|[Hdet|[?|?]]%gate_conflicts_paths]]; [by left|by right| |done|done]. exfalso. revert Hdet.
    eapply undetected; [by rewrite (cp_base _ _ _ _ _ _ Hx p Hlc), He|done|]. by rewrite view_base, <-He.
Qed.

(** A hub that lost its state is refilled, never obeyed: when the hub has no head (or no
    rows) although this client remembers a non-empty agreed snapshot, nothing is downloaded
    over or deleted locally, and every live local file that is not blocked is uploaded. *)
Theorem restored_hub_refilled snapshots fv head local remote pending register corrupted resp blocked :
  restored_hub snapshots fv head remote →
  negotiate_sync_with_conflict_gate snapshots fv head local remote pending register corrupted = Ok (resp, blocked) →
  download_required resp = [] ∧ delete_local resp = [] ∧
  ∀ p, p ∈ upload_required resp ↔ is_Some (live (local !! p)) ∧ p ∉ blocked.
Proof.
  intros (id & files & Hid & Hl & Hne & Hres) (rc & Hrc & -> & _)%negotiate_Ok.
  unfold reconcile in Hrc. rewrite Hid in Hrc.
  replace (if 3 <=? fv then bool_decide (head = None) else bool_decide (remote = ∅)) with true in Hrc
    by (destruct (3 <=? fv); symmetry; by apply bool_decide_eq_true).
  rewrite Hl in Hrc. simpl in Hrc. rewrite bool_decide_false in Hrc by done. apply Ok_inj in Hrc as <-. simpl.
  split_and!; [done|done|]. intros p. rewrite list_elem_of_filter, dedup_elem. unfold sort_strings.
  rewrite sort_by_perm, list_elem_of_fmap, (comm (∧)). apply and_iff_compat_r. split.
  - intros ([k s] & -> & [Hs Hk%elem_of_hash_iter]%list_elem_of_filter). simpl in *. rewrite Hk. simpl. rewrite Hs. eauto.
  - intros [s Hs]. unfold live in Hs. destruct (local !! p) as [s'|] eqn:Hp; [|done].
    destruct (fs_deleted s') eqn:Hd; [done|]. exists (p, s'). split; [done|].
    apply list_elem_of_filter. by rewrite elem_of_hash_iter.
Qed.
End gate.

(** ** The gate over the snapshot engine *)
Section store.
Context `{Unicode, Blake3, HashOrder} (pack unpack : list byte → Result (list byte)) (net : string → Result unit).
Context (digest_hex : ∀ b, is_valid_hash (hash_bytes b) = true) (D : Directory) (o : Objects).

(** The engine as the gate sees it, [last] being the snapshot of the last sync. *)
Definition store_reader (last : option string) : SnapshotReader :=
  mkSnapshotReader last (ObjectStore.load_files unpack net o)
    (λ id files, stats ← diff_view pack unpack net o id files; Ok (ts_changes stats)).
(** The leaf of the agreed snapshot at a path. *)
Definition agreed_leaf (last : option string) (p : string) : option TreeEntry :=
  match last with
  | Some id => match dir_snapshot D id with Ok s => leaf_at D (sn_root s) p | Err _ => None end
  | None => None
  end.

#[local] Instance store_leaf_reader last local remote :
  store_ok unpack D o → known_view pack D local → known_view pack D remote →
  LeafReader (store_reader last) (agreed_leaf last) [local; remote].
Proof using digest_hex.
  intros Hok Hl Hr. split; simpl; [by intros p ->|]. intros id v changes -> Hv Hd.
  apply bind_Ok in Hd as (stats & Hd & Hc). apply Ok_inj in Hc as <-.
  assert (known_view pack D v) as [Hso Hhv] by (apply elem_of_cons in Hv as [->|Hv]; [done|by apply list_elem_of_singleton in Hv as ->]).
  destruct (diff_view_changes pack unpack digest_hex D net o id v stats Hok Hso Hhv Hd) as (s & Hs & Hch).
  eapply changes_between_ext; [|done|exact Hch]. intros p. unfold agreed_leaf. by rewrite Hs.
Qed.


(** C36. Which differences a sync pass takes care of: a portable path where this machine and the hub
    show different contents is uploaded, downloaded, deleted locally or blocked, exactly if it is not
    overlooked, or it is blocked already as a pending conflict or an overwritten placeholder.
    Overlooked are the paths where neither side has the leaf of the agreed snapshot although one side
    shows the content of that leaf: where that leaf is a conflict, the case of interest, or a file
    recorded with the same hash and mode and another size. *)
Theorem gate_complete last fv head local remote pending register corrupted resp blocked p :
  store_ok unpack D o → known_view pack D local → known_view pack D remote → server_view fv head remote →
  is_safe_rel_path p = true → ¬ restored_hub (store_reader last) fv head remote →
  negotiate_sync_with_conflict_gate (store_reader last) fv head local remote pending register corrupted = Ok (resp, blocked) →
  view (local !! p) ≠ view (remote !! p) →
  p ∈ upload_required resp ∨ p ∈ fs_path <$> download_required resp ∨ p ∈ delete_local resp ∨ p ∈ blocked ↔
  ¬ overlooked (agreed_leaf last) local remote p ∨ p ∈ pending ∨ (register = true ∧ p ∈ corrupted).
Proof using digest_hex.
  intros Hok Hl Hr Hs Hsafe Hnr Hn Hne. pose proof (store_leaf_reader last local remote Hok Hl Hr). split.
  - intros Hin. destruct (decide (overlooked (agreed_leaf last) local remote p)) as [Hov|]; [right|by left]. by eapply reader_overlooks.
  - intros [Hno|Hb]; [by eapply reader_complete|]. do 3 right. apply negotiate_Ok in Hn as (rc & _ & _ & Hblk). apply Hblk. tauto.
Qed.
End store.
