(* ===== verification/SnapshotSamples.v ===== *)
(** * Sample runs

    Concrete workspaces on which the theorems about snapshots, landing and the object store apply. *)
From Stdlib Require Import ZArith Lia Ascii Strings.Byte.
From stdpp Require Import sorting numbers strings gmap list_numbers list pretty options.
From S2P Require Import RunnerStore.
From S2P Require Import Prelude Text Paths Model Codec CodecProps Lookup Convert ConvertProps Flatten FlattenProps Diff DiffProps ThreeWay WorkContract.
From S2P Require Import SnapshotDiff SnapshotDiffProps Prepared PreparedProps Reachability ReachabilityProps TreeState TreeStateProps ObjectStore ObjectStoreProps.
From S2P Require Import StoreViews SnapshotViews Snapshots SnapshotProps PruneProps Land LandProps SyncDelta Reconcile ReconcileProps.

Local Open Scope Z_scope.

#[local] Existing Instance ascii_unicode.
(** A short checksum in place of the hash. *)
#[local] Instance quick_blake3 : Blake3 := λ bytes, hex_of 64 (foldl (λ h b, Z.land (h * 31 + byteZ b + 1) (2 ^ 40 - 1)) 7 bytes).
Lemma quick_hex b : is_valid_hash (hash_bytes b) = true.
Proof.
  unfold hash_bytes, quick_blake3. set (z := foldl _ _ _). destruct (hex_of_lower 64 z) as [Hl Hn]. unfold is_valid_hash, slen. by rewrite Hn, Hl.
Qed.
#[local] Existing Instance key_order.
(** Sealing that changes nothing. *)
Definition plain (b : list byte) : Result (list byte) := Ok b.

(** ** Deciding the hypotheses *)
Definition tree_typed (t : Tree) : bool := forallb (λ e, is_utf8 (te_name e) && is_u64 (te_size e)) (tr_entries t).
Definition input_check (i : SnapshotInput) : bool :=
  match flat_to_tree_with_conflicts (si_files i) (si_input_conflicts i) with
  | Ok bundle =>
      match flat_inserts (hash_iter (si_files i)) (si_input_conflicts i) with Ok (_, ins) => bool_decide (NoDup ins.*1) | Err _ => true end
      && forallb tree_typed (map_to_list (tb_trees bundle)).*2
      && match scan_bundle bundle with
         | Ok scan => match prepare_all plain bundle scan with Ok s => bool_decide (NoDup (ps_inserts s).*1) | Err _ => true end
         | Err _ => true
         end
  | Err _ => match flat_inserts (hash_iter (si_files i)) (si_input_conflicts i) with Ok (_, ins) => bool_decide (NoDup ins.*1) | Err _ => true end
  end && is_utf8 (si_author i) && (slen (si_author i) <=? U64_MAX)
  && match si_message i with Some m => is_utf8 m && (slen m <=? U64_MAX) | None => true end.
Lemma input_check_sound i : input_check i = true → sound_input plain i.
Proof.
  unfold input_check. rewrite !andb_true_iff. intros [[[Hc Ha] Hal] Hm]. constructor.
  - intros root ins Hf. apply collision_free_NoDup. rewrite Hf in Hc.
    destruct (flat_to_tree_with_conflicts _ _); [apply andb_true_iff in Hc as [[Hc _]%andb_true_iff _]|]; by apply bool_decide_eq_true in Hc.
  - intros bundle Hb scan s Hs Hp. rewrite Hb, Hs, Hp in Hc. apply andb_true_iff in Hc as [_ Hc]. apply collision_free_NoDup. by apply bool_decide_eq_true in Hc.
  - intros bundle id t Hb Ht. rewrite Hb in Hc. apply andb_true_iff in Hc as [[_ Hc]%andb_true_iff _]. rewrite forallb_forall in Hc.
    assert (tree_typed t = true) as Hty by (apply Hc, list_elem_of_In, list_elem_of_fmap; exists (id, t); split; [done|by apply elem_of_map_to_list]).
    unfold tree_typed in Hty. rewrite forallb_forall in Hty. apply Forall_forall. intros e He%list_elem_of_In%Hty. by apply andb_true_iff in He.
  - split; [done|]. by apply Z.leb_le.
  - intros m Hs. rewrite Hs in Hm. apply andb_true_iff in Hm as [? Hm]. split; [done|]. by apply Z.leb_le.
Qed.
Definition view_check (D : Directory) (i : SnapshotInput) : bool :=
  match flat_to_tree_with_conflicts (si_files i) (si_input_conflicts i) with
  | Ok bundle => match PreparedTreeBundle_new plain bundle with
                 | Ok pb => forallb (λ kv, bool_decide (D !! kv.1 = Some (encode_tree kv.2))) (map_to_list (pb_trees pb))
                 | Err _ => true
                 end
  | Err _ => true
  end.
Lemma view_check_sound D i : view_check D i = true → has_view plain D i.
Proof.
  unfold view_check. intros Hc bundle pb tid t Hb Hp Ht. rewrite Hb, Hp, forallb_forall in Hc. apply (bool_decide_eq_true_1 (D !! tid = _)).
  apply (Hc (tid, t)), list_elem_of_In. by apply elem_of_map_to_list.
Qed.
Definition within (D m : Directory) : bool := forallb (λ kv, bool_decide (D !! kv.1 = Some kv.2)) (map_to_list m).
Lemma within_sound D m k v : within D m = true → m !! k = Some v → D !! k = Some v.
Proof.
  unfold within. rewrite forallb_forall. intros Hw Hm. apply (bool_decide_eq_true_1 (D !! k = _)), (Hw (k, v)), list_elem_of_In.
  by apply elem_of_map_to_list.
Qed.
Definition store_check (D : Directory) (o : Objects) : bool := within D (ob_cache o) && within D (ob_hub o).
Lemma store_check_sound D o : store_check D o = true → store_ok plain D o.
Proof. intros [Hc Hh]%andb_true_iff id c [[Hl|Hl] _] b [= <-]; [by apply (within_sound _ _ _ _ Hc)|by apply (within_sound _ _ _ _ Hh)]. Qed.
Definition agrees_check (D : Directory) (o : Objects) : bool := forallb (λ b, bool_decide (D !! hash_bytes b = Some b)) (ob_written o).
Lemma agrees_check_sound D o : agrees_check D o = true → agrees plain D o.
Proof. unfold agrees_check. rewrite forallb_forall. intros Hc b c Hb [= <-]. by eapply bool_decide_eq_true_1, Hc, list_elem_of_In. Qed.
Definition workspace_check (D : Directory) (w : Workspace) : bool := agrees_check D (ws_objects w) && forallb input_check (ws_inputs w).
Lemma workspace_check_sound D w : workspace_check D w = true → ws_agrees plain D w.
Proof.
  intros [Ha Hi]%andb_true_iff. split; [by apply agrees_check_sound|]. rewrite forallb_forall in Hi. intros i Hin%list_elem_of_In. by apply input_check_sound, Hi.
Qed.
(** ** A workspace with a conflict *)
Definition no_chunks (_ : Objects) (_ _ : string) (_ : option Z) : Result (list string) := Ok [].
Definition calm_answer (scan : gmap string FileState) : SnapAnswer := mkSnapAnswer false false (λ _, Ok tt) None ∅ 1000 scan scan [].
Definition sample_answers (scan : gmap string FileState) (n : nat) : SnapAnswer := calm_answer scan.
(** The hub has the contents of the files. *)
Definition fresh_objects : Objects := mkObjects ∅ ∅ [] None {[hex_a := []; hex_b := []]} ∅ [].
Definition fresh_workspace : Workspace := mkWorkspace fresh_objects None ∅ 0 [] [].
Definition state_of (path hash : string) (size : Z) : FileState := mkFileState path hash size 0 false 0.
Definition view_of (l : list FileState) : gmap string FileState := list_to_map ((λ s, (fs_path s, s)) <$> l).
(** The base, and what another client made of it: a conflict at a.txt and a new file. *)
Definition base_files : gmap string FileState := view_of [state_of "a.txt" hex_a 3; state_of "dir/b.txt" hex_b 4].
Definition other_files : gmap string FileState := view_of [state_of "a.txt" hex_a 3; state_of "dir/b.txt" hex_b 4; state_of "dir/c.txt" hex_a 5].
Definition other_conflict : ConcurrentEdit :=
  ConcurrentEdit_new "a.txt" None (Some (state_of "a.txt" hex_b 6)) (Some (state_of "a.txt" hex_a 3)).
Definition set_up (conflicts : list ConcurrentEdit) (scan : gmap string FileState) : Snap (string * string) :=
  id1 ← Snapshots.write plain plain no_chunks 0 (sample_answers scan) (mkSnapshotInput base_files conflicts [] "ann" None);
  _ ← swap_head (sample_answers scan) None id1;
  _ ← write_ref (sample_answers scan) (agent_base_ref "ann") id1;
  id2 ← Snapshots.write plain plain no_chunks 0 (sample_answers scan) (mkSnapshotInput other_files conflicts [id1] "bob" None);
  mret (id1, id2).
Definition ready : Workspace := Eval vm_compute in (set_up [other_conflict] base_files fresh_workspace).1.
Definition other_id (conflicts : list ConcurrentEdit) : string :=
  match (set_up conflicts base_files fresh_workspace).2 with Ok (_, id) => id | Err _ => "" end.
Definition id2 : string := Eval vm_compute in other_id [other_conflict].
(** The others move the head to the second snapshot at call [k]. *)
Definition moved_answers (head : string) (k : nat) (scan : gmap string FileState) (n : nat) : SnapAnswer :=
  if bool_decide (n = k) then mkSnapAnswer false false (λ _, Ok tt) (Some (Some head)) ∅ 1000 scan scan [] else calm_answer scan.
Lemma moved_others head k scan (D : Directory) n id c b :
  sa_objects (moved_answers head k scan n) !! id = Some c → hash_bytes c = id → plain c = Ok b → D !! id = Some b.
Proof. unfold moved_answers. case_bool_decide; simpl; by rewrite lookup_empty. Qed.
Lemma moved_clock head k scan n : - 2 ^ 63 ≤ sa_now (moved_answers head k scan n) < 2 ^ 63.
Proof. unfold moved_answers. case_bool_decide; simpl; lia. Qed.
Lemma plain_pack b c : plain b = Ok c → plain c = Ok b.
Proof. by intros [= <-]. Qed.
Definition dir_of (w : Workspace) : Directory := ob_cache (ws_objects w) ∪ ob_hub (ws_objects w).

(** The resolution of the conflict loses the race for the head once. *)
Definition resolution_run : Workspace * Result string := Eval vm_compute in
  resolve_conflicts plain plain no_chunks 0 (moved_answers id2 7 base_files) ["a.txt"] (view_of [state_of "a.txt" hex_b 6]) [] "you" ready.
Lemma resolution_exact_witness : ∃ id,
  resolution_run.2 = Ok id ∧ ws_swaps resolution_run.1 = (Some id2, id) :: ws_swaps ready ∧
  resolves (dir_of resolution_run.1) ["a.txt"] [] (view_of [state_of "a.txt" hex_b 6]) id2 id.
Proof.
  destruct resolution_run.2 as [id|] eqn:Hid; [|vm_compute in Hid; discriminate Hid]. exists id. split; [reflexivity|].
  destruct (resolution_exact plain plain no_chunks 0 (moved_answers id2 7 base_files) plain_pack quick_hex (dir_of resolution_run.1)
    (moved_others id2 7 base_files (dir_of resolution_run.1)) (moved_clock id2 7 base_files) ["a.txt"] (view_of [state_of "a.txt" hex_b 6]) [] "you" ready resolution_run.1 id) as (e & Hs & Hr).
  - apply store_check_sound. vm_compute. reflexivity.
  - rewrite <-Hid. vm_cast_no_check (eq_refl resolution_run).
  - apply workspace_check_sound. vm_compute. reflexivity.
  - assert (e = id2) as ->; [|split; [exact Hs|exact Hr]].
    assert (head (ws_swaps resolution_run.1) = Some (Some e, id)) as He by (rewrite Hs; reflexivity).
    vm_compute in He. injection He as <- _. reflexivity.
Defined.

(** Writing a view and loading it again. *)
Definition sample_input : SnapshotInput := mkSnapshotInput base_files [other_conflict] [] "ann" None.
Definition written : string * Objects := Eval vm_compute in
  unwrap_or ("", fresh_objects) (write_inner plain plain (λ _, Ok tt) no_chunks 0 true 1000 ∅ sample_input fresh_objects).
Definition written_dir : Directory := ob_cache written.2 ∪ ob_hub written.2.
Definition loaded_snapshot : Snapshot := Eval vm_compute in
  unwrap_or (mkSnapshot "" [] "" 0 None) (ObjectStore.load_snapshot plain (λ _, Ok tt) written.2 written.1).
Definition loaded : LoadedTree := Eval vm_compute in
  unwrap_or (mkLoadedTree ∅ []) (ObjectStore.load_state plain (λ _, Ok tt) written.2 written.1).
Lemma snapshot_roundtrip_witness :
  sn_author loaded_snapshot = "ann" ∧ lt_files loaded !! "dir/b.txt" = Some (state_of "dir/b.txt" hex_b 4).
Proof.
  destruct (snapshot_roundtrip plain plain no_chunks 0 plain_pack quick_hex written_dir (λ _, Ok tt) (λ _, Ok tt) true 1000 ∅ sample_input
    fresh_objects written.1 written.2 written.2 loaded_snapshot loaded) as (_ & Ha & _ & _ & Hf & _).
  - vm_cast_no_check (eq_refl (@Ok string (string * Objects) written)).
  - apply agrees_check_sound. vm_compute. reflexivity.
  - lia.
  - apply input_check_sound. vm_compute. reflexivity.
  - apply store_check_sound. vm_compute. reflexivity.
  - vm_cast_no_check (eq_refl (@Ok string Snapshot loaded_snapshot)).
  - vm_cast_no_check (eq_refl (@Ok string LoadedTree loaded)).
  - split; [exact Ha|]. rewrite Hf. vm_compute. reflexivity.
Defined.

(** The manifest of the snapshot. *)
Definition manifest : list string := Eval vm_compute in
  unwrap_or [] (snapshot_reachability (ObjectStore.load_snapshot plain (λ _, Ok tt) written.2) (read_tree plain (λ _, Ok tt) written.2 CacheOrHub)
                  (no_chunks written.2) true written.1).
Lemma manifest_exact_witness :
  length manifest = 5%nat ∧ needed (ObjectStore.load_snapshot plain (λ _, Ok tt) written.2) (read_tree plain (λ _, Ok tt) written.2 CacheOrHub)
    (no_chunks written.2) true written.1 hex_b.
Proof.
  split; [vm_compute; reflexivity|].
  destruct (manifest_exact (ObjectStore.load_snapshot plain (λ _, Ok tt) written.2) (read_tree plain (λ _, Ok tt) written.2 CacheOrHub)
    (no_chunks written.2) true written.1 manifest) as [_ Hm].
  - vm_cast_no_check (eq_refl (@Ok string (list string) manifest)).
  - apply Hm. apply (bool_decide_eq_true_1 (hex_b ∈ manifest)). vm_compute. reflexivity.
Defined.

(** Comparing the snapshot with a folder where a file changed. *)
Definition edited : gmap string FileState := view_of [state_of "a.txt" hex_a 3; state_of "dir/b.txt" hex_a 9].
Definition view_dir (files : gmap string FileState) : Directory :=
  match flat_to_tree_with_conflicts files [] ≫= PreparedTreeBundle_new plain with
  | Ok pb => encode_tree <$> pb_trees pb
  | Err _ => ∅
  end.
Definition edited_diff : TreeDiffStats := Eval vm_compute in unwrap_or (mkTreeDiffStats [] 0) (diff_view plain plain (λ _, Ok tt) written.2 written.1 edited).
Lemma diff_view_exact_witness :
  tc_path <$> ts_changes edited_diff = ["a.txt"; "dir/b.txt"] ∧
  ∃ s, dir_snapshot (written_dir ∪ view_dir edited) written.1 = Ok s ∧
    changes_between (leaf_at (written_dir ∪ view_dir edited) (sn_root s)) (view_leaf edited []) (ts_changes edited_diff).
Proof.
  split; [vm_compute; reflexivity|].
  apply (diff_view_exact plain plain quick_hex (written_dir ∪ view_dir edited) (λ _, Ok tt) written.2).
  - apply store_check_sound. vm_compute. reflexivity.
  - apply input_check_sound. vm_compute. reflexivity.
  - apply view_check_sound. vm_compute. reflexivity.
  - vm_cast_no_check (eq_refl (@Ok string TreeDiffStats edited_diff)).
Defined.

(** ** Landing and syncing *)
Definition known_check (D : Directory) (files : gmap string FileState) : bool := input_check (view_input files) && view_check D (view_input files).
Lemma known_check_sound D files : known_check D files = true → known_view plain D files.
Proof. intros [Hi Hv]%andb_true_iff. split; [by apply input_check_sound|by apply view_check_sound]. Qed.

(** A sync pass after the snapshot: here a.txt, a conflict in it, was edited and dir/c.txt is new; the
    hub shows a.txt as the conflict does and has no dir/b.txt. *)
Definition pass_local : gmap string FileState := view_of [state_of "a.txt" hex_b 9; state_of "dir/b.txt" hex_b 4; state_of "dir/c.txt" hex_a 5].
Definition pass_remote : gmap string FileState := view_of [state_of "a.txt" hex_a 3].
Definition pass_dir : Directory := written_dir ∪ view_dir pass_local ∪ view_dir pass_remote.
Definition pass_reader : SnapshotReader := store_reader plain plain (λ _, Ok tt) written.2 (Some written.1).
Definition pass_plan : SyncResponse * gset string := Eval vm_compute in
  unwrap_or (mkSyncResponse [] [] [], ∅) (negotiate_sync_with_conflict_gate pass_reader 3 (Some hex_a) pass_local pass_remote ∅ false []).
Lemma pass_server_view : server_view 3 (Some hex_a) pass_remote.
Proof.
  assert (∀ p s, pass_remote !! p = Some s → p = "a.txt" ∧ s = state_of "a.txt" hex_a 3) as Hone.
  { intros p s Hs. unfold pass_remote, view_of in Hs. simpl in Hs. apply lookup_insert_Some in Hs as [[<- <-]|[_ Hs]]; done. }
  split; [by intros p s [-> ->]%Hone..|done].
Qed.
(** The edit of a.txt is left in the folder, neither uploaded nor recorded as a conflict. *)
Lemma gate_complete_witness :
  ¬ ("a.txt" ∈ upload_required pass_plan.1 ∨ "a.txt" ∈ fs_path <$> download_required pass_plan.1
     ∨ "a.txt" ∈ delete_local pass_plan.1 ∨ "a.txt" ∈ pass_plan.2).
Proof.
  rewrite (gate_complete plain plain (λ _, Ok tt) quick_hex pass_dir written.2 (Some written.1) 3 (Some hex_a) pass_local pass_remote ∅ false []
    pass_plan.1 pass_plan.2 "a.txt").
  - intros [Hno|[Hp|[Hp _]]]; [|set_solver|discriminate Hp]. apply Hno.
    apply (bool_decide_eq_true_1 (overlooked (agreed_leaf pass_dir (Some written.1)) pass_local pass_remote "a.txt")). vm_compute. reflexivity.
  - apply store_check_sound. vm_compute. reflexivity.
  - apply known_check_sound. vm_compute. reflexivity.
  - apply known_check_sound. vm_compute. reflexivity.
  - exact pass_server_view.
  - vm_compute. reflexivity.
  - intros (id & files & _ & _ & _ & Hh). simpl in Hh. discriminate Hh.
  - vm_cast_no_check (eq_refl (@Ok string (SyncResponse * gset string) pass_plan)).
  - vm_compute. discriminate.
Defined.
Definition stored_check (D : Directory) : bool := forallb (λ kv,
  match dir_snapshot D kv.1 with
  | Ok s => match get_flat_tree (dir_tree D) (sn_root s) with Ok files => known_check D files | Err _ => true end
  | Err _ => true
  end) (map_to_list D).
Lemma stored_check_sound D : stored_check D = true →
  ∀ id s files, dir_snapshot D id = Ok s → get_flat_tree (dir_tree D) (sn_root s) = Ok files → known_view plain D files.
Proof.
  unfold stored_check. rewrite forallb_forall. intros Hc id s files Hs Hf. apply known_check_sound.
  destruct (D !! id) as [b|] eqn:Hb; [|unfold dir_snapshot, dir_bytes in Hs; by rewrite Hb in Hs].
  specialize (Hc (id, b)). simpl in Hc. rewrite Hs, Hf in Hc. apply Hc, list_elem_of_In. by apply elem_of_map_to_list.
Qed.
Lemma moved_scans head k scan D : known_check D scan = true → ∀ n, known_view plain D (sa_scan (moved_answers head k scan n)).
Proof. intros Hk n. apply known_check_sound. unfold moved_answers. by case_bool_decide. Qed.
(** The agent changed a file while another client published a new one; the first swap loses the race. *)
Definition plain_ready : Workspace := Eval vm_compute in (set_up [] base_files fresh_workspace).1.
Definition plain_id2 : string := Eval vm_compute in other_id [].
Definition plain_base : string := Eval vm_compute in default "" (ws_head plain_ready).
Definition no_diff : AgentDiff := mkAgentDiff "" [] [] [] [].
Definition landing_run : Workspace * Result (AgentDiff * string) := Eval vm_compute in
  land_agent plain plain no_chunks 0 (moved_answers plain_id2 30 edited) "ann" false None plain_ready.
Definition landing_result : AgentDiff * string := Eval vm_compute in unwrap_or (no_diff, "") landing_run.2.
Definition landing_dir : Directory := dir_of landing_run.1 ∪ view_dir edited.
(** A sync pass publishes an edit and a recorded conflict covers another. *)
Definition sync_run : Workspace * Result unit := Eval vm_compute in
  finish_sync_pass plain plain no_chunks 0 (moved_answers id2 1000 edited) 3 ∅ ∅ false (Some (default "" (ws_head ready))) ready.
Lemma sync_pass_publishes_witness : ∃ n committed,
  ws_refs sync_run.1 !! LAST_SYNCED_REF = Some committed ∧ length (ws_swaps sync_run.1) = 2%nat ∧
  ws_swaps sync_run.1 = (Some (default "" (ws_head ready)), committed) :: ws_swaps ready ∧
  ∃ s, dir_snapshot (dir_of sync_run.1) committed = Ok s ∧ ∀ p, leaf_at (dir_of sync_run.1) (sn_root s) p =
    synced_leaf ∅ (sa_files (moved_answers id2 1000 edited n)) (head_leaf (dir_of sync_run.1) (Some (default "" (ws_head ready)))) p.
Proof.
  destruct (sync_pass_publishes plain plain no_chunks 0 (moved_answers id2 1000 edited) plain_pack quick_hex (dir_of sync_run.1)
    (moved_others id2 1000 edited (dir_of sync_run.1)) (moved_clock id2 1000 edited) 3 ∅ ∅ false (Some (default "" (ws_head ready))) ready sync_run.1)
    as (n & committed & Hlast & [(_ & Hs & _)|(Hs & s & Hd & _ & Hl)]).
  - apply store_check_sound. vm_compute. reflexivity.
  - lia.
  - vm_cast_no_check (eq_refl sync_run).
  - apply workspace_check_sound. vm_compute. reflexivity.
  - apply (f_equal length) in Hs. vm_compute in Hs. discriminate Hs.
  - exists n, committed. split; [exact Hlast|]. split; [vm_compute; reflexivity|]. split; [exact Hs|]. exists s. split; [exact Hd|exact Hl].
Defined.
(** The base records a conflict at a.txt, the agent left the file it shows, the head resolved it. *)
Definition shown : TreeEntry := conflict_entry "a.txt" other_conflict (state_of "a.txt" hex_a 3).
Definition only (e : option TreeEntry) (p : string) : option TreeEntry := if decide (p = "a.txt") then e else None.
Lemma one_change (B A : string → option TreeEntry) b a :
  (∀ p, B p = only b p) → (∀ p, A p = only a p) → b ≠ None → a ≠ None → b ≠ a → changes_between B A [mkTreeChange "a.txt" Modified b a].
Proof.
  intros HB HA Hb Ha Hne. split_and!; [repeat constructor| |].
  - intros c ->%list_elem_of_singleton. simpl. rewrite HB, HA. unfold only. rewrite !decide_True by done. destruct b, a; done.
  - intros p. rewrite HB, HA. unfold only. case_decide as Hp; [|done]. intros _. exists (mkTreeChange "a.txt" Modified b a). split; [by left|done].
Qed.
Lemma single_view s p : fs_deleted s = false → view_leaf {["a.txt" := s]} [] p = only (Some (file_entry "a.txt" s)) p.
Proof.
  intros Hd. rewrite view_leaf_file by (by intros c ?%elem_of_nil). unfold only. case_decide as Hp.
  - subst p. rewrite lookup_singleton_eq. simpl. by rewrite Hd.
  - by rewrite lookup_singleton_ne.
Qed.
Lemma landing_forgets_conflicts_witness :
  let new := land_state (agent_diff "" {["a.txt" := state_of "a.txt" hex_a 3]}
    [mkTreeChange "a.txt" Modified (Some shown) (Some (file_entry "a.txt" (state_of "a.txt" hex_a 3)))]
    [mkTreeChange "a.txt" Modified (Some shown) (Some (file_entry "a.txt" (state_of "a.txt" hex_b 6)))])
    (mkLoadedTree {["a.txt" := state_of "a.txt" hex_b 6]} []) in
  view_leaf (lt_files new) (lt_conflicts new) "a.txt" = Some (file_entry "a.txt" (state_of "a.txt" hex_a 3)).
Proof.
  apply (landing_forgets_conflicts (only (Some shown)) {["a.txt" := state_of "a.txt" hex_a 3]} _ _ "" (mkLoadedTree {["a.txt" := state_of "a.txt" hex_b 6]} []) "a.txt" shown).
  - apply one_change; [done|intros p; by apply single_view|done..].
  - apply one_change; [done| |done..]. intros p. simpl. rewrite single_view by done. unfold only. by case_decide as Hp; [subst p|].
  - intros p s [<- <-]%lookup_singleton_Some. done.
  - vm_compute. reflexivity.
  - reflexivity.
  - vm_compute. reflexivity.
Defined.
